(* ===== verification/_CoqProject ===== *)
-Q . S2P
Prelude.v
Ordered.v
Identifier.v
Codecs.v
Reference.v
Grammar.v
Scalars.v
Context.v
Fingerprint.v
Condition.v
CelValue.v
CelOps.v
CelMachine.v
CelCompiler.v
CelShape.v
CelSemantics.v
CelBounds.v
CelLowering.v
CelTyping.v
CelSafety.v
CelLogic.v
CelBudget.v
CelRefinement.v
CelTheorems.v
Storage.v
Memory.v
MemoryTheory.v
MemoryWrites.v
MemoryActor.v
MemoryPages.v
MemoryTheorems.v
Model.v
ModelErrors.v
Graph.v
GraphTheory.v
SccTheory.v
ModelSource.v
Compiler.v
DeclarationTheory.v
SymbolTheory.v
LoweringTheory.v
EntrypointTheory.v
CompilerTheory.v
TupleValidation.v
Budget.v
Reducer.v
Scheduler.v
CheckSpec.v
CheckSound.v
SchedulerBounds.v
Membership.v
Restrictions.v
Fixture.v
CheckTheorems.v
ModelTyping.v
SourceSemantics.v
CompilerTheorems.v
CheckMemory.v
Evaluator.v
Batch.v
Controller.v
DecisionCache.v
CacheTheory.v
CacheMemory.v
CacheTheorems.v
ListCommon.v
Candidates.v
CandidatesTheory.v
CandidatesBounds.v
ListSpec.v
ListObjects.v
ListObjectsTheory.v
ListTheorems.v
ListUsers.v
ListUsersSpec.v
ListUsersTheory.v
ListUsersTheorems.v
Expand.v
ExpandTheory.v
ModelFingerprint.v
