(* ===== verification/Prelude.v ===== *)
(** * Verification of openfga-rs

    openfga-rs is an authorization server: an authorization model declares, for
    each object type, relations with rewrite rules; relationship tuples relate
    subjects to objects; queries ask whether a subject has a relation to an
    object ([Check]), which objects or users have it ([ListObjects],
    [StreamedListObjects], [ListUsers]) and how a relation is made up
    ([Expand]).  This library models the domain types, the condition language, the
    model compiler, the in-memory storage backend, the check evaluator with its
    batches, the decision cache with its invalidation, and the enumeration
    engines as executable definitions, and proves what makes them correct.

    ** The parts and how they interact

    A model source is compiled ([crates/openfga-model]) into identifiers, a
    table of shared rewrite nodes and reachability metadata.  The check
    evaluator ([crates/openfga-check]) schedules work items over the nodes,
    reads tuples through the storage traits ([crates/openfga-storage]) and asks
    the condition engine ([crates/openfga-condition]) about conditional tuples.
    The enumeration engines ([crates/openfga-list]) traverse the same model and
    tuples, [ListObjects] finishing with residual checks.  The in-memory
    backend ([crates/openfga-storage-memory]) is one implementation of the
    storage traits: an actor that owns all state and answers commands.  The
    decision cache ([crates/openfga-cache]) keeps answers of the check evaluator
    as long as a shared watermark stands still; an actor polls the changelogs of
    the stores in use and advances the watermark, as local writes do.

    ** Files and the code they model

    - [Prelude], [Ordered]: [Result] and its combinators, machine-width
      arithmetic, [BTreeMap] and [BTreeSet] as sorted lists over a class of
      total orders, the hint database [openfga].
    - [Identifier], [Reference], [Grammar], [Codecs], [Scalars], [Context]: the
      domain crate ([identifier.rs], [limits.rs], [reference.rs], [context.rs]);
      identifiers and limits, objects, subjects and tuples, the text grammar,
      concrete ULID and scalar codecs, IEEE doubles and machine integers as
      conditions use them, and condition contexts with their limits.  Validated
      commands ([command.rs]) open [Evaluator].  [Fingerprint] is the hashing of
      contexts and tuples ([fingerprint.rs]) with what it tells apart.
    - [Condition]: the interface of the condition engine as the classes
      [ConditionEngine], [ConditionCompiler] and their laws (an evaluation that
      completes returns the value of the condition within its budget), and the
      declared parameter types.
    - [CelValue], [CelOps], [CelMachine], [CelCompiler]: [value.rs], [ir.rs],
      [evaluator.rs] and [compiler.rs] of the condition crate: runtime values
      and conversions, operators and functions with their charges, the frame
      machine, and the compiler from syntax trees to typed nodes.
      [CelSemantics] is the meaning of a syntax tree; [CelShape], [CelLowering],
      [CelTyping], [CelBounds] prove the compiler, [CelLogic] is a program logic
      for the frame machine, [CelBudget] and [CelRefinement] prove the machine,
      [CelSafety] the types; [CelTheorems] makes compiler and machine instances
      of the interface and holds the results.
    - [Storage]: filters, options, pages, mutations, streams and errors of the
      storage traits.
    - [Memory]: [state.rs], [actor.rs] and [backend.rs] of the in-memory
      backend: every command of the actor over one state with its indexes and
      changelog.  [MemoryTheory], [MemoryWrites], [MemoryActor], [MemoryPages]
      and [MemoryTheorems] hold its invariant, the refinement of
      indexed reads to filters, the exact effect of mutations, pagination.
    - [Model], [ModelErrors], [ModelSource], [Graph], [Compiler]: [ir.rs],
      [error.rs], [limits.rs], [source.rs], [graph.rs] and [compiler.rs]: the
      declaration checks, symbols, restrictions, the lowering machine with node
      interning, entrypoints, cycles, reachability and strongly connected
      components.  [DeclarationTheory], [SymbolTheory], [LoweringTheory],
      [EntrypointTheory], [GraphTheory], [SccTheory] and [CompilerTheory] prove
      each phase; [ModelTyping] states as a class what a compiled model promises
      to the engines; [SourceSemantics] gives declarations a meaning by name, as
      rules, and [CompilerTheorems] proves that compilation preserves it.
    - [TupleValidation], [Restrictions]: [tuple_validation.rs] and how validation
      relates to the restriction a check selects.
    - [Budget], [Reducer], [Scheduler]: [budget.rs], [outcome.rs],
      [error.rs] and [evaluator.rs] of the check crate: the shared work meter,
      operand reducers, the scheduler of one root (work items, memo table, reads
      in flight, the drive loop) and the root entry.  [CheckSpec] is the
      declarative semantics, [CheckSound] the simulation, [SchedulerBounds] the
      resource invariants, [Membership] the least fixpoint it decides,
      [CheckTheorems] and [CheckMemory] the results; [Evaluator] is the class of
      check evaluators the list engines are proved against, with the direct
      evaluator as its instance; [Batch] is a batch of checks run as concurrent
      tasks.
    - [ListCommon], [Candidates], [ListObjects], [ListUsers], [Expand]: the list
      crate.  [CandidatesTheory], [CandidatesBounds], [ListSpec],
      [ListObjectsTheory], [ListTheorems], [ListUsersSpec], [ListUsersTheory],
      [ListUsersTheorems] and [ExpandTheory] prove the engines.
    - [Controller], [DecisionCache]: [invalidation.rs], [controller.rs] and
      [decision.rs] of the cache crate and the caching evaluator of the check
      crate, as programs of atomic operations on shared state.  [CacheTheory]
      composes them into a process ([step]) and proves its invariant with a
      rely-guarantee calculus; [CacheMemory] shows that the in-memory backend
      keeps the contract the caches rely on, and runs the process over it;
      [CacheTheorems] holds the results.
    - [ModelFingerprint]: the fingerprints of condition definitions, model sources
      and compiled models ([compiler.rs] of the condition crate, [source.rs] and
      [compiler.rs] of the model crate), the cache of compiled conditions and the
      check that a stored model was compiled from its source.
    - [Fixture]: one small deployment on which witnesses are evaluated.

    ** State, effects and the outside

    Fallible code returns [result].  The scheduler is a state and error monad;
    the list engines run in [Eng], a state and error monad with a weakest
    precondition calculus ([wp], tactic [wp_steps]); conditions run in [C] (a
    meter and errors) and [K] (the frame machine over it).  Whatever the code does not
    decide (which read completes first, the clock, cancellation, what a
    concurrent root charges to a shared meter, whether a stream consumer is
    still there) is a function of a counter in a world record that theorems
    quantify over, so a theorem holds for every interleaving.  Stored tuples are
    seen through reads; a snapshot hypothesis says that complete reads of one
    query return the matching rows of one table, in any order, and
    [CheckMemory] discharges it for the in-memory backend.  Tasks that share the
    caches are programs whose operations interleave in any order, with an
    environment that commits changes, lets time pass and evicts entries.

    ** What the theorems show

    - Compiler: it always returns within its loop bounds; an accepted source
      passes every declared check; a compiled relation has exactly the members
      its declaration gives it; metadata, recursion groups and entrypoints are
      exact; validation accepts exactly what a restriction allows.
    - Conditions: a compiled condition computes its expression, at the cost the
      expression has; a budget decides whether an evaluation ends and not what
      it answers; statically typed conditions do not go wrong; the limits on
      expressions and contexts are exact.
    - Check: an answer is the decision of the semantics whatever the
      interleaving, budgets and meter; without exclusion it is least-fixpoint
      membership and agrees with the declarations; roots end and stay within
      budget; answers to one question never disagree; a batch returns for each
      item what a check of it alone returns, in any join order.
    - Storage: the actor keeps its indexes and changelog consistent; mutations
      are atomic and exact; reads are filters; pages cover; valid writes
      succeed.
    - Enumeration: [ListObjects] and [ListUsers] agree with the check semantics
      and with the declarations, streaming delivers the unary result, [Expand]
      mirrors the rewrite with exact accounting; all end within their budgets.
    - Caches: decision keys identify questions; an answer of the caching
      evaluator, alone or in a batch, is the decision over one state of the
      backend, of the lifetime of the request or, when it comes from the cache,
      at most the configured lag behind; a process reads its own writes; the
      compilation cache is transparent.
    - Fingerprints: compiled models with one fingerprint are the same model, and
      a model is stored only with the source it was compiled from, unless a
      digest collides.
    - Domain: parsing and rendering of references and identifiers round trip.
    - Five theorems show where the code differs from its documents or from
      itself: a second immediate match fails a check under an intersection, a
      stale condition context hides an object from [ListObjects], a cycle below
      an exclusion hides users from [ListUsers], a large double becomes another
      integer as a parameter, and a dynamic operand makes a well compiled
      condition report inconsistent compiled state.

    ** Bounds and fuel

    Recursion that is not structural takes fuel, and running out is a fault of
    its own that the termination theorems exclude: a check root gets
    [3 * maximum_dispatches + 1] rounds, since each round consumes a dispatch,
    a scheduled item or a read; the reverse traversal and the residual checks
    get rounds from their own budgets and candidate counts; [ListUsers] gets one
    level for each dispatch of its budget and [Expand] one for each level of its
    depth budget; a batch gets one round for each job; a condition gets the turns
    [program_bound] computes from its nodes and the sizes its limits admit, and
    the walk over a syntax tree one for each of its expressions; graph walks get
    the number of nodes and edges.  Machine
    integers are [N] with the width written in each checked or saturating
    operation.

    ** Not modelled

    Third-party code is a parameter with its documented behaviour as a class:
    the ULID and number codecs, the winnow parser, the CEL parser and the time
    parsers of the jiff crate, SHA-256 and HMAC.  A check delegated by the caching
    evaluator reads one state of the backend.  The moka crate's caches
    are finite maps from which entries may be evicted at any time.  Not modelled:
    the byte estimates that weigh cache entries; coalescing of identical checks,
    which shares answers through Tokio channels; the caches of compiled models and
    of tuple reads; tokens, which wrap ciphers; the persistence encoding; the
    SQL and DynamoDB backends, whose behaviour is in the statements a database
    executes; services, transport, authentication, generated protocol code,
    process configuration and tools. *)

From stdpp Require Export base sets list list_monad option numbers strings relations sorting.
From Stdlib Require Export Lia.

#[global] Set Default Goal Selector "!".

(** ** Rust [Result] *)

Inductive result (E T : Type) : Type :=
| Ok (t : T)
| Err (e : E).
Arguments Ok {E T} t.
Arguments Err {E T} e.

#[export] Instance result_ret {E} : MRet (result E) := fun T t => Ok t.
#[export] Instance result_bind {E} : MBind (result E) := fun T U f r =>
  match r with Ok t => f t | Err e => Err e end.
#[export] Instance result_fmap {E} : FMap (result E) := fun T U f r =>
  match r with Ok t => Ok (f t) | Err e => Err e end.

#[export] Instance result_eq_dec {E T} `{EqDecision E, EqDecision T} :
  EqDecision (result E T).
Proof. solve_decision. Defined.

#[export] Instance Ok_inj {E T} : Inj (=) (=) (@Ok E T).
Proof. by intros x y [= ->]. Qed.

(** [Result::map_err] *)
Definition map_err {E F T} (f : E → F) (r : result E T) : result F T :=
  match r with Ok t => Ok t | Err e => Err (f e) end.

(** [Option::ok_or] *)
Definition ok_or {E T} (o : option T) (e : E) : result E T :=
  match o with Some t => Ok t | None => Err e end.

Definition is_ok {E T} (r : result E T) : bool :=
  match r with Ok _ => true | Err _ => false end.

(** Iterating a fallible step over a list: [for x in l { f(x)?; }]. *)
Fixpoint try_each {E A} (f : A → result E ()) (l : list A) : result E () :=
  match l with
  | [] => Ok ()
  | x :: l => _ ← f x; try_each f l
  end.

(** Collecting [iter.map(f).collect::<Result<Vec<_>, _>>()]. *)
Fixpoint try_collect {E A B} (f : A → result E B) (l : list A) : result E (list B) :=
  match l with
  | [] => Ok []
  | x :: l => y ← f x; ys ← try_collect f l; Ok (y :: ys)
  end.

(** Folding a fallible step: [for x in l { state = f(x, state)?; }]. *)
Section try_fold.
Context {E A S : Type} (f : A → S → result E S).

Fixpoint try_fold (l : list A) (s : S) : result E S :=
  match l with
  | [] => Ok s
  | x :: l => s ← f x s; try_fold l s
  end.

End try_fold.

Lemma result_bind_ok {E A B} (r : result E A) (f : A → result E B) (b : B) :
  (r ≫= f) = Ok b ↔ ∃ a, r = Ok a ∧ f a = Ok b.
Proof.
  destruct r as [a|e]; simpl; split.
  - intros H. by exists a.
  - intros (a' & Ha & Hf). by simplify_eq.
  - intros H. discriminate.
  - intros (a' & Ha & _). discriminate.
Qed.

Lemma result_fmap_ok {E A B} (f : A → B) (r : result E A) b :
  f <$> r = Ok b ↔ ∃ a, b = f a ∧ r = Ok a.
Proof. destruct r; cbn; naive_solver. Qed.

Lemma map_err_ok {E F T} (f : E → F) (r : result E T) t :
  map_err f r = Ok t ↔ r = Ok t.
Proof. destruct r; simpl; split; congruence. Qed.

Lemma ok_or_ok {E T} (o : option T) (e : E) t : ok_or o e = Ok t ↔ o = Some t.
Proof. destruct o; simpl; split; congruence. Qed.

Lemma result_bind_err {E A B} (r : result E A) (f : A → result E B) e :
  r ≫= f = Err e ↔ r = Err e ∨ ∃ a, r = Ok a ∧ f a = Err e.
Proof. destruct r; simpl; naive_solver. Qed.

Lemma ok_or_err {E T} (o : option T) (e e' : E) : ok_or o e = Err e' ↔ o = None ∧ e = e'.
Proof. destruct o; simpl; naive_solver. Qed.

Lemma try_each_ok {E A} (f : A → result E ()) l :
  try_each f l = Ok () ↔ ∀ x, x ∈ l → f x = Ok ().
Proof.
  induction l as [|x l IH]; simpl.
  - split; [intros _ y Hy; inversion Hy | done].
  - rewrite result_bind_ok. setoid_rewrite elem_of_cons. split.
    + intros ([] & Hx & Hl) y [->|Hy]; [done|]. by apply IH.
    + intros H. exists (). split; [apply H; by left|]. apply IH. intros y Hy. apply H. by right.
Qed.

Lemma try_collect_ok {E A B} (f : A → result E B) l ys :
  try_collect f l = Ok ys ↔ Forall2 (fun x y => f x = Ok y) l ys.
Proof.
  revert ys. induction l as [|x l IH]; intros ys; simpl.
  - split; [intros [= <-]; constructor | inversion 1; done].
  - rewrite result_bind_ok. split.
    + intros (y & Hy & Hrest). apply result_bind_ok in Hrest as (ys' & Hys & [= <-]).
      constructor; [done|]. by apply IH.
    + inversion 1 as [|? y ? ys' Hy Hys]; subst. exists y. split; [done|].
      apply IH in Hys. by rewrite Hys.
Qed.

(** Collecting items whose errors are only relabelled. *)
Lemma try_collect_relabel {E F A} (g : E → F) (items : list (result E A)) rows :
  try_collect (map_err g) items = Ok rows → items = Ok <$> rows.
Proof.
  rewrite try_collect_ok. induction 1 as [|x y items rows Hx _ IH]; [done|].
  apply map_err_ok in Hx as ->. rewrite fmap_cons. by f_equal.
Qed.

(** ** Machine-width unsigned integers

    An unsigned integer of the source is an [N]; the operations below are the
    checked and saturating operations of the widths the source uses.  [usize]
    is 64 bits wide (the server's supported targets). *)

Definition U32_MAX : N := 4294967295.
Definition U64_MAX : N := 18446744073709551615.
Definition USIZE_MAX : N := U64_MAX.

Definition checked_add (max a b : N) : option N :=
  if (a + b <=? max)%N then Some (a + b)%N else None.

Definition checked_sub (a b : N) : option N :=
  if (b <=? a)%N then Some (a - b)%N else None.

Definition saturating_add (max a b : N) : N := N.min max (a + b).

Definition saturating_sub (a b : N) : N := (a - b)%N.

(** [u32::try_from(usize)] *)
Definition try_u32 (n : N) : option N := if (n <=? U32_MAX)%N then Some n else None.

Lemma checked_add_Some max a b c :
  checked_add max a b = Some c ↔ c = (a + b)%N ∧ (a + b <= max)%N.
Proof. unfold checked_add. destruct (N.leb_spec (a + b) max); naive_solver lia. Qed.

Lemma checked_add_None max a b :
  checked_add max a b = None ↔ (max < a + b)%N.
Proof. unfold checked_add. destruct (N.leb_spec (a + b) max); naive_solver lia. Qed.

Lemma checked_sub_Some a b c :
  checked_sub a b = Some c ↔ c = (a - b)%N ∧ (b <= a)%N.
Proof. unfold checked_sub. destruct (N.leb_spec b a); naive_solver lia. Qed.

Lemma saturating_add_le_max max a b : (saturating_add max a b <= max)%N.
Proof. unfold saturating_add. lia. Qed.

(** ** Strings

    A Rust [String] is a sequence of Unicode scalar values; [len()] is its
    UTF-8 byte length.  Rust compares strings bytewise, which for UTF-8 is the
    lexicographic order of the scalar values. *)

Definition rchar := N.
Definition rstr := list rchar.

(** String literals of the source (ASCII). *)
Definition str (s : string) : rstr :=
  map (fun a => Ascii.N_of_ascii a) (String.list_ascii_of_string s).

(** [char::len_utf8] *)
Definition char_len_utf8 (c : rchar) : N :=
  (if c <? 128 then 1 else if c <? 2048 then 2 else if c <? 65536 then 3 else 4)%N.

(** [str::len] *)
Fixpoint str_len (s : rstr) : N :=
  match s with
  | [] => 0
  | c :: s => char_len_utf8 c + str_len s
  end%N.

Lemma char_len_pos c : (1 <= char_len_utf8 c)%N.
Proof. unfold char_len_utf8. repeat case_match; lia. Qed.

Lemma str_len_app s t : str_len (s ++ t) = (str_len s + str_len t)%N.
Proof. induction s as [|c s IH]; simpl; [lia|]. rewrite IH. lia. Qed.

Lemma str_len_0 s : str_len s = 0%N ↔ s = [].
Proof.
  destruct s as [|c s]; simpl; [done|]. pose proof (char_len_pos c).
  split; [lia | done].
Qed.

(** ** Lists *)

(** [Vec::get] length as [usize]. *)
Definition len {A} (l : list A) : N := N.of_nat (length l).
Lemma len_snoc {A} (l : list A) x : len (l ++ [x]) = (len l + 1)%N.
Proof. unfold len. rewrite length_app. simpl. lia. Qed.

(** [Iterator::find] *)
Fixpoint find_first {A} (f : A → bool) (l : list A) : option A :=
  match l with
  | [] => None
  | x :: l => if f x then Some x else find_first f l
  end.

Lemma find_first_Some {A} (f : A → bool) l x :
  find_first f l = Some x → x ∈ l ∧ f x = true.
Proof.
  induction l as [|y l IH]; simpl; [done|].
  destruct (f y) eqn:E.
  - intros [= ->]. split; [by left | done].
  - intros H. destruct (IH H). split; [by right | done].
Qed.

Lemma find_first_None {A} (f : A → bool) l :
  find_first f l = None ↔ ∀ x, x ∈ l → f x = false.
Proof.
  induction l as [|y l IH]; simpl.
  - split; [intros _ x Hx; inversion Hx | done].
  - destruct (f y) eqn:E.
    + split; [done|]. intros H. rewrite (H y) in E; [done | by left].
    + rewrite IH. setoid_rewrite elem_of_cons. naive_solver.
Qed.

Lemma existsb_elem {A} (f : A → bool) l : existsb f l = true ↔ ∃ x, x ∈ l ∧ f x = true.
Proof. rewrite existsb_exists. by setoid_rewrite <- list_elem_of_In. Qed.

Lemma existsb_elem_false {A} (f : A → bool) l :
  existsb f l = false ↔ ∀ x, x ∈ l → f x = false.
Proof.
  split.
  - intros H x Hx. destruct (f x) eqn:E; [|done].
    assert (existsb f l = true) by (apply existsb_elem; eauto). congruence.
  - intros H. destruct (existsb f l) eqn:E; [|done].
    apply existsb_elem in E as (x & Hx & Hf). rewrite H in Hf; done.
Qed.

Lemma forallb_elem {A} (f : A → bool) l : forallb f l = true ↔ ∀ x, x ∈ l → f x = true.
Proof. rewrite forallb_forall. by setoid_rewrite <- list_elem_of_In. Qed.

(** ** Automation *)

Create HintDb openfga.

(** Destruct the scrutinee of a [match] in a hypothesis, keeping its equation. *)
Ltac case_hyp H :=
  match type of H with
  | context [match ?x with _ => _ end] => destruct x eqn:?
  end.
