(* ===== verification/Ordered.v ===== *)
(** * Ordered collections

    The source keeps its maps and sets in [BTreeMap] and [BTreeSet], and the
    order of iteration is observable (which diagnostic is reported first, the
    order of change identifiers, the order of pages).  They are modelled as
    key-sorted association lists over a type class of total orders; [Ord]
    derived by Rust on a struct or an enum is the lexicographic order of its
    encoding as nested pairs and sums. *)

From S2P Require Import Prelude.

(** ** Total orders *)

Class Ord (A : Type) := cmp : A → A → comparison.

Class OrdLaws (A : Type) `{Ord A} : Prop := {
  cmp_eq_iff : ∀ x y : A, cmp x y = Eq ↔ x = y;
  cmp_antisym : ∀ x y : A, cmp y x = CompOpp (cmp x y);
  cmp_trans : ∀ x y z : A, cmp x y = Lt → cmp y z = Lt → cmp x z = Lt;
}.

Lemma cmp_refl `{OrdLaws A} (x : A) : cmp x x = Eq.
Proof. by apply cmp_eq_iff. Qed.

Lemma cmp_gt_lt `{OrdLaws A} (x y : A) : cmp x y = Gt ↔ cmp y x = Lt.
Proof. rewrite (cmp_antisym x y). destruct (cmp x y); naive_solver. Qed.

#[export] Instance ord_eq_dec `{OrdLaws A} : EqDecision A.
Proof.
  intros x y. destruct (cmp x y) eqn:E.
  - left. by apply cmp_eq_iff.
  - right. intros ->. rewrite cmp_refl in E. discriminate.
  - right. intros ->. rewrite cmp_refl in E. discriminate.
Defined.

#[export] Remove Hints ord_eq_dec : typeclass_instances.

#[export] Instance ord_N : Ord N := N.compare.
#[export] Instance ord_laws_N : OrdLaws N.
Proof.
  split; unfold cmp, ord_N.
  - intros x y. apply N.compare_eq_iff.
  - intros x y. apply N.compare_antisym.
  - intros x y z. rewrite !N.compare_lt_iff. lia.
Qed.

#[export] Instance ord_nat : Ord nat := Nat.compare.
#[export] Instance ord_laws_nat : OrdLaws nat.
Proof.
  split; unfold cmp, ord_nat.
  - intros x y. apply Nat.compare_eq_iff.
  - intros x y. apply Nat.compare_antisym.
  - intros x y z. rewrite !Nat.compare_lt_iff. lia.
Qed.

#[export] Instance ord_prod `{Ord A, Ord B} : Ord (A * B) := fun x y =>
  match cmp x.1 y.1 with Eq => cmp x.2 y.2 | c => c end.
Lemma cmp_pair `{Ord A, Ord B} (x1 y1 : A) (x2 y2 : B) :
  cmp (x1, x2) (y1, y2) = match cmp x1 y1 with Eq => cmp x2 y2 | c => c end.
Proof. reflexivity. Qed.

#[export] Instance ord_laws_prod `{OrdLaws A, OrdLaws B} : OrdLaws (A * B).
Proof.
  split.
  - intros [x1 x2] [y1 y2]. rewrite cmp_pair. destruct (cmp x1 y1) eqn:E.
    + apply cmp_eq_iff in E as ->. rewrite cmp_eq_iff. naive_solver.
    + split; [done|]. intros [= -> ->]. rewrite cmp_refl in E. done.
    + split; [done|]. intros [= -> ->]. rewrite cmp_refl in E. done.
  - intros [x1 x2] [y1 y2]. rewrite !cmp_pair, (cmp_antisym x1 y1), (cmp_antisym x2 y2).
    by destruct (cmp x1 y1).
  - intros [x1 x2] [y1 y2] [z1 z2]. rewrite !cmp_pair.
    destruct (cmp x1 y1) eqn:E1; [|destruct (cmp y1 z1) eqn:E2|done].
    + apply cmp_eq_iff in E1 as ->. destruct (cmp y1 z1); [|done..]. apply cmp_trans.
    + apply cmp_eq_iff in E2 as ->. by rewrite E1.
    + by rewrite (cmp_trans x1 y1 z1).
    + done.
Qed.

#[export] Instance ord_sum `{Ord A, Ord B} : Ord (A + B) := fun x y =>
  match x, y with
  | inl a, inl b => cmp a b
  | inl _, inr _ => Lt
  | inr _, inl _ => Gt
  | inr a, inr b => cmp a b
  end.
#[export] Instance ord_laws_sum `{OrdLaws A, OrdLaws B} : OrdLaws (A + B).
Proof.
  split.
  - intros [x|x] [y|y]; cbn; rewrite ?cmp_eq_iff; naive_solver.
  - intros [x|x] [y|y]; cbn; try done; apply cmp_antisym.
  - intros [x|x] [y|y] [z|z]; cbn; try done; apply cmp_trans.
Qed.

#[export] Instance ord_list `{Ord A} : Ord (list A) :=
  fix go l k :=
    match l, k with
    | [], [] => Eq
    | [], _ :: _ => Lt
    | _ :: _, [] => Gt
    | x :: l, y :: k => match cmp x y with Eq => go l k | c => c end
    end.

Lemma cmp_list_cons `{Ord A} (x y : A) l k :
  cmp (x :: l) (y :: k) = match cmp x y with Eq => cmp l k | c => c end.
Proof. reflexivity. Qed.

#[export] Instance ord_laws_list `{OrdLaws A} : OrdLaws (list A).
Proof.
  split.
  - intros l. induction l as [|x l IH]; intros [|y k]; [done..|].
    rewrite cmp_list_cons. destruct (cmp x y) eqn:E.
    + apply cmp_eq_iff in E as ->. rewrite IH. naive_solver.
    + split; [done|]. intros [= -> ->]. rewrite cmp_refl in E. done.
    + split; [done|]. intros [= -> ->]. rewrite cmp_refl in E. done.
  - intros l. induction l as [|x l IH]; intros [|y k]; [done..|].
    rewrite !cmp_list_cons, (cmp_antisym x y), IH. by destruct (cmp x y).
  - intros l. induction l as [|x l IH]; intros [|y k] [|z m]; try done.
    rewrite !cmp_list_cons.
    destruct (cmp x y) eqn:E1; [|destruct (cmp y z) eqn:E2|done].
    + apply cmp_eq_iff in E1 as ->. destruct (cmp y z); [|done..]. apply IH.
    + apply cmp_eq_iff in E2 as ->. by rewrite E1.
    + by rewrite (cmp_trans x y z).
    + done.
Qed.

(** An order pulled back along an injection: [#[derive(Ord)]] through the
    encoding of a type into pairs and sums. *)
Definition ord_via {A B} `{Ord B} (f : A → B) : Ord A := fun x y => cmp (f x) (f y).

Lemma ord_laws_via {A B} `{OrdLaws B} (f : A → B) `{!Inj (=) (=) f} :
  @OrdLaws A (ord_via f).
Proof.
  split.
  - intros x y. change (cmp (f x) (f y) = Eq ↔ x = y).
    rewrite cmp_eq_iff. split; [apply (inj f) | by intros ->].
  - intros x y. apply (cmp_antisym (f x) (f y)).
  - intros x y z. apply (cmp_trans (f x) (f y) (f z)).
Qed.

(** ** Sorting *)

(** [slice::sort_by]: a stable sort. *)
Fixpoint insert_by {A} (c : A → A → comparison) (x : A) (l : list A) : list A :=
  match l with
  | [] => [x]
  | y :: l' => match c x y with Lt => x :: l | _ => y :: insert_by c x l' end
  end.
Definition sort_by {A} (c : A → A → comparison) (l : list A) : list A := foldl (fun acc x => insert_by c x acc) [] l.

Lemma insert_by_permutation {A} (c : A → A → comparison) x l : insert_by c x l ≡ₚ x :: l.
Proof. induction l as [|y l IH]; simpl; [done|]. destruct (c x y); [|done|]; rewrite IH; apply Permutation_swap. Qed.

Lemma sort_by_permutation {A} (c : A → A → comparison) l : sort_by c l ≡ₚ l.
Proof.
  unfold sort_by. cut (∀ acc, foldl (fun acc x => insert_by c x acc) acc l ≡ₚ l ++ acc).
  { intros Hc. by rewrite (Hc []), app_nil_r. }
  induction l as [|x l IH]; intros acc; cbn [foldl]; [done|].
  rewrite (IH (insert_by c x acc)), insert_by_permutation. simpl. by rewrite Permutation_middle.
Qed.

(** Sorting by a key. *)
Section sort.
Context `{OrdLaws K} {A : Type} (key : A → K).
Abbreviation c := (fun x y => cmp (key x) (key y)).
Abbreviation le := (fun x y => cmp (key x) (key y) ≠ Gt).

Lemma cmp_le_lt (a b d : K) : cmp a b = Lt → cmp b d ≠ Gt → cmp a d = Lt.
Proof.
  intros Hab Hbd. destruct (cmp b d) eqn:E; [|by eapply cmp_trans|done]. apply cmp_eq_iff in E. by subst.
Qed.

Lemma insert_by_sorted x l : StronglySorted le l → StronglySorted le (insert_by c x l).
Proof.
  induction 1 as [|y l Hl IH Hy]; simpl; [repeat constructor|]. destruct (cmp (key x) (key y)) eqn:E.
  - constructor; [done|]. rewrite insert_by_permutation. constructor; [|done]. apply cmp_eq_iff in E. rewrite E.
    by rewrite cmp_refl.
  - constructor; [by constructor|]. constructor; [by rewrite E|]. eapply Forall_impl; [done|]. intros z Hz.
    by rewrite (cmp_le_lt _ _ _ E Hz).
  - constructor; [done|]. rewrite insert_by_permutation. constructor; [|done]. apply cmp_gt_lt in E. by rewrite E.
Qed.

Lemma sort_by_ok l : sort_by c l ≡ₚ l ∧ StronglySorted le (sort_by c l).
Proof.
  unfold sort_by. cut (∀ acc, StronglySorted le acc →
    foldl (fun acc x => insert_by c x acc) acc l ≡ₚ l ++ acc ∧ StronglySorted le (foldl (fun acc x => insert_by c x acc) acc l)).
  { intros Hc. destruct (Hc []) as [Hp Hs]; [constructor|]. by rewrite app_nil_r in Hp. }
  induction l as [|x l IH]; intros acc Ha; cbn [foldl]; [done|].
  destruct (IH (insert_by c x acc)) as [Hp Hs]; [by apply insert_by_sorted|]. split; [|done].
  rewrite Hp, insert_by_permutation. simpl. by rewrite Permutation_middle.
Qed.

End sort.

(** Sorting forgets the order of the input. *)
Lemma sort_by_unique `{OrdLaws K} (l l' : list K) : l ≡ₚ l' → sort_by cmp l = sort_by cmp l'.
Proof.
  intros Hp. destruct (sort_by_ok id l) as [H1 S1], (sort_by_ok id l') as [H2 S2].
  refine (StronglySorted_unique _ _ _ S1 S2 _); [|by rewrite H1, H2].
  intros x y Hxy Hyx. unfold id in *. apply cmp_eq_iff. destruct (cmp x y) eqn:E; [done| |done].
  by apply cmp_gt_lt in E.
Qed.

(** ** [BTreeMap] *)

Abbreviation BTreeMap K V := (list (K * V)).
Abbreviation BTreeSet K := (list K).

Section btree.
Context {K V : Type} `{OrdLaws K}.
Implicit Types (m : BTreeMap K V) (k : K) (v : V).

Fixpoint bt_get k m : option V :=
  match m with
  | [] => None
  | (k', v) :: m => match cmp k k' with Eq => Some v | _ => bt_get k m end
  end.

Fixpoint bt_insert k v m : BTreeMap K V :=
  match m with
  | [] => [(k, v)]
  | (k', v') :: m' =>
      match cmp k k' with
      | Lt => (k, v) :: m
      | Eq => (k, v) :: m'
      | Gt => (k', v') :: bt_insert k v m'
      end
  end.

Fixpoint bt_remove k m : BTreeMap K V :=
  match m with
  | [] => []
  | (k', v') :: m' =>
      match cmp k k' with Eq => bt_remove k m' | _ => (k', v') :: bt_remove k m' end
  end.

Definition bt_contains_key k m : bool :=
  match bt_get k m with Some _ => true | None => false end.

Definition bt_keys m : list K := map fst m.
Definition bt_values m : list V := map snd m.

(** Keys strictly increase: what the Rust collection maintains by itself. *)
Definition bt_sorted m : Prop := StronglySorted (fun x y => cmp x.1 y.1 = Lt) m.

Lemma bt_get_insert k k' v m :
  bt_get k (bt_insert k' v m) = match cmp k k' with Eq => Some v | _ => bt_get k m end.
Proof.
  induction m as [|[k0 v0] m IH]; simpl.
  - done.
  - destruct (cmp k' k0) eqn:E; simpl.
    + apply cmp_eq_iff in E as ->. by destruct (cmp k k0).
    + done.
    + rewrite IH. destruct (cmp k k0) eqn:E0; [|done..].
      apply cmp_eq_iff in E0 as ->. rewrite cmp_gt_lt in E. by rewrite E.
Qed.

Lemma bt_get_insert_eq k v m : bt_get k (bt_insert k v m) = Some v.
Proof. by rewrite bt_get_insert, cmp_refl. Qed.

Lemma bt_get_insert_ne k k' v m : k ≠ k' → bt_get k (bt_insert k' v m) = bt_get k m.
Proof.
  intros Hne. rewrite bt_get_insert. destruct (cmp k k') eqn:E; [|done..].
  by apply cmp_eq_iff in E.
Qed.

Lemma bt_get_remove k k' m :
  bt_get k (bt_remove k' m) = match cmp k k' with Eq => None | _ => bt_get k m end.
Proof.
  induction m as [|[k0 v0] m IH]; simpl.
  - by destruct (cmp k k').
  - destruct (cmp k' k0) eqn:E; simpl; rewrite IH.
    + apply cmp_eq_iff in E as ->. by destruct (cmp k k0).
    + destruct (cmp k k0) eqn:E0; [|done..].
      apply cmp_eq_iff in E0 as ->. rewrite cmp_antisym, E. done.
    + destruct (cmp k k0) eqn:E0; [|done..].
      apply cmp_eq_iff in E0 as ->. rewrite cmp_antisym, E. done.
Qed.

Lemma bt_get_remove_eq k m : bt_get k (bt_remove k m) = None.
Proof. by rewrite bt_get_remove, cmp_refl. Qed.

Lemma bt_get_remove_ne k k' m : k ≠ k' → bt_get k (bt_remove k' m) = bt_get k m.
Proof.
  intros Hne. rewrite bt_get_remove. destruct (cmp k k') eqn:E; [|done..].
  by apply cmp_eq_iff in E.
Qed.

Lemma bt_get_elem k v m : bt_get k m = Some v → (k, v) ∈ m.
Proof.
  induction m as [|[k' v'] m IH]; simpl; [done|].
  destruct (cmp k k') eqn:E.
  - apply cmp_eq_iff in E as ->. intros [= ->]. by left.
  - intros Hm. right. by apply IH.
  - intros Hm. right. by apply IH.
Qed.

Lemma bt_sorted_elem_get k v m : bt_sorted m → (k, v) ∈ m → bt_get k m = Some v.
Proof.
  induction 1 as [|[k' v'] m Hs IH Hlt]; simpl; [by intros ?%elem_of_nil|].
  intros [[= <- <-]|Hin]%elem_of_cons.
  - by rewrite cmp_refl.
  - rewrite Forall_forall in Hlt. specialize (Hlt _ Hin). simpl in Hlt.
    rewrite cmp_antisym, Hlt. simpl. by apply IH.
Qed.

Lemma bt_get_elem_iff k v m : bt_sorted m → bt_get k m = Some v ↔ (k, v) ∈ m.
Proof. intros Hs. split; [apply bt_get_elem | by apply bt_sorted_elem_get]. Qed.

Lemma bt_insert_elem k v m x : x ∈ bt_insert k v m → x = (k, v) ∨ x ∈ m.
Proof.
  induction m as [|[k' v'] m IH]; simpl; [set_solver|].
  destruct (cmp k k'); rewrite !elem_of_cons; naive_solver.
Qed.

Lemma bt_remove_elem k m x : x ∈ bt_remove k m → x ∈ m.
Proof.
  induction m as [|[k' v'] m IH]; simpl; [done|].
  destruct (cmp k k'); rewrite ?elem_of_cons; naive_solver.
Qed.

Lemma bt_sorted_keys m : bt_sorted m → NoDup m.*1.
Proof.
  induction 1 as [|[k v] m _ IH Hall]; simpl; constructor; [|done].
  intros ([k' v'] & -> & Hin)%list_elem_of_fmap. rewrite Forall_forall in Hall. specialize (Hall _ Hin). simpl in Hall.
  by rewrite cmp_refl in Hall.
Qed.

Lemma bt_sorted_nil : bt_sorted [].
Proof. constructor. Qed.

Lemma bt_sorted_insert k v m : bt_sorted m → bt_sorted (bt_insert k v m).
Proof.
  induction 1 as [|[k' v'] m Hs IH Hlt]; simpl; [repeat constructor|].
  rewrite Forall_forall in Hlt.
  destruct (cmp k k') eqn:E; (constructor; [try done | apply Forall_forall]).
  - apply cmp_eq_iff in E as ->. done.
  - constructor; [done | by apply Forall_forall].
  - intros x [->|Hx]%elem_of_cons; [done|]. simpl in *.
    eapply cmp_trans; [done|]. by apply Hlt.
  - intros x Hx. apply bt_insert_elem in Hx as [->|Hx]; simpl; [by apply cmp_gt_lt | by apply Hlt].
Qed.

Lemma bt_sorted_remove k m : bt_sorted m → bt_sorted (bt_remove k m).
Proof.
  induction 1 as [|[k' v'] m Hs IH Hlt]; simpl; [constructor|].
  destruct (cmp k k'); [done| |];
    (constructor; [done|]; rewrite Forall_forall in *; eauto using bt_remove_elem).
Qed.

(** Sorted maps with the same lookups are the same map. *)
Lemma bt_ext m1 m2 :
  bt_sorted m1 → bt_sorted m2 → (∀ k, bt_get k m1 = bt_get k m2) → m1 = m2.
Proof.
  intros Hs1. revert m2. induction Hs1 as [|[k1 v1] m1 Hs1 IH Hlt1]; intros m2 Hs2 Hext.
  - destruct m2 as [|[k v] m2]; [done|]. specialize (Hext k). simpl in Hext.
    rewrite cmp_refl in Hext. done.
  - destruct Hs2 as [|[k2 v2] m2 Hs2 Hlt2].
    { specialize (Hext k1). simpl in Hext. rewrite cmp_refl in Hext. done. }
    assert (Hnone : ∀ k0 v0 m k, Forall (fun y : K * V => cmp (k0, v0 : V).1 y.1 = Lt) m →
      cmp k k0 ≠ Gt → bt_get k m = None).
    { intros k0 v0 m k Hm Hk. destruct (bt_get k m) as [v|] eqn:E; [|done].
      apply bt_get_elem in E. rewrite Forall_forall in Hm. specialize (Hm _ E). simpl in Hm.
      destruct (cmp k k0) eqn:E0.
      - apply cmp_eq_iff in E0 as ->. rewrite cmp_refl in Hm. done.
      - pose proof (cmp_trans k k0 k E0 Hm) as Hc.
        rewrite cmp_refl in Hc. done.
      - done. }
    assert (k1 = k2) as ->.
    { destruct (cmp k1 k2) eqn:E; [by apply cmp_eq_iff| |].
      - specialize (Hext k1). simpl in Hext. rewrite cmp_refl, E in Hext.
        rewrite (Hnone k2 v2) in Hext; [done|done|]. by rewrite E.
      - specialize (Hext k2). simpl in Hext. rewrite cmp_refl, (cmp_antisym k1 k2), E in Hext.
        simpl in Hext. rewrite (Hnone k1 v1) in Hext; [done|done|].
        by rewrite (cmp_antisym k1 k2), E. }
    pose proof (Hext k2) as Hk. simpl in Hk. rewrite !cmp_refl in Hk. injection Hk as ->.
    f_equal. apply IH; [done|]. intros k. specialize (Hext k). simpl in Hext.
    destruct (cmp k k2) eqn:E; [|done..].
    rewrite !(Hnone k2 v2); [done|done|by rewrite E|done|by rewrite E].
Qed.

End btree.

#[export] Hint Resolve bt_sorted_nil bt_sorted_insert bt_sorted_remove : openfga.

(** ** [BTreeSet] *)

Section btree_set.
Context {K : Type} `{OrdLaws K}.
Implicit Types (s : BTreeSet K) (k : K).

Definition bs_contains k s : bool :=
  existsb (fun x => match cmp k x with Eq => true | _ => false end) s.

Fixpoint bs_insert k s : BTreeSet K :=
  match s with
  | [] => [k]
  | x :: s' =>
      match cmp k x with Lt => k :: s | Eq => s | Gt => x :: bs_insert k s' end
  end.

Fixpoint bs_remove k s : BTreeSet K :=
  match s with
  | [] => []
  | x :: s' => match cmp k x with Eq => bs_remove k s' | _ => x :: bs_remove k s' end
  end.

(** [iter.into_iter().collect::<BTreeSet<_>>()] and [extend]. *)
Definition bs_extend s (l : list K) : BTreeSet K := foldl (fun s k => bs_insert k s) s l.
Definition bs_collect (l : list K) : BTreeSet K := bs_extend [] l.

Definition bs_sorted s : Prop := StronglySorted (fun x y => cmp x y = Lt) s.

Lemma bs_contains_elem k s : bs_contains k s = true ↔ k ∈ s.
Proof.
  unfold bs_contains. rewrite existsb_elem. split.
  - intros (x & Hx & E). destruct (cmp k x) eqn:E'; try done.
    by apply cmp_eq_iff in E' as ->.
  - intros Hk. exists k. by rewrite cmp_refl.
Qed.

Lemma bs_contains_false k s : bs_contains k s = false ↔ k ∉ s.
Proof. rewrite <- bs_contains_elem. by destruct (bs_contains k s). Qed.

Lemma bs_insert_elem k s x : x ∈ bs_insert k s ↔ x = k ∨ x ∈ s.
Proof.
  induction s as [|y s IH]; simpl; [set_solver|].
  destruct (cmp k y) eqn:E; rewrite ?elem_of_cons, ?IH.
  - apply cmp_eq_iff in E as ->. naive_solver.
  - naive_solver.
  - naive_solver.
Qed.

Lemma bs_remove_elem k s x : x ∈ bs_remove k s ↔ x ≠ k ∧ x ∈ s.
Proof.
  induction s as [|y s IH]; simpl; [set_solver|].
  destruct (cmp k y) eqn:E; rewrite ?elem_of_cons, ?IH.
  - apply cmp_eq_iff in E as ->. naive_solver.
  - assert (y ≠ k) by (intros ->; rewrite cmp_refl in E; done). naive_solver.
  - assert (y ≠ k) by (intros ->; rewrite cmp_refl in E; done). naive_solver.
Qed.

Lemma bs_extend_elem s l x : x ∈ bs_extend s l ↔ x ∈ s ∨ x ∈ l.
Proof.
  unfold bs_extend. revert s. induction l as [|y l IH]; intros s; simpl.
  - rewrite elem_of_nil. naive_solver.
  - rewrite IH, bs_insert_elem, elem_of_cons. naive_solver.
Qed.

Lemma bs_collect_elem l x : x ∈ bs_collect l ↔ x ∈ l.
Proof. unfold bs_collect. rewrite bs_extend_elem, elem_of_nil. naive_solver. Qed.

Lemma bs_sorted_nil : bs_sorted [].
Proof. constructor. Qed.

Lemma bs_sorted_insert k s : bs_sorted s → bs_sorted (bs_insert k s).
Proof.
  induction 1 as [|y s Hs IH Hlt]; simpl; [repeat constructor|].
  destruct (cmp k y) eqn:E; (constructor; [try done | try done]).
  - by constructor.
  - constructor; [done|]. eapply Forall_impl; [done|]. intros z Hz. by eapply cmp_trans.
  - rewrite Forall_forall in *. intros z [->|Hz]%bs_insert_elem; [by apply cmp_gt_lt | auto].
Qed.

Lemma bs_sorted_remove k s : bs_sorted s → bs_sorted (bs_remove k s).
Proof.
  induction 1 as [|y s Hs IH Hlt]; simpl; [constructor|].
  destruct (cmp k y); [done| |]; (constructor; [done|]; rewrite Forall_forall in *;
    intros z Hz%bs_remove_elem; naive_solver).
Qed.

Lemma bs_sorted_extend s l : bs_sorted s → bs_sorted (bs_extend s l).
Proof.
  unfold bs_extend. revert s. induction l as [|y l IH]; intros s Hs; simpl; [done|].
  by apply IH, bs_sorted_insert.
Qed.

Lemma bs_sorted_collect l : bs_sorted (bs_collect l).
Proof. apply bs_sorted_extend, bs_sorted_nil. Qed.

Lemma bs_insert_length_new k s : k ∉ s → length (bs_insert k s) = S (length s).
Proof.
  induction s as [|y s IH]; simpl; [done|]. rewrite not_elem_of_cons. intros [Hne Hk].
  destruct (cmp k y) eqn:E; simpl; [by apply cmp_eq_iff in E | done | by rewrite IH].
Qed.

Lemma bs_insert_length_le k s : length (bs_insert k s) ≤ S (length s).
Proof. induction s as [|y s IH]; simpl; [lia|]. destruct (cmp k y); simpl; lia. Qed.

Lemma bs_sorted_NoDup s : bs_sorted s → NoDup s.
Proof.
  induction 1 as [|y s Hs IH Hlt]; constructor; [|done].
  rewrite Forall_forall in Hlt. intros Hin. specialize (Hlt _ Hin).
  rewrite cmp_refl in Hlt. done.
Qed.

(** Sorted sets with the same elements are the same set. *)
Lemma bs_ext s1 s2 : bs_sorted s1 → bs_sorted s2 → (∀ k, k ∈ s1 ↔ k ∈ s2) → s1 = s2.
Proof.
  intros Hs1. revert s2. induction Hs1 as [|k1 s1 Hs1 IH Hlt1]; intros s2 Hs2 Hext.
  - destruct s2 as [|k s2]; [done|]. exfalso. apply (elem_of_nil k), Hext. by left.
  - destruct Hs2 as [|k2 s2 Hs2 Hlt2].
    { exfalso. apply (elem_of_nil k1), Hext. by left. }
    rewrite Forall_forall in Hlt1, Hlt2.
    assert (Hirr : ∀ x y : K, cmp x y = Lt → cmp y x = Lt → False).
    { intros x y E1 E2. pose proof (cmp_trans _ _ _ E1 E2) as E. rewrite cmp_refl in E. done. }
    assert (k1 = k2) as ->.
    { assert (k1 ∈ k2 :: s2) as H1 by (apply Hext; by left).
      assert (k2 ∈ k1 :: s1) as H2 by (apply Hext; by left).
      apply elem_of_cons in H1 as [?|H1]; [done|].
      apply elem_of_cons in H2 as [?|H2]; [done|]. exfalso. eauto. }
    f_equal. apply IH; [done|]. intros k. specialize (Hext k).
    rewrite !elem_of_cons in Hext. split; intros Hk.
    + assert (k ≠ k2) by (intros ->; specialize (Hlt1 _ Hk); rewrite cmp_refl in Hlt1; done).
      naive_solver.
    + assert (k ≠ k2) by (intros ->; specialize (Hlt2 _ Hk); rewrite cmp_refl in Hlt2; done).
      naive_solver.
Qed.

Lemma bs_extend_same_length s (l : list K) :
  length (bs_extend s l) = length s → ∀ x, x ∈ bs_extend s l → x ∈ s.
Proof.
  assert (Hle : ∀ l s, length s ≤ length (bs_extend s l)).
  { intros l'. induction l' as [|k l' IH]; intros s'; simpl; [done|].
    etrans; [|apply IH]. destruct (bs_contains k s') eqn:Hk;
      [apply bs_contains_elem in Hk|apply bs_contains_false in Hk].
    - clear IH. induction s' as [|y s' IHs]; simpl; [lia|]. case_match; simpl; [done|lia|].
      apply le_n_S, IHs. apply elem_of_cons in Hk as [->|]; [|done]. by rewrite cmp_refl in *.
    - rewrite bs_insert_length_new by done. lia. }
  revert s. induction l as [|k l IH]; intros s Hlen x; simpl in *; [done|].
  destruct (bs_contains k s) eqn:Hk;
    [apply bs_contains_elem in Hk|apply bs_contains_false in Hk].
  - intros Hx. apply bs_extend_elem in Hx as [Hx|Hx].
    + apply bs_insert_elem in Hx as [->|]; done.
    + assert (Hl : length (bs_insert k s) = length s).
      { pose proof (Hle l (bs_insert k s)). pose proof (Hle [k] s). simpl in *. lia. }
      rewrite <-Hl in Hlen. specialize (IH _ Hlen x). rewrite bs_extend_elem, bs_insert_elem in IH.
      destruct IH as [->|]; auto.
  - pose proof (Hle l (bs_insert k s)). rewrite bs_insert_length_new in * by done. lia.
Qed.

End btree_set.

#[export] Hint Resolve bs_sorted_nil bs_sorted_insert bs_sorted_remove bs_sorted_extend
  bs_sorted_collect : openfga.
