(* ===== verification/Identifier.v ===== *)
(** * Identifiers, name grammars and input limits

    [crates/openfga-domain/src/{error,limits,identifier}.rs]: the structured
    parse and validation errors, the ceiling-checked [Limit] and [InputLimits]
    values, the character classes of the wire grammar,
    [parse_complete_component], the four ASCII names, object identifiers and
    the canonical ULID identifiers.  The parser combinators of the [winnow]
    crate and the textual codec of the [ulid] crate are parameters ([Winnow],
    [UlidCodec]) with their documented behaviour as laws. *)

From S2P Require Import Prelude Ordered.

(** ** Errors ([error.rs]) *)

Inductive ParseKind :=
| PKEmpty | PKMissingSeparator | PKUnexpectedSeparator | PKInvalidCharacter
| PKTooLong | PKInvalidLength | PKNonCanonical.

Record ParseError := mkParseError {
  pe_field : string;
  pe_offset : N;
  pe_kind : ParseKind;
}.

Inductive ValidationReason :=
| VRMissing | VROutOfRange | VRTooLarge | VRTooManyItems | VRTooDeep | VRDuplicate
| VRConflicting | VRInconsistent | VRExpired | VRIntegrity.

Record ValidationError := mkValidationError {
  ve_field : string;
  ve_reason : ValidationReason;
}.

(** The two variants of [DomainError] the textual parsers produce. *)
Inductive DomainError :=
| DEParse (e : ParseError)
| DEValidation (e : ValidationError).

#[export] Instance ParseKind_eq_dec : EqDecision ParseKind.
Proof. solve_decision. Defined.
#[export] Instance ParseError_eq_dec : EqDecision ParseError.
Proof. solve_decision. Defined.
#[export] Instance ValidationReason_eq_dec : EqDecision ValidationReason.
Proof. solve_decision. Defined.
#[export] Instance ValidationError_eq_dec : EqDecision ValidationError.
Proof. solve_decision. Defined.
#[export] Instance DomainError_eq_dec : EqDecision DomainError.
Proof. solve_decision. Defined.

(** ** Limits ([limits.rs]) *)

Record LimitError := mkLimitError { le_requested : N; le_maximum : N }.

(** [Limit::<MAX>::new] *)
Definition limit_new (MAX value : N) : result LimitError N :=
  if (value =? 0)%N then Err (mkLimitError value MAX)
  else if (value <=? MAX)%N then Ok value
  else Err (mkLimitError value MAX).

(** [trusted_limit::<MAX>] *)
Definition trusted_limit (MAX value : N) : N :=
  match limit_new MAX value with Ok limit => limit | Err _ => 1%N end.

Record InputLimits := mkInputLimits {
  type_name_bytes : N;
  relation_name_bytes : N;
  condition_name_bytes : N;
  parameter_name_bytes : N;
  object_id_bytes : N;
  object_ref_bytes : N;
  subject_ref_bytes : N;
  context_key_bytes : N;
  context_string_bytes : N;
  context_bytes : N;
  context_depth : N;
  context_values : N;
  context_collection_items : N;
  contextual_tuples_limit : N;
  write_tuples_limit : N;
  batch_items : N;
  user_filters : N;
  type_definitions_limit : N;
  relations_limit : N;
  operands_limit : N;
  assertions_limit : N;
  token_bytes : N;
  token_cursor_bytes : N;
  token_keys : N;
  results_limit : N;
}.

(** [InputLimits::default()] *)
Definition default_input_limits : InputLimits := {|
  type_name_bytes := trusted_limit 254 254;
  relation_name_bytes := trusted_limit 50 50;
  condition_name_bytes := trusted_limit 50 50;
  parameter_name_bytes := trusted_limit 50 50;
  object_id_bytes := trusted_limit 510 510;
  object_ref_bytes := trusted_limit 256 256;
  subject_ref_bytes := trusted_limit 512 512;
  context_key_bytes := trusted_limit 256 256;
  context_string_bytes := trusted_limit 32768 4096;
  context_bytes := trusted_limit 32768 32768;
  context_depth := trusted_limit 64 16;
  context_values := trusted_limit 4096 1024;
  context_collection_items := trusted_limit 1024 100;
  contextual_tuples_limit := trusted_limit 1000 100;
  write_tuples_limit := trusted_limit 5000 100;
  batch_items := trusted_limit 1000 50;
  user_filters := trusted_limit 1000 100;
  type_definitions_limit := trusted_limit 1000 100;
  relations_limit := trusted_limit 2000 100;
  operands_limit := trusted_limit 4096 100;
  assertions_limit := trusted_limit 1000 100;
  token_bytes := trusted_limit 5120 5120;
  token_cursor_bytes := trusted_limit 4096 1024;
  token_keys := trusted_limit 256 8;
  results_limit := trusted_limit 100000 1000;
|}.

Definition limit_in (MAX value : N) : Prop := (1 <= value <= MAX)%N.

(** What the field types [Limit<MAX>] guarantee of every [InputLimits] value. *)
Definition input_limits_ok (l : InputLimits) : Prop :=
  limit_in 254 l.(type_name_bytes) ∧ limit_in 50 l.(relation_name_bytes) ∧
  limit_in 50 l.(condition_name_bytes) ∧ limit_in 50 l.(parameter_name_bytes) ∧
  limit_in 510 l.(object_id_bytes) ∧ limit_in 256 l.(object_ref_bytes) ∧
  limit_in 512 l.(subject_ref_bytes) ∧ limit_in 256 l.(context_key_bytes) ∧
  limit_in 32768 l.(context_string_bytes) ∧ limit_in 32768 l.(context_bytes) ∧
  limit_in 64 l.(context_depth) ∧ limit_in 4096 l.(context_values) ∧
  limit_in 1024 l.(context_collection_items) ∧ limit_in 1000 l.(contextual_tuples_limit) ∧
  limit_in 5000 l.(write_tuples_limit) ∧ limit_in 1000 l.(batch_items) ∧
  limit_in 1000 l.(user_filters) ∧ limit_in 1000 l.(type_definitions_limit) ∧
  limit_in 2000 l.(relations_limit) ∧ limit_in 4096 l.(operands_limit) ∧
  limit_in 1000 l.(assertions_limit) ∧ limit_in 5120 l.(token_bytes) ∧
  limit_in 4096 l.(token_cursor_bytes) ∧ limit_in 256 l.(token_keys) ∧
  limit_in 100000 l.(results_limit).

(** ** Character classes ([identifier.rs], [reference.rs]) *)

Definition is_ascii_graphic (c : rchar) : bool := (33 <=? c)%N && (c <=? 126)%N.

Definition CHAR_COLON : rchar := 58%N.
Definition CHAR_HASH : rchar := 35%N.
Definition CHAR_AT : rchar := 64%N.
Definition CHAR_STAR : rchar := 42%N.

Definition is_ascii_name_character (c : rchar) : bool :=
  is_ascii_graphic c &&
  negb ((c =? CHAR_COLON)%N || (c =? CHAR_HASH)%N || (c =? CHAR_AT)%N).

(** [char::is_control]: general category Cc. *)
Definition char_is_control (c : rchar) : bool :=
  (c <=? 31)%N || ((127 <=? c)%N && (c <=? 159)%N).

(** [char::is_whitespace]: the White_Space property. *)
Definition char_is_whitespace (c : rchar) : bool :=
  ((9 <=? c) && (c <=? 13) || (c =? 32) || (c =? 133) || (c =? 160) || (c =? 5760)
   || (8192 <=? c) && (c <=? 8202) || (c =? 8232) || (c =? 8233) || (c =? 8239)
   || (c =? 8287) || (c =? 12288))%N.

Definition is_object_id_character (c : rchar) : bool :=
  negb (char_is_control c) && negb (char_is_whitespace c) &&
  negb ((c =? CHAR_COLON)%N || (c =? CHAR_HASH)%N).

Definition is_ascii_alphanumeric (c : rchar) : bool :=
  ((48 <=? c) && (c <=? 57) || (65 <=? c) && (c <=? 90) || (97 <=? c) && (c <=? 122))%N.

Definition is_token_key_character (c : rchar) : bool :=
  is_ascii_alphanumeric c || (c =? 45)%N || (c =? 95)%N.

(** ** Parser combinators of the [winnow] crate *)

(** The longest prefix of characters satisfying [p]. *)
Fixpoint span (p : rchar → bool) (s : rstr) : rstr * rstr :=
  match s with
  | [] => ([], [])
  | c :: s' => if p c then let '(a, b) := span p s' in (c :: a, b) else ([], s)
  end.

(** [take_while(1.., p)] consumes the longest nonempty prefix, [literal(c)] one
    character, and both fail without consuming otherwise. *)
Class Winnow := {
  take_while1 : (rchar → bool) → rstr → option (rstr * rstr);
  literal : rchar → rstr → option rstr;
}.

Class WinnowLaws `{Winnow} : Prop := {
  take_while1_spec : ∀ p s,
    take_while1 p s = match span p s with ([], _) => None | r => Some r end;
  literal_spec : ∀ c s,
    literal c s = match s with
                  | x :: s' => if (x =? c)%N then Some s' else None
                  | [] => None
                  end;
}.

(** [eof] *)
Definition eof (s : rstr) : option () := match s with [] => Some () | _ => None end.

(** [opt(parser)] backtracks to its input when the parser fails. *)
Definition opt {A} (parser : rstr → option (A * rstr)) (s : rstr) : option A * rstr :=
  match parser s with Some (a, s') => (Some a, s') | None => (None, s) end.

Lemma span_app p s a b : span p s = (a, b) → s = a ++ b.
Proof.
  revert a b. induction s as [|c s IH]; simpl; intros a b E; [by simplify_eq|].
  destruct (p c); [|by simplify_eq]. destruct (span p s) as [a' b'].
  simplify_eq/=. f_equal. by apply IH.
Qed.

Lemma span_all p a b :
  forallb p a = true → (match b with [] => True | c :: _ => p c = false end) →
  span p (a ++ b) = (a, b).
Proof.
  intros Ha Hb. induction a as [|c a IH]; simpl in *.
  - destruct b as [|c b]; simpl; [done|]. by rewrite Hb.
  - apply andb_prop in Ha as [Hc Ha]. by rewrite Hc, IH.
Qed.

Lemma span_prefix p s a b : span p s = (a, b) → forallb p a = true.
Proof.
  revert a b. induction s as [|c s IH]; simpl; intros a b E; [by simplify_eq|].
  destruct (p c) eqn:Ep; [|by simplify_eq]. destruct (span p s) as [a' b'].
  simplify_eq/=. rewrite Ep. by eapply IH.
Qed.

Lemma span_head p s a b :
  span p s = (a, b) → match b with [] => True | c :: _ => p c = false end.
Proof.
  revert a b. induction s as [|c s IH]; simpl; intros a b E; [by simplify_eq|].
  destruct (p c) eqn:Ep; [|by simplify_eq]. destruct (span p s) as [a' b'].
  simplify_eq/=. by eapply IH.
Qed.

(** ** Complete components *)

Section components.
Context `{WinnowLaws}.

(** The byte offset of the first character outside the class. *)
Fixpoint first_rejected (allowed : rchar → bool) (offset : N) (s : rstr) : option N :=
  match s with
  | [] => None
  | c :: s => if allowed c then first_rejected allowed (offset + char_len_utf8 c) s
              else Some offset
  end.

Definition parse_complete_component (value : rstr) (field : string)
    (maximum_bytes : N) (allowed : rchar → bool) : result ParseError rstr :=
  match value with
  | [] => Err (mkParseError field 0 PKEmpty)
  | _ =>
      if (maximum_bytes <? str_len value)%N then
        Err (mkParseError field maximum_bytes PKTooLong)
      else
        match ('(a, rest) ← take_while1 allowed value; _ ← eof rest; Some a) with
        | Some _ => Ok value
        | None =>
            let offset := default (str_len value) (first_rejected allowed 0 value) in
            Err (mkParseError field offset PKInvalidCharacter)
        end
  end.

(** A component accepts exactly the nonempty strings within the byte limit
    all of whose characters are allowed, and returns them unchanged. *)
Lemma parse_complete_component_ok value field max allowed v :
  parse_complete_component value field max allowed = Ok v ↔
  v = value ∧ value ≠ [] ∧ (str_len value <= max)%N ∧ forallb allowed value = true.
Proof.
  unfold parse_complete_component. destruct value as [|c value]; [naive_solver|].
  remember (c :: value) as s eqn:Hsdef. destruct (N.ltb_spec max (str_len s)) as [Hl|Hl].
  { split; [done | intros (_ & _ & ? & _); lia]. }
  rewrite take_while1_spec. destruct (span allowed s) as [a b] eqn:E.
  pose proof (span_app _ _ _ _ E) as Hs. pose proof (span_prefix _ _ _ _ E) as Ha.
  split.
  - destruct a as [|x a]; simpl; [done|]. destruct b as [|y b]; simpl; [|done].
    rewrite app_nil_r in Hs. intros [= <-]. split_and!; [done|by rewrite Hsdef|done|].
    rewrite Hs. exact Ha.
  - intros (-> & _ & _ & Hall).
    pose proof (span_all allowed s [] Hall I) as E'. rewrite app_nil_r, E in E'.
    simplify_eq. done.
Qed.

(** Every rejection names a byte offset inside the input (or its length). *)
Lemma first_rejected_le allowed s offset k :
  first_rejected allowed offset s = Some k → (offset <= k < offset + str_len s)%N.
Proof.
  revert offset. induction s as [|c s IH]; simpl; intros offset E; [done|].
  pose proof (char_len_pos c). destruct (allowed c); [apply IH in E|simplify_eq]; lia.
Qed.

Definition parse_type_name (limits : InputLimits) (s : rstr) : result ParseError rstr :=
  parse_complete_component s "type_name" limits.(type_name_bytes) is_ascii_name_character.
Definition parse_relation_name (limits : InputLimits) (s : rstr) : result ParseError rstr :=
  parse_complete_component s "relation_name" limits.(relation_name_bytes) is_ascii_name_character.
Definition parse_condition_name (limits : InputLimits) (s : rstr) : result ParseError rstr :=
  parse_complete_component s "condition_name" limits.(condition_name_bytes) is_ascii_name_character.
Definition parse_parameter_name (limits : InputLimits) (s : rstr) : result ParseError rstr :=
  parse_complete_component s "parameter_name" limits.(parameter_name_bytes) is_ascii_name_character.
Definition parse_object_id (limits : InputLimits) (s : rstr) : result ParseError rstr :=
  parse_complete_component s "object_id" limits.(object_id_bytes) is_object_id_character.
Definition parse_correlation_id (s : rstr) : result ParseError rstr :=
  parse_complete_component s "correlation_id" 36 is_ascii_graphic.
Definition parse_token_key_id (s : rstr) : result ParseError rstr :=
  parse_complete_component s "token_key_id" 64 is_token_key_character.
Definition parse_principal_id (s : rstr) : result ParseError rstr :=
  parse_complete_component s "principal_id" 256 is_ascii_graphic.

End components.

(** Names are strings accepted by their grammar. *)
Definition TypeName := rstr.
Definition RelationName := rstr.
Definition ConditionName := rstr.
Definition ParameterName := rstr.
Definition ObjectId := rstr.
Definition CorrelationId := rstr.

(** [ObjectId::is_wildcard] *)
Definition is_wildcard (id : ObjectId) : bool := bool_decide (id = [CHAR_STAR]).

Definition name_ok (max : N) (s : rstr) : Prop :=
  s ≠ [] ∧ (str_len s <= max)%N ∧ forallb is_ascii_name_character s = true.
Definition object_id_ok (max : N) (s : rstr) : Prop :=
  s ≠ [] ∧ (str_len s <= max)%N ∧ forallb is_object_id_character s = true.

(** ** Canonical ULID identifiers *)

(** A ULID is a 128-bit number; the [ulid] crate renders it as 26 Crockford
    base-32 characters and parses what it renders. *)
Abbreviation Ulid := N.
Definition ULID_BOUND : N := 2 ^ 128.

Class UlidCodec := {
  ulid_to_string : Ulid → rstr;
  ulid_parse : rstr → option Ulid;
  (** [Ulid::from_parts]: 48 bits of milliseconds above 80 random bits. *)
  ulid_from_parts : N → N → Ulid;
}.

Class UlidCodecLaws `{UlidCodec} : Prop := {
  ulid_to_string_len : ∀ u, (u < ULID_BOUND)%N → str_len (ulid_to_string u) = 26%N;
  ulid_parse_to_string : ∀ u, (u < ULID_BOUND)%N → ulid_parse (ulid_to_string u) = Some u;
  ulid_parse_bound : ∀ s u, ulid_parse s = Some u → (u < ULID_BOUND)%N;
  ulid_from_parts_value : ∀ ms random, (ms < 2 ^ 48)%N → (random < 2 ^ 80)%N →
    ulid_from_parts ms random = (ms * 2 ^ 80 + random)%N;
}.

Abbreviation StoreId := Ulid.
Abbreviation AuthorizationModelId := Ulid.
Abbreviation ChangeId := Ulid.

(** [FromStr] of the [define_ulid_identifier!] types. *)
Definition ulid_from_str `{UlidCodec} (field : string) (value : rstr) : result ParseError Ulid :=
  if negb (str_len value =? 26)%N then
    let kind := match value with [] => PKEmpty | _ => PKInvalidLength end in
    Err (mkParseError field (N.min (str_len value) 26) kind)
  else
    match ulid_parse value with
    | None => Err (mkParseError field 0 PKInvalidCharacter)
    | Some parsed =>
        if bool_decide (ulid_to_string parsed = value) then Ok parsed
        else Err (mkParseError field 0 PKNonCanonical)
    end.

Lemma ulid_to_string_inj `{UlidCodecLaws} u v :
  (u < ULID_BOUND)%N → (v < ULID_BOUND)%N → ulid_to_string u = ulid_to_string v → u = v.
Proof. intros Hu Hv E%(f_equal ulid_parse). rewrite !ulid_parse_to_string in E by done. by injection E. Qed.

(** Only the canonical rendering of an identifier parses, and it parses back. *)
Lemma ulid_from_str_ok `{UlidCodecLaws} field value u :
  ulid_from_str field value = Ok u ↔ value = ulid_to_string u ∧ (u < ULID_BOUND)%N.
Proof.
  unfold ulid_from_str. split.
  - destruct (str_len value =? 26)%N; simpl; [|done].
    destruct (ulid_parse value) as [p|] eqn:E; [|done]. apply ulid_parse_bound in E.
    case_bool_decide as Es; [|done]. by intros [= <-].
  - intros [-> Hu]. rewrite ulid_to_string_len, ulid_parse_to_string by done. simpl.
    by rewrite bool_decide_eq_true_2.
Qed.
