(* ===== verification/Codecs.v ===== *)
(** * Concrete codecs

    Implementations of the interfaces to the [winnow] and [ulid] crates that
    satisfy their laws: parser combinators over character lists, and the
    26-character Crockford base-32 rendering of a 128-bit number.  Witnesses
    evaluate the development with them. *)

From S2P Require Import Prelude Ordered Identifier.
From Stdlib Require Import ZArith.

Module Codecs.

#[export] Instance winnow : Winnow := {|
  take_while1 := fun p s => match span p s with ([], _) => None | r => Some r end;
  literal := fun c s => match s with
                        | x :: s' => if (x =? c)%N then Some s' else None
                        | [] => None
                        end;
|}.

#[export] Instance winnow_laws : WinnowLaws.
Proof. by split. Qed.

Definition alphabet : rstr := str "0123456789ABCDEFGHJKMNPQRSTVWXYZ".

Definition digit (d : N) : rchar := default 48%N (alphabet !! N.to_nat d).

Definition digit_value (c : rchar) : option N :=
  N.of_nat ∘ fst <$> list_find (fun x => x = c) alphabet.

(** The [n] low digits, most significant first. *)
Fixpoint digits (n : nat) (u : N) : rstr :=
  match n with
  | O => []
  | S n => digits n (u / 32) ++ [digit (u mod 32)]
  end.

Definition push_digit (acc : option N) (c : rchar) : option N :=
  a ← acc; d ← digit_value c; Some (a * 32 + d)%N.

Definition undigits (s : rstr) : option N := foldl push_digit (Some 0%N) s.

#[export] Instance ulid_codec : UlidCodec := {|
  ulid_to_string := digits 26;
  ulid_parse := fun s =>
    match undigits s with
    | Some u => if (u <? ULID_BOUND)%N then Some u else None
    | None => None
    end;
  ulid_from_parts := fun ms random => (ms * 2 ^ 80 + random)%N;
|}.

Lemma digit_ok : Forall (fun d => digit_value (digit d) = Some d ∧ char_len_utf8 (digit d) = 1%N)
  (N.of_nat <$> seq 0 32).
Proof. repeat constructor. Qed.

Lemma digit_mod u : digit_value (digit (u mod 32)) = Some (u mod 32)%N ∧ char_len_utf8 (digit (u mod 32)) = 1%N.
Proof.
  pose proof digit_ok as Hall. rewrite Forall_forall in Hall. apply Hall.
  apply list_elem_of_fmap. exists (N.to_nat (u mod 32)). split; [by rewrite N2Nat.id|].
  apply elem_of_seq. assert (Hlt : (u mod 32 < 32)%N) by (by apply N.mod_lt).
  revert Hlt. generalize (u mod 32)%N. intros. lia.
Qed.

Lemma digits_len n u : str_len (digits n u) = N.of_nat n.
Proof.
  revert u. induction n as [|n IH]; intros u; [done|]. cbn [digits]. rewrite str_len_app, IH.
  cbn [str_len]. rewrite (proj2 (digit_mod u)). lia.
Qed.

Lemma undigits_digits n u : (u < 32 ^ N.of_nat n)%N → undigits (digits n u) = Some u.
Proof.
  revert u. induction n as [|n IH]; intros u Hu.
  - change (32 ^ N.of_nat 0)%N with 1%N in Hu. change (Some 0%N = Some u). f_equal. lia.
  - unfold undigits in *. cbn [digits]. rewrite foldl_app, IH.
    + cbn [foldl push_digit mbind option_bind]. rewrite (proj1 (digit_mod u)). simpl. f_equal.
      rewrite N.mul_comm. symmetry. by apply N.div_mod.
    + apply N.Div0.div_lt_upper_bound. by rewrite <-N.pow_succ_r', <-Nat2N.inj_succ.
Qed.

#[export] Instance ulid_codec_laws : UlidCodecLaws.
Proof.
  split.
  - intros u _. apply (digits_len 26).
  - intros u Hu. unfold ulid_parse, ulid_to_string; cbn [ulid_codec].
    rewrite undigits_digits.
    + destruct (N.ltb_spec u ULID_BOUND); [done|lia].
    + etrans; [exact Hu|]. done.
  - intros s u. unfold ulid_parse; cbn [ulid_codec]. destruct (undigits s); [|done].
    destruct (N.ltb_spec n ULID_BOUND); [|done]. by intros [= <-].
  - done.
Qed.

End Codecs.
