(* ===== verification/Reference.v ===== *)
(** * Objects, subjects, tuples and condition contexts

    [crates/openfga-domain/src/{reference,context}.rs]: the reference values
    of a relationship tuple with the derived orders, their textual grammar
    (parsers, diagnostics and [Display]), and the condition context carried by
    a conditional tuple. *)

From S2P Require Import Prelude Ordered Identifier.

(** ** Objects *)

Record ObjectRef := mkObjectRef { object_type : TypeName; object_id : ObjectId }.

#[export] Instance ObjectRef_eq_dec : EqDecision ObjectRef.
Proof. solve_decision. Defined.

Definition object_key (o : ObjectRef) : rstr * rstr := (o.(object_type), o.(object_id)).
#[export] Instance object_key_inj : Inj (=) (=) object_key.
Proof. intros [] [] [= -> ->]. done. Qed.
#[export] Instance ord_ObjectRef : Ord ObjectRef := ord_via object_key.
#[export] Instance ord_laws_ObjectRef : OrdLaws ObjectRef := ord_laws_via object_key.

(** [ObjectRef::new] *)
Definition object_ref_new (ty : TypeName) (id : ObjectId) (limits : InputLimits) :
    result ValidationError ObjectRef :=
  if is_wildcard id then Err (mkValidationError "object_id" VRInconsistent)
  else
    match (bytes ← checked_add USIZE_MAX (str_len ty) 1; checked_add USIZE_MAX bytes (str_len id)) with
    | None => Err (mkValidationError "object" VRTooLarge)
    | Some canonical_bytes =>
        if (limits.(object_ref_bytes) <? canonical_bytes)%N then
          Err (mkValidationError "object" VRTooLarge)
        else Ok (mkObjectRef ty id)
    end.

(** [Display for ObjectRef] *)
Definition show_object (o : ObjectRef) : rstr :=
  o.(object_type) ++ CHAR_COLON :: o.(object_id).

(** ** Usersets and subjects *)

Record UsersetRef := mkUsersetRef { us_object : ObjectRef; us_relation : RelationName }.

#[export] Instance UsersetRef_eq_dec : EqDecision UsersetRef.
Proof. solve_decision. Defined.

Definition show_userset (u : UsersetRef) : rstr :=
  show_object u.(us_object) ++ CHAR_HASH :: u.(us_relation).

(** [UsersetRef::new] *)
Definition userset_ref_new (object : ObjectRef) (relation : RelationName) (limits : InputLimits) :
    result ValidationError UsersetRef :=
  match (bytes ← checked_add USIZE_MAX (str_len (show_object object)) 1;
         checked_add USIZE_MAX bytes (str_len relation)) with
  | None => Err (mkValidationError "userset" VRTooLarge)
  | Some canonical_bytes =>
      if (limits.(subject_ref_bytes) <? canonical_bytes)%N then
        Err (mkValidationError "userset" VRTooLarge)
      else Ok (mkUsersetRef object relation)
  end.

Inductive SubjectRef :=
| SubjObject (o : ObjectRef)
| SubjUserset (u : UsersetRef)
| SubjWildcard (ty : TypeName).

#[export] Instance SubjectRef_eq_dec : EqDecision SubjectRef.
Proof. solve_decision. Defined.

Definition userset_key (u : UsersetRef) : ObjectRef * rstr := (u.(us_object), u.(us_relation)).
Definition subject_key (s : SubjectRef) : ObjectRef + ((ObjectRef * rstr) + rstr) :=
  match s with
  | SubjObject o => inl o
  | SubjUserset u => inr (inl (userset_key u))
  | SubjWildcard ty => inr (inr ty)
  end.
#[export] Instance subject_key_inj : Inj (=) (=) subject_key.
Proof. intros [|[]|] [|[]|]; simpl; intros; by simplify_eq. Qed.
#[export] Instance ord_SubjectRef : Ord SubjectRef := ord_via subject_key.
#[export] Instance ord_laws_SubjectRef : OrdLaws SubjectRef := ord_laws_via subject_key.

(** [SubjectRef::subject_type] *)
Definition subject_type (s : SubjectRef) : TypeName :=
  match s with
  | SubjObject o => o.(object_type)
  | SubjUserset u => u.(us_object).(object_type)
  | SubjWildcard ty => ty
  end.

(** [SubjectRef::is_typed_wildcard] *)
Definition is_typed_wildcard (s : SubjectRef) : bool :=
  match s with SubjWildcard _ => true | _ => false end.

(** [Display for SubjectRef] *)
Definition show_subject (s : SubjectRef) : rstr :=
  match s with
  | SubjObject o => show_object o
  | SubjUserset u => show_userset u
  | SubjWildcard ty => ty ++ [CHAR_COLON; CHAR_STAR]
  end.

(** ** Tuple keys *)

Record TupleKey := mkTupleKey {
  tk_object : ObjectRef;
  tk_relation : RelationName;
  tk_subject : SubjectRef;
}.

#[export] Instance TupleKey_eq_dec : EqDecision TupleKey.
Proof. solve_decision. Defined.

Definition tuple_key_key (t : TupleKey) : ObjectRef * (rstr * SubjectRef) :=
  (t.(tk_object), (t.(tk_relation), t.(tk_subject))).
#[export] Instance tuple_key_key_inj : Inj (=) (=) tuple_key_key.
Proof. intros [] [] [= -> -> ->]. done. Qed.
#[export] Instance ord_TupleKey : Ord TupleKey := ord_via tuple_key_key.
#[export] Instance ord_laws_TupleKey : OrdLaws TupleKey := ord_laws_via tuple_key_key.

(** [Display for TupleKey] *)
Definition show_tuple_key (t : TupleKey) : rstr :=
  show_object t.(tk_object) ++ CHAR_HASH :: t.(tk_relation) ++ CHAR_AT :: show_subject t.(tk_subject).

(** ** Condition contexts

    The [fingerprint] and [estimated_owned_bytes] fields of [ConditionContext]
    are computed from its values by every constructor, so a context is its
    value map.  A double is its bit pattern ([FiniteFloat]). *)

Inductive ContextValue :=
| CVNull
| CVBool (b : bool)
| CVInt (z : Z)
| CVUint (n : N)
| CVDouble (bits : N)
| CVString (s : rstr)
| CVBytes (b : list N)
| CVList (l : list ContextValue)
| CVMap (m : list (rstr * ContextValue)).

Definition dec_list {A} (dec : ∀ x y : A, Decision (x = y)) : ∀ l k : list A, Decision (l = k).
Proof.
  fix go 1. intros [|x l] [|y k].
  - by left.
  - by right.
  - by right.
  - destruct (dec x y) as [E|E]; [destruct (go l k) as [F|F]|]; [left | right | right]; congruence.
Defined.

Definition dec_snd {A} (dec : ∀ x y : A, Decision (x = y)) (p q : rstr * A) : Decision (p = q).
Proof.
  destruct p as [n x], q as [m y].
  destruct (decide (n = m)); [destruct (dec x y)|]; [left | right | right]; congruence.
Defined.

#[export] Instance ContextValue_eq_dec : EqDecision ContextValue.
Proof.
  hnf. fix go 1. intros x y.
  destruct x as [|b|z|n|bits|s|b|l|m], y as [|b'|z'|n'|bits'|s'|b'|l'|m'];
    try (right; discriminate).
  - by left.
  - destruct (decide (b = b')); [left | right]; congruence.
  - destruct (decide (z = z')); [left | right]; congruence.
  - destruct (decide (n = n')); [left | right]; congruence.
  - destruct (decide (bits = bits')); [left | right]; congruence.
  - destruct (decide (s = s')); [left | right]; congruence.
  - destruct (decide (b = b')); [left | right]; congruence.
  - destruct (dec_list go l l'); [left | right]; congruence.
  - destruct (dec_list (dec_snd go) m m'); [left | right]; congruence.
Defined.

Record ConditionContext := mkConditionContext {
  cc_values : BTreeMap ParameterName ContextValue;
}.

#[export] Instance ConditionContext_eq_dec : EqDecision ConditionContext.
Proof. solve_decision. Defined.

Definition empty_condition_context : ConditionContext := mkConditionContext [].

(** ** Relationship tuples *)

Record ConditionBinding := mkConditionBinding {
  cb_name : ConditionName;
  cb_context : ConditionContext;
}.

Inductive ConditionReference :=
| Unconditional
| Conditional (b : ConditionBinding).

Record RelationshipTuple := mkRelationshipTuple {
  rt_key : TupleKey;
  rt_condition : ConditionReference;
}.

#[export] Instance ConditionBinding_eq_dec : EqDecision ConditionBinding.
Proof. solve_decision. Defined.
#[export] Instance ConditionReference_eq_dec : EqDecision ConditionReference.
Proof. solve_decision. Defined.
#[export] Instance RelationshipTuple_eq_dec : EqDecision RelationshipTuple.
Proof. solve_decision. Defined.

(** [ContextualTuples::new]: the count limit, then uniqueness of the keys. *)
Definition contextual_tuples_new (tuples : list RelationshipTuple) (limits : InputLimits) :
    result ValidationError (list RelationshipTuple) :=
  if (limits.(contextual_tuples_limit) <? len tuples)%N then
    Err (mkValidationError "contextual_tuples" VRTooManyItems)
  else if (fix dup (keys : BTreeSet TupleKey) l :=
             match l with
             | [] => false
             | t :: l => bs_contains t.(rt_key) keys || dup (bs_insert t.(rt_key) keys) l
             end) [] tuples
  then Err (mkValidationError "contextual_tuples" VRDuplicate)
  else Ok tuples.
