(* ===== verification/Grammar.v ===== *)
(** * The textual grammar of references

    The parsers of [crates/openfga-domain/src/reference.rs] with their
    diagnostics.  The theorems say that each parser accepts exactly the
    renderings of valid values: parsing is the inverse of [Display]. *)

From S2P Require Import Prelude Ordered Identifier Codecs Reference.

Section grammar.
Context `{WinnowLaws}.

(** ** Objects *)

(** The loop of [object_structure_error] from byte [offset]. *)
Fixpoint object_structure_loop (field : string) (total offset : N) (colon : option N) (s : rstr) :
    ParseError :=
  match s with
  | [] =>
      match colon with
      | None => mkParseError field total PKMissingSeparator
      | Some c => if (saturating_add USIZE_MAX c 1 =? total)%N
                  then mkParseError field total PKEmpty
                  else mkParseError field 0 PKInvalidCharacter
      end
  | ch :: s' =>
      let next := object_structure_loop field total (offset + char_len_utf8 ch) in
      match colon with
      | None =>
          if (ch =? CHAR_COLON)%N && (0 <? offset)%N then next (Some offset) s'
          else if (ch =? CHAR_COLON)%N then mkParseError field offset PKUnexpectedSeparator
          else if negb (is_ascii_name_character ch) then mkParseError field offset PKInvalidCharacter
          else next None s'
      | Some c =>
          if (ch =? CHAR_COLON)%N then mkParseError field offset PKUnexpectedSeparator
          else if negb (is_object_id_character ch) then mkParseError field offset PKInvalidCharacter
          else next (Some c) s'
      end
  end.

Definition object_structure_error (value : rstr) (field : string) : ParseError :=
  match value with
  | [] => mkParseError field 0 PKEmpty
  | _ => object_structure_loop field (str_len value) 0 None value
  end.

Definition parse_object_parts (value : rstr) (field : string) : result ParseError (rstr * rstr) :=
  ok_or
    ('(object_type, s1) ← take_while1 is_ascii_name_character value;
     s2 ← literal CHAR_COLON s1;
     '(object_id, s3) ← take_while1 is_object_id_character s2;
     _ ← eof s3;
     Some (object_type, object_id))
    (object_structure_error value field).

(** [ObjectRef::parse_with_limits] *)
Definition parse_object_ref (value : rstr) (limits : InputLimits) : result DomainError ObjectRef :=
  '(ty, id) ← map_err DEParse (parse_object_parts value "object");
  ty ← map_err DEParse (parse_type_name limits ty);
  id ← map_err DEParse (parse_object_id limits id);
  map_err DEValidation (object_ref_new ty id limits).

(** ** Subjects *)

Fixpoint subject_structure_loop (total offset : N) (colon hash : option N) (s : rstr) : ParseError :=
  match s with
  | [] =>
      match colon, hash with
      | None, _ => mkParseError "subject" total PKMissingSeparator
      | Some c, h =>
          if (saturating_add USIZE_MAX c 1 =? total)%N then mkParseError "subject" total PKEmpty
          else match h with
               | Some k => if (saturating_add USIZE_MAX k 1 =? total)%N
                           then mkParseError "subject" total PKEmpty
                           else mkParseError "subject" 0 PKInvalidCharacter
               | None => mkParseError "subject" 0 PKInvalidCharacter
               end
      end
  | ch :: s' =>
      let next := subject_structure_loop total (offset + char_len_utf8 ch) in
      match colon, hash with
      | None, _ =>
          if (ch =? CHAR_COLON)%N then
            if (offset =? 0)%N then mkParseError "subject" offset PKUnexpectedSeparator
            else next (Some offset) hash s'
          else if negb (is_ascii_name_character ch) then
            mkParseError "subject" offset PKInvalidCharacter
          else next None hash s'
      | Some c, None =>
          if (ch =? CHAR_HASH)%N then next (Some c) (Some offset) s'
          else if (ch =? CHAR_COLON)%N then mkParseError "subject" offset PKUnexpectedSeparator
          else if negb (is_object_id_character ch) then
            mkParseError "subject" offset PKInvalidCharacter
          else next (Some c) None s'
      | Some c, Some h =>
          if (ch =? CHAR_HASH)%N || (ch =? CHAR_COLON)%N then
            mkParseError "subject" offset PKUnexpectedSeparator
          else if negb (is_ascii_name_character ch) then
            mkParseError "subject" offset PKInvalidCharacter
          else next (Some c) (Some h) s'
      end
  end.

Definition subject_structure_error (value : rstr) : ParseError :=
  match value with
  | [] => mkParseError "subject" 0 PKEmpty
  | _ => subject_structure_loop (str_len value) 0 None None value
  end.

Definition parse_subject_parts (value : rstr) : result ParseError (rstr * rstr * option rstr) :=
  let relation := opt (fun s => s' ← literal CHAR_HASH s; take_while1 is_ascii_name_character s') in
  ok_or
    ('(object_type, s1) ← take_while1 is_ascii_name_character value;
     s2 ← literal CHAR_COLON s1;
     '(object_id, s3) ← take_while1 is_object_id_character s2;
     let '(rel, s4) := relation s3 in
     _ ← eof s4;
     Some (object_type, object_id, rel))
    (subject_structure_error value).

(** [SubjectRef::parse_with_limits] *)
Definition parse_subject_ref (value : rstr) (limits : InputLimits) : result DomainError SubjectRef :=
  if (limits.(subject_ref_bytes) <? str_len value)%N then
    Err (DEValidation (mkValidationError "subject" VRTooLarge))
  else
    '(ty, id, rel) ← map_err DEParse (parse_subject_parts value);
    ty ← map_err DEParse (parse_type_name limits ty);
    id ← map_err DEParse (parse_object_id limits id);
    match is_wildcard id, rel with
    | true, None => Ok (SubjWildcard ty)
    | true, Some _ => Err (DEValidation (mkValidationError "subject" VRInconsistent))
    | false, None => map_err DEValidation (SubjObject <$> object_ref_new ty id limits)
    | false, Some rel =>
        object ← map_err DEValidation (object_ref_new ty id limits);
        rel ← map_err DEParse (parse_relation_name limits rel);
        map_err DEValidation (SubjUserset <$> userset_ref_new object rel limits)
    end.

(** ** Tuple keys *)

(** Byte offset of the first occurrence of a character. *)
Fixpoint find_char (c : rchar) (offset : N) (s : rstr) : option (N * rstr) :=
  match s with
  | [] => None
  | x :: s' => if (x =? c)%N then Some (offset, s') else find_char c (offset + char_len_utf8 x) s'
  end.

Definition tuple_structure_error (value : rstr) : ParseError :=
  match value with
  | [] => mkParseError "tuple_key" 0 PKEmpty
  | _ =>
      match find_char CHAR_HASH 0 value with
      | None => mkParseError "tuple_key" (str_len value) PKMissingSeparator
      | Some (hash, remaining) =>
          match find_char CHAR_AT (hash + 1) remaining with
          | None => mkParseError "tuple_key" (str_len value) PKMissingSeparator
          | Some (at_, _) =>
              if (hash =? 0)%N || (at_ =? saturating_add USIZE_MAX hash 1)%N
                 || (saturating_add USIZE_MAX at_ 1 =? str_len value)%N
              then mkParseError "tuple_key" at_ PKEmpty
              else mkParseError "tuple_key" 0 PKInvalidCharacter
          end
      end
  end.

Definition parse_tuple_parts (value : rstr) : result ParseError (rstr * rstr * rstr) :=
  ok_or
    ('(object, s1) ← take_while1 (fun c => negb (c =? CHAR_HASH)%N) value;
     s2 ← literal CHAR_HASH s1;
     '(relation, s3) ← take_while1 is_ascii_name_character s2;
     s4 ← literal CHAR_AT s3;
     '(subject, s5) ← take_while1 (fun _ => true) s4;
     _ ← eof s5;
     Some (object, relation, subject))
    (tuple_structure_error value).

(** [TupleKey::parse_with_limits] *)
Definition parse_tuple_key (value : rstr) (limits : InputLimits) : result DomainError TupleKey :=
  '(object, relation, subject) ← map_err DEParse (parse_tuple_parts value);
  object ← parse_object_ref object limits;
  relation ← map_err DEParse (parse_relation_name limits relation);
  subject ← parse_subject_ref subject limits;
  Ok (mkTupleKey object relation subject).

(** ** Validity of parsed values *)

Definition object_ok (limits : InputLimits) (o : ObjectRef) : Prop :=
  name_ok limits.(type_name_bytes) o.(object_type) ∧
  object_id_ok limits.(object_id_bytes) o.(object_id) ∧
  is_wildcard o.(object_id) = false ∧
  (str_len (show_object o) <= limits.(object_ref_bytes))%N.

Definition subject_ok (limits : InputLimits) (s : SubjectRef) : Prop :=
  match s with
  | SubjObject o => object_ok limits o
  | SubjUserset u => object_ok limits u.(us_object) ∧ name_ok limits.(relation_name_bytes) u.(us_relation)
  | SubjWildcard ty => name_ok limits.(type_name_bytes) ty
  end ∧ (str_len (show_subject s) <= limits.(subject_ref_bytes))%N.

Definition tuple_key_ok (limits : InputLimits) (t : TupleKey) : Prop :=
  object_ok limits t.(tk_object) ∧ name_ok limits.(relation_name_bytes) t.(tk_relation) ∧
  subject_ok limits t.(tk_subject).

(** ** Combinator lemmas *)

Definition head_fails (p : rchar → bool) (s : rstr) : Prop :=
  match s with [] => True | c :: _ => p c = false end.

Lemma take_while1_Some p s a b :
  take_while1 p s = Some (a, b) ↔
  s = a ++ b ∧ a ≠ [] ∧ forallb p a = true ∧ head_fails p b.
Proof.
  rewrite take_while1_spec. split.
  - destruct (span p s) as [a' b'] eqn:E. pose proof (span_app _ _ _ _ E).
    pose proof (span_prefix _ _ _ _ E). pose proof (span_head _ _ _ _ E).
    destruct a'; [done|]. intros [= <- <-]. done.
  - intros (-> & Hne & Ha & Hb). rewrite span_all; [|done..]. by destruct a.
Qed.

Lemma literal_Some c s s' : literal c s = Some s' ↔ s = c :: s'.
Proof.
  rewrite literal_spec. destruct s as [|x s]; [done|].
  destruct (N.eqb_spec x c); naive_solver.
Qed.

Lemma eof_Some s u : eof s = Some u ↔ s = [].
Proof. destruct s, u; naive_solver. Qed.

Lemma name_char_object_id c : is_ascii_name_character c = true → is_object_id_character c = true.
Proof.
  unfold is_ascii_name_character, is_object_id_character, is_ascii_graphic, char_is_control,
    char_is_whitespace, CHAR_COLON, CHAR_HASH, CHAR_AT.
  rewrite !andb_true_iff, !negb_true_iff, !orb_false_iff, !andb_false_iff, !N.leb_le, !N.eqb_neq,
    !N.leb_gt. lia.
Qed.

Lemma forallb_head_fails p c s : p c = false → head_fails p (c :: s).
Proof. done. Qed.

Lemma parse_object_parts_ok value field ty id :
  parse_object_parts value field = Ok (ty, id) ↔
  value = ty ++ CHAR_COLON :: id ∧ ty ≠ [] ∧ id ≠ [] ∧
  forallb is_ascii_name_character ty = true ∧ forallb is_object_id_character id = true.
Proof.
  unfold parse_object_parts. rewrite ok_or_ok. split.
  - intros ((a & s1) & (-> & ? & ? & ?)%take_while1_Some & Hr)%bind_Some.
    apply bind_Some in Hr as (s2 & ->%literal_Some & Hr).
    apply bind_Some in Hr as ((b & s3) & (-> & ? & ? & ?)%take_while1_Some & Hr).
    apply bind_Some in Hr as (u & ->%eof_Some & Hr). simplify_eq.
    by rewrite app_nil_r.
  - intros (-> & ? & ? & ? & ?).
    rewrite (proj2 (take_while1_Some _ _ ty (CHAR_COLON :: id))) by done. simpl.
    rewrite (proj2 (literal_Some _ _ id)) by done. simpl.
    rewrite (proj2 (take_while1_Some _ _ id [])) by (by rewrite app_nil_r). done.
Qed.

Lemma parse_name_ok limits value v :
  parse_type_name limits value = Ok v ↔ v = value ∧ name_ok limits.(type_name_bytes) value.
Proof. unfold parse_type_name, name_ok. rewrite parse_complete_component_ok. naive_solver. Qed.

Lemma parse_relation_ok limits value v :
  parse_relation_name limits value = Ok v ↔ v = value ∧ name_ok limits.(relation_name_bytes) value.
Proof. unfold parse_relation_name, name_ok. rewrite parse_complete_component_ok. naive_solver. Qed.

Lemma parse_id_ok limits value v :
  parse_object_id limits value = Ok v ↔ v = value ∧ object_id_ok limits.(object_id_bytes) value.
Proof. unfold parse_object_id, object_id_ok. rewrite parse_complete_component_ok. naive_solver. Qed.

Lemma show_object_len o :
  str_len (show_object o) = (str_len o.(object_type) + 1 + str_len o.(object_id))%N.
Proof. unfold show_object. rewrite str_len_app. simpl. unfold char_len_utf8. simpl. lia. Qed.

Lemma object_ref_new_ok limits ty id o :
  input_limits_ok limits →
  object_ref_new ty id limits = Ok o ↔
  o = mkObjectRef ty id ∧ is_wildcard id = false ∧
  (str_len (show_object o) <= limits.(object_ref_bytes))%N.
Proof.
  intros Hlim. destruct Hlim as (_ & _ & _ & _ & _ & [_ Hmax] & _).
  unfold object_ref_new. destruct (is_wildcard id); [naive_solver|].
  assert (Hlen : str_len (show_object (mkObjectRef ty id)) = (str_len ty + 1 + str_len id)%N)
    by apply show_object_len.
  unfold USIZE_MAX, U64_MAX.
  destruct (checked_add _ (str_len ty) 1) as [b|] eqn:E1; simpl.
  - apply checked_add_Some in E1 as [-> E1].
    destruct (checked_add _ (str_len ty + 1) (str_len id)) as [c|] eqn:E2; simpl.
    + apply checked_add_Some in E2 as [-> E2].
      destruct (N.ltb_spec limits.(object_ref_bytes) (str_len ty + 1 + str_len id)).
      * split; [done|]. intros (-> & _ & Hle). lia.
      * split; [intros [= <-]; rewrite Hlen; done | by intros (-> & _)].
    + apply checked_add_None in E2. split; [done|]. intros (-> & _ & Hle). lia.
  - apply checked_add_None in E1. split; [done|]. intros (-> & _ & Hle). lia.
Qed.

(** Parsing an object accepts exactly the renderings of valid objects. *)
Lemma parse_object_ref_iff limits value o :
  input_limits_ok limits →
  parse_object_ref value limits = Ok o ↔ value = show_object o ∧ object_ok limits o.
Proof.
  intros Hlim. unfold parse_object_ref, object_ok. split.
  - intros ((ty & id) & (Hv & ? & ? & ? & ?)%map_err_ok%parse_object_parts_ok & Hr)%result_bind_ok.
    apply result_bind_ok in Hr as (ty' & [-> ?]%map_err_ok%parse_name_ok & Hr).
    apply result_bind_ok in Hr as (id' & [-> ?]%map_err_ok%parse_id_ok & Hr).
    apply map_err_ok, object_ref_new_ok in Hr as (-> & ? & ?); done.
  - destruct o as [ty id]. simpl. intros (-> & (? & ? & ?) & (? & ? & ?) & ? & ?).
    rewrite (proj2 (parse_object_parts_ok _ _ ty id)) by done. simpl.
    rewrite (proj2 (parse_name_ok _ _ ty)) by done. simpl.
    rewrite (proj2 (parse_id_ok _ _ id)) by done. simpl.
    rewrite (proj2 (object_ref_new_ok limits ty id (mkObjectRef ty id) Hlim)); done.
Qed.

(** ** Subjects *)

Definition show_relation_suffix (rel : option rstr) : rstr :=
  match rel with None => [] | Some r => CHAR_HASH :: r end.

Definition relation_part_ok (rel : option rstr) : Prop :=
  match rel with None => True | Some r => r ≠ [] ∧ forallb is_ascii_name_character r = true end.

Lemma parse_subject_parts_ok value ty id rel :
  parse_subject_parts value = Ok (ty, id, rel) ↔
  value = ty ++ CHAR_COLON :: id ++ show_relation_suffix rel ∧ ty ≠ [] ∧ id ≠ [] ∧
  forallb is_ascii_name_character ty = true ∧ forallb is_object_id_character id = true ∧
  relation_part_ok rel.
Proof.
  unfold parse_subject_parts, opt. rewrite ok_or_ok. split.
  - intros ((a & s1) & (-> & ? & ? & ?)%take_while1_Some & Hr)%bind_Some.
    apply bind_Some in Hr as (s2 & ->%literal_Some & Hr).
    apply bind_Some in Hr as ((b & s3) & (-> & ? & ? & ?)%take_while1_Some & Hr).
    destruct (literal CHAR_HASH s3 ≫= _) as [[r s4]|] eqn:E.
    + apply bind_Some in E as (s5 & ->%literal_Some & (-> & ? & ? & ?)%take_while1_Some).
      apply bind_Some in Hr as (u & ->%eof_Some & Hr). simplify_eq/=. by rewrite app_nil_r.
    + apply bind_Some in Hr as (u & ->%eof_Some & Hr). by simplify_eq/=.
  - intros (-> & ? & ? & ? & ? & Hrel).
    rewrite (proj2 (take_while1_Some _ _ ty (CHAR_COLON :: id ++ show_relation_suffix rel)))
      by done. simpl.
    rewrite (proj2 (literal_Some _ _ (id ++ show_relation_suffix rel))) by done. simpl.
    rewrite (proj2 (take_while1_Some _ _ id (show_relation_suffix rel))) by (by destruct rel).
    destruct rel as [r|]; simpl.
    + destruct Hrel. rewrite (proj2 (literal_Some _ _ r)) by done. simpl.
      rewrite (proj2 (take_while1_Some _ _ r [])) by (by rewrite app_nil_r). done.
    + destruct (literal CHAR_HASH []) as [s'|] eqn:E; [by apply literal_Some in E|]. done.
Qed.

Lemma show_userset_len u :
  str_len (show_userset u) = (str_len (show_object u.(us_object)) + 1 + str_len u.(us_relation))%N.
Proof. unfold show_userset. rewrite str_len_app. simpl. unfold char_len_utf8. simpl. lia. Qed.

Lemma userset_ref_new_ok limits object relation u :
  input_limits_ok limits →
  userset_ref_new object relation limits = Ok u ↔
  u = mkUsersetRef object relation ∧ (str_len (show_userset u) <= limits.(subject_ref_bytes))%N.
Proof.
  intros Hlim. destruct Hlim as (_ & _ & _ & _ & _ & _ & [_ Hmax] & _).
  unfold userset_ref_new.
  assert (Hlen : str_len (show_userset (mkUsersetRef object relation)) =
                 (str_len (show_object object) + 1 + str_len relation)%N)
    by apply show_userset_len.
  unfold USIZE_MAX, U64_MAX.
  destruct (checked_add _ (str_len (show_object object)) 1) as [b|] eqn:E1; simpl.
  - apply checked_add_Some in E1 as [-> E1].
    destruct (checked_add _ _ (str_len relation)) as [c|] eqn:E2; simpl.
    + apply checked_add_Some in E2 as [-> E2]. case_match eqn:Hlt.
      * apply N.ltb_lt in Hlt. split; [done|]. intros (-> & Hle). lia.
      * apply N.ltb_ge in Hlt. split; [intros [= <-]; rewrite Hlen; done | by intros (-> & _)].
    + apply checked_add_None in E2. split; [done|]. intros (-> & Hle). lia.
  - apply checked_add_None in E1. split; [done|]. intros (-> & Hle). lia.
Qed.

Lemma is_wildcard_true id : is_wildcard id = true ↔ id = [CHAR_STAR].
Proof. unfold is_wildcard. by rewrite bool_decide_eq_true. Qed.

Lemma parse_subject_ref_ok limits value s :
  input_limits_ok limits →
  parse_subject_ref value limits = Ok s → value = show_subject s ∧ subject_ok limits s.
Proof.
  intros Hlim. unfold parse_subject_ref. destruct (N.ltb_spec limits.(subject_ref_bytes) (str_len value))
    as [|Hlen]; [done|].
  intros (((ty & id) & rel) & (-> & ? & ? & ? & ? & Hrel)%map_err_ok%parse_subject_parts_ok
          & Hr)%result_bind_ok.
  apply result_bind_ok in Hr as (ty' & [-> Hty]%map_err_ok%parse_name_ok & Hr).
  apply result_bind_ok in Hr as (id' & [-> Hid]%map_err_ok%parse_id_ok & Hr).
  destruct (is_wildcard id) eqn:Hw, rel as [rel|]; simpl in *; try done.
  - apply is_wildcard_true in Hw. subst id. simplify_eq. simpl. by rewrite ?app_nil_r.
  - apply result_bind_ok in Hr as (o & Ho%map_err_ok & Hr).
    apply object_ref_new_ok in Ho as (-> & ? & ?); [|done].
    apply result_bind_ok in Hr as (rel' & [-> Hre]%map_err_ok%parse_relation_ok & Hr).
    apply map_err_ok, result_fmap_ok in Hr as (u & -> & (-> & ?)%userset_ref_new_ok); [|done].
    simpl. unfold show_userset, show_object; simpl. rewrite <-app_assoc. done.
  - apply map_err_ok, result_fmap_ok in Hr as (o & -> & (-> & ? & ?)%object_ref_new_ok); [|done].
    simpl. rewrite ?app_nil_r in *. done.
Qed.

Lemma parse_subject_ref_show limits s :
  input_limits_ok limits → subject_ok limits s → parse_subject_ref (show_subject s) limits = Ok s.
Proof.
  intros Hlim [Hs Hlen]. unfold parse_subject_ref. rewrite (proj2 (N.ltb_ge _ _)) by done.
  destruct s as [[ty id]|[[ty id] rel]|ty]; simpl in *.
  - destruct Hs as ((? & ? & ?) & (? & ? & ?) & Hw & ?).
    rewrite (proj2 (parse_subject_parts_ok _ ty id None)) by (simpl; by rewrite app_nil_r). simpl.
    rewrite (proj2 (parse_name_ok _ _ ty)), (proj2 (parse_id_ok _ _ id)) by done. simpl in *.
    rewrite Hw, (proj2 (object_ref_new_ok limits ty id (mkObjectRef ty id) Hlim)); done.
  - destruct Hs as (((? & ? & ?) & (? & ? & ?) & Hw & ?) & (? & ? & ?)).
    rewrite (proj2 (parse_subject_parts_ok _ ty id (Some rel)))
      by (unfold show_userset, show_object; simpl; rewrite <-app_assoc; done). simpl.
    rewrite (proj2 (parse_name_ok _ _ ty)), (proj2 (parse_id_ok _ _ id)) by done. simpl in *.
    rewrite Hw, (proj2 (object_ref_new_ok limits ty id (mkObjectRef ty id) Hlim)) by done. simpl.
    rewrite (proj2 (parse_relation_ok _ _ rel)) by done. simpl.
    rewrite (proj2 (userset_ref_new_ok limits _ rel (mkUsersetRef (mkObjectRef ty id) rel) Hlim));
      done.
  - destruct Hs as (? & ? & ?).
    assert (Hstar : object_id_ok limits.(object_id_bytes) [CHAR_STAR]).
    { destruct Hlim as (_ & _ & _ & _ & [? _] & _). split_and!; [done | simpl | done].
      unfold char_len_utf8. simpl. lia. }
    rewrite (proj2 (parse_subject_parts_ok _ ty [CHAR_STAR] None)) by done.
    cbn -[parse_type_name parse_object_id].
    rewrite (proj2 (parse_name_ok _ _ ty)) by done. cbn -[parse_object_id].
    by rewrite (proj2 (parse_id_ok _ _ [CHAR_STAR])) by done.
Qed.

Lemma parse_subject_ref_iff limits value s :
  input_limits_ok limits →
  parse_subject_ref value limits = Ok s ↔ value = show_subject s ∧ subject_ok limits s.
Proof.
  intros Hlim. split; [by apply parse_subject_ref_ok|].
  intros [-> ?]. by apply parse_subject_ref_show.
Qed.

(** ** Tuple keys *)

Lemma parse_tuple_parts_ok value o r s :
  parse_tuple_parts value = Ok (o, r, s) ↔
  value = o ++ CHAR_HASH :: r ++ CHAR_AT :: s ∧ o ≠ [] ∧ r ≠ [] ∧ s ≠ [] ∧
  forallb (fun c => negb (c =? CHAR_HASH)%N) o = true ∧ forallb is_ascii_name_character r = true.
Proof.
  unfold parse_tuple_parts. rewrite ok_or_ok. split.
  - intros ((a & s1) & (-> & ? & ? & ?)%take_while1_Some & Hr)%bind_Some.
    apply bind_Some in Hr as (s2 & ->%literal_Some & Hr).
    apply bind_Some in Hr as ((b & s3) & (-> & ? & ? & ?)%take_while1_Some & Hr).
    apply bind_Some in Hr as (s4 & ->%literal_Some & Hr).
    apply bind_Some in Hr as ((c & s5) & (-> & ? & ? & ?)%take_while1_Some & Hr).
    apply bind_Some in Hr as (u & ->%eof_Some & Hr). simplify_eq. by rewrite app_nil_r.
  - intros (-> & ? & ? & ? & ? & ?).
    rewrite (proj2 (take_while1_Some _ _ o (CHAR_HASH :: r ++ CHAR_AT :: s))) by done. simpl.
    rewrite (proj2 (literal_Some _ _ (r ++ CHAR_AT :: s))) by done. simpl.
    rewrite (proj2 (take_while1_Some _ _ r (CHAR_AT :: s))) by done. simpl.
    rewrite (proj2 (literal_Some _ _ s)) by done. simpl.
    rewrite (proj2 (take_while1_Some _ _ s [])); [done|].
    rewrite app_nil_r. split_and!; try done. by apply forallb_forall.
Qed.

Lemma forallb_impl {A} (p q : A → bool) l :
  (∀ x, p x = true → q x = true) → forallb p l = true → forallb q l = true.
Proof. rewrite !forallb_forall. naive_solver. Qed.

Lemma object_id_character_not_hash c :
  is_object_id_character c = true → negb (c =? CHAR_HASH)%N = true.
Proof.
  unfold is_object_id_character. rewrite !andb_true_iff, !negb_true_iff, orb_false_iff. tauto.
Qed.

Lemma show_object_no_hash limits o :
  object_ok limits o → forallb (fun c => negb (c =? CHAR_HASH)%N) (show_object o) = true.
Proof.
  intros ((_ & _ & Hty) & (_ & _ & Hid) & _). unfold show_object.
  rewrite forallb_app. simpl. apply andb_true_iff. split.
  - revert Hty. apply forallb_impl. intros c ?.
    by apply object_id_character_not_hash, name_char_object_id.
  - revert Hid. apply forallb_impl, object_id_character_not_hash.
Qed.

Lemma show_object_nonempty limits o : object_ok limits o → show_object o ≠ [].
Proof. intros ((? & _) & _). unfold show_object. by destruct (object_type o). Qed.

Lemma show_subject_nonempty limits s : subject_ok limits s → show_subject s ≠ [].
Proof.
  intros [Hs _]. destruct s as [[[] ?]|[[[] ?] ?]|[]]; simpl in *; try done;
    unfold object_ok, name_ok in Hs; simpl in Hs; naive_solver.
Qed.

Lemma parse_tuple_key_iff_aux limits value t :
  input_limits_ok limits →
  parse_tuple_key value limits = Ok t ↔ value = show_tuple_key t ∧ tuple_key_ok limits t.
Proof.
  intros Hlim. unfold parse_tuple_key, tuple_key_ok. split.
  - intros (((o & r) & s) & (-> & ? & ? & ? & ? & ?)%map_err_ok%parse_tuple_parts_ok
            & Hr)%result_bind_ok.
    apply result_bind_ok in Hr as (o' & [-> ?]%(parse_object_ref_iff _ _ _ Hlim) & Hr).
    apply result_bind_ok in Hr as (r' & [-> ?]%map_err_ok%parse_relation_ok & Hr).
    apply result_bind_ok in Hr as (s' & [-> ?]%(parse_subject_ref_iff _ _ _ Hlim) & Hr).
    by simplify_eq/=.
  - destruct t as [o r s]. simpl. intros (-> & Ho & Hr & Hs).
    pose proof Hr as (? & ? & ?). unfold show_tuple_key. simpl.
    rewrite (proj2 (parse_tuple_parts_ok _ (show_object o) r (show_subject s)))
      by (split_and!; eauto using show_object_no_hash, show_object_nonempty, show_subject_nonempty).
    simpl. rewrite (proj2 (parse_object_ref_iff limits _ o Hlim)) by done. simpl.
    rewrite (proj2 (parse_relation_ok limits r r)) by done. simpl.
    by rewrite (proj2 (parse_subject_ref_iff limits _ s Hlim)) by done.
Qed.

(** ** Limits *)

Lemma object_ok_mono l l' o :
  (l.(type_name_bytes) <= l'.(type_name_bytes))%N →
  (l.(object_id_bytes) <= l'.(object_id_bytes))%N →
  (l.(object_ref_bytes) <= l'.(object_ref_bytes))%N →
  object_ok l o → object_ok l' o.
Proof.
  intros ??? ((? & ? & ?) & (? & ? & ?) & ? & ?). unfold object_ok, name_ok, object_id_ok.
  split_and!; done || by etrans.
Qed.

(** The default byte limits are the ceilings: what is valid under any limits is
    valid under the defaults. *)
Lemma tuple_key_ok_default limits t :
  input_limits_ok limits → tuple_key_ok limits t → tuple_key_ok default_input_limits t.
Proof.
  intros ([_ Hty] & [_ Hrel] & _ & _ & [_ Hid] & [_ Hobj] & [_ Hsub] & _) (Ho & Hr & Hs & Hl).
  assert (Hob : ∀ o, object_ok limits o → object_ok default_input_limits o)
    by (intros o; by apply object_ok_mono).
  assert (Hna : ∀ r, name_ok limits.(relation_name_bytes) r → name_ok 50 r)
    by (intros r (? & ? & ?); split_and!; done || by etrans).
  split_and!; [by apply Hob | by apply Hna | split; [|by etrans]].
  destruct (tk_subject t) as [o|u|ty]; [by apply Hob | naive_solver |].
  destruct Hs as (? & ? & ?). split_and!; done || by etrans.
Qed.

Lemma show_tuple_key_bound limits t :
  input_limits_ok limits → tuple_key_ok limits t → (str_len (show_tuple_key t) <= 820)%N.
Proof.
  intros (? & ? & _ & _ & ? & ? & ? & _) ((_ & _ & _ & ?) & (_ & ? & _) & _ & ?).
  unfold limit_in in *. unfold show_tuple_key. rewrite str_len_app. simpl.
  rewrite str_len_app. simpl. unfold char_len_utf8. simpl. lia.
Qed.

End grammar.

(** ** Round trips of the textual forms

    Parsing is the inverse of [Display] for objects, subjects, tuple keys and
    identifiers, at every admissible choice of limits. *)

Import Codecs.

(** C31: under any valid limits a text parses to an object, subject or tuple key
    exactly when it is the rendering of that value and the value is within the
    limits: nothing else is accepted, nothing valid is refused, and no text has
    two readings. *)
Theorem references_round_trip `{WinnowLaws} limits :
  input_limits_ok limits →
  (∀ text o, parse_object_ref text limits = Ok o ↔ text = show_object o ∧ object_ok limits o) ∧
  (∀ text s, parse_subject_ref text limits = Ok s ↔ text = show_subject s ∧ subject_ok limits s) ∧
  (∀ text k, parse_tuple_key text limits = Ok k ↔ text = show_tuple_key k ∧ tuple_key_ok limits k).
Proof.
  intros Hl. split_and!; intros.
  - by apply parse_object_ref_iff.
  - by apply parse_subject_ref_iff.
  - by apply parse_tuple_key_iff_aux.
Qed.

Lemma references_round_trip_witness :
  parse_tuple_key (str "document:1#viewer@group:eng#member") default_input_limits =
    Ok (mkTupleKey (mkObjectRef (str "document") (str "1")) (str "viewer")
          (SubjUserset (mkUsersetRef (mkObjectRef (str "group") (str "eng")) (str "member")))).
Proof.
  apply (references_round_trip default_input_limits).
  - unfold input_limits_ok, limit_in. split_and!; done.
  - split; [vm_compute; reflexivity|]. unfold tuple_key_ok, object_ok, subject_ok, object_ok, name_ok, object_id_ok.
    repeat split; vm_compute; (reflexivity || discriminate).
Defined.

(** An identifier has one textual form.  The parser accepts exactly the
    canonical rendering of a 128-bit value, and refuses every other length,
    alphabet or case. *)
Theorem ulid_canonical `{UlidCodecLaws} field :
  (∀ text u, ulid_from_str field text = Ok u ↔ text = ulid_to_string u ∧ (u < ULID_BOUND)%N) ∧
  (∀ text, str_len text ≠ 26%N → ∃ e, ulid_from_str field text = Err e).
Proof.
  split; intros.
  - apply ulid_from_str_ok.
  - unfold ulid_from_str. destruct (N.eqb_spec (str_len text) 26); [done|]. simpl. eauto.
Qed.

Lemma ulid_canonical_witness :
  ulid_from_str "store_id" (str "00000000000000000000000019") = Ok 41%N.
Proof.
  apply (proj1 (ulid_canonical "store_id")). split; [vm_compute; reflexivity|reflexivity].
Defined.
