(* ===== verification/Scalars.v ===== *)
(** * Scalars of the Rust standard library

    The parts of the standard library the condition engine computes with:
    decimal text of integers, IEEE-754 binary64 numbers with their arithmetic,
    parser and [Display], UTF-8 byte strings, and textual IP addresses.  A
    double is a [spec_float] of precision 53 and maximal exponent 1024. *)

From S2P Require Import Prelude Ordered.
From Stdlib Require Import ZArith SpecFloat DecimalN DecimalFacts.

(** ** Decimal integers *)

Fixpoint uint_chars (d : Decimal.uint) : rstr :=
  match d with
  | Decimal.Nil => []
  | Decimal.D0 d => 48%N :: uint_chars d
  | Decimal.D1 d => 49%N :: uint_chars d
  | Decimal.D2 d => 50%N :: uint_chars d
  | Decimal.D3 d => 51%N :: uint_chars d
  | Decimal.D4 d => 52%N :: uint_chars d
  | Decimal.D5 d => 53%N :: uint_chars d
  | Decimal.D6 d => 54%N :: uint_chars d
  | Decimal.D7 d => 55%N :: uint_chars d
  | Decimal.D8 d => 56%N :: uint_chars d
  | Decimal.D9 d => 57%N :: uint_chars d
  end.

(** [Display] of an unsigned integer. *)
Definition show_N (n : N) : rstr := uint_chars (N.to_uint n).

(** [Display] of a signed integer. *)
Definition show_Z (z : Z) : rstr :=
  match z with Z.neg p => 45%N :: show_N (N.pos p) | _ => show_N (Z.to_N z) end.

(** [char::to_digit] *)
Definition to_digit (radix : N) (c : rchar) : option N :=
  let d := if (48 <=? c)%N && (c <=? 57)%N then Some (c - 48)%N
           else if (97 <=? c)%N && (c <=? 122)%N then Some (c - 87)%N
           else if (65 <=? c)%N && (c <=? 90)%N then Some (c - 55)%N else None in
  match d with Some d => if (d <? radix)%N then Some d else None | None => None end.

(** The value of a run of decimal digits after [acc]. *)
Fixpoint read_decimal (acc : N) (s : rstr) : option N :=
  match s with
  | [] => Some acc
  | c :: s => d ← to_digit 10 c; read_decimal (acc * 10 + d) s
  end.

(** The digits of [FromStr]: at least one. *)
Definition parse_digits (s : rstr) : option N :=
  match s with [] => None | _ => read_decimal 0 s end.

(** [FromStr] of an unsigned integer at most [max]: an optional plus sign. *)
Definition parse_unsigned (max : N) (s : rstr) : option N :=
  n ← parse_digits (match s with 43%N :: s => s | _ => s end);
  if (n <=? max)%N then Some n else None.

Definition I64_MAX : Z := 9223372036854775807.
Definition I64_MIN : Z := -9223372036854775808.

Definition in_i64 (z : Z) : bool := (I64_MIN <=? z)%Z && (z <=? I64_MAX)%Z.

(** [FromStr] of [i64]: an optional sign. *)
Definition parse_i64 (s : rstr) : option Z :=
  z ← match s with
      | 45%N :: s => Z.opp ∘ Z.of_N <$> parse_digits s
      | 43%N :: s => Z.of_N <$> parse_digits s
      | _ => Z.of_N <$> parse_digits s
      end;
  if in_i64 z then Some z else None.

(** ** Binary64 *)

Definition f64 : Type := spec_float.
Definition f64_prec : Z := 53.
Definition f64_emax : Z := 1024.

Definition f64_is_finite (x : f64) : bool :=
  match x with S754_zero _ | S754_finite _ _ _ => true | _ => false end.

Definition f64_is_zero (x : f64) : bool :=
  match x with S754_zero _ => true | _ => false end.

Definition f64_is_sign_negative (x : f64) : bool :=
  match x with S754_zero s | S754_infinity s | S754_finite s _ _ => s | S754_nan => false end.

(** [f64::from_bits] and [f64::to_bits]. *)
Definition f64_of_bits (bits : N) : f64 :=
  let sign := N.testbit bits 63 in
  let exponent := N.land (N.shiftr bits 52) 2047 in
  let fraction := N.land bits 4503599627370495 in
  if (exponent =? 2047)%N then
    if (fraction =? 0)%N then S754_infinity sign else S754_nan
  else match (if (exponent =? 0)%N then fraction else fraction + 4503599627370496)%N with
       | 0%N => S754_zero sign
       | N.pos m => S754_finite sign m (Z.of_N (N.max exponent 1) - 1075)
       end.

Definition f64_to_bits (x : f64) : N :=
  let with_sign (s : bool) (n : N) := if s then (n + 9223372036854775808)%N else n in
  match x with
  | S754_zero s => with_sign s 0%N
  | S754_infinity s => with_sign s 9218868437227405312%N
  | S754_nan => 9221120237041090560%N
  | S754_finite s m e =>
      let m := N.pos m in
      if (m <? 4503599627370496)%N then with_sign s m
      else with_sign s (N.shiftl (Z.to_N (e + 1075)) 52 + (m - 4503599627370496))%N
  end.

(** [x as f64] of an integer: round to nearest, ties to even. *)
Definition f64_of_Z (z : Z) : f64 := binary_normalize f64_prec f64_emax z 0 false.

Definition f64_add (x y : f64) : f64 := SFadd f64_prec f64_emax x y.
Definition f64_sub (x y : f64) : f64 := SFsub f64_prec f64_emax x y.
Definition f64_mul (x y : f64) : f64 := SFmul f64_prec f64_emax x y.
Definition f64_div (x y : f64) : f64 := SFdiv f64_prec f64_emax x y.

(** The remainder of [%]: exact, with the sign of the dividend. *)
Definition f64_rem (x y : f64) : f64 :=
  match x, y with
  | S754_nan, _ | _, S754_nan | S754_infinity _, _ | _, S754_zero _ => S754_nan
  | _, S754_infinity _ | S754_zero _, _ => x
  | S754_finite s m e, S754_finite _ m' e' =>
      let e0 := Z.min e e' in
      let r := (Z.shiftl (Z.pos m) (e - e0) mod Z.shiftl (Z.pos m') (e' - e0))%Z in
      binary_normalize f64_prec f64_emax (if s then - r else r) e0 s
  end.

(** [f64::fract] is zero: the number is an integer. *)
Definition f64_is_integer (x : f64) : bool :=
  match x with
  | S754_zero _ => true
  | S754_finite _ m e => (0 <=? e)%Z || (Z.pos m mod Z.shiftl 1 (- e) =? 0)%Z
  | _ => false
  end.

(** The double nearest to the quotient of two positive integers. *)
Definition f64_of_ratio (sign : bool) (num den : positive) : f64 :=
  let '(q, e, loc) := SFdiv_core_binary f64_prec f64_emax (Z.pos num) 0 (Z.pos den) 0 in
  binary_round_aux f64_prec f64_emax sign q e loc.

(** The double nearest to [m * 10 ^ e]. *)
Definition f64_of_decimal (sign : bool) (m : N) (e : Z) : f64 :=
  match m with
  | 0%N => S754_zero sign
  | N.pos m => if (0 <=? e)%Z then f64_of_ratio sign (m * Z.to_pos (10 ^ e)) 1
               else f64_of_ratio sign m (Z.to_pos (10 ^ (- e)))
  end.

(** ** Text of doubles *)

Definition is_digit (c : rchar) : bool := (48 <=? c)%N && (c <=? 57)%N.

(** A maximal prefix of characters satisfying [p], and the rest. *)
Fixpoint span_while (p : rchar → bool) (s : rstr) : rstr * rstr :=
  match s with
  | [] => ([], [])
  | c :: s' => if p c then let '(a, b) := span_while p s' in (c :: a, b) else ([], s)
  end.

Definition to_lower (c : rchar) : rchar := if (65 <=? c)%N && (c <=? 90)%N then (c + 32)%N else c.

(** The exponent part of a number: nothing, or [e], a sign and digits. *)
Definition parse_exponent (s : rstr) : option Z :=
  match s with
  | [] => Some 0%Z
  | c :: s =>
      if (to_lower c =? 101)%N then
        match s with
        | 45%N :: s => Z.opp ∘ Z.of_N <$> parse_digits s
        | 43%N :: s => Z.of_N <$> parse_digits s
        | _ => Z.of_N <$> parse_digits s
        end
      else None
  end.

(** [FromStr] of [f64]: infinities, NaN and decimal numbers, rounded to nearest. *)
Definition parse_f64 (s : rstr) : option f64 :=
  let '(sign, s) := match s with 45%N :: s => (true, s) | 43%N :: s => (false, s) | _ => (false, s) end in
  let word := to_lower <$> s in
  if decide (word = str "inf" ∨ word = str "infinity") then Some (S754_infinity sign)
  else if decide (word = str "nan") then Some S754_nan
  else
    let '(whole, s) := span_while is_digit s in
    let '(fraction, s) := match s with 46%N :: s => span_while is_digit s | _ => ([], s) end in
    m ← parse_digits (whole ++ fraction);
    e ← parse_exponent s;
    Some (f64_of_decimal sign m (e - Z.of_nat (length fraction))).

(** The number of decimal digits of a positive integer. *)
Definition decimal_width (n : Z) : Z := Z.of_nat (length (show_Z n)).

(** The least [k] with [num / den < 10 ^ k]. *)
Definition decimal_point (num den : Z) : Z :=
  (if den <=? num then decimal_width (num / den) else 1 - decimal_width ((den - 1) / num))%Z.

(** [m * 10 ^ e] reads back as [x]. *)
Definition reads_back (x : f64) (m : Z) (e : Z) : bool :=
  match SFcompare x (f64_of_decimal false (Z.to_N m) e) with Some Eq => true | _ => false end.

(** The shortest digits that read back as the positive number [x], which is
    [num / den] below [10 ^ point]: the two candidates with [n] digits are the
    truncation and its successor, the nearer one if both read back. *)
Fixpoint shortest_digits (x : f64) (num den point : Z) (fuel : nat) (n : Z) : Z * Z :=
  let e := (point - n)%Z in
  let scaled := if (0 <=? e)%Z then num else (num * 10 ^ (- e))%Z in
  let unit := if (0 <=? e)%Z then (den * 10 ^ e)%Z else den in
  let down := (scaled / unit)%Z in
  let round_up := (unit <=? 2 * (scaled mod unit))%Z in
  match reads_back x down e, reads_back x (down + 1) e, fuel with
  | true, true, _ => (if round_up then down + 1 else down, n)%Z
  | true, false, _ | false, false, O => (down, n)
  | false, true, _ => (down + 1, n)%Z
  | false, false, S fuel => shortest_digits x num den point fuel (n + 1)
  end.

(** Digits with the decimal point at [point]; no trailing fraction. *)
Definition place_digits (digits : rstr) (point : Z) : rstr :=
  let n := Z.of_nat (length digits) in
  if (point <=? 0)%Z then str "0." ++ replicate (Z.to_nat (- point)) 48%N ++ digits
  else if (n <=? point)%Z then digits ++ replicate (Z.to_nat (point - n)) 48%N
  else take (Z.to_nat point) digits ++ 46%N :: drop (Z.to_nat point) digits.

(** [Display] of [f64]: the shortest decimal that reads back, without exponent. *)
Definition show_f64 (x : f64) : rstr :=
  let sign (s : bool) := if s then [45%N] else [] in
  match x with
  | S754_nan => str "NaN"
  | S754_infinity s => sign s ++ str "inf"
  | S754_zero s => sign s ++ str "0"
  | S754_finite s m e =>
      let num := if (0 <=? e)%Z then Z.shiftl (Z.pos m) e else Z.pos m in
      let den := if (0 <=? e)%Z then 1%Z else Z.shiftl 1 (- e) in
      let point := decimal_point num den in
      let '(digits, n) := shortest_digits (S754_finite false m e) num den point 16 1 in
      let digits := show_Z digits in
      (* A carry out of the leading digit moves the point. *)
      sign s ++ place_digits (take (Z.to_nat n) digits) (point + (Z.of_nat (length digits) - n))
  end.

(** ** UTF-8 *)

(** [str::as_bytes] *)
Definition utf8_char (c : rchar) : list N :=
  (if c <? 128 then [c]
   else if c <? 2048 then [192 + c / 64; 128 + c mod 64]
   else if c <? 65536 then [224 + c / 4096; 128 + c / 64 mod 64; 128 + c mod 64]
   else [240 + c / 262144; 128 + c / 4096 mod 64; 128 + c / 64 mod 64; 128 + c mod 64])%N.

Definition utf8_encode (s : rstr) : list N := s ≫= utf8_char.

Definition is_continuation (b : N) : bool := (128 <=? b)%N && (b <=? 191)%N.

(** [String::from_utf8]: the well-formed byte sequences of the Unicode standard. *)
Fixpoint utf8_decode (bytes : list N) : option rstr :=
  match bytes with
  | [] => Some []
  | b0 :: rest =>
      if (b0 <? 128)%N then cons b0 <$> utf8_decode rest
      else match rest with
      | b1 :: rest1 =>
          if (194 <=? b0)%N && (b0 <=? 223)%N && is_continuation b1 then
            cons ((b0 - 192) * 64 + (b1 - 128))%N <$> utf8_decode rest1
          else match rest1 with
          | b2 :: rest2 =>
              if (224 <=? b0)%N && (b0 <=? 239)%N && is_continuation b1 && is_continuation b2
                 && implb (b0 =? 224)%N (160 <=? b1)%N && implb (b0 =? 237)%N (b1 <=? 159)%N then
                cons ((b0 - 224) * 4096 + (b1 - 128) * 64 + (b2 - 128))%N <$> utf8_decode rest2
              else match rest2 with
              | b3 :: rest3 =>
                  if (240 <=? b0)%N && (b0 <=? 244)%N && is_continuation b1 && is_continuation b2
                     && is_continuation b3
                     && implb (b0 =? 240)%N (144 <=? b1)%N && implb (b0 =? 244)%N (b1 <=? 143)%N then
                    cons ((b0 - 240) * 262144 + (b1 - 128) * 4096 + (b2 - 128) * 64 + (b3 - 128))%N
                      <$> utf8_decode rest3
                  else None
              | [] => None
              end
          | [] => None
          end
      | [] => None
      end
  end.

(** ** Searching strings *)

(** [str::starts_with] *)
Fixpoint starts_with (s prefix : rstr) : bool :=
  match prefix, s with
  | [], _ => true
  | p :: prefix, c :: s => (p =? c)%N && starts_with s prefix
  | _ :: _, [] => false
  end.

(** [str::contains] *)
Fixpoint str_contains (s needle : rstr) : bool :=
  starts_with s needle || match s with [] => false | _ :: s => str_contains s needle end.

(** [str::ends_with] *)
Definition ends_with (s suffix : rstr) : bool := starts_with (reverse s) (reverse suffix).

(** [str::split_once] at a character. *)
Fixpoint split_once (separator : rchar) (s : rstr) : option (rstr * rstr) :=
  match s with
  | [] => None
  | c :: s => if (c =? separator)%N then Some ([], s)
              else '(a, b) ← split_once separator s; Some (c :: a, b)
  end.

(** ** IP addresses

    The parser of [core::net]: a reader consumes a prefix of its input. *)

Inductive IpAddr := V4 (bits : N) | V6 (bits : N).

#[export] Instance IpAddr_eq_dec : EqDecision IpAddr.
Proof. solve_decision. Defined.

Definition reader (A : Type) : Type := rstr → option (A * rstr).

Definition read_given_char (c : rchar) : reader () := fun s =>
  match s with x :: s => if (x =? c)%N then Some ((), s) else None | [] => None end.

(** The digits of [read_number]: overflow and too many digits fail. *)
Fixpoint read_number_digits (radix max maximum_digits acc count : N) (s : rstr) : option (N * N * rstr) :=
  match s with
  | [] => Some (acc, count, [])
  | c :: s' =>
      match to_digit radix c with
      | None => Some (acc, count, s)
      | Some d =>
          if (max <? acc * radix + d)%N || (maximum_digits <? count + 1)%N then None
          else read_number_digits radix max maximum_digits (acc * radix + d) (count + 1) s'
      end
  end.

Definition read_number (radix max maximum_digits : N) (allow_zero_prefix : bool) : reader N := fun s =>
  '(n, count, rest) ← read_number_digits radix max maximum_digits 0 0 s;
  if (count =? 0)%N then None
  else if negb allow_zero_prefix && match s with 48%N :: _ => true | _ => false end && (1 <? count)%N
  then None else Some (n, rest).

Definition read_separator {A} (separator : rchar) (index : nat) (inner : reader A) : reader A := fun s =>
  match index with
  | O => inner s
  | _ => '(_, s) ← read_given_char separator s; inner s
  end.

Definition read_octet : reader N := read_number 10 255 3 false.

Definition read_ipv4 : reader N := fun s =>
  '(a, s) ← read_octet s;
  '(b, s) ← read_separator 46%N 1 read_octet s;
  '(c, s) ← read_separator 46%N 2 read_octet s;
  '(d, s) ← read_separator 46%N 3 read_octet s;
  Some (((a * 256 + b) * 256 + c) * 256 + d, s)%N.

(** [read_groups]: up to [limit] groups from index [i], the last two possibly as
    an IPv4 address; the groups, whether they end in one, and the rest. *)
Fixpoint read_groups (limit i : nat) (s : rstr) : list N * bool * rstr :=
  match limit with
  | O => ([], false, s)
  | S limit' =>
      match (if 1 <=? limit' then read_separator 58%N i read_ipv4 s else None) with
      | Some (v4, s) => ([v4 / 65536; v4 mod 65536], true, s)%N
      | None =>
          match read_separator 58%N i (read_number 16 65535 4 true) s with
          | Some (group, s) =>
              let '(groups, ipv4, s) := read_groups limit' (S i) s in (group :: groups, ipv4, s)
          | None => ([], false, s)
          end
      end
  end.

Definition groups_bits (groups : list N) : N := foldl (fun acc g => acc * 65536 + g)%N 0%N groups.

Definition read_ipv6 : reader N := fun s =>
  let '(head, head_ipv4, s) := read_groups 8 0 s in
  if length head =? 8 then Some (groups_bits head, s)
  else if head_ipv4 then None
  else
    '(_, s) ← read_given_char 58%N s;
    '(_, s) ← read_given_char 58%N s;
    let '(tail, _, s) := read_groups (8 - (length head + 1)) 0 s in
    Some (groups_bits (head ++ replicate (8 - length head - length tail) 0%N ++ tail), s).

(** [IpAddr::from_str]: the whole input. *)
Definition parse_ip (s : rstr) : option IpAddr :=
  match read_ipv4 s with
  | Some (v4, []) => Some (V4 v4)
  | Some _ => None
  | None => match read_ipv6 s with Some (v6, []) => Some (V6 v6) | _ => None end
  end.

(** [Ipv6Addr::to_ipv4_mapped] *)
Definition to_ipv4_mapped (v6 : N) : option N :=
  if (N.shiftr v6 32 =? 65535)%N then Some (N.land v6 4294967295)%N else None.
