(* ===== verification/Context.v ===== *)
(** * Condition contexts

    [crates/openfga-domain/src/context.rs]: the constructors of bounded context
    values, the conversion of JSON, the aggregate validation of a context and
    the overlay of one context over another.  A [serde_json] number is what its
    [as_f64] returns; its objects are key-ordered maps.  The fingerprint of a
    context is in [Fingerprint]; its byte estimate is left out. *)

From S2P Require Import Prelude Ordered Identifier Reference Scalars.
From Stdlib Require Import ZArith SpecFloat.

(** ** Scalars and collections *)

(** [FiniteFloat::new]: finite, with one zero. *)
Definition finite_float_new (value : f64) : result ValidationError N :=
  if f64_is_finite value then
    Ok (f64_to_bits (if f64_is_zero value then S754_zero false else value))
  else Err (mkValidationError "context_number" VROutOfRange).

(** [ContextString::new_with_limit] and [ContextKey::new]. *)
Definition context_string_new (value : rstr) (limit : N) : result ValidationError rstr :=
  if (limit <? str_len value)%N then Err (mkValidationError "context_string" VRTooLarge) else Ok value.

Definition context_key_new (value : rstr) (limits : InputLimits) : result ValidationError rstr :=
  if (limits.(context_key_bytes) <? str_len value)%N then Err (mkValidationError "context_key" VRTooLarge)
  else Ok value.

(** [ContextList::new] and [ContextMap::new]. *)
Definition context_list_new (values : list ContextValue) (limits : InputLimits) :
    result ValidationError ContextValue :=
  if (limits.(context_collection_items) <? len values)%N then
    Err (mkValidationError "context_list" VRTooManyItems)
  else Ok (CVList values).

Definition context_map_new (values : BTreeMap rstr ContextValue) (limits : InputLimits) :
    result ValidationError ContextValue :=
  if (limits.(context_collection_items) <? len values)%N then
    Err (mkValidationError "context_map" VRTooManyItems)
  else Ok (CVMap values).

(** ** JSON *)

Inductive Json :=
| JNull
| JBool (b : bool)
| JNumber (as_f64 : option f64)
| JString (s : rstr)
| JArray (values : list Json)
| JObject (values : list (rstr * Json)).

Definition too_deep : ValidationError := mkValidationError "condition_context" VRTooDeep.

Fixpoint convert_json_value (limits : InputLimits) (value_byte_limit depth : N) (value : Json) :
    result ValidationError ContextValue :=
  if (limits.(context_depth) <? depth)%N then Err too_deep
  else match value with
  | JNull => Ok CVNull
  | JBool b => Ok (CVBool b)
  | JNumber n =>
      x ← ok_or n (mkValidationError "context_number" VROutOfRange);
      CVDouble <$> finite_float_new x
  | JString s => CVString <$> context_string_new s value_byte_limit
  | JArray values =>
      if (limits.(context_collection_items) <? len values)%N then
        Err (mkValidationError "context_list" VRTooManyItems)
      else
        child_depth ← ok_or (checked_add USIZE_MAX depth 1) too_deep;
        values ← try_collect (convert_json_value limits value_byte_limit child_depth) values;
        context_list_new values limits
  | JObject values =>
      if (limits.(context_collection_items) <? len values)%N then
        Err (mkValidationError "context_map" VRTooManyItems)
      else
        child_depth ← ok_or (checked_add USIZE_MAX depth 1) too_deep;
        converted ← try_fold (fun '(key, value) (converted : BTreeMap rstr ContextValue) =>
                       key ← context_key_new key limits;
                       value ← convert_json_value limits value_byte_limit child_depth value;
                       Ok (bt_insert key value converted)) values [];
        context_map_new converted limits
  end.

(** ** Aggregate validation *)

Record ContextStats := mkContextStats {
  cst_bytes : N;
  cst_values : N;
  cst_byte_limit : option N;
}.

Definition add_bytes (bytes : N) (stats : ContextStats) : result ValidationError ContextStats :=
  let too_large := mkValidationError "condition_context" VRTooLarge in
  total ← ok_or (checked_add USIZE_MAX stats.(cst_bytes) bytes) too_large;
  if match stats.(cst_byte_limit) with Some limit => (limit <? total)%N | None => false end then Err too_large
  else Ok (mkContextStats total stats.(cst_values) stats.(cst_byte_limit)).

Definition add_value (limits : InputLimits) (stats : ContextStats) : result ValidationError ContextStats :=
  let too_many := mkValidationError "condition_context" VRTooManyItems in
  total ← ok_or (checked_add USIZE_MAX stats.(cst_values) 1) too_many;
  if (limits.(context_values) <? total)%N then Err too_many
  else Ok (mkContextStats stats.(cst_bytes) total stats.(cst_byte_limit)).

Definition context_items_check (field : string) (limits : InputLimits) (items : N) : result ValidationError () :=
  if (limits.(context_collection_items) <? items)%N then Err (mkValidationError field VRTooManyItems) else Ok ().

Fixpoint validate_context_value (limits : InputLimits) (enforce_value_byte_limit : bool) (value : ContextValue)
    (depth : N) (stats : ContextStats) : result ValidationError ContextStats :=
  if (limits.(context_depth) <? depth)%N then Err too_deep
  else
    stats ← add_value limits stats;
    match value with
    | CVNull => Ok stats
    | CVBool _ => add_bytes 1 stats
    | CVInt _ | CVUint _ | CVDouble _ => add_bytes 8 stats
    | CVString s =>
        if enforce_value_byte_limit && (limits.(context_string_bytes) <? str_len s)%N then
          Err (mkValidationError "context_string" VRTooLarge)
        else add_bytes (str_len s) stats
    | CVBytes b =>
        if enforce_value_byte_limit && (limits.(context_string_bytes) <? len b)%N then
          Err (mkValidationError "context_bytes" VRTooLarge)
        else add_bytes (len b) stats
    | CVList values =>
        _ ← context_items_check "context_list" limits (len values);
        child_depth ← ok_or (checked_add USIZE_MAX depth 1) too_deep;
        try_fold (fun value => validate_context_value limits enforce_value_byte_limit value child_depth) values stats
    | CVMap values =>
        _ ← context_items_check "context_map" limits (len values);
        child_depth ← ok_or (checked_add USIZE_MAX depth 1) too_deep;
        try_fold (fun '(key, value) stats =>
                    if (limits.(context_key_bytes) <? str_len key)%N then
                      Err (mkValidationError "context_key" VRTooLarge)
                    else
                      stats ← add_bytes (str_len key) stats;
                      validate_context_value limits enforce_value_byte_limit value child_depth stats) values stats
    end.

(** ** Contexts *)

(** One entry of a context: its name, then its value at the first level. *)
Definition validate_context_entry (limits : InputLimits) (enforce_value_byte_limit : bool)
    (entry : ParameterName * ContextValue) (stats : ContextStats) : result ValidationError ContextStats :=
  stats ← add_bytes (str_len entry.1) stats;
  validate_context_value limits enforce_value_byte_limit entry.2 1 stats.

(** [ConditionContext::new_with_policy] *)
Definition context_new_with_policy (values : BTreeMap ParameterName ContextValue) (limits : InputLimits)
    (byte_limit : option N) (enforce_value_byte_limit : bool) : result ValidationError ConditionContext :=
  _ ← context_items_check "condition_context" limits (len values);
  _ ← try_fold (validate_context_entry limits enforce_value_byte_limit) values (mkContextStats 0 0 byte_limit);
  Ok (mkConditionContext values).

(** [ConditionContext::new] *)
Definition condition_context_new (values : BTreeMap ParameterName ContextValue) (limits : InputLimits) :
    result ValidationError ConditionContext :=
  context_new_with_policy values limits (Some limits.(context_bytes)) true.

(** [ConditionContext::get] *)
Definition context_get (c : ConditionContext) (name : ParameterName) : option ContextValue :=
  bt_get name c.(cc_values).

(** [ConditionContext::overlay] *)
Definition context_overlay (request tuple_context : ConditionContext) (limits : InputLimits) :
    result ValidationError ConditionContext :=
  condition_context_new
    (foldl (fun merged '(name, value) => bt_insert name value merged) request.(cc_values) tuple_context.(cc_values))
    limits.

Section json.
Context `{Winnow}.

(** One member of the root object, inserted under its parsed name. *)
Definition convert_json_entry (limits : InputLimits) (value_byte_limit : N) (entry : rstr * Json)
    (converted : BTreeMap ParameterName ContextValue) :
    result ValidationError (BTreeMap ParameterName ContextValue) :=
  name ← map_err (fun _ => mkValidationError "context_parameter" VRInconsistent)
           (parse_parameter_name limits entry.1);
  value ← convert_json_value limits value_byte_limit 1 entry.2;
  Ok (bt_insert name value converted).

(** [ConditionContext::try_from_json_with_policy] *)
Definition try_from_json_with_policy (value : Json) (limits : InputLimits) (value_byte_limit : N)
    (aggregate_byte_limit : option N) (enforce_value_byte_limit : bool) :
    result ValidationError ConditionContext :=
  match value with
  | JObject values =>
      _ ← context_items_check "condition_context" limits (len values);
      converted ← try_fold (convert_json_entry limits value_byte_limit) values [];
      context_new_with_policy converted limits aggregate_byte_limit enforce_value_byte_limit
  | _ => Err (mkValidationError "condition_context" VRInconsistent)
  end.

(** [ConditionContext::try_from_json] *)
Definition try_from_json (value : Json) (limits : InputLimits) : result ValidationError ConditionContext :=
  try_from_json_with_policy value limits limits.(context_string_bytes) (Some limits.(context_bytes)) true.

End json.

(** ** What a context may hold *)

(** Induction with the values of lists and maps. *)
Lemma context_value_ind (P : ContextValue → Prop) :
  P CVNull → (∀ b, P (CVBool b)) → (∀ z, P (CVInt z)) → (∀ n, P (CVUint n)) → (∀ n, P (CVDouble n)) →
  (∀ s, P (CVString s)) → (∀ b, P (CVBytes b)) →
  (∀ l, Forall P l → P (CVList l)) → (∀ m, Forall (fun e => P e.2) m → P (CVMap m)) → ∀ v, P v.
Proof.
  intros H0 H1 H2 H3 H4 H5 H6 Hl Hm. fix go 1.
  intros [|b|z|n|n|s|b|l|m]; [exact H0|apply H1|apply H2|apply H3|apply H4|apply H5|apply H6| |].
  - apply Hl. revert l. fix each 1. intros [|v l]; constructor; [apply go|apply each].
  - apply Hm. revert m. fix each 1. intros [|[k v] m]; constructor; [apply go|apply each].
Qed.

Fixpoint value_depth (v : ContextValue) : N :=
  match v with
  | CVList l => 1 + foldr (fun v => N.max (value_depth v)) 0 l
  | CVMap m => 1 + foldr (fun e => N.max (value_depth e.2)) 0 m
  | _ => 1
  end%N.

(** The number of values in a tree, and the bytes it is charged. *)
Fixpoint value_count (v : ContextValue) : N :=
  match v with
  | CVList l => 1 + foldr (fun v => N.add (value_count v)) 0 l
  | CVMap m => 1 + foldr (fun e => N.add (value_count e.2)) 0 m
  | _ => 1
  end%N.

Fixpoint value_bytes (v : ContextValue) : N :=
  match v with
  | CVNull => 0
  | CVBool _ => 1
  | CVInt _ | CVUint _ | CVDouble _ => 8
  | CVString s => str_len s
  | CVBytes b => len b
  | CVList l => foldr (fun v => N.add (value_bytes v)) 0 l
  | CVMap m => foldr (fun e => N.add (str_len e.1 + value_bytes e.2)) 0 m
  end%N.

(** Every string, key and collection of a tree is within its own limit. *)
Fixpoint value_bounded (limits : InputLimits) (enforce : bool) (v : ContextValue) : Prop :=
  match v with
  | CVString s => enforce = true → (str_len s <= limits.(context_string_bytes))%N
  | CVBytes b => enforce = true → (len b <= limits.(context_string_bytes))%N
  | CVList l => (len l <= limits.(context_collection_items))%N ∧
                foldr (fun v => and (value_bounded limits enforce v)) True l
  | CVMap m => (len m <= limits.(context_collection_items))%N ∧
               foldr (fun e => and ((str_len e.1 <= limits.(context_key_bytes))%N ∧ value_bounded limits enforce e.2))
                 True m
  | _ => True
  end.

Section exact.
Variable limits : InputLimits.
Variable enforce : bool.
(* The ceilings of [Limit] keep every sum of the loop far below the word size. *)
Hypothesis Hwidth : (limits.(context_values) < USIZE_MAX)%N ∧ (limits.(context_depth) < USIZE_MAX)%N.

Definition stats_add (b n : N) (stats : ContextStats) : ContextStats :=
  mkContextStats (stats.(cst_bytes) + b) (stats.(cst_values) + n) stats.(cst_byte_limit).

Definition stats_ok (stats : ContextStats) : Prop :=
  (stats.(cst_bytes) <= N.min USIZE_MAX (default USIZE_MAX stats.(cst_byte_limit)))%N ∧
  (stats.(cst_values) <= limits.(context_values))%N.

(** A pass over part of a context: it charges [b] bytes and [n] values, and
    succeeds exactly when they fit and [P] holds. *)
Definition charges (f : ContextStats → result ValidationError ContextStats) (b n : N) (P : Prop) : Prop :=
  ∀ stats stats', stats_ok stats →
    f stats = Ok stats' ↔ stats' = stats_add b n stats ∧ stats_ok (stats_add b n stats) ∧ P.

Lemma charges_bind f g b b' n n' P Q :
  charges f b n P → charges g b' n' Q →
  charges (fun s => s ← f s; g s) (b + b') (n + n') (P ∧ Q).
Proof.
  intros Hf Hg stats stats' Hs. rewrite result_bind_ok.
  assert (Hadd : stats_add b' n' (stats_add b n stats) = stats_add (b + b') (n + n') stats)
    by (unfold stats_add; simpl; f_equal; lia).
  split.
  - intros (s & (-> & Hok & HP)%Hf & E); [|done]. apply Hg in E as (-> & Hok' & HQ); [|done].
    by rewrite Hadd in *.
  - intros (-> & Hok & HP & HQ).
    assert (Hok1 : stats_ok (stats_add b n stats)) by (unfold stats_ok, stats_add in *; simpl in *; lia).
    exists (stats_add b n stats). rewrite (Hf _ _ Hs), (Hg _ _ Hok1). by rewrite Hadd.
Qed.

Lemma charges_iff f b n P Q : (P ↔ Q) → charges f b n P → charges f b n Q.
Proof. intros HPQ Hf stats stats' Hs. rewrite (Hf _ _ Hs). by rewrite HPQ. Qed.

Lemma charges_ok : charges Ok 0 0 True.
Proof.
  intros [b n l] stats' Hs. unfold stats_add. simpl. rewrite !N.add_0_r. split; [intros [= <-]|intros (-> & _)]; done.
Qed.

(** A test in front of a pass. *)
Lemma charges_guard (f : ContextStats → result ValidationError ContextStats) (c : bool) e b n P :
  charges f b n P → charges (fun s => if c then Err e else f s) b n (c = false ∧ P).
Proof.
  intros Hf stats stats' Hs. destruct c; [naive_solver|]. rewrite (Hf _ _ Hs). naive_solver.
Qed.

Lemma add_bytes_charges b : charges (add_bytes b) b 0 True.
Proof.
  intros [bytes values limit] stats' [Hb Hv]. unfold add_bytes, stats_ok, stats_add in *. simpl in *.
  rewrite result_bind_ok, N.add_0_r. setoid_rewrite ok_or_ok. setoid_rewrite checked_add_Some. split.
  - intros (t & [-> Ht] & E). destruct limit as [limit|]; simpl in *; [|by simplify_eq; split_and!; [|lia..|]].
    destruct (N.ltb_spec limit (bytes + b)); simplify_eq. split_and!; [done|lia..|done].
  - intros (-> & [Hle _] & _). exists (bytes + b)%N.
    destruct limit as [limit|]; simpl in *; [|split; [lia|done]].
    destruct (N.ltb_spec limit (bytes + b)); [lia|]. split; [lia|done].
Qed.

Lemma add_value_charges : charges (add_value limits) 0 1 True.
Proof.
  intros [bytes values limit] stats' [Hb Hv]. unfold add_value, stats_ok, stats_add in *. simpl in *.
  rewrite result_bind_ok, N.add_0_r. setoid_rewrite ok_or_ok. setoid_rewrite checked_add_Some. split.
  - intros (t & [-> Ht] & E). destruct (N.ltb_spec (context_values limits) (values + 1)); by simplify_eq.
  - intros (-> & [_ Hle] & _). exists (values + 1)%N.
    destruct (N.ltb_spec (context_values limits) (values + 1)); [lia|]. split; [lia|done].
Qed.

(** The pass over the elements of a collection. *)
Lemma charges_each {A} (f : A → ContextStats → result ValidationError ContextStats) (b n : A → N) (P : A → Prop) l :
  Forall (fun x => charges (f x) (b x) (n x) (P x)) l →
  charges (try_fold f l)
    (foldr (fun x => N.add (b x)) 0%N l) (foldr (fun x => N.add (n x)) 0%N l) (foldr (fun x => and (P x)) True l).
Proof. induction 1 as [|x l Hx _ IH]; simpl; [apply charges_ok|]. by apply (charges_bind _ _ _ _ _ _ _ _ Hx IH). Qed.

Lemma depth_step depth : (depth <= limits.(context_depth))%N → checked_add USIZE_MAX depth 1 = Some (depth + 1)%N.
Proof. intros Hd. apply checked_add_Some. lia. Qed.

Lemma items_check_ok_unit field n (u : ()) :
  context_items_check field limits n = Ok u ↔ (n <= limits.(context_collection_items))%N.
Proof. clear Hwidth. destruct u. unfold context_items_check. destruct (N.ltb_spec (context_collection_items limits) n); naive_solver lia. Qed.

Lemma depth_items {A} (d : A → N) depth l :
  (depth <= limits.(context_depth))%N ∧
    foldr (fun x => and ((depth + 1) + d x <= limits.(context_depth) + 1)%N) True l ↔
  (depth + (1 + foldr (fun x => N.max (d x)) 0 l) <= limits.(context_depth) + 1)%N.
Proof.
  induction l as [|v l IH]; simpl; [intuition lia|]. split.
  - intros (Hd & Hv & Hl). destruct IH as [IH _]. specialize (IH (conj Hd Hl)). lia.
  - intros Hle. destruct (proj2 IH) as [? ?]; [lia|]. split_and!; [done|lia|done].
Qed.

Lemma foldr_and_app {A} (P Q : A → Prop) l :
  foldr (fun x => and (P x ∧ Q x)) True l ↔ foldr (fun x => and (P x)) True l ∧ foldr (fun x => and (Q x)) True l.
Proof. induction l as [|x l IH]; simpl; [tauto|]. rewrite IH. tauto. Qed.

Lemma charges_err f b n P : (∀ s s', f s ≠ Ok s') → ¬ P → charges f b n P.
Proof. intros Hf HP stats stats' _. split; [intros E; by apply Hf in E|naive_solver]. Qed.

(** A collection: the item limit, the next level and the pass over its elements. *)
Lemma charges_items (f : N → ContextStats → result ValidationError ContextStats) field depth k b n P :
  (depth <= limits.(context_depth))%N → charges (f (depth + 1)%N) b n P →
  charges (fun stats => _ ← context_items_check field limits k;
             child_depth ← ok_or (checked_add USIZE_MAX depth 1) too_deep; f child_depth stats) b n
    ((k <= limits.(context_collection_items))%N ∧ P).
Proof.
  intros Hd Hf stats stats' Hs. rewrite (depth_step _ Hd). simpl. rewrite result_bind_ok.
  setoid_rewrite items_check_ok_unit. setoid_rewrite (Hf _ _ Hs). naive_solver.
Qed.

(** A value that is not too deep is counted before its own pass. *)
Lemma charges_value g depth b n P Q :
  (P ↔ (depth <= limits.(context_depth))%N ∧ Q) →
  ((depth <= limits.(context_depth))%N → charges g b n Q) →
  charges (fun s => if (limits.(context_depth) <? depth)%N then Err too_deep else s ← add_value limits s; g s)
    b (1 + n) P.
Proof.
  intros HP Hg. apply (charges_iff _ _ _ _ _ (iff_sym HP)).
  destruct (N.ltb_spec (context_depth limits) depth) as [Hd|Hd]; [apply charges_err; [done|lia]|].
  apply (charges_iff _ _ _ (True ∧ Q)); [tauto|]. apply (charges_bind _ _ 0 b 1 n _ _ add_value_charges). by apply Hg.
Qed.

(** The pass over one value charges its size, and fails exactly when it is too
    deep, holds too much, or one of its parts exceeds its own limit. *)
Lemma validate_value_charges v : ∀ depth,
  charges (validate_context_value limits enforce v depth) (value_bytes v) (value_count v)
    ((depth + value_depth v <= limits.(context_depth) + 1)%N ∧ value_bounded limits enforce v).
Proof.
  induction v as [|b|z|n|n|s|b|l IH|m IH] using context_value_ind; intros depth.
  all: cbn [validate_context_value value_bytes value_count value_depth value_bounded].
  1: apply (charges_value _ depth 0 0 _ True); [intuition lia|intros _; apply charges_ok].
  1-4: apply (charges_value _ depth _ 0 _ True); [intuition lia|intros _; apply add_bytes_charges].
  1-2: eapply (charges_value _ depth _ 0 _ (_ ∧ True)); [|intros _; apply charges_guard, add_bytes_charges];
    destruct enforce; simpl; rewrite ?N.ltb_ge; intuition lia.
  - set (P v := ((depth + 1) + value_depth v <= context_depth limits + 1)%N ∧ value_bounded limits enforce v).
    apply (charges_value _ depth _ _ _ ((len l <= context_collection_items limits)%N ∧ foldr (fun v => and (P v)) True l)).
    { unfold P. rewrite foldr_and_app, <-(depth_items value_depth). tauto. }
    intros Hd. apply (charges_items (fun child => try_fold (fun v => validate_context_value limits enforce v child) l)
      "context_list" depth _ _ _ _ Hd).
    by apply charges_each, (Forall_impl _ _ _ IH).
  - set (P (e : rstr * ContextValue) := ((depth + 1) + value_depth e.2 <= context_depth limits + 1)%N ∧
      ((str_len e.1 <= context_key_bytes limits)%N ∧ value_bounded limits enforce e.2)).
    apply (charges_value _ depth _ _ _ ((len m <= context_collection_items limits)%N ∧ foldr (fun e => and (P e)) True m)).
    { unfold P. rewrite !foldr_and_app, <-(depth_items (fun e => value_depth e.2)). tauto. }
    intros Hd. apply (charges_items (fun child => try_fold (fun '(key, value) stats =>
      if (context_key_bytes limits <? str_len key)%N then Err (mkValidationError "context_key" VRTooLarge)
      else stats ← add_bytes (str_len key) stats; validate_context_value limits enforce value child stats) m)
      "context_map" depth _ _ _ _ Hd).
    apply charges_each, (Forall_impl _ _ _ IH). intros [k v] Hv. simpl.
    eapply charges_iff, charges_guard, (charges_bind _ _ _ _ 0 _ _ _ (add_bytes_charges _) (Hv _)).
    unfold P. rewrite N.ltb_ge. simpl. tauto.
Qed.

(** The whole pass of a context. *)
Lemma validate_entries_charges (values : list (ParameterName * ContextValue)) :
  charges (try_fold (validate_context_entry limits enforce) values)
    (foldr (fun e => N.add (str_len e.1 + value_bytes e.2)) 0%N values)
    (foldr (fun e => N.add (value_count e.2)) 0%N values)
    (foldr (fun e => and ((value_depth e.2 <= limits.(context_depth))%N ∧ value_bounded limits enforce e.2)) True values).
Proof.
  apply charges_each, Forall_forall. intros [name v] _. unfold validate_context_entry. simpl.
  eapply charges_iff, (charges_bind _ _ _ _ 0 _ _ _ (add_bytes_charges _) (validate_value_charges v 1)). intuition lia.
Qed.

End exact.

(** The contexts the limits allow: the number of entries, the number and bytes
    of all values, their nesting, and the size of every string, key and
    collection. *)
Definition context_within (limits : InputLimits) (enforce : bool) (byte_limit : N)
    (values : BTreeMap ParameterName ContextValue) : Prop :=
  (len values <= limits.(context_collection_items))%N ∧
  (foldr (fun e => N.add (str_len e.1 + value_bytes e.2)) 0 values <= byte_limit)%N ∧
  (foldr (fun e => N.add (value_count e.2)) 0 values <= limits.(context_values))%N ∧
  ∀ name v, (name, v) ∈ values → (value_depth v <= limits.(context_depth))%N ∧ value_bounded limits enforce v.

Lemma foldr_and_elem {A} (P : A → Prop) l : foldr (fun x => and (P x)) True l ↔ ∀ x, x ∈ l → P x.
Proof.
  induction l as [|x l IH]; simpl; [by setoid_rewrite elem_of_nil|]. rewrite IH. setoid_rewrite elem_of_cons. naive_solver.
Qed.

Lemma context_policy_ok limits enforce byte_limit values c :
  (limits.(context_values) < USIZE_MAX)%N → (limits.(context_depth) < USIZE_MAX)%N →
  context_new_with_policy values limits byte_limit enforce = Ok c ↔
  c = mkConditionContext values ∧
  context_within limits enforce (N.min USIZE_MAX (default USIZE_MAX byte_limit)) values.
Proof.
  intros Hv Hd. unfold context_new_with_policy, context_within. rewrite result_bind_ok.
  setoid_rewrite items_check_ok_unit. setoid_rewrite result_bind_ok.
  assert (H0 : stats_ok limits (mkContextStats 0 0 byte_limit)) by (unfold stats_ok; simpl; lia).
  setoid_rewrite (validate_entries_charges limits enforce (conj Hv Hd) values _ _ H0).
  unfold stats_ok, stats_add. simpl. rewrite !N.add_0_l. split.
  - intros (_ & Hlen & s & (-> & [Hb Hn] & Hall) & [= <-]). rewrite foldr_and_elem in Hall.
    split_and!; [done..|]. intros n v. apply (Hall (n, v)).
  - intros (-> & Hlen & Hb & Hn & Hall). exists (). split; [done|]. eexists. split; [|done].
    rewrite foldr_and_elem. split_and!; [done..|]. intros [n v]. apply Hall.
Qed.

(** [bt_insert] of every entry of a second map. *)
Lemma overlay_get {V} (l : BTreeMap ParameterName V) : ∀ (m : BTreeMap ParameterName V) n,
  bt_sorted l → bt_get n (foldl (fun m '(k, v) => bt_insert k v m) m l) =
  match bt_get n l with Some v => Some v | None => bt_get n m end.
Proof.
  induction l as [|[k v] l IH]; intros m n Hs; [done|]. apply StronglySorted_inv in Hs as [Hs Hk].
  cbn [foldl]. rewrite (IH _ _ Hs). cbn [bt_get]. destruct (cmp n k) eqn:E.
  2-3: destruct (bt_get n l); [done|]; apply bt_get_insert_ne; intros ->; by rewrite cmp_refl in E.
  apply cmp_eq_iff in E as ->. destruct (bt_get k l) as [v'|] eqn:Ev; [|apply bt_get_insert_eq].
  apply bt_get_elem in Ev. rewrite Forall_forall in Hk. apply Hk in Ev. simpl in Ev. by rewrite cmp_refl in Ev.
Qed.

(** An overlaid context has the values of the overlay, and the base elsewhere. *)
Lemma context_overlay_get request tuple_context limits c n :
  bt_sorted tuple_context.(cc_values) → context_overlay request tuple_context limits = Ok c →
  context_get c n = match context_get tuple_context n with Some v => Some v | None => context_get request n end.
Proof.
  unfold context_overlay, condition_context_new, context_new_with_policy.
  intros Hs ([] & _ & (st & _ & [= <-])%result_bind_ok)%result_bind_ok. by apply overlay_get.
Qed.

(** ** Properties *)

(** The limits on a condition context are exact.  A context is accepted exactly
    when the number of its entries, the bytes charged for its names and values,
    the number and the nesting of its values, and every string, key and
    collection in it are within the limits, and it then holds what it was given:
    the checks made while walking the tree neither miss an excess nor refuse a
    context that fits. *)
Theorem context_limits_exact limits values c :
  (limits.(context_values) < USIZE_MAX)%N → (limits.(context_depth) < USIZE_MAX)%N →
  condition_context_new values limits = Ok c ↔
  c = mkConditionContext values ∧ context_within limits true (N.min USIZE_MAX limits.(context_bytes)) values.
Proof. intros Hv Hd. unfold condition_context_new. by rewrite context_policy_ok. Qed.

Lemma context_limits_exact_witness :
  let values := [(str "ips", CVList [CVString (str "10.0.0.7"); CVInt 4])] in
  condition_context_new values default_input_limits = Ok (mkConditionContext values) ↔
  mkConditionContext values = mkConditionContext values ∧
  context_within default_input_limits true (N.min USIZE_MAX default_input_limits.(context_bytes)) values.
Proof. apply context_limits_exact; vm_compute; reflexivity. Defined.
