(* ===== verification/Fingerprint.v ===== *)
(** * Fingerprints of semantic values

    [crates/openfga-domain/src/fingerprint.rs] and the fingerprints of tuple
    keys, relationship tuples, contextual tuples and condition contexts
    ([reference.rs], [context.rs]).  A builder is the bytes given to its hasher
    so far; the hash itself is the [sha2] crate's and a parameter.  The theorems
    say that the canonical encodings are unambiguous: what is hashed determines
    the value. *)

From S2P Require Import Prelude Ordered Identifier Reference Scalars Context.
From Stdlib Require Import ZArith.

(** ** The builder *)

Abbreviation Fingerprint := (list N).
Abbreviation FingerprintBuilder := (list N).

Class Sha256 := sha256 : list N → Fingerprint.

(** A digest has 32 bytes. *)
Class Sha256Laws `{Sha256} : Prop := sha256_length bytes : length (sha256 bytes) = 32.

(** [to_be_bytes] of an unsigned integer of [width] bytes. *)
Fixpoint be_bytes (width : nat) (value : N) : list N :=
  match width with
  | 0 => []
  | S width => be_bytes width (value / 256) ++ [(value mod 256)%N]
  end.

Definition write_tag (tag : N) (builder : FingerprintBuilder) : FingerprintBuilder := builder ++ [tag].

Definition write_u32 (value : N) (builder : FingerprintBuilder) : FingerprintBuilder :=
  builder ++ be_bytes 4 value.

Definition write_u64 (value : N) (builder : FingerprintBuilder) : FingerprintBuilder :=
  builder ++ be_bytes 8 value.

(** [i64::to_be_bytes] is two's complement. *)
Definition write_i64 (value : Z) (builder : FingerprintBuilder) : FingerprintBuilder :=
  builder ++ be_bytes 8 (Z.to_N (value mod 2 ^ 64)).

(** [u64::try_from(len).unwrap_or(u64::MAX)] *)
Definition count_u64 {A} (items : list A) : N := N.min U64_MAX (len items).

Definition write_bytes (value : list N) (builder : FingerprintBuilder) : FingerprintBuilder :=
  write_u64 (count_u64 value) builder ++ value.

Definition write_str (value : rstr) (builder : FingerprintBuilder) : FingerprintBuilder :=
  write_bytes (utf8_encode value) builder.

Definition builder_new (domain : string) : FingerprintBuilder := write_str (str domain) [].

Definition finish `{Sha256} (builder : FingerprintBuilder) : Fingerprint := sha256 builder.

(** ** Condition contexts *)

Fixpoint update_value_fingerprint (value : ContextValue) (builder : FingerprintBuilder) : FingerprintBuilder :=
  match value with
  | CVNull => write_tag 0 builder
  | CVBool value => write_tag (if value then 1 else 0) (write_tag 1 builder)
  | CVInt value => write_i64 value (write_tag 2 builder)
  | CVUint value => write_u64 value (write_tag 3 builder)
  | CVDouble bits => write_u64 bits (write_tag 4 builder)
  | CVString value => write_str value (write_tag 5 builder)
  | CVBytes value => write_bytes value (write_tag 6 builder)
  | CVList values =>
      foldl (fun builder value => update_value_fingerprint value builder)
        (write_u64 (count_u64 values) (write_tag 7 builder)) values
  | CVMap values =>
      foldl (fun builder '(key, value) => update_value_fingerprint value (write_str key builder))
        (write_u64 (count_u64 values) (write_tag 8 builder)) values
  end.

(** What [fingerprint_context] hashes. *)
Definition context_bytes_hashed (values : BTreeMap ParameterName ContextValue) : FingerprintBuilder :=
  foldl (fun builder '(name, value) => update_value_fingerprint value (write_str name builder))
    (write_u64 (count_u64 values) (builder_new "openfga.condition-context.v1")) values.

Definition fingerprint_context `{Sha256} (context : ConditionContext) : Fingerprint :=
  finish (context_bytes_hashed context.(cc_values)).

(** ** Tuples *)

Definition update_tuple_key_fingerprint (key : TupleKey) (builder : FingerprintBuilder) : FingerprintBuilder :=
  let builder := write_str key.(tk_object).(object_type) builder in
  let builder := write_str key.(tk_object).(object_id) builder in
  let builder := write_str key.(tk_relation) builder in
  match key.(tk_subject) with
  | SubjObject object =>
      let builder := write_tag 0 builder in
      let builder := write_str object.(object_type) builder in
      write_str object.(object_id) builder
  | SubjUserset userset =>
      let builder := write_tag 1 builder in
      let builder := write_str userset.(us_object).(object_type) builder in
      let builder := write_str userset.(us_object).(object_id) builder in
      write_str userset.(us_relation) builder
  | SubjWildcard object_type =>
      let builder := write_tag 2 builder in
      write_str object_type builder
  end.

(** [TupleKey::fingerprint] and what it hashes. *)
Definition tuple_key_bytes (key : TupleKey) : FingerprintBuilder :=
  update_tuple_key_fingerprint key (builder_new "openfga.tuple-key.v1").

Definition tuple_key_fingerprint `{Sha256} (key : TupleKey) : Fingerprint := finish (tuple_key_bytes key).

(** [RelationshipTuple::update_fingerprint] *)
Definition update_tuple_fingerprint `{Sha256} (tuple : RelationshipTuple) (builder : FingerprintBuilder) :
    FingerprintBuilder :=
  let builder := update_tuple_key_fingerprint tuple.(rt_key) builder in
  match tuple.(rt_condition) with
  | Unconditional => write_tag 0 builder
  | Conditional binding =>
      let builder := write_tag 1 builder in
      let builder := write_str binding.(cb_name) builder in
      write_bytes (fingerprint_context binding.(cb_context)) builder
  end.

Definition tuple_bytes `{Sha256} (tuple : RelationshipTuple) : FingerprintBuilder :=
  update_tuple_fingerprint tuple (builder_new "openfga.relationship-tuple.v1").

(** What [fingerprint_contextual_tuples] hashes last: the sorted fingerprints of
    the tuples. *)
Definition contextual_bytes `{Sha256} (tuples : list RelationshipTuple) : FingerprintBuilder :=
  let tuple_fingerprints := sort_by cmp ((fun tuple => finish (tuple_bytes tuple)) <$> tuples) in
  foldl (fun builder fingerprint => write_bytes fingerprint builder)
    (write_u64 (count_u64 tuple_fingerprints) (builder_new "openfga.contextual-tuples.v1")) tuple_fingerprints.

Definition fingerprint_contextual_tuples `{Sha256} (tuples : list RelationshipTuple) : Fingerprint :=
  finish (contextual_bytes tuples).

(** ** Unambiguous encodings *)

(** A writer appends, and what it appends for [x] tells [x] from every other
    value that satisfies [P], whatever is written next. *)
Definition appends {A} (w : A → FingerprintBuilder → FingerprintBuilder) (x : A) : Prop :=
  ∀ b, w x b = b ++ w x [].

Definition tells {A} (P : A → Prop) (w : A → FingerprintBuilder → FingerprintBuilder) (x : A) : Prop :=
  ∀ y r r', P y → w x [] ++ r = w y [] ++ r' → x = y ∧ r = r'.

Lemma tells_end {A} (P : A → Prop) w (x y : A) : tells P w x → P y → w x [] = w y [] → x = y.
Proof. intros Ht Hy E. apply (Ht y [] [] Hy). by rewrite E. Qed.

(** Writing one part of a value after another. *)
Lemma appends_seq {A B C} (v : A → FingerprintBuilder → FingerprintBuilder) (w : B → FingerprintBuilder → FingerprintBuilder)
    (f : C → A) (g : C → B) x :
  appends v (f x) → appends w (g x) → appends (fun x b => w (g x) (v (f x) b)) x.
Proof. intros Hv Hw b. rewrite Hw, Hv, (Hw (v (f x) [])). by rewrite app_assoc. Qed.

Lemma tells_seq {A B C} (P : A → Prop) (Q : B → Prop) (v : A → FingerprintBuilder → FingerprintBuilder)
    (w : B → FingerprintBuilder → FingerprintBuilder) (f : C → A) (g : C → B) x :
  (∀ y, appends w y) → tells P v (f x) → tells Q w (g x) → (∀ y, f x = f y → g x = g y → x = y) →
  tells (fun y => P (f y) ∧ Q (g y)) (fun x b => w (g x) (v (f x) b)) x.
Proof.
  intros Hw Hv Hx Hinj y r r' [Hy Hy'] E. rewrite (Hw (g x)), (Hw (g y)), <-!app_assoc in E.
  apply Hv in E as [Ef E]; [|done]. apply Hx in E as [Eg ->]; [|done]. split; [by apply Hinj|done].
Qed.

Lemma be_bytes_length width value : length (be_bytes width value) = width.
Proof. revert value. induction width as [|width IH]; intros value; [done|]. simpl. rewrite length_app, IH. simpl. lia. Qed.

Lemma be_bytes_inj width a b :
  (a < 256 ^ N.of_nat width)%N → (b < 256 ^ N.of_nat width)%N → be_bytes width a = be_bytes width b → a = b.
Proof.
  revert a b. induction width as [|width IH]; intros a b Ha Hb E.
  - simpl in Ha, Hb. lia.
  - simpl in E. apply app_inj_2 in E as [E Em]; [|done]. injection Em as Em.
    rewrite Nat2N.inj_succ, N.pow_succ_r' in Ha, Hb.
    apply IH in E; [|apply N.Div0.div_lt_upper_bound; lia..].
    rewrite (N.div_mod a 256), (N.div_mod b 256) by done. congruence.
Qed.

Lemma fixed_tells {A} (P : A → Prop) (enc : A → list N) n x :
  P x → (∀ y, P y → length (enc y) = n) → (∀ y, P y → enc x = enc y → x = y) →
  tells P (fun y b => b ++ enc y) x.
Proof.
  intros Hx Hn Hinj y r r' Hy E. simpl in E. apply app_inj_1 in E as [E ->]; [|by rewrite !Hn].
  split; [|done]. by apply Hinj.
Qed.

Lemma write_u64_tells x : (x < 2 ^ 64)%N → tells (fun y => y < 2 ^ 64)%N write_u64 x.
Proof.
  intros Hx. apply (fixed_tells _ (be_bytes 8) 8); [done|intros; apply be_bytes_length|].
  intros y Hy. by apply be_bytes_inj.
Qed.

Lemma write_u32_tells x : (x < 2 ^ 32)%N → tells (fun y => y < 2 ^ 32)%N write_u32 x.
Proof.
  intros Hx. apply (fixed_tells _ (be_bytes 4) 4); [done|intros; apply be_bytes_length|].
  intros y Hy. by apply be_bytes_inj.
Qed.

Definition i64_ok (z : Z) : Prop := (- 2 ^ 63 <= z < 2 ^ 63)%Z.

Lemma write_i64_tells x : i64_ok x → tells i64_ok write_i64 x.
Proof.
  unfold i64_ok. intros Hx. apply (fixed_tells _ (fun z => be_bytes 8 (Z.to_N (z mod 2 ^ 64))) 8);
    [done|intros; apply be_bytes_length|].
  intros y Hy E. assert (Hb : ∀ z : Z, (Z.to_N (z mod 2 ^ 64) < 256 ^ N.of_nat 8)%N).
  { intros z. pose proof (Z.mod_pos_bound z (2 ^ 64) ltac:(done)). change (256 ^ N.of_nat 8)%N with (Z.to_N (2 ^ 64)). lia. }
  apply be_bytes_inj in E; [|apply Hb..].
  pose proof (Z.mod_pos_bound x (2 ^ 64) ltac:(done)). pose proof (Z.mod_pos_bound y (2 ^ 64) ltac:(done)).
  pose proof (Z.div_mod x (2 ^ 64) ltac:(done)). pose proof (Z.div_mod y (2 ^ 64) ltac:(done)).
  assert (x mod 2 ^ 64 = y mod 2 ^ 64)%Z by lia. nia.
Qed.

(** Byte strings shorter than [u64::MAX] are delimited by their length. *)
Definition bytes_ok (b : list N) : Prop := (len b < 2 ^ 64)%N.

Lemma count_u64_ok {A} (l : list A) : (len l < 2 ^ 64)%N → count_u64 l = len l.
Proof. unfold count_u64, U64_MAX. lia. Qed.

Lemma write_bytes_appends x : appends write_bytes x.
Proof. intros b. unfold write_bytes, write_u64. simpl. by rewrite <-app_assoc. Qed.

Lemma write_bytes_tells x : bytes_ok x → tells bytes_ok write_bytes x.
Proof.
  unfold bytes_ok. intros Hx y r r' Hy. unfold write_bytes. rewrite !count_u64_ok by done. rewrite <-!app_assoc. intros E.
  apply write_u64_tells in E as [El E]; [|done..]. apply app_inj_1 in E; [done|]. unfold len in El. lia.
Qed.

(** UTF-8 is unambiguous on scalar values: the first byte tells the length, and
    the bytes the value. *)
Lemma utf8_char_tells c d r r' :
  (c < 1114112)%N → (d < 1114112)%N → utf8_char c ++ r = utf8_char d ++ r' → c = d ∧ r = r'.
Proof.
  intros Hc Hd. unfold utf8_char.
  repeat match goal with |- context [N.ltb ?a ?b] => destruct (N.ltb_spec a b) end; simpl;
    intros E; simplify_eq; split; try done; zify; Z.to_euclidean_division_equations; lia.
Qed.

(** A Rust string: scalar values, and fewer than [2^64] bytes. *)
Definition str_ok (s : rstr) : Prop := Forall (fun c => c < 1114112)%N s ∧ (str_len s < 2 ^ 64)%N.

Lemma utf8_encode_len s : len (utf8_encode s) = str_len s.
Proof.
  induction s as [|c s IH]; [done|]. unfold utf8_encode in *. rewrite bind_cons. simpl. rewrite <-IH.
  unfold len. rewrite length_app, Nat2N.inj_add. f_equal. unfold utf8_char, char_len_utf8. by repeat case_match.
Qed.

Lemma utf8_encode_inj s t :
  Forall (fun c => c < 1114112)%N s → Forall (fun c => c < 1114112)%N t → utf8_encode s = utf8_encode t → s = t.
Proof.
  intros Hs. revert t. induction Hs as [|c s Hc _ IH]; intros t Ht E.
  - destruct t as [|d t]; [done|]. exfalso. unfold utf8_encode in E. rewrite bind_cons in E. simpl in E.
    assert (El : length (utf8_char d ++ (t ≫= utf8_char)) = 0) by (by rewrite <-E).
    rewrite length_app in El. unfold utf8_char in El. repeat case_match; simpl in El; lia.
  - destruct Ht as [|d t Hd Ht].
    + exfalso. unfold utf8_encode in E. rewrite bind_cons in E. simpl in E.
      assert (El : length (utf8_char c ++ (s ≫= utf8_char)) = 0) by (by rewrite E).
      rewrite length_app in El. unfold utf8_char in El. repeat case_match; simpl in El; lia.
    + unfold utf8_encode in *. rewrite !bind_cons in E. apply utf8_char_tells in E as [-> E]; [|done..].
      f_equal. by apply IH.
Qed.

Lemma write_str_appends s : appends write_str s.
Proof. intros b. apply write_bytes_appends. Qed.

Lemma write_str_tells s : str_ok s → tells str_ok write_str s.
Proof.
  intros [Hs Hl] t r r' [Ht Hk] E. apply write_bytes_tells in E as [E ->]; [|unfold bytes_ok; by rewrite utf8_encode_len..].
  split; [|done]. by apply utf8_encode_inj.
Qed.

(** ** Sequences of values *)

Lemma appends_fold {A} (w : A → FingerprintBuilder → FingerprintBuilder) l :
  Forall (appends w) l → appends (fun l b => foldl (fun b x => w x b) b l) l.
Proof.
  induction 1 as [|x l Hx _ IH]; intros b; simpl; [by rewrite app_nil_r|].
  rewrite IH, (IH (w x [])), Hx. by rewrite app_assoc.
Qed.

Lemma fold_tells {A} (P : A → Prop) (w : A → FingerprintBuilder → FingerprintBuilder) l :
  (∀ x, appends w x) → Forall (tells P w) l → ∀ k r r', Forall P k → length l = length k →
  foldl (fun b x => w x b) [] l ++ r = foldl (fun b x => w x b) [] k ++ r' → l = k ∧ r = r'.
Proof.
  intros Hap. induction 1 as [|x l Hx _ IH]; intros [|y k] r r' Hk Hlen E; try done.
  pose proof (appends_fold w l ltac:(apply Forall_true, Hap) (w x [])) as El.
  pose proof (appends_fold w k ltac:(apply Forall_true, Hap) (w y [])) as Ek.
  simpl in E, El, Ek, Hlen. rewrite El, Ek, <-!app_assoc in E. apply Forall_cons in Hk as [Hy Hk].
  apply Hx in E as [-> E]; [|done]. apply IH in E as [-> ->]; [done|done|lia].
Qed.

(** A sequence written after its length is delimited by it. *)
Definition write_list {A} (w : A → FingerprintBuilder → FingerprintBuilder) (l : list A) (b : FingerprintBuilder) :
    FingerprintBuilder :=
  foldl (fun b x => w x b) (write_u64 (count_u64 l) b) l.

Lemma write_list_eq {A} (w : A → FingerprintBuilder → FingerprintBuilder) l b :
  (∀ x, appends w x) → write_list w l b = b ++ be_bytes 8 (count_u64 l) ++ foldl (fun b x => w x b) [] l.
Proof.
  intros Hap. unfold write_list. rewrite (appends_fold w l) by (apply Forall_true, Hap). unfold write_u64.
  by rewrite app_assoc.
Qed.

Lemma write_list_appends {A} (w : A → FingerprintBuilder → FingerprintBuilder) l :
  (∀ x, appends w x) → appends (write_list w) l.
Proof. intros Hap b. rewrite !write_list_eq by done. done. Qed.

Lemma write_list_tells {A} (P : A → Prop) (w : A → FingerprintBuilder → FingerprintBuilder) l :
  (∀ x, appends w x) → Forall (tells P w) l → (len l < 2 ^ 64)%N →
  tells (fun k => Forall P k ∧ len k < 2 ^ 64)%N (write_list w) l.
Proof.
  intros Hap Hl Hlen k r r' [Hk Hklen] E. rewrite !write_list_eq, !app_nil_l in E by done.
  rewrite !count_u64_ok, <-!app_assoc in E by done.
  apply (write_u64_tells (len l) Hlen) in E as [Elen E]; [|done].
  apply (fold_tells P) in E; [done|done|done|done|]. unfold len in Elen. lia.
Qed.

(** ** Context values *)

#[local] Arguments be_bytes : simpl never.

(** The ranges of the machine types a context value is made of. *)
Fixpoint value_ok (v : ContextValue) : Prop :=
  match v with
  | CVNull | CVBool _ => True
  | CVInt z => i64_ok z
  | CVUint n | CVDouble n => (n < 2 ^ 64)%N
  | CVString s => str_ok s
  | CVBytes b => bytes_ok b
  | CVList l => (len l < 2 ^ 64)%N ∧ foldr (fun v => and (value_ok v)) True l
  | CVMap m => (len m < 2 ^ 64)%N ∧ foldr (fun e => and (str_ok e.1 ∧ value_ok e.2)) True m
  end.

Definition entry_ok (e : rstr * ContextValue) : Prop := str_ok e.1 ∧ value_ok e.2.

Definition write_entry (e : rstr * ContextValue) (b : FingerprintBuilder) : FingerprintBuilder :=
  let '(key, value) := e in update_value_fingerprint value (write_str key b).

Lemma foldr_and {A} (P : A → Prop) l : foldr (fun x => and (P x)) True l ↔ Forall P l.
Proof. induction l; simpl; [by rewrite Forall_nil|]. rewrite Forall_cons. tauto. Qed.

Lemma update_value_appends v : appends update_value_fingerprint v.
Proof.
  assert (Hone : ∀ (w : FingerprintBuilder → FingerprintBuilder) tag,
    (∀ b, w b = b ++ w []) → ∀ b, w (write_tag tag b) = b ++ w (write_tag tag [])).
  { intros w tag Hw b. rewrite Hw, (Hw (write_tag tag [])). unfold write_tag. by rewrite <-!app_assoc. }
  induction v as [|x|z|n|n|s|x|l IH|m IH] using context_value_ind; intros b; cbn [update_value_fingerprint];
    try (by unfold write_i64, write_u64, write_tag; rewrite <-!app_assoc).
  - done.
  - by apply (Hone (write_str s)), write_str_appends.
  - by apply (Hone (write_bytes x)), write_bytes_appends.
  - apply (Hone (fun b => write_list update_value_fingerprint l b)). intros b'. unfold write_list.
    rewrite !(appends_fold _ l IH (write_u64 _ _)). unfold write_u64. by rewrite <-app_assoc.
  - apply (Hone (fun b => write_list write_entry m b)). intros b'. unfold write_list.
    assert (Hm : Forall (appends write_entry) m).
    { eapply Forall_impl; [exact IH|]. intros [k v] Hv b''. simpl in *.
      rewrite Hv, write_str_appends, (Hv (write_str k [])). by rewrite app_assoc. }
    rewrite !(appends_fold _ m Hm (write_u64 _ _)). unfold write_u64. by rewrite <-app_assoc.
Qed.

Lemma write_entry_appends e : appends write_entry e.
Proof.
  destruct e as [k v]. intros b. simpl.
  rewrite update_value_appends, write_str_appends, (update_value_appends v (write_str k [])). by rewrite app_assoc.
Qed.

Lemma write_entry_tells e : str_ok e.1 → tells value_ok update_value_fingerprint e.2 → tells entry_ok write_entry e.
Proof.
  destruct e as [k v]. simpl. intros Hk Hv [k' v'] r r' [Hk' Hv'] E. unfold write_entry in E.
  rewrite (update_value_appends v), (update_value_appends v'), <-!app_assoc in E.
  apply write_str_tells in E as [-> E]; [|done..]. apply Hv in E as [-> ->]; done.
Qed.

(** The bytes of a value: its tag and its content. *)
Definition value_tag (v : ContextValue) : N :=
  match v with
  | CVNull => 0 | CVBool _ => 1 | CVInt _ => 2 | CVUint _ => 3 | CVDouble _ => 4
  | CVString _ => 5 | CVBytes _ => 6 | CVList _ => 7 | CVMap _ => 8
  end.

Definition value_content (v : ContextValue) : list N :=
  match v with
  | CVNull => []
  | CVBool b => write_tag (if b then 1 else 0) []
  | CVInt z => write_i64 z []
  | CVUint n | CVDouble n => write_u64 n []
  | CVString s => write_str s []
  | CVBytes b => write_bytes b []
  | CVList l => write_list update_value_fingerprint l []
  | CVMap m => write_list write_entry m []
  end.

Lemma update_value_split v : update_value_fingerprint v [] = value_tag v :: value_content v.
Proof.
  destruct v; try done; simpl.
  - change (foldl _ _ l) with (write_list update_value_fingerprint l (write_tag 7 [])).
    by rewrite write_list_appends by apply update_value_appends.
  - change (foldl _ _ m) with (write_list write_entry m (write_tag 8 [])).
    by rewrite write_list_appends by apply write_entry_appends.
Qed.

Lemma update_value_tells v : value_ok v → tells value_ok update_value_fingerprint v.
Proof.
  induction v as [|x|z|n|n|s|x|l IH|m IH] using context_value_ind; intros Hv y r r' Hy;
    rewrite !update_value_split; simpl; intros [= Et E];
    destruct y as [|x'|z'|n'|n'|s'|x'|l'|m']; try discriminate Et; simpl in Hv, Hy, E.
  - done.
  - injection E as E ->. split; [|done]. by destruct x, x'.
  - apply write_i64_tells in E as [-> ->]; done.
  - apply write_u64_tells in E as [-> ->]; done.
  - apply write_u64_tells in E as [-> ->]; done.
  - apply write_str_tells in E as [-> ->]; done.
  - apply write_bytes_tells in E as [-> ->]; done.
  - rewrite foldr_and in Hv, Hy. destruct Hv as [Hl Hv], Hy as [Hl' Hy]. apply (write_list_tells value_ok) in E as [-> ->]; try done.
    + apply update_value_appends.
    + apply Forall_forall. rewrite Forall_forall in IH, Hv. auto.
  - rewrite foldr_and in Hv, Hy. destruct Hv as [Hl Hv], Hy as [Hl' Hy]. apply (write_list_tells entry_ok) in E as [-> ->]; try done.
    + apply write_entry_appends.
    + apply Forall_forall. intros e He. rewrite Forall_forall in IH, Hv. destruct (Hv e He).
      apply write_entry_tells; auto.
Qed.

(** ** Contexts and tuples *)

#[local] Opaque write_str write_bytes.

Definition context_repr (c : ConditionContext) : Prop :=
  Forall entry_ok c.(cc_values) ∧ (len c.(cc_values) < 2 ^ 64)%N.

Lemma context_bytes_inj c c' :
  context_repr c → context_repr c' → context_bytes_hashed c.(cc_values) = context_bytes_hashed c'.(cc_values) → c = c'.
Proof.
  intros [Hc Hl] Hc' E. destruct c as [c], c' as [c']. simpl in *. f_equal. unfold context_bytes_hashed in E.
  change (write_list write_entry c (builder_new "openfga.condition-context.v1") =
          write_list write_entry c' (builder_new "openfga.condition-context.v1")) in E.
  rewrite (write_list_appends write_entry c), (write_list_appends write_entry c') in E by apply write_entry_appends.
  apply app_inj_1 in E as [_ E]; [|done].
  refine (tells_end _ _ _ _ (write_list_tells entry_ok _ _ _ _ _) Hc' E); [apply write_entry_appends| |done].
  eapply Forall_impl; [exact Hc|]. intros e [He Hv]. apply write_entry_tells; [done|]. by apply update_value_tells.
Qed.

Definition object_repr (o : ObjectRef) : Prop := str_ok o.(object_type) ∧ str_ok o.(object_id).

Definition subject_repr (s : SubjectRef) : Prop :=
  match s with
  | SubjObject o => object_repr o
  | SubjUserset u => object_repr u.(us_object) ∧ str_ok u.(us_relation)
  | SubjWildcard ty => str_ok ty
  end.

Definition key_repr (k : TupleKey) : Prop :=
  object_repr k.(tk_object) ∧ str_ok k.(tk_relation) ∧ subject_repr k.(tk_subject).

(** Strings written one after the other are told apart one by one. *)
Ltac tell_str E := rewrite <-?app_assoc in E; apply write_str_tells in E as [? E]; [|done..].

Lemma update_key_eq k b :
  update_tuple_key_fingerprint k b =
  b ++ write_str k.(tk_object).(object_type) [] ++ write_str k.(tk_object).(object_id) [] ++
  write_str k.(tk_relation) [] ++
  match k.(tk_subject) with
  | SubjObject o => [0%N] ++ write_str o.(object_type) [] ++ write_str o.(object_id) []
  | SubjUserset u => [1%N] ++ write_str u.(us_object).(object_type) [] ++ write_str u.(us_object).(object_id) [] ++
                    write_str u.(us_relation) []
  | SubjWildcard ty => [2%N] ++ write_str ty []
  end.
Proof.
  unfold update_tuple_key_fingerprint, write_tag. destruct (tk_subject k);
    repeat match goal with
    | |- context [write_str ?s ?b] =>
        lazymatch b with [] => fail | _ => rewrite (write_str_appends s b) end
    end; by rewrite <-!app_assoc.
Qed.

Lemma update_key_appends k : appends update_tuple_key_fingerprint k.
Proof. intros b. rewrite (update_key_eq k b), (update_key_eq k []). done. Qed.

Lemma update_key_tells k : key_repr k → tells key_repr update_tuple_key_fingerprint k.
Proof.
  destruct k as [[ty id] rel s]. intros ([??] & ? & Hs) [[ty' id'] rel' s'] r r' ([??] & ? & Hs') E.
  rewrite !update_key_eq in E. simpl in *. do 3 tell_str E. subst.
  destruct s as [[]|[[]]|], s' as [[]|[[]]|]; simpl in *; apply (inj2 cons) in E as [Et E]; try discriminate Et;
    unfold object_repr in *; simpl in *; destruct_and?; repeat tell_str E; by subst.
Qed.

Definition tuple_repr (t : RelationshipTuple) : Prop :=
  key_repr t.(rt_key) ∧
  match t.(rt_condition) with
  | Unconditional => True
  | Conditional b => str_ok b.(cb_name) ∧ context_repr b.(cb_context)
  end.

Definition tuples_repr (ts : list RelationshipTuple) : Prop := Forall tuple_repr ts ∧ (len ts < 2 ^ 64)%N.

Section digests.
Context `{Sha256Laws}.

(** No two of the strings have the same digest. *)
Definition collision_free (inputs : list (list N)) : Prop :=
  ∀ x y, x ∈ inputs → y ∈ inputs → sha256 x = sha256 y → x = y.

Lemma collision_free_mono inputs inputs' :
  collision_free inputs → (∀ x, x ∈ inputs' → x ∈ inputs) → collision_free inputs'.
Proof. intros Hc Hs x y Hx Hy. apply Hc; auto. Qed.

(** The strings hashed for a tuple and for a set of contextual tuples. *)
Definition tuple_inputs (t : RelationshipTuple) : list (list N) :=
  tuple_bytes t ::
  match t.(rt_condition) with
  | Unconditional => []
  | Conditional b => [context_bytes_hashed b.(cb_context).(cc_values)]
  end.

Definition contextual_inputs (ts : list RelationshipTuple) : list (list N) :=
  contextual_bytes ts :: (ts ≫= tuple_inputs).

Lemma digest_ok x : bytes_ok (sha256 x).
Proof. unfold bytes_ok, len. by rewrite sha256_length. Qed.

Lemma update_tuple_eq t b :
  update_tuple_fingerprint t b =
  b ++ update_tuple_key_fingerprint t.(rt_key) [] ++
  match t.(rt_condition) with
  | Unconditional => [0%N]
  | Conditional c => 1%N :: write_str c.(cb_name) [] ++ write_bytes (fingerprint_context c.(cb_context)) []
  end.
Proof.
  unfold update_tuple_fingerprint, write_tag. rewrite update_key_appends. destruct (rt_condition t) as [|c].
  - by rewrite <-app_assoc.
  - rewrite write_bytes_appends, write_str_appends. by rewrite <-!app_assoc.
Qed.

Lemma tuple_bytes_inj t t' :
  tuple_repr t → tuple_repr t' → collision_free (tuple_inputs t ++ tuple_inputs t') →
  tuple_bytes t = tuple_bytes t' → t = t'.
Proof.
  destruct t as [k c], t' as [k' c']. intros [Hk Hc] [Hk' Hc'] Hfree E. unfold tuple_bytes in E.
  rewrite !update_tuple_eq in E. apply app_inj_1 in E as [_ E]; [|done]. simpl in Hk, Hc, Hk', Hc', E.
  apply update_key_tells in E as [-> E]; [|done|done].
  destruct c as [|[n x]], c' as [|[n' x']]; try discriminate E; [done|].
  simpl in E, Hc, Hc'. apply (inj2 cons) in E as [_ E].
  destruct Hc as [Hn Hx], Hc' as [Hn' Hx']. tell_str E. subst. do 3 f_equal.
  eapply tells_end in E; [|apply write_bytes_tells, digest_ok|apply digest_ok].
  apply context_bytes_inj; [done..|].
  apply Hfree; [apply elem_of_app; left; right; by left|apply elem_of_app; right; right; by left|exact E].
Qed.

Lemma fmap_inj_on {A B} (f : A → B) (l k : list A) :
  (∀ x y, x ∈ l → y ∈ k → f x = f y → x = y) → f <$> l = f <$> k → l = k.
Proof.
  revert k. induction l as [|x l IH]; intros [|y k] Hinj E; try discriminate E; [done|].
  rewrite !fmap_cons in E. apply (inj2 cons) in E as [E1 E2]. f_equal; [apply Hinj; [by left..|done]|].
  apply IH; [|done]. intros a b Ha Hb. apply Hinj; by right.
Qed.

(** What [contextual_bytes] appends to its domain. *)
Lemma contextual_bytes_eq ts :
  contextual_bytes ts =
  builder_new "openfga.contextual-tuples.v1" ++
  write_list write_bytes (sort_by cmp ((fun t => finish (tuple_bytes t)) <$> ts)) [].
Proof. apply (write_list_appends write_bytes). apply write_bytes_appends. Qed.

Lemma digests_ok (f : RelationshipTuple → list N) (l : list RelationshipTuple) :
  (∀ t, bytes_ok (f t)) → (len l < 2 ^ 64)%N →
  Forall bytes_ok (sort_by cmp (f <$> l)) ∧ (len (sort_by cmp (f <$> l)) < 2 ^ 64)%N.
Proof.
  intros Hf Hlen. pose proof (sort_by_permutation cmp (f <$> l)) as Hp. split.
  - rewrite Hp. by apply Forall_fmap, Forall_true.
  - unfold len in *. by rewrite Hp, length_fmap.
Qed.

(** The tuples of equal fingerprints are the same up to their order. *)
Lemma contextual_bytes_inj ts ts' :
  tuples_repr ts → tuples_repr ts' → collision_free (contextual_inputs ts ++ contextual_inputs ts') →
  contextual_bytes ts = contextual_bytes ts' → ts ≡ₚ ts'.
Proof.
  intros [Hts Hl] [Hts' Hl'] Hfree E. rewrite !contextual_bytes_eq in E. apply app_inj_1 in E as [_ E]; [|done].
  set (f := fun t => finish (tuple_bytes t)) in E.
  assert (Hf : ∀ t, bytes_ok (f t)) by (intros t; apply digest_ok).
  eapply tells_end in E; [|apply (write_list_tells bytes_ok); [apply write_bytes_appends| |apply (digests_ok f _ Hf Hl)]|apply (digests_ok f _ Hf Hl')].
  2: { eapply Forall_impl; [apply (digests_ok f _ Hf Hl)|]. intros b Hb. by apply write_bytes_tells. }
  assert (Hp : f <$> ts ≡ₚ f <$> ts') by (by rewrite <-(sort_by_permutation cmp (f <$> ts)), E, sort_by_permutation).
  apply (Permutation_map_inv f) in Hp as (l3 & E3 & Hp). rewrite Hp.
  rewrite Forall_forall in Hts, Hts'. cut (ts = l3); [by intros ->|]. apply (fmap_inj_on f); [|done].
  intros t t' Ht Ht' Et. rewrite <-Hp in Ht'. apply tuple_bytes_inj; [by auto..| |].
  - eapply collision_free_mono; [exact Hfree|]. intros x. rewrite !elem_of_app. unfold contextual_inputs.
    rewrite !elem_of_cons, !list_elem_of_bind. naive_solver.
  - apply Hfree; [| |exact Et]; apply elem_of_app; [left|right]; right; apply list_elem_of_bind; eexists; (split; [by left|done]).
Qed.

(** Fingerprints do not depend on the order of contextual tuples. *)
Lemma contextual_fingerprint_permutation ts ts' :
  ts ≡ₚ ts' → fingerprint_contextual_tuples ts = fingerprint_contextual_tuples ts'.
Proof.
  intros Hp. unfold fingerprint_contextual_tuples, contextual_bytes.
  by rewrite (sort_by_unique _ _ (fmap_Permutation (fun t => finish (tuple_bytes t)) _ _ Hp)).
Qed.

End digests.
