(* ===== verification/Condition.v ===== *)
(** * The condition engine as seen by its clients

    [crates/openfga-condition/src]: the values the model compiler, the tuple
    validator and the check evaluator exchange with the engine, and the
    interface they rely on: what clients assume of the engine is
    [ConditionEngineLaws], and [CelTheorems] makes the CEL compiler and the
    frame machine an instance of it. *)

From S2P Require Import Prelude Ordered Identifier Reference.

Inductive ConditionContextErrorKind := UnknownParameter | InvalidParameterValue.

Record ConditionContextError := mkConditionContextError {
  cce_kind : ConditionContextErrorKind;
  cce_parameter : ParameterName;
}.

Inductive EvaluationErrorKind :=
| EMissingParameters | EInvalidParameter | ETypeMismatch | EArithmetic | EInvalidValue
| EValueLimitExceeded | ECostExceeded | ECancelled | EInvalidCompiledState.

#[export] Instance EvaluationErrorKind_eq_dec : EqDecision EvaluationErrorKind.
Proof. solve_decision. Defined.

Record ConditionOutcome := mkConditionOutcome { condition_met : bool; outcome_cost : N }.

(** [EvaluationBudget::new] *)
Definition MAX_EVALUATION_COST : N := 1000000.
Definition evaluation_budget_new (maximum_cost : N) : option N :=
  if (maximum_cost =? 0)%N || (MAX_EVALUATION_COST <? maximum_cost)%N then None
  else Some maximum_cost.

(** [CompiledCondition] with the operations its clients call.  [evaluate] takes
    the request context, the tuple context, the budget and the successive
    answers of the cancellation poll. *)
Class ConditionEngine := {
  CompiledCondition : Type;
  condition_name : CompiledCondition → ConditionName;
  validate_context : CompiledCondition → ConditionContext → result ConditionContextError ();
  evaluate : CompiledCondition → ConditionContext → ConditionContext → N → (nat → bool) →
             result EvaluationErrorKind ConditionOutcome;
  (** The value of a condition on its two contexts, when evaluation has one. *)
  condition_value : CompiledCondition → ConditionContext → ConditionContext → option bool;
}.

(** Evaluation is deterministic: budget and cancellation decide whether it
    finishes, not its answer; a finished evaluation stays within its budget. *)
Class ConditionEngineLaws `{ConditionEngine} : Prop := {
  evaluate_value : ∀ c request tuple budget poll out,
    evaluate c request tuple budget poll = Ok out →
    condition_value c request tuple = Some out.(condition_met);
  evaluate_cost : ∀ c request tuple budget poll out,
    evaluate c request tuple budget poll = Ok out → (out.(outcome_cost) <= budget)%N;
}.

(** ** Condition declarations

    [crates/openfga-condition/src/types.rs] and the compile errors of
    [error.rs]: parameter types with their bounded nesting, definitions,
    compiler limits, and the interface of the condition compiler. *)

(** ** Parameter types *)

Inductive ParameterType := mkParameterType (kind : ParameterTypeKind) (depth : N)
with ParameterTypeKind :=
| PTAny | PTBool | PTString | PTInt | PTUint | PTDouble | PTBytes | PTDuration | PTTimestamp
| PTIpAddress
| PTList (element : ParameterType)
| PTMap (value : ParameterType).

Definition pt_kind (t : ParameterType) : ParameterTypeKind := let 'mkParameterType k _ := t in k.
Definition pt_depth (t : ParameterType) : N := let 'mkParameterType _ d := t in d.

Definition MAX_GENERIC_DEPTH : N := 16.

(** ** Compile errors *)

Inductive CompileErrorKind :=
| CESyntax | CELimitExceeded | CEUnknownIdentifier | CEUnsupported | CETypeMismatch | CENonBooleanResult.

Inductive CompileErrorDetail :=
| CDUnknownIdentifier (identifier : rstr)
| CDNoMatchingOverload (function : rstr) (argument_types : list string).

Record CompileError := mkCompileError {
  ce_kind : CompileErrorKind;
  ce_offset : N;
  ce_found_type : option string;
  ce_detail : option CompileErrorDetail;
}.

#[export] Instance CompileErrorKind_eq_dec : EqDecision CompileErrorKind.
Proof. solve_decision. Defined.
#[export] Instance CompileErrorDetail_eq_dec : EqDecision CompileErrorDetail.
Proof. solve_decision. Defined.

(** [CompileError::new] *)
Definition compile_error (kind : CompileErrorKind) (offset : N) : CompileError :=
  mkCompileError kind offset None None.

(** The scalar constructors. *)
Definition pt_scalar (kind : ParameterTypeKind) : ParameterType := mkParameterType kind 1.

(** [ParameterType::collection] *)
Definition pt_collection (kind : ParameterTypeKind) (child_depth : N) : result CompileError ParameterType :=
  match checked_add 255 child_depth 1 with
  | None => Err (compile_error CELimitExceeded 0)
  | Some depth =>
      if (MAX_GENERIC_DEPTH <? depth)%N then Err (compile_error CELimitExceeded 0)
      else Ok (mkParameterType kind depth)
  end.

Definition pt_list (element : ParameterType) : result CompileError ParameterType :=
  pt_collection (PTList element) (pt_depth element).
Definition pt_map (value : ParameterType) : result CompileError ParameterType :=
  pt_collection (PTMap value) (pt_depth value).

(** ** Definitions and limits *)

Record ConditionDefinition := mkConditionDefinition {
  cd_name : ConditionName;
  cd_expression : rstr;
  cd_parameters : BTreeMap ParameterName ParameterType;
}.

Record ConditionLimits := mkConditionLimits {
  cl_expression_bytes : N;
  cl_ast_nodes : N;
  cl_ast_depth : N;
  cl_identifiers : N;
  cl_literals : N;
  cl_comprehensions : N;
  cl_parameters : N;
  cl_literal_collection_items : N;
  cl_runtime_value_bytes : N;
  cl_runtime_collection_items : N;
  cl_default_evaluation_cost : N;
}.

Definition default_condition_limits : ConditionLimits := {|
  cl_expression_bytes := trusted_limit 16384 4096;
  cl_ast_nodes := trusted_limit 16384 4096;
  cl_ast_depth := trusted_limit 128 64;
  cl_identifiers := trusted_limit 4096 256;
  cl_literals := trusted_limit 4096 1024;
  cl_comprehensions := trusted_limit 256 32;
  cl_parameters := trusted_limit 256 100;
  cl_literal_collection_items := trusted_limit 1024 100;
  cl_runtime_value_bytes := trusted_limit 4194304 1048576;
  cl_runtime_collection_items := trusted_limit 100000 10000;
  cl_default_evaluation_cost := trusted_limit 1000000 100;
|}.

(** ** The compiler as seen by the model compiler

    [ConditionCompiler::compile] is deterministic and keeps the declared name. *)
Class ConditionCompiler `{ConditionEngine} := {
  compile_condition : ConditionDefinition → ConditionLimits → result CompileError CompiledCondition;
}.

Class ConditionCompilerLaws `{ConditionCompiler} : Prop := {
  compile_condition_name : ∀ d limits c, compile_condition d limits = Ok c → condition_name c = d.(cd_name);
}.
