(* ===== verification/CelValue.v ===== *)
(** * Runtime values of conditions

    [crates/openfga-condition/src/value.rs]: the values conditions compute with,
    the conversion of context values to declared parameter types, textual
    durations, timestamps and IP addresses, CIDR membership and the order of
    values.  Durations and timestamps are numbers of nanoseconds; their parsers
    belong to the [jiff] crate and are parameters. *)

From S2P Require Import Prelude Ordered Identifier Reference Scalars Context Condition.
From Stdlib Require Import ZArith SpecFloat.
From Stdlib Require Import ZArith.

(** ** Errors ([error.rs]) *)

Record EvaluationError := mkEvaluationError {
  ee_kind : EvaluationErrorKind;
  ee_missing_parameter_count : N;
}.

#[export] Instance EvaluationError_eq_dec : EqDecision EvaluationError.
Proof. solve_decision. Defined.

(** [EvaluationError::new] and [EvaluationError::missing]. *)
Definition evaluation_error (kind : EvaluationErrorKind) : EvaluationError := mkEvaluationError kind 0.
Definition missing_error (count : N) : EvaluationError := mkEvaluationError EMissingParameters count.

Abbreviation type_mismatch := (evaluation_error ETypeMismatch).
Abbreviation arithmetic := (evaluation_error EArithmetic).
Abbreviation invalid_value := (evaluation_error EInvalidValue).
Abbreviation invalid_parameter := (evaluation_error EInvalidParameter).
Abbreviation invalid_state := (evaluation_error EInvalidCompiledState).
Abbreviation cost_exceeded := (evaluation_error ECostExceeded).
Abbreviation value_limit_exceeded := (evaluation_error EValueLimitExceeded).
Abbreviation evaluation_cancelled := (evaluation_error ECancelled).

(** ** Values *)

Inductive RuntimeValue :=
| VUnknown (parameters : BTreeSet ParameterName)
| VNull
| VBool (b : bool)
| VInt (z : Z)
| VUint (n : N)
| VDouble (x : f64)
| VString (s : rstr)
| VBytes (b : list N)
| VDuration (nanoseconds : Z)
| VTimestamp (nanoseconds : Z)
| VIpAddress (address : IpAddr)
| VList (values : list RuntimeValue)
| VMap (values : list (rstr * RuntimeValue)).

(** [FromStr] of [SignedDuration] and [Timestamp]. *)
Class Jiff := {
  jiff_duration : rstr → option Z;
  jiff_timestamp : rstr → option Z;
}.

(** ** Numbers *)

(** [exact_f64_to_i64]: the digits of the double, read as an integer. *)
Definition exact_f64_to_i64 (value : f64) : option Z :=
  if negb (f64_is_finite value) || negb (f64_is_integer value) then None
  else parse_i64 (show_f64 value).

(** [exact_f64_to_u64] *)
Definition exact_f64_to_u64 (value : f64) : option N :=
  if negb (f64_is_finite value) || negb (f64_is_integer value) || f64_is_sign_negative value then None
  else parse_unsigned U64_MAX (show_f64 value).

Definition parse_i64_parameter (value : rstr) : option Z :=
  match parse_i64 value with
  | Some z => Some z
  | None => x ← parse_f64 value; exact_f64_to_i64 x
  end.

Definition parse_u64_parameter (value : rstr) : option N :=
  match parse_unsigned U64_MAX value with
  | Some n => Some n
  | None => x ← parse_f64 value; exact_f64_to_u64 x
  end.

Definition convert_int (value : ContextValue) : result EvaluationError Z :=
  match value with
  | CVInt z => Ok z
  | CVDouble bits => ok_or (exact_f64_to_i64 (f64_of_bits bits)) invalid_parameter
  | CVString s => ok_or (parse_i64_parameter s) invalid_parameter
  | _ => Err invalid_parameter
  end.

Definition convert_uint (value : ContextValue) : result EvaluationError N :=
  match value with
  | CVUint n => Ok n
  | CVDouble bits => ok_or (exact_f64_to_u64 (f64_of_bits bits)) invalid_parameter
  | CVString s => ok_or (parse_u64_parameter s) invalid_parameter
  | _ => Err invalid_parameter
  end.

Definition convert_double (value : ContextValue) : result EvaluationError f64 :=
  converted ← match value with
              | CVDouble bits => Ok (f64_of_bits bits)
              | CVString s => ok_or (parse_f64 s) invalid_parameter
              | _ => Err invalid_parameter
              end;
  if f64_is_finite converted then Ok converted else Err invalid_parameter.

(** ** Durations and timestamps *)

(** U+00B5 and U+03BC. *)
Definition MICRO_SIGN : rchar := 181%N.
Definition GREEK_MU : rchar := 956%N.

Definition is_duration_character (c : rchar) : bool :=
  is_digit c || existsb (N.eqb c) (str "+-.hmsun") || (c =? MICRO_SIGN)%N || (c =? GREEK_MU)%N.

Definition parse_duration `{Jiff} (value : rstr) : result EvaluationError Z :=
  if negb (bool_decide (value ≠ []) && forallb is_duration_character value) then Err invalid_value
  else ok_or (jiff_duration ((fun c => if (c =? GREEK_MU)%N then MICRO_SIGN else c) <$> value)) invalid_value.

Definition all_ascii_digits (bytes : list N) : bool := forallb is_digit bytes.

(** [slice.get(first..last)] *)
Definition get_range {A} (first last : nat) (l : list A) : option (list A) :=
  if last <=? length l then Some (take (last - first) (drop first l)) else None.

Definition digits_at (first last : nat) (bytes : list N) : bool :=
  match get_range first last bytes with Some r => all_ascii_digits r | None => false end.

Definition byte_at (i : nat) (b : N) (bytes : list N) : bool := bool_decide (bytes !! i = Some b).

Definition valid_timezone (timezone : list N) : bool :=
  bool_decide (timezone = str "Z")
  || (length timezone =? 6) && (byte_at 0 43 timezone || byte_at 0 45 timezone) && digits_at 1 3 timezone
     && byte_at 3 58 timezone && digits_at 4 6 timezone.

Definition valid_rfc3339_suffix (suffix : list N) : bool :=
  bool_decide (suffix = str "Z")
  || match list_find (fun b => b = 90%N ∨ b = 43%N ∨ b = 45%N) suffix with
     | None => false
     | Some (start, _) =>
         let fraction := take start suffix in
         match fraction with
         | [] => true
         | dot :: digits => (dot =? 46)%N && bool_decide (digits ≠ []) && all_ascii_digits digits
         end && valid_timezone (drop start suffix)
     end.

Definition has_rfc3339_shape (value : rstr) : bool :=
  let bytes := utf8_encode value in
  digits_at 0 4 bytes && byte_at 4 45 bytes && digits_at 5 7 bytes && byte_at 7 45 bytes
  && digits_at 8 10 bytes && byte_at 10 84 bytes && digits_at 11 13 bytes && byte_at 13 58 bytes
  && digits_at 14 16 bytes && byte_at 16 58 bytes && digits_at 17 19 bytes
  && negb (bool_decide (get_range 17 19 bytes = Some (str "60")))
  && (19 <=? length bytes) && valid_rfc3339_suffix (drop 19 bytes).

Definition parse_timestamp `{Jiff} (value : rstr) : result EvaluationError Z :=
  if has_rfc3339_shape value then ok_or (jiff_timestamp value) invalid_value else Err invalid_value.

(** ** Addresses *)

Definition normalize_ip (address : IpAddr) : IpAddr :=
  match address with
  | V6 bits => match to_ipv4_mapped bits with Some v4 => V4 v4 | None => V6 bits end
  | V4 _ => address
  end.

Definition parse_ip_address (value : rstr) : result EvaluationError IpAddr :=
  normalize_ip <$> ok_or (parse_ip value) invalid_value.

(** [cidr_v4] and [cidr_v6] at their widths: the leading [prefix] bits agree. *)
Definition cidr_matches (width address network prefix : N) : result EvaluationError bool :=
  if (width <? prefix)%N then Err invalid_value
  else
    let ones := (2 ^ width - 1)%N in
    let mask := if (prefix =? 0)%N then 0%N else N.land (N.shiftl ones (width - prefix)) ones in
    Ok (N.land address mask =? N.land network mask)%N.

Definition ip_in_cidr (address : IpAddr) (cidr : rstr) : result EvaluationError bool :=
  '(network, prefix) ← ok_or (split_once 47%N cidr) invalid_value;
  network ← parse_ip_address network;
  prefix ← ok_or (parse_unsigned 255 prefix) invalid_value;
  match normalize_ip address, network with
  | V4 address, V4 network => cidr_matches 32 address network prefix
  | V6 address, V6 network => cidr_matches 128 address network prefix
  | _, _ => Err invalid_value
  end.

(** ** Parameters *)

(** [converted.sort_by(|(left, _), (right, _)| left.cmp(right))] *)
Definition sort_entries (l : list (rstr * RuntimeValue)) : list (rstr * RuntimeValue) :=
  sort_by (fun x y => cmp x.1 y.1) l.

Definition convert_entry {E} (f : ContextValue → result E RuntimeValue) (e : rstr * ContextValue) :
    result E (rstr * RuntimeValue) :=
  (fun v => (e.1, v)) <$> f e.2.

Fixpoint convert_any (value : ContextValue) : result EvaluationError RuntimeValue :=
  match value with
  | CVNull => Ok VNull
  | CVBool b => Ok (VBool b)
  | CVInt z => Ok (VInt z)
  | CVUint n => Ok (VUint n)
  | CVDouble bits => Ok (VDouble (f64_of_bits bits))
  | CVString s => Ok (VString s)
  | CVBytes b => Ok (VBytes b)
  | CVList values => VList <$> try_collect convert_any values
  | CVMap values => (VMap ∘ sort_entries) <$> try_collect (convert_entry convert_any) values
  end.

Section parameters.
Context `{Jiff}.

Fixpoint convert_kind (kind : ParameterTypeKind) (value : ContextValue) {struct kind} :
    result EvaluationError RuntimeValue :=
  match kind, value with
  | PTAny, _ => convert_any value
  | PTBool, CVBool b => Ok (VBool b)
  | PTString, CVString s => Ok (VString s)
  | PTInt, _ => VInt <$> convert_int value
  | PTUint, _ => VUint <$> convert_uint value
  | PTDouble, _ => VDouble <$> convert_double value
  | PTBytes, CVBytes b => Ok (VBytes b)
  | PTDuration, CVString s => VDuration <$> parse_duration s
  | PTTimestamp, CVString s => VTimestamp <$> parse_timestamp s
  | PTIpAddress, CVString s => VIpAddress <$> parse_ip_address s
  | PTList element, CVList values => VList <$> try_collect (convert_type element) values
  | PTMap element, CVMap values =>
      (VMap ∘ sort_entries) <$> try_collect (convert_entry (convert_type element)) values
  | _, _ => Err invalid_parameter
  end
with convert_type (type : ParameterType) (value : ContextValue) {struct type} :
    result EvaluationError RuntimeValue :=
  match type with mkParameterType kind _ => convert_kind kind value end.

Definition convert_parameter (value : ContextValue) (type : ParameterType) : result EvaluationError RuntimeValue :=
  map_err (fun _ => invalid_parameter) (convert_type type value).

End parameters.

(** [parameter_value]: the tuple context hides the request context. *)
Definition parameter_value (name : ParameterName) (request tuple : ConditionContext) : option ContextValue :=
  match context_get tuple name with Some v => Some v | None => context_get request name end.

(** ** The order of values *)

Definition compare_i64_u64 (left : Z) (right : N) : comparison :=
  if (left <? 0)%Z then Lt else (Z.to_N left ?= right)%N.

(** Mixed comparisons promote the integer to a double. *)
Definition compare_i64_f64 (left : Z) (right : f64) : option comparison := SFcompare (f64_of_Z left) right.
Definition compare_u64_f64 (left : N) (right : f64) : option comparison := SFcompare (f64_of_Z (Z.of_N left)) right.

Definition compare (left right : RuntimeValue) : option comparison :=
  match left, right with
  | VInt l, VInt r => Some (l ?= r)%Z
  | VInt l, VUint r => Some (compare_i64_u64 l r)
  | VInt l, VDouble r => compare_i64_f64 l r
  | VUint l, VInt r => Some (CompOpp (compare_i64_u64 r l))
  | VUint l, VUint r => Some (l ?= r)%N
  | VUint l, VDouble r => compare_u64_f64 l r
  | VDouble l, VInt r => CompOpp <$> compare_i64_f64 r l
  | VDouble l, VUint r => CompOpp <$> compare_u64_f64 r l
  | VDouble l, VDouble r => SFcompare l r
  | VString l, VString r => Some (cmp l r)
  | VBytes l, VBytes r => Some (cmp l r)
  | VDuration l, VDuration r | VTimestamp l, VTimestamp r => Some (l ?= r)%Z
  | _, _ => None
  end.

(** ** The intermediate representation of conditions

    [crates/openfga-condition/src/ir.rs] and [CompiledCondition] of
    [compiler.rs]: static types, operators, functions and the node table of a
    compiled program; and the syntax trees of the [cel_parser] crate as the
    compiler reads them.  An operator of the parser is one of its named
    constants. *)

(** ** Types and operators *)

Inductive StaticType :=
| TDyn | TNull | TBool | TInt | TUint | TDouble | TString | TBytes | TDuration | TTimestamp | TIpAddress
| TList (element : StaticType)
| TMap (value : StaticType).

#[export] Instance StaticType_eq_dec : EqDecision StaticType.
Proof. solve_decision. Defined.

(** [StaticType::accepts] *)
Fixpoint accepts (t other : StaticType) : bool :=
  match t, other with
  | TDyn, _ | _, TDyn => true
  | TList l, TList r | TMap l, TMap r => accepts l r
  | _, _ => bool_decide (t = other)
  end.

Inductive UnaryOperator := UNot | UNegate | UNotStrictlyFalse.

Inductive BinaryOperator :=
| BAdd | BSubtract | BMultiply | BDivide | BModulo | BEqual | BNotEqual
| BGreater | BGreaterEqual | BLess | BLessEqual | BIn | BIndex.

Inductive Function :=
| FnDuration | FnTimestamp | FnIpAddress | FnInt | FnUint | FnDouble | FnString | FnBytes
| FnSize | FnContains | FnStartsWith | FnEndsWith | FnInCidr.

(** ** Programs *)

Definition CelNodeId := nat.

Record Comprehension := mkComprehension {
  iter_range : CelNodeId;
  iter_var : rstr;
  iter_var2 : option rstr;
  accu_var : rstr;
  accu_init : CelNodeId;
  loop_cond : CelNodeId;
  loop_step : CelNodeId;
  comprehension_result : CelNodeId;
}.

Inductive NodeKind :=
| NKLiteral (value : RuntimeValue)
| NKParameter (name : ParameterName)
| NKLocal (name : rstr)
| NKList (ids : list CelNodeId)
| NKMap (ids : list (CelNodeId * CelNodeId))
| NKSelect (operand : CelNodeId) (field : rstr) (test : bool)
| NKUnary (operator : UnaryOperator) (operand : CelNodeId)
| NKBinary (operator : BinaryOperator) (left right : CelNodeId)
| NKLogicalAnd (left right : CelNodeId)
| NKLogicalOr (left right : CelNodeId)
| NKConditional (condition truthy falsy : CelNodeId)
| NKCall (function : Function) (target : option CelNodeId) (arguments : list CelNodeId)
| NKComprehension (definition : Comprehension).

Record Node := mkNode { node_kind : NodeKind; static_type : StaticType }.

Record Program := mkProgram { program_nodes : list Node; program_root : CelNodeId }.

(** [CompiledCondition]; its fingerprint and byte estimate are functions of the
    definition and are read by no evaluation. *)
Record CelCondition := mkCelCondition {
  cel_name : ConditionName;
  cel_parameters : BTreeMap ParameterName ParameterType;
  cel_program : Program;
  runtime_value_bytes : N;
  runtime_collection_items : N;
}.

(** ** Syntax trees of the parser *)

Inductive Val :=
| ValNull
| ValBoolean (b : bool)
| ValInt (z : Z)
| ValUInt (n : N)
| ValDouble (x : f64)
| ValString (s : rstr)
| ValBytes (b : list N).

Inductive Operator :=
| OLogicalAnd | OLogicalOr | OConditional | OLogicalNot | ONegate | ONotStrictlyFalse
| OAdd | OSubstract | OMultiply | ODivide | OModulo | OEquals | ONotEquals
| OGreater | OGreaterEquals | OLess | OLessEquals | OIn | OIndex.

Inductive FuncName := FOperator (operator : Operator) | FFunction (name : rstr).

Inductive Expr :=
| XUnspecified
| XStruct
| XIdent (name : rstr)
| XLiteral (value : Val)
| XList (elements : list Expr)
| XMap (entries : list EntryExpr)
| XSelect (operand : Expr) (field : rstr) (test : bool)
| XCall (func_name : FuncName) (target : option Expr) (args : list Expr)
| XComprehension (range : Expr) (var : rstr) (var2 : option rstr) (accu : rstr) (init cond step result : Expr)
with EntryExpr :=
| EntryMap (key value : Expr) (optional : bool)
| EntryField.

(** Induction with the parts of lists, maps and calls. *)
Section expr_ind.
Variable P : Expr → Prop.
Hypothesis Hunspecified : P XUnspecified.
Hypothesis Hstruct : P XStruct.
Hypothesis Hident : ∀ name, P (XIdent name).
Hypothesis Hliteral : ∀ value, P (XLiteral value).
Hypothesis Hlist : ∀ elements, Forall P elements → P (XList elements).
Hypothesis Hmap : ∀ entries,
  Forall (fun e => match e with EntryMap key value _ => P key ∧ P value | EntryField => True end) entries →
  P (XMap entries).
Hypothesis Hselect : ∀ operand field test, P operand → P (XSelect operand field test).
Hypothesis Hcall : ∀ func_name target args,
  (∀ e, target = Some e → P e) → Forall P args → P (XCall func_name target args).
Hypothesis Hcomprehension : ∀ range var var2 accu init cond step result,
  P range → P init → P cond → P step → P result →
  P (XComprehension range var var2 accu init cond step result).

Lemma expr_ind : ∀ e, P e.
Proof using All.
  fix go 1. intros [| |name|value|elements|entries|operand field test|func_name target args|].
  - apply Hunspecified.
  - apply Hstruct.
  - apply Hident.
  - apply Hliteral.
  - apply Hlist. revert elements. fix each 1. intros [|e l]; constructor; [apply go|apply each].
  - apply Hmap. revert entries. fix each 1. intros [|[key value optional|] l]; constructor; [|apply each| |apply each].
    + split; apply go.
    + exact I.
  - apply Hselect, go.
  - apply Hcall.
    + intros e E. destruct target as [e0|]; [|discriminate]. injection E as <-. apply go.
    + revert args. fix each 1. intros [|e l]; constructor; [apply go|apply each].
  - apply Hcomprehension; apply go.
Qed.

End expr_ind.
