(* ===== verification/CelOps.v ===== *)
(** * Metered operations on condition values

    The operations of [crates/openfga-condition/src/evaluator.rs] below the frame
    machine: cost and cancellation, the operators, functions and casts, and the
    preparation of parameters.  They run over the accumulated cost and the number
    of cancellation polls; a failure keeps what was charged. *)

From S2P Require Import Prelude Ordered Identifier Reference Scalars Context Condition CelValue.
From Stdlib Require Import ZArith SpecFloat.

(** ** Cost and cancellation *)

Record CelMeter := mkCelMeter { meter_cost : N; meter_polls : nat }.

Definition C (A : Type) : Type := CelMeter → CelMeter * result EvaluationError A.

#[export] Instance C_ret : MRet C := fun A a s => (s, Ok a).
#[export] Instance C_bind : MBind C := fun A B f m s =>
  match m s with (s, Ok a) => f a s | (s, Err e) => (s, Err e) end.

Definition c_fail {A} (e : EvaluationError) : C A := fun s => (s, Err e).
Definition c_lift {A} (r : result EvaluationError A) : C A := fun s => (s, r).

(** Iterating a step: [for x in l { f(x)?; }]. *)
Fixpoint c_each {A} (f : A → C ()) (l : list A) : C () :=
  match l with
  | [] => mret ()
  | x :: l => f x;; c_each f l
  end.

Section metered.
Variable compiled : CelCondition.
Variable maximum_cost : N.
Variable poll : nat → bool.

(** [self.cancellation.is_cancelled()] *)
Definition is_cancelled : C bool := fun s =>
  (mkCelMeter s.(meter_cost) (S s.(meter_polls)), Ok (poll s.(meter_polls))).

Definition check_cancellation : C () :=
  b ← is_cancelled;
  if b : bool then c_fail evaluation_cancelled else mret ().

Definition spend_units (units : N) : C () := fun s =>
  match checked_add U64_MAX s.(meter_cost) units with
  | None => (s, Err cost_exceeded)
  | Some cost =>
      (mkCelMeter cost s.(meter_polls), if (maximum_cost <? cost)%N then Err cost_exceeded else Ok ())
  end.

Definition charge_units (units : N) : C () := check_cancellation;; spend_units units.

Definition charge_one : C () := charge_units 1.

Definition runtime_size (value : RuntimeValue) : N :=
  match value with
  | VString s => len s
  | VBytes b => len b
  | VList l => len l
  | VMap m => len m
  | _ => 1
  end.

Definition traversal_cost (size : N) : result EvaluationError N :=
  (fun adjusted => adjusted / 10)%N <$> ok_or (checked_add U64_MAX size 9) cost_exceeded.

Definition is_text (value : RuntimeValue) : bool :=
  match value with VString _ | VBytes _ => true | _ => false end.

Definition charge_binary (operator : BinaryOperator) (left right : RuntimeValue) : C () :=
  let compared := traversal_cost (N.min (runtime_size left) (runtime_size right)) in
  units ← c_lift match operator with
                 | BEqual | BNotEqual => compared
                 | BGreater | BGreaterEqual | BLess | BLessEqual => if is_text left then compared else Ok 1%N
                 | BAdd =>
                     if is_text left then
                       total ← ok_or (checked_add U64_MAX (runtime_size left) (runtime_size right)) cost_exceeded;
                       traversal_cost total
                     else Ok 1%N
                 | BIn => match right with VList _ => Ok (runtime_size right) | _ => Ok 1%N end
                 | _ => Ok 1%N
                 end;
  charge_units units.

Definition checked_mul (max a b : N) : option N := if (a * b <=? max)%N then Some (a * b)%N else None.

Definition charge_function (function : Function) (target : bool) (values : list RuntimeValue) : C () :=
  let receiver := if target then values !! 0 else None in
  let first_argument := values !! (if target then 1 else 0) in
  units ← c_lift match function, receiver, first_argument with
                 | FnContains, Some (VString receiver), Some (VString argument) =>
                     r ← traversal_cost (len receiver);
                     a ← traversal_cost (len argument);
                     ok_or (checked_mul U64_MAX r a) cost_exceeded
                 | FnStartsWith, Some (VString _), Some (VString argument)
                 | FnEndsWith, Some (VString _), Some (VString argument) => traversal_cost (len argument)
                 | FnBytes, None, Some (VString value) => traversal_cost (len value)
                 | FnString, None, Some (VBytes value) => traversal_cost (len value)
                 | _, _, _ => Ok 1%N
                 end;
  charge_units units.

(** ** Equality *)

Definition scalar_equal (left right : RuntimeValue) : bool :=
  match left, right with
  | VNull, VNull => true
  | VBool l, VBool r => eqb l r
  | VInt l, VInt r => (l =? r)%Z
  | VUint l, VUint r => (l =? r)%N
  | VDouble l, VDouble r => match SFcompare l r with Some Eq => true | _ => false end
  | VInt _, VUint _ | VInt _, VDouble _ | VUint _, VInt _ | VUint _, VDouble _
  | VDouble _, VInt _ | VDouble _, VUint _ =>
      match compare left right with Some Eq => true | _ => false end
  | VString l, VString r => bool_decide (l = r)
  | VBytes l, VBytes r => bool_decide (l = r)
  | VDuration l, VDuration r | VTimestamp l, VTimestamp r => (l =? r)%Z
  | VIpAddress l, VIpAddress r => bool_decide (l = r)
  | _, _ => false
  end.

(** The number of values in a value. *)
Fixpoint runtime_nodes (value : RuntimeValue) : nat :=
  match value with
  | VList l => S (foldr (fun v n => runtime_nodes v + n) 0 l)
  | VMap m => S (foldr (fun e n => runtime_nodes e.2 + n) 0 m)
  | _ => 1
  end.

(** The entries of two maps, pushed until their keys differ. *)
Fixpoint push_entries (left right : list (rstr * RuntimeValue)) (stack : list (RuntimeValue * RuntimeValue)) :
    C (option (list (RuntimeValue * RuntimeValue))) :=
  match left, right with
  | (left_key, left_value) :: lefts, (right_key, right_value) :: rights =>
      check_cancellation;;
      if bool_decide (left_key = right_key) then push_entries lefts rights ((left_value, right_value) :: stack)
      else mret None
  | _, _ => mret (Some stack)
  end.

(** [values_equal]: a stack of pairs that are still to be compared; a round
    takes one pair, of which there are as many as values on the left. *)
Fixpoint values_equal_loop (fuel : nat) (stack : list (RuntimeValue * RuntimeValue)) : C bool :=
  match stack, fuel with
  | [], _ => mret true
  | _, O => c_fail invalid_state
  | top :: stack, S fuel =>
      match top.1, top.2 with
      | VList l, VList r =>
          if negb (length l =? length r) then mret false
          else
            c_each (fun _ => check_cancellation) l;;
            values_equal_loop fuel (reverse (zip l r) ++ stack)
      | VMap l, VMap r =>
          if negb (length l =? length r) then mret false
          else
            pushed ← push_entries l r stack;
            match pushed with
            | None => mret false
            | Some stack => values_equal_loop fuel stack
            end
      | l, r => if scalar_equal l r then values_equal_loop fuel stack else mret false
      end
  end.

Definition values_equal (left right : RuntimeValue) : C bool :=
  values_equal_loop (runtime_nodes left) [(left, right)].

(** ** Operators *)

(** [apply_unary] after the charge and its operand. *)
Definition apply_unary (operator : UnaryOperator) (value : RuntimeValue) : result EvaluationError RuntimeValue :=
  match operator, value with
  | UNotStrictlyFalse, VUnknown _ => Ok (VBool true)
  | _, VUnknown unknown => Ok (VUnknown unknown)
  | UNot, VBool b => Ok (VBool (negb b))
  | UNotStrictlyFalse, VBool b => Ok (VBool b)
  | UNegate, VInt z => if in_i64 (- z) then Ok (VInt (- z)) else Err arithmetic
  | UNegate, VDouble x => Ok (VDouble (SFopp x))
  | _, _ => Err type_mismatch
  end.

Definition unknowns (value : RuntimeValue) : BTreeSet ParameterName :=
  match value with VUnknown u => u | _ => [] end.

Definition is_unknown (value : RuntimeValue) : bool := match value with VUnknown _ => true | _ => false end.

(** The parameters unknown among some values, if there are any. *)
Definition collect_unknowns (values : list RuntimeValue) : option (BTreeSet ParameterName) :=
  match foldl bs_extend [] (unknowns <$> values) with [] => None | unknown => Some unknown end.

Definition merge_unknown (left right : RuntimeValue) : option (BTreeSet ParameterName) :=
  collect_unknowns [left; right].

Definition ordered (left right : RuntimeValue) (predicate : comparison → bool) : result EvaluationError RuntimeValue :=
  ok_or (VBool ∘ predicate <$> compare left right) type_mismatch.

Definition finite (value : f64) : result EvaluationError RuntimeValue :=
  if f64_is_finite value then Ok (VDouble value) else Err arithmetic.

Definition checked_i64 (z : Z) : result EvaluationError RuntimeValue :=
  if in_i64 z then Ok (VInt z) else Err arithmetic.

Definition checked_u64 (n : option N) : result EvaluationError RuntimeValue := ok_or (VUint <$> n) arithmetic.

Definition subtract (left right : RuntimeValue) : result EvaluationError RuntimeValue :=
  match left, right with
  | VInt l, VInt r => checked_i64 (l - r)
  | VUint l, VUint r => checked_u64 (checked_sub l r)
  | VDouble l, VDouble r => finite (f64_sub l r)
  | _, _ => Err type_mismatch
  end.

Definition multiply (left right : RuntimeValue) : result EvaluationError RuntimeValue :=
  match left, right with
  | VInt l, VInt r => checked_i64 (l * r)
  | VUint l, VUint r => checked_u64 (checked_mul U64_MAX l r)
  | VDouble l, VDouble r => finite (f64_mul l r)
  | _, _ => Err type_mismatch
  end.

Definition divide (left right : RuntimeValue) : result EvaluationError RuntimeValue :=
  match left, right with
  | VInt l, VInt r => if (r =? 0)%Z then Err arithmetic else checked_i64 (Z.quot l r)
  | VUint l, VUint r => checked_u64 (if (r =? 0)%N then None else Some (l / r)%N)
  | VDouble l, VDouble r => if f64_is_zero r then Err arithmetic else finite (f64_div l r)
  | _, _ => Err type_mismatch
  end.

(** [checked_rem] also fails where the quotient overflows. *)
Definition modulo (left right : RuntimeValue) : result EvaluationError RuntimeValue :=
  match left, right with
  | VInt l, VInt r =>
      if (r =? 0)%Z || negb (in_i64 (Z.quot l r)) then Err arithmetic else checked_i64 (Z.rem l r)
  | VUint l, VUint r => checked_u64 (if (r =? 0)%N then None else Some (l mod r)%N)
  | VDouble l, VDouble r => if f64_is_zero r then Err arithmetic else finite (f64_rem l r)
  | _, _ => Err type_mismatch
  end.

Definition bound_sum (left right maximum : N) : result EvaluationError () :=
  total ← ok_or (checked_add USIZE_MAX left right) value_limit_exceeded;
  if (maximum <? total)%N then Err value_limit_exceeded else Ok ().

Definition add (left right : RuntimeValue) : C RuntimeValue :=
  match left, right with
  | VInt l, VInt r => c_lift (checked_i64 (l + r))
  | VUint l, VUint r => c_lift (checked_u64 (checked_add U64_MAX l r))
  | VDouble l, VDouble r => c_lift (finite (f64_add l r))
  | VString l, VString r =>
      c_lift (bound_sum (str_len l) (str_len r) compiled.(runtime_value_bytes));;
      check_cancellation;;
      mret (VString (l ++ r))
  | VBytes l, VBytes r =>
      c_lift (bound_sum (len l) (len r) compiled.(runtime_value_bytes));;
      check_cancellation;;
      mret (VBytes (l ++ r))
  | VList l, VList r =>
      c_lift (bound_sum (len l) (len r) compiled.(runtime_collection_items));;
      c_each (fun _ => check_cancellation) r;;
      mret (VList (l ++ r))
  | _, _ => c_fail type_mismatch
  end.

(** [binary_search_by] over the key-sorted entries of a map. *)
Definition entry_get (key : rstr) (entries : list (rstr * RuntimeValue)) : option RuntimeValue := bt_get key entries.

Fixpoint member_of (needle : RuntimeValue) (values : list RuntimeValue) : C RuntimeValue :=
  match values with
  | [] => mret (VBool false)
  | value :: values =>
      check_cancellation;;
      equal ← values_equal value needle;
      if equal : bool then mret (VBool true) else member_of needle values
  end.

Definition membership (needle haystack : RuntimeValue) : C RuntimeValue :=
  match haystack with
  | VList values => member_of needle values
  | VMap values =>
      match needle with
      | VString needle => check_cancellation;; mret (VBool (bool_decide (is_Some (entry_get needle values))))
      | _ => c_fail type_mismatch
      end
  | _ => c_fail type_mismatch
  end.

(** [usize::try_from(index)], then the element. *)
Definition index (collection index : RuntimeValue) : C RuntimeValue :=
  match collection, index with
  | VList values, VInt z =>
      c_lift (ok_or (if (0 <=? z)%Z then values !! Z.to_nat z else None) invalid_value)
  | VList values, VUint n => c_lift (ok_or (values !! N.to_nat n) invalid_value)
  | VMap values, VString key => check_cancellation;; c_lift (ok_or (entry_get key values) invalid_value)
  | _, _ => c_fail type_mismatch
  end.

(** [apply_binary] after its operands are popped. *)
Definition apply_binary (operator : BinaryOperator) (left right : RuntimeValue) : C RuntimeValue :=
  charge_binary operator left right;;
  match merge_unknown left right with
  | Some unknown => mret (VUnknown unknown)
  | None =>
      match operator with
      | BEqual => b ← values_equal left right; mret (VBool b)
      | BNotEqual => b ← values_equal left right; mret (VBool (negb b))
      | BGreater => c_lift (ordered left right (fun o => match o with Gt => true | _ => false end))
      | BGreaterEqual => c_lift (ordered left right (fun o => match o with Lt => false | _ => true end))
      | BLess => c_lift (ordered left right (fun o => match o with Lt => true | _ => false end))
      | BLessEqual => c_lift (ordered left right (fun o => match o with Gt => false | _ => true end))
      | BAdd => add left right
      | BSubtract => c_lift (subtract left right)
      | BMultiply => c_lift (multiply left right)
      | BDivide => c_lift (divide left right)
      | BModulo => c_lift (modulo left right)
      | BIn => membership left right
      | BIndex => index left right
      end
  end.

(** [select] after the charge and its operand. *)
Definition select (field : rstr) (test : bool) (value : RuntimeValue) : C RuntimeValue :=
  match value with
  | VUnknown unknown => mret (VUnknown unknown)
  | VMap values =>
      check_cancellation;;
      let selected := entry_get field values in
      if test then mret (VBool (bool_decide (is_Some selected)))
      else c_lift (ok_or selected invalid_value)
  | _ => c_fail type_mismatch
  end.

(** ** Functions *)

Definition size (value : RuntimeValue) : result EvaluationError RuntimeValue :=
  match value with
  | VString _ | VBytes _ | VList _ | VMap _ => checked_i64 (Z.of_N (runtime_size value))
  | _ => Err type_mismatch
  end.

Definition exact_double_to_int (value : f64) : result EvaluationError Z :=
  if negb (f64_is_finite value) || negb (f64_is_integer value) then Err invalid_value
  else ok_or (parse_i64 (show_f64 value)) invalid_value.

Definition exact_double_to_uint (value : f64) : result EvaluationError N :=
  if negb (f64_is_finite value) || negb (f64_is_integer value) || f64_is_sign_negative value then Err invalid_value
  else ok_or (parse_unsigned U64_MAX (show_f64 value)) invalid_value.

Definition cast_int (value : RuntimeValue) : result EvaluationError RuntimeValue :=
  match value with
  | VInt z => Ok (VInt z)
  | VUint n => if in_i64 (Z.of_N n) then Ok (VInt (Z.of_N n)) else Err invalid_value
  | VDouble x => VInt <$> exact_double_to_int x
  | VString s => ok_or (VInt <$> parse_i64 s) invalid_value
  | _ => Err type_mismatch
  end.

Definition cast_uint (value : RuntimeValue) : result EvaluationError RuntimeValue :=
  match value with
  | VUint n => Ok (VUint n)
  | VInt z => if (0 <=? z)%Z then Ok (VUint (Z.to_N z)) else Err invalid_value
  | VDouble x => VUint <$> exact_double_to_uint x
  | VString s => ok_or (VUint <$> parse_unsigned U64_MAX s) invalid_value
  | _ => Err type_mismatch
  end.

Definition cast_double (value : RuntimeValue) : result EvaluationError RuntimeValue :=
  x ← match value with
      | VDouble x => Ok x
      | VInt z => ok_or (parse_f64 (show_Z z)) invalid_value
      | VUint n => ok_or (parse_f64 (show_N n)) invalid_value
      | VString s => ok_or (parse_f64 s) invalid_value
      | _ => Err type_mismatch
      end;
  finite x.

Definition cast_string (value : RuntimeValue) : result EvaluationError RuntimeValue :=
  s ← match value with
      | VString s => Ok s
      | VInt z => Ok (show_Z z)
      | VUint n => Ok (show_N n)
      | VDouble x => Ok (show_f64 x)
      | VBool b => Ok (str (if b then "true" else "false"))
      | VBytes b => ok_or (utf8_decode b) invalid_value
      | _ => Err type_mismatch
      end;
  Ok (VString s).

Definition apply_function `{Jiff} (function : Function) (target : bool) (values : list RuntimeValue) :
    result EvaluationError RuntimeValue :=
  if existsb is_unknown values then Ok (VUnknown (foldl bs_extend [] (unknowns <$> values)))
  else
    '(receiver, arguments) ←
      match target, values with
      | true, [] => Err invalid_state
      | true, receiver :: arguments => Ok (Some receiver, arguments)
      | false, _ => Ok (None, values)
      end;
    match function, receiver, arguments with
    | FnDuration, None, [VString value] => VDuration <$> parse_duration value
    | FnTimestamp, None, [VString value] => VTimestamp <$> parse_timestamp value
    | FnIpAddress, None, [VString value] => VIpAddress <$> parse_ip_address value
    | FnBytes, None, [VString value] => Ok (VBytes (utf8_encode value))
    | FnSize, Some value, [] => size value
    | FnSize, None, [value] => size value
    | FnContains, Some (VString receiver), [VString argument] => Ok (VBool (str_contains receiver argument))
    | FnStartsWith, Some (VString receiver), [VString argument] => Ok (VBool (starts_with receiver argument))
    | FnEndsWith, Some (VString receiver), [VString argument] => Ok (VBool (ends_with receiver argument))
    | FnInCidr, Some (VIpAddress address), [VString cidr] => VBool <$> ip_in_cidr address cidr
    | FnInt, None, [value] => cast_int value
    | FnUint, None, [value] => cast_uint value
    | FnDouble, None, [value] => cast_double value
    | FnString, None, [value] => cast_string value
    | _, _, _ => Err type_mismatch
    end.

(** A call once its arguments are evaluated. *)
Definition call_function `{Jiff} (function : Function) (target : bool) (values : list RuntimeValue) : C RuntimeValue :=
  charge_function function target values;;
  c_lift (apply_function function target values).

(** ** Limits *)

(** [validate_runtime_value], of a literal. *)
Definition validate_runtime_value (value : RuntimeValue) : result EvaluationError () :=
  let within_limit :=
    match value with
    | VString s => (str_len s <=? compiled.(runtime_value_bytes))%N
    | VBytes b => (len b <=? compiled.(runtime_value_bytes))%N
    | VList l => (len l <=? compiled.(runtime_collection_items))%N
    | VMap m => (len m <=? compiled.(runtime_collection_items))%N
                && forallb (fun e => str_len e.1 <=? compiled.(runtime_value_bytes))%N m
    | _ => true
    end in
  if within_limit then Ok () else Err value_limit_exceeded.

(** The number of values in a context value. *)
Fixpoint context_nodes (value : ContextValue) : nat :=
  match value with
  | CVList l => S (foldr (fun v n => context_nodes v + n) 0 l)
  | CVMap m => S (foldr (fun e n => context_nodes e.2 + n) 0 m)
  | _ => 1
  end.

(** The entries of a context map, counted and pushed. *)
Fixpoint push_context_entries (entries : N) (values : list (rstr * ContextValue)) (stack : list ContextValue) :
    result EvaluationError (list ContextValue) :=
  match values with
  | [] => Ok stack
  | (key, value) :: values =>
      entries ← ok_or (checked_add USIZE_MAX entries 1) value_limit_exceeded;
      if (compiled.(runtime_collection_items) <? entries)%N || (compiled.(runtime_value_bytes) <? str_len key)%N
      then Err value_limit_exceeded
      else push_context_entries entries values (value :: stack)
  end.

(** [charge_context_value]; a round takes one value. *)
Fixpoint charge_context_loop (fuel : nat) (stack : list ContextValue) : C () :=
  match stack, fuel with
  | [], _ => mret ()
  | _, O => c_fail invalid_state
  | value :: stack, S fuel =>
      check_cancellation;;
      match value with
      | CVString s =>
          if (compiled.(runtime_value_bytes) <? str_len s)%N then c_fail value_limit_exceeded
          else charge_context_loop fuel stack
      | CVBytes b =>
          if (compiled.(runtime_value_bytes) <? len b)%N then c_fail value_limit_exceeded
          else charge_context_loop fuel stack
      | CVList values =>
          if (compiled.(runtime_collection_items) <? len values)%N then c_fail value_limit_exceeded
          else charge_context_loop fuel (reverse values ++ stack)
      | CVMap values =>
          stack ← c_lift (push_context_entries 0 values stack);
          charge_context_loop fuel stack
      | _ => charge_context_loop fuel stack
      end
  end.

Definition charge_context_value (value : ContextValue) : C () := charge_context_loop (context_nodes value) [value].

(** ** Parameters *)

(** [prepare_parameters]: every declared parameter in name order; absent ones
    are counted. *)
Fixpoint prepare_entries `{Jiff} (request tuple : ConditionContext) (missing : N)
    (values : BTreeMap ParameterName RuntimeValue) (parameters : list (ParameterName * ParameterType)) :
    C (BTreeMap ParameterName RuntimeValue) :=
  match parameters with
  | [] => if (missing =? 0)%N then mret values else c_fail (missing_error missing)
  | (name, type) :: parameters =>
      match parameter_value name request tuple with
      | None =>
          missing ← c_lift (ok_or (checked_add USIZE_MAX missing 1) invalid_state);
          prepare_entries request tuple missing values parameters
      | Some value =>
          charge_context_value value;;
          converted ← c_lift (convert_parameter value type);
          prepare_entries request tuple missing (bt_insert name converted values) parameters
      end
  end.

Definition prepare_parameters `{Jiff} (request tuple : ConditionContext) : C (BTreeMap ParameterName RuntimeValue) :=
  prepare_entries request tuple 0 [] compiled.(cel_parameters).

End metered.
