(* ===== verification/CelMachine.v ===== *)
(** * The frame machine of conditions

    [crates/openfga-condition/src/evaluator.rs]: the non-recursive evaluator.  A
    machine holds a stack of frames, a stack of values and a stack of
    comprehension scopes (the top of each is the head of its list) over the meter
    of [CelOps]; a failure of one frame is offered to the logical operators below
    it. *)

From S2P Require Import Prelude Ordered Identifier Reference Scalars Context Condition CelValue CelOps.
From Stdlib Require Import ZArith.

Record ComprehensionState := mkComprehensionState {
  cs_definition : Comprehension;
  cs_items : list (RuntimeValue * option RuntimeValue);
  cs_index : nat;
  cs_accumulator : RuntimeValue;
}.

Inductive Frame :=
| FEval (id : CelNodeId)
| FUnary (operator : UnaryOperator)
| FBinary (operator : BinaryOperator)
| FLogicalAfterLeft (right : CelNodeId) (and : bool) (value_depth : nat)
| FLogicalAfterUnknown (unknown : BTreeSet ParameterName) (and : bool) (value_depth : nat)
| FLogicalAfterError (error : EvaluationError) (and : bool) (value_depth : nat)
| FConditional (truthy falsy : CelNodeId)
| FSelect (field : rstr) (test : bool)
| FListNext (ids : list CelNodeId) (index : nat) (values : list RuntimeValue)
| FListAfter (ids : list CelNodeId) (index : nat) (values : list RuntimeValue)
| FMapNext (ids : list (CelNodeId * CelNodeId)) (index : nat) (values : list (rstr * RuntimeValue))
| FMapAfterKey (ids : list (CelNodeId * CelNodeId)) (index : nat) (values : list (rstr * RuntimeValue))
| FMapAfterValue (ids : list (CelNodeId * CelNodeId)) (index : nat) (key : rstr) (values : list (rstr * RuntimeValue))
| FCallNext (function : Function) (ids : list CelNodeId) (target : bool) (index : nat) (values : list RuntimeValue)
| FCallAfter (function : Function) (ids : list CelNodeId) (target : bool) (index : nat) (values : list RuntimeValue)
| FComprehensionAfterRange (definition : Comprehension)
| FComprehensionAfterInit (definition : Comprehension) (items : list (RuntimeValue * option RuntimeValue))
| FComprehensionNext (state : ComprehensionState)
| FComprehensionAfterCond (state : ComprehensionState)
| FComprehensionAfterStep (state : ComprehensionState)
| FScopeGuard.

Abbreviation Scope := (BTreeMap rstr RuntimeValue).

Record Machine := mkMachine {
  frames : list Frame;
  values : list RuntimeValue;
  scopes : list Scope;
  meter : CelMeter;
}.

Definition K (A : Type) : Type := Machine → Machine * result EvaluationError A.

#[export] Instance K_ret : MRet K := fun A a m => (m, Ok a).
#[export] Instance K_bind : MBind K := fun A B f k m =>
  match k m with (m, Ok a) => f a m | (m, Err e) => (m, Err e) end.

Definition k_fail {A} (e : EvaluationError) : K A := fun m => (m, Err e).

(** A metered operation inside the machine. *)
Definition k_meter {A} (c : C A) : K A := fun m =>
  let '(s, r) := c m.(meter) in (mkMachine m.(frames) m.(values) m.(scopes) s, r).

Definition push_frame (f : Frame) : K () := fun m =>
  (mkMachine (f :: m.(frames)) m.(values) m.(scopes) m.(meter), Ok ()).
Definition push_value (v : RuntimeValue) : K () := fun m =>
  (mkMachine m.(frames) (v :: m.(values)) m.(scopes) m.(meter), Ok ()).
Definition value_count_now : K nat := fun m => (m, Ok (length m.(values))).

Definition pop_value : K RuntimeValue := fun m =>
  match m.(values) with
  | [] => (m, Err invalid_state)
  | v :: values => (mkMachine m.(frames) values m.(scopes) m.(meter), Ok v)
  end.

Definition push_scope : K () := fun m =>
  (mkMachine m.(frames) m.(values) ([] :: m.(scopes)) m.(meter), Ok ()).

Definition pop_scope : K () := fun m =>
  match m.(scopes) with
  | [] => (m, Err invalid_state)
  | _ :: scopes => (mkMachine m.(frames) m.(values) scopes m.(meter), Ok ())
  end.

Definition set_local (name : rstr) (value : RuntimeValue) : K () := fun m =>
  match m.(scopes) with
  | [] => (m, Err invalid_state)
  | scope :: scopes =>
      (mkMachine m.(frames) m.(values) (bt_insert name value scope :: scopes) m.(meter), Ok ())
  end.

(** [self.scopes.iter().rev().find_map(|scope| scope.get(name))] *)
Fixpoint find_local (name : rstr) (scopes : list Scope) : option RuntimeValue :=
  match scopes with
  | [] => None
  | scope :: scopes => match bt_get name scope with Some v => Some v | None => find_local name scopes end
  end.

Definition get_local (name : rstr) : K RuntimeValue := fun m =>
  (m, ok_or (find_local name m.(scopes)) invalid_state).

Section machine.
Context `{Jiff}.
Variable compiled : CelCondition.
Variable maximum_cost : N.
Variable poll : nat → bool.
Variable parameter_values : BTreeMap ParameterName RuntimeValue.

Abbreviation check := (k_meter (check_cancellation poll)).
Abbreviation charge := (k_meter (charge_one maximum_cost poll)).
Abbreviation nodes := compiled.(cel_program).(program_nodes).

(** ** Nodes *)

Definition eval_parameter (name : ParameterName) : K () :=
  charge;;
  match bt_get name compiled.(cel_parameters) with
  | None => k_fail invalid_state
  | Some _ =>
      push_value match bt_get name parameter_values with
                 | Some value => value
                 | None => VUnknown [name]
                 end
  end.

Definition eval_local (name : rstr) : K () :=
  charge;;
  value ← get_local name;
  push_value value.

Definition begin_logical (left right : CelNodeId) (and : bool) : K () :=
  depth ← value_count_now;
  push_frame (FLogicalAfterLeft right and depth);;
  push_frame (FEval left).

Definition eval_node (id : CelNodeId) : K () :=
  check;;
  match nodes !! id with
  | None => k_fail invalid_state
  | Some node =>
      match node.(node_kind) with
      | NKLiteral value =>
          k_meter (c_lift (validate_runtime_value compiled value));;
          push_value value
      | NKParameter name => eval_parameter name
      | NKLocal name => eval_local name
      | NKList ids => push_frame (FListNext ids 0 [])
      | NKMap ids => push_frame (FMapNext ids 0 [])
      | NKSelect operand field test => push_frame (FSelect field test);; push_frame (FEval operand)
      | NKUnary operator operand => push_frame (FUnary operator);; push_frame (FEval operand)
      | NKBinary operator l r => push_frame (FBinary operator);; push_frame (FEval r);; push_frame (FEval l)
      | NKLogicalAnd l r => begin_logical l r true
      | NKLogicalOr l r => begin_logical l r false
      | NKConditional condition truthy falsy =>
          push_frame (FConditional truthy falsy);; push_frame (FEval condition)
      | NKCall function target arguments =>
          let ids := match target with Some id => id :: arguments | None => arguments end in
          push_frame (FCallNext function ids (bool_decide (is_Some target)) 0 [])
      | NKComprehension definition =>
          push_frame (FComprehensionAfterRange definition);; push_frame (FEval definition.(iter_range))
      end
  end.

(** ** Logical operators *)

Definition logical_after_left (right : CelNodeId) (and : bool) (value_depth : nat) : K () :=
  value ← pop_value;
  match value with
  | VBool b => if negb (eqb b and) then push_value (VBool b) else push_frame (FEval right)
  | VUnknown unknown =>
      push_frame (FLogicalAfterUnknown unknown and value_depth);; push_frame (FEval right)
  | _ => k_fail type_mismatch
  end.

Definition logical_after_unknown (unknown : BTreeSet ParameterName) (and : bool) : K () :=
  value ← pop_value;
  match value with
  | VBool b => if negb (eqb b and) then push_value (VBool b) else push_value (VUnknown unknown)
  | VUnknown other => push_value (VUnknown (bs_extend unknown other))
  | _ => k_fail type_mismatch
  end.

Definition logical_after_error (error : EvaluationError) (and : bool) : K () :=
  value ← pop_value;
  match value with
  | VBool b => if negb (eqb b and) then push_value (VBool b) else k_fail error
  | VUnknown _ => k_fail error
  | _ => k_fail type_mismatch
  end.

Definition conditional (truthy falsy : CelNodeId) : K () :=
  value ← pop_value;
  match value with
  | VBool true => push_frame (FEval truthy)
  | VBool false => push_frame (FEval falsy)
  | VUnknown unknown => push_value (VUnknown unknown)
  | _ => k_fail type_mismatch
  end.

(** ** Collections and calls *)

Definition list_next (ids : list CelNodeId) (index : nat) (values : list RuntimeValue) : K () :=
  match ids !! index with
  | Some id => check;; push_frame (FListAfter ids index values);; push_frame (FEval id)
  | None =>
      k_meter (charge_units maximum_cost poll 10);;
      push_value match collect_unknowns values with Some unknown => VUnknown unknown | None => VList values end
  end.

Definition list_after (ids : list CelNodeId) (index : nat) (values : list RuntimeValue) : K () :=
  if (compiled.(runtime_collection_items) <=? len values)%N then k_fail value_limit_exceeded
  else
    value ← pop_value;
    push_frame (FListNext ids (S index) (values ++ [value])).

Definition map_next (ids : list (CelNodeId * CelNodeId)) (index : nat) (values : list (rstr * RuntimeValue)) : K () :=
  match ids !! index with
  | Some (key, _) => check;; push_frame (FMapAfterKey ids index values);; push_frame (FEval key)
  | None =>
      k_meter (charge_units maximum_cost poll 30);;
      push_value match collect_unknowns values.*2 with
                 | Some unknown => VUnknown unknown
                 | None => VMap (sort_entries values)
                 end
  end.

Definition map_after_key (ids : list (CelNodeId * CelNodeId)) (index : nat) (values : list (rstr * RuntimeValue)) : K () :=
  popped ← pop_value;
  match popped with
  | VString key =>
      match ids !! index with
      | None => k_fail invalid_state
      | Some (_, value) => push_frame (FMapAfterValue ids index key values);; push_frame (FEval value)
      end
  | VUnknown unknown => push_value (VUnknown unknown)
  | _ => k_fail type_mismatch
  end.

(** The loop that rejects a repeated key. *)
Fixpoint distinct_key (key : rstr) (values : list (rstr * RuntimeValue)) : C () :=
  match values with
  | [] => mret ()
  | (existing, _) :: values =>
      check_cancellation poll;;
      if bool_decide (existing = key) then c_fail invalid_value else distinct_key key values
  end.

(** A value joins the entries of a map literal. *)
Definition accept_entry (key : rstr) (values : list (rstr * RuntimeValue)) : result EvaluationError () :=
  if (compiled.(runtime_collection_items) <=? len values)%N || (compiled.(runtime_value_bytes) <? str_len key)%N
  then Err value_limit_exceeded else Ok ().

Definition map_after_value (ids : list (CelNodeId * CelNodeId)) (index : nat) (key : rstr)
    (values : list (rstr * RuntimeValue)) : K () :=
  value ← pop_value;
  k_meter (distinct_key key values);;
  if is_unknown value then push_value value
  else
    k_meter (c_lift (accept_entry key values));;
    push_frame (FMapNext ids (S index) (values ++ [(key, value)])).

Definition call_next (function : Function) (ids : list CelNodeId) (target : bool) (index : nat)
    (values : list RuntimeValue) : K () :=
  match ids !! index with
  | Some id => push_frame (FCallAfter function ids target index values);; push_frame (FEval id)
  | None =>
      value ← k_meter (call_function maximum_cost poll function target values);
      push_value value
  end.

Definition call_after (function : Function) (ids : list CelNodeId) (target : bool) (index : nat)
    (values : list RuntimeValue) : K () :=
  value ← pop_value;
  push_frame (FCallNext function ids target (S index) (values ++ [value])).

(** ** Comprehensions *)

Definition range_items (range : RuntimeValue) : option (list (RuntimeValue * option RuntimeValue)) :=
  match range with
  | VList values => Some ((fun v => (v, None)) <$> values)
  | VMap values => Some ((fun e => (VString e.1, Some e.2)) <$> values)
  | _ => None
  end.

Definition comprehension_after_range (definition : Comprehension) : K () :=
  range ← pop_value;
  match range with
  | VUnknown unknown => push_value (VUnknown unknown)
  | _ =>
      match range_items range with
      | None => k_fail type_mismatch
      | Some items =>
          push_frame (FComprehensionAfterInit definition items);; push_frame (FEval definition.(accu_init))
      end
  end.

Definition comprehension_after_init (definition : Comprehension) (items : list (RuntimeValue * option RuntimeValue)) : K () :=
  accumulator ← pop_value;
  push_scope;;
  push_frame FScopeGuard;;
  push_frame (FComprehensionNext (mkComprehensionState definition items 0 accumulator)).

(** The variables of one iteration. *)
Definition bind_item (definition : Comprehension) (item : RuntimeValue * option RuntimeValue)
    (accumulator : RuntimeValue) : K () :=
  set_local definition.(iter_var) item.1;;
  match definition.(iter_var2), item.2 with
  | Some name, Some value => set_local name value
  | _, _ => mret ()
  end;;
  set_local definition.(accu_var) accumulator.

Definition comprehension_next (state : ComprehensionState) : K () :=
  let definition := state.(cs_definition) in
  match state.(cs_items) !! state.(cs_index) with
  | None =>
      set_local definition.(accu_var) state.(cs_accumulator);;
      push_frame (FEval definition.(comprehension_result))
  | Some item =>
      check;;
      bind_item definition item state.(cs_accumulator);;
      push_frame (FComprehensionAfterCond state);;
      push_frame (FEval definition.(loop_cond))
  end.

Definition comprehension_after_cond (state : ComprehensionState) : K () :=
  let definition := state.(cs_definition) in
  value ← pop_value;
  match value with
  | VBool true => push_frame (FComprehensionAfterStep state);; push_frame (FEval definition.(loop_step))
  | VBool false =>
      set_local definition.(accu_var) state.(cs_accumulator);;
      push_frame (FEval definition.(comprehension_result))
  | VUnknown unknown => push_value (VUnknown unknown)
  | _ => k_fail type_mismatch
  end.

Definition comprehension_after_step (state : ComprehensionState) : K () :=
  accumulator ← pop_value;
  push_frame (FComprehensionNext
    (mkComprehensionState state.(cs_definition) state.(cs_items) (S state.(cs_index)) accumulator)).

(** ** The machine *)

Definition execute_frame (frame : Frame) : K () :=
  match frame with
  | FEval id => eval_node id
  | FUnary operator =>
      charge;;
      value ← pop_value;
      result ← k_meter (c_lift (apply_unary operator value));
      push_value result
  | FBinary operator =>
      r ← pop_value;
      l ← pop_value;
      result ← k_meter (apply_binary compiled maximum_cost poll operator l r);
      push_value result
  | FLogicalAfterLeft r and value_depth => logical_after_left r and value_depth
  | FLogicalAfterUnknown unknown and _ => logical_after_unknown unknown and
  | FLogicalAfterError error and _ => logical_after_error error and
  | FConditional truthy falsy => conditional truthy falsy
  | FSelect field test =>
      charge;;
      value ← pop_value;
      result ← k_meter (select poll field test value);
      push_value result
  | FListNext ids index values => list_next ids index values
  | FListAfter ids index values => list_after ids index values
  | FMapNext ids index values => map_next ids index values
  | FMapAfterKey ids index values => map_after_key ids index values
  | FMapAfterValue ids index key values => map_after_value ids index key values
  | FCallNext function ids target index values => call_next function ids target index values
  | FCallAfter function ids target index values => call_after function ids target index values
  | FComprehensionAfterRange definition => comprehension_after_range definition
  | FComprehensionAfterInit definition items => comprehension_after_init definition items
  | FComprehensionNext state => comprehension_next state
  | FComprehensionAfterCond state => comprehension_after_cond state
  | FComprehensionAfterStep state => comprehension_after_step state
  | FScopeGuard => pop_scope
  end.

Definition is_suppressible (error : EvaluationError) : bool :=
  match error.(ee_kind) with ETypeMismatch | EArithmetic | EInvalidValue => true | _ => false end.

(** [self.values.truncate(value_depth)] *)
Definition truncate_values (value_depth : nat) (values : list RuntimeValue) : list RuntimeValue :=
  drop (length values - value_depth) values.

(** The loop of [recover_logical_error] over the frames. *)
Fixpoint unwind (error : EvaluationError) (frames : list Frame) (values : list RuntimeValue)
    (scopes : list Scope) (meter : CelMeter) : Machine * result EvaluationError () :=
  match frames with
  | [] => (mkMachine [] values scopes meter, Err error)
  | FLogicalAfterLeft r and value_depth :: frames =>
      (mkMachine (FEval r :: FLogicalAfterError error and value_depth :: frames)
         (truncate_values value_depth values) scopes meter, Ok ())
  | FLogicalAfterError original _ value_depth :: frames =>
      unwind original frames (truncate_values value_depth values) scopes meter
  | FLogicalAfterUnknown _ _ value_depth :: frames =>
      unwind error frames (truncate_values value_depth values) scopes meter
  | FScopeGuard :: frames =>
      match scopes with
      | [] => (mkMachine frames values [] meter, Err invalid_state)
      | _ :: scopes => unwind error frames values scopes meter
      end
  | _ :: frames => unwind error frames values scopes meter
  end.

Definition recover_logical_error (error : EvaluationError) : K () := fun m =>
  if is_suppressible error then unwind error m.(frames) m.(values) m.(scopes) m.(meter)
  else (m, Err error).

(** One turn of the loop of [run]: a machine that goes on, or its answer. *)
Inductive Progress := Running (m : Machine) | Finished (r : result EvaluationError ConditionOutcome).

Definition conclude (m : Machine) : result EvaluationError ConditionOutcome :=
  match m.(values) with
  | [VBool b] => Ok (mkConditionOutcome b m.(meter).(meter_cost))
  | [VUnknown parameters] => Err (missing_error (len parameters))
  | _ => Err invalid_state
  end.

Definition turn (m : Machine) : Progress :=
  match m.(frames) with
  | [] => Finished (conclude m)
  | frame :: frames =>
      match execute_frame frame (mkMachine frames m.(values) m.(scopes) m.(meter)) with
      | (m, Ok _) => Running m
      | (m, Err error) =>
          match recover_logical_error error m with
          | (m, Ok _) => Running m
          | (_, Err error) => Finished (Err error)
          end
      end
  end.

(** [2 ^ k] turns, stopping at an answer. *)
Fixpoint turns (k : nat) (m : Machine) : Progress :=
  match k with
  | O => turn m
  | S k => match turns k m with Running m => turns k m | Finished r => Finished r end
  end.

End machine.

(** ** Turns of a program

    How many turns a node can take when no collection exceeds [items] elements,
    from the bounds of the nodes before it. *)

Definition kind_bound (items : N) (bounds : list N) (kind : NodeKind) : N :=
  let b id := default 0%N (bounds !! id) in
  match kind with
  | NKLiteral _ | NKParameter _ | NKLocal _ => 1
  | NKList ids => foldr (fun id n => 2 + b id + n) 2 ids
  | NKMap ids => foldr (fun e n => 3 + b e.1 + b e.2 + n) 2 ids
  | NKSelect operand _ _ | NKUnary _ operand => 2 + b operand
  | NKBinary _ l r => 2 + b l + b r
  | NKLogicalAnd l r | NKLogicalOr l r => 3 + b l + b r
  | NKConditional condition truthy falsy => 2 + b condition + b truthy + b falsy
  | NKCall _ target arguments =>
      foldr (fun id n => 2 + b id + n) 2 (match target with Some id => id :: arguments | None => arguments end)
  | NKComprehension d =>
      6 + b d.(iter_range) + b d.(accu_init) + items * (3 + b d.(loop_cond) + b d.(loop_step))
      + b d.(comprehension_result)
  end%N.

Definition node_bounds (items : N) (nodes : list Node) : list N :=
  foldl (fun bounds node => bounds ++ [kind_bound items bounds node.(node_kind)]) [] nodes.

Definition program_bound (compiled : CelCondition) : N :=
  (1 + default 0 (node_bounds compiled.(runtime_collection_items) compiled.(cel_program).(program_nodes)
                  !! compiled.(cel_program).(program_root)))%N.

(** [evaluate]: the parameters, then the machine from the root node. *)
Definition evaluate_condition `{Jiff} (compiled : CelCondition) (request tuple : ConditionContext)
    (maximum_cost : N) (poll : nat → bool) : result EvaluationError ConditionOutcome :=
  match prepare_parameters compiled poll request tuple (mkCelMeter 0 0) with
  | (_, Err e) => Err e
  | (meter, Ok parameter_values) =>
      match turns compiled maximum_cost poll parameter_values (N.to_nat (N.log2_up (program_bound compiled)))
              (mkMachine [FEval compiled.(cel_program).(program_root)] [] [] meter) with
      | Finished r => r
      | Running _ => Err invalid_state
      end
  end.
