(* ===== verification/CelCompiler.v ===== *)
(** * The condition compiler

    [crates/openfga-condition/src/compiler.rs]: the limits of a definition and of
    its syntax tree, and the lowering of the tree to typed nodes.  The parser is
    the [cel_parser] crate's; the cache in front of the compiler is in
    [ModelFingerprint]. *)

From S2P Require Import Prelude Ordered Identifier Reference Scalars Context Condition CelValue.
From Stdlib Require Import ZArith.

(** [Parser::parse]: a tree, the positions of its errors, or a panic. *)
Class CelParser := {
  cel_parse : rstr → option (result (list (Z * Z)) Expr);
}.

Abbreviation limit_error := (compile_error CELimitExceeded 0).
Abbreviation unsupported := (compile_error CEUnsupported 0).
Abbreviation mismatch := (compile_error CETypeMismatch 0).

(** [CompileError::non_boolean], [unknown_identifier] and [no_matching_overload]. *)
Definition non_boolean (found_type : string) : CompileError :=
  mkCompileError CENonBooleanResult 0 (Some found_type) None.
Definition unknown_identifier (identifier : rstr) : CompileError :=
  mkCompileError CEUnknownIdentifier 0 None (Some (CDUnknownIdentifier identifier)).
Definition no_matching_overload (function : rstr) (argument_types : list string) : CompileError :=
  mkCompileError CETypeMismatch 0 None (Some (CDNoMatchingOverload function argument_types)).

Definition static_type_name (t : StaticType) : string :=
  match t with
  | TDyn => "dyn" | TNull => "null_type" | TBool => "bool" | TInt => "int" | TUint => "uint"
  | TDouble => "double" | TString => "string" | TBytes => "bytes" | TDuration => "duration"
  | TTimestamp => "timestamp" | TIpAddress => "ipaddress" | TList _ => "list" | TMap _ => "map"
  end.

(** ** Limits *)

Definition validate_definition (definition : ConditionDefinition) (limits : ConditionLimits) : result CompileError () :=
  if bool_decide (definition.(cd_expression) = [])
     || (limits.(cl_expression_bytes) <? str_len definition.(cd_expression))%N then Err limit_error
  else if (limits.(cl_parameters) <? len definition.(cd_parameters))%N then Err limit_error
  else Ok ().

(** The byte lengths of the segments of [split_inclusive] at newlines. *)
Fixpoint line_lengths (current : N) (s : rstr) : list N :=
  match s with
  | [] => if (current =? 0)%N then [] else [current]
  | c :: s => if (c =? 10)%N then (current + 1)%N :: line_lengths 0 s
              else line_lengths (current + char_len_utf8 c) s
  end.

Definition source_offset (expression : rstr) (position : Z * Z) : option N :=
  if (position.1 <? 1)%Z || (position.2 <? 1)%Z then None
  else
    let preceding := foldr N.add 0%N (take (Z.to_nat (position.1 - 1)) (line_lengths 0 expression)) in
    total ← checked_add USIZE_MAX preceding (Z.to_N (position.2 - 1));
    Some (N.min total (str_len expression)).

Definition copy_parse_error (errors : list (Z * Z)) (expression : rstr) : CompileError :=
  compile_error CESyntax (default 0%N (head errors ≫= source_offset expression)).

Record AstStats := mkAstStats {
  as_nodes : N;
  as_identifiers : N;
  as_literals : N;
  as_comprehensions : N;
}.

Definition checked_count (current maximum : N) : result CompileError N :=
  next ← ok_or (checked_add USIZE_MAX current 1) limit_error;
  if (maximum <? next)%N then Err limit_error else Ok next.

Definition bound_items (items : N) (limits : ConditionLimits) : result CompileError () :=
  if (limits.(cl_literal_collection_items) <? items)%N then Err limit_error else Ok ().

(** The keys and values of a map literal, pushed in order. *)
Definition push_entry (depth : N) (entry : EntryExpr) (stack : list (Expr * N)) : result CompileError (list (Expr * N)) :=
  match entry with
  | EntryMap key value false => Ok ((value, depth) :: (key, depth) :: stack)
  | _ => Err unsupported
  end.

Definition push_all (depth : N) (children : list Expr) (stack : list (Expr * N)) : list (Expr * N) :=
  reverse ((fun e => (e, depth)) <$> children) ++ stack.

Definition push_children (limits : ConditionLimits) (expression : Expr) (depth : N) (stack : list (Expr * N))
    (stats : AstStats) : result CompileError (list (Expr * N) * AstStats) :=
  match expression with
  | XUnspecified | XStruct => Err unsupported
  | XIdent _ =>
      n ← checked_count stats.(as_identifiers) limits.(cl_identifiers);
      Ok (stack, mkAstStats stats.(as_nodes) n stats.(as_literals) stats.(as_comprehensions))
  | XLiteral _ =>
      n ← checked_count stats.(as_literals) limits.(cl_literals);
      Ok (stack, mkAstStats stats.(as_nodes) stats.(as_identifiers) n stats.(as_comprehensions))
  | XList elements =>
      _ ← bound_items (len elements) limits;
      Ok (push_all depth elements stack, stats)
  | XMap entries =>
      _ ← bound_items (len entries) limits;
      stack ← try_fold (push_entry depth) entries stack;
      Ok (stack, stats)
  | XSelect operand _ _ => Ok ((operand, depth) :: stack, stats)
  | XCall _ target args =>
      let stack := match target with Some target => (target, depth) :: stack | None => stack end in
      Ok (push_all depth args stack, stats)
  | XComprehension range _ _ _ init cond step result =>
      n ← checked_count stats.(as_comprehensions) limits.(cl_comprehensions);
      Ok (push_all depth [range; init; cond; step; result] stack,
          mkAstStats stats.(as_nodes) stats.(as_identifiers) stats.(as_literals) n)
  end.

(** The number of expressions in a tree. *)
Fixpoint expr_nodes (e : Expr) : nat :=
  match e with
  | XList elements => S (foldr (fun e n => expr_nodes e + n) 0 elements)
  | XMap entries =>
      S (foldr (fun entry n =>
                  match entry with EntryMap key value _ => expr_nodes key + expr_nodes value + n | EntryField => n end)
           0 entries)
  | XSelect operand _ _ => S (expr_nodes operand)
  | XCall _ target args =>
      S (match target with Some e => expr_nodes e | None => 0 end + foldr (fun e n => expr_nodes e + n) 0 args)
  | XComprehension range _ _ _ init cond step result =>
      S (expr_nodes range + expr_nodes init + expr_nodes cond + expr_nodes step + expr_nodes result)
  | _ => 1
  end.

(** The loop of [validate_ast_shape]; a round takes one expression. *)
Fixpoint validate_ast_loop (limits : ConditionLimits) (fuel : nat) (stack : list (Expr * N)) (stats : AstStats) :
    option (result CompileError ()) :=
  match stack, fuel with
  | [], _ => Some (Ok ())
  | _, O => None
  | (expression, depth) :: stack, S fuel =>
      match (nodes ← checked_count stats.(as_nodes) limits.(cl_ast_nodes);
             if (limits.(cl_ast_depth) <? depth)%N then Err limit_error
             else
               next_depth ← ok_or (checked_add USIZE_MAX depth 1) limit_error;
               push_children limits expression next_depth stack
                 (mkAstStats nodes stats.(as_identifiers) stats.(as_literals) stats.(as_comprehensions))) with
      | Err e => Some (Err e)
      | Ok (stack, stats) => validate_ast_loop limits fuel stack stats
      end
  end.

Definition validate_ast_shape (root : Expr) (limits : ConditionLimits) : option (result CompileError ()) :=
  validate_ast_loop limits (expr_nodes root) [(root, 1%N)] (mkAstStats 0 0 0 0).

(** ** Static types *)

(** [static_type] of a declared parameter. *)
Fixpoint kind_static_type (kind : ParameterTypeKind) : StaticType :=
  match kind with
  | PTAny => TDyn
  | PTBool => TBool
  | PTString => TString
  | PTInt => TInt
  | PTUint => TUint
  | PTDouble => TDouble
  | PTBytes => TBytes
  | PTDuration => TDuration
  | PTTimestamp => TTimestamp
  | PTIpAddress => TIpAddress
  | PTList element => TList (parameter_static_type element)
  | PTMap value => TMap (parameter_static_type value)
  end
with parameter_static_type (parameter : ParameterType) : StaticType :=
  match parameter with mkParameterType kind _ => kind_static_type kind end.

Fixpoint unify (l r : StaticType) : result CompileError StaticType :=
  match l, r with
  | TDyn, _ => Ok r
  | _, TDyn => Ok l
  | TList l, TList r => TList <$> unify l r
  | TMap l, TMap r => TMap <$> unify l r
  | _, _ => if bool_decide (l = r) then Ok l else Err mismatch
  end.

Definition node_type (nodes : list Node) (id : CelNodeId) : result CompileError StaticType :=
  static_type <$> ok_or (nodes !! id) unsupported.

Definition unify_nodes (nodes : list Node) (ids : list CelNodeId) : result CompileError StaticType :=
  try_fold (fun id current =>
              t ← node_type nodes id;
              if bool_decide (current = TDyn) then Ok t else unify current t) ids TDyn.

Definition comparable (t : StaticType) : bool :=
  match t with
  | TInt | TUint | TDouble | TString | TBytes | TDuration | TTimestamp | TDyn => true
  | _ => false
  end.

Definition membership_type (l r : StaticType) : result CompileError StaticType :=
  match r with
  | TList element => if accepts element l then Ok TBool else Err mismatch
  | TMap _ => if accepts TString l then Ok TBool else Err mismatch
  | TDyn => Ok TBool
  | _ => Err mismatch
  end.

Definition index_type (l r : StaticType) : result CompileError StaticType :=
  match l with
  | TList element => match r with TInt | TUint | TDyn => Ok element | _ => Err mismatch end
  | TMap value => if accepts TString r then Ok value else Err mismatch
  | TDyn => Ok TDyn
  | _ => Err mismatch
  end.

Definition binary_type (operator : BinaryOperator) (l r : StaticType) : result CompileError StaticType :=
  match operator with
  | BEqual | BNotEqual => if accepts l r then Ok TBool else Err mismatch
  | BGreater | BGreaterEqual | BLess | BLessEqual =>
      if comparable l && accepts l r then Ok TBool else Err mismatch
  | BAdd =>
      if accepts l r && match l with TInt | TUint | TDouble | TString | TBytes | TList _ | TDyn => true | _ => false end
      then Ok l else Err mismatch
  | BSubtract | BMultiply | BDivide | BModulo =>
      if accepts l r && match l with TInt | TUint | TDouble | TDyn => true | _ => false end
      then Ok l else Err mismatch
  | BIn => membership_type l r
  | BIndex => index_type l r
  end.

Definition binary_function_name (operator : BinaryOperator) : rstr :=
  str match operator with
      | BAdd => "_+_" | BSubtract => "_-_" | BMultiply => "_*_" | BDivide => "_/_" | BModulo => "_%_"
      | BEqual => "_==_" | BNotEqual => "_!=_" | BGreater => "_>_" | BGreaterEqual => "_>=_"
      | BLess => "_<_" | BLessEqual => "_<=_" | BIn => "_in_" | BIndex => "_[_]"
      end.

(** The functions of the supported surface, by name and call style. *)
Definition functions : list (bool * rstr * Function) :=
  [ (false, str "duration", FnDuration); (false, str "timestamp", FnTimestamp);
    (false, str "ipaddress", FnIpAddress); (false, str "int", FnInt); (false, str "uint", FnUint);
    (false, str "double", FnDouble); (false, str "string", FnString); (false, str "bytes", FnBytes);
    (false, str "size", FnSize); (true, str "size", FnSize); (true, str "contains", FnContains);
    (true, str "startsWith", FnStartsWith); (true, str "endsWith", FnEndsWith); (true, str "in_cidr", FnInCidr) ].

Definition function_named (name : rstr) (receiver : bool) : option Function :=
  snd <$> find_first (fun f => eqb f.1.1 receiver && bool_decide (f.1.2 = name)) functions.

Definition function_type (function : Function) (target_type : option StaticType) (argument_types : list StaticType) :
    result CompileError StaticType :=
  match function, target_type, argument_types with
  | FnDuration, None, [TString] => Ok TDuration
  | FnTimestamp, None, [TString] => Ok TTimestamp
  | FnIpAddress, None, [TString] => Ok TIpAddress
  | FnInt, None, [(TInt | TUint | TDouble | TString | TDyn)] => Ok TInt
  | FnSize, Some (TString | TBytes | TList _ | TMap _ | TDyn), [] => Ok TInt
  | FnSize, None, [(TString | TBytes | TList _ | TMap _ | TDyn)] => Ok TInt
  | FnUint, None, [(TInt | TUint | TDouble | TString | TDyn)] => Ok TUint
  | FnDouble, None, [(TInt | TUint | TDouble | TString | TDyn)] => Ok TDouble
  | FnString, None, [(TString | TInt | TUint | TDouble | TBool | TBytes | TDyn)] => Ok TString
  | FnBytes, None, [(TString | TDyn)] => Ok TBytes
  | FnContains, Some (TString | TDyn), [(TString | TDyn)]
  | FnStartsWith, Some (TString | TDyn), [(TString | TDyn)]
  | FnEndsWith, Some (TString | TDyn), [(TString | TDyn)] => Ok TBool
  | FnInCidr, Some (TIpAddress | TDyn), [(TString | TDyn)] => Ok TBool
  | _, _, _ => Err mismatch
  end.

Definition iterable_types (t : StaticType) : result CompileError (StaticType * option StaticType) :=
  match t with
  | TList element => Ok (element, None)
  | TMap value => Ok (TString, Some value)
  | TDyn => Ok (TDyn, Some TDyn)
  | _ => Err mismatch
  end.

(** ** Lowering *)

Record Lowerer := mkLowerer {
  lw_nodes : list Node;
  lw_scopes : list (BTreeMap rstr StaticType);
}.

(** The lowerer after a failure is dropped with it. *)
Definition L (A : Type) : Type := Lowerer → result CompileError (A * Lowerer).

#[export] Instance L_ret : MRet L := fun A a s => Ok (a, s).
#[export] Instance L_bind : MBind L := fun A B f m s => '(a, s) ← m s; f a s.
#[export] Instance L_fmap : FMap L := fun A B f m => a ← m; mret (f a).

Definition l_lift {A} (r : result CompileError A) : L A := fun s => (fun a => (a, s)) <$> r.
Definition l_nodes : L (list Node) := fun s => Ok (s.(lw_nodes), s).
Definition l_scopes : L (list (BTreeMap rstr StaticType)) := fun s => Ok (s.(lw_scopes), s).
Definition l_type (id : CelNodeId) : L StaticType := nodes ← l_nodes; l_lift (node_type nodes id).

(** [iter.map(|x| self.lower(x)).collect::<Result<Vec<_>, _>>()] *)
Section l_map.
Context {A B : Type} (f : A → L B).

Fixpoint l_map (l : list A) : L (list B) :=
  match l with
  | [] => mret []
  | x :: l => y ← f x; ys ← l_map l; mret (y :: ys)
  end.

End l_map.

(** [Lowerer::push] *)
Definition push_node (kind : NodeKind) (t : StaticType) : L CelNodeId := fun s =>
  Ok (length s.(lw_nodes), mkLowerer (s.(lw_nodes) ++ [mkNode kind t]) s.(lw_scopes)).

Definition push_lowering_scope (scope : BTreeMap rstr StaticType) : L () := fun s =>
  Ok ((), mkLowerer s.(lw_nodes) (scope :: s.(lw_scopes))).
Definition pop_lowering_scope : L () := fun s => Ok ((), mkLowerer s.(lw_nodes) (tail s.(lw_scopes))).

Definition lower_literal (value : Val) : L CelNodeId :=
  match value with
  | ValNull => push_node (NKLiteral VNull) TNull
  | ValBoolean b => push_node (NKLiteral (VBool b)) TBool
  | ValInt z => push_node (NKLiteral (VInt z)) TInt
  | ValUInt n => push_node (NKLiteral (VUint n)) TUint
  | ValDouble x =>
      if f64_is_finite x then push_node (NKLiteral (VDouble x)) TDouble else l_lift (Err mismatch)
  | ValString s => push_node (NKLiteral (VString s)) TString
  | ValBytes b => push_node (NKLiteral (VBytes b)) TBytes
  end.

Fixpoint find_static (name : rstr) (scopes : list (BTreeMap rstr StaticType)) : option StaticType :=
  match scopes with
  | [] => None
  | scope :: scopes => match bt_get name scope with Some t => Some t | None => find_static name scopes end
  end.

Section lowering.
Variable parameters : BTreeMap ParameterName ParameterType.

Definition lower_identifier (name : rstr) : L CelNodeId :=
  scopes ← l_scopes;
  match find_static name scopes with
  | Some t => push_node (NKLocal name) t
  | None =>
      match bt_get name parameters with
      | Some parameter => push_node (NKParameter name) (parameter_static_type parameter)
      | None => l_lift (Err (unknown_identifier name))
      end
  end.

Definition unary_of (operator : Operator) : option UnaryOperator :=
  match operator with
  | OLogicalNot => Some UNot
  | ONegate => Some UNegate
  | ONotStrictlyFalse => Some UNotStrictlyFalse
  | _ => None
  end.

Definition binary_of (operator : Operator) : option BinaryOperator :=
  match operator with
  | OAdd => Some BAdd | OSubstract => Some BSubtract | OMultiply => Some BMultiply | ODivide => Some BDivide
  | OModulo => Some BModulo | OEquals => Some BEqual | ONotEquals => Some BNotEqual | OGreater => Some BGreater
  | OGreaterEquals => Some BGreaterEqual | OLess => Some BLess | OLessEquals => Some BLessEqual
  | OIn => Some BIn | OIndex => Some BIndex
  | _ => None
  end.

(** The node of an operator or a function over its lowered operands. *)
Definition finish_unary (operator : UnaryOperator) (operand : CelNodeId) : L CelNodeId :=
  input ← l_type operand;
  output ← l_lift match operator, input with
                  | (UNot | UNotStrictlyFalse), _ => if accepts TBool input then Ok TBool else Err mismatch
                  | UNegate, (TInt | TDouble | TDyn) => Ok input
                  | UNegate, _ => Err mismatch
                  end;
  push_node (NKUnary operator operand) output.

Definition finish_logical (l r : CelNodeId) (and : bool) : L CelNodeId :=
  lt ← l_type l;
  rt ← l_type r;
  if negb (accepts TBool lt) || negb (accepts TBool rt) then l_lift (Err mismatch)
  else push_node (if and then NKLogicalAnd l r else NKLogicalOr l r) TBool.

Definition finish_conditional (condition truthy falsy : CelNodeId) : L CelNodeId :=
  ct ← l_type condition;
  if negb (accepts TBool ct) then l_lift (Err mismatch)
  else
    tt ← l_type truthy;
    ft ← l_type falsy;
    output ← l_lift (unify tt ft);
    push_node (NKConditional condition truthy falsy) output.

(** The error of [binary_type] names the overload. *)
Definition relabel_overload (kinds : list CompileErrorKind) (function : rstr) (types : list StaticType)
    (error : CompileError) : CompileError :=
  if bool_decide (error.(ce_kind) ∈ kinds) then no_matching_overload function (static_type_name <$> types) else error.

Definition finish_binary (operator : BinaryOperator) (l r : CelNodeId) : L CelNodeId :=
  lt ← l_type l;
  rt ← l_type r;
  output ← l_lift (map_err (relabel_overload [CETypeMismatch] (binary_function_name operator) [lt; rt])
                     (binary_type operator lt rt));
  push_node (NKBinary operator l r) output.

Definition finish_function (function : Function) (name : rstr) (target : option CelNodeId)
    (arguments : list CelNodeId) : L CelNodeId :=
  nodes ← l_nodes;
  let ids := match target with Some id => id :: arguments | None => arguments end in
  let known := omap (fun id => static_type <$> nodes !! id) ids in
  output ← l_lift (map_err (relabel_overload [CETypeMismatch; CEUnsupported] name known)
                     (argument_types ← try_collect (node_type nodes) arguments;
                      target_type ← match target with
                                    | Some id => Some <$> node_type nodes id
                                    | None => Ok None
                                    end;
                      function_type function target_type argument_types));
  push_node (NKCall function target arguments) output.

Definition finish_comprehension (definition : Comprehension) (accu_type : StaticType) : L CelNodeId :=
  cond_type ← l_type definition.(loop_cond);
  step_type ← l_type definition.(loop_step);
  if negb (accepts TBool cond_type) || negb (accepts accu_type step_type) then l_lift (Err mismatch)
  else
    output ← l_type definition.(comprehension_result);
    push_node (NKComprehension definition) output.

(** The scope of a comprehension: its variables over the range's types. *)
Definition comprehension_scope (var : rstr) (var2 : option rstr) (accu : rstr) (types : StaticType * option StaticType)
    (accu_type : StaticType) : BTreeMap rstr StaticType :=
  let scope := bt_insert var types.1 [] in
  let scope := match var2, types.2 with Some name, Some t => bt_insert name t scope | _, _ => scope end in
  bt_insert accu accu_type scope.

Fixpoint lower (e : Expr) : L CelNodeId :=
  match e with
  | XLiteral value => lower_literal value
  | XIdent name => lower_identifier name
  | XList elements =>
      ids ← l_map lower elements;
      nodes ← l_nodes;
      element_type ← l_lift (unify_nodes nodes ids);
      push_node (NKList ids) (TList element_type)
  | XMap entries =>
      ids ← l_map (fun entry =>
                     match entry with
                     | EntryMap key value false =>
                         key ← lower key;
                         key_type ← l_type key;
                         if bool_decide (key_type = TString) then value ← lower value; mret (key, value)
                         else l_lift (Err mismatch)
                     | _ => l_lift (Err unsupported)
                     end) entries;
      nodes ← l_nodes;
      value_type ← l_lift (unify_nodes nodes ids.*2);
      push_node (NKMap ids) (TMap value_type)
  | XSelect operand field test =>
      operand ← lower operand;
      operand_type ← l_type operand;
      value_type ← l_lift match operand_type with TMap value => Ok value | TDyn => Ok TDyn | _ => Err mismatch end;
      push_node (NKSelect operand field test) (if test then TBool else value_type)
  | XCall (FOperator OLogicalAnd) _ [l; r] => l ← lower l; r ← lower r; finish_logical l r true
  | XCall (FOperator OLogicalOr) _ [l; r] => l ← lower l; r ← lower r; finish_logical l r false
  | XCall (FOperator OConditional) _ [condition; truthy; falsy] =>
      condition ← lower condition;
      truthy ← lower truthy;
      falsy ← lower falsy;
      finish_conditional condition truthy falsy
  | XCall (FOperator operator) target args =>
      match unary_of operator, binary_of operator, target, args with
      | Some operator, _, None, [operand] => operand ← lower operand; finish_unary operator operand
      | None, Some operator, None, [l; r] => l ← lower l; r ← lower r; finish_binary operator l r
      | _, _, _, _ => l_lift (Err unsupported)
      end
  | XCall (FFunction name) target args =>
      match function_named name (bool_decide (is_Some target)) with
      | None => l_lift (Err unsupported)
      | Some function =>
          target ← match target with Some e => Some <$> lower e | None => mret None end;
          arguments ← l_map lower args;
          finish_function function name target arguments
      end
  | XComprehension range var var2 accu init cond step result =>
      range ← lower range;
      range_type ← l_type range;
      types ← l_lift (iterable_types range_type);
      init ← lower init;
      accu_type ← l_type init;
      push_lowering_scope (comprehension_scope var var2 accu types accu_type);;
      cond ← lower cond;
      step ← lower step;
      result ← lower result;
      id ← finish_comprehension (mkComprehension range var var2 accu init cond step result) accu_type;
      pop_lowering_scope;;
      mret id
  | XUnspecified | XStruct => l_lift (Err unsupported)
  end.

End lowering.

(** ** Compilation *)

Section compile.
Context `{CelParser}.

Definition compile_uncached (definition : ConditionDefinition) (limits : ConditionLimits) : result CompileError CelCondition :=
  _ ← validate_definition definition limits;
  parsed ← ok_or (cel_parse definition.(cd_expression)) (compile_error CESyntax 0);
  expression ← map_err (fun errors => copy_parse_error errors definition.(cd_expression)) parsed;
  _ ← default (Err limit_error) (validate_ast_shape expression limits);
  '(root, lowerer) ← lower definition.(cd_parameters) expression (mkLowerer [] []);
  root_type ← node_type lowerer.(lw_nodes) root;
  if bool_decide (root_type = TBool) then
    Ok (mkCelCondition definition.(cd_name) definition.(cd_parameters) (mkProgram lowerer.(lw_nodes) root)
          limits.(cl_runtime_value_bytes) limits.(cl_runtime_collection_items))
  else Err (non_boolean (static_type_name root_type)).

End compile.

(** ** Stored contexts *)

(** [CompiledCondition::validate_context]: entries in name order. *)
Definition validate_cel_context `{Jiff} (condition : CelCondition) (context : ConditionContext) :
    result ConditionContextError () :=
  try_each (fun '(name, value) =>
              match bt_get name condition.(cel_parameters) with
              | None => Err (mkConditionContextError UnknownParameter name)
              | Some parameter_type =>
                  map_err (fun _ => mkConditionContextError InvalidParameterValue name)
                    (_ ← convert_parameter value parameter_type; Ok ())
              end) context.(cc_values).
