(* ===== verification/CelShape.v ===== *)
(** * The limits of a condition's syntax tree

    [validate_ast_shape] accepts exactly the trees within the configured limits:
    the number of expressions, identifiers, literals and comprehensions, the
    depth, the size of every literal collection, and no unsupported form. *)

From S2P Require Import Prelude Ordered Identifier Reference Scalars Context Condition CelValue CelCompiler.
From Stdlib Require Import ZArith.

(** The expressions directly below one. *)
Definition children (e : Expr) : list Expr :=
  match e with
  | XList elements => elements
  | XMap entries => entries ≫= fun entry => match entry with EntryMap key value _ => [key; value] | EntryField => [] end
  | XSelect operand _ _ => [operand]
  | XCall _ target args => match target with Some e => e :: args | None => args end
  | XComprehension range _ _ _ init cond step result => [range; init; cond; step; result]
  | _ => []
  end.

(** A quantity of a tree from those of the expressions below its root. *)
Section fold.
Context {A : Type} (own : Expr → A → A) (comb : A → A → A) (unit : A).

Fixpoint expr_fold (e : Expr) : A :=
  own e
    match e with
    | XList elements => foldr (fun e => comb (expr_fold e)) unit elements
    | XMap entries =>
        foldr (fun entry a => match entry with
                              | EntryMap key value _ => comb (expr_fold key) (comb (expr_fold value) a)
                              | EntryField => a
                              end) unit entries
    | XSelect operand _ _ => comb (expr_fold operand) unit
    | XCall _ target args =>
        match target with
        | Some e => comb (expr_fold e) (foldr (fun e => comb (expr_fold e)) unit args)
        | None => foldr (fun e => comb (expr_fold e)) unit args
        end
    | XComprehension range _ _ _ init cond step result =>
        comb (expr_fold range) (comb (expr_fold init) (comb (expr_fold cond) (comb (expr_fold step) (comb (expr_fold result) unit))))
    | _ => unit
    end.

Lemma expr_fold_children e : expr_fold e = own e (foldr (fun e => comb (expr_fold e)) unit (children e)).
Proof.
  destruct e as [| | | | |entries| |f target args|]; try done; [|by destruct target]. cbn. f_equal.
  induction entries as [|[key value optional|] entries IH]; simpl; [done|by rewrite IH|done].
Qed.

End fold.

(** A property of every expression of a tree. *)
Definition everywhere (P : Expr → Prop) (e : Expr) : Prop := expr_fold (fun e Q => P e ∧ Q) and True e.

Lemma everywhere_children P e : everywhere P e ↔ P e ∧ ∀ x, x ∈ children e → everywhere P x.
Proof. unfold everywhere at 1. rewrite expr_fold_children. by rewrite (foldr_and_elem (everywhere P)). Qed.

(** The names of a tree. *)
Definition identifiers (e : Expr) : list rstr :=
  expr_fold (fun e names => match e with XIdent name => name :: names | _ => names end) app [] e.

Lemma identifiers_child e x name : x ∈ children e → name ∈ identifiers x → name ∈ identifiers e.
Proof.
  intros Hx Hn. unfold identifiers. rewrite expr_fold_children. fold identifiers.
  assert (Hin : name ∈ foldr (fun e => app (identifiers e)) [] (children e)).
  { induction (children e) as [|y l IH]; simpl; [set_solver|]. apply elem_of_cons in Hx as [->|Hx]; set_solver. }
  destruct e; try done. by apply elem_of_nil in Hx.
Qed.

Definition expr_count (own : Expr → bool) (e : Expr) : N :=
  expr_fold (fun e n => (if own e then 1 else 0) + n)%N N.add 0%N e.

Definition is_identifier (e : Expr) : bool := match e with XIdent _ => true | _ => false end.
Definition is_literal (e : Expr) : bool := match e with XLiteral _ => true | _ => false end.
Definition is_comprehension (e : Expr) : bool := match e with XComprehension _ _ _ _ _ _ _ _ => true | _ => false end.

Definition expr_depth (e : Expr) : N := expr_fold (fun _ d => 1 + d)%N N.max 0%N e.

(** Supported forms and literal collections within the limit. *)
Definition node_shape (limits : ConditionLimits) (e : Expr) : Prop :=
  match e with
  | XUnspecified | XStruct => False
  | XList elements => (len elements <= limits.(cl_literal_collection_items))%N
  | XMap entries =>
      (len entries <= limits.(cl_literal_collection_items))%N ∧
      Forall (fun entry => match entry with EntryMap _ _ false => True | _ => False end) entries
  | _ => True
  end.

Definition expr_shape (limits : ConditionLimits) (e : Expr) : Prop := everywhere (node_shape limits) e.

Definition ast_within (limits : ConditionLimits) (e : Expr) : Prop :=
  (expr_count (fun _ => true) e <= limits.(cl_ast_nodes))%N ∧
  (expr_count is_identifier e <= limits.(cl_identifiers))%N ∧
  (expr_count is_literal e <= limits.(cl_literals))%N ∧
  (expr_count is_comprehension e <= limits.(cl_comprehensions))%N ∧
  (expr_depth e <= limits.(cl_ast_depth))%N ∧ expr_shape limits e.

(** ** The loop *)

Definition total (own : Expr → bool) (stack : list (Expr * N)) : N := foldr (fun x n => expr_count own x.1 + n)%N 0%N stack.

Lemma expr_count_eq own e :
  expr_count own e = ((if own e then 1 else 0) + foldr (fun e n => expr_count own e + n) 0 (children e))%N.
Proof. exact (expr_fold_children (fun e n => (if own e then 1 else 0) + n)%N N.add 0%N e). Qed.

Lemma ast_total_app own l k : total own (l ++ k) = (total own l + total own k)%N.
Proof. induction l as [|x l IH]; simpl; [done|]. rewrite IH. lia. Qed.

Lemma total_children own d l : total own ((fun e => (e, d)) <$> l) = foldr (fun e n => expr_count own e + n)%N 0%N l.
Proof. unfold total. by rewrite foldr_fmap. Qed.

#[local] Instance total_perm own : Proper ((≡ₚ) ==> eq) (total own).
Proof. intros l k Hp. unfold total. induction Hp; simpl; lia. Qed.

Lemma expr_depth_eq e : expr_depth e = (1 + foldr (fun e => N.max (expr_depth e)) 0 (children e))%N.
Proof. exact (expr_fold_children (fun _ d => 1 + d)%N N.max 0%N e). Qed.

Lemma expr_depth_children e d b :
  (d + expr_depth e <= b + 1)%N ↔ (d <= b)%N ∧ ∀ x, x ∈ children e → (d + 1 + expr_depth x <= b + 1)%N.
Proof.
  rewrite expr_depth_eq. generalize (children e) as l. induction l as [|x l IH]; simpl.
  - split; [intros ?; split; [lia|set_solver]|lia].
  - setoid_rewrite elem_of_cons. split.
    + intros Hd. destruct (proj1 IH) as [Hb Hl]; [lia|]. split; [done|]. intros y [->|Hy]; [lia|by apply Hl].
    + intros [Hb Hl]. specialize (Hl x) as Hx. assert ((d + (1 + foldr (fun e => N.max (expr_depth e)) 0 l) <= b + 1)%N).
      { apply IH. split; [done|]. intros y Hy. apply Hl. by right. }
      specialize (Hx (or_introl eq_refl)). lia.
Qed.

Lemma expr_nodes_eq e : expr_nodes e = S (foldr (fun e n => expr_nodes e + n) 0 (children e)).
Proof.
  destruct e as [| | | | |entries| |f target args|]; cbn; try lia; [|by destruct target]. f_equal.
  induction entries as [|[key value optional|] entries IH]; simpl; [done|by rewrite IH, <-Nat.add_assoc|done].
Qed.

Definition ast_stats_ok (limits : ConditionLimits) (s : AstStats) : Prop :=
  (s.(as_nodes) <= limits.(cl_ast_nodes))%N ∧ (s.(as_identifiers) <= limits.(cl_identifiers))%N ∧
  (s.(as_literals) <= limits.(cl_literals))%N ∧ (s.(as_comprehensions) <= limits.(cl_comprehensions))%N.

(** Limits whose counts a [usize] can hold. *)
Definition limits_countable (limits : ConditionLimits) : Prop :=
  (limits.(cl_ast_nodes) <= USIZE_MAX)%N ∧ (limits.(cl_identifiers) <= USIZE_MAX)%N ∧
  (limits.(cl_literals) <= USIZE_MAX)%N ∧ (limits.(cl_comprehensions) <= USIZE_MAX)%N ∧
  (limits.(cl_ast_depth) < USIZE_MAX)%N.

Definition own (b : bool) : N := if b then 1 else 0.

(** The counters after one expression, apart from the number of expressions. *)
Definition counted (s : AstStats) (e : Expr) : AstStats :=
  mkAstStats s.(as_nodes) (s.(as_identifiers) + own (is_identifier e)) (s.(as_literals) + own (is_literal e))
    (s.(as_comprehensions) + own (is_comprehension e)).

Definition with_stack (s : AstStats) (stack : list (Expr * N)) : AstStats :=
  mkAstStats (s.(as_nodes) + total (fun _ => true) stack) (s.(as_identifiers) + total is_identifier stack)
    (s.(as_literals) + total is_literal stack) (s.(as_comprehensions) + total is_comprehension stack).

Lemma checked_count_spec n max :
  (max <= USIZE_MAX)%N →
  (checked_count n max = Ok (n + 1)%N ∧ (n + 1 <= max)%N) ∨ (checked_count n max = Err limit_error ∧ (max < n + 1)%N).
Proof.
  intros Hmax. unfold checked_count, checked_add. destruct (N.leb_spec (n + 1) USIZE_MAX); simpl.
  - destruct (N.ltb_spec max (n + 1)); [by right|by left].
  - right. split; [done|lia].
Qed.

Lemma push_all_permutation d l stack : push_all d l stack ≡ₚ ((fun e => (e, d)) <$> l) ++ stack.
Proof. unfold push_all. by rewrite reverse_Permutation. Qed.

Lemma push_entries_spec d entries : ∀ stack,
  match try_fold (push_entry d) entries stack with
  | Ok stack' => Forall (fun entry => match entry with EntryMap _ _ false => True | _ => False end) entries ∧
                 stack' ≡ₚ ((fun e => (e, d)) <$> children (XMap entries)) ++ stack
  | Err _ => ¬ Forall (fun entry => match entry with EntryMap _ _ false => True | _ => False end) entries
  end.
Proof.
  induction entries as [|entry entries IH]; intros stack; simpl; [by split; [constructor|]|].
  destruct entry as [key value []|]; simpl; [by intros Hall; inv Hall| |by intros Hall; inv Hall].
  specialize (IH ((value, d) :: (key, d) :: stack)). destruct (try_fold _ _ _) as [stack'|e].
  - destruct IH as [Hall Hp]. split; [by constructor|]. rewrite Hp. simpl. solve_Permutation.
  - intros Hall. inv Hall. done.
Qed.

Lemma push_children_spec limits e d stack s :
  limits_countable limits → ast_stats_ok limits s →
  match push_children limits e d stack s with
  | Ok (stack', s') => node_shape limits e ∧ stack' ≡ₚ ((fun e => (e, d)) <$> children e) ++ stack ∧
                       s' = counted s e ∧ ast_stats_ok limits s'
  | Err _ => ¬ (node_shape limits e ∧ ast_stats_ok limits (counted s e))
  end.
Proof.
  intros (_ & Hi & Hl & Hc & _) Hs. destruct s as [n i l c]. unfold counted, own, ast_stats_ok in *. simpl in *.
  destruct e as [| |name|v|elements|entries|operand field test|f target args|]; simpl; rewrite ?N.add_0_r; try tauto.
  - destruct (checked_count_spec i _ Hi) as [[-> Hle]|[-> Hlt]]; simpl; [intuition|intros (_ & _ & ? & _); lia].
  - destruct (checked_count_spec l _ Hl) as [[-> Hle]|[-> Hlt]]; simpl; [intuition|intros (_ & _ & _ & ? & _); lia].
  - unfold bound_items. destruct (N.ltb_spec (cl_literal_collection_items limits) (len elements)); simpl; [intros [? _]; lia|].
    split_and!; [done|apply push_all_permutation|done|tauto..].
  - unfold bound_items. destruct (N.ltb_spec (cl_literal_collection_items limits) (len entries)); simpl; [intros [[? _] _]; lia|].
    pose proof (push_entries_spec d entries stack) as Hp. destruct (try_fold _ _ _); simpl; [|tauto].
    destruct Hp as [Hall Hp]. split_and!; [done|done|done|done|tauto..].
  - split_and!; [done|done|done|tauto..].
  - split_and!; [done| |done|tauto..]. rewrite push_all_permutation. destruct target; simpl; [|done].
    by rewrite <-Permutation_middle.
  - destruct (checked_count_spec c _ Hc) as [[-> Hle]|[-> Hlt]]; simpl; [|intros (_ & _ & _ & _ & ?); lia].
    split_and!; [done|apply (push_all_permutation d [_; _; _; _; _])|done|tauto..].
Qed.

(** What is left of the limits for the expressions on the stack. *)
Definition stack_within (limits : ConditionLimits) (s : AstStats) (stack : list (Expr * N)) : Prop :=
  ast_stats_ok limits (with_stack s stack) ∧
  ∀ e d, (e, d) ∈ stack → (d + expr_depth e <= limits.(cl_ast_depth) + 1)%N ∧ expr_shape limits e.

#[local] Instance stack_within_perm limits s : Proper ((≡ₚ) ==> iff) (stack_within limits s).
Proof. intros l k Hp. unfold stack_within, with_stack. by setoid_rewrite Hp. Qed.

(** Taking one expression off the stack. *)
Lemma stack_within_cons limits s e d stack :
  stack_within limits s ((e, d) :: stack) ↔
  (d <= limits.(cl_ast_depth))%N ∧ node_shape limits e ∧
  stack_within limits (counted (mkAstStats (s.(as_nodes) + 1) s.(as_identifiers) s.(as_literals) s.(as_comprehensions)) e)
    (((fun e => (e, (d + 1)%N)) <$> children e) ++ stack).
Proof.
  unfold stack_within, ast_stats_ok, with_stack, counted. cbn [as_nodes as_identifiers as_literals as_comprehensions].
  rewrite !ast_total_app, !total_children. cbn [total foldr fst]. fold (total (fun _ => true) stack) (total is_identifier stack)
    (total is_literal stack) (total is_comprehension stack).
  rewrite !(expr_count_eq _ e). fold (own true) (own (is_identifier e)) (own (is_literal e)) (own (is_comprehension e)).
  rewrite !N.add_assoc. change (own true) with 1%N.
  assert (Hd : (∀ e0 d0, (e0, d0) ∈ (e, d) :: stack → (d0 + expr_depth e0 <= cl_ast_depth limits + 1)%N ∧ expr_shape limits e0) ↔
    (d <= cl_ast_depth limits)%N ∧ node_shape limits e ∧
    ∀ e0 d0, (e0, d0) ∈ ((fun e => (e, (d + 1)%N)) <$> children e) ++ stack →
      (d0 + expr_depth e0 <= cl_ast_depth limits + 1)%N ∧ expr_shape limits e0).
  { setoid_rewrite elem_of_cons. setoid_rewrite elem_of_app. setoid_rewrite list_elem_of_fmap. split.
    - intros Hall. destruct (Hall e d) as [He Hs]; [by left|]. apply expr_depth_children in He as [Hle Hc].
      apply everywhere_children in Hs as [Hn Hs]. split_and!; [done..|]. intros e0 d0 [(x & [= -> ->] & Hx)|Hin]; [|by apply Hall; right].
      split; [by apply Hc|by apply Hs].
    - intros (Hle & Hn & Hall) e0 d0 [[= -> ->]|Hin]; [|by apply Hall; right].
      unfold expr_shape. rewrite expr_depth_children, everywhere_children. split; split; [done| |done|];
        intros x Hx; eapply (Hall x (d + 1)%N); left; by exists x. }
  rewrite Hd. tauto.
Qed.

Lemma stack_within_le limits s stack : stack_within limits s stack → ast_stats_ok limits s.
Proof. intros [(? & ? & ? & ?) _]. unfold ast_stats_ok, with_stack in *. simpl in *. lia. Qed.

Lemma stack_within_nil limits s : ast_stats_ok limits s → stack_within limits s [].
Proof. intros Hs. split; [|set_solver]. unfold ast_stats_ok, with_stack, total in *. simpl. by rewrite !N.add_0_r. Qed.

Definition stack_nodes (stack : list (Expr * N)) : nat := foldr (fun x n => expr_nodes x.1 + n) 0 stack.

Lemma stack_nodes_app l k : stack_nodes (l ++ k) = stack_nodes l + stack_nodes k.
Proof. induction l as [|x l IH]; simpl; [done|]. rewrite IH. lia. Qed.

#[local] Instance stack_nodes_perm : Proper ((≡ₚ) ==> eq) stack_nodes.
Proof. intros l k Hp. unfold stack_nodes. induction Hp; simpl; lia. Qed.

Lemma validate_ast_loop_exact limits fuel : ∀ stack s,
  limits_countable limits → ast_stats_ok limits s → stack_nodes stack ≤ fuel →
  ∃ r, validate_ast_loop limits fuel stack s = Some r ∧ (r = Ok () ↔ stack_within limits s stack).
Proof.
  induction fuel as [|fuel IH]; intros [|[e d] stack] s Hlim Hs Hf.
  - exists (Ok ()). split; [done|]. split; [intros _|done]. by apply stack_within_nil.
  - unfold stack_nodes in Hf. simpl in Hf. rewrite expr_nodes_eq in Hf. lia.
  - exists (Ok ()). split; [done|]. split; [intros _|done]. by apply stack_within_nil.
  - setoid_rewrite stack_within_cons. cbn [validate_ast_loop].
    destruct (checked_count_spec s.(as_nodes) limits.(cl_ast_nodes)) as [[-> Hn]|[-> Hn]]; [apply Hlim| |].
    2: { exists (Err limit_error). split; [done|]. split; [done|]. intros (_ & _ & [Hle _]%stack_within_le). simpl in Hle. lia. }
    simpl. destruct (N.ltb_spec limits.(cl_ast_depth) d).
    { exists (Err limit_error). split; [done|]. split; [done|]. lia. }
    assert (checked_add USIZE_MAX d 1 = Some (d + 1)%N) as ->.
    { unfold checked_add. destruct (N.leb_spec (d + 1) USIZE_MAX); [done|]. destruct Hlim as (_ & _ & _ & _ & Hd). lia. }
    simpl. set (s1 := mkAstStats (as_nodes s + 1) (as_identifiers s) (as_literals s) (as_comprehensions s)).
    assert (Hs1 : ast_stats_ok limits s1) by (unfold ast_stats_ok in *; simpl; tauto).
    pose proof (push_children_spec limits e (d + 1)%N stack s1 Hlim Hs1) as Hp.
    destruct (push_children limits e (d + 1)%N stack s1) as [[stack' s']|error].
    + destruct Hp as (Hn' & Hperm & -> & Hs'). destruct (IH stack' (counted s1 e) Hlim Hs') as (r & Hr & Hiff).
      * rewrite Hperm, stack_nodes_app. unfold stack_nodes in Hf |- *. rewrite foldr_fmap. simpl in Hf |- *. rewrite expr_nodes_eq in Hf. lia.
      * exists r. split; [done|]. rewrite Hiff, Hperm. tauto.
    + exists (Err error). split; [done|]. split; [done|]. intros (_ & Hn' & Hw%stack_within_le). by destruct Hp.
Qed.

(** The loop ends, and accepts exactly the trees within the limits. *)
Lemma validate_ast_exact limits e :
  limits_countable limits →
  ∃ r, validate_ast_shape e limits = Some r ∧ (r = Ok () ↔ ast_within limits e).
Proof.
  intros Hlim. destruct (validate_ast_loop_exact limits (expr_nodes e) [(e, 1%N)] (mkAstStats 0 0 0 0)) as (r & Hr & Hiff).
  - done.
  - unfold ast_stats_ok. simpl. lia.
  - unfold stack_nodes. simpl. lia.
  - exists r. split; [done|]. rewrite Hiff. unfold stack_within, ast_within, ast_stats_ok, with_stack, total. simpl.
    rewrite !N.add_0_r. setoid_rewrite list_elem_of_singleton. split.
    + intros [? Hall]. destruct (Hall e 1%N eq_refl). intuition lia.
    + intros (? & ? & ? & ? & ? & ?). split; [tauto|]. intros e0 d0 [= -> ->]. split; [lia|done].
Qed.
