(* ===== verification/CelSemantics.v ===== *)
(** * The meaning of condition expressions

    A recursive evaluator of the parser's syntax trees, over the metered
    operations of [CelOps]: what the compiled frame machine is proved to compute.
    A local variable is looked up in the scopes of the enclosing comprehensions;
    a name that none of them declares is a parameter. *)

From S2P Require Import Prelude Ordered Identifier Reference Scalars Context Condition CelValue CelOps.
From S2P Require Import CelMachine CelCompiler.
From Stdlib Require Import ZArith.

(** The failure of a computation as its value. *)
Definition c_try {A} (c : C A) : C (result EvaluationError A) := fun s =>
  let '(s, r) := c s in (s, Ok r).

Section semantics.
Context `{Jiff}.
Variable compiled : CelCondition.
Variable maximum_cost : N.
Variable poll : nat → bool.
Variable parameter_values : BTreeMap ParameterName RuntimeValue.

Abbreviation check := (check_cancellation poll).
Abbreviation charge := (charge_one maximum_cost poll).

Definition literal_value (v : Val) : RuntimeValue :=
  match v with
  | ValNull => VNull
  | ValBoolean b => VBool b
  | ValInt z => VInt z
  | ValUInt n => VUint n
  | ValDouble x => VDouble x
  | ValString s => VString s
  | ValBytes b => VBytes b
  end.

(** A name: the innermost local of that name, or the parameter. *)
Definition name_value (declared : list rstr) (scopes : list Scope) (name : rstr) : result EvaluationError RuntimeValue :=
  match find_local name scopes with
  | Some v => Ok v
  | None =>
      if bool_decide (name ∈ declared) then Err invalid_state
      else match bt_get (K:=ParameterName) name compiled.(cel_parameters) with
           | None => Err invalid_state
           | Some _ => Ok (default (VUnknown [name]) (bt_get (K:=ParameterName) name parameter_values))
           end
  end.

(** [and] is the value that does not decide the operator.  A decided operand
    wins over a failure of the other one. *)
Definition logical (l r : C RuntimeValue) (and : bool) : C RuntimeValue :=
  lv ← c_try l;
  match lv with
  | Ok (VBool b) => if negb (eqb b and) then mret (VBool b) else r
  | Ok (VUnknown unknown) =>
      rv ← r;
      match rv with
      | VBool b => mret (if negb (eqb b and) then VBool b else VUnknown unknown)
      | VUnknown other => mret (VUnknown (bs_extend unknown other))
      | _ => c_fail type_mismatch
      end
  | Ok _ => c_fail type_mismatch
  | Err error =>
      if is_suppressible error then
        rv ← c_try r;
        match rv with
        | Ok (VBool b) => if negb (eqb b and) then mret (VBool b) else c_fail error
        | Ok (VUnknown _) => c_fail error
        | Ok _ => c_fail type_mismatch
        | Err other => c_fail (if is_suppressible other then error else other)
        end
      else c_fail error
  end.

Definition conditional_value (condition truthy falsy : C RuntimeValue) : C RuntimeValue :=
  c ← condition;
  match c with
  | VBool true => truthy
  | VBool false => falsy
  | VUnknown unknown => mret (VUnknown unknown)
  | _ => c_fail type_mismatch
  end.

(** The elements of a list literal after [values]. *)
Definition list_literal {A} (eval : A → C RuntimeValue) : list A → list RuntimeValue → C RuntimeValue :=
  fix go elements values :=
    match elements with
    | [] =>
        charge_units maximum_cost poll 10;;
        mret match collect_unknowns values with Some unknown => VUnknown unknown | None => VList values end
    | e :: elements =>
        check;;
        v ← eval e;
        if (compiled.(runtime_collection_items) <=? len values)%N then c_fail value_limit_exceeded
        else go elements (values ++ [v])
    end.

(** The entries of a map literal after [values]. *)
Definition map_literal {A} (key value : A → C RuntimeValue) : list A → list (rstr * RuntimeValue) → C RuntimeValue :=
  fix go entries values :=
    match entries with
    | [] =>
        charge_units maximum_cost poll 30;;
        mret match collect_unknowns values.*2 with
             | Some unknown => VUnknown unknown
             | None => VMap (sort_entries values)
             end
    | entry :: entries =>
        check;;
        k ← key entry;
        match k with
        | VString k =>
            v ← value entry;
            distinct_key poll k values;;
            if is_unknown v then mret v
            else
              c_lift (accept_entry compiled k values);;
              go entries (values ++ [(k, v)])
        | VUnknown unknown => mret (VUnknown unknown)
        | _ => c_fail type_mismatch
        end
    end.

(** The arguments of a call after [values], then the call. *)
Definition call_value {A} (function : Function) (target : bool) (eval : A → C RuntimeValue) :
    list A → list RuntimeValue → C RuntimeValue :=
  fix go args values :=
    match args with
    | [] => call_function maximum_cost poll function target values
    | e :: args => v ← eval e; go args (values ++ [v])
    end.

(** The variables of one iteration in its scope. *)
Definition bind_scope (var : rstr) (var2 : option rstr) (accu : rstr) (item : RuntimeValue * option RuntimeValue)
    (accumulator : RuntimeValue) (scope : Scope) : Scope :=
  let scope := bt_insert var item.1 scope in
  let scope := match var2, item.2 with Some name, Some value => bt_insert name value scope | _, _ => scope end in
  bt_insert accu accumulator scope.

(** The iterations over [items]; [cond], [step] and [result] take the scope. *)
Definition comprehension_loop (var : rstr) (var2 : option rstr) (accu : rstr) (cond step result : Scope → C RuntimeValue) :
    list (RuntimeValue * option RuntimeValue) → RuntimeValue → Scope → C RuntimeValue :=
  fix go items accumulator scope :=
    match items with
    | [] => result (bt_insert accu accumulator scope)
    | item :: items =>
        check;;
        let scope := bind_scope var var2 accu item accumulator scope in
        c ← cond scope;
        match c with
        | VBool true => a ← step scope; go items a scope
        | VBool false => result (bt_insert accu accumulator scope)
        | VUnknown unknown => mret (VUnknown unknown)
        | _ => c_fail type_mismatch
        end
    end.

Definition comprehension_value (var : rstr) (var2 : option rstr) (accu : rstr) (range init : C RuntimeValue)
    (cond step result : Scope → C RuntimeValue) : C RuntimeValue :=
  r ← range;
  match r with
  | VUnknown unknown => mret (VUnknown unknown)
  | _ =>
      match range_items r with
      | None => c_fail type_mismatch
      | Some items => a ← init; comprehension_loop var var2 accu cond step result items a []
      end
  end.

Fixpoint denote (declared : list rstr) (scopes : list Scope) (e : Expr) : C RuntimeValue :=
  check;;
  match e with
  | XLiteral v => c_lift (validate_runtime_value compiled (literal_value v));; mret (literal_value v)
  | XIdent name => charge;; c_lift (name_value declared scopes name)
  | XList elements => list_literal (denote declared scopes) elements []
  | XMap entries =>
      map_literal
        (fun entry => match entry with EntryMap key _ _ => denote declared scopes key | EntryField => c_fail invalid_state end)
        (fun entry => match entry with EntryMap _ value _ => denote declared scopes value | EntryField => c_fail invalid_state end)
        entries []
  | XSelect operand field test =>
      v ← denote declared scopes operand;
      charge;;
      select poll field test v
  | XCall (FOperator OLogicalAnd) _ [l; r] => logical (denote declared scopes l) (denote declared scopes r) true
  | XCall (FOperator OLogicalOr) _ [l; r] => logical (denote declared scopes l) (denote declared scopes r) false
  | XCall (FOperator OConditional) _ [condition; truthy; falsy] =>
      conditional_value (denote declared scopes condition) (denote declared scopes truthy) (denote declared scopes falsy)
  | XCall (FOperator operator) _ args =>
      match unary_of operator, binary_of operator, args with
      | Some operator, _, [operand] =>
          v ← denote declared scopes operand;
          charge;;
          c_lift (apply_unary operator v)
      | None, Some operator, [l; r] =>
          lv ← denote declared scopes l;
          rv ← denote declared scopes r;
          apply_binary compiled maximum_cost poll operator lv rv
      | _, _, _ => c_fail invalid_state
      end
  | XCall (FFunction name) target args =>
      match function_named name (bool_decide (is_Some target)) with
      | None => c_fail invalid_state
      | Some function =>
          match target with
          | Some e =>
              v ← denote declared scopes e;
              call_value function true (denote declared scopes) args [v]
          | None => call_value function false (denote declared scopes) args []
          end
      end
  | XComprehension range var var2 accu init cond step result =>
      let inside e scope := denote (var :: accu :: declared) (scope :: scopes) e in
      comprehension_value var var2 accu (denote declared scopes range) (denote declared scopes init)
        (inside cond) (inside step) (inside result)
  | XUnspecified | XStruct => c_fail invalid_state
  end.

(** The outcome of a condition whose expression is [e]. *)
Definition expression_outcome (e : Expr) (s : CelMeter) : result EvaluationError ConditionOutcome :=
  match denote [] [] e s with
  | (s, Ok (VBool b)) => Ok (mkConditionOutcome b s.(meter_cost))
  | (_, Ok (VUnknown parameters)) => Err (missing_error (len parameters))
  | (_, Ok _) => Err invalid_state
  | (_, Err error) => Err error
  end.

End semantics.
