(* ===== verification/CelBounds.v ===== *)
(** * Runtime values stay within their limits

    No collection a condition handles has more elements than
    [runtime_collection_items]: parameters are measured before they are
    converted, literals and sums while they are built. *)

From S2P Require Import Prelude Ordered Identifier Reference Scalars Context Condition CelValue CelOps.
From S2P Require Import CelMachine CelCompiler CelSemantics.
From Stdlib Require Import ZArith.

(** ** Metered computations *)

Lemma c_bind_eq {A B} (c : C A) (f : A → C B) s :
  (c ≫= f) s = match c s with (s, Ok a) => f a s | (s, Err e) => (s, Err e) end.
Proof. done. Qed.

(** A value a computation can return. *)
Definition returns {A} (c : C A) (a : A) : Prop := ∃ s s', c s = (s', Ok a).

Lemma returns_bind {A B} (c : C A) (f : A → C B) b : returns (c ≫= f) b → ∃ a, returns c a ∧ returns (f a) b.
Proof.
  intros (s & s' & E). rewrite c_bind_eq in E. destruct (c s) as [s1 [a|e]] eqn:Ec; [|done]. exists a.
  split; [by exists s, s1|by exists s1, s'].
Qed.

Lemma returns_ret {A} (a b : A) : returns (mret a : C A) b → b = a.
Proof. intros (s & s' & [= -> ->]). done. Qed.

Lemma returns_fail {A} e (a : A) : ¬ returns (c_fail e) a.
Proof. by intros (s & s' & E). Qed.

Lemma returns_lift {A} (r : result EvaluationError A) a : returns (c_lift r) a → r = Ok a.
Proof. intros (s & s' & [= _ E]). done. Qed.

Lemma returns_try {A} (c : C A) a : returns (c_try c) (Ok a) → returns c a.
Proof. intros (s & s' & E). unfold c_try in E. destruct (c s) as [s1 r] eqn:Ec. simplify_eq. by exists s, s'. Qed.

(** ** Small values *)

Section small.
Variable items : N.

Fixpoint small (v : RuntimeValue) : Prop :=
  match v with
  | VList l => (len l <= items)%N ∧ foldr (fun v => and (small v)) True l
  | VMap m => (len m <= items)%N ∧ foldr (fun e => and (small e.2)) True m
  | _ => True
  end.

Fixpoint context_small (v : ContextValue) : Prop :=
  match v with
  | CVList l => (len l <= items)%N ∧ foldr (fun v => and (context_small v)) True l
  | CVMap m => (len m <= items)%N ∧ foldr (fun e => and (context_small e.2)) True m
  | _ => True
  end.

Lemma small_list l : small (VList l) ↔ (len l <= items)%N ∧ ∀ v, v ∈ l → small v.
Proof. simpl. by rewrite foldr_and_elem. Qed.

Lemma small_map m : small (VMap m) ↔ (len m <= items)%N ∧ ∀ e, e ∈ m → small e.2.
Proof. simpl. by rewrite (foldr_and_elem (fun e => small e.2)). Qed.

Lemma entry_get_small k m v : small (VMap m) → entry_get k m = Some v → small v.
Proof.
  intros [_ Hm]%small_map Hg. cut (∃ k', (k', v) ∈ m); [intros [k' Hk]; by apply (Hm (k', v))|].
  clear Hm. unfold entry_get in Hg. induction m as [|[k' w] m IH]; simpl in Hg; [done|].
  destruct (cmp k k'); simplify_eq.
  - exists k'. set_solver.
  - destruct (IH Hg) as [k2 Hk]. exists k2. set_solver.
  - destruct (IH Hg) as [k2 Hk]. exists k2. set_solver.
Qed.

Lemma lookup_small l i v : small (VList l) → l !! i = Some v → small v.
Proof. intros [_ Hl]%small_list Hi. by eapply Hl, list_elem_of_lookup_2. Qed.

End small.

(** ** Operations *)

Section operations.
Context `{Jiff}.
Variable compiled : CelCondition.
Variable maximum_cost : N.
Variable poll : nat → bool.

Abbreviation small := (small compiled.(runtime_collection_items)).

(** Values without elements. *)
Definition scalar (v : RuntimeValue) : Prop := match v with VList _ | VMap _ => False | _ => True end.

Lemma scalar_small v : scalar v → small v.
Proof. by destruct v. Qed.

Lemma apply_unary_scalar operator v w : apply_unary operator v = Ok w → scalar w.
Proof. destruct operator, v; simpl; intros E; simplify_eq/=; try done. by case_match; simplify_eq. Qed.

Lemma ok_or_fmap_ok {E A B} (f : A → B) (o : option A) (e : E) b : ok_or (f <$> o) e = Ok b → ∃ a, b = f a.
Proof. destruct o; intros [= <-]. by eexists. Qed.

Lemma checked_i64_scalar z v : checked_i64 z = Ok v → scalar v.
Proof. unfold checked_i64. case_match; naive_solver. Qed.

Lemma checked_u64_scalar o v : checked_u64 o = Ok v → scalar v.
Proof. by intros [a ->]%ok_or_fmap_ok. Qed.

Lemma finite_scalar x v : finite x = Ok v → scalar v.
Proof. unfold finite. case_match; naive_solver. Qed.

Lemma ordered_scalar l r p v : ordered l r p = Ok v → scalar v.
Proof. by intros [a ->]%ok_or_fmap_ok. Qed.

Create HintDb scalar.
#[local] Hint Resolve checked_i64_scalar checked_u64_scalar finite_scalar ordered_scalar : scalar.

Lemma arithmetic_scalar l r v :
  subtract l r = Ok v ∨ multiply l r = Ok v ∨ divide l r = Ok v ∨ modulo l r = Ok v → scalar v.
Proof.
  unfold subtract, multiply, divide, modulo.
  intros [E|[E|[E|E]]]; destruct l, r; try done; repeat case_match; try done; eauto with scalar.
Qed.

Lemma add_small l r v : small l → small r → returns (add compiled poll l r) v → small v.
Proof.
  intros Hl Hr. destruct l, r; simpl; try (by intros []%returns_fail).
  - intros E%returns_lift. apply scalar_small. eauto with scalar.
  - intros E%returns_lift. apply scalar_small. eauto with scalar.
  - intros E%returns_lift. apply scalar_small. eauto with scalar.
  - intros ([] & _ & ([] & _ & ->%returns_ret)%returns_bind)%returns_bind. done.
  - intros ([] & _ & ([] & _ & ->%returns_ret)%returns_bind)%returns_bind. done.
  - intros ([] & Hb%returns_lift & ([] & _ & ->%returns_ret)%returns_bind)%returns_bind.
    apply small_list in Hl as [_ Hl], Hr as [_ Hr]. apply small_list. split; [|set_solver].
    apply result_bind_ok in Hb as (total & (Hadd & _)%ok_or_ok%checked_add_Some & Hmax). case_match eqn:Hlt; [done|].
    apply N.ltb_ge in Hlt. unfold len in *. rewrite length_app. lia.
Qed.

Lemma index_small l r v : small l → returns (index poll l r) v → small v.
Proof.
  intros Hl. destruct l, r; simpl; try (by intros []%returns_fail).
  - intros E%returns_lift%ok_or_ok. case_match; [|done]. by eapply lookup_small.
  - intros E%returns_lift%ok_or_ok. by eapply lookup_small.
  - intros ([] & _ & E%returns_lift%ok_or_ok)%returns_bind. by eapply entry_get_small.
Qed.

Lemma member_of_scalar n values v : returns (member_of poll n values) v → scalar v.
Proof.
  induction values as [|w values IH]; simpl; [by intros ->%returns_ret|].
  intros ([] & _ & ([] & _ & E)%returns_bind)%returns_bind; [by apply returns_ret in E as ->|auto].
Qed.

Lemma membership_scalar l r v : returns (membership poll l r) v → scalar v.
Proof.
  destruct r; simpl; try (by intros []%returns_fail); [apply member_of_scalar|].
  destruct l; try (by intros []%returns_fail). by intros ([] & _ & ->%returns_ret)%returns_bind.
Qed.

Lemma apply_binary_small operator l r v :
  small l → small r → returns (apply_binary compiled maximum_cost poll operator l r) v → small v.
Proof.
  intros Hl Hr ([] & _ & E)%returns_bind. destruct (merge_unknown l r); [by apply returns_ret in E as ->|].
  destruct operator; try (apply returns_lift in E; apply scalar_small; by eauto using arithmetic_scalar with scalar).
  - exact (add_small _ _ _ Hl Hr E).
  - by apply returns_bind in E as (b & _ & ->%returns_ret).
  - by apply returns_bind in E as (b & _ & ->%returns_ret).
  - by eapply scalar_small, membership_scalar.
  - exact (index_small _ _ _ Hl E).
Qed.

Lemma select_small field test v w : small v → returns (select poll field test v) w → small w.
Proof.
  intros Hv. destruct v; simpl; try (by intros []%returns_fail); [by intros ->%returns_ret|].
  intros ([] & _ & E)%returns_bind. destruct test; [by apply returns_ret in E as ->|].
  apply returns_lift, ok_or_ok in E. by eapply entry_get_small.
Qed.

Lemma cast_scalar v w :
  size v = Ok w ∨ cast_int v = Ok w ∨ cast_uint v = Ok w ∨ cast_double v = Ok w ∨ cast_string v = Ok w → scalar w.
Proof.
  intros [E|[E|[E|[E|E]]]].
  - destruct v; simplify_eq/=; eauto with scalar.
  - destruct v; simpl in E; try (by simplify_eq); try (by apply ok_or_fmap_ok in E as [? ->]);
      [by case_match; simplify_eq|by apply result_fmap_ok in E as (? & -> & _)].
  - destruct v; simpl in E; try (by simplify_eq); try (by apply ok_or_fmap_ok in E as [? ->]);
      [by case_match; simplify_eq|by apply result_fmap_ok in E as (? & -> & _)].
  - apply result_bind_ok in E as (x & _ & E). eauto with scalar.
  - by apply result_bind_ok in E as (x & _ & [= <-]).
Qed.

Lemma call_function_scalar function target values v :
  returns (call_function maximum_cost poll function target values) v → scalar v.
Proof.
  intros ([] & _ & E%returns_lift)%returns_bind. unfold apply_function in E. case_match; [by simplify_eq|].
  apply result_bind_ok in E as ([receiver arguments] & _ & E).
  repeat case_match; try done; try (by simplify_eq);
    try (by apply result_fmap_ok in E as (? & -> & _)); eapply cast_scalar; by eauto.
Qed.

End operations.

(** ** Expressions *)

Section expressions.
Context `{Jiff}.
Variable compiled : CelCondition.
Variable maximum_cost : N.
Variable poll : nat → bool.
Variable parameter_values : BTreeMap ParameterName RuntimeValue.

Abbreviation small := (small compiled.(runtime_collection_items)).
Abbreviation denote := (denote compiled maximum_cost poll parameter_values).

(** Every value the computation returns is small. *)
Definition returns_small (c : C RuntimeValue) : Prop := ∀ v, returns c v → small v.
Definition scope_small (scope : Scope) : Prop := ∀ k v, bt_get k scope = Some v → small v.

Hypothesis parameters_small : ∀ k v, bt_get k parameter_values = Some v → small v.

Lemma find_local_small scopes k v : Forall scope_small scopes → find_local k scopes = Some v → small v.
Proof. induction 1 as [|scope scopes Hs _ IH]; simpl; [done|]. case_match eqn:E; [|done]. intros ?; simplify_eq. by eapply Hs. Qed.

Lemma insert_small scope k v : scope_small scope → small v → scope_small (bt_insert k v scope).
Proof.
  intros Hs Hv k' w. destruct (decide (k' = k)) as [->|Hne]; [rewrite bt_get_insert_eq|rewrite bt_get_insert_ne by done].
  - by intros [= <-].
  - apply Hs.
Qed.

Lemma returns_small_check c : returns_small c → returns_small (check_cancellation poll;; c).
Proof. intros Hc v ([] & _ & E)%returns_bind. by apply Hc. Qed.

Lemma list_literal_small {A} (eval : A → C RuntimeValue) es : ∀ values,
  Forall (fun e => returns_small (eval e)) es → small (VList values) →
  returns_small (list_literal compiled maximum_cost poll eval es values).
Proof.
  induction es as [|e es IH]; intros values Hall Hv; simpl; [|apply returns_small_check].
  - intros v ([] & _ & ->%returns_ret)%returns_bind. by case_match.
  - inv Hall. intros v (w & Hw & E)%returns_bind. case_match eqn:El; [by apply returns_fail in E|].
    revert v E. apply IH; [done|]. apply small_list in Hv as [_ Hv]. apply small_list.
    apply N.leb_gt in El. unfold len in *. rewrite length_app. simpl. split; [lia|]. set_solver.
Qed.

Lemma map_literal_small {A} (key value : A → C RuntimeValue) es : ∀ values,
  Forall (fun e => returns_small (value e)) es → small (VMap values) →
  returns_small (map_literal compiled maximum_cost poll key value es values).
Proof.
  induction es as [|e es IH]; intros values Hall Hv; simpl; [|apply returns_small_check].
  - intros v ([] & _ & ->%returns_ret)%returns_bind. case_match; [done|]. apply small_map in Hv. apply small_map.
    unfold sort_entries, len in *. setoid_rewrite sort_by_permutation. done.
  - inv Hall. intros v (w & _ & E)%returns_bind. destruct w; try (by apply returns_fail in E); [by apply returns_ret in E as ->|].
    apply returns_bind in E as (w & Hw & ([] & _ & E)%returns_bind). case_match; [apply returns_ret in E as ->; auto|].
    apply returns_bind in E as ([] & Ha%returns_lift & E). unfold accept_entry in Ha. case_match eqn:El; [done|].
    apply orb_false_iff in El as [El%N.leb_gt _]. revert v E. apply IH; [done|]. apply small_map in Hv as [_ Hv]. apply small_map.
    unfold len in *. rewrite length_app. simpl. split; [lia|]. intros x [Hx| ->%list_elem_of_singleton]%elem_of_app; auto.
Qed.

Lemma call_value_small {A} function target (eval : A → C RuntimeValue) args : ∀ values,
  returns_small (call_value maximum_cost poll function target eval args values).
Proof.
  induction args as [|e args IH]; intros values v; simpl; [by intros Hv%call_function_scalar%(scalar_small compiled)|].
  intros (w & _ & E)%returns_bind. by eapply IH.
Qed.

Lemma logical_small l r and : returns_small l → returns_small r → returns_small (logical l r and).
Proof.
  intros Hl Hr v (lv & Hlv & E)%returns_bind. destruct lv as [[]|e]; try (by apply returns_fail in E).
  - apply returns_bind in E as (rv & Hrv & E). destruct rv; try (by apply returns_fail in E); apply returns_ret in E as ->; [done|].
    by case_match.
  - case_match; [by apply returns_ret in E as ->|auto].
  - destruct (is_suppressible e); [|by apply returns_fail in E]. apply returns_bind in E as (rv & _ & E).
    destruct rv as [[]|]; try (by apply returns_fail in E). case_match; [by apply returns_ret in E as ->|by apply returns_fail in E].
Qed.

Lemma loop_small var var2 accu cond step result items : ∀ acc scope,
  (∀ scope, scope_small scope → returns_small (cond scope) ∧ returns_small (step scope) ∧ returns_small (result scope)) →
  (∀ item, item ∈ items → small item.1 ∧ ∀ w, item.2 = Some w → small w) → small acc → scope_small scope →
  returns_small (comprehension_loop poll var var2 accu cond step result items acc scope).
Proof.
  induction items as [|[x y] items IH]; intros acc scope Hc Hi Ha Hs; simpl.
  - by apply Hc, insert_small.
  - apply returns_small_check. intros v (w & _ & E)%returns_bind.
    destruct (Hi (x, y)) as [Hx Hy]; [set_solver|]. simpl in *.
    assert (Hb : scope_small (bind_scope var var2 accu (x, y) acc scope)).
    { unfold bind_scope. simpl. apply insert_small; [|done]. destruct var2, y; auto using insert_small. }
    destruct w as [| |[]| | | | | | | | | |]; try (by apply returns_fail in E); [by apply returns_ret in E as ->| |].
    + apply returns_bind in E as (a & Ha' & E). destruct (Hc _ Hb) as (_ & Hstep & _).
      eapply IH; [done| |by apply Hstep|done|exact E]. set_solver.
    + revert v E. by apply Hc, insert_small.
Qed.

Lemma range_items_small r items :
  small r → range_items r = Some items →
  (len items <= compiled.(runtime_collection_items))%N ∧ ∀ item, item ∈ items → small item.1 ∧ ∀ w, item.2 = Some w → small w.
Proof.
  destruct r; try done.
  - intros [Hlen Hl]%small_list [= <-]. unfold len in *. rewrite length_fmap. split; [done|].
    intros item (v & -> & Hv)%list_elem_of_fmap. split; [by apply Hl|done].
  - intros [Hlen Hm]%small_map [= <-]. unfold len in *. rewrite length_fmap. split; [done|].
    intros item (v & -> & Hv)%list_elem_of_fmap. split; [done|]. intros w [= <-]. by apply Hm.
Qed.

Lemma comprehension_small var var2 accu range init cond step result :
  returns_small range → returns_small init →
  (∀ scope, scope_small scope → returns_small (cond scope) ∧ returns_small (step scope) ∧ returns_small (result scope)) →
  returns_small (comprehension_value poll var var2 accu range init cond step result).
Proof.
  intros Hr Hi Hc v (r & Hret & E)%returns_bind. apply Hr in Hret. destruct (range_items r) as [items|] eqn:Er.
  - destruct (range_items_small r items Hret Er) as [_ Hitems].
    assert (E' : ∃ a, returns init a ∧ returns (comprehension_loop poll var var2 accu cond step result items a []) v)
      by (destruct r; simplify_eq/=; by apply returns_bind in E).
    destruct E' as (a & Ha & Hl). eapply (loop_small _ _ _ _ _ _ items a []); [done|done|by apply Hi|done|exact Hl].
  - destruct r; simplify_eq/=; try (by apply returns_fail in E). by apply returns_ret in E as ->.
Qed.

Lemma name_small declared scopes name v :
  Forall scope_small scopes → name_value compiled parameter_values declared scopes name = Ok v → small v.
Proof.
  intros Hs. unfold name_value. destruct (find_local name scopes) eqn:Ef; [intros [= <-]; by eapply find_local_small|].
  repeat case_match; try done. intros [= <-]. destruct (bt_get _ parameter_values) eqn:E; simpl; [by eapply parameters_small|done].
Qed.

Lemma operator_small declared scopes operator target args :
  Forall (fun e => returns_small (denote declared scopes e)) args →
  returns_small (denote declared scopes (XCall (FOperator operator) target args)).
Proof.
  intros Hall. cbn [CelSemantics.denote]. apply returns_small_check.
  assert (Hgen : returns_small
    match unary_of operator, binary_of operator, args with
    | Some operator, _, [operand] => v ← denote declared scopes operand; charge_one maximum_cost poll;; c_lift (apply_unary operator v)
    | None, Some operator, [l; r] =>
        lv ← denote declared scopes l; rv ← denote declared scopes r; apply_binary compiled maximum_cost poll operator lv rv
    | _, _, _ => c_fail invalid_state
    end).
  { repeat case_match; try (by intros v []%returns_fail); decompose_Forall_hyps.
    - intros w (v & _ & ([] & _ & E%returns_lift)%returns_bind)%returns_bind. by eapply scalar_small, apply_unary_scalar.
    - intros v (lv & Hl & (rv & Hr & E)%returns_bind)%returns_bind. eapply apply_binary_small; [| |exact E]; auto. }
  destruct operator; try exact Hgen; repeat case_match; try exact Hgen; decompose_Forall_hyps.
  all: try (by apply logical_small).
  intros v (c & _ & E)%returns_bind. destruct c as [| |[]| | | | | | | | | |]; try (by apply returns_fail in E); auto.
  by apply returns_ret in E as ->.
Qed.

Lemma denote_small e : ∀ declared scopes, Forall scope_small scopes → returns_small (denote declared scopes e).
Proof.
  induction e as [| |name|v|elements IH|entries IH|operand field test IH|func target args IHt IH|range var var2 accu init cond step result IHr IHi IHc IHs IHe]
    using expr_ind; intros declared scopes Hs.
  - apply returns_small_check. by intros v []%returns_fail.
  - apply returns_small_check. by intros v []%returns_fail.
  - apply returns_small_check. intros v ([] & _ & E%returns_lift)%returns_bind. by eapply name_small.
  - apply returns_small_check. intros w ([] & _ & ->%returns_ret)%returns_bind. by destruct v.
  - apply returns_small_check, list_literal_small; [|by apply small_list; split; [unfold len; simpl; lia|set_solver]].
    eapply Forall_impl; [exact IH|]. auto.
  - apply returns_small_check, map_literal_small; [|by apply small_map; split; [unfold len; simpl; lia|set_solver]].
    eapply Forall_impl; [exact IH|]. intros [] He; [by apply He|by intros v []%returns_fail].
  - apply returns_small_check. intros w (v & Hv & ([] & _ & E)%returns_bind)%returns_bind.
    eapply select_small; [|exact E]. by eapply IH.
  - destruct func as [operator|name]; [apply operator_small; eapply Forall_impl; [exact IH|]; auto|].
    apply returns_small_check. case_match; [|by intros v []%returns_fail]. destruct target; [|apply call_value_small].
    intros v (w & _ & E)%returns_bind. by eapply call_value_small.
  - apply returns_small_check, comprehension_small; [auto..|]. intros scope Hscope.
    split_and!; [apply IHc|apply IHs|apply IHe]; by constructor.
Qed.

End expressions.

(** ** Parameters *)

Lemma push_context_entries_ok compiled values : ∀ entries stack stack',
  push_context_entries compiled entries values stack = Ok stack' →
  stack' = reverse values.*2 ++ stack ∧
  (values = [] ∨ (entries + len values <= compiled.(runtime_collection_items))%N).
Proof.
  induction values as [|[k v] values IH]; intros entries stack stack'; simpl; [intros [= <-]; by split; [|left]|].
  intros (e' & (-> & _)%ok_or_ok%checked_add_Some & E)%result_bind_ok. case_match eqn:El; [done|].
  apply orb_false_iff in El as [El%N.ltb_ge _]. apply IH in E as [-> Hb]. rewrite reverse_cons, <-app_assoc. split; [done|right].
  unfold len in *. simpl. destruct Hb as [->|Hb]; simpl; lia.
Qed.

Section parameters.
Context `{Jiff}.
Variable compiled : CelCondition.
Variable poll : nat → bool.

Abbreviation limit := compiled.(runtime_collection_items).

Lemma charge_context_small fuel : ∀ stack,
  returns (charge_context_loop compiled poll fuel stack) () → ∀ v, v ∈ stack → context_small limit v.
Proof.
  induction fuel as [|fuel IH]; intros [|w stack]; simpl; [set_solver|by intros []%returns_fail|set_solver|].
  intros ([] & _ & E)%returns_bind. intros v [->|Hv]%elem_of_cons.
  - destruct w; try done.
    + case_match eqn:El; [by apply returns_fail in E|]. apply N.ltb_ge in El. split; [done|].
      apply foldr_and_elem. intros x Hx. eapply IH; [exact E|]. rewrite elem_of_app, elem_of_reverse. by left.
    + apply returns_bind in E as (stack' & [-> Hlen]%returns_lift%push_context_entries_ok & E). split.
      * destruct Hlen as [->|Hlen]; [unfold len; simpl|]; lia.
      * apply (foldr_and_elem (fun e => context_small limit e.2)). intros x Hx. eapply IH; [exact E|].
        rewrite elem_of_app, elem_of_reverse. left. by apply list_elem_of_fmap_2.
  - destruct w; try (by eapply IH); try (case_match; [by apply returns_fail in E|]).
    + by eapply IH.
    + by eapply IH.
    + eapply IH; [exact E|]. set_solver.
    + apply returns_bind in E as (stack' & [-> _]%returns_lift%push_context_entries_ok & E). eapply IH; [exact E|]. set_solver.
Qed.

(** Conversion keeps the shape of collections. *)
Lemma convert_list_small (f : ContextValue → result EvaluationError RuntimeValue) l l' :
  (∀ v w, v ∈ l → context_small limit v → f v = Ok w → small limit w) →
  context_small limit (CVList l) → try_collect f l = Ok l' → small limit (VList l').
Proof.
  intros Hf [Hlen Hl] E%try_collect_ok. rewrite foldr_and_elem in Hl. apply small_list.
  unfold len in *. rewrite <-(Forall2_length _ _ _ E). split; [done|].
  intros w [j Hj]%list_elem_of_lookup. destruct (Forall2_lookup_r _ _ _ _ _ E Hj) as (v & Hv & Ev).
  apply list_elem_of_lookup_2 in Hv. by eapply Hf; [exact Hv|apply Hl|].
Qed.

Lemma convert_map_small (f : ContextValue → result EvaluationError RuntimeValue) m m' :
  (∀ e w, e ∈ m → context_small limit e.2 → f e.2 = Ok w → small limit w) →
  context_small limit (CVMap m) → try_collect (convert_entry f) m = Ok m' → small limit (VMap (sort_entries m')).
Proof.
  intros Hf [Hlen Hm] E%try_collect_ok. rewrite (foldr_and_elem (fun e => context_small limit e.2)) in Hm. apply small_map.
  unfold sort_entries, len in *. setoid_rewrite sort_by_permutation. rewrite <-(Forall2_length _ _ _ E). split; [done|].
  intros e [j Hj]%list_elem_of_lookup. destruct (Forall2_lookup_r _ _ _ _ _ E Hj) as (x & Hx & Ex).
  apply list_elem_of_lookup_2 in Hx. apply result_fmap_ok in Ex as (w & -> & Ew). by eapply Hf; [exact Hx|apply Hm|].
Qed.

Lemma convert_any_small v : ∀ w, context_small limit v → convert_any v = Ok w → small limit w.
Proof.
  induction v as [|b|z|n|n|s|b|l IH|m IH] using context_value_ind; intros w Hv E; simplify_eq/=; try done.
  - apply result_fmap_ok in E as (l' & -> & E). rewrite Forall_forall in IH. eapply (convert_list_small convert_any); eauto.
  - apply result_fmap_ok in E as (m' & -> & E). rewrite Forall_forall in IH. eapply (convert_map_small convert_any); eauto.
Qed.

Fixpoint convert_kind_small (kind : ParameterTypeKind) v w :
  context_small limit v → convert_kind kind v = Ok w → small limit w
with convert_type_small (type : ParameterType) v w :
  context_small limit v → convert_type type v = Ok w → small limit w.
Proof.
  - intros Hv. destruct kind as [| | | | | | | | | |element|element]; simpl; [by apply convert_any_small|..];
      try (destruct v; try done; intros E; first [by simplify_eq|by apply result_fmap_ok in E as (? & -> & _)]).
    + destruct v; try done. intros (l' & -> & E)%result_fmap_ok.
      eapply convert_list_small; [|exact Hv|exact E]. intros v' w' _. apply convert_type_small.
    + destruct v; try done. intros (m' & -> & E)%result_fmap_ok.
      eapply convert_map_small; [|exact Hv|exact E]. intros e w' _. apply convert_type_small.
  - intros Hv. destruct type as [kind depth]. simpl. by apply convert_kind_small.
Qed.

Lemma prepare_entries_small request tuple parameters : ∀ missing values values',
  (∀ k v, bt_get k values = Some v → small limit v) →
  returns (prepare_entries compiled poll request tuple missing values parameters) values' →
  ∀ k v, bt_get k values' = Some v → small limit v.
Proof.
  induction parameters as [|[name type] parameters IH]; intros missing values values' Hv; simpl.
  - case_match; [by intros ->%returns_ret|by intros []%returns_fail].
  - destruct (parameter_value name request tuple) as [value|].
    + intros ([] & Hc & (w & Ew%returns_lift & E)%returns_bind)%returns_bind. apply map_err_ok in Ew.
      eapply IH; [|exact E]. intros k v.
      destruct (decide (k = name)) as [->|Hne]; [rewrite bt_get_insert_eq|rewrite bt_get_insert_ne by done; apply Hv].
      intros [= <-]. eapply convert_type_small, Ew. eapply charge_context_small; [exact Hc|set_solver].
    + intros (m' & _ & E)%returns_bind. by eapply IH.
Qed.

Lemma prepare_parameters_small request tuple values :
  returns (prepare_parameters compiled poll request tuple) values →
  ∀ k v, bt_get k values = Some v → small limit v.
Proof. by apply prepare_entries_small. Qed.

End parameters.
