(* ===== verification/CelLowering.v ===== *)
(** * Lowering keeps expressions

    The node table the lowerer builds represents the expression it was given:
    every node has the kind of its expression, refers to nodes before it, and
    names resolve to locals exactly where an enclosing comprehension declares
    them. *)

From S2P Require Import Prelude Ordered Identifier Reference Scalars Context Condition CelValue CelOps.
From S2P Require Import CelMachine CelCompiler CelSemantics.
From Stdlib Require Import ZArith.

(** Pairwise, by recursion on the first list. *)
Section all2.
Context {A B : Type} (P : A → B → Prop).

Fixpoint all2 (l : list A) (k : list B) : Prop :=
  match l, k with
  | [], [] => True
  | x :: l, y :: k => P x y ∧ all2 l k
  | _, _ => False
  end.

End all2.

Lemma all2_mono {A B} (P Q : A → B → Prop) l : ∀ k,
  Forall (fun x => ∀ y, P x y → Q x y) l → all2 P l k → all2 Q l k.
Proof. induction l as [|x l IH]; intros [|y k] Hall; simpl; [done..|]. inv Hall. naive_solver. Qed.

Definition kind_children (kind : NodeKind) : list CelNodeId :=
  match kind with
  | NKLiteral _ | NKParameter _ | NKLocal _ => []
  | NKList ids => ids
  | NKMap ids => ids.*1 ++ ids.*2
  | NKSelect operand _ _ | NKUnary _ operand => [operand]
  | NKBinary _ l r | NKLogicalAnd l r | NKLogicalOr l r => [l; r]
  | NKConditional condition truthy falsy => [condition; truthy; falsy]
  | NKCall _ target arguments => match target with Some id => id :: arguments | None => arguments end
  | NKComprehension d => [d.(iter_range); d.(accu_init); d.(loop_cond); d.(loop_step); d.(comprehension_result)]
  end.

Section represents.
Variable parameters : BTreeMap ParameterName ParameterType.
Variable nodes : list Node.

Abbreviation Statics := (list (BTreeMap rstr StaticType)).

(** The node at [id] has the given kind, and its operands come before it. *)
Definition has_kind (id : CelNodeId) (kind : NodeKind) : Prop :=
  node_kind <$> nodes !! id = Some kind ∧ Forall (fun child => child < id) (kind_children kind).

Definition operator_kind (operator : Operator) (ids : list CelNodeId) : option NodeKind :=
  match operator, ids with
  | OLogicalAnd, [l; r] => Some (NKLogicalAnd l r)
  | OLogicalOr, [l; r] => Some (NKLogicalOr l r)
  | OConditional, [condition; truthy; falsy] => Some (NKConditional condition truthy falsy)
  | _, [operand] => (fun u => NKUnary u operand) <$> unary_of operator
  | _, [l; r] => (fun b => NKBinary b l r) <$> binary_of operator
  | _, _ => None
  end.

Fixpoint represents (statics : Statics) (e : Expr) (id : CelNodeId) : Prop :=
  match e with
  | XLiteral v => has_kind id (NKLiteral (literal_value v))
  | XIdent name =>
      match find_static name statics with
      | Some _ => has_kind id (NKLocal name)
      | None => has_kind id (NKParameter name) ∧ is_Some (bt_get name parameters)
      end
  | XList elements => ∃ ids, has_kind id (NKList ids) ∧ all2 (represents statics) elements ids
  | XMap entries =>
      ∃ ids, has_kind id (NKMap ids) ∧
        all2 (fun entry ids =>
                match entry with
                | EntryMap key value _ => represents statics key ids.1 ∧ represents statics value ids.2
                | EntryField => False
                end) entries ids
  | XSelect operand field test => ∃ o, has_kind id (NKSelect o field test) ∧ represents statics operand o
  | XCall (FOperator operator) _ args =>
      ∃ ids kind, operator_kind operator ids = Some kind ∧ has_kind id kind ∧ all2 (represents statics) args ids
  | XCall (FFunction name) target args =>
      ∃ function target_id ids,
        function_named name (bool_decide (is_Some target)) = Some function ∧
        has_kind id (NKCall function target_id ids) ∧
        match target, target_id with
        | Some e, Some i => represents statics e i
        | None, None => True
        | _, _ => False
        end ∧
        all2 (represents statics) args ids
  | XComprehension range var var2 accu init cond step result =>
      ∃ types accu_type d,
        has_kind id (NKComprehension d) ∧ d.(iter_var) = var ∧ d.(iter_var2) = var2 ∧ d.(accu_var) = accu ∧
        represents statics range d.(iter_range) ∧ represents statics init d.(accu_init) ∧
        let inside := comprehension_scope var var2 accu types accu_type :: statics in
        represents inside cond d.(loop_cond) ∧ represents inside step d.(loop_step) ∧
        represents inside result d.(comprehension_result)
  | XUnspecified | XStruct => False
  end.

End represents.

(** ** More nodes *)

Lemma has_kind_app nodes tail id kind : has_kind nodes id kind → has_kind (nodes ++ tail) id kind.
Proof.
  intros [Hk Hc]. split; [|done]. apply fmap_Some in Hk as (node & Hn & ->).
  by rewrite (lookup_app_l_Some _ _ _ _ Hn).
Qed.

Lemma represents_app parameters nodes tail e : ∀ statics id,
  represents parameters nodes statics e id → represents parameters (nodes ++ tail) statics e id.
Proof.
  induction e as [| |name|v|elements IH|entries IH|operand field test IH|func target args IHt IH
    |range var var2 accu init cond step result IHr IHi IHc IHs IHe] using expr_ind; intros statics id; simpl.
  - done.
  - done.
  - destruct (find_static _ _); [apply has_kind_app|]. intros [? ?]. split; [by apply has_kind_app|done].
  - apply has_kind_app.
  - intros (ids & Hk & Hall). exists ids. split; [by apply has_kind_app|]. eapply all2_mono, Hall.
    eapply Forall_impl; [exact IH|]. naive_solver.
  - intros (ids & Hk & Hall). exists ids. split; [by apply has_kind_app|]. eapply all2_mono, Hall.
    eapply Forall_impl; [exact IH|]. intros [key value ?|]; naive_solver.
  - intros (o & Hk & Ho). exists o. split; [by apply has_kind_app|by apply IH].
  - destruct func as [operator|name].
    + intros (ids & kind & Hop & Hk & Hall). exists ids, kind. split_and!; [done|by apply has_kind_app|].
      eapply all2_mono, Hall. eapply Forall_impl; [exact IH|]. naive_solver.
    + intros (function & ti & ids & Hf & Hk & Ht & Hall). exists function, ti, ids.
      split_and!; [done|by apply has_kind_app| |].
      * destruct target, ti; [by apply IHt|done..].
      * eapply all2_mono, Hall. eapply Forall_impl; [exact IH|]. naive_solver.
  - intros (types & accu_type & d & Hk & Hv & Hv2 & Ha & Hr & Hi & Hc & Hs & He). exists types, accu_type, d.
    split_and!; [by apply has_kind_app|done..|by apply IHr|by apply IHi|by apply IHc|by apply IHs|by apply IHe].
Qed.

(** ** The lowering monad *)

Lemma l_bind_ok {A B} (m : L A) (f : A → L B) s b s' :
  (m ≫= f) s = Ok (b, s') ↔ ∃ a s1, m s = Ok (a, s1) ∧ f a s1 = Ok (b, s').
Proof.
  unfold mbind, L_bind. rewrite result_bind_ok. split.
  - intros ([a s1] & ? & ?). eauto.
  - intros (a & s1 & ? & ?). by exists (a, s1).
Qed.

Lemma l_ret_ok {A} (a b : A) s s' : (mret a : L A) s = Ok (b, s') ↔ a = b ∧ s = s'.
Proof. unfold mret, L_ret. naive_solver. Qed.

Lemma l_lift_ok {A} (r : result CompileError A) s a s' : l_lift r s = Ok (a, s') ↔ r = Ok a ∧ s = s'.
Proof. unfold l_lift. rewrite result_fmap_ok. naive_solver. Qed.

Lemma l_type_ok id s t s' : l_type id s = Ok (t, s') → s = s'.
Proof. unfold l_type. rewrite l_bind_ok. intros (nodes & s1 & [= <- <-] & [_ ->]%l_lift_ok). done. Qed.

(** A step that only appends one node of the kind. *)
Definition pushes (m : L CelNodeId) (kind : NodeKind) : Prop :=
  ∀ s id s', m s = Ok (id, s') →
    id = length s.(lw_nodes) ∧ ∃ t, s' = mkLowerer (s.(lw_nodes) ++ [mkNode kind t]) s.(lw_scopes).

Lemma push_node_pushes kind t : pushes (push_node kind t) kind.
Proof. intros s id s' [= <- <-]. eauto. Qed.

Lemma fail_pushes e kind : pushes (l_lift (Err e)) kind.
Proof. by intros s id s' [? _]%l_lift_ok. Qed.

(** Reading types in front of a push. *)
Lemma read_pushes {A} (m : L A) (f : A → L CelNodeId) kind :
  (∀ s a s', m s = Ok (a, s') → s = s') → (∀ a, pushes (f a) kind) → pushes (m ≫= f) kind.
Proof. intros Hm Hf s id s' (a & s1 & E & E')%l_bind_ok. apply Hm in E as <-. by eapply Hf. Qed.

Lemma lift_reads {A} (r : result CompileError A) s a s' : l_lift r s = Ok (a, s') → s = s'.
Proof. by intros [_ ?]%l_lift_ok. Qed.

Lemma nodes_reads s a s' : l_nodes s = Ok (a, s') → s = s'.
Proof. by intros [= _ ->]. Qed.

Ltac solve_pushes :=
  repeat first
    [ apply push_node_pushes
    | apply fail_pushes
    | apply read_pushes; [first [apply l_type_ok | apply lift_reads | apply nodes_reads]|intro]
    | match goal with |- pushes (if ?b then _ else _) _ => destruct b end ].

Lemma finish_unary_pushes operator operand : pushes (finish_unary operator operand) (NKUnary operator operand).
Proof. unfold finish_unary. solve_pushes. Qed.

Lemma finish_logical_pushes l r and : pushes (finish_logical l r and) (if and then NKLogicalAnd l r else NKLogicalOr l r).
Proof. unfold finish_logical. solve_pushes. Qed.

Lemma finish_conditional_pushes c t f : pushes (finish_conditional c t f) (NKConditional c t f).
Proof. unfold finish_conditional. solve_pushes. Qed.

Lemma finish_binary_pushes operator l r : pushes (finish_binary operator l r) (NKBinary operator l r).
Proof. unfold finish_binary. solve_pushes. Qed.

Lemma finish_function_pushes function name target arguments :
  pushes (finish_function function name target arguments) (NKCall function target arguments).
Proof. unfold finish_function. solve_pushes. Qed.

Lemma finish_comprehension_pushes d t : pushes (finish_comprehension d t) (NKComprehension d).
Proof. unfold finish_comprehension. solve_pushes. Qed.

Lemma lower_literal_pushes v : pushes (lower_literal v) (NKLiteral (literal_value v)).
Proof. destruct v; simpl; solve_pushes. Qed.

(** ** Lowering *)

Section lower.
Variable parameters : BTreeMap ParameterName ParameterType.

(** A lowering step from [s] to [s']: nodes are added, the scopes are kept. *)
Definition extends (s s' : Lowerer) : Prop :=
  (∃ tail, s'.(lw_nodes) = s.(lw_nodes) ++ tail) ∧ s'.(lw_scopes) = s.(lw_scopes).

Definition lowered (s s' : Lowerer) (e : Expr) (id : CelNodeId) : Prop :=
  represents parameters s'.(lw_nodes) s.(lw_scopes) e id ∧ id < length s'.(lw_nodes).

#[export] Instance extends_preorder : PreOrder extends.
Proof.
  split.
  - intros s. split; [exists []; by rewrite app_nil_r|done].
  - intros s1 s2 s3 [[t1 E1] S1] [[t2 E2] S2]. split; [|congruence]. exists (t1 ++ t2). by rewrite E2, E1, app_assoc.
Qed.

Lemma lowered_extends s s1 s' e id : lowered s s1 e id → extends s1 s' → lowered s s' e id.
Proof.
  intros [Hr Hl] [[tail E] _]. unfold lowered. rewrite E, length_app. split; [by apply represents_app|lia].
Qed.

Lemma lowered_scopes s s0 s' e id : lowered s s' e id → s0.(lw_scopes) = s.(lw_scopes) → lowered s0 s' e id.
Proof. unfold lowered. by intros ? ->. Qed.

(** Appending a node whose operands are all lowered. *)
Lemma pushes_ok m kind s id s' :
  pushes m kind → Forall (fun child => child < length s.(lw_nodes)) (kind_children kind) → m s = Ok (id, s') →
  extends s s' ∧ has_kind s'.(lw_nodes) id kind ∧ id < length s'.(lw_nodes).
Proof.
  intros Hm Hc E. apply Hm in E as (-> & t & ->). unfold extends, has_kind. simpl.
  rewrite lookup_app_r, Nat.sub_diag, length_app by done. simpl. split_and!; [eauto|done..|lia].
Qed.

(** Lowering a list of expressions. *)
Lemma l_map_lowered {A B} (f : A → L B) (R : list Node → A → B → Prop) (ok : nat → B → Prop) (l : list A) statics :
  (∀ nodes tail x y, R nodes x y → R (nodes ++ tail) x y) → (∀ n n' y, n ≤ n' → ok n y → ok n' y) →
  Forall (fun x => ∀ s y s', s.(lw_scopes) = statics → f x s = Ok (y, s') →
            extends s s' ∧ R s'.(lw_nodes) x y ∧ ok (length s'.(lw_nodes)) y) l →
  ∀ s ys s', s.(lw_scopes) = statics → l_map f l s = Ok (ys, s') →
    extends s s' ∧ all2 (R s'.(lw_nodes)) l ys ∧ Forall (ok (length s'.(lw_nodes))) ys.
Proof.
  intros HR Hok Hall. induction Hall as [|x l Hx _ IH]; intros s ys s' Hs; simpl.
  - intros [<- <-]%l_ret_ok. split_and!; [done|done|constructor].
  - intros (y & s1 & E1 & E)%l_bind_ok. apply l_bind_ok in E as (ys' & s2 & E2 & [<- <-]%l_ret_ok).
    destruct (Hx _ _ _ Hs E1) as (X1 & R1 & O1).
    destruct (IH s1 ys' s2) as (X2 & R2 & O2); [destruct X1; congruence|done|].
    split; [by etrans|]. destruct X2 as [[tail Et] _]. rewrite Et in *. split.
    + simpl. rewrite <-Et in *. split; [rewrite Et; by apply HR|done].
    + rewrite <-Et in *. constructor; [|done]. eapply Hok, O1. rewrite Et, length_app. lia.
Qed.

(** An operator: its operands in order, then one node. *)
Lemma lower_operator_ok operator target args s id s' :
  lower parameters (XCall (FOperator operator) target args) s = Ok (id, s') →
  ∃ ids s1 kind m, l_map (lower parameters) args s = Ok (ids, s1) ∧ operator_kind operator ids = Some kind ∧
    pushes m kind ∧ m s1 = Ok (id, s').
Proof.
  assert (H1 : ∀ x (f : CelNodeId → L CelNodeId) (k : CelNodeId → NodeKind), (∀ i, pushes (f i) (k i)) →
    (∀ i, operator_kind operator [i] = Some (k i)) → (i ← lower parameters x; f i) s = Ok (id, s') →
    ∃ ids s1 kind m, l_map (lower parameters) [x] s = Ok (ids, s1) ∧ operator_kind operator ids = Some kind ∧
      pushes m kind ∧ m s1 = Ok (id, s')).
  { intros x f k Hf Hk (i & s1 & E & E')%l_bind_ok. exists [i], s1, (k i), (f i).
    split_and!; [|apply Hk|apply Hf|done]. simpl. apply l_bind_ok. exists i, s1. split; [done|].
    by apply l_bind_ok; exists [], s1. }
  assert (H2 : ∀ x y (f : CelNodeId → CelNodeId → L CelNodeId) (k : CelNodeId → CelNodeId → NodeKind),
    (∀ i j, pushes (f i j) (k i j)) → (∀ i j, operator_kind operator [i; j] = Some (k i j)) →
    (i ← lower parameters x; j ← lower parameters y; f i j) s = Ok (id, s') →
    ∃ ids s1 kind m, l_map (lower parameters) [x; y] s = Ok (ids, s1) ∧ operator_kind operator ids = Some kind ∧
      pushes m kind ∧ m s1 = Ok (id, s')).
  { intros x y f k Hf Hk (i & s1 & E & (j & s2 & E2 & E3)%l_bind_ok)%l_bind_ok. exists [i; j], s2, (k i j), (f i j).
    split_and!; [|apply Hk|apply Hf|done]. simpl. apply l_bind_ok. exists i, s1. split; [done|].
    apply l_bind_ok. exists [j], s2. split; [|done]. apply l_bind_ok. exists j, s2. split; [done|].
    by apply l_bind_ok; exists [], s2. }
  destruct operator, args as [|a [|b [|c [|]]]], target; simpl; try (by intros [? _]%l_lift_ok); try done.
  all: try (eapply H1; [intros; apply finish_unary_pushes|done]).
  all: try (eapply H2; [intros; first [apply finish_logical_pushes|apply finish_binary_pushes]|done]).
  all: intros (i & s1 & E & (j & s2 & E2 & (k & s3 & E3 & E4)%l_bind_ok)%l_bind_ok)%l_bind_ok;
    exists [i; j; k], s3, (NKConditional i j k), (finish_conditional i j k);
    (split_and!; [|done|apply finish_conditional_pushes|done]);
    apply l_bind_ok; exists i, s1; (split; [done|]); apply l_bind_ok; exists [j; k], s3; (split; [|done]);
    apply l_bind_ok; exists j, s2; (split; [done|]); apply l_bind_ok; exists [k], s3; (split; [|done]);
    apply l_bind_ok; exists k, s3; (split; [done|]); by apply l_bind_ok; exists [], s3.
Qed.

(** The operands of an operator are its children. *)
Lemma operator_children operator ids kind : operator_kind operator ids = Some kind → kind_children kind = ids.
Proof.
  destruct operator, ids as [|a [|b [|c [|]]]]; simpl; intros [= <-]; done.
Qed.

Definition lowers (e : Expr) : Prop :=
  ∀ s id s', lower parameters e s = Ok (id, s') → extends s s' ∧ lowered s s' e id.

Lemma lower_list_ok elements s ids s' :
  Forall lowers elements → l_map (lower parameters) elements s = Ok (ids, s') →
  extends s s' ∧ all2 (represents parameters s'.(lw_nodes) s.(lw_scopes)) elements ids ∧
  Forall (fun id => id < length s'.(lw_nodes)) ids.
Proof.
  intros Hall E. eapply (l_map_lowered (lower parameters)
    (fun nodes => represents parameters nodes s.(lw_scopes)) (fun n id => id < n) elements s.(lw_scopes));
    [intros; by apply represents_app|intros; lia| |done|done].
  eapply Forall_impl; [exact Hall|]. intros e He s1 id s2 Hs E1. destruct (He _ _ _ E1) as [X Y].
  split; [done|]. unfold lowered in Y. by rewrite Hs in Y.
Qed.

Lemma lower_operator_lowers operator target args : Forall lowers args → lowers (XCall (FOperator operator) target args).
Proof.
  intros IH s id s' (ids & s1 & kind & m & E1 & Hop & Hm & E2)%lower_operator_ok.
  destruct (lower_list_ok _ _ _ _ IH E1) as (X1 & R1 & O1).
  destruct (pushes_ok _ _ _ _ _ Hm (eq_ind_r _ O1 (operator_children _ _ _ Hop)) E2) as (X2 & K2 & L2).
  split; [by etrans|]. split; [|done]. simpl. exists ids, kind. split_and!; [done..|].
  destruct X2 as [[tail ->] _]. eapply all2_mono, R1. apply Forall_true. intros; by apply represents_app.
Qed.

Lemma lower_function_lowers name target args :
  (∀ e, target = Some e → lowers e) → Forall lowers args → lowers (XCall (FFunction name) target args).
Proof.
  intros IHt IH s id s'. simpl. destruct (function_named _ _) as [function|] eqn:Ef; [|by intros [? _]%l_lift_ok].
  intros (ti & s1 & Et & (ids & s2 & E2 & E3)%l_bind_ok)%l_bind_ok.
  assert (Ht : extends s s1 ∧ match target, ti with
    | Some e, Some i => represents parameters s1.(lw_nodes) s.(lw_scopes) e i ∧ i < length s1.(lw_nodes)
    | None, None => True | _, _ => False end).
  { destruct target as [e|]; [|apply l_ret_ok in Et as [<- <-]; done].
    apply l_bind_ok in Et as (i & s0 & Ei & [<- <-]%l_ret_ok). by apply (IHt e eq_refl) in Ei as [X [R O]]. }
  destruct Ht as [X1 Ht]. destruct (lower_list_ok _ _ _ _ IH E2) as (X2 & R2 & O2).
  destruct (proj1 X2) as [tail2 Et2].
  assert (Hc : Forall (fun child => child < length s2.(lw_nodes)) (kind_children (NKCall function ti ids))).
  { simpl. destruct ti; [|exact O2]. constructor; [|exact O2].
    destruct target; [rewrite Et2, length_app; destruct Ht; lia|done]. }
  destruct (pushes_ok _ _ _ _ _ (finish_function_pushes _ _ _ _) Hc E3) as (X3 & K3 & L3).
  destruct (proj1 X3) as [tail3 Et3].
  split; [by do 2 etrans|]. split; [|done]. simpl. exists function, ti, ids. split_and!; [done|done| |].
  - destruct target, ti; [|done..]. rewrite Et3, Et2. apply represents_app, represents_app. by destruct Ht.
  - rewrite Et3. eapply all2_mono; [apply Forall_true; intros; by apply represents_app|].
    destruct X1 as [_ <-]. done.
Qed.

Lemma lower_map_lowers entries :
  Forall (fun e => match e with EntryMap key value _ => lowers key ∧ lowers value | EntryField => True end) entries →
  lowers (XMap entries).
Proof.
  intros IH s id s'. simpl. intros (ids & s1 & E1 & E)%l_bind_ok.
  eapply (l_map_lowered _ (fun nodes entry ids => match entry with
    | EntryMap key value _ => represents parameters nodes s.(lw_scopes) key ids.1 ∧
        represents parameters nodes s.(lw_scopes) value ids.2
    | EntryField => False end) (fun n ids => ids.1 < n ∧ ids.2 < n) entries s.(lw_scopes)) in E1 as (X1 & R1 & O1);
    [|intros nodes tail [key value ?|] y Hy; [by destruct Hy; split; apply represents_app|done]
     |intros ? ? ? ? []; lia| |done].
  - assert (Hm : pushes (nodes ← l_nodes; t ← l_lift (unify_nodes nodes ids.*2); push_node (NKMap ids) (TMap t)) (NKMap ids))
      by solve_pushes.
    eapply pushes_ok in E as (X2 & K2 & L2); [|exact Hm|].
    + split; [by etrans|]. split; [|done]. simpl. exists ids. split; [done|]. destruct X2 as [[tail ->] _].
      eapply all2_mono, R1. apply Forall_true. intros [key value ?|] y Hy; [by destruct Hy; split; apply represents_app|done].
    + simpl. apply Forall_app. rewrite !Forall_fmap. split; (eapply Forall_impl; [exact O1|]); simpl; naive_solver.
  - eapply Forall_impl; [exact IH|]. intros [key value [|]|] He s2 y s3 Hs; [by intros [? _]%l_lift_ok| |by intros [? _]%l_lift_ok].
    destruct He as [Hk Hv]. intros (k & s4 & Ek & E')%l_bind_ok. apply l_bind_ok in E' as (t & s5 & <-%l_type_ok & E').
    destruct (bool_decide _); [|by apply l_lift_ok in E' as [? _]].
    apply l_bind_ok in E' as (v & s6 & Ev & [<- <-]%l_ret_ok).
    apply Hk in Ek as [Xk [Rk Ok]]. apply Hv in Ev as [Xv [Rv Ov]]. destruct (proj1 Xv) as [tail Et].
    split; [by etrans|]. simpl. rewrite <-Hs. split_and!.
    + rewrite Et. by apply represents_app.
    + destruct Xk as [_ <-]. done.
    + rewrite Et, length_app. lia.
    + done.
Qed.

Lemma lower_comprehension_lowers range var var2 accu init cond step result :
  lowers range → lowers init → lowers cond → lowers step → lowers result →
  lowers (XComprehension range var var2 accu init cond step result).
Proof.
  intros Hr Hi Hc Hs He s id s'. cbn [lower].
  intros (r & s1 & Er & E)%l_bind_ok. apply l_bind_ok in E as (rt & s1' & <-%l_type_ok & E).
  apply l_bind_ok in E as (types & s1' & <-%lift_reads & E). apply l_bind_ok in E as (i & s2 & Ei & E).
  apply l_bind_ok in E as (at' & s2' & <-%l_type_ok & E). apply l_bind_ok in E as ([] & s3 & [= <-] & E).
  apply l_bind_ok in E as (c & s4 & Ec & E). apply l_bind_ok in E as (st & s5 & Est & E).
  apply l_bind_ok in E as (re & s6 & Ere & E). apply l_bind_ok in E as (id' & s7 & Eid & E).
  apply l_bind_ok in E as ([] & s8 & [= <-] & [<- <-]%l_ret_ok).
  apply Hr in Er as [Xr [Rr Or]]. apply Hi in Ei as [Xi [Ri Oi]]. apply Hc in Ec as [Xc [Rc Oc]].
  apply Hs in Est as [Xs [Rs Os]]. apply He in Ere as [Xe [Re Oe]].
  destruct (proj1 Xr) as [t1 N1], (proj1 Xi) as [t2 N2], (proj1 Xc) as [t4 N4], (proj1 Xs) as [t5 N5], (proj1 Xe) as [t6 N6].
  simpl in N4. pose proof (f_equal length N2) as L2. pose proof (f_equal length N4) as L4.
  pose proof (f_equal length N5) as L5. pose proof (f_equal length N6) as L6. rewrite length_app in L2, L4, L5, L6.
  set (d := mkComprehension r var var2 accu i c st re) in *.
  assert (Hch : Forall (fun child => child < length s6.(lw_nodes)) (kind_children (NKComprehension d)))
    by (unfold d; simpl; repeat constructor; lia).
  destruct (pushes_ok _ _ _ _ _ (finish_comprehension_pushes _ _) Hch Eid) as (X7 & K7 & L7).
  destruct (proj1 X7) as [t7 N7]. destruct Xr as [_ Sr], Xi as [_ Si], Xc as [_ Sc], Xs as [_ Ss], Xe as [_ Se], X7 as [_ S7].
  simpl in Sc. rewrite Sc in Ss, Rs. rewrite Ss in Se, Re. rewrite Si, Sr in *. unfold lowered. simpl.
  split; [|split; [|done]].
  - split; [|simpl; by rewrite S7, Se]. simpl. exists (t1 ++ t2 ++ t4 ++ t5 ++ t6 ++ t7).
    by rewrite N7, N6, N5, N4, N2, N1, !app_assoc.
  - exists types, at', d. split_and!; [done..| | | | |].
    + rewrite N7, N6, N5, N4, N2. do 5 apply represents_app. done.
    + rewrite N7, N6, N5, N4. do 4 apply represents_app. done.
    + rewrite N7, N6, N5. do 3 apply represents_app. done.
    + rewrite N7, N6. do 2 apply represents_app. done.
    + rewrite N7. by apply represents_app.
Qed.

(** The lowered node represents its expression. *)
Lemma lower_ok e : lowers e.
Proof.
  induction e as [| |name|v|elements IH|entries IH|operand field test IH|func target args IHt IH|] using expr_ind.
  - by intros s id s'.
  - by intros s id s'.
  - intros s id s' (scopes & s1 & [= <- <-] & E)%l_bind_ok. unfold lowered. simpl.
    destruct (find_static name (lw_scopes s)) as [t|].
    + by eapply (pushes_ok _ (NKLocal name)) in E as (X & K' & O); [|apply push_node_pushes|constructor].
    + destruct (bt_get name parameters) as [p|]; [|by apply l_lift_ok in E as [? _]].
      by eapply (pushes_ok _ (NKParameter name)) in E as (X & K' & O); [|apply push_node_pushes|constructor].
  - intros s id s' E.
    by eapply (pushes_ok _ (NKLiteral (literal_value v))) in E as (X & K' & O); [|apply lower_literal_pushes|constructor].
  - intros s id s' (ids & s1 & E1 & E)%l_bind_ok. destruct (lower_list_ok _ _ _ _ IH E1) as (X1 & R1 & O1).
    eapply (pushes_ok _ (NKList ids)) in E as (X2 & K2 & L2); [|solve_pushes|done].
    split; [by etrans|]. split; [|done]. simpl. exists ids. split; [done|]. destruct X2 as [[tail ->] _].
    eapply all2_mono, R1. apply Forall_true. intros; by apply represents_app.
  - by apply lower_map_lowers.
  - intros s id s' (o & s1 & E1 & E)%l_bind_ok. apply IH in E1 as [X1 [R1 O1]].
    eapply (pushes_ok _ (NKSelect o field test)) in E as (X2 & K2 & L2); [|solve_pushes|by repeat constructor].
    split; [by etrans|]. split; [|done]. simpl. exists o. split; [done|]. destruct X2 as [[tail ->] _]. by apply represents_app.
  - destruct func; [by apply lower_operator_lowers|by apply lower_function_lowers].
  - by apply lower_comprehension_lowers.
Qed.

End lower.
