(* ===== verification/CelTyping.v ===== *)
(** * Static types of conditions

    A declarative type system for expressions without dynamic types: what the
    lowerer checks, read off the expression.  Where no node of a program has a
    dynamic type, a lowered expression is typed by these rules. *)

From S2P Require Import Prelude Ordered Identifier Reference Scalars Context Condition CelValue CelOps.
From S2P Require Import CelMachine CelCompiler CelSemantics CelLowering.
From Stdlib Require Import ZArith.

(** ** Types without [dyn] *)

Fixpoint dyn_free (t : StaticType) : bool :=
  match t with
  | TDyn => false
  | TList t | TMap t => dyn_free t
  | _ => true
  end.

Lemma accepts_eq t : ∀ u, dyn_free t = true → dyn_free u = true → accepts t u = true → t = u.
Proof.
  induction t as [| | | | | | | | | | |t IH|t IH]; intros [| | | | | | | | | | |u|u]; simpl; intros Ht Hu; try done;
    try (by rewrite bool_decide_eq_true); intros Ha; f_equal; auto.
Qed.

Lemma unify_eq t : ∀ u v, dyn_free t = true → dyn_free u = true → unify t u = Ok v → t = u ∧ v = t.
Proof.
  induction t as [| | | | | | | | | | |t IH|t IH]; intros [| | | | | | | | | | |u|u] v; simpl; intros Ht Hu; try done;
    try (by intros [= <-]).
  - intros (w & -> & E)%result_fmap_ok. by destruct (IH _ _ Ht Hu E) as [-> ->].
  - intros (w & -> & E)%result_fmap_ok. by destruct (IH _ _ Ht Hu E) as [-> ->].
Qed.

(** ** Typed expressions *)

Definition literal_type (v : Val) : StaticType :=
  match v with
  | ValNull => TNull
  | ValBoolean _ => TBool
  | ValInt _ => TInt
  | ValUInt _ => TUint
  | ValDouble _ => TDouble
  | ValString _ => TString
  | ValBytes _ => TBytes
  end.

Definition unary_type (operator : UnaryOperator) (t : StaticType) : option StaticType :=
  match operator, t with
  | (UNot | UNotStrictlyFalse), TBool => Some TBool
  | UNegate, (TInt | TDouble) => Some t
  | _, _ => None
  end.

Section typed.
Variable parameters : BTreeMap ParameterName ParameterType.

Abbreviation Statics := (list (BTreeMap rstr StaticType)).

Fixpoint typed (statics : Statics) (e : Expr) (t : StaticType) : Prop :=
  dyn_free t = true ∧
  match e with
  | XLiteral v => t = literal_type v ∧ match v with ValDouble x => f64_is_finite x = true | _ => True end
  | XIdent name =>
      match find_static name statics with
      | Some t' => t = t'
      | None => ∃ parameter, bt_get (K:=ParameterName) name parameters = Some parameter ∧ t = parameter_static_type parameter
      end
  | XList elements => ∃ element, t = TList element ∧ foldr (fun e => and (typed statics e element)) True elements
  | XMap entries =>
      ∃ value, t = TMap value ∧
        foldr (fun entry => and (match entry with
                                 | EntryMap k v _ => typed statics k TString ∧ typed statics v value
                                 | EntryField => False
                                 end)) True entries
  | XSelect operand field test => ∃ value, typed statics operand (TMap value) ∧ t = (if test then TBool else value)
  | XCall (FOperator OLogicalAnd) _ [l; r] | XCall (FOperator OLogicalOr) _ [l; r] =>
      t = TBool ∧ typed statics l TBool ∧ typed statics r TBool
  | XCall (FOperator OConditional) _ [condition; truthy; falsy] =>
      typed statics condition TBool ∧ typed statics truthy t ∧ typed statics falsy t
  | XCall (FOperator operator) _ args =>
      match unary_of operator, binary_of operator, args with
      | Some operator, _, [operand] => ∃ t', typed statics operand t' ∧ unary_type operator t' = Some t
      | None, Some operator, [l; r] => ∃ lt rt, typed statics l lt ∧ typed statics r rt ∧ binary_type operator lt rt = Ok t
      | _, _, _ => False
      end
  | XCall (FFunction name) target args =>
      ∃ function target_type types,
        function_named name (bool_decide (is_Some target)) = Some function ∧
        match target, target_type with
        | Some e, Some t' => typed statics e t'
        | None, None => True
        | _, _ => False
        end ∧
        all2 (typed statics) args types ∧ function_type function target_type types = Ok t
  | XComprehension range var var2 accu init cond step result =>
      ∃ range_type types accu_type,
        typed statics range range_type ∧ iterable_types range_type = Ok types ∧ typed statics init accu_type ∧
        let inside := comprehension_scope var var2 accu types accu_type :: statics in
        typed inside cond TBool ∧ typed inside step accu_type ∧ typed inside result t
  | XUnspecified | XStruct => False
  end.

(** ** Lowering *)

(** The static type of a lowered node. *)
Definition type_at (nodes : list Node) (id : CelNodeId) : option StaticType := static_type <$> nodes !! id.

Definition nodes_dyn_free (nodes : list Node) : Prop := Forall (fun node => dyn_free node.(static_type) = true) nodes.

Lemma type_at_app nodes tail id t : type_at nodes id = Some t → type_at (nodes ++ tail) id = Some t.
Proof. unfold type_at. intros (node & E & ->)%fmap_Some. by rewrite (lookup_app_l_Some _ _ _ _ E). Qed.

Lemma type_at_dyn_free nodes id t : nodes_dyn_free nodes → type_at nodes id = Some t → dyn_free t = true.
Proof. intros Hall (node & E & ->)%fmap_Some. by eapply Forall_lookup_1 in E; [|exact Hall]. Qed.

Lemma node_type_at nodes id t : node_type nodes id = Ok t → type_at nodes id = Some t.
Proof. unfold node_type, type_at. intros (node & -> & E%ok_or_ok)%result_fmap_ok. by rewrite E. Qed.

Lemma l_type_at id s t s' : l_type id s = Ok (t, s') → s = s' ∧ type_at s.(lw_nodes) id = Some t.
Proof.
  unfold l_type. intros (nodes & s1 & [= <- <-] & [E ->]%l_lift_ok)%l_bind_ok. split; [done|by apply node_type_at].
Qed.

Lemma push_node_at kind t s id s' :
  push_node kind t s = Ok (id, s') →
  type_at s'.(lw_nodes) id = Some t ∧ s'.(lw_nodes) = s.(lw_nodes) ++ [mkNode kind t] ∧ s'.(lw_scopes) = s.(lw_scopes).
Proof. intros [= <- <-]. unfold type_at. simpl. by rewrite lookup_app_r, Nat.sub_diag. Qed.

(** All elements of a list without dynamic types have its element type. *)
Lemma unify_nodes_types nodes ids t :
  nodes_dyn_free nodes → unify_nodes nodes ids = Ok t → dyn_free t = true → Forall (fun id => type_at nodes id = Some t) ids.
Proof.
  intros Hn. unfold unify_nodes.
  cut (∀ current, (current = TDyn ∨ dyn_free current = true) →
    try_fold (fun id current => t ← node_type nodes id; if bool_decide (current = TDyn) then Ok t else unify current t) ids current = Ok t →
    dyn_free t = true → (current = TDyn ∨ current = t) ∧ Forall (fun id => type_at nodes id = Some t) ids).
  { intros Hc E Ht. by destruct (Hc TDyn (or_introl eq_refl) E Ht). }
  induction ids as [|id ids IH]; intros current Hcur; simpl; [intros [= ->] _; split; [auto|constructor]|].
  intros (next & (u & Hu%node_type_at & E1)%result_bind_ok & E2)%result_bind_ok Ht.
  pose proof (type_at_dyn_free _ _ _ Hn Hu) as Hud. case_bool_decide as Hd.
  - simplify_eq. destruct (IH next (or_intror Hud) E2 Ht) as [[->| ->] Hall]; [done|]. split; [auto|by constructor].
  - destruct Hcur as [|Hcur]; [done|]. destruct (unify_eq _ _ _ Hcur Hud E1) as [-> ->].
    destruct (IH u (or_intror Hud) E2 Ht) as [[->| ->] Hall]; [done|]. split; [auto|by constructor].
Qed.

Lemma dyn_free_prefix s s' : extends s s' → nodes_dyn_free s'.(lw_nodes) → nodes_dyn_free s.(lw_nodes).
Proof. intros [[tail ->] _]. by intros [? _]%Forall_app. Qed.

Lemma type_at_extends s s' id t : extends s s' → type_at s.(lw_nodes) id = Some t → type_at s'.(lw_nodes) id = Some t.
Proof. intros [[tail ->] _]. apply type_at_app. Qed.

(** A node of type [t] is the only change. *)
Definition adds (s s' : Lowerer) (id : CelNodeId) (t : StaticType) : Prop :=
  extends s s' ∧ type_at s'.(lw_nodes) id = Some t.

Lemma push_node_adds kind t s id s' : push_node kind t s = Ok (id, s') → adds s s' id t.
Proof. intros (Hid & Hn & Hs)%push_node_at. split; [|done]. split; [by eexists|done]. Qed.

Lemma finish_unary_types operator operand s id s' :
  finish_unary operator operand s = Ok (id, s') → nodes_dyn_free s'.(lw_nodes) →
  ∃ t u, type_at s.(lw_nodes) operand = Some t ∧ unary_type operator t = Some u ∧ adds s s' id u.
Proof.
  intros (t & s1 & [<- Ht]%l_type_at & E)%l_bind_ok Hn. apply l_bind_ok in E as (u & s1 & [Eu <-]%l_lift_ok & Ha%push_node_adds).
  exists t, u. split_and!; [done| |done]. pose proof (type_at_dyn_free _ _ _ (dyn_free_prefix _ _ (proj1 Ha) Hn) Ht) as Hd.
  destruct operator, t; simplify_eq/=; done.
Qed.

Lemma finish_logical_types l r and s id s' :
  finish_logical l r and s = Ok (id, s') → nodes_dyn_free s'.(lw_nodes) →
  type_at s.(lw_nodes) l = Some TBool ∧ type_at s.(lw_nodes) r = Some TBool ∧ adds s s' id TBool.
Proof.
  intros (lt & s1 & [<- Hl]%l_type_at & E)%l_bind_ok Hn. apply l_bind_ok in E as (rt & s1 & [<- Hr]%l_type_at & E).
  destruct (negb (accepts TBool lt) || negb (accepts TBool rt)) eqn:Ea; [by apply l_lift_ok in E as [? _]|].
  apply push_node_adds in E. pose proof (dyn_free_prefix _ _ (proj1 E) Hn) as Hp.
  apply orb_false_iff in Ea as [El%negb_false_iff Er%negb_false_iff].
  apply accepts_eq in El as <-; [|done|by eapply type_at_dyn_free]. apply accepts_eq in Er as <-; [|done|by eapply type_at_dyn_free].
  done.
Qed.

Lemma finish_conditional_types c x y s id s' :
  finish_conditional c x y s = Ok (id, s') → nodes_dyn_free s'.(lw_nodes) →
  ∃ t, type_at s.(lw_nodes) c = Some TBool ∧ type_at s.(lw_nodes) x = Some t ∧ type_at s.(lw_nodes) y = Some t ∧ adds s s' id t.
Proof.
  intros (ct & s1 & [<- Hc]%l_type_at & E)%l_bind_ok Hn.
  destruct (negb (accepts TBool ct)) eqn:Ea; [by apply l_lift_ok in E as [? _]|]. apply negb_false_iff in Ea.
  apply l_bind_ok in E as (xt & s1 & [<- Hx]%l_type_at & E). apply l_bind_ok in E as (yt & s1 & [<- Hy]%l_type_at & E).
  apply l_bind_ok in E as (u & s1 & [Eu <-]%l_lift_ok & Ha%push_node_adds).
  pose proof (dyn_free_prefix _ _ (proj1 Ha) Hn) as Hp. apply accepts_eq in Ea as <-; [|done|by eapply type_at_dyn_free].
  apply unify_eq in Eu as [-> ->]; [|by eapply type_at_dyn_free..]. by exists yt.
Qed.

Lemma finish_binary_types operator l r s id s' :
  finish_binary operator l r s = Ok (id, s') →
  ∃ lt rt t, type_at s.(lw_nodes) l = Some lt ∧ type_at s.(lw_nodes) r = Some rt ∧ binary_type operator lt rt = Ok t ∧ adds s s' id t.
Proof.
  intros (lt & s1 & [<- Hl]%l_type_at & E)%l_bind_ok. apply l_bind_ok in E as (rt & s1 & [<- Hr]%l_type_at & E).
  apply l_bind_ok in E as (t & s1 & [Et%map_err_ok <-]%l_lift_ok & Ha%push_node_adds). by exists lt, rt, t.
Qed.

Lemma finish_function_types function name target arguments s id s' :
  finish_function function name target arguments s = Ok (id, s') →
  ∃ target_type types t,
    match target, target_type with
    | Some i, Some t' => type_at s.(lw_nodes) i = Some t'
    | None, None => True
    | _, _ => False
    end ∧ Forall2 (fun id t => type_at s.(lw_nodes) id = Some t) arguments types ∧
    function_type function target_type types = Ok t ∧ adds s s' id t.
Proof.
  intros (nodes & s1 & [= <- <-] & E)%l_bind_ok.
  apply l_bind_ok in E as (t & s1 & [Et%map_err_ok <-]%l_lift_ok & Ha%push_node_adds).
  apply result_bind_ok in Et as (types & Hty%try_collect_ok & Et). apply result_bind_ok in Et as (tt & Htt & Et).
  exists tt, types, t. split_and!; [| |done|done].
  - destruct target as [i|]; [|by simplify_eq]. apply result_fmap_ok in Htt as (t' & -> & E). by apply node_type_at.
  - eapply Forall2_impl; [exact Hty|]. intros i t'. apply node_type_at.
Qed.

Lemma finish_comprehension_types d accu_type s id s' :
  finish_comprehension d accu_type s = Ok (id, s') → nodes_dyn_free s'.(lw_nodes) → dyn_free accu_type = true →
  ∃ t, type_at s.(lw_nodes) d.(loop_cond) = Some TBool ∧ type_at s.(lw_nodes) d.(loop_step) = Some accu_type ∧
    type_at s.(lw_nodes) d.(comprehension_result) = Some t ∧ adds s s' id t.
Proof.
  intros (ct & s1 & [<- Hc]%l_type_at & E)%l_bind_ok Hn Hd. apply l_bind_ok in E as (st & s1 & [<- Hs]%l_type_at & E).
  destruct (negb (accepts TBool ct) || negb (accepts accu_type st)) eqn:Ea; [by apply l_lift_ok in E as [? _]|].
  apply l_bind_ok in E as (t & s1 & [<- Ht]%l_type_at & E%push_node_adds). pose proof (dyn_free_prefix _ _ (proj1 E) Hn) as Hp.
  apply orb_false_iff in Ea as [Ec%negb_false_iff Es%negb_false_iff].
  apply accepts_eq in Ec as <-; [|done|by eapply type_at_dyn_free]. apply accepts_eq in Es as <-; [|done|by eapply type_at_dyn_free].
  by exists t.
Qed.

(** ** Expressions *)

Definition lower_typed (e : Expr) : Prop := ∀ s id s',
  lower parameters e s = Ok (id, s') → nodes_dyn_free s'.(lw_nodes) →
  ∃ t, type_at s'.(lw_nodes) id = Some t ∧ typed s.(lw_scopes) e t.

Lemma lower_extends e s id s' : lower parameters e s = Ok (id, s') → extends s s'.
Proof. intros E. by apply lower_ok in E as [? _]. Qed.

(** A part of an expression, from the state after its siblings. *)
Lemma part_typed e s id s1 s' t :
  lower_typed e → lower parameters e s = Ok (id, s1) → extends s1 s' → nodes_dyn_free s'.(lw_nodes) →
  type_at s'.(lw_nodes) id = Some t → typed s.(lw_scopes) e t.
Proof.
  intros He E Hx Hn Ht. destruct (He _ _ _ E (dyn_free_prefix _ _ Hx Hn)) as (u & Hu%(type_at_extends _ _ _ _ Hx) & Htyped).
  by simplify_eq.
Qed.

Lemma adds_typed s s' id t : adds s s' id t → nodes_dyn_free s'.(lw_nodes) → dyn_free t = true.
Proof. intros [_ Ht] Hn. by eapply type_at_dyn_free. Qed.

Lemma l_map_extends args : ∀ s ids s', l_map (lower parameters) args s = Ok (ids, s') → extends s s'.
Proof.
  induction args as [|e args IH]; intros s ids s'; simpl; [intros [<- <-]%l_ret_ok; reflexivity|].
  intros (i & s1 & E1%lower_extends & E)%l_bind_ok. apply l_bind_ok in E as (ids' & s2 & E2%IH & [<- <-]%l_ret_ok). by etrans.
Qed.

Lemma l_map_typed args : ∀ s ids s' s2 types,
  Forall lower_typed args → l_map (lower parameters) args s = Ok (ids, s') → extends s' s2 → nodes_dyn_free s2.(lw_nodes) →
  Forall2 (fun id t => type_at s2.(lw_nodes) id = Some t) ids types → all2 (typed s.(lw_scopes)) args types.
Proof.
  induction args as [|e args IH]; intros s ids s' s2 types Hall; simpl.
  - intros [<- <-]%l_ret_ok _ _ Ht. by inv Ht.
  - intros (i & s1 & E1 & E)%l_bind_ok Hx Hn Ht. apply l_bind_ok in E as (ids' & s3 & E2 & [<- <-]%l_ret_ok).
    inv Hall. inv Ht. pose proof (l_map_extends _ _ _ _ E2) as Hx2. split.
    + eapply part_typed; [done|exact E1| |exact Hn|done]. by etrans.
    + rewrite <-(proj2 (lower_extends _ _ _ _ E1)). by eapply IH.
Qed.

Lemma unary_typed operator x s id s' :
  lower_typed x → (i ← lower parameters x; finish_unary operator i) s = Ok (id, s') → nodes_dyn_free s'.(lw_nodes) →
  ∃ t u, typed s.(lw_scopes) x t ∧ unary_type operator t = Some u ∧ type_at s'.(lw_nodes) id = Some u ∧ dyn_free u = true.
Proof.
  intros Hx (i & s1 & E1 & E2)%l_bind_ok Hn. destruct (finish_unary_types _ _ _ _ _ E2 Hn) as (t & u & Ht & Hu & Ha).
  exists t, u. split_and!; [|done|apply Ha|by eapply adds_typed].
  by eapply part_typed; [done|exact E1| |eapply dyn_free_prefix, Hn; apply Ha|].
Qed.

Lemma pair_typed l r (f : CelNodeId → CelNodeId → L CelNodeId) (R : StaticType → StaticType → StaticType → Prop) s id s' :
  Forall lower_typed [l; r] → (i ← lower parameters l; j ← lower parameters r; f i j) s = Ok (id, s') →
  nodes_dyn_free s'.(lw_nodes) →
  (∀ i j s1, f i j s1 = Ok (id, s') → ∃ lt rt t, type_at s1.(lw_nodes) i = Some lt ∧ type_at s1.(lw_nodes) j = Some rt ∧
     R lt rt t ∧ adds s1 s' id t) →
  ∃ lt rt t, typed s.(lw_scopes) l lt ∧ typed s.(lw_scopes) r rt ∧ R lt rt t ∧
    type_at s'.(lw_nodes) id = Some t ∧ dyn_free t = true.
Proof.
  intros Hlr (i & s1 & E1 & (j & s2 & E2 & E3)%l_bind_ok)%l_bind_ok Hn Hf. decompose_Forall_hyps.
  destruct (Hf _ _ _ E3) as (lt & rt & t & Hl & Hr & HR & Ha). pose proof (dyn_free_prefix _ _ (proj1 Ha) Hn) as Hn2.
  pose proof (lower_extends _ _ _ _ E2) as X2. exists lt, rt, t. split_and!; [by eapply part_typed| |done|apply Ha|by eapply adds_typed].
  rewrite <-(proj2 (lower_extends _ _ _ _ E1)). by eapply part_typed.
Qed.

Lemma binary_typed operator l r s id s' :
  Forall lower_typed [l; r] → (i ← lower parameters l; j ← lower parameters r; finish_binary operator i j) s = Ok (id, s') →
  nodes_dyn_free s'.(lw_nodes) →
  ∃ lt rt t, typed s.(lw_scopes) l lt ∧ typed s.(lw_scopes) r rt ∧ binary_type operator lt rt = Ok t ∧
    type_at s'.(lw_nodes) id = Some t ∧ dyn_free t = true.
Proof.
  intros Hall E Hn. apply (pair_typed _ _ _ (fun lt rt t => binary_type operator lt rt = Ok t) _ _ _ Hall E Hn).
  intros i j s1. apply finish_binary_types.
Qed.

Lemma conditional_typed c x y s id s' :
  Forall lower_typed [c; x; y] →
  (i ← lower parameters c; j ← lower parameters x; k ← lower parameters y; finish_conditional i j k) s = Ok (id, s') →
  nodes_dyn_free s'.(lw_nodes) →
  ∃ t, type_at s'.(lw_nodes) id = Some t ∧ dyn_free t = true ∧
    typed s.(lw_scopes) c TBool ∧ typed s.(lw_scopes) x t ∧ typed s.(lw_scopes) y t.
Proof.
  intros Hall (i & s1 & E1 & (j & s2 & E2 & (k & s3 & E3 & E4)%l_bind_ok)%l_bind_ok)%l_bind_ok Hn. decompose_Forall_hyps.
  destruct (finish_conditional_types _ _ _ _ _ _ E4 Hn) as (t & Hc & Hx & Hy & Ha).
  pose proof (dyn_free_prefix _ _ (proj1 Ha) Hn) as Hn3. pose proof (lower_extends _ _ _ _ E1) as X1.
  pose proof (lower_extends _ _ _ _ E2) as X2. pose proof (lower_extends _ _ _ _ E3) as X3.
  exists t. split_and!; [apply Ha|by eapply adds_typed|..].
  - eapply part_typed; [|exact E1| | |]; [done|by etrans|done|done].
  - rewrite <-(proj2 X1). by eapply part_typed; [|exact E2| | |].
  - rewrite <-(proj2 X1), <-(proj2 X2). by eapply part_typed; [|exact E3| | |].
Qed.

Lemma operator_typed operator target args : Forall lower_typed args → lower_typed (XCall (FOperator operator) target args).
Proof.
  intros Hall s id s' E Hn.
  destruct operator, args as [|a [|b [|c [|]]]], target; simpl in E; try (by apply l_lift_ok in E as [? _]); try done;
    try (inv Hall; destruct (unary_typed _ _ _ _ _ ltac:(done) E Hn) as (t & u & Ht & Hu & Hid & Hd);
         exists u; split; [done|]; simpl; by eauto 10);
    try (edestruct (pair_typed _ _ _ (fun lt rt t => lt = TBool ∧ rt = TBool ∧ t = TBool) _ _ _ Hall E Hn)
           as (lt & rt & t & Hl & Hr & (-> & -> & ->) & Hid & Hd);
         [intros i j s1 Ef; destruct (finish_logical_types _ _ _ _ _ _ Ef Hn) as (? & ? & ?); by exists TBool, TBool, TBool|];
         exists TBool; simpl; by auto);
    try (destruct (binary_typed _ _ _ _ _ _ Hall E Hn) as (lt & rt & t & Hl & Hr & HR & Hid & Hd); exists t; simpl; by eauto 10);
    destruct (conditional_typed _ _ _ _ _ _ Hall E Hn) as (t & Hid & Hd & Hc & Hx & Hy); exists t; simpl; by auto.
Qed.

Lemma function_typed name target args :
  (∀ e, target = Some e → lower_typed e) → Forall lower_typed args → lower_typed (XCall (FFunction name) target args).
Proof.
  intros Ht Hall s id s' E Hn. cbn [lower] in E. destruct (function_named _ _) as [function|] eqn:Ef; [|by apply l_lift_ok in E as [? _]].
  apply l_bind_ok in E as (ti & s1 & E1 & E). apply l_bind_ok in E as (ids & s2 & E2 & E).
  destruct (finish_function_types _ _ _ _ _ _ _ E) as (tt & types & t & Htt & Hty & Hft & Ha).
  pose proof (dyn_free_prefix _ _ (proj1 Ha) Hn) as Hn2. pose proof (l_map_extends _ _ _ _ E2) as X2.
  assert (Hx1 : s1.(lw_scopes) = s.(lw_scopes) ∧ match target, tt with
    | Some e, Some t' => typed s.(lw_scopes) e t' | None, None => True | _, _ => False end).
  { destruct target as [e|]; [|apply l_ret_ok in E1 as [<- <-]; by destruct tt].
    apply l_bind_ok in E1 as (i & s0 & E1 & [<- <-]%l_ret_ok). destruct tt as [t'|]; [|done]. split; [apply (lower_extends _ _ _ _ E1)|].
    eapply part_typed; [by apply Ht|exact E1|exact X2|done|done]. }
  destruct Hx1 as [Hsc Htarget]. exists t. split; [apply Ha|]. simpl. split; [by eapply adds_typed|].
  exists function, tt, types. split_and!; [done|done| |done]. rewrite <-Hsc. by eapply l_map_typed.
Qed.

Lemma list_typed elements : Forall lower_typed elements → lower_typed (XList elements).
Proof.
  intros Hall s id s' (ids & s1 & E1 & E)%l_bind_ok Hn. apply l_bind_ok in E as (nodes & s2 & [= <- <-] & E).
  apply l_bind_ok in E as (t & s2 & [Eu <-]%l_lift_ok & Ha%push_node_adds). pose proof (dyn_free_prefix _ _ (proj1 Ha) Hn) as Hn1.
  pose proof (adds_typed _ _ _ _ Ha Hn) as Hd. exists (TList t). split; [apply Ha|]. simpl. split; [done|]. exists t. split; [done|].
  pose proof (unify_nodes_types _ _ _ Hn1 Eu Hd) as Hty.
  assert (H2 : all2 (typed s.(lw_scopes)) elements (replicate (length ids) t)).
  { eapply l_map_typed; [done|exact E1|reflexivity|done|]. clear -Hty. induction Hty; simpl; by constructor. }
  clear -H2. revert H2. generalize (length ids) as n. induction elements as [|e elements IH]; intros n; simpl; [done|].
  destruct n; simpl; [done|]. intros [He Hes]. split; [done|by eapply IH].
Qed.

Lemma entries_typed entries : ∀ s ids s' s2 value,
  Forall (fun e => match e with EntryMap key value _ => lower_typed key ∧ lower_typed value | EntryField => True end) entries →
  l_map (fun entry =>
           match entry with
           | EntryMap key value false =>
               key ← lower parameters key;
               key_type ← l_type key;
               if bool_decide (key_type = TString) then value ← lower parameters value; mret (key, value) else l_lift (Err mismatch)
           | _ => l_lift (Err unsupported)
           end) entries s = Ok (ids, s') → extends s' s2 → nodes_dyn_free s2.(lw_nodes) →
  Forall (fun id => type_at s2.(lw_nodes) id = Some value) ids.*2 →
  extends s s' ∧
  foldr (fun entry => and (match entry with
                           | EntryMap k v _ => typed s.(lw_scopes) k TString ∧ typed s.(lw_scopes) v value
                           | EntryField => False
                           end)) True entries.
Proof.
  induction entries as [|entry entries IH]; intros s ids s' s2 value Hall; cbn [l_map].
  - intros [<- <-]%l_ret_ok _ _ _. by split.
  - intros (y & s1 & E1 & E)%l_bind_ok Hx Hn Hty. apply l_bind_ok in E as (ids' & s3 & E2 & [<- <-]%l_ret_ok).
    rewrite fmap_cons in Hty. inv Hall. inv Hty.
    destruct (IH s1 ids' s3 s2 value) as [X2 Hes]; [done|done|done|done|done|].
    destruct entry as [key v []|]; [by apply l_lift_ok in E1 as [? _]| |by apply l_lift_ok in E1 as [? _]].
    apply l_bind_ok in E1 as (k & s4 & Ek & E1). apply l_bind_ok in E1 as (kt & s5 & [<- Hkt]%l_type_at & E1).
    case_bool_decide; [|by apply l_lift_ok in E1 as [? _]]. subst kt.
    apply l_bind_ok in E1 as (w & s6 & Ew & [<- <-]%l_ret_ok). destruct H1 as [Hk Hv].
    pose proof (lower_extends _ _ _ _ Ek) as Xk. pose proof (lower_extends _ _ _ _ Ew) as Xw.
    assert (Hsc : s6.(lw_scopes) = s.(lw_scopes)) by (rewrite (proj2 Xw); apply Xk).
    split; [etrans; [exact Xk|]; etrans; [exact Xw|exact X2]|]. simpl. rewrite <-Hsc. split_and!; [| |done].
    + rewrite Hsc. assert (X4 : extends s4 s2) by (etrans; [exact Xw|]; by etrans).
      eapply part_typed; [done|exact Ek|exact X4|done|by eapply type_at_extends].
    + rewrite (proj2 Xw). eapply part_typed; [done|exact Ew| |done|done]. by etrans.
Qed.

Lemma map_typed entries :
  Forall (fun e => match e with EntryMap key value _ => lower_typed key ∧ lower_typed value | EntryField => True end) entries →
  lower_typed (XMap entries).
Proof.
  intros Hall s id s' (ids & s1 & E1 & E)%l_bind_ok Hn. apply l_bind_ok in E as (nodes & s2 & [= <- <-] & E).
  apply l_bind_ok in E as (t & s2 & [Eu <-]%l_lift_ok & Ha%push_node_adds). pose proof (dyn_free_prefix _ _ (proj1 Ha) Hn) as Hn1.
  pose proof (adds_typed _ _ _ _ Ha Hn) as Hd. exists (TMap t). split; [apply Ha|]. simpl. split; [done|]. exists t. split; [done|].
  pose proof (unify_nodes_types _ _ _ Hn1 Eu Hd) as Hty.
  by destruct (entries_typed entries s ids s1 s1 t Hall E1 ltac:(reflexivity) Hn1 Hty).
Qed.

Lemma comprehension_typed range var var2 accu init cond step result :
  lower_typed range → lower_typed init → lower_typed cond → lower_typed step → lower_typed result →
  lower_typed (XComprehension range var var2 accu init cond step result).
Proof.
  intros Hr Hi Hc Hs He s id s' E Hn. cbn [lower] in E.
  apply l_bind_ok in E as (r & s1 & Er & E). apply l_bind_ok in E as (rt & s1' & [<- Hrt]%l_type_at & E).
  apply l_bind_ok in E as (types & s1' & [Et <-]%l_lift_ok & E). apply l_bind_ok in E as (i & s2 & Ei & E).
  apply l_bind_ok in E as (at' & s2' & [<- Hat]%l_type_at & E). apply l_bind_ok in E as ([] & s3 & [= <-] & E).
  apply l_bind_ok in E as (c & s4 & Ec & E). apply l_bind_ok in E as (st & s5 & Est & E).
  apply l_bind_ok in E as (re & s6 & Ere & E). apply l_bind_ok in E as (id' & s7 & Eid & E).
  apply l_bind_ok in E as ([] & s8 & [= <-] & [<- <-]%l_ret_ok). simpl in Hn.
  set (inner := mkLowerer s2.(lw_nodes) (comprehension_scope var var2 accu types at' :: s2.(lw_scopes))) in *.
  pose proof (lower_extends _ _ _ _ Er) as Xr. pose proof (lower_extends _ _ _ _ Ei) as Xi. pose proof (lower_extends _ _ _ _ Ec) as Xc.
  pose proof (lower_extends _ _ _ _ Est) as Xs. pose proof (lower_extends _ _ _ _ Ere) as Xe.
  assert (X7 : extends s6 s7).
  { apply (finish_comprehension_pushes _ _) in Eid as (_ & t & ->). split; [by eexists|done]. }
  assert (X46 : extends s4 s6) by (by etrans). assert (X26 : extends inner s6) by (by etrans).
  pose proof (dyn_free_prefix _ _ X7 Hn) as Hn6.
  assert (Hn2 : nodes_dyn_free s2.(lw_nodes)) by exact (dyn_free_prefix _ _ X26 Hn6).
  pose proof (type_at_dyn_free _ _ _ Hn2 Hat) as Had.
  destruct (finish_comprehension_types _ _ _ _ _ Eid Hn Had) as (t & Hct & Hst & Ht & Ha). simpl in Hct, Hst, Ht.
  assert (Hsc : inner.(lw_scopes) = comprehension_scope var var2 accu types at' :: s.(lw_scopes)).
  { simpl. by rewrite (proj2 Xi), (proj2 Xr). }
  exists t. split; [apply Ha|]. simpl. split; [by eapply adds_typed|]. exists rt, types, at'.
  pose proof (type_at_extends _ _ _ _ Xi Hrt) as Hrt2. split_and!; [by eapply part_typed| done | | | |].
  - rewrite <-(proj2 Xr). eapply part_typed; [done|exact Ei|reflexivity|done|done].
  - rewrite <-Hsc. by eapply part_typed.
  - rewrite <-Hsc, <-(proj2 Xc). by eapply part_typed.
  - rewrite <-Hsc, <-(proj2 Xc), <-(proj2 Xs). eapply part_typed; [done|exact Ere|reflexivity|done|done].
Qed.

(** A lowered expression is typed, where no node has a dynamic type. *)
Lemma lower_typed_ok e : lower_typed e.
Proof.
  induction e as [| |name|v|elements IH|entries IH|operand field test IH|func target args IHt IH|] using expr_ind.
  - by intros s id s'.
  - by intros s id s'.
  - intros s id s' (scopes & s1 & [= <- <-] & E)%l_bind_ok Hn. simpl. destruct (find_static name (lw_scopes s)) as [t|].
    + apply push_node_adds in E. exists t. split; [apply E|]. split; [by eapply adds_typed|done].
    + destruct (bt_get name parameters) as [p|] eqn:Ep; [|by apply l_lift_ok in E as [? _]].
      apply push_node_adds in E. exists (parameter_static_type p). split; [apply E|]. split; [by eapply adds_typed|]. by exists p.
  - intros s id s' E Hn. exists (literal_type v).
    assert (Ha : adds s s' id (literal_type v) ∧ match v with ValDouble x => f64_is_finite x = true | _ => True end).
    { destruct v; simpl in E; try (by apply push_node_adds in E). destruct (f64_is_finite x) eqn:Ex; [by apply push_node_adds in E|done]. }
    destruct Ha as [Ha Hf]. split; [apply Ha|]. simpl. split; [by eapply adds_typed|done].
  - by apply list_typed.
  - by apply map_typed.
  - intros s id s' (o & s1 & E1 & E)%l_bind_ok Hn. apply l_bind_ok in E as (ot & s2 & [<- Hot]%l_type_at & E).
    apply l_bind_ok in E as (vt & s2 & [Ev <-]%l_lift_ok & Ha%push_node_adds). pose proof (dyn_free_prefix _ _ (proj1 Ha) Hn) as Hn1.
    eexists. split; [apply Ha|]. simpl. split; [by eapply adds_typed|]. exists vt. split; [|done].
    pose proof (type_at_dyn_free _ _ _ Hn1 Hot). destruct ot; simplify_eq/=. eapply part_typed; [done|exact E1|reflexivity|done|done].
  - destruct func; [by apply operator_typed|by apply function_typed].
  - by apply comprehension_typed.
Qed.

End typed.
