(* ===== verification/CelSafety.v ===== *)
(** * Typed conditions do not go wrong

    The meaning of a typed expression is a value of its type, or a failure that
    is not about types: operands always have the types the operations need, and
    names are bound. *)

From S2P Require Import Prelude Ordered Identifier Reference Scalars Context Condition CelValue CelOps.
From S2P Require Import CelMachine CelCompiler CelShape CelSemantics CelBounds CelLowering CelTyping.
From Stdlib Require Import ZArith SpecFloat.

(** ** Values and failures *)

Fixpoint has_type (v : RuntimeValue) (t : StaticType) : Prop :=
  match v, t with
  | VNull, TNull | VBool _, TBool | VInt _, TInt | VUint _, TUint | VString _, TString | VBytes _, TBytes
  | VDuration _, TDuration | VTimestamp _, TTimestamp | VIpAddress _, TIpAddress => True
  | VDouble x, TDouble => f64_is_finite x = true
  | VList l, TList t => foldr (fun v => and (has_type v t)) True l
  | VMap m, TMap t => foldr (fun e => and (has_type e.2 t)) True m
  | _, _ => False
  end.

Lemma has_type_list l t : has_type (VList l) (TList t) ↔ ∀ v, v ∈ l → has_type v t.
Proof. apply (foldr_and_elem (fun v => has_type v t)). Qed.

Lemma has_type_map m t : has_type (VMap m) (TMap t) ↔ ∀ e, e ∈ m → has_type e.2 t.
Proof. apply (foldr_and_elem (fun e => has_type e.2 t)). Qed.

(** Failures that do not come from a type error or an inconsistent program. *)
Definition benign (e : EvaluationError) : Prop := e.(ee_kind) ≠ ETypeMismatch ∧ e.(ee_kind) ≠ EInvalidCompiledState.

Definition safe_result {A} (r : result EvaluationError A) (P : A → Prop) : Prop :=
  match r with Ok a => P a | Err e => benign e end.

Definition safe {A} (c : C A) (P : A → Prop) : Prop := ∀ s, safe_result (c s).2 P.

Lemma c_safe_bind {A B} (c : C A) (f : A → C B) P Q : safe c P → (∀ a, P a → safe (f a) Q) → safe (c ≫= f) Q.
Proof.
  intros Hc Hf s. rewrite c_bind_eq. specialize (Hc s). destruct (c s) as [s' [a|e]]; simpl in *; [by apply Hf|done].
Qed.

Lemma c_safe_ret {A} (a : A) (P : A → Prop) : P a → safe (mret a) P.
Proof. by intros Ha s. Qed.

Lemma c_safe_lift {A} r (P : A → Prop) : safe_result r P → safe (c_lift r) P.
Proof. by intros Hr s. Qed.

Lemma c_safe_fail {A} e (P : A → Prop) : benign e → safe (c_fail e) P.
Proof. by intros He s. Qed.

Lemma safe_impl {A} (c : C A) (P Q : A → Prop) : safe c P → (∀ a, P a → Q a) → safe c Q.
Proof. intros Hc HPQ s. specialize (Hc s). destruct (c s).2; simpl in *; auto. Qed.

Lemma safe_result_bind {A B} (r : result EvaluationError A) (f : A → result EvaluationError B) P Q :
  safe_result r P → (∀ a, P a → safe_result (f a) Q) → safe_result (r ≫= f) Q.
Proof. destruct r; simpl; auto. Qed.

Lemma safe_result_fmap {A B} (f : A → B) (r : result EvaluationError A) P :
  safe_result r (fun a => P (f a)) → safe_result (f <$> r) P.
Proof. by destruct r. Qed.

Lemma safe_ok_or {A} (o : option A) e (P : A → Prop) : benign e → (∀ a, o = Some a → P a) → safe_result (ok_or o e) P.
Proof. destruct o; simpl; auto. Qed.

Section operations.
Context `{Jiff}.
Variable compiled : CelCondition.
Variable maximum_cost : N.
Variable poll : nat → bool.

(** ** Cost and equality *)

Lemma safe_check : safe (check_cancellation poll) (fun _ => True).
Proof. intros s. unfold check_cancellation, mbind, C_bind. simpl. by destruct (poll (meter_polls s)). Qed.

Lemma safe_charge units : safe (charge_units maximum_cost poll units) (fun _ => True).
Proof.
  eapply c_safe_bind; [apply safe_check|]. intros _ _ s. unfold spend_units.
  destruct (checked_add _ _ _); simpl; [|done]. by destruct (maximum_cost <? n)%N.
Qed.

Lemma safe_each {A} (l : list A) : safe (c_each (fun _ => check_cancellation poll) l) (fun _ => True).
Proof. induction l as [|x l IH]; simpl; [by apply c_safe_ret|]. eapply c_safe_bind; [apply safe_check|done]. Qed.

Definition pair_nodes (stack : list (RuntimeValue * RuntimeValue)) : nat := foldr (fun p n => runtime_nodes p.1 + n) 0 stack.

Lemma pair_nodes_app l k : pair_nodes (l ++ k) = pair_nodes l + pair_nodes k.
Proof. induction l as [|x l IH]; simpl; [done|]. rewrite IH. lia. Qed.

Lemma pair_nodes_zip l : ∀ r, pair_nodes (reverse (zip l r)) ≤ foldr (fun v n => runtime_nodes v + n) 0 l.
Proof.
  induction l as [|x l IH]; intros [|y r]; simpl; try lia. rewrite reverse_cons, pair_nodes_app. specialize (IH r). simpl. lia.
Qed.

Lemma safe_push_entries l : ∀ r stack,
  safe (push_entries poll l r stack)
    (fun pushed => ∀ stack', pushed = Some stack' →
       pair_nodes stack' ≤ foldr (fun e n => runtime_nodes e.2 + n) 0 l + pair_nodes stack).
Proof.
  induction l as [|[k v] l IH]; intros [|[k' v'] r] stack; simpl; try (by apply c_safe_ret; intros stack' [= <-]; lia).
  eapply c_safe_bind; [apply safe_check|]. intros _ _. case_match; [|by apply c_safe_ret].
  eapply safe_impl; [apply IH|]. intros pushed Hp stack' Hs. specialize (Hp _ Hs). simpl in Hp. lia.
Qed.

(** The rounds of a comparison are enough. *)
Lemma safe_values_equal_loop fuel : ∀ stack, pair_nodes stack ≤ fuel → safe (values_equal_loop poll fuel stack) (fun _ => True).
Proof.
  induction fuel as [|fuel IH]; intros [|[x y] stack] Hf; simpl; try (by apply c_safe_ret).
  { unfold pair_nodes in Hf. simpl in Hf. destruct x; simpl in Hf; lia. }
  unfold pair_nodes in Hf. simpl in Hf. fold (pair_nodes stack) in Hf.
  assert (Hscalar : runtime_nodes x = 1 → safe (if scalar_equal x y then values_equal_loop poll fuel stack else mret false) (fun _ => True)).
  { intros Hx. destruct (scalar_equal x y); [|by apply c_safe_ret]. apply IH. lia. }
  destruct x, y; try (by apply Hscalar); clear Hscalar; try (by apply c_safe_ret); case_match; try (by apply c_safe_ret).
  - eapply c_safe_bind; [apply safe_each|]. intros _ _. apply IH. rewrite pair_nodes_app. simpl in Hf.
    pose proof (pair_nodes_zip values values0). lia.
  - eapply c_safe_bind; [apply safe_push_entries|]. intros [stack'|] Hs; [|by apply c_safe_ret]. apply IH.
    specialize (Hs _ eq_refl). simpl in Hf. lia.
Qed.

Lemma safe_values_equal x y : safe (values_equal poll x y) (fun _ => True).
Proof. apply safe_values_equal_loop. unfold pair_nodes. simpl. lia. Qed.

(** ** Operators *)

Abbreviation of_type t := (fun v => has_type v t).

Lemma typed_known v t : has_type v t → is_unknown v = false ∧ unknowns v = [].
Proof. by destruct v. Qed.

Lemma collect_unknowns_typed values t : (∀ v, v ∈ values → has_type v t) → collect_unknowns values = None.
Proof.
  intros Hall. unfold collect_unknowns.
  assert (Hf : foldl bs_extend [] (unknowns <$> values) = []); [|by rewrite Hf].
  induction values as [|v values IH]; simpl; [done|]. destruct (typed_known v t) as [_ ->]; [apply Hall; set_solver|].
  apply IH. set_solver.
Qed.

Lemma merge_unknown_typed l r lt rt : has_type l lt → has_type r rt → merge_unknown l r = None.
Proof.
  intros [_ Hl]%typed_known [_ Hr]%typed_known. unfold merge_unknown, collect_unknowns. simpl. by rewrite Hl, Hr.
Qed.

Lemma safe_unary operator v t u : has_type v t → unary_type operator t = Some u → safe_result (apply_unary operator v) (of_type u).
Proof.
  intros Hv Hu. destruct operator, t; simplify_eq/=; destruct v as [| | |z| |x| | | | | | |]; try done; simpl.
  - destruct (in_i64 (- z)); done.
  - simpl in Hv. by destruct x.
Qed.

Lemma safe_traversal size : safe_result (traversal_cost size) (fun _ => True).
Proof. unfold traversal_cost. apply safe_result_fmap, safe_ok_or; done. Qed.

Lemma safe_charge_binary operator l r : safe (charge_binary maximum_cost poll operator l r) (fun _ => True).
Proof.
  unfold charge_binary. cbv zeta. apply (c_safe_bind _ _ (fun _ => True)); [|intros units _; apply safe_charge]. apply c_safe_lift.
  destruct operator; try exact I; try apply safe_traversal; try (case_match; [apply safe_traversal|exact I]); [|by destruct r].
  case_match; [|exact I]. apply (safe_result_bind _ _ (fun _ => True)); [by apply safe_ok_or|]. intros total _. apply safe_traversal.
Qed.

Lemma safe_checked_i64 z : safe_result (checked_i64 z) (of_type TInt).
Proof. unfold checked_i64. by case_match. Qed.

Lemma safe_checked_u64 o : safe_result (checked_u64 o) (of_type TUint).
Proof. unfold checked_u64. by destruct o. Qed.

Lemma safe_finite x : safe_result (finite x) (of_type TDouble).
Proof. unfold finite. by case_match. Qed.

Lemma safe_arithmetic operator l r t :
  operator = BSubtract ∨ operator = BMultiply ∨ operator = BDivide ∨ operator = BModulo →
  has_type l t → has_type r t → match t with TInt | TUint | TDouble => True | _ => False end →
  safe_result match operator with
              | BSubtract => subtract l r
              | BMultiply => multiply l r
              | BDivide => divide l r
              | _ => modulo l r
              end (of_type t).
Proof.
  intros Ho Hl Hr Ht. destruct t; try done; destruct l, r; try done; destruct Ho as [->|[->|[->| ->]]]; simpl;
    try apply safe_checked_i64; try apply safe_checked_u64; try apply safe_finite; case_match; try done;
    try apply safe_checked_i64; apply safe_finite.
Qed.

Lemma finite_compare x y : f64_is_finite x = true → f64_is_finite y = true → is_Some (SFcompare x y).
Proof. destruct x as [| | |[]], y as [| | |[]]; simpl; try done; intros _ _; repeat case_match; by eexists. Qed.

Lemma safe_ordered l r t p : has_type l t → has_type r t → comparable t = true → safe_result (ordered l r p) (of_type TBool).
Proof.
  intros Hl Hr Ht. unfold ordered. assert (Hc : is_Some (compare l r)).
  { destruct t; try done; destruct l, r; try done; simpl in *; try by eexists. by apply finite_compare. }
  destruct Hc as [c ->]. done.
Qed.

Lemma safe_add l r t :
  has_type l t → has_type r t → match t with TInt | TUint | TDouble | TString | TBytes | TList _ => True | _ => False end →
  safe (add compiled poll l r) (of_type t).
Proof.
  assert (Hsum : ∀ x y m, safe_result (bound_sum x y m) (fun _ => True)).
  { intros x y m. unfold bound_sum. apply (safe_result_bind _ _ (fun _ => True)); [by apply safe_ok_or|]. intros total _. by case_match. }
  intros Hl Hr Ht. destruct t; try done; destruct l, r; try done; simpl.
  - apply c_safe_lift, safe_checked_i64.
  - apply c_safe_lift, safe_checked_u64.
  - apply c_safe_lift, safe_finite.
  - eapply c_safe_bind; [apply c_safe_lift, Hsum|]. intros _ _. eapply c_safe_bind; [apply safe_check|]. intros _ _. by apply c_safe_ret.
  - eapply c_safe_bind; [apply c_safe_lift, Hsum|]. intros _ _. eapply c_safe_bind; [apply safe_check|]. intros _ _. by apply c_safe_ret.
  - eapply c_safe_bind; [apply c_safe_lift, Hsum|]. intros _ _. eapply c_safe_bind; [apply safe_each|]. intros _ _. apply c_safe_ret.
    apply has_type_list. rewrite has_type_list in Hl, Hr. set_solver.
Qed.

Lemma safe_member needle values : safe (member_of poll needle values) (of_type TBool).
Proof.
  induction values as [|v values IH]; simpl; [by apply c_safe_ret|]. eapply c_safe_bind; [apply safe_check|]. intros _ _.
  eapply c_safe_bind; [apply safe_values_equal|]. intros [] _; [by apply c_safe_ret|done].
Qed.

Lemma entry_get_typed k m t v : has_type (VMap m) (TMap t) → entry_get k m = Some v → has_type v t.
Proof.
  rewrite has_type_map. unfold entry_get. intros Hm. induction m as [|[k' w] m IH]; simpl; [done|].
  assert (IH' : bt_get k m = Some v → has_type v t) by (apply IH; set_solver).
  destruct (cmp k k'); [|done|done]. intros [= <-]. apply (Hm (k', w)). set_solver.
Qed.

Lemma safe_index l r lt rt t :
  has_type l lt → has_type r rt → dyn_free lt = true → dyn_free rt = true → index_type lt rt = Ok t →
  safe (index poll l r) (of_type t).
Proof.
  intros Hl Hr Hdl Hdr Ht. destruct lt as [| | | | | | | | | | |lt|lt]; try done.
  - destruct l; try done. rewrite has_type_list in Hl. destruct rt; simplify_eq/=; destruct r; try done; simpl.
    + apply c_safe_lift, safe_ok_or; [done|]. intros v. case_match; [|done]. intros Hv. by eapply Hl, list_elem_of_lookup_2.
    + apply c_safe_lift, safe_ok_or; [done|]. intros v Hv. by eapply Hl, list_elem_of_lookup_2.
  - destruct l; try done. cbn [index_type] in Ht. destruct (accepts TString rt) eqn:Ea; simplify_eq.
    apply accepts_eq in Ea as <-; [|done|done]. destruct r; try done. simpl.
    eapply c_safe_bind; [apply safe_check|]. intros _ _. apply c_safe_lift, safe_ok_or; [done|]. intros v. by apply entry_get_typed.
Qed.

Lemma safe_membership l r lt rt t :
  has_type l lt → has_type r rt → dyn_free lt = true → dyn_free rt = true → membership_type lt rt = Ok t →
  safe (membership poll l r) (of_type t).
Proof.
  intros Hl Hr Hdl Hdr Ht. destruct rt as [| | | | | | | | | | |rt|rt]; try done; destruct r; try done; cbn [membership_type] in Ht.
  - case_match; simplify_eq. apply safe_member.
  - destruct (accepts TString lt) eqn:Ea; simplify_eq. apply accepts_eq in Ea as <-; [|done|done]. destruct l; try done. simpl.
    eapply c_safe_bind; [apply safe_check|]. intros _ _. by apply c_safe_ret.
Qed.

Lemma safe_binary operator l r lt rt t :
  has_type l lt → has_type r rt → dyn_free lt = true → dyn_free rt = true → binary_type operator lt rt = Ok t →
  safe (apply_binary compiled maximum_cost poll operator l r) (of_type t).
Proof.
  intros Hl Hr Hdl Hdr Ht. eapply c_safe_bind; [apply safe_charge_binary|]. intros _ _. rewrite (merge_unknown_typed _ _ _ _ Hl Hr).
  assert (Hsame : ∀ b, accepts lt rt && b = true → lt = rt ∧ b = true).
  { intros b [Ha Hb]%andb_true_iff. split; [by apply accepts_eq|done]. }
  destruct operator; cbn [binary_type] in Ht;
    try (rewrite andb_comm in Ht; destruct (accepts lt rt && comparable lt) eqn:Ea; [injection Ht as <-|done];
         destruct (Hsame _ Ea) as [<- Hb]; by eapply c_safe_lift, safe_ordered);
    try (destruct (accepts lt rt && _) eqn:Ea; [injection Ht as <-|done]; destruct (Hsame _ Ea) as [<- Hb]).
  - apply safe_add; [done|done|]. by destruct lt.
  - apply c_safe_lift, (safe_arithmetic BSubtract); [by auto|done|done|by destruct lt].
  - apply c_safe_lift, (safe_arithmetic BMultiply); [by auto|done|done|by destruct lt].
  - apply c_safe_lift, (safe_arithmetic BDivide); [by auto|done|done|by destruct lt].
  - apply c_safe_lift, (safe_arithmetic BModulo); [by auto|done|done|by destruct lt].
  - case_match; simplify_eq. eapply c_safe_bind; [apply safe_values_equal|]. intros b _. by apply c_safe_ret.
  - case_match; simplify_eq. eapply c_safe_bind; [apply safe_values_equal|]. intros b _. by apply c_safe_ret.
  - by eapply safe_membership.
  - by eapply safe_index.
Qed.

Lemma safe_select field test v t :
  has_type v (TMap t) → safe (select poll field test v) (of_type (if test then TBool else t)).
Proof.
  intros Hv. destruct v; try done. simpl. eapply c_safe_bind; [apply safe_check|]. intros _ _. destruct test; [by apply c_safe_ret|].
  apply c_safe_lift, safe_ok_or; [done|]. intros v. by apply entry_get_typed.
Qed.

(** ** Functions *)

Lemma safe_size v t : has_type v t → match t with TString | TBytes | TList _ | TMap _ => True | _ => False end →
  safe_result (size v) (of_type TInt).
Proof. intros Hv Ht. destruct t; try done; destruct v; try done; apply safe_checked_i64. Qed.

Lemma safe_cast_int v t : has_type v t → match t with TInt | TUint | TDouble | TString => True | _ => False end →
  safe_result (cast_int v) (of_type TInt).
Proof.
  intros Hv Ht. destruct t; try done; destruct v; try done; simpl.
  - by case_match.
  - unfold exact_double_to_int. case_match; [done|]. by destruct (parse_i64 _).
  - by destruct (parse_i64 _).
Qed.

Lemma safe_cast_uint v t : has_type v t → match t with TInt | TUint | TDouble | TString => True | _ => False end →
  safe_result (cast_uint v) (of_type TUint).
Proof.
  intros Hv Ht. destruct t; try done; destruct v; try done; simpl.
  - by case_match.
  - unfold exact_double_to_uint. case_match; [done|]. by destruct (parse_unsigned _ _).
  - by destruct (parse_unsigned _ _).
Qed.

Lemma safe_cast_double v t : has_type v t → match t with TInt | TUint | TDouble | TString => True | _ => False end →
  safe_result (cast_double v) (of_type TDouble).
Proof.
  intros Hv Ht. apply (safe_result_bind _ _ (fun _ => True)); [|intros; apply safe_finite].
  destruct t; try done; destruct v; try done; by apply safe_ok_or.
Qed.

Lemma safe_cast_string v t :
  has_type v t → match t with TString | TInt | TUint | TDouble | TBool | TBytes => True | _ => False end →
  safe_result (cast_string v) (of_type TString).
Proof.
  intros Hv Ht. apply (safe_result_bind _ _ (fun _ => True)); [|done].
  destruct t; try done; destruct v; try done; by apply safe_ok_or.
Qed.

Lemma safe_parses s :
  safe_result (VDuration <$> parse_duration s) (of_type TDuration) ∧
  safe_result (VTimestamp <$> parse_timestamp s) (of_type TTimestamp) ∧
  safe_result (VIpAddress <$> parse_ip_address s) (of_type TIpAddress).
Proof.
  unfold parse_duration, parse_timestamp, parse_ip_address. split_and!.
  - case_match; [done|]. by destruct (jiff_duration _).
  - case_match; [|done]. by destruct (jiff_timestamp _).
  - by destruct (parse_ip s).
Qed.

Lemma safe_in_cidr address cidr : safe_result (VBool <$> ip_in_cidr address cidr) (of_type TBool).
Proof.
  apply safe_result_fmap. unfold ip_in_cidr. apply (safe_result_bind _ _ (fun _ => True)); [by apply safe_ok_or|]. intros [n p] _.
  apply (safe_result_bind _ _ (fun _ => True)); [by apply safe_result_fmap, safe_ok_or|]. intros network _.
  apply (safe_result_bind _ _ (fun _ => True)); [by apply safe_ok_or|]. intros prefix _.
  unfold cidr_matches. repeat case_match; done.
Qed.

Definition target_typed (target : option RuntimeValue) (t : option StaticType) : Prop :=
  match target, t with Some v, Some t => has_type v t | None, None => True | _, _ => False end.

Lemma safe_apply_function function receiver values target_type types t :
  target_typed receiver target_type → Forall2 has_type values types → (∀ u, target_type = Some u → dyn_free u = true) →
  Forall (fun u => dyn_free u = true) types → function_type function target_type types = Ok t →
  safe_result (apply_function function (bool_decide (is_Some receiver))
                 (match receiver with Some v => v :: values | None => values end)) (of_type t).
Proof.
  intros Hr Hv Hdt Hd Ht. unfold apply_function.
  assert (Hk : existsb is_unknown (match receiver with Some v => v :: values | None => values end) = false).
  { assert (Hvs : existsb is_unknown values = false).
    { clear Hd Ht. induction Hv as [|v u values types Hv _ IH]; simpl; [done|]. by destruct (typed_known _ _ Hv) as [-> _]. }
    destruct receiver, target_type; try done. simpl. by destruct (typed_known _ _ Hr) as [-> _]. }
  rewrite Hk. clear Hk. destruct receiver as [r|], target_type as [u|]; try done.
  - specialize (Hdt _ eq_refl). destruct Hv as [|v w ? ? Hv Hvs]; [|destruct Hvs].
    + destruct function; try done; destruct u; try done; injection Ht as <-; by eapply safe_size.
    + decompose_Forall_hyps. destruct function; try done; destruct u; try done; destruct w; try done; injection Ht as <-;
        destruct r; try done; destruct v; try done. apply safe_in_cidr.
    + destruct function; try done; destruct u; try done; by destruct w.
  - destruct Hv as [|v w ? ? Hv Hvs]; [by destruct function|destruct Hvs; [|destruct function; try done; by destruct w]].
    decompose_Forall_hyps.
    destruct function; try done; cbn -[size cast_int cast_uint cast_double cast_string];
      destruct w; try done; injection Ht as <-;
      first [by eapply safe_size|by eapply safe_cast_int|by eapply safe_cast_uint|by eapply safe_cast_double
            |by eapply safe_cast_string|destruct v; try done; apply safe_parses].
Qed.

Lemma safe_call function receiver values target_type types t :
  target_typed receiver target_type → Forall2 has_type values types → (∀ u, target_type = Some u → dyn_free u = true) →
  Forall (fun u => dyn_free u = true) types → function_type function target_type types = Ok t →
  safe (call_function maximum_cost poll function (bool_decide (is_Some receiver))
          (match receiver with Some v => v :: values | None => values end)) (of_type t).
Proof.
  intros Hr Hv Hdt Hd Ht. apply (c_safe_bind _ _ (fun _ => True)); [|intros _ _; apply c_safe_lift; by eapply safe_apply_function].
  unfold charge_function. apply (c_safe_bind _ _ (fun _ => True)); [|intros units _; apply safe_charge]. apply c_safe_lift.
  assert (Hmul : ∀ a b, safe_result (x ← traversal_cost a; y ← traversal_cost b; ok_or (checked_mul U64_MAX x y) cost_exceeded) (fun _ => True)).
  { intros a b. apply (safe_result_bind _ _ (fun _ => True)); [apply safe_traversal|]. intros x _.
    apply (safe_result_bind _ _ (fun _ => True)); [apply safe_traversal|]. intros y _. by apply safe_ok_or. }
  repeat case_match; first [exact I|apply safe_traversal|apply Hmul].
Qed.

End operations.

(** ** Expressions *)

Section expressions.
Context `{Jiff}.
Variable compiled : CelCondition.
Variable maximum_cost : N.
Variable poll : nat → bool.
Variable parameter_values : BTreeMap ParameterName RuntimeValue.

Abbreviation parameters := compiled.(cel_parameters).
Abbreviation denote := (denote compiled maximum_cost poll parameter_values).
Abbreviation typed := (typed parameters).
Abbreviation of_type t := (fun v => has_type v t).

(** Every parameter without a dynamic type has a value of its type. *)
Hypothesis parameters_typed : ∀ name p,
  bt_get name parameters = Some p → dyn_free (parameter_static_type p) = true →
  ∃ v, bt_get name parameter_values = Some v ∧ has_type v (parameter_static_type p).

(** The given names are bound to values of their static types, or are not
    locals at all. *)
Definition env_ok (names : list rstr) (statics : list (BTreeMap rstr StaticType)) (declared : list rstr) (sc : list Scope) : Prop :=
  ∀ name, name ∈ names →
    match find_static name statics with
    | Some t => ∃ v, find_local name sc = Some v ∧ has_type v t
    | None => find_local name sc = None ∧ name ∉ declared
    end.

Lemma env_ok_child e x statics declared sc :
  x ∈ children e → env_ok (identifiers e) statics declared sc → env_ok (identifiers x) statics declared sc.
Proof. intros Hx Hok name Hn. apply Hok. by eapply identifiers_child. Qed.

Lemma safe_list {A} (eval : A → C RuntimeValue) t es : ∀ values,
  (∀ e, e ∈ es → safe (eval e) (of_type t)) → (∀ v, v ∈ values → has_type v t) →
  safe (list_literal compiled maximum_cost poll eval es values) (of_type (TList t)).
Proof.
  induction es as [|e es IH]; intros values He Hv; simpl.
  - eapply c_safe_bind; [apply safe_charge|]. intros _ _. apply c_safe_ret. rewrite (collect_unknowns_typed _ t) by done. by apply has_type_list.
  - eapply c_safe_bind; [apply safe_check|]. intros _ _. eapply c_safe_bind; [apply He; set_solver|]. intros v Ht.
    case_match; [by apply c_safe_fail|]. apply IH; [set_solver|]. intros w [Hw| ->%list_elem_of_singleton]%elem_of_app; auto.
Qed.

Lemma safe_distinct key values : safe (distinct_key poll key values) (fun _ => True).
Proof.
  induction values as [|[k v] values IH]; simpl; [by apply c_safe_ret|]. eapply c_safe_bind; [apply safe_check|]. intros _ _.
  case_match; [by apply c_safe_fail|done].
Qed.

Lemma safe_map {A} (key value : A → C RuntimeValue) t es : ∀ values,
  (∀ e, e ∈ es → safe (key e) (of_type TString) ∧ safe (value e) (of_type t)) → (∀ e, e ∈ values → has_type e.2 t) →
  safe (map_literal compiled maximum_cost poll key value es values) (of_type (TMap t)).
Proof.
  induction es as [|e es IH]; intros values He Hv; simpl.
  - eapply c_safe_bind; [apply safe_charge|]. intros _ _. apply c_safe_ret.
    rewrite (collect_unknowns_typed _ t) by (intros v (x & -> & Hx)%list_elem_of_fmap; by apply Hv).
    apply has_type_map. unfold sort_entries. by setoid_rewrite sort_by_permutation.
  - destruct (He e) as [Hk Hw]; [set_solver|]. eapply c_safe_bind; [apply safe_check|]. intros _ _.
    eapply c_safe_bind; [exact Hk|]. intros k Htk. destruct k; try done. eapply c_safe_bind; [exact Hw|]. intros w Htw.
    eapply c_safe_bind; [apply safe_distinct|]. intros _ _. destruct (typed_known _ _ Htw) as [-> _].
    apply (c_safe_bind _ _ (fun _ => True)); [apply c_safe_lift; unfold accept_entry; by case_match|]. intros _ _.
    apply IH; [set_solver|]. intros x [Hx| ->%list_elem_of_singleton]%elem_of_app; auto.
Qed.

Lemma safe_logical l r and : safe l (of_type TBool) → safe r (of_type TBool) → safe (logical l r and) (of_type TBool).
Proof.
  intros Hl Hr. apply (c_safe_bind _ _ (fun lv => match lv with Ok v => has_type v TBool | Err e => benign e end)).
  { intros s. specialize (Hl s). unfold c_try. by destruct (l s) as [s' [v|e]]. }
  intros [v|e] Hv.
  - destruct v; try done. case_match; [by apply c_safe_ret|done].
  - case_match; [|by apply c_safe_fail]. apply (c_safe_bind _ _ (fun rv => match rv with Ok v => has_type v TBool | Err e => benign e end)).
    { intros s. specialize (Hr s). unfold c_try. by destruct (r s) as [s' [v|e']]. }
    intros [v|e'] Hv'; [|apply c_safe_fail; by case_match]. destruct v; try done. case_match; [by apply c_safe_ret|by apply c_safe_fail].
Qed.

Lemma safe_args {A} function receiver target_type (eval : A → C RuntimeValue) t args : ∀ values before after,
  target_typed receiver target_type → Forall2 has_type values before → (∀ u, target_type = Some u → dyn_free u = true) →
  Forall (fun u => dyn_free u = true) (before ++ after) → all2 (fun e u => safe (eval e) (of_type u)) args after →
  function_type function target_type (before ++ after) = Ok t →
  safe (call_value maximum_cost poll function (bool_decide (is_Some receiver)) eval args
          (match receiver with Some v => v :: values | None => values end)) (of_type t).
Proof.
  induction args as [|e args IH]; intros values before [|u after] Hr Hv Hdt Hd; simpl; try done.
  - intros _ Ht. rewrite app_nil_r in *. by eapply safe_call.
  - intros [He Hargs] Ht. eapply c_safe_bind; [exact He|]. intros v Hu. rewrite cons_middle, app_assoc in Hd, Ht.
    assert (Heq : match receiver with Some r => r :: values | None => values end ++ [v] =
                  match receiver with Some r => r :: (values ++ [v]) | None => values ++ [v] end) by (by destruct receiver).
    rewrite Heq. eapply IH; [done| |done|done|done|done]. by apply Forall2_app; [|constructor].
Qed.

(** ** Comprehensions *)

Lemma bound_get {V} (var : rstr) (var2 : option rstr) (accu : rstr) (a : V) (o : option V) (c : V) m name :
  bt_get name (bt_insert accu c (match var2, o with
                                 | Some n, Some w => bt_insert n w (bt_insert var a m)
                                 | _, _ => bt_insert var a m
                                 end)) =
  if decide (name = accu) then Some c
  else match match var2 with Some n => if decide (name = n) then o else None | None => None end with
       | Some w => Some w
       | None => if decide (name = var) then Some a else bt_get name m
       end.
Proof.
  destruct (decide (name = accu)) as [->|Hne]; [apply bt_get_insert_eq|]. rewrite bt_get_insert_ne by done.
  assert (Hvar : bt_get name (bt_insert var a m) = if decide (name = var) then Some a else bt_get name m).
  { case_decide as Hv; [subst; apply bt_get_insert_eq|by apply bt_get_insert_ne]. }
  destruct var2 as [n|]; [|done]. destruct (decide (name = n)) as [->|Hn], o; try done.
  - apply bt_get_insert_eq.
  - by rewrite bt_get_insert_ne.
Qed.

Section comprehension.
Variable var : rstr.
Variable var2 : option rstr.
Variable accu : rstr.
Variable types : StaticType * option StaticType.
Variable accu_type : StaticType.

Abbreviation statics_of := (comprehension_scope var var2 accu types accu_type).

Definition item_typed (item : RuntimeValue * option RuntimeValue) : Prop :=
  has_type item.1 types.1 ∧
  match item.2, types.2 with Some v, Some t => has_type v t | None, None => True | _, _ => False end.

(** What is bound in the scope has its static type. *)
Definition scope_typed (scope : Scope) : Prop := ∀ name,
  match bt_get name statics_of with
  | Some t => ∀ v, bt_get name scope = Some v → has_type v t
  | None => bt_get name scope = None
  end.

Lemma scope_typed_accu scope acc : scope_typed scope → has_type acc accu_type → scope_typed (bt_insert accu acc scope).
Proof.
  intros Hs Ha name. specialize (Hs name). unfold comprehension_scope in *. rewrite bound_get in *.
  destruct (decide (name = accu)) as [->|Hne]; [rewrite bt_get_insert_eq; by intros v [= <-]|]. by rewrite bt_get_insert_ne.
Qed.

Lemma scope_typed_bind scope item acc :
  scope_typed scope → item_typed item → has_type acc accu_type →
  scope_typed (bind_scope var var2 accu item acc scope) ∧
  ∀ name, is_Some (bt_get name statics_of) → is_Some (bt_get name (bind_scope var var2 accu item acc scope)).
Proof.
  intros Hs [H1 H2] Ha.
  assert (Hb : ∀ name, match bt_get name statics_of with
    | Some t => ∃ v, bt_get name (bind_scope var var2 accu item acc scope) = Some v ∧ has_type v t
    | None => bt_get name (bind_scope var var2 accu item acc scope) = None end).
  { intros name. specialize (Hs name). unfold comprehension_scope, bind_scope in *. rewrite !bound_get in *.
    destruct (decide (name = accu)); [by eexists|].
    destruct var2 as [second|]; [|destruct (decide (name = var)); [by eexists|done]].
    destruct (decide (name = second)); [|destruct (decide (name = var)); [by eexists|done]].
    destruct item.2, types.2; try done; [by eexists|]. destruct (decide (name = var)); [by eexists|done]. }
  split; intros name; specialize (Hb name); destruct (bt_get name statics_of); try done.
  - destruct Hb as (v & -> & Hv). by intros w [= <-].
  - intros _. destruct Hb as (v & -> & Hv). by eexists.
Qed.

Lemma env_inside names statics declared sc scope :
  env_ok names statics declared sc → scope_typed scope →
  (∀ name, name ∈ names → is_Some (bt_get name statics_of) → is_Some (bt_get name scope)) →
  env_ok names (statics_of :: statics) (var :: accu :: declared) (scope :: sc).
Proof.
  intros He Hs Hb name Hn. specialize (He name Hn). specialize (Hs name). specialize (Hb name Hn). simpl.
  destruct (bt_get name statics_of) as [t|] eqn:Et.
  - destruct Hb as [v Hv]; [by eexists|]. rewrite Hv in Hs |- *. exists v. split; [done|by apply Hs].
  - rewrite Hs. destruct (find_static name statics); [done|]. destruct He as [Hl Hd]. split; [done|].
    unfold comprehension_scope in Et. rewrite bound_get in Et.
    destruct (decide (name = accu)); [done|]. rewrite !not_elem_of_cons. split_and!; [|done|done].
    intros ->. destruct var2; repeat case_decide; try done. by destruct types.2.
Qed.

Lemma safe_loop cond step result t items : ∀ acc scope,
  (∀ scope, scope_typed scope → (∀ name, is_Some (bt_get name statics_of) → is_Some (bt_get name scope)) →
     safe (cond scope) (of_type TBool) ∧ safe (step scope) (of_type accu_type)) →
  (∀ scope acc, scope_typed scope → has_type acc accu_type → safe (result (bt_insert accu acc scope)) (of_type t)) →
  (∀ item, item ∈ items → item_typed item) → has_type acc accu_type → scope_typed scope →
  safe (comprehension_loop poll var var2 accu cond step result items acc scope) (of_type t).
Proof.
  induction items as [|item items IH]; intros acc scope Hc Hr Hi Ha Hs; simpl; [by apply Hr|].
  eapply c_safe_bind; [apply safe_check|]. intros _ _.
  destruct (scope_typed_bind scope item acc Hs (Hi item ltac:(set_solver)) Ha) as [Hb Hfull].
  destruct (Hc _ Hb Hfull) as [Hcond Hstep]. eapply c_safe_bind; [exact Hcond|]. intros c Ht. destruct c as [| |[]| | | | | | | | | |]; try done.
  - eapply c_safe_bind; [exact Hstep|]. intros a Hta. apply IH; try done. set_solver.
  - by apply Hr.
Qed.

End comprehension.

Lemma range_items_typed r rt types :
  has_type r rt → dyn_free rt = true → iterable_types rt = Ok types →
  is_unknown r = false ∧ ∃ items, range_items r = Some items ∧ ∀ item, item ∈ items → item_typed types item.
Proof.
  intros Hr Hd Ht. destruct rt; try done; destruct r; try done; injection Ht as <-; (split; [done|]); eexists; (split; [done|]).
  - rewrite has_type_list in Hr. intros item (v & -> & Hv)%list_elem_of_fmap. split; [by apply Hr|done].
  - rewrite has_type_map in Hr. intros item (v & -> & Hv)%list_elem_of_fmap. split; [done|]. by apply Hr.
Qed.

(** The result of a comprehension does not read its iteration variables. *)
Definition results_closed (e : Expr) : Prop :=
  everywhere (fun e => match e with
                       | XComprehension _ var var2 _ _ _ _ result =>
                           (var ∉ identifiers result) ∧ ∀ name, var2 = Some name → name ∉ identifiers result
                       | _ => True
                       end) e.

(** The meaning of [e] has its type. *)
Definition sound (e : Expr) : Prop := ∀ statics declared sc t,
  typed statics e t → env_ok (identifiers e) statics declared sc → results_closed e → safe (denote declared sc e) (of_type t).

Lemma typed_dyn_free statics e t : typed statics e t → dyn_free t = true.
Proof. by destruct e; intros [? _]. Qed.

Lemma child_sound e x statics declared sc t :
  sound x → x ∈ children e → typed statics x t → env_ok (identifiers e) statics declared sc → results_closed e →
  safe (denote declared sc x) (of_type t).
Proof.
  intros Hx Hin Ht He Hc. eapply Hx; [done|by eapply env_ok_child|]. apply everywhere_children in Hc as [_ Hc]. by apply Hc.
Qed.

Lemma comprehension_sound range var var2 accu init cond step result :
  sound range → sound init → sound cond → sound step → sound result →
  sound (XComprehension range var var2 accu init cond step result).
Proof.
  set (e := XComprehension range var var2 accu init cond step result).
  intros Hr Hi Hc Hs He statics declared sc t (_ & rt & types & at' & Tr & Tt & Ti & Tc & Ts & Te) Henv Hcl. simpl in Tc, Ts, Te.
  assert (Hin : ∀ x, x ∈ [range; init; cond; step; result] → x ∈ children e) by done.
  unfold e. cbn [CelSemantics.denote]. eapply c_safe_bind; [apply safe_check|]. intros _ _.
  eapply c_safe_bind; [eapply (child_sound e range); [done|apply Hin; set_solver|done..]|]. intros r Htr.
  destruct (range_items_typed r rt types Htr (typed_dyn_free _ _ _ Tr) Tt) as (Hu & items & Hitems & Hty).
  set (declared' := var :: accu :: declared). set (inside x scope := denote declared' (scope :: sc) x).
  cut (safe (a ← denote declared sc init; comprehension_loop poll var var2 accu (inside cond) (inside step) (inside result) items a [])
         (of_type t)); [rewrite Hitems; by destruct r|].
  eapply c_safe_bind; [eapply (child_sound e init); [done|apply Hin; set_solver|done..]|]. intros a Hta.
  pose proof Hcl as [[Hv Hv2] Hcc]%everywhere_children.
  apply (safe_loop var var2 accu types at'); [| |done|done|by intros name; case_match].
  - intros scope Hst Hfull. split; [eapply Hc|eapply Hs]; try done; try (apply Hcc, Hin; set_solver);
      (apply env_inside; [eapply (env_ok_child e); [apply Hin; set_solver|done]|done|by intros name _ Hn; apply Hfull]).
  - intros scope acc Hst Hacc. eapply He; [done| |apply Hcc, Hin; set_solver].
    apply env_inside; [eapply (env_ok_child e); [apply Hin; set_solver|done]|by apply scope_typed_accu|].
    intros name Hname [u Hu']. unfold comprehension_scope in Hu'. rewrite bound_get in Hu'.
    destruct (decide (name = accu)) as [->|Hne]; [rewrite bt_get_insert_eq; by eexists|].
    exfalso. destruct var2 as [second|]; repeat case_decide; simplify_eq; try done; by eapply Hv2.
Qed.

Lemma name_sound name : sound (XIdent name).
Proof.
  intros statics declared sc t [Hd Ht] Henv _. cbn [CelSemantics.denote]. eapply c_safe_bind; [apply safe_check|]. intros _ _.
  eapply c_safe_bind; [apply safe_charge|]. intros _ _. apply c_safe_lift. unfold name_value.
  specialize (Henv name ltac:(unfold identifiers; simpl; set_solver)). destruct (find_static name statics) as [u|].
  - destruct Henv as (v & -> & Hv). by subst.
  - destruct Henv as [-> Hn]. destruct Ht as (p & Hp & ->). rewrite bool_decide_false by done.
    destruct (parameters_typed name p Hp Hd) as (v & Hv & Htv). by rewrite Hp, Hv.
Qed.

Lemma operator_sound operator target args : Forall sound args → sound (XCall (FOperator operator) target args).
Proof.
  set (e := XCall (FOperator operator) target args). intros IH statics declared sc t [Hd Ht] Henv Hcl.
  assert (Hch : ∀ x u, x ∈ args → typed statics x u → safe (denote declared sc x) (of_type u)).
  { intros x u Hx Hu. rewrite Forall_forall in IH. eapply (child_sound e x); [by apply IH| |done..]. simpl. destruct target; set_solver. }
  unfold e. cbn [CelSemantics.denote]. eapply c_safe_bind; [apply safe_check|]. intros _ _.
  assert (H1 : ∀ o x u, x ∈ args → typed statics x u → unary_type o u = Some t →
    safe (v ← denote declared sc x; charge_one maximum_cost poll;; c_lift (apply_unary o v)) (of_type t)).
  { intros o x u Hx Hu Ho. eapply c_safe_bind; [exact (Hch x u Hx Hu)|]. intros v Hv. eapply c_safe_bind; [apply safe_charge|]. intros _ _.
    apply c_safe_lift. exact (safe_unary _ _ _ _ Hv Ho). }
  assert (H2 : ∀ o l r lt rt, l ∈ args → r ∈ args → typed statics l lt → typed statics r rt → binary_type o lt rt = Ok t →
    safe (lv ← denote declared sc l; rv ← denote declared sc r; apply_binary compiled maximum_cost poll o lv rv) (of_type t)).
  { intros o l r lt rt Hl Hr Hlt Hrt Ho. eapply c_safe_bind; [exact (Hch l lt Hl Hlt)|]. intros lv Hlv.
    eapply c_safe_bind; [exact (Hch r rt Hr Hrt)|]. intros rv Hrv.
    by apply (safe_binary _ _ _ o _ _ _ _ _ Hlv Hrv (typed_dyn_free _ _ _ Hlt) (typed_dyn_free _ _ _ Hrt)). }
  unfold e in Ht. clear e Henv Hcl.
  destruct operator, args as [|x [|y [|z [|w args]]]]; simpl in Ht; try done;
    try (destruct Ht as (u & Hx & Hu); eapply H1; [|exact Hx|exact Hu]; set_solver);
    try (destruct Ht as (lt & rt & Hl & Hr & Hb); eapply H2; [| |exact Hl|exact Hr|exact Hb]; set_solver);
    try (destruct Ht as (-> & Hx & Hy); apply safe_logical; apply Hch; [set_solver|done|set_solver|done]).
  destruct Ht as (Hx & Hy & Hz). eapply c_safe_bind; [apply (Hch x); [set_solver|done]|]. intros c Hc.
  destruct c as [| |[]| | | | | | | | | |]; try done; apply Hch; (set_solver || done).
Qed.

Lemma function_sound name target args :
  (∀ e, target = Some e → sound e) → Forall sound args → sound (XCall (FFunction name) target args).
Proof.
  set (e := XCall (FFunction name) target args). intros IHt IH statics declared sc t (Hd & function & tt & types & Hf & Htt & Hty & Hft).
  intros Henv Hcl. assert (Hargs : all2 (fun e u => safe (denote declared sc e) (of_type u)) args types).
  { eapply all2_mono, Hty. apply Forall_forall. intros x Hx u Hu. rewrite Forall_forall in IH.
    eapply (child_sound e x); [by apply IH| |done..]. simpl. destruct target; set_solver. }
  assert (Hdy : Forall (fun u => dyn_free u = true) types).
  { clear -Hty. revert types Hty. induction args as [|x args IH]; intros [|u types]; simpl; try done.
    intros [Hx Hargs]. constructor; [by eapply typed_dyn_free|by apply IH]. }
  unfold e. cbn [CelSemantics.denote]. rewrite Hf. eapply c_safe_bind; [apply safe_check|]. intros _ _.
  destruct target as [x|], tt as [u|]; try done.
  - eapply c_safe_bind; [eapply (child_sound e x); [by apply IHt|simpl; set_solver|done..]|]. intros v Hv.
    apply (safe_args function (Some v) (Some u) _ t args [] [] types); try done.
    intros u' [= <-]. by eapply typed_dyn_free.
  - by apply (safe_args function None None _ t args [] [] types).
Qed.

(** Typed expressions do not go wrong. *)
Lemma denote_sound e : sound e.
Proof.
  induction e as [| |name|v|elements IH|entries IH|operand field test IH|func target args IHt IH|range var var2 accu init cond step result IHr IHi IHc IHs IHe]
    using expr_ind.
  - by intros statics declared sc t [_ []].
  - by intros statics declared sc t [_ []].
  - apply name_sound.
  - intros statics declared sc t (_ & -> & Hfin) _ _. cbn [CelSemantics.denote]. eapply c_safe_bind; [apply safe_check|]. intros _ _.
    apply (c_safe_bind _ _ (fun _ => True)); [|intros _ _; apply c_safe_ret].
    { apply c_safe_lift. unfold validate_runtime_value. cbv zeta. by match goal with |- safe_result (if ?b then _ else _) _ => destruct b end. }
    by destruct v.
  - intros statics declared sc t (_ & u & -> & Hall) Henv Hcl. cbn [CelSemantics.denote]. eapply c_safe_bind; [apply safe_check|]. intros _ _.
    apply safe_list; [|set_solver]. rewrite (foldr_and_elem (fun e => typed statics e u)) in Hall. rewrite Forall_forall in IH.
    intros x Hx. eapply (child_sound (XList elements) x); [by apply IH|done|by apply Hall|done..].
  - intros statics declared sc t (_ & u & -> & Hall) Henv Hcl. cbn [CelSemantics.denote]. eapply c_safe_bind; [apply safe_check|]. intros _ _.
    apply safe_map; [|set_solver]. rewrite foldr_and_elem in Hall. rewrite Forall_forall in IH. intros entry Hen.
    specialize (Hall entry Hen). specialize (IH entry Hen). destruct entry as [key value optional|]; [|done].
    assert (Hkv : ∀ x, x ∈ [key; value] → x ∈ children (XMap entries)).
    { intros x Hx. simpl. apply list_elem_of_bind. by exists (EntryMap key value optional). }
    split; (eapply (child_sound (XMap entries)); [apply IH|apply Hkv; set_solver|apply Hall|done..]).
  - intros statics declared sc t (_ & u & Hu & ->) Henv Hcl. cbn [CelSemantics.denote]. eapply c_safe_bind; [apply safe_check|]. intros _ _.
    eapply c_safe_bind; [eapply (child_sound (XSelect operand field test)); [done|simpl; set_solver|done..]|]. intros v Hv.
    eapply c_safe_bind; [apply safe_charge|]. intros _ _. by apply safe_select.
  - destruct func; [by apply operator_sound|by apply function_sound].
  - by apply comprehension_sound.
Qed.

End expressions.

(** ** Parameters *)

Section parameters.
Context `{Jiff}.
Variable compiled : CelCondition.
Variable poll : nat → bool.

Lemma convert_list_typed (f : ContextValue → result EvaluationError RuntimeValue) t l l' :
  (∀ v w, f v = Ok w → has_type w t) → try_collect f l = Ok l' → has_type (VList l') (TList t).
Proof.
  intros Hf E%try_collect_ok. apply has_type_list. intros w [j Hj]%list_elem_of_lookup.
  destruct (Forall2_lookup_r _ _ _ _ _ E Hj) as (v & _ & Ev). by eapply Hf.
Qed.

Lemma convert_map_typed (f : ContextValue → result EvaluationError RuntimeValue) t m m' :
  (∀ v w, f v = Ok w → has_type w t) → try_collect (convert_entry f) m = Ok m' → has_type (VMap (sort_entries m')) (TMap t).
Proof.
  intros Hf E%try_collect_ok. apply has_type_map. unfold sort_entries. setoid_rewrite sort_by_permutation.
  intros e [j Hj]%list_elem_of_lookup. destruct (Forall2_lookup_r _ _ _ _ _ E Hj) as (x & _ & Ex).
  apply result_fmap_ok in Ex as (w & -> & Ew). by eapply Hf.
Qed.

Fixpoint convert_kind_typed (kind : ParameterTypeKind) v w :
  dyn_free (kind_static_type kind) = true → convert_kind kind v = Ok w → has_type w (kind_static_type kind)
with convert_type_typed (type : ParameterType) v w :
  dyn_free (parameter_static_type type) = true → convert_type type v = Ok w → has_type w (parameter_static_type type).
Proof.
  - intros Hd. destruct kind as [| | | | | | | | | |element|element]; try done; cbn [convert_kind kind_static_type];
      try (destruct v; try done; intros E; first [by simplify_eq|by apply result_fmap_ok in E as (? & -> & _)]).
    + intros (x & -> & E)%result_fmap_ok. apply result_bind_ok in E as (y & _ & E). simpl. by case_match; simplify_eq.
    + destruct v; try done. intros (l' & -> & E)%result_fmap_ok. eapply convert_list_typed; [|exact E].
      intros v' w'. by apply convert_type_typed.
    + destruct v; try done. intros (m' & -> & E)%result_fmap_ok. eapply convert_map_typed; [|exact E].
      intros v' w'. by apply convert_type_typed.
  - intros Hd. destruct type as [kind depth]. by apply convert_kind_typed.
Qed.

(** A prepared evaluation has a value for every parameter. *)
Lemma prepare_entries_ok request tuple entries : ∀ missing values values',
  NoDup entries.*1 → returns (prepare_entries compiled poll request tuple missing values entries) values' →
  missing = 0%N ∧ (∀ name, name ∉ entries.*1 → bt_get name values' = bt_get name values) ∧
  ∀ name type, (name, type) ∈ entries → ∃ v w, convert_type type v = Ok w ∧ bt_get name values' = Some w.
Proof.
  induction entries as [|[name type] entries IH]; intros missing values values'; simpl.
  - intros _. destruct (N.eqb_spec missing 0); [|by intros []%returns_fail]. intros ->%returns_ret. split_and!; [done|done|set_solver].
  - intros [Hn Hnd]%NoDup_cons. destruct (parameter_value name request tuple) as [value|].
    + intros ([] & _ & (w & Ew%returns_lift%map_err_ok & E)%returns_bind)%returns_bind.
      destruct (IH _ _ _ Hnd E) as (-> & Hout & Hin). split_and!; [done| |].
      * intros other Ho. rewrite Hout by set_solver. apply bt_get_insert_ne. set_solver.
      * intros n ty [[= -> ->]|Hnt]%elem_of_cons; [|by apply Hin]. exists value, w. split; [done|].
        rewrite Hout by done. apply bt_get_insert_eq.
    + intros (m' & (Hm & _)%returns_lift%ok_or_ok%checked_add_Some & E)%returns_bind.
      destruct (IH _ _ _ Hnd E) as (? & _). lia.
Qed.

(** ** Failures of the preparation *)

Definition context_total (stack : list ContextValue) : nat := foldr (fun v n => context_nodes v + n) 0 stack.

Lemma context_total_app l k : context_total (l ++ k) = context_total l + context_total k.
Proof. induction l as [|x l IH]; simpl; [done|]. rewrite IH. lia. Qed.

Lemma context_total_reverse l : context_total (reverse l) = context_total l.
Proof. induction l as [|x l IH]; simpl; [done|]. rewrite reverse_cons, context_total_app, IH. simpl. lia. Qed.

Lemma safe_push_context values : ∀ entries stack,
  safe_result (push_context_entries compiled entries values stack) (fun _ => True).
Proof.
  induction values as [|[k v] values IH]; intros entries stack; simpl; [done|].
  apply (safe_result_bind _ _ (fun _ => True)); [by apply safe_ok_or|]. intros n _. case_match; [done|apply IH].
Qed.

Lemma safe_context_loop fuel : ∀ stack, context_total stack ≤ fuel → safe (charge_context_loop compiled poll fuel stack) (fun _ => True).
Proof.
  induction fuel as [|fuel IH]; intros [|v stack] Hf; simpl; try (by apply c_safe_ret).
  { unfold context_total in Hf. simpl in Hf. destruct v; simpl in Hf; lia. }
  unfold context_total in Hf. simpl in Hf. fold (context_total stack) in Hf.
  eapply c_safe_bind; [apply safe_check|]. intros _ _.
  destruct v; try (apply IH; simpl in Hf; lia); try (case_match; [by apply c_safe_fail|]; try (apply IH; simpl in Hf; lia)).
  - apply IH. rewrite context_total_app, context_total_reverse. simpl in Hf. unfold context_total at 1. lia.
  - destruct (push_context_entries compiled 0 m stack) as [stack'|e] eqn:E.
    + apply (c_safe_bind _ _ (fun s => s = stack')); [by apply c_safe_lift|]. intros ? ->. apply IH.
      apply push_context_entries_ok in E as [-> _]. rewrite context_total_app, context_total_reverse. simpl in Hf.
      unfold context_total at 1. rewrite foldr_fmap. lia.
    + apply (c_safe_bind _ _ (fun _ => False)); [|done]. apply c_safe_lift. pose proof (safe_push_context m 0 stack) as Hs. by rewrite E in Hs.
Qed.

Lemma safe_convert value type : safe_result (convert_parameter value type) (fun _ => True).
Proof. unfold convert_parameter. by destruct (convert_type type value). Qed.

Lemma safe_prepare request tuple entries : ∀ missing values,
  (missing + len entries <= USIZE_MAX)%N → safe (prepare_entries compiled poll request tuple missing values entries) (fun _ => True).
Proof.
  induction entries as [|[name type] entries IH]; intros missing values Hm; simpl.
  - case_match; [by apply c_safe_ret|by apply c_safe_fail].
  - unfold len in Hm. simpl in Hm. destruct (parameter_value name request tuple) as [value|].
    + eapply c_safe_bind; [apply safe_context_loop; unfold context_total; simpl; lia|]. intros _ _.
      eapply c_safe_bind; [apply c_safe_lift, safe_convert|]. intros w _. apply IH. unfold len. lia.
    + assert (checked_add USIZE_MAX missing 1 = Some (missing + 1)%N) as ->
        by (unfold checked_add; destruct (N.leb_spec (missing + 1) USIZE_MAX); [done|lia]).
      apply (c_safe_bind _ _ (fun n => n = (missing + 1)%N)); [by apply c_safe_lift|]. intros ? ->. apply IH. unfold len. lia.
Qed.

End parameters.
