(* ===== verification/CelLogic.v ===== *)
(** * A program logic for the frame machine

    [computes] says that the machine, started on some frames and values, delivers
    the outcome of a computation within a number of turns, whatever lies below
    them; the lemmas compose such pieces.  A failure passes the frames that wait
    for a value and leaves the scopes as they were below them. *)

From S2P Require Import Prelude Ordered Identifier Reference Scalars Context Condition CelValue CelOps.
From S2P Require Import CelMachine CelCompiler CelSemantics CelBounds CelLowering.
From Stdlib Require Import ZArith.

Section machine.
Context `{Jiff}.
Variable compiled : CelCondition.
Variable maximum_cost : N.
Variable poll : nat → bool.
Variable parameter_values : BTreeMap ParameterName RuntimeValue.

Abbreviation turn := (turn compiled maximum_cost poll parameter_values).
Abbreviation execute := (execute_frame compiled maximum_cost poll parameter_values).

(** ** Turns *)

Fixpoint run (n : nat) (m : Machine) : Progress :=
  match n with
  | O => Running m
  | S n => match turn m with Running m => run n m | Finished r => Finished r end
  end.

Lemma run_app n k m : run (n + k) m = match run n m with Running m => run k m | Finished r => Finished r end.
Proof. revert m. induction n as [|n IH]; intros m; simpl; [done|]. by destruct (turn m). Qed.

Lemma turns_run k m : turns compiled maximum_cost poll parameter_values k m = run (2 ^ k) m.
Proof.
  revert m. induction k as [|k IH]; intros m; simpl; [by destruct (turn m)|].
  rewrite Nat.add_0_r, run_app, IH. destruct (run (2 ^ k) m); [apply IH|done].
Qed.

(** A failure that reaches the frames [F]. *)
Definition raise (e : EvaluationError) (F : list Frame) (vs : list RuntimeValue) (sc : list Scope) (s : CelMeter) : Progress :=
  if is_suppressible e then
    match unwind e F vs sc s with (m, Ok _) => Running m | (_, Err e) => Finished (Err e) end
  else Finished (Err e).

Lemma turn_frame f F vs sc s :
  turn (mkMachine (f :: F) vs sc s) =
  match execute f (mkMachine F vs sc s) with
  | (m, Ok _) => Running m
  | (m, Err e) => raise e m.(frames) m.(values) m.(scopes) m.(meter)
  end.
Proof.
  unfold CelMachine.turn. simpl. destruct (execute f _) as [m [[]|e]]; [done|].
  unfold recover_logical_error, raise. destruct (is_suppressible e); [|done]. by destruct (unwind _ _ _ _ _) as [? [|]].
Qed.

(** The logical frames below remember stacks no higher than the present one. *)
Definition depths_ok (F : list Frame) (depth : nat) : Prop :=
  Forall (fun f => match f with
                   | FLogicalAfterLeft _ _ d | FLogicalAfterUnknown _ _ d | FLogicalAfterError _ _ d => d ≤ depth
                   | _ => True
                   end) F.

Lemma depths_ok_le F d d' : d ≤ d' → depths_ok F d → depths_ok F d'.
Proof. intros Hd HF. eapply Forall_impl; [exact HF|]. intros []; simpl; lia. Qed.

Lemma truncate_junk d junk vs : d ≤ length vs → truncate_values d (junk ++ vs) = truncate_values d vs.
Proof.
  intros Hd. unfold truncate_values. rewrite length_app.
  replace (length junk + length vs - d) with (length junk + (length vs - d)) by lia.
  by rewrite <-drop_drop, drop_app_length.
Qed.

(** Values above the present stack do not survive a failure. *)
Lemma raise_junk e F junk vs sc s : depths_ok F (length vs) → raise e F (junk ++ vs) sc s = raise e F vs sc s.
Proof.
  intros HF. unfold raise. destruct (is_suppressible e); [|done]. clear -HF. revert e sc.
  induction HF as [|f F Hf _ IH]; intros e sc; [done|].
  destruct f; cbn [unwind]; try apply IH.
  - by rewrite truncate_junk.
  - by rewrite truncate_junk.
  - by rewrite truncate_junk.
  - destruct sc; [done|apply IH].
Qed.

(** Frames a failure passes, and the scopes it leaves. *)
Inductive transparent : list Frame → list Scope → list Scope → Prop :=
| transparent_nil sc : transparent [] sc sc
| transparent_guard fr scope sc sc' : transparent fr sc sc' → transparent (FScopeGuard :: fr) (scope :: sc) sc'
| transparent_cons f fr sc sc' :
    match f with
    | FLogicalAfterLeft _ _ _ | FLogicalAfterUnknown _ _ _ | FLogicalAfterError _ _ _ | FScopeGuard => False
    | _ => True
    end → transparent fr sc sc' → transparent (f :: fr) sc sc'.

Lemma raise_through fr sc sc' e F vs s : transparent fr sc sc' → raise e (fr ++ F) vs sc s = raise e F vs sc' s.
Proof.
  intros Ht. unfold raise. destruct (is_suppressible e); [|done].
  induction Ht as [sc|fr scope sc sc' _ IH|f fr sc sc' Hf _ IH]; simpl; [done|done|]. by destruct f.
Qed.

Lemma transparent_depths fr sc sc' F d : transparent fr sc sc' → depths_ok F d → depths_ok (fr ++ F) d.
Proof. intros Ht HF. induction Ht as [| |f fr sc sc' Hf]; simpl; [done|by constructor|]. constructor; [by destruct f|done]. Qed.

(** ** Pieces of the machine *)

Definition finish (out : CelMeter * result EvaluationError RuntimeValue) (F : list Frame) (vs : list RuntimeValue)
    (sc : list Scope) : Progress :=
  match out with
  | (s, Ok v) => Running (mkMachine F (v :: vs) sc s)
  | (s, Err e) => raise e F vs sc s
  end.

(** Within [b] turns the machine [m] gets to [p]. *)
Definition reaches (b : N) (m : Machine) (p : Progress) : Prop := ∃ n, (N.of_nat n <= b)%N ∧ run n m = p.

Lemma reaches_refl m : reaches 0 m (Running m).
Proof. by exists 0. Qed.

Lemma reaches_le b b' m p : (b <= b')%N → reaches b m p → reaches b' m p.
Proof. intros Hb (n & Hn & E). exists n. split; [lia|done]. Qed.

Lemma reaches_trans b b' m m' p : reaches b m (Running m') → reaches b' m' p → reaches (b + b') m p.
Proof. intros (n & Hn & E) (n' & Hn' & E'). exists (n + n'). split; [lia|]. by rewrite run_app, E. Qed.

Lemma reaches_turn m p : turn m = p → reaches 1 m p.
Proof. intros <-. exists 1. split; [lia|]. simpl. by destruct (turn m). Qed.

Lemma reaches_step b m m' p : turn m = Running m' → reaches b m' p → reaches (1 + b) m p.
Proof. intros Ht. apply reaches_trans. by apply reaches_turn. Qed.

(** From the frames [fr], values [ws] and scopes [sc], within [b] turns, the
    machine delivers the outcome of [c] and leaves the scopes [sc']. *)
Definition computes (b : N) (fr : list Frame) (ws : list RuntimeValue) (sc sc' : list Scope) (c : C RuntimeValue) : Prop :=
  ∀ F vs s, depths_ok F (length vs) →
    reaches b (mkMachine (fr ++ F) (ws ++ vs) sc s) (finish (c s) F vs sc').

Lemma computes_ret v sc : computes 0 [] [v] sc sc (mret v).
Proof. intros F vs s _. apply reaches_refl. Qed.

Lemma computes_le b b' fr ws sc sc' c : (b <= b')%N → computes b fr ws sc sc' c → computes b' fr ws sc sc' c.
Proof. intros Hb Hc F vs s HF. eapply reaches_le; [done|by apply Hc]. Qed.

Lemma computes_ext b fr ws sc sc' c c' : (∀ s, c s = c' s) → computes b fr ws sc sc' c → computes b fr ws sc sc' c'.
Proof. intros Heq Hc F vs s HF. rewrite <-Heq. by apply Hc. Qed.

(** A node, then the frames that wait for its value. *)
Lemma computes_bind b b' id fr ws sc sc' c k :
  computes b [FEval id] [] sc sc c → transparent fr sc sc' →
  (∀ v, returns c v → computes b' fr (v :: ws) sc sc' (k v)) →
  computes (b + b') (FEval id :: fr) ws sc sc' (v ← c; k v).
Proof.
  intros Hc Ht Hk F vs s HF.
  assert (E : reaches b (mkMachine (FEval id :: fr ++ F) (ws ++ vs) sc s) (finish (c s) (fr ++ F) (ws ++ vs) sc)).
  { apply (Hc (fr ++ F) (ws ++ vs) s). eapply transparent_depths; [done|]. eapply depths_ok_le, HF. rewrite length_app. lia. }
  rewrite c_bind_eq. destruct (c s) as [s1 [v|e]] eqn:Ec; simpl in E.
  - eapply reaches_trans; [exact E|]. by apply (Hk v ltac:(by exists s, s1)).
  - eapply reaches_le; [|simpl]; [|by rewrite <-(raise_junk e F ws), <-(raise_through fr sc sc')]. lia.
Qed.

(** One turn: a metered operation that replaces the top frames and values. *)
Lemma computes_turn {A} b f fr ws sc sc' (c : C A) fr1 ws1 sc1 k :
  (∀ F vs s,
    match c s with
    | (s', Ok a) => execute f (mkMachine (fr ++ F) (ws ++ vs) sc s) = (mkMachine (fr1 a ++ F) (ws1 a ++ vs) (sc1 a) s', Ok ())
    | (s', Err e) => ∃ ws', execute f (mkMachine (fr ++ F) (ws ++ vs) sc s) = (mkMachine (fr ++ F) (ws' ++ vs) sc s', Err e)
    end) →
  transparent fr sc sc' →
  (∀ a, returns c a → computes b (fr1 a) (ws1 a) (sc1 a) sc' (k a)) →
  computes (1 + b) (f :: fr) ws sc sc' (a ← c; k a).
Proof.
  intros Hf Ht Hk F vs s HF. rewrite c_bind_eq. specialize (Hf F vs s).
  destruct (c s) as [s1 [a|e]] eqn:Ec.
  - eapply reaches_step; [|by apply (Hk a ltac:(by exists s, s1))]. simpl. by rewrite turn_frame, Hf.
  - destruct Hf as [ws' Hf]. eapply reaches_le; [|apply reaches_turn]; [lia|].
    simpl. rewrite turn_frame, Hf. simpl. rewrite (raise_through _ _ _ _ _ _ _ Ht). by apply raise_junk.
Qed.

(** A turn without a metered operation. *)
Lemma computes_step b f fr ws sc sc' fr1 ws1 sc1 c :
  (∀ F vs s, execute f (mkMachine (fr ++ F) (ws ++ vs) sc s) = (mkMachine (fr1 ++ F) (ws1 ++ vs) sc1 s, Ok ())) →
  computes b fr1 ws1 sc1 sc' c → computes (1 + b) (f :: fr) ws sc sc' c.
Proof. intros Hf Hc F vs s HF. eapply reaches_step; [|by apply Hc]. simpl. by rewrite turn_frame, Hf. Qed.

Lemma computes_fail b f fr ws sc sc' e :
  (∀ F vs s, ∃ ws', execute f (mkMachine (fr ++ F) (ws ++ vs) sc s) = (mkMachine (fr ++ F) (ws' ++ vs) sc s, Err e)) →
  transparent fr sc sc' → computes (1 + b) (f :: fr) ws sc sc' (c_fail e).
Proof.
  intros Hf Ht F vs s HF. destruct (Hf F vs s) as [ws' Hx]. eapply reaches_le; [|apply reaches_turn]; [lia|].
  simpl. rewrite turn_frame, Hx. simpl. rewrite (raise_through _ _ _ _ _ _ _ Ht). by apply raise_junk.
Qed.

End machine.
