(* ===== verification/CelBudget.v ===== *)
(** * Budget and cancellation of an evaluation

    An evaluation with a budget and a cancellation signal is compared with the
    one that has neither: it takes the same turns until it is cancelled or the
    cost passes the budget. *)

From S2P Require Import Prelude Ordered Identifier Reference Scalars Context Condition CelValue CelOps.
From S2P Require Import CelMachine CelCompiler CelSemantics CelBounds CelLogic.
From Stdlib Require Import ZArith.

Definition never : nat → bool := fun _ => false.

Section budget.
Variable budget : N.
Variable poll : nat → bool.

(** ** Metered operations *)

(** How the limited computation [c] may end when the unlimited one ends in
    [sU] with [rU]. *)
Definition follows {S A} (cost : S → N) (out : S * result EvaluationError A) (sU : S) (rU : result EvaluationError A) : Prop :=
  (out = (sU, rU) ∧ (cost sU <= budget)%N) ∨
  (out.2 = Err evaluation_cancelled ∧ ∃ n, poll n = true) ∨
  (out.2 = Err cost_exceeded ∧ ((budget < cost sU)%N ∨ rU = Err cost_exceeded)).

Record sim {S A} (cost : S → N) (c cU : S → S * result EvaluationError A) : Prop := {
  sim_mono : ∀ s, (cost s <= cost (cU s).1)%N;
  sim_follows : ∀ s, (cost s <= budget)%N → follows cost (c s) (cU s).1 (cU s).2;
}.

Abbreviation csim := (sim meter_cost).

Lemma sim_pure {S A} (cost : S → N) (c : S → S * result EvaluationError A) :
  (∀ s, cost (c s).1 = cost s) → sim cost c c.
Proof.
  intros Hc. split; intros s; [rewrite Hc; lia|]. intros Hs. left. rewrite Hc. split; [by destruct (c s)|done].
Qed.

Lemma follows_bind {S A B} (cost : S → N) (c cU : S → S * result EvaluationError A) (f fU : A → S → S * result EvaluationError B) :
  sim cost c cU → (∀ a, sim cost (f a) (fU a)) →
  sim cost (fun s => match c s with (s, Ok a) => f a s | (s, Err e) => (s, Err e) end)
           (fun s => match cU s with (s, Ok a) => fU a s | (s, Err e) => (s, Err e) end).
Proof.
  intros [Mc Fc] Hf. split.
  - intros s. specialize (Mc s). destruct (cU s) as [s' [a|e]]; simpl in *; [|done].
    pose proof (sim_mono _ _ _ (Hf a) s'). lia.
  - intros s Hs. specialize (Fc s Hs). destruct (cU s) as [sU [a|e]]; simpl in Fc.
    + destruct Fc as [[-> Hb]|[[E Hp]|[E He]]].
      * by apply (sim_follows _ _ _ (Hf a)).
      * right; left. destruct (c s) as [s' r]. simpl in E. by subst r.
      * right; right. destruct (c s) as [s' r]. simpl in E. subst r. split; [done|]. left.
        destruct He as [He|He]; [|done]. pose proof (sim_mono _ _ _ (Hf a) sU). lia.
    + destruct Fc as [[-> Hb]|[[E Hp]|[E He]]].
      * by left.
      * right; left. destruct (c s) as [s' r]. simpl in E. by subst r.
      * right; right. destruct (c s) as [s' r]. simpl in E. subst r. split; [done|].
        destruct He as [He|[= ->]]; [by left|by right].
Qed.

Lemma csim_bind {A B} (c cU : C A) (f fU : A → C B) :
  csim c cU → (∀ a, csim (f a) (fU a)) → csim (c ≫= f) (cU ≫= fU).
Proof. apply follows_bind. Qed.

Lemma csim_ret {A} (a : A) : csim (mret a : C A) (mret a : C A).
Proof. by apply sim_pure. Qed.

Lemma csim_fail {A} e : csim (c_fail e : C A) (c_fail e : C A).
Proof. by apply sim_pure. Qed.

Lemma csim_lift {A} (r : result EvaluationError A) : csim (c_lift r) (c_lift r).
Proof. by apply sim_pure. Qed.

Lemma csim_check : csim (check_cancellation poll) (check_cancellation never).
Proof.
  split; [done|]. intros s Hs. unfold check_cancellation, is_cancelled, mbind, C_bind.
  destruct (poll (meter_polls s)) eqn:E; [right; left; by eauto|by left].
Qed.

Lemma csim_spend units : csim (spend_units budget units) (spend_units U64_MAX units).
Proof.
  split; intros s; unfold spend_units; destruct (checked_add U64_MAX (meter_cost s) units) as [cost|] eqn:E; simpl; try lia.
  - apply checked_add_Some in E as [-> _]. lia.
  - apply checked_add_Some in E as [-> Hmax]. intros _.
    assert ((U64_MAX <? meter_cost s + units)%N = false) as -> by (apply N.ltb_ge; lia).
    destruct (N.ltb_spec budget (meter_cost s + units)).
    + right; right. split; [done|by left].
    + by left.
  - intros _. right; right. split; [done|by right].
Qed.

Create HintDb csim.
#[local] Hint Resolve csim_ret csim_fail csim_lift csim_check csim_spend : csim.

Ltac solve_csim :=
  repeat (intros; first
    [ done | by eauto with csim | apply csim_bind
    | match goal with |- sim _ (match ?x with _ => _ end) _ => destruct x end ]).

Lemma csim_charge units : csim (charge_units budget poll units) (charge_units U64_MAX never units).
Proof. unfold charge_units. solve_csim. Qed.
#[local] Hint Resolve csim_charge : csim.

Lemma csim_each {A} (f fU : A → C ()) l : (∀ x, csim (f x) (fU x)) → csim (c_each f l) (c_each fU l).
Proof. intros Hf. induction l; simpl; solve_csim. Qed.
#[local] Hint Resolve csim_each : csim.

Lemma csim_push_entries l : ∀ r stack, csim (push_entries poll l r stack) (push_entries never l r stack).
Proof. induction l as [|[k v] l IH]; intros [|[k' v'] r] stack; simpl; solve_csim. Qed.
#[local] Hint Resolve csim_push_entries : csim.

Lemma csim_values_equal_loop fuel : ∀ stack, csim (values_equal_loop poll fuel stack) (values_equal_loop never fuel stack).
Proof. induction fuel as [|fuel IH]; intros [|[x y] stack]; simpl; solve_csim. Qed.

Lemma csim_values_equal x y : csim (values_equal poll x y) (values_equal never x y).
Proof. apply csim_values_equal_loop. Qed.
#[local] Hint Resolve csim_values_equal : csim.

Lemma csim_member_of needle values : csim (member_of poll needle values) (member_of never needle values).
Proof. induction values as [|v values IH]; simpl; solve_csim. Qed.
#[local] Hint Resolve csim_member_of : csim.

Section operations.
Context `{Jiff}.
Variable compiled : CelCondition.

Lemma csim_apply_binary operator l r :
  csim (apply_binary compiled budget poll operator l r) (apply_binary compiled U64_MAX never operator l r).
Proof. unfold apply_binary, charge_binary, add, membership, index. solve_csim. Qed.

Lemma csim_select field test v : csim (select poll field test v) (select never field test v).
Proof. unfold select. solve_csim. Qed.

Lemma csim_call function target values :
  csim (call_function budget poll function target values) (call_function U64_MAX never function target values).
Proof. unfold call_function, charge_function. solve_csim. Qed.

Lemma csim_distinct_key key values : csim (distinct_key poll key values) (distinct_key never key values).
Proof. induction values as [|[k v] values IH]; simpl; solve_csim. Qed.

Lemma csim_context_loop fuel : ∀ stack,
  csim (charge_context_loop compiled poll fuel stack) (charge_context_loop compiled never fuel stack).
Proof. induction fuel as [|fuel IH]; intros [|v stack]; simpl; solve_csim. Qed.
#[local] Hint Resolve csim_context_loop : csim.

Lemma csim_prepare request tuple parameters : ∀ missing values,
  csim (prepare_entries compiled poll request tuple missing values parameters)
       (prepare_entries compiled never request tuple missing values parameters).
Proof. induction parameters as [|[name type] parameters IH]; intros missing values; simpl; unfold charge_context_value; solve_csim. Qed.

(** ** Frames *)

Abbreviation ksim := (sim (fun m => m.(meter).(meter_cost))).

Lemma ksim_bind {A B} (k kU : K A) (f fU : A → K B) :
  ksim k kU → (∀ a, ksim (f a) (fU a)) → ksim (k ≫= f) (kU ≫= fU).
Proof. apply follows_bind. Qed.

Lemma ksim_meter {A} (c cU : C A) : csim c cU → ksim (k_meter c) (k_meter cU).
Proof.
  intros [Mc Fc]. split; intros [F vs sc s]; unfold k_meter; simpl.
  - specialize (Mc s). by destruct (cU s).
  - intros Hs. specialize (Fc s Hs). destruct (cU s) as [sU rU], (c s) as [s' r]. unfold follows in *. simpl in *.
    destruct Fc as [[[= -> ->] Hb]|[[-> Hp]|[-> He]]]; [by left|by right; left|by right; right].
Qed.

Lemma ksim_fail {A} e : ksim (k_fail e : K A) (k_fail e : K A).
Proof. by apply sim_pure. Qed.

Lemma ksim_push_frame f : ksim (push_frame f) (push_frame f).
Proof. by apply sim_pure. Qed.

Lemma ksim_push_value v : ksim (push_value v) (push_value v).
Proof. by apply sim_pure. Qed.

Lemma ksim_pop_value : ksim pop_value pop_value.
Proof. apply sim_pure. by intros [F [|v vs] sc s]. Qed.

Lemma ksim_push_scope : ksim push_scope push_scope.
Proof. by apply sim_pure. Qed.

Lemma ksim_pop_scope : ksim pop_scope pop_scope.
Proof. apply sim_pure. by intros [F vs [|scope sc] s]. Qed.

Lemma ksim_set_local name v : ksim (set_local name v) (set_local name v).
Proof. apply sim_pure. by intros [F vs [|scope sc] s]. Qed.

Lemma ksim_get_local name : ksim (get_local name) (get_local name).
Proof. by apply sim_pure. Qed.

Lemma ksim_value_count : ksim value_count_now value_count_now.
Proof. by apply sim_pure. Qed.

Lemma ksim_ret {A} (a : A) : ksim (mret a : K A) (mret a : K A).
Proof. by apply sim_pure. Qed.

Create HintDb ksim.
#[local] Hint Resolve ksim_fail ksim_push_frame ksim_push_value ksim_pop_value ksim_push_scope ksim_pop_scope
  ksim_set_local ksim_get_local ksim_value_count ksim_ret ksim_meter : ksim.
#[local] Hint Resolve csim_apply_binary csim_select csim_call csim_distinct_key : csim.

Ltac solve_ksim :=
  repeat (intros; first
    [ done | by eauto with ksim csim | apply ksim_bind
    | match goal with |- sim _ (match ?x with _ => _ end) _ => destruct x end ]).

Variable parameter_values : BTreeMap ParameterName RuntimeValue.

Lemma ksim_eval_node id :
  ksim (eval_node compiled budget poll parameter_values id) (eval_node compiled U64_MAX never parameter_values id).
Proof. unfold eval_node, eval_parameter, eval_local, begin_logical. solve_ksim. Qed.

Lemma ksim_frame f :
  ksim (execute_frame compiled budget poll parameter_values f) (execute_frame compiled U64_MAX never parameter_values f).
Proof.
  destruct f; cbn [execute_frame]; try (by apply ksim_eval_node);
    unfold logical_after_left, logical_after_unknown, logical_after_error, conditional, list_next, list_after, map_next,
      map_after_key, map_after_value, call_next, call_after, comprehension_after_range, comprehension_after_init,
      comprehension_next, comprehension_after_cond, comprehension_after_step, bind_item; solve_ksim.
Qed.

(** ** Turns *)

Abbreviation cost_of := (fun m => m.(meter).(meter_cost)).
Abbreviation turnB := (turn compiled budget poll parameter_values).
Abbreviation turnU := (turn compiled U64_MAX never parameter_values).
Abbreviation runB := (run compiled budget poll parameter_values).
Abbreviation runU := (run compiled U64_MAX never parameter_values).

(** The cost a machine has reached, or that of the outcome it gave. *)
Definition progress_cost (p : Progress) : option N :=
  match p with
  | Running m => Some (cost_of m)
  | Finished (Ok out) => Some out.(outcome_cost)
  | Finished (Err _) => None
  end.

Definition progress_follows (p pU : Progress) : Prop :=
  (p = pU ∧ ∀ n, progress_cost pU = Some n → (n <= budget)%N) ∨
  (p = Finished (Err evaluation_cancelled) ∧ ∃ n, poll n = true) ∨
  (p = Finished (Err cost_exceeded) ∧ ∀ n, progress_cost pU = Some n → (budget < n)%N).

Lemma unwind_meter e F : ∀ vs sc s, (unwind e F vs sc s).1.(meter) = s.
Proof. revert e. induction F as [|f F IH]; intros e vs sc s; simpl; [done|]. destruct f; try apply IH; [done|]. destruct sc; [done|apply IH]. Qed.

Lemma conclude_cost m n : progress_cost (Finished (conclude m)) = Some n → n = cost_of m.
Proof. unfold conclude. repeat case_match; simpl; intros [=]; done. Qed.

(** A failure that is offered to the frames below, or that ends the machine. *)
Lemma recover_cost e m n :
  progress_cost match recover_logical_error e m with (m, Ok _) => Running m | (_, Err e) => Finished (Err e) end = Some n →
  n = cost_of m.
Proof.
  unfold recover_logical_error. destruct (is_suppressible e); [|done].
  pose proof (unwind_meter e m.(frames) m.(values) m.(scopes) m.(meter)) as Hm.
  destruct (unwind _ _ _ _ _) as [m' [[]|e']]; [|done]. simpl in *. intros [= <-]. by rewrite Hm.
Qed.

Lemma turn_mono m n : progress_cost (turnU m) = Some n → (cost_of m <= n)%N.
Proof.
  unfold turn. destruct m as [[|f F] vs sc s]; simpl; [intros ->%conclude_cost; simpl; lia|].
  pose proof (sim_mono _ _ _ (ksim_frame f) (mkMachine F vs sc s)) as Hm. simpl in Hm.
  destruct (execute_frame compiled U64_MAX never parameter_values f _) as [m' [[]|e]]; simpl in *.
  - intros [= <-]. done.
  - by intros ->%recover_cost.
Qed.

Lemma turn_follows m : (cost_of m <= budget)%N → progress_follows (turnB m) (turnU m).
Proof.
  unfold turn. destruct m as [[|f F] vs sc s]; simpl; [intros Hs; left; split; [done|]; intros n ->%conclude_cost; done|].
  intros Hs. pose proof (sim_follows _ _ _ (ksim_frame f) (mkMachine F vs sc s) Hs) as Hf.
  destruct (execute_frame compiled U64_MAX never parameter_values f _) as [mU rU],
    (execute_frame compiled budget poll parameter_values f _) as [m' r]. unfold follows in Hf. simpl in Hf.
  destruct Hf as [[[= -> ->] Hb]|[[-> Hp]|[-> He]]].
  - left. split; [done|]. intros n. destruct rU as [[]|e]; [by intros [= <-]|by intros ->%recover_cost].
  - right; left. done.
  - right; right. split; [done|]. intros n.
    destruct rU as [[]|e]; [destruct He; [by intros [= <-]|done]|]. destruct He as [He|[= ->]]; [|done]. by intros ->%recover_cost.
Qed.

Lemma run_mono k : ∀ m n, progress_cost (runU k m) = Some n → (cost_of m <= n)%N.
Proof.
  induction k as [|k IH]; intros m n; simpl; [intros [= <-]; lia|].
  pose proof (turn_mono m) as Hm. destruct (turnU m) as [m'|r]; simpl in Hm; [|apply Hm].
  intros Hn%IH. specialize (Hm _ eq_refl). lia.
Qed.

Lemma run_follows k : ∀ m, (cost_of m <= budget)%N → progress_follows (runB k m) (runU k m).
Proof.
  induction k as [|k IH]; intros m Hm; simpl; [left; split; [done|]; by intros n [= <-]|].
  destruct (turn_follows m Hm) as [[-> Hb]|[[-> Hp]|[-> He]]].
  - destruct (turnU m) as [m'|r]; [apply IH; by apply Hb|by left].
  - by right; left.
  - right; right. split; [done|]. intros n. destruct (turnU m) as [m'|r]; [|apply He].
    intros Hn%run_mono. specialize (He _ eq_refl). lia.
Qed.

End operations.

End budget.

(** ** Evaluations *)

Lemma evaluate_condition_run `{Jiff} compiled request tuple maximum_cost poll :
  evaluate_condition compiled request tuple maximum_cost poll =
  match prepare_parameters compiled poll request tuple (mkCelMeter 0 0) with
  | (_, Err e) => Err e
  | (meter, Ok parameter_values) =>
      match run compiled maximum_cost poll parameter_values (2 ^ N.to_nat (N.log2_up (program_bound compiled)))
              (mkMachine [FEval compiled.(cel_program).(program_root)] [] [] meter) with
      | Finished r => r
      | Running _ => Err invalid_state
      end
  end.
Proof. unfold evaluate_condition. destruct (prepare_parameters _ _ _ _ _) as [s [values|e]]; [|done]. by rewrite turns_run. Qed.

(** An evaluation is the unlimited one, unless it is cancelled or its cost
    passes the budget. *)
Lemma evaluation_follows `{Jiff} compiled request tuple budget poll :
  let limited := evaluate_condition compiled request tuple budget poll in
  let unlimited := evaluate_condition compiled request tuple U64_MAX never in
  (limited = unlimited ∧ ∀ out, unlimited = Ok out → (out.(outcome_cost) <= budget)%N) ∨
  (limited = Err evaluation_cancelled ∧ ∃ n, poll n = true) ∨
  (limited = Err cost_exceeded ∧ ∀ out, unlimited = Ok out → (budget < out.(outcome_cost))%N).
Proof.
  intros limited unlimited. subst limited unlimited. rewrite !evaluate_condition_run.
  set (k := 2 ^ _). clearbody k. unfold prepare_parameters.
  pose proof (sim_follows _ _ _ _ _ (csim_prepare budget poll compiled request tuple compiled.(cel_parameters) 0 []) (mkCelMeter 0 0)
    ltac:(simpl; lia)) as Hp.
  destruct (prepare_entries compiled never request tuple 0 [] (cel_parameters compiled) (mkCelMeter 0 0)) as [sU rU],
    (prepare_entries compiled poll request tuple 0 [] (cel_parameters compiled) (mkCelMeter 0 0)) as [s r].
  unfold follows in Hp. simpl in Hp. destruct Hp as [[[= -> ->] Hb]|[[-> Hn]|[-> He]]].
  - destruct rU as [values|e]; [|by left].
    set (m := mkMachine _ _ _ _). pose proof (run_follows budget poll compiled values k m Hb) as Hf.
    destruct Hf as [[-> Hc]|[[-> Hn]|[-> He]]]; [|by right; left|right; right].
    + left. split; [done|]. intros out. destruct (run _ _ _ _ _ _) as [|r]; [done|]. intros ->. by apply Hc.
    + split; [done|]. intros out. destruct (run _ _ _ _ _ _) as [|r]; [done|]. intros ->. by apply He.
  - by right; left.
  - right; right. split; [done|]. intros out. destruct rU as [values|e]; [|done]. destruct He as [He|]; [|done].
    set (m := mkMachine _ _ _ _). pose proof (run_mono budget poll compiled values k m) as Hm.
    destruct (run _ _ _ _ _ _) as [|r]; [done|]. intros ->. specialize (Hm _ eq_refl). simpl in Hm. lia.
Qed.
