(* ===== verification/CelRefinement.v ===== *)
(** * Compiled conditions compute the meaning of their expressions

    Every node kind is a composition of the pieces of [CelLogic]; by induction on
    the expression, the node that represents it computes its meaning within the
    turns [node_bounds] allows. *)

From S2P Require Import Prelude Ordered Identifier Reference Scalars Context Condition CelValue CelOps.
From S2P Require Import CelMachine CelCompiler CelShape CelSemantics CelBounds CelLowering CelLogic.
From Stdlib Require Import ZArith.

(** ** Bounds *)

Lemma node_bounds_snoc items l node :
  node_bounds items (l ++ [node]) = node_bounds items l ++ [kind_bound items (node_bounds items l) node.(node_kind)].
Proof. unfold node_bounds. by rewrite foldl_app. Qed.

Lemma node_bounds_length items l : length (node_bounds items l) = length l.
Proof. induction l as [|node l IH] using rev_ind; [done|]. rewrite node_bounds_snoc, !length_app, IH. done. Qed.

Lemma node_bounds_app items l k : ∃ tail, node_bounds items (l ++ k) = node_bounds items l ++ tail.
Proof.
  induction k as [|node k [tail IH]] using rev_ind; [exists []; by rewrite !app_nil_r|].
  rewrite app_assoc, node_bounds_snoc, IH. eexists. by rewrite <-app_assoc.
Qed.

(** The bound of a node depends on its operands only. *)
Lemma kind_bound_app items bounds tail kind :
  Forall (fun child => child < length bounds) (kind_children kind) →
  kind_bound items (bounds ++ tail) kind = kind_bound items bounds kind.
Proof.
  assert (Hb : ∀ id, id < length bounds → (bounds ++ tail) !! id = bounds !! id) by (intros; by apply lookup_app_l).
  destruct kind as [v|name|name|ids|ids|o f t|o x|o x y|x y|x y|x y z|f t ids|d]; simpl; intros Hall; try done.
  - induction Hall as [|id ids Hid _ IH]; simpl; [done|]. by rewrite IH, Hb.
  - apply Forall_app in Hall as [H1 H2]. induction ids as [|[k v] ids IH]; simpl in *; [done|].
    inv H1. inv H2. by rewrite IH, !Hb.
  - inv Hall. by rewrite Hb.
  - inv Hall. by rewrite Hb.
  - decompose_Forall_hyps. by rewrite !Hb.
  - decompose_Forall_hyps. by rewrite !Hb.
  - decompose_Forall_hyps. by rewrite !Hb.
  - decompose_Forall_hyps. by rewrite !Hb.
  - induction Hall as [|id l Hid _ IH]; simpl; [done|]. by rewrite IH, Hb.
  - decompose_Forall_hyps. by rewrite !Hb.
Qed.

Section kinds.
Context `{Jiff}.
Variable compiled : CelCondition.
Variable maximum_cost : N.
Variable poll : nat → bool.
Variable parameter_values : BTreeMap ParameterName RuntimeValue.

Abbreviation nodes := compiled.(cel_program).(program_nodes).
Abbreviation items_limit := compiled.(runtime_collection_items).
Abbreviation bounds := (node_bounds items_limit nodes).
Abbreviation computes := (computes compiled maximum_cost poll parameter_values).
Abbreviation check := (check_cancellation poll).

Definition bound (id : CelNodeId) : N := default 0%N (bounds !! id).

Lemma bound_kind id kind : has_kind nodes id kind → bound id = kind_bound items_limit bounds kind.
Proof.
  intros [Hk Hc]. apply fmap_Some in Hk as (node & Hn & ->). unfold bound.
  assert (Hlen : length (take id nodes) = id) by (apply length_take_le; apply lookup_lt_Some in Hn; lia).
  destruct (node_bounds_app items_limit (take id nodes ++ [node]) (drop (S id) nodes)) as [tail Htail].
  rewrite <-app_assoc in Htail. simpl in Htail. rewrite (take_drop_middle _ _ _ Hn) in Htail.
  rewrite Htail, node_bounds_snoc, <-app_assoc, lookup_app_r; rewrite node_bounds_length; [|lia].
  rewrite Hlen, Nat.sub_diag. simpl. symmetry. apply kind_bound_app. by rewrite node_bounds_length, Hlen.
Qed.

(** The node at [id] computes [c]. *)
Definition evaluates (id : CelNodeId) (sc : list Scope) (c : C RuntimeValue) : Prop :=
  computes (bound id) [FEval id] [] sc sc c.

Lemma k_meter_bind {A B} (c : C A) (k : A → K B) m :
  (k_meter c ≫= k) m =
  match c m.(meter) with
  | (s, Ok a) => k a (mkMachine m.(frames) m.(values) m.(scopes) s)
  | (s, Err e) => (mkMachine m.(frames) m.(values) m.(scopes) s, Err e)
  end.
Proof. unfold mbind, K_bind, k_meter. by destruct (c (meter m)) as [s [a|e]]. Qed.

Lemma pop_value_bind {A} (k : RuntimeValue → K A) F v vs sc s :
  (pop_value ≫= k) (mkMachine F (v :: vs) sc s) = k v (mkMachine F vs sc s).
Proof. done. Qed.

(** ** Nodes that only push frames *)

Definition kind_frames (kind : NodeKind) : option (list Frame) :=
  match kind with
  | NKList ids => Some [FListNext ids 0 []]
  | NKMap ids => Some [FMapNext ids 0 []]
  | NKSelect operand field test => Some [FEval operand; FSelect field test]
  | NKUnary operator operand => Some [FEval operand; FUnary operator]
  | NKBinary operator l r => Some [FEval l; FEval r; FBinary operator]
  | NKConditional condition truthy falsy => Some [FEval condition; FConditional truthy falsy]
  | NKCall function target arguments =>
      Some [FCallNext function (match target with Some id => id :: arguments | None => arguments end)
              (bool_decide (is_Some target)) 0 []]
  | NKComprehension d => Some [FEval d.(iter_range); FComprehensionAfterRange d]
  | _ => None
  end.

Lemma eval_frames id kind fr b sc c :
  has_kind nodes id kind → kind_frames kind = Some fr → (1 + b <= bound id)%N →
  computes b fr [] sc sc c → evaluates id sc (check;; c).
Proof.
  intros [Hk _] Hfr Hb Hc. eapply computes_le; [exact Hb|]. apply fmap_Some in Hk as (node & Hn & ->).
  apply (computes_turn _ _ _ _ b _ [] [] _ _ check (fun _ => fr) (fun _ => []) (fun _ => sc));
    [|constructor|intros; exact Hc].
  intros F vs s. cbn [execute_frame]. unfold eval_node. rewrite k_meter_bind; simpl meter. destruct (check s) as [s' [[]|e]]; [|by exists []].
  rewrite Hn. destruct (node_kind node); simplify_eq/=; done.
Qed.

(** ** Leaves *)

Lemma bound_positive id kind : has_kind nodes id kind → (1 <= bound id)%N.
Proof.
  intros Hk. rewrite (bound_kind _ _ Hk).
  destruct kind as [| | |ids|ids| | | | | | |f t ids|]; simpl; try lia.
  - destruct ids; simpl; lia.
  - destruct ids; simpl; lia.
  - destruct t, ids; simpl; lia.
Qed.

(** One turn that pushes the value of [c]. *)
Lemma pushes_value b f fr ws sc (c : C RuntimeValue) :
  (∀ F vs s,
    match c s with
    | (s', Ok v) => execute_frame compiled maximum_cost poll parameter_values f (mkMachine (fr ++ F) (ws ++ vs) sc s) =
                    (mkMachine F (v :: vs) sc s', Ok ())
    | (s', Err e) => ∃ ws', execute_frame compiled maximum_cost poll parameter_values f (mkMachine (fr ++ F) (ws ++ vs) sc s) =
                            (mkMachine (fr ++ F) (ws' ++ vs) sc s', Err e)
    end) →
  transparent fr sc sc → (1 <= b)%N → computes b (f :: fr) ws sc sc c.
Proof.
  intros Hf Ht Hb. eapply computes_le; [exact Hb|].
  apply (computes_ext _ _ _ _ _ _ _ _ _ (mbind (M:=C) mret c)); [intros s; rewrite c_bind_eq; by destruct (c s) as [? [|]]|].
  apply (computes_turn _ _ _ _ 0 _ fr ws _ _ _ (fun _ => []) (fun v => [v]) (fun _ => sc)); [done|done|intros; apply computes_ret].
Qed.

Lemma literal_evaluates id v sc :
  has_kind nodes id (NKLiteral v) →
  evaluates id sc (check;; c_lift (validate_runtime_value compiled v);; mret v).
Proof.
  intros Hk. apply pushes_value; [|constructor|by eapply bound_positive].
  destruct Hk as [(node & Hn & Hv)%fmap_Some _].
  intros F vs s. cbn [execute_frame]. unfold eval_node. rewrite k_meter_bind, c_bind_eq. simpl meter.
  destruct (check s) as [s' [[]|e]]; [|by exists []]. rewrite Hn, <-Hv. rewrite k_meter_bind, c_bind_eq. simpl meter.
  unfold c_lift. destruct (validate_runtime_value compiled v) as [[]|e]; [done|by exists []].
Qed.

Lemma local_evaluates id name sc declared :
  has_kind nodes id (NKLocal name) →
  name ∈ declared ∨ find_local name sc ≠ None ∨ bt_get (K:=ParameterName) name compiled.(cel_parameters) = None →
  evaluates id sc (check;; charge_one maximum_cost poll;; c_lift (name_value compiled parameter_values declared sc name)).
Proof.
  intros Hk Hd. apply pushes_value; [|constructor|by eapply bound_positive].
  destruct Hk as [(node & Hn & Hv)%fmap_Some _].
  intros F vs s. cbn [execute_frame]. unfold eval_node. rewrite k_meter_bind, c_bind_eq. simpl meter.
  destruct (check s) as [s' [[]|e]]; [|by exists []]. rewrite Hn, <-Hv. unfold eval_local. rewrite k_meter_bind, c_bind_eq.
  simpl meter. destruct (charge_one maximum_cost poll s') as [s2 [[]|e]]; [|by exists []].
  unfold name_value, mbind, K_bind, get_local, c_lift. simpl. destruct (find_local name sc); [done|].
  destruct (bool_decide_reflect (name ∈ declared)); [by exists []|]. destruct Hd as [|[|Hd]]; [done..|].
  rewrite Hd. by exists [].
Qed.

Lemma parameter_evaluates id name sc declared :
  has_kind nodes id (NKParameter name) → name ∉ declared → find_local name sc = None →
  evaluates id sc (check;; charge_one maximum_cost poll;; c_lift (name_value compiled parameter_values declared sc name)).
Proof.
  intros Hk Hd Hf. apply pushes_value; [|constructor|by eapply bound_positive].
  destruct Hk as [(node & Hn & Hv)%fmap_Some _].
  intros F vs s. cbn [execute_frame]. unfold eval_node. rewrite k_meter_bind, c_bind_eq. simpl meter.
  destruct (check s) as [s' [[]|e]]; [|by exists []]. rewrite Hn, <-Hv. unfold eval_parameter. rewrite k_meter_bind, c_bind_eq.
  simpl meter. destruct (charge_one maximum_cost poll s') as [s2 [[]|e]]; [|by exists []].
  unfold name_value, c_lift. rewrite Hf, bool_decide_false by done.
  destruct (bt_get name (cel_parameters compiled)); simpl; [|by exists []]. by destruct (bt_get name parameter_values).
Qed.

(** ** Operands, then one operation *)

Lemma unary_evaluates id operator operand sc c :
  has_kind nodes id (NKUnary operator operand) → evaluates operand sc c →
  evaluates id sc (check;; v ← c; charge_one maximum_cost poll;; c_lift (apply_unary operator v)).
Proof.
  intros Hk Hc. eapply eval_frames; [done|done|rewrite (bound_kind _ _ Hk); simpl; unfold bound in Hc|].
  { instantiate (1 := (bound operand + 1)%N). unfold bound. lia. }
  apply computes_bind; [done|by repeat constructor|]. intros v _. apply (pushes_value _ _ [] [v]); [|constructor|done].
  intros F vs s. cbn [execute_frame]. rewrite k_meter_bind, c_bind_eq. simpl meter.
  destruct (charge_one maximum_cost poll s) as [s' [[]|e]]; [|by exists [v]].
  unfold c_lift, mbind, K_bind, k_meter. simpl. destruct (apply_unary operator v); [done|by exists []].
Qed.

Lemma select_evaluates id operand field test sc c :
  has_kind nodes id (NKSelect operand field test) → evaluates operand sc c →
  evaluates id sc (check;; v ← c; charge_one maximum_cost poll;; select poll field test v).
Proof.
  intros Hk Hc. eapply eval_frames; [done|done|rewrite (bound_kind _ _ Hk)|].
  { instantiate (1 := (bound operand + 1)%N). unfold bound. simpl. lia. }
  apply computes_bind; [done|by repeat constructor|]. intros v _. apply (pushes_value _ _ [] [v]); [|constructor|done].
  intros F vs s. cbn [execute_frame]. rewrite k_meter_bind, c_bind_eq. simpl meter.
  destruct (charge_one maximum_cost poll s) as [s' [[]|e]]; [|by exists [v]].
  unfold mbind, K_bind, k_meter. simpl. destruct (select poll field test v s') as [? [|]]; [done|by exists []].
Qed.

Lemma binary_evaluates id operator l r sc cl cr :
  has_kind nodes id (NKBinary operator l r) → evaluates l sc cl → evaluates r sc cr →
  evaluates id sc (check;; lv ← cl; rv ← cr; apply_binary compiled maximum_cost poll operator lv rv).
Proof.
  intros Hk Hl Hr. eapply eval_frames; [done|done|rewrite (bound_kind _ _ Hk)|].
  { instantiate (1 := (bound l + (bound r + 1))%N). unfold bound. simpl. lia. }
  apply computes_bind; [done|by repeat constructor|]. intros lv _.
  apply computes_bind; [done|by repeat constructor|]. intros rv _. apply (pushes_value _ _ [] [rv; lv]); [|constructor|done].
  intros F vs s. cbn [execute_frame]. unfold mbind, K_bind, k_meter. simpl.
  destruct (apply_binary compiled maximum_cost poll operator lv rv s) as [? [|]]; [done|by exists []].
Qed.

Lemma conditional_evaluates id condition truthy falsy sc cc ct cf :
  has_kind nodes id (NKConditional condition truthy falsy) →
  evaluates condition sc cc → evaluates truthy sc ct → evaluates falsy sc cf →
  evaluates id sc (check;; conditional_value cc ct cf).
Proof.
  intros Hk Hc Ht Hf. eapply eval_frames; [done|done|rewrite (bound_kind _ _ Hk)|].
  { instantiate (1 := (bound condition + (1 + (bound truthy + bound falsy)))%N). unfold bound. simpl. lia. }
  apply computes_bind; [done|by repeat constructor|]. intros v _.
  destruct v as [u| |[]| | | | | | | | | |];
    try (apply (computes_fail _ _ _ _ _ _ []); [intros ???; by exists []|apply transparent_nil]).
  - apply (computes_le _ _ _ _ (1 + 0)); [lia|].
    apply (computes_step _ _ _ _ _ _ [] _ _ _ [] [VUnknown u] sc); [done|apply computes_ret].
  - apply (computes_le _ _ _ _ (1 + bound truthy)); [lia|].
    apply (computes_step _ _ _ _ _ _ [] _ _ _ [FEval truthy] [] sc); [done|exact Ht].
  - apply (computes_le _ _ _ _ (1 + bound falsy)); [lia|].
    apply (computes_step _ _ _ _ _ _ [] _ _ _ [FEval falsy] [] sc); [done|exact Hf].
Qed.

(** ** Collections and calls

    The identifiers of a node are those already evaluated and those to come. *)

(** A turn that checks for cancellation and pushes frames. *)
Lemma checked_turn b f fr1 sc c :
  (∀ F vs s, execute_frame compiled maximum_cost poll parameter_values f (mkMachine F vs sc s) =
             match check s with
             | (s, Ok _) => (mkMachine (fr1 ++ F) vs sc s, Ok ())
             | (s, Err e) => (mkMachine F vs sc s, Err e)
             end) →
  computes b fr1 [] sc sc c → computes (1 + b) [f] [] sc sc (check;; c).
Proof.
  intros Hf Hc. apply (computes_turn _ _ _ _ b _ [] [] _ _ check (fun _ => fr1) (fun _ => []) (fun _ => sc));
    [|constructor|intros; exact Hc].
  intros F vs s. simpl app. rewrite Hf. destruct (check s) as [s' [[]|e]]; [done|by exists []].
Qed.

Lemma list_computes {A} (eval : A → C RuntimeValue) sc es : ∀ before after values,
  all2 (fun e id => evaluates id sc (eval e)) es after →
  computes (foldr (fun id n => 2 + bound id + n)%N 1%N after) [FListNext (before ++ after) (length before) values] [] sc sc
    (list_literal compiled maximum_cost poll eval es values).
Proof.
  induction es as [|e es IH]; intros before [|id after] values; simpl; [intros _|done..|intros [He Hes]].
  - apply (pushes_value _ _ [] []); [|constructor|done]. intros F vs s. cbn [execute_frame]. unfold list_next.
    rewrite app_nil_r, lookup_ge_None_2 by done. rewrite k_meter_bind, c_bind_eq. simpl meter.
    destruct (charge_units maximum_cost poll 10 s) as [s' [[]|e]]; [done|by exists []].
  - apply (computes_le _ _ _ _ (1 + (bound id + (1 + foldr (fun id n => 2 + bound id + n)%N 1%N after)))); [lia|].
    apply (checked_turn _ _ [FEval id; FListAfter (before ++ id :: after) (length before) values]).
    { intros F vs s. cbn [execute_frame]. unfold list_next. by rewrite list_lookup_middle, k_meter_bind. }
    apply computes_bind; [exact He|by repeat constructor|]. intros v _.
    destruct (runtime_collection_items compiled <=? len values)%N eqn:El.
    + apply (computes_fail _ _ _ _ _ _ []); [|apply transparent_nil]. intros F vs s. cbn [execute_frame]. unfold list_after.
      rewrite El. by exists [v].
    + apply (computes_step _ _ _ _ _ _ [] _ _ _ [FListNext (before ++ id :: after) (S (length before)) (values ++ [v])] [] sc).
      { intros F vs s. cbn [execute_frame]. unfold list_after. by rewrite El. }
      rewrite cons_middle, app_assoc. replace (S (length before)) with (length (before ++ [id])) by (rewrite length_app; simpl; lia).
      by apply IH.
Qed.

Lemma list_evaluates {A} (eval : A → C RuntimeValue) id ids es sc :
  has_kind nodes id (NKList ids) → all2 (fun e id => evaluates id sc (eval e)) es ids →
  evaluates id sc (check;; list_literal compiled maximum_cost poll eval es []).
Proof.
  intros Hk Hes. eapply eval_frames; [done|done| |by apply (list_computes _ _ _ [])].
  rewrite (bound_kind _ _ Hk). simpl. clear. induction ids as [|id ids IH]; simpl; [lia|]. unfold bound in *. lia.
Qed.

Lemma call_computes {A} (function : Function) (target : bool) (eval : A → C RuntimeValue) sc es : ∀ before after values,
  all2 (fun e id => evaluates id sc (eval e)) es after →
  computes (foldr (fun id n => 2 + bound id + n)%N 1%N after)
    [FCallNext function (before ++ after) target (length before) values] [] sc sc
    (call_value maximum_cost poll function target eval es values).
Proof.
  induction es as [|e es IH]; intros before [|id after] values; simpl; [intros _|done..|intros [He Hes]].
  - apply (pushes_value _ _ [] []); [|constructor|done]. intros F vs s. cbn [execute_frame]. unfold call_next.
    rewrite app_nil_r, lookup_ge_None_2 by done. rewrite k_meter_bind. simpl meter.
    destruct (call_function maximum_cost poll function target values s) as [s' [|e]]; [done|by exists []].
  - apply (computes_le _ _ _ _ (1 + (bound id + (1 + foldr (fun id n => 2 + bound id + n)%N 1%N after)))); [lia|].
    apply (computes_step _ _ _ _ _ _ [] _ _ _ [FEval id; FCallAfter function (before ++ id :: after) target (length before) values] [] sc).
    { intros F vs s. cbn [execute_frame]. unfold call_next. by rewrite list_lookup_middle. }
    apply computes_bind; [exact He|by repeat constructor|]. intros v _.
    apply (computes_step _ _ _ _ _ _ [] _ _ _ [FCallNext function (before ++ id :: after) target (S (length before)) (values ++ [v])] [] sc); [done|].
    rewrite cons_middle, app_assoc. replace (S (length before)) with (length (before ++ [id])) by (rewrite length_app; simpl; lia).
    by apply IH.
Qed.

Lemma call_bound id function target_id ids :
  has_kind nodes id (NKCall function target_id ids) →
  (1 + foldr (fun id n => 2 + bound id + n) 1 (match target_id with Some id => id :: ids | None => ids end) <= bound id)%N.
Proof.
  intros Hk. rewrite (bound_kind _ _ Hk). simpl. generalize (match target_id with Some id => id :: ids | None => ids end).
  clear. intros ids. induction ids as [|id ids IH]; simpl; [lia|]. unfold bound in *. lia.
Qed.

Abbreviation entry_bound := (fun e n => 3 + bound e.1 + bound e.2 + n)%N.

(** The value of an entry joins the others. *)
Lemma entry_computes b ids index k v values sc c :
  computes b [FMapNext ids (S index) (values ++ [(k, v)])] [] sc sc c →
  computes (1 + b) [FMapAfterValue ids index k values] [v] sc sc
    (distinct_key poll k values;; if is_unknown v then mret v else c_lift (accept_entry compiled k values);; c).
Proof.
  intros Hc.
  apply (computes_ext _ _ _ _ _ _ _ _ _
    (mbind (M:=C) (fun o : bool => if o then mret v else c)
       (distinct_key poll k values;; if is_unknown v then mret true else c_lift (accept_entry compiled k values);; mret false))).
  { intros s. rewrite !c_bind_eq. destruct (distinct_key poll k values s) as [s' [[]|e]]; [|done].
    destruct (is_unknown v); [done|]. rewrite !c_bind_eq. by destruct (c_lift _ s') as [? [|]]. }
  apply (computes_turn _ _ _ _ b _ [] [v] _ _ _
    (fun o : bool => if o then [] else [FMapNext ids (S index) (values ++ [(k, v)])])
    (fun o : bool => if o then [v] else []) (fun _ => sc)); [|constructor|].
  - intros F vs s. cbn [execute_frame]. unfold map_after_value. simpl app.
    rewrite pop_value_bind, k_meter_bind, c_bind_eq. simpl meter. destruct (distinct_key poll k values s) as [s' [[]|e]]; [|by exists []].
    destruct (is_unknown v); [done|]. rewrite k_meter_bind, c_bind_eq. simpl. unfold c_lift.
    destruct (accept_entry compiled k values) as [[]|e]; [done|by exists []].
  - intros [] _; [|exact Hc]. apply (computes_le _ _ _ _ 0); [lia|apply computes_ret].
Qed.

Lemma map_computes {A} (key value : A → C RuntimeValue) sc es : ∀ before after values,
  all2 (fun e ids => evaluates ids.1 sc (key e) ∧ evaluates ids.2 sc (value e)) es after →
  computes (foldr entry_bound 1%N after) [FMapNext (before ++ after) (length before) values] [] sc sc
    (map_literal compiled maximum_cost poll key value es values).
Proof.
  induction es as [|e es IH]; intros before [|[ki vi] after] values; simpl; [intros _|done..|intros [[Hk Hv] Hes]].
  - apply (pushes_value _ _ [] []); [|constructor|done]. intros F vs s. cbn [execute_frame]. unfold map_next.
    rewrite app_nil_r, lookup_ge_None_2 by done. rewrite k_meter_bind, c_bind_eq. simpl meter.
    destruct (charge_units maximum_cost poll 30 s) as [s' [[]|e]]; [done|by exists []].
  - set (ids := before ++ (ki, vi) :: after).
    apply (computes_le _ _ _ _ (1 + (bound ki + (1 + (bound vi + (1 + foldr entry_bound 1%N after)))))); [lia|].
    apply (checked_turn _ _ [FEval ki; FMapAfterKey ids (length before) values]).
    { intros F vs s. cbn [execute_frame]. unfold map_next, ids. by rewrite list_lookup_middle, k_meter_bind. }
    apply computes_bind; [exact Hk|by repeat constructor|]. intros w _.
    destruct w as [u| | | | | |k| | | | | |];
      try (apply (computes_fail _ _ _ _ _ _ []); [intros ???; by exists []|apply transparent_nil]).
    + apply (computes_le _ _ _ _ (1 + 0)); [lia|].
      apply (computes_step _ _ _ _ _ _ [] _ _ _ [] [VUnknown u] sc); [done|apply computes_ret].
    + apply (computes_step _ _ _ _ _ _ [] _ _ _ [FEval vi; FMapAfterValue ids (length before) k values] [] sc).
      { intros F vs s. cbn [execute_frame]. unfold map_after_key, ids. simpl app.
        by rewrite pop_value_bind, list_lookup_middle. }
      apply computes_bind; [exact Hv|by repeat constructor|]. intros v _. apply entry_computes.
      unfold ids. rewrite cons_middle, app_assoc.
      replace (S (length before)) with (length (before ++ [(ki, vi)])) by (rewrite length_app; simpl; lia). by apply IH.
Qed.

Lemma map_evaluates {A} (key value : A → C RuntimeValue) id ids es sc :
  has_kind nodes id (NKMap ids) →
  all2 (fun e ids => evaluates ids.1 sc (key e) ∧ evaluates ids.2 sc (value e)) es ids →
  evaluates id sc (check;; map_literal compiled maximum_cost poll key value es []).
Proof.
  intros Hk Hes. eapply eval_frames; [done|done| |by apply (map_computes _ _ _ _ [])].
  rewrite (bound_kind _ _ Hk). simpl. clear. induction ids as [|id ids IH]; simpl; [lia|]. unfold bound in *. lia.
Qed.

(** ** Comprehensions *)

Lemma bind_item_scope d item acc F vs scope sc s :
  bind_item d item acc (mkMachine F vs (scope :: sc) s) =
  (mkMachine F vs (bind_scope d.(iter_var) d.(iter_var2) d.(accu_var) item acc scope :: sc) s, Ok ()).
Proof. unfold bind_item, bind_scope. by destruct (iter_var2 d), item.2. Qed.

(** A value in the scope of a comprehension leaves it. *)
Lemma guard_computes v scope sc : computes 1 [FScopeGuard] [v] (scope :: sc) sc (mret v).
Proof. apply (computes_step _ _ _ _ 0 _ [] _ _ _ [] [v] sc); [done|apply computes_ret]. Qed.

Lemma guarded_computes id scope sc c :
  evaluates id (scope :: sc) c → computes (bound id + 1) [FEval id; FScopeGuard] [] (scope :: sc) sc c.
Proof.
  intros Hc. apply (computes_ext _ _ _ _ _ _ _ _ _ (mbind (M:=C) mret c));
    [intros s; rewrite c_bind_eq; by destruct (c s) as [? [|]]|].
  apply computes_bind; [exact Hc|by repeat constructor|]. intros v _. apply guard_computes.
Qed.

Section loop.
Variable d : Comprehension.
Variable sc : list Scope.
Variable items : list (RuntimeValue * option RuntimeValue).
Variable cond step result : Scope → C RuntimeValue.
Variable P : Scope → Prop.
Variable Q : RuntimeValue → Prop.
Hypothesis insert_ok : ∀ scope acc, P scope → Q acc → P (bt_insert d.(accu_var) acc scope).
Hypothesis bind_ok : ∀ item acc scope, item ∈ items → P scope → Q acc →
  P (bind_scope d.(iter_var) d.(iter_var2) d.(accu_var) item acc scope).
Hypothesis step_ok : ∀ scope v, P scope → returns (step scope) v → Q v.
Hypothesis cond_evaluates : ∀ scope, P scope → evaluates d.(loop_cond) (scope :: sc) (cond scope).
Hypothesis step_evaluates : ∀ scope, P scope → evaluates d.(loop_step) (scope :: sc) (step scope).
Hypothesis result_evaluates : ∀ scope, P scope → evaluates d.(comprehension_result) (scope :: sc) (result scope).

Abbreviation loop := (comprehension_loop poll d.(iter_var) d.(iter_var2) d.(accu_var) cond step result).
Abbreviation round_bound := (3 + bound d.(loop_cond) + bound d.(loop_step))%N.
Abbreviation last_bound := (bound d.(comprehension_result) + 1)%N.

(** A frame that hands the accumulator to the result. *)
Lemma result_computes b f ws acc scope :
  P scope → Q acc → (1 + last_bound <= b)%N →
  (∀ F vs s, execute_frame compiled maximum_cost poll parameter_values f (mkMachine F (ws ++ vs) (scope :: sc) s) =
             (set_local d.(accu_var) acc;; push_frame (FEval d.(comprehension_result))) (mkMachine F vs (scope :: sc) s)) →
  computes b [f; FScopeGuard] ws (scope :: sc) sc (result (bt_insert d.(accu_var) acc scope)).
Proof.
  intros HP HQ Hb Hf. apply (computes_le _ _ _ _ (1 + last_bound)); [done|].
  apply (computes_step _ _ _ _ _ _ [FScopeGuard] _ _ _ [FEval d.(comprehension_result); FScopeGuard] []
           (bt_insert d.(accu_var) acc scope :: sc)); [|by apply guarded_computes, result_evaluates, insert_ok].
  intros F vs s. by rewrite Hf.
Qed.

(** The condition of a round has the value [v]. *)
Lemma round_computes b state v scope go :
  P scope → Q state.(cs_accumulator) → state.(cs_definition) = d → (last_bound <= b)%N →
  (∀ a, Q a → computes b [FComprehensionNext (mkComprehensionState d state.(cs_items) (S state.(cs_index)) a); FScopeGuard] []
                (scope :: sc) sc (go a)) →
  computes (2 + bound d.(loop_step) + b) [FComprehensionAfterCond state; FScopeGuard] [v] (scope :: sc) sc
    match v with
    | VBool true => a ← step scope; go a
    | VBool false => result (bt_insert d.(accu_var) state.(cs_accumulator) scope)
    | VUnknown unknown => mret (VUnknown unknown)
    | _ => c_fail type_mismatch
    end.
Proof.
  intros HP HQ Hd Hb Hgo. replace (2 + bound d.(loop_step) + b)%N with (1 + (bound d.(loop_step) + (1 + b)))%N by lia.
  destruct v as [u| |[]| | | | | | | | | |];
    try (apply (computes_fail _ _ _ _ _ _ [FScopeGuard]); [intros ???; by exists []|by repeat constructor]).
  - apply (computes_le _ _ _ _ (1 + 1)); [lia|].
    apply (computes_step _ _ _ _ _ _ [FScopeGuard] _ _ _ [FScopeGuard] [VUnknown u] (scope :: sc)); [done|apply guard_computes].
  - apply (computes_step _ _ _ _ _ _ [FScopeGuard] _ _ _ [FEval d.(loop_step); FComprehensionAfterStep state; FScopeGuard] []
             (scope :: sc)); [intros F vs s; by rewrite <-Hd|].
    apply computes_bind; [by apply step_evaluates|by repeat constructor|]. intros a Ha.
    apply (computes_step _ _ _ _ _ _ [FScopeGuard] _ _ _
             [FComprehensionNext (mkComprehensionState d state.(cs_items) (S state.(cs_index)) a); FScopeGuard] [] (scope :: sc));
      [intros F vs s; by rewrite <-Hd|]. by eapply Hgo, step_ok.
  - apply result_computes; [done|done|lia|]. intros F vs s. by rewrite <-Hd.
Qed.

Lemma loop_computes after : ∀ before acc scope,
  items = before ++ after → P scope → Q acc →
  computes (len after * round_bound + (1 + last_bound))
    [FComprehensionNext (mkComprehensionState d items (length before) acc); FScopeGuard] [] (scope :: sc) sc
    (loop after acc scope).
Proof.
  induction after as [|item after IH]; intros before acc scope Hitems HP HQ.
  - apply result_computes; [done|done|unfold len; simpl; lia|]. intros F vs s. cbn [execute_frame]. unfold comprehension_next. simpl.
    by rewrite Hitems, app_nil_r, lookup_ge_None_2.
  - assert (Hat : items !! length before = Some item) by by rewrite Hitems, list_lookup_middle.
    set (scope' := bind_scope d.(iter_var) d.(iter_var2) d.(accu_var) item acc scope).
    set (b := (len after * round_bound + (1 + last_bound))%N).
    apply (computes_le _ _ _ _ (1 + (bound d.(loop_cond) + (2 + bound d.(loop_step) + b))));
      [unfold b, len; rewrite length_cons, Nat2N.inj_succ, N.mul_succ_l; lia|].
    simpl. apply (computes_turn _ _ _ _ _ _ [FScopeGuard] [] _ _ check
             (fun _ => [FEval d.(loop_cond); FComprehensionAfterCond (mkComprehensionState d items (length before) acc); FScopeGuard])
             (fun _ => []) (fun _ => scope' :: sc)); [|by repeat constructor|intros _ _].
    { intros F vs s. cbn [execute_frame]. unfold comprehension_next. simpl. rewrite Hat, k_meter_bind. simpl meter.
      destruct (check s) as [s' [[]|e]]; [|by exists []]. simpl. unfold mbind, K_bind. by rewrite bind_item_scope. }
    assert (HP' : P scope') by (apply bind_ok; [rewrite Hitems; set_solver|done..]).
    apply computes_bind; [by apply cond_evaluates|by repeat constructor|]. intros v _.
    apply (round_computes b (mkComprehensionState d items (length before) acc)); [done|done|done|unfold b; lia|].
    intros a Ha. simpl. replace (S (length before)) with (length (before ++ [item])) by (rewrite length_app; simpl; lia).
    apply IH; [by rewrite <-app_assoc|done|done].
Qed.

End loop.

Lemma comprehension_evaluates id d sc range init cond step result (P : Scope → Prop) (Q : RuntimeValue → Prop) :
  has_kind nodes id (NKComprehension d) →
  evaluates d.(iter_range) sc range → evaluates d.(accu_init) sc init →
  (∀ scope acc, P scope → Q acc → P (bt_insert d.(accu_var) acc scope)) →
  (∀ r items, returns range r → range_items r = Some items →
    (len items <= items_limit)%N ∧
    ∀ item acc scope, item ∈ items → P scope → Q acc →
      P (bind_scope d.(iter_var) d.(iter_var2) d.(accu_var) item acc scope)) →
  P [] → (∀ a, returns init a → Q a) → (∀ scope v, P scope → returns (step scope) v → Q v) →
  (∀ scope, P scope → evaluates d.(loop_cond) (scope :: sc) (cond scope)) →
  (∀ scope, P scope → evaluates d.(loop_step) (scope :: sc) (step scope)) →
  (∀ scope, P scope → evaluates d.(comprehension_result) (scope :: sc) (result scope)) →
  evaluates id sc
    (check;; comprehension_value poll d.(iter_var) d.(iter_var2) d.(accu_var) range init cond step result).
Proof.
  intros Hk Hr Hi Hins Hbind HP Hinit Hstep Hc Hs He.
  set (b := (items_limit * (3 + bound d.(loop_cond) + bound d.(loop_step)) + (1 + (bound d.(comprehension_result) + 1)))%N).
  eapply eval_frames; [done|done|rewrite (bound_kind _ _ Hk)|].
  { instantiate (1 := (bound d.(iter_range) + (1 + (bound d.(accu_init) + (1 + b))))%N). unfold b, bound. simpl. lia. }
  apply computes_bind; [done|by repeat constructor|]. intros r Hret.
  destruct (range_items r) as [items|] eqn:Eitems.
  - destruct (Hbind r items Hret Eitems) as [Hlen Hb].
    apply (computes_ext _ _ _ _ _ _ _ _ _
      (mbind (M:=C) (fun a => comprehension_loop poll d.(iter_var) d.(iter_var2) d.(accu_var) cond step result items a []) init));
      [intros s; by destruct r; simplify_eq/=|].
    apply (computes_step _ _ _ _ _ _ [] _ _ _ [FEval d.(accu_init); FComprehensionAfterInit d items] [] sc).
    { intros F vs s. cbn [execute_frame]. unfold comprehension_after_range. simpl app. rewrite pop_value_bind.
      by destruct r; simplify_eq/=. }
    apply computes_bind; [done|by repeat constructor|]. intros a Ha.
    apply (computes_step _ _ _ _ _ _ [] _ _ _
             [FComprehensionNext (mkComprehensionState d items 0 a); FScopeGuard] [] ([] :: sc)); [done|].
    eapply computes_le; [|by eapply (loop_computes _ _ items _ _ _ P Q) with (before := []); auto]. unfold b. nia.
  - destruct r as [u| | | | | | | | | | | |]; simplify_eq/=;
      try (apply (computes_fail _ _ _ _ _ _ []); [intros ???; by exists []|apply transparent_nil]).
    apply (computes_le _ _ _ _ (1 + 0)); [lia|].
    apply (computes_step _ _ _ _ _ _ [] _ _ _ [] [VUnknown u] sc); [done|apply computes_ret].
Qed.

(** ** Logical operators *)

Lemma depths_cons F (vs : list RuntimeValue) f :
  match f with
  | FLogicalAfterLeft _ _ d | FLogicalAfterUnknown _ _ d | FLogicalAfterError _ _ d => d = length vs
  | _ => False
  end → depths_ok F (length vs) → depths_ok (f :: F) (length vs).
Proof. intros Hf HF. constructor; [destruct f; simpl in *; try done; lia|done]. Qed.

Abbreviation reaches := (reaches compiled maximum_cost poll parameter_values).

Lemma truncate_all vs : truncate_values (length vs) vs = vs.
Proof. unfold truncate_values. by rewrite Nat.sub_diag. Qed.

Lemma raise_unknown e u and F vs sc s : raise e (FLogicalAfterUnknown u and (length vs) :: F) vs sc s = raise e F vs sc s.
Proof. unfold raise. simpl. by rewrite truncate_all. Qed.

Lemma raise_error e original and F vs sc s :
  is_suppressible original = true →
  raise e (FLogicalAfterError original and (length vs) :: F) vs sc s =
  raise (if is_suppressible e then original else e) F vs sc s.
Proof.
  intros Ho. unfold raise. simpl. rewrite truncate_all. destruct (is_suppressible e) eqn:E; [by rewrite Ho|by rewrite E].
Qed.

Section logical.
Variable l r : CelNodeId.
Variable sc : list Scope.
Variable cl cr : C RuntimeValue.
Variable and : bool.
Hypothesis left_evaluates : evaluates l sc cl.
Hypothesis right_evaluates : evaluates r sc cr.

(** The right operand after an unknown left one. *)
Lemma after_unknown F vs s u :
  depths_ok F (length vs) →
  reaches (bound r + 1) (mkMachine (FEval r :: FLogicalAfterUnknown u and (length vs) :: F) vs sc s)
    (finish ((rv ← cr;
              match rv with
              | VBool b => mret (if negb (eqb b and) then VBool b else VUnknown u)
              | VUnknown other => mret (VUnknown (bs_extend u other))
              | _ => c_fail type_mismatch
              end) s) F vs sc).
Proof.
  intros HF. pose proof (right_evaluates (FLogicalAfterUnknown u and (length vs) :: F) vs s ltac:(by apply depths_cons)) as Hr.
  rewrite c_bind_eq. destruct (cr s) as [s' [v|e]]; simpl in Hr.
  - eapply reaches_trans; [exact Hr|]. apply reaches_turn. rewrite turn_frame. cbn [execute_frame].
    unfold logical_after_unknown. rewrite pop_value_bind. destruct v; try done. by destruct (negb _).
  - eapply reaches_le; [|simpl; rewrite raise_unknown in Hr; exact Hr]. lia.
Qed.

(** The right operand after the left one failed with [error]. *)
Lemma after_error F vs s error :
  depths_ok F (length vs) → is_suppressible error = true →
  reaches (bound r + 1) (mkMachine (FEval r :: FLogicalAfterError error and (length vs) :: F) vs sc s)
    (finish ((rv ← c_try cr;
              match rv with
              | Ok (VBool b) => if negb (eqb b and) then mret (VBool b) else c_fail error
              | Ok (VUnknown _) => c_fail error
              | Ok _ => c_fail type_mismatch
              | Err other => c_fail (if is_suppressible other then error else other)
              end) s) F vs sc).
Proof.
  intros HF He.
  pose proof (right_evaluates (FLogicalAfterError error and (length vs) :: F) vs s ltac:(by apply depths_cons)) as Hr.
  rewrite c_bind_eq. unfold c_try. destruct (cr s) as [s' [v|e]]; simpl in Hr.
  - eapply reaches_trans; [exact Hr|]. apply reaches_turn. rewrite turn_frame. cbn [execute_frame].
    unfold logical_after_error. rewrite pop_value_bind. destruct v; try done. by destruct (negb _).
  - eapply reaches_le; [|simpl; rewrite raise_error in Hr by done; exact Hr]. lia.
Qed.

(** Both operands. *)
Lemma after_left F vs s :
  depths_ok F (length vs) →
  reaches (bound l + (bound r + 2)) (mkMachine (FEval l :: FLogicalAfterLeft r and (length vs) :: F) vs sc s)
    (finish (logical cl cr and s) F vs sc).
Proof.
  intros HF. pose proof (left_evaluates (FLogicalAfterLeft r and (length vs) :: F) vs s ltac:(by apply depths_cons)) as Hl.
  unfold logical. rewrite c_bind_eq. unfold c_try at 1. destruct (cl s) as [s' [v|e]]; simpl in Hl.
  - eapply reaches_trans; [exact Hl|]. replace (bound r + 2)%N with (1 + (bound r + 1))%N by lia.
    assert (Hturn : turn compiled maximum_cost poll parameter_values
        (mkMachine (FLogicalAfterLeft r and (length vs) :: F) (v :: vs) sc s') =
      match logical_after_left r and (length vs) (mkMachine F (v :: vs) sc s') with
      | (m, Ok _) => Running m
      | (m, Err e) => raise e m.(frames) m.(values) m.(scopes) m.(meter)
      end) by apply turn_frame.
    unfold logical_after_left in Hturn. rewrite pop_value_bind in Hturn.
    destruct v as [u| |b| | | | | | | | | |]; try (eapply reaches_le; [|by apply reaches_turn]; lia).
    + eapply reaches_step; [exact Hturn|]. by apply after_unknown.
    + destruct (negb (eqb b and)); [eapply reaches_le; [|by apply reaches_turn]; lia|].
      eapply reaches_step; [exact Hturn|]. eapply reaches_le; [|by apply right_evaluates]. lia.
  - unfold raise in Hl. destruct (is_suppressible e) eqn:E; simpl in Hl.
    + rewrite truncate_all in Hl. eapply reaches_trans; [exact Hl|]. eapply reaches_le; [|by apply after_error]. lia.
    + eapply reaches_le; [|simpl; unfold raise; rewrite E; exact Hl]. lia.
Qed.

Lemma logical_evaluates id :
  has_kind nodes id (if and then NKLogicalAnd l r else NKLogicalOr l r) →
  evaluates id sc (check;; logical cl cr and).
Proof.
  intros Hk F vs s HF. pose proof (bound_kind _ _ Hk) as Hb. destruct Hk as [(node & Hn & Hv)%fmap_Some _].
  apply (reaches_le _ _ _ _ (1 + (bound l + (bound r + 2)))); [rewrite Hb; destruct and; unfold bound; simpl; lia|].
  assert (Hturn : turn compiled maximum_cost poll parameter_values (mkMachine ([FEval id] ++ F) ([] ++ vs) sc s) =
    match check s with
    | (s, Ok _) => Running (mkMachine (FEval l :: FLogicalAfterLeft r and (length vs) :: F) vs sc s)
    | (s, Err e) => raise e F vs sc s
    end).
  { simpl app. rewrite turn_frame. cbn [execute_frame]. unfold eval_node. rewrite k_meter_bind. simpl meter.
    destruct (check s) as [s' [[]|e]]; [|done]. rewrite Hn, <-Hv. by destruct and. }
  rewrite c_bind_eq. destruct (check s) as [s' [[]|e]].
  - eapply reaches_step; [exact Hturn|by apply after_left].
  - eapply reaches_le; [|by apply reaches_turn]. lia.
Qed.

End logical.

End kinds.

(** ** Names

    A comprehension's second variable has a place in its scope only where the
    range is a map, so it may hide a parameter in some rounds and not in others;
    elsewhere a name is a local or a parameter by its position alone. *)

Section names.
Variable parameters : BTreeMap ParameterName ParameterType.

(** No second variable has the name of a parameter. *)
Definition seconds_fresh (e : Expr) : Prop :=
  everywhere (fun e => match e with
                       | XComprehension _ _ (Some name) _ _ _ _ _ => bt_get (K:=ParameterName) name parameters = None
                       | _ => True
                       end) e.

(** The lowerer's scopes, the declared names and the machine's scopes agree on
    which names are locals. *)
Definition agree (statics : list (BTreeMap rstr StaticType)) (declared : list rstr) (sc : list Scope) : Prop :=
  ∀ name,
    match find_static name statics with
    | Some _ => name ∈ declared ∨ find_local name sc ≠ None ∨ bt_get (K:=ParameterName) name parameters = None
    | None => is_Some (bt_get (K:=ParameterName) name parameters) → (name ∉ declared) ∧ find_local name sc = None
    end.

(** The names bound in the scope of a comprehension. *)
Definition scope_names (var : rstr) (var2 : option rstr) (accu : rstr) (scope : Scope) : Prop :=
  ∀ k v, bt_get k scope = Some v → k = var ∨ k = accu ∨ var2 = Some k.

Lemma bt_get_insert_some {V} (k k' : rstr) (v w : V) m : bt_get k (bt_insert k' v m) = Some w → k = k' ∨ bt_get k m = Some w.
Proof. destruct (decide (k = k')) as [->|Hne]; [by left|]. rewrite bt_get_insert_ne by done. by right. Qed.

Lemma bind_scope_names var var2 accu item acc scope :
  scope_names var var2 accu scope → scope_names var var2 accu (bind_scope var var2 accu item acc scope).
Proof.
  intros Hs k v. unfold bind_scope. intros [->|E]%bt_get_insert_some; [by auto|].
  destruct var2 as [name|], item.2; try (apply bt_get_insert_some in E as [->|E]; eauto).
  apply bt_get_insert_some in E as [->|E]; eauto.
Qed.

Lemma comprehension_scope_get var var2 accu types accu_type k :
  match bt_get k (comprehension_scope var var2 accu types accu_type) with
  | Some _ => k = var ∨ k = accu ∨ var2 = Some k
  | None => k ≠ var ∧ k ≠ accu
  end.
Proof.
  unfold comprehension_scope.
  destruct (decide (k = accu)) as [->|Hne]; [rewrite bt_get_insert_eq; auto|]. rewrite bt_get_insert_ne by done.
  set (base := bt_insert var types.1 []).
  assert (Hb : match bt_get k base with Some _ => k = var | None => k ≠ var end).
  { unfold base. destruct (decide (k = var)) as [->|Hv]; [by rewrite bt_get_insert_eq|by rewrite bt_get_insert_ne]. }
  destruct var2 as [name|], types.2 as [t|]; try (by case_match; auto).
  destruct (decide (k = name)) as [->|Hn]; [rewrite bt_get_insert_eq; auto|]. rewrite bt_get_insert_ne by done. case_match; auto.
Qed.

Lemma agree_scope statics declared sc var var2 accu types accu_type scope :
  agree statics declared sc → scope_names var var2 accu scope →
  match var2 with Some name => bt_get (K:=ParameterName) name parameters = None | None => True end →
  agree (comprehension_scope var var2 accu types accu_type :: statics) (var :: accu :: declared) (scope :: sc).
Proof.
  intros Ha Hs Hfresh name. simpl. pose proof (comprehension_scope_get var var2 accu types accu_type name) as Hg.
  specialize (Ha name). destruct (bt_get name (comprehension_scope _ _ _ _ _)).
  - destruct Hg as [->|[->| ->]]; [set_solver..|]. by right; right.
  - destruct (find_static name statics).
    + destruct Ha as [Hd|[Hf|Hp]]; [set_solver| |by right; right]. right; left. by destruct (bt_get name scope).
    + intros Hp. destruct (Ha Hp) as [Hd Hf]. split; [set_solver|]. destruct (bt_get name scope) eqn:E; [|done].
      apply Hs in E as [->|[->| ->]]; [tauto..|]. rewrite Hfresh in Hp. by apply is_Some_None in Hp.
Qed.

End names.

(** ** Expressions *)

Lemma all2_elem {A B} (P Q : A → B → Prop) l : ∀ k,
  (∀ x, x ∈ l → ∀ y, P x y → Q x y) → all2 P l k → all2 Q l k.
Proof. intros k Hl. apply all2_mono. by apply Forall_forall. Qed.

Section refinement.
Context `{Jiff}.
Variable compiled : CelCondition.
Variable maximum_cost : N.
Variable poll : nat → bool.
Variable parameter_values : BTreeMap ParameterName RuntimeValue.
Hypothesis parameters_small : ∀ k v, bt_get k parameter_values = Some v → small compiled.(runtime_collection_items) v.

Abbreviation parameters := compiled.(cel_parameters).
Abbreviation nodes := compiled.(cel_program).(program_nodes).
Abbreviation evaluates := (evaluates compiled maximum_cost poll parameter_values).
Abbreviation denote := (denote compiled maximum_cost poll parameter_values).

(** The node of [e] computes its meaning. *)
Definition refines (e : Expr) : Prop := ∀ statics declared sc id,
  represents parameters nodes statics e id → agree parameters statics declared sc →
  Forall (scope_small compiled) sc → seconds_fresh parameters e → evaluates id sc (denote declared sc e).

Lemma refines_all statics declared sc es ids :
  Forall refines es → agree parameters statics declared sc → Forall (scope_small compiled) sc →
  (∀ e, e ∈ es → seconds_fresh parameters e) →
  all2 (represents parameters nodes statics) es ids →
  all2 (fun e id => evaluates id sc (denote declared sc e)) es ids.
Proof.
  intros IH Ha Hs Hf. apply all2_elem. intros e He id Hr. rewrite Forall_forall in IH. by eapply IH; eauto.
Qed.

Lemma name_refines name : refines (XIdent name).
Proof.
  intros statics declared sc id Hr Ha _ _. simpl in Hr. specialize (Ha name). destruct (find_static name statics).
  - by apply local_evaluates.
  - destruct Hr as [Hk Hp]. destruct (Ha Hp) as [Hd Hl]. by apply parameter_evaluates.
Qed.

Lemma operator_refines operator target args : Forall refines args → refines (XCall (FOperator operator) target args).
Proof.
  intros IH statics declared sc id (ids & kind & Hkind & Hk & Hr) Ha Hs [_ Hf]%everywhere_children.
  apply (refines_all _ declared sc) in Hr; [|done|done|done|intros e He; apply Hf; destruct target; set_solver].
  assert (Hgen : match operator with OLogicalAnd | OLogicalOr | OConditional => False | _ => True end →
    evaluates id sc (check_cancellation poll;;
      match unary_of operator, binary_of operator, args with
      | Some operator, _, [operand] => v ← denote declared sc operand; charge_one maximum_cost poll;; c_lift (apply_unary operator v)
      | None, Some operator, [l; r] =>
          lv ← denote declared sc l; rv ← denote declared sc r; apply_binary compiled maximum_cost poll operator lv rv
      | _, _, _ => c_fail invalid_state
      end)).
  { intros Hop. destruct args as [|x [|y [|z args]]], ids as [|i [|j [|k ids]]]; simpl in Hr; try tauto; try (by destruct operator).
    - destruct Hr as [Hx _]. destruct operator; try done; simpl in Hkind; simplify_eq; cbn [unary_of]; by eapply unary_evaluates.
    - destruct Hr as (Hx & Hy & _). destruct operator; try done; simpl in Hkind; simplify_eq; cbn [unary_of binary_of]; by eapply binary_evaluates. }
  destruct operator; try (by apply Hgen);
    destruct args as [|x [|y [|z [|u args]]]], ids as [|i [|j [|k [|m ids]]]]; simpl in Hr; try tauto; simpl in Hkind; simplify_eq.
  - destruct Hr as (Hx & Hy & _). by apply (logical_evaluates _ _ _ _ i j).
  - destruct Hr as (Hx & Hy & _). by apply (logical_evaluates _ _ _ _ i j).
  - destruct Hr as (Hx & Hy & Hz & _). by eapply conditional_evaluates.
Qed.

Lemma function_refines name target args :
  (∀ e, target = Some e → refines e) → Forall refines args → refines (XCall (FFunction name) target args).
Proof.
  intros IHt IH statics declared sc id (function & target_id & ids & Hf & Hk & Ht & Hr) Ha Hs [_ Hfa]%everywhere_children.
  cbn [CelSemantics.denote]. rewrite Hf.
  apply (refines_all _ declared sc) in Hr; [|done|done|done|intros e He; apply Hfa; destruct target; set_solver].
  destruct target as [e|], target_id as [i|]; try done.
  - eapply eval_frames; [done|done|eapply call_bound, Hk|].
    apply (call_computes _ _ _ _ function true (denote declared sc) sc (e :: args) [] (i :: ids) []). split; [|done].
    eapply IHt; [done|done|done|done|]. apply Hfa. simpl. set_solver.
  - eapply eval_frames; [done|done|eapply call_bound, Hk|].
    by apply (call_computes _ _ _ _ function false (denote declared sc) sc args [] ids []).
Qed.

Lemma comprehension_refines range var var2 accu init cond step result :
  refines range → refines init → refines cond → refines step → refines result →
  refines (XComprehension range var var2 accu init cond step result).
Proof.
  intros Hr Hi Hc Hs He statics declared sc id (types & accu_type & d & Hk & <- & <- & <- & Rr & Ri & Rc & Rs & Re) Ha Hsc.
  intros [Hfresh Hch]%everywhere_children. cbn [CelSemantics.denote].
  set (P scope := scope_small compiled scope ∧ scope_names d.(iter_var) d.(iter_var2) d.(accu_var) scope).
  assert (Hin : ∀ e id', refines e → seconds_fresh parameters e →
    represents parameters nodes (comprehension_scope d.(iter_var) d.(iter_var2) d.(accu_var) types accu_type :: statics) e id' →
    ∀ scope, P scope → evaluates id' (scope :: sc) (denote (d.(iter_var) :: d.(accu_var) :: declared) (scope :: sc) e)).
  { intros e id' IHe Hfe Hre scope [Hsm Hn]. eapply IHe; [exact Hre|by apply agree_scope|by constructor|done]. }
  eapply (comprehension_evaluates _ _ _ _ _ _ _ _ _ _ _ _ P (small compiled.(runtime_collection_items)));
    [done|eapply Hr; [done|done|done|]|eapply Hi; [done|done|done|]| | | | | |apply Hin; [done| |done]..].
  all: try (apply Hch; simpl; set_solver).
  - intros scope acc [Hsm Hn] Hacc. split; [by apply insert_small|]. intros k v [->|E]%bt_get_insert_some; eauto.
  - intros r items Hret Hitems. apply denote_small in Hret; [|done..]. destruct (range_items_small _ _ _ Hret Hitems) as [Hlen Hsm].
    split; [done|]. intros item acc scope Hitem [Hss Hn] Hacc. split; [|by apply bind_scope_names].
    destruct (Hsm item Hitem) as [H1 H2]. unfold bind_scope. apply insert_small; [|done].
    destruct (iter_var2 d), item.2; auto using insert_small.
  - split; [by intros k v|by intros k v].
  - intros a Ha'. by apply denote_small in Ha'.
  - intros scope v [Hsm _] Hv. by apply denote_small in Hv; [|done|constructor].
Qed.

Lemma denote_refines e : refines e.
Proof.
  induction e as [| |name|v|elements IH|entries IH|operand field test IH|func target args IHt IH|range var var2 accu init cond step result IHr IHi IHc IHs IHe]
    using expr_ind.
  - by intros statics declared sc id [].
  - by intros statics declared sc id [].
  - apply name_refines.
  - intros statics declared sc id Hk _ _ _. by apply literal_evaluates.
  - intros statics declared sc id (ids & Hk & Hr) Ha Hs [_ Hf]%everywhere_children. eapply list_evaluates; [done|]. by eapply refines_all.
  - intros statics declared sc id (ids & Hk & Hr) Ha Hs [_ Hf]%everywhere_children. eapply map_evaluates; [done|].
    rewrite Forall_forall in IH. eapply all2_elem, Hr. intros [key value optional|] He [i j]; [|done].
    intros [Hrk Hrv]. destruct (IH _ He) as [IHk IHv]. simpl.
    assert (Hkv : ∀ x, x ∈ [key; value] → x ∈ children (XMap entries)).
    { intros x Hx. simpl. apply list_elem_of_bind. exists (EntryMap key value optional). split; [done|done]. }
    split; [eapply IHk|eapply IHv]; try done; apply Hf, Hkv; set_solver.
  - intros statics declared sc id (o & Hk & Hr) Ha Hs [_ Hf]%everywhere_children. eapply select_evaluates; [done|].
    eapply IH; [done|done|done|]. apply Hf. simpl. set_solver.
  - destruct func as [operator|name]; [by apply operator_refines|by apply function_refines].
  - by apply comprehension_refines.
Qed.

End refinement.
