(* ===== verification/CelTheorems.v ===== *)
(** * The condition engine behind its interface

    [CompiledCondition] and [ConditionCompiler] of
    [crates/openfga-condition/src/lib.rs] as instances of the classes their
    clients use, with the laws the clients rely on. *)

From S2P Require Import Prelude Ordered Identifier Reference Scalars Context Condition CelValue CelOps.
From S2P Require Import CelMachine CelCompiler CelShape CelSemantics CelBounds CelLowering CelTyping.
From S2P Require Import CelSafety CelLogic CelBudget CelRefinement.
From Stdlib Require Import ZArith.

Section engine.
Context `{Jiff, CelParser}.

(** The value of a condition is the answer of the unlimited evaluation. *)
#[export] Instance cel_engine : ConditionEngine := {|
  CompiledCondition := CelCondition;
  condition_name := cel_name;
  validate_context := validate_cel_context;
  evaluate := fun c request tuple budget poll => map_err ee_kind (evaluate_condition c request tuple budget poll);
  condition_value := fun c request tuple =>
    match evaluate_condition c request tuple U64_MAX never with Ok out => Some out.(condition_met) | Err _ => None end;
|}.

#[export] Instance cel_engine_laws : ConditionEngineLaws.
Proof.
  split; intros c request tuple budget poll out E%map_err_ok;
    destruct (evaluation_follows c request tuple budget poll) as [[Heq Hc]|[[Heq _]|[Heq _]]]; simpl in *; try congruence.
  - by rewrite <-Heq, E.
  - apply Hc. by rewrite <-Heq.
Qed.

#[export] Instance cel_compiler : ConditionCompiler := {| compile_condition := compile_uncached |}.

Lemma compile_uncached_ok definition limits c :
  compile_uncached definition limits = Ok c →
  ∃ e lowerer root,
    cel_parse definition.(cd_expression) = Some (Ok e) ∧ (len definition.(cd_parameters) <= limits.(cl_parameters))%N ∧
    validate_ast_shape e limits = Some (Ok ()) ∧
    lower definition.(cd_parameters) e (mkLowerer [] []) = Ok (root, lowerer) ∧
    type_at lowerer.(lw_nodes) root = Some TBool ∧
    c = mkCelCondition definition.(cd_name) definition.(cd_parameters) (mkProgram lowerer.(lw_nodes) root)
          limits.(cl_runtime_value_bytes) limits.(cl_runtime_collection_items).
Proof.
  unfold compile_uncached. intros ([] & Hv & E)%result_bind_ok. apply result_bind_ok in E as (parsed & Hp%ok_or_ok & E).
  apply result_bind_ok in E as (e & He%map_err_ok & E). subst parsed. apply result_bind_ok in E as ([] & Hs & E).
  apply result_bind_ok in E as ([root lowerer] & Hl & E). apply result_bind_ok in E as (t & Ht%node_type_at & E).
  case_bool_decide; [|done]. simplify_eq. exists e, lowerer, root. split_and!; [done| |by destruct (validate_ast_shape _ _) as [[[]|]|]|done..].
  unfold validate_definition in Hv. case_match; [done|]. destruct (N.ltb_spec (cl_parameters limits) (len (cd_parameters definition))); [done|lia].
Qed.

#[export] Instance cel_compiler_laws : ConditionCompilerLaws.
Proof. split. by intros d limits c (e & lowerer & root & _ & _ & _ & _ & _ & ->)%compile_uncached_ok. Qed.

End engine.

(** ** The whole evaluation *)

Section evaluation.
Context `{Jiff}.
Variable compiled : CelCondition.
Variable maximum_cost : N.
Variable poll : nat → bool.

Lemma run_finished values n k m r :
  n ≤ k → run compiled maximum_cost poll values n m = Finished r → run compiled maximum_cost poll values k m = Finished r.
Proof. intros Hn E. replace k with (n + (k - n)) by lia. by rewrite run_app, E. Qed.

(** The machine of a represented expression ends with its outcome. *)
Lemma root_finishes values e s :
  (∀ k v, bt_get k values = Some v → small compiled.(runtime_collection_items) v) →
  represents compiled.(cel_parameters) compiled.(cel_program).(program_nodes) [] e compiled.(cel_program).(program_root) →
  seconds_fresh compiled.(cel_parameters) e →
  turns compiled maximum_cost poll values (N.to_nat (N.log2_up (program_bound compiled)))
    (mkMachine [FEval compiled.(cel_program).(program_root)] [] [] s) =
  Finished (expression_outcome compiled maximum_cost poll values e s).
Proof.
  intros Hsmall Hr Hf. set (root := compiled.(cel_program).(program_root)) in *.
  assert (Hagree : agree compiled.(cel_parameters) [] [] []) by (intros name; simpl; set_solver).
  destruct (denote_refines compiled maximum_cost poll values Hsmall e [] [] [] root Hr Hagree ltac:(constructor) Hf [] [] s)
    as (n & Hn & E); [constructor|]. simpl in E.
  assert (Hlast : run compiled maximum_cost poll values (n + 1) (mkMachine [FEval root] [] [] s) =
                  Finished (expression_outcome compiled maximum_cost poll values e s)).
  { rewrite run_app, E. unfold expression_outcome. destruct (denote _ _ _ _ _ _ _ _) as [s' [v|err]]; simpl.
    - unfold conclude. simpl. by destruct v.
    - unfold raise. by destruct (is_suppressible err). }
  rewrite turns_run. eapply run_finished, Hlast.
  assert (Hb : (program_bound compiled <= 2 ^ N.log2_up (program_bound compiled))%N) by (apply N.log2_log2_up_spec; unfold program_bound; lia).
  revert Hn Hb. unfold program_bound, bound. fold root. set (b := default 0%N _). clearbody b. intros Hn Hb.
  replace (2 ^ N.to_nat (N.log2_up (1 + b))) with (N.to_nat (2 ^ N.log2_up (1 + b))) by (rewrite N2Nat.inj_pow; done). lia.
Qed.

End evaluation.

(** ** Properties of conditions

    What a compiled condition computes, what its budget means, and the limits a
    compiled expression keeps. *)

(** ** Concrete conditions *)

Module Conditions.

#[export] Instance no_times : Jiff := {| jiff_duration := fun _ => None; jiff_timestamp := fun _ => None |}.

Definition op (o : Operator) (args : list Expr) : Expr := XCall (FOperator o) None args.
Definition x (name : string) : Expr := XIdent (str name).

(** [ips.exists(i, i == ip) && hour < 18] *)
Definition office_source : rstr := str "ips.exists(i, i == ip) && hour < 18".
Definition office : Expr :=
  op OLogicalAnd
    [ XComprehension (x "ips") (str "i") None (str "@result") (XLiteral (ValBoolean false))
        (op ONotStrictlyFalse [op OLogicalNot [x "@result"]])
        (op OLogicalOr [x "@result"; op OEquals [x "i"; x "ip"]]) (x "@result");
      op OLess [x "hour"; XLiteral (ValInt 18)] ].

(** [true && flag] *)
Definition flag_source : rstr := str "true && flag".
Definition flag : Expr := op OLogicalAnd [XLiteral (ValBoolean true); x "flag"].

#[export] Instance parser : CelParser := {|
  cel_parse := fun source =>
    if bool_decide (source = office_source) then Some (Ok office)
    else if bool_decide (source = flag_source) then Some (Ok flag)
    else Some (Err []);
|}.

Definition scalar_type (kind : ParameterTypeKind) : ParameterType := mkParameterType kind 1.

Definition office_definition : ConditionDefinition :=
  mkConditionDefinition (str "office") office_source
    [(str "hour", scalar_type PTInt); (str "ip", scalar_type PTString);
     (str "ips", mkParameterType (PTList (scalar_type PTString)) 2)].

Definition flag_definition : ConditionDefinition :=
  mkConditionDefinition (str "flagged") flag_source [(str "flag", scalar_type PTAny)].

Definition compiled (d : ConditionDefinition) : CelCondition :=
  match compile_uncached d default_condition_limits with
  | Ok c => c
  | Err _ => mkCelCondition [] [] (mkProgram [] 0) 0 0
  end.

(** The request brings the hour and the address, the tuple the addresses. *)
Definition request : ConditionContext :=
  mkConditionContext [(str "hour", CVInt 9); (str "ip", CVString (str "10.0.0.7"))].
Definition tuple : ConditionContext :=
  mkConditionContext [(str "ips", CVList [CVString (str "10.0.0.1"); CVString (str "10.0.0.7")])].

Lemma office_compiles : compile_uncached office_definition default_condition_limits = Ok (compiled office_definition).
Proof. vm_compute. reflexivity. Qed.

Lemma closed_office : results_closed office.
Proof.
  unfold results_closed, everywhere. cbn -[identifiers]. split_and!; try done.
  apply (bool_decide_unpack _). vm_compute. exact I.
Qed.

End Conditions.

Import Conditions.

(** ** Properties *)

(** C32: a compiled condition computes its expression.  Whatever the limits on
    cost and the cancellation signal, the evaluation of a compiled condition is
    that of the syntax tree the parser gave, with the parameters bound to the
    converted context values: lowering, the frame stack, the recovery of logical
    operators and the unwinding of scopes change neither the answer, nor the
    error, nor the cost, and the turns [program_bound] allows are enough.  (No
    second iteration variable may have the name of a parameter.) *)
Theorem condition_computes_expression `{Jiff, CelParser} definition limits c :
  compile_uncached definition limits = Ok c →
  ∃ e, cel_parse definition.(cd_expression) = Some (Ok e) ∧
    (seconds_fresh definition.(cd_parameters) e →
     ∀ request tuple maximum_cost poll,
       evaluate_condition c request tuple maximum_cost poll =
       match prepare_parameters c poll request tuple (mkCelMeter 0 0) with
       | (_, Err error) => Err error
       | (meter, Ok values) => expression_outcome c maximum_cost poll values e meter
       end).
Proof.
  intros (e & lowerer & root & Hp & _ & _ & (_ & Hr & _)%lower_ok & _ & ->)%compile_uncached_ok. exists e. split; [done|].
  intros Hf request tuple maximum_cost poll. unfold evaluate_condition.
  destruct (prepare_parameters _ _ _ _ _) as [s [values|error]] eqn:E; [|done].
  rewrite (root_finishes _ _ _ _ e); [done| |done|done].
  eapply prepare_parameters_small. eexists _, _. exact E.
Qed.

Lemma condition_computes_expression_witness :
  evaluate_condition (compiled office_definition) request tuple 100 never = Ok (mkConditionOutcome true 18) ∧
  ∃ e, cel_parse office_source = Some (Ok e) ∧
    (seconds_fresh office_definition.(cd_parameters) e →
     ∀ request tuple maximum_cost poll,
       evaluate_condition (compiled office_definition) request tuple maximum_cost poll =
       match prepare_parameters (compiled office_definition) poll request tuple (mkCelMeter 0 0) with
       | (_, Err error) => Err error
       | (meter, Ok values) => expression_outcome (compiled office_definition) maximum_cost poll values e meter
       end).
Proof.
  split; [vm_compute; reflexivity|].
  exact (condition_computes_expression office_definition default_condition_limits (compiled office_definition) office_compiles).
Defined.

(** C34: budget and cancellation decide whether an evaluation ends, never what it
    answers.  Against the evaluation without limits, a limited one gives the
    same result and then cost at most its budget, or it reports a cancellation
    that was signalled, or it reports an exceeded cost, and then an answer of
    the unlimited one costs more than the budget. *)
Theorem evaluation_budget_exact `{Jiff} (c : CelCondition) request tuple budget poll :
  let limited := evaluate_condition c request tuple budget poll in
  let unlimited := evaluate_condition c request tuple U64_MAX never in
  (limited = unlimited ∧ ∀ out, unlimited = Ok out → (out.(outcome_cost) <= budget)%N) ∨
  (limited = Err evaluation_cancelled ∧ ∃ n, poll n = true) ∨
  (limited = Err cost_exceeded ∧ ∀ out, unlimited = Ok out → (budget < out.(outcome_cost))%N).
Proof. apply evaluation_follows. Qed.

(** C33: typed conditions do not go wrong.  When no node of a compiled condition has
    a dynamic type, its evaluation never reports a type mismatch or inconsistent
    compiled state, whatever the contexts, the budget and the signal: the type
    checks of the compiler are the ones the evaluator needs.  (The results of
    comprehensions read the accumulator only, as those of the parser's macros
    do.) *)
Theorem typed_conditions_never_go_wrong `{Jiff, CelParser} definition limits c e request tuple maximum_cost poll error :
  bt_sorted definition.(cd_parameters) → (limits.(cl_parameters) <= USIZE_MAX)%N →
  compile_uncached definition limits = Ok c → cel_parse definition.(cd_expression) = Some (Ok e) →
  nodes_dyn_free c.(cel_program).(program_nodes) →
  seconds_fresh definition.(cd_parameters) e → results_closed e →
  evaluate_condition c request tuple maximum_cost poll = Err error →
  error.(ee_kind) ≠ ETypeMismatch ∧ error.(ee_kind) ≠ EInvalidCompiledState.
Proof.
  intros Hsort Hlim (e' & lowerer & root & Hp & Hlen & _ & Hl & Hroot & ->)%compile_uncached_ok Hp' Hdyn Hfresh Hcl. simpl in Hdyn.
  assert (e' = e) as -> by congruence. pose proof (lower_ok _ _ _ _ _ Hl) as (_ & Hr & _).
  destruct (lower_typed_ok _ _ _ _ _ Hl Hdyn) as (t & Ht & Htyped). rewrite Hroot in Ht. injection Ht as <-.
  set (c := mkCelCondition _ _ _ _ _). unfold evaluate_condition.
  destruct (prepare_parameters c poll request tuple (mkCelMeter 0 0)) as [s [values|err]] eqn:E.
  - assert (Hret : returns (prepare_parameters c poll request tuple) values) by (by eexists _, _).
    rewrite (root_finishes _ _ _ _ e); [|by eapply prepare_parameters_small|done|done].
    assert (Hpt : ∀ name p, bt_get name (cel_parameters c) = Some p → dyn_free (parameter_static_type p) = true →
              ∃ v, bt_get name values = Some v ∧ has_type v (parameter_static_type p)).
    { intros name p Hg%bt_get_elem Hd. apply prepare_entries_ok in Hret as (_ & _ & Hin); [|by apply bt_sorted_keys].
      destruct (Hin name p Hg) as (v & w & Hw & Hv). exists w. split; [done|by eapply convert_type_typed]. }
    pose proof (denote_sound c maximum_cost poll values Hpt e [] [] [] TBool Htyped ltac:(intros name _; set_solver) Hcl s) as Hsafe.
    unfold expression_outcome. destruct (denote c maximum_cost poll values [] [] e s) as [s' [v|err]]; simpl in Hsafe.
    + by destruct v.
    + by intros [= <-].
  - intros [= <-]. pose proof (safe_prepare c poll request tuple (cel_parameters c) 0 [] ltac:(simpl; lia) (mkCelMeter 0 0)) as Hs.
    unfold prepare_parameters in E. rewrite E in Hs. exact Hs.
Qed.

Lemma typed_conditions_never_go_wrong_witness :
  let error := cost_exceeded in
  evaluate_condition (compiled office_definition) request tuple 3 never = Err error ∧
  error.(ee_kind) ≠ ETypeMismatch ∧ error.(ee_kind) ≠ EInvalidCompiledState.
Proof.
  split; [vm_compute; reflexivity|].
  apply (typed_conditions_never_go_wrong office_definition default_condition_limits (compiled office_definition) office
           request tuple 3 never).
  - vm_compute. repeat constructor.
  - vm_compute. discriminate.
  - exact office_compiles.
  - vm_compute. reflexivity.
  - vm_compute. repeat constructor.
  - vm_compute. repeat constructor.
  - apply closed_office.
  - vm_compute. reflexivity.
Defined.

(** The limits on a condition's expression are exact.  Validation always ends,
    and it accepts an expression exactly when its number of expressions,
    identifiers, literals and comprehensions, its depth, and the size of each of
    its literal collections are within the limits and every form is supported;
    each expression is visited once. *)
Theorem expression_limits_exact limits e :
  limits_countable limits →
  ∃ r, validate_ast_shape e limits = Some r ∧ (r = Ok () ↔ ast_within limits e).
Proof. apply validate_ast_exact. Qed.

Lemma expression_limits_exact_witness :
  ∃ r, validate_ast_shape office default_condition_limits = Some r ∧ (r = Ok () ↔ ast_within default_condition_limits office).
Proof. apply expression_limits_exact. vm_compute. repeat split; discriminate. Defined.



