(* ===== verification/Storage.v ===== *)
(** * The storage contract

    [crates/openfga-storage/src/{error,context,stream,types}.rs]: redacted
    errors, the operation context, owned tuple streams and the validated
    values every backend exchanges with its callers. *)

From S2P Require Import Prelude Ordered Identifier Reference.
From Stdlib Require Import ZArith.

(** ** Errors *)

Inductive StorageErrorKind :=
| SNotFound | SAlreadyExists | SConflict | SInvalidContinuation | STimeout | SCancelled
| SUnavailable | SIntegrity | SResourceExhausted | SInternal.

#[export] Instance StorageErrorKind_eq_dec : EqDecision StorageErrorKind.
Proof. solve_decision. Defined.

Record StorageError := mkStorageError {
  se_kind : StorageErrorKind;
  se_code : string;
  se_tuple : option TupleKey;
}.

Definition storage_error (kind : StorageErrorKind) (code : string) : StorageError :=
  mkStorageError kind code None.

(** [StorageError::with_tuple] *)
Definition with_tuple (e : StorageError) (k : TupleKey) : StorageError :=
  mkStorageError e.(se_kind) e.(se_code) (Some k).

(** ** The operation context

    The deadline is an instant of the monotonic clock; [operation_check] is
    given the cancellation flag and the instant it observes, in the order it
    reads them. *)

Inductive ConsistencyPreference := MinimizeLatency | HigherConsistency.

Record OperationContext := mkOperationContext {
  oc_consistency : ConsistencyPreference;
  oc_deadline : N;
}.

(** [Deadline::is_elapsed] *)
Definition is_elapsed (deadline now : N) : bool := (deadline <=? now)%N.

(** [OperationContext::check] *)
Definition operation_check (op : OperationContext) (is_cancelled : bool) (now : N) :
    result StorageError () :=
  if is_cancelled then Err (storage_error SCancelled "operation_cancelled")
  else if is_elapsed op.(oc_deadline) now
  then Err (storage_error STimeout "operation_deadline_elapsed")
  else Ok ().

(** ** Tuple streams *)

Record TupleStream := mkTupleStream {
  ts_items : list (result StorageError RelationshipTuple);
  ts_closed : bool;
}.

Definition from_tuples (tuples : list RelationshipTuple) : TupleStream :=
  mkTupleStream (Ok <$> tuples) (match tuples with [] => true | _ => false end).

Definition from_results (items : list (result StorageError RelationshipTuple)) : TupleStream :=
  mkTupleStream items (match items with [] => true | _ => false end).

Definition next_item (s : TupleStream) :
    option (result StorageError RelationshipTuple) * TupleStream :=
  if s.(ts_closed) then (None, s)
  else match s.(ts_items) with
       | [] => (None, mkTupleStream [] true)
       | x :: rest => (Some x, mkTupleStream rest (match rest with [] => true | _ => false end))
       end.

Definition close_stream (s : TupleStream) : TupleStream := mkTupleStream [] true.

Definition remaining (s : TupleStream) : N := len s.(ts_items).

(** The items a [for] loop over the stream yields. *)
Definition stream_items (s : TupleStream) : list (result StorageError RelationshipTuple) :=
  if s.(ts_closed) then [] else s.(ts_items).

Fixpoint drain (fuel : nat) (s : TupleStream) : list (result StorageError RelationshipTuple) :=
  match fuel with
  | 0 => []
  | S fuel => match next_item s with (Some x, s) => x :: drain fuel s | (None, _) => [] end
  end.

Lemma drain_stream_items s n : length s.(ts_items) ≤ n → drain n s = stream_items s.
Proof.
  revert s. induction n as [|n IH]; intros [items closed] Hn; simpl in *.
  - destruct items; [|simpl in *; lia]. unfold stream_items. by destruct closed.
  - unfold next_item, stream_items. simpl. destruct closed; [done|].
    destruct items as [|x items]; [done|]. f_equal. rewrite IH; simpl in *; [|lia].
    unfold stream_items. by destruct items.
Qed.

Lemma from_tuples_items l : stream_items (from_tuples l) = Ok <$> l.
Proof. by destruct l. Qed.

(** ** Read filters *)

Inductive ConditionFilter :=
| CFAny
| CFUnconditional
| CFNamed (names : BTreeSet ConditionName).

(** [ConditionFilter::named] *)
Definition condition_filter_named (names : list ConditionName) (limits : InputLimits) :
    result StorageError ConditionFilter :=
  match names with
  | [] => Err (storage_error SIntegrity "condition_filter_empty")
  | _ =>
      if (limits.(user_filters) <? len names)%N then
        Err (storage_error SResourceExhausted "condition_filter_limit")
      else Ok (CFNamed (bs_collect names))
  end.

(** [ConditionFilter::matches] *)
Definition condition_filter_matches (f : ConditionFilter) (c : ConditionReference) : bool :=
  match c, f with
  | _, CFAny => true
  | Unconditional, CFUnconditional => true
  | Conditional b, CFNamed names => bs_contains b.(cb_name) names
  | _, _ => false
  end.

Record ObjectRelationFilter := mkObjectRelationFilter {
  orf_object : ObjectRef;
  orf_relation : RelationName;
  orf_subjects : BTreeSet SubjectRef;
  orf_conditions : ConditionFilter;
}.

(** [ObjectRelationFilter::new] *)
Definition object_relation_filter_new (object : ObjectRef) (relation : RelationName)
    (subjects : list SubjectRef) (conditions : ConditionFilter) (limits : InputLimits) :
    result StorageError ObjectRelationFilter :=
  if (limits.(user_filters) <? len subjects)%N then
    Err (storage_error SResourceExhausted "forward_subject_filter_limit")
  else Ok (mkObjectRelationFilter object relation (bs_collect subjects) conditions).

(** ** Storage values

    The rest of [crates/openfga-storage/src/types.rs]: records, write
    policies, filters, cursors and pages.  A [SystemTime] is a number of
    nanoseconds relative to the Unix epoch. *)

Abbreviation SystemTime := Z.

(** ** Stores *)

Abbreviation StoreName := rstr.

Definition is_store_name_byte (c : rchar) : bool :=
  ((48 <=? c) && (c <=? 57) || (65 <=? c) && (c <=? 90) || (97 <=? c) && (c <=? 122))%N
  || existsb (N.eqb c) (str " .-/^_&@").

(** [StoreName::new].  A non-ASCII character has only bytes above 127, which
    are no store-name bytes. *)
Definition store_name_new (value : rstr) : result StorageError StoreName :=
  if negb ((3 <=? str_len value)%N && (str_len value <=? 64)%N) then
    Err (storage_error SResourceExhausted "invalid_store_name_length")
  else if negb (forallb is_store_name_byte value) then
    Err (storage_error SIntegrity "invalid_store_name_character")
  else Ok value.

Record StoreFilter := mkStoreFilter { sf_name : option StoreName }.

Record StoreRecord := mkStoreRecord {
  sr_id : StoreId;
  sr_name : StoreName;
  sr_created_at : SystemTime;
  sr_updated_at : SystemTime;
}.

Definition store_record_new (id : StoreId) (name : StoreName) (timestamp : SystemTime) : StoreRecord :=
  mkStoreRecord id name timestamp timestamp.

Definition renamed (s : StoreRecord) (name : StoreName) (timestamp : SystemTime) : StoreRecord :=
  mkStoreRecord s.(sr_id) name s.(sr_created_at) timestamp.

(** ** Models, tuples, assertions and changes *)

(** The identity and fingerprint of a persisted model; storage reads no more
    of its source and compiled form. *)
Record StoredAuthorizationModel := mkStoredAuthorizationModel {
  sam_store_id : StoreId;
  sam_model_id : AuthorizationModelId;
  sam_fingerprint : list N;
  sam_written_at : SystemTime;
}.

Record StoredTuple := mkStoredTuple {
  st_tuple : RelationshipTuple;
  st_inserted_at : SystemTime;
}.

Record Assertion := mkAssertion {
  as_tuple : TupleKey;
  as_expectation : bool;
  as_contextual_tuples : list RelationshipTuple;
  as_condition_context : ConditionContext;
}.

Inductive ChangeOperation := ChWrite | ChDelete.

Record TupleChange := mkTupleChange {
  tc_id : ChangeId;
  tc_store_id : StoreId;
  tc_operation : ChangeOperation;
  tc_tuple : RelationshipTuple;
  tc_timestamp : SystemTime;
}.

(** ** Write policies *)

Inductive WriteConflictPolicy := OnConflictError | OnConflictIgnore.

#[export] Instance WriteConflictPolicy_eq_dec : EqDecision WriteConflictPolicy.
Proof. solve_decision. Defined.

Record TupleWriteOptions := mkTupleWriteOptions {
  on_missing_delete : WriteConflictPolicy;
  on_duplicate_write : WriteConflictPolicy;
}.

Record MutationOutcome := mkMutationOutcome { change_ids : list ChangeId }.

(** ** Read options and filters *)

Record ReadOptions := mkReadOptions { ro_maximum_results : N }.

(** [ReadOptions::new] *)
Definition read_options_new (maximum_results : N) (limits : InputLimits) :
    result StorageError ReadOptions :=
  if (limits.(results_limit) <? maximum_results)%N then
    Err (storage_error SResourceExhausted "tuple_read_result_limit")
  else
    n ← map_err (fun _ => storage_error SResourceExhausted "tuple_read_result_limit")
          (limit_new 100000 maximum_results);
    Ok (mkReadOptions n).

Record TupleReadFilter := mkTupleReadFilter {
  trf_object_type : option TypeName;
  trf_object_id : option ObjectId;
  trf_relation : option RelationName;
  trf_subject : option SubjectRef;
}.

(** [TupleReadFilter::all] and [TupleReadFilter::new] *)
Definition tuple_read_filter_all : TupleReadFilter := mkTupleReadFilter None None None None.

Definition tuple_read_filter_new (ty : TypeName) (id : option ObjectId) (r : option RelationName)
    (s : option SubjectRef) : result StorageError TupleReadFilter :=
  match id, s with
  | None, None => Err (storage_error SIntegrity "tuple_read_filter_insufficient")
  | _, _ => Ok (mkTupleReadFilter (Some ty) id r s)
  end.

(** [Option::is_none_or] *)
Definition none_or {A} (o : option A) (f : A → bool) : bool :=
  match o with Some a => f a | None => true end.

(** [TupleReadFilter::matches] *)
Definition tuple_read_filter_matches (f : TupleReadFilter) (k : TupleKey) : bool :=
  none_or f.(trf_object_type) (fun v => bool_decide (v = k.(tk_object).(object_type)))
  && none_or f.(trf_object_id) (fun v => bool_decide (v = k.(tk_object).(object_id)))
  && none_or f.(trf_relation) (fun v => bool_decide (v = k.(tk_relation)))
  && none_or f.(trf_subject) (fun v => bool_decide (v = k.(tk_subject))).

Record ChangeFilter := mkChangeFilter {
  cf_object_type : option TypeName;
  cf_start_time : option SystemTime;
}.

Record UsersetRestrictionFilter := mkUsersetRestrictionFilter {
  urf_subject_type : TypeName;
  urf_relation : RelationName;
}.

Definition urf_key (f : UsersetRestrictionFilter) : rstr * rstr :=
  (f.(urf_subject_type), f.(urf_relation)).
#[export] Instance urf_key_inj : Inj (=) (=) urf_key.
Proof. intros [] [] [= -> ->]. done. Qed.
#[export] Instance ord_UsersetRestrictionFilter : Ord UsersetRestrictionFilter := ord_via urf_key.
#[export] Instance ord_laws_UsersetRestrictionFilter : OrdLaws UsersetRestrictionFilter :=
  ord_laws_via urf_key.

Record UsersetTupleFilter := mkUsersetTupleFilter {
  utf_object : ObjectRef;
  utf_relation : RelationName;
  utf_allowed : BTreeSet UsersetRestrictionFilter;
  utf_conditions : ConditionFilter;
}.

(** [UsersetTupleFilter::new] *)
Definition userset_tuple_filter_new (object : ObjectRef) (r : RelationName)
    (allowed : list UsersetRestrictionFilter) (conditions : ConditionFilter) (limits : InputLimits) :
    result StorageError UsersetTupleFilter :=
  if (limits.(user_filters) <? len allowed)%N then
    Err (storage_error SResourceExhausted "userset_filter_limit")
  else Ok (mkUsersetTupleFilter object r (bs_collect allowed) conditions).

Record ReverseTupleFilter := mkReverseTupleFilter {
  rtf_object_type : TypeName;
  rtf_relation : RelationName;
  rtf_subjects : BTreeSet SubjectRef;
  rtf_object_ids : BTreeSet ObjectId;
  rtf_conditions : ConditionFilter;
}.

(** [ReverseTupleFilter::new] *)
Definition reverse_tuple_filter_new (ty : TypeName) (r : RelationName) (subjects : list SubjectRef)
    (object_ids : list ObjectId) (conditions : ConditionFilter) (limits : InputLimits) :
    result StorageError ReverseTupleFilter :=
  match subjects with
  | [] => Err (storage_error SIntegrity "reverse_subject_filter_empty")
  | _ =>
      if (limits.(user_filters) <? len subjects)%N || (limits.(results_limit) <? len object_ids)%N then
        Err (storage_error SResourceExhausted "reverse_filter_limit")
      else Ok (mkReverseTupleFilter ty r (bs_collect subjects) (bs_collect object_ids) conditions)
  end.

(** ** Cursors and pages

    The bytes of a cursor are UTF-8 text or not; text is kept as its
    characters, other bytes only by their number. *)

Inductive StorageCursor := CursorText (text : rstr) | CursorBytes (bytes : N).

Definition cursor_len (c : StorageCursor) : N :=
  match c with CursorText text => str_len text | CursorBytes bytes => bytes end.

Definition MAXIMUM_CURSOR_BYTES : N := 1024.

(** [StorageCursor::new] *)
Definition storage_cursor_new (bytes : StorageCursor) : result StorageError StorageCursor :=
  if (cursor_len bytes =? 0)%N || (MAXIMUM_CURSOR_BYTES <? cursor_len bytes)%N then
    Err (storage_error SInvalidContinuation "storage_cursor_length")
  else Ok bytes.

(** [maximum_results] is a [NonZeroU32]. *)
Record PageOptions := mkPageOptions { po_maximum_results : N; po_after : option StorageCursor }.

(** [PageOptions::new] *)
Definition page_options_new (maximum_results : N) (after : option StorageCursor)
    (limits : InputLimits) : result StorageError PageOptions :=
  if (limits.(results_limit) <? maximum_results)%N then
    Err (storage_error SResourceExhausted "page_result_limit")
  else Ok (mkPageOptions maximum_results after).

(** [PageOptions::from_read_options] *)
Definition page_options_from_read (o : ReadOptions) : PageOptions :=
  mkPageOptions (N.max 1 o.(ro_maximum_results)) None.

(** [PageOptions::after_change_id] *)
Definition page_options_after_change `{UlidCodec} (maximum_results : N) (id : ChangeId) : PageOptions :=
  mkPageOptions maximum_results (Some (CursorText (ulid_to_string id))).

Record Page (A : Type) := mkPage { page_items : list A; page_continuation : option StorageCursor }.
Arguments mkPage {A} _ _.
Arguments page_items {A} _.
Arguments page_continuation {A} _.
