(* ===== verification/Memory.v ===== *)
(** * The in-memory backend

    [crates/openfga-storage-memory/src/state.rs] and [actor.rs]: the maps and
    indexes owned by the actor, the operations on them, the change-id
    allocator, and the actor turn that serializes commands.  The transaction
    clock, the fault injector and the observations of the operation context
    are the answers of a [MutationWorld]. *)

From S2P Require Import Prelude Ordered Identifier Reference Grammar Storage.
From Stdlib Require Import ZArith.

(** ** The change-id allocator *)

Record ChangeIdAllocator := mkChangeIdAllocator {
  last_timestamp_ms : N;
  last_random : N;
  initialized : bool;
}.

Definition change_id_allocator_default : ChangeIdAllocator := mkChangeIdAllocator 0 0 false.

Definition MAXIMUM_ULID_TIMESTAMP : N := 2 ^ 48 - 1.
Definition MAXIMUM_ULID_RANDOM : N := 2 ^ 80 - 1.

Section memory.
Context `{Winnow, UlidCodec}.

(** The milliseconds and random part of the next identifier. *)
Definition next_parts (a : ChangeIdAllocator) (wall_ms : N) : result StorageError (N * N) :=
  if a.(initialized) && (wall_ms <=? a.(last_timestamp_ms))%N then
    if (a.(last_random) =? MAXIMUM_ULID_RANDOM)%N then
      ms ← ok_or (checked_add U64_MAX a.(last_timestamp_ms) 1)
             (storage_error SInternal "change_id_timestamp_overflow");
      Ok (ms, 0%N)
    else Ok (a.(last_timestamp_ms), (a.(last_random) + 1)%N)
  else Ok (wall_ms, 0%N).

(** [ChangeIdAllocator::next]; an error leaves the allocator as it was. *)
Definition next_change_id (a : ChangeIdAllocator) (timestamp : SystemTime) :
    result StorageError (ChangeIdAllocator * ChangeId) :=
  if (timestamp <? 0)%Z then Err (storage_error SInternal "clock_before_epoch")
  else
    let millis := Z.to_N (timestamp / 1000000) in
    if (U64_MAX <? millis)%N then Err (storage_error SInternal "clock_millis_overflow")
    else
      '(next_ms, next_random) ← next_parts a millis;
      if (MAXIMUM_ULID_TIMESTAMP <? next_ms)%N then
        Err (storage_error SInternal "change_id_timestamp_out_of_range")
      else
        id ← map_err (fun _ => storage_error SInternal "change_id_encoding")
               (ulid_from_str "change_id" (ulid_to_string (ulid_from_parts next_ms next_random)));
        Ok (mkChangeIdAllocator next_ms next_random true, id).

(** ** State *)

Abbreviation ForwardKey := (StoreId * (ObjectRef * RelationName))%type.
Abbreviation ReverseKey := (StoreId * (SubjectRef * (TypeName * RelationName)))%type.
Abbreviation ModelKey := (StoreId * AuthorizationModelId)%type.

Record MemoryState := mkMemoryState {
  ms_limits : InputLimits;
  ms_stores : BTreeMap StoreId StoreRecord;
  ms_tuples : BTreeMap (StoreId * TupleKey) StoredTuple;
  ms_forward : BTreeMap ForwardKey (BTreeSet TupleKey);
  ms_reverse : BTreeMap ReverseKey (BTreeSet TupleKey);
  ms_usersets : BTreeMap ForwardKey (BTreeSet TupleKey);
  ms_models : BTreeMap ModelKey StoredAuthorizationModel;
  ms_model_ids : BTreeMap StoreId (BTreeSet AuthorizationModelId);
  ms_assertions : BTreeMap ModelKey (list Assertion);
  ms_changes : BTreeMap (StoreId * ChangeId) TupleChange;
  ms_change_ids : ChangeIdAllocator;
}.

(** [MemoryState::new] *)
Definition memory_new (limits : InputLimits) : MemoryState :=
  mkMemoryState limits [] [] [] [] [] [] [] [] [] change_id_allocator_default.

Definition set_tuples (s : MemoryState) t f r u :=
  mkMemoryState s.(ms_limits) s.(ms_stores) t f r u s.(ms_models) s.(ms_model_ids)
    s.(ms_assertions) s.(ms_changes) s.(ms_change_ids).
Definition set_stores (s : MemoryState) stores :=
  mkMemoryState s.(ms_limits) stores s.(ms_tuples) s.(ms_forward) s.(ms_reverse) s.(ms_usersets)
    s.(ms_models) s.(ms_model_ids) s.(ms_assertions) s.(ms_changes) s.(ms_change_ids).
Definition set_models (s : MemoryState) models ids :=
  mkMemoryState s.(ms_limits) s.(ms_stores) s.(ms_tuples) s.(ms_forward) s.(ms_reverse)
    s.(ms_usersets) models ids s.(ms_assertions) s.(ms_changes) s.(ms_change_ids).
Definition set_assertions (s : MemoryState) assertions :=
  mkMemoryState s.(ms_limits) s.(ms_stores) s.(ms_tuples) s.(ms_forward) s.(ms_reverse)
    s.(ms_usersets) s.(ms_models) s.(ms_model_ids) assertions s.(ms_changes) s.(ms_change_ids).
Definition set_changes (s : MemoryState) changes allocator :=
  mkMemoryState s.(ms_limits) s.(ms_stores) s.(ms_tuples) s.(ms_forward) s.(ms_reverse)
    s.(ms_usersets) s.(ms_models) s.(ms_model_ids) s.(ms_assertions) changes allocator.

Definition not_found : StorageError := storage_error SNotFound "record_not_found".

(** ** Indexes *)

Definition is_userset (s : SubjectRef) : bool :=
  match s with SubjUserset _ => true | _ => false end.

Definition forward_key (store : StoreId) (k : TupleKey) : ForwardKey :=
  (store, (k.(tk_object), k.(tk_relation))).
Definition reverse_key (store : StoreId) (k : TupleKey) : ReverseKey :=
  (store, (k.(tk_subject), (k.(tk_object).(object_type), k.(tk_relation)))).

(** [entry(key).or_default().insert(x)] *)
Definition index_insert {K} `{Ord K} (k : K) (x : TupleKey) (index : BTreeMap K (BTreeSet TupleKey)) :
    BTreeMap K (BTreeSet TupleKey) :=
  bt_insert k (bs_insert x (default [] (bt_get k index))) index.

Definition remove_index_key {K} `{Ord K} (k : K) (x : TupleKey)
    (index : BTreeMap K (BTreeSet TupleKey)) : BTreeMap K (BTreeSet TupleKey) :=
  match bt_get k index with
  | None => index
  | Some keys => match bs_remove x keys with
                 | [] => bt_remove k index
                 | keys => bt_insert k keys index
                 end
  end.

Definition insert_tuple (store : StoreId) (s : MemoryState) (stored : StoredTuple) : MemoryState :=
  let k := stored.(st_tuple).(rt_key) in
  set_tuples s (bt_insert (store, k) stored s.(ms_tuples))
    (index_insert (forward_key store k) k s.(ms_forward))
    (index_insert (reverse_key store k) k s.(ms_reverse))
    (if is_userset k.(tk_subject) then index_insert (forward_key store k) k s.(ms_usersets)
     else s.(ms_usersets)).

Definition remove_tuple (store : StoreId) (s : MemoryState) (k : TupleKey) : MemoryState :=
  set_tuples s (bt_remove (store, k) s.(ms_tuples))
    (remove_index_key (forward_key store k) k s.(ms_forward))
    (remove_index_key (reverse_key store k) k s.(ms_reverse))
    (if is_userset k.(tk_subject) then remove_index_key (forward_key store k) k s.(ms_usersets)
     else s.(ms_usersets)).

(** ** Pages and cursors *)

(** [parse_cursor::<T>] *)
Definition parse_cursor {E T} (parse : rstr → result E T) (code : string) (c : StorageCursor) :
    result StorageError T :=
  match c with
  | CursorBytes _ => Err (storage_error SInvalidContinuation code)
  | CursorText text => map_err (fun _ => storage_error SInvalidContinuation code) (parse text)
  end.

(** [options.after().map(parse).transpose()?] *)
Definition parse_after {T} (parse : StorageCursor → result StorageError T) (o : PageOptions) :
    result StorageError (option T) :=
  match o.(po_after) with
  | None => Ok None
  | Some c => Some <$> parse c
  end.

Definition parse_tuple_cursor : StorageCursor → result StorageError TupleKey :=
  parse_cursor (fun text => parse_tuple_key text default_input_limits) "tuple_cursor".
Definition parse_store_cursor : StorageCursor → result StorageError StoreId :=
  parse_cursor (ulid_from_str "store_id") "store_cursor".
Definition parse_model_cursor : StorageCursor → result StorageError AuthorizationModelId :=
  parse_cursor (ulid_from_str "authorization_model_id") "model_cursor".
Definition parse_change_cursor : StorageCursor → result StorageError ChangeId :=
  parse_cursor (ulid_from_str "change_id") "change_cursor".

(** [bounded_page]: up to [maximum] items and the last of them when more follow. *)
Definition bounded_page {A} (items : list A) (maximum : N) : list A * option A :=
  let values := take (S (N.to_nat maximum)) items in
  if (maximum <? len values)%N then
    let values := take (N.to_nat maximum) values in (values, last values)
  else (values, None).

Definition is_after {T} `{Ord T} (after : option T) (x : T) : bool :=
  match after with
  | None => true
  | Some c => match cmp x c with Gt => true | _ => false end
  end.

Definition is_before {T} `{Ord T} (after : option T) (x : T) : bool :=
  match after with
  | None => true
  | Some c => match cmp x c with Lt => true | _ => false end
  end.

(** [continuation.map(|x| StorageCursor::new(x.to_string())).transpose()?] *)
Definition cursor_of {T} (show : T → rstr) (continuation : option T) :
    result StorageError (option StorageCursor) :=
  match continuation with
  | None => Ok None
  | Some x => Some <$> storage_cursor_new (CursorText (show x))
  end.

(** ** Tuple reads *)

Definition read_exact (s : MemoryState) (store : StoreId) (k : TupleKey) :
    result StorageError StoredTuple :=
  ok_or (bt_get (store, k) s.(ms_tuples)) not_found.

(** The entries of one store, in key order. *)
Definition entries_of {K V} (store : StoreId) (m : BTreeMap (StoreId * K) V) : list (K * V) :=
  omap (fun '((st, k), v) => if (st =? store)%N then Some (k, v) else None) m.

Definition read_tuples (s : MemoryState) (store : StoreId) (f : TupleReadFilter) (o : PageOptions) :
    result StorageError (Page StoredTuple) :=
  after ← parse_after parse_tuple_cursor o;
  let candidates :=
    filter (fun '(k, _) => is_after after k && tuple_read_filter_matches f k = true)
      (entries_of store s.(ms_tuples)) in
  let '(page, continuation) := bounded_page candidates o.(po_maximum_results) in
  cursor ← cursor_of (fun '(k, _) => show_tuple_key k) continuation;
  Ok (mkPage (snd <$> page) cursor).

(** [collect_tuples]: the accumulator holds the matches so far. *)
Fixpoint collect_tuples (s : MemoryState) (store : StoreId) (maximum : N)
    (predicate : RelationshipTuple → bool) (keys : list TupleKey) (acc : list RelationshipTuple) :
    result StorageError (list RelationshipTuple) :=
  match keys with
  | [] => Ok acc
  | k :: keys =>
      match bt_get (store, k) s.(ms_tuples) with
      | None => Err (storage_error SIntegrity "tuple_index_dangling")
      | Some stored =>
          if predicate stored.(st_tuple) then
            if (maximum <=? len acc)%N then
              Err (storage_error SResourceExhausted "tuple_snapshot_result_limit")
            else collect_tuples s store maximum predicate keys (acc ++ [stored.(st_tuple)])
          else collect_tuples s store maximum predicate keys acc
      end
  end.

(** [condition_matches] *)
Definition condition_matches (t : RelationshipTuple) (f : ConditionFilter) : bool :=
  condition_filter_matches f t.(rt_condition).

Definition object_relation_predicate (f : ObjectRelationFilter) (t : RelationshipTuple) : bool :=
  (match f.(orf_subjects) with [] => true | subjects => bs_contains t.(rt_key).(tk_subject) subjects end)
  && condition_matches t f.(orf_conditions).

Definition read_object_relation (s : MemoryState) (store : StoreId) (f : ObjectRelationFilter)
    (o : ReadOptions) : result StorageError (list RelationshipTuple) :=
  let keys := default [] (bt_get (store, (f.(orf_object), f.(orf_relation))) s.(ms_forward)) in
  collect_tuples s store o.(ro_maximum_results) (object_relation_predicate f) keys [].

Definition userset_matches (t : RelationshipTuple) (allowed : BTreeSet UsersetRestrictionFilter) : bool :=
  match t.(rt_key).(tk_subject) with
  | SubjUserset u =>
      match allowed with
      | [] => true
      | _ => existsb (fun r => bool_decide (r.(urf_subject_type) = u.(us_object).(object_type))
                               && bool_decide (r.(urf_relation) = u.(us_relation))) allowed
      end
  | _ => false
  end.

Definition read_userset (s : MemoryState) (store : StoreId) (f : UsersetTupleFilter)
    (o : ReadOptions) : result StorageError (list RelationshipTuple) :=
  let keys := default [] (bt_get (store, (f.(utf_object), f.(utf_relation))) s.(ms_usersets)) in
  collect_tuples s store o.(ro_maximum_results)
    (fun t => userset_matches t f.(utf_allowed) && condition_matches t f.(utf_conditions)) keys [].

Definition reverse_predicate (f : ReverseTupleFilter) (t : RelationshipTuple) : bool :=
  (match f.(rtf_object_ids) with
   | [] => true
   | ids => bs_contains t.(rt_key).(tk_object).(object_id) ids
   end) && condition_matches t f.(rtf_conditions).

Definition read_reverse (s : MemoryState) (store : StoreId) (f : ReverseTupleFilter)
    (o : ReadOptions) : result StorageError (list RelationshipTuple) :=
  let keys :=
    foldl (fun keys subject =>
             match bt_get (store, (subject, (f.(rtf_object_type), f.(rtf_relation)))) s.(ms_reverse) with
             | Some indexed => bs_extend keys indexed
             | None => keys
             end) [] f.(rtf_subjects) in
  collect_tuples s store o.(ro_maximum_results) (reverse_predicate f) keys [].

Definition tuple_exists (s : MemoryState) (store : StoreId) (k : TupleKey) : bool :=
  bt_contains_key (store, k) s.(ms_tuples).

(** The loop of [count_object_relation]. *)
Fixpoint count_loop (s : MemoryState) (store : StoreId) (f : ObjectRelationFilter)
    (keys : list TupleKey) (count : N) : result StorageError N :=
  match keys with
  | [] => Ok count
  | k :: keys =>
      match bt_get (store, k) s.(ms_tuples) with
      | None => Err (storage_error SIntegrity "tuple_index_dangling")
      | Some stored =>
          count_loop s store f keys
            (if object_relation_predicate f stored.(st_tuple) then saturating_add USIZE_MAX count 1
             else count)
      end
  end.

(** [usize] is not wider than [u64], so the final conversion cannot fail. *)
Definition count_object_relation (s : MemoryState) (store : StoreId) (f : ObjectRelationFilter) :
    result StorageError N :=
  count_loop s store f
    (default [] (bt_get (store, (f.(orf_object), f.(orf_relation))) s.(ms_forward))) 0.

(** ** Tuple writes *)

Inductive MutationFaultStage := FaultValidated | FaultDeletesPrepared | FaultWritesPrepared | FaultChangesPrepared.

(** What a mutation observes outside the state: the fault injector, the
    operation context and the clock. *)
Record MutationWorld := mkMutationWorld {
  mw_fault : MutationFaultStage → result StorageError ();
  mw_context : MutationFaultStage → result StorageError ();
  mw_now : result StorageError SystemTime;
}.

Definition mutation_gate (w : MutationWorld) (stage : MutationFaultStage) : result StorageError () :=
  _ ← w.(mw_fault) stage; w.(mw_context) stage.

Definition unique_delete_keys (deletes : list TupleKey) : result StorageError (BTreeSet TupleKey) :=
  let keys := bs_collect deletes in
  if negb (length keys =? length deletes) then
    Err (storage_error SConflict "duplicate_tuple_delete_input")
  else Ok keys.

Definition unique_write_tuples (writes : list RelationshipTuple) :
    result StorageError (BTreeMap TupleKey RelationshipTuple) :=
  let tuples := foldl (fun m t => bt_insert t.(rt_key) t m) [] writes in
  if negb (length tuples =? length writes) then
    Err (storage_error SConflict "duplicate_tuple_write_input")
  else Ok tuples.

Definition validate_persisted_conflicts (s : MemoryState) (store : StoreId)
    (deletes writes : list TupleKey) (requested : BTreeMap TupleKey RelationshipTuple)
    (options : TupleWriteOptions) : result StorageError () :=
  let missing := match options.(on_missing_delete) with
                 | OnConflictError => find_first (fun k => negb (tuple_exists s store k)) deletes
                 | OnConflictIgnore => None
                 end in
  match missing with
  | Some k => Err (with_tuple (storage_error SConflict "missing_tuple_delete") k)
  | None =>
      match options.(on_duplicate_write) with
      | OnConflictError =>
          match find_first (fun k => tuple_exists s store k) writes with
          | Some k => Err (with_tuple (storage_error SConflict "duplicate_tuple_write") k)
          | None => Ok ()
          end
      | OnConflictIgnore =>
          let conflicts k :=
            match bt_get (store, k) s.(ms_tuples), bt_get k requested with
            | Some stored, Some t => negb (bool_decide (stored.(st_tuple) = t))
            | _, _ => false
            end in
          match find_first conflicts writes with
          | Some k => Err (with_tuple (storage_error SConflict "tuple_condition_conflict") k)
          | None => Ok ()
          end
      end
  end.

(** Changes for a list of tuples, threading the allocator. *)
Fixpoint allocate_changes (store : StoreId) (op : ChangeOperation) (timestamp : SystemTime)
    (a : ChangeIdAllocator) (tuples : list RelationshipTuple) :
    result StorageError (ChangeIdAllocator * list TupleChange) :=
  match tuples with
  | [] => Ok (a, [])
  | t :: tuples =>
      '(a, id) ← next_change_id a timestamp;
      '(a, changes) ← allocate_changes store op timestamp a tuples;
      Ok (a, mkTupleChange id store op t timestamp :: changes)
  end.

(** What a mutation has prepared before it touches the state. *)
Record Prepared := mkPrepared {
  pr_deletes : list RelationshipTuple;
  pr_writes : list RelationshipTuple;
  pr_timestamp : SystemTime;
  pr_changes : list TupleChange;
  pr_allocator : ChangeIdAllocator;
}.

(** Everything of [write_tuples] before the first mutation; [None] is the
    mutation without effect. *)
Definition prepare_write (s : MemoryState) (w : MutationWorld) (store : StoreId)
    (deletes : list TupleKey) (writes : list RelationshipTuple) (options : TupleWriteOptions) :
    result StorageError (option Prepared) :=
  if (s.(ms_limits).(write_tuples_limit) <? saturating_add USIZE_MAX (len deletes) (len writes))%N then
    Err (storage_error SResourceExhausted "tuple_mutation_item_limit")
  else
    delete_keys ← unique_delete_keys deletes;
    write_tuples ← unique_write_tuples writes;
    if existsb (fun k => bt_contains_key k write_tuples) delete_keys then
      Err (storage_error SConflict "tuple_in_delete_and_write")
    else
      _ ← mutation_gate w FaultValidated;
      _ ← validate_persisted_conflicts s store deletes (rt_key <$> writes) write_tuples options;
      let prepared_deletes :=
        omap (fun k => st_tuple <$> bt_get (store, k) s.(ms_tuples)) delete_keys in
      _ ← mutation_gate w FaultDeletesPrepared;
      let prepared_writes :=
        snd <$> filter (fun '(k, _) => tuple_exists s store k = false) write_tuples in
      _ ← mutation_gate w FaultWritesPrepared;
      match prepared_deletes, prepared_writes with
      | [], [] => Ok None
      | _, _ =>
          timestamp ← w.(mw_now);
          '(a, deleted) ← allocate_changes store ChDelete timestamp s.(ms_change_ids) prepared_deletes;
          '(a, written) ← allocate_changes store ChWrite timestamp a prepared_writes;
          _ ← mutation_gate w FaultChangesPrepared;
          Ok (Some (mkPrepared prepared_deletes prepared_writes timestamp (deleted ++ written) a))
      end.

Definition commit_write (s : MemoryState) (store : StoreId) (p : Prepared) : MemoryState :=
  let s := foldl (fun s t => remove_tuple store s t.(rt_key)) s p.(pr_deletes) in
  let s := foldl (fun s t => insert_tuple store s (mkStoredTuple t p.(pr_timestamp))) s p.(pr_writes) in
  set_changes s (foldl (fun m c => bt_insert (store, c.(tc_id)) c m) s.(ms_changes) p.(pr_changes))
    p.(pr_allocator).

Definition write_tuples (s : MemoryState) (w : MutationWorld) (store : StoreId)
    (deletes : list TupleKey) (writes : list RelationshipTuple) (options : TupleWriteOptions) :
    MemoryState * result StorageError MutationOutcome :=
  match prepare_write s w store deletes writes options with
  | Err e => (s, Err e)
  | Ok None => (s, Ok (mkMutationOutcome []))
  | Ok (Some p) => (commit_write s store p, Ok (mkMutationOutcome (tc_id <$> p.(pr_changes))))
  end.

(** ** Models, stores, assertions and the changelog *)

Definition read_model (s : MemoryState) (store : StoreId) (id : AuthorizationModelId) :
    result StorageError StoredAuthorizationModel :=
  ok_or (bt_get (store, id) s.(ms_models)) not_found.

Definition read_latest_model (s : MemoryState) (store : StoreId) :
    result StorageError StoredAuthorizationModel :=
  id ← ok_or (ids ← bt_get store s.(ms_model_ids); last ids) not_found;
  ok_or (bt_get (store, id) s.(ms_models)) (storage_error SIntegrity "model_index_dangling").

Definition list_models (s : MemoryState) (store : StoreId) (o : PageOptions) :
    result StorageError (Page StoredAuthorizationModel) :=
  after ← parse_after parse_model_cursor o;
  let ids := filter (fun id => is_before after id = true)
               (reverse (default [] (bt_get store s.(ms_model_ids)))) in
  let '(ids, continuation) := bounded_page ids o.(po_maximum_results) in
  models ← try_collect (fun id => ok_or (bt_get (store, id) s.(ms_models))
                                    (storage_error SIntegrity "model_index_dangling")) ids;
  cursor ← cursor_of ulid_to_string continuation;
  Ok (mkPage models cursor).

Definition write_model (s : MemoryState) (m : StoredAuthorizationModel) :
    MemoryState * result StorageError () :=
  let store := m.(sam_store_id) in
  let id := m.(sam_model_id) in
  match bt_get (store, id) s.(ms_models) with
  | Some existing =>
      let kind := if bool_decide (existing.(sam_fingerprint) = m.(sam_fingerprint))
                  then SAlreadyExists else SIntegrity in
      (s, Err (storage_error kind "authorization_model_id_collision"))
  | None =>
      (set_models s (bt_insert (store, id) m s.(ms_models))
         (bt_insert store (bs_insert id (default [] (bt_get store s.(ms_model_ids)))) s.(ms_model_ids)),
       Ok ())
  end.

Definition read_store (s : MemoryState) (store : StoreId) : result StorageError StoreRecord :=
  ok_or (bt_get store s.(ms_stores)) not_found.

Definition list_stores (s : MemoryState) (f : StoreFilter) (o : PageOptions) :
    result StorageError (Page StoreRecord) :=
  after ← parse_after parse_store_cursor o;
  let named id := none_or f.(sf_name) (fun name =>
                    match bt_get id s.(ms_stores) with
                    | Some r => bool_decide (r.(sr_name) = name)
                    | None => false
                    end) in
  let ids := filter (fun id => is_after after id && named id = true) (bt_keys s.(ms_stores)) in
  let '(ids, continuation) := bounded_page ids o.(po_maximum_results) in
  stores ← try_collect (fun id => ok_or (bt_get id s.(ms_stores))
                                    (storage_error SIntegrity "store_index_dangling")) ids;
  cursor ← cursor_of ulid_to_string continuation;
  Ok (mkPage stores cursor).

Definition create_store (s : MemoryState) (now : result StorageError SystemTime) (store : StoreId)
    (name : StoreName) : MemoryState * result StorageError StoreRecord :=
  if bt_contains_key store s.(ms_stores) then
    (s, Err (storage_error SAlreadyExists "store_id_collision"))
  else match now with
       | Err e => (s, Err e)
       | Ok timestamp =>
           let record := store_record_new store name timestamp in
           (set_stores s (bt_insert store record s.(ms_stores)), Ok record)
       end.

Definition rename_store (s : MemoryState) (now : result StorageError SystemTime) (store : StoreId)
    (name : StoreName) : MemoryState * result StorageError StoreRecord :=
  match now with
  | Err e => (s, Err e)
  | Ok timestamp =>
      match bt_get store s.(ms_stores) with
      | None => (s, Err not_found)
      | Some existing =>
          let record := renamed existing name timestamp in
          (set_stores s (bt_insert store record s.(ms_stores)), Ok record)
      end
  end.

Definition delete_store (s : MemoryState) (store : StoreId) : MemoryState :=
  set_stores s (bt_remove store s.(ms_stores)).

Definition require_model (s : MemoryState) (store : StoreId) (id : AuthorizationModelId) :
    result StorageError () :=
  if bt_contains_key (store, id) s.(ms_models) then Ok () else Err not_found.

Definition read_assertions (s : MemoryState) (store : StoreId) (id : AuthorizationModelId) :
    result StorageError (list Assertion) :=
  _ ← require_model s store id;
  Ok (default [] (bt_get (store, id) s.(ms_assertions))).

Definition write_assertions (s : MemoryState) (store : StoreId) (id : AuthorizationModelId)
    (assertions : list Assertion) : MemoryState * result StorageError () :=
  match require_model s store id with
  | Err e => (s, Err e)
  | Ok _ =>
      if (s.(ms_limits).(assertions_limit) <? len assertions)%N then
        (s, Err (storage_error SResourceExhausted "assertion_item_limit"))
      else (set_assertions s (bt_insert (store, id) assertions s.(ms_assertions)), Ok ())
  end.

Definition change_filter_matches (f : ChangeFilter) (c : TupleChange) : bool :=
  none_or f.(cf_object_type) (fun ty =>
    bool_decide (c.(tc_tuple).(rt_key).(tk_object).(object_type) = ty))
  && none_or f.(cf_start_time) (fun start => (start <=? c.(tc_timestamp))%Z).

Definition read_changes (s : MemoryState) (store : StoreId) (f : ChangeFilter) (o : PageOptions) :
    result StorageError (Page TupleChange) :=
  after ← parse_after parse_change_cursor o;
  let candidates :=
    filter (fun '(id, c) => is_after after id && change_filter_matches f c = true)
      (entries_of store s.(ms_changes)) in
  let '(page, continuation) := bounded_page candidates o.(po_maximum_results) in
  cursor ← cursor_of (fun '(_, c) => ulid_to_string c.(tc_id)) continuation;
  Ok (mkPage (snd <$> page) cursor).

(** ** The actor *)

Inductive Command :=
| CmdReadTuples (store : StoreId) (f : TupleReadFilter) (o : PageOptions)
| CmdReadExact (store : StoreId) (k : TupleKey)
| CmdReadObjectRelation (store : StoreId) (f : ObjectRelationFilter) (o : ReadOptions)
| CmdReadUserset (store : StoreId) (f : UsersetTupleFilter) (o : ReadOptions)
| CmdReadReverse (store : StoreId) (f : ReverseTupleFilter) (o : ReadOptions)
| CmdTupleExists (store : StoreId) (k : TupleKey)
| CmdCountObjectRelation (store : StoreId) (f : ObjectRelationFilter)
| CmdWriteTuples (store : StoreId) (deletes : list TupleKey) (writes : list RelationshipTuple)
    (options : TupleWriteOptions)
| CmdReadModel (store : StoreId) (id : AuthorizationModelId)
| CmdReadLatestModel (store : StoreId)
| CmdListModels (store : StoreId) (o : PageOptions)
| CmdWriteModel (m : StoredAuthorizationModel)
| CmdReadStore (store : StoreId)
| CmdListStores (f : StoreFilter) (o : PageOptions)
| CmdCreateStore (store : StoreId) (name : StoreName)
| CmdRenameStore (store : StoreId) (name : StoreName)
| CmdDeleteStore (store : StoreId)
| CmdReadAssertions (store : StoreId) (id : AuthorizationModelId)
| CmdWriteAssertions (store : StoreId) (id : AuthorizationModelId) (assertions : list Assertion)
| CmdReadChanges (store : StoreId) (f : ChangeFilter) (o : PageOptions)
| CmdHealth.

(** What is sent on the reply channel of a command. *)
Inductive Reply :=
| RpTuplePage (r : result StorageError (Page StoredTuple))
| RpStoredTuple (r : result StorageError StoredTuple)
| RpTuples (r : result StorageError (list RelationshipTuple))
| RpBool (r : result StorageError bool)
| RpCount (r : result StorageError N)
| RpMutation (r : result StorageError MutationOutcome)
| RpModel (r : result StorageError StoredAuthorizationModel)
| RpModelPage (r : result StorageError (Page StoredAuthorizationModel))
| RpUnit (r : result StorageError ())
| RpStore (r : result StorageError StoreRecord)
| RpStorePage (r : result StorageError (Page StoreRecord))
| RpAssertions (r : result StorageError (list Assertion))
| RpChangePage (r : result StorageError (Page TupleChange))
| RpHealth (r : result StorageError (bool * string))
| RpShutdown.

(** [Command::fail] *)
Definition command_fail (c : Command) (e : StorageError) : Reply :=
  match c with
  | CmdReadTuples _ _ _ => RpTuplePage (Err e)
  | CmdReadExact _ _ => RpStoredTuple (Err e)
  | CmdReadObjectRelation _ _ _ | CmdReadUserset _ _ _ | CmdReadReverse _ _ _ => RpTuples (Err e)
  | CmdTupleExists _ _ => RpBool (Err e)
  | CmdCountObjectRelation _ _ => RpCount (Err e)
  | CmdWriteTuples _ _ _ _ => RpMutation (Err e)
  | CmdReadModel _ _ | CmdReadLatestModel _ => RpModel (Err e)
  | CmdListModels _ _ => RpModelPage (Err e)
  | CmdWriteModel _ | CmdDeleteStore _ | CmdWriteAssertions _ _ _ => RpUnit (Err e)
  | CmdReadStore _ | CmdCreateStore _ _ | CmdRenameStore _ _ => RpStore (Err e)
  | CmdListStores _ _ => RpStorePage (Err e)
  | CmdReadAssertions _ _ => RpAssertions (Err e)
  | CmdReadChanges _ _ _ => RpChangePage (Err e)
  | CmdHealth => RpHealth (Err e)
  end.

Definition handle_command (s : MemoryState) (w : MutationWorld) (c : Command) : MemoryState * Reply :=
  match c with
  | CmdReadTuples store f o => (s, RpTuplePage (read_tuples s store f o))
  | CmdReadExact store k => (s, RpStoredTuple (read_exact s store k))
  | CmdReadObjectRelation store f o => (s, RpTuples (read_object_relation s store f o))
  | CmdReadUserset store f o => (s, RpTuples (read_userset s store f o))
  | CmdReadReverse store f o => (s, RpTuples (read_reverse s store f o))
  | CmdTupleExists store k => (s, RpBool (Ok (tuple_exists s store k)))
  | CmdCountObjectRelation store f => (s, RpCount (count_object_relation s store f))
  | CmdWriteTuples store deletes writes options =>
      let '(s, r) := write_tuples s w store deletes writes options in (s, RpMutation r)
  | CmdReadModel store id => (s, RpModel (read_model s store id))
  | CmdReadLatestModel store => (s, RpModel (read_latest_model s store))
  | CmdListModels store o => (s, RpModelPage (list_models s store o))
  | CmdWriteModel m => let '(s, r) := write_model s m in (s, RpUnit r)
  | CmdReadStore store => (s, RpStore (read_store s store))
  | CmdListStores f o => (s, RpStorePage (list_stores s f o))
  | CmdCreateStore store name =>
      let '(s, r) := create_store s w.(mw_now) store name in (s, RpStore r)
  | CmdRenameStore store name =>
      let '(s, r) := rename_store s w.(mw_now) store name in (s, RpStore r)
  | CmdDeleteStore store => (delete_store s store, RpUnit (Ok ()))
  | CmdReadAssertions store id => (s, RpAssertions (read_assertions s store id))
  | CmdWriteAssertions store id assertions =>
      let '(s, r) := write_assertions s store id assertions in (s, RpUnit r)
  | CmdReadChanges store f o => (s, RpChangePage (read_changes s store f o))
  | CmdHealth => (s, RpHealth (Ok (true, "ready")))
  end.

(** A command with what its context check and its mutation observe, or the
    end of the actor. *)
Inductive ActorMessage :=
| Operation (c : Command) (check : result StorageError ()) (w : MutationWorld)
| Shutdown.

Fixpoint run_actor (s : MemoryState) (messages : list ActorMessage) : MemoryState * list Reply :=
  match messages with
  | [] => (s, [])
  | Shutdown :: _ => (s, [RpShutdown])
  | Operation c check w :: messages =>
      let '(s, reply) := match check with
                         | Err e => (s, command_fail c e)
                         | Ok _ => handle_command s w c
                         end in
      let '(s, replies) := run_actor s messages in
      (s, reply :: replies)
  end.

End memory.

(** ** The handle

    [backend.rs]: a call checks its context, waits to enqueue its message and
    then for the reply; cancellation and the deadline win over both. *)

(** What a [select!] of [dispatch] observes. *)
Inductive SelectEvent := EvCancelled | EvTimedOut | EvCompleted | EvChannelClosed.

Record DispatchWorld := mkDispatchWorld {
  dw_check : result StorageError ();
  dw_send : SelectEvent;
  dw_receive : SelectEvent;
}.

Definition memory_cancelled : StorageError := storage_error SCancelled "memory_operation_cancelled".
Definition memory_timed_out : StorageError := storage_error STimeout "memory_operation_timed_out".

(** The answer of the actor reaches the caller only through both waits. *)
Definition dispatch {T} (d : DispatchWorld) (answer : result StorageError T) : result StorageError T :=
  _ ← d.(dw_check);
  match d.(dw_send) with
  | EvCancelled => Err memory_cancelled
  | EvTimedOut => Err memory_timed_out
  | EvChannelClosed => Err (storage_error SUnavailable "memory_actor_command_channel_closed")
  | EvCompleted =>
      match d.(dw_receive) with
      | EvCancelled => Err memory_cancelled
      | EvTimedOut => Err memory_timed_out
      | EvChannelClosed => Err (storage_error SUnavailable "memory_actor_reply_channel_closed")
      | EvCompleted => answer
      end
  end.

(** [TupleReader::read_object_relation] of the handle, when the actor turn of
    the command finds the state [s]. *)
Definition backend_read_object_relation (d : DispatchWorld) (turn : result StorageError ())
    (s : MemoryState) (store : StoreId) (f : ObjectRelationFilter) (o : ReadOptions) :
    result StorageError TupleStream :=
  from_tuples <$> dispatch d (_ ← turn; read_object_relation s store f o).
