(* ===== verification/MemoryTheory.v ===== *)
(** * Correctness of the in-memory backend

    Every state the actor can reach keeps its indexes consistent with the
    tuple table, reads are filters over that table, a mutation is atomic and
    does exactly what was asked, and the changelog replays to the table. *)

From S2P Require Import Prelude Ordered Identifier Reference Grammar Storage Memory.
From Stdlib Require Import ZArith.

(** ** Entries of one store *)

Section entries.
Context {K V : Type} `{OrdLaws K}.
Implicit Types (m : BTreeMap (StoreId * K) V).

Lemma entries_of_elem store m k v : (k, v) ∈ entries_of store m ↔ (store, k, v) ∈ m.
Proof.
  unfold entries_of. rewrite list_elem_of_omap. split.
  - intros ([[st k'] v'] & Hin & E). case_match eqn:Es; [|done]. apply N.eqb_eq in Es as ->. by simplify_eq.
  - intros Hin. exists (store, k, v). split; [done|]. by rewrite N.eqb_refl.
Qed.

Lemma entries_of_sorted store m : bt_sorted m → bt_sorted (entries_of store m).
Proof.
  unfold bt_sorted. induction 1 as [|[[st k] v] m Hs IH Hlt]; [constructor|].
  cbn [entries_of omap list_omap]. fold (entries_of store m) in *.
  destruct (st =? store)%N eqn:E; [|done]. apply N.eqb_eq in E as ->.
  constructor; [done|]. apply Forall_forall. intros [k' v'] Hin. simpl.
  rewrite Forall_forall in Hlt. apply entries_of_elem in Hin. specialize (Hlt _ Hin). simpl in Hlt.
  rewrite cmp_pair in Hlt. by rewrite cmp_refl in Hlt.
Qed.

Lemma entries_of_get store m k : bt_sorted m → bt_get k (entries_of store m) = bt_get (store, k) m.
Proof.
  intros Hs. apply option_eq. intros v.
  rewrite !bt_get_elem_iff by auto using entries_of_sorted. apply entries_of_elem.
Qed.

End entries.

(** ** Index consistency *)

Section index.
Context {K : Type} `{OrdLaws K} (key : StoreId → TupleKey → K) (selected : TupleKey → bool).
#[local] Existing Instance ord_eq_dec | 100.
Hypothesis key_store : ∀ st st' k, key st k = key st' k → st = st'.
Implicit Types (tuples : BTreeMap (StoreId * TupleKey) StoredTuple)
  (index : BTreeMap K (BTreeSet TupleKey)).

Definition indexed index (i : K) (k : TupleKey) : Prop := k ∈ default [] (bt_get i index).

Record index_ok tuples index : Prop := {
  io_sorted : bt_sorted index;
  io_sets : ∀ i keys, bt_get i index = Some keys → bs_sorted keys ∧ keys ≠ [];
  io_elem : ∀ i k, indexed index i k ↔
    selected k = true ∧ ∃ st, key st k = i ∧ is_Some (bt_get (st, k) tuples);
}.

Lemma index_ok_nil : index_ok [] [].
Proof. constructor; [constructor|done|]. unfold indexed. simpl. intros i k. rewrite elem_of_nil. naive_solver. Qed.

Lemma bt_get_insert_is_Some tuples st k v st' k' :
  is_Some (bt_get (st', k') (bt_insert (st, k) v tuples)) ↔
  (st' = st ∧ k' = k) ∨ is_Some (bt_get (st', k') tuples).
Proof.
  destruct (decide ((st', k') = (st, k))) as [[= -> ->]|Hne].
  - rewrite bt_get_insert_eq. naive_solver.
  - rewrite bt_get_insert_ne by done. naive_solver.
Qed.

Lemma bt_get_remove_is_Some tuples st k st' k' :
  is_Some (bt_get (st', k') (bt_remove (st, k) tuples)) ↔
  (st', k') ≠ (st, k) ∧ is_Some (bt_get (st', k') tuples).
Proof.
  destruct (decide ((st', k') = (st, k))) as [[= -> ->]|Hne].
  - rewrite bt_get_remove_eq. split; [by intros []|naive_solver].
  - rewrite bt_get_remove_ne by done. naive_solver.
Qed.

Lemma index_ok_insert tuples index st k v :
  index_ok tuples index → selected k = true →
  index_ok (bt_insert (st, k) v tuples) (index_insert (key st k) k index).
Proof.
  intros [Hs Hsets He] Hsel. unfold index_insert. constructor.
  - by apply bt_sorted_insert.
  - intros i keys. destruct (decide (i = key st k)) as [->|Hne].
    + rewrite bt_get_insert_eq. intros [= <-]. split.
      * apply bs_sorted_insert. destruct (bt_get (key st k) index) eqn:E; [by eapply Hsets|constructor].
      * intros En. assert (k ∈ ([] : list TupleKey)) as []%not_elem_of_nil.
        rewrite <-En. apply bs_insert_elem. by left.
    + rewrite bt_get_insert_ne by done. apply Hsets.
  - intros i k'. unfold indexed in *. setoid_rewrite bt_get_insert_is_Some.
    destruct (decide (i = key st k)) as [->|Hne].
    + rewrite bt_get_insert_eq. simpl. rewrite bs_insert_elem, He. naive_solver.
    + rewrite bt_get_insert_ne, He by done. naive_solver.
Qed.

Lemma index_ok_insert_skip tuples index st k v :
  index_ok tuples index → selected k = false → index_ok (bt_insert (st, k) v tuples) index.
Proof.
  intros [Hs Hsets He] Hsel. constructor; [done|done|]. intros i k'. rewrite He.
  setoid_rewrite bt_get_insert_is_Some. split; [naive_solver|].
  intros (? & st' & ? & [[-> ->]|]); [congruence|eauto].
Qed.

Lemma index_ok_remove tuples index st k :
  index_ok tuples index →
  index_ok (bt_remove (st, k) tuples) (remove_index_key (key st k) k index).
Proof.
  intros [Hs Hsets He].
  assert (Hget : ∀ i, bt_get i (remove_index_key (key st k) k index) =
    if decide (i = key st k) then match bs_remove k (default [] (bt_get i index)) with
                                  | [] => None | keys => Some keys end
    else bt_get i index).
  { intros i. unfold remove_index_key. destruct (bt_get (key st k) index) as [keys|] eqn:E.
    - destruct (decide (i = key st k)) as [->|Hne].
      + rewrite E. simpl. destruct (bs_remove k keys); [apply bt_get_remove_eq|apply bt_get_insert_eq].
      + destruct (bs_remove k keys); [by apply bt_get_remove_ne|by apply bt_get_insert_ne].
    - destruct (decide (i = key st k)) as [->|Hne]; [by rewrite E|done]. }
  constructor.
  - unfold remove_index_key. repeat case_match; auto using bt_sorted_insert, bt_sorted_remove.
  - intros i keys. rewrite Hget. destruct (decide (i = key st k)) as [->|Hne]; [|apply Hsets].
    destruct (bs_remove k _) as [|x l] eqn:E; [done|]. intros [= <-]. split; [|done].
    rewrite <-E. apply bs_sorted_remove. destruct (bt_get (key st k) index) eqn:Eg; [by eapply Hsets|constructor].
  - intros i k'. unfold indexed in *. rewrite Hget. setoid_rewrite bt_get_remove_is_Some.
    destruct (decide (i = key st k)) as [->|Hne].
    + trans (k' ∈ bs_remove k (default [] (bt_get (key st k) index)));
        [by destruct (bs_remove _ _)|]. rewrite bs_remove_elem, He. split.
      * intros (Hk & Hsel & st' & Hkey & Hin). split; [done|]. exists st'. split; [done|].
        split; [|done]. intros [= _ ->]. done.
      * intros (Hsel & st' & Hkey & Hne & Hin). split; [|eauto].
        intros ->. apply key_store in Hkey as ->. done.
    + rewrite He. split; [|naive_solver]. intros (? & st' & <- & ?). split; [done|]. exists st'.
      split; [done|]. split; [|done]. by intros [= -> ->].
Qed.

Lemma index_ok_remove_skip tuples index st k :
  index_ok tuples index → selected k = false → index_ok (bt_remove (st, k) tuples) index.
Proof.
  intros [Hs Hsets He] Hsel. constructor; [done|done|]. intros i k'. rewrite He.
  setoid_rewrite bt_get_remove_is_Some. split; [|naive_solver].
  intros (? & st' & ? & ?). split; [done|]. exists st'. split; [done|]. split; [|done].
  intros [= -> ->]. congruence.
Qed.

End index.

(** ** The tuple table and its indexes *)

Record tables_ok (s : MemoryState) : Prop := {
  to_sorted : bt_sorted s.(ms_tuples);
  to_key : ∀ st k v, bt_get (st, k) s.(ms_tuples) = Some v → v.(st_tuple).(rt_key) = k;
  to_forward : index_ok forward_key (fun _ => true) s.(ms_tuples) s.(ms_forward);
  to_reverse : index_ok reverse_key (fun _ => true) s.(ms_tuples) s.(ms_reverse);
  to_usersets : index_ok forward_key (fun k => is_userset k.(tk_subject)) s.(ms_tuples) s.(ms_usersets);
}.

Lemma forward_key_store st st' k : forward_key st k = forward_key st' k → st = st'.
Proof. by intros [= ->]. Qed.
Lemma reverse_key_store st st' k : reverse_key st k = reverse_key st' k → st = st'.
Proof. by intros [= ->]. Qed.

Lemma insert_tuple_ok store s stored : tables_ok s → tables_ok (insert_tuple store s stored).
Proof.
  intros []. constructor; simpl.
  - by apply bt_sorted_insert.
  - intros st k v. set (k0 := rt_key (st_tuple stored)).
    destruct (decide ((st, k) = (store, k0))) as [[= -> ->]|Hne].
    + rewrite bt_get_insert_eq. by intros [= <-].
    + rewrite bt_get_insert_ne by done. apply to_key0.
  - by apply index_ok_insert.
  - by apply index_ok_insert.
  - case_match; [by apply (index_ok_insert forward_key)|by apply index_ok_insert_skip].
Qed.

Lemma remove_tuple_ok store s k : tables_ok s → tables_ok (remove_tuple store s k).
Proof.
  intros []. constructor; simpl.
  - by apply bt_sorted_remove.
  - intros st k' v. destruct (decide ((st, k') = (store, k))) as [[= -> ->]|Hne].
    + by rewrite bt_get_remove_eq.
    + rewrite bt_get_remove_ne by done. apply to_key0.
  - apply (index_ok_remove forward_key); [apply forward_key_store|done].
  - apply (index_ok_remove reverse_key); [apply reverse_key_store|done].
  - case_match; [|by apply index_ok_remove_skip].
    apply (index_ok_remove forward_key); [apply forward_key_store|done].
Qed.

(** The tuples of a store, in key order: what the backend stores. *)
Definition tuple_table (s : MemoryState) (store : StoreId) : list RelationshipTuple :=
  (fun e => e.2.(st_tuple)) <$> entries_of store s.(ms_tuples).

Lemma tuple_table_elem s store t :
  tables_ok s → t ∈ tuple_table s store ↔ ∃ v, bt_get (store, t.(rt_key)) s.(ms_tuples) = Some v ∧ v.(st_tuple) = t.
Proof.
  intros []. unfold tuple_table. rewrite list_elem_of_fmap. split.
  - intros ([k v] & -> & Hin). apply entries_of_elem in Hin. apply bt_sorted_elem_get in Hin; [|done].
    simpl. rewrite (to_key0 _ _ _ Hin). eauto.
  - intros (v & Hv & <-). exists (rt_key (st_tuple v), v). split; [done|].
    apply entries_of_elem. by apply bt_get_elem.
Qed.

(** *** Reading through an index *)

Lemma sorted_fst {K V} `{OrdLaws K} (m : BTreeMap K V) : bt_sorted m → bs_sorted m.*1.
Proof.
  induction 1 as [|[k v] m Hs IH Hlt]; simpl; constructor; [done|].
  apply Forall_fmap. eapply Forall_impl; [done|]. by intros [].
Qed.

Lemma sorted_filter {A} (R : A → A → Prop) (P : A → Prop) `{!∀ x, Decision (P x)} l :
  StronglySorted R l → StronglySorted R (filter P l).
Proof.
  induction 1 as [|x l Hs IH Hlt]; [constructor|]. rewrite filter_cons. case_decide; [|done].
  constructor; [done|]. apply Forall_forall. intros y [_ Hy]%list_elem_of_filter.
  rewrite Forall_forall in Hlt. auto.
Qed.

Lemma filter_table (P : TupleKey → bool) (l : list (TupleKey * StoredTuple)) :
  (∀ e, e ∈ l → e.2.(st_tuple).(rt_key) = e.1) →
  (fun e => e.2.(st_tuple)) <$> filter (fun e => P e.1 = true) l =
  filter (fun t => P t.(rt_key) = true) ((fun e => e.2.(st_tuple)) <$> l).
Proof.
  induction l as [|e l IH]; intros Hl; [done|]. rewrite fmap_cons, !filter_cons, Hl by (by left).
  case_decide; [rewrite fmap_cons; f_equal|]; apply IH; intros; apply Hl; by right.
Qed.

Lemma index_rows s store keys (P : TupleKey → bool) :
  tables_ok s → bs_sorted keys →
  (∀ k, k ∈ keys ↔ P k = true ∧ is_Some (bt_get (store, k) s.(ms_tuples))) →
  omap (fun k => st_tuple <$> bt_get (store, k) s.(ms_tuples)) keys =
  filter (fun t => P t.(rt_key) = true) (tuple_table s store).
Proof.
  intros [] Hks Hk. set (l := filter (fun e => P e.1 = true) (entries_of store (ms_tuples s))).
  assert (Hsl : bt_sorted l) by (apply sorted_filter; by apply entries_of_sorted).
  assert (Hl : ∀ k v, (k, v) ∈ l ↔ P k = true ∧ bt_get (store, k) (ms_tuples s) = Some v).
  { intros k v. unfold l. rewrite list_elem_of_filter, entries_of_elem, bt_get_elem_iff by done. done. }
  assert (keys = l.*1) as ->.
  { apply bs_ext; [done|by apply sorted_fst|]. intros k. rewrite Hk, list_elem_of_fmap. split.
    - intros [HP [v Hv]]. exists (k, v). split; [done|]. by apply Hl.
    - intros ([k' v] & -> & [? ?]%Hl). eauto. }
  assert (Hlook : ∀ e, e ∈ l → bt_get (store, e.1) (ms_tuples s) = Some e.2)
    by (by intros [k v] [_ ?]%Hl).
  assert (omap (fun k => st_tuple <$> bt_get (store, k) (ms_tuples s)) l.*1 = (fun e => st_tuple e.2) <$> l) as ->.
  { clear -Hlook. induction l as [|e l IH]; [done|]. cbn. rewrite Hlook by (by left). cbn. f_equal.
    apply IH. intros e' He'. apply Hlook. by right. }
  apply filter_table. intros [k v] Hin%entries_of_elem. apply bt_sorted_elem_get in Hin; [|done].
  by apply to_key0 in Hin.
Qed.

(** At most [maximum] rows, or an error. *)
Definition bounded_rows (maximum : N) (rows : list RelationshipTuple) :
    result StorageError (list RelationshipTuple) :=
  if (len rows <=? maximum)%N then Ok rows
  else Err (storage_error SResourceExhausted "tuple_snapshot_result_limit").

Lemma collect_tuples_spec s store maximum p keys : ∀ acc,
  (∀ k, k ∈ keys → is_Some (bt_get (store, k) s.(ms_tuples))) → (len acc <= maximum)%N →
  collect_tuples s store maximum p keys acc =
  bounded_rows maximum
    (acc ++ filter (fun t => p t = true) (omap (fun k => st_tuple <$> bt_get (store, k) s.(ms_tuples)) keys)).
Proof.
  induction keys as [|k keys IH]; intros acc Hkeys Hacc; cbn [collect_tuples].
  - cbn. rewrite app_nil_r. unfold bounded_rows. by rewrite (proj2 (N.leb_le _ _)).
  - destruct (Hkeys k) as [v Hv]; [by left|]. rewrite Hv.
    assert (omap (fun k => st_tuple <$> bt_get (store, k) s.(ms_tuples)) (k :: keys) =
      st_tuple v :: omap (fun k => st_tuple <$> bt_get (store, k) s.(ms_tuples)) keys) as ->
      by (cbn; by rewrite Hv).
    rewrite filter_cons. assert (Hrest : ∀ k, k ∈ keys → is_Some (bt_get (store, k) s.(ms_tuples)))
      by (intros; apply Hkeys; by right).
    destruct (p (st_tuple v)) eqn:Ep; [rewrite decide_True by done|rewrite decide_False by congruence].
    + destruct (N.leb_spec maximum (len acc)) as [Hge|Hlt].
      * unfold bounded_rows. rewrite (proj2 (N.leb_gt _ _)); [done|]. unfold len in *.
        rewrite length_app. simpl. lia.
      * rewrite IH; [by rewrite <-app_assoc|done|]. unfold len in *. rewrite length_app. simpl. lia.
    + by apply IH.
Qed.

Lemma filter_filter_and (P Q : RelationshipTuple → bool) (l : list RelationshipTuple) :
  filter (fun t => P t = true) (filter (fun t => Q t = true) l) =
  filter (fun t => Q t && P t = true) l.
Proof.
  rewrite list_filter_filter. apply list_filter_iff. intros t. rewrite andb_true_iff. tauto.
Qed.

(** A read over the keys of an index is a filter of the table. *)
Lemma collect_index s store maximum p keys (P : TupleKey → bool) :
  tables_ok s → bs_sorted keys →
  (∀ k, k ∈ keys ↔ P k = true ∧ is_Some (bt_get (store, k) s.(ms_tuples))) →
  collect_tuples s store maximum p keys [] =
  bounded_rows maximum (filter (fun t => P t.(rt_key) && p t = true) (tuple_table s store)).
Proof.
  intros Hok Hs Hk. rewrite collect_tuples_spec; [|by intros k [_ ?]%Hk|unfold len; simpl; lia].
  rewrite (index_rows s store keys P Hok Hs Hk). simpl. by rewrite filter_filter_and.
Qed.

Definition key_at (o : ObjectRef) (r : RelationName) (k : TupleKey) : bool :=
  bool_decide (k.(tk_object) = o) && bool_decide (k.(tk_relation) = r).

Lemma key_at_true o r k : key_at o r k = true ↔ k.(tk_object) = o ∧ k.(tk_relation) = r.
Proof. unfold key_at. by rewrite andb_true_iff, !bool_decide_eq_true. Qed.

Lemma index_set_sorted {K} `{OrdLaws K} key sel tuples index (i : K) :
  index_ok key sel tuples index → bs_sorted (default [] (bt_get i index)).
Proof. intros []. destruct (bt_get i index) eqn:E; [by eapply io_sets0|constructor]. Qed.

Lemma forward_elem s store o r sel index :
  index_ok forward_key sel s.(ms_tuples) index →
  ∀ k, k ∈ default [] (bt_get (store, (o, r)) index) ↔
    key_at o r k && sel k = true ∧ is_Some (bt_get (store, k) s.(ms_tuples)).
Proof.
  intros [_ _ He] k. specialize (He (store, (o, r)) k). unfold indexed in He. rewrite He.
  unfold forward_key. rewrite andb_true_iff, key_at_true. naive_solver.
Qed.

(** Every indexed read is the filter of the store's tuples it stands for. *)
Lemma read_object_relation_spec s store f o :
  tables_ok s →
  read_object_relation s store f o =
  bounded_rows o.(ro_maximum_results)
    (filter (fun t => key_at f.(orf_object) f.(orf_relation) t.(rt_key) && object_relation_predicate f t = true)
       (tuple_table s store)).
Proof.
  intros Hok. unfold read_object_relation.
  rewrite (collect_index _ _ _ _ _ (key_at f.(orf_object) f.(orf_relation)) Hok).
  - done.
  - eapply index_set_sorted, to_forward, Hok.
  - intros k. rewrite (forward_elem s store _ _ (fun _ => true)) by apply Hok. by rewrite andb_true_r.
Qed.

Lemma read_userset_spec s store f o :
  tables_ok s →
  read_userset s store f o =
  bounded_rows o.(ro_maximum_results)
    (filter (fun t => key_at f.(utf_object) f.(utf_relation) t.(rt_key) &&
                      (userset_matches t f.(utf_allowed) && condition_matches t f.(utf_conditions)) = true)
       (tuple_table s store)).
Proof.
  intros Hok. unfold read_userset.
  rewrite (collect_index _ _ _ _ _
    (fun k => key_at f.(utf_object) f.(utf_relation) k && is_userset k.(tk_subject)) Hok).
  - f_equal. apply list_filter_iff. intros t. rewrite !andb_true_iff. unfold userset_matches.
    destruct (tk_subject (rt_key t)); simpl; naive_solver.
  - eapply index_set_sorted, to_usersets, Hok.
  - intros k. by rewrite (forward_elem s store _ _ (fun k => is_userset k.(tk_subject))) by apply Hok.
Qed.

Definition reverse_at (f : ReverseTupleFilter) (k : TupleKey) : bool :=
  bs_contains k.(tk_subject) f.(rtf_subjects)
  && bool_decide (k.(tk_object).(object_type) = f.(rtf_object_type))
  && bool_decide (k.(tk_relation) = f.(rtf_relation)).

Lemma reverse_keys_spec s store f :
  tables_ok s →
  let keys := foldl (fun keys subject =>
      match bt_get (store, (subject, (f.(rtf_object_type), f.(rtf_relation)))) s.(ms_reverse) with
      | Some indexed => bs_extend keys indexed
      | None => keys
      end) [] f.(rtf_subjects) in
  bs_sorted keys ∧
  ∀ k, k ∈ keys ↔ reverse_at f k = true ∧ is_Some (bt_get (store, k) s.(ms_tuples)).
Proof.
  intros Hok keys. destruct (to_reverse _ Hok) as [_ Hsets He].
  assert (Hfold : ∀ l acc, bs_sorted acc →
    let keys := foldl (fun keys subject =>
      match bt_get (store, (subject, (f.(rtf_object_type), f.(rtf_relation)))) s.(ms_reverse) with
      | Some indexed => bs_extend keys indexed
      | None => keys
      end) acc l in
    bs_sorted keys ∧ ∀ k, k ∈ keys ↔ k ∈ acc ∨ ∃ subject, subject ∈ l ∧
      indexed s.(ms_reverse) (store, (subject, (f.(rtf_object_type), f.(rtf_relation)))) k).
  { unfold indexed. induction l as [|x l IH]; intros acc Hacc; simpl.
    - split; [done|]. intros k. split; [by left|]. intros [|(? & []%not_elem_of_nil & _)]. done.
    - destruct (bt_get _ _) as [set|] eqn:E.
      + destruct (IH (bs_extend acc set)) as [? Hk]; [by apply bs_sorted_extend|]. split; [done|].
        intros k. rewrite Hk, bs_extend_elem. setoid_rewrite elem_of_cons. split.
        * intros [[|]|(y & ? & ?)]; [by left| |right; eauto]. right. exists x. by rewrite E; auto.
        * intros [|(y & [->|] & Hy)]; [tauto| |right; eauto]. rewrite E in Hy. tauto.
      + destruct (IH acc) as [? Hk]; [done|]. split; [done|]. intros k. rewrite Hk.
        setoid_rewrite elem_of_cons. split; [intros [|(y & ? & ?)]; [by left|right; eauto]|].
        intros [|(y & [->|] & Hy)]; [by left| |right; eauto]. rewrite E in Hy. by apply not_elem_of_nil in Hy. }
  destruct (Hfold f.(rtf_subjects) []) as [Hs Hk]; [constructor|]. split; [done|].
  intros k. subst keys. rewrite Hk. unfold reverse_at. rewrite !andb_true_iff, bs_contains_elem, !bool_decide_eq_true.
  setoid_rewrite He. unfold reverse_key. split.
  - intros [[]%not_elem_of_nil|(x & ? & _ & st & [= -> <- <- <-] & ?)]. done.
  - intros ([[Hsub Hty] Hrel] & Hin). right. exists (tk_subject k). split; [done|].
    split; [done|]. exists store. by rewrite Hty, Hrel.
Qed.

Lemma read_reverse_spec s store f o :
  tables_ok s →
  read_reverse s store f o =
  bounded_rows o.(ro_maximum_results)
    (filter (fun t => reverse_at f t.(rt_key) && reverse_predicate f t = true) (tuple_table s store)).
Proof.
  intros Hok. unfold read_reverse. destruct (reverse_keys_spec s store f Hok) as [Hs Hk].
  by rewrite (collect_index _ _ _ _ _ (reverse_at f) Hok).
Qed.

Lemma count_loop_spec s store f keys : ∀ count,
  (∀ k, k ∈ keys → is_Some (bt_get (store, k) s.(ms_tuples))) →
  (count + len (filter (fun t => object_relation_predicate f t = true)
     (omap (fun k => st_tuple <$> bt_get (store, k) s.(ms_tuples)) keys)) <= USIZE_MAX)%N →
  count_loop s store f keys count =
  Ok (count + len (filter (fun t => object_relation_predicate f t = true)
        (omap (fun k => st_tuple <$> bt_get (store, k) s.(ms_tuples)) keys)))%N.
Proof.
  induction keys as [|k keys IH]; intros count Hkeys; cbn [count_loop].
  - intros _. cbn. by rewrite N.add_0_r.
  - destruct (Hkeys k) as [v Hv]; [by left|]. rewrite Hv.
    assert (omap (fun k => st_tuple <$> bt_get (store, k) s.(ms_tuples)) (k :: keys) =
      st_tuple v :: omap (fun k => st_tuple <$> bt_get (store, k) s.(ms_tuples)) keys) as ->
      by (cbn; by rewrite Hv).
    rewrite filter_cons. assert (Hrest : ∀ k, k ∈ keys → is_Some (bt_get (store, k) s.(ms_tuples)))
      by (intros; apply Hkeys; by right).
    destruct (object_relation_predicate f (st_tuple v)) eqn:Ep;
      [rewrite decide_True by done|rewrite decide_False by congruence]; [|by apply IH].
    unfold saturating_add, len in *. cbn [length]. rewrite Nat2N.inj_succ. intros Hle.
    rewrite N.min_r by lia. rewrite IH by (done || lia). f_equal. lia.
Qed.

Lemma count_object_relation_spec s store f :
  tables_ok s →
  let rows := filter (fun t => key_at f.(orf_object) f.(orf_relation) t.(rt_key)
                               && object_relation_predicate f t = true) (tuple_table s store) in
  (len rows <= USIZE_MAX)%N → count_object_relation s store f = Ok (len rows).
Proof.
  intros Hok rows Hlen. unfold count_object_relation.
  pose proof (forward_elem s store f.(orf_object) f.(orf_relation) _ _ (to_forward _ Hok)) as Hk.
  assert (Hrows : filter (fun t => object_relation_predicate f t = true)
    (omap (fun k => st_tuple <$> bt_get (store, k) s.(ms_tuples))
       (default [] (bt_get (store, (orf_object f, orf_relation f)) (ms_forward s)))) = rows).
  { rewrite (index_rows s store _ (key_at f.(orf_object) f.(orf_relation)) Hok).
    - by rewrite filter_filter_and.
    - eapply index_set_sorted, to_forward, Hok.
    - intros k. rewrite Hk. by rewrite andb_true_r. }
  rewrite count_loop_spec.
  - by rewrite Hrows.
  - by intros k [_ ?]%Hk.
  - by rewrite Hrows.
Qed.
