(* ===== verification/MemoryWrites.v ===== *)
(** * Mutations and the changelog of the in-memory backend

    Change identifiers increase strictly; a mutation either leaves the state
    unchanged or does exactly what was asked, to its store only; the changelog
    is append-only and replays to the tuple table. *)

From S2P Require Import Prelude Ordered Identifier Reference Grammar Storage Memory MemoryTheory.
From Stdlib Require Import ZArith.
From stdpp Require Import sorting.

(** ** Change identifiers *)

Definition allocator_value (a : ChangeIdAllocator) : N :=
  (a.(last_timestamp_ms) * 2 ^ 80 + a.(last_random))%N.

Definition allocator_wf (a : ChangeIdAllocator) : Prop :=
  (a.(last_timestamp_ms) < 2 ^ 48)%N ∧ (a.(last_random) < 2 ^ 80)%N.

(** The map [unique_write_tuples] collects. *)
Abbreviation insert_writes := (foldl (fun m (t : RelationshipTuple) => bt_insert t.(rt_key) t m)).

Section writes.
Context `{WinnowLaws, UlidCodecLaws}.

Lemma next_parts_ok a wall ms random :
  allocator_wf a → next_parts a wall = Ok (ms, random) →
  (random < 2 ^ 80)%N ∧
  (a.(initialized) = true → (allocator_value a < ms * 2 ^ 80 + random)%N).
Proof.
  unfold allocator_wf, allocator_value, next_parts, MAXIMUM_ULID_RANDOM. intros [Hms Hr].
  destruct (initialized a); simpl; [|intros [= <- <-]; split; [done|done]].
  destruct (N.leb_spec wall (last_timestamp_ms a)).
  - destruct (N.eqb_spec (last_random a) (2 ^ 80 - 1)) as [E|E].
    + destruct (checked_add _ _ _) as [n|] eqn:Ec; [|done]. apply checked_add_Some in Ec as [-> _].
      intros [= <- <-]. split; [done|]. intros _. lia.
    + intros [= <- <-]. split; [lia|]. intros _. lia.
  - intros [= <- <-]. split; [done|]. intros _. nia.
Qed.

Lemma next_change_id_ok a timestamp a' id :
  allocator_wf a → next_change_id a timestamp = Ok (a', id) →
  allocator_wf a' ∧ a'.(initialized) = true ∧ id = allocator_value a' ∧
  (a.(initialized) = true → (allocator_value a < id)%N) ∧ (id < ULID_BOUND)%N.
Proof.
  intros Hwf. unfold next_change_id. case_match; [done|]. case_match; [done|].
  intros ([ms random] & Hp & Hm)%result_bind_ok. apply next_parts_ok in Hp as [Hr Hgt]; [|done].
  destruct (N.ltb_spec MAXIMUM_ULID_TIMESTAMP ms) as [|Hms]; [done|].
  apply result_bind_ok in Hm as (id' & Hid%map_err_ok & [= <- <-]).
  assert (Hms' : (ms < 2 ^ 48)%N) by (unfold MAXIMUM_ULID_TIMESTAMP in Hms; lia).
  rewrite ulid_from_parts_value in Hid by done.
  assert (Hb : (ms * 2 ^ 80 + random < ULID_BOUND)%N).
  { unfold ULID_BOUND. change (2 ^ 128)%N with (2 ^ 48 * 2 ^ 80)%N. nia. }
  apply ulid_from_str_ok in Hid as [Hs Hid]. apply (f_equal ulid_parse) in Hs.
  rewrite !ulid_parse_to_string in Hs by done. injection Hs as <-.
  unfold allocator_wf, allocator_value in *. simpl. split_and!; done.
Qed.

(** Before the first allocation nothing is below the next identifier. *)
Definition allocated (a : ChangeIdAllocator) (id : N) : Prop :=
  a.(initialized) = true ∧ (id <= allocator_value a)%N.

Lemma allocate_changes_ok store op timestamp tuples : ∀ a a' changes,
  allocator_wf a → allocate_changes store op timestamp a tuples = Ok (a', changes) →
  allocator_wf a' ∧ tc_tuple <$> changes = tuples ∧
  (∀ c, c ∈ changes → c.(tc_store_id) = store ∧ c.(tc_operation) = op ∧ c.(tc_timestamp) = timestamp ∧
     allocated a' c.(tc_id) ∧ (c.(tc_id) < ULID_BOUND)%N) ∧
  (∀ id, allocated a id → allocated a' id ∧ Forall (fun c => (id < c.(tc_id))%N) changes) ∧
  StronglySorted (fun c d => (c.(tc_id) < d.(tc_id))%N) changes.
Proof.
  induction tuples as [|t tuples IH]; intros a a' changes Hwf; cbn [allocate_changes].
  - intros [= <- <-]. split_and!; [done|done| | |constructor].
    + by intros c []%not_elem_of_nil.
    + intros id Hid. split; [done|constructor].
  - intros ([a1 id1] & E1 & Hm)%result_bind_ok. apply result_bind_ok in Hm as ([a2 cs] & E2 & [= <- <-]).
    apply next_change_id_ok in E1 as (Hwf1 & Hi1 & -> & Hgt & Hb); [|done].
    apply IH in E2 as (Hwf2 & Htup & Hall & Hup & Hsort); [|done].
    destruct (Hup (allocator_value a1)) as [Ha1 Hcs]; [done|].
    split_and!; [done|rewrite fmap_cons; by f_equal| | |].
    + intros c [->|Hc]%elem_of_cons; [done|]. by apply Hall.
    + intros id [Hi Hle]. specialize (Hgt Hi). split; [apply Hup; split; [done|lia]|].
      constructor; [simpl; lia|]. eapply Forall_impl; [exact Hcs|]. simpl. lia.
    + constructor; [done|]. eapply Forall_impl; [exact Hcs|]. done.
Qed.

(** ** Unique inputs *)

Lemma bs_extend_length {K} `{OrdLaws K} (l s : list K) :
  length (bs_extend s l) ≤ length s + length l ∧
  (length (bs_extend s l) = length s + length l → bs_sorted s → NoDup l ∧ ∀ k, k ∈ l → k ∉ s).
Proof.
  revert s. induction l as [|k l IH]; intros s; simpl.
  - split; [lia|]. intros _ _. split; [constructor|]. by intros k []%not_elem_of_nil.
  - destruct (IH (bs_insert k s)) as [Hle Heq]. pose proof (bs_insert_length_le k s) as Hi.
    split; [lia|]. intros Hlen Hs. destruct Heq as [Hnd Hdis]; [lia|by apply bs_sorted_insert|].
    assert (Hk : k ∉ s).
    { intros Hk. assert (bs_insert k s = s) as E.
      { apply bs_ext; [by apply bs_sorted_insert|done|]. intros x. rewrite bs_insert_elem. naive_solver. }
      rewrite E in *. lia. }
    split.
    + constructor; [|done]. intros Hin. apply (Hdis k Hin), bs_insert_elem. by left.
    + intros x [->|Hx]%elem_of_cons; [done|]. intros Hxs. apply (Hdis x Hx), bs_insert_elem. by right.
Qed.

Lemma unique_delete_keys_ok deletes keys :
  unique_delete_keys deletes = Ok keys →
  bs_sorted keys ∧ NoDup deletes ∧ ∀ k, k ∈ keys ↔ k ∈ deletes.
Proof.
  unfold unique_delete_keys. case_match eqn:E; [done|]. intros [= <-].
  apply negb_false_iff, Nat.eqb_eq in E. split_and!.
  - apply bs_sorted_collect.
  - unfold bs_collect in E. apply (bs_extend_length deletes []); [simpl; lia|constructor].
  - apply bs_collect_elem.
Qed.

Lemma bt_insert_length {K V} `{OrdLaws K} (k : K) (v : V) (m : BTreeMap K V) :
  length (bt_insert k v m) ≤ S (length m).
Proof. induction m as [|[k' v'] m IH]; simpl; [done|]. destruct (cmp k k'); simpl; lia. Qed.

Lemma bt_insert_present {K V} `{OrdLaws K} (k : K) (v : V) (m : BTreeMap K V) :
  bt_sorted m → is_Some (bt_get k m) → length (bt_insert k v m) = length m.
Proof.
  induction 1 as [|[k' v'] m Hs IH Hlt]; simpl; [by intros []|].
  destruct (cmp k k') eqn:E; simpl; [done| |].
  - intros [v0 Hv]. apply bt_get_elem in Hv. rewrite Forall_forall in Hlt. specialize (Hlt _ Hv).
    simpl in Hlt. pose proof (cmp_trans _ _ _ E Hlt) as Hc. by rewrite cmp_refl in Hc.
  - intros Hv. by rewrite IH.
Qed.

Lemma insert_writes_spec writes : ∀ m,
  bt_sorted m →
  bt_sorted (insert_writes m writes) ∧
  length (insert_writes m writes) ≤ length m + length writes ∧
  (length (insert_writes m writes) = length m + length writes →
   NoDup (rt_key <$> writes) ∧ (∀ t, t ∈ writes → bt_get t.(rt_key) m = None) ∧
   ∀ k t, bt_get k (insert_writes m writes) = Some t ↔
     bt_get k m = Some t ∨ (t ∈ writes ∧ t.(rt_key) = k)).
Proof.
  induction writes as [|t writes IH]; intros m Hm; simpl.
  - split_and!; [done|lia|]. intros _. split_and!; [constructor|by intros t []%not_elem_of_nil|].
    intros k t. split; [by left|]. intros [|[[]%not_elem_of_nil _]]. done.
  - destruct (IH (bt_insert (rt_key t) t m)) as (Hs & Hle & Heq); [by apply bt_sorted_insert|].
    pose proof (bt_insert_length (rt_key t) t m). split_and!; [done|lia|]. intros Hlen.
    destruct Heq as (Hnd & Hnone & Hget); [lia|].
    assert (Ht : bt_get (rt_key t) m = None).
    { destruct (bt_get (rt_key t) m) eqn:E; [|done].
      rewrite (bt_insert_present (rt_key t) t m) in Hle by eauto. lia. }
    split_and!.
    + constructor; [|done]. intros (t' & E & Ht')%list_elem_of_fmap.
      specialize (Hnone t' Ht'). rewrite <-E, bt_get_insert_eq in Hnone. done.
    + intros t' [->|Ht']%elem_of_cons; [done|]. specialize (Hnone t' Ht').
      destruct (decide (rt_key t' = rt_key t)) as [E|Hne].
      * by rewrite E, bt_get_insert_eq in Hnone.
      * by rewrite bt_get_insert_ne in Hnone.
    + intros k t'. rewrite Hget, elem_of_cons. destruct (decide (k = rt_key t)) as [->|Hne].
      * rewrite bt_get_insert_eq, Ht. split; [naive_solver|].
        intros [[=]|[[->|Ht'] E]]; [by left|]. right. done.
      * rewrite bt_get_insert_ne by done. naive_solver.
Qed.

Lemma unique_write_tuples_ok writes m :
  unique_write_tuples writes = Ok m →
  bt_sorted m ∧ NoDup (rt_key <$> writes) ∧
  ∀ k t, bt_get k m = Some t ↔ t ∈ writes ∧ t.(rt_key) = k.
Proof.
  unfold unique_write_tuples. case_match eqn:E; [done|]. intros [= <-].
  apply negb_false_iff, Nat.eqb_eq in E.
  destruct (insert_writes_spec writes []) as (Hs & _ & Heq); [constructor|].
  destruct Heq as (Hnd & _ & Hget); [done|]. split_and!; [done|done|]. intros k t. rewrite Hget. naive_solver.
Qed.

(** ** Committing *)

(** The components of the state other than the tuples and their indexes. *)
Definition same_rest (s' s : MemoryState) : Prop :=
  s'.(ms_changes) = s.(ms_changes) ∧ s'.(ms_change_ids) = s.(ms_change_ids) ∧
  s'.(ms_stores) = s.(ms_stores) ∧ s'.(ms_models) = s.(ms_models) ∧
  s'.(ms_model_ids) = s.(ms_model_ids) ∧ s'.(ms_assertions) = s.(ms_assertions) ∧
  s'.(ms_limits) = s.(ms_limits).

Lemma remove_all_spec store tuples : ∀ s,
  tables_ok s →
  let s' := foldl (fun s t => remove_tuple store s t.(rt_key)) s tuples in
  tables_ok s' ∧ same_rest s' s ∧
  ∀ st k, bt_get (st, k) s'.(ms_tuples) =
    if bool_decide (st = store ∧ k ∈ rt_key <$> tuples) then None else bt_get (st, k) s.(ms_tuples).
Proof.
  induction tuples as [|t tuples IH]; intros s Hok; cbn [foldl].
  - split_and!; try done. intros st k. rewrite bool_decide_false; [done|].
    by intros [_ []%not_elem_of_nil].
  - destruct (IH (remove_tuple store s (rt_key t))) as (Hok' & Hrest & Hget); [by apply remove_tuple_ok|].
    split; [done|]. split; [exact Hrest|]. intros st k'. rewrite Hget, fmap_cons.
    cbn [remove_tuple ms_tuples set_tuples]. destruct (decide ((st, k') = (store, rt_key t))) as [[= -> ->]|Hne].
    + rewrite bt_get_remove_eq, (bool_decide_true (store = store ∧ rt_key t ∈ rt_key t :: _))
        by (split; [done|by left]). by case_match.
    + rewrite bt_get_remove_ne by done. erewrite bool_decide_ext; [done|]. rewrite elem_of_cons. naive_solver.
Qed.

Lemma insert_all_spec store timestamp tuples : ∀ s,
  tables_ok s → NoDup (rt_key <$> tuples) →
  let s' := foldl (fun s t => insert_tuple store s (mkStoredTuple t timestamp)) s tuples in
  tables_ok s' ∧ same_rest s' s ∧
  (∀ t, t ∈ tuples → bt_get (store, t.(rt_key)) s'.(ms_tuples) = Some (mkStoredTuple t timestamp)) ∧
  (∀ st k, (st ≠ store ∨ k ∉ rt_key <$> tuples) →
     bt_get (st, k) s'.(ms_tuples) = bt_get (st, k) s.(ms_tuples)).
Proof.
  induction tuples as [|t tuples IH]; intros s Hok Hnd; cbn [foldl].
  - split_and!; try done. by intros t []%not_elem_of_nil.
  - rewrite fmap_cons in *. apply NoDup_cons in Hnd as [Hnin Hnd].
    set (s1 := insert_tuple store s (mkStoredTuple t timestamp)).
    destruct (IH s1) as (Hok' & Hrest & Hin & Hout); [by apply insert_tuple_ok|done|].
    split; [done|]. split; [exact Hrest|]. split.
    + intros t' [->|Ht']%elem_of_cons; [|by apply Hin]. rewrite Hout by (by right).
      unfold s1. cbn [insert_tuple ms_tuples set_tuples]. apply bt_get_insert_eq.
    + intros st k Hne. rewrite elem_of_cons in Hne. rewrite Hout by naive_solver.
      unfold s1. cbn [insert_tuple ms_tuples set_tuples st_tuple]. apply bt_get_insert_ne. naive_solver.
Qed.

(** ** Preparation *)

(** What a mutation may delete and write in the state [s]. *)
Record request_ok (s : MemoryState) (store : StoreId) (deletes : list TupleKey)
    (writes : list RelationshipTuple) (options : TupleWriteOptions) : Prop := {
  rq_limit : (saturating_add USIZE_MAX (len deletes) (len writes) <= s.(ms_limits).(write_tuples_limit))%N;
  rq_deletes : NoDup deletes;
  rq_writes : NoDup (rt_key <$> writes);
  rq_disjoint : ∀ t, t ∈ writes → t.(rt_key) ∉ deletes;
  rq_missing : options.(on_missing_delete) = OnConflictError →
    ∀ k, k ∈ deletes → is_Some (bt_get (store, k) s.(ms_tuples));
  rq_duplicate : options.(on_duplicate_write) = OnConflictError →
    ∀ t, t ∈ writes → bt_get (store, t.(rt_key)) s.(ms_tuples) = None;
  rq_same : ∀ t v, t ∈ writes → bt_get (store, t.(rt_key)) s.(ms_tuples) = Some v → v.(st_tuple) = t;
}.

Lemma tuple_exists_iff s store k : tuple_exists s store k = true ↔ is_Some (bt_get (store, k) s.(ms_tuples)).
Proof. unfold tuple_exists, bt_contains_key. destruct (bt_get _ _); simpl; split; [eauto|done|done|by intros []]. Qed.

Lemma tuple_exists_false s store k : tuple_exists s store k = false ↔ bt_get (store, k) s.(ms_tuples) = None.
Proof. unfold tuple_exists, bt_contains_key. by destruct (bt_get _ _). Qed.

Lemma persisted_conflicts_ok s store deletes writes requested options :
  validate_persisted_conflicts s store deletes (rt_key <$> writes) requested options = Ok () →
  (∀ t, t ∈ writes → bt_get t.(rt_key) requested = Some t) →
  (options.(on_missing_delete) = OnConflictError →
     ∀ k, k ∈ deletes → is_Some (bt_get (store, k) s.(ms_tuples))) ∧
  (options.(on_duplicate_write) = OnConflictError →
     ∀ t, t ∈ writes → bt_get (store, t.(rt_key)) s.(ms_tuples) = None) ∧
  (∀ t v, t ∈ writes → bt_get (store, t.(rt_key)) s.(ms_tuples) = Some v → v.(st_tuple) = t).
Proof.
  unfold validate_persisted_conflicts. intros Hv Hreq. case_match eqn:Emissing; [done|]. split.
  { intros Em k Hk. rewrite Em in Emissing. rewrite find_first_None in Emissing.
    apply tuple_exists_iff, negb_false_iff. by apply Emissing. }
  assert (Hkey : ∀ t, t ∈ writes → rt_key t ∈ rt_key <$> writes) by (intros; by apply list_elem_of_fmap_2).
  destruct (on_duplicate_write options); (case_match eqn:Edup; [done|]); rewrite find_first_None in Edup.
  - assert (Hnone : ∀ t, t ∈ writes → bt_get (store, rt_key t) (ms_tuples s) = None)
      by (intros t Ht; apply tuple_exists_false; by auto).
    split; [done|]. intros t v Ht Hget. by rewrite Hnone in Hget.
  - split; [done|]. intros t v Ht Hget. specialize (Edup _ (Hkey t Ht)). simpl in Edup.
    rewrite Hget, Hreq in Edup by done. by apply negb_false_iff, bool_decide_eq_true in Edup.
Qed.

(** What the preparation of a mutation has found and allocated. *)
Record prepared_ok (s : MemoryState) (store : StoreId) (deletes : list TupleKey)
    (writes : list RelationshipTuple) (p : Prepared) (deleted written : list TupleChange) : Prop := {
  po_deletes : ∀ t, t ∈ p.(pr_deletes) ↔
    ∃ k v, k ∈ deletes ∧ bt_get (store, k) s.(ms_tuples) = Some v ∧ v.(st_tuple) = t;
  po_writes : ∀ t, t ∈ p.(pr_writes) ↔ t ∈ writes ∧ bt_get (store, t.(rt_key)) s.(ms_tuples) = None;
  po_nodup : NoDup (rt_key <$> p.(pr_writes));
  po_changes : p.(pr_changes) = deleted ++ written;
  po_deleted : tc_tuple <$> deleted = p.(pr_deletes) ∧ Forall (fun c => c.(tc_operation) = ChDelete) deleted;
  po_written : tc_tuple <$> written = p.(pr_writes) ∧ Forall (fun c => c.(tc_operation) = ChWrite) written;
  po_allocator : allocator_wf p.(pr_allocator);
  po_change : ∀ c, c ∈ p.(pr_changes) → c.(tc_store_id) = store ∧ c.(tc_timestamp) = p.(pr_timestamp) ∧
    allocated p.(pr_allocator) c.(tc_id) ∧ (c.(tc_id) < ULID_BOUND)%N;
  po_fresh : ∀ id, allocated s.(ms_change_ids) id →
    allocated p.(pr_allocator) id ∧ Forall (fun c => (id < c.(tc_id))%N) p.(pr_changes);
  po_sorted : StronglySorted (fun c d => (c.(tc_id) < d.(tc_id))%N) p.(pr_changes);
}.

Lemma prepared_deletes_elem s store (keys : list TupleKey) (t : RelationshipTuple) :
  t ∈ omap (fun k => st_tuple <$> bt_get (store, k) s.(ms_tuples)) keys ↔
  ∃ k v, k ∈ keys ∧ bt_get (store, k) s.(ms_tuples) = Some v ∧ v.(st_tuple) = t.
Proof.
  rewrite list_elem_of_omap. split.
  - intros (k & Hk & (v & Hv & ->)%fmap_Some). eauto.
  - intros (k & v & Hk & Hv & <-). exists k. split; [done|]. cbv beta. by rewrite Hv.
Qed.

Lemma prepared_writes_spec s store (requested : BTreeMap TupleKey RelationshipTuple) (writes : list RelationshipTuple) :
  bt_sorted requested →
  (∀ k t, bt_get k requested = Some t ↔ t ∈ writes ∧ t.(rt_key) = k) →
  let prepared := snd <$> filter (fun '(k, _) => tuple_exists s store k = false) requested in
  (∀ t, t ∈ prepared ↔ t ∈ writes ∧ bt_get (store, t.(rt_key)) s.(ms_tuples) = None) ∧
  NoDup (rt_key <$> prepared).
Proof.
  intros Hs Hreq prepared. split.
  - intros t. unfold prepared. rewrite list_elem_of_fmap. split.
    + intros ([k t'] & -> & [Hex Hin]%list_elem_of_filter). apply bt_sorted_elem_get, Hreq in Hin as [Ht <-]; [|done].
      split; [done|]. by apply tuple_exists_false.
    + intros [Ht Hnone]. exists (rt_key t, t). split; [done|]. apply list_elem_of_filter.
      split; [by apply tuple_exists_false|]. by apply bt_get_elem, Hreq.
  - assert (E : rt_key <$> prepared = (filter (fun '(k, _) => tuple_exists s store k = false) requested).*1).
    { unfold prepared. rewrite <-list_fmap_compose. apply list_fmap_ext. intros i [k t] Hi.
      apply list_elem_of_lookup_2, list_elem_of_filter in Hi as [_ Hi].
      apply bt_sorted_elem_get, Hreq in Hi as [_ <-]; done. }
    rewrite E. apply bs_sorted_NoDup, sorted_fst. by apply sorted_filter.
Qed.

Lemma allocations_ok s store timestamp a1 a2 deletes writes deleted written :
  allocator_wf s.(ms_change_ids) →
  allocate_changes store ChDelete timestamp s.(ms_change_ids) deletes = Ok (a1, deleted) →
  allocate_changes store ChWrite timestamp a1 writes = Ok (a2, written) →
  tc_tuple <$> deleted = deletes ∧ Forall (fun c => c.(tc_operation) = ChDelete) deleted ∧
  tc_tuple <$> written = writes ∧ Forall (fun c => c.(tc_operation) = ChWrite) written ∧
  allocator_wf a2 ∧
  (∀ c, c ∈ deleted ++ written → c.(tc_store_id) = store ∧ c.(tc_timestamp) = timestamp ∧
     allocated a2 c.(tc_id) ∧ (c.(tc_id) < ULID_BOUND)%N) ∧
  (∀ id, allocated s.(ms_change_ids) id →
     allocated a2 id ∧ Forall (fun c => (id < c.(tc_id))%N) (deleted ++ written)) ∧
  StronglySorted (fun c d => (c.(tc_id) < d.(tc_id))%N) (deleted ++ written).
Proof.
  intros Hwf Hd Hw. apply allocate_changes_ok in Hd as (Hwf1 & Hdt & Hdc & Hdf & Hds); [|done].
  apply allocate_changes_ok in Hw as (Hwf2 & Hwt & Hwc & Hwfr & Hws); [|done].
  split_and!; [done|apply Forall_forall; intros c Hc; by apply Hdc|done
              |apply Forall_forall; intros c Hc; by apply Hwc|done| | |].
  - intros c [Hc|Hc]%elem_of_app.
    + destruct (Hdc c Hc) as (? & ? & ? & Ha & ?). split_and!; try done. by apply Hwfr.
    + destruct (Hwc c Hc) as (? & ? & ? & ? & ?). done.
  - intros id Hid. destruct (Hdf id Hid) as [Hid1 Hfd]. destruct (Hwfr id Hid1) as [Hid2 Hfw].
    split; [done|]. by apply Forall_app.
  - apply StronglySorted_app. split_and!; [|done|done]. intros c d Hc Hd.
    destruct (Hdc c Hc) as (_ & _ & _ & Ha & _). destruct (Hwfr _ Ha) as [_ Hf].
    rewrite Forall_forall in Hf. by apply Hf.
Qed.

Lemma prepare_write_ok s w store deletes writes options prepared :
  allocator_wf s.(ms_change_ids) →
  prepare_write s w store deletes writes options = Ok prepared →
  request_ok s store deletes writes options ∧
  match prepared with
  | None =>
      (∀ k, k ∈ deletes → bt_get (store, k) s.(ms_tuples) = None) ∧
      (∀ t, t ∈ writes → is_Some (bt_get (store, t.(rt_key)) s.(ms_tuples)))
  | Some p => w.(mw_now) = Ok p.(pr_timestamp) ∧
      ∃ deleted written, prepared_ok s store deletes writes p deleted written
  end.
Proof.
  intros Hwf. unfold prepare_write. destruct (N.ltb_spec (write_tuples_limit (ms_limits s))
    (saturating_add USIZE_MAX (len deletes) (len writes))) as [|Hlimit]; [done|].
  intros (keys & (Hks & Hnd & Hkeys)%unique_delete_keys_ok & Hm)%result_bind_ok.
  apply result_bind_ok in Hm as (requested & (Hrs & Hwnd & Hreq)%unique_write_tuples_ok & Hm).
  case_match eqn:Edis; [done|].
  apply result_bind_ok in Hm as ([] & _ & Hm). apply result_bind_ok in Hm as ([] & Hconf & Hm).
  apply persisted_conflicts_ok in Hconf as (Hmiss & Hdup & Hsame); [|by intros t Ht; apply Hreq].
  split.
  { constructor; try done. intros t Ht Hd. apply Hkeys in Hd.
    apply not_true_iff_false in Edis. apply Edis, existsb_exists. exists (rt_key t).
    split; [by apply list_elem_of_In|]. unfold bt_contains_key. by rewrite (proj2 (Hreq (rt_key t) t)). }
  destruct (prepared_writes_spec s store requested writes Hrs Hreq) as [Hpw Hpnd].
  pose proof (prepared_deletes_elem s store keys) as Hpd. setoid_rewrite Hkeys in Hpd.
  set (dels := omap _ keys) in *. set (wrs := snd <$> filter _ requested) in *. clearbody dels wrs.
  apply result_bind_ok in Hm as ([] & _ & Hm). apply result_bind_ok in Hm as ([] & _ & Hm).
  assert (Hm' : (dels = [] ∧ wrs = [] ∧ prepared = None) ∨
     (timestamp ← mw_now w;
      '(a, deleted) ← allocate_changes store ChDelete timestamp (ms_change_ids s) dels;
      '(a, written) ← allocate_changes store ChWrite timestamp a wrs;
      _ ← mutation_gate w FaultChangesPrepared;
      Ok (Some (mkPrepared dels wrs timestamp (deleted ++ written) a))) = Ok prepared).
  { destruct dels, wrs; [left; by simplify_eq|by right..]. }
  clear Hm. destruct Hm' as [(-> & -> & ->)|Hm].
  { split.
    - intros k Hk. destruct (bt_get (store, k) (ms_tuples s)) as [v|] eqn:Ev; [|done].
      destruct (not_elem_of_nil (st_tuple v)). apply Hpd. eauto.
    - intros t Ht. destruct (bt_get (store, rt_key t) (ms_tuples s)) as [v|] eqn:Ev; [eauto|].
      destruct (not_elem_of_nil t). by apply Hpw. }
  apply result_bind_ok in Hm as (timestamp & Hnow & Hm). apply result_bind_ok in Hm as ([a1 deleted] & Hd & Hm).
  apply result_bind_ok in Hm as ([a2 written] & Hw & Hm). apply result_bind_ok in Hm as ([] & _ & [= <-]).
  destruct (allocations_ok _ _ _ _ _ _ _ _ _ Hwf Hd Hw) as (? & ? & ? & ? & ? & ? & ? & ?).
  split; [done|]. exists deleted, written. by constructor.
Qed.

(** ** The effect of a mutation *)

(** The table a mutation asks for: deleted keys are absent, stored tuples are
    kept, and the other written tuples are stored with the transaction time. *)
Definition write_effect (timestamp : SystemTime) (deletes : list TupleKey)
    (writes : list RelationshipTuple) (old : TupleKey → option StoredTuple) (k : TupleKey) :
    option StoredTuple :=
  if bool_decide (k ∈ deletes) then None
  else match old k with
       | Some v => Some v
       | None => (fun t => mkStoredTuple t timestamp) <$>
                   find_first (fun t => bool_decide (t.(rt_key) = k)) writes
       end.

Lemma find_key_ok (writes : list RelationshipTuple) t :
  NoDup (rt_key <$> writes) → t ∈ writes →
  find_first (fun t' => bool_decide (t'.(rt_key) = t.(rt_key))) writes = Some t.
Proof.
  intros Hnd Ht. destruct (find_first _ writes) as [t'|] eqn:E.
  - apply find_first_Some in E as [Ht' Ek%bool_decide_eq_true]. f_equal.
    apply list_elem_of_lookup in Ht as [i Hi]. apply list_elem_of_lookup in Ht' as [j Hj].
    assert (i = j) as ->; [|congruence]. eapply (NoDup_lookup (rt_key <$> writes)); [done|..];
      rewrite list_lookup_fmap; [by rewrite Hi|by rewrite Hj, <-Ek].
  - rewrite find_first_None in E. specialize (E t Ht). by apply bool_decide_eq_false in E.
Qed.

Lemma find_key_none (writes : list RelationshipTuple) k :
  k ∉ rt_key <$> writes → find_first (fun t => bool_decide (t.(rt_key) = k)) writes = None.
Proof.
  intros Hk. apply find_first_None. intros t Ht. apply bool_decide_eq_false. intros <-.
  by apply Hk, list_elem_of_fmap_2.
Qed.

Lemma write_effect_none s store timestamp deletes writes k :
  (∀ k, k ∈ deletes → bt_get (store, k) s.(ms_tuples) = None) →
  (∀ t, t ∈ writes → is_Some (bt_get (store, t.(rt_key)) s.(ms_tuples))) →
  bt_get (store, k) s.(ms_tuples) =
  write_effect timestamp deletes writes (fun k => bt_get (store, k) s.(ms_tuples)) k.
Proof.
  intros Hd Hw. unfold write_effect. case_bool_decide; [by apply Hd|].
  destruct (bt_get (store, k) (ms_tuples s)) eqn:E; [done|]. rewrite find_key_none; [done|].
  intros (t & -> & Ht)%list_elem_of_fmap. destruct (Hw t Ht). congruence.
Qed.

Lemma tables_ok_set_changes s changes allocator : tables_ok s → tables_ok (set_changes s changes allocator).
Proof. intros []. by constructor. Qed.

Lemma commit_write_tuples s store deletes writes options p deleted written :
  tables_ok s → request_ok s store deletes writes options →
  prepared_ok s store deletes writes p deleted written →
  let s' := commit_write s store p in
  tables_ok s' ∧
  ∀ st k, bt_get (st, k) s'.(ms_tuples) =
    if (st =? store)%N
    then write_effect p.(pr_timestamp) deletes writes (fun k => bt_get (store, k) s.(ms_tuples)) k
    else bt_get (st, k) s.(ms_tuples).
Proof.
  intros Hok Hrq Hpo. unfold commit_write.
  destruct (remove_all_spec store (pr_deletes p) s Hok) as (Hok1 & _ & Hget1).
  set (s1 := foldl _ s (pr_deletes p)) in *.
  destruct (insert_all_spec store (pr_timestamp p) (pr_writes p) s1 Hok1) as (Hok2 & _ & Hin & Hout);
    [by eapply po_nodup|]. set (s2 := foldl _ s1 (pr_writes p)) in *.
  split; [by apply tables_ok_set_changes|]. intros st k. cbn [ms_tuples set_changes].
  destruct (N.eqb_spec st store) as [->|Hne]; cycle 1.
  { rewrite Hout, Hget1, bool_decide_false by naive_solver. done. }
  unfold write_effect. destruct (decide (k ∈ rt_key <$> pr_writes p)) as [Hk|Hk].
  - apply list_elem_of_fmap in Hk as (t & -> & Ht). rewrite (Hin t Ht).
    apply (po_writes _ _ _ _ _ _ _ Hpo) in Ht as [Ht Hnone].
    rewrite bool_decide_false by (by eapply rq_disjoint). rewrite Hnone.
    by rewrite (find_key_ok writes t (rq_writes _ _ _ _ _ Hrq) Ht).
  - rewrite Hout by (by right). rewrite Hget1.
    destruct (bt_get (store, k) (ms_tuples s)) as [v|] eqn:Ev.
    + erewrite (bool_decide_ext _ (k ∈ deletes)); [done|]. rewrite list_elem_of_fmap.
      setoid_rewrite (po_deletes _ _ _ _ _ _ _ Hpo). split.
      * intros (_ & t & -> & k' & v' & Hk' & Hv' & <-). by rewrite (to_key _ Hok _ _ _ Hv').
      * intros Hd. split; [done|]. exists (st_tuple v). rewrite (to_key _ Hok _ _ _ Ev). eauto 10.
    + rewrite find_key_none; [by repeat case_match|].
      intros (t & -> & Ht)%list_elem_of_fmap. apply Hk, list_elem_of_fmap_2.
      by apply (po_writes _ _ _ _ _ _ _ Hpo).
Qed.

(** ** The changelog *)

(** The changes of a store in the order of their identifiers. *)
Definition log_of (s : MemoryState) (store : StoreId) : list TupleChange :=
  snd <$> entries_of store s.(ms_changes).

Definition apply_change (k : TupleKey) (current : option RelationshipTuple) (c : TupleChange) :
    option RelationshipTuple :=
  if bool_decide (c.(tc_tuple).(rt_key) = k) then
    match c.(tc_operation) with
    | ChWrite => Some c.(tc_tuple)
    | ChDelete => None
    end
  else current.

(** The tuple a changelog leaves at a key. *)
Definition replay (log : list TupleChange) (k : TupleKey) : option RelationshipTuple :=
  foldl (apply_change k) None log.

Lemma replay_skip k log current :
  k ∉ rt_key <$> (tc_tuple <$> log) → foldl (apply_change k) current log = current.
Proof.
  revert current. induction log as [|c log IH]; intros current Hk; [done|].
  rewrite !fmap_cons, not_elem_of_cons in Hk. destruct Hk as [Hne Hk]. cbn [foldl].
  rewrite IH by done. unfold apply_change. by rewrite bool_decide_false.
Qed.

Lemma replay_deleted k log current :
  Forall (fun c => c.(tc_operation) = ChDelete) log → k ∈ rt_key <$> (tc_tuple <$> log) →
  foldl (apply_change k) current log = None.
Proof.
  intros Hop. revert current. induction Hop as [|c log Hc Hop IH]; intros current Hk.
  { by apply not_elem_of_nil in Hk. }
  cbn [foldl]. destruct (decide (k ∈ rt_key <$> (tc_tuple <$> log))) as [Hin|Hnin]; [by apply IH|].
  rewrite !fmap_cons, elem_of_cons in Hk. rewrite replay_skip by done. unfold apply_change.
  rewrite bool_decide_true by naive_solver. by rewrite Hc.
Qed.

Lemma replay_written t log current :
  Forall (fun c => c.(tc_operation) = ChWrite) log → NoDup (rt_key <$> (tc_tuple <$> log)) →
  t ∈ tc_tuple <$> log → foldl (apply_change t.(rt_key)) current log = Some t.
Proof.
  intros Hop. revert current. induction Hop as [|c log Hc Hop IH]; intros current Hnd Ht.
  { by apply not_elem_of_nil in Ht. }
  rewrite !fmap_cons in *. apply NoDup_cons in Hnd as [Hnin Hnd]. cbn [foldl].
  apply elem_of_cons in Ht as [->|Ht]; [|by apply IH].
  rewrite replay_skip by done. unfold apply_change. by rewrite bool_decide_true, Hc.
Qed.

Lemma entries_append {V} store (m : BTreeMap (StoreId * ChangeId) V) id v :
  bt_sorted m → (∀ id' v', bt_get (store, id') m = Some v' → (id' < id)%N) →
  entries_of store (bt_insert (store, id) v m) = entries_of store m ++ [(id, v)].
Proof.
  intros Hs Hlt.
  assert (Happ : bt_sorted (entries_of store m ++ [(id, v)])).
  { apply StronglySorted_app. split_and!; [|by apply entries_of_sorted|repeat constructor].
    intros [id' v'] y Hin ->%list_elem_of_singleton. simpl. apply N.compare_lt_iff.
    apply entries_of_elem, bt_sorted_elem_get, Hlt in Hin; done. }
  apply bt_ext; [by apply entries_of_sorted, bt_sorted_insert|done|].
  intros id'. rewrite entries_of_get by (by apply bt_sorted_insert).
  apply option_eq. intros v'. rewrite (bt_get_elem_iff id' v' (_ ++ _)) by done.
  rewrite elem_of_app, entries_of_elem, list_elem_of_singleton, pair_eq.
  destruct (decide (id' = id)) as [->|Hne].
  - rewrite bt_get_insert_eq. split; [naive_solver|]. intros [Hin|[_ ->]]; [|done].
    apply bt_sorted_elem_get, Hlt in Hin; [lia|done].
  - rewrite bt_get_insert_ne by congruence. rewrite <-bt_get_elem_iff by done. naive_solver.
Qed.

Lemma entries_insert_other {K V} `{OrdLaws K} store st (m : BTreeMap (StoreId * K) V) k v :
  bt_sorted m → st ≠ store → entries_of st (bt_insert (store, k) v m) = entries_of st m.
Proof.
  intros Hs Hne. apply bt_ext; [by apply entries_of_sorted, bt_sorted_insert|by apply entries_of_sorted|].
  intros k'. rewrite entries_of_get by (by apply bt_sorted_insert). rewrite entries_of_get by done.
  apply bt_get_insert_ne. congruence.
Qed.

Lemma append_changes store changes : ∀ (m : BTreeMap (StoreId * ChangeId) TupleChange),
  bt_sorted m →
  (∀ id c, bt_get (store, id) m = Some c → Forall (fun d => (id < d.(tc_id))%N) changes) →
  StronglySorted (fun c d => (c.(tc_id) < d.(tc_id))%N) changes →
  let m' := foldl (fun m c => bt_insert (store, c.(tc_id)) c m) m changes in
  bt_sorted m' ∧
  snd <$> entries_of store m' = (snd <$> entries_of store m) ++ changes ∧
  (∀ st, st ≠ store → entries_of st m' = entries_of st m) ∧
  (∀ st id c, bt_get (st, id) m' = Some c →
     bt_get (st, id) m = Some c ∨ (st = store ∧ c ∈ changes ∧ c.(tc_id) = id)).
Proof.
  induction changes as [|c changes IH]; intros m Hs Hlt Hsort; cbn [foldl].
  { split_and!; [done|by rewrite app_nil_r|done|by left]. }
  apply StronglySorted_inv in Hsort as [Hsort Hall].
  assert (Hnew : ∀ st id d, bt_get (st, id) (bt_insert (store, tc_id c) c m) = Some d →
    bt_get (st, id) m = Some d ∨ (st = store ∧ d = c ∧ tc_id c = id)).
  { intros st id d. destruct (decide ((st, id) = (store, tc_id c))) as [[= -> ->]|Hne].
    - rewrite bt_get_insert_eq. intros [= <-]. by right.
    - rewrite bt_get_insert_ne by done. by left. }
  destruct (IH (bt_insert (store, tc_id c) c m)) as (Hs' & Hlog & Hother & Hget); [by apply bt_sorted_insert| |done|].
  { intros id d [Hd|(_ & -> & <-)]%Hnew; [|done]. by apply Hlt, Forall_cons in Hd as [_ ?]. }
  split_and!; [done| | |].
  - rewrite Hlog, entries_append, fmap_app, <-app_assoc; [done|done|].
    intros id d Hd. by apply Hlt, Forall_cons in Hd as [? _].
  - intros st Hne. rewrite Hother by done. by apply entries_insert_other.
  - intros st id d [Hd|(-> & Hd & <-)]%Hget.
    + apply Hnew in Hd as [Hd|(-> & -> & <-)]; [by left|]. right. split_and!; [done|by left|done].
    + right. split_and!; [done|by right|done].
Qed.

(** Replaying the changes of a mutation has its effect on every key. *)
Lemma replay_changes s store p deletes writes options deleted written k :
  tables_ok s → request_ok s store deletes writes options →
  prepared_ok s store deletes writes p deleted written →
  foldl (apply_change k) (st_tuple <$> bt_get (store, k) s.(ms_tuples)) p.(pr_changes) =
  st_tuple <$> write_effect p.(pr_timestamp) deletes writes (fun k => bt_get (store, k) s.(ms_tuples)) k.
Proof.
  intros Hok Hrq []. rewrite po_changes0, foldl_app.
  destruct po_deleted0 as [Edel Hdel], po_written0 as [Ewr Hwr]. unfold write_effect.
  destruct (decide (k ∈ rt_key <$> pr_writes p)) as [Hk|Hk].
  { apply list_elem_of_fmap in Hk as (t & -> & Ht). rewrite <-Ewr in Ht, po_nodup0.
    rewrite replay_written by done. rewrite Ewr in Ht. apply po_writes0 in Ht as [Ht Hnone].
    rewrite bool_decide_false by (by eapply rq_disjoint). rewrite Hnone.
    by rewrite (find_key_ok writes t (rq_writes _ _ _ _ _ Hrq) Ht). }
  rewrite (replay_skip k written) by (by rewrite Ewr).
  destruct (bt_get (store, k) (ms_tuples s)) as [v|] eqn:Ev.
  - pose proof (to_key _ Hok _ _ _ Ev) as Ekey. case_bool_decide as Hd.
    + apply replay_deleted; [done|]. rewrite Edel, <-Ekey. apply list_elem_of_fmap_2, po_deletes0. eauto.
    + apply replay_skip. rewrite Edel. intros (t & -> & Ht)%list_elem_of_fmap.
      apply po_deletes0 in Ht as (k' & v' & Hk' & Hv' & <-). by rewrite (to_key _ Hok _ _ _ Hv') in Hd.
  - rewrite replay_skip.
    + rewrite find_key_none; [by case_match|]. intros (t & -> & Ht)%list_elem_of_fmap.
      by apply Hk, list_elem_of_fmap_2, po_writes0.
    + rewrite Edel. intros (t & -> & Ht)%list_elem_of_fmap.
      apply po_deletes0 in Ht as (k' & v' & Hk' & Hv' & <-).
      rewrite (to_key _ Hok _ _ _ Hv') in Ev. congruence.
Qed.

End writes.

(** ** Valid mutations succeed

    The in-memory backend refuses a mutation only for a reason: when the
    request is valid, no fault is injected, the context is live and the
    change-id space is not exhausted, the mutation succeeds. *)

Section success.
Context `{WinnowLaws, UlidCodecLaws}.

(** ** Identifiers *)

Definition wall_ms (timestamp : SystemTime) : N := Z.to_N (timestamp / 1000000).

(** Room for [n] more identifiers at a time. *)
Definition allocator_room (a : ChangeIdAllocator) (timestamp : SystemTime) (n : nat) : Prop :=
  (0 <= timestamp)%Z ∧
  (N.max (allocator_value a) (wall_ms timestamp * 2 ^ 80) + N.of_nat n < ULID_BOUND)%N.

Lemma next_parts_room a wall :
  allocator_wf a → (N.max (allocator_value a) (wall * 2 ^ 80) + 1 < ULID_BOUND)%N →
  ∃ ms random, next_parts a wall = Ok (ms, random) ∧ (ms < 2 ^ 48)%N ∧ (random < 2 ^ 80)%N ∧
    (ms * 2 ^ 80 + random <= N.max (allocator_value a) (wall * 2 ^ 80) + 1)%N.
Proof.
  unfold allocator_wf, allocator_value, next_parts, MAXIMUM_ULID_RANDOM, ULID_BOUND.
  change (2 ^ 128)%N with (2 ^ 48 * 2 ^ 80)%N. intros [Hms Hr] Hroom.
  destruct (initialized a && (wall <=? last_timestamp_ms a)%N) eqn:Ei; [|exists wall, 0%N; split_and!; [done|nia|done|nia]].
  apply andb_true_iff in Ei as [_ Hle%N.leb_le].
  destruct (N.eqb_spec (last_random a) (2 ^ 80 - 1)) as [E|E].
  - assert (Hadd : checked_add U64_MAX (last_timestamp_ms a) 1 = Some (last_timestamp_ms a + 1)%N).
    { apply checked_add_Some. split; [done|]. unfold U64_MAX. lia. }
    rewrite Hadd. simpl. eexists _, _. split; [done|]. split_and!; [nia|done|nia].
  - eexists _, _. split; [done|]. split_and!; [done|lia|lia].
Qed.

Lemma next_change_id_room a timestamp n :
  allocator_wf a → allocator_room a timestamp (S n) →
  ∃ a' id, next_change_id a timestamp = Ok (a', id) ∧ allocator_wf a' ∧ allocator_room a' timestamp n.
Proof.
  intros Hwf [Ht Hroom]. unfold next_change_id. destruct (Z.ltb_spec timestamp 0); [lia|].
  fold (wall_ms timestamp). destruct (next_parts_room a (wall_ms timestamp) Hwf) as (ms & random & Hp & Hms & Hr & Hle);
    [lia|].
  destruct (N.ltb_spec U64_MAX (wall_ms timestamp)) as [Hbig|_].
  { exfalso. unfold U64_MAX, ULID_BOUND in *. change (2 ^ 128)%N with (2 ^ 48 * 2 ^ 80)%N in Hroom. lia. }
  rewrite Hp. simpl. unfold MAXIMUM_ULID_TIMESTAMP. destruct (N.ltb_spec (2 ^ 48 - 1) ms); [lia|].
  rewrite ulid_from_parts_value by done.
  assert (Hb : (ms * 2 ^ 80 + random < ULID_BOUND)%N) by lia.
  rewrite (proj2 (ulid_from_str_ok "change_id" _ (ms * 2 ^ 80 + random)%N)) by done. simpl.
  eexists _, _. split; [done|]. split; [done|]. split; [done|]. unfold allocator_value at 1. cbn [last_timestamp_ms last_random].
  lia.
Qed.

Lemma allocate_changes_room store op timestamp tuples : ∀ a n,
  allocator_wf a → allocator_room a timestamp (length tuples + n) →
  ∃ a' changes, allocate_changes store op timestamp a tuples = Ok (a', changes) ∧
    allocator_wf a' ∧ allocator_room a' timestamp n.
Proof.
  induction tuples as [|t tuples IH]; intros a n Hwf Hroom; cbn [allocate_changes].
  - by exists a, [].
  - destruct (next_change_id_room a timestamp (length tuples + n) Hwf Hroom) as (a1 & id & E1 & Hwf1 & Hroom1).
    destruct (IH a1 n Hwf1 Hroom1) as (a2 & changes & E2 & Hwf2 & Hroom2).
    rewrite E1. simpl. rewrite E2. simpl. eauto.
Qed.

(** ** Inputs *)

Lemma bs_extend_new {K} `{OrdLaws K} (l s : list K) :
  NoDup l → (∀ k, k ∈ l → k ∉ s) → length (bs_extend s l) = length s + length l.
Proof.
  intros Hnd. revert s. induction Hnd as [|k l Hk Hnd IH]; intros s Hdis; simpl; [lia|].
  fold (bs_extend (bs_insert k s) l). rewrite IH.
  - rewrite bs_insert_length_new by (apply Hdis; by left). lia.
  - intros x Hx [->|Hxs]%bs_insert_elem; [done|]. apply (Hdis x); [by right|done].
Qed.

Lemma bt_insert_new {K V} `{OrdLaws K} (k : K) (v : V) (m : BTreeMap K V) :
  bt_get k m = None → length (bt_insert k v m) = S (length m).
Proof.
  induction m as [|[k' v'] m IH]; simpl; [done|]. destruct (cmp k k') eqn:E; simpl; [done|done|].
  intros Hk. by rewrite IH.
Qed.

Lemma insert_writes_new (writes : list RelationshipTuple) : ∀ m,
  NoDup (rt_key <$> writes) → (∀ t, t ∈ writes → bt_get t.(rt_key) m = None) →
  length (insert_writes m writes) = length m + length writes.
Proof.
  induction writes as [|t writes IH]; intros m Hnd Hnone; [simpl; lia|].
  rewrite fmap_cons in Hnd. apply NoDup_cons in Hnd as [Hnin Hnd]. cbn [foldl]. rewrite IH; [|done|].
  - rewrite bt_insert_new by (apply Hnone; by left). simpl. lia.
  - intros t' Ht'. rewrite bt_get_insert_ne; [apply Hnone; by right|].
    intros E. apply Hnin. rewrite <-E. by apply list_elem_of_fmap_2.
Qed.

Lemma omap_length_le {A B} (f : A → option B) (l : list A) : length (omap f l) ≤ length l.
Proof. induction l as [|x l IH]; [done|]. cbn. destruct (f x); simpl; lia. Qed.

Lemma unique_delete_keys_total deletes :
  NoDup deletes → unique_delete_keys deletes = Ok (bs_collect deletes).
Proof.
  intros Hnd. unfold unique_delete_keys, bs_collect. rewrite bs_extend_new; [|done|].
  - simpl. by rewrite Nat.eqb_refl.
  - by intros k _ ?%not_elem_of_nil.
Qed.

Lemma unique_write_tuples_total writes :
  NoDup (rt_key <$> writes) → unique_write_tuples writes = Ok (insert_writes [] writes).
Proof.
  intros Hnd. unfold unique_write_tuples. rewrite insert_writes_new by done. simpl. by rewrite Nat.eqb_refl.
Qed.

Lemma persisted_conflicts_total s store deletes writes options requested :
  request_ok s store deletes writes options →
  (∀ k t, bt_get k requested = Some t ↔ t ∈ writes ∧ t.(rt_key) = k) →
  validate_persisted_conflicts s store deletes (rt_key <$> writes) requested options = Ok ().
Proof.
  intros [_ _ _ _ Hmiss Hdup Hsame] Hreq. unfold validate_persisted_conflicts.
  assert (Em : match on_missing_delete options with
    | OnConflictError => find_first (fun k => negb (tuple_exists s store k)) deletes
    | OnConflictIgnore => None end = None).
  { destruct (on_missing_delete options); [|done]. apply find_first_None. intros k Hk.
    apply negb_false_iff, tuple_exists_iff. by apply Hmiss. }
  rewrite Em. destruct (on_duplicate_write options).
  - rewrite (proj2 (find_first_None _ _)); [done|]. intros k (t & -> & Ht)%list_elem_of_fmap.
    apply tuple_exists_false. by apply Hdup.
  - rewrite (proj2 (find_first_None _ _)); [done|]. intros k (t & -> & Ht)%list_elem_of_fmap.
    destruct (bt_get (store, rt_key t) (ms_tuples s)) as [v|] eqn:Ev; [|done].
    rewrite (proj2 (Hreq (rt_key t) t)) by done. apply negb_false_iff, bool_decide_eq_true. by apply Hsame.
Qed.

(** ** Success *)

(** No fault, a live context and a clock. *)
Record quiet (w : MutationWorld) (timestamp : SystemTime) : Prop := {
  qu_gate : ∀ stage, mutation_gate w stage = Ok ();
  qu_now : w.(mw_now) = Ok timestamp;
}.

Lemma prepare_write_total s w store deletes writes options timestamp :
  allocator_wf s.(ms_change_ids) → quiet w timestamp →
  allocator_room s.(ms_change_ids) timestamp (length deletes + length writes) →
  request_ok s store deletes writes options →
  ∃ prepared, prepare_write s w store deletes writes options = Ok prepared.
Proof.
  intros Hwf [Hgate Hnow] Hroom Hrq. pose proof Hrq as [Hlimit Hdnd Hwnd Hdisjoint _ _ _]. unfold prepare_write.
  destruct (N.ltb_spec (write_tuples_limit (ms_limits s)) (saturating_add USIZE_MAX (len deletes) (len writes))); [lia|].
  rewrite unique_delete_keys_total, unique_write_tuples_total by done. cbn [mbind result_bind].
  destruct (unique_write_tuples_ok writes _ (unique_write_tuples_total writes Hwnd)) as (Hs & _ & Hreq).
  destruct (existsb _ _) eqn:Edis.
  { exfalso. apply existsb_exists in Edis as (k & Hk%list_elem_of_In & Hc).
    unfold bt_contains_key in Hc. destruct (bt_get k (insert_writes [] writes)) as [t|] eqn:Et; [|done].
    apply Hreq in Et as [Ht <-]. apply (Hdisjoint t Ht). by apply bs_collect_elem. }
  rewrite Hgate. cbn [mbind result_bind]. rewrite (persisted_conflicts_total _ _ _ _ _ _ Hrq Hreq).
  cbn [mbind result_bind]. rewrite !Hgate. cbn [mbind result_bind].
  set (dels := omap _ (bs_collect deletes)). set (wrs := snd <$> filter _ (insert_writes [] writes)).
  assert (Hd : length dels ≤ length deletes).
  { unfold dels. etrans; [apply omap_length_le|]. apply (bs_extend_length deletes []). }
  assert (Hw : length wrs ≤ length writes).
  { unfold wrs. rewrite length_fmap. etrans; [apply length_filter|]. apply (insert_writes_spec writes []). constructor. }
  destruct (allocate_changes_room store ChDelete timestamp dels (ms_change_ids s) (length writes) Hwf)
    as (a1 & deleted & E1 & Hwf1 & Hroom1).
  { destruct Hroom as [? Hr]. split; [done|lia]. }
  destruct (allocate_changes_room store ChWrite timestamp wrs a1 0 Hwf1) as (a2 & written & E2 & _).
  { destruct Hroom1 as [? Hr]. split; [done|lia]. }
  assert (E : (timestamp ← mw_now w;
      '(a, deleted) ← allocate_changes store ChDelete timestamp (ms_change_ids s) dels;
      '(a, written) ← allocate_changes store ChWrite timestamp a wrs;
      Ok (Some (mkPrepared dels wrs timestamp (deleted ++ written) a))) =
      Ok (Some (mkPrepared dels wrs timestamp (deleted ++ written) a2))).
  { rewrite Hnow. cbn [mbind result_bind]. rewrite E1. cbn [mbind result_bind]. by rewrite E2. }
  clearbody dels wrs. clear -E. destruct dels, wrs; [by eexists|eexists; exact E..].
Qed.

End success.
