(* ===== verification/MemoryActor.v ===== *)
(** * The actor of the in-memory backend

    Invariants of every state the actor reaches, whatever commands it is sent
    and in whatever order: indexes agree with the tables, the changelog
    replays to the tuple table, and latest models are found. *)

From S2P Require Import Prelude Ordered Identifier Reference Grammar Storage Memory MemoryTheory MemoryWrites.
From Stdlib Require Import ZArith.
From stdpp Require Import sorting.

Section actor.
Context `{WinnowLaws, UlidCodecLaws}.

(** ** Invariants *)

Record log_ok (s : MemoryState) : Prop := {
  lo_sorted : bt_sorted s.(ms_changes);
  lo_allocator : allocator_wf s.(ms_change_ids);
  lo_change : ∀ st id c, bt_get (st, id) s.(ms_changes) = Some c →
    c.(tc_id) = id ∧ c.(tc_store_id) = st ∧ allocated s.(ms_change_ids) id ∧ (id < ULID_BOUND)%N;
  lo_replay : ∀ st k, replay (log_of s st) k = st_tuple <$> bt_get (st, k) s.(ms_tuples);
}.

Record models_ok (s : MemoryState) : Prop := {
  mo_models : bt_sorted s.(ms_models);
  mo_ids : ∀ st, bs_sorted (default [] (bt_get st s.(ms_model_ids)));
  mo_key : ∀ st id m, bt_get (st, id) s.(ms_models) = Some m → m.(sam_store_id) = st ∧ m.(sam_model_id) = id;
  mo_index : ∀ st id, id ∈ default [] (bt_get st s.(ms_model_ids)) ↔ is_Some (bt_get (st, id) s.(ms_models));
  mo_assertions : ∀ key assertions, bt_get key s.(ms_assertions) = Some assertions →
    is_Some (bt_get key s.(ms_models)) ∧ (len assertions <= s.(ms_limits).(assertions_limit))%N;
  mo_stores : bt_sorted s.(ms_stores);
  mo_store : ∀ st r, bt_get st s.(ms_stores) = Some r → r.(sr_id) = st;
}.

Record memory_ok (s : MemoryState) : Prop := {
  mk_tables : tables_ok s;
  mk_log : log_ok s;
  mk_models : models_ok s;
}.

Lemma memory_new_ok limits : memory_ok (memory_new limits).
Proof.
  constructor.
  - constructor; [constructor|done|apply index_ok_nil..].
  - constructor; [constructor|done|done|done].
  - constructor; [constructor|constructor|done| |done|constructor|done].
    intros st id. simpl. rewrite elem_of_nil. split; [done|by intros []].
Qed.

(** ** Tuple mutations *)

Lemma commit_write_rest s store p deletes writes options deleted written :
  tables_ok s → request_ok s store deletes writes options →
  prepared_ok s store deletes writes p deleted written →
  let s' := commit_write s store p in
  s'.(ms_changes) = foldl (fun m c => bt_insert (store, c.(tc_id)) c m) s.(ms_changes) p.(pr_changes) ∧
  s'.(ms_change_ids) = p.(pr_allocator) ∧
  s'.(ms_stores) = s.(ms_stores) ∧ s'.(ms_models) = s.(ms_models) ∧
  s'.(ms_model_ids) = s.(ms_model_ids) ∧ s'.(ms_assertions) = s.(ms_assertions) ∧
  s'.(ms_limits) = s.(ms_limits).
Proof.
  intros Hok Hrq Hpo. unfold commit_write.
  destruct (remove_all_spec store (pr_deletes p) s Hok) as (Hok1 & (Hc1 & _ & Hr1) & _).
  set (s1 := foldl _ s (pr_deletes p)) in *.
  destruct (insert_all_spec store (pr_timestamp p) (pr_writes p) s1 Hok1) as (_ & (Hc2 & _ & Hr2) & _);
    [by eapply po_nodup|]. set (s2 := foldl _ s1 (pr_writes p)) in *.
  cbn [set_changes ms_changes ms_change_ids ms_stores ms_models ms_model_ids ms_assertions ms_limits].
  rewrite Hc2, Hc1. destruct Hr1 as (? & ? & ? & ? & ?), Hr2 as (? & ? & ? & ? & ?). split_and!; congruence.
Qed.

(** The log of the store grows by the changes of the mutation, and replaying
    them has the effect of the mutation on every key. *)
Lemma commit_write_log s store p deletes writes options deleted written :
  memory_ok s → request_ok s store deletes writes options →
  prepared_ok s store deletes writes p deleted written →
  let s' := commit_write s store p in
  log_of s' store = log_of s store ++ p.(pr_changes) ∧
  (∀ st, st ≠ store → log_of s' st = log_of s st) ∧ log_ok s'.
Proof.
  intros [Hok Hlog _] Hrq Hpo s'.
  destruct (commit_write_tuples _ _ _ _ _ _ _ _ Hok Hrq Hpo) as [_ Htup].
  destruct (commit_write_rest _ _ _ _ _ _ _ _ Hok Hrq Hpo) as (Hch & Hal & _). fold s' in Htup, Hch, Hal.
  destruct (append_changes store (pr_changes p) (ms_changes s)) as (Hs & Happ & Hother & Hget).
  { by apply lo_sorted. }
  { intros id c (_ & _ & Ha & _)%(lo_change _ Hlog). by apply (po_fresh _ _ _ _ _ _ _ Hpo). }
  { by eapply po_sorted. }
  assert (Hl : log_of s' store = log_of s store ++ p.(pr_changes)) by (unfold log_of; by rewrite Hch).
  assert (Ho : ∀ st, st ≠ store → log_of s' st = log_of s st).
  { intros st Hne. unfold log_of. by rewrite Hch, Hother. }
  split; [done|]. split; [done|]. constructor.
  - by rewrite Hch.
  - rewrite Hal. by eapply po_allocator.
  - rewrite Hch, Hal. intros st id c [Hc|(-> & Hc & <-)]%Hget.
    + destruct (lo_change _ Hlog _ _ _ Hc) as (? & ? & Ha & ?). split_and!; try done.
      by apply (po_fresh _ _ _ _ _ _ _ Hpo).
    + destruct (po_change _ _ _ _ _ _ _ Hpo c Hc) as (? & ? & ? & ?). done.
  - intros st k. rewrite Htup. destruct (N.eqb_spec st store) as [->|Hne]; cycle 1.
    { rewrite Ho by done. by apply lo_replay. }
    rewrite Hl. unfold replay. rewrite foldl_app. fold (replay (log_of s store) k).
    rewrite (lo_replay _ Hlog). by eapply replay_changes.
Qed.

Lemma models_ok_same s s' :
  s'.(ms_stores) = s.(ms_stores) → s'.(ms_models) = s.(ms_models) →
  s'.(ms_model_ids) = s.(ms_model_ids) → s'.(ms_assertions) = s.(ms_assertions) →
  s'.(ms_limits) = s.(ms_limits) → models_ok s → models_ok s'.
Proof. intros E1 E2 E3 E4 E5 []. constructor; rewrite ?E1, ?E2, ?E3, ?E4, ?E5; done. Qed.

Lemma log_ok_same s s' :
  s'.(ms_tuples) = s.(ms_tuples) → s'.(ms_changes) = s.(ms_changes) →
  s'.(ms_change_ids) = s.(ms_change_ids) → log_ok s → log_ok s'.
Proof.
  intros E1 E2 E3 [Hs Ha Hc Hr]. constructor; rewrite ?E2, ?E3; try done.
  intros st k. rewrite E1, <-Hr. unfold log_of. by rewrite E2.
Qed.

Lemma tables_ok_same s s' :
  s'.(ms_tuples) = s.(ms_tuples) → s'.(ms_forward) = s.(ms_forward) →
  s'.(ms_reverse) = s.(ms_reverse) → s'.(ms_usersets) = s.(ms_usersets) → tables_ok s → tables_ok s'.
Proof. intros E1 E2 E3 E4 []. constructor; rewrite ?E1, ?E2, ?E3, ?E4; done. Qed.

(** What the three outcomes of a mutation do to the state. *)
Lemma write_tuples_cases s w store deletes writes options s' r :
  memory_ok s → write_tuples s w store deletes writes options = (s', r) →
  match r with
  | Err _ => s' = s
  | Ok outcome =>
      request_ok s store deletes writes options ∧
      ((s' = s ∧ outcome = mkMutationOutcome [] ∧
        (∀ k, k ∈ deletes → bt_get (store, k) s.(ms_tuples) = None) ∧
        (∀ t, t ∈ writes → is_Some (bt_get (store, t.(rt_key)) s.(ms_tuples)))) ∨
       ∃ p deleted written, prepared_ok s store deletes writes p deleted written ∧
         w.(mw_now) = Ok p.(pr_timestamp) ∧
         s' = commit_write s store p ∧ outcome = mkMutationOutcome (tc_id <$> p.(pr_changes)))
  end.
Proof.
  intros [_ [] _]. unfold write_tuples. destruct (prepare_write _ _ _ _ _ _) as [[p|]|e] eqn:Ep.
  - apply prepare_write_ok in Ep as (Hrq & Hnow & deleted & written & Hpo); [|done].
    intros [= <- <-]. split; [done|]. right. by exists p, deleted, written.
  - apply prepare_write_ok in Ep as (Hrq & Hd & Hw); [|done]. intros [= <- <-]. split; [done|]. by left.
  - by intros [= <- <-].
Qed.

Lemma write_tuples_ok s w store deletes writes options :
  memory_ok s → memory_ok (fst (write_tuples s w store deletes writes options)).
Proof.
  intros Hok. destruct (write_tuples _ _ _ _ _ _) as [s' r] eqn:E. simpl.
  apply write_tuples_cases in E; [|done]. destruct r as [o|e]; [|by subst].
  destruct E as (Hrq & [(-> & _)|(p & deleted & written & Hpo & _ & -> & _)]); [done|].
  constructor.
  - by eapply commit_write_tuples; [apply mk_tables|..].
  - by eapply commit_write_log.
  - destruct (commit_write_rest _ _ _ _ _ _ _ _ (mk_tables _ Hok) Hrq Hpo) as (_ & _ & ? & ? & ? & ? & ?).
    eapply models_ok_same; [..|by apply mk_models]; done.
Qed.

(** ** The other commands *)

Lemma write_model_ok s m : memory_ok s → memory_ok (fst (write_model s m)).
Proof.
  intros [Ht Hl Hm]. unfold write_model. case_match eqn:Enone; [done|]. constructor.
  - by eapply tables_ok_same; [..|exact Ht].
  - by eapply log_ok_same; [..|exact Hl].
  - destruct Hm. constructor; cbn [fst set_models ms_models ms_model_ids ms_assertions ms_limits ms_stores]; try done.
    + by apply bt_sorted_insert.
    + intros st. destruct (decide (st = sam_store_id m)) as [->|Hne].
      * rewrite bt_get_insert_eq. by apply bs_sorted_insert.
      * by rewrite bt_get_insert_ne.
    + intros st id m'. destruct (decide ((st, id) = (sam_store_id m, sam_model_id m))) as [[= -> ->]|Hne].
      * rewrite bt_get_insert_eq. by intros [= <-].
      * rewrite bt_get_insert_ne by done. by apply mo_key0.
    + intros st id. destruct (decide (st = sam_store_id m)) as [->|Hne].
      * rewrite bt_get_insert_eq. simpl. rewrite bs_insert_elem, mo_index0.
        destruct (decide (id = sam_model_id m)) as [->|Hid].
        -- rewrite bt_get_insert_eq. split; [eauto|by left].
        -- rewrite bt_get_insert_ne by congruence. naive_solver.
      * rewrite !bt_get_insert_ne by congruence. apply mo_index0.
    + intros key assertions [Hs Hlen]%mo_assertions0. split; [|done].
      destruct (decide (key = (sam_store_id m, sam_model_id m))) as [->|Hne].
      * by rewrite bt_get_insert_eq.
      * by rewrite bt_get_insert_ne.
Qed.

Lemma set_stores_ok s stores :
  memory_ok s → bt_sorted stores → (∀ st r, bt_get st stores = Some r → r.(sr_id) = st) →
  memory_ok (set_stores s stores).
Proof.
  intros [Ht Hl []] Hs Hid. constructor.
  - by eapply tables_ok_same; [..|exact Ht].
  - by eapply log_ok_same; [..|exact Hl].
  - by constructor.
Qed.

Lemma insert_store_ok s r :
  memory_ok s → memory_ok (set_stores s (bt_insert r.(sr_id) r s.(ms_stores))).
Proof.
  intros Hok. destruct (mk_models _ Hok). apply set_stores_ok; [done|by apply bt_sorted_insert|].
  intros st r'. destruct (decide (st = sr_id r)) as [->|Hne].
  - rewrite bt_get_insert_eq. by intros [= <-].
  - rewrite bt_get_insert_ne by done. by apply mo_store0.
Qed.

Lemma create_store_ok s now store name : memory_ok s → memory_ok (fst (create_store s now store name)).
Proof.
  intros Hok. unfold create_store. case_match; [done|]. case_match; [|done].
  apply (insert_store_ok s (store_record_new store name _) Hok).
Qed.

Lemma rename_store_ok s now store name : memory_ok s → memory_ok (fst (rename_store s now store name)).
Proof.
  intros Hok. unfold rename_store. destruct now as [timestamp|]; [|done].
  destruct (bt_get store (ms_stores s)) as [r|] eqn:E; [|done].
  pose proof (mo_store _ (mk_models _ Hok) _ _ E) as <-.
  apply (insert_store_ok s (renamed r name timestamp) Hok).
Qed.

Lemma delete_store_ok s store : memory_ok s → memory_ok (delete_store s store).
Proof.
  intros Hok. destruct (mk_models _ Hok). apply set_stores_ok; [done|by apply bt_sorted_remove|].
  intros st r. destruct (decide (st = store)) as [->|Hne].
  - by rewrite bt_get_remove_eq.
  - rewrite bt_get_remove_ne by done. by apply mo_store0.
Qed.

Lemma write_assertions_ok s store id assertions :
  memory_ok s → memory_ok (fst (write_assertions s store id assertions)).
Proof.
  intros [Ht Hl Hm]. unfold write_assertions, require_model, bt_contains_key.
  destruct (bt_get (store, id) (ms_models s)) as [m|] eqn:Em; [|done]. simpl.
  destruct (N.ltb_spec (assertions_limit (ms_limits s)) (len assertions)); [done|]. constructor.
  - by eapply tables_ok_same; [..|exact Ht].
  - by eapply log_ok_same; [..|exact Hl].
  - destruct Hm. constructor; try done. simpl. intros key assertions'.
    destruct (decide (key = (store, id))) as [->|Hne].
    + rewrite bt_get_insert_eq. intros [= <-]. split; [eauto|done].
    + rewrite bt_get_insert_ne by done. by apply mo_assertions0.
Qed.

#[local] Hint Resolve write_tuples_ok write_model_ok create_store_ok rename_store_ok delete_store_ok
  write_assertions_ok : core.

Lemma handle_command_ok s w c : memory_ok s → memory_ok (fst (handle_command s w c)).
Proof.
  intros Hok. destruct c; cbn [handle_command fst]; auto;
    match goal with |- context [let '(_, _) := ?e in _] => assert (memory_ok (fst e)) by auto; by destruct e end.
Qed.

Lemma run_actor_ok messages : ∀ s, memory_ok s → memory_ok (fst (run_actor s messages)).
Proof.
  induction messages as [|[c check w|] messages IH]; intros s Hok; [done| |done]. cbn [run_actor].
  destruct check as [[]|e].
  - pose proof (handle_command_ok s w c Hok) as Hc. destruct (handle_command s w c) as [s1 reply].
    specialize (IH s1 Hc). by destruct (run_actor s1 messages).
  - specialize (IH s Hok). by destruct (run_actor s messages).
Qed.

(** ** Values of the source types

    A [TupleKey] of the program was validated when it was made and an
    identifier is a 128-bit ULID; commands carry such values. *)

Definition command_typed (c : Command) : Prop :=
  match c with
  | CmdWriteTuples _ _ writes _ => Forall (fun t => tuple_key_ok default_input_limits t.(rt_key)) writes
  | CmdWriteModel m => (m.(sam_model_id) < ULID_BOUND)%N
  | CmdCreateStore store _ => (store < ULID_BOUND)%N
  | _ => True
  end.

Definition message_typed (m : ActorMessage) : Prop :=
  match m with Operation c _ _ => command_typed c | Shutdown => True end.

Record typed_ok (s : MemoryState) : Prop := {
  ty_tuples : ∀ st k v, bt_get (st, k) s.(ms_tuples) = Some v → tuple_key_ok default_input_limits k;
  ty_stores : ∀ st r, bt_get st s.(ms_stores) = Some r → (st < ULID_BOUND)%N;
  ty_models : ∀ st id m, bt_get (st, id) s.(ms_models) = Some m → (id < ULID_BOUND)%N;
}.

Lemma write_tuples_typed s w store deletes writes options :
  memory_ok s → typed_ok s → Forall (fun t => tuple_key_ok default_input_limits t.(rt_key)) writes →
  typed_ok (fst (write_tuples s w store deletes writes options)).
Proof.
  intros Hok Hty Hw. destruct (write_tuples _ _ _ _ _ _) as [s' r] eqn:E. simpl.
  apply write_tuples_cases in E; [|done]. destruct r as [o|e]; [|by subst].
  destruct E as (Hrq & [(-> & _)|(p & deleted & written & Hpo & _ & -> & _)]); [done|].
  destruct (commit_write_tuples _ _ _ _ _ _ _ _ (mk_tables _ Hok) Hrq Hpo) as [_ Htup].
  destruct (commit_write_rest _ _ _ _ _ _ _ _ (mk_tables _ Hok) Hrq Hpo) as (_ & _ & Hst & Hmo & _).
  destruct Hty. constructor; rewrite ?Hst, ?Hmo; try done.
  intros st k v. rewrite Htup. destruct (N.eqb_spec st store) as [->|]; [|by apply ty_tuples0].
  unfold write_effect. case_match; [done|]. destruct (bt_get (store, k) (ms_tuples s)) eqn:Eold.
  - intros [= <-]. by eapply ty_tuples0.
  - intros (t & [Ht <-%bool_decide_eq_true]%find_first_Some & _)%fmap_Some.
    rewrite Forall_forall in Hw. by apply Hw.
Qed.

Lemma set_stores_typed s stores :
  typed_ok s → (∀ st r, bt_get st stores = Some r → (st < ULID_BOUND)%N) → typed_ok (set_stores s stores).
Proof. intros [] Hst. by constructor. Qed.

Lemma handle_command_typed s w c :
  memory_ok s → command_typed c → typed_ok s → typed_ok (fst (handle_command s w c)).
Proof.
  intros Hok Hc Hty. destruct c; try done; cbn [handle_command command_typed] in *.
  - pose proof (write_tuples_typed s w store deletes writes options Hok Hty Hc) as Hw. by destruct (write_tuples _ _ _ _ _ _).
  - unfold write_model. destruct (bt_get _ (ms_models s)); [done|]. destruct Hty. constructor; try done. simpl. intros st id m'.
    destruct (decide ((st, id) = (sam_store_id m, sam_model_id m))) as [[= -> ->]|Hne]; [done|].
    rewrite bt_get_insert_ne by done. by apply ty_models0.
  - unfold create_store. destruct (bt_contains_key _ _); [done|]. destruct (mw_now w); [|done]. apply set_stores_typed; [done|].
    intros st r. destruct (decide (st = store)) as [->|Hne]; [done|].
    rewrite bt_get_insert_ne by done. by eapply ty_stores.
  - unfold rename_store. destruct (mw_now w); [|done]. destruct (bt_get store (ms_stores s)) eqn:E; [|done].
    apply set_stores_typed; [done|]. intros st r'.
    destruct (decide (st = store)) as [->|Hne]; [by eapply ty_stores in E|].
    rewrite bt_get_insert_ne by done. by eapply ty_stores.
  - apply set_stores_typed; [done|]. intros st r.
    destruct (decide (st = store)) as [->|Hne]; [by rewrite bt_get_remove_eq|].
    rewrite bt_get_remove_ne by done. by eapply ty_stores.
  - unfold write_assertions. destruct (require_model s store id); [|done].
    destruct (_ <? _)%N; [done|]. destruct Hty. by constructor.
Qed.

Lemma run_actor_typed messages : ∀ s,
  memory_ok s → typed_ok s → Forall message_typed messages → typed_ok (fst (run_actor s messages)).
Proof.
  induction messages as [|[c check w|] messages IH]; intros s Hok Hty Hm; [done| |done].
  apply Forall_cons in Hm as [Hc Hm]. cbn [run_actor]. destruct check as [[]|e].
  - pose proof (handle_command_typed s w c Hok Hc Hty) as Ht.
    pose proof (handle_command_ok s w c Hok) as Ho. destruct (handle_command s w c) as [s1 reply].
    specialize (IH s1 Ho Ht Hm). by destruct (run_actor s1 messages).
  - specialize (IH s Hok Hty Hm). by destruct (run_actor s messages).
Qed.

Lemma memory_new_typed limits : typed_ok (memory_new limits).
Proof. by constructor. Qed.

End actor.
