(* ===== verification/MemoryPages.v ===== *)
(** * Pagination of the in-memory backend

    A client that follows continuation cursors from the first page receives
    every row exactly once and in order, for tuples, changes, stores and
    models.  The argument is shared: rows are sorted by a key, a cursor is
    the key of the last row of a page, and the next page holds the rows after
    it. *)

From S2P Require Import Prelude Ordered Identifier Reference Grammar Storage Memory MemoryTheory MemoryWrites.
From S2P Require Import MemoryActor.
From Stdlib Require Import ZArith.
From stdpp Require Import sorting.

(** A client that reads pages until there is no continuation. *)
Fixpoint follow_pages {A} (read : option StorageCursor → result StorageError (Page A)) (fuel : nat)
    (after : option StorageCursor) : option (result StorageError (list A)) :=
  match fuel with
  | O => None
  | S fuel =>
      match read after with
      | Err e => Some (Err e)
      | Ok page =>
          match page.(page_continuation) with
          | None => Some (Ok page.(page_items))
          | Some cursor =>
              match follow_pages read fuel (Some cursor) with
              | Some (Ok rest) => Some (Ok (page.(page_items) ++ rest))
              | other => other
              end
          end
      end
  end.

Lemma bounded_page_spec {A} (items : list A) (maximum : N) :
  bounded_page items maximum =
    (take (N.to_nat maximum) items,
     if decide (N.to_nat maximum < length items) then last (take (N.to_nat maximum) items) else None).
Proof.
  unfold bounded_page. case_decide as Hlen; destruct (N.ltb_spec maximum (len (take (S (N.to_nat maximum)) items)))
    as [Hlt|Hge]; unfold len in *; rewrite length_take in *; try lia.
  - rewrite take_take, Nat.min_l by lia. done.
  - rewrite !take_ge by lia. done.
Qed.

Lemma filter_none {A} (P : A → Prop) `{!∀ x, Decision (P x)} (l : list A) :
  (∀ x, x ∈ l → ¬ P x) → filter P l = [].
Proof.
  induction l as [|x l IH]; intros HP; [done|]. rewrite filter_cons_False by (apply HP; by left).
  apply IH. intros y Hy. apply HP. by right.
Qed.

Lemma filter_all {A} (P : A → Prop) `{!∀ x, Decision (P x)} (l : list A) :
  (∀ x, x ∈ l → P x) → filter P l = l.
Proof.
  induction l as [|x l IH]; intros HP; [done|]. rewrite filter_cons_True by (apply HP; by left).
  f_equal. apply IH. intros y Hy. apply HP. by right.
Qed.

Section pages.
Context {A B K : Type} (key : A → K) (view : A → B) (encode : K → StorageCursor).
Context (R : K → K → Prop) `{!RelDecision R, !StrictOrder R}.
Context (maximum : N) (read : option StorageCursor → result StorageError (Page B)) (rows : list A).
Hypothesis maximum_pos : (0 < maximum)%N.
Hypothesis rows_sorted : StronglySorted (fun a b => R (key a) (key b)) rows.

Definition page_of (l : list A) : Page B :=
  let '(items, continuation) := bounded_page l maximum in
  mkPage (view <$> items) ((fun a => encode (key a)) <$> continuation).

Hypothesis read_first : read None = Ok (page_of rows).
Hypothesis read_next : ∀ a, a ∈ rows →
  read (Some (encode (key a))) = Ok (page_of (filter (fun b => R (key a) (key b)) rows)).

(** The rows after the last one of a page are the rest. *)
Lemma rows_after_page l n a :
  StronglySorted (fun a b => R (key a) (key b)) l → last (take n l) = Some a →
  filter (fun b => R (key a) (key b)) l = drop n l.
Proof.
  intros Hs Hlast. rewrite <-(take_drop n l) at 1. rewrite filter_app.
  rewrite <-(take_drop n l) in Hs. apply StronglySorted_app in Hs as (Hcross & Ht & _).
  apply last_Some in Hlast as [l' El]. rewrite El in *.
  assert (E1 : filter (fun b => R (key a) (key b)) (l' ++ [a]) = []).
  { apply filter_none. intros b [Hb| ->%list_elem_of_singleton]%elem_of_app.
    - apply StronglySorted_app in Ht as (Hba & _). intros Hab.
      apply (irreflexivity R (key a)). transitivity (key b); [done|]. apply Hba; [done|by left].
    - apply irreflexivity, _. }
  rewrite E1. simpl. apply filter_all. intros b Hb.
  apply Hcross; [|done]. apply elem_of_app. right. by left.
Qed.

Lemma follow_rest fuel : ∀ n after,
  n ≤ length rows → length rows - n < fuel →
  read after = Ok (page_of (drop n rows)) →
  follow_pages read fuel after = Some (Ok (view <$> drop n rows)).
Proof.
  induction fuel as [|fuel IH]; intros n after Hn Hfuel Hread; [lia|]. cbn [follow_pages].
  rewrite Hread. unfold page_of. rewrite bounded_page_spec. cbn [page_continuation page_items].
  rewrite length_drop. case_decide as Hlen; [|by rewrite take_ge by (rewrite length_drop; lia)].
  destruct (last (take (N.to_nat maximum) (drop n rows))) as [a|] eqn:Ea; cycle 1.
  { apply last_None in Ea. apply (f_equal length) in Ea. rewrite length_take, length_drop in Ea. simpl in Ea. lia. }
  cbn [fmap option_fmap option_map].
  assert (Ha : a ∈ rows).
  { apply last_Some in Ea as [l' El].
    assert (Hin : a ∈ take (N.to_nat maximum) (drop n rows)) by (rewrite El; set_solver).
    rewrite <-(take_drop n rows), <-(take_drop (N.to_nat maximum) (drop n rows)). set_solver. }
  rewrite (IH (n + N.to_nat maximum)); [|lia|lia|].
  - rewrite <-drop_drop, <-fmap_app, take_drop. done.
  - rewrite read_next by done. do 3 f_equal.
    assert (El : last (take (n + N.to_nat maximum) rows) = Some a).
    { rewrite <-(take_drop n (take _ rows)), take_take, <-take_drop_commute. rewrite last_app.
      by rewrite Ea. }
    by apply rows_after_page.
Qed.

Lemma follow_pages_all fuel :
  length rows < fuel → follow_pages read fuel None = Some (Ok (view <$> rows)).
Proof. intros Hfuel. apply (follow_rest fuel 0 None); [lia|lia|done]. Qed.

End pages.

(** ** Rows and cursors of each listing *)

Section listings.
Context `{WinnowLaws, UlidCodecLaws}.

Lemma cursor_ulid id : (id < ULID_BOUND)%N →
  storage_cursor_new (CursorText (ulid_to_string id)) = Ok (CursorText (ulid_to_string id)).
Proof. intros Hid. unfold storage_cursor_new. simpl. by rewrite ulid_to_string_len. Qed.

Lemma default_input_limits_ok : input_limits_ok default_input_limits.
Proof. unfold input_limits_ok, limit_in. split_and!; done. Qed.

Lemma cursor_tuple k : tuple_key_ok default_input_limits k →
  storage_cursor_new (CursorText (show_tuple_key k)) = Ok (CursorText (show_tuple_key k)).
Proof.
  intros Hk. unfold storage_cursor_new, cursor_len.
  pose proof (show_tuple_key_bound _ _ default_input_limits_ok Hk) as Hlen.
  assert (Hpos : (0 < str_len (show_tuple_key k))%N).
  { unfold show_tuple_key. rewrite str_len_app. simpl. unfold char_len_utf8. simpl. lia. }
  destruct (N.eqb_spec (str_len (show_tuple_key k)) 0); [lia|].
  destruct (N.ltb_spec MAXIMUM_CURSOR_BYTES (str_len (show_tuple_key k))) as [Hc|]; [|done].
  unfold MAXIMUM_CURSOR_BYTES in Hc. lia.
Qed.

Lemma parse_tuple_cursor_show k : tuple_key_ok default_input_limits k →
  parse_tuple_cursor (CursorText (show_tuple_key k)) = Ok k.
Proof.
  intros Hk. unfold parse_tuple_cursor, parse_cursor.
  by rewrite (proj2 (parse_tuple_key_iff_aux default_input_limits _ k default_input_limits_ok)).
Qed.

Lemma parse_ulid_cursor_show field code id : (id < ULID_BOUND)%N →
  parse_cursor (ulid_from_str field) code (CursorText (ulid_to_string id)) = Ok id.
Proof. intros Hid. unfold parse_cursor. by rewrite (proj2 (ulid_from_str_ok field _ id)). Qed.

(** *** Pages of a sorted listing *)

Definition key_lt {K} `{Ord K} (x y : K) : Prop := cmp x y = Lt.
Definition key_gt {K} `{Ord K} (x y : K) : Prop := cmp y x = Lt.

#[export] Instance key_lt_dec {K} `{Ord K} : RelDecision (key_lt (K:=K)).
Proof. intros x y. unfold key_lt. solve_decision. Defined.
#[export] Instance key_gt_dec {K} `{Ord K} : RelDecision (key_gt (K:=K)).
Proof. intros x y. unfold key_gt. solve_decision. Defined.

#[export] Instance key_lt_strict {K} `{OrdLaws K} : StrictOrder (key_lt (K:=K)).
Proof.
  split.
  - intros x Hx. unfold key_lt in Hx. by rewrite cmp_refl in Hx.
  - intros x y z. apply cmp_trans.
Qed.

#[export] Instance key_gt_strict {K} `{OrdLaws K} : StrictOrder (key_gt (K:=K)).
Proof.
  split.
  - intros x Hx. unfold key_gt in Hx. by rewrite cmp_refl in Hx.
  - intros x y z Hyx Hzy. by apply (cmp_trans z y x).
Qed.

Lemma cursor_of_page {A B K} (key : A → K) (view : A → B) (text : K → rstr) maximum (l : list A) :
  (∀ a, a ∈ l → storage_cursor_new (CursorText (text (key a))) = Ok (CursorText (text (key a)))) →
  (let '(items, continuation) := bounded_page l maximum in
   cursor ← cursor_of (fun a => text (key a)) continuation; Ok (mkPage (view <$> items) cursor)) =
  Ok (page_of key view (fun k => CursorText (text k)) maximum l).
Proof.
  intros Hcursor. unfold page_of. rewrite bounded_page_spec. case_decide; [|done].
  destruct (last (take (N.to_nat maximum) l)) as [a|] eqn:Ea; [|done].
  unfold cursor_of. rewrite Hcursor; [done|].
  apply last_Some in Ea as [l' El]. rewrite <-(take_drop (N.to_nat maximum) l), El. set_solver.
Qed.

Lemma is_after_some {K} `{OrdLaws K} (c x : K) : is_after (Some c) x = true ↔ key_lt c x.
Proof. unfold is_after, key_lt. rewrite <-cmp_gt_lt. by destruct (cmp x c). Qed.

Lemma is_before_some {K} `{OrdLaws K} (c x : K) : is_before (Some c) x = true ↔ key_gt c x.
Proof. unfold is_before, key_gt. by destruct (cmp x c). Qed.

(** *** Tuples *)

Definition tuple_rows (s : MemoryState) (store : StoreId) (f : TupleReadFilter) : list (TupleKey * StoredTuple) :=
  filter (fun '(k, _) => tuple_read_filter_matches f k = true) (entries_of store s.(ms_tuples)).

Lemma tuple_rows_key s store f k v :
  memory_ok s → typed_ok s → (k, v) ∈ tuple_rows s store f → tuple_key_ok default_input_limits k.
Proof.
  intros Hok Hty [_ Hin%entries_of_elem]%list_elem_of_filter.
  apply bt_sorted_elem_get in Hin; [by eapply ty_tuples|]. apply Hok.
Qed.

Lemma read_tuples_page s store f maximum cursor after :
  memory_ok s → typed_ok s →
  parse_after parse_tuple_cursor (mkPageOptions maximum cursor) = Ok after →
  read_tuples s store f (mkPageOptions maximum cursor) =
    Ok (page_of fst snd (fun k => CursorText (show_tuple_key k)) maximum
          (filter (fun e => is_after after e.1 = true) (tuple_rows s store f))).
Proof.
  intros Hok Hty Hafter. unfold read_tuples. rewrite Hafter. cbn [mbind result_bind po_maximum_results].
  rewrite <-(cursor_of_page fst snd show_tuple_key); cycle 1.
  { intros [k v] [_ Hin]%list_elem_of_filter. by eapply cursor_tuple, tuple_rows_key. }
  unfold tuple_rows. rewrite list_filter_filter.
  erewrite (list_filter_iff _ (fun e => is_after after e.1 = true ∧ (let '(k, _) := e in tuple_read_filter_matches f k = true)));
    [|intros [k v]; simpl; by rewrite andb_true_iff].
  destruct (bounded_page _ _) as [items [[k v]|]]; done.
Qed.

Lemma follow_tuples s store f maximum fuel :
  memory_ok s → typed_ok s → (0 < maximum)%N → length (tuple_rows s store f) < fuel →
  follow_pages (fun after => read_tuples s store f (mkPageOptions maximum after)) fuel None =
    Some (Ok (snd <$> tuple_rows s store f)).
Proof.
  intros Hok Hty Hmax Hfuel.
  apply (follow_pages_all fst snd (fun k => CursorText (show_tuple_key k)) key_lt maximum);
    [done| | | |done].
  - apply sorted_filter, entries_of_sorted, Hok.
  - rewrite (read_tuples_page _ _ _ _ _ None) by done. by rewrite filter_all.
  - intros [k v] Hin. rewrite (read_tuples_page _ _ _ _ _ (Some k)); [|done|done|].
    + do 2 f_equal. apply list_filter_iff. intros e. apply is_after_some.
    + unfold parse_after. cbn [po_after fst]. by rewrite parse_tuple_cursor_show by (by eapply tuple_rows_key).
Qed.

(** *** Changes *)

Definition change_rows (s : MemoryState) (store : StoreId) (f : ChangeFilter) : list (ChangeId * TupleChange) :=
  filter (fun '(_, c) => change_filter_matches f c = true) (entries_of store s.(ms_changes)).

Lemma change_rows_key s store f id c :
  memory_ok s → (id, c) ∈ change_rows s store f → (id < ULID_BOUND)%N ∧ c.(tc_id) = id.
Proof.
  intros [_ Hl _] [_ Hin%entries_of_elem]%list_elem_of_filter.
  apply bt_sorted_elem_get in Hin; [|apply Hl]. by apply (lo_change _ Hl) in Hin as (? & _ & _ & ?).
Qed.

Lemma read_changes_page s store f maximum cursor after :
  memory_ok s →
  parse_after parse_change_cursor (mkPageOptions maximum cursor) = Ok after →
  read_changes s store f (mkPageOptions maximum cursor) =
    Ok (page_of fst snd (fun k => CursorText (ulid_to_string k)) maximum
          (filter (fun e => is_after after e.1 = true) (change_rows s store f))).
Proof.
  intros Hok Hafter. unfold read_changes. rewrite Hafter. cbn [mbind result_bind po_maximum_results].
  rewrite <-(cursor_of_page fst snd ulid_to_string); cycle 1.
  { intros [k v] [_ Hin]%list_elem_of_filter. by eapply cursor_ulid, change_rows_key. }
  pose proof (fun e => change_rows_key s store f (fst e) (snd e) Hok) as Hkey.
  unfold change_rows in *. rewrite list_filter_filter.
  erewrite (list_filter_iff _ (fun e => is_after after e.1 = true ∧ (let '(_, c) := e in change_filter_matches f c = true)));
    [|intros [k v]; simpl; by rewrite andb_true_iff].
  set (l := filter _ _). destruct (bounded_page l maximum) as [items continuation] eqn:Eb.
  assert (Hc : ∀ id c, continuation = Some (id, c) → c.(tc_id) = id).
  { intros id c ->. rewrite bounded_page_spec in Eb. injection Eb as Ei Ec. case_decide; [|done].
    apply last_Some in Ec as [l' El]. assert (Hin : (id, c) ∈ l).
    { rewrite <-(take_drop (N.to_nat maximum) l), El. set_solver. }
    unfold l in Hin. rewrite list_elem_of_filter in Hin. destruct Hin as [[_ Hm] Hin].
    apply (Hkey (id, c)), list_elem_of_filter. done. }
  destruct continuation as [[id c]|]; [|done]. simpl. by rewrite (Hc id c).
Qed.

Lemma follow_changes s store f maximum fuel :
  memory_ok s → (0 < maximum)%N → length (change_rows s store f) < fuel →
  follow_pages (fun after => read_changes s store f (mkPageOptions maximum after)) fuel None =
    Some (Ok (snd <$> change_rows s store f)).
Proof.
  intros Hok Hmax Hfuel.
  apply (follow_pages_all fst snd (fun k => CursorText (ulid_to_string k)) key_lt maximum); [done| | | |done].
  - apply sorted_filter, entries_of_sorted, Hok.
  - rewrite (read_changes_page _ _ _ _ _ None) by done. by rewrite filter_all.
  - intros [k v] Hin. rewrite (read_changes_page _ _ _ _ _ (Some k)); [|done|].
    + do 2 f_equal. apply list_filter_iff. intros e. apply is_after_some.
    + unfold parse_after, parse_change_cursor. cbn [po_after fst].
      by rewrite parse_ulid_cursor_show by (by eapply change_rows_key).
Qed.

(** *** Stores and models

    These listings page over identifiers and then fetch each record. *)

Lemma bounded_page_fmap {A B} (g : A → B) (l : list A) maximum :
  bounded_page (g <$> l) maximum =
    (g <$> (bounded_page l maximum).1, g <$> (bounded_page l maximum).2).
Proof.
  rewrite !bounded_page_spec, length_fmap, <-fmap_take. simpl.
  case_decide; [|done]. by rewrite fmap_last.
Qed.

Lemma filter_image {A B} (f : A → B) (P : B → Prop) (Q : A → Prop) `{!∀ x, Decision (P x), !∀ x, Decision (Q x)}
    (l : list A) :
  (∀ x, x ∈ l → P (f x) ↔ Q x) → filter P (f <$> l) = f <$> filter Q l.
Proof.
  induction l as [|x l IH]; intros HPQ; [done|]. rewrite fmap_cons.
  assert (Hl : filter P (f <$> l) = f <$> filter Q l) by (apply IH; intros y Hy; apply HPQ; by right).
  rewrite !filter_cons. specialize (HPQ x (list_elem_of_here _ _)).
  destruct (decide (P (f x))), (decide (Q x)); [by rewrite fmap_cons, Hl|tauto|tauto|done].
Qed.

Lemma fetch_rows {K V} (get : K → option V) (e : StorageError) (l : list (K * V)) :
  (∀ x, x ∈ l → get x.1 = Some x.2) →
  try_collect (fun k => ok_or (get k) e) l.*1 = Ok l.*2.
Proof.
  induction l as [|x l IH]; intros Hget; [done|]. rewrite !fmap_cons. cbn [try_collect].
  rewrite (Hget x) by by left. simpl. rewrite IH; [done|]. intros y Hy. apply Hget. by right.
Qed.

(** A listing that pages over keys and fetches the records is a page of rows. *)
Lemma fetched_page {K V} (get : K → option V) e (text : K → rstr) maximum (l : list (K * V)) :
  (∀ x, x ∈ l → get x.1 = Some x.2 ∧
     storage_cursor_new (CursorText (text x.1)) = Ok (CursorText (text x.1))) →
  (let '(keys, continuation) := bounded_page l.*1 maximum in
   records ← try_collect (fun k => ok_or (get k) e) keys;
   cursor ← cursor_of text continuation;
   Ok (mkPage records cursor)) =
  Ok (page_of fst snd (fun k => CursorText (text k)) maximum l).
Proof.
  intros Hl. rewrite <-(cursor_of_page fst snd text) by (intros a Ha; by apply Hl).
  rewrite bounded_page_fmap. pose proof (bounded_page_spec l maximum) as Eb.
  destruct (bounded_page l maximum) as [items continuation]. simpl. injection Eb as -> ->.
  rewrite fetch_rows; [by destruct (if decide _ then _ else _)|].
  intros x Hx. apply Hl. rewrite <-(take_drop (N.to_nat maximum) l). set_solver.
Qed.

Definition store_rows (s : MemoryState) (f : StoreFilter) : list (StoreId * StoreRecord) :=
  filter (fun '(_, r) => none_or f.(sf_name) (fun name => bool_decide (r.(sr_name) = name)) = true) s.(ms_stores).

Lemma list_stores_page s f maximum cursor after :
  memory_ok s → typed_ok s →
  parse_after parse_store_cursor (mkPageOptions maximum cursor) = Ok after →
  list_stores s f (mkPageOptions maximum cursor) =
    Ok (page_of fst snd (fun k => CursorText (ulid_to_string k)) maximum
          (filter (fun e => is_after after e.1 = true) (store_rows s f))).
Proof.
  intros [_ _ Hm] Hty Hafter. unfold list_stores. rewrite Hafter. cbn [mbind result_bind po_maximum_results].
  assert (Hget : ∀ e, e ∈ ms_stores s → bt_get e.1 (ms_stores s) = Some e.2).
  { intros [id r] Hin. by apply bt_sorted_elem_get; [apply Hm|]. }
  change (bt_keys (ms_stores s)) with (ms_stores s).*1.
  rewrite (filter_image fst _ (fun e => is_after after e.1 = true ∧
    (let '(_, r) := e in none_or f.(sf_name) (fun name => bool_decide (r.(sr_name) = name)) = true))); cycle 1.
  { intros [id r] Hin. specialize (Hget _ Hin). simpl in *. rewrite Hget, andb_true_iff. done. }
  unfold store_rows. rewrite list_filter_filter. apply fetched_page.
  intros e [_ Hin]%list_elem_of_filter. specialize (Hget e Hin). split; [done|].
  apply cursor_ulid. by eapply ty_stores.
Qed.

Lemma follow_stores s f maximum fuel :
  memory_ok s → typed_ok s → (0 < maximum)%N → length (store_rows s f) < fuel →
  follow_pages (fun after => list_stores s f (mkPageOptions maximum after)) fuel None =
    Some (Ok (snd <$> store_rows s f)).
Proof.
  intros Hok Hty Hmax Hfuel.
  apply (follow_pages_all fst snd (fun k => CursorText (ulid_to_string k)) key_lt maximum); [done| | | |done].
  - apply sorted_filter, Hok.
  - rewrite (list_stores_page _ _ _ _ None) by done. by rewrite filter_all.
  - intros [id r] Hin. rewrite (list_stores_page _ _ _ _ (Some id)); [|done|done|].
    + do 2 f_equal. apply list_filter_iff. intros e. apply is_after_some.
    + unfold parse_after, parse_store_cursor. cbn [po_after fst]. rewrite parse_ulid_cursor_show; [done|].
      apply list_elem_of_filter in Hin as [_ Hin]. apply bt_sorted_elem_get in Hin; [|apply Hok].
      by eapply ty_stores.
Qed.

Definition model_rows (s : MemoryState) (store : StoreId) : list (AuthorizationModelId * StoredAuthorizationModel) :=
  reverse (entries_of store s.(ms_models)).

Lemma sorted_reverse {A} (R : A → A → Prop) (l : list A) :
  StronglySorted R l → StronglySorted (flip R) (reverse l).
Proof.
  induction 1 as [|x l Hs IH Hx]; [constructor|]. rewrite reverse_cons. apply StronglySorted_app.
  split_and!; [|done|repeat constructor]. intros y z Hy ->%list_elem_of_singleton.
  rewrite Forall_forall in Hx. apply Hx. by apply elem_of_reverse.
Qed.

Lemma model_ids_rows s store :
  memory_ok s → reverse (default [] (bt_get store s.(ms_model_ids))) = (model_rows s store).*1.
Proof.
  intros [_ _ [Hs Hids _ Hindex _ _ _]]. unfold model_rows. rewrite fmap_reverse. f_equal.
  apply bs_ext; [by apply Hids|by apply sorted_fst, entries_of_sorted|]. intros id.
  rewrite Hindex, list_elem_of_fmap. split.
  - intros [m Hm]. exists (id, m). split; [done|]. by apply entries_of_elem, bt_get_elem.
  - intros ([id' m] & -> & Hin%entries_of_elem). apply bt_sorted_elem_get in Hin; [|done]. eauto.
Qed.

Lemma model_rows_get s store e :
  memory_ok s → typed_ok s → e ∈ model_rows s store →
  bt_get (store, e.1) s.(ms_models) = Some e.2 ∧ (e.1 < ULID_BOUND)%N.
Proof.
  destruct e as [id m]. intros [_ _ []] Hty Hin. apply elem_of_reverse, entries_of_elem in Hin.
  apply bt_sorted_elem_get in Hin; [|done]. split; [done|]. by eapply ty_models.
Qed.

Lemma list_models_page s store maximum cursor after :
  memory_ok s → typed_ok s →
  parse_after parse_model_cursor (mkPageOptions maximum cursor) = Ok after →
  list_models s store (mkPageOptions maximum cursor) =
    Ok (page_of fst snd (fun k => CursorText (ulid_to_string k)) maximum
          (filter (fun e => is_before after e.1 = true) (model_rows s store))).
Proof.
  intros Hok Hty Hafter. unfold list_models. rewrite Hafter. cbn [mbind result_bind po_maximum_results].
  rewrite model_ids_rows by done.
  rewrite (filter_image fst _ (fun e => is_before after e.1 = true)) by done.
  apply (fetched_page (fun id => bt_get (store, id) s.(ms_models))). intros e [_ Hin]%list_elem_of_filter.
  apply model_rows_get in Hin as [? ?]; [|done|done]. split; [done|by apply cursor_ulid].
Qed.

Lemma follow_models s store maximum fuel :
  memory_ok s → typed_ok s → (0 < maximum)%N → length (model_rows s store) < fuel →
  follow_pages (fun after => list_models s store (mkPageOptions maximum after)) fuel None =
    Some (Ok (snd <$> model_rows s store)).
Proof.
  intros Hok Hty Hmax Hfuel.
  apply (follow_pages_all fst snd (fun k => CursorText (ulid_to_string k)) key_gt maximum); [done| | | |done].
  - apply sorted_reverse, entries_of_sorted, Hok.
  - rewrite (list_models_page _ _ _ _ None) by done. by rewrite filter_all.
  - intros [id m] Hin. rewrite (list_models_page _ _ _ _ (Some id)); [|done|done|].
    + do 2 f_equal. apply list_filter_iff. intros e. apply is_before_some.
    + unfold parse_after, parse_model_cursor. cbn [po_after fst]. rewrite parse_ulid_cursor_show; [done|].
      by apply model_rows_get in Hin as [_ ?].
Qed.

End listings.
