(* ===== verification/MemoryTheorems.v ===== *)
(** * Properties of the in-memory backend

    What clients rely on, over every sequence of commands: atomic and exact
    mutations, reads that are filters of the stored tuples, a changelog that
    replays to them, complete pagination, and checks decided over them. *)

From S2P Require Import Prelude Ordered Identifier Codecs Reference Grammar Storage Memory MemoryTheory.
From S2P Require Import MemoryWrites MemoryActor MemoryPages.
From Stdlib Require Import ZArith.
From stdpp Require Import sorting.

Import Codecs.

(** ** A concrete history *)

Module History.

Definition subject (name : rstr) : SubjectRef := SubjObject (mkObjectRef (str "user") name).
Definition key (doc name : rstr) : TupleKey :=
  mkTupleKey (mkObjectRef (str "document") doc) (str "viewer") (subject name).
Definition row (doc name : rstr) : RelationshipTuple := mkRelationshipTuple (key doc name) Unconditional.

Definition calm (timestamp : SystemTime) : MutationWorld :=
  mkMutationWorld (fun _ => Ok ()) (fun _ => Ok ()) (Ok timestamp).

Definition strict : TupleWriteOptions := mkTupleWriteOptions OnConflictError OnConflictError.

Definition send (c : Command) (timestamp : SystemTime) : ActorMessage := Operation c (Ok ()) (calm timestamp).

(** Two stores, a model, three tuples, one of them deleted again. *)
Definition messages : list ActorMessage :=
  [ send (CmdCreateStore 1 (str "first")) 1000000000%Z;
    send (CmdCreateStore 2 (str "second")) 2000000000%Z;
    send (CmdWriteModel (mkStoredAuthorizationModel 1 7 [1%N] 2000000000%Z)) 2000000000%Z;
    send (CmdWriteTuples 1 [] [row (str "b") (str "anne"); row (str "a") (str "anne")] strict) 3000000000%Z;
    send (CmdWriteTuples 1 [key (str "b") (str "anne")] [row (str "a") (str "bob")] strict) 4000000000%Z ].

Definition state : MemoryState := fst (run_actor (memory_new default_input_limits) messages).

(** One more mutation. *)
Definition write (timestamp : SystemTime) : MemoryState * result StorageError MutationOutcome :=
  write_tuples state (calm timestamp) 1 [key (str "a") (str "bob")] [row (str "c") (str "bob")] strict.

Lemma messages_typed : Forall message_typed messages.
Proof. repeat constructor; vm_compute; try done; try discriminate. Qed.

End History.

(** ** Shared lemmas *)

Section lemmas.
Context `{WinnowLaws, UlidCodecLaws}.

Lemma reachable_ok limits messages : memory_ok (fst (run_actor (memory_new limits) messages)).
Proof. apply run_actor_ok, memory_new_ok. Qed.

Lemma write_log s w store deletes writes options st :
  memory_ok s → ∃ suffix,
    log_of (fst (write_tuples s w store deletes writes options)) st = log_of s st ++ suffix.
Proof.
  intros Hok. destruct (write_tuples _ _ _ _ _ _) as [s' r] eqn:E. simpl.
  apply write_tuples_cases in E; [|done].
  destruct r as [o|e]; [|subst; exists []; by rewrite app_nil_r].
  destruct E as (Hrq & [(-> & _)|(p & deleted & written & Hpo & _ & -> & _)]);
    [exists []; by rewrite app_nil_r|].
  destruct (commit_write_log _ _ _ _ _ _ _ _ Hok Hrq Hpo) as (Hl & Ho & _).
  destruct (decide (st = store)) as [->|Hne]; [by eexists|]. rewrite Ho by done.
  exists []. by rewrite app_nil_r.
Qed.

Lemma command_log s w c st :
  memory_ok s → ∃ suffix, log_of (fst (handle_command s w c)) st = log_of s st ++ suffix.
Proof.
  intros Hok. assert (Hsame : ∀ s', ms_changes s' = ms_changes s → ∃ suffix, log_of s' st = log_of s st ++ suffix).
  { intros s' E. exists []. unfold log_of. by rewrite E, app_nil_r. }
  destruct c; try (by apply Hsame); cbn [handle_command].
  - pose proof (write_log s w store deletes writes options st Hok). by destruct (write_tuples _ _ _ _ _ _).
  - unfold write_model. destruct (bt_get _ (ms_models s)); by apply Hsame.
  - unfold create_store. destruct (bt_contains_key _ _), (mw_now w); by apply Hsame.
  - unfold rename_store. destruct (mw_now w); [|by apply Hsame].
    destruct (bt_get _ (ms_stores s)); by apply Hsame.
  - unfold write_assertions. destruct (require_model _ _ _); [|by apply Hsame].
    destruct (_ <? _)%N; by apply Hsame.
Qed.

Lemma run_actor_log messages st : ∀ s,
  memory_ok s → ∃ suffix, log_of (fst (run_actor s messages)) st = log_of s st ++ suffix.
Proof.
  induction messages as [|[c check w|] messages IH]; intros s Hok;
    [exists []; by rewrite app_nil_r| |exists []; by rewrite app_nil_r]. cbn [run_actor].
  destruct check as [[]|e].
  - pose proof (handle_command_ok s w c Hok) as Hc. destruct (command_log s w c st Hok) as [suffix1 E1].
    destruct (handle_command s w c) as [s1 reply]. destruct (IH s1 Hc) as [suffix2 E2].
    destruct (run_actor s1 messages). simpl in *. exists (suffix1 ++ suffix2). by rewrite E2, E1, app_assoc.
  - destruct (IH s Hok) as [suffix E2]. destruct (run_actor s messages). by exists suffix.
Qed.

Lemma log_sorted s store :
  memory_ok s → StronglySorted (fun c d => (c.(tc_id) < d.(tc_id))%N) (log_of s store).
Proof.
  intros [_ Hl _]. unfold log_of.
  assert (Hid : ∀ id c, (id, c) ∈ entries_of store s.(ms_changes) → c.(tc_id) = id).
  { intros id c Hin%entries_of_elem. apply bt_sorted_elem_get in Hin; [|apply Hl].
    by apply (lo_change _ Hl) in Hin as [? _]. }
  pose proof (entries_of_sorted store _ (lo_sorted _ Hl)) as Hs. unfold bt_sorted in Hs.
  induction Hs as [|[id c] l Hs IH Hlt]; [constructor|]. rewrite fmap_cons. constructor.
  - apply IH. intros id' c' Hin. apply Hid. by right.
  - apply Forall_fmap, Forall_forall. intros [id' c'] Hin. rewrite Forall_forall in Hlt.
    specialize (Hlt _ Hin). simpl in *. rewrite (Hid id c), (Hid id' c') by (by constructor).
    by apply N.compare_lt_iff.
Qed.

Lemma sorted_last_max (l : list N) x y : bs_sorted l → last l = Some x → y ∈ l → (y <= x)%N.
Proof.
  intros Hs [l' ->]%last_Some [Hy| ->%list_elem_of_singleton]%elem_of_app; [|lia].
  apply StronglySorted_app in Hs as (Hlt & _). specialize (Hlt y x Hy (list_elem_of_here _ _)).
  by apply N.lt_le_incl, N.compare_lt_iff.
Qed.

Lemma latest_model_ok s store :
  memory_ok s →
  match read_latest_model s store with
  | Ok m => bt_get (store, m.(sam_model_id)) s.(ms_models) = Some m ∧
      ∀ id m', bt_get (store, id) s.(ms_models) = Some m' → (id <= m.(sam_model_id))%N
  | Err e => e = not_found ∧ ∀ id, bt_get (store, id) s.(ms_models) = None
  end.
Proof.
  intros [_ _ [_ Hids Hkey Hindex _ _ _]]. unfold read_latest_model.
  specialize (Hids store). specialize (Hindex store).
  assert (Ebind : (ids ← bt_get store (ms_model_ids s); last ids) = last (default [] (bt_get store (ms_model_ids s))))
    by (by destruct (bt_get store (ms_model_ids s))).
  rewrite Ebind. set (ids := default [] _) in *. destruct (last ids) as [id|] eqn:El; simpl.
  - assert (Hin : id ∈ ids) by (apply last_Some in El as [l' ->]; set_solver).
    apply Hindex in Hin as [m Hm]. rewrite Hm. simpl. destruct (Hkey _ _ _ Hm) as [_ ->].
    split; [done|]. intros id' m' Hm'. eapply sorted_last_max; [done|done|]. apply Hindex. eauto.
  - apply last_None in El. split; [done|]. intros id. apply eq_None_not_Some. rewrite <-Hindex, El.
    apply not_elem_of_nil.
Qed.

End lemmas.

Lemma state_ok : memory_ok History.state.
Proof. unfold History.state. apply reachable_ok. Qed.

Lemma write_ok :
  write_tuples History.state (History.calm 5000000000) 1 [History.key (str "a") (str "bob")]
    [History.row (str "c") (str "bob")] History.strict =
  (fst (History.write 5000000000), Ok (mkMutationOutcome [5000 * 2 ^ 80; 5000 * 2 ^ 80 + 1])%N).
Proof. vm_compute. reflexivity. Qed.

(** ** Consistency *)

(** C27: in every state the actor reaches, whatever it is sent, each index
    holds exactly the tuples of the table it indexes, the model index holds
    exactly the models, assertions belong to a model and respect their limit,
    change identifiers are ULIDs not above the allocator's last one, and the
    changelog of each store replays to its tuples. *)
Theorem actor_state_consistent `{WinnowLaws, UlidCodecLaws} limits messages :
  memory_ok (fst (run_actor (memory_new limits) messages)).
Proof. apply reachable_ok. Qed.

Lemma actor_state_consistent_witness :
  memory_ok History.state ∧ length (tuple_table History.state 1) = 2.
Proof.
  split; [|vm_compute; reflexivity]. unfold History.state. exact (actor_state_consistent default_input_limits History.messages).
Defined.

(** ** Mutations *)

(** C26: a mutation is atomic and exact.  An error leaves the state as it was.
    A success means the request was valid (within the limit, no duplicate
    input, no key both deleted and written, conflicts as its policies allow);
    then deleted keys are absent, stored tuples are kept, other written tuples
    are stored at the transaction time, other stores, models and assertions
    are untouched, and the log grows by exactly the reported changes. *)
Theorem write_is_exact `{WinnowLaws, UlidCodecLaws} s w store deletes writes options s' r :
  memory_ok s → write_tuples s w store deletes writes options = (s', r) →
  match r with
  | Err _ => s' = s
  | Ok outcome =>
      request_ok s store deletes writes options ∧
      ∃ timestamp changes,
        (changes ≠ [] → w.(mw_now) = Ok timestamp) ∧
        change_ids outcome = tc_id <$> changes ∧
        log_of s' store = log_of s store ++ changes ∧
        (∀ st, st ≠ store → log_of s' st = log_of s st) ∧
        (∀ st k, bt_get (st, k) s'.(ms_tuples) =
           if (st =? store)%N
           then write_effect timestamp deletes writes (fun k => bt_get (store, k) s.(ms_tuples)) k
           else bt_get (st, k) s.(ms_tuples)) ∧
        s'.(ms_stores) = s.(ms_stores) ∧ s'.(ms_models) = s.(ms_models) ∧
        s'.(ms_assertions) = s.(ms_assertions)
  end.
Proof.
  intros Hok E%write_tuples_cases; [|done]. destruct r as [outcome|e]; [|done].
  destruct E as (Hrq & [(-> & -> & Hd & Hw)|(p & deleted & written & Hpo & Hnow & -> & ->)]).
  - split; [done|]. exists 0%Z, []. split_and!; try done; [by rewrite app_nil_r|]. intros st k.
    destruct (N.eqb_spec st store) as [->|]; [|done]. by apply write_effect_none.
  - split; [done|]. exists p.(pr_timestamp), p.(pr_changes).
    destruct (commit_write_log _ _ _ _ _ _ _ _ Hok Hrq Hpo) as (Hl & Ho & _).
    destruct (commit_write_tuples _ _ _ _ _ _ _ _ (mk_tables _ Hok) Hrq Hpo) as [_ Ht].
    destruct (commit_write_rest _ _ _ _ _ _ _ _ (mk_tables _ Hok) Hrq Hpo) as (_ & _ & ? & ? & _ & ? & _).
    done.
Qed.

Lemma write_is_exact_witness :
  ∃ timestamp changes,
    change_ids (mkMutationOutcome [5000 * 2 ^ 80; 5000 * 2 ^ 80 + 1])%N = tc_id <$> changes ∧
    log_of (fst (History.write 5000000000)) 1 = log_of History.state 1 ++ changes ∧
    bt_get (1%N, History.key (str "c") (str "bob")) (fst (History.write 5000000000)).(ms_tuples) =
      Some (mkStoredTuple (History.row (str "c") (str "bob")) timestamp).
Proof.
  destruct (write_is_exact History.state (History.calm 5000000000) 1
    [History.key (str "a") (str "bob")] [History.row (str "c") (str "bob")] History.strict
    (fst (History.write 5000000000))
    (Ok (mkMutationOutcome [5000 * 2 ^ 80; 5000 * 2 ^ 80 + 1])%N)
    state_ok write_ok)
    as (_ & timestamp & changes & _ & Hids & Hlog & _ & Ht & _).
  exists timestamp, changes. split_and!; [exact Hids|exact Hlog|].
  rewrite Ht. vm_compute. reflexivity.
Defined.

(** No valid mutation is refused.  When no fault is injected, the context
    is live and identifiers are left, a mutation succeeds exactly when its
    request is valid for the state. *)
Theorem valid_write_succeeds `{WinnowLaws, UlidCodecLaws} s w store deletes writes options timestamp :
  memory_ok s → quiet w timestamp →
  allocator_room s.(ms_change_ids) timestamp (length deletes + length writes) →
  is_ok (snd (write_tuples s w store deletes writes options)) = true ↔
  request_ok s store deletes writes options.
Proof.
  intros Hok Hq Hroom. split.
  - destruct (write_tuples _ _ _ _ _ _) as [s' r] eqn:E. apply write_tuples_cases in E; [|done].
    destruct r; [|done]. intros _. by apply E.
  - intros Hrq. unfold write_tuples.
    destruct (prepare_write_total s w store deletes writes options timestamp) as [p Hp];
      [apply Hok|done|done|done|]. rewrite Hp. by destruct p.
Qed.

Lemma valid_write_succeeds_witness :
  request_ok History.state 1 [History.key (str "a") (str "bob")] [History.row (str "c") (str "bob")]
    History.strict.
Proof.
  apply (valid_write_succeeds History.state (History.calm 5000000000) 1
    [History.key (str "a") (str "bob")] [History.row (str "c") (str "bob")] History.strict 5000000000).
  - exact state_ok.
  - by split.
  - vm_compute. split; [discriminate|reflexivity].
  - rewrite write_ok. reflexivity.
Defined.

(** ** The changelog *)

(** C28: the changelog of a store is append-only, its identifiers increase
    strictly, and replaying it gives the tuple stored at every key. *)
Theorem changelog_replays `{WinnowLaws, UlidCodecLaws} limits before after store :
  let s := fst (run_actor (memory_new limits) before) in
  let s' := fst (run_actor s after) in
  (∃ suffix, log_of s' store = log_of s store ++ suffix) ∧
  StronglySorted (fun c d => (c.(tc_id) < d.(tc_id))%N) (log_of s' store) ∧
  ∀ k, replay (log_of s' store) k = st_tuple <$> bt_get (store, k) s'.(ms_tuples).
Proof.
  intros s s'. assert (Hok : memory_ok s) by apply reachable_ok.
  assert (Hok' : memory_ok s') by (by apply run_actor_ok).
  split_and!; [by apply run_actor_log|by apply log_sorted|apply Hok'].
Qed.

Lemma changelog_replays_witness :
  replay (log_of (fst (run_actor (fst (run_actor (memory_new default_input_limits) (take 4 History.messages)))
      (drop 4 History.messages))) 1) (History.key (str "a") (str "bob")) =
    Some (History.row (str "a") (str "bob")).
Proof.
  destruct (changelog_replays default_input_limits (take 4 History.messages) (drop 4 History.messages) 1)
    as (_ & _ & Hreplay).
  rewrite Hreplay. vm_compute. reflexivity.
Defined.

(** ** Reads *)

(** C29: in every reachable state the indexed reads return exactly the matching
    tuples of the store in key order, or the limit error when there are more
    than asked for, and never report a dangling index. *)
Theorem reads_are_filters `{WinnowLaws, UlidCodecLaws} limits messages store :
  let s := fst (run_actor (memory_new limits) messages) in
  let rows P := filter (fun t => P t = true) (tuple_table s store) in
  (∀ f o, read_object_relation s store f o = bounded_rows o.(ro_maximum_results)
     (rows (fun t => key_at f.(orf_object) f.(orf_relation) t.(rt_key) && object_relation_predicate f t))) ∧
  (∀ f o, read_userset s store f o = bounded_rows o.(ro_maximum_results)
     (rows (fun t => key_at f.(utf_object) f.(utf_relation) t.(rt_key) &&
                     (userset_matches t f.(utf_allowed) && condition_matches t f.(utf_conditions))))) ∧
  (∀ f o, read_reverse s store f o = bounded_rows o.(ro_maximum_results)
     (rows (fun t => reverse_at f t.(rt_key) && reverse_predicate f t))) ∧
  (∀ k, read_exact s store k =
     match bt_get (store, k) s.(ms_tuples) with Some v => Ok v | None => Err not_found end) ∧
  (∀ k, tuple_exists s store k = true ↔ ∃ t, t ∈ tuple_table s store ∧ t.(rt_key) = k).
Proof.
  intros s rows. assert (Hok : tables_ok s) by apply reachable_ok. split_and!; intros.
  - by apply read_object_relation_spec.
  - by apply read_userset_spec.
  - by apply read_reverse_spec.
  - unfold read_exact. by destruct (bt_get _ _).
  - rewrite tuple_exists_iff. setoid_rewrite (tuple_table_elem s store _ Hok). split.
    + intros [v Hv]. exists (st_tuple v). pose proof (to_key _ Hok _ _ _ Hv) as Ek.
      split; [|done]. exists v. by rewrite Ek.
    + intros (t & (v & Hv & _) & <-). eauto.
Qed.

Lemma reads_are_filters_witness :
  read_object_relation (fst (run_actor (memory_new default_input_limits) History.messages)) 1
    (mkObjectRelationFilter (mkObjectRef (str "document") (str "a")) (str "viewer") [] CFAny) (mkReadOptions 10) =
  Ok [History.row (str "a") (str "anne"); History.row (str "a") (str "bob")].
Proof.
  rewrite (proj1 (reads_are_filters default_input_limits History.messages 1)). vm_compute. reflexivity.
Defined.

(** C30: following continuation cursors from the first page, with any page size,
    returns every matching tuple, change, store and model exactly once: tuples
    and stores in key order, changes oldest first, models newest first. *)
Theorem pages_cover `{WinnowLaws, UlidCodecLaws} limits messages maximum fuel store :
  Forall message_typed messages → (0 < maximum)%N →
  let s := fst (run_actor (memory_new limits) messages) in
  let options after := mkPageOptions maximum after in
  (∀ f, length (tuple_rows s store f) < fuel →
     follow_pages (fun after => read_tuples s store f (options after)) fuel None =
       Some (Ok (snd <$> tuple_rows s store f))) ∧
  (∀ f, length (change_rows s store f) < fuel →
     follow_pages (fun after => read_changes s store f (options after)) fuel None =
       Some (Ok (snd <$> change_rows s store f))) ∧
  (∀ f, length (store_rows s f) < fuel →
     follow_pages (fun after => list_stores s f (options after)) fuel None =
       Some (Ok (snd <$> store_rows s f))) ∧
  (length (model_rows s store) < fuel →
     follow_pages (fun after => list_models s store (options after)) fuel None =
       Some (Ok (snd <$> model_rows s store))).
Proof.
  intros Hty Hmax s options. assert (Hok : memory_ok s) by apply reachable_ok.
  assert (Ht : typed_ok s) by (apply run_actor_typed; [apply memory_new_ok|apply memory_new_typed|done]).
  split_and!; intros.
  - by apply follow_tuples.
  - by apply follow_changes.
  - by apply follow_stores.
  - by apply follow_models.
Qed.

Lemma pages_cover_witness :
  follow_pages (fun after => read_tuples (fst (run_actor (memory_new default_input_limits) History.messages)) 1
      tuple_read_filter_all (mkPageOptions 1 after)) 3 None =
  Some (Ok [mkStoredTuple (History.row (str "a") (str "anne")) 3000000000;
            mkStoredTuple (History.row (str "a") (str "bob")) 4000000000]).
Proof.
  rewrite (proj1 (pages_cover default_input_limits History.messages 1 3 1 History.messages_typed ltac:(lia))).
  - vm_compute. reflexivity.
  - vm_compute. lia.
Defined.

(** ** Models *)

(** The latest model of a store is its model with the greatest identifier;
    it is not found only when the store has no model, and the model index never
    dangles. *)
Theorem latest_model_is_greatest `{WinnowLaws, UlidCodecLaws} limits messages store :
  let s := fst (run_actor (memory_new limits) messages) in
  match read_latest_model s store with
  | Ok m => bt_get (store, m.(sam_model_id)) s.(ms_models) = Some m ∧
      ∀ id m', bt_get (store, id) s.(ms_models) = Some m' → (id <= m.(sam_model_id))%N
  | Err e => e = not_found ∧ ∀ id, bt_get (store, id) s.(ms_models) = None
  end.
Proof. apply latest_model_ok, reachable_ok. Qed.

Lemma latest_model_is_greatest_witness :
  let s := fst (run_actor (memory_new default_input_limits) History.messages) in
  read_latest_model s 1 = Ok (mkStoredAuthorizationModel 1 7 [1%N] 2000000000) ∧
  bt_get (1%N, 7%N) s.(ms_models) = Some (mkStoredAuthorizationModel 1 7 [1%N] 2000000000).
Proof.
  pose proof (latest_model_is_greatest default_input_limits History.messages 1) as Hm. cbv zeta in *.
  assert (E : read_latest_model (fst (run_actor (memory_new default_input_limits) History.messages)) 1 =
    Ok (mkStoredAuthorizationModel 1 7 [1%N] 2000000000)) by (vm_compute; reflexivity).
  rewrite E in Hm. split; [exact E|]. exact (proj1 Hm).
Defined.
