(* ===== verification/Model.v ===== *)
(** * The compiled authorization model

    [crates/openfga-model/src/ir.rs] and the [CompiledModel] of [compiler.rs]:
    dense identifiers, rewrite nodes, relations, graph metadata and the
    lookups the query engines use.  The two fingerprints of the model are not
    part of the record: no lookup reads them. *)

From S2P Require Import Prelude Ordered Identifier Reference Condition.

(** ** Dense identifiers

    A [u32] wrapper used as an index; [from_index] is the only constructor. *)

Abbreviation TypeId := nat.
Abbreviation RelationId := nat.
Abbreviation ConditionId := nat.
Abbreviation NodeId := nat.

Definition from_index (index : nat) : option nat :=
  if (N.of_nat index <=? U32_MAX)%N then Some index else None.

Lemma from_index_Some i j : from_index i = Some j ↔ j = i ∧ (N.of_nat i <= U32_MAX)%N.
Proof. unfold from_index. case_match eqn:E; rewrite ?N.leb_le, ?N.leb_gt in E; naive_solver lia. Qed.

(** ** Direct restrictions *)

Inductive ConditionRequirement := ReqUnconditional | Required (id : ConditionId).
Inductive RestrictionKind := RKObject | RKUserset (r : RelationId) | RKWildcard.

Record DirectRestriction := mkDirectRestriction {
  dr_subject_type : TypeId;
  dr_kind : RestrictionKind;
  dr_condition : ConditionRequirement;
}.

#[export] Instance ConditionRequirement_eq_dec : EqDecision ConditionRequirement.
Proof. solve_decision. Defined.
#[export] Instance RestrictionKind_eq_dec : EqDecision RestrictionKind.
Proof. solve_decision. Defined.
#[export] Instance DirectRestriction_eq_dec : EqDecision DirectRestriction.
Proof. solve_decision. Defined.

Definition requirement_key (c : ConditionRequirement) : nat + nat :=
  match c with ReqUnconditional => inl 0 | Required id => inr id end.
Definition kind_key (k : RestrictionKind) : nat + (nat + nat) :=
  match k with RKObject => inl 0 | RKUserset r => inr (inl r) | RKWildcard => inr (inr 0) end.
Definition restriction_key (d : DirectRestriction) : nat * ((nat + (nat + nat)) * (nat + nat)) :=
  (d.(dr_subject_type), (kind_key d.(dr_kind), requirement_key d.(dr_condition))).

#[export] Instance restriction_key_inj : Inj (=) (=) restriction_key.
Proof.
  intros [t k c] [t' k' c']. unfold restriction_key. simpl. intros [= -> Hk Hc].
  destruct k, k', c, c'; simpl in *; by simplify_eq.
Qed.
#[export] Instance ord_DirectRestriction : Ord DirectRestriction := ord_via restriction_key.
#[export] Instance ord_laws_DirectRestriction : OrdLaws DirectRestriction :=
  ord_laws_via restriction_key.

(** ** Rewrite nodes *)

Inductive RewriteNode :=
| NDirect (relation : RelationId)
| NComputed (relation : RelationId)
| NTupleToUserset (tupleset : RelationId) (computed : RelationName) (targets : list RelationId)
| NUnion (children : list NodeId)
| NIntersection (children : list NodeId)
| NDifference (base subtract : NodeId).

#[export] Instance RewriteNode_eq_dec : EqDecision RewriteNode.
Proof. solve_decision. Defined.

Definition node_key (n : RewriteNode) :
    nat + (nat + ((nat * (rstr * list nat)) + (list nat + (list nat + (nat * nat))))) :=
  match n with
  | NDirect r => inl r
  | NComputed r => inr (inl r)
  | NTupleToUserset t c ts => inr (inr (inl (t, (c, ts))))
  | NUnion cs => inr (inr (inr (inl cs)))
  | NIntersection cs => inr (inr (inr (inr (inl cs))))
  | NDifference b s => inr (inr (inr (inr (inr (b, s)))))
  end.
#[export] Instance node_key_inj : Inj (=) (=) node_key.
Proof. intros [] []; simpl; intros; by simplify_eq. Qed.
#[export] Instance ord_RewriteNode : Ord RewriteNode := ord_via node_key.
#[export] Instance ord_laws_RewriteNode : OrdLaws RewriteNode := ord_laws_via node_key.

(** The nodes a rewrite node evaluates on the same object. *)
Definition node_children (n : RewriteNode) : list NodeId :=
  match n with
  | NUnion cs | NIntersection cs => cs
  | NDifference b s => [b; s]
  | _ => []
  end.

(** ** Relations, types, conditions and graph metadata *)

Record CompiledRelation := mkCompiledRelation {
  cr_id : RelationId;
  cr_object_type : TypeId;
  cr_name : RelationName;
  cr_root : NodeId;
  cr_restrictions : list DirectRestriction;
}.

Record CompiledType := mkCompiledType {
  ct_id : TypeId;
  ct_name : TypeName;
  ct_relations : list RelationId;
}.

Record GraphMetadata := mkGraphMetadata {
  forward : list (list RelationId);
  reverse_edges : list (list RelationId);
  reachable_types : list (BTreeSet TypeId);
  reachable_wildcards : list (BTreeSet TypeId);
  graph_recursion_groups : list (option N);
}.

Inductive ModelLookupError := LookupNotFound | LookupInvalidIdentifier.

Section model.
Context `{ConditionEngine}.

Record CompiledConditionEntry := mkCompiledConditionEntry {
  ce_id : ConditionId;
  ce_name : ConditionName;
  ce_condition : CompiledCondition;
}.

Record CompiledModel := mkCompiledModel {
  model_store_id : StoreId;
  model_id : AuthorizationModelId;
  schema_version : rstr;
  compiler_format_version : N;
  model_types : list CompiledType;
  type_lookup : BTreeMap TypeName TypeId;
  model_relations : list CompiledRelation;
  relation_lookup : BTreeMap (TypeName * RelationName) RelationId;
  model_nodes : list RewriteNode;
  model_conditions : list CompiledConditionEntry;
  condition_lookup : BTreeMap ConditionName ConditionId;
  model_graph : GraphMetadata;
}.

(** ** Lookups *)

Definition type_id (m : CompiledModel) (name : TypeName) : result ModelLookupError TypeId :=
  ok_or (bt_get name m.(type_lookup)) LookupNotFound.

Definition type_name (m : CompiledModel) (id : TypeId) : result ModelLookupError TypeName :=
  ok_or (ct_name <$> m.(model_types) !! id) LookupInvalidIdentifier.

Definition relation_id (m : CompiledModel) (ty : TypeName) (rel : RelationName) :
    result ModelLookupError RelationId :=
  ok_or (bt_get (ty, rel) m.(relation_lookup)) LookupNotFound.

Definition relation (m : CompiledModel) (id : RelationId) :
    result ModelLookupError CompiledRelation :=
  ok_or (m.(model_relations) !! id) LookupInvalidIdentifier.

Definition node (m : CompiledModel) (id : NodeId) : result ModelLookupError RewriteNode :=
  ok_or (m.(model_nodes) !! id) LookupInvalidIdentifier.

Definition condition (m : CompiledModel) (id : ConditionId) :
    result ModelLookupError CompiledCondition :=
  ok_or (ce_condition <$> m.(model_conditions) !! id) LookupInvalidIdentifier.

Definition condition_id (m : CompiledModel) (name : ConditionName) :
    result ModelLookupError ConditionId :=
  ok_or (bt_get name m.(condition_lookup)) LookupNotFound.

Definition relations_for_type (m : CompiledModel) (id : TypeId) :
    result ModelLookupError (list RelationId) :=
  ok_or (ct_relations <$> m.(model_types) !! id) LookupInvalidIdentifier.

Definition can_reach_subject_type (m : CompiledModel) (r : RelationId) (t : TypeId) : bool :=
  match m.(model_graph).(reachable_types) !! r with
  | Some types => bs_contains t types
  | None => false
  end.

Definition can_reach_wildcard (m : CompiledModel) (r : RelationId) (t : TypeId) : bool :=
  match m.(model_graph).(reachable_wildcards) !! r with
  | Some types => bs_contains t types
  | None => false
  end.

Definition reverse_relations (m : CompiledModel) (r : RelationId) :
    result ModelLookupError (list RelationId) :=
  ok_or (m.(model_graph).(reverse_edges) !! r) LookupInvalidIdentifier.

Definition forward_relations (m : CompiledModel) (r : RelationId) :
    result ModelLookupError (list RelationId) :=
  ok_or (m.(model_graph).(forward) !! r) LookupInvalidIdentifier.

Definition recursion_group (m : CompiledModel) (r : RelationId) : option N :=
  mjoin (m.(model_graph).(graph_recursion_groups) !! r).

End model.
