(* ===== verification/ModelErrors.v ===== *)
(** * Model diagnostics and compiler limits

    [crates/openfga-model/src/error.rs] and [limits.rs]: diagnostic codes, the
    declaration paths they point at, the bounded collector and its sorted
    output.  The structured detail of a diagnostic comes from the condition
    compiler and is a type parameter. *)

From S2P Require Import Prelude Ordered Identifier.

(** ** Paths and codes *)

Inductive DeclarationPath :=
| PModel
| PType (index : N)
| PRelation (type_index relation_index : N)
| PRestriction (type_index relation_index restriction_index : N)
| PRewrite (type_index relation_index node_index : N)
| PCondition (index : N)
| PParameter (condition_index parameter_index : N).

Inductive ModelErrorCode :=
| TooManyModelErrors | InvalidSchemaVersion | InvalidTypeDefinitionCount | TooManyConditions
| TooManyRelations | RewriteLimitExceeded | GraphLimitExceeded | InvalidTypeName
| InvalidRelationName | InvalidConditionName | InvalidParameterName | ReservedName
| DuplicateType | DuplicateRelation | DuplicateCondition | ConditionNameMismatch
| OrphanRelationMetadata | InvalidRewrite | InvalidOperatorArity | UndefinedRelation
| UndefinedType | UndefinedCondition | AssignableWithoutRestrictions
| NonAssignableWithRestrictions | InvalidRestriction | IllegalSelfReference
| InvalidTuplesetRelation | InvalidTupleToUsersetTarget | NoEntrypoints | PotentialLoop
| ForbiddenComputedCycle | InvalidConditionParameterType | InvalidCondition
| InvalidModelIdentifier.

#[export] Instance DeclarationPath_eq_dec : EqDecision DeclarationPath.
Proof. solve_decision. Defined.
#[export] Instance ModelErrorCode_eq_dec : EqDecision ModelErrorCode.
Proof. solve_decision. Defined.

(** The derived orders: constructors in declaration order, then fields. *)
Definition path_key (p : DeclarationPath) : nat * list N :=
  match p with
  | PModel => (0, [])
  | PType i => (1, [i])
  | PRelation t r => (2, [t; r])
  | PRestriction t r i => (3, [t; r; i])
  | PRewrite t r n => (4, [t; r; n])
  | PCondition i => (5, [i])
  | PParameter c p => (6, [c; p])
  end.
#[export] Instance path_key_inj : Inj (=) (=) path_key.
Proof. intros [] []; simpl; intros; by simplify_eq. Qed.
#[export] Instance ord_DeclarationPath : Ord DeclarationPath := ord_via path_key.
#[export] Instance ord_laws_DeclarationPath : OrdLaws DeclarationPath := ord_laws_via path_key.

Definition code_rank (c : ModelErrorCode) : nat :=
  match c with
  | TooManyModelErrors => 0 | InvalidSchemaVersion => 1 | InvalidTypeDefinitionCount => 2
  | TooManyConditions => 3 | TooManyRelations => 4 | RewriteLimitExceeded => 5
  | GraphLimitExceeded => 6 | InvalidTypeName => 7 | InvalidRelationName => 8
  | InvalidConditionName => 9 | InvalidParameterName => 10 | ReservedName => 11
  | DuplicateType => 12 | DuplicateRelation => 13 | DuplicateCondition => 14
  | ConditionNameMismatch => 15 | OrphanRelationMetadata => 16 | InvalidRewrite => 17
  | InvalidOperatorArity => 18 | UndefinedRelation => 19 | UndefinedType => 20
  | UndefinedCondition => 21 | AssignableWithoutRestrictions => 22
  | NonAssignableWithRestrictions => 23 | InvalidRestriction => 24 | IllegalSelfReference => 25
  | InvalidTuplesetRelation => 26 | InvalidTupleToUsersetTarget => 27 | NoEntrypoints => 28
  | PotentialLoop => 29 | ForbiddenComputedCycle => 30 | InvalidConditionParameterType => 31
  | InvalidCondition => 32 | InvalidModelIdentifier => 33
  end.
#[export] Instance code_rank_inj : Inj (=) (=) code_rank.
Proof. intros [] []; by intros [=]. Qed.
#[export] Instance ord_ModelErrorCode : Ord ModelErrorCode := ord_via code_rank.
#[export] Instance ord_laws_ModelErrorCode : OrdLaws ModelErrorCode := ord_laws_via code_rank.

(** ** Diagnostics *)

Section errors.
Context {Detail : Type} `{!EqDecision Detail}.

Record ModelError := mkModelError {
  me_code : ModelErrorCode;
  me_path : DeclarationPath;
  me_detail : option Detail;
}.

#[export] Instance ModelError_eq_dec : EqDecision ModelError.
Proof using EqDecision0. solve_decision. Defined.

Record ModelErrors := mkModelErrors { model_errors : list ModelError; is_truncated : bool }.

Record ErrorCollector := mkErrorCollector {
  ec_errors : list ModelError;
  ec_maximum : nat;
  ec_truncated : bool;
}.

Definition collector_new (maximum : nat) : ErrorCollector := mkErrorCollector [] maximum false.

Definition push_error (c : ErrorCollector) (e : ModelError) : ErrorCollector :=
  if length c.(ec_errors) <? c.(ec_maximum)
  then mkErrorCollector (c.(ec_errors) ++ [e]) c.(ec_maximum) c.(ec_truncated)
  else mkErrorCollector c.(ec_errors) c.(ec_maximum) true.

(** [push] and [push_detail] *)
Definition push (c : ErrorCollector) (code : ModelErrorCode) (path : DeclarationPath) :
    ErrorCollector :=
  push_error c (mkModelError code path None).

Definition push_detail (c : ErrorCollector) (code : ModelErrorCode) (path : DeclarationPath)
    (d : Detail) : ErrorCollector :=
  push_error c (mkModelError code path (Some d)).

Definition collector_is_empty (c : ErrorCollector) : bool :=
  match c.(ec_errors) with [] => true | _ => false end.

Definition error_key (e : ModelError) : DeclarationPath * ModelErrorCode :=
  (e.(me_path), e.(me_code)).

(** [sort_by_key]: stable. *)
Fixpoint sorted_insert (e : ModelError) (l : list ModelError) : list ModelError :=
  match l with
  | [] => [e]
  | x :: l' => match cmp (error_key e) (error_key x) with
               | Gt => x :: sorted_insert e l'
               | _ => e :: l
               end
  end.
Definition sort_errors (l : list ModelError) : list ModelError := foldr sorted_insert [] l.

(** [Vec::dedup]: drops an element equal to the previous one. *)
Fixpoint dedup (l : list ModelError) : list ModelError :=
  match l with
  | [] => []
  | x :: l' => match dedup l' with
               | y :: r => if bool_decide (x = y) then y :: r else x :: y :: r
               | [] => [x]
               end
  end.

Definition from_unsorted (errors : list ModelError) (truncated : bool) : ModelErrors :=
  mkModelErrors (dedup (sort_errors errors)) truncated.

Definition collector_finish (c : ErrorCollector) : ModelErrors :=
  let errors := if c.(ec_truncated)
                then c.(ec_errors) ++ [mkModelError TooManyModelErrors PModel None]
                else c.(ec_errors) in
  from_unsorted errors c.(ec_truncated).

(** ** The collector only grows and the report is canonical *)

Definition collector_ok (c : ErrorCollector) : Prop :=
  length c.(ec_errors) ≤ c.(ec_maximum) ∧ (c.(ec_truncated) = true → c.(ec_errors) ≠ []).

Lemma push_error_not_empty c e :
  0 < c.(ec_maximum) → collector_ok c → collector_is_empty (push_error c e) = false.
Proof.
  intros Hpos [Hle Htr]. unfold push_error, collector_is_empty.
  destruct (Nat.ltb_spec (length (ec_errors c)) (ec_maximum c)); simpl.
  - by destruct (ec_errors c).
  - destruct (ec_errors c) eqn:E; simpl in *; [lia|done].
Qed.

Lemma push_error_ok c e : 0 < c.(ec_maximum) → collector_ok c → collector_ok (push_error c e).
Proof.
  intros Hpos [Hle Htr]. unfold push_error, collector_ok.
  destruct (Nat.ltb_spec (length (ec_errors c)) (ec_maximum c)); simpl.
  - rewrite length_app. simpl. split; [lia|]. by destruct (ec_errors c).
  - split; [done|]. intros _ E. rewrite E in *. simpl in *. lia.
Qed.

Definition error_lt (x y : ModelError) : Prop := cmp (error_key x) (error_key y) ≠ Gt.

End errors.

Arguments ModelError : clear implicits.
Arguments ModelErrors : clear implicits.
Arguments ErrorCollector : clear implicits.

(** ** Limits *)

Record ModelLimits := mkModelLimits {
  ml_input : InputLimits;
  ml_condition_definitions : N;
  ml_rewrite_nodes : N;
  ml_rewrite_depth : N;
  ml_graph_edges : N;
  ml_model_errors : N;
}.

Definition default_model_limits : ModelLimits := {|
  ml_input := default_input_limits;
  ml_condition_definitions := trusted_limit 1000 100;
  ml_rewrite_nodes := trusted_limit 100000 10000;
  ml_rewrite_depth := trusted_limit 256 64;
  ml_graph_edges := trusted_limit 1000000 100000;
  ml_model_errors := trusted_limit 1000 100;
|}.

Definition model_limits_ok (l : ModelLimits) : Prop :=
  input_limits_ok l.(ml_input) ∧ limit_in 1000 l.(ml_condition_definitions) ∧
  limit_in 100000 l.(ml_rewrite_nodes) ∧ limit_in 256 l.(ml_rewrite_depth) ∧
  limit_in 1000000 l.(ml_graph_edges) ∧ limit_in 1000 l.(ml_model_errors).
