(* ===== verification/Graph.v ===== *)
(** * Relationship-graph metadata

    [crates/openfga-model/src/graph.rs]: the edges between relations, the
    subject types and wildcards a relation can reach, and the strongly
    connected components behind recursion groups and the computed-cycle check.
    A stack of the source is a list with the top first. *)

From S2P Require Import Prelude Ordered Identifier Reference Condition Model ModelErrors.

(** ** Iterative traversal

    The [while let Some(node_id) = stack.pop()] loops over rewrite nodes: each
    node is visited once, the visit yields the nodes to push and the next
    state, or aborts with a code. *)

Section walk.
Context {St : Type}.
Variable visit : NodeId → St → result ModelErrorCode (list NodeId * St).

Fixpoint walk (fuel : nat) (stack : list NodeId) (seen : BTreeSet NodeId) (st : St) :
    option (result ModelErrorCode St) :=
  match fuel, stack with
  | _, [] => Some (Ok st)
  | 0, _ => None
  | S fuel, n :: stack =>
      if bs_contains n seen then walk fuel stack seen st
      else match visit n st with
           | Err code => Some (Err code)
           | Ok (children, st) => walk fuel (rev children ++ stack) (bs_insert n seen) st
           end
  end.
End walk.

(** Each node pushes its children once, and the root is pushed once. *)
Definition walk_fuel (nodes : list RewriteNode) : nat :=
  S (sum_list_with (fun n => length (node_children n)) nodes).

(** ** Edges *)

(** [sets.get_mut(i)] followed by [insert(x)]. *)
Definition insert_at (i x : nat) (l : list (BTreeSet nat)) : list (BTreeSet nat) :=
  match l !! i with
  | Some s => <[i := bs_insert x s]> l
  | None => l
  end.

Record GraphSets := mkGraphSets {
  gs_forward : list (BTreeSet RelationId);
  gs_reverse : list (BTreeSet RelationId);
  gs_types : list (BTreeSet TypeId);
  gs_wildcards : list (BTreeSet TypeId);
  gs_edges : N;
}.

Definition graph_sets_new (n : nat) : GraphSets :=
  mkGraphSets (replicate n []) (replicate n []) (replicate n []) (replicate n []) 0.

Definition insert_edge (source target : RelationId) (g : GraphSets) : GraphSets :=
  match g.(gs_forward) !! source with
  | Some edges =>
      if bs_contains target edges then g
      else mkGraphSets (insert_at source target g.(gs_forward)) (insert_at target source g.(gs_reverse))
             g.(gs_types) g.(gs_wildcards) (saturating_add USIZE_MAX g.(gs_edges) 1)
  | None => g
  end.

Definition insert_reverse_only (source target : RelationId) (g : GraphSets) : GraphSets :=
  match g.(gs_reverse) !! target with
  | Some edges =>
      if bs_contains source edges then g
      else mkGraphSets g.(gs_forward) (insert_at target source g.(gs_reverse)) g.(gs_types)
             g.(gs_wildcards) (saturating_add USIZE_MAX g.(gs_edges) 1)
  | None => g
  end.

(** One direct restriction of the relation that owns a [Direct] node. *)
Definition insert_restriction (r : RelationId) (g : GraphSets) (d : DirectRestriction) : GraphSets :=
  let g := mkGraphSets g.(gs_forward) g.(gs_reverse) (insert_at r d.(dr_subject_type) g.(gs_types))
             g.(gs_wildcards) g.(gs_edges) in
  match d.(dr_kind) with
  | RKUserset target => insert_edge r target g
  | RKWildcard => mkGraphSets g.(gs_forward) g.(gs_reverse) g.(gs_types)
                    (insert_at r d.(dr_subject_type) g.(gs_wildcards)) g.(gs_edges)
  | RKObject => g
  end.

(** ** Propagation *)

(** The union of the sets of all targets. *)
Definition gather (sets : list (BTreeSet nat)) (targets : list RelationId) : BTreeSet nat :=
  foldl (fun acc t => match sets !! t with Some s => bs_extend acc s | None => acc end) [] targets.

(** Extends the set at [i]; reports whether it grew. *)
Definition extend_at (i : nat) (added : BTreeSet nat) (sets : list (BTreeSet nat)) :
    list (BTreeSet nat) * bool :=
  match sets !! i with
  | Some s => let s' := bs_extend s added in
              (<[i := s']> sets, negb (length s' =? length s))
  | None => (sets, false)
  end.

Definition propagate_source (forward_sets : list (BTreeSet RelationId))
    (st : list (BTreeSet TypeId) * list (BTreeSet TypeId) * bool) (source : nat) :
    list (BTreeSet TypeId) * list (BTreeSet TypeId) * bool :=
  let '(types, wildcards, changed) := st in
  match forward_sets !! source with
  | None => st
  | Some targets =>
      let added_types := gather types targets in
      let added_wildcards := gather wildcards targets in
      let '(types, c1) := extend_at source added_types types in
      let '(wildcards, c2) := extend_at source added_wildcards wildcards in
      (types, wildcards, changed || c1 || c2)
  end.

(** [remaining] counts the rounds left. *)
Fixpoint propagate_loop (remaining : nat) (forward_sets : list (BTreeSet RelationId))
    (types wildcards : list (BTreeSet TypeId)) : list (BTreeSet TypeId) * list (BTreeSet TypeId) :=
  match remaining with
  | 0 => (types, wildcards)
  | S remaining =>
      let '(types, wildcards, changed) :=
        foldl (propagate_source forward_sets) (types, wildcards, false) (seq 0 (length forward_sets)) in
      if changed then propagate_loop remaining forward_sets types wildcards else (types, wildcards)
  end.

Definition propagate_reachability (forward_sets : list (BTreeSet RelationId))
    (types wildcards : list (BTreeSet TypeId)) : list (BTreeSet TypeId) * list (BTreeSet TypeId) :=
  propagate_loop (S (length forward_sets)) forward_sets types wildcards.

(** ** Strongly connected components *)

Definition reverse_of (edges : list (BTreeSet RelationId)) : list (BTreeSet RelationId) :=
  foldl (fun acc '(source, targets) =>
           match from_index source with
           | Some source => foldl (fun acc t => insert_at t source acc) acc targets
           | None => acc
           end)
    (replicate (length edges) []) (imap pair edges).

(** [seen.get(i).copied().unwrap_or(true)] *)
Definition flag_or_true (flags : list bool) (i : nat) : bool := default true (flags !! i).

(** The first pass: post-order of one depth-first search, with explicit
    [(node, expanded)] entries. *)
Fixpoint finish_loop (fuel : nat) (edges : list (BTreeSet RelationId))
    (stack : list (RelationId * bool)) (seen : list bool) (order : list RelationId) :
    option (list bool * list RelationId) :=
  match fuel, stack with
  | _, [] => Some (seen, order)
  | 0, _ => None
  | S fuel, (n, true) :: stack => finish_loop fuel edges stack seen (n :: order)
  | S fuel, (n, false) :: stack =>
      match seen !! n with
      | None | Some true => finish_loop fuel edges stack seen order
      | Some false =>
          let seen := <[n := true]> seen in
          let pushed := filter (fun t => flag_or_true seen t = false) (default [] (edges !! n)) in
          finish_loop fuel edges (((fun t => (t, false)) <$> pushed) ++ (n, true) :: stack) seen order
      end
  end.

(** The second pass: the component of one start node in the reversed graph. *)
Fixpoint assign_loop (fuel : nat) (reverse : list (BTreeSet RelationId)) (stack : list RelationId)
    (assigned : list bool) (component : list RelationId) : option (list bool * list RelationId) :=
  match fuel, stack with
  | _, [] => Some (assigned, component)
  | 0, _ => None
  | S fuel, n :: stack =>
      match assigned !! n with
      | None | Some true => assign_loop fuel reverse stack assigned component
      | Some false =>
          assign_loop fuel reverse (default [] (reverse !! n) ++ stack) (<[n := true]> assigned)
            (n :: component)
      end
  end.

(** A bound on the iterations of either pass: every node is expanded once,
    popped twice at most per push, and pushed once per incoming edge. *)
Definition scc_fuel (edges : list (BTreeSet RelationId)) : nat :=
  2 + 2 * length edges + sum_list_with length edges.

Fixpoint finish_order (edges : list (BTreeSet RelationId)) (starts : list nat) (seen : list bool)
    (order : list RelationId) : option (list RelationId) :=
  match starts with
  | [] => Some order
  | i :: starts =>
      if flag_or_true seen i then finish_order edges starts seen order
      else match from_index i with
           | None => finish_order edges starts seen order
           | Some start =>
               match finish_loop (scc_fuel edges) edges [(start, false)] seen order with
               | None => None
               | Some (seen, order) => finish_order edges starts seen order
               end
           end
  end.

(** [order] has the last finished node first, as [finish_order.pop()] yields it. *)
Fixpoint assign_components (reverse : list (BTreeSet RelationId)) (fuel : nat)
    (order : list RelationId) (assigned : list bool) (components : list (list RelationId)) :
    option (list (list RelationId)) :=
  match order with
  | [] => Some (rev components)
  | start :: order =>
      if flag_or_true assigned start then assign_components reverse fuel order assigned components
      else match assign_loop fuel reverse [start] assigned [] with
           | None => None
           | Some (assigned, component) =>
               assign_components reverse fuel order assigned (merge_sort le component :: components)
           end
  end.

Definition strongly_connected_components (edges : list (BTreeSet RelationId)) :
    option (list (list RelationId)) :=
  order ← finish_order edges (seq 0 (length edges)) (replicate (length edges) false) [];
  let reverse := reverse_of edges in
  assign_components reverse (scc_fuel reverse) order (replicate (length edges) false) [].

(** A component with an inner edge: more than one member, or a self-loop. *)
Definition is_recursive (edges : list (BTreeSet RelationId)) (component : list RelationId) : bool :=
  (1 <? length component)
  || match component with
     | [] => false
     | r :: _ => match edges !! r with Some targets => bs_contains r targets | None => false end
     end.

Definition recursion_groups (edges : list (BTreeSet RelationId)) : option (list (option N)) :=
  components ← strongly_connected_components edges;
  Some (fst (foldl
    (fun '(assignments, next) component =>
       if is_recursive edges component
       then (foldl (fun a r => <[r := Some next]> a) assignments component,
             saturating_add U32_MAX next 1)
       else (assignments, next))
    (replicate (length edges) None, 0%N) components)).

(** ** Metadata *)

Section metadata.
Variable relations : list CompiledRelation.
Variable nodes : list RewriteNode.

Definition graph_visit (limit : N) (r : RelationId) (n : NodeId) (g : GraphSets) :
    result ModelErrorCode (list NodeId * GraphSets) :=
  match nodes !! n with
  | None => Err InvalidRewrite
  | Some nd =>
      g ← match nd with
          | NDirect owner =>
              match relations !! owner with
              | None => Err InvalidRewrite
              | Some rel => Ok (foldl (insert_restriction r) g rel.(cr_restrictions))
              end
          | NComputed target => Ok (insert_edge r target g)
          | NTupleToUserset tupleset _ targets =>
              Ok (foldl (fun g t => insert_edge r t g) (insert_reverse_only r tupleset g) targets)
          | _ => Ok g
          end;
      if (limit <? g.(gs_edges))%N then Err GraphLimitExceeded else Ok (node_children nd, g)
  end.

Fixpoint visit_relations (limit : N) (l : list CompiledRelation) (g : GraphSets) :
    option (result ModelErrorCode GraphSets) :=
  match l with
  | [] => Some (Ok g)
  | rel :: l =>
      match walk (graph_visit limit rel.(cr_id)) (walk_fuel nodes) [rel.(cr_root)] [] g with
      | None => None
      | Some (Err code) => Some (Err code)
      | Some (Ok g) => visit_relations limit l g
      end
  end.

(** [None] is a loop bound that was too small; an aborted build pushes one
    diagnostic at the model path. *)
Definition build_graph_metadata {Detail} (limits : ModelLimits) (errors : ErrorCollector Detail) :
    option (option GraphMetadata * ErrorCollector Detail) :=
  visited ← visit_relations limits.(ml_graph_edges) relations (graph_sets_new (length relations));
  match visited with
  | Err code => Some (None, push errors code PModel)
  | Ok g =>
      let '(types, wildcards) :=
        propagate_reachability g.(gs_forward) g.(gs_types) g.(gs_wildcards) in
      groups ← recursion_groups g.(gs_forward);
      Some (Some (mkGraphMetadata g.(gs_forward) g.(gs_reverse) types wildcards groups), errors)
  end.

(** The visit of [computed_cycle_relations]; a missing node is skipped. *)
Definition computed_visit (r : RelationId) (n : NodeId) (edges : list (BTreeSet RelationId)) :
    result ModelErrorCode (list NodeId * list (BTreeSet RelationId)) :=
  match nodes !! n with
  | None => Ok ([], edges)
  | Some nd =>
      let edges := match nd with NComputed target => insert_at r target edges | _ => edges end in
      Ok (node_children nd, edges)
  end.

Fixpoint computed_edges (l : list CompiledRelation) (edges : list (BTreeSet RelationId)) :
    option (list (BTreeSet RelationId)) :=
  match l with
  | [] => Some edges
  | rel :: l =>
      match walk (computed_visit rel.(cr_id)) (walk_fuel nodes) [rel.(cr_root)] [] edges with
      | Some (Ok edges) => computed_edges l edges
      | Some (Err _) => Some edges
      | None => None
      end
  end.

Definition computed_cycle_relations : option (BTreeSet RelationId) :=
  edges ← computed_edges relations (replicate (length relations) []);
  components ← strongly_connected_components edges;
  Some (foldl (fun cyclic component =>
                 if is_recursive edges component then bs_extend cyclic component else cyclic)
          [] components).

End metadata.
