(* ===== verification/GraphTheory.v ===== *)
(** * What the graph metadata means

    The loops of [Graph] end within their bounds; a walk visits exactly the
    nodes of a rewrite; the metadata holds exactly the dependencies between
    relations and what is reachable along them. *)

From S2P Require Import Prelude Ordered Identifier Reference Condition Model ModelErrors Graph.

(** ** Loop bounds

    Every loop pops one entry per iteration and pushes the successors of a
    node only the first time it meets it. *)

Fixpoint weight (f : nat → nat) (live : nat → bool) (n : nat) : nat :=
  match n with
  | 0 => 0
  | S n => (if live n then f n else 0) + weight f live n
  end.

Lemma weight_same f live live' n :
  (∀ j, j < n → live j = live' j) → weight f live n = weight f live' n.
Proof.
  intros Hl. induction n as [|n IH]; simpl; [done|]. rewrite Hl by lia. rewrite IH; [done|].
  intros j Hj. apply Hl. lia.
Qed.

Lemma weight_kill f live live' n i :
  i < n → live i = true → live' i = false → (∀ j, j ≠ i → live' j = live j) →
  weight f live n = f i + weight f live' n.
Proof.
  intros Hi H1 H2 Hne. induction n as [|n IH]; simpl; [lia|].
  destruct (decide (i = n)) as [->|].
  - rewrite H1, H2. rewrite (weight_same f live live'); [lia|]. intros j Hj. rewrite Hne by lia. done.
  - rewrite IH by lia. rewrite (Hne n) by lia. lia.
Qed.

Lemma weight_list {A} (f : A → nat) (l : list A) :
  weight (fun i => default 0 (f <$> l !! i)) (fun _ => true) (length l) = sum_list_with f l.
Proof.
  assert (Hle : ∀ n, n ≤ length l →
    weight (fun i => default 0 (f <$> l !! i)) (fun _ => true) n = sum_list_with f (take n l)).
  { induction n as [|n IH]; intros Hn; simpl; [done|]. rewrite IH by lia.
    destruct (lookup_lt_is_Some_2 l n Hn) as [x Hx].
    rewrite (take_S_r _ _ _ Hx), sum_list_with_app, Hx. simpl. lia. }
  rewrite Hle by done. by rewrite take_ge.
Qed.

(** *** Traversal of rewrite nodes *)

Section walk_theory.
Context {St : Type}.
Variable visit : NodeId → St → result ModelErrorCode (list NodeId * St).
Variable nodes : list RewriteNode.

(** The successors of a node. *)
Definition successors (n : NodeId) : list NodeId := default [] (node_children <$> nodes !! n).

Lemma weight_successors :
  weight (fun n => length (successors n)) (fun _ => true) (length nodes) =
  sum_list_with (fun n => length (node_children n)) nodes.
Proof.
  rewrite <-(weight_list (fun n => length (node_children n))).
  assert (Hf : ∀ n, length (successors n) = default 0 ((fun n => length (node_children n)) <$> nodes !! n))
    by (intros n; unfold successors; by destruct (nodes !! n)).
  generalize (length nodes) as k. induction k as [|k IH]; simpl; [done|]. by rewrite Hf, IH.
Qed.

Hypothesis visit_successors : ∀ n st cs st', visit n st = Ok (cs, st') → cs = successors n.

Abbreviation unvisited seen :=
  (weight (fun n => length (successors n)) (fun n => negb (bs_contains n seen)) (length nodes)).

Lemma unvisited_insert n seen :
  n ∉ seen → unvisited seen = length (successors n) + unvisited (bs_insert n seen).
Proof.
  intros Hn. destruct (decide (n < length nodes)) as [Hlt|Hge].
  - apply (weight_kill (fun n => length (successors n))); [done| | |].
    + apply bs_contains_false in Hn. by rewrite Hn.
    + apply negb_false_iff, bs_contains_elem, bs_insert_elem. by left.
    + intros j Hj. f_equal. apply eq_true_iff_eq. rewrite !bs_contains_elem, bs_insert_elem. naive_solver.
  - assert (Hs : successors n = []).
    { unfold successors. by rewrite (proj2 (lookup_ge_None nodes n)) by lia. }
    rewrite Hs. simpl. apply weight_same. intros j Hj. f_equal. apply eq_true_iff_eq.
    rewrite !bs_contains_elem, bs_insert_elem. split; [tauto|]. intros [->|]; [lia|done].
Qed.

Lemma walk_enough fuel : ∀ stack seen st,
  length stack + unvisited seen ≤ fuel → walk visit fuel stack seen st ≠ None.
Proof.
  induction fuel as [|fuel IH]; intros [|n stack] seen st Hle; simpl in *; try done; [lia|].
  destruct (bs_contains n seen) eqn:Hn; [apply IH; lia|].
  apply bs_contains_false in Hn. destruct (visit n st) as [[cs st']|] eqn:Hv; [|done].
  apply visit_successors in Hv as ->. apply IH.
  rewrite (unvisited_insert n) in Hle by done. rewrite length_app, length_rev. lia.
Qed.

Lemma walk_total root st : walk visit (walk_fuel nodes) [root] [] st ≠ None.
Proof.
  apply walk_enough. unfold walk_fuel. rewrite <-weight_successors. simpl. lia.
Qed.

(** A walk visits exactly the nodes reachable from its stack. *)
Abbreviation step := (fun a b : NodeId => b ∈ successors a).

Lemma walk_visits (P : BTreeSet NodeId → St → Prop) fuel : ∀ stack seen st st',
  (∀ seen st n cs st', P seen st → n ∉ seen → visit n st = Ok (cs, st') → P (bs_insert n seen) st') →
  P seen st → walk visit fuel stack seen st = Some (Ok st') →
  ∃ seen', P seen' st' ∧ (∀ n, n ∈ seen ∨ n ∈ stack → n ∈ seen') ∧
    (∀ n, n ∈ seen' → n ∈ seen ∨ ∀ c, step n c → c ∈ seen') ∧
    (∀ n, n ∈ seen' → n ∈ seen ∨ ∃ s, s ∈ stack ∧ rtc step s n).
Proof.
  induction fuel as [|fuel IH]; intros [|n stack] seen st st' HP Hst; simpl; try done.
  - intros [= <-]. exists seen. split_and!; [done|set_solver|tauto|tauto].
  - intros [= <-]. exists seen. split_and!; [done|set_solver|tauto|tauto].
  - destruct (bs_contains n seen) eqn:Hn; [apply bs_contains_elem in Hn|apply bs_contains_false in Hn].
    + intros E. destruct (IH stack seen st st' HP Hst E) as (seen' & ? & Hin & Hcl & Hex).
      exists seen'. split_and!; [done|set_solver|done|]. intros m Hm. destruct (Hex m Hm) as [|(x & ? & ?)]; set_solver.
    + destruct (visit n st) as [[cs st1]|] eqn:Hv; [|done]. intros E.
      apply visit_successors in Hv as Hcs. subst cs.
      destruct (IH _ _ st1 st' HP (HP _ _ _ _ _ Hst Hn Hv) E) as (seen' & ? & Hin & Hcl & Hex).
      assert (Hcs : ∀ c, c ∈ rev (successors n) ↔ step n c) by (intros c; by rewrite !list_elem_of_In, <-in_rev).
      exists seen'. split_and!; [done| | |].
      * intros m Hm. apply Hin. rewrite bs_insert_elem, elem_of_app. set_solver.
      * intros m Hm. destruct (Hcl m Hm) as [Hi|]; [|by right]. apply bs_insert_elem in Hi as [->|]; [|by left].
        right. intros c Hc. apply Hin. right. apply elem_of_app. left. by apply Hcs.
      * intros m Hm. destruct (Hex m Hm) as [Hi|(x & Hx & Hp)].
        -- apply bs_insert_elem in Hi as [->|]; [|by left]. right. exists n. split; [by left|done].
        -- right. apply elem_of_app in Hx as [Hx|Hx]; [|exists x; set_solver].
           exists n. split; [by left|]. apply Hcs in Hx. by eapply rtc_l.
Qed.

End walk_theory.

(** ** The base graph *)

(** [x] is in the set at index [i]. *)
Definition at_ (l : list (BTreeSet nat)) (i x : nat) : Prop := ∃ s, l !! i = Some s ∧ x ∈ s.

Lemma at_lt l i x : at_ l i x → i < length l.
Proof. intros (s & Hs & _). by eapply lookup_lt_Some. Qed.

Lemma at_new n i x : ¬ at_ (replicate n []) i x.
Proof. intros (s & [-> _]%lookup_replicate & Hx). by apply not_elem_of_nil in Hx. Qed.

Lemma at_lookup l i s x : l !! i = Some s → at_ l i x ↔ x ∈ s.
Proof. unfold at_. naive_solver. Qed.

Lemma at_insert l i s j x :
  i < length l → at_ (<[i := s]> l) j x ↔ (j = i ∧ x ∈ s) ∨ (j ≠ i ∧ at_ l j x).
Proof.
  intros Hi. unfold at_. destruct (decide (j = i)) as [->|Hne].
  - rewrite list_lookup_insert_eq by done. naive_solver.
  - rewrite list_lookup_insert_ne by done. naive_solver.
Qed.

Lemma insert_at_length i x l : length (insert_at i x l) = length l.
Proof. unfold insert_at. case_match; [apply length_insert|done]. Qed.

Lemma insert_at_spec i x l j y :
  at_ (insert_at i x l) j y ↔ at_ l j y ∨ (j = i ∧ y = x ∧ i < length l).
Proof.
  unfold insert_at, at_. destruct (l !! i) as [s|] eqn:E.
  - apply lookup_lt_Some in E as Hlt. destruct (decide (j = i)) as [->|Hne].
    + rewrite list_lookup_insert_eq by done. split.
      * intros (? & [= <-] & Hy). apply bs_insert_elem in Hy as [->|]; [by right|left; eauto].
      * intros [(s' & ? & ?)|(_ & -> & _)]; simplify_eq; eexists; (split; [done|]);
          apply bs_insert_elem; auto.
    + rewrite list_lookup_insert_ne by done. naive_solver.
  - apply lookup_ge_None in E. split; [by left|]. intros [|(_ & _ & ?)]; [done|lia].
Qed.

Section base_graph.
Variable relations : list CompiledRelation.
Variable nodes : list RewriteNode.

(** What one node contributes to the relation it belongs to: a dependency on
    another relation, a subject type, a wildcard type, a tupleset. *)
Inductive node_edge : RewriteNode → RelationId → Prop :=
| edge_computed t : node_edge (NComputed t) t
| edge_ttu ts c targets t : t ∈ targets → node_edge (NTupleToUserset ts c targets) t
| edge_userset owner rel d t :
    relations !! owner = Some rel → d ∈ rel.(cr_restrictions) → d.(dr_kind) = RKUserset t →
    node_edge (NDirect owner) t.

Inductive node_type : RewriteNode → TypeId → Prop :=
| type_direct owner rel d :
    relations !! owner = Some rel → d ∈ rel.(cr_restrictions) →
    node_type (NDirect owner) d.(dr_subject_type).

Inductive node_wildcard : RewriteNode → TypeId → Prop :=
| wildcard_direct owner rel d :
    relations !! owner = Some rel → d ∈ rel.(cr_restrictions) → d.(dr_kind) = RKWildcard →
    node_wildcard (NDirect owner) d.(dr_subject_type).

Definition node_tupleset (n : RewriteNode) (t : RelationId) : Prop :=
  match n with NTupleToUserset ts _ _ => t = ts | _ => False end.

Record graph_sets_wf (g : GraphSets) : Prop := {
  wf_reverse : length g.(gs_reverse) = length g.(gs_forward);
  wf_types : length g.(gs_types) = length g.(gs_forward);
  wf_wildcards : length g.(gs_wildcards) = length g.(gs_forward);
  wf_transposed : ∀ s t, at_ g.(gs_forward) s t → t < length g.(gs_forward) → at_ g.(gs_reverse) t s;
}.

(** [g'] extends [g] with facts about relation [r] only. *)
Record extends (r : RelationId) (edge type wild tset : nat → Prop) (g g' : GraphSets) : Prop := {
  ex_wf : graph_sets_wf g';
  ex_length : length g'.(gs_forward) = length g.(gs_forward);
  ex_forward : ∀ i x, at_ g'.(gs_forward) i x ↔ at_ g.(gs_forward) i x ∨ (i = r ∧ edge x);
  ex_types : ∀ i x, at_ g'.(gs_types) i x ↔ at_ g.(gs_types) i x ∨ (i = r ∧ type x);
  ex_wildcards : ∀ i x, at_ g'.(gs_wildcards) i x ↔ at_ g.(gs_wildcards) i x ∨ (i = r ∧ wild x);
  ex_reverse : ∀ i x, at_ g'.(gs_reverse) i x ↔
    at_ g.(gs_reverse) i x ∨ (x = r ∧ i < length g.(gs_forward) ∧ (edge i ∨ tset i));
}.

Lemma extends_refl r g : graph_sets_wf g → extends r (fun _ => False) (fun _ => False) (fun _ => False) (fun _ => False) g g.
Proof. intros Hwf. constructor; try done; naive_solver. Qed.

Lemma extends_trans r e1 t1 w1 s1 e2 t2 w2 s2 g1 g2 g3 :
  extends r e1 t1 w1 s1 g1 g2 → extends r e2 t2 w2 s2 g2 g3 →
  extends r (fun x => e1 x ∨ e2 x) (fun x => t1 x ∨ t2 x) (fun x => w1 x ∨ w2 x)
    (fun x => s1 x ∨ s2 x) g1 g3.
Proof.
  intros [Hwf1 Hl1 Hf1 Ht1 Hw1 Hr1] [Hwf2 Hl2 Hf2 Ht2 Hw2 Hr2]. constructor; [done|congruence|..].
  - intros i x. rewrite Hf2, Hf1. tauto.
  - intros i x. rewrite Ht2, Ht1. tauto.
  - intros i x. rewrite Hw2, Hw1. tauto.
  - intros i x. rewrite Hr2, Hr1, Hl1. tauto.
Qed.

Lemma extends_iff r e1 t1 w1 s1 e2 t2 w2 s2 g g' :
  (∀ x, e1 x ↔ e2 x) → (∀ x, t1 x ↔ t2 x) → (∀ x, w1 x ↔ w2 x) → (∀ x, s1 x ↔ s2 x) →
  extends r e1 t1 w1 s1 g g' → extends r e2 t2 w2 s2 g g'.
Proof.
  intros He Ht Hw Hs [Hwf Hl Hf1 Ht1 Hw1 Hr1]. constructor; [done|done|..]; intros i x.
  - by rewrite Hf1, He.
  - by rewrite Ht1, Ht.
  - by rewrite Hw1, Hw.
  - by rewrite Hr1, He, Hs.
Qed.

Lemma insert_edge_extends r t g :
  graph_sets_wf g → r < length g.(gs_forward) →
  extends r (fun x => x = t) (fun _ => False) (fun _ => False) (fun _ => False) g (insert_edge r t g).
Proof.
  intros [] Hr. unfold insert_edge. destruct (gs_forward g !! r) as [edges|] eqn:E;
    [|apply lookup_ge_None in E; lia].
  destruct (bs_contains t edges) eqn:Ec.
  - apply bs_contains_elem in Ec. assert (at_ (gs_forward g) r t) by (by exists edges).
    constructor; [done|done|naive_solver|naive_solver|naive_solver|].
    intros i x. split; [by left|]. intros [|(-> & Hi & [->|[]])]; [done|]. by apply wf_transposed0.
  - constructor; simpl; rewrite ?insert_at_length; try done; try naive_solver.
    + constructor; simpl; rewrite ?insert_at_length; try done. intros s x. rewrite !insert_at_spec.
      intros [|(-> & -> & _)] Hlt; [left; by apply wf_transposed0|right]. split_and!; [done|done|lia].
    + intros i x. rewrite insert_at_spec. naive_solver.
    + intros i x. rewrite insert_at_spec, wf_reverse0. naive_solver.
Qed.

Lemma insert_reverse_only_extends r t g :
  graph_sets_wf g →
  extends r (fun _ => False) (fun _ => False) (fun _ => False) (fun x => x = t) g (insert_reverse_only r t g).
Proof.
  intros []. unfold insert_reverse_only. destruct (gs_reverse g !! t) as [edges|] eqn:E.
  - apply lookup_lt_Some in E as Hlt. rewrite wf_reverse0 in Hlt. destruct (bs_contains r edges) eqn:Ec.
    + apply bs_contains_elem in Ec. assert (at_ (gs_reverse g) t r) by (by exists edges).
      constructor; [done|done|naive_solver..].
    + constructor; simpl; rewrite ?insert_at_length; try done; try naive_solver.
      * constructor; simpl; rewrite ?insert_at_length; try done. intros s x Hsx Hx.
        apply insert_at_spec. left. by apply wf_transposed0.
      * intros i x. rewrite insert_at_spec, wf_reverse0. naive_solver.
  - apply lookup_ge_None in E. rewrite wf_reverse0 in E.
    constructor; [done|done|naive_solver..|]. intros i x. naive_solver lia.
Qed.

Lemma insert_restriction_extends r d g :
  graph_sets_wf g → r < length g.(gs_forward) →
  extends r (fun x => d.(dr_kind) = RKUserset x) (fun x => x = d.(dr_subject_type))
    (fun x => d.(dr_kind) = RKWildcard ∧ x = d.(dr_subject_type)) (fun _ => False) g
    (insert_restriction r g d).
Proof.
  intros Hwf Hr. unfold insert_restriction.
  set (g1 := mkGraphSets (gs_forward g) (gs_reverse g) (insert_at r (dr_subject_type d) (gs_types g))
               (gs_wildcards g) (gs_edges g)).
  assert (H1 : extends r (fun _ => False) (fun x => x = dr_subject_type d) (fun _ => False)
                 (fun _ => False) g g1).
  { destruct Hwf. constructor; simpl; try done; try naive_solver.
    - by constructor; simpl; rewrite ?insert_at_length.
    - intros i x. rewrite insert_at_spec, wf_types0. naive_solver. }
  destruct (dr_kind d) as [|t|] eqn:Ek.
  - eapply extends_iff; [..|exact H1]; naive_solver.
  - eapply extends_iff;
      [..|exact (extends_trans _ _ _ _ _ _ _ _ _ _ _ _ H1 (insert_edge_extends r t g1 (ex_wf _ _ _ _ _ _ _ H1) Hr))];
      naive_solver.
  - assert (H2 : extends r (fun _ => False) (fun _ => False) (fun x => x = dr_subject_type d)
                   (fun _ => False) g1
                   (mkGraphSets (gs_forward g1) (gs_reverse g1) (gs_types g1)
                      (insert_at r (dr_subject_type d) (gs_wildcards g1)) (gs_edges g1))).
    { destruct (ex_wf _ _ _ _ _ _ _ H1) as [? ? Hlw Htr]. constructor; try (simpl; tauto).
      - constructor; cbn [gs_forward gs_reverse gs_types gs_wildcards]; rewrite ?insert_at_length; done.
      - intros i x. cbn [gs_wildcards]. rewrite insert_at_spec, Hlw.
        assert (r < length (gs_forward g1)) by done. naive_solver. }
    eapply extends_iff; [..|exact (extends_trans _ _ _ _ _ _ _ _ _ _ _ _ H1 H2)]; intros x; simpl; naive_solver.
Qed.

Lemma foldl_extends {A} (f : GraphSets → A → GraphSets) r (E T W S : A → nat → Prop) l : ∀ g,
  (∀ g x, x ∈ l → graph_sets_wf g → r < length g.(gs_forward) → extends r (E x) (T x) (W x) (S x) g (f g x)) →
  graph_sets_wf g → r < length g.(gs_forward) →
  extends r (fun y => ∃ x, x ∈ l ∧ E x y) (fun y => ∃ x, x ∈ l ∧ T x y) (fun y => ∃ x, x ∈ l ∧ W x y)
    (fun y => ∃ x, x ∈ l ∧ S x y) g (foldl f g l).
Proof.
  induction l as [|a l IH]; intros g Hf Hwf Hr; simpl.
  - eapply extends_iff; [..|by apply extends_refl]; set_solver.
  - pose proof (Hf g a ltac:(by left) Hwf Hr) as H1.
    assert (Hr' : r < length (gs_forward (f g a))) by (by rewrite (ex_length _ _ _ _ _ _ _ H1)).
    pose proof (IH (f g a) ltac:(intros; apply Hf; [by right|done|done]) (ex_wf _ _ _ _ _ _ _ H1) Hr') as H2.
    eapply extends_iff; [..|exact (extends_trans _ _ _ _ _ _ _ _ _ _ _ _ H1 H2)]; set_solver.
Qed.

Lemma graph_visit_extends limit r n g cs g' :
  graph_sets_wf g → r < length g.(gs_forward) →
  graph_visit relations nodes limit r n g = Ok (cs, g') →
  ∃ nd, nodes !! n = Some nd ∧ cs = node_children nd ∧
    extends r (node_edge nd) (node_type nd) (node_wildcard nd) (node_tupleset nd) g g'.
Proof.
  intros Hwf Hr. unfold graph_visit. destruct (nodes !! n) as [nd|]; [|done].
  intros (g1 & Hg & Hlim)%result_bind_ok. case_match; simplify_eq. exists nd.
  split; [done|]. split; [done|]. destruct nd as [o|t|ts c targets|ch|ch|b s].
  - destruct (relations !! o) as [rel|] eqn:Eo; simplify_eq.
    eapply extends_iff;
      [..|exact (foldl_extends _ r _ _ _ _ _ g (fun g d _ => insert_restriction_extends r d g) Hwf Hr)];
      intros x; simpl.
    + split; [intros (d & ? & ?); by eapply edge_userset|inversion 1; simplify_eq; eauto].
    + split; [intros (d & ? & ->); by econstructor|inversion 1; simplify_eq; eauto].
    + split; [intros (d & ? & ? & ->); by econstructor|inversion 1; simplify_eq; eauto].
    + set_solver.
  - simplify_eq. eapply extends_iff; [..|by apply insert_edge_extends]; intros x; simpl; [|split; [done|by inversion 1]..].
    split; [intros ->; apply edge_computed|by inversion 1].
  - simplify_eq. pose proof (insert_reverse_only_extends r ts g Hwf) as H1.
    assert (Hr1 : r < length (gs_forward (insert_reverse_only r ts g)))
      by (by rewrite (ex_length _ _ _ _ _ _ _ H1)).
    eapply extends_iff;
      [..|exact (extends_trans _ _ _ _ _ _ _ _ _ _ _ _ H1
            (foldl_extends _ r _ _ _ _ _ _ (fun g t _ => insert_edge_extends r t g)
               (ex_wf _ _ _ _ _ _ _ H1) Hr1))]; intros x; simpl.
    + split; [intros [[]|(t & ? & ->)]; by constructor|inversion 1; subst; eauto].
    + split; [set_solver|inversion 1].
    + split; [set_solver|inversion 1].
    + set_solver.
  - simplify_eq. eapply extends_iff; [..|by apply extends_refl]; intros x; (split; [done|by inversion 1]).
  - simplify_eq. eapply extends_iff; [..|by apply extends_refl]; intros x; (split; [done|by inversion 1]).
  - simplify_eq. eapply extends_iff; [..|by apply extends_refl]; intros x; (split; [done|by inversion 1]).
Qed.

(** Node [n] occurs in the rewrite rooted at [root]. *)
Definition in_rewrite (root n : NodeId) : Prop :=
  rtc (fun a b => b ∈ successors nodes a) root n.

(** A completed walk has seen exactly the rewrite of its root. *)
Lemma walk_rewrite {St} (visit : NodeId → St → result ModelErrorCode (list NodeId * St))
    (Hvisit : ∀ n st cs st', visit n st = Ok (cs, st') → cs = successors nodes n)
    (P : BTreeSet NodeId → St → Prop) root st st' :
  (∀ seen st n cs st', P seen st → n ∉ seen → visit n st = Ok (cs, st') → P (bs_insert n seen) st') →
  P [] st → walk visit (walk_fuel nodes) [root] [] st = Some (Ok st') →
  ∃ seen, P seen st' ∧ ∀ n, n ∈ seen ↔ in_rewrite root n.
Proof.
  intros HP Hst E. destruct (walk_visits visit nodes Hvisit P (walk_fuel nodes) [root] [] st st' HP Hst E)
    as (seen & Hseen & Hin & Hcl & Hreach).
  exists seen. split; [done|]. intros n. split.
  - intros Hn. destruct (Hreach n Hn) as [[]%not_elem_of_nil|(x & Hx & Hp)].
    by apply list_elem_of_singleton in Hx as ->.
  - intros Hp. assert (Hroot : root ∈ seen) by (apply Hin; right; by left).
    clear -Hp Hroot Hcl. revert Hroot. induction Hp as [|a b c Hab _ IH]; [done|]. intros Ha. apply IH.
    destruct (Hcl a Ha) as [[]%not_elem_of_nil|Hc]. by apply Hc.
Qed.

(** The facts of a whole rewrite. *)
Definition rewrite_fact (fact : RewriteNode → nat → Prop) (root : NodeId) (x : nat) : Prop :=
  ∃ n nd, in_rewrite root n ∧ nodes !! n = Some nd ∧ fact nd x.

Definition seen_fact (fact : RewriteNode → nat → Prop) (seen : BTreeSet NodeId) (x : nat) : Prop :=
  ∃ n nd, n ∈ seen ∧ nodes !! n = Some nd ∧ fact nd x.

Lemma seen_fact_insert fact n nd seen x :
  nodes !! n = Some nd → seen_fact fact (bs_insert n seen) x ↔ seen_fact fact seen x ∨ fact nd x.
Proof.
  intros Hn. unfold seen_fact. split.
  - intros (m & md & Hm & Hmd & Hf). apply bs_insert_elem in Hm as [->|Hm]; [|left; eauto 10].
    right. by simplify_eq.
  - intros [(m & md & Hm & ? & ?)|Hf].
    + exists m, md. split; [|done]. apply bs_insert_elem. by right.
    + exists n, nd. split; [|done]. apply bs_insert_elem. by left.
Qed.

Lemma graph_visit_successors limit r n g cs g' :
  graph_visit relations nodes limit r n g = Ok (cs, g') → cs = successors nodes n.
Proof.
  unfold graph_visit, successors. destruct (nodes !! n); [|done].
  intros (g1 & _ & ?)%result_bind_ok. case_match; by simplify_eq.
Qed.

Lemma walk_extends limit r root g g' :
  graph_sets_wf g → r < length g.(gs_forward) →
  walk (graph_visit relations nodes limit r) (walk_fuel nodes) [root] [] g = Some (Ok g') →
  extends r (rewrite_fact node_edge root) (rewrite_fact node_type root)
    (rewrite_fact node_wildcard root) (rewrite_fact node_tupleset root) g g'.
Proof.
  intros Hwf Hr E.
  destruct (walk_rewrite _ (graph_visit_successors limit r)
    (fun seen st => extends r (seen_fact node_edge seen) (seen_fact node_type seen)
       (seen_fact node_wildcard seen) (seen_fact node_tupleset seen) g st) root g g')
    as (seen & Hex & Hseen); [| |exact E|].
  - intros seen st n cs st' Hext _ Hv.
    apply graph_visit_extends in Hv as (nd & Hn & _ & Hext');
      [|by eapply ex_wf|by rewrite (ex_length _ _ _ _ _ _ _ Hext)].
    eapply extends_iff; [..|exact (extends_trans _ _ _ _ _ _ _ _ _ _ _ _ Hext Hext')];
      intros x; by rewrite (seen_fact_insert _ n nd).
  - eapply extends_iff; [..|by apply extends_refl]; intros x; (split; [done|]);
      intros (n & nd & Hn & _); by apply not_elem_of_nil in Hn.
  - eapply extends_iff; [..|exact Hex]; intros x; unfold seen_fact, rewrite_fact;
      by setoid_rewrite Hseen.
Qed.

(** ** Every relation *)

Definition relation_fact (l : list CompiledRelation) (fact : RewriteNode → nat → Prop) (r x : nat) : Prop :=
  ∃ rel, rel ∈ l ∧ rel.(cr_id) = r ∧ rewrite_fact fact rel.(cr_root) x.

Record facts_of (l : list CompiledRelation) (g g' : GraphSets) : Prop := {
  fo_wf : graph_sets_wf g';
  fo_length : length g'.(gs_forward) = length g.(gs_forward);
  fo_forward : ∀ i x, at_ g'.(gs_forward) i x ↔ at_ g.(gs_forward) i x ∨ relation_fact l node_edge i x;
  fo_types : ∀ i x, at_ g'.(gs_types) i x ↔ at_ g.(gs_types) i x ∨ relation_fact l node_type i x;
  fo_wildcards : ∀ i x,
    at_ g'.(gs_wildcards) i x ↔ at_ g.(gs_wildcards) i x ∨ relation_fact l node_wildcard i x;
  fo_reverse : ∀ i x, at_ g'.(gs_reverse) i x ↔ at_ g.(gs_reverse) i x ∨
    (i < length g.(gs_forward) ∧ (relation_fact l node_edge x i ∨ relation_fact l node_tupleset x i));
}.

Lemma relation_fact_cons rel l fact r x :
  relation_fact (rel :: l) fact r x ↔
  (r = rel.(cr_id) ∧ rewrite_fact fact rel.(cr_root) x) ∨ relation_fact l fact r x.
Proof. unfold relation_fact. setoid_rewrite elem_of_cons. naive_solver. Qed.

Lemma visit_relations_facts limit l : ∀ g g',
  graph_sets_wf g → (∀ rel, rel ∈ l → rel.(cr_id) < length g.(gs_forward)) →
  visit_relations relations nodes limit l g = Some (Ok g') → facts_of l g g'.
Proof.
  induction l as [|rel l IH]; intros g g' Hwf Hids; cbn [visit_relations].
  - intros [= <-]. assert (Hno : ∀ fact i x, ¬ relation_fact [] fact i x)
      by (intros fact i x (? & []%not_elem_of_nil & _)).
    constructor; try done; intros i x; pose proof (Hno node_edge i x); pose proof (Hno node_type i x);
      pose proof (Hno node_wildcard i x); pose proof (Hno node_edge x i);
      pose proof (Hno node_tupleset x i); tauto.
  - destruct (walk _ _ _ _ g) as [[g1|]|] eqn:E; [|done|done]. intros E2.
    apply walk_extends in E as [Hwf1 Hl1 Hf1 Ht1 Hw1 Hr1]; [|done|apply Hids; by left].
    apply IH in E2 as [Hwf2 Hl2 Hf2 Ht2 Hw2 Hr2]; [|done|intros; rewrite Hl1; apply Hids; by right].
    constructor; [done|congruence|..]; intros i x.
    + rewrite Hf2, Hf1, relation_fact_cons. tauto.
    + rewrite Ht2, Ht1, relation_fact_cons. tauto.
    + rewrite Hw2, Hw1, relation_fact_cons. tauto.
    + rewrite Hr2, Hr1, Hl1, !relation_fact_cons. tauto.
Qed.

End base_graph.

(** ** Reachability

    Propagation along the edges reaches its fixpoint within the rounds it is
    allowed, because a relation on a path to a type is needed only once. *)

Section paths.
Context (R : nat → nat → Prop).

Fixpoint path (i : nat) (l : list nat) (j : nat) : Prop :=
  match l with
  | [] => i = j
  | k :: l => R i k ∧ path k l j
  end.

Lemma path_cut i l1 k l2 j : path i (l1 ++ k :: l2) j → path k l2 j.
Proof. revert i. induction l1 as [|a l1 IH]; intros i; simpl; [tauto|]. intros [_ ?]. by eapply IH. Qed.

Lemma simple_path i j : rtc R i j → ∃ l, path i l j ∧ NoDup (i :: l).
Proof.
  induction 1 as [i|i k j Hik _ (l & Hp & Hnd)].
  - exists []. split; [done|]. apply NoDup_singleton.
  - destruct (decide (i ∈ k :: l)) as [Hin|Hin].
    + apply list_elem_of_split in Hin as (l1 & l2 & E). exists l2. split.
      * destruct l1 as [|a l1]; simplify_eq/=; [done|]. by eapply path_cut.
      * rewrite E in Hnd. by apply NoDup_app in Hnd as (_ & _ & Hnd).
    + exists (k :: l). split; [done|]. by constructor.
Qed.

Lemma path_lt n i l j : (∀ a b, R a b → a < n) → j < n → path i l j → ∀ x, x ∈ i :: l → x < n.
Proof.
  intros HR Hj. revert i. induction l as [|k l IH]; intros i; simpl.
  - intros -> x ->%list_elem_of_singleton. done.
  - intros [Hik Hp] x [->|Hx]%elem_of_cons; [by eapply HR|]. by eapply IH.
Qed.

Lemma NoDup_lt_length n (l : list nat) : NoDup l → (∀ x, x ∈ l → x < n) → length l ≤ n.
Proof.
  intros Hnd Hlt. rewrite <-(length_seq n 0). apply submseteq_length, NoDup_submseteq; [done|].
  intros x Hx. apply elem_of_seq. specialize (Hlt x Hx). lia.
Qed.

Lemma short_path n i j :
  (∀ a b, R a b → a < n) → j < n → rtc R i j → ∃ l, path i l j ∧ length l < n.
Proof.
  intros HR Hj (l & Hp & Hnd)%simple_path. exists l. split; [done|].
  apply (NoDup_lt_length n) in Hnd; [done|]. by eapply path_lt.
Qed.

Lemma path_rtc i l j : path i l j → rtc R i j.
Proof. revert i. induction l as [|k l IH]; intros i; simpl; [by intros ->|]. intros [? ?]. eapply rtc_l; eauto. Qed.

End paths.

Section propagation.
Variable fwd : list (BTreeSet RelationId).
Abbreviation edge := (at_ fwd).

(** One source on one family of sets. *)
Definition propagate_one (sets : list (BTreeSet nat)) (source : nat) : list (BTreeSet nat) :=
  match fwd !! source with
  | None => sets
  | Some targets => fst (extend_at source (gather sets targets) sets)
  end.

Definition same_sets (l l' : list (BTreeSet nat)) : Prop := ∀ i x, at_ l i x ↔ at_ l' i x.

Lemma gather_elem sets targets x :
  x ∈ gather sets targets ↔ ∃ t, t ∈ targets ∧ at_ sets t x.
Proof.
  unfold gather. assert (Hacc : ∀ acc, x ∈ foldl (fun acc t => match sets !! t with
      Some s => bs_extend acc s | None => acc end) acc targets ↔
      x ∈ acc ∨ ∃ t, t ∈ targets ∧ at_ sets t x).
  { induction targets as [|t targets IH]; intros acc; simpl.
    - split; [by left|]. intros [|(? & []%not_elem_of_nil & _)]. done.
    - rewrite IH. setoid_rewrite elem_of_cons. unfold at_. destruct (sets !! t) as [s|] eqn:E.
      + rewrite bs_extend_elem. split; [naive_solver|]. intros [|(t' & [->|] & s' & ? & ?)]; [naive_solver| |].
        * left. right. by assert (s' = s) as -> by congruence.
        * right. eauto.
      + split; [naive_solver|]. intros [|(t' & [->|] & s' & ? & ?)]; [naive_solver|congruence|right; eauto]. }
  rewrite Hacc. split; [|by right]. intros [[]%not_elem_of_nil|]; done.
Qed.

Lemma propagate_one_spec sets s i x :
  at_ (propagate_one sets s) i x ↔
  at_ sets i x ∨ (i = s ∧ i < length sets ∧ ∃ t, edge s t ∧ at_ sets t x).
Proof.
  unfold propagate_one, extend_at. destruct (fwd !! s) as [targets|] eqn:Ef.
  - setoid_rewrite (at_lookup _ _ _ _ Ef). destruct (sets !! s) as [set|] eqn:Es; simpl.
    + apply lookup_lt_Some in Es as Hlt. rewrite at_insert by done.
      rewrite bs_extend_elem, gather_elem. destruct (decide (i = s)) as [->|Hne]; [|naive_solver].
      rewrite (at_lookup _ _ _ _ Es). naive_solver.
    + apply lookup_ge_None in Es. split; [by left|]. intros [|(-> & ? & _)]; [done|lia].
  - split; [by left|]. intros [|(_ & _ & t & (? & ? & _) & _)]; congruence.
Qed.

Lemma propagate_one_length sets s : length (propagate_one sets s) = length sets.
Proof. unfold propagate_one, extend_at. repeat case_match; simpl; by rewrite ?length_insert. Qed.

(** A round from any state: nothing is lost, every edge is used once, and
    nothing beyond one more path is gained. *)
Lemma propagate_fold_spec l : ∀ sets,
  let sets' := foldl propagate_one sets l in
  length sets' = length sets ∧
  (∀ i x, at_ sets i x → at_ sets' i x) ∧
  (∀ i t x, i ∈ l → i < length sets → edge i t → at_ sets t x → at_ sets' i x) ∧
  (∀ i x, at_ sets' i x → ∃ j, rtc edge i j ∧ at_ sets j x).
Proof.
  induction l as [|s l IH]; intros sets; simpl.
  - split_and!; [done|done|by intros ??? []%not_elem_of_nil|eauto using rtc_refl].
  - destruct (IH (propagate_one sets s)) as (Hlen & Hkeep & Hstep & Hsound).
    rewrite propagate_one_length in *. split_and!; [done| | |].
    + intros i x Hx. apply Hkeep, propagate_one_spec. by left.
    + intros i t x [->|Hi]%elem_of_cons Hlt He Hx.
      * apply Hkeep, propagate_one_spec. right. eauto.
      * eapply Hstep; [done|done|done|]. apply propagate_one_spec. by left.
    + intros i x (j & Hp & Hx)%Hsound. apply propagate_one_spec in Hx as [Hx|(-> & _ & t & He & Hx)].
      * eauto.
      * exists t. split; [|done]. by eapply rtc_r.
Qed.

(** The source's fold is the two folds side by side. *)
Lemma propagate_source_fold l : ∀ types wildcards changed types' wildcards' changed',
  foldl (propagate_source fwd) (types, wildcards, changed) l = (types', wildcards', changed') →
  types' = foldl propagate_one types l ∧ wildcards' = foldl propagate_one wildcards l ∧
  (changed' = false → changed = false ∧ same_sets types types' ∧ same_sets wildcards wildcards').
Proof.
  induction l as [|s l IH]; intros types wildcards changed types' wildcards' changed'.
  { cbn. intros [= <- <- <-]. done. }
  cbn [foldl]. destruct (propagate_source fwd (types, wildcards, changed) s) as [[t1 w1] c1] eqn:E1.
  intros E. apply IH in E as (-> & -> & Hch).
  assert (Hone : t1 = propagate_one types s ∧ w1 = propagate_one wildcards s ∧
    (c1 = false → changed = false ∧ same_sets types t1 ∧ same_sets wildcards w1)).
  { unfold propagate_source, propagate_one in *. destruct (fwd !! s) as [targets|]; [|by simplify_eq].
    assert (Hext : ∀ sets added sets' c, extend_at s added sets = (sets', c) →
      c = false → same_sets sets sets').
    { clear. intros sets added sets' c. unfold extend_at. destruct (sets !! s) as [set|] eqn:Es.
      - intros [= <- <-] Hl%negb_false_iff%Nat.eqb_eq i x. apply lookup_lt_Some in Es as Hlt.
        rewrite at_insert by done. destruct (decide (i = s)) as [->|Hne]; [|naive_solver].
        rewrite (at_lookup _ _ _ _ Es). pose proof (bs_extend_same_length _ _ Hl x).
        rewrite bs_extend_elem in *. naive_solver.
      - intros [= <- <-] _. done. }
    destruct (extend_at s (gather types targets) types) as [t2 c2] eqn:E2.
    destruct (extend_at s (gather wildcards targets) wildcards) as [w3 c3] eqn:E3.
    simplify_eq. simpl. split_and!; [done|done|]. intros Hc. apply orb_false_iff in Hc as [Hc ->].
    apply orb_false_iff in Hc as [-> ->]. eauto. }
  destruct Hone as (-> & -> & Hc1). split_and!; [done|done|]. intros Hf.
  destruct (Hch Hf) as (Hf1 & Ht & Hw). destruct (Hc1 Hf1) as (? & Ht1 & Hw1).
  split_and!; [done| |]; intros i x; (etrans; [apply Ht1 || apply Hw1|apply Ht || apply Hw]).
Qed.

(** What propagation of one family must achieve. *)
Record propagated (k : nat) (sets sets' : list (BTreeSet nat)) : Prop := {
  pr_length : length sets' = length sets;
  pr_keep : ∀ i x, at_ sets i x → at_ sets' i x;
  pr_sound : ∀ i x, at_ sets' i x → ∃ j, rtc edge i j ∧ at_ sets j x;
  pr_complete : ∀ i l j x, length l ≤ k → path edge i l j → at_ sets j x → at_ sets' i x;
}.

Lemma path_snoc i l k j : path edge i (l ++ [k]) j ↔ k = j ∧ ∃ p, path edge i l p ∧ edge p k.
Proof.
  revert i. induction l as [|a l IH]; intros i; simpl; [naive_solver|]. rewrite IH. naive_solver.
Qed.

Lemma propagated_round k sets sets1 sets' :
  length sets = length fwd → sets1 = foldl propagate_one sets (seq 0 (length fwd)) →
  propagated k sets1 sets' → propagated (S k) sets sets'.
Proof.
  intros Hlen -> [Hl Hk Hs Hc].
  destruct (propagate_fold_spec (seq 0 (length fwd)) sets) as (Hl1 & Hk1 & Hst1 & Hs1).
  constructor; [congruence|eauto| |].
  - intros i x (j & Hp & (j' & Hp' & ?)%Hs1)%Hs. exists j'. split; [by etrans|done].
  - intros i l j x Hle Hp Hx. destruct (decide (length l ≤ k)); [eauto|].
    destruct l as [|a l _] using rev_ind; [simpl in *; lia|].
    rewrite length_app in *. simpl in *. apply path_snoc in Hp as (-> & p & Hp & He).
    apply (Hc i l p); [lia|done|]. apply at_lt in He as Hlt.
    apply (Hst1 p j); [apply elem_of_seq; lia|lia|done|done].
Qed.

Lemma propagated_stable k sets sets1 :
  length sets = length fwd → sets1 = foldl propagate_one sets (seq 0 (length fwd)) →
  same_sets sets sets1 → propagated k sets sets1.
Proof.
  intros Hlen -> Hsame.
  destruct (propagate_fold_spec (seq 0 (length fwd)) sets) as (Hl1 & Hk1 & Hst1 & Hs1).
  constructor; [done|done|done|]. intros i l j x _. revert i.
  induction l as [|a l IH]; intros i; simpl; [intros ->; apply Hk1|].
  intros [He Hp] Hx. apply at_lt in He as Hlt. specialize (IH a Hp Hx). apply Hsame in IH.
  apply (Hst1 i a); [apply elem_of_seq; lia|lia|done|done].
Qed.

Lemma propagate_loop_propagated k : ∀ types wildcards types' wildcards',
  length types = length fwd → length wildcards = length fwd →
  propagate_loop k fwd types wildcards = (types', wildcards') →
  propagated k types types' ∧ propagated k wildcards wildcards'.
Proof.
  induction k as [|k IH]; intros types wildcards types' wildcards' Ht Hw; cbn [propagate_loop].
  - intros [= <- <-]. split; (constructor; [done|done|eauto using rtc_refl|]);
      intros i [|? l] j x ?; simpl in *; try lia; by intros ->.
  - destruct (foldl _ _ _) as [[t1 w1] c] eqn:E. apply propagate_source_fold in E as (Et & Ew & Hc).
    destruct (propagate_fold_spec (seq 0 (length fwd)) types) as (Hlt & _).
    destruct (propagate_fold_spec (seq 0 (length fwd)) wildcards) as (Hlw & _).
    rewrite <-Et in Hlt. rewrite <-Ew in Hlw. destruct c.
    + intros E. apply IH in E as [? ?]; [|congruence|congruence]. split; by eapply propagated_round.
    + intros [= <- <-]. destruct (Hc eq_refl) as (_ & ? & ?). split; by apply propagated_stable.
Qed.

(** Propagation computes exactly what is reachable along the edges. *)
Lemma propagate_reachability_exact types wildcards types' wildcards' :
  length types = length fwd → length wildcards = length fwd →
  propagate_reachability fwd types wildcards = (types', wildcards') →
  (∀ i x, at_ types' i x ↔ ∃ j, rtc edge i j ∧ at_ types j x) ∧
  (∀ i x, at_ wildcards' i x ↔ ∃ j, rtc edge i j ∧ at_ wildcards j x).
Proof.
  intros Ht Hw E. apply propagate_loop_propagated in E as [[_ _ Hs Hc] [_ _ Hs' Hc']]; [|done|done].
  assert (Hshort : ∀ i j, j < length fwd → rtc edge i j → ∃ l, path edge i l j ∧ length l < length fwd).
  { intros i j Hj. apply short_path; [|done]. intros a b. apply at_lt. }
  split; intros i x; (split; [auto|]); intros (j & Hp & Hx); apply at_lt in Hx as Hj.
  - destruct (Hshort i j) as (l & ? & ?); [congruence|done|]. apply (Hc i l j); [lia|done|done].
  - destruct (Hshort i j) as (l & ? & ?); [congruence|done|]. apply (Hc' i l j); [lia|done|done].
Qed.

End propagation.

(** ** Bounds of the component passes *)

Definition degree (edges : list (BTreeSet RelationId)) (n : nat) : nat :=
  default 0 (length <$> edges !! n).

(** The entries the unexpanded nodes can still push. *)
Abbreviation pending extra edges flags :=
  (weight (fun n => extra + degree edges n) (fun n => negb (flag_or_true flags n)) (length edges)).

Lemma pending_insert extra edges flags n :
  length flags = length edges → flags !! n = Some false →
  pending extra edges flags = extra + degree edges n + pending extra edges (<[n := true]> flags).
Proof.
  intros Hlen Hn. apply lookup_lt_Some in Hn as Hlt.
  apply (weight_kill (fun n => extra + degree edges n)); [lia| | |].
  - unfold flag_or_true. by rewrite Hn.
  - unfold flag_or_true. by rewrite list_lookup_insert_eq.
  - intros j Hj. unfold flag_or_true. by rewrite list_lookup_insert_ne.
Qed.

Lemma pending_le extra edges flags :
  pending extra edges flags ≤ extra * length edges + sum_list_with length edges.
Proof.
  rewrite <-(weight_list length edges). unfold degree.
  induction (length edges) as [|n IH]; simpl; [lia|]. case_match; lia.
Qed.

Lemma degree_default edges n : length (default [] (edges !! n)) = degree edges n.
Proof. unfold degree. by destruct (edges !! n). Qed.

Lemma finish_loop_enough edges fuel : ∀ stack seen order,
  length seen = length edges → length stack + pending 1 edges seen ≤ fuel →
  ∃ seen' order', finish_loop fuel edges stack seen order = Some (seen', order') ∧
    length seen' = length edges.
Proof.
  induction fuel as [|fuel IH]; intros [|[n expanded] stack] seen order Hlen Hle;
    cbn [finish_loop length] in *; eauto; [lia|].
  destruct expanded; [apply IH; [done|lia]|].
  destruct (seen !! n) as [[]|] eqn:Hn; try (apply IH; [done|lia]).
  apply IH; [by rewrite length_insert|]. rewrite (pending_insert 1 edges seen n Hlen Hn) in Hle.
  rewrite length_app, length_fmap. cbn [length].
  pose proof (length_filter (fun t => flag_or_true (<[n:=true]> seen) t = false) (default [] (edges !! n))) as Hf.
  rewrite degree_default in Hf. lia.
Qed.

Lemma assign_loop_enough reverse fuel : ∀ stack assigned component,
  length assigned = length reverse → length stack + pending 0 reverse assigned ≤ fuel →
  ∃ assigned' component', assign_loop fuel reverse stack assigned component = Some (assigned', component') ∧
    length assigned' = length reverse.
Proof.
  induction fuel as [|fuel IH]; intros [|n stack] assigned component Hlen Hle;
    cbn [assign_loop length] in *; eauto; [lia|].
  destruct (assigned !! n) as [[]|] eqn:Hn; try (apply IH; [done|lia]).
  apply IH; [by rewrite length_insert|]. rewrite (pending_insert 0 reverse assigned n Hlen Hn) in Hle.
  rewrite length_app, degree_default. lia.
Qed.

Lemma finish_order_total edges starts : ∀ seen order,
  length seen = length edges → finish_order edges starts seen order ≠ None.
Proof.
  induction starts as [|i starts IH]; intros seen order Hlen; cbn [finish_order]; [done|].
  destruct (flag_or_true seen i); [auto|]. destruct (from_index i) as [start|]; [|auto].
  destruct (finish_loop_enough edges (scc_fuel edges) [(start, false)] seen order) as (s & o & -> & Hl);
    [done| |auto]. pose proof (pending_le 1 edges seen). unfold scc_fuel. cbn [length]. lia.
Qed.

Lemma assign_components_total reverse order : ∀ assigned components,
  length assigned = length reverse →
  assign_components reverse (scc_fuel reverse) order assigned components ≠ None.
Proof.
  induction order as [|start order IH]; intros assigned components Hlen; cbn [assign_components]; [done|].
  destruct (flag_or_true assigned start); [auto|].
  destruct (assign_loop_enough reverse (scc_fuel reverse) [start] assigned []) as (a & c & -> & Hl);
    [done| |auto]. pose proof (pending_le 0 reverse assigned). unfold scc_fuel. cbn [length]. lia.
Qed.

Lemma reverse_of_length edges : length (reverse_of edges) = length edges.
Proof.
  unfold reverse_of. assert (Hfold : ∀ (l : list (nat * list nat)) acc,
    length (foldl (fun acc '(source, targets) =>
           match from_index source with
           | Some source => foldl (fun acc t => insert_at t source acc) acc targets
           | None => acc
           end) acc l) = length acc).
  { induction l as [|[s ts] l IH]; intros acc; simpl; [done|]. rewrite IH. destruct (from_index s); [|done].
    revert acc. induction ts as [|t ts IHt]; intros acc; simpl; [done|]. by rewrite IHt, insert_at_length. }
  by rewrite Hfold, length_replicate.
Qed.

Lemma strongly_connected_components_total edges : strongly_connected_components edges ≠ None.
Proof.
  unfold strongly_connected_components.
  destruct (finish_order _ _ _ _) as [order|] eqn:E; simpl.
  - apply assign_components_total. by rewrite length_replicate, reverse_of_length.
  - by apply finish_order_total in E; [|rewrite length_replicate].
Qed.

(** ** The metadata of a model *)

Definition relations_indexed (relations : list CompiledRelation) : Prop :=
  ∀ i rel, relations !! i = Some rel → rel.(cr_id) = i.

Section exactness.
Variable relations : list CompiledRelation.
Variable nodes : list RewriteNode.

(** [r] depends on [r'] through some node of its rewrite. *)
Definition depends (r r' : RelationId) : Prop :=
  relation_fact nodes relations (node_edge relations) r r'.
Definition direct_type (r : RelationId) (ty : TypeId) : Prop :=
  relation_fact nodes relations (node_type relations) r ty.
Definition direct_wildcard (r : RelationId) (ty : TypeId) : Prop :=
  relation_fact nodes relations (node_wildcard relations) r ty.
Definition uses_tupleset (r r' : RelationId) : Prop :=
  relation_fact nodes relations node_tupleset r r'.

Hypothesis Hindexed : relations_indexed relations.

Lemma visit_relations_total limit l : ∀ g, visit_relations relations nodes limit l g ≠ None.
Proof.
  induction l as [|rel l IH]; intros g; cbn [visit_relations]; [done|].
  destruct (walk _ _ _ _ g) as [[g1|]|] eqn:E; [apply IH|done|].
  exfalso. revert E. apply (walk_total _ nodes (graph_visit_successors relations nodes limit _)).
Qed.

Lemma graph_sets_new_wf n : graph_sets_wf (graph_sets_new n).
Proof. constructor; simpl; rewrite ?length_replicate; try done. by intros ? ? []%at_new. Qed.

Lemma visited_facts limit g :
  visit_relations relations nodes limit relations (graph_sets_new (length relations)) = Some (Ok g) →
  graph_sets_wf g ∧ length g.(gs_forward) = length relations ∧
  (∀ i x, at_ g.(gs_forward) i x ↔ depends i x) ∧
  (∀ i x, at_ g.(gs_types) i x ↔ direct_type i x) ∧
  (∀ i x, at_ g.(gs_wildcards) i x ↔ direct_wildcard i x) ∧
  (∀ i x, at_ g.(gs_reverse) i x ↔ i < length relations ∧ (depends x i ∨ uses_tupleset x i)).
Proof.
  intros E. apply visit_relations_facts in E as [Hwf Hlen Hf Ht Hw Hr].
  - simpl in *. rewrite length_replicate in *. split_and!; [done|done|..]; intros i x.
    + rewrite Hf. split; [|by right]. intros [[]%at_new|]; done.
    + rewrite Ht. split; [|by right]. intros [[]%at_new|]; done.
    + rewrite Hw. split; [|by right]. intros [[]%at_new|]; done.
    + rewrite Hr. split; [|by right]. intros [[]%at_new|]; done.
  - apply graph_sets_new_wf.
  - intros rel [i Hi]%list_elem_of_lookup. simpl. rewrite length_replicate, (Hindexed _ _ Hi).
    by eapply lookup_lt_Some.
Qed.

Lemma build_graph_metadata_spec {Detail} limits (errors errors' : ErrorCollector Detail) g :
  build_graph_metadata relations nodes limits errors = Some (Some g, errors') →
  errors' = errors ∧
  (∀ r ty, at_ g.(reachable_types) r ty ↔ ∃ r', rtc depends r r' ∧ direct_type r' ty) ∧
  (∀ r ty, at_ g.(reachable_wildcards) r ty ↔ ∃ r', rtc depends r r' ∧ direct_wildcard r' ty) ∧
  (∀ r r', at_ g.(forward) r r' ↔ depends r r') ∧
  (∀ r r', at_ g.(reverse_edges) r r' ↔ r < length relations ∧ (depends r' r ∨ uses_tupleset r' r)).
Proof.
  unfold build_graph_metadata. destruct (visit_relations _ _ _ _ _) as [[gs|code]|] eqn:Ev; simpl;
    [|done|done].
  destruct (propagate_reachability _ _ _) as [types wildcards] eqn:Ep.
  destruct (recursion_groups _); [|done]. simpl. intros [= <- <-]. simpl.
  apply visited_facts in Ev as (Hwf & Hlen & Hf & Ht & Hw & Hr). destruct Hwf.
  apply propagate_reachability_exact in Ep as [Hpt Hpw]; [|congruence|congruence].
  assert (Hrtc : ∀ i j, rtc (at_ (gs_forward gs)) i j ↔ rtc depends i j).
  { intros i j. split; apply rtc_subrel; intros a b; apply Hf. }
  split_and!; [done|..]; intros r x.
  - rewrite Hpt. by setoid_rewrite Hrtc; setoid_rewrite Ht.
  - rewrite Hpw. by setoid_rewrite Hrtc; setoid_rewrite Hw.
  - apply Hf.
  - apply Hr.
Qed.

End exactness.

Lemma build_graph_metadata_total {Detail} relations nodes limits (errors : ErrorCollector Detail) :
  build_graph_metadata relations nodes limits errors ≠ None.
Proof.
  unfold build_graph_metadata. destruct (visit_relations _ _ _ _ _) as [[gs|code]|] eqn:Ev; simpl;
    [|done|by apply visit_relations_total in Ev].
  destruct (propagate_reachability _ _ _). unfold recursion_groups.
  destruct (strongly_connected_components _) eqn:E; [done|].
  by apply strongly_connected_components_total in E.
Qed.

Lemma computed_visit_successors nodes r n edges cs edges' :
  computed_visit nodes r n edges = Ok (cs, edges') → cs = successors nodes n.
Proof. unfold computed_visit, successors. destruct (nodes !! n); simpl; by intros [= <- _]. Qed.

Lemma computed_cycle_relations_total relations nodes : computed_cycle_relations relations nodes ≠ None.
Proof.
  unfold computed_cycle_relations.
  assert (Hedges : ∀ l edges, computed_edges nodes l edges ≠ None).
  { induction l as [|rel l IH]; intros edges; cbn [computed_edges]; [done|].
    destruct (walk _ _ _ _ edges) as [[g1|]|] eqn:E; [apply IH|done|].
    exfalso. revert E. apply (walk_total _ nodes (computed_visit_successors nodes _)). }
  destruct (computed_edges _ _ _) eqn:E; [|by apply Hedges in E]. simpl.
  destruct (strongly_connected_components _) eqn:Es; [done|].
  by apply strongly_connected_components_total in Es.
Qed.

(** C20: the metadata of a model is exact: a relation reaches a subject type or
    a wildcard exactly when it depends, through any number of relations, on one
    with such a direct restriction; forward edges are the dependencies, and
    reverse edges their transpose plus the tuplesets.  Propagation stops at its
    fixpoint although its rounds are counted. *)
Theorem graph_metadata_exact {Detail} relations nodes limits
    (errors errors' : ErrorCollector Detail) g :
  relations_indexed relations →
  build_graph_metadata relations nodes limits errors = Some (Some g, errors') →
  (∀ r ty, at_ g.(reachable_types) r ty ↔
     ∃ r', rtc (depends relations nodes) r r' ∧ direct_type relations nodes r' ty) ∧
  (∀ r ty, at_ g.(reachable_wildcards) r ty ↔
     ∃ r', rtc (depends relations nodes) r r' ∧ direct_wildcard relations nodes r' ty) ∧
  (∀ r r', at_ g.(forward) r r' ↔ depends relations nodes r r') ∧
  (∀ r r', at_ g.(reverse_edges) r r' ↔
     r < length relations ∧ (depends relations nodes r' r ∨ uses_tupleset relations nodes r' r)).
Proof. intros Hidx Hb. by apply build_graph_metadata_spec in Hb as (_ & ?). Qed.

Lemma graph_metadata_exact_witness :
  let relations := [mkCompiledRelation 0 0 (str "member") 0
                      [mkDirectRestriction 1 RKObject ReqUnconditional;
                       mkDirectRestriction 0 (RKUserset 0) ReqUnconditional];
                    mkCompiledRelation 1 2 (str "viewer") 1 []] in
  let nodes := [NDirect 0; NTupleToUserset 1 (str "member") [0]] in
  ∃ r', rtc (depends relations nodes) 1 r' ∧ direct_type relations nodes r' 1.
Proof.
  intros relations nodes.
  assert (Hidx : relations_indexed relations) by (by intros [|[|[|]]] rel [= <-]).
  destruct (graph_metadata_exact relations nodes default_model_limits (collector_new (Detail := unit) 1)
    (collector_new 1)
    (mkGraphMetadata [[0]; [0]] [[0; 1]; [1]] [[0; 1]; [0; 1]] [[]; []] [Some 0%N; None])
    Hidx ltac:(vm_compute; reflexivity)) as (Ht & _).
  apply Ht. exists [0; 1]. split; [reflexivity|]. by right; left.
Defined.

(** The loops of the metadata builder and of the computed-cycle check end
    within their bounds, on any relations and nodes. *)
Theorem graph_loops_end {Detail} relations nodes limits (errors : ErrorCollector Detail) :
  build_graph_metadata relations nodes limits errors ≠ None ∧
  computed_cycle_relations relations nodes ≠ None.
Proof. split; [apply build_graph_metadata_total|apply computed_cycle_relations_total]. Qed.
