(* ===== verification/SccTheory.v ===== *)
(** * Strongly connected components are exact

    [strongly_connected_components] of [graph.rs] is Kosaraju's algorithm with
    explicit stacks: a post-order of the graph, then searches of the reversed
    graph from the last finished nodes.  Its components are exactly the classes
    of mutual reachability, so [recursion_groups] and
    [computed_cycle_relations] are exactly the relations on cycles. *)

From S2P Require Import Prelude Ordered Identifier Reference Condition Model ModelErrors Graph GraphTheory.
From stdpp Require Import sorting.

Lemma tc_mono {A} (R R' : A → A → Prop) x y : (∀ a b, R a b → R' a b) → tc R x y → tc R' x y.
Proof. intros HR. induction 1; [by apply tc_once, HR|by eapply tc_l; [apply HR|]]. Qed.

Section scc.
Variable edges : list (BTreeSet RelationId).
Hypothesis closed : ∀ a b, at_ edges a b → b < length edges.
Hypothesis small : (N.of_nat (length edges) <= U32_MAX)%N.

Abbreviation edge := (at_ edges).
Abbreviation reaches := (rtc (at_ edges)).
Definition mutual (a b : RelationId) : Prop := reaches a b ∧ reaches b a.

#[local] Instance mutual_equivalence : Equivalence mutual.
Proof.
  split; [done|by intros a b []|]. intros a b c [? ?] [? ?]. split; by etrans.
Qed.

(** A path that leaves a set crosses an edge out of it. *)
Lemma path_exit (P : RelationId → Prop) `{!∀ v, Decision (P v)} x y :
  reaches x y → P x → ¬ P y → ∃ v w, P v ∧ ¬ P w ∧ reaches x v ∧ edge v w.
Proof.
  induction 1 as [x|x z y Hxz _ IH]; intros Hx Hy; [done|]. destruct (decide (P z)) as [Hz|Hz].
  - destruct (IH Hz Hy) as (v & w & ? & ? & ? & ?). exists v, w. split_and!; [done..| |done]. by eapply rtc_l.
  - exists x, z. done.
Qed.

(** ** The post-order *)

(** The nodes entered and not finished. *)
Definition grays (stack : list (RelationId * bool)) : list RelationId := (filter (fun e => e.2 = true) stack).*1.

Lemma grays_elem stack v : v ∈ grays stack ↔ (v, true) ∈ stack.
Proof.
  unfold grays. rewrite list_elem_of_fmap. setoid_rewrite list_elem_of_filter. split.
  - intros ([x b] & -> & Hb & Hin). simpl in *. by subst.
  - intros Hin. by exists (v, true).
Qed.

(** Everything a finished node reaches was finished no later than some node of
    its component, or some unfinished node is in its component. *)
Definition settled (order pending : list RelationId) : Prop :=
  ∀ x y, x ∈ order → reaches x y →
    (∃ g, g ∈ pending ∧ mutual x g) ∨
    (∃ O1 z O2, order = O1 ++ z :: O2 ∧ mutual z x ∧ y ∈ z :: O2).

Record dfs_ok (stack : list (RelationId * bool)) (seen : list bool) (order : list RelationId) : Prop := {
  dfs_length : length seen = length edges;
  dfs_seen : ∀ v, seen !! v = Some true ↔ v ∈ order ∨ v ∈ grays stack;
  dfs_unique : NoDup (grays stack ++ order);
  dfs_finished : ∀ v w, v ∈ order → edge v w → w ∈ order ∨ w ∈ grays stack;
  dfs_children : ∀ S1 g S2 w, stack = S1 ++ (g, true) :: S2 → edge g w →
    (w ∈ order ∨ w ∈ grays stack) ∨ (w, false) ∈ S1;
  dfs_ancestor : ∀ S1 g S2 e, stack = S1 ++ (g, true) :: S2 → e ∈ S1 → reaches g e.1;
  dfs_settled : settled order (grays stack);
}.

Lemma dfs_finish v stack seen order :
  dfs_ok ((v, true) :: stack) seen order → dfs_ok stack seen (v :: order).
Proof.
  intros [Hlen Hseen Hnd Hfin Hch Hanc Hset].
  assert (Hg : grays ((v, true) :: stack) = v :: grays stack) by done. rewrite Hg in *.
  assert (Hfin' : ∀ x w, x ∈ v :: order → edge x w → w ∈ v :: order ∨ w ∈ grays stack).
  { intros x w Hx Hw. assert (w ∈ order ∨ w ∈ v :: grays stack) by
      (apply elem_of_cons in Hx as [->|Hx]; [|by eapply Hfin]; destruct (Hch [] v stack w) as [|[]%not_elem_of_nil]; done).
    set_solver. }
  assert (Hgv : ∀ g, g ∈ grays stack → reaches g v).
  { intros g [i Hi]%grays_elem%list_elem_of_lookup.
    destruct (list_elem_of_split stack (g, true)) as (S1 & S2 & ->); [by eapply list_elem_of_lookup_2|].
    apply (Hanc ((v, true) :: S1) g S2 (v, true)); [done|by left]. }
  constructor; [done| | |done| | |].
  - intros x. rewrite Hseen. set_solver.
  - simpl in Hnd. rewrite <-Permutation_middle. done.
  - intros S1 g S2 w Hst Hw. rewrite Hst in *. destruct (Hch ((v, true) :: S1) g S2 w) as [[|]|]; [done..| | |]; set_solver.
  - intros S1 g S2 e Hst He. apply (Hanc ((v, true) :: S1) g S2 e); [by rewrite Hst|by right].
  - intros x y Hx Hxy. apply elem_of_cons in Hx.
    assert (Hcase : mutual x v ∨ ((∃ g, g ∈ grays stack ∧ mutual x g) ∨
      (∃ O1 z O2, v :: order = O1 ++ z :: O2 ∧ mutual z x ∧ y ∈ z :: O2))).
    { destruct Hx as [->|Hx]; [by left|]. destruct (Hset x y Hx Hxy) as [(g & [->|Hg']%elem_of_cons & Hm)|(O1 & z & O2 & -> & ?)].
      - by left.
      - right. left. eauto.
      - right. right. by exists (v :: O1), z, O2. }
    destruct Hcase as [Hm|]; [|done]. destruct (decide (y ∈ v :: order)) as [Hy|Hy].
    { right. exists [], v, order. split_and!; [done|by symmetry|done]. }
    left. destruct (path_exit (fun u => u ∈ v :: order) v y) as (u & w & Hu & Hw & Hvu & Huw);
      [destruct Hm; by etrans|by left|done|].
    destruct (Hfin' u w Hu Huw) as [|Hgray]; [done|]. exists w. split; [done|]. rewrite Hm.
    split; [by eapply rtc_r|by apply Hgv].
Qed.

Lemma dfs_skip v stack seen order :
  dfs_ok ((v, false) :: stack) seen order → seen !! v ≠ Some false → dfs_ok stack seen order.
Proof.
  intros [Hlen Hseen Hnd Hfin Hch Hanc Hset] Hv. constructor; try done.
  - intros S1 g S2 w Hst Hw. destruct (Hch ((v, false) :: S1) g S2 w) as [|Hin]; [by rewrite Hst|done|by left|].
    apply elem_of_cons in Hin as [Hin|]; [|by right]. simplify_eq. left. apply Hseen.
    destruct (lookup_lt_is_Some_2 seen v) as [[] Hb]; [|done|done]. rewrite Hlen. by eapply closed.
  - intros S1 g S2 e Hst He. apply (Hanc ((v, false) :: S1) g S2 e); [by rewrite Hst|by right].
Qed.

Definition pushed (seen : list bool) (v : RelationId) : list (RelationId * bool) :=
  (fun t => (t, false)) <$> filter (fun t => flag_or_true seen t = false) (default [] (edges !! v)).

Lemma pushed_elem seen v e : e ∈ pushed seen v ↔ e.2 = false ∧ edge v e.1 ∧ flag_or_true seen e.1 = false.
Proof.
  unfold pushed. rewrite list_elem_of_fmap. setoid_rewrite list_elem_of_filter. unfold at_. split.
  - intros (t & -> & Hf & Hin). simpl. split_and!; [done| |done]. destruct (edges !! v) as [s|]; [eauto|].
    by apply not_elem_of_nil in Hin.
  - destruct e as [t b]. simpl. intros (-> & (s & Hs & Hin) & Hf). exists t. by rewrite Hs.
Qed.

Lemma pushed_grays seen v stack : grays (pushed seen v ++ stack) = grays stack.
Proof.
  unfold grays. rewrite filter_app, fmap_app.
  destruct (filter (fun e => e.2 = true) (pushed seen v)) as [|e l] eqn:E; [done|].
  assert (He : e ∈ filter (fun e => e.2 = true) (pushed seen v)) by (rewrite E; by left).
  apply list_elem_of_filter in He as [Ht (Hf & _)%pushed_elem]. congruence.
Qed.

(** An entered node below a stack of unexpanded ones. *)
Lemma entered_split P v stack S1 g S2 :
  (∀ e : RelationId * bool, e ∈ P → e.2 = false) → P ++ (v, true) :: stack = S1 ++ (g, true) :: S2 →
  (g = v ∧ S1 = P ∧ S2 = stack) ∨ ∃ S1', S1 = P ++ (v, true) :: S1' ∧ stack = S1' ++ (g, true) :: S2.
Proof.
  revert S1. induction P as [|e P IH]; intros [|e' S1] HP Heq; simplify_eq/=.
  - by left.
  - right. by exists S1.
  - exfalso. by specialize (HP (g, true) ltac:(by left)).
  - destruct (IH S1) as [(-> & -> & ->)|(S1' & -> & ->)]; [intros; apply HP; by right|done|by left|].
    right. by exists S1'.
Qed.

Lemma dfs_enter v stack seen order :
  dfs_ok ((v, false) :: stack) seen order → seen !! v = Some false →
  dfs_ok (pushed (<[v := true]> seen) v ++ (v, true) :: stack) (<[v := true]> seen) order.
Proof.
  intros [Hlen Hseen Hnd Hfin Hch Hanc Hset] Hv. apply lookup_lt_Some in Hv as Hlt.
  assert (Hg : grays (pushed (<[v := true]> seen) v ++ (v, true) :: stack) = v :: grays stack) by apply pushed_grays.
  assert (Hg0 : grays ((v, false) :: stack) = grays stack) by done. rewrite Hg0 in *.
  assert (Hseen' : ∀ x, <[v := true]> seen !! x = Some true ↔ x ∈ order ∨ x ∈ v :: grays stack).
  { intros x. destruct (decide (x = v)) as [->|Hne].
    - rewrite list_lookup_insert_eq by done. set_solver.
    - rewrite list_lookup_insert_ne by done. rewrite Hseen. set_solver. }
  assert (Hnew : (v ∉ order) ∧ (v ∉ grays stack)) by (split; intros Hin; assert (seen !! v = Some true) by (apply Hseen; tauto); congruence).
  assert (Hp : ∀ e, e ∈ pushed (<[v := true]> seen) v → e.2 = false) by (by intros e (? & _)%pushed_elem).
  constructor; rewrite ?Hg.
  - by rewrite length_insert.
  - done.
  - simpl. apply NoDup_cons. split; [|done]. set_solver.
  - intros x w Hx Hw. destruct (Hfin x w Hx Hw); set_solver.
  - intros S1 g S2 w Hst Hw. destruct (entered_split _ _ _ _ _ _ Hp Hst) as [(-> & -> & ->)|(S1' & -> & ->)].
    + rewrite <-Hseen'. destruct (flag_or_true (<[v := true]> seen) w) eqn:Ef.
      * left. unfold flag_or_true in Ef. destruct (<[v := true]> seen !! w) as [[]|] eqn:El; [done|done|].
        apply lookup_ge_None in El. rewrite length_insert, Hlen in El. apply closed in Hw. lia.
      * right. by apply pushed_elem.
    + destruct (Hch ((v, false) :: S1') g S2 w eq_refl Hw) as [|Hin]; [set_solver|].
      apply elem_of_cons in Hin as [Hin|Hin]; [simplify_eq; set_solver|]. right. set_solver.
  - intros S1 g S2 e Hst He. destruct (entered_split _ _ _ _ _ _ Hp Hst) as [(-> & -> & ->)|(S1' & -> & ->)].
    + apply pushed_elem in He as (_ & He & _). by apply rtc_once.
    + assert (Hgv := Hanc ((v, false) :: S1') g S2 (v, false) eq_refl ltac:(by left)). simpl in Hgv.
      apply elem_of_app in He as [(_ & He & _)%pushed_elem|[->|He]%elem_of_cons]; [by eapply rtc_r|done|].
      apply (Hanc ((v, false) :: S1') g S2 e eq_refl). by right.
  - intros x y Hx Hxy. destruct (Hset x y Hx Hxy) as [(g & ? & ?)|]; [|by right]. left. exists g. set_solver.
Qed.

Lemma finish_loop_spec fuel : ∀ stack seen order seen' order',
  finish_loop fuel edges stack seen order = Some (seen', order') → dfs_ok stack seen order →
  dfs_ok [] seen' order' ∧
  (∀ v, seen !! v = Some true → seen' !! v = Some true) ∧
  (∀ v, (v, false) ∈ stack → v < length edges → seen' !! v = Some true).
Proof using closed small.
  induction fuel as [|fuel IH]; intros [|[v []] stack] seen order seen' order' Hf Hok; simplify_eq/=.
  1,2: split_and!; [done..|]; by intros v []%not_elem_of_nil.
  - destruct (IH _ _ _ _ _ Hf (dfs_finish _ _ _ _ Hok)) as (? & ? & Hst). split_and!; [done..|].
    intros x Hx. apply Hst. set_solver.
  - destruct (seen !! v) as [[]|] eqn:Ev.
    + destruct (IH _ _ _ _ _ Hf (dfs_skip _ _ _ _ Hok ltac:(congruence))) as (? & Hmono & Hst).
      split_and!; [done..|]. intros x [Hx|Hx]%elem_of_cons Hlt; [simplify_eq; by apply Hmono|by apply Hst].
    + destruct (IH _ _ _ _ _ Hf (dfs_enter _ _ _ _ Hok Ev)) as (? & Hmono & Hst). apply lookup_lt_Some in Ev as Hlt'.
      split_and!; [done| |].
      * intros x Hx. apply Hmono. destruct (decide (x = v)) as [->|]; [by rewrite list_lookup_insert_eq|].
        by rewrite list_lookup_insert_ne.
      * intros x [Hx|Hx]%elem_of_cons Hlt; [simplify_eq; apply Hmono; by rewrite list_lookup_insert_eq|].
        apply Hst; [|done]. apply elem_of_app. right. by right.
    + destruct (IH _ _ _ _ _ Hf (dfs_skip _ _ _ _ Hok ltac:(congruence))) as (? & Hmono & Hst).
      split_and!; [done..|]. intros x [Hx|Hx]%elem_of_cons Hlt; [|by apply Hst].
      simplify_eq. apply lookup_ge_None in Ev. destruct Hok as [Hlen _ _ _ _ _ _]. lia.
Qed.

Lemma dfs_start v seen order : dfs_ok [] seen order → dfs_ok [(v, false)] seen order.
Proof.
  intros [Hlen Hseen Hnd Hfin Hch Hanc Hset].
  assert (Hno : ∀ (S1 S2 : list (RelationId * bool)) g, [(v, false)] ≠ S1 ++ (g, true) :: S2).
  { intros S1 S2 g Heq. assert (Hin : (g, true) ∈ [(v, false)]) by (rewrite Heq; set_solver). set_solver. }
  constructor; try done.
  - intros S1 g S2 w Hst. by destruct (Hno S1 S2 g).
  - intros S1 g S2 e Hst. by destruct (Hno S1 S2 g).
Qed.

(** A post-order of the whole graph. *)
Record post_order (order : list RelationId) : Prop := {
  post_unique : NoDup order;
  post_nodes : ∀ v, v ∈ order ↔ v < length edges;
  post_settled : ∀ x y, x ∈ order → reaches x y →
    ∃ O1 z O2, order = O1 ++ z :: O2 ∧ mutual z x ∧ y ∈ z :: O2;
}.

Lemma finish_order_spec starts : ∀ seen order order',
  finish_order edges starts seen order = Some order' → dfs_ok [] seen order →
  (∀ v, v ∈ starts → v < length edges) →
  (∀ v, v < length edges → v ∈ starts ∨ seen !! v = Some true) → post_order order'.
Proof using closed small.
  induction starts as [|i starts IH]; intros seen order order' Hf Hok Hst Hall; cbn [finish_order] in Hf.
  - injection Hf as <-. destruct Hok as [Hlen Hseen Hnd _ _ _ Hset]. constructor; [done| |].
    + intros v. split; [|intros Hv; destruct (Hall v Hv) as [[]%not_elem_of_nil|[|[]%not_elem_of_nil]%Hseen]; done].
      intros Hv. rewrite <-Hlen. eapply lookup_lt_Some, Hseen. by left.
    + intros x y Hx Hxy. destruct (Hset x y Hx Hxy) as [(g & []%not_elem_of_nil & _)|]; done.
  - assert (Hi : i < length edges) by (apply Hst; by left).
    assert (Hst' : ∀ v, v ∈ starts → v < length edges) by (intros; apply Hst; by right).
    destruct (flag_or_true seen i) eqn:Ef.
    + eapply IH; [done..|]. intros v Hv. destruct (Hall v Hv) as [[->|]%elem_of_cons|]; [|by left|by right].
      right. unfold flag_or_true in Ef. destruct (seen !! i) as [[]|] eqn:El; [done|done|].
      apply lookup_ge_None in El. destruct Hok as [Hlen _ _ _ _ _ _]. lia.
    + rewrite (proj2 (from_index_Some i i)) in Hf by (split; [done|lia]).
      destruct (finish_loop _ _ _ _ _) as [[seen1 order1]|] eqn:El; [|done].
      destruct (finish_loop_spec _ _ _ _ _ _ El (dfs_start i _ _ Hok)) as (Hok1 & Hmono & Hin).
      eapply IH; [done..|]. intros v Hv. destruct (Hall v Hv) as [[->|]%elem_of_cons|]; [|by left|right; by apply Hmono].
      right. apply Hin; [by left|done].
Qed.

Lemma finish_order_exact order :
  finish_order edges (seq 0 (length edges)) (replicate (length edges) false) [] = Some order → post_order order.
Proof using closed small.
  intros Hf. eapply finish_order_spec; [done| | |].
  - constructor; try done.
    + apply length_replicate.
    + intros v. split; [intros [? _]%lookup_replicate; done|]. intros [[]%not_elem_of_nil|[]%not_elem_of_nil].
    + apply NoDup_nil_2.
    + by intros v w []%not_elem_of_nil.
    + by intros [|] ? ? ? ?.
    + by intros [|] ? ? ? ?.
    + by intros x y []%not_elem_of_nil.
  - intros v [_ ?]%elem_of_seq. lia.
  - intros v Hv. left. apply elem_of_seq. lia.
Qed.

(** ** The reversed graph *)

Lemma insert_all_at_spec source targets : ∀ acc t s,
  at_ (foldl (fun acc t => insert_at t source acc) acc targets) t s ↔
  at_ acc t s ∨ (s = source ∧ t ∈ targets ∧ t < length acc).
Proof.
  induction targets as [|x targets IH]; intros acc t s; simpl; [set_solver|].
  rewrite IH, insert_at_spec, insert_at_length. set_solver.
Qed.

Lemma insert_all_at_length source targets : ∀ acc,
  length (foldl (fun acc t => insert_at t source acc) acc targets) = length acc.
Proof. induction targets as [|x targets IH]; intros acc; simpl; [done|]. by rewrite IH, insert_at_length. Qed.

Lemma reverse_fold_spec (l : list (nat * list nat)) : ∀ acc t s,
  at_ (foldl (fun acc '(source, targets) =>
         match from_index source with
         | Some source => foldl (fun acc t => insert_at t source acc) acc targets
         | None => acc
         end) acc l) t s ↔
  at_ acc t s ∨ ∃ targets, (s, targets) ∈ l ∧ (N.of_nat s <= U32_MAX)%N ∧ t ∈ targets ∧ t < length acc.
Proof.
  induction l as [|[source targets] l IH]; intros acc t s; simpl; [set_solver|]. rewrite IH.
  setoid_rewrite elem_of_cons. destruct (from_index source) as [i|] eqn:E.
  - apply from_index_Some in E as [-> Hle]. rewrite insert_all_at_spec, insert_all_at_length. split.
    + intros [[?|(-> & ? & ?)]|(ts & ? & ?)]; [by left|right; eauto 7|right; eauto 7].
    + intros [?|(ts & [?|?] & ? & ? & ?)]; [by left; left|simplify_eq; left; by right|right; eauto 7].
  - assert (Hgt : ¬ (N.of_nat source <= U32_MAX)%N).
    { intros Hle. assert (Hs : from_index source = Some source) by (by apply from_index_Some). congruence. }
    split; [intros [?|(ts & ? & ?)]; [by left|right; eauto 7]|].
    intros [?|(ts & [?|?] & ? & ?)]; [by left|by simplify_eq|right; eauto 7].
Qed.

Lemma reverse_of_spec t s : at_ (reverse_of edges) t s ↔ edge s t.
Proof using closed small.
  unfold reverse_of. rewrite reverse_fold_spec, length_replicate.
  setoid_rewrite list_elem_of_lookup. setoid_rewrite list_lookup_imap. split.
  - intros [[]%at_new|(targets & (i & Hi) & _ & Hin & _)]. destruct (edges !! i) as [ts|] eqn:E; simplify_eq/=.
    exists targets. split; [done|by apply list_elem_of_lookup].
  - intros Hst. pose proof (closed s t Hst) as Hlt. destruct Hst as (ts & Hs & Hin). right. exists ts.
    apply lookup_lt_Some in Hs as Hs'. split_and!; [exists s; by rewrite Hs|lia|by apply list_elem_of_lookup|done].
Qed.

(** ** One component *)

Section component.
Variable assigned0 : list bool.
Variable start : RelationId.
Hypothesis Hstart : assigned0 !! start = Some false.

Abbreviation free v := (assigned0 !! v = Some false).

(** Edges between nodes not assigned before the search. *)
Definition free_edge (a b : RelationId) : Prop := edge a b ∧ free a ∧ free b.

Record search_ok (stack : list RelationId) (assigned : list bool) (component : list RelationId) : Prop := {
  search_length : length assigned = length assigned0;
  search_assigned : ∀ v, assigned !! v = Some true ↔ assigned0 !! v = Some true ∨ v ∈ component;
  search_unique : NoDup component;
  search_found : ∀ v, v ∈ component → free v ∧ rtc free_edge v start;
  search_stack : ∀ v, v ∈ stack → free v → rtc free_edge v start;
  search_closed : ∀ u v, v ∈ component → edge u v → free u → u ∈ component ∨ u ∈ stack;
  search_start : start ∈ component ∨ start ∈ stack;
}.

Lemma search_free stack assigned component v :
  search_ok stack assigned component → assigned !! v = Some false → free v ∧ v ∉ component.
Proof.
  intros [Hlen Has _ _ _ _ _] Hv. assert (Hno : ¬ assigned !! v = Some true) by congruence. rewrite Has in Hno.
  split; [|tauto]. destruct (lookup_lt_is_Some_2 assigned0 v) as [[] Hb]; [|tauto|done].
  rewrite <-Hlen. by eapply lookup_lt_Some.
Qed.

Lemma assign_loop_spec fuel : ∀ stack assigned component assigned' component',
  assign_loop fuel (reverse_of edges) stack assigned component = Some (assigned', component') →
  search_ok stack assigned component → search_ok [] assigned' component'.
Proof using closed small Hstart.
  induction fuel as [|fuel IH]; intros [|v stack] assigned component assigned' component' Hf Hok; simplify_eq/=;
    try done. pose proof Hok as [Hlen Has Hnd Hfo Hst Hcl Hs].
  assert (Hskip : assigned !! v ≠ Some false → search_ok stack assigned component).
  { intros Hv. assert (Hin : free v → v ∈ component).
    { intros Hfree. assert (Hv' : assigned !! v = Some true).
      { destruct (lookup_lt_is_Some_2 assigned v) as [[] Hb]; [|done|done]. rewrite Hlen. by eapply lookup_lt_Some. }
      apply Has in Hv' as [|]; [congruence|done]. }
    constructor; try done.
    - intros x Hx. apply Hst. by right.
    - intros u x Hx Hux Hu. destruct (Hcl u x Hx Hux Hu) as [|[->|]%elem_of_cons]; auto.
    - destruct Hs as [|[->|]%elem_of_cons]; auto. }
  destruct (assigned !! v) as [[]|] eqn:Ev; [by eapply IH, Hskip| |by eapply IH, Hskip].
  destruct (search_free _ _ _ v Hok Ev) as [Hfree Hnew]. eapply IH; [exact Hf|]. clear IH Hf Hskip.
  apply lookup_lt_Some in Ev as Hlt. assert (Hvs : rtc free_edge v start) by (apply Hst; [by left|done]).
  assert (Hpred : ∀ u, u ∈ default [] (reverse_of edges !! v) ↔ edge u v).
  { intros u. rewrite <-reverse_of_spec. unfold at_. destruct (reverse_of edges !! v) as [s|]; simpl; [naive_solver|].
    split; [by intros []%not_elem_of_nil|naive_solver]. }
  constructor.
  - by rewrite length_insert.
  - intros x. rewrite elem_of_cons. destruct (decide (x = v)) as [->|Hne].
    + rewrite list_lookup_insert_eq by done. naive_solver.
    + rewrite list_lookup_insert_ne by done. rewrite Has. naive_solver.
  - by apply NoDup_cons.
  - intros x [->|Hx]%elem_of_cons; [done|by apply Hfo].
  - intros x [Hx|Hx]%elem_of_app Hfx; [|apply Hst; [by right|done]].
    apply Hpred in Hx. eapply rtc_l; [by split_and!|done].
  - intros u x [->|Hx]%elem_of_cons Hux Hu.
    + right. apply elem_of_app. left. by apply Hpred.
    + destruct (Hcl u x Hx Hux Hu) as [|[->|]%elem_of_cons]; set_solver.
  - destruct Hs as [|[->|]%elem_of_cons]; set_solver.
Qed.

Lemma search_exact assigned component v :
  search_ok [] assigned component → v ∈ component ↔ free v ∧ rtc free_edge v start.
Proof using closed small Hstart.
  intros [_ _ _ Hfo _ Hcl Hs]. split; [apply Hfo|]. intros [_ Hr].
  induction Hr as [|a b c (Hab & Ha & Hb) _ IH]; [destruct Hs as [|[]%not_elem_of_nil]; done|].
  destruct (Hcl a b (IH Hstart Hfo Hs) Hab Ha) as [|[]%not_elem_of_nil]. done.
Qed.

End component.

(** ** All components *)

Record classes (components : list (list RelationId)) : Prop := {
  class_not_empty : ∀ c, c ∈ components → c ≠ [] ∧ NoDup c;
  class_mutual : ∀ c v, c ∈ components → v ∈ c → v < length edges ∧ ∀ w, w ∈ c ↔ mutual v w;
  class_disjoint : ∀ i j c c' v, components !! i = Some c → components !! j = Some c' → v ∈ c → v ∈ c' → i = j;
}.

Lemma mutual_in_range v w : mutual v w → v < length edges → w < length edges.
Proof using closed.
  clear small. intros [Hr _] Hv. induction Hr as [|a b c Hab _ IH]; [done|]. by eapply IH, closed.
Qed.

(** A search from the first unassigned node finds its class. *)
Lemma search_class done_ start order assigned assigned' component :
  post_order (done_ ++ start :: order) → (∀ v, v ∈ done_ → assigned !! v = Some true) →
  (∀ v w, mutual v w → assigned !! v = Some true → assigned !! w = Some true) →
  length assigned = length edges → assigned !! start = Some false →
  search_ok assigned start [] assigned' component →
  ∀ w, w ∈ component ↔ mutual start w.
Proof using closed small.
  intros [Hnd Hnodes Hset] Hdone Hclosed Hlen Hstart Hok w.
  assert (Hlt : start < length edges) by (rewrite <-Hlen; by eapply lookup_lt_Some).
  assert (Hfree : ∀ v, mutual start v → assigned !! v = Some false).
  { intros v Hv. destruct (lookup_lt_is_Some_2 assigned v) as [[] Hb]; [| |done].
    - rewrite Hlen. by eapply mutual_in_range.
    - rewrite (Hclosed v start) in Hstart; [done|by symmetry|done]. }
  rewrite (search_exact assigned start Hstart assigned' component w Hok). split.
  - intros [Hw Hr]. assert (Hws : reaches w start) by (eapply rtc_subrel; [|exact Hr]; by intros a b [? _]).
    assert (Hwlt : w < length edges) by (rewrite <-Hlen; by eapply lookup_lt_Some).
    destruct (Hset w start) as (O1 & z & O2 & Heq & Hzw & Hin); [by apply Hnodes|done|].
    assert (Hz : assigned !! z ≠ Some true) by (intros Hz; rewrite (Hclosed z w Hzw Hz) in Hw; done).
    cut (z = start); [intros <-; done|]. apply elem_of_cons in Hin as [|Hin]; [done|].
    destruct (decide (z ∈ done_)) as [Hzd|Hzd]; [by apply Hdone in Hzd|].
    apply list_elem_of_split in Hin as (O3 & O4 & ->). exfalso.
    assert (Hzin : z ∈ done_ ++ start :: order) by (rewrite Heq; set_solver).
    apply elem_of_app in Hzin as [|[->|Hzo]%elem_of_cons]; [done| |].
    + rewrite Heq in Hnd. apply NoDup_app in Hnd as (_ & _ & Hnd). apply NoDup_cons in Hnd as [Hnd _]. set_solver.
    + apply list_elem_of_split in Hzo as (O5 & O6 & ->).
      assert (Hpos : (done_ ++ start :: O5 ++ z :: O6) !! length (done_ ++ start :: O5) = Some z).
      { rewrite lookup_app_r, length_app by (rewrite length_app; lia). simpl.
        replace (length done_ + S (length O5) - length done_) with (S (length O5)) by lia. simpl.
        by apply list_lookup_middle. }
      assert (Hpos' : (done_ ++ start :: O5 ++ z :: O6) !! length O1 = Some z) by (rewrite Heq; by apply list_lookup_middle).
      assert (Hs : (done_ ++ start :: O5 ++ z :: O6) !! length done_ = Some start) by (by apply list_lookup_middle).
      assert (Hs' : (done_ ++ start :: O5 ++ z :: O6) !! (length O1 + S (length O3)) = Some start).
      { rewrite Heq, lookup_app_r by lia. replace (length O1 + S (length O3) - length O1) with (S (length O3)) by lia.
        simpl. by apply list_lookup_middle. }
      pose proof (NoDup_lookup _ _ _ _ Hnd Hpos Hpos'). pose proof (NoDup_lookup _ _ _ _ Hnd Hs Hs').
      rewrite length_app in *. simpl in *. lia.
  - intros Hm. split; [by apply Hfree|]. destruct Hm as [Hsw Hws]. clear -Hfree Hsw Hws.
    induction Hws as [|a b c Hab Hbc IH]; [done|].
    assert (Hsb : reaches c b) by (by eapply rtc_r). eapply rtc_l; [|by apply IH].
    split_and!; [done|apply Hfree; split; [done|]; by eapply rtc_l|by apply Hfree].
Qed.

Record assigned_ok (assigned : list bool) (components : list (list RelationId)) : Prop := {
  assigned_length : length assigned = length edges;
  assigned_classes : classes components;
  assigned_iff : ∀ v, assigned !! v = Some true ↔ ∃ c, c ∈ components ∧ v ∈ c;
}.

Lemma assigned_closed assigned components v w :
  assigned_ok assigned components → mutual v w → assigned !! v = Some true → assigned !! w = Some true.
Proof.
  intros [_ Hcl Hiff] Hm (c & Hc & Hv)%Hiff. apply Hiff. exists c. split; [done|].
  by apply (proj2 (class_mutual _ Hcl c v Hc Hv)).
Qed.

Lemma assigned_extend done_ start order assigned assigned' component components :
  post_order (done_ ++ start :: order) → (∀ v, v ∈ done_ → assigned !! v = Some true) →
  assigned_ok assigned components → assigned !! start = Some false →
  search_ok assigned start [] assigned' component →
  assigned_ok assigned' (components ++ [merge_sort le component]).
Proof using closed small.
  intros Hpost Hdone Hok Hstart Hs.
  assert (Hclass := search_class done_ start order assigned assigned' component Hpost Hdone
    (fun v w => assigned_closed assigned components v w Hok) (assigned_length _ _ Hok) Hstart Hs).
  assert (Hperm : merge_sort le component ≡ₚ component) by apply merge_sort_Permutation.
  assert (Hlt : start < length edges) by (rewrite <-(assigned_length _ _ Hok); by eapply lookup_lt_Some).
  destruct Hok as [Hlen [Hne Hmut Hdis] Hiff]. pose proof Hs as [Hlen' Has Hnd Hfo _ _ _]. constructor.
  - congruence.
  - constructor.
    + intros c [Hc| ->%list_elem_of_singleton]%elem_of_app; [by apply Hne|]. split; [|by rewrite Hperm].
      assert (Hin : start ∈ merge_sort le component) by (rewrite Hperm; by apply Hclass). intros E. rewrite E in Hin. by apply not_elem_of_nil in Hin.
    + intros c v [Hc| ->%list_elem_of_singleton]%elem_of_app Hv; [by apply Hmut|]. rewrite Hperm in Hv.
      apply Hclass in Hv as Hm. split; [by eapply mutual_in_range|]. intros w. rewrite Hperm, Hclass.
      split; intros; [by etrans; [symmetry|]|by etrans].
    + intros i j c c' v Hi Hj Hv Hv'.
      assert (Hnew : ∀ k d, components !! k = Some d → v ∈ d → v ∈ component → False).
      { intros k d Hk Hd Hvc. apply Hfo in Hvc as [Hfree _].
        assert (assigned !! v = Some true) by (apply Hiff; exists d; split; [by eapply list_elem_of_lookup_2|done]).
        congruence. }
      apply lookup_app_Some in Hi as [Hi|[Hi Hi']], Hj as [Hj|[Hj Hj']].
      * by eapply Hdis.
      * exfalso. destruct (j - length components); simplify_eq/=. rewrite Hperm in Hv'. by eapply Hnew.
      * exfalso. destruct (i - length components); simplify_eq/=. rewrite Hperm in Hv. by eapply Hnew.
      * destruct (i - length components) eqn:Ei, (j - length components) eqn:Ej; simplify_eq/=. lia.
  - intros v. rewrite Has, Hiff. setoid_rewrite elem_of_app. setoid_rewrite list_elem_of_singleton. split.
    + intros [(c & ? & ?)|Hv]; [eauto|]. exists (merge_sort le component). split; [by right|by rewrite Hperm].
    + intros (c & [Hc| ->] & Hv); [eauto|]. rewrite Hperm in Hv. by right.
Qed.

Lemma assign_components_spec fuel order : ∀ done_ assigned components result,
  assign_components (reverse_of edges) fuel order assigned components = Some result →
  post_order (done_ ++ order) → (∀ v, v ∈ done_ → assigned !! v = Some true) →
  assigned_ok assigned (rev components) →
  classes result ∧ ∀ v, v < length edges → ∃ c, c ∈ result ∧ v ∈ c.
Proof using closed small.
  induction order as [|start order IH]; intros done_ assigned components result Hf Hpost Hdone Hok;
    cbn [assign_components] in Hf.
  - injection Hf as <-. split; [by destruct Hok|]. intros v Hv. apply (assigned_iff _ _ Hok), Hdone.
    rewrite app_nil_r in Hpost. by apply (post_nodes _ Hpost).
  - assert (Hlt : start < length assigned).
    { rewrite (assigned_length _ _ Hok). apply (post_nodes _ Hpost). set_solver. }
    destruct (lookup_lt_is_Some_2 assigned start Hlt) as [b Hb]. unfold flag_or_true in Hf. rewrite Hb in Hf. simpl in Hf.
    assert (Hpost' : post_order ((done_ ++ [start]) ++ order)) by (by rewrite <-app_assoc).
    destruct b.
    + eapply (IH (done_ ++ [start])); [done..| |done].
      intros v [?| ->%list_elem_of_singleton]%elem_of_app; [by apply Hdone|done].
    + destruct (assign_loop _ _ _ _ _) as [[assigned' component]|] eqn:El; [|done].
      assert (Hs : search_ok assigned start [] assigned' component).
      { eapply assign_loop_spec; [done|exact El|]. constructor; try done.
        - intros v. split; [by left|]. intros [|[]%not_elem_of_nil]; done.
        - apply NoDup_nil_2.
        - by intros v []%not_elem_of_nil.
        - by intros v ->%list_elem_of_singleton.
        - by intros u v []%not_elem_of_nil.
        - right. by left. }
      assert (Hok' := assigned_extend _ _ _ _ _ _ _ Hpost Hdone Hok Hb Hs).
      eapply (IH (done_ ++ [start])); [done..| |by simpl].
      intros v Hv. pose proof Hs as [_ Has _ _ _ _ _]. apply Has.
      apply elem_of_app in Hv as [Hv| ->%list_elem_of_singleton]; [left; by apply Hdone|right].
      destruct Hs as [_ _ _ _ _ _ [|[]%not_elem_of_nil]]. done.
Qed.

(** The components are exactly the classes of mutual reachability. *)
Lemma components_exact components : strongly_connected_components edges = Some components →
  classes components ∧ ∀ v, v < length edges → ∃ c, c ∈ components ∧ v ∈ c.
Proof using closed small.
  unfold strongly_connected_components. destruct (finish_order _ _ _ _) as [order|] eqn:Eo; [|done].
  cbn [mbind option_bind]. intros Ha. eapply (assign_components_spec _ order []); [exact Ha|..].
  - by apply finish_order_exact.
  - by intros v []%not_elem_of_nil.
  - constructor.
    + apply length_replicate.
    + constructor.
      * by intros c []%not_elem_of_nil.
      * by intros c v []%not_elem_of_nil.
      * intros i j c c' v Hi. by destruct i.
    + intros v. split; [by intros [? _]%lookup_replicate|]. by intros (c & []%not_elem_of_nil & _).
Qed.

(** ** Cycles *)

Lemma is_recursive_spec components c v :
  classes components → c ∈ components → v ∈ c → is_recursive edges c = true ↔ tc edge v v.
Proof.
  intros [Hne Hmut _] Hc Hv. destruct (Hne c Hc) as [Hnil Hnd]. unfold is_recursive. rewrite orb_true_iff, Nat.ltb_lt.
  assert (Htwo : ∀ w, mutual v w → v ≠ w → tc edge v v).
  { intros w [Hvw Hwv] Hnew. apply rtc_tc in Hvw as [|Hvw]; [done|]. by eapply tc_rtc_r. }
  split.
  - intros [Hlen|Hloop].
    + destruct c as [|a [|b c]]; simpl in *; try lia.
      apply NoDup_cons in Hnd as [Hab _]. destruct (decide (v = a)) as [->|Hva].
      * apply (Htwo b); [apply (Hmut _ _ Hc Hv); set_solver|]. intros ->. set_solver.
      * apply (Htwo a); [apply (Hmut _ _ Hc Hv); set_solver|done].
    + destruct c as [|a c]; [done|]. destruct (edges !! a) as [ts|] eqn:Ea; [|done].
      apply bs_contains_elem in Hloop. assert (Haa : edge a a) by (by exists ts).
      destruct (decide (v = a)) as [->|Hva]; [by apply tc_once|].
      apply (Htwo a); [apply (Hmut _ _ Hc Hv); set_solver|done].
  - intros Hcyc. destruct (decide (1 < length c)) as [|Hone]; [by left|right].
    assert (Hcv : c = [v]).
    { destruct c as [|a [|b c]]; simpl in *; [done| |lia]. by apply list_elem_of_singleton in Hv as ->. }
    subst c. assert (Hvv : edge v v).
    { inversion Hcyc as [? ? Hvv|? w ? Hvw Hwv]; subst; [done|].
      assert (Hw : w ∈ [v]).
      { apply (Hmut _ _ Hc Hv). split; [by apply rtc_once|by apply tc_rtc]. }
      by apply list_elem_of_singleton in Hw as ->. }
    destruct Hvv as (ts & -> & Hin). by apply bs_contains_elem.
Qed.

Lemma edge_source a b : edge a b → a < length edges.
Proof. apply at_lt. Qed.

(** The members of recursive components are the nodes on cycles. *)
Lemma recursive_members components :
  strongly_connected_components edges = Some components →
  ∀ v, v ∈ foldl (fun cyclic c => if is_recursive edges c then bs_extend cyclic c else cyclic) [] components ↔
    tc edge v v.
Proof using closed small.
  intros Hc v. destruct (components_exact components Hc) as [Hcl Hall].
  assert (Hfold : ∀ l acc, v ∈ foldl (fun cyclic c => if is_recursive edges c then bs_extend cyclic c else cyclic) acc l ↔
    v ∈ acc ∨ ∃ c, c ∈ l ∧ is_recursive edges c = true ∧ v ∈ c).
  { induction l as [|c l IH]; intros acc; simpl; [set_solver|]. rewrite IH. setoid_rewrite elem_of_cons.
    destruct (is_recursive edges c) eqn:Er; [rewrite bs_extend_elem|]; split.
    - intros [[?|?]|(d & ? & ? & ?)]; eauto 7.
    - intros [?|(d & [->|?] & ? & ?)]; eauto 7.
    - intros [?|(d & ? & ? & ?)]; eauto 7.
    - intros [?|(d & [->|?] & ? & ?)]; [by left|congruence|eauto 7]. }
  rewrite Hfold. split.
  - intros [[]%not_elem_of_nil|(c & Hin & Hr & Hv)]. by eapply is_recursive_spec.
  - intros Htc. right. destruct (Hall v) as (c & Hin & Hv); [by inversion Htc; eapply edge_source|].
    exists c. split_and!; [done| |done]. by eapply is_recursive_spec.
Qed.

(** ** Recursion groups *)

Record grouped (done_ : list (list RelationId)) (groups : list (option N)) (next : N) : Prop := {
  grouped_length : length groups = length edges;
  grouped_next : (next <= len done_)%N;
  grouped_bound : ∀ r k, groups !! r = Some (Some k) → (k < next)%N;
  grouped_some : ∀ r, r < length edges →
    (∃ k, groups !! r = Some (Some k)) ↔ ∃ c, c ∈ done_ ∧ is_recursive edges c = true ∧ r ∈ c;
  grouped_same : ∀ r r' k, groups !! r = Some (Some k) → groups !! r' = Some (Some k) →
    ∃ c, c ∈ done_ ∧ r ∈ c ∧ r' ∈ c;
  grouped_together : ∀ c r r', c ∈ done_ → is_recursive edges c = true → r ∈ c → r' ∈ c → groups !! r = groups !! r';
}.

Lemma assign_group_lookup (c : list RelationId) k : ∀ (groups : list (option N)) r,
  foldl (fun a r => <[r := Some k]> a) groups c !! r =
  if decide (r ∈ c ∧ r < length groups) then Some (Some k) else groups !! r.
Proof.
  induction c as [|x c IH]; intros groups r; cbn [foldl].
  { by destruct (decide _) as [[[]%not_elem_of_nil _]|]. }
  rewrite IH, length_insert. destruct (decide (r ∈ c ∧ r < length groups)) as [Hd|Hd].
  - rewrite decide_True; [done|]. set_solver.
  - destruct (decide (r = x)) as [->|Hne].
    + destruct (decide (x < length groups)).
      * rewrite list_lookup_insert_eq, decide_True by (done || set_solver). done.
      * rewrite decide_False by (intros [_ ?]; done). by rewrite list_insert_ge by lia.
    + rewrite list_lookup_insert_ne by done. rewrite decide_False; [done|].
      intros [[|]%elem_of_cons ?]; [done|]. by apply Hd.
Qed.

Lemma assign_group_length (c : list RelationId) k : ∀ groups : list (option N),
  length (foldl (fun a r => <[r := Some k]> a) groups c) = length groups.
Proof. induction c as [|x c IH]; intros groups; simpl; [done|]. by rewrite IH, length_insert. Qed.

Lemma grouped_step done_ c rest groups next :
  classes (done_ ++ c :: rest) → (len done_ < U32_MAX)%N → grouped done_ groups next →
  let '(groups', next') :=
    if is_recursive edges c
    then (foldl (fun a r => <[r := Some next]> a) groups c, saturating_add U32_MAX next 1)
    else (groups, next) in
  grouped (done_ ++ [c]) groups' next'.
Proof.
  intros [_ Hmut Hdis] Hlen [Hl Hn Hb Hs Hsame Htog]. unfold len in *. destruct (is_recursive edges c) eqn:Er.
  - assert (Hnew : ∀ r d, d ∈ done_ → r ∈ d → r ∉ c).
    { intros r d [i Hi]%list_elem_of_lookup Hd Hc.
      assert (Hij : i = length done_).
      { eapply (Hdis i (length done_) d c r); [by apply lookup_app_l_Some|by apply list_lookup_middle|done|done]. }
      subst i. apply lookup_lt_Some in Hi. lia. }
    assert (Hlt : ∀ r, r ∈ c → r < length edges) by (intros r Hr; eapply Hmut; [|done]; set_solver).
    assert (Hsat : saturating_add U32_MAX next 1 = (next + 1)%N).
    { unfold saturating_add. apply N.min_r. lia. }
    assert (Hlook : ∀ r, foldl (fun a r => <[r := Some next]> a) groups c !! r =
      if decide (r ∈ c) then Some (Some next) else groups !! r).
    { intros r. rewrite assign_group_lookup, Hl. destruct (decide (r ∈ c)) as [Hr|Hr].
      - by rewrite decide_True by auto.
      - rewrite decide_False by tauto. done. }
    constructor; rewrite ?Hsat.
    + by rewrite assign_group_length.
    + unfold len. rewrite length_app. simpl. lia.
    + intros r k. rewrite Hlook. case_decide; [intros [= <-]; lia|]. intros Hk%Hb. lia.
    + intros r Hr. rewrite Hlook. setoid_rewrite elem_of_app. setoid_rewrite list_elem_of_singleton. case_decide as Hc.
      * split; [eauto 7|eauto].
      * rewrite (Hs r Hr). split; [naive_solver|]. intros (d & [?| ->] & ? & ?); [eauto|done].
    + intros r r' k. rewrite !Hlook. setoid_rewrite elem_of_app. setoid_rewrite list_elem_of_singleton.
      case_decide; case_decide.
      * eauto 7.
      * intros [= <-] Hk%Hb. lia.
      * intros Hk%Hb [= <-]. lia.
      * intros H1 H2. destruct (Hsame r r' k H1 H2) as (d & ? & ? & ?). eauto 7.
    + intros d r r' [Hd| ->%list_elem_of_singleton]%elem_of_app Hrec Hr Hr'; rewrite !Hlook.
      * rewrite !decide_False by (by eapply Hnew). by eapply Htog.
      * by rewrite !decide_True.
  - constructor; [done| |done| | |].
    + unfold len. rewrite length_app. lia.
    + intros r Hr. rewrite (Hs r Hr). setoid_rewrite elem_of_app. setoid_rewrite list_elem_of_singleton.
      split; [naive_solver|]. intros (d & [?| ->] & ? & ?); [eauto|congruence].
    + intros r r' k H1 H2. destruct (Hsame r r' k H1 H2) as (d & ? & ? & ?). exists d. set_solver.
    + intros d r r' [Hd| ->%list_elem_of_singleton]%elem_of_app Hrec; [by apply Htog|congruence].
Qed.

Lemma classes_length components : classes components → length components ≤ length edges.
Proof using closed small.
  intros [Hne Hmut Hdis]. rewrite <-(length_fmap (fun c => default 0 (head c)) components). apply NoDup_lt_length.
  - apply NoDup_alt. intros i j x Hi Hj. rewrite list_lookup_fmap in Hi, Hj.
    destruct (components !! i) as [c|] eqn:Ec; [|done]. destruct (components !! j) as [c'|] eqn:Ec'; [|done].
    assert (Hc : c ∈ components) by (by eapply list_elem_of_lookup_2).
    assert (Hc' : c' ∈ components) by (by eapply list_elem_of_lookup_2).
    destruct (Hne c Hc) as [Hn _], (Hne c' Hc') as [Hn' _]. destruct c as [|a c], c' as [|b c']; try done. simplify_eq/=.
    eapply (Hdis i j _ _ x); [done..|by left|by left].
  - intros x (c & -> & Hc)%list_elem_of_fmap. destruct (Hne c Hc) as [Hn _]. destruct c as [|a c]; [done|].
    apply (Hmut _ a Hc). by left.
Qed.

(** Relations on cycles are grouped by mutual reachability; the others have no group. *)
Lemma recursion_groups_spec groups : recursion_groups edges = Some groups →
  length groups = length edges ∧
  ∀ r, r < length edges → (groups !! r = Some None ↔ ¬ tc edge r r) ∧
    ∀ r', r' < length edges → tc edge r r → groups !! r = groups !! r' ↔ mutual r r'.
Proof using closed small.
  unfold recursion_groups. destruct (strongly_connected_components edges) as [components|] eqn:Ec; [|done].
  cbn [mbind option_bind]. destruct (components_exact components Ec) as [Hcl Hall].
  set (step := fun '(assignments, next) component => _).
  assert (Hfold : ∀ rest done_ groups next, components = done_ ++ rest → grouped done_ groups next →
    grouped components (foldl step (groups, next) rest).1 (foldl step (groups, next) rest).2).
  { induction rest as [|c rest IH]; intros done_ g next Heq Hg; simpl.
    - rewrite app_nil_r in Heq. by subst.
    - assert (Hlen : (len done_ < U32_MAX)%N).
      { pose proof (classes_length components Hcl) as Hl. rewrite Heq, length_app in Hl. unfold len. simpl in Hl. lia. }
      rewrite Heq in Hcl. pose proof (grouped_step done_ c rest g next Hcl Hlen Hg) as Hst.
      destruct (if is_recursive edges c then _ else _) as [g' next'].
      apply (IH (done_ ++ [c])); [by rewrite <-app_assoc|done]. }
  intros [= <-]. destruct (Hfold components [] (replicate (length edges) None) 0%N eq_refl) as [Hl _ _ Hs Hsame Htog].
  { constructor; try done.
    - apply length_replicate.
    - intros r k Hk. by apply lookup_replicate in Hk as [? _].
    - intros r Hr. split; [intros (k & Hk); by apply lookup_replicate in Hk as [? _]|].
      by intros (c & []%not_elem_of_nil & _).
    - intros r r' k Hk. by apply lookup_replicate in Hk as [? _].
    - by intros c r r' []%not_elem_of_nil. }
  set (g := (foldl step _ components).1) in *. clearbody g. split; [done|]. intros r Hr.
  assert (Hcyc : (∃ k, g !! r = Some (Some k)) ↔ tc edge r r).
  { rewrite (Hs r Hr). split.
    - intros (c & Hc & Hrec & Hin). by eapply is_recursive_spec.
    - intros Htc. destruct (Hall r Hr) as (c & Hc & Hin). exists c. split_and!; [done| |done]. by eapply is_recursive_spec. }
  split.
  - rewrite <-Hcyc. destruct (lookup_lt_is_Some_2 g r) as [[k|] ->]; [lia|naive_solver|naive_solver].
  - intros r' Hr' Htc. destruct (Hall r Hr) as (c & Hc & Hin). split.
    + intros Heq. destruct (proj2 Hcyc Htc) as (k & Hk). rewrite Hk in Heq. symmetry in Heq.
      destruct (Hsame r r' k Hk Heq) as (d & Hd & Hrd & Hrd'). by apply (class_mutual _ Hcl d r Hd Hrd).
    + intros Hm. eapply Htog; [exact Hc| |done|by apply (class_mutual _ Hcl c r Hc Hin)].
      by eapply is_recursive_spec.
Qed.

End scc.

(** ** Computed cycles *)

Section computed.
Variable relations : list CompiledRelation.
Variable nodes : list RewriteNode.

Definition node_computes (n : RewriteNode) (target : RelationId) : Prop := n = NComputed target.

(** [r] refers to [r'] as a computed relation somewhere in its rewrite. *)
Definition computes (r r' : RelationId) : Prop := relation_fact nodes relations node_computes r r'.

Lemma computed_walk r root edges edges' :
  r < length edges → walk (computed_visit nodes r) (walk_fuel nodes) [root] [] edges = Some (Ok edges') →
  length edges' = length edges ∧
  ∀ i x, at_ edges' i x ↔ at_ edges i x ∨ (i = r ∧ rewrite_fact nodes node_computes root x).
Proof.
  intros Hr E. destruct (walk_rewrite nodes (computed_visit nodes r) (computed_visit_successors nodes r)
    (fun seen st => length st = length edges ∧
       ∀ i x, at_ st i x ↔ at_ edges i x ∨ (i = r ∧ seen_fact nodes node_computes seen x)) root edges edges')
    as (seen & [Hlen Hat] & Hseen); [| |exact E|].
  - intros seen st n cs st' [Hlen Hat] Hn Hv. unfold computed_visit in Hv.
    destruct (nodes !! n) as [nd|] eqn:En; simplify_eq.
    + assert (Hins := seen_fact_insert nodes node_computes n nd seen). unfold node_computes in Hins at 3.
      destruct nd; (split; [rewrite ?insert_at_length; done|]); intros i x; rewrite ?insert_at_spec, Hat, Hins by done;
        naive_solver lia.
    + split; [done|]. intros i x. rewrite Hat. apply or_iff_compat_l, and_iff_compat_l. unfold seen_fact. split.
      * intros (k & nd & ? & ? & ?). exists k, nd. split; [|done]. apply bs_insert_elem. by right.
      * intros (k & nd & [->|?]%bs_insert_elem & ? & ?); [congruence|]. by exists k, nd.
  - split; [done|]. intros i x. split; [by left|]. intros [|(_ & n & nd & []%not_elem_of_nil & _)]. done.
  - split; [done|]. intros i x. rewrite Hat. unfold seen_fact, rewrite_fact. by setoid_rewrite Hseen.
Qed.

Lemma computed_visit_ok r fuel : ∀ stack seen edges code,
  walk (computed_visit nodes r) fuel stack seen edges ≠ Some (Err code).
Proof.
  induction fuel as [|fuel IH]; intros [|n stack] seen edges code; simpl; try done.
  case_match; [apply IH|]. unfold computed_visit. destruct (nodes !! n); apply IH.
Qed.

Lemma computed_edges_spec (l : list CompiledRelation) : ∀ edges edges',
  (∀ rel, rel ∈ l → rel.(cr_id) < length edges) → computed_edges nodes l edges = Some edges' →
  length edges' = length edges ∧
  ∀ i x, at_ edges' i x ↔ at_ edges i x ∨ relation_fact nodes l node_computes i x.
Proof.
  induction l as [|rel l IH]; intros edges edges' Hids; cbn [computed_edges].
  - intros [= <-]. split; [done|]. intros i x. split; [by left|]. intros [|(? & []%not_elem_of_nil & _)]. done.
  - destruct (walk _ _ _ _ edges) as [[e1|code]|] eqn:E; [|by apply computed_visit_ok in E|done].
    apply computed_walk in E as [Hlen Hat]; [|apply Hids; by left]. intros [Hlen' Hat']%IH.
    + split; [congruence|]. intros i x. rewrite Hat', Hat, relation_fact_cons. tauto.
    + intros. rewrite Hlen. apply Hids. by right.
Qed.

Hypothesis indexed : relations_indexed relations.
Hypothesis in_range : ∀ r r', computes r r' → r' < length relations.
Hypothesis small_model : (N.of_nat (length relations) <= U32_MAX)%N.

(** The cycle check finds exactly the relations that compute themselves. *)
Lemma computed_cycles_exact cycles :
  computed_cycle_relations relations nodes = Some cycles → ∀ r, r ∈ cycles ↔ tc computes r r.
Proof using indexed in_range small_model.
  unfold computed_cycle_relations.
  destruct (computed_edges nodes relations _) as [edges|] eqn:Ee; [|done]. cbn [mbind option_bind].
  apply computed_edges_spec in Ee as [Hlen Hat].
  2: { intros rel [i Hi]%list_elem_of_lookup. rewrite length_replicate, (indexed i rel Hi). by eapply lookup_lt_Some. }
  rewrite length_replicate in Hlen.
  assert (Hedge : ∀ a b, at_ edges a b ↔ computes a b).
  { intros a b. rewrite Hat. split; [intros [[]%at_new|]; done|by right]. }
  destruct (strongly_connected_components edges) as [components|] eqn:Ec; [|done]. cbn [mbind option_bind].
  intros [= <-] r. rewrite (recursive_members edges) with (components := components); [|..|done].
  - split; apply tc_mono; intros a b; apply Hedge.
  - intros a b Hab%Hedge. rewrite Hlen. by eapply in_range.
  - by rewrite Hlen.
Qed.

End computed.

(** ** Recursion groups of a model *)

Lemma built_groups {Detail} relations nodes limits (errors errors' : ErrorCollector Detail) g :
  relations_indexed relations → (∀ r r', depends relations nodes r r' → r' < length relations) →
  (N.of_nat (length relations) <= U32_MAX)%N →
  build_graph_metadata relations nodes limits errors = Some (Some g, errors') →
  length g.(graph_recursion_groups) = length relations ∧
  ∀ r, r < length relations →
    (g.(graph_recursion_groups) !! r = Some None ↔ ¬ tc (depends relations nodes) r r) ∧
    ∀ r', r' < length relations → tc (depends relations nodes) r r →
      g.(graph_recursion_groups) !! r = g.(graph_recursion_groups) !! r' ↔
      rtc (depends relations nodes) r r' ∧ rtc (depends relations nodes) r' r.
Proof.
  intros Hidx Hrange Hsmall. unfold build_graph_metadata.
  destruct (visit_relations _ _ _ _ _) as [[gs|code]|] eqn:Ev; simpl; [|done|done].
  destruct (propagate_reachability _ _ _) as [types wildcards].
  destruct (recursion_groups (gs_forward gs)) as [groups|] eqn:Eg; [|done]. simpl. intros [= <- <-]. simpl.
  apply (visited_facts relations nodes Hidx) in Ev as (_ & Hlen & Hf & _).
  apply recursion_groups_spec in Eg as [Hl Hg]; [|intros a b Hab%Hf; rewrite Hlen; by eapply Hrange|by rewrite Hlen].
  rewrite Hlen in *. split; [done|]. intros r Hr. destruct (Hg r Hr) as [Hnone Hsame].
  assert (Htc : ∀ a b, tc (at_ (gs_forward gs)) a b ↔ tc (depends relations nodes) a b)
    by (intros a b; split; apply tc_mono; intros ? ?; apply Hf).
  assert (Hrtc : ∀ a b, rtc (at_ (gs_forward gs)) a b ↔ rtc (depends relations nodes) a b)
    by (intros a b; split; apply rtc_subrel; intros ? ?; apply Hf).
  split; [by rewrite Hnone, Htc|]. intros r' Hr' Hcyc. rewrite Hsame by (done || by apply Htc).
  unfold mutual. by rewrite !Hrtc.
Qed.
