(* ===== verification/ModelSource.v ===== *)
(** * Authorization-model source

    [crates/openfga-model/src/source.rs]: type, relation, restriction and
    condition declarations before compilation, in declaration order. *)

From S2P Require Import Prelude Ordered Identifier Reference Condition.

(** Unresolved rewrites. *)
Inductive RewriteSource :=
| SDirect
| SComputed (relation : RelationName)
| STupleToUserset (tupleset computed : RelationName)
| SUnion (children : list RewriteSource)
| SIntersection (children : list RewriteSource)
| SDifference (base subtract : RewriteSource).

Section rewrite_ind.
Variable P : RewriteSource → Prop.
Hypothesis P_direct : P SDirect.
Hypothesis P_computed : ∀ r, P (SComputed r).
Hypothesis P_ttu : ∀ t c, P (STupleToUserset t c).
Hypothesis P_union : ∀ cs, Forall P cs → P (SUnion cs).
Hypothesis P_intersection : ∀ cs, Forall P cs → P (SIntersection cs).
Hypothesis P_difference : ∀ b s, P b → P s → P (SDifference b s).

Fixpoint rewrite_source_ind (s : RewriteSource) : P s :=
  let all := fix all (l : list RewriteSource) : Forall P l :=
    match l with
    | [] => Forall_nil_2 P
    | x :: l => Forall_cons_2 P x l (rewrite_source_ind x) (all l)
    end in
  match s with
  | SDirect => P_direct
  | SComputed r => P_computed r
  | STupleToUserset t c => P_ttu t c
  | SUnion cs => P_union cs (all cs)
  | SIntersection cs => P_intersection cs (all cs)
  | SDifference b s => P_difference b s (rewrite_source_ind b) (rewrite_source_ind s)
  end.
End rewrite_ind.

(** The operands of a rewrite, in source order. *)
Definition source_children (s : RewriteSource) : list RewriteSource :=
  match s with
  | SUnion cs | SIntersection cs => cs
  | SDifference b s => [b; s]
  | _ => []
  end.

(** The number of nodes of a rewrite: what the iterative passes visit. *)
Fixpoint rewrite_size (s : RewriteSource) : nat :=
  match s with
  | SUnion cs | SIntersection cs => S (sum_list_with rewrite_size cs)
  | SDifference b s => S (rewrite_size b + rewrite_size s)
  | _ => 1
  end.

Lemma rewrite_size_children s : rewrite_size s = S (sum_list_with rewrite_size (source_children s)).
Proof. destruct s; simpl; lia. Qed.

Inductive RestrictionKindSource := RSObject | RSUserset (relation : RelationName) | RSWildcard.

Record DirectRestrictionSource := mkDirectRestrictionSource {
  drs_subject_type : TypeName;
  drs_kind : RestrictionKindSource;
  drs_condition : option ConditionName;
}.

Record RelationSource := mkRelationSource {
  rs_name : RelationName;
  rs_rewrite : RewriteSource;
  rs_rewrite_valid : bool;
  rs_restrictions : list DirectRestrictionSource;
}.

(** [RelationSource::new] and [with_invalid_rewrite] *)
Definition relation_source_new (name : RelationName) (rewrite : RewriteSource)
    (restrictions : list DirectRestrictionSource) : RelationSource :=
  mkRelationSource name rewrite true restrictions.
Definition with_invalid_rewrite (name : RelationName) (restrictions : list DirectRestrictionSource) :
    RelationSource :=
  mkRelationSource name SDirect false restrictions.

Record TypeDefinitionSource := mkTypeDefinitionSource {
  td_name : TypeName;
  td_relations : list RelationSource;
}.

(** [ConditionParameterTypeError] of [error.rs]. *)
Inductive ConditionParameterTypeError :=
| PTEUnknown (parameter : ParameterName) (type_name : rstr)
| PTEGenericArity (parameter : ParameterName) (type_name : rstr) (expected found : N).

#[export] Instance ConditionParameterTypeError_eq_dec : EqDecision ConditionParameterTypeError.
Proof. solve_decision. Defined.

Record ConditionSource := mkConditionSource {
  cs_key : ConditionName;
  cs_definition : ConditionDefinition;
  cs_parameter_type_errors : list (N * ConditionParameterTypeError);
}.

Record AuthorizationModelSource := mkAuthorizationModelSource {
  ams_store_id : StoreId;
  ams_model_id : AuthorizationModelId;
  ams_schema_version : rstr;
  ams_type_definitions : list TypeDefinitionSource;
  ams_conditions : list ConditionSource;
}.

Record AuthorizationModelDefinition := mkAuthorizationModelDefinition {
  amd_schema_version : rstr;
  amd_type_definitions : list TypeDefinitionSource;
  amd_conditions : list ConditionSource;
}.

Definition with_identity (d : AuthorizationModelDefinition) (store : StoreId) (id : AuthorizationModelId) :
    AuthorizationModelSource :=
  mkAuthorizationModelSource store id d.(amd_schema_version) d.(amd_type_definitions) d.(amd_conditions).
