(* ===== verification/Compiler.v ===== *)
(** * The model compiler

    [crates/openfga-model/src/compiler.rs]: declaration checks, symbols,
    conditions, restrictions, the iterative lowering of rewrites into shared
    nodes, entrypoint analysis and the assembly of a compiled model.  Passes
    over a rewrite use an explicit stack in the source and a list with the top
    first here; [None] of a pass is a loop bound that was too small, and
    [CompilerTheory] shows that no pass runs into it. *)

From S2P Require Import Prelude Ordered Identifier Reference Condition Model ModelErrors Graph ModelSource.

Definition SUPPORTED_SCHEMA_VERSION : rstr := str "1.1".
Definition MODEL_COMPILER_FORMAT_VERSION : N := 1.

(** ** Diagnostics *)

Inductive ModelErrorDetail :=
| MDConditionParameterType (e : ConditionParameterTypeError)
| MDConditionCompile (kind : CompileErrorKind) (found_type : option string)
    (diagnostic : option CompileErrorDetail).

#[export] Instance ModelErrorDetail_eq_dec : EqDecision ModelErrorDetail.
Proof. solve_decision. Defined.

Abbreviation Errors := (ErrorCollector ModelErrorDetail).

Definition to_u32 (index : N) : N := N.min U32_MAX index.

(** [if condition { errors.push(code, path) }] *)
Definition push_when (condition : bool) (code : ModelErrorCode) (path : DeclarationPath) (errors : Errors) : Errors :=
  if condition then push errors code path else errors.

Definition is_reserved (name : rstr) : bool :=
  bool_decide (name = str "self") || bool_decide (name = str "this").

(** A fallible fold: the [for] loops whose body contains a bounded pass. *)
Fixpoint try_foldl {A B} (f : B → A → option B) (b : B) (l : list A) : option B :=
  match l with
  | [] => Some b
  | a :: l => b ← f b a; try_foldl f b l
  end.

(** ** Declarations *)

(** The loop of [validate_rewrite_shape]; [nodes] counts the visited nodes. *)
Fixpoint shape_loop (fuel : nat) (limits : ModelLimits) (type_index relation_index : nat)
    (stack : list (RewriteSource * N)) (nodes : N) (errors : Errors) : option Errors :=
  match stack, fuel with
  | [], _ => Some errors
  | _, 0 => None
  | (rewrite, depth) :: stack, S fuel =>
      let nodes := saturating_add USIZE_MAX nodes 1 in
      let path := PRewrite (to_u32 (N.of_nat type_index)) (to_u32 (N.of_nat relation_index))
                    (to_u32 (saturating_sub nodes 1)) in
      if (limits.(ml_rewrite_nodes) <? nodes)%N || (limits.(ml_rewrite_depth) <? depth)%N then
        Some (push errors RewriteLimitExceeded path)
      else
        let next_depth := saturating_add USIZE_MAX depth 1 in
        let errors :=
          match rewrite with
          | SUnion children | SIntersection children =>
              push_when (limits.(ml_input).(operands_limit) <? len children)%N RewriteLimitExceeded path
                (push_when (len children <? 2)%N InvalidOperatorArity path errors)
          | _ => errors
          end in
        let children := (fun child => (child, next_depth)) <$> source_children rewrite in
        shape_loop fuel limits type_index relation_index (children ++ stack) nodes errors
  end.

Definition validate_rewrite_shape (root : RewriteSource) (type_index relation_index : nat)
    (limits : ModelLimits) (errors : Errors) : option Errors :=
  shape_loop (rewrite_size root) limits type_index relation_index [(root, 1%N)] 0 errors.

(** One relation of a type; the state is the names seen so far and the errors. *)
Definition validate_relation (limits : ModelLimits) (type_index : nat)
    (st : BTreeSet RelationName * Errors) (r : nat * RelationSource) :
    option (BTreeSet RelationName * Errors) :=
  let '(seen, errors) := st in
  let '(relation_index, relation) := r in
  let path := PRelation (to_u32 (N.of_nat type_index)) (to_u32 (N.of_nat relation_index)) in
  let errors := push_when (is_reserved relation.(rs_name)) ReservedName path errors in
  let errors := push_when (bs_contains relation.(rs_name) seen) DuplicateRelation path errors in
  errors ← if relation.(rs_rewrite_valid)
           then validate_rewrite_shape relation.(rs_rewrite) type_index relation_index limits errors
           else Some (push errors InvalidRewrite path);
  Some (bs_insert relation.(rs_name) seen, errors).

(** One type; the state is the names seen, the relations so far and the errors. *)
Definition validate_type (limits : ModelLimits) (st : BTreeSet TypeName * N * Errors)
    (t : nat * TypeDefinitionSource) : option (BTreeSet TypeName * N * Errors) :=
  let '(seen, total, errors) := st in
  let '(type_index, definition) := t in
  let path := PType (to_u32 (N.of_nat type_index)) in
  let errors := push_when (is_reserved definition.(td_name)) ReservedName path errors in
  let errors := push_when (bs_contains definition.(td_name) seen) DuplicateType path errors in
  let count := len definition.(td_relations) in
  let errors := push_when (limits.(ml_input).(relations_limit) <? count)%N TooManyRelations path errors in
  st ← try_foldl (validate_relation limits type_index) ([], errors) (imap pair definition.(td_relations));
  Some (bs_insert definition.(td_name) seen, saturating_add USIZE_MAX total count, snd st).

(** One condition declaration. *)
Definition validate_condition_source (st : BTreeSet ConditionName * Errors) (c : nat * ConditionSource) :
    BTreeSet ConditionName * Errors :=
  let '(seen, errors) := st in
  let '(index, condition) := c in
  let path := PCondition (to_u32 (N.of_nat index)) in
  let errors := push_when (bs_contains condition.(cs_key) seen) DuplicateCondition path errors in
  let errors := push_when (negb (bool_decide (condition.(cs_key) = condition.(cs_definition).(cd_name))))
                  ConditionNameMismatch path errors in
  let errors := foldl (fun errors '(parameter_index, e) =>
      push_detail errors InvalidConditionParameterType
        (PParameter (to_u32 (N.of_nat index)) parameter_index) (MDConditionParameterType e))
      errors condition.(cs_parameter_type_errors) in
  (bs_insert condition.(cs_key) seen, errors).

Definition validate_declarations (source : AuthorizationModelSource) (limits : ModelLimits)
    (errors : Errors) : option Errors :=
  let errors := push_when (negb (bool_decide (source.(ams_schema_version) = SUPPORTED_SCHEMA_VERSION)))
                  InvalidSchemaVersion PModel errors in
  let types := len source.(ams_type_definitions) in
  let errors := push_when ((types =? 0)%N || (limits.(ml_input).(type_definitions_limit) <? types)%N)
                  InvalidTypeDefinitionCount PModel errors in
  let errors := push_when (limits.(ml_condition_definitions) <? len source.(ams_conditions))%N
                  TooManyConditions PModel errors in
  st ← try_foldl (validate_type limits) ([], 0%N, errors) (imap pair source.(ams_type_definitions));
  let '(_, total, errors) := st in
  let errors := push_when (limits.(ml_input).(relations_limit) <? total)%N TooManyRelations PModel errors in
  Some (snd (foldl validate_condition_source ([], errors) (imap pair source.(ams_conditions)))).

(** ** Symbols *)

Record RelationOrigin := mkRelationOrigin {
  or_id : RelationId;
  or_object_type : TypeId;
  or_type_index : nat;
  or_relation_index : nat;
  or_source : RelationSource;
}.

Record Symbols := mkSymbols {
  sy_types : list CompiledType;
  sy_type_lookup : BTreeMap TypeName TypeId;
  sy_relation_origins : list RelationOrigin;
  sy_relation_lookup : BTreeMap (TypeName * RelationName) RelationId;
}.

Definition symbols_new : Symbols := mkSymbols [] [] [] [].

(** One relation of the type with identifier [type_id]; the list collects the
    relations of the type. *)
Definition add_relation (definition : TypeDefinitionSource) (type_id : TypeId) (type_index : nat)
    (st : Symbols * list RelationId) (r : nat * RelationSource) : option (Symbols * list RelationId) :=
  let '(sy, type_relations) := st in
  let '(relation_index, relation) := r in
  relation_id ← from_index (length sy.(sy_relation_origins));
  Some (mkSymbols sy.(sy_types) sy.(sy_type_lookup)
          (sy.(sy_relation_origins) ++
             [mkRelationOrigin relation_id type_id type_index relation_index relation])
          (bt_insert (definition.(td_name), relation.(rs_name)) relation_id sy.(sy_relation_lookup)),
        type_relations ++ [relation_id]).

Definition add_type (sy : Symbols) (t : nat * TypeDefinitionSource) : option Symbols :=
  let '(type_index, definition) := t in
  type_id ← from_index (length sy.(sy_types));
  let sy := mkSymbols sy.(sy_types) (bt_insert definition.(td_name) type_id sy.(sy_type_lookup))
              sy.(sy_relation_origins) sy.(sy_relation_lookup) in
  st ← try_foldl (add_relation definition type_id type_index) (sy, []) (imap pair definition.(td_relations));
  let '(sy, type_relations) := st in
  Some (mkSymbols (sy.(sy_types) ++ [mkCompiledType type_id definition.(td_name) type_relations])
          sy.(sy_type_lookup) sy.(sy_relation_origins) sy.(sy_relation_lookup)).

Definition build_symbols (source : AuthorizationModelSource) : option Symbols :=
  try_foldl add_type symbols_new (imap pair source.(ams_type_definitions)).

(** ** Restrictions *)

Definition resolve_restriction (source : DirectRestrictionSource) (sy : Symbols)
    (conditions : BTreeMap ConditionName ConditionId) (origin : RelationOrigin) (restriction_index : nat)
    (errors : Errors) : option DirectRestriction * Errors :=
  let path := PRestriction (to_u32 (N.of_nat origin.(or_type_index)))
                (to_u32 (N.of_nat origin.(or_relation_index))) (to_u32 (N.of_nat restriction_index)) in
  match bt_get source.(drs_subject_type) sy.(sy_type_lookup) with
  | None => (None, push errors UndefinedType path)
  | Some subject_type =>
      let kind :=
        match source.(drs_kind) with
        | RSObject => Some RKObject
        | RSWildcard => Some RKWildcard
        | RSUserset relation =>
            RKUserset <$> bt_get (source.(drs_subject_type), relation) sy.(sy_relation_lookup)
        end in
      match kind with
      | None => (None, push errors UndefinedRelation path)
      | Some kind =>
          let condition :=
            match source.(drs_condition) with
            | None => Some ReqUnconditional
            | Some name => Required <$> bt_get name conditions
            end in
          match condition with
          | None => (None, push errors UndefinedCondition path)
          | Some condition => (Some (mkDirectRestriction subject_type kind condition), errors)
          end
      end
  end.

(** The restrictions of one relation, sorted and without duplicates:
    [sort_unstable] and [dedup] over a total order collect a sorted set. *)
Definition resolve_relation (sy : Symbols) (conditions : BTreeMap ConditionName ConditionId)
    (errors : Errors) (origin : RelationOrigin) : list DirectRestriction * Errors :=
  let '(restrictions, errors) :=
    foldl (fun '(restrictions, errors) '(restriction_index, source) =>
             match resolve_restriction source sy conditions origin restriction_index errors with
             | (Some resolved, errors) => (restrictions ++ [resolved], errors)
             | (None, errors) => (restrictions, errors)
             end)
      ([], errors) (imap pair origin.(or_source).(rs_restrictions)) in
  (bs_collect restrictions, errors).

Definition resolve_restrictions (sy : Symbols) (conditions : BTreeMap ConditionName ConditionId)
    (errors : Errors) : list (list DirectRestriction) * Errors :=
  foldl (fun '(all, errors) origin =>
           let '(restrictions, errors) := resolve_relation sy conditions errors origin in
           (all ++ [restrictions], errors))
    ([], errors) sy.(sy_relation_origins).

(** ** Lowering *)

Definition relation_path (origin : RelationOrigin) : DeclarationPath :=
  PRelation (to_u32 (N.of_nat origin.(or_type_index))) (to_u32 (N.of_nat origin.(or_relation_index))).

Definition rewrite_path (origin : RelationOrigin) (node_index : N) : DeclarationPath :=
  PRewrite (to_u32 (N.of_nat origin.(or_type_index))) (to_u32 (N.of_nat origin.(or_relation_index)))
    (to_u32 node_index).

(** The node arena shared by all relations, and the errors. *)
Record Arena := mkArena {
  ar_nodes : list RewriteNode;
  ar_lookup : BTreeMap RewriteNode NodeId;
  ar_errors : Errors;
}.

Definition arena_push (a : Arena) (code : ModelErrorCode) (path : DeclarationPath) : Arena :=
  mkArena a.(ar_nodes) a.(ar_lookup) (push a.(ar_errors) code path).

Definition intern_node (n : RewriteNode) (limits : ModelLimits) (a : Arena) : option NodeId * Arena :=
  match bt_get n a.(ar_lookup) with
  | Some existing => (Some existing, a)
  | None =>
      if (limits.(ml_rewrite_nodes) <=? len a.(ar_nodes))%N then
        (None, arena_push a RewriteLimitExceeded PModel)
      else
        match from_index (length a.(ar_nodes)) with
        | None => (None, a)
        | Some id => (Some id, mkArena (a.(ar_nodes) ++ [n]) (bt_insert n id a.(ar_lookup)) a.(ar_errors))
        end
  end.

Record LowerContext := mkLowerContext {
  lc_origin : RelationOrigin;
  lc_symbols : Symbols;
  lc_restrictions : list (list DirectRestriction);
}.

(** The name of the type that declares the relation being lowered. *)
Definition context_type_name (context : LowerContext) : option TypeName :=
  ct_name <$> context.(lc_symbols).(sy_types) !! context.(lc_origin).(or_object_type).

(** The targets of the permitted tupleset objects, or the code to report. *)
Fixpoint ttu_targets (sy : Symbols) (computed : RelationName) (restrictions : list DirectRestriction) :
    result ModelErrorCode (list RelationId) :=
  match restrictions with
  | [] => Ok []
  | restriction :: restrictions =>
      if negb (bool_decide (restriction.(dr_kind) = RKObject)) then Err InvalidRestriction
      else
        match sy.(sy_types) !! restriction.(dr_subject_type) with
        | None => ttu_targets sy computed restrictions
        | Some target_type =>
            match bt_get (target_type.(ct_name), computed) sy.(sy_relation_lookup) with
            | None => Err InvalidTupleToUsersetTarget
            | Some target => targets ← ttu_targets sy computed restrictions; Ok (target :: targets)
            end
        end
  end.

(** [Err None] is a return without a diagnostic. *)
Definition resolve_ttu (tupleset computed : RelationName) (context : LowerContext) :
    result (option ModelErrorCode) (RelationId * list RelationId) :=
  let sy := context.(lc_symbols) in
  type_name ← ok_or (context_type_name context) None;
  tupleset_id ← ok_or (bt_get (type_name, tupleset) sy.(sy_relation_lookup)) (Some UndefinedRelation);
  origin ← ok_or (sy.(sy_relation_origins) !! tupleset_id) (Some InvalidTuplesetRelation);
  match origin.(or_source).(rs_rewrite) with
  | SDirect =>
      restrictions ← ok_or (context.(lc_restrictions) !! tupleset_id) None;
      targets ← map_err Some (ttu_targets sy computed restrictions);
      match bs_collect targets with
      | [] => Err (Some InvalidTupleToUsersetTarget)
      | targets => Ok (tupleset_id, targets)
      end
  | _ => Err (Some InvalidTuplesetRelation)
  end.

(** The node of a leaf rewrite. *)
Definition resolve_leaf (source : RewriteSource) (context : LowerContext) :
    result (option ModelErrorCode) RewriteNode :=
  match source with
  | SComputed name =>
      type_name ← ok_or (context_type_name context) None;
      target ← ok_or (bt_get (type_name, name) context.(lc_symbols).(sy_relation_lookup))
                 (Some UndefinedRelation);
      if bool_decide (target = context.(lc_origin).(or_id)) then Err (Some IllegalSelfReference)
      else Ok (NComputed target)
  | STupleToUserset tupleset computed =>
      '(tupleset_id, targets) ← resolve_ttu tupleset computed context;
      Ok (NTupleToUserset tupleset_id computed targets)
  | _ => Ok (NDirect context.(lc_origin).(or_id))
  end.

Inductive LowerFrame :=
| Visit (source : RewriteSource) (depth : N)
| FinishUnion (count : nat)
| FinishIntersection (count : nat)
| FinishDifference.

(** Children first, then the frame that combines them; nothing is pushed at
    the end of the depth range. *)
Definition push_lower_children (children : list RewriteSource) (depth : N)
    (finish : nat → LowerFrame) (frames : list LowerFrame) : list LowerFrame :=
  match checked_add USIZE_MAX depth 1 with
  | Some next_depth => ((fun child => Visit child next_depth) <$> children) ++ finish (length children) :: frames
  | None => finish (length children) :: frames
  end.

(** [values.split_off(len - count)]; [values] has its last element first. *)
Definition take_node_tail (values : list NodeId) (count : nat) : option (list NodeId * list NodeId) :=
  if count <=? length values then Some (rev (take count values), drop count values) else None.

(** Interns a node and pushes its identifier, or stops. *)
Definition push_node (n : RewriteNode) (limits : ModelLimits) (values : list NodeId) (a : Arena) :
    option (list NodeId) * Arena :=
  let '(id, a) := intern_node n limits a in
  (((fun id => id :: values) <$> id), a).

(** The frame machine of [lower_rewrite].  The outer option is the loop bound;
    the result is the root node, when there is one, and the arena. *)
Fixpoint lower_loop (fuel : nat) (limits : ModelLimits) (context : LowerContext)
    (frames : list LowerFrame) (values : list NodeId) (source_nodes : N) (a : Arena) :
    option (option NodeId * Arena) :=
  match frames, fuel with
  | [], _ =>
      match values with
      | [root] => Some (Some root, a)
      | _ => Some (None, arena_push a InvalidRewrite (relation_path context.(lc_origin)))
      end
  | _, 0 => None
  | frame :: frames, S fuel =>
      let continue frames source_nodes r :=
        match r with
        | (None, a) => Some (None, a)
        | (Some values, a) => lower_loop fuel limits context frames values source_nodes a
        end in
      match frame with
      | Visit source depth =>
          let path := rewrite_path context.(lc_origin) source_nodes in
          let source_nodes := saturating_add USIZE_MAX source_nodes 1 in
          match source with
          | SUnion children =>
              lower_loop fuel limits context (push_lower_children children depth FinishUnion frames)
                values source_nodes a
          | SIntersection children =>
              lower_loop fuel limits context (push_lower_children children depth FinishIntersection frames)
                values source_nodes a
          | SDifference base subtract =>
              match checked_add USIZE_MAX depth 1 with
              | None => Some (None, a)
              | Some next_depth =>
                  lower_loop fuel limits context
                    (Visit base next_depth :: Visit subtract next_depth :: FinishDifference :: frames)
                    values source_nodes a
              end
          | _ =>
              match resolve_leaf source context with
              | Err code => Some (None, match code with
                                        | Some code => arena_push a code path
                                        | None => a
                                        end)
              | Ok n => continue frames source_nodes (push_node n limits values a)
              end
          end
      | FinishUnion count =>
          match take_node_tail values count with
          | None => Some (None, a)
          | Some (children, values) => continue frames source_nodes (push_node (NUnion children) limits values a)
          end
      | FinishIntersection count =>
          match take_node_tail values count with
          | None => Some (None, a)
          | Some (children, values) =>
              continue frames source_nodes (push_node (NIntersection children) limits values a)
          end
      | FinishDifference =>
          match values with
          | subtract :: base :: values =>
              continue frames source_nodes (push_node (NDifference base subtract) limits values a)
          | _ => Some (None, a)
          end
      end
  end.

Definition lower_rewrite (root : RewriteSource) (context : LowerContext) (limits : ModelLimits) (a : Arena) :
    option (option NodeId * Arena) :=
  lower_loop (2 * rewrite_size root) limits context [Visit root 1] [] 0 a.

(** The loop of [contains_direct]. *)
Fixpoint direct_loop (fuel : nat) (nodes : list RewriteNode) (stack : list NodeId) (seen : BTreeSet NodeId) :
    option bool :=
  match stack, fuel with
  | [], _ => Some false
  | _, 0 => None
  | id :: stack, S fuel =>
      if bs_contains id seen then direct_loop fuel nodes stack seen
      else
        match nodes !! id with
        | Some (NDirect _) => Some true
        | Some n => direct_loop fuel nodes (rev (node_children n) ++ stack) (bs_insert id seen)
        | None => direct_loop fuel nodes stack (bs_insert id seen)
        end
  end.

Definition contains_direct (root : NodeId) (nodes : list RewriteNode) : option bool :=
  direct_loop (walk_fuel nodes) nodes [root] [].

Definition lower_relation (sy : Symbols) (restrictions : list (list DirectRestriction)) (limits : ModelLimits)
    (st : list CompiledRelation * Arena) (origin : RelationOrigin) :
    option (list CompiledRelation * Arena) :=
  let '(relations, a) := st in
  let relation_restrictions := default [] (restrictions !! origin.(or_id)) in
  lowered ← lower_rewrite origin.(or_source).(rs_rewrite) (mkLowerContext origin sy restrictions) limits a;
  match lowered with
  | (None, a) => Some (relations, a)
  | (Some root, a) =>
      assignable ← contains_direct root a.(ar_nodes);
      let path := relation_path origin in
      let unrestricted := match relation_restrictions with [] => true | _ => false end in
      let errors := push_when (assignable && unrestricted) AssignableWithoutRestrictions path a.(ar_errors) in
      let errors := push_when (negb assignable && negb unrestricted) NonAssignableWithRestrictions path errors in
      Some (relations ++ [mkCompiledRelation origin.(or_id) origin.(or_object_type)
                            origin.(or_source).(rs_name) root relation_restrictions],
            mkArena a.(ar_nodes) a.(ar_lookup) errors)
  end.

Definition lower_relations (sy : Symbols) (restrictions : list (list DirectRestriction)) (limits : ModelLimits)
    (errors : Errors) : option (list CompiledRelation * Arena) :=
  try_foldl (lower_relation sy restrictions limits) ([], mkArena [] [] errors) sy.(sy_relation_origins).

(** ** Entrypoints *)

(** [entrypoints.get(i).copied().unwrap_or(false)] *)
Definition flag_or_false (flags : list bool) (i : nat) : bool := default false (flags !! i).

Definition entrypoint_value (relations : list CompiledRelation) (relation_entrypoints values : list bool)
    (n : RewriteNode) : bool :=
  match n with
  | NDirect owner =>
      match relations !! owner with
      | None => false
      | Some relation =>
          existsb (fun restriction => match restriction.(dr_kind) with
                                      | RKObject | RKWildcard => true
                                      | RKUserset target => flag_or_false relation_entrypoints target
                                      end) relation.(cr_restrictions)
      end
  | NComputed target => flag_or_false relation_entrypoints target
  | NTupleToUserset _ _ targets => existsb (flag_or_false relation_entrypoints) targets
  | NUnion children => existsb (flag_or_false values) children
  | NIntersection children => forallb (flag_or_false values) children
  | NDifference base subtract => flag_or_false values base && flag_or_false values subtract
  end.

Definition entrypoint_nodes (relations : list CompiledRelation) (nodes : list RewriteNode)
    (relation_entrypoints : list bool) : list bool :=
  foldl (fun values n => values ++ [entrypoint_value relations relation_entrypoints values n]) [] nodes.

(** One round over the relations, which also reports a change. *)
Definition entrypoint_round (relations : list CompiledRelation) (node_values : list bool)
    (entrypoints : list bool) : list bool * bool :=
  foldl (fun '(entrypoints, changed) relation =>
           if flag_or_false node_values relation.(cr_root) && negb (flag_or_false entrypoints relation.(cr_id))
              && (relation.(cr_id) <? length entrypoints)
           then (<[relation.(cr_id) := true]> entrypoints, true)
           else (entrypoints, changed))
    (entrypoints, false) relations.

Fixpoint entrypoint_loop (remaining : nat) (relations : list CompiledRelation) (nodes : list RewriteNode)
    (entrypoints : list bool) : list bool :=
  match remaining with
  | 0 => entrypoints
  | S remaining =>
      let node_values := entrypoint_nodes relations nodes entrypoints in
      let '(entrypoints, changed) := entrypoint_round relations node_values entrypoints in
      if changed then entrypoint_loop remaining relations nodes entrypoints else entrypoints
  end.

Definition validate_entrypoints (sy : Symbols) (relations : list CompiledRelation) (nodes : list RewriteNode)
    (cycle_relations : BTreeSet RelationId) (errors : Errors) : list bool * Errors :=
  let entrypoints :=
    entrypoint_loop (S (length relations)) relations nodes (replicate (length relations) false) in
  (entrypoints,
   foldl (fun errors relation =>
            if flag_or_false entrypoints relation.(cr_id) then errors
            else match sy.(sy_relation_origins) !! relation.(cr_id) with
                 | None => errors
                 | Some origin =>
                     let code := if bs_contains relation.(cr_id) cycle_relations
                                 then PotentialLoop else NoEntrypoints in
                     push errors code (relation_path origin)
                 end)
     errors relations).

(** ** Conditions and assembly *)

Section compile.
Context `{ConditionCompiler}.

Definition compile_condition_source (limits : ConditionLimits)
    (st : list CompiledConditionEntry * BTreeMap ConditionName ConditionId * Errors)
    (c : nat * ConditionSource) :
    list CompiledConditionEntry * BTreeMap ConditionName ConditionId * Errors :=
  let '(conditions, lookup, errors) := st in
  let '(index, source) := c in
  let path := PCondition (to_u32 (N.of_nat index)) in
  match from_index index with
  | None => (conditions, lookup, push errors TooManyConditions path)
  | Some id =>
      match compile_condition source.(cs_definition) limits with
      | Ok condition =>
          (conditions ++ [mkCompiledConditionEntry id source.(cs_key) condition],
           bt_insert source.(cs_key) id lookup, errors)
      | Err e =>
          (conditions, lookup,
           push_detail errors InvalidCondition path
             (MDConditionCompile e.(ce_kind) e.(ce_found_type) e.(ce_detail)))
      end
  end.

Definition compile_conditions (source : AuthorizationModelSource) (limits : ConditionLimits) (errors : Errors) :
    list CompiledConditionEntry * BTreeMap ConditionName ConditionId * Errors :=
  foldl (compile_condition_source limits) ([], [], errors) (imap pair source.(ams_conditions)).

(** The diagnostics of the relations on a cycle of computed relations. *)
Definition push_cycles (sy : Symbols) (cycle_relations : BTreeSet RelationId) (errors : Errors) : Errors :=
  foldl (fun errors relation =>
           match sy.(sy_relation_origins) !! relation with
           | None => errors
           | Some origin => push errors ForbiddenComputedCycle (relation_path origin)
           end) errors cycle_relations.

(** [if !self.errors.is_empty() { return Err(self.errors.finish()) }] *)
Definition stop_unless_empty {A} (errors : Errors) (next : option (result (ModelErrors ModelErrorDetail) A)) :
    option (result (ModelErrors ModelErrorDetail) A) :=
  if collector_is_empty errors then next else Some (Err (collector_finish errors)).

(** [Compiler::compile], without the two fingerprints of the model. *)
Definition compile (source : AuthorizationModelSource) (limits : ModelLimits)
    (condition_limits : ConditionLimits) : option (result (ModelErrors ModelErrorDetail) CompiledModel) :=
  errors ← validate_declarations source limits (collector_new (N.to_nat limits.(ml_model_errors)));
  stop_unless_empty errors
    match build_symbols source with
    | None => Some (Err (collector_finish errors))
    | Some sy =>
        let '(conditions, condition_lookup, errors) := compile_conditions source condition_limits errors in
        stop_unless_empty errors (
          let '(restrictions, errors) := resolve_restrictions sy condition_lookup errors in
          stop_unless_empty errors (
            '(relations, a) ← lower_relations sy restrictions limits errors;
            let nodes := a.(ar_nodes) in
            stop_unless_empty a.(ar_errors) (
              cycle_relations ← computed_cycle_relations relations nodes;
              let '(_, errors) := validate_entrypoints sy relations nodes cycle_relations a.(ar_errors) in
              let errors := push_cycles sy cycle_relations errors in
              stop_unless_empty errors (
                '(graph, errors) ← build_graph_metadata relations nodes limits errors;
                match graph with
                | None => Some (Err (collector_finish errors))
                | Some graph =>
                    stop_unless_empty errors (Some (Ok {|
                      model_store_id := source.(ams_store_id);
                      model_id := source.(ams_model_id);
                      schema_version := source.(ams_schema_version);
                      compiler_format_version := MODEL_COMPILER_FORMAT_VERSION;
                      model_types := sy.(sy_types);
                      type_lookup := sy.(sy_type_lookup);
                      model_relations := relations;
                      relation_lookup := sy.(sy_relation_lookup);
                      model_nodes := nodes;
                      model_conditions := conditions;
                      condition_lookup := condition_lookup;
                      model_graph := graph;
                    |}))
                end))))
    end.

End compile.
