(* ===== verification/DeclarationTheory.v ===== *)
(** * What the declaration checks accept

    Passes of the compiler emit diagnostics into a bounded collector.  A pass
    is described by the exact condition under which it emits none; here for the
    declaration checks of [compiler.rs] ([validate_declarations] and
    [validate_rewrite_shape]). *)

From S2P Require Import Prelude Ordered Identifier Reference Condition Model ModelErrors Graph ModelSource.
From S2P Require Import Compiler.

(** ** Emitting diagnostics *)

(** From [e] to [e'], with no diagnostic exactly when [Q]. *)
Definition emits (e e' : Errors) (Q : Prop) : Prop :=
  ∃ l, e' = foldl push_error e l ∧ (l = [] ↔ Q).

Lemma emits_none e (Q : Prop) : Q → emits e e Q.
Proof. exists []. done. Qed.

#[export] Instance emits_proper : Proper ((=) ==> (=) ==> iff ==> iff) emits.
Proof. intros e ? <- e' ? <- Q Q' HQ. unfold emits. by setoid_rewrite HQ. Qed.

Lemma emits_iff e e' (Q Q' : Prop) : (Q ↔ Q') → emits e e' Q → emits e e' Q'.
Proof. intros HQ (l & ? & ?). exists l. by rewrite <-HQ. Qed.

Lemma emits_app e1 e2 e3 (Q1 Q2 : Prop) : emits e1 e2 Q1 → emits e2 e3 Q2 → emits e1 e3 (Q1 ∧ Q2).
Proof.
  intros (l1 & -> & H1) (l2 & -> & H2). exists (l1 ++ l2).
  by rewrite foldl_app, <-H1, <-H2, app_nil.
Qed.

Lemma emits_one e x (Q : Prop) : ¬ Q → emits e (push_error e x) Q.
Proof. exists [x]. done. Qed.

Lemma emits_push e code path (Q : Prop) : ¬ Q → emits e (push e code path) Q.
Proof. apply emits_one. Qed.

Lemma emits_when e b code path : emits e (push_when b code path e) (b = false).
Proof. destruct b; simpl; [by apply emits_push|by apply emits_none]. Qed.

(** A pass after a conditional diagnostic. *)
Lemma emits_when_then e e' b code path (Q : Prop) :
  emits (push_when b code path e) e' Q → emits e e' (b = false ∧ Q).
Proof. apply emits_app, emits_when. Qed.

Lemma emits_foldl {A} (f : Errors → A → Errors) (Q : A → Prop) (l : list A) : ∀ e,
  (∀ e x, x ∈ l → emits e (f e x) (Q x)) → emits e (foldl f e l) (∀ x, x ∈ l → Q x).
Proof.
  induction l as [|x l IH]; intros e Hf; simpl.
  - apply emits_none. set_solver.
  - eapply emits_iff; [|eapply emits_app; [apply (Hf _ x); by left|apply IH; intros; apply Hf; by right]].
    set_solver.
Qed.

(** An empty collector after a pass means that the pass emitted nothing. *)
Lemma foldl_push_maximum l : ∀ e : Errors, ec_maximum (foldl push_error e l) = ec_maximum e.
Proof.
  induction l as [|x l IH]; intros e; simpl; [done|]. rewrite IH. unfold push_error. by case_match.
Qed.

Lemma foldl_push_nonempty l : ∀ e : Errors, ec_errors e ≠ [] → ec_errors (foldl push_error e l) ≠ [].
Proof.
  induction l as [|x l IH]; intros e He; simpl; [done|]. apply IH. unfold push_error.
  case_match; simpl; [|done]. by destruct (ec_errors e).
Qed.

Lemma emits_clean e e' Q :
  emits e e' Q → 0 < ec_maximum e → collector_is_empty e' = true → e' = e ∧ Q.
Proof.
  intros (l & -> & HQ) Hmax. destruct l as [|x l]; [by intuition|]. simpl. intros He. exfalso.
  unfold collector_is_empty in He. revert He.
  destruct (ec_errors (foldl push_error (push_error e x) l)) eqn:E; [|done]. intros _. revert E.
  apply foldl_push_nonempty. unfold push_error.
  destruct (Nat.ltb_spec (length (ec_errors e)) (ec_maximum e)); simpl.
  - by destruct (ec_errors e).
  - destruct (ec_errors e); simpl in *; [lia|done].
Qed.

Lemma emits_silent e e' (Q : Prop) : emits e e' Q → Q → e' = e.
Proof. intros (l & -> & Hl) HQ. by rewrite (proj2 Hl HQ). Qed.

Lemma emits_maximum e e' Q : emits e e' Q → ec_maximum e' = ec_maximum e.
Proof. intros (l & -> & _). apply foldl_push_maximum. Qed.

(** ** Folds that detect duplicates *)

Section seen.
Context {A K St : Type} `{OrdLaws K}.
Variable key : A → K.
Variable step : St → A → option St.
Variable seen : St → BTreeSet K.
Variable errs : St → Errors.
Variable Q : A → Prop.
Hypothesis step_spec : ∀ st a, ∃ st', step st a = Some st' ∧ seen st' = bs_insert (key a) (seen st) ∧
  emits (errs st) (errs st') ((key a ∉ seen st) ∧ Q a).

Lemma seen_fold (l : list A) : ∀ st, ∃ st', try_foldl step st l = Some st' ∧
  emits (errs st) (errs st') (NoDup (key <$> l) ∧ ∀ a, a ∈ l → (key a ∉ seen st) ∧ Q a).
Proof using Type*.
  induction l as [|a l IH]; intros st; simpl.
  - exists st. split; [done|]. apply emits_none. split; [apply NoDup_nil_2|by intros ? ?%not_elem_of_nil].
  - destruct (step_spec st a) as (st1 & -> & Hseen & He1). simpl.
    destruct (IH st1) as (st2 & -> & He2). exists st2. split; [done|].
    eapply emits_iff; [|exact (emits_app _ _ _ _ _ He1 He2)]. rewrite Hseen, NoDup_cons.
    setoid_rewrite elem_of_cons. setoid_rewrite list_elem_of_fmap. setoid_rewrite bs_insert_elem. split.
    + intros ([Hk HQ] & Hnd & Hl). split_and!; [|done|].
      * intros (b & Hb & Hbl). destruct (Hl b Hbl) as [Hn _]. apply Hn. by left.
      * intros b [->|Hb]; [done|]. destruct (Hl b Hb) as [Hn ?]. split; [|done]. intros ?. apply Hn. by right.
    + intros ([Hnin Hnd] & Hl). split_and!; [apply Hl; by left|apply Hl; by left|done|].
      intros b Hb. destruct (Hl b ltac:(by right)) as [Hn ?]. split; [|done].
      intros [Heq|?]; [|done]. apply Hnin. exists b. by rewrite Heq.
Qed.

End seen.

Lemma try_foldl_total {A B} (f : B → A → B) (l : list A) : ∀ b,
  try_foldl (fun b a => Some (f b a)) b l = Some (foldl f b l).
Proof. induction l as [|a l IH]; intros b; simpl; [done|]. apply IH. Qed.

Lemma snd_imap_pair {A B} (f : A → B) (l : list A) : (fun p : nat * A => f p.2) <$> imap pair l = f <$> l.
Proof.
  apply list_eq. intros i. rewrite !list_lookup_fmap, list_lookup_imap. by destruct (l !! i).
Qed.

Lemma sum_imap_pair {A} (f : A → nat) (l : list A) :
  sum_list_with (fun p : nat * A => f p.2) (imap pair l) = sum_list_with f l.
Proof.
  assert (Hs : ∀ {B} (g : B → nat) (k : list B), sum_list_with g k = sum_list (g <$> k))
    by (intros B g k; induction k as [|x k IH]; simpl; [done|by rewrite IH]).
  by rewrite (Hs _ (fun p : nat * A => f p.2)), (Hs _ f), snd_imap_pair.
Qed.

Lemma elem_imap_pair {A} (P : A → Prop) (l : list A) :
  (∀ p : nat * A, p ∈ imap pair l → P p.2) ↔ ∀ a, a ∈ l → P a.
Proof.
  setoid_rewrite list_elem_of_lookup. setoid_rewrite list_lookup_imap. split.
  - intros HP a [i Hi]. apply (HP (i, a)). exists i. by rewrite Hi.
  - intros HP p [i Hi]. destruct (l !! i) as [a|] eqn:E; simplify_eq/=. eauto.
Qed.

(** ** Rewrite shapes *)

Section declarations.
Variable limits : ModelLimits.
Hypothesis limits_ok : model_limits_ok limits.

(** Operators have two operands or more, within the limit; nesting is bounded. *)
Fixpoint well_shaped (depth : N) (s : RewriteSource) : Prop :=
  (depth <= limits.(ml_rewrite_depth))%N ∧
  match s with
  | SUnion cs | SIntersection cs =>
      (2 <= len cs <= limits.(ml_input).(operands_limit))%N ∧
      (fix all cs := match cs with [] => True | c :: cs => well_shaped (depth + 1) c ∧ all cs end) cs
  | SDifference b s => well_shaped (depth + 1) b ∧ well_shaped (depth + 1) s
  | _ => True
  end.

Definition arity_ok (s : RewriteSource) : Prop :=
  match s with
  | SUnion cs | SIntersection cs => (2 <= len cs <= limits.(ml_input).(operands_limit))%N
  | _ => True
  end.

Lemma well_shaped_unfold depth s :
  well_shaped depth s ↔
    (depth <= limits.(ml_rewrite_depth))%N ∧ arity_ok s ∧
    ∀ c, c ∈ source_children s → well_shaped (depth + 1) c.
Proof using Type.
  clear limits_ok. assert (Hall : ∀ cs, (fix all cs := match cs with
      [] => True | c :: cs => well_shaped (depth + 1) c ∧ all cs end) cs ↔
      ∀ c, c ∈ cs → well_shaped (depth + 1) c).
  { induction cs as [|c cs IH]; [set_solver|]. rewrite IH. set_solver. }
  destruct s; cbn [well_shaped arity_ok source_children]; rewrite ?Hall; set_solver.
Qed.

Definition rewrite_shape_ok (root : RewriteSource) : Prop :=
  well_shaped 1 root ∧ (N.of_nat (rewrite_size root) <= limits.(ml_rewrite_nodes))%N.

Abbreviation stack_size stack := (sum_list_with (fun p : RewriteSource * N => rewrite_size p.1) stack).

Lemma stack_size_children cs (d : N) stack :
  stack_size (((fun c => (c, d)) <$> cs) ++ stack) = sum_list_with rewrite_size cs + stack_size stack.
Proof. rewrite sum_list_with_app. f_equal. induction cs; simpl; auto. Qed.

Lemma rewrite_size_pos s : 0 < rewrite_size s.
Proof. destruct s; simpl; lia. Qed.

Lemma shape_loop_spec ti ri fuel : ∀ stack nodes e,
  stack_size stack ≤ fuel → (nodes <= limits.(ml_rewrite_nodes))%N →
  Forall (fun p => (p.2 <= limits.(ml_rewrite_depth) + 1)%N) stack →
  ∃ e', shape_loop fuel limits ti ri stack nodes e = Some e' ∧
    emits e e' ((nodes + N.of_nat (stack_size stack) <= limits.(ml_rewrite_nodes))%N ∧
                ∀ p, p ∈ stack → well_shaped p.2 p.1).
Proof.
  destruct limits_ok as (_ & _ & Hn & Hd & _). unfold limit_in in *.
  induction fuel as [|fuel IH]; intros [|[s d] stack] nodes e Hf Hnodes Hdepth.
  1,3: exists e; split; [done|]; apply emits_none; simpl; split; [lia|set_solver].
  { simpl in Hf. pose proof (rewrite_size_pos s). lia. }
  cbn [shape_loop]. cbv zeta. apply Forall_cons in Hdepth as [Hsd Hdepth]. simpl in Hsd.
  unfold saturating_add, USIZE_MAX, U64_MAX. rewrite !N.min_r by lia.
  set (path := PRewrite _ _ _). clearbody path.
  pose proof (rewrite_size_children s) as Hs. simpl in Hf. destruct (orb _ _) eqn:Elim.
  - eexists. split; [done|]. apply emits_push. simpl. intros [Hle Hws]. apply orb_true_iff in Elim.
    rewrite !N.ltb_lt in Elim.
    destruct Elim as [|Hdeep]; [lia|]. specialize (Hws (s, d) ltac:(by left)).
    apply well_shaped_unfold in Hws as [Hws _]. simpl in Hws. lia.
  - apply orb_false_iff in Elim as [E1%N.ltb_ge E2%N.ltb_ge].
    set (e1 := match s with SUnion _ => _ | _ => _ end).
    assert (He1 : emits e e1 (arity_ok s)).
    { subst e1. destruct s; simpl; try (by apply emits_none).
      all: eapply emits_iff; [|eapply emits_when_then, emits_when]; rewrite !N.ltb_ge; naive_solver lia. }
    clearbody e1. destruct (IH (((fun c => (c, (d + 1)%N)) <$> source_children s) ++ stack) (nodes + 1)%N e1)
      as (e' & -> & He').
    { rewrite stack_size_children. lia. }
    { lia. }
    { apply Forall_app. split; [|done]. apply Forall_fmap, Forall_true. intros c. simpl. lia. }
    exists e'. split; [done|]. eapply emits_iff; [|exact (emits_app _ _ _ _ _ He1 He')].
    rewrite stack_size_children. simpl sum_list_with. setoid_rewrite elem_of_app.
    setoid_rewrite list_elem_of_fmap. setoid_rewrite elem_of_cons. split.
    + intros (Ha & Hsz & Hw). split; [lia|]. intros p [->|Hp]; [|apply Hw; by right].
      apply well_shaped_unfold. split_and!; [done..|]. intros c Hc. apply (Hw (c, d + 1)%N). left. eauto.
    + intros (Hsz & Hw). assert (Hws := Hw (s, d) ltac:(by left)).
      apply well_shaped_unfold in Hws as (_ & Ha & Hc). split_and!; [done|lia|].
      intros p [(c & -> & Hin)|Hp]; [by apply Hc|apply Hw; by right].
Qed.

Lemma validate_rewrite_shape_spec root ti ri e :
  ∃ e', validate_rewrite_shape root ti ri limits e = Some e' ∧ emits e e' (rewrite_shape_ok root).
Proof.
  pose proof limits_ok as (_ & _ & Hn & Hd & _). unfold limit_in in *.
  destruct (shape_loop_spec ti ri (rewrite_size root) [(root, 1%N)] 0 e) as (e' & ? & He').
  - simpl. lia.
  - lia.
  - constructor; [simpl; lia|constructor].
  - exists e'. split; [done|]. eapply emits_iff; [|exact He']. unfold rewrite_shape_ok. simpl.
    setoid_rewrite list_elem_of_singleton. split; [|naive_solver lia].
    intros [? Hw]. split; [by apply (Hw (root, 1%N))|lia].
Qed.

(** ** Types, relations and conditions *)

Definition relation_ok (r : RelationSource) : Prop :=
  is_reserved r.(rs_name) = false ∧ r.(rs_rewrite_valid) = true ∧ rewrite_shape_ok r.(rs_rewrite).

Record type_ok (td : TypeDefinitionSource) : Prop := {
  type_not_reserved : is_reserved td.(td_name) = false;
  type_relations_count : (len td.(td_relations) <= limits.(ml_input).(relations_limit))%N;
  type_relations_unique : NoDup (rs_name <$> td.(td_relations));
  type_relations_ok : ∀ r, r ∈ td.(td_relations) → relation_ok r;
}.

Record condition_ok (c : ConditionSource) : Prop := {
  condition_key_name : c.(cs_key) = c.(cs_definition).(cd_name);
  condition_parameters_typed : c.(cs_parameter_type_errors) = [];
}.

(** What [validate_declarations] accepts. *)
Record declarations_ok (source : AuthorizationModelSource) : Prop := {
  declared_schema : source.(ams_schema_version) = SUPPORTED_SCHEMA_VERSION;
  declared_types_count :
    (0 < len source.(ams_type_definitions) <= limits.(ml_input).(type_definitions_limit))%N;
  declared_conditions_count : (len source.(ams_conditions) <= limits.(ml_condition_definitions))%N;
  declared_types_unique : NoDup (td_name <$> source.(ams_type_definitions));
  declared_types_ok : ∀ td, td ∈ source.(ams_type_definitions) → type_ok td;
  declared_relations_count :
    (N.of_nat (sum_list_with (fun td => length td.(td_relations)) source.(ams_type_definitions))
       <= limits.(ml_input).(relations_limit))%N;
  declared_conditions_unique : NoDup (cs_key <$> source.(ams_conditions));
  declared_conditions_ok : ∀ c, c ∈ source.(ams_conditions) → condition_ok c;
}.

Lemma validate_relation_spec ti st (r : nat * RelationSource) :
  ∃ st', validate_relation limits ti st r = Some st' ∧ st'.1 = bs_insert (rs_name r.2) st.1 ∧
    emits st.2 st'.2 ((rs_name r.2 ∉ st.1) ∧ relation_ok r.2).
Proof using limits_ok.
  destruct st as [seen e], r as [ri r]. unfold validate_relation, relation_ok. cbn [fst snd].
  set (path := PRelation _ _). clearbody path.
  set (e1 := push_when (bs_contains _ _) _ _ _).
  assert (He1 : emits e e1 (is_reserved (rs_name r) = false ∧ rs_name r ∉ seen)).
  { rewrite <-bs_contains_false. eapply emits_when_then, emits_when. }
  clearbody e1. destruct (rs_rewrite_valid r) eqn:Ev.
  - destruct (validate_rewrite_shape_spec (rs_rewrite r) ti ri e1) as (e' & -> & He').
    eexists. split_and!; [done..|]. simpl. eapply emits_iff; [|exact (emits_app _ _ _ _ _ He1 He')]. tauto.
  - eexists. split_and!; [done..|]. simpl.
    eapply emits_iff; [|eapply emits_app; [exact He1|apply (emits_push _ _ _ False); tauto]]. naive_solver.
Qed.

Lemma validate_type_spec st (t : nat * TypeDefinitionSource) :
  ∃ st', validate_type limits st t = Some st' ∧ st'.1.1 = bs_insert (td_name t.2) st.1.1 ∧
    emits st.2 st'.2 ((td_name t.2 ∉ st.1.1) ∧ type_ok t.2).
Proof using limits_ok.
  destruct st as [[seen total] e], t as [ti td]. unfold validate_type. cbn [fst snd].
  set (path := PType _). clearbody path. cbv zeta.
  set (e1 := push_when (N.ltb _ _) _ _ _).
  assert (He1 : emits e e1 (is_reserved (td_name td) = false ∧ (td_name td ∉ seen) ∧
      (len td.(td_relations) <= limits.(ml_input).(relations_limit))%N)).
  { rewrite <-bs_contains_false, <-N.ltb_ge. eapply emits_when_then, emits_when_then, emits_when. }
  clearbody e1. destruct (seen_fold (fun p : nat * RelationSource => rs_name p.2) (validate_relation limits ti)
    fst snd (fun p => relation_ok p.2) (validate_relation_spec ti) (imap pair (td_relations td)) ([], e1))
    as (st' & -> & He').
  eexists. split_and!; [done..|]. eapply emits_iff; [|exact (emits_app _ _ _ _ _ He1 He')].
  rewrite snd_imap_pair. cbn [fst snd]. rewrite (elem_imap_pair (fun r => (rs_name r ∉ []) ∧ relation_ok r)). split.
  - intros ((? & ? & ?) & Hnd & Hr). split; [done|]. constructor; [done..|]. intros r Hin. by apply Hr.
  - intros (? & [? ? ? Hr]). split_and!; [done..|]. intros r Hin. split; [apply not_elem_of_nil|by apply Hr].
Qed.

Lemma validate_types_total (l : list (nat * TypeDefinitionSource)) : ∀ st st',
  try_foldl (validate_type limits) st l = Some st' → (st.1.2 <= USIZE_MAX)%N →
  st'.1.2 = N.min USIZE_MAX (st.1.2 + N.of_nat (sum_list_with (fun p => length (td_relations p.2)) l)).
Proof.
  induction l as [|[ti td] l IH]; intros [[seen total] e] st' Hf Htot; simpl in *; [simplify_eq/=; lia|].
  destruct (try_foldl (validate_relation _ _) _ _) as [st1|]; simplify_eq/=.
  apply IH in Hf; simpl in *; unfold saturating_add, len in *; lia.
Qed.

Lemma validate_condition_source_spec st (c : nat * ConditionSource) :
  (validate_condition_source st c).1 = bs_insert (cs_key c.2) st.1 ∧
  emits st.2 (validate_condition_source st c).2 ((cs_key c.2 ∉ st.1) ∧ condition_ok c.2).
Proof.
  destruct st as [seen e], c as [i c]. unfold validate_condition_source. cbn [fst snd]. split; [done|].
  set (path := PCondition _). clearbody path. set (e1 := push_when (negb _) _ _ _).
  assert (He1 : emits e e1 ((cs_key c ∉ seen) ∧ cs_key c = cd_name (cs_definition c))).
  { rewrite <-bs_contains_false. eapply emits_iff; [|eapply emits_when_then, emits_when].
    by rewrite negb_false_iff, bool_decide_eq_true. }
  clearbody e1. eapply emits_iff; [|eapply emits_app; [exact He1|]].
  2: { apply (emits_foldl _ (fun _ => False)). intros e' [pi pe] _. apply emits_one. tauto. }
  split.
  - intros [[? ?] Hn]. split; [done|]. constructor; [done|].
    destruct (cs_parameter_type_errors c) as [|x ?]; [done|]. destruct (Hn x ltac:(by left)).
  - intros [? [? Hp]]. rewrite Hp. split; [done|]. intros x []%not_elem_of_nil.
Qed.

Lemma validate_declarations_spec source e :
  ∃ e', validate_declarations source limits e = Some e' ∧ emits e e' (declarations_ok source).
Proof using limits_ok.
  destruct limits_ok as ((_ & _ & _ & _ & _ & _ & _ & _ & _ & _ & _ & _ & _ & _ & _ & _ & _ & _ & Hrl & _) & _).
  unfold limit_in in Hrl.
  unfold validate_declarations. cbv zeta. set (e1 := push_when (N.ltb _ _) TooManyConditions _ _).
  assert (He1 : emits e e1 (ams_schema_version source = SUPPORTED_SCHEMA_VERSION ∧
      (0 < len source.(ams_type_definitions) <= limits.(ml_input).(type_definitions_limit))%N ∧
      (len source.(ams_conditions) <= limits.(ml_condition_definitions))%N)).
  { eapply emits_iff; [|eapply emits_when_then, emits_when_then, emits_when].
    rewrite negb_false_iff, bool_decide_eq_true, orb_false_iff, N.eqb_neq, !N.ltb_ge. naive_solver lia. }
  clearbody e1. destruct (seen_fold (fun p : nat * TypeDefinitionSource => td_name p.2) (validate_type limits)
    (fun st => st.1.1) snd (fun p => type_ok p.2) validate_type_spec
    (imap pair (ams_type_definitions source)) ([], 0%N, e1)) as ([[seen total] e2] & Hf & He2).
  rewrite Hf. apply validate_types_total in Hf; [|done]. cbn [fst snd mbind option_bind] in *.
  set (e3 := push_when _ TooManyRelations _ _).
  assert (He3 := emits_when_then _ _ _ _ _ _ (emits_none e3 True I)). clearbody e3.
  destruct (seen_fold (fun p : nat * ConditionSource => cs_key p.2)
    (fun st c => Some (validate_condition_source st c)) fst snd (fun p => condition_ok p.2)
    ltac:(intros st c; eexists; split; [done|apply validate_condition_source_spec])
    (imap pair (ams_conditions source)) ([], e3)) as (st' & Hc & He4).
  rewrite try_foldl_total in Hc. injection Hc as ->. eexists. split; [done|].
  eapply emits_iff; [|exact (emits_app _ _ _ _ _ He1 (emits_app _ _ _ _ _ He2 (emits_app _ _ _ _ _ He3 He4)))].
  rewrite !snd_imap_pair. cbn [fst snd].
  rewrite (elem_imap_pair (fun td => (td_name td ∉ []) ∧ type_ok td)).
  rewrite (elem_imap_pair (fun c => (cs_key c ∉ []) ∧ condition_ok c)).
  rewrite (sum_imap_pair (fun td => length (td_relations td))) in Hf. rewrite N.ltb_ge. split.
  - intros ((? & ? & ?) & (? & Ht) & (? & _) & (? & Hc)). constructor; try done.
    + intros td Htd. by apply Ht.
    + unfold USIZE_MAX, U64_MAX in *. lia.
    + intros c Hin. by apply Hc.
  - intros [? ? ? ? Ht ? ? Hc]. split_and!; try done; try lia.
    + intros td Htd. split; [apply not_elem_of_nil|by apply Ht].
    + intros c Hin. split; [apply not_elem_of_nil|by apply Hc].
Qed.

End declarations.
