(* ===== verification/SymbolTheory.v ===== *)
(** * Symbols, conditions and restrictions of an accepted declaration

    The dense identifiers of [build_symbols] are the positions of the
    declarations, the lookups are exactly the indices of the declared names, and
    [compile_conditions] and [resolve_restrictions] resolve every name when they
    emit nothing. *)

From S2P Require Import Prelude Ordered Identifier Reference Condition Model ModelErrors Graph ModelSource.
From S2P Require Import Compiler DeclarationTheory.

(** ** Folds by prefix *)

Lemma try_foldl_ind {A B} (f : B → A → option B) (P : list A → B → Prop) (l : list A) b :
  P [] b →
  (∀ pre a rest b, l = pre ++ a :: rest → P pre b → ∃ b', f b a = Some b' ∧ P (pre ++ [a]) b') →
  ∃ b', try_foldl f b l = Some b' ∧ P l b'.
Proof.
  intros Hb Hstep. cut (∀ rest pre b, l = pre ++ rest → P pre b →
    ∃ b', try_foldl f b rest = Some b' ∧ P l b'); [intros Hc; by apply (Hc l [])|].
  clear b Hb. induction rest as [|a rest IH]; intros pre b Hl HP; simpl.
  - exists b. split; [done|]. by rewrite Hl, app_nil_r.
  - destruct (Hstep pre a rest b Hl HP) as (b' & -> & HP'). simpl. apply (IH (pre ++ [a])); [|done].
    by rewrite <-app_assoc.
Qed.

Lemma imap_pair_snd {A} (l : list A) : (imap pair l).*2 = l.
Proof. apply list_eq. intros i. rewrite list_lookup_fmap, list_lookup_imap. by destruct (l !! i). Qed.

Lemma try_foldl_imap_ind {A B} (f : B → nat * A → option B) (P : list A → B → Prop) (l : list A) b :
  P [] b →
  (∀ pre a rest b, l = pre ++ a :: rest → P pre b →
     ∃ b', f b (length pre, a) = Some b' ∧ P (pre ++ [a]) b') →
  ∃ b', try_foldl f b (imap pair l) = Some b' ∧ P l b'.
Proof.
  intros Hb Hstep.
  destruct (try_foldl_ind f (fun (pre : list (nat * A)) b => P pre.*2 b) (imap pair l) b Hb) as (b' & ? & HP).
  - intros pre [i a] rest b1 Hl HP. assert (Hpre : i = length pre).
    { assert (Hi : imap pair l !! length pre = Some (i, a)) by (rewrite Hl; by apply list_lookup_middle).
      rewrite list_lookup_imap in Hi. destruct (l !! length pre); by simplify_eq/=. }
    subst i. rewrite fmap_app. simpl. destruct (Hstep pre.*2 a rest.*2 b1) as (b' & Hf & ?).
    + transitivity (imap pair l).*2; [|by rewrite Hl, fmap_app].
      by rewrite imap_pair_snd.
    + done.
    + rewrite length_fmap in Hf. eauto.
  - exists b'. split; [done|]. revert HP. by rewrite imap_pair_snd.
Qed.

(** ** Lookups that index a list *)

Definition indexes {K} `{Ord K} (keys : list K) (m : BTreeMap K nat) : Prop :=
  ∀ k i, bt_get k m = Some i ↔ keys !! i = Some k.

Lemma indexes_nil {K} `{OrdLaws K} : indexes [] ([] : BTreeMap K nat).
Proof. intros k i. by rewrite lookup_nil. Qed.

Lemma indexes_snoc {K} `{OrdLaws K} (keys : list K) m k :
  indexes keys m → k ∉ keys → indexes (keys ++ [k]) (bt_insert k (length keys) m).
Proof.
  intros Hm Hk k' i. destruct (ord_eq_dec k' k) as [->|Hne].
  - rewrite bt_get_insert_eq. split; [intros [= <-]; by apply list_lookup_middle|].
    intros [Hi|[? Hi]]%lookup_app_Some; [by apply list_elem_of_lookup_2 in Hi|].
    destruct (i - length keys) eqn:E; [f_equal; lia|done].
  - rewrite bt_get_insert_ne, (Hm k' i) by done. rewrite lookup_app_Some. split; [by left|].
    intros [|[? Hi]]; [done|]. destruct (i - length keys); by simplify_eq/=.
Qed.

Lemma indexes_None {K} `{OrdLaws K} (keys : list K) m k :
  indexes keys m → bt_get k m = None ↔ k ∉ keys.
Proof.
  intros Hm. rewrite list_elem_of_lookup. split.
  - intros Hn [i Hi%Hm]. congruence.
  - intros Hk. destruct (bt_get k m) as [i|] eqn:E; [|done]. destruct Hk. exists i. by apply Hm.
Qed.

Lemma indexes_inj {K} `{OrdLaws K} (keys : list K) m i j k :
  indexes keys m → keys !! i = Some k → keys !! j = Some k → i = j.
Proof. intros Hm Hi%Hm Hj%Hm. congruence. Qed.

(** ** Symbols *)

Definition origin_key (tds : list TypeDefinitionSource) (o : RelationOrigin) : TypeName * RelationName :=
  (default [] (td_name <$> tds !! o.(or_object_type)), o.(or_source).(rs_name)).

Record origin_ok (tds : list TypeDefinitionSource) (id : nat) (o : RelationOrigin) : Prop := {
  origin_id : o.(or_id) = id;
  origin_type_index : o.(or_type_index) = o.(or_object_type);
  origin_declared : ∃ td, tds !! o.(or_object_type) = Some td ∧
    td.(td_relations) !! o.(or_relation_index) = Some o.(or_source);
}.

(** The symbols of a prefix of the declarations. *)
Record origins_ok (tds : list TypeDefinitionSource) (sy : Symbols) : Prop := {
  symbols_type_lookup : indexes (td_name <$> tds) sy.(sy_type_lookup);
  symbols_origin : ∀ id o, sy.(sy_relation_origins) !! id = Some o → origin_ok tds id o;
  symbols_covers : ∀ i td ri r, tds !! i = Some td → td.(td_relations) !! ri = Some r →
    ∃ id o, sy.(sy_relation_origins) !! id = Some o ∧ o.(or_object_type) = i ∧
      o.(or_relation_index) = ri ∧ o.(or_source) = r;
  symbols_relation_lookup : indexes (origin_key tds <$> sy.(sy_relation_origins)) sy.(sy_relation_lookup);
  symbols_count : length sy.(sy_relation_origins) = sum_list_with (fun td => length td.(td_relations)) tds;
}.

(** The type list: position [i] holds the [i]-th declaration and its relations. *)
Definition types_ok (tds : list TypeDefinitionSource) (sy : Symbols) : Prop :=
  Forall2 (fun td ct => ct.(ct_name) = td.(td_name)) tds sy.(sy_types) ∧
  ∀ i ct, sy.(sy_types) !! i = Some ct → ct.(ct_id) = i ∧
    ∀ id, id ∈ ct.(ct_relations) ↔
      ∃ o, sy.(sy_relation_origins) !! id = Some o ∧ o.(or_object_type) = i.

Record symbols_ok (tds : list TypeDefinitionSource) (sy : Symbols) : Prop := {
  symbols_origins : origins_ok tds sy;
  symbols_types : types_ok tds sy;
}.

Lemma origins_lt tds sy id o :
  origins_ok tds sy → sy.(sy_relation_origins) !! id = Some o → o.(or_object_type) < length tds.
Proof. intros [_ Ho _ _ _] [_ _ (td & ? & _)]%Ho. by eapply lookup_lt_Some. Qed.

(** Opening a type without relations. *)
Lemma origins_open tds sy name :
  origins_ok tds sy → name ∉ td_name <$> tds →
  origins_ok (tds ++ [mkTypeDefinitionSource name []])
    (mkSymbols sy.(sy_types) (bt_insert name (length tds) sy.(sy_type_lookup))
       sy.(sy_relation_origins) sy.(sy_relation_lookup)).
Proof.
  intros Hok Hname. pose proof Hok as [Ht Ho Hc Hl Hn]. constructor; simpl.
  - rewrite fmap_app. rewrite <-(length_fmap td_name tds). by apply indexes_snoc.
  - intros id o Hid. destruct (Ho id o Hid) as [? ? (td & ? & ?)]. constructor; [done..|].
    exists td. split; [|done]. by apply lookup_app_l_Some.
  - intros i td ri r [Hi|[? Hi]]%lookup_app_Some Hr; [by eauto|].
    by destruct (i - length tds); simplify_eq/=.
  - replace (origin_key (tds ++ _) <$> _) with (origin_key tds <$> sy_relation_origins sy); [done|].
    apply list_eq. intros id. rewrite !list_lookup_fmap.
    destruct (sy_relation_origins sy !! id) as [o|] eqn:E; simpl; [|done].
    unfold origin_key. rewrite lookup_app_l; [done|]. by eapply origins_lt.
  - rewrite sum_list_with_app, Hn. simpl. lia.
Qed.

(** Adding a relation to the open type. *)
Lemma origins_extend tds sy name pre r :
  origins_ok (tds ++ [mkTypeDefinitionSource name pre]) sy →
  name ∉ td_name <$> tds → rs_name r ∉ rs_name <$> pre →
  let id := length sy.(sy_relation_origins) in
  origins_ok (tds ++ [mkTypeDefinitionSource name (pre ++ [r])])
    (mkSymbols sy.(sy_types) sy.(sy_type_lookup)
       (sy.(sy_relation_origins) ++ [mkRelationOrigin id (length tds) (length tds) (length pre) r])
       (bt_insert (name, rs_name r) id sy.(sy_relation_lookup))).
Proof.
  intros Hok Hname Hr id. pose proof Hok as [Ht Ho Hc Hl Hn].
  assert (Hkey : ∀ k (o : RelationOrigin), sy_relation_origins sy !! k = Some o →
    origin_key (tds ++ [mkTypeDefinitionSource name (pre ++ [r])]) o =
    origin_key (tds ++ [mkTypeDefinitionSource name pre]) o).
  { intros k o _. unfold origin_key. destruct (decide (or_object_type o < length tds)).
    - by rewrite !lookup_app_l.
    - rewrite !lookup_app_r by lia. by destruct (or_object_type o - length tds). }
  assert (Hkeys : origin_key (tds ++ [mkTypeDefinitionSource name (pre ++ [r])]) <$> sy_relation_origins sy =
    origin_key (tds ++ [mkTypeDefinitionSource name pre]) <$> sy_relation_origins sy).
  { apply list_eq. intros k. rewrite !list_lookup_fmap.
    destruct (sy_relation_origins sy !! k) as [o|] eqn:E; simpl; [by rewrite (Hkey k o)|done]. }
  constructor; simpl.
  - by rewrite fmap_app in *.
  - intros k o [Hk|[? Hk]]%lookup_app_Some.
    + destruct (Ho k o Hk) as [? ? (td & Htd & Hrel)]. constructor; [done..|].
      apply lookup_app_Some in Htd as [Htd|[Hge Htd]]; [exists td; split; [by apply lookup_app_l_Some|done]|].
      destruct (or_object_type o - length tds) eqn:E; simplify_eq/=.
      eexists. rewrite lookup_app_r, E by lia. split; [done|]. simpl. by apply lookup_app_l_Some.
    + destruct (k - length (sy_relation_origins sy)) eqn:E; simplify_eq/=.
      constructor; simpl; [subst id; lia|done|]. eexists. split; [by apply list_lookup_middle|].
      simpl. by apply list_lookup_middle.
  - intros i td ri r' [Hi|[Hge Hi]]%lookup_app_Some Hr'.
    + destruct (Hc i td ri r') as (k & o & ? & ?); [by apply lookup_app_l_Some|done|].
      exists k, o. split; [by apply lookup_app_l_Some|done].
    + destruct (i - length tds) eqn:E; simplify_eq/=. apply lookup_app_Some in Hr' as [Hr'|[? Hr']].
      * destruct (Hc i (mkTypeDefinitionSource name pre) ri r') as (k & o & ? & ?);
          [rewrite lookup_app_r, E by done; done|done|].
        exists k, o. split; [by apply lookup_app_l_Some|done].
      * destruct (ri - length pre) eqn:E'; simplify_eq/=. eexists id, _.
        split; [by apply list_lookup_middle|]. simpl. split_and!; [lia|lia|done].
  - rewrite fmap_app, Hkeys. simpl.
    unfold origin_key at 2. simpl. rewrite list_lookup_middle by done. simpl.
    subst id. rewrite <-(length_fmap (origin_key (tds ++ [mkTypeDefinitionSource name pre]))).
    apply indexes_snoc; [done|]. intros (o & Heq & Hin)%list_elem_of_fmap.
    apply list_elem_of_lookup in Hin as [k Hk]. destruct (Ho k o Hk) as [_ _ (td & Htd & Hrel)].
    unfold origin_key in Heq. rewrite Htd in Heq. simplify_eq/=.
    apply lookup_app_Some in Htd as [Htd|[_ Htd]].
    + apply Hname. apply list_elem_of_fmap. eauto using list_elem_of_lookup_2.
    + destruct (or_object_type o - length tds); simplify_eq/=. apply Hr, list_elem_of_fmap.
      exists (or_source o). split; [congruence|]. rewrite <-Htd in Hrel. by eapply list_elem_of_lookup_2.
  - rewrite length_app, sum_list_with_app in *. simpl in *. rewrite length_app. simpl. lia.
Qed.

Lemma from_index_le i : (N.of_nat i <= U32_MAX)%N → from_index i = Some i.
Proof. intros. by apply from_index_Some. Qed.

(** The relations of one type; the list collects their identifiers. *)
Lemma add_relations_spec tds name (rs : list RelationSource) definition sy :
  origins_ok (tds ++ [mkTypeDefinitionSource name []]) sy → definition.(td_name) = name →
  name ∉ td_name <$> tds → NoDup (rs_name <$> rs) →
  (N.of_nat (length sy.(sy_relation_origins) + length rs) <= U32_MAX)%N →
  ∃ st, try_foldl (add_relation definition (length tds) (length tds)) (sy, []) (imap pair rs) = Some st ∧
    origins_ok (tds ++ [mkTypeDefinitionSource name rs]) st.1 ∧ st.1.(sy_types) = sy.(sy_types) ∧
    (∃ more, st.1.(sy_relation_origins) = sy.(sy_relation_origins) ++ more ∧
       (∀ o, o ∈ more → o.(or_object_type) = length tds) ∧
       st.2 = seq (length sy.(sy_relation_origins)) (length more)).
Proof.
  intros Hok Hdef Hname Hnd Hlen.
  destruct (try_foldl_imap_ind (add_relation definition (length tds) (length tds))
    (fun pre st => origins_ok (tds ++ [mkTypeDefinitionSource name pre]) st.1 ∧ st.1.(sy_types) = sy.(sy_types) ∧
       ∃ more, length more = length pre ∧ st.1.(sy_relation_origins) = sy.(sy_relation_origins) ++ more ∧
       (∀ o, o ∈ more → o.(or_object_type) = length tds) ∧
       st.2 = seq (length sy.(sy_relation_origins)) (length more)) rs (sy, [])) as (st & ? & ? & ? & more & ?).
  - split_and!; [done..|]. exists []. rewrite app_nil_r. split_and!; [done..| |done]. by intros o []%not_elem_of_nil.
  - intros pre r rest [sy1 ids] Hrs (Hok1 & Hty & more & Hm & Ho & Hall & Hids). simpl in *.
    rewrite Hrs, length_app in Hlen. simpl in Hlen.
    rewrite from_index_le by (rewrite Ho, length_app; lia). eexists. split; [done|]. cbn [fst snd].
    split_and!.
    + rewrite Hdef. apply origins_extend; [done..|]. rewrite Hrs, fmap_app in Hnd. simpl in Hnd.
      apply NoDup_app in Hnd as (_ & Hnd & _). intros Hin. apply (Hnd _ Hin). by left.
    + done.
    + eexists (more ++ [_]). simpl. rewrite !length_app, Ho, <-app_assoc. split_and!; [simpl; lia|done| |].
      * intros o [Hin|Hin%list_elem_of_singleton]%elem_of_app; [by apply Hall|by subst].
      * rewrite Hids, length_app, <-Hm. simpl. by rewrite Nat.add_1_r, seq_S.
  - exists st. split_and!; [done..|]. exists more. tauto.
Qed.

Lemma add_type_spec tds td sy :
  symbols_ok tds sy → td.(td_name) ∉ td_name <$> tds → NoDup (rs_name <$> td.(td_relations)) →
  (N.of_nat (length tds) <= U32_MAX)%N →
  (N.of_nat (length sy.(sy_relation_origins) + length td.(td_relations)) <= U32_MAX)%N →
  ∃ sy', add_type sy (length tds, td) = Some sy' ∧ symbols_ok (tds ++ [td]) sy'.
Proof.
  intros [Hok [Hty Hrel]] Hname Hnd Ht Hr. cbn [add_type].
  rewrite <-(Forall2_length _ _ _ Hty), from_index_le by done. cbn [mbind option_bind].
  destruct (add_relations_spec tds (td_name td) (td_relations td) td
    (mkSymbols sy.(sy_types) (bt_insert td.(td_name) (length tds) sy.(sy_type_lookup))
       sy.(sy_relation_origins) sy.(sy_relation_lookup))) as ([sy1 ids] & -> & Hok1 & Hty1 & more & Hmore & Hall & Hids);
    [by apply origins_open|done..|].
  cbn [mbind option_bind]. eexists. split; [done|]. cbn [fst snd sy_types sy_relation_origins] in *.
  replace td with (mkTypeDefinitionSource (td_name td) (td_relations td)) at 1 by (by destruct td).
  constructor; [destruct Hok1; by constructor|]. split; cbn [sy_types sy_relation_origins].
  - rewrite Hty1. by apply Forall2_app; [|constructor].
  - rewrite Hty1, Hmore. intros i ct [Hi|[Hge Hi]]%lookup_app_Some.
    + destruct (Hrel i ct Hi) as [? Hids']. split; [done|]. intros id. rewrite Hids'.
      apply lookup_lt_Some in Hi. rewrite <-(Forall2_length _ _ _ Hty) in Hi.
      setoid_rewrite lookup_app_Some. split; [naive_solver|].
      intros (o & [?|[_ Ho]] & ?); [eauto|]. apply list_elem_of_lookup_2, Hall in Ho. lia.
    + rewrite <-(Forall2_length _ _ _ Hty) in Hge, Hi. destruct (i - length tds) eqn:E; simplify_eq/=.
      split; [lia|]. intros id. rewrite elem_of_seq. setoid_rewrite lookup_app_Some. split.
      * intros [? ?]. destruct (lookup_lt_is_Some_2 more (id - length (sy_relation_origins sy))) as [o Ho]; [lia|].
        exists o. split; [by right|]. apply list_elem_of_lookup_2, Hall in Ho. lia.
      * intros (o & [Ho|[? Ho]] & Heq).
        -- eapply origins_lt in Ho; [|done]. lia.
        -- apply lookup_lt_Some in Ho. lia.
Qed.

Lemma build_symbols_spec source limits :
  model_limits_ok limits → declarations_ok limits source →
  ∃ sy, build_symbols source = Some sy ∧ symbols_ok source.(ams_type_definitions) sy.
Proof.
  intros (Hin & _) [_ Htc _ Hnd Htd Hrc _ _].
  destruct Hin as (_ & _ & _ & _ & _ & _ & _ & _ & _ & _ & _ & _ & _ & _ & _ & _ & _ & Htl & Hrl & _).
  unfold limit_in, len in *.
  destruct (try_foldl_imap_ind add_type symbols_ok (ams_type_definitions source) symbols_new) as (sy & ? & ?).
  - constructor; [constructor; simpl|split; simpl].
    + apply indexes_nil.
    + by intros i x Hi; rewrite lookup_nil in Hi.
    + by intros i td ri r Hi; rewrite lookup_nil in Hi.
    + apply indexes_nil.
    + done.
    + constructor.
    + by intros i x Hi; rewrite lookup_nil in Hi.
  - intros pre td rest sy Hs Hok. rewrite Hs in *. apply add_type_spec; [done|..].
    + rewrite fmap_app in Hnd. apply NoDup_app in Hnd as (_ & Hnd & _). intros Hin. apply (Hnd _ Hin). by left.
    + apply (type_relations_unique limits), Htd. set_solver.
    + rewrite length_app in Htc. unfold U32_MAX. lia.
    + destruct Hok as [[_ _ _ _ ->] _]. rewrite sum_list_with_app in Hrc. simpl in Hrc. unfold U32_MAX. lia.
  - eauto.
Qed.

(** ** Conditions *)

Section conditions.
Context `{ConditionCompiler}.
Variable climits : ConditionLimits.

Definition compiles_to (c : ConditionSource) (entry : CompiledConditionEntry) : Prop :=
  entry.(ce_name) = c.(cs_key) ∧ compile_condition c.(cs_definition) climits = Ok entry.(ce_condition).

Lemma compile_conditions_spec source e :
  NoDup (cs_key <$> source.(ams_conditions)) → (len source.(ams_conditions) <= U32_MAX)%N →
  ∃ conditions lookup e', compile_conditions source climits e = (conditions, lookup, e') ∧
    emits e e' (∀ c, c ∈ source.(ams_conditions) → ∃ entry, compiles_to c entry) ∧
    ((∀ c, c ∈ source.(ams_conditions) → ∃ entry, compiles_to c entry) →
     Forall2 compiles_to source.(ams_conditions) conditions ∧
     indexes (cs_key <$> source.(ams_conditions)) lookup).
Proof.
  intros Hnd Hlen.
  destruct (try_foldl_imap_ind (fun st c => Some (compile_condition_source climits st c))
    (fun pre st => emits e st.2 (∀ c, c ∈ pre → ∃ entry, compiles_to c entry) ∧
       ((∀ c, c ∈ pre → ∃ entry, compiles_to c entry) →
        Forall2 compiles_to pre st.1.1 ∧ indexes (cs_key <$> pre) st.1.2))
    source.(ams_conditions) ([], [], e)) as ([[conditions lookup] e'] & Hf & He & Hok).
  - split; [|intros _; split; [constructor|apply indexes_nil]].
    apply emits_none. by intros c []%not_elem_of_nil.
  - intros pre c rest [[conditions lookup] e1] Hsrc [He Hok]. eexists. split; [done|].
    rewrite Hsrc in Hnd, Hlen. unfold len in Hlen. rewrite length_app in Hlen. simpl in Hlen.
    cbn [compile_condition_source]. rewrite from_index_le by lia.
    setoid_rewrite elem_of_app. setoid_rewrite list_elem_of_singleton.
    destruct (compile_condition (cs_definition c) climits) as [k|err] eqn:Ec; cbn [fst snd] in *; split.
    + eapply emits_iff; [|exact He]. split; [|naive_solver]. intros Hall x [Hx| ->]; [by apply Hall|].
      by exists (mkCompiledConditionEntry (length pre) (cs_key c) k).
    + intros Hall. destruct Hok as [Hf Hi]; [naive_solver|]. split.
      * apply Forall2_app; [done|]. by constructor; [|constructor].
      * rewrite fmap_app, <-(length_fmap cs_key pre). apply indexes_snoc; [done|].
        rewrite fmap_app in Hnd. apply NoDup_app in Hnd as (_ & Hnd & _).
        intros Hin. apply (Hnd _ Hin). by left.
    + eapply emits_iff; [|eapply emits_app; [exact He|apply (emits_one _ _ False); tauto]].
      split; [tauto|]. intros Hall. destruct (Hall c ltac:(by right)) as (x & _ & Hx). congruence.
    + intros Hall. destruct (Hall c ltac:(by right)) as (x & _ & Hx). congruence.
  - rewrite try_foldl_total in Hf. exists conditions, lookup, e'. by injection Hf as Hf.
Qed.

End conditions.

(** ** Restrictions *)

Section restrictions.
Variable sy : Symbols.
Variable conditions : BTreeMap ConditionName ConditionId.

(** A declared restriction and its resolution. *)
Definition resolves (d : DirectRestrictionSource) (d' : DirectRestriction) : Prop :=
  bt_get d.(drs_subject_type) sy.(sy_type_lookup) = Some d'.(dr_subject_type) ∧
  match d.(drs_kind) with
  | RSObject => d'.(dr_kind) = RKObject
  | RSWildcard => d'.(dr_kind) = RKWildcard
  | RSUserset r => ∃ id, bt_get (d.(drs_subject_type), r) sy.(sy_relation_lookup) = Some id ∧
                         d'.(dr_kind) = RKUserset id
  end ∧
  match d.(drs_condition) with
  | None => d'.(dr_condition) = ReqUnconditional
  | Some name => ∃ id, bt_get name conditions = Some id ∧ d'.(dr_condition) = Required id
  end.

Lemma resolve_restriction_spec d o i e :
  let '(resolved, e') := resolve_restriction d sy conditions o i e in
  (∀ d', resolved = Some d' ↔ resolves d d') ∧ emits e e' (∃ d', resolves d d').
Proof.
  unfold resolve_restriction, resolves. set (path := PRestriction _ _ _). clearbody path.
  destruct (bt_get (drs_subject_type d) (sy_type_lookup sy)) as [ty|].
  2: { split; [intros [? ? ?]; naive_solver|]. apply emits_push. naive_solver. }
  destruct (drs_kind d) as [|r|]; [|destruct (bt_get (drs_subject_type d, r) _) as [rid|]|];
    cbn [fmap option_fmap option_map];
    try (split; [intros [? ? ?]; naive_solver|apply emits_push; naive_solver]).
  all: destruct (drs_condition d) as [name|]; [destruct (bt_get name conditions) as [cid|]|];
    cbn [fmap option_fmap option_map];
    try (split; [intros [? ? ?]; naive_solver|apply emits_push; naive_solver]).
  all: split; [intros [? ? ?]; simpl; naive_solver|]; apply emits_none;
    eexists (mkDirectRestriction _ _ _); simpl; split_and!; eauto.
Qed.

Lemma resolve_relation_spec e o :
  let '(l, e') := resolve_relation sy conditions e o in
  (∀ d', d' ∈ l ↔ ∃ d, d ∈ o.(or_source).(rs_restrictions) ∧ resolves d d') ∧
  emits e e' (∀ d, d ∈ o.(or_source).(rs_restrictions) → ∃ d', resolves d d').
Proof.
  unfold resolve_relation. set (step := fun '(restrictions, errors) '(restriction_index, source) => _).
  destruct (try_foldl_imap_ind (fun st c => Some (step st c))
    (fun pre st => (∀ d', d' ∈ st.1 ↔ ∃ d, d ∈ pre ∧ resolves d d') ∧
       emits e st.2 (∀ d, d ∈ pre → ∃ d', resolves d d')) o.(or_source).(rs_restrictions) ([], e))
    as ([l e'] & Hf & Hl & He).
  - split; [set_solver|]. apply emits_none. set_solver.
  - intros pre d rest [l e1] _ [Hl He]. eexists. split; [done|]. simpl in *.
    pose proof (resolve_restriction_spec d o (length pre) e1) as Hd.
    destruct (resolve_restriction d sy conditions o (length pre) e1) as [[r|] e2]; destruct Hd as [Hr He2]; simpl.
    + split.
      * intros d'. rewrite !elem_of_app, Hl, list_elem_of_singleton.
        setoid_rewrite elem_of_app. setoid_rewrite list_elem_of_singleton. specialize (Hr d').
        assert (Heq : d' = r ↔ Some r = Some d') by naive_solver. rewrite Heq, Hr. naive_solver.
      * eapply emits_iff; [|exact (emits_app _ _ _ _ _ He He2)]. set_solver.
    + split; [|eapply emits_iff; [|exact (emits_app _ _ _ _ _ He He2)]; set_solver].
      intros d'. rewrite Hl. assert (¬ resolves d d') by (by intros ?%Hr). set_solver.
  - rewrite try_foldl_total in Hf. injection Hf as ->. split; [|done]. intros d'. by rewrite bs_collect_elem.
Qed.

Lemma resolve_restrictions_spec e :
  let '(all, e') := resolve_restrictions sy conditions e in
  length all = length sy.(sy_relation_origins) ∧
  (∀ id o, sy.(sy_relation_origins) !! id = Some o → ∃ l, all !! id = Some l ∧
     ∀ d', d' ∈ l ↔ ∃ d, d ∈ o.(or_source).(rs_restrictions) ∧ resolves d d') ∧
  emits e e' (∀ o, o ∈ sy.(sy_relation_origins) →
    ∀ d, d ∈ o.(or_source).(rs_restrictions) → ∃ d', resolves d d').
Proof.
  unfold resolve_restrictions. set (step := fun '(all, errors) origin => _).
  destruct (try_foldl_ind (fun st o => Some (step st o))
    (fun pre st => length st.1 = length pre ∧
       (∀ id o, pre !! id = Some o → ∃ l, st.1 !! id = Some l ∧
          ∀ d', d' ∈ l ↔ ∃ d, d ∈ o.(or_source).(rs_restrictions) ∧ resolves d d') ∧
       emits e st.2 (∀ o, o ∈ pre → ∀ d, d ∈ o.(or_source).(rs_restrictions) → ∃ d', resolves d d'))
    sy.(sy_relation_origins) ([], e)) as ([all e'] & Hf & Hlen & Hall & He).
  - split_and!; [done|by intros id o Hi; rewrite lookup_nil in Hi|]. apply emits_none. by intros o []%not_elem_of_nil.
  - intros pre o rest [all e1] _ (Hlen & Hall & He). eexists. split; [done|]. simpl in *.
    pose proof (resolve_relation_spec e1 o) as Ho. destruct (resolve_relation sy conditions e1 o) as [l e2].
    destruct Ho as [Hl He2]. simpl. rewrite !length_app. split_and!; [simpl; lia| |].
    + intros id o' [Hid|[Hge Hid]]%lookup_app_Some.
      * destruct (Hall id o' Hid) as (l' & ? & ?). exists l'. split; [by apply lookup_app_l_Some|done].
      * destruct (id - length pre) eqn:E; simplify_eq/=. exists l. split; [|done].
        rewrite lookup_app_r, Hlen, E by lia. done.
    + eapply emits_iff; [|exact (emits_app _ _ _ _ _ He He2)]. set_solver.
  - rewrite try_foldl_total in Hf. by injection Hf as ->.
Qed.

End restrictions.
