(* ===== verification/LoweringTheory.v ===== *)
(** * The lowering machine builds the declared rewrite

    [lower_rewrite] and [intern_node] of [compiler.rs]: the frame machine
    terminates, shares equal nodes, and either reports a diagnostic or leaves a
    node whose unfolding is the declared rewrite. *)

From S2P Require Import Prelude Ordered Identifier Reference Condition Model ModelErrors Graph GraphTheory.
From S2P Require Import ModelSource Compiler DeclarationTheory SymbolTheory.

(** ** Lowered rewrites *)

Definition is_leaf (s : RewriteSource) : bool :=
  match s with SDirect | SComputed _ | STupleToUserset _ _ => true | _ => false end.

(** Node [id] of [nodes] unfolds to the rewrite. *)
Inductive lowered (c : LowerContext) (nodes : list RewriteNode) : RewriteSource → NodeId → Prop :=
| lowered_leaf s n id :
    is_leaf s = true → resolve_leaf s c = Ok n → nodes !! id = Some n → lowered c nodes s id
| lowered_union cs ids id :
    nodes !! id = Some (NUnion ids) → Forall2 (lowered c nodes) cs ids → lowered c nodes (SUnion cs) id
| lowered_intersection cs ids id :
    nodes !! id = Some (NIntersection ids) → Forall2 (lowered c nodes) cs ids →
    lowered c nodes (SIntersection cs) id
| lowered_difference b s bid sid id :
    nodes !! id = Some (NDifference bid sid) → lowered c nodes b bid → lowered c nodes s sid →
    lowered c nodes (SDifference b s) id.

Lemma lowered_lt c nodes s id : lowered c nodes s id → id < length nodes.
Proof. by destruct 1; eapply lookup_lt_Some. Qed.

Lemma Forall2_impl_l {A B} (R R' : A → B → Prop) l k :
  Forall (fun x => ∀ y, R x y → R' x y) l → Forall2 R l k → Forall2 R' l k.
Proof.
  intros Hl Hk. revert Hl. induction Hk; intros Hl; constructor; inversion Hl; auto.
Qed.

Lemma lowered_prefix c nodes nodes' s : ∀ id,
  nodes `prefix_of` nodes' → lowered c nodes s id → lowered c nodes' s id.
Proof.
  intros id Hp. assert (Hlk : ∀ i n, nodes !! i = Some n → nodes' !! i = Some n)
    by (intros; by eapply prefix_lookup_Some).
  revert id. induction s as [| | |cs IH|cs IH|b s IHb IHs] using rewrite_source_ind; intros id Hl; inversion Hl; subst; simplify_eq/=.
  1-3: eapply lowered_leaf; eauto.
  - eapply lowered_union; [by eauto|by eapply Forall2_impl_l].
  - eapply lowered_intersection; [by eauto|by eapply Forall2_impl_l].
  - eapply lowered_difference; eauto.
Qed.

Lemma lowered_all_prefix c nodes nodes' cs ids :
  nodes `prefix_of` nodes' → Forall2 (lowered c nodes) cs ids → Forall2 (lowered c nodes') cs ids.
Proof. intros Hp Hl. eapply Forall2_impl; [exact Hl|]. intros. by eapply lowered_prefix. Qed.

(** ** The arena *)

Section machine.
Variable limits : ModelLimits.
Hypothesis limits_ok : model_limits_ok limits.

(** Equal nodes are shared, and a node only refers to earlier nodes. *)
Record arena_ok (a : Arena) : Prop := {
  arena_indexes : indexes a.(ar_nodes) a.(ar_lookup);
  arena_below : ∀ i n c, a.(ar_nodes) !! i = Some n → c ∈ node_children n → c < i;
  arena_bound : (len a.(ar_nodes) <= limits.(ml_rewrite_nodes))%N;
}.

(** What a step of the machine keeps. *)
Definition grows (a a' : Arena) : Prop := arena_ok a' ∧ a.(ar_nodes) `prefix_of` a'.(ar_nodes).

Lemma grows_refl a : arena_ok a → grows a a.
Proof. done. Qed.
Lemma grows_trans a1 a2 a3 : grows a1 a2 → grows a2 a3 → grows a1 a3.
Proof. intros [? ?] [? ?]. split; [done|]. by etrans. Qed.

Lemma grows_push a code path : arena_ok a → grows a (arena_push a code path).
Proof. intros []. by split. Qed.

Lemma intern_node_spec n a :
  arena_ok a → (∀ c, c ∈ node_children n → c < length a.(ar_nodes)) →
  let '(r, a') := intern_node n limits a in
  grows a a' ∧
  match r with
  | Some id => a'.(ar_errors) = a.(ar_errors) ∧ a'.(ar_nodes) !! id = Some n ∧
      ∀ i, length a.(ar_nodes) ≤ i < length a'.(ar_nodes) → i = id
  | None => emits a.(ar_errors) a'.(ar_errors) False
  end.
Proof using limits_ok.
  intros [Hidx Hbelow Hb] Hn. destruct limits_ok as (_ & _ & Hl & _). unfold limit_in, len in *.
  unfold intern_node. destruct (bt_get n (ar_lookup a)) as [id|] eqn:E.
  - split; [done|]. split_and!; [done|by apply Hidx|lia].
  - apply (indexes_None _ _ _ Hidx) in E. destruct (N.leb_spec (ml_rewrite_nodes limits) (len (ar_nodes a))) as [Hle|Hlt].
    + split; [by split|]. apply emits_push. tauto.
    + unfold len in Hlt. rewrite from_index_le by (unfold U32_MAX; lia). split.
      * split; [|by exists [n]]. constructor; simpl.
        -- by apply indexes_snoc.
        -- intros i m c [Hi|[? Hi]]%lookup_app_Some; [by apply Hbelow|].
           destruct (i - length (ar_nodes a)) eqn:E'; simplify_eq/=. intros ?%Hn. lia.
        -- unfold len. rewrite length_app. simpl. lia.
      * simpl. split_and!; [done|by apply list_lookup_middle|]. rewrite length_app. simpl. lia.
Qed.

(** ** The machine *)

Fixpoint lower_cost (s : RewriteSource) : nat :=
  match s with
  | SUnion cs | SIntersection cs => S (sum_list_with lower_cost cs + 1)
  | SDifference b s => S (lower_cost b + (lower_cost s + 1))
  | _ => 1
  end.

Lemma lower_cost_size s : lower_cost s ≤ 2 * rewrite_size s.
Proof.
  assert (Hsum : ∀ cs, Forall (fun s => lower_cost s ≤ 2 * rewrite_size s) cs →
    sum_list_with lower_cost cs ≤ 2 * sum_list_with rewrite_size cs).
  { induction 1; simpl in *; lia. }
  induction s as [| | |cs IH|cs IH|b s IHb IHs] using rewrite_source_ind; simpl; try lia.
  all: apply Hsum in IH; lia.
Qed.

(** [s'] occurs in [s]. *)
Abbreviation within s s' := (rtc (fun x y => y ∈ source_children x) s s').

Variable c : LowerContext.
Hypothesis leaf_reports : ∀ s code, is_leaf s = true → resolve_leaf s c = Err code → code ≠ None.

(** Every new node unfolds to a rewrite that occurs in one of [sources]. *)
Definition justified (sources : list RewriteSource) (a a' : Arena) : Prop :=
  ∀ i, length a.(ar_nodes) ≤ i < length a'.(ar_nodes) →
    ∃ s s', s ∈ sources ∧ within s s' ∧ lowered c a'.(ar_nodes) s' i.

(** A run that ends with a diagnostic. *)
Definition stops (run : nat → option (option NodeId * Arena)) (a : Arena) : Prop :=
  ∃ a', (∀ fuel, run fuel = Some (None, a')) ∧ grows a a' ∧ emits a.(ar_errors) a'.(ar_errors) False.

Record lowers (sources : list RewriteSource) (ids : list NodeId) (a a' : Arena) : Prop := {
  lowers_grows : grows a a';
  lowers_errors : a'.(ar_errors) = a.(ar_errors);
  lowers_each : Forall2 (lowered c a'.(ar_nodes)) sources ids;
  lowers_justified : justified sources a a';
}.

Abbreviation loop fuel := (lower_loop fuel limits c).

(** Running the frames of [sources] pushes one node for each, in order. *)
Definition runs (cost : nat) (sources : list RewriteSource) (depth : N) : Prop :=
  ∀ frames values count a, arena_ok a →
    let run fuel := loop (cost + fuel) (((fun s => Visit s depth) <$> sources) ++ frames) values count a in
    stops run a ∨
    ∃ ids count' a', lowers sources ids a a' ∧
      ∀ fuel, run fuel = loop fuel frames (rev ids ++ values) count' a'.

Lemma justified_refl sources a : justified sources a a.
Proof. intros i ?. lia. Qed.

Lemma justified_app sources1 sources2 a1 a2 a3 :
  justified sources1 a1 a2 → justified sources2 a2 a3 → grows a2 a3 → justified (sources1 ++ sources2) a1 a3.
Proof.
  intros H1 H2 [_ Hp] i Hi. destruct (decide (i < length (ar_nodes a2))).
  - destruct (H1 i) as (s & s' & ? & ? & ?); [lia|]. exists s, s'.
    split_and!; [set_solver|done|by eapply lowered_prefix].
  - destruct (H2 i) as (s & s' & ? & ? & ?); [lia|]. exists s, s'. set_solver.
Qed.

Lemma lowers_app sources1 sources2 ids1 ids2 a1 a2 a3 :
  lowers sources1 ids1 a1 a2 → lowers sources2 ids2 a2 a3 → lowers (sources1 ++ sources2) (ids1 ++ ids2) a1 a3.
Proof.
  intros [Hg1 He1 Hl1 Hj1] [Hg2 He2 Hl2 Hj2]. constructor.
  - by eapply grows_trans.
  - congruence.
  - apply Forall2_app; [|done]. eapply lowered_all_prefix; [by destruct Hg2|done].
  - by eapply justified_app.
Qed.

Lemma stops_after sources ids a a' run :
  lowers sources ids a a' → stops run a' → stops run a.
Proof.
  intros [Hg He _ _] (a2 & Hrun & Hg2 & He2). exists a2. rewrite <-He.
  split_and!; [done|by eapply grows_trans|done].
Qed.

Lemma runs_nil depth : runs 0 [] depth.
Proof.
  intros frames values count a Ha. right. exists [], count, a. split; [|done].
  constructor; [by apply grows_refl|done|constructor|apply justified_refl].
Qed.

Lemma runs_cons cost1 cost2 s sources depth :
  runs cost1 [s] depth → runs cost2 sources depth → runs (cost1 + cost2) (s :: sources) depth.
Proof.
  intros H1 H2 frames values count a Ha. simpl.
  destruct (H1 (((fun s => Visit s depth) <$> sources) ++ frames) values count a Ha)
    as [(a1 & Hrun & ?)|(ids1 & count1 & a1 & Hl1 & Hrun1)].
  { left. exists a1. split; [|done]. intros fuel. rewrite <-Nat.add_assoc. apply Hrun. }
  destruct (H2 frames (rev ids1 ++ values) count1 a1) as [Hs|(ids2 & count2 & a2 & Hl2 & Hrun2)].
  { by destruct Hl1 as [[? _] _ _ _]. }
  - left. eapply stops_after; [exact Hl1|]. destruct Hs as (a2 & Hrun & ?). exists a2. split; [|done].
    intros fuel. rewrite <-Nat.add_assoc. etrans; [apply Hrun1|apply Hrun].
  - right. exists (ids1 ++ ids2), count2, a2. split; [by eapply (lowers_app [s])|]. intros fuel.
    rewrite <-Nat.add_assoc. etrans; [apply Hrun1|]. rewrite Hrun2, rev_app_distr. by rewrite <-app_assoc.
Qed.

Lemma runs_all sources depth :
  Forall (fun s => runs (lower_cost s) [s] depth) sources → runs (sum_list_with lower_cost sources) sources depth.
Proof. induction 1; simpl; [apply runs_nil|by apply runs_cons]. Qed.

(** Interning the node of a rewrite whose operands have been lowered. *)
Lemma push_node_spec s n sources ids a a1 values :
  arena_ok a → lowers sources ids a a1 →
  (∀ x, x ∈ node_children n → x ∈ ids) → (∀ x, x ∈ sources → x ∈ source_children s) →
  (∀ nodes id, nodes !! id = Some n → Forall2 (lowered c nodes) sources ids → lowered c nodes s id) →
  let '(r, a2) := push_node n limits values a1 in
  match r with
  | Some values' => ∃ id, values' = id :: values ∧ lowers [s] [id] a a2
  | None => grows a a2 ∧ emits a.(ar_errors) a2.(ar_errors) False
  end.
Proof using limits_ok.
  intros Ha [Hg He Hl Hj] Hn Hsrc Hlow. unfold push_node.
  pose proof (intern_node_spec n a1 (proj1 Hg)) as Hi. destruct (intern_node n limits a1) as [[id|] a2].
  - destruct Hi as (Hg2 & He2 & Hid & Hnew).
    { intros x [i Hi]%Hn%list_elem_of_lookup. destruct (Forall2_lookup_r _ _ _ _ _ Hl Hi) as (y & _ & Hy).
      by eapply lowered_lt. }
    exists id. split; [done|].
    assert (Hs : lowered c (ar_nodes a2) s id).
    { apply Hlow; [done|]. eapply lowered_all_prefix; [by destruct Hg2|done]. }
    constructor; [by eapply grows_trans|congruence|by constructor; [|constructor]|].
    intros i Hrange. exists s. destruct (decide (i < length (ar_nodes a1))).
    + destruct (Hj i) as (x & y & ? & ? & ?); [lia|]. exists y. split_and!; [by left| |].
      * eapply rtc_l; [by apply Hsrc|done].
      * eapply lowered_prefix; [by destruct Hg2|done].
    + exists s. rewrite (Hnew i) by lia. split_and!; [by left|done|done].
  - destruct Hi as [Hg2 He2].
    { intros x [i Hi]%Hn%list_elem_of_lookup. destruct (Forall2_lookup_r _ _ _ _ _ Hl Hi) as (y & _ & Hy).
      by eapply lowered_lt. }
    split; [by eapply grows_trans|]. by rewrite <-He.
Qed.

(** A run that ends by interning the node of [s]. *)
Lemma outcome_push s n sources ids a a1 frames values count run :
  arena_ok a → lowers sources ids a a1 →
  (∀ x, x ∈ node_children n → x ∈ ids) → (∀ x, x ∈ sources → x ∈ source_children s) →
  (∀ nodes id, nodes !! id = Some n → Forall2 (lowered c nodes) sources ids → lowered c nodes s id) →
  (∀ fuel, run fuel = match push_node n limits values a1 with
                      | (None, a) => Some (None, a)
                      | (Some values, a) => loop fuel frames values count a
                      end) →
  stops run a ∨ ∃ ids count' a', lowers [s] ids a a' ∧
    ∀ fuel, run fuel = loop fuel frames (rev ids ++ values) count' a'.
Proof using limits_ok.
  intros Ha Hl Hn Hsrc Hlow Hrun. pose proof (push_node_spec s n sources ids a a1 values Ha Hl Hn Hsrc Hlow) as Hp.
  destruct (push_node n limits values a1) as [[values'|] a2].
  - right. destruct Hp as (id & -> & Hp). by exists [id], count, a2.
  - left. by exists a2.
Qed.

(** The node of a leaf. *)
Lemma resolve_leaf_shape s n : is_leaf s = true → resolve_leaf s c = Ok n →
  match s with
  | SDirect => n = NDirect c.(lc_origin).(or_id)
  | SComputed _ => ∃ target, n = NComputed target
  | STupleToUserset _ computed => ∃ tupleset targets, n = NTupleToUserset tupleset computed targets
  | _ => False
  end.
Proof.
  destruct s; try done; intros _; cbn [resolve_leaf].
  - by intros [= <-].
  - intros (ty & _ & (id & _ & Hn)%result_bind_ok)%result_bind_ok. case_match; simplify_eq. eauto.
  - intros ([id targets] & _ & Hn)%result_bind_ok. simplify_eq/=. eauto.
Qed.

Lemma leaf_no_children s n : is_leaf s = true → resolve_leaf s c = Ok n → node_children n = [].
Proof.
  intros Hs Hn. apply resolve_leaf_shape in Hn; [|done].
  destruct s; naive_solver.
Qed.

Lemma runs_leaf s depth : is_leaf s = true → runs 1 [s] depth.
Proof using limits_ok leaf_reports.
  intros Hs frames values count a Ha. cbn [fmap list_fmap app Nat.add].
  assert (Hloop : ∀ fuel, loop (S fuel) (Visit s depth :: frames) values count a =
    match resolve_leaf s c with
    | Err code => Some (None, match code with
        | Some code => arena_push a code (rewrite_path c.(lc_origin) count) | None => a end)
    | Ok n => match push_node n limits values a with
              | (None, a) => Some (None, a)
              | (Some values, a) => loop fuel frames values (saturating_add USIZE_MAX count 1) a
              end
    end) by (intros fuel; by destruct s).
  destruct (resolve_leaf s c) as [n|code] eqn:E.
  - eapply outcome_push; [done| | | | |exact Hloop].
    + constructor; [by apply grows_refl|done|constructor|apply justified_refl].
    + rewrite (leaf_no_children s n) by done. by intros x []%not_elem_of_nil.
    + by intros x []%not_elem_of_nil.
    + intros nodes id Hid _. by eapply lowered_leaf.
  - left. eexists. split; [exact Hloop|]. destruct code as [code|]; [|by apply leaf_reports in E].
    split; [by apply grows_push|]. apply emits_push. tauto.
Qed.

Lemma take_node_tail_rev ids values :
  take_node_tail (rev ids ++ values) (length ids) = Some (ids, values).
Proof.
  unfold take_node_tail. rewrite length_app, length_rev.
  rewrite (proj2 (Nat.leb_le _ _)) by lia.
  by rewrite <-(length_rev ids), take_app_length, drop_app_length, rev_involutive.
Qed.

(** An operator over operands that run. *)
Lemma runs_operator s n finish cs depth :
  source_children s = cs → (∀ ids, node_children (n ids) = ids) →
  (∀ nodes ids id, nodes !! id = Some (n ids) → Forall2 (lowered c nodes) cs ids → lowered c nodes s id) →
  (∀ fuel frames values count a, loop (S fuel) (Visit s depth :: frames) values count a =
     loop fuel (((fun s => Visit s (depth + 1)) <$> cs) ++ finish :: frames) values
       (saturating_add USIZE_MAX count 1) a) →
  (∀ fuel frames ids values count a, length ids = length cs →
     loop (S fuel) (finish :: frames) (rev ids ++ values) count a =
       match push_node (n ids) limits values a with
       | (None, a) => Some (None, a)
       | (Some values, a) => loop fuel frames values count a
       end) →
  runs (sum_list_with lower_cost cs) cs (depth + 1) →
  runs (S (sum_list_with lower_cost cs + 1)) [s] depth.
Proof using limits_ok.
  intros Hcs Hn Hlow Hvisit Hfinish Hruns frames values count a Ha. cbn [fmap list_fmap app Nat.add].
  destruct (Hruns (finish :: frames) values (saturating_add USIZE_MAX count 1) a Ha)
    as [(a1 & Hrun & Hstop)|(ids & count1 & a1 & Hl & Hrun)].
  - left. exists a1. split; [|done]. intros fuel. rewrite Hvisit, <-Nat.add_assoc. apply Hrun.
  - assert (Hlen : length ids = length cs) by (destruct Hl as [_ _ Hl _]; by eapply eq_sym, Forall2_length).
    eapply outcome_push; [done|exact Hl| | | |].
    + intros x. by rewrite Hn.
    + intros x. by rewrite Hcs.
    + intros nodes id. by apply Hlow.
    + intros fuel. rewrite Hvisit, <-Nat.add_assoc, Hrun. by apply Hfinish.
Qed.

Lemma checked_depth depth : (depth <= limits.(ml_rewrite_depth))%N →
  checked_add USIZE_MAX depth 1 = Some (depth + 1)%N.
Proof using limits_ok.
  intros. destruct limits_ok as (_ & _ & _ & Hd & _). unfold limit_in in Hd.
  apply checked_add_Some. split; [done|]. unfold USIZE_MAX, U64_MAX. lia.
Qed.

(** The machine lowers every rewrite of an accepted shape. *)
Lemma runs_source s : ∀ depth, well_shaped limits depth s → runs (lower_cost s) [s] depth.
Proof using limits_ok leaf_reports.
  assert (Hall : ∀ cs depth, Forall (fun s => ∀ depth, well_shaped limits depth s → runs (lower_cost s) [s] depth) cs →
    (∀ x, x ∈ cs → well_shaped limits depth x) → runs (sum_list_with lower_cost cs) cs depth).
  { intros cs depth IH Hw. apply runs_all, Forall_forall. intros x Hx. rewrite Forall_forall in IH. auto. }
  induction s as [| | |cs IH|cs IH|b s IHb IHs] using rewrite_source_ind; intros depth Hw;
    try (by apply runs_leaf); apply well_shaped_unfold in Hw as (Hd & _ & Hw).
  - apply (runs_operator _ NUnion (FinishUnion (length cs))); try done.
    + intros. by eapply lowered_union.
    + intros. cbn [lower_loop]. unfold push_lower_children. by rewrite checked_depth.
    + intros fuel frames ids values count a Hlen. cbn [lower_loop]. by rewrite <-Hlen, take_node_tail_rev.
    + by apply Hall.
  - apply (runs_operator _ NIntersection (FinishIntersection (length cs))); try done.
    + intros. by eapply lowered_intersection.
    + intros. cbn [lower_loop]. unfold push_lower_children. by rewrite checked_depth.
    + intros fuel frames ids values count a Hlen. cbn [lower_loop]. by rewrite <-Hlen, take_node_tail_rev.
    + by apply Hall.
  - replace (lower_cost (SDifference b s)) with (S (sum_list_with lower_cost [b; s] + 1)) by (simpl; lia).
    apply (runs_operator _ (fun ids => match ids with [x; y] => NDifference x y | _ => NUnion ids end)
             FinishDifference); try done.
    + by intros [|? [|? [|? ?]]].
    + intros nodes ids id Hid Hl. inversion Hl as [|? x ? ids1 ? Hl1]; subst.
      inversion Hl1 as [|? y ? ids2 ? Hl2]; subst. inversion Hl2; subst. by eapply lowered_difference.
    + intros. cbn [lower_loop]. by rewrite checked_depth.
    + intros fuel frames [|x [|y [|? ?]]] values count a Hlen; try done.
    + apply Hall; [|done]. by constructor; [|constructor].
Qed.

Lemma lower_rewrite_spec root a :
  well_shaped limits 1 root → arena_ok a →
  ∃ r a', lower_rewrite root c limits a = Some (r, a') ∧ grows a a' ∧
    match r with
    | None => emits a.(ar_errors) a'.(ar_errors) False
    | Some id => lowers [root] [id] a a'
    end.
Proof using limits_ok leaf_reports.
  intros Hw Ha. pose proof (lower_cost_size root) as Hc. unfold lower_rewrite.
  replace (2 * rewrite_size root) with (lower_cost root + (2 * rewrite_size root - lower_cost root)) by lia.
  destruct (runs_source root 1 Hw [] [] 0%N a Ha) as [(a' & Hrun & ? & ?)|(ids & n & a' & Hl & Hrun)].
  - exists None, a'. split; [apply Hrun|done].
  - pose proof Hl as [Hg _ Hids _]. inversion Hids as [|? id ? ids' ? Hids']; subst.
    inversion Hids'; subst. exists (Some id), a'. split; [|done]. etrans; [apply Hrun|].
    by destruct (_ - _).
Qed.

End machine.

(** ** Direct assignability *)

Fixpoint has_direct (s : RewriteSource) : bool :=
  match s with
  | SDirect => true
  | SUnion cs | SIntersection cs => existsb has_direct cs
  | SDifference b s => has_direct b || has_direct s
  | _ => false
  end.

Section direct.
Variable nodes : list RewriteNode.

Definition direct_visit (n : NodeId) (_ : ()) : result ModelErrorCode (list NodeId * ()) :=
  match nodes !! n with
  | Some (NDirect _) => Err InvalidRewrite
  | Some nd => Ok (node_children nd, tt)
  | None => Ok ([], tt)
  end.

Lemma direct_loop_walk fuel : ∀ stack seen,
  direct_loop fuel nodes stack seen
  = (fun r => negb (is_ok r)) <$> walk direct_visit fuel stack seen tt.
Proof.
  induction fuel as [|fuel IH]; intros [|n stack] seen; simpl; try done.
  case_match; [done|]. unfold direct_visit. destruct (nodes !! n) as [[]|]; try done; apply IH.
Qed.

Lemma direct_visit_successors n st cs st' : direct_visit n st = Ok (cs, st') → cs = successors nodes n.
Proof. unfold direct_visit, successors. intros ?. repeat case_match; by simplify_eq/=. Qed.

Abbreviation step := (fun a b : NodeId => b ∈ successors nodes a).

Lemma walk_direct_found fuel : ∀ stack seen code,
  walk direct_visit fuel stack seen tt = Some (Err code) →
  ∃ x n r, x ∈ stack ∧ rtc step x n ∧ nodes !! n = Some (NDirect r).
Proof.
  induction fuel as [|fuel IH]; intros [|n stack] seen code; simpl; try done.
  case_match; [intros Hw; destruct (IH _ _ _ Hw) as (x & m & r & ? & ?); exists x, m, r; set_solver|].
  destruct (direct_visit n tt) as [[cs []]|] eqn:E.
  - intros Hw. destruct (IH _ _ _ Hw) as (x & m & r & Hx & Hr & Hm).
    apply elem_of_app in Hx as [Hx|Hx]; [|exists x, m, r; set_solver].
    exists n, m, r. split_and!; [by left| |done]. eapply rtc_l; [|done].
    apply direct_visit_successors in E as <-. by rewrite list_elem_of_In, <-in_rev, <-list_elem_of_In in Hx.
  - intros _. unfold direct_visit in E. destruct (nodes !! n) as [[]|] eqn:En; simplify_eq.
    exists n, n. eexists. split_and!; [by left|done|done].
Qed.

Lemma contains_direct_spec root :
  ∃ b, contains_direct root nodes = Some b ∧
    (b = true ↔ ∃ n r, rtc step root n ∧ nodes !! n = Some (NDirect r)).
Proof.
  unfold contains_direct. rewrite direct_loop_walk.
  pose proof (walk_total direct_visit nodes direct_visit_successors root tt) as Ht.
  destruct (walk direct_visit (walk_fuel nodes) [root] [] tt) as [[[]|code]|] eqn:E; [| |done].
  - exists false. split; [done|]. split; [done|]. intros (n & r & Hr & Hn). exfalso.
    destruct (walk_rewrite nodes direct_visit direct_visit_successors
      (fun seen _ => ∀ n r, n ∈ seen → nodes !! n ≠ Some (NDirect r)) root tt tt) as (seen & Hno & Hin).
    + intros seen st m cs st' HP Hm Hv k r' [->|Hk]%bs_insert_elem; [|by apply HP].
      unfold direct_visit in Hv. intros Hd. by rewrite Hd in Hv.
    + by intros ? ? ?%not_elem_of_nil.
    + exact E.
    + by eapply Hno; [apply Hin|].
  - exists true. split; [done|]. split; [|done]. intros _.
    destruct (walk_direct_found _ _ _ _ E) as (x & n & r & ->%list_elem_of_singleton & ?). eauto.
Qed.

Lemma lowered_has_direct c : ∀ s id, lowered c nodes s id →
  (∃ n r, rtc step id n ∧ nodes !! n = Some (NDirect r)) ↔ has_direct s = true.
Proof.
  assert (Hstep : ∀ id nd, nodes !! id = Some nd → (∀ r, nd ≠ NDirect r) →
    (∃ n r, rtc step id n ∧ nodes !! n = Some (NDirect r)) ↔
    ∃ x, x ∈ node_children nd ∧ ∃ n r, rtc step x n ∧ nodes !! n = Some (NDirect r)).
  { intros id nd Hid Hnd. assert (Hs : successors nodes id = node_children nd) by (unfold successors; by rewrite Hid).
    split.
    - intros (n & r & Hr & Hn). inversion Hr as [|? y ? Hy Hr']; subst; [rewrite Hid in Hn; simplify_eq; by destruct (Hnd r)|].
      rewrite Hs in Hy. eauto 6.
    - intros (x & Hx & n & r & Hr & Hn). exists n, r. split; [|done]. eapply rtc_l; [|done]. by rewrite Hs. }
  assert (Hall : ∀ cs ids, Forall (fun s => ∀ id, lowered c nodes s id →
      (∃ n r, rtc step id n ∧ nodes !! n = Some (NDirect r)) ↔ has_direct s = true) cs →
    Forall2 (lowered c nodes) cs ids →
    (∃ x, x ∈ ids ∧ ∃ n r, rtc step x n ∧ nodes !! n = Some (NDirect r)) ↔ existsb has_direct cs = true).
  { intros cs ids IH Hl. rewrite existsb_elem. induction Hl as [|s id cs ids Hs Hl IHl]; [set_solver|].
    apply Forall_cons in IH as [IHs IH]. setoid_rewrite elem_of_cons. specialize (IHs id Hs). specialize (IHl IH).
    clear Hs Hl IH Hstep. naive_solver. }
  intros s. induction s as [| | |cs IH|cs IH|b s IHb IHs] using rewrite_source_ind; intros id Hl;
    inversion Hl as [? n ? ? Hn Hid| | |? ? bid sid ? Hid Hb Hs]; subst; try done.
  - apply resolve_leaf_shape in Hn as ->; [|done]. split; [done|]. intros _. eexists id, _. by split.
  - apply resolve_leaf_shape in Hn as [? ->]; [|done].
    rewrite Hstep by done. set_solver.
  - apply resolve_leaf_shape in Hn as (? & ? & ->); [|done].
    rewrite Hstep by done. set_solver.
  - rewrite Hstep by done. by apply Hall.
  - rewrite Hstep by done. by apply Hall.
  - rewrite Hstep by done. cbn [has_direct node_children].
    rewrite orb_true_iff, <-(IHb bid), <-(IHs sid) by done. split.
    + intros (x & [->| ->%list_elem_of_singleton]%elem_of_cons & ?); auto.
    + intros [?|?]; [exists bid|exists sid]; (split; [set_solver|done]).
Qed.
End direct.

(** ** All relations *)

(** A pass that establishes [G] unless it emits. *)
Definition emits_then (e e' : Errors) (G : Prop) : Prop := ∃ Q, emits e e' Q ∧ (Q → G).

Lemma emits_then_clean e e' G :
  emits_then e e' G → 0 < ec_maximum e → collector_is_empty e' = true → e' = e ∧ G.
Proof. intros (Q & HQ & HG) Hm He. destruct (emits_clean _ _ _ HQ Hm He). auto. Qed.

Section relations.
Variable limits : ModelLimits.
Hypothesis limits_ok : model_limits_ok limits.
Variable tds : list TypeDefinitionSource.
Variable sy : Symbols.
Variable restrictions : list (list DirectRestriction).
Hypothesis Hsy : symbols_ok tds sy.
Hypothesis Hrestrictions : length restrictions = length sy.(sy_relation_origins).
Hypothesis Hshape : ∀ td r, td ∈ tds → r ∈ td.(td_relations) → well_shaped limits 1 r.(rs_rewrite).

Abbreviation ctx o := (mkLowerContext o sy restrictions).

Lemma context_type o : o ∈ sy.(sy_relation_origins) →
  ∃ td, tds !! o.(or_object_type) = Some td ∧ context_type_name (ctx o) = Some td.(td_name) ∧
    td.(td_relations) !! o.(or_relation_index) = Some o.(or_source).
Proof.
  intros [id Hid]%list_elem_of_lookup. destruct Hsy as [[_ Ho _ _ _] [Hty _]].
  destruct (Ho id o Hid) as [_ _ (td & Htd & Hr)]. exists td. split_and!; [done| |done].
  unfold context_type_name. simpl. destruct (Forall2_lookup_l _ _ _ _ _ Hty Htd) as (ct & -> & Hn).
  simpl. by rewrite Hn.
Qed.

(** A leaf that does not resolve is reported. *)
Lemma resolve_leaf_reports o s code : o ∈ sy.(sy_relation_origins) →
  is_leaf s = true → resolve_leaf s (ctx o) = Err code → code ≠ None.
Proof.
  intros Ho Hs. destruct (context_type o Ho) as (td & _ & Hname & _).
  destruct s; try done; cbn [resolve_leaf].
  - rewrite Hname. cbn [ok_or mbind result_bind]. rewrite result_bind_err, ok_or_err.
    intros [[_ <-]|(id & _ & He)]; [done|]. case_match; by simplify_eq.
  - unfold resolve_ttu. rewrite Hname. cbn [ok_or mbind result_bind]. rewrite !result_bind_err.
    setoid_rewrite result_bind_err. rewrite ok_or_err. setoid_rewrite ok_or_err. cbn [lc_symbols lc_restrictions].
    intros [[[_ <-]|(id & _ & [[_ <-]|(o' & Hid%ok_or_ok & He)])]|([] & _ & ?)]; try done.
    case_match; simplify_eq; try done.
    apply result_bind_err in He as [[Hn _]%ok_or_err|(l & _ & He)].
    { apply lookup_lt_Some in Hid. apply lookup_ge_None in Hn. lia. }
    apply result_bind_err in He as [He|(targets & _ & He)]; [|case_match; by simplify_eq].
    destruct (ttu_targets _ _ _); by simplify_eq/=.
Qed.

Definition relation_restrictions (id : RelationId) : list DirectRestriction := default [] (restrictions !! id).

(** A compiled relation and its declaration. *)
Record relation_lowered (nodes : list RewriteNode) (o : RelationOrigin) (rel : CompiledRelation) : Prop := {
  lowered_id : rel.(cr_id) = o.(or_id);
  lowered_object_type : rel.(cr_object_type) = o.(or_object_type);
  lowered_name : rel.(cr_name) = o.(or_source).(rs_name);
  lowered_restrictions : rel.(cr_restrictions) = relation_restrictions o.(or_id);
  lowered_root : lowered (ctx o) nodes o.(or_source).(rs_rewrite) rel.(cr_root);
  lowered_assignable : has_direct o.(or_source).(rs_rewrite) = true ↔ rel.(cr_restrictions) ≠ [];
}.

Definition nodes_justified (origins : list RelationOrigin) (nodes : list RewriteNode) : Prop :=
  ∀ i, i < length nodes → ∃ o s, o ∈ origins ∧
    rtc (fun x y => y ∈ source_children x) o.(or_source).(rs_rewrite) s ∧ lowered (ctx o) nodes s i.

Record relations_lowered (origins : list RelationOrigin) (relations : list CompiledRelation)
    (nodes : list RewriteNode) : Prop := {
  lowered_relations : Forall2 (relation_lowered nodes) origins relations;
  lowered_justified : nodes_justified origins nodes;
}.

Lemma relation_lowered_prefix nodes nodes' o rel :
  nodes `prefix_of` nodes' → relation_lowered nodes o rel → relation_lowered nodes' o rel.
Proof. intros Hp []. constructor; try done. by eapply lowered_prefix. Qed.

Lemma lower_relation_spec pre o st e :
  o ∈ sy.(sy_relation_origins) → arena_ok limits st.2 →
  emits_then e st.2.(ar_errors) (relations_lowered pre st.1 st.2.(ar_nodes)) →
  ∃ st', lower_relation sy restrictions limits st o = Some st' ∧ arena_ok limits st'.2 ∧
    emits_then e st'.2.(ar_errors) (relations_lowered (pre ++ [o]) st'.1 st'.2.(ar_nodes)).
Proof.
  destruct st as [relations a]. cbn [fst snd]. intros Ho Ha (Q & He & HG). cbn [lower_relation].
  destruct (context_type o Ho) as (td & Htd & _ & Hr).
  destruct (lower_rewrite_spec limits limits_ok (ctx o) (fun s code => resolve_leaf_reports o s code Ho)
    o.(or_source).(rs_rewrite) a) as (r & a1 & -> & Hg & Hres); [|done|].
  { eapply Hshape; by eapply list_elem_of_lookup_2. }
  cbn [mbind option_bind]. destruct r as [root|].
  - destruct Hres as [[Ha1 Hp] Herr Hlow Hj]. inversion Hlow as [|? ? ? ? Hroot]; subst.
    destruct (contains_direct_spec a1.(ar_nodes) root) as (b & -> & Hb).
    rewrite (lowered_has_direct _ _ _ _ Hroot) in Hb. cbn [mbind option_bind]. eexists. split; [done|]. cbn [fst snd].
    split; [destruct Ha1; by constructor|]. cbn [ar_errors ar_nodes]. rewrite Herr.
    eexists. split; [eapply emits_app; [exact He|eapply emits_when_then, emits_when]|].
    intros (HQ & H1 & H2). destruct (HG HQ) as [Hrels Hjust]. constructor.
    + apply Forall2_app.
      * eapply Forall2_impl; [exact Hrels|]. intros. by eapply relation_lowered_prefix.
      * constructor; [|constructor]. constructor; try done. cbn [cr_restrictions].
        unfold relation_restrictions. destruct (default [] (restrictions !! or_id o)); destruct b; naive_solver.
    + intros i Hi. destruct (decide (i < length (ar_nodes a))).
      * destruct (Hjust i) as (o' & s & ? & ? & ?); [done|]. exists o', s.
        split_and!; [set_solver|done|by eapply lowered_prefix].
      * destruct (Hj i) as (s & s' & ->%list_elem_of_singleton & ? & ?); [lia|]. exists o, s'. set_solver.
  - eexists. split; [done|]. cbn [fst snd]. split; [by destruct Hg|].
    eexists. split; [exact (emits_app _ _ _ _ _ He Hres)|tauto].
Qed.

Lemma lower_relations_spec e :
  ∃ relations a, lower_relations sy restrictions limits e = Some (relations, a) ∧ arena_ok limits a ∧
    emits_then e a.(ar_errors) (relations_lowered sy.(sy_relation_origins) relations a.(ar_nodes)).
Proof.
  destruct (try_foldl_ind (lower_relation sy restrictions limits)
    (fun pre st => arena_ok limits st.2 ∧
       emits_then e st.2.(ar_errors) (relations_lowered pre st.1 st.2.(ar_nodes)))
    sy.(sy_relation_origins) ([], mkArena [] [] e)) as ([relations a] & ? & ? & ?).
  - split.
    + constructor; simpl; [apply indexes_nil|by intros i n c Hi; rewrite lookup_nil in Hi|].
      unfold len. simpl. lia.
    + exists True. split; [by apply emits_none|]. intros _. constructor; [constructor|].
      intros i Hi. simpl in Hi. lia.
  - intros pre o rest st Hs [Ha He]. apply lower_relation_spec; [|done|done]. rewrite Hs. set_solver.
  - eauto.
Qed.

End relations.
