(* ===== verification/EntrypointTheory.v ===== *)
(** * Entrypoint analysis is the least fixpoint

    [validate_entrypoints] of [compiler.rs] iterates node values and relation
    flags; the flags it ends with are exactly the relations that some assignment
    of tuples can give a member. *)

From S2P Require Import Prelude Ordered Identifier Reference Condition Model ModelErrors Graph ModelSource.
From S2P Require Import Compiler DeclarationTheory SymbolTheory.

Section entrypoints.
Variable relations : list CompiledRelation.
Variable nodes : list RewriteNode.

(** The relations and nodes with an entrypoint, inductively. *)
Inductive Point := PtRelation (r : RelationId) | PtNode (n : NodeId).

Inductive entry : Point → Prop :=
| entry_relation r rel :
    relations !! r = Some rel → entry (PtNode rel.(cr_root)) → entry (PtRelation r)
| entry_direct n owner rel d :
    nodes !! n = Some (NDirect owner) → relations !! owner = Some rel → d ∈ rel.(cr_restrictions) →
    (∀ r, d.(dr_kind) = RKUserset r → entry (PtRelation r)) → entry (PtNode n)
| entry_computed n r : nodes !! n = Some (NComputed r) → entry (PtRelation r) → entry (PtNode n)
| entry_ttu n tupleset computed targets r :
    nodes !! n = Some (NTupleToUserset tupleset computed targets) → r ∈ targets →
    entry (PtRelation r) → entry (PtNode n)
| entry_union n cs x : nodes !! n = Some (NUnion cs) → x ∈ cs → entry (PtNode x) → entry (PtNode n)
| entry_intersection n cs :
    nodes !! n = Some (NIntersection cs) → (∀ x, x ∈ cs → entry (PtNode x)) → entry (PtNode n)
| entry_difference n b s :
    nodes !! n = Some (NDifference b s) → entry (PtNode b) → entry (PtNode s) → entry (PtNode n).

Hypothesis indexed : ∀ i rel, relations !! i = Some rel → rel.(cr_id) = i.
Hypothesis below : ∀ i n c, nodes !! i = Some n → c ∈ node_children n → c < i.

(** ** Node values of one round *)

Lemma entrypoint_nodes_prefix flags :
  length (entrypoint_nodes relations nodes flags) = length nodes ∧
  ∀ i n, nodes !! i = Some n →
    entrypoint_nodes relations nodes flags !! i =
      Some (entrypoint_value relations flags (take i (entrypoint_nodes relations nodes flags)) n).
Proof.
  unfold entrypoint_nodes. set (step := fun values n => _).
  destruct (try_foldl_ind (fun values n => Some (step values n))
    (fun pre values => length values = length pre ∧ ∀ i n, pre !! i = Some n →
       values !! i = Some (entrypoint_value relations flags (take i values) n)) nodes []) as (values & Hf & Hv).
  - split; [done|]. by intros i n Hi; rewrite lookup_nil in Hi.
  - intros pre n rest values _ [Hlen Hv]. eexists. split; [done|]. subst step. simpl.
    rewrite !length_app, Hlen. split; [done|]. intros i m [Hi|[Hge Hi]]%lookup_app_Some.
    + apply lookup_lt_Some in Hi as Hlt. rewrite lookup_app_l, take_app_le by lia. by apply Hv.
    + destruct (i - length pre) eqn:E; simplify_eq/=. assert (i = length values) as -> by lia.
      by rewrite list_lookup_middle, take_app_length.
  - rewrite try_foldl_total in Hf. by injection Hf as ->.
Qed.

Lemma flag_take flags i x : x < i → flag_or_false (take i flags) x = flag_or_false flags x.
Proof. intros. unfold flag_or_false. by rewrite lookup_take_lt. Qed.

Lemma existsb_ext {A} (f g : A → bool) (l : list A) : (∀ x, x ∈ l → f x = g x) → existsb f l = existsb g l.
Proof. intros Hfg. induction l as [|x l IH]; simpl; [done|]. rewrite Hfg, IH; set_solver. Qed.
Lemma forallb_ext {A} (f g : A → bool) (l : list A) : (∀ x, x ∈ l → f x = g x) → forallb f l = forallb g l.
Proof. intros Hfg. induction l as [|x l IH]; simpl; [done|]. rewrite Hfg, IH; set_solver. Qed.

Abbreviation values flags := (entrypoint_nodes relations nodes flags).

(** A node value only depends on the values of its children. *)
Lemma entrypoint_nodes_eq flags i n : nodes !! i = Some n →
  flag_or_false (values flags) i = entrypoint_value relations flags (values flags) n.
Proof using indexed below.
  intros Hi. destruct (entrypoint_nodes_prefix flags) as [_ Hv]. unfold flag_or_false at 1.
  rewrite (Hv i n Hi). simpl. assert (Hb := fun c => below i n c Hi).
  destruct n as [| | |cs|cs|b s]; simpl in *; try done.
  - apply existsb_ext. auto using flag_take.
  - apply forallb_ext. auto using flag_take.
  - rewrite !flag_take; [done|apply Hb; set_solver..].
Qed.

Lemma values_lt flags i : flag_or_false (values flags) i = true → i < length nodes.
Proof.
  unfold flag_or_false. destruct (values flags !! i) eqn:E; [|done]. intros _.
  apply lookup_lt_Some in E. by destruct (entrypoint_nodes_prefix flags) as [<- _].
Qed.

(** ** Soundness and completeness of flags *)

Definition flags_sound (flags : list bool) : Prop :=
  ∀ r, flag_or_false flags r = true → entry (PtRelation r).

Lemma values_sound flags : flags_sound flags → ∀ i, flag_or_false (values flags) i = true → entry (PtNode i).
Proof using indexed below.
  intros Hs i. induction (lt_wf i) as [i _ IH]. intros Hv.
  destruct (lookup_lt_is_Some_2 nodes i (values_lt _ _ Hv)) as [n Hn].
  rewrite (entrypoint_nodes_eq flags i n Hn) in Hv. assert (Hb := fun c => below i n c Hn).
  destruct n as [owner|r|ts c targets|cs|cs|b s]; simpl in *.
  - destruct (relations !! owner) as [rel|] eqn:Er; [|done]. apply existsb_elem in Hv as (d & Hd & Hk).
    eapply entry_direct; [done..|]. intros r Hr. rewrite Hr in Hk. by apply Hs.
  - eapply entry_computed; [done|]. by apply Hs.
  - apply existsb_elem in Hv as (r & Hr & Hf). eapply entry_ttu; [done..|]. by apply Hs.
  - apply existsb_elem in Hv as (x & Hx & Hf). eapply entry_union; [done..|]. apply IH; [by apply Hb|done].
  - rewrite forallb_elem in Hv. eapply entry_intersection; [done|]. intros x Hx. apply IH; [by apply Hb|by apply Hv].
  - apply andb_true_iff in Hv as [Hv1 Hv2]. eapply entry_difference; [done|apply IH..]; try done; apply Hb; set_solver.
Qed.

Definition flags_closed (flags : list bool) : Prop :=
  ∀ r rel, relations !! r = Some rel → flag_or_false (values flags) rel.(cr_root) = true →
    flag_or_false flags r = true.

Lemma flags_complete flags : flags_closed flags → ∀ x, entry x →
  match x with
  | PtRelation r => flag_or_false flags r = true
  | PtNode n => flag_or_false (values flags) n = true
  end.
Proof using indexed below.
  intros Hc x Hx. induction Hx as [r rel Hr _ IH|n owner rel d Hn Hr Hd _ IH|n r Hn _ IH|n ts c targets r Hn Hr _ IH
    |n cs x Hn Hx _ IH|n cs Hn _ IH|n b s Hn _ IHb _ IHs]; [by eapply Hc|..];
    rewrite (entrypoint_nodes_eq flags _ _ Hn); simpl.
  - rewrite Hr. apply existsb_elem. exists d. split; [done|]. destruct (dr_kind d); auto.
  - done.
  - apply existsb_elem. eauto.
  - apply existsb_elem. eauto.
  - apply forallb_elem. auto.
  - by rewrite IHb, IHs.
Qed.

(** ** Rounds *)

Definition falses (flags : list bool) : nat := sum_list_with (fun b : bool => if b then 0 else 1) flags.

Lemma falses_insert flags i : flags !! i = Some false → falses flags = S (falses (<[i := true]> flags)).
Proof.
  revert i. induction flags as [|b flags IH]; intros [|i] Hi; simplify_eq/=; [done|].
  unfold falses in *. rewrite (IH i Hi). destruct b; simpl; lia.
Qed.

Lemma flag_false flags i : i < length flags → flag_or_false flags i = false → flags !! i = Some false.
Proof.
  intros Hi. unfold flag_or_false. destruct (lookup_lt_is_Some_2 flags i Hi) as [b ->]. simpl. by intros ->.
Qed.

Lemma flag_insert flags i j : i < length flags →
  flag_or_false (<[i := true]> flags) j = true ↔ j = i ∨ flag_or_false flags j = true.
Proof.
  intros Hi. unfold flag_or_false. destruct (decide (j = i)) as [->|Hne].
  - rewrite list_lookup_insert_eq by done. naive_solver.
  - rewrite list_lookup_insert_ne by done. naive_solver.
Qed.

Lemma entrypoint_round_spec vals flags :
  let '(flags', changed) := entrypoint_round relations vals flags in
  length flags' = length flags ∧
  (∀ r, flag_or_false flags' r = true → flag_or_false flags r = true ∨
     ∃ rel, rel ∈ relations ∧ rel.(cr_id) = r ∧ flag_or_false vals rel.(cr_root) = true) ∧
  (if changed then falses flags' < falses flags
   else flags' = flags ∧ ∀ rel, rel ∈ relations → rel.(cr_id) < length flags →
     flag_or_false vals rel.(cr_root) = true → flag_or_false flags rel.(cr_id) = true).
Proof.
  unfold entrypoint_round. set (step := fun '(entrypoints, changed) relation => _).
  destruct (try_foldl_ind (fun st rel => Some (step st rel))
    (fun pre (st : list bool * bool) => length st.1 = length flags ∧
       (∀ r, flag_or_false st.1 r = true → flag_or_false flags r = true ∨
          ∃ rel, rel ∈ pre ∧ rel.(cr_id) = r ∧ flag_or_false vals rel.(cr_root) = true) ∧
       (if st.2 then falses st.1 < falses flags
        else st.1 = flags ∧ ∀ rel, rel ∈ pre → rel.(cr_id) < length flags →
          flag_or_false vals rel.(cr_root) = true → flag_or_false flags rel.(cr_id) = true))
    relations (flags, false)) as ([flags' changed] & Hf & Hs).
  - simpl. split_and!; [done|by left|done|set_solver].
  - intros pre rel rest [f ch] _ (Hlen & Hs & Hch). eexists. split; [done|]. subst step. simpl in *.
    destruct (_ && _ && _) eqn:E.
    + apply andb_true_iff in E as [[Ev Ef%negb_true_iff]%andb_true_iff Elt%Nat.ltb_lt]. simpl.
      rewrite length_insert. split_and!; [done| |].
      * intros r [->|Hr]%flag_insert; [|destruct (Hs r Hr) as [|(x & ? & ?)]; [by left|right; exists x; set_solver]|done].
        right. exists rel. set_solver.
      * pose proof (falses_insert f (cr_id rel) (flag_false _ _ Elt Ef)) as Hfalse. destruct ch; [lia|].
        destruct Hch as [-> _]. lia.
    + split_and!; [done| |].
      * intros r Hr. destruct (Hs r Hr) as [|(x & ? & ?)]; [by left|right; exists x; set_solver].
      * simpl. destruct ch; [done|]. destruct Hch as [-> Hcl]. split; [done|].
        intros x [Hx| ->%list_elem_of_singleton]%elem_of_app; [by apply Hcl|]. intros Hlt Hv.
        rewrite Hv, (proj2 (Nat.ltb_lt _ _) Hlt), andb_true_r in E. simpl in E. by apply negb_false_iff in E.
  - rewrite try_foldl_total in Hf. by injection Hf as ->.
Qed.

Lemma entrypoint_loop_spec remaining : ∀ flags,
  length flags = length relations → flags_sound flags → falses flags < remaining →
  let flags' := entrypoint_loop remaining relations nodes flags in
  flags_sound flags' ∧ flags_closed flags'.
Proof using indexed below.
  induction remaining as [|remaining IH]; intros flags Hlen Hs Hf; [lia|]. cbn [entrypoint_loop].
  pose proof (entrypoint_round_spec (values flags) flags) as Hr.
  destruct (entrypoint_round relations (values flags) flags) as [flags' changed].
  destruct Hr as (Hlen' & Hnew & Hch).
  assert (Hs' : flags_sound flags').
  { intros r [?|(rel & [i Hi]%list_elem_of_lookup & Hid & Hv)]%Hnew; [by apply Hs|].
    rewrite (indexed i rel Hi) in Hid. subst i. eapply entry_relation; [done|]. by eapply values_sound. }
  destruct changed; [apply IH; [congruence|done|lia]|]. destruct Hch as [-> Hcl]. split; [done|].
  intros r rel Hr Hv. rewrite <-(indexed r rel Hr). apply Hcl; [by eapply list_elem_of_lookup_2| |done].
  rewrite (indexed r rel Hr), Hlen. by eapply lookup_lt_Some.
Qed.

Lemma falses_replicate n : falses (replicate n false) = n.
Proof. induction n; [done|]. unfold falses in *. simpl. lia. Qed.

(** The analysis flags exactly the relations with an entrypoint, and reports the others. *)
Lemma validate_entrypoints_spec sy cycles e :
  (∀ i, i < length relations → is_Some (sy.(sy_relation_origins) !! i)) →
  let '(flags, e') := validate_entrypoints sy relations nodes cycles e in
  (∀ r, flag_or_false flags r = true ↔ entry (PtRelation r)) ∧
  emits e e' (∀ r, r < length relations → entry (PtRelation r)).
Proof using indexed below.
  intros Horig. unfold validate_entrypoints. set (flags := entrypoint_loop _ _ _ _). cbv zeta.
  destruct (entrypoint_loop_spec (S (length relations)) (replicate (length relations) false)) as [Hs Hc].
  { by rewrite length_replicate. }
  { intros r. unfold flag_or_false. destruct (_ !! r) eqn:E; simpl; [|done].
    apply lookup_replicate in E as [-> _]. done. }
  { rewrite falses_replicate. lia. }
  fold flags in Hs, Hc. clearbody flags.
  assert (Hiff : ∀ r, flag_or_false flags r = true ↔ entry (PtRelation r)).
  { intros r. split; [apply Hs|]. by apply (flags_complete flags Hc (PtRelation r)). }
  split; [done|]. eapply emits_iff; [|apply (emits_foldl _ (fun rel => entry (PtRelation rel.(cr_id))))].
  - split.
    + intros Hall r Hr. destruct (lookup_lt_is_Some_2 relations r Hr) as [rel Hrel].
      rewrite <-(indexed r rel Hrel). apply Hall. by eapply list_elem_of_lookup_2.
    + intros Hall rel [i Hi]%list_elem_of_lookup. rewrite (indexed i rel Hi). apply Hall. by eapply lookup_lt_Some.
  - intros e1 rel [i Hi]%list_elem_of_lookup. rewrite (indexed i rel Hi). specialize (Hiff i).
    destruct (flag_or_false flags i); [apply emits_none; tauto|].
    destruct (Horig i) as [o ->]; [by eapply lookup_lt_Some|]. apply emits_push. rewrite <-Hiff. done.
Qed.

End entrypoints.
