(* ===== verification/CompilerTheory.v ===== *)
(** * What a compiled model is

    [Compiler::compile] never runs into a loop bound; it returns a model with
    every declaration resolved, lowered and analysed, or a report that is not
    empty. *)

From S2P Require Import Prelude Ordered Identifier Reference Condition Model ModelErrors Graph GraphTheory.
From S2P Require Import ModelSource Compiler DeclarationTheory SymbolTheory LoweringTheory EntrypointTheory.

(** ** Reports *)

Lemma dedup_not_nil {Detail} `{!EqDecision Detail} (l : list (ModelError Detail)) : l ≠ [] → dedup l ≠ [].
Proof. destruct l as [|x l]; [done|]. intros _. simpl. repeat case_match; done. Qed.

Lemma sort_not_nil {Detail} `{!EqDecision Detail} (l : list (ModelError Detail)) : l ≠ [] → sort_errors l ≠ [].
Proof. destruct l as [|x l]; [done|]. intros _. simpl. destruct (sort_errors l); simpl; [done|]. by case_match. Qed.

Lemma finish_not_nil (e : Errors) : collector_is_empty e = false → model_errors (collector_finish e) ≠ [].
Proof.
  unfold collector_is_empty, collector_finish. intros He. apply dedup_not_nil, sort_not_nil.
  destruct (ec_errors e); [done|]. by case_match.
Qed.

Lemma push_not_empty (e : Errors) code path : 0 < ec_maximum e → collector_is_empty (push e code path) = false.
Proof.
  intros Hm. apply not_true_is_false. intros He.
  by destruct (emits_clean e (push e code path) False (emits_push _ _ _ _ (fun H => H)) Hm He).
Qed.

Section compiler_theory.
Context `{ConditionCompiler}.
Variable limits : ModelLimits.
Variable climits : ConditionLimits.
Hypothesis limits_ok : model_limits_ok limits.

(** ** The relation between a source and its model *)

Definition symbols_of (m : CompiledModel) (origins : list RelationOrigin) : Symbols :=
  mkSymbols m.(model_types) m.(type_lookup) origins m.(relation_lookup).

Record compiled (source : AuthorizationModelSource) (m : CompiledModel) (origins : list RelationOrigin) : Prop := {
  compiled_identity : m.(model_store_id) = source.(ams_store_id) ∧ m.(model_id) = source.(ams_model_id) ∧
    m.(schema_version) = source.(ams_schema_version);
  compiled_declarations : declarations_ok limits source;
  compiled_symbols : symbols_ok source.(ams_type_definitions) (symbols_of m origins);
  compiled_conditions : Forall2 (compiles_to climits) source.(ams_conditions) m.(model_conditions);
  compiled_condition_lookup : indexes (cs_key <$> source.(ams_conditions)) m.(condition_lookup);
  compiled_resolved : ∀ o, o ∈ origins → ∀ d, d ∈ o.(or_source).(rs_restrictions) →
    ∃ d', resolves (symbols_of m origins) m.(condition_lookup) d d';
  compiled_restrictions : ∀ id o, origins !! id = Some o → ∃ rel, m.(model_relations) !! id = Some rel ∧
    ∀ d', d' ∈ rel.(cr_restrictions) ↔
      ∃ d, d ∈ o.(or_source).(rs_restrictions) ∧ resolves (symbols_of m origins) m.(condition_lookup) d d';
  compiled_relations : relations_lowered (symbols_of m origins) (cr_restrictions <$> m.(model_relations))
    origins m.(model_relations) m.(model_nodes);
  compiled_below : ∀ i n c, m.(model_nodes) !! i = Some n → c ∈ node_children n → c < i;
  compiled_shared : NoDup m.(model_nodes);
  compiled_entry : ∀ r, r < length m.(model_relations) → entry m.(model_relations) m.(model_nodes) (PtRelation r);
  compiled_acyclic : ∃ cycles, computed_cycle_relations m.(model_relations) m.(model_nodes) = Some cycles ∧
    ∀ r, r ∈ cycles → length m.(model_relations) ≤ r;
  compiled_graph : ∃ errors errors' : Errors, build_graph_metadata m.(model_relations) m.(model_nodes) limits errors
    = Some (Some m.(model_graph), errors');
}.

Lemma stop_unless_empty_spec {A} (errors : Errors) next (P : result (ModelErrors ModelErrorDetail) A → Prop) :
  (∀ es, model_errors es ≠ [] → P (Err es)) →
  (collector_is_empty errors = true → ∃ r, next = Some r ∧ P r) →
  ∃ r, stop_unless_empty errors next = Some r ∧ P r.
Proof.
  intros Herr Hnext. unfold stop_unless_empty. destruct (collector_is_empty errors) eqn:E; [by apply Hnext|].
  eexists. split; [done|]. apply Herr. by apply finish_not_nil.
Qed.

Lemma push_cycles_spec sy cycles e :
  emits e (push_cycles sy cycles e) (∀ r, r ∈ cycles → length sy.(sy_relation_origins) ≤ r).
Proof.
  apply (emits_foldl _ (fun r => length sy.(sy_relation_origins) ≤ r)). intros e1 r _. destruct (sy_relation_origins sy !! r) as [o|] eqn:E.
  - apply emits_push. apply lookup_lt_Some in E. lia.
  - apply emits_none, lookup_ge_None. exact E.
Qed.

Lemma arena_shared a : arena_ok limits a → NoDup a.(ar_nodes).
Proof.
  intros [Hidx _ _]. apply NoDup_alt. intros i j n Hi Hj. exact (indexes_inj _ _ _ _ _ Hidx Hi Hj).
Qed.

(** The lowered relations are indexed by identifier and carry their restrictions. *)
Lemma relations_lowered_indexed tds sy restrictions relations nodes :
  symbols_ok tds sy → length restrictions = length sy.(sy_relation_origins) →
  relations_lowered sy restrictions sy.(sy_relation_origins) relations nodes →
  length relations = length sy.(sy_relation_origins) ∧ relations_indexed relations ∧
  cr_restrictions <$> relations = restrictions.
Proof.
  intros [[_ Ho _ _ _] _] Hlen [Hrels _]. pose proof (Forall2_length _ _ _ Hrels) as Hl. split_and!; [done| |].
  - intros i rel Hi. destruct (Forall2_lookup_r _ _ _ _ _ Hrels Hi) as (o & Hoi & [-> _ _ _ _ _]).
    by destruct (Ho i o Hoi).
  - apply list_eq. intros i. rewrite list_lookup_fmap. destruct (relations !! i) as [rel|] eqn:Hi; simpl.
    + destruct (Forall2_lookup_r _ _ _ _ _ Hrels Hi) as (o & Hoi & [_ _ _ -> _ _]).
      destruct (Ho i o Hoi) as [-> _ _]. unfold relation_restrictions.
      destruct (lookup_lt_is_Some_2 restrictions i) as [l ->]; [|done]. rewrite Hlen. by eapply lookup_lt_Some.
    + symmetry. apply lookup_ge_None. apply lookup_ge_None in Hi. lia.
Qed.

(** ** The passes in sequence *)

Definition outcome (source : AuthorizationModelSource) (r : result (ModelErrors ModelErrorDetail) CompiledModel) : Prop :=
  match r with
  | Ok m => ∃ origins, compiled source m origins
  | Err es => model_errors es ≠ []
  end.

(** The last pass and the assembly. *)
Lemma assemble_spec source sy conditions lookup relations nodes e :
  0 < ec_maximum e →
  (∀ graph (errors errors' : Errors), build_graph_metadata relations nodes limits errors = Some (Some graph, errors') →
     compiled source {|
       model_store_id := source.(ams_store_id); model_id := source.(ams_model_id);
       schema_version := source.(ams_schema_version);
       compiler_format_version := MODEL_COMPILER_FORMAT_VERSION;
       model_types := sy.(sy_types); type_lookup := sy.(sy_type_lookup);
       model_relations := relations; relation_lookup := sy.(sy_relation_lookup);
       model_nodes := nodes; model_conditions := conditions; condition_lookup := lookup;
       model_graph := graph |} sy.(sy_relation_origins)) →
  ∃ r, ('(graph, errors) ← build_graph_metadata relations nodes limits e;
        match graph with
        | None => Some (Err (collector_finish errors))
        | Some graph => stop_unless_empty errors (Some (Ok {|
            model_store_id := source.(ams_store_id); model_id := source.(ams_model_id);
            schema_version := source.(ams_schema_version);
            compiler_format_version := MODEL_COMPILER_FORMAT_VERSION;
            model_types := sy.(sy_types); type_lookup := sy.(sy_type_lookup);
            model_relations := relations; relation_lookup := sy.(sy_relation_lookup);
            model_nodes := nodes; model_conditions := conditions; condition_lookup := lookup;
            model_graph := graph |}))
        end) = Some r ∧ outcome source r.
Proof.
  intros Hmax Hok. destruct (build_graph_metadata relations nodes limits e) as [[[graph|] e']|] eqn:E.
  - cbn [mbind option_bind]. apply stop_unless_empty_spec; [done|]. intros _.
    eexists. split; [done|]. eexists. by eapply Hok.
  - eexists. split; [done|]. simpl. apply finish_not_nil. unfold build_graph_metadata in E.
    destruct (visit_relations _ _ _ _ _) as [[g|code]|]; simplify_eq/=.
    + destruct (propagate_reachability _ _ _). by destruct (recursion_groups _); simplify_eq/=.
    + by apply push_not_empty.
  - by apply build_graph_metadata_total in E.
Qed.

Lemma compile_spec source : ∃ r, compile source limits climits = Some r ∧ outcome source r.
Proof using limits_ok.
  pose proof limits_ok as (Hin & Hcl & _ & _ & _ & Hme). unfold limit_in in *.
  assert (Hnew : 0 < ec_maximum (collector_new (Detail := ModelErrorDetail) (N.to_nat limits.(ml_model_errors))))
    by (simpl; lia).
  revert Hnew. unfold compile. generalize (collector_new (Detail := ModelErrorDetail) (N.to_nat limits.(ml_model_errors))) as e0.
  intros e0 Hmax. destruct (validate_declarations_spec limits limits_ok source e0) as (e1 & -> & He1).
  cbn [mbind option_bind]. apply stop_unless_empty_spec; [done|]. intros Hempty.
  destruct (emits_clean _ _ _ He1 Hmax Hempty) as [-> Hdecl]. clear He1 Hempty.
  destruct (build_symbols_spec source limits limits_ok Hdecl) as (sy & -> & Hsy).
  destruct (compile_conditions_spec climits source e0) as (conditions & lookup & e2 & -> & He2 & Hconds).
  { by destruct Hdecl. }
  { destruct Hdecl as [_ _ Hcount _ _ _ _ _]. unfold U32_MAX. lia. }
  apply stop_unless_empty_spec; [done|]. intros Hempty.
  destruct (emits_clean _ _ _ He2 Hmax Hempty) as [-> [Hcompile Hlookup]%Hconds]. clear He2 Hempty Hconds.
  pose proof (resolve_restrictions_spec sy lookup e0) as Hres.
  destruct (resolve_restrictions sy lookup e0) as [restrictions e3]. destruct Hres as (Hlen & Hrestr & He3).
  apply stop_unless_empty_spec; [done|]. intros Hempty.
  destruct (emits_clean _ _ _ He3 Hmax Hempty) as [-> Hresolved]. clear He3 Hempty.
  destruct (lower_relations_spec limits limits_ok (ams_type_definitions source) sy restrictions Hsy Hlen)
    with (e := e0) as (relations & a & -> & Ha & He4).
  { intros td r Htd Hr. by destruct (type_relations_ok _ _ (declared_types_ok _ _ Hdecl td Htd) r Hr) as (_ & _ & ? & _). }
  cbn [mbind option_bind]. apply stop_unless_empty_spec; [done|]. intros Hempty.
  destruct (emits_then_clean _ _ _ He4 Hmax Hempty) as [Ea Hlow]. rewrite Ea in *. clear He4 Hempty.
  destruct (relations_lowered_indexed _ _ _ _ _ Hsy Hlen Hlow) as (Hrl & Hidx & Hrs).
  destruct (computed_cycle_relations relations (ar_nodes a)) as [cycles|] eqn:Ecyc;
    [|by apply computed_cycle_relations_total in Ecyc]. cbn [mbind option_bind].
  pose proof (validate_entrypoints_spec relations (ar_nodes a) Hidx (arena_below _ _ Ha) sy cycles e0) as Hent.
  destruct (validate_entrypoints sy relations (ar_nodes a) cycles e0) as [flags e5].
  destruct Hent as [_ He5]. { intros i Hi. apply lookup_lt_is_Some. lia. }
  apply stop_unless_empty_spec; [done|]. intros Hempty.
  destruct (emits_clean _ _ _ (emits_app _ _ _ _ _ He5 (push_cycles_spec sy cycles e5)) Hmax Hempty) as [-> [Hentry Hcyc]].
  apply assemble_spec; [done|]. intros graph errors errors' Hgraph.
  assert (Heq : symbols_of {|
       model_store_id := source.(ams_store_id); model_id := source.(ams_model_id);
       schema_version := source.(ams_schema_version);
       compiler_format_version := MODEL_COMPILER_FORMAT_VERSION;
       model_types := sy.(sy_types); type_lookup := sy.(sy_type_lookup);
       model_relations := relations; relation_lookup := sy.(sy_relation_lookup);
       model_nodes := ar_nodes a; model_conditions := conditions; condition_lookup := lookup;
       model_graph := graph |} sy.(sy_relation_origins) = sy) by (by destruct sy).
  constructor; rewrite ?Heq; cbn [model_relations model_nodes condition_lookup model_conditions]; try done.
  - intros id o Ho. destruct (Hrestr id o Ho) as (l & Hl & Hd').
    rewrite <-Hrs, list_lookup_fmap in Hl. destruct (relations !! id) as [rel|] eqn:E; simplify_eq/=. eauto.
  - by rewrite Hrs.
  - by apply (arena_below limits).
  - by apply arena_shared.
  - exists cycles. split; [done|]. by rewrite Hrl.
  - eauto.
Qed.

End compiler_theory.
