(* ===== verification/TupleValidation.v ===== *)
(** * Model-aware tuple validation

    [crates/openfga-model/src/tuple_validation.rs]: authorization questions
    must name declared symbols; relationship tuples must in addition be
    directly assignable. *)

From S2P Require Import Prelude Ordered Identifier Reference Condition Model.

Inductive TupleValidationErrorKind := TVQuery | TVRelationship | TVCompiledModel.

Record TupleValidationError := mkTupleValidationError {
  tv_kind : TupleValidationErrorKind;
  tv_code : string;
  tv_source : option ModelLookupError;
  tv_condition_context : option ConditionContextError;
}.

Definition tv_new (kind : TupleValidationErrorKind) (code : string) : TupleValidationError :=
  mkTupleValidationError kind code None None.
Definition tv_lookup (kind : TupleValidationErrorKind) (code : string)
    (source : ModelLookupError) : TupleValidationError :=
  mkTupleValidationError kind code (Some source) None.
Definition tv_context (source : ConditionContextError) : TupleValidationError :=
  mkTupleValidationError TVRelationship "relationship_condition_context_invalid" None (Some source).

Inductive DirectClass := DCObject | DCUserset (r : RelationId) | DCWildcard.

Definition restriction_kind_matches (kind : RestrictionKind) (class : DirectClass) : bool :=
  match kind, class with
  | RKObject, DCObject | RKWildcard, DCWildcard => true
  | RKUserset expected, DCUserset actual => bool_decide (expected = actual)
  | _, _ => false
  end.

Definition validate_unconditional (restrictions : list DirectRestriction) :
    result TupleValidationError () :=
  if existsb (fun r => bool_decide (r.(dr_condition) = ReqUnconditional)) restrictions then Ok ()
  else Err (tv_new TVRelationship "relationship_condition_missing").

Definition is_implicit (t : TupleKey) : bool :=
  match t.(tk_subject) with
  | SubjUserset u =>
      bool_decide (u.(us_object) = t.(tk_object)) && bool_decide (u.(us_relation) = t.(tk_relation))
  | _ => false
  end.

Section validation.
Context `{ConditionEngine}.
Variable m : CompiledModel.

Definition validate_subject (subject : SubjectRef) : result TupleValidationError () :=
  _ ← map_err (tv_lookup TVQuery "query_subject_type_missing") (type_id m (subject_type subject));
  match subject with
  | SubjUserset u =>
      _ ← map_err (tv_lookup TVQuery "query_userset_relation_missing")
            (relation_id m u.(us_object).(object_type) u.(us_relation));
      Ok ()
  | _ => Ok ()
  end.

Definition validate_query_tuple (t : TupleKey) : result TupleValidationError RelationId :=
  _ ← map_err (tv_lookup TVQuery "query_object_type_missing")
        (type_id m t.(tk_object).(object_type));
  relation ← map_err (tv_lookup TVQuery "query_relation_missing")
        (relation_id m t.(tk_object).(object_type) t.(tk_relation));
  _ ← validate_subject t.(tk_subject);
  Ok relation.

Definition relationship_direct_class (subject : SubjectRef) :
    result TupleValidationError DirectClass :=
  match subject with
  | SubjObject _ => Ok DCObject
  | SubjWildcard _ => Ok DCWildcard
  | SubjUserset u =>
      map_err (tv_lookup TVCompiledModel "relationship_userset_relation_invalid")
        (DCUserset <$> relation_id m u.(us_object).(object_type) u.(us_relation))
  end.

(** The [try_fold] over the matching restrictions. *)
Fixpoint conditional_matched (binding : ConditionBinding) (matched : bool)
    (restrictions : list DirectRestriction) : result TupleValidationError bool :=
  match restrictions with
  | [] => Ok matched
  | r :: rest =>
      match r.(dr_condition) with
      | ReqUnconditional => conditional_matched binding matched rest
      | Required id =>
          required ← map_err (tv_lookup TVCompiledModel "restriction_condition_invalid")
                       (condition m id);
          if bool_decide (condition_name required = binding.(cb_name)) then
            _ ← map_err tv_context (validate_context required binding.(cb_context));
            conditional_matched binding true rest
          else conditional_matched binding matched rest
      end
  end.

Definition validate_conditional (binding : ConditionBinding)
    (restrictions : list DirectRestriction) : result TupleValidationError () :=
  _ ← map_err (tv_lookup TVRelationship "relationship_condition_undefined")
        (condition_id m binding.(cb_name));
  matched ← conditional_matched binding false restrictions;
  if (matched : bool) then Ok ()
  else Err (tv_new TVRelationship "relationship_condition_invalid").

Definition validate_relationship_condition (t : RelationshipTuple)
    (restrictions : list DirectRestriction) : result TupleValidationError () :=
  subject_type ← map_err (tv_lookup TVCompiledModel "relationship_subject_type_invalid")
                   (type_id m (subject_type t.(rt_key).(tk_subject)));
  class ← relationship_direct_class t.(rt_key).(tk_subject);
  let matching :=
    filter (fun r => r.(dr_subject_type) = subject_type ∧
                     restriction_kind_matches r.(dr_kind) class = true) restrictions in
  match matching with
  | [] => Err (tv_new TVRelationship "relationship_tuple_not_permitted")
  | _ =>
      match t.(rt_condition) with
      | Unconditional => validate_unconditional matching
      | Conditional binding => validate_conditional binding matching
      end
  end.

Definition validate_relationship_tuple (t : RelationshipTuple) : result TupleValidationError () :=
  let key := t.(rt_key) in
  _ ← map_err (tv_lookup TVRelationship "relationship_object_type_missing")
        (type_id m key.(tk_object).(object_type));
  rid ← map_err (tv_lookup TVRelationship "relationship_relation_missing")
        (relation_id m key.(tk_object).(object_type) key.(tk_relation));
  rel ← map_err (tv_lookup TVCompiledModel "relationship_relation_invalid") (relation m rid);
  _ ← map_err (tv_lookup TVRelationship "relationship_subject_type_missing")
        (type_id m (subject_type key.(tk_subject)));
  _ ← match key.(tk_subject) with
      | SubjUserset u =>
          _ ← map_err (tv_lookup TVRelationship "relationship_userset_relation_missing")
                (relation_id m u.(us_object).(object_type) u.(us_relation));
          Ok ()
      | _ => Ok ()
      end;
  validate_relationship_condition t rel.(cr_restrictions).

Definition validate_persistent_tuple (t : RelationshipTuple) : result TupleValidationError () :=
  if is_implicit t.(rt_key) then Err (tv_new TVRelationship "relationship_tuple_implicit")
  else validate_relationship_tuple t.

End validation.
