(* ===== verification/Budget.v ===== *)
(** * Evaluator budgets and the shared work meter

    [crates/openfga-check/src/budget.rs]. *)

From S2P Require Import Prelude Identifier.

Record CheckBudget := mkCheckBudget {
  maximum_depth : N;
  maximum_dispatches : N;
  maximum_datastore_queries : N;
  maximum_tuple_items : N;
  maximum_condition_cost : N;
  maximum_concurrent_reads : N;
  maximum_batch_concurrency : N;
}.

Definition default_check_budget : CheckBudget := {|
  maximum_depth := trusted_limit 1000 25;
  maximum_dispatches := trusted_limit 1000000 10000;
  maximum_datastore_queries := trusted_limit 100000 100;
  maximum_tuple_items := trusted_limit 1000000 10000;
  maximum_condition_cost := trusted_limit 1000000 100000;
  maximum_concurrent_reads := trusted_limit 1024 16;
  maximum_batch_concurrency := trusted_limit 1000 16;
|}.

(** What the field types [Limit<MAX>] guarantee of every budget. *)
Definition check_budget_ok (b : CheckBudget) : Prop :=
  limit_in 1000 b.(maximum_depth) ∧ limit_in 1000000 b.(maximum_dispatches) ∧
  limit_in 100000 b.(maximum_datastore_queries) ∧ limit_in 1000000 b.(maximum_tuple_items) ∧
  limit_in 1000000 b.(maximum_condition_cost) ∧ limit_in 1024 b.(maximum_concurrent_reads) ∧
  limit_in 1000 b.(maximum_batch_concurrency).

Lemma default_check_budget_ok : check_budget_ok default_check_budget.
Proof. repeat split; vm_compute; discriminate. Qed.

(** ** The work meter

    [SharedCounter::charge] is one atomic read-modify-write: a charge that
    would pass the maximum leaves the counter unchanged. *)

Record SharedCounter := mkSharedCounter { sc_used : N; sc_maximum : N }.

Definition shared_counter_new (maximum : N) : SharedCounter := mkSharedCounter 0 maximum.

Definition charge (c : SharedCounter) (amount : N) : SharedCounter * bool :=
  match checked_add U32_MAX c.(sc_used) amount with
  | Some next => if (next <=? c.(sc_maximum))%N then (mkSharedCounter next c.(sc_maximum), true)
                 else (c, false)
  | None => (c, false)
  end.

Record CheckWorkMeter := mkCheckWorkMeter {
  wm_dispatches : SharedCounter;
  wm_datastore_queries : SharedCounter;
  wm_tuple_items : SharedCounter;
}.

Definition work_meter_new (dispatches datastore_queries tuple_items : N) : CheckWorkMeter :=
  mkCheckWorkMeter (shared_counter_new dispatches) (shared_counter_new datastore_queries)
    (shared_counter_new tuple_items).

Inductive MeterCounter := MDispatches | MDatastoreQueries | MTupleItems.

(** [charge_dispatches], [charge_datastore_queries] and [charge_tuple_items]. *)
Definition meter_charge (m : CheckWorkMeter) (which : MeterCounter) (amount : N) :
    CheckWorkMeter * bool :=
  match which with
  | MDispatches => let '(c, ok) := charge m.(wm_dispatches) amount in
                   (mkCheckWorkMeter c m.(wm_datastore_queries) m.(wm_tuple_items), ok)
  | MDatastoreQueries => let '(c, ok) := charge m.(wm_datastore_queries) amount in
                         (mkCheckWorkMeter m.(wm_dispatches) c m.(wm_tuple_items), ok)
  | MTupleItems => let '(c, ok) := charge m.(wm_tuple_items) amount in
                   (mkCheckWorkMeter m.(wm_dispatches) m.(wm_datastore_queries) c, ok)
  end.

(** Charges of several roots, in the order the atomic operations take effect:
    the meters reached and the admitted amounts. *)
Fixpoint charge_all (m : CheckWorkMeter) (l : list (MeterCounter * N)) : CheckWorkMeter :=
  match l with
  | [] => m
  | (which, amount) :: l => charge_all (fst (meter_charge m which amount)) l
  end.

(** ** Meter invariants *)

Definition counter_ok (c : SharedCounter) : Prop := (c.(sc_used) <= c.(sc_maximum))%N.

Definition meter_ok (m : CheckWorkMeter) : Prop :=
  counter_ok m.(wm_dispatches) ∧ counter_ok m.(wm_datastore_queries) ∧ counter_ok m.(wm_tuple_items).

Lemma charge_ok c amount : counter_ok c → counter_ok (fst (charge c amount)).
Proof.
  intros Hc. unfold charge. case_match; [|done]. case_match eqn:E; [|done]. by apply N.leb_le in E.
Qed.

Lemma charge_spec c amount :
  snd (charge c amount) = true ↔
  (c.(sc_used) + amount <= c.(sc_maximum))%N ∧ (c.(sc_used) + amount <= U32_MAX)%N.
Proof.
  unfold charge. destruct (checked_add _ _ _) as [n|] eqn:E.
  - apply checked_add_Some in E as [-> E]. case_match eqn:El.
    + apply N.leb_le in El. done.
    + apply N.leb_gt in El. simpl. split; [done|lia].
  - apply checked_add_None in E. simpl. split; [done|lia].
Qed.

Lemma meter_charge_ok m which amount : meter_ok m → meter_ok (fst (meter_charge m which amount)).
Proof.
  intros (? & ? & ?). unfold meter_charge.
  destruct which; match goal with |- context [charge ?c ?n] =>
    pose proof (charge_ok c n); destruct (charge c n) end; unfold meter_ok; simpl in *; auto.
Qed.

Lemma charge_all_ok l m : meter_ok m → meter_ok (charge_all m l).
Proof.
  revert m. induction l as [|[which amount] l IH]; intros m Hm; simpl; [done|].
  by apply IH, meter_charge_ok.
Qed.

(** ** Exact accounting *)

Definition meter_counter (m : CheckWorkMeter) (which : MeterCounter) : SharedCounter :=
  match which with
  | MDispatches => m.(wm_dispatches)
  | MDatastoreQueries => m.(wm_datastore_queries)
  | MTupleItems => m.(wm_tuple_items)
  end.

#[export] Instance MeterCounter_eq_dec : EqDecision MeterCounter.
Proof. solve_decision. Defined.

(** The answers given to a sequence of charges. *)
Fixpoint charge_answers (m : CheckWorkMeter) (l : list (MeterCounter * N)) : list bool :=
  match l with
  | [] => []
  | (which, amount) :: l =>
      let '(m, ok) := meter_charge m which amount in ok :: charge_answers m l
  end.

(** The amount admitted on one counter, given the answers. *)
Fixpoint admitted (which : MeterCounter) (l : list (MeterCounter * N)) (answers : list bool) : N :=
  match l, answers with
  | (k, amount) :: l, ok :: answers =>
      ((if bool_decide (k = which) && ok then amount else 0) + admitted which l answers)%N
  | _, _ => 0%N
  end.

Lemma meter_charge_counter m k amount which m' ok :
  meter_charge m k amount = (m', ok) →
  (meter_counter m' which).(sc_maximum) = (meter_counter m which).(sc_maximum) ∧
  (meter_counter m' which).(sc_used) =
    ((meter_counter m which).(sc_used) + (if bool_decide (k = which) && ok then amount else 0))%N.
Proof.
  assert (Hc : ∀ c c' b, charge c amount = (c', b) → c'.(sc_maximum) = c.(sc_maximum) ∧
    c'.(sc_used) = (c.(sc_used) + if b : bool then amount else 0)%N).
  { intros c c' b. unfold charge. destruct (checked_add _ _ _) as [n|] eqn:E.
    - apply checked_add_Some in E as [-> _]. case_match; intros [= <- <-]; simpl; lia.
    - intros [= <- <-]. lia. }
  unfold meter_charge. destruct k, which; simpl; destruct (charge _ amount) as [c b] eqn:E;
    intros [= <- <-]; simpl; rewrite ?N.add_0_r; try done; by apply Hc.
Qed.

Lemma charge_all_counter l : ∀ m which,
  (meter_counter (charge_all m l) which).(sc_maximum) = (meter_counter m which).(sc_maximum) ∧
  (meter_counter (charge_all m l) which).(sc_used) =
    ((meter_counter m which).(sc_used) + admitted which l (charge_answers m l))%N.
Proof.
  induction l as [|[k amount] l IH]; intros m which; simpl; [lia|].
  destruct (meter_charge m k amount) as [m' ok] eqn:E. simpl.
  destruct (IH m' which) as [-> ->]. apply (meter_charge_counter _ _ _ which) in E as [-> ->]. lia.
Qed.

Lemma refused_charge m k amount m' :
  meter_charge m k amount = (m', false) →
  ((meter_counter m k).(sc_maximum) < (meter_counter m k).(sc_used) + amount ∨
   U32_MAX < (meter_counter m k).(sc_used) + amount)%N.
Proof.
  intros E. assert (Hs : snd (charge (meter_counter m k) amount) = false).
  { unfold meter_charge in E. destruct k; simpl; destruct (charge _ _); by simplify_eq/=. }
  apply not_true_iff_false in Hs. rewrite charge_spec in Hs. lia.
Qed.

Lemma refused_late l : ∀ m i which amount,
  l !! i = Some (which, amount) → charge_answers m l !! i = Some false →
  ((meter_counter m which).(sc_maximum) < (meter_counter (charge_all m l) which).(sc_used) + amount ∨
   U32_MAX < (meter_counter (charge_all m l) which).(sc_used) + amount)%N.
Proof.
  induction l as [|[k n] l IH]; intros m i which amount; [done|].
  destruct (meter_charge m k n) as [m' ok] eqn:E. destruct i as [|i]; simpl; rewrite E; simpl.
  - intros [= -> ->] [= ->]. destruct (charge_all_counter l m' which) as [_ ->].
    apply refused_charge in E as Hr. apply (meter_charge_counter _ _ _ which) in E as [_ ->]. lia.
  - intros Hl Ha. specialize (IH m' i which amount Hl Ha).
    by apply (meter_charge_counter _ _ _ which) in E as [<- _].
Qed.

(** In any interleaving of charges of any number of roots on a new meter,
    each counter holds exactly the admitted amounts, never passes its maximum,
    and a charge was refused only if it does not even fit in what is left at
    the end. *)
Theorem meter_accounts dispatches datastore_queries tuple_items l which :
  let m := work_meter_new dispatches datastore_queries tuple_items in
  let c := meter_counter (charge_all m l) which in
  let answers := charge_answers m l in
  c.(sc_used) = admitted which l answers ∧
  (admitted which l answers <= (meter_counter m which).(sc_maximum))%N ∧
  ∀ i amount, l !! i = Some (which, amount) → answers !! i = Some false →
    ((meter_counter m which).(sc_maximum) < c.(sc_used) + amount ∨ U32_MAX < c.(sc_used) + amount)%N.
Proof.
  intros m c answers. subst answers. destruct (charge_all_counter l m which) as [Hmax Hused].
  assert (Hzero : sc_used (meter_counter m which) = 0%N) by by destruct which.
  assert (Hok : counter_ok c).
  { assert (meter_ok (charge_all m l)) as (? & ? & ?); [|by destruct which].
    apply charge_all_ok. unfold meter_ok, counter_ok. simpl. lia. }
  unfold counter_ok, c in *. rewrite Hzero, N.add_0_l in Hused. split_and!; [done| |].
  - by rewrite <-Hmax, <-Hused.
  - intros i amount. apply refused_late.
Qed.
