(* ===== verification/Reducer.v ===== *)
(** * Decisions, evaluator errors and operand reducers

    [crates/openfga-check/src/{error,outcome}.rs] and the [Decision] and
    [Reducer] of [evaluator.rs].  A reducer collects the outcomes of the
    operands of one work item as they complete, in any order, and answers as
    soon as the outcomes seen so far force its result. *)

From S2P Require Import Prelude Ordered Identifier Reference Condition Storage Model TupleValidation.

(** ** Errors *)

Inductive CheckErrorKind :=
| KInvalidModel | KInvalidTuple | KDepthExceeded | KDispatchExceeded | KDatastoreQueryExceeded
| KTupleItemExceeded | KConditionCostExceeded | KCondition | KStorageUnavailable | KTimeout
| KCancelled | KInternal.

#[export] Instance CheckErrorKind_eq_dec : EqDecision CheckErrorKind.
Proof. solve_decision. Defined.

Inductive CheckErrorSource :=
| SrcStorage (e : StorageError)
| SrcCondition (e : EvaluationErrorKind)
| SrcModel (e : ModelLookupError)
| SrcTupleValidation (e : TupleValidationError).

Record CheckError := mkCheckError {
  ck_kind : CheckErrorKind;
  ck_code : string;
  ck_source : option CheckErrorSource;
}.

Definition check_error (kind : CheckErrorKind) (code : string) : CheckError :=
  mkCheckError kind code None.
Definition model_error (code : string) (source : ModelLookupError) : CheckError :=
  mkCheckError KInvalidModel code (Some (SrcModel source)).
Definition condition_error (source : EvaluationErrorKind) : CheckError :=
  mkCheckError KCondition "condition_evaluation_failed" (Some (SrcCondition source)).
Definition with_code (e : CheckError) (code : string) : CheckError :=
  mkCheckError e.(ck_kind) code e.(ck_source).

(** [From<StorageError>] *)
Definition storage_check_kind (kind : StorageErrorKind) : CheckErrorKind :=
  match kind with
  | SCancelled => KCancelled
  | STimeout => KTimeout
  | SUnavailable => KStorageUnavailable
  | SResourceExhausted => KTupleItemExceeded
  | SNotFound | SAlreadyExists | SConflict | SInvalidContinuation | SIntegrity | SInternal =>
      KInternal
  end.
Definition storage_check_error (source : StorageError) : CheckError :=
  mkCheckError (storage_check_kind source.(se_kind)) "tuple_storage_failed"
    (Some (SrcStorage source)).

(** [From<TupleValidationError>] *)
Definition tuple_check_error (source : TupleValidationError) : CheckError :=
  mkCheckError (match source.(tv_kind) with
                | TVQuery => KInvalidModel
                | TVRelationship => KInvalidTuple
                | TVCompiledModel => KInternal
                end) source.(tv_code) (Some (SrcTupleValidation source)).

Definition depth_exceeded : CheckError := check_error KDepthExceeded "check_depth_exceeded".
Definition dispatch_exceeded : CheckError := check_error KDispatchExceeded "check_dispatch_exceeded".
Definition datastore_exceeded : CheckError :=
  check_error KDatastoreQueryExceeded "check_datastore_query_exceeded".
Definition tuple_items_exceeded : CheckError :=
  check_error KTupleItemExceeded "check_tuple_items_exceeded".
Definition condition_cost_exceeded : CheckError :=
  check_error KConditionCostExceeded "check_condition_cost_exceeded".
Definition cancelled (code : string) : CheckError := check_error KCancelled code.
Definition timed_out (code : string) : CheckError := check_error KTimeout code.
Definition internal (code : string) : CheckError := check_error KInternal code.

Definition map_read_error (e : StorageError) : CheckError :=
  if bool_decide (e.(se_kind) = SResourceExhausted) then tuple_items_exceeded
  else storage_check_error e.

Definition CHECK_CANCELLED_CODE : string := "check_cancelled".
Definition CHECK_DEADLINE_ELAPSED_CODE : string := "check_deadline_elapsed".

Definition canonicalize_check_control_error (e : CheckError) : CheckError :=
  match e.(ck_kind) with
  | KCancelled => with_code e CHECK_CANCELLED_CODE
  | KTimeout => with_code e CHECK_DEADLINE_ELAPSED_CODE
  | _ => e
  end.

(** ** Decisions *)

Inductive CheckResolution :=
| RCached | RDenied | RUnreachable | RCycle | RDirect | RComputed | RTupleToUserset | RUnion
| RIntersection | RDifference.

#[export] Instance CheckResolution_eq_dec : EqDecision CheckResolution.
Proof. solve_decision. Defined.

Record Decision := mkDecision { allowed : bool; resolution : CheckResolution }.

#[export] Instance Decision_eq_dec : EqDecision Decision.
Proof. solve_decision. Defined.

Definition allow (r : CheckResolution) : Decision := mkDecision true r.
Definition deny (r : CheckResolution) : Decision := mkDecision false r.

Definition Evaluation := result CheckError Decision.

Definition is_allowed (e : Evaluation) : bool :=
  match e with Ok d => d.(allowed) | Err _ => false end.
Definition is_denied (e : Evaluation) : bool :=
  match e with Ok d => negb d.(allowed) | Err _ => false end.

Definition map_resolution (outcome : Evaluation) (r : option CheckResolution) : Evaluation :=
  (fun d => if d.(allowed) then match r with Some r => allow r | None => d end else d) <$> outcome.

(** ** The reducer *)

Inductive ReducerKind := RkSingle | RkUnion | RkIntersection | RkDifference.

Record Reducer := mkReducer {
  rd_kind : ReducerKind;
  rd_resolution : option CheckResolution;
  rd_outcomes : list (option Evaluation);
  rd_remaining : nat;
}.

Definition reducer_new (kind : ReducerKind) (operands : nat) (r : option CheckResolution) : Reducer :=
  mkReducer kind r (replicate operands None) operands.

Definition set_outcomes (r : Reducer) (l : list (option Evaluation)) : Reducer :=
  mkReducer r.(rd_kind) r.(rd_resolution) l r.(rd_remaining).

(** [Reducer::take] empties the slot it returns. *)
Definition take_outcome (r : Reducer) (operand : nat) : Reducer * result CheckError Evaluation :=
  match r.(rd_outcomes) !! operand with
  | Some (Some e) => (set_outcomes r (<[operand := None]> r.(rd_outcomes)), Ok e)
  | _ => (r, Err (internal "reducer_outcome_missing"))
  end.

(** [Reducer::take_first_error]: the error of the lowest operand. *)
Fixpoint take_error (l : list (option Evaluation)) : list (option Evaluation) * option CheckError :=
  match l with
  | [] => ([], None)
  | Some (Err e) :: l => (None :: l, Some e)
  | o :: l => let '(l', e) := take_error l in (o :: l', e)
  end.
Definition take_first_error (r : Reducer) : Reducer * option CheckError :=
  let '(l, e) := take_error r.(rd_outcomes) in (set_outcomes r l, e).

Definition any_outcome (p : Evaluation → bool) (l : list (option Evaluation)) : bool :=
  existsb (fun o => match o with Some e => p e | None => false end) l.

Definition outcome_is (p : Evaluation → bool) (o : option (option Evaluation)) : bool :=
  match o with Some (Some e) => p e | _ => false end.

Definition reduce_difference (r : Reducer) : Reducer * result CheckError (option Evaluation) :=
  if outcome_is is_denied (r.(rd_outcomes) !! 0) || outcome_is is_allowed (r.(rd_outcomes) !! 1)
  then (r, Ok (Some (Ok (deny RDenied))))
  else if negb (r.(rd_remaining) =? 0) then (r, Ok None)
  else
    match take_first_error r with
    | (r, Some e) => (r, Ok (Some (Err e)))
    | (r, None) =>
        match take_outcome r 0 with
        | (r, Err x) => (r, Err x)
        | (r, Ok base) =>
            match take_outcome r 1 with
            | (r, Err x) => (r, Err x)
            | (r, Ok subtract) =>
                match base, subtract with
                | Ok b, Ok s =>
                    if b.(allowed) && negb s.(allowed)
                    then (r, Ok (Some (Ok (allow (default RDifference r.(rd_resolution))))))
                    else (r, Ok (Some (Ok (deny RDenied))))
                | _, _ => (r, Err (internal "difference_outcome_inconsistent"))
                end
            end
        end
    end.

Definition reduce (r : Reducer) : Reducer * result CheckError (option Evaluation) :=
  match r.(rd_kind) with
  | RkSingle =>
      if negb (r.(rd_remaining) =? 0) then (r, Ok None)
      else match take_outcome r 0 with
           | (r, Err x) => (r, Err x)
           | (r, Ok outcome) => (r, Ok (Some (map_resolution outcome r.(rd_resolution))))
           end
  | RkUnion =>
      if any_outcome is_allowed r.(rd_outcomes)
      then (r, Ok (Some (Ok (allow (default RUnion r.(rd_resolution))))))
      else if negb (r.(rd_remaining) =? 0) then (r, Ok None)
      else match take_first_error r with
           | (r, Some e) => (r, Ok (Some (Err e)))
           | (r, None) => (r, Ok (Some (Ok (deny RDenied))))
           end
  | RkIntersection =>
      if any_outcome is_denied r.(rd_outcomes) then (r, Ok (Some (Ok (deny RDenied))))
      else if negb (r.(rd_remaining) =? 0) then (r, Ok None)
      else match take_first_error r with
           | (r, Some e) => (r, Ok (Some (Err e)))
           | (r, None) => (r, Ok (Some (Ok (allow (default RIntersection r.(rd_resolution))))))
           end
  | RkDifference => reduce_difference r
  end.

Definition accept (r : Reducer) (operand : nat) (outcome : Evaluation) :
    Reducer * result CheckError (option Evaluation) :=
  match r.(rd_outcomes) !! operand with
  | None => (r, Err (internal "reducer_operand_invalid"))
  | Some (Some _) => (r, Err (internal "reducer_operand_completed_twice"))
  | Some None =>
      let r := set_outcomes r (<[operand := Some outcome]> r.(rd_outcomes)) in
      match r.(rd_remaining) with
      | 0 => (r, Err (internal "reducer_remaining_underflow"))
      | S n => reduce (mkReducer r.(rd_kind) r.(rd_resolution) r.(rd_outcomes) n)
      end
  end.

(** ** What a reducer computes

    [combine] is the result of a node from the outcomes of all its operands:
    an operand that forces the result wins over errors, otherwise the error of
    the lowest operand is reported. *)

Fixpoint first_error (es : list Evaluation) : option CheckError :=
  match es with
  | [] => None
  | Err e :: _ => Some e
  | Ok _ :: es => first_error es
  end.

Definition or_first_error (es : list Evaluation) (d : Decision) : Evaluation :=
  match first_error es with Some e => Err e | None => Ok d end.

Definition combine (kind : ReducerKind) (r : option CheckResolution) (es : list Evaluation) :
    Evaluation :=
  match kind with
  | RkSingle => match es with
                | e :: _ => map_resolution e r
                | [] => Err (internal "reducer_outcome_missing")
                end
  | RkUnion =>
      if existsb is_allowed es then Ok (allow (default RUnion r))
      else or_first_error es (deny RDenied)
  | RkIntersection =>
      if existsb is_denied es then Ok (deny RDenied)
      else or_first_error es (allow (default RIntersection r))
  | RkDifference =>
      if match es with b :: s :: _ => is_denied b || is_allowed s | _ => false end
      then Ok (deny RDenied)
      else or_first_error es (allow (default RDifference r))
  end.

Definition arity_ok (kind : ReducerKind) (n : nat) : Prop :=
  match kind with RkSingle => n = 1 | RkUnion | RkIntersection => 1 ≤ n | RkDifference => n = 2 end.

(** Outcomes seen so far, of operands whose final outcomes are [es]. *)
Definition seen (o : option Evaluation) (e : Evaluation) : Prop := o = None ∨ o = Some e.

Fixpoint missing (l : list (option Evaluation)) : nat :=
  match l with [] => 0 | None :: l => S (missing l) | Some _ :: l => missing l end.

Definition reducer_wf (r : Reducer) : Prop :=
  arity_ok r.(rd_kind) (length r.(rd_outcomes)) ∧ r.(rd_remaining) = missing r.(rd_outcomes).

Lemma missing_0 l es : Forall2 seen l es → missing l = 0 → l = Some <$> es.
Proof.
  induction 1 as [|o e l es Ho _ IH]; simpl; [done|]. destruct o as [e'|]; [|done].
  intros ->%IH. destruct Ho as [|[= ->]]; done.
Qed.

Lemma missing_insert l i e : l !! i = Some None → missing l = S (missing (<[i := Some e]> l)).
Proof.
  revert i. induction l as [|o l IH]; intros [|i]; simpl; try done.
  - by intros [= ->].
  - intros E. destruct o; rewrite (IH i E); done.
Qed.

Lemma missing_replicate n : missing (replicate n None) = n.
Proof. induction n; simpl; auto. Qed.

Lemma seen_replicate es : Forall2 seen (replicate (length es) None) es.
Proof. induction es; simpl; constructor; [by left | done]. Qed.

Lemma any_outcome_seen p l es :
  Forall2 seen l es → any_outcome p l = true → existsb p es = true.
Proof.
  unfold any_outcome. induction 1 as [|o e l es Ho _ IH]; simpl; [done|].
  rewrite !orb_true_iff. intros [?|?]; [left | right; auto].
  destruct Ho as [-> | ->]; done.
Qed.

Lemma any_outcome_all p es : any_outcome p (Some <$> es) = existsb p es.
Proof. unfold any_outcome. induction es; simpl; f_equal; auto. Qed.

Lemma take_error_all es : snd (take_error (Some <$> es)) = first_error es.
Proof.
  induction es as [|[d|e] es IH]; [done| |done]. rewrite fmap_cons. cbn.
  rewrite <-IH. by destruct (take_error _).
Qed.

Lemma take_error_none es : first_error es = None → take_error (Some <$> es) = (Some <$> es, None).
Proof.
  induction es as [|[d|e] es IH]; intros E; [done| |done]. rewrite fmap_cons. cbn.
  by rewrite IH.
Qed.

Lemma take_first_error_all r es :
  r.(rd_outcomes) = Some <$> es →
  ∃ r', take_first_error r = (r', first_error es) ∧ (first_error es = None → r' = r).
Proof.
  intros Ho. unfold take_first_error. rewrite Ho.
  destruct (take_error (Some <$> es)) as [l' e'] eqn:E.
  pose proof (take_error_all es) as Hs. rewrite E in Hs. simpl in Hs. subst e'.
  eexists. split; [done|]. intros Hn. rewrite take_error_none in E by done. simplify_eq.
  destruct r. unfold set_outcomes. simpl in *. by rewrite <-Ho.
Qed.

Ltac reduced :=
  eexists _, _; split; [reflexivity|]; first [done | split; [done | simpl in *; congruence]].

Lemma reduce_difference_combine r b s :
  Forall2 seen r.(rd_outcomes) [b; s] → r.(rd_remaining) = missing r.(rd_outcomes) →
  ∃ r' o, reduce_difference r = (r', Ok o) ∧
    match o with
    | Some e => e = combine RkDifference r.(rd_resolution) [b; s]
    | None => r' = r ∧ missing r.(rd_outcomes) ≠ 0
    end.
Proof.
  intros Hs Hrem. unfold reduce_difference, combine.
  pose proof Hs as Hs'. apply Forall2_cons_inv_r in Hs' as (o0 & l1 & H0 & Hs' & Hl).
  apply Forall2_cons_inv_r in Hs' as (o1 & l2 & H1 & Hs' & ->). apply Forall2_nil_inv_r in Hs' as ->.
  rewrite Hl. simpl.
  assert (Hshort : (match o0 with Some e => is_denied e | None => false end
                    || match o1 with Some e => is_allowed e | None => false end) = true →
                   is_denied b || is_allowed s = true).
  { rewrite !orb_true_iff. destruct H0 as [-> | ->], H1 as [-> | ->]; naive_solver. }
  destruct (_ || _) eqn:Eshort.
  { rewrite (Hshort eq_refl). reduced. }
  rewrite Hrem, Hl. destruct (missing [o0; o1]) eqn:Em; cbn [Nat.eqb negb]; [|reduced].
  destruct H0 as [-> | ->], H1 as [-> | ->]; simpl in Em; try done.
  rewrite Eshort. unfold or_first_error.
  destruct (take_first_error_all r [b; s]) as (r' & -> & Hr'); [done|].
  destruct (first_error [b; s]) eqn:Ef; [reduced|]. rewrite Hr' by done.
  destruct b as [b|], s as [s|]; try done. unfold take_outcome. rewrite Hl. simpl.
  simpl in Eshort. destruct (allowed b), (allowed s); try done. simpl. reduced.
Qed.

(** One reduction of a well-formed reducer either answers what the complete
    outcomes would give or is still waiting for an operand. *)
Lemma reduce_combine r es :
  arity_ok r.(rd_kind) (length es) → Forall2 seen r.(rd_outcomes) es →
  r.(rd_remaining) = missing r.(rd_outcomes) →
  ∃ r' o, reduce r = (r', Ok o) ∧
    match o with
    | Some e => e = combine r.(rd_kind) r.(rd_resolution) es
    | None => r' = r ∧ missing r.(rd_outcomes) ≠ 0
    end.
Proof.
  intros Har Hs Hrem. unfold reduce. destruct (rd_kind r) eqn:Ek; simpl in Har.
  - destruct es as [|e [|]]; try done. rewrite Hrem.
    destruct (missing (rd_outcomes r)) eqn:Em; cbn [Nat.eqb negb]; [|reduced].
    pose proof (missing_0 _ _ Hs Em) as Ho. unfold take_outcome. rewrite Ho. simpl. reduced.
  - destruct (any_outcome is_allowed (rd_outcomes r)) eqn:Ea.
    { simpl. rewrite (any_outcome_seen _ _ _ Hs Ea). reduced. }
    rewrite Hrem. destruct (missing (rd_outcomes r)) eqn:Em; cbn [Nat.eqb negb]; [|reduced].
    pose proof (missing_0 _ _ Hs Em) as Ho. rewrite Ho, any_outcome_all in Ea. unfold combine. rewrite Ea.
    unfold or_first_error. destruct (take_first_error_all r es Ho) as (r' & -> & _).
    destruct (first_error es); reduced.
  - destruct (any_outcome is_denied (rd_outcomes r)) eqn:Ea.
    { simpl. rewrite (any_outcome_seen _ _ _ Hs Ea). reduced. }
    rewrite Hrem. destruct (missing (rd_outcomes r)) eqn:Em; cbn [Nat.eqb negb]; [|reduced].
    pose proof (missing_0 _ _ Hs Em) as Ho. rewrite Ho, any_outcome_all in Ea. unfold combine. rewrite Ea.
    unfold or_first_error. destruct (take_first_error_all r es Ho) as (r' & -> & Hr').
    destruct (first_error es); [reduced|]. rewrite Hr' by done. reduced.
  - destruct es as [|b [|s [|]]]; try done. by apply reduce_difference_combine.
Qed.

Lemma accept_combine r i e es :
  arity_ok r.(rd_kind) (length es) → Forall2 seen r.(rd_outcomes) es →
  r.(rd_remaining) = missing r.(rd_outcomes) →
  r.(rd_outcomes) !! i = Some None → es !! i = Some e →
  let outs := <[i := Some e]> r.(rd_outcomes) in
  ∃ r' o, accept r i e = (r', Ok o) ∧
    match o with
    | Some x => x = combine r.(rd_kind) r.(rd_resolution) es
    | None => r' = mkReducer r.(rd_kind) r.(rd_resolution) outs (missing outs) ∧ missing outs ≠ 0
    end.
Proof.
  intros Har Hs Hrem Hi He outs. unfold accept. rewrite Hi. simpl.
  rewrite Hrem, (missing_insert _ _ e Hi). fold outs.
  assert (Hs' : Forall2 seen outs es).
  { unfold outs. rewrite <-(list_insert_id es i e He).
    apply Forall2_insert; [done | by right]. }
  destruct (reduce_combine (mkReducer (rd_kind r) (rd_resolution r) outs (missing outs)) es)
    as (r' & o & -> & Ho); [done..|]. by exists r', o.
Qed.

(** Feeding outcomes one at a time until the reducer answers. *)
Fixpoint feed (r : Reducer) (l : list (nat * Evaluation)) : result CheckError (option Evaluation) :=
  match l with
  | [] => Ok None
  | (i, e) :: l =>
      match accept r i e with
      | (_, Err x) => Err x
      | (_, Ok (Some o)) => Ok (Some o)
      | (r, Ok None) => feed r l
      end
  end.

Lemma feed_pending l r es :
  arity_ok r.(rd_kind) (length es) → Forall2 seen r.(rd_outcomes) es →
  r.(rd_remaining) = missing r.(rd_outcomes) → NoDup l.*1 →
  (∀ i e, (i, e) ∈ l → r.(rd_outcomes) !! i = Some None ∧ es !! i = Some e) →
  missing r.(rd_outcomes) = length l → l ≠ [] →
  feed r l = Ok (Some (combine r.(rd_kind) r.(rd_resolution) es)).
Proof.
  revert r. induction l as [|[i e] l IH]; intros r Har Hs Hrem Hnd Hl Hmiss Hne; [done|].
  destruct (Hl i e) as [Hi He]; [by left|]. rewrite fmap_cons in Hnd. simpl in Hnd.
  apply NoDup_cons in Hnd as [Hni Hnd].
  destruct (accept_combine r i e es) as (r' & o & Ha & Ho); [done..|]. cbn -[accept]. rewrite Ha.
  destruct o as [x|]; [by subst|]. destruct Ho as [-> Hm].
  pose proof (missing_insert _ _ e Hi) as Hdec. simpl in Hmiss.
  rewrite IH; simpl; try done.
  - rewrite <-(list_insert_id es i e He). apply Forall2_insert; [done | by right].
  - intros j e' Hj. destruct (Hl j e') as [Hj1 Hj2]; [by right|]. split; [|done].
    rewrite list_lookup_insert_ne; [done|]. intros ->. apply Hni.
    apply list_elem_of_fmap. by exists (j, e').
  - lia.
  - intros ->. simpl in *. lia.
Qed.

Definition operands (es : list Evaluation) : list (nat * Evaluation) := zip (seq 0 (length es)) es.

Lemma operands_elem es i e : (i, e) ∈ operands es → es !! i = Some e.
Proof.
  unfold operands. intros [k Hk]%list_elem_of_lookup.
  apply lookup_zip_with_Some in Hk as (a & b & [= -> ->] & Ha & Hb).
  apply lookup_seq in Ha as [-> _]. done.
Qed.

Lemma operands_fst es : (operands es).*1 = seq 0 (length es).
Proof. unfold operands. rewrite fst_zip; [done|]. by rewrite length_seq. Qed.

(** A node gives the same outcome whatever the order in which its operands
    complete, and decides early exactly on the operands that determine it:
    feeding the outcomes in any order ends with their combination. *)
Theorem reducer_order_independent kind res es order :
  arity_ok kind (length es) → order ≡ₚ operands es →
  feed (reducer_new kind (length es) res) order = Ok (Some (combine kind res es)).
Proof.
  intros Har Hp. rewrite (feed_pending order _ es); simpl; try done.
  - apply seen_replicate.
  - by rewrite missing_replicate.
  - rewrite Hp, operands_fst. apply NoDup_seq.
  - intros i e Hi. rewrite Hp in Hi. apply operands_elem in Hi as He. split; [|done].
    apply lookup_replicate_2. by eapply lookup_lt_Some.
  - rewrite Hp, missing_replicate. unfold operands. rewrite length_zip_with, length_seq. lia.
  - intros ->. apply Permutation_nil_l in Hp. unfold operands in Hp.
    destruct es; [|done]. by destruct kind; simpl in Har; try lia.
Qed.

Lemma reducer_order_independent_witness :
  feed (reducer_new RkDifference 2 (Some RDifference))
    [(1, Ok (deny RDenied)); (0, Ok (allow RDirect))] = Ok (Some (Ok (allow RDifference))).
Proof.
  exact (reducer_order_independent RkDifference (Some RDifference)
           [Ok (allow RDirect); Ok (deny RDenied)]
           [(1, Ok (deny RDenied)); (0, Ok (allow RDirect))] ltac:(done) ltac:(apply perm_swap)).
Defined.
