(* ===== verification/Scheduler.v ===== *)
(** * The check scheduler

    The iterative evaluator of [crates/openfga-check/src/evaluator.rs]: work
    slots linked to their parents, a ready queue, in-flight datastore reads and
    a per-root memo.  Everything the scheduler cannot determine itself (the
    clock, cancellation, which read completes next, what a read returns, what
    other roots charge to a shared meter) is an answer of a [World], indexed by
    the number of questions asked so far; theorems quantify over all worlds. *)

From S2P Require Import Prelude Ordered Identifier Reference Condition Storage Model TupleValidation Budget.
From S2P Require Import Reducer.

(** ** Work items *)

Abbreviation WorkId := nat.

Record SemanticKey := mkSemanticKey {
  sk_object : ObjectRef;
  sk_relation : RelationId;
  sk_subject : SubjectRef;
}.

Definition semantic_key_key (k : SemanticKey) : ObjectRef * (nat * SubjectRef) :=
  (k.(sk_object), (k.(sk_relation), k.(sk_subject))).
#[export] Instance semantic_key_key_inj : Inj (=) (=) semantic_key_key.
Proof. intros [] [] [= -> -> ->]. done. Qed.
#[export] Instance SemanticKey_eq_dec : EqDecision SemanticKey.
Proof. solve_decision. Defined.
#[export] Instance ord_SemanticKey : Ord SemanticKey := ord_via semantic_key_key.
#[export] Instance ord_laws_SemanticKey : OrdLaws SemanticKey := ord_laws_via semantic_key_key.

Record SemanticWork := mkSemanticWork {
  sw_object : ObjectRef;
  sw_relation : RelationId;
  sw_subject : SubjectRef;
  sw_path : BTreeSet SemanticKey;
  sw_depth : N;
}.

Record RewriteWork := mkRewriteWork {
  rw_object : ObjectRef;
  rw_node : NodeId;
  rw_subject : SubjectRef;
  rw_path : BTreeSet SemanticKey;
  rw_depth : N;
}.

Inductive WorkKind := WSemantic (w : SemanticWork) | WRewrite (w : RewriteWork).

Record ParentLink := mkParentLink { pl_work : WorkId; pl_operand : nat }.

Record DirectRead := mkDirectRead {
  drd_relation : RelationId;
  drd_object : ObjectRef;
  drd_subject : SubjectRef;
  drd_path : BTreeSet SemanticKey;
  drd_depth : N;
}.

Record TtuRead := mkTtuRead {
  trd_tupleset : RelationId;
  trd_targets : list RelationId;
  trd_object : ObjectRef;
  trd_subject : SubjectRef;
  trd_path : BTreeSet SemanticKey;
  trd_depth : N;
}.

Inductive ReadContinuation := ContDirect (r : DirectRead) | ContTtu (r : TtuRead).

Inductive WorkState :=
| Queued (k : WorkKind)
| Processing
| Waiting (r : Reducer)
| Reading (c : ReadContinuation)
| Completed.

Record MemoKey := mkMemoKey {
  mk_semantic : SemanticKey;
  mk_branch_path : BTreeSet SemanticKey;
}.

Definition memo_key_key (k : MemoKey) : SemanticKey * list SemanticKey :=
  (k.(mk_semantic), k.(mk_branch_path)).
#[export] Instance memo_key_key_inj : Inj (=) (=) memo_key_key.
Proof. intros [] [] [= -> ->]. done. Qed.
#[export] Instance ord_MemoKey : Ord MemoKey := ord_via memo_key_key.
#[export] Instance ord_laws_MemoKey : OrdLaws MemoKey := ord_laws_via memo_key_key.

Record WorkSlot := mkWorkSlot {
  ws_parent : option ParentLink;
  ws_memo_key : option MemoKey;
  ws_state : WorkState;
}.

Inductive Candidate := CImmediate (e : Evaluation) | CSemantic (w : SemanticWork).

Record Counters := mkCounters {
  dispatches : N;
  datastore_queries : N;
  tuple_items : N;
  condition_cost : N;
  cycles : N;
  deepest : N;
}.

Definition counters_default : Counters := mkCounters 0 0 0 0 0 0.

(** ** The contextual index *)

Definition ContextualIndex := BTreeMap (ObjectRef * RelationName) (list RelationshipTuple).

(** [entry(key).or_default().push(tuple)] *)
Definition index_push (index : ContextualIndex) (t : RelationshipTuple) : ContextualIndex :=
  let key := (t.(rt_key).(tk_object), t.(rt_key).(tk_relation)) in
  bt_insert key (default [] (bt_get key index) ++ [t]) index.

(** [ContextualIndex::new]: overlay tuples replace base tuples of the same key. *)
Definition contextual_index_new (base : list RelationshipTuple)
    (overlay : option (list RelationshipTuple)) : ContextualIndex :=
  let insert_all := foldl (fun m t => bt_insert t.(rt_key) t m) in
  let tuples : BTreeMap TupleKey RelationshipTuple := insert_all [] base in
  let tuples := match overlay with Some overlay => insert_all tuples overlay | None => tuples end in
  foldl index_push [] (bt_values tuples).

Definition index_get (index : ContextualIndex) (object : ObjectRef) (relation : RelationName) :
    list RelationshipTuple :=
  default [] (bt_get (object, relation) index).

Definition index_values (index : ContextualIndex) : list RelationshipTuple :=
  mjoin (bt_values index).

(** ** Reads and the world *)

Inductive ReadProgress :=
| ReadPending (filter : ObjectRelationFilter)
| ReadDone (rows : result CheckError (list RelationshipTuple)).

Record ReadTask := mkReadTask { rk_work : WorkId; rk_progress : ReadProgress }.

(** What the [select!] of the drive loop observes. *)
Inductive SelectEvent := SelCancelled | SelDeadline | SelJoined (i : nat) | SelPanicked (i : nat).

Record World := mkWorld {
  w_cancelled : nat → bool;
  w_now : nat → N;
  w_poll : nat → nat → bool;
  w_select : nat → SelectEvent;
  w_tasks : nat → list nat;
  w_read : nat → StoreId → ObjectRelationFilter → N → result StorageError TupleStream;
  w_charges : nat → list (MeterCounter * N);
}.

(** ** Scheduler state *)

Record Scheduler := mkScheduler {
  counters : Counters;
  memo : BTreeMap MemoKey Decision;
  slots : list WorkSlot;
  ready : list WorkId;
  reads : list ReadTask;
  root_result : option Evaluation;
  work_meter : option CheckWorkMeter;
  tick : nat;
}.

Definition set_counters (c : Counters) (s : Scheduler) : Scheduler :=
  mkScheduler c s.(memo) s.(slots) s.(ready) s.(reads) s.(root_result) s.(work_meter) s.(tick).
Definition set_memo (m : BTreeMap MemoKey Decision) (s : Scheduler) : Scheduler :=
  mkScheduler s.(counters) m s.(slots) s.(ready) s.(reads) s.(root_result) s.(work_meter) s.(tick).
Definition set_slots (l : list WorkSlot) (s : Scheduler) : Scheduler :=
  mkScheduler s.(counters) s.(memo) l s.(ready) s.(reads) s.(root_result) s.(work_meter) s.(tick).
Definition set_ready (l : list WorkId) (s : Scheduler) : Scheduler :=
  mkScheduler s.(counters) s.(memo) s.(slots) l s.(reads) s.(root_result) s.(work_meter) s.(tick).
Definition set_reads (l : list ReadTask) (s : Scheduler) : Scheduler :=
  mkScheduler s.(counters) s.(memo) s.(slots) s.(ready) l s.(root_result) s.(work_meter) s.(tick).
Definition set_root_result (r : option Evaluation) (s : Scheduler) : Scheduler :=
  mkScheduler s.(counters) s.(memo) s.(slots) s.(ready) s.(reads) r s.(work_meter) s.(tick).
Definition set_work_meter (m : option CheckWorkMeter) (s : Scheduler) : Scheduler :=
  mkScheduler s.(counters) s.(memo) s.(slots) s.(ready) s.(reads) s.(root_result) m s.(tick).
Definition set_tick (t : nat) (s : Scheduler) : Scheduler :=
  mkScheduler s.(counters) s.(memo) s.(slots) s.(ready) s.(reads) s.(root_result) s.(work_meter) t.

(** The mutable part of [Scheduler::new]. *)
Definition scheduler_new (meter : option CheckWorkMeter) : Scheduler :=
  mkScheduler counters_default [] [] [] [] None meter 0.

(** ** The scheduler monad

    Mutations made before an error stay visible, as they do in the source when
    a caller handles the error.  [OutOfFuel] is the fault of a loop whose bound
    was too small; it is distinct from every evaluator error. *)

Inductive Fault := Fail (e : CheckError) | OutOfFuel.

Definition M (A : Type) : Type := Scheduler → Scheduler * result Fault A.

#[export] Instance M_ret : MRet M := fun A a s => (s, Ok a).
#[export] Instance M_bind : MBind M := fun A B f m s =>
  match m s with
  | (s, Ok a) => f a s
  | (s, Err e) => (s, Err e)
  end.

Definition get_state : M Scheduler := fun s => (s, Ok s).
Definition modify (f : Scheduler → Scheduler) : M () := fun s => (f s, Ok ()).
Definition fail {A} (e : CheckError) : M A := fun s => (s, Err (Fail e)).
Definition lift {A} (r : result CheckError A) : M A := fun s => (s, map_err Fail r).
Definition out_of_fuel {A} : M A := fun s => (s, Err OutOfFuel).

(** Handling an evaluator error where the source matches on a [Result]. *)
Definition catch {A} (m : M A) : M (result CheckError A) := fun s =>
  match m s with
  | (s, Ok a) => (s, Ok (Ok a))
  | (s, Err (Fail e)) => (s, Ok (Err e))
  | (s, Err OutOfFuel) => (s, Err OutOfFuel)
  end.

(** The index of the next answer of the world. *)
Definition next_tick : M nat := fun s => (set_tick (S s.(tick)) s, Ok s.(tick)).

Definition upd_counters (f : Counters → Counters) : M () :=
  modify (fun s => set_counters (f s.(counters)) s).

(** ** Reasoning about the monad *)

Lemma bind_run {A B} (m : M A) (f : A → M B) s :
  (m ≫= f) s = match m s with (s1, Ok a) => f a s1 | (s1, Err e) => (s1, Err e) end.
Proof. done. Qed.

Lemma bind_ok {A B} (m : M A) (f : A → M B) s s' b :
  (m ≫= f) s = (s', Ok b) ↔ ∃ a s1, m s = (s1, Ok a) ∧ f a s1 = (s', Ok b).
Proof.
  unfold mbind, M_bind. destruct (m s) as [s1 [a|e]]; split.
  - intros E. by exists a, s1.
  - by intros (? & ? & [= <- <-] & E).
  - done.
  - by intros (? & ? & [=] & _).
Qed.

Lemma bind_err {A B} (m : M A) (f : A → M B) s s' e :
  (m ≫= f) s = (s', Err e) ↔
  m s = (s', Err e) ∨ ∃ a s1, m s = (s1, Ok a) ∧ f a s1 = (s', Err e).
Proof. unfold mbind, M_bind. destruct (m s) as [s1 [a|e']]; naive_solver. Qed.

Lemma ret_ok {A} (a a' : A) s s' : (mret a : M A) s = (s', Ok a') ↔ s' = s ∧ a' = a.
Proof. unfold mret, M_ret. naive_solver. Qed.

Lemma get_state_ok s s' a : get_state s = (s', Ok a) ↔ s' = s ∧ a = s.
Proof. unfold get_state. naive_solver. Qed.

Lemma modify_ok f s s' a : modify f s = (s', Ok a) ↔ s' = f s.
Proof. unfold modify. destruct a. naive_solver. Qed.

Lemma lift_ok {A} (r : result CheckError A) s s' a : lift r s = (s', Ok a) ↔ s' = s ∧ r = Ok a.
Proof. unfold lift. destruct r; simpl; naive_solver. Qed.

Lemma fail_ok {A} e s s' (a : A) : fail e s = (s', Ok a) ↔ False.
Proof. unfold fail. naive_solver. Qed.

Lemma next_tick_ok s s' t : next_tick s = (s', Ok t) ↔ s' = set_tick (S s.(tick)) s ∧ t = s.(tick).
Proof. unfold next_tick. naive_solver. Qed.

Lemma catch_ok {A} (m : M A) s s' r :
  catch m s = (s', Ok r) ↔
  m s = (s', match r with Ok a => Ok a | Err e => Err (Fail e) end).
Proof. unfold catch. destruct (m s) as [s1 [a|[e|]]], r; naive_solver. Qed.

(** Inverts the successful run of a monadic block, step by step. *)
Ltac m_step :=
  match goal with
  | u : unit |- _ => destruct u
  | Hm : (_ ≫= _) _ = (_, Ok _) |- _ =>
      let a := fresh "a" in let s1 := fresh "s" in
      let H1 := fresh "Hm" in let H2 := fresh "Hm" in
      apply bind_ok in Hm as (a & s1 & H1 & H2)
  | Hm : mret _ _ = (_, Ok _) |- _ => apply ret_ok in Hm as [? ?]; simplify_eq
  | Hm : get_state _ = (_, Ok _) |- _ => apply get_state_ok in Hm as [? ?]; simplify_eq
  | Hm : modify _ _ = (_, Ok _) |- _ => apply modify_ok in Hm; simplify_eq
  | Hm : upd_counters _ _ = (_, Ok _) |- _ => apply modify_ok in Hm; simplify_eq
  | Hm : lift _ _ = (_, Ok _) |- _ => apply lift_ok in Hm as [? ?]; simplify_eq
  | Hm : fail _ _ = (_, Ok _) |- _ => by apply fail_ok in Hm
  | Hm : out_of_fuel _ = (_, Ok _) |- _ => done
  | Hm : next_tick _ = (_, Ok _) |- _ => apply next_tick_ok in Hm as [? ?]; simplify_eq
  end.
Ltac m_inv := repeat m_step.

(** A reflexive and transitive relation every run of a block respects, whether
    it succeeds or fails. *)
Definition respects (R : Scheduler → Scheduler → Prop) {A} (m : M A) : Prop :=
  ∀ s s' r, m s = (s', r) → R s s'.

Section respects.
Context (R : Scheduler → Scheduler → Prop) `{!PreOrder R}.

Lemma respects_ret {A} (a : A) : respects R (mret a).
Proof. intros s s' r [= <- _]. done. Qed.
Lemma respects_get : respects R get_state.
Proof. intros s s' r [= <- _]. done. Qed.
Lemma respects_lift {A} (x : result CheckError A) : respects R (lift x).
Proof. intros s s' r [= <- _]. done. Qed.
Lemma respects_fail {A} e : respects R (@fail A e).
Proof. intros s s' r [= <- _]. done. Qed.
Lemma respects_fuel {A} : respects R (@out_of_fuel A).
Proof. intros s s' r [= <- _]. done. Qed.
Lemma respects_modify f : (∀ s, R s (f s)) → respects R (modify f).
Proof. intros Hf s s' r [= <- _]. done. Qed.
Lemma respects_bind {A B} (m : M A) (f : A → M B) :
  respects R m → (∀ a, respects R (f a)) → respects R (m ≫= f).
Proof.
  intros Hm Hf s s' r. unfold mbind, M_bind. destruct (m s) as [s1 [a|e]] eqn:E; intros E'.
  - etrans; [by eapply Hm | by eapply Hf].
  - simplify_eq. by eapply Hm.
Qed.
Lemma respects_catch {A} (m : M A) : respects R m → respects R (catch m).
Proof.
  intros Hm s s' r. unfold catch. destruct (m s) as [s1 [a|[e|]]] eqn:E; intros [= <- <-];
    by eapply Hm.
Qed.
End respects.

Section operations.
Context `{ConditionEngine}.

(** The fields of [Scheduler] no operation changes. *)
Record CheckEnv := mkCheckEnv {
  env_model : CompiledModel;
  env_budget : CheckBudget;
  env_input_limits : InputLimits;
  env_operation : OperationContext;
  env_contextual : ContextualIndex;
  env_condition_context : ConditionContext;
  env_maximum_results : N;
}.

Variable env : CheckEnv.
Variable w : World.

Abbreviation model := env.(env_model).
Abbreviation budget := env.(env_budget).

(** ** Restriction matching *)

Definition condition_requirement_matches (requirement : ConditionRequirement)
    (reference : ConditionReference) : result CheckError bool :=
  match requirement, reference with
  | ReqUnconditional, Unconditional => Ok true
  | Required id, Conditional binding =>
      c ← map_err (model_error "restriction_condition_invalid") (condition model id);
      Ok (bool_decide (condition_name c = binding.(cb_name)))
  | _, _ => Ok false
  end.

Fixpoint first_matching (subject_type : TypeId) (class : DirectClass) (c : ConditionReference)
    (restrictions : list DirectRestriction) : result CheckError (option DirectClass) :=
  match restrictions with
  | [] => Ok None
  | r :: rest =>
      if negb (bool_decide (r.(dr_subject_type) = subject_type))
         || negb (restriction_kind_matches r.(dr_kind) class)
      then first_matching subject_type class c rest
      else
        matches ← condition_requirement_matches r.(dr_condition) c;
        if (matches : bool) then Ok (Some class) else first_matching subject_type class c rest
  end.

Definition matching_restriction (t : RelationshipTuple) (restrictions : list DirectRestriction) :
    result CheckError (option DirectClass) :=
  match type_id model (subject_type t.(rt_key).(tk_subject)) with
  | Err _ => Ok None
  | Ok subject_type =>
      match t.(rt_key).(tk_subject) with
      | SubjObject _ => first_matching subject_type DCObject t.(rt_condition) restrictions
      | SubjWildcard _ => first_matching subject_type DCWildcard t.(rt_condition) restrictions
      | SubjUserset u =>
          match relation_id model u.(us_object).(object_type) u.(us_relation) with
          | Err _ => Ok None
          | Ok r => first_matching subject_type (DCUserset r) t.(rt_condition) restrictions
          end
      end
  end.

Definition wildcard_matches (tuple_subject query_subject : SubjectRef) : bool :=
  match tuple_subject, query_subject with
  | SubjWildcard ty, SubjObject o => bool_decide (ty = o.(object_type))
  | _, _ => false
  end.

Definition next_depth (depth : N) : result CheckError N :=
  ok_or (checked_add U32_MAX depth 1) depth_exceeded.

(** ** Context, slots and the meter *)

Definition check_context : M () :=
  t ← next_tick;
  lift (map_err storage_check_error (operation_check env.(env_operation) (w_cancelled w t) (w_now w t))).

Definition slot_mut (id : WorkId) : M WorkSlot :=
  s ← get_state; lift (ok_or (s.(slots) !! id) (internal "work_slot_invalid")).

Definition set_slot (id : WorkId) (slot : WorkSlot) : M () :=
  modify (fun s => set_slots (<[id := slot]> s.(slots)) s).

Definition set_state (id : WorkId) (state : WorkState) : M () :=
  slot ← slot_mut id; set_slot id (mkWorkSlot slot.(ws_parent) slot.(ws_memo_key) state).

(** A charge to the shared meter, after the charges of other roots and of
    reads still in flight that take effect before it; [true] without a meter. *)
Definition charge_meter (which : MeterCounter) (amount : N) : M bool :=
  s ← get_state;
  match s.(work_meter) with
  | None => mret true
  | Some meter =>
      t ← next_tick;
      let '(meter, ok) := meter_charge (charge_all meter (w_charges w t)) which amount in
      modify (set_work_meter (Some meter));;
      mret ok
  end.

(** [is_active]: walks to the root and reports a completed proper ancestor. *)
Fixpoint is_active_loop (fuel : nat) (l : list WorkSlot) (id current : WorkId) : result Fault bool :=
  match fuel with
  | 0 => Err OutOfFuel
  | S fuel =>
      match l !! current with
      | None => Err (Fail (internal "work_slot_invalid"))
      | Some slot =>
          if negb (current =? id) && (match slot.(ws_state) with Completed => true | _ => false end)
          then Ok false
          else match slot.(ws_parent) with
               | None => Ok true
               | Some parent => is_active_loop fuel l id parent.(pl_work)
               end
      end
  end.

Definition is_active (id : WorkId) : M bool := fun s =>
  (s, is_active_loop (S (length s.(slots))) s.(slots) id id).

(** ** Scheduling and completion *)

(** The admission of one more work item by the budget and the meter. *)
Definition charge_dispatch : M () :=
  s ← get_state;
  n ← lift (ok_or (checked_add U32_MAX s.(counters).(dispatches) 1) dispatch_exceeded);
  upd_counters (fun c => mkCounters n c.(datastore_queries) c.(tuple_items) c.(condition_cost)
                           c.(cycles) c.(deepest));;
  if (budget.(maximum_dispatches) <? n)%N then fail dispatch_exceeded
  else
    ok ← charge_meter MDispatches 1;
    if negb ok then fail dispatch_exceeded else mret ().

Definition schedule (kind : WorkKind) (parent : option ParentLink) : M WorkId :=
  charge_dispatch;;
  s ← get_state;
  let id := length s.(slots) in
  modify (set_slots (s.(slots) ++ [mkWorkSlot parent None (Queued kind)]));;
  modify (fun s => set_ready (s.(ready) ++ [id]) s);;
  mret id.

(** Decisions, not errors, are memoized. *)
Definition store_memo (key : option MemoKey) (outcome : Evaluation) : M () :=
  match key, outcome with
  | Some key, Ok d => modify (fun s => set_memo (bt_insert key d s.(memo)) s)
  | _, _ => mret ()
  end.

(** The loop of [complete]: stores the outcome, then walks up while parents
    are decided by it. *)
Fixpoint complete_loop (fuel : nat) (id : WorkId) (outcome : Evaluation) : M () :=
  match fuel with
  | 0 => out_of_fuel
  | S fuel =>
      slot ← slot_mut id;
      set_slot id (mkWorkSlot slot.(ws_parent) None Completed);;
      store_memo slot.(ws_memo_key) outcome;;
      match slot.(ws_parent) with
      | None => modify (set_root_result (Some outcome))
      | Some parent =>
          pslot ← slot_mut parent.(pl_work);
          match pslot.(ws_state) with
          | Waiting reducer =>
              let '(reducer, reduced) := accept reducer parent.(pl_operand) outcome in
              set_slot parent.(pl_work)
                (mkWorkSlot pslot.(ws_parent) pslot.(ws_memo_key) (Waiting reducer));;
              reduced ← lift reduced;
              match reduced with
              | None => mret ()
              | Some outcome => complete_loop fuel parent.(pl_work) outcome
              end
          | Completed => mret ()
          | _ => fail (internal "completion_parent_state_invalid")
          end
      end
  end.

Definition complete (id : WorkId) (outcome : Evaluation) : M () :=
  s ← get_state; complete_loop (S (length s.(slots))) id outcome.

Definition accept_operand (id : WorkId) (operand : nat) (outcome : Evaluation) : M () :=
  slot ← slot_mut id;
  match slot.(ws_state) with
  | Waiting reducer =>
      let '(reducer, reduced) := accept reducer operand outcome in
      set_slot id (mkWorkSlot slot.(ws_parent) slot.(ws_memo_key) (Waiting reducer));;
      reduced ← lift reduced;
      match reduced with
      | Some outcome => complete id outcome
      | None => mret ()
      end
  | _ => fail (internal "parent_reducer_state_invalid")
  end.

Definition schedule_child_or_error (parent : WorkId) (operand : nat) (kind : WorkKind) : M () :=
  r ← catch (schedule kind (Some (mkParentLink parent operand)));
  match r with
  | Ok _ => mret ()
  | Err e => accept_operand parent operand (Err e)
  end.

(** The child loops of [start_rewrite_children] and [process_difference]. *)
Fixpoint schedule_children (id : WorkId) (operand : nat) (kinds : list WorkKind) : M () :=
  match kinds with
  | [] => mret ()
  | k :: kinds =>
      active ← is_active id;
      if negb active then mret ()
      else schedule_child_or_error id operand k;; schedule_children id (S operand) kinds
  end.

Fixpoint start_candidates_loop (id : WorkId) (operand : nat) (candidates : list Candidate) : M () :=
  match candidates with
  | [] => mret ()
  | c :: candidates =>
      active ← is_active id;
      if negb active then mret ()
      else
        match c with
        | CImmediate outcome => accept_operand id operand outcome
        | CSemantic work => schedule_child_or_error id operand (WSemantic work)
        end;;
        start_candidates_loop id (S operand) candidates
  end.

Definition start_candidates (id : WorkId) (candidates : list Candidate) (r : CheckResolution) : M () :=
  match candidates with
  | [] => complete id (Ok (deny RDenied))
  | _ =>
      set_state id (Waiting (reducer_new RkUnion (length candidates) (Some r)));;
      start_candidates_loop id 0 candidates
  end.

(** ** Conditions *)

Definition evaluate_tuple_condition (t : RelationshipTuple) : M (option Evaluation) :=
  match t.(rt_condition) with
  | Unconditional => mret (Some (Ok (allow RDirect)))
  | Conditional binding =>
      check_context;;
      cid ← lift (map_err (model_error "tuple_condition_missing")
                    (condition_id model binding.(cb_name)));
      c ← lift (map_err (model_error "tuple_condition_invalid") (condition model cid));
      s ← get_state;
      match checked_sub budget.(maximum_condition_cost) s.(counters).(condition_cost) with
      | None => mret (Some (Err condition_cost_exceeded))
      | Some 0%N => mret (Some (Err condition_cost_exceeded))
      | Some remaining =>
          cb ← lift (ok_or (evaluation_budget_new remaining) condition_cost_exceeded);
          tk ← next_tick;
          let evaluated := evaluate c env.(env_condition_context) binding.(cb_context) cb (w_poll w tk) in
          check_context;;
          match evaluated with
          | Ok outcome =>
              cost ← lift (ok_or (try_u32 outcome.(outcome_cost)) condition_cost_exceeded);
              s ← get_state;
              total ← lift (ok_or (checked_add U32_MAX s.(counters).(condition_cost) cost)
                              condition_cost_exceeded);
              upd_counters (fun c => mkCounters c.(dispatches) c.(datastore_queries) c.(tuple_items)
                                       total c.(cycles) c.(deepest));;
              if (budget.(maximum_condition_cost) <? total)%N then fail condition_cost_exceeded
              else if outcome.(condition_met) then mret (Some (Ok (allow RDirect)))
              else mret None
          | Err ECostExceeded => mret (Some (Err condition_cost_exceeded))
          | Err ECancelled => mret (Some (Err (cancelled "condition_cancelled")))
          | Err e => mret (Some (Err (condition_error e)))
          end
      end
  end.

(** ** Completed reads *)

(** One row of [finish_direct]. *)
Definition direct_row (read : DirectRead) (restrictions : list DirectRestriction)
    (t : RelationshipTuple) : M (list Candidate) :=
  class ← lift (matching_restriction t restrictions);
  match class with
  | None => mret []
  | Some DCObject =>
      if bool_decide (t.(rt_key).(tk_subject) = read.(drd_subject)) then
        outcome ← evaluate_tuple_condition t;
        mret (match outcome with Some o => [CImmediate o] | None => [] end)
      else mret []
  | Some DCWildcard =>
      if bool_decide (t.(rt_key).(tk_subject) = read.(drd_subject))
         || wildcard_matches t.(rt_key).(tk_subject) read.(drd_subject) then
        outcome ← evaluate_tuple_condition t;
        mret (match outcome with Some o => [CImmediate o] | None => [] end)
      else mret []
  | Some (DCUserset r) =>
      match t.(rt_key).(tk_subject) with
      | SubjUserset u =>
          outcome ← evaluate_tuple_condition t;
          match outcome with
          | None => mret []
          | Some (Err e) => mret [CImmediate (Err e)]
          | Some (Ok d) =>
              if d.(allowed) then
                if bool_decide (t.(rt_key).(tk_subject) = read.(drd_subject)) then
                  mret [CImmediate (Ok d)]
                else
                  depth ← lift (next_depth read.(drd_depth));
                  mret [CSemantic (mkSemanticWork u.(us_object) r read.(drd_subject)
                                     read.(drd_path) depth)]
              else mret []
          end
      | _ => mret []
      end
  end.

(** Accumulating the candidates of successive rows. *)
Fixpoint collect_rows {A B} (f : A → M (list B)) (rows : list A) : M (list B) :=
  match rows with
  | [] => mret []
  | t :: rows => c ← f t; cs ← collect_rows f rows; mret (c ++ cs)
  end.

Definition finish_direct (id : WorkId) (read : DirectRead) (rows : list RelationshipTuple) : M () :=
  rel ← lift (map_err (model_error "direct_relation_invalid") (relation model read.(drd_relation)));
  candidates ← collect_rows (direct_row read rel.(cr_restrictions)) rows;
  start_candidates id candidates RDirect.

Definition ttu_target (read : TtuRead) (object : ObjectRef) (target : RelationId) :
    M (list Candidate) :=
  rel ← lift (map_err (model_error "ttu_target_invalid") (relation model target));
  ty ← lift (map_err (model_error "ttu_target_type_invalid") (type_name model rel.(cr_object_type)));
  if bool_decide (ty = object.(object_type)) then
    depth ← lift (next_depth read.(trd_depth));
    mret [CSemantic (mkSemanticWork object target read.(trd_subject) read.(trd_path) depth)]
  else mret [].

(** One row of [finish_ttu]. *)
Definition ttu_row (read : TtuRead) (restrictions : list DirectRestriction) (t : RelationshipTuple) :
    M (list Candidate) :=
  class ← lift (matching_restriction t restrictions);
  match class with
  | Some DCObject =>
      outcome ← evaluate_tuple_condition t;
      match outcome with
      | Some (Ok d) =>
          if d.(allowed) then
            match t.(rt_key).(tk_subject) with
            | SubjObject object => collect_rows (ttu_target read object) read.(trd_targets)
            | _ => mret []
            end
          else mret []
      | None => mret []
      | Some (Err e) => mret [CImmediate (Err e)]
      end
  | _ => mret []
  end.

Definition finish_ttu (id : WorkId) (read : TtuRead) (rows : list RelationshipTuple) : M () :=
  rel ← lift (map_err (model_error "ttu_tupleset_invalid") (relation model read.(trd_tupleset)));
  candidates ← collect_rows (ttu_row read rel.(cr_restrictions)) rows;
  start_candidates id candidates RTupleToUserset.

Definition charge_tuple_items (stored contextual : nat) : M () :=
  contextual_items ← lift (ok_or (try_u32 (N.of_nat contextual)) tuple_items_exceeded);
  total ← lift (ok_or (n ← checked_add USIZE_MAX (N.of_nat stored) (N.of_nat contextual); try_u32 n)
                  tuple_items_exceeded);
  s ← get_state;
  items ← lift (ok_or (checked_add U32_MAX s.(counters).(tuple_items) total) tuple_items_exceeded);
  upd_counters (fun c => mkCounters c.(dispatches) c.(datastore_queries) items c.(condition_cost)
                           c.(cycles) c.(deepest));;
  if (budget.(maximum_tuple_items) <? items)%N then fail tuple_items_exceeded
  else
    ok ← charge_meter MTupleItems contextual_items;
    if negb ok then fail tuple_items_exceeded else mret ().

(** The part of [finish_read] common to both continuations. *)
Definition finish_rows (id : WorkId) (code : string) (rid : RelationId) (object : ObjectRef)
    (stored : list RelationshipTuple) (k : list RelationshipTuple → M ()) : M () :=
  rel ← lift (map_err (model_error code) (relation model rid));
  let contextual := index_get env.(env_contextual) object rel.(cr_name) in
  charged ← catch (charge_tuple_items (length stored) (length contextual));
  match charged with
  | Err e => complete id (Err e)
  | Ok _ => k (contextual ++ stored)
  end.

Definition finish_read (id : WorkId) (rows : result CheckError (list RelationshipTuple)) : M () :=
  active ← is_active id;
  if negb active then set_state id Completed
  else
    slot ← slot_mut id;
    set_state id Processing;;
    match slot.(ws_state) with
    | Reading continuation =>
        match rows with
        | Err e => complete id (Err e)
        | Ok stored =>
            match continuation with
            | ContDirect read =>
                finish_rows id "direct_relation_invalid" read.(drd_relation) read.(drd_object) stored
                  (finish_direct id read)
            | ContTtu read =>
                finish_rows id "ttu_relation_invalid" read.(trd_tupleset) read.(trd_object) stored
                  (finish_ttu id read)
            end
        end
    | _ => fail (internal "read_completion_state_invalid")
    end.

(** ** Starting reads *)

Definition start_read (id : WorkId) (rid : RelationId) (object : ObjectRef)
    (continuation : ReadContinuation) : M () :=
  s ← get_state;
  n ← lift (ok_or (checked_add U32_MAX s.(counters).(datastore_queries) 1) datastore_exceeded);
  upd_counters (fun c => mkCounters c.(dispatches) n c.(tuple_items) c.(condition_cost)
                           c.(cycles) c.(deepest));;
  if (budget.(maximum_datastore_queries) <? n)%N then complete id (Err datastore_exceeded)
  else
    ok ← charge_meter MDatastoreQueries 1;
    if negb ok then complete id (Err datastore_exceeded)
    else
      match relation model rid with
      | Err source => complete id (Err (model_error "read_relation_invalid" source))
      | Ok rel =>
          match object_relation_filter_new object rel.(cr_name) [] CFAny env.(env_input_limits) with
          | Err e => complete id (Err (storage_check_error e))
          | Ok filter =>
              set_state id (Reading continuation);;
              modify (fun s => set_reads (s.(reads) ++ [mkReadTask id (ReadPending filter)]) s)
          end
      end.

(** The body of a spawned read: the storage call, the meter charge for the
    returned rows, then the rows up to the first item error. *)
Definition read_task (filter : ObjectRelationFilter) : M (result CheckError (list RelationshipTuple)) :=
  t ← next_tick;
  match w_read w t model.(model_store_id) filter env.(env_maximum_results) with
  | Err e => mret (Err (map_read_error e))
  | Ok stream =>
      match try_u32 (remaining stream) with
      | None => mret (Err tuple_items_exceeded)
      | Some stored_items =>
          ok ← charge_meter MTupleItems stored_items;
          if negb ok then mret (Err tuple_items_exceeded)
          else mret (try_collect (map_err map_read_error) (stream_items stream))
      end
  end.

(** Running the in-flight read at position [i] to its result. *)
Definition run_task (i : nat) : M () :=
  s ← get_state;
  match s.(reads) !! i with
  | Some (mkReadTask id (ReadPending filter)) =>
      rows ← read_task filter;
      modify (fun s => set_reads (<[i := mkReadTask id (ReadDone rows)]> s.(reads)) s)
  | _ => mret ()
  end.

Fixpoint run_tasks (l : list nat) : M () :=
  match l with
  | [] => mret ()
  | i :: l => run_task i;; run_tasks l
  end.

(** ** Processing ready work *)

Definition defer_for_read_capacity (id : WorkId) (work : RewriteWork) : M bool :=
  s ← get_state;
  if (len s.(reads) <? budget.(maximum_concurrent_reads))%N then mret false
  else
    set_state id (Queued (WRewrite work));;
    modify (fun s => set_ready (s.(ready) ++ [id]) s);;
    mret true.

Definition process_direct (id : WorkId) (work : RewriteWork) (r : RelationId) : M () :=
  deferred ← defer_for_read_capacity id work;
  if (deferred : bool) then mret ()
  else start_read id r work.(rw_object)
         (ContDirect (mkDirectRead r work.(rw_object) work.(rw_subject) work.(rw_path) work.(rw_depth))).

Definition process_computed (id : WorkId) (work : RewriteWork) (r : RelationId) : M () :=
  set_state id (Waiting (reducer_new RkSingle 1 (Some RComputed)));;
  depth ← lift (next_depth work.(rw_depth));
  schedule_child_or_error id 0
    (WSemantic (mkSemanticWork work.(rw_object) r work.(rw_subject) work.(rw_path) depth)).

Definition process_ttu (id : WorkId) (work : RewriteWork) (tupleset : RelationId)
    (targets : list RelationId) : M () :=
  deferred ← defer_for_read_capacity id work;
  if (deferred : bool) then mret ()
  else start_read id tupleset work.(rw_object)
         (ContTtu (mkTtuRead tupleset targets work.(rw_object) work.(rw_subject) work.(rw_path)
                     work.(rw_depth))).

(** The rewrite item of a child node on the same object. *)
Definition child_rewrite (work : RewriteWork) (n : NodeId) : WorkKind :=
  WRewrite (mkRewriteWork work.(rw_object) n work.(rw_subject) work.(rw_path) work.(rw_depth)).

Definition process_difference (id : WorkId) (work : RewriteWork) (base subtract : NodeId) : M () :=
  set_state id (Waiting (reducer_new RkDifference 2 (Some RDifference)));;
  schedule_children id 0 (child_rewrite work <$> [base; subtract]).

Definition start_rewrite_children (id : WorkId) (work : RewriteWork) (nodes : list NodeId)
    (kind : ReducerKind) (r : CheckResolution) : M () :=
  set_state id (Waiting (reducer_new kind (length nodes) (Some r)));;
  schedule_children id 0 (child_rewrite work <$> nodes).

Definition process_rewrite (id : WorkId) (work : RewriteWork) : M () :=
  match node model work.(rw_node) with
  | Err source => complete id (Err (model_error "rewrite_node_invalid" source))
  | Ok (NDirect r) => process_direct id work r
  | Ok (NComputed r) => process_computed id work r
  | Ok (NTupleToUserset tupleset _ targets) => process_ttu id work tupleset targets
  | Ok (NUnion nodes) => start_rewrite_children id work nodes RkUnion RUnion
  | Ok (NIntersection nodes) => start_rewrite_children id work nodes RkIntersection RIntersection
  | Ok (NDifference base subtract) => process_difference id work base subtract
  end.

Definition semantic_key (work : SemanticWork) : SemanticKey :=
  mkSemanticKey work.(sw_object) work.(sw_relation) work.(sw_subject).

Definition memo_key (work : SemanticWork) : MemoKey :=
  mkMemoKey (semantic_key work) work.(sw_path).

Definition process_semantic (id : WorkId) (work : SemanticWork) : M () :=
  if (budget.(maximum_depth) <? work.(sw_depth))%N then complete id (Err depth_exceeded)
  else
    upd_counters (fun c => mkCounters c.(dispatches) c.(datastore_queries) c.(tuple_items)
                             c.(condition_cost) c.(cycles) (N.max c.(deepest) work.(sw_depth)));;
    s ← get_state;
    match bt_get (memo_key work) s.(memo) with
    | Some d => complete id (Ok d)
    | None =>
        slot ← slot_mut id;
        set_slot id (mkWorkSlot slot.(ws_parent) (Some (memo_key work)) slot.(ws_state));;
        if bs_contains (semantic_key work) work.(sw_path) then
          upd_counters (fun c => mkCounters c.(dispatches) c.(datastore_queries) c.(tuple_items)
                                   c.(condition_cost) (saturating_add U32_MAX c.(cycles) 1)
                                   c.(deepest));;
          complete id (Ok (deny RCycle))
        else
          match type_id model (subject_type work.(sw_subject)) with
          | Err source => complete id (Err (model_error "semantic_subject_type_missing" source))
          | Ok st =>
              let reachable :=
                if is_typed_wildcard work.(sw_subject) then can_reach_wildcard model work.(sw_relation) st
                else can_reach_subject_type model work.(sw_relation) st in
              if negb reachable then complete id (Ok (deny RUnreachable))
              else
                match relation model work.(sw_relation) with
                | Err source => complete id (Err (model_error "semantic_relation_invalid" source))
                | Ok rel =>
                    set_state id (Waiting (reducer_new RkSingle 1 None));;
                    schedule_child_or_error id 0
                      (WRewrite (mkRewriteWork work.(sw_object) rel.(cr_root) work.(sw_subject)
                                   (bs_insert (semantic_key work) work.(sw_path)) work.(sw_depth)))
                end
          end
    end.

Definition process (id : WorkId) : M () :=
  active ← is_active id;
  if negb active then set_state id Completed
  else
    slot ← slot_mut id;
    set_state id Processing;;
    match slot.(ws_state) with
    | Queued (WSemantic work) => process_semantic id work
    | Queued (WRewrite work) => process_rewrite id work
    | _ => fail (internal "queued_work_state_invalid")
    end.

(** ** The drive loop *)

(** The items that were ready when the round started. *)
Fixpoint process_ready (available : nat) : M () :=
  match available with
  | 0 => mret ()
  | S available =>
      s ← get_state;
      match s.(ready) with
      | [] => mret ()
      | id :: rest =>
          modify (set_ready rest);;
          process id;;
          s ← get_state;
          match s.(root_result) with
          | Some _ => mret ()
          | None => process_ready available
          end
      end
  end.

(** The join of one completed read: the task at the position chosen by the
    world leaves the set with its result. *)
Definition join_read (i : nat) : M () :=
  s ← get_state;
  let i := i mod length s.(reads) in
  run_task i;;
  s ← get_state;
  match s.(reads) !! i with
  | Some (mkReadTask id (ReadDone rows)) =>
      modify (set_reads (delete i s.(reads)));;
      finish_read id rows
  | _ => mret ()
  end.

(** The [select!] of the loop, after the reads that progressed meanwhile. *)
Definition await_read : M () :=
  t ← next_tick;
  run_tasks (w_tasks w t);;
  match w_select w t with
  | SelCancelled => fail (cancelled CHECK_CANCELLED_CODE)
  | SelDeadline => fail (timed_out CHECK_DEADLINE_ELAPSED_CODE)
  | SelPanicked _ => fail (internal "datastore_read_task_failed")
  | SelJoined i => join_read i
  end.

Fixpoint drive_loop (fuel : nat) : M () :=
  match fuel with
  | 0 => out_of_fuel
  | S fuel =>
      s ← get_state;
      match s.(root_result) with
      | Some _ => mret ()
      | None =>
          check_context;;
          s ← get_state;
          process_ready (length s.(ready));;
          s ← get_state;
          match s.(root_result), s.(reads), s.(ready) with
          | Some _, _, _ => mret ()
          | None, [], [] => fail (internal "work_graph_stalled")
          | None, [], _ => drive_loop fuel
          | None, _, _ => await_read;; drive_loop fuel
          end
      end
  end.

Definition drive (fuel : nat) (root : SemanticWork) : M Decision :=
  id ← schedule (WSemantic root) None;
  if negb (id =? 0) then fail (internal "root_work_id_invalid")
  else
    drive_loop fuel;;
    s ← get_state;
    match s.(root_result) with
    | Some outcome => lift outcome
    | None => fail (internal "root_result_missing")
    end.

End operations.

(** ** Root evaluation

    [evaluate_root_inner], [validate_model_identity] and [Scheduler::run] of
    [crates/openfga-check/src/evaluator.rs]: the validation in front of the
    scheduler and the outcome reported for one root. *)

Inductive ModelSelection := ExplicitModel (id : AuthorizationModelId) | LatestModel.

Record RootInput := mkRootInput {
  ri_store_id : StoreId;
  ri_model_selection : ModelSelection;
  ri_consistency : ConsistencyPreference;
  ri_deadline : N;
  ri_tuple : TupleKey;
  ri_contextual : ContextualIndex;
  ri_condition_context : ConditionContext;
}.

(** [CheckMetadata] without the wall-clock duration. *)
Record CheckOutcome := mkCheckOutcome {
  co_allowed : bool;
  co_resolution : CheckResolution;
  co_metadata : Counters;
}.

Section root.
Context `{ConditionEngine}.

Definition validate_model_identity (store_id : StoreId) (selection : ModelSelection)
    (m : CompiledModel) : result CheckError () :=
  if negb (store_id =? m.(model_store_id))%N then
    Err (check_error KInvalidModel "model_store_mismatch")
  else match selection with
       | ExplicitModel id =>
           if negb (id =? m.(model_id))%N then Err (check_error KInvalidModel "model_id_mismatch")
           else Ok ()
       | LatestModel => Ok ()
       end.

(** [Scheduler::new]: the read limit of the environment. *)
Definition check_env_new (m : CompiledModel) (budget : CheckBudget) (limits : InputLimits)
    (operation : OperationContext) (contextual : ContextualIndex) (context : ConditionContext) :
    result CheckError CheckEnv :=
  maximum_results ← map_err (fun _ => internal "tuple_read_limit_invalid")
                      (limit_new 100000 (N.min budget.(maximum_tuple_items) 100000));
  Ok (mkCheckEnv m budget limits operation contextual context maximum_results).

(** [Scheduler::run], aborting the reads still in flight. *)
Definition run (env : CheckEnv) (w : World) (fuel : nat) (root : SemanticWork) : M CheckOutcome :=
  fun s =>
    let '(s, decision) := drive env w fuel root s in
    let s := set_reads [] s in
    (s, (fun d => mkCheckOutcome d.(allowed) d.(resolution) s.(counters)) <$> decision).

Definition root_work (t : TupleKey) (r : RelationId) : SemanticWork :=
  mkSemanticWork t.(tk_object) r t.(tk_subject) [] 0.

Definition evaluate_root_inner (input : RootInput) (m : CompiledModel) (budget : CheckBudget)
    (meter : option CheckWorkMeter) (limits : InputLimits) (w : World) (fuel : nat) :
    result Fault CheckOutcome :=
  _ ← map_err Fail (validate_model_identity input.(ri_store_id) input.(ri_model_selection) m);
  root_relation ← map_err Fail (map_err tuple_check_error (validate_query_tuple m input.(ri_tuple)));
  _ ← map_err Fail (try_each (fun t => map_err tuple_check_error (validate_relationship_tuple m t))
                      (index_values input.(ri_contextual)));
  env ← map_err Fail
          (check_env_new m budget limits
             (mkOperationContext input.(ri_consistency) input.(ri_deadline))
             input.(ri_contextual) input.(ri_condition_context));
  snd (run env w fuel (root_work input.(ri_tuple) root_relation) (scheduler_new meter)).

End root.
