(* ===== verification/CheckSpec.v ===== *)
(** * What a check means

    The declarative semantics the scheduler implements: a task (a relation of
    an object for a subject, or one rewrite node of it) is decided by the
    operands it expands to, over one snapshot of the stored tuples.  There is
    no queue, no budget, no clock and no order here, and no error: a task that
    can only be answered with an error is decided by nothing. *)

From S2P Require Import Prelude Ordered Identifier Reference Condition Storage Model TupleValidation Budget.
From S2P Require Import Reducer Scheduler.

(** Work items without the depth counter. *)
Inductive Task :=
| TSemantic (k : SemanticKey) (path : BTreeSet SemanticKey)
| TRewrite (object : ObjectRef) (n : NodeId) (subject : SubjectRef) (path : BTreeSet SemanticKey).

Definition task_of (k : WorkKind) : Task :=
  match k with
  | WSemantic w => TSemantic (semantic_key w) w.(sw_path)
  | WRewrite w => TRewrite w.(rw_object) w.(rw_node) w.(rw_subject) w.(rw_path)
  end.

(** An operand of a task: a matching tuple, an operand only an error can
    answer, or another task. *)
Inductive Operand := OAllow | OError | OTask (t : Task).

Inductive Expansion :=
| XDone (d : Decision)
| XError
| XNode (kind : ReducerKind) (r : option CheckResolution) (ops : list Operand).

Section spec.
Context `{ConditionEngine}.
Variable env : CheckEnv.
Variable stored : ObjectRef → RelationName → list RelationshipTuple.

Abbreviation model := env.(env_model).

(** ** Tuples of a relation *)

Definition rows_at (object : ObjectRef) (r : RelationName) : list RelationshipTuple :=
  index_get env.(env_contextual) object r ++ stored object r.

(** Whether the condition of a tuple holds, when it has a value. *)
Definition condition_holds (t : RelationshipTuple) : option bool :=
  match t.(rt_condition) with
  | Unconditional => Some true
  | Conditional binding =>
      match condition_id model binding.(cb_name) with
      | Err _ => None
      | Ok cid => match condition model cid with
                  | Err _ => None
                  | Ok c => condition_value c env.(env_condition_context) binding.(cb_context)
                  end
      end
  end.

(** The operands a tuple contributes when its condition holds. *)
Definition if_condition (t : RelationshipTuple) (ops : list Operand) : list Operand :=
  match condition_holds t with Some true => ops | Some false => [] | None => [OError] end.

Definition direct_operands (subject : SubjectRef) (path : BTreeSet SemanticKey)
    (restrictions : list DirectRestriction) (t : RelationshipTuple) : list Operand :=
  match matching_restriction env t restrictions with
  | Err _ => [OError]
  | Ok None => []
  | Ok (Some DCObject) =>
      if bool_decide (t.(rt_key).(tk_subject) = subject) then if_condition t [OAllow] else []
  | Ok (Some DCWildcard) =>
      if bool_decide (t.(rt_key).(tk_subject) = subject)
         || wildcard_matches t.(rt_key).(tk_subject) subject
      then if_condition t [OAllow] else []
  | Ok (Some (DCUserset r)) =>
      match t.(rt_key).(tk_subject) with
      | SubjUserset u =>
          if_condition t
            (if bool_decide (t.(rt_key).(tk_subject) = subject) then [OAllow]
             else [OTask (TSemantic (mkSemanticKey u.(us_object) r subject) path)])
      | _ => []
      end
  end.

Definition target_operands (subject : SubjectRef) (path : BTreeSet SemanticKey) (object : ObjectRef)
    (target : RelationId) : list Operand :=
  match relation model target with
  | Err _ => [OError]
  | Ok rel =>
      match type_name model rel.(cr_object_type) with
      | Err _ => [OError]
      | Ok ty => if bool_decide (ty = object.(object_type))
                 then [OTask (TSemantic (mkSemanticKey object target subject) path)] else []
      end
  end.

Definition ttu_operands (subject : SubjectRef) (path : BTreeSet SemanticKey)
    (restrictions : list DirectRestriction) (targets : list RelationId) (t : RelationshipTuple) :
    list Operand :=
  match matching_restriction env t restrictions with
  | Err _ => [OError]
  | Ok (Some DCObject) =>
      if_condition t
        (match t.(rt_key).(tk_subject) with
         | SubjObject object => targets ≫= target_operands subject path object
         | _ => []
         end)
  | Ok _ => []
  end.

(** The operands of a node that reads the tuples of relation [r]. *)
Definition read_expansion (object : ObjectRef) (r : RelationId) (res : CheckResolution)
    (operands_of : list DirectRestriction → RelationshipTuple → list Operand) : Expansion :=
  match relation model r with
  | Err _ => XError
  | Ok rel => XNode RkUnion (Some res)
                (rows_at object rel.(cr_name) ≫= operands_of rel.(cr_restrictions))
  end.

Definition reachable (r : RelationId) (subject : SubjectRef) (st : TypeId) : bool :=
  if is_typed_wildcard subject then can_reach_wildcard model r st
  else can_reach_subject_type model r st.

Definition expand (t : Task) : Expansion :=
  match t with
  | TSemantic k path =>
      if bs_contains k path then XDone (deny RCycle)
      else
        match type_id model (subject_type k.(sk_subject)) with
        | Err _ => XError
        | Ok st =>
            if negb (reachable k.(sk_relation) k.(sk_subject) st) then XDone (deny RUnreachable)
            else
              match relation model k.(sk_relation) with
              | Err _ => XError
              | Ok rel => XNode RkSingle None
                            [OTask (TRewrite k.(sk_object) rel.(cr_root) k.(sk_subject)
                                      (bs_insert k path))]
              end
        end
  | TRewrite object n subject path =>
      let child c := OTask (TRewrite object c subject path) in
      match node model n with
      | Err _ => XError
      | Ok (NDirect r) => read_expansion object r RDirect (direct_operands subject path)
      | Ok (NTupleToUserset tupleset _ targets) =>
          read_expansion object tupleset RTupleToUserset
            (fun restrictions => ttu_operands subject path restrictions targets)
      | Ok (NComputed r) =>
          XNode RkSingle (Some RComputed)
            [OTask (TSemantic (mkSemanticKey object r subject) path)]
      | Ok (NUnion children) => XNode RkUnion (Some RUnion) (child <$> children)
      | Ok (NIntersection children) =>
          XNode RkIntersection (Some RIntersection) (child <$> children)
      | Ok (NDifference base subtract) =>
          XNode RkDifference (Some RDifference) [child base; child subtract]
      end
  end.

(** ** Decisions

    Outcomes of some operands may force the decision of a node; operands that
    are not (yet) decided count as errors. *)

Inductive Decides : Task → Decision → Prop :=
| Decides_done t d : expand t = XDone d → Decides t d
| Decides_node t kind r ops es d :
    expand t = XNode kind r ops →
    length es = length ops →
    (∀ i op d', ops !! i = Some op → es !! i = Some (Ok d') → OpDecides op d') →
    combine kind r es = Ok d →
    Decides t d
with OpDecides : Operand → Decision → Prop :=
| OpDecides_allow : OpDecides OAllow (allow RDirect)
| OpDecides_task t d : Decides t d → OpDecides (OTask t) d.

Scheme Decides_mut := Minimality for Decides Sort Prop
with OpDecides_mut := Minimality for OpDecides Sort Prop.

(** A decision forced by decided operands. *)
Definition forced (kind : ReducerKind) (r : option CheckResolution) (ops : list Operand)
    (d : Decision) : Prop :=
  ∃ es, length es = length ops ∧
    (∀ i op d', ops !! i = Some op → es !! i = Some (Ok d') → OpDecides op d') ∧
    combine kind r es = Ok d.

(** ** Combining decided operands *)

Lemma first_error_None es : first_error es = None ↔ ∀ i e, es !! i = Some e → ∃ d, e = Ok d.
Proof.
  induction es as [|[d|e] es IH]; simpl.
  - split; [by intros _ [|i] ? | done].
  - rewrite IH. split.
    + intros Hes [|i] e; simpl; [intros [= <-]; eauto | apply Hes].
    + intros Hes i. apply (Hes (S i)).
  - split; [done|]. intros Hes. by destruct (Hes 0 (Err e)).
Qed.

Lemma or_first_error_ok es d d' :
  or_first_error es d = Ok d' ↔ d' = d ∧ first_error es = None.
Proof. unfold or_first_error. destruct (first_error es); naive_solver. Qed.

Lemma existsb_lookup {A} (p : A → bool) l :
  existsb p l = true ↔ ∃ i x, l !! i = Some x ∧ p x = true.
Proof.
  rewrite existsb_elem. setoid_rewrite list_elem_of_lookup. naive_solver.
Qed.

Lemma combine_union_ok r es d :
  combine RkUnion r es = Ok d ↔
  (d = allow (default RUnion r) ∧ ∃ i d', es !! i = Some (Ok d') ∧ d'.(allowed) = true) ∨
  (d = deny RDenied ∧ ∀ i e, es !! i = Some e → ∃ d', e = Ok d' ∧ d'.(allowed) = false).
Proof.
  unfold combine. destruct (existsb is_allowed es) eqn:E.
  - apply existsb_lookup in E as (i & [d'|] & Hi & Ha); [|done]. simpl in Ha. split.
    + intros [= <-]. left. eauto.
    + intros [[-> _]|[-> Hall]]; [done|]. destruct (Hall _ _ Hi) as (? & [= <-] & ?). congruence.
  - rewrite or_first_error_ok, first_error_None.
    assert (Hno : ∀ i d', es !! i = Some (Ok d') → d'.(allowed) = false).
    { intros i d' Hi. destruct (allowed d') eqn:Ea; [|done].
      assert (existsb is_allowed es = true) by (apply existsb_lookup; eauto). congruence. }
    split.
    + intros [-> Hall]. right. split; [done|]. intros i e Hi. destruct (Hall _ _ Hi) as [d' ->]. eauto.
    + intros [(-> & i & d' & Hi & Ha)|[-> Hall]]; [rewrite (Hno _ _ Hi) in Ha; done|].
      split; [done|]. intros i e Hi. destruct (Hall _ _ Hi) as (? & -> & _). eauto.
Qed.

Lemma combine_intersection_ok r es d :
  combine RkIntersection r es = Ok d ↔
  (d = deny RDenied ∧ ∃ i d', es !! i = Some (Ok d') ∧ d'.(allowed) = false) ∨
  (d = allow (default RIntersection r) ∧
   ∀ i e, es !! i = Some e → ∃ d', e = Ok d' ∧ d'.(allowed) = true).
Proof.
  unfold combine. destruct (existsb is_denied es) eqn:E.
  - apply existsb_lookup in E as (i & [d'|] & Hi & Ha); [|done]. simpl in Ha.
    apply negb_true_iff in Ha. split.
    + intros [= <-]. left. eauto.
    + intros [[-> _]|[-> Hall]]; [done|]. destruct (Hall _ _ Hi) as (? & [= <-] & ?). congruence.
  - rewrite or_first_error_ok, first_error_None.
    assert (Hno : ∀ i d', es !! i = Some (Ok d') → d'.(allowed) = true).
    { intros i d' Hi. destruct (allowed d') eqn:Ea; [done|].
      assert (existsb is_denied es = true).
      { apply existsb_lookup. exists i, (Ok d'). simpl. by rewrite Ea. }
      congruence. }
    split.
    + intros [-> Hall]. right. split; [done|]. intros i e Hi. destruct (Hall _ _ Hi) as [d' ->]. eauto.
    + intros [(-> & i & d' & Hi & Ha)|[-> Hall]]; [rewrite (Hno _ _ Hi) in Ha; done|].
      split; [done|]. intros i e Hi. destruct (Hall _ _ Hi) as (? & -> & _). eauto.
Qed.

Lemma combine_difference_ok r b s d :
  combine RkDifference r [b; s] = Ok d ↔
  (d = deny RDenied ∧ (is_denied b = true ∨ is_allowed s = true)) ∨
  (d = allow (default RDifference r) ∧ is_allowed b = true ∧ is_denied s = true).
Proof.
  unfold combine, or_first_error. destruct b as [[[] ?]|], s as [[[] ?]|]; simpl; naive_solver.
Qed.

(** Two partial views of the same operands cannot force different decisions. *)
Lemma combine_agree kind r es1 es2 d1 d2 :
  (kind = RkDifference → length es1 = 2) → length es1 = length es2 →
  (∀ i x y, es1 !! i = Some (Ok x) → es2 !! i = Some (Ok y) → x = y) →
  combine kind r es1 = Ok d1 → combine kind r es2 = Ok d2 → d1 = d2.
Proof.
  intros Har Hlen Hag. assert (Hat : ∀ i x, es1 !! i = Some x → is_Some (es2 !! i)).
  { intros i x Hi. apply lookup_lt_is_Some. rewrite <-Hlen. by eapply lookup_lt_Some. }
  assert (Hat' : ∀ i x, es2 !! i = Some x → is_Some (es1 !! i)).
  { intros i x Hi. apply lookup_lt_is_Some. rewrite Hlen. by eapply lookup_lt_Some. }
  destruct kind.
  - destruct es1 as [|[x|] ?], es2 as [|[y|] ?]; try done. simpl. intros [= <-] [= <-].
    by rewrite (Hag 0 x y) by done.
  - rewrite !combine_union_ok.
    intros [(-> & i & x & Hi & Hx)|(-> & H1)] [(-> & j & y & Hj & Hy)|(-> & H2)]; try done.
    + destruct (Hat _ _ Hi) as [e He]. destruct (H2 _ _ He) as (y & -> & Hy).
      rewrite (Hag _ _ _ Hi He) in Hx. congruence.
    + destruct (Hat' _ _ Hj) as [e He]. destruct (H1 _ _ He) as (x & -> & Hx).
      rewrite (Hag _ _ _ He Hj) in Hx. congruence.
  - rewrite !combine_intersection_ok.
    intros [(-> & i & x & Hi & Hx)|(-> & H1)] [(-> & j & y & Hj & Hy)|(-> & H2)]; try done.
    + destruct (Hat _ _ Hi) as [e He]. destruct (H2 _ _ He) as (y & -> & Hy).
      rewrite (Hag _ _ _ Hi He) in Hx. congruence.
    + destruct (Hat' _ _ Hj) as [e He]. destruct (H1 _ _ He) as (x & -> & Hx).
      rewrite (Hag _ _ _ He Hj) in Hx. congruence.
  - specialize (Har eq_refl).
    destruct es1 as [|b1 [|s1 [|]]], es2 as [|b2 [|s2 [|]]]; try done.
    pose proof (Hag 0) as Hb. pose proof (Hag 1) as Hs. simpl in Hb, Hs.
    rewrite !combine_difference_ok.
    destruct b1 as [x1|], s1 as [y1|], b2 as [x2|], s2 as [y2|]; simpl; rewrite ?negb_true_iff;
      try rewrite (Hb x1 x2) by done; try rewrite (Hs y1 y2) by done;
      naive_solver congruence.
Qed.

Lemma expand_difference t r ops : expand t = XNode RkDifference r ops → length ops = 2.
Proof.
  unfold expand, read_expansion. intros E.
  repeat (case_match; try done); by simplify_eq.
Qed.

(** A task is decided in at most one way. *)
Lemma Decides_unique t d1 d2 : Decides t d1 → Decides t d2 → d1 = d2.
Proof.
  intros H1. revert d2.
  induction H1 as [t d Hd | t kind r ops es d Hx Hlen Hops IH Hc | | t d _ IH]
    using Decides_mut with
    (P0 := fun op d1 => ∀ d2, OpDecides op d2 → d1 = d2).
  - intros d2. destruct 1; congruence.
  - intros d2. destruct 1 as [? ? Hd | ? kind' r' ops' es' ? Hx' Hlen' Hops' Hc']; [congruence|].
    rewrite Hx in Hx'. simplify_eq. eapply combine_agree; [| | |done|done].
    + intros ->. apply expand_difference in Hx. lia.
    + lia.
    + intros i x y Hxi Hyi. destruct (lookup_lt_is_Some_2 ops' i) as [op Hop].
      { rewrite <-Hlen. by eapply lookup_lt_Some. }
      eapply IH; [done|done|]. by eapply Hops'.
  - intros d2. by inversion 1.
  - intros d2. inversion 1; subst. by apply IH.
Qed.

Lemma OpDecides_unique op d1 d2 : OpDecides op d1 → OpDecides op d2 → d1 = d2.
Proof. destruct 1; inversion 1; subst; [done|]. by eapply Decides_unique. Qed.

Lemma Decides_forced t kind r ops d :
  expand t = XNode kind r ops → forced kind r ops d → Decides t d.
Proof. intros Hx (es & Hlen & Hops & Hc). by eapply Decides_node. Qed.

(** ** Unions

    What forces a union does not depend on the order or multiplicity of its
    operands. *)

Lemma forced_union_inv r ops d :
  forced RkUnion r ops d →
  (d = allow (default RUnion r) ∧ ∃ op d', op ∈ ops ∧ OpDecides op d' ∧ d'.(allowed) = true) ∨
  (d = deny RDenied ∧ ∀ op, op ∈ ops → ∃ d', OpDecides op d' ∧ d'.(allowed) = false).
Proof.
  intros (es & Hlen & Hops & Hc). apply combine_union_ok in Hc as [(-> & i & d' & Hi & Ha)|(-> & Hall)].
  - left. split; [done|]. destruct (lookup_lt_is_Some_2 ops i) as [op Hop].
    { rewrite <-Hlen. by eapply lookup_lt_Some. }
    exists op, d'. split_and!; [by eapply list_elem_of_lookup_2 | by eapply Hops | done].
  - right. split; [done|]. intros op [i Hi]%list_elem_of_lookup.
    destruct (lookup_lt_is_Some_2 es i) as [e He].
    { rewrite Hlen. by eapply lookup_lt_Some. }
    destruct (Hall _ _ He) as (d' & -> & Hd'). exists d'. split; [by eapply Hops | done].
Qed.

Definition undecided : Evaluation := Err (internal "undecided").

Lemma forced_union_allow r ops op d' :
  op ∈ ops → OpDecides op d' → d'.(allowed) = true →
  forced RkUnion r ops (allow (default RUnion r)).
Proof.
  intros [i Hi]%list_elem_of_lookup Hd Ha.
  exists (<[i := Ok d']> (replicate (length ops) undecided)). split_and!.
  - by rewrite length_insert, length_replicate.
  - intros j op' d'' Hj Hd''. destruct (decide (j = i)) as [->|Hne].
    + rewrite list_lookup_insert_eq in Hd'' by (rewrite length_replicate; by eapply lookup_lt_Some).
      by simplify_eq.
    + rewrite list_lookup_insert_ne in Hd'' by done. by apply lookup_replicate in Hd'' as [? _].
  - apply combine_union_ok. left. split; [done|]. exists i, d'. split; [|done].
    apply list_lookup_insert_eq. rewrite length_replicate. by eapply lookup_lt_Some.
Qed.

Lemma outcomes_exist (P : Decision → Prop) ops :
  (∀ op, op ∈ ops → ∃ d, OpDecides op d ∧ P d) →
  ∃ ds, length ds = length ops ∧
    (∀ i op d, ops !! i = Some op → ds !! i = Some d → OpDecides op d ∧ P d).
Proof.
  induction ops as [|op ops IH]; intros Hops.
  - by exists [].
  - destruct IH as (ds & Hlen & Hds); [intros; apply Hops; by right|].
    destruct (Hops op) as (d & Hd & HP); [by left|].
    exists (d :: ds). simpl. split; [by rewrite Hlen|].
    intros [|i] op' d'; simpl; [by intros [= <-] [= <-] | apply Hds].
Qed.

Lemma forced_union_deny r ops :
  (∀ op, op ∈ ops → ∃ d', OpDecides op d' ∧ d'.(allowed) = false) →
  forced RkUnion r ops (deny RDenied).
Proof.
  intros Hops. destruct (outcomes_exist _ _ Hops) as (ds & Hlen & Hds).
  exists (Ok <$> ds). split_and!.
  - by rewrite length_fmap.
  - intros i op d' Hop Hd'. rewrite list_lookup_fmap in Hd'.
    destruct (ds !! i) eqn:E; simplify_eq/=. by eapply Hds.
  - apply combine_union_ok. right. split; [done|]. intros i e He.
    rewrite list_lookup_fmap in He. destruct (ds !! i) as [d'|] eqn:E; simplify_eq/=.
    exists d'. split; [done|]. destruct (lookup_lt_is_Some_2 ops i) as [op Hop].
    { rewrite <-Hlen. by eapply lookup_lt_Some. }
    by destruct (Hds _ _ _ Hop E).
Qed.

(** ** A reference evaluator

    Depth-first evaluation of the semantics; sound at every fuel. *)

Definition decide_operand (f : Task → option Decision) (op : Operand) : Evaluation :=
  match op with
  | OAllow => Ok (allow RDirect)
  | OError => undecided
  | OTask t => match f t with Some d => Ok d | None => undecided end
  end.

Fixpoint decide_task (fuel : nat) (t : Task) : option Decision :=
  match fuel with
  | 0 => None
  | S fuel =>
      match expand t with
      | XDone d => Some d
      | XError => None
      | XNode kind r ops =>
          match combine kind r (decide_operand (decide_task fuel) <$> ops) with
          | Ok d => Some d
          | Err _ => None
          end
      end
  end.

Lemma decide_task_sound fuel : ∀ t d, decide_task fuel t = Some d → Decides t d.
Proof.
  induction fuel as [|fuel IH]; intros t d; simpl; [done|].
  destruct (expand t) as [d'| |kind r ops] eqn:Hx; [|done|].
  - intros [= <-]. by apply Decides_done.
  - destruct (combine _ _ _) as [d'|] eqn:Hc; [|done]. intros [= <-].
    apply (Decides_node t kind r ops (decide_operand (decide_task fuel) <$> ops));
      [done|by rewrite length_fmap| |done].
    intros i op d'' Hop. rewrite list_lookup_fmap, Hop. simpl. destruct op as [| |t']; simpl.
    + intros [= <-]. constructor.
    + done.
    + destruct (decide_task fuel t') eqn:E; intros [= <-]. constructor. by apply IH.
Qed.

End spec.
