(* ===== verification/CheckSound.v ===== *)
(** * The scheduler implements the check semantics

    Whatever the interleaving of reads, the budget, the meter and the clock, a
    decision the scheduler returns is the decision of the root task in
    [CheckSpec].  The proof is an invariant of the scheduler state, preserved
    by every operation. *)

From S2P Require Import Prelude Ordered Identifier Reference Condition Storage Model TupleValidation Budget.
From S2P Require Import Reducer Scheduler CheckSpec.

(** States that differ only in counters, queue, meter and tick. *)
Definition same_core (s s' : Scheduler) : Prop :=
  s'.(memo) = s.(memo) ∧ s'.(slots) = s.(slots) ∧ s'.(reads) = s.(reads) ∧
  s'.(root_result) = s.(root_result).

#[export] Instance same_core_preorder : PreOrder same_core.
Proof.
  split; [by intros s|]. intros s1 s2 s3 (? & ? & ? & ?) (? & ? & ? & ?).
  unfold same_core. split_and!; congruence.
Qed.

(** Work that waits for operands or is finished may have children. *)
Definition parked (st : WorkState) : Prop :=
  match st with Waiting _ | Completed => True | _ => False end.

Definition keeps_parked (s s' : Scheduler) : Prop :=
  ∀ i slot, s.(slots) !! i = Some slot → parked slot.(ws_state) →
  ∃ slot', s'.(slots) !! i = Some slot' ∧ parked slot'.(ws_state).

#[export] Instance keeps_parked_preorder : PreOrder keeps_parked.
Proof.
  split; [intros s i slot; eauto|]. intros s1 s2 s3 H1 H2 i slot Hi Hp.
  destruct (H1 _ _ Hi Hp) as (slot' & Hi' & Hp'). by eapply H2.
Qed.

Lemma same_core_keeps_parked s s' : same_core s s' → keeps_parked s s'.
Proof. intros (_ & Hs & _) i slot. rewrite Hs. eauto. Qed.

Ltac respect :=
  repeat first
    [ apply respects_ret, _ | apply respects_get, _ | apply respects_lift, _
    | apply respects_fail, _ | apply respects_fuel, _ | solve [auto with core_db]
    | match goal with |- respects _ (match ?x with _ => _ end) => destruct x end
    | apply respects_catch
    | apply respects_bind; [apply _ | | intros ?] ].

Create HintDb core_db.

Section sound.
Context `{ConditionEngineLaws}.
Variable env : CheckEnv.
Variable w : World.
Variable stored : ObjectRef → RelationName → list RelationshipTuple.

Abbreviation model := env.(env_model).
Abbreviation decides := (Decides env stored).
Abbreviation op_decides := (OpDecides env stored).

(** Every complete read of a relation returns the tuples of the snapshot. *)
Definition snapshot_reads : Prop :=
  ∀ t f stream rows,
    w_read w t model.(model_store_id) f env.(env_maximum_results) = Ok stream →
    stream_items stream = Ok <$> rows → f.(orf_subjects) = [] → f.(orf_conditions) = CFAny →
    ∀ x, x ∈ rows ↔ x ∈ stored f.(orf_object) f.(orf_relation).

(** ** Blocks that leave the core unchanged *)

Lemma next_tick_core : respects same_core next_tick.
Proof. by intros s s' r [= <- _]. Qed.

Lemma upd_counters_core f : respects same_core (upd_counters f).
Proof. by intros s s' r [= <- _]. Qed.

#[local] Hint Resolve next_tick_core upd_counters_core : core_db.

Lemma check_context_core : respects same_core (check_context env w).
Proof. unfold check_context. respect. Qed.
#[local] Hint Resolve check_context_core : core_db.

Lemma charge_meter_core which amount : respects same_core (charge_meter w which amount).
Proof.
  unfold charge_meter. respect. by apply respects_modify.
Qed.
#[local] Hint Resolve charge_meter_core : core_db.

Lemma evaluate_tuple_condition_core t : respects same_core (evaluate_tuple_condition env w t).
Proof.
  unfold evaluate_tuple_condition. respect.
Qed.
#[local] Hint Resolve evaluate_tuple_condition_core : core_db.

(** The outcome of a condition agrees with its value. *)
Lemma evaluate_tuple_condition_holds t s s' o :
  evaluate_tuple_condition env w t s = (s', Ok o) →
  match o with
  | Some (Ok d) => d = allow RDirect ∧ condition_holds env t = Some true
  | Some (Err _) => True
  | None => condition_holds env t = Some false
  end.
Proof.
  unfold evaluate_tuple_condition, condition_holds. intros Hm.
  destruct (rt_condition t) as [|binding]; [m_inv; done|]. m_inv.
  match goal with Hc : map_err _ (condition_id _ _) = _ |- _ => apply map_err_ok in Hc; rewrite Hc end.
  match goal with Hc : map_err _ (condition _ _) = _ |- _ => apply map_err_ok in Hc; rewrite Hc end.
  case_match; [|by m_inv]. case_match; [by m_inv|]. m_inv.
  destruct (evaluate _ _ _ _ _) as [out|e] eqn:Ev.
  - apply evaluate_value in Ev. m_inv. case_match; [m_inv|]. case_match; m_inv; rewrite Ev; [split; [done|] |]; congruence.
  - destruct e; m_inv; done.
Qed.

(** ** Candidates of a read *)

Definition cand_op (c : Candidate) : Operand :=
  match c with
  | CImmediate (Ok _) => OAllow
  | CImmediate (Err _) => OError
  | CSemantic work => OTask (task_of (WSemantic work))
  end.

(** Candidates stand for operands: no candidate is made up, and without an
    error none is missing. *)
Definition cands_ok (cs : list Candidate) (ops : list Operand) : Prop :=
  (∀ d, CImmediate (Ok d) ∈ cs → d = allow RDirect) ∧
  (∀ c, c ∈ cs → cand_op c = OError ∨ cand_op c ∈ ops) ∧
  (OError ∉ cand_op <$> cs → ∀ op, op ∈ ops → op ∈ cand_op <$> cs).

Lemma cands_ok_app cs cs' ops ops' :
  cands_ok cs ops → cands_ok cs' ops' → cands_ok (cs ++ cs') (ops ++ ops').
Proof.
  intros (H1 & H2 & H3) (H1' & H2' & H3'). split_and!.
  - intros d. rewrite elem_of_app. naive_solver.
  - intros c. rewrite !elem_of_app. naive_solver.
  - rewrite fmap_app. intros Hno op. rewrite !elem_of_app. rewrite elem_of_app in Hno. naive_solver.
Qed.

Lemma cands_ok_nil : cands_ok [] [].
Proof. split_and!; intros; by inversion select (_ ∈ []). Qed.

Lemma cands_ok_error e ops : cands_ok [CImmediate (Err e)] ops.
Proof.
  split_and!; simpl.
  - intros d ?%list_elem_of_singleton. done.
  - intros c ->%list_elem_of_singleton. by left.
  - intros Hno. exfalso. apply Hno. by left.
Qed.

Lemma cands_ok_allow : cands_ok [CImmediate (Ok (allow RDirect))] [OAllow].
Proof.
  split_and!; simpl.
  - intros d ?%list_elem_of_singleton. by simplify_eq.
  - intros c ->%list_elem_of_singleton. right. by left.
  - intros _ op. done.
Qed.

Lemma cands_ok_work work : cands_ok [CSemantic work] [OTask (task_of (WSemantic work))].
Proof.
  split_and!; simpl.
  - intros d ?%list_elem_of_singleton. done.
  - intros c ->%list_elem_of_singleton. right. by left.
  - intros _ op. done.
Qed.

(** What candidates force, the operands they stand for force. *)
Lemma cands_forced r cs ops d :
  cands_ok cs ops → forced env stored RkUnion r (cand_op <$> cs) d → forced env stored RkUnion r ops d.
Proof.
  intros (_ & Hin & Hall) Hf.
  apply forced_union_inv in Hf as [(-> & op & d' & Hop & Hd & Ha)|(-> & Hden)].
  - apply list_elem_of_fmap in Hop as (c & -> & Hc). destruct (Hin c Hc) as [E|Hop].
    + rewrite E in Hd. inversion Hd.
    + by eapply forced_union_allow.
  - apply forced_union_deny. intros op Hop. apply Hden, Hall; [|done].
    intros Herr. apply Hden in Herr as (d' & Hd & _). inversion Hd.
Qed.

Lemma collect_rows_ok {A} (f : A → M (list Candidate)) (ops : A → list Operand) rows s s' cs :
  (∀ a s s' cs, f a s = (s', Ok cs) → cands_ok cs (ops a)) →
  collect_rows f rows s = (s', Ok cs) → cands_ok cs (rows ≫= ops).
Proof.
  intros Hf. revert s cs. induction rows as [|a rows IH]; intros s cs Hc; simpl in *.
  - m_inv. apply cands_ok_nil.
  - m_inv. apply cands_ok_app; eauto.
Qed.

Lemma collect_rows_core {A} (f : A → M (list Candidate)) rows :
  (∀ a, respects same_core (f a)) → respects same_core (collect_rows f rows).
Proof.
  intros Hf. induction rows; simpl; respect.
Qed.

Lemma if_condition_ok t s s' o cs ops :
  evaluate_tuple_condition env w t s = (s', Ok o) →
  match o with
  | Some (Ok d) => if d.(allowed) then cands_ok cs ops else True
  | Some (Err e) => cs = [CImmediate (Err e)]
  | None => cs = []
  end → cands_ok cs (if_condition env t ops).
Proof.
  intros Hm. apply evaluate_tuple_condition_holds in Hm. unfold if_condition.
  destruct o as [[d|e]|].
  - destruct Hm as [-> ->]. done.
  - intros ->. apply cands_ok_error.
  - rewrite Hm. intros ->. apply cands_ok_nil.
Qed.

Lemma immediate_ok t s s' o :
  evaluate_tuple_condition env w t s = (s', Ok o) →
  cands_ok (match o with Some o => [CImmediate o] | None => [] end) (if_condition env t [OAllow]).
Proof.
  intros Hm. eapply if_condition_ok; [done|]. apply evaluate_tuple_condition_holds in Hm.
  destruct o as [[d|]|]; try done. destruct Hm as [-> _]. apply cands_ok_allow.
Qed.

Lemma direct_row_ok read restrictions t s s' cs :
  direct_row env w read restrictions t s = (s', Ok cs) →
  cands_ok cs (direct_operands env read.(drd_subject) read.(drd_path) restrictions t).
Proof.
  unfold direct_row, direct_operands. intros Hm. m_inv.
  match goal with Hc : matching_restriction _ _ _ = _ |- _ => rewrite Hc; clear Hc end.
  case_match; [|m_inv; apply cands_ok_nil]. case_match.
  - case_match; m_inv; [by eapply immediate_ok | apply cands_ok_nil].
  - case_match; try (m_inv; apply cands_ok_nil). m_inv. eapply if_condition_ok; [done|].
    match goal with Hc : evaluate_tuple_condition _ _ _ _ = _ |- _ =>
      apply evaluate_tuple_condition_holds in Hc as Hv end.
    case_match; [|by m_inv]. case_match; [|by m_inv]. case_match; [|done]. destruct Hv as [-> _].
    case_match; m_inv; [apply cands_ok_allow | apply cands_ok_work].
  - case_match; m_inv; [by eapply immediate_ok | apply cands_ok_nil].
Qed.

Lemma direct_row_core read restrictions t : respects same_core (direct_row env w read restrictions t).
Proof. unfold direct_row. respect. Qed.

Lemma ttu_target_ok read object target s s' cs :
  ttu_target env read object target s = (s', Ok cs) →
  cands_ok cs (target_operands env read.(trd_subject) read.(trd_path) object target).
Proof.
  unfold ttu_target, target_operands. intros Hm. m_inv.
  match goal with Hc : map_err _ (relation _ _) = _ |- _ => apply map_err_ok in Hc; rewrite Hc end.
  match goal with Hc : map_err _ (type_name _ _) = _ |- _ => apply map_err_ok in Hc; rewrite Hc end.
  case_match; m_inv; [apply cands_ok_work | apply cands_ok_nil].
Qed.

Lemma ttu_target_core read object target : respects same_core (ttu_target env read object target).
Proof. unfold ttu_target. respect. Qed.

Lemma ttu_row_ok read restrictions t s s' cs :
  ttu_row env w read restrictions t s = (s', Ok cs) →
  cands_ok cs (ttu_operands env read.(trd_subject) read.(trd_path) restrictions read.(trd_targets) t).
Proof.
  unfold ttu_row, ttu_operands. intros Hm. m_inv.
  match goal with Hc : matching_restriction _ _ _ = _ |- _ => rewrite Hc; clear Hc end.
  case_match; [|m_inv; apply cands_ok_nil]. case_match; try (m_inv; apply cands_ok_nil). m_inv.
  eapply if_condition_ok; [done|]. case_match; [|by m_inv]. case_match; [|by m_inv].
  case_match; [|done]. case_match; try (m_inv; apply cands_ok_nil).
  eapply collect_rows_ok; [|done]. intros. by eapply ttu_target_ok.
Qed.

Lemma ttu_row_core read restrictions t : respects same_core (ttu_row env w read restrictions t).
Proof.
  unfold ttu_row. respect. apply collect_rows_core. intros. apply ttu_target_core.
Qed.

(** ** The invariant *)

Definition reducer_ok (r : Reducer) (ops : list Operand) : Prop :=
  match r.(rd_kind) with
  | RkSingle => length ops = 1
  | RkDifference => length ops = 2
  | _ => True
  end ∧
  length r.(rd_outcomes) = length ops ∧ r.(rd_remaining) = missing r.(rd_outcomes) ∧
  ∀ i d, r.(rd_outcomes) !! i = Some (Some (Ok d)) → ∃ op, ops !! i = Some op ∧ op_decides op d.

Definition cont_task (c : ReadContinuation) (t : Task) : Prop :=
  match c with
  | ContDirect r =>
      ∃ n, node model n = Ok (NDirect r.(drd_relation)) ∧
           t = TRewrite r.(drd_object) n r.(drd_subject) r.(drd_path)
  | ContTtu r =>
      ∃ n c, node model n = Ok (NTupleToUserset r.(trd_tupleset) c r.(trd_targets)) ∧
             t = TRewrite r.(trd_object) n r.(trd_subject) r.(trd_path)
  end.

Definition cont_object (c : ReadContinuation) : ObjectRef :=
  match c with ContDirect r => r.(drd_object) | ContTtu r => r.(trd_object) end.
Definition cont_relation (c : ReadContinuation) : RelationId :=
  match c with ContDirect r => r.(drd_relation) | ContTtu r => r.(trd_tupleset) end.

Definition progress_ok (c : ReadContinuation) (p : ReadProgress) : Prop :=
  ∃ rel, relation model (cont_relation c) = Ok rel ∧
    match p with
    | ReadPending f => f = mkObjectRelationFilter (cont_object c) rel.(cr_name) [] CFAny
    | ReadDone (Ok rows) => ∀ x, x ∈ rows ↔ x ∈ stored (cont_object c) rel.(cr_name)
    | ReadDone (Err _) => True
    end.

Definition state_ok (t : Task) (ops : list Operand) (st : WorkState) : Prop :=
  match st with
  | Queued k => task_of k = t
  | Waiting r => reducer_ok r ops ∧
                 ∀ d, forced env stored r.(rd_kind) r.(rd_resolution) ops d → decides t d
  | Reading c => cont_task c t
  | Processing | Completed => True
  end.

Definition memo_ok (t : Task) (k : option MemoKey) : Prop :=
  match k with Some k => t = TSemantic k.(mk_semantic) k.(mk_branch_path) | None => True end.

(** [g] records, for every slot ever created, its task and its operands. *)
Abbreviation Ghost := (list (Task * list Operand)).

Definition parent_ok (root : Task) (g : Ghost) (i : WorkId) (t : Task) (p : option ParentLink) : Prop :=
  match p with
  | None => t = root
  | Some pl => pl.(pl_work) < i ∧
               ∃ pt pops, g !! pl.(pl_work) = Some (pt, pops) ∧ pops !! pl.(pl_operand) = Some (OTask t)
  end.

Definition slot_ok (root : Task) (g : Ghost) (i : WorkId) (slot : WorkSlot) : Prop :=
  ∃ t ops, g !! i = Some (t, ops) ∧ state_ok t ops slot.(ws_state) ∧ memo_ok t slot.(ws_memo_key) ∧
           parent_ok root g i t slot.(ws_parent).

Record Inv (root : Task) (g : Ghost) (s : Scheduler) : Prop := {
  inv_length : length g = length s.(slots);
  inv_slot : ∀ i slot, s.(slots) !! i = Some slot → slot_ok root g i slot;
  inv_parked : ∀ i slot pl, s.(slots) !! i = Some slot → slot.(ws_parent) = Some pl →
    ∃ pslot, s.(slots) !! pl.(pl_work) = Some pslot ∧ parked pslot.(ws_state);
  inv_memo : ∀ k d, bt_get k s.(memo) = Some d → decides (TSemantic k.(mk_semantic) k.(mk_branch_path)) d;
  inv_root : ∀ d, s.(root_result) = Some (Ok d) → decides root d;
  inv_reads_unique : NoDup (rk_work <$> s.(reads));
  inv_reads : ∀ task, task ∈ s.(reads) → ∃ slot, s.(slots) !! task.(rk_work) = Some slot ∧
    (slot.(ws_state) = Completed ∨
     ∃ c, slot.(ws_state) = Reading c ∧ progress_ok c task.(rk_progress));
}.

Lemma inv_core root g s s' : same_core s s' → Inv root g s → Inv root g s'.
Proof.
  intros (Hm & Hs & Hr & Ho) [? ? ? ? ? ? ?]. split; rewrite ?Hm, ?Hs, ?Hr, ?Ho; done.
Qed.

(** Only finished work and pending reads have read tasks. *)
Definition no_task (s : Scheduler) (id : WorkId) : Prop :=
  ∀ task, task ∈ s.(reads) → task.(rk_work) ≠ id.

Lemma inv_no_task root g s id slot :
  Inv root g s → s.(slots) !! id = Some slot →
  match slot.(ws_state) with Completed | Reading _ => False | _ => True end → no_task s id.
Proof.
  intros HI Hid Hst task Ht <-. destruct (inv_reads _ _ _ HI _ Ht) as (slot' & Hs' & Hcase).
  rewrite Hid in Hs'. injection Hs' as <-. destruct Hcase as [E | (c & E & _)]; by rewrite E in Hst.
Qed.

Lemma inv_no_children root g s id slot i cslot pl :
  Inv root g s → s.(slots) !! id = Some slot → ¬ parked slot.(ws_state) →
  s.(slots) !! i = Some cslot → cslot.(ws_parent) = Some pl → pl.(pl_work) ≠ id.
Proof.
  intros HI Hid Hnp Hi Hpl <-. destruct (inv_parked _ _ _ HI _ _ _ Hi Hpl) as (pslot & Hp & Hpk).
  rewrite Hid in Hp. injection Hp as <-. done.
Qed.

(** ** Updating one slot *)

Lemma slot_ok_update root g id t ops ops' i slot :
  g !! id = Some (t, ops) → i ≠ id → slot_ok root g i slot →
  (ops' = ops ∨ ∀ pl, slot.(ws_parent) = Some pl → pl.(pl_work) ≠ id) →
  slot_ok root (<[id := (t, ops')]> g) i slot.
Proof.
  intros Hg Hne (ti & opsi & Hi & Hst & Hmk & Hp) Hops. exists ti, opsi. split_and!; [|done|done|].
  - by rewrite list_lookup_insert_ne.
  - unfold parent_ok in *. destruct (ws_parent slot) as [pl|]; [|done].
    destruct Hp as (Hlt & pt & pops & Hpt & Hop). split; [done|].
    destruct (decide (pl_work pl = id)) as [E|E].
    + destruct Hops as [->|Hops]; [|by destruct (Hops pl)]. subst id.
      rewrite list_lookup_insert_eq by (by eapply lookup_lt_Some). rewrite Hg in Hpt.
      simplify_eq. by eexists _, _.
    + exists pt, pops. by rewrite list_lookup_insert_ne.
Qed.

Lemma inv_update root g s id slot slot' t ops ops' :
  Inv root g s → s.(slots) !! id = Some slot → g !! id = Some (t, ops) →
  slot'.(ws_parent) = slot.(ws_parent) → (ops' = ops ∨ ¬ parked slot.(ws_state)) →
  (parked slot.(ws_state) → parked slot'.(ws_state)) →
  state_ok t ops' slot'.(ws_state) → memo_ok t slot'.(ws_memo_key) →
  (slot'.(ws_state) = Completed ∨ no_task s id) →
  Inv root (<[id := (t, ops')]> g) (set_slots (<[id := slot']> s.(slots)) s).
Proof.
  intros HI Hid Hg Hpar Hops Hpk Hst Hmk Htask.
  assert (Hlt : id < length s.(slots)) by (by eapply lookup_lt_Some).
  assert (Hsame : ∀ i x, <[id := slot']> s.(slots) !! i = Some x →
    (i = id ∧ x = slot') ∨ (i ≠ id ∧ s.(slots) !! i = Some x)).
  { intros i x. destruct (decide (i = id)) as [->|Hne].
    - rewrite list_lookup_insert_eq by done. intros [= <-]. by left.
    - rewrite list_lookup_insert_ne by done. by right. }
  pose proof (inv_length _ _ _ HI) as Hlen.
  split; simpl; try (by apply HI).
  - by rewrite !length_insert.
  - intros i x [[-> ->]|[Hne Hi]]%Hsame.
    + destruct (inv_slot _ _ _ HI _ _ Hid) as (t0 & ops0 & Hg0 & _ & _ & Hp). rewrite Hg in Hg0.
      simplify_eq. exists t0, ops'. rewrite list_lookup_insert_eq by lia. split_and!; try done.
      rewrite Hpar. unfold parent_ok in *. destruct (ws_parent slot) as [pl|]; [|done].
      destruct Hp as (? & pt & pops & ? & ?). split; [done|]. exists pt, pops.
      by rewrite list_lookup_insert_ne by lia.
    + eapply slot_ok_update; [done|done|by eapply inv_slot|].
      destruct Hops as [?|Hnp]; [by left|]. right. intros pl Hpl. by eapply inv_no_children.
  - intros i x pl Hix Hpl. assert (∃ y, s.(slots) !! i = Some y ∧ y.(ws_parent) = Some pl) as (y & Hy & Hyp).
    { apply Hsame in Hix as [[-> ->]|[_ ?]]; [exists slot; by rewrite <-Hpar | eauto]. }
    destruct (inv_parked _ _ _ HI _ _ _ Hy Hyp) as (pslot & Hps & Hpp).
    destruct (decide (pl_work pl = id)) as [E|E].
    + subst id. rewrite Hid in Hps. simplify_eq. rewrite list_lookup_insert_eq by done. eauto.
    + rewrite list_lookup_insert_ne by done. eauto.
  - intros task Ht. destruct (inv_reads _ _ _ HI _ Ht) as (x & Hx & Hcase).
    destruct (decide (rk_work task = id)) as [E|E].
    + destruct Htask as [Hc|Hno]; [|by destruct (Hno _ Ht)]. rewrite E, list_lookup_insert_eq by done.
      exists slot'. split; [done | by left].
    + rewrite list_lookup_insert_ne by done. eauto.
Qed.

(** The same update without a change of operands. *)
Lemma inv_update_state root g s id slot slot' t ops :
  Inv root g s → s.(slots) !! id = Some slot → g !! id = Some (t, ops) →
  slot'.(ws_parent) = slot.(ws_parent) →
  (parked slot.(ws_state) → parked slot'.(ws_state)) →
  state_ok t ops slot'.(ws_state) → memo_ok t slot'.(ws_memo_key) →
  (slot'.(ws_state) = Completed ∨ no_task s id) →
  Inv root g (set_slots (<[id := slot']> s.(slots)) s).
Proof.
  intros HI Hid Hg Hpar Hpk Hst Hmk Htask.
  rewrite <-(list_insert_id g id (t, ops)) by done.
  eapply inv_update; [done|done|done|done|by left|done..].
Qed.

Lemma inv_ghost root g s id slot :
  Inv root g s → s.(slots) !! id = Some slot →
  ∃ t ops, g !! id = Some (t, ops) ∧ state_ok t ops slot.(ws_state) ∧
           memo_ok t slot.(ws_memo_key) ∧ parent_ok root g id t slot.(ws_parent).
Proof. intros HI Hid. by apply (inv_slot _ _ _ HI). Qed.

Lemma inv_set_memo root g s k d :
  Inv root g s → decides (TSemantic k.(mk_semantic) k.(mk_branch_path)) d →
  Inv root g (set_memo (bt_insert k d s.(memo)) s).
Proof.
  intros HI Hd. split; simpl; try (by apply HI). intros k' d'. rewrite bt_get_insert.
  destruct (cmp k' k) eqn:E; [|by apply HI..]. apply cmp_eq_iff in E as ->. by intros [= <-].
Qed.

Lemma inv_set_root root g s o :
  Inv root g s → (∀ d, o = Ok d → decides root d) → Inv root g (set_root_result (Some o) s).
Proof. intros HI Hd. split; simpl; try (by apply HI). intros d [= ->]. by apply Hd. Qed.

(** ** Reducers *)

Definition seen_outcomes (outs : list (option Evaluation)) : list Evaluation :=
  (fun o => default undecided o) <$> outs.

Lemma seen_outcomes_seen outs : Forall2 seen outs (seen_outcomes outs).
Proof.
  unfold seen_outcomes. induction outs as [|[e|] outs IH]; simpl; constructor; try done;
    [by right | by left].
Qed.

Lemma accept_ok r ops i e r' o :
  reducer_ok r ops → (∀ d, e = Ok d → ∃ op, ops !! i = Some op ∧ op_decides op d) →
  accept r i e = (r', Ok o) →
  match o with
  | None => reducer_ok r' ops ∧ r'.(rd_kind) = r.(rd_kind) ∧ r'.(rd_resolution) = r.(rd_resolution)
  | Some e' => ∀ d, e' = Ok d → forced env stored r.(rd_kind) r.(rd_resolution) ops d
  end.
Proof.
  intros (Hkind & Hlen & Hrem & Hdec) He Ha.
  destruct (r.(rd_outcomes) !! i) as [[x|]|] eqn:Hi;
    [by unfold accept in Ha; rewrite Hi in Ha | | by unfold accept in Ha; rewrite Hi in Ha].
  set (outs := <[i := Some e]> r.(rd_outcomes)).
  assert (Hlt : i < length r.(rd_outcomes)) by (by eapply lookup_lt_Some).
  assert (Hdec' : ∀ j d, outs !! j = Some (Some (Ok d)) → ∃ op, ops !! j = Some op ∧ op_decides op d).
  { intros j d. unfold outs. destruct (decide (j = i)) as [->|Hne].
    - rewrite list_lookup_insert_eq by done. intros [= Hed]. by apply He.
    - rewrite list_lookup_insert_ne by done. apply Hdec. }
  destruct (accept_combine r i e (seen_outcomes outs)) as (r0 & o0 & Ha' & Ho).
  - unfold seen_outcomes, outs. rewrite length_fmap, length_insert.
    destruct (rd_kind r); simpl in *; lia.
  - unfold seen_outcomes, outs. rewrite list_fmap_insert. simpl.
    rewrite <-(list_insert_id r.(rd_outcomes) i None Hi) at 1.
    apply Forall2_insert; [apply seen_outcomes_seen | by left].
  - done.
  - done.
  - unfold seen_outcomes, outs. rewrite list_lookup_fmap, list_lookup_insert_eq by done. done.
  - rewrite Ha in Ha'. simplify_eq. destruct o0 as [e'|].
    + intros d ->. exists (seen_outcomes outs). split_and!; [| |done].
      * unfold seen_outcomes, outs. by rewrite length_fmap, length_insert.
      * intros j op d' Hop Hj. unfold seen_outcomes in Hj. rewrite list_lookup_fmap in Hj.
        destruct (outs !! j) as [[x|]|] eqn:Ej; simplify_eq/=.
        destruct (Hdec' j d') as (op' & Hop' & ?); [done|]. by simplify_eq.
    + destruct Ho as [-> _]. unfold reducer_ok. simpl. split_and!; try done.
      by rewrite length_insert.
Qed.

(** ** Completion *)

Lemma store_memo_inv root g s s' t key outcome :
  Inv root g s → memo_ok t key → (∀ d, outcome = Ok d → decides t d) →
  store_memo key outcome s = (s', Ok ()) → Inv root g s' ∧ s'.(slots) = s.(slots).
Proof.
  intros HI Hmk Hout Hm. unfold store_memo in Hm. destruct key as [k|]; [|by m_inv].
  destruct outcome as [d|]; [|by m_inv]. m_inv. split; [|done].
  apply inv_set_memo; [done|]. simpl in Hmk. rewrite <-Hmk. by apply Hout.
Qed.

Lemma complete_loop_inv root fuel : ∀ g s0 id slot st outcome s s',
  Inv root g s0 → s0.(slots) !! id = Some slot →
  (∀ d t ops, outcome = Ok d → g !! id = Some (t, ops) → decides t d) →
  s = set_slots (<[id := mkWorkSlot slot.(ws_parent) slot.(ws_memo_key) st]> s0.(slots)) s0 →
  complete_loop fuel id outcome s = (s', Ok ()) → Inv root g s'.
Proof.
  induction fuel as [|fuel IH]; intros g s0 id slot st outcome s s' HI Hid Hout -> Hc; [done|].
  simpl in Hc. unfold slot_mut, set_slot in Hc. m_inv. simpl in *.
  assert (Hlt : id < length s0.(slots)) by (by eapply lookup_lt_Some).
  rewrite list_lookup_insert_eq in * by done. simplify_eq/=.
  destruct (inv_ghost _ _ _ _ _ HI Hid) as (t & ops & Hg & Hst & Hmk & Hpar).
  assert (HI1 : Inv root g (set_slots (<[id := mkWorkSlot (ws_parent slot) None Completed]> s0.(slots)) s0)).
  { eapply inv_update_state; try done. by left. }
  match goal with
  | Hm : store_memo _ _ _ = (_, Ok _) |- _ =>
      rewrite list_insert_insert_eq in Hm; eapply store_memo_inv in Hm as [HI2 Hslots];
        [|exact HI1|exact Hmk|by intros d ->; eapply Hout]
  end.
  clear HI1.
  destruct (ws_parent slot) as [pl|] eqn:Ep.
  2: { m_inv. apply inv_set_root; [done|]. intros d ->. simpl in Hpar. subst. by eapply Hout. }
  m_inv. destruct Hpar as (Hlt' & pt & pops & Hpg & Hpop).
  match goal with Hp : ok_or _ _ = Ok ?ps |- _ => rename ps into pslot; apply ok_or_ok in Hp as Hps end.
  destruct (inv_ghost _ _ _ _ _ HI2 Hps) as (pt' & pops' & Hpg' & Hpst & Hpmk & Hppar).
  rewrite Hpg in Hpg'. simplify_eq.
  destruct (ws_state pslot) as [| |r| |] eqn:Est; try (by m_inv).
  - destruct (accept r (pl_operand pl) outcome) as [r' red] eqn:Ea. m_inv.
    simpl in Hpst. destruct Hpst as [Hrok Hrdec].
    eapply accept_ok in Ea; [|done|].
    2: { intros d ->. exists (OTask t). split; [done|]. constructor. by eapply Hout. }
    match goal with Hm : (match ?o with _ => _ end) _ = _ |- _ => destruct o as [outcome'|] end.
    + eapply IH; [exact HI2 | exact Hps | | reflexivity | eassumption].
      intros d t0 ops0 -> Hg0. rewrite Hpg in Hg0. simplify_eq. by apply Hrdec, Ea.
    + m_inv. destruct Ea as (Hrok' & Hk & Hres). eapply inv_update_state; simpl; try done.
      * by rewrite Hk, Hres.
      * right. eapply inv_no_task; [done|done|]. by rewrite Est.
Qed.

Lemma complete_inv root g s id outcome s' :
  Inv root g s → (∀ d t ops, outcome = Ok d → g !! id = Some (t, ops) → decides t d) →
  complete id outcome s = (s', Ok ()) → Inv root g s'.
Proof.
  intros HI Hout Hc. unfold complete in Hc. m_inv.
  destruct (s.(slots) !! id) as [slot|] eqn:Hid.
  - eapply complete_loop_inv; [done|done|done| |done]. instantiate (1 := ws_state slot).
    destruct slot, s. unfold set_slots. simpl in *. by rewrite list_insert_id.
  - simpl in *. unfold slot_mut in *. m_inv. by rewrite Hid in *.
Qed.

Lemma accept_operand_inv root g s id operand outcome s' :
  Inv root g s →
  (∀ d t ops, outcome = Ok d → g !! id = Some (t, ops) →
              ∃ op, ops !! operand = Some op ∧ op_decides op d) →
  accept_operand id operand outcome s = (s', Ok ()) → Inv root g s'.
Proof.
  intros HI Hout Ha. unfold accept_operand, slot_mut, set_slot in Ha. m_inv.
  match goal with Hp : ok_or _ _ = Ok ?x |- _ => rename x into slot; apply ok_or_ok in Hp as Hid end.
  destruct (inv_ghost _ _ _ _ _ HI Hid) as (t & ops & Hg & Hst & Hmk & Hpar).
  destruct (ws_state slot) as [| |r| |] eqn:Est; try (by m_inv).
  destruct (accept r operand outcome) as [r' red] eqn:Ea. m_inv.
  destruct Hst as [Hrok Hrdec]. eapply accept_ok in Ea; [|done|by intros d ->; eapply Hout].
  match goal with Hm : (match ?o with _ => _ end) _ = _ |- _ => destruct o as [outcome'|] end.
  - unfold complete in *. m_inv. eapply complete_loop_inv; [done|done| |reflexivity|eassumption].
    intros d t' ops' -> Hg'. simplify_eq. by apply Hrdec, Ea.
  - m_inv. destruct Ea as (Hrok' & Hk & Hres). eapply inv_update_state; simpl; try done.
    + by rewrite Hk, Hres.
    + right. eapply inv_no_task; [done|done|]. by rewrite Est.
Qed.

(** ** Scheduling *)

Lemma charge_dispatch_core : respects same_core (charge_dispatch env w).
Proof. unfold charge_dispatch. respect. Qed.

Lemma schedule_err kind parent s s' f :
  schedule env w kind parent s = (s', Err f) → same_core s s'.
Proof.
  unfold schedule. intros [Hc|(u & s1 & _ & [=])]%bind_err. by eapply charge_dispatch_core.
Qed.

Lemma schedule_ok kind parent s s' id :
  schedule env w kind parent s = (s', Ok id) →
  ∃ s1, same_core s s1 ∧ id = length s.(slots) ∧
    same_core (set_slots (s.(slots) ++ [mkWorkSlot parent None (Queued kind)]) s1) s'.
Proof.
  unfold schedule. intros Hm. m_inv. apply charge_dispatch_core in Hm0 as Hc.
  exists s0. destruct Hc as (? & Hs & ? & ?). split_and!; [done|by rewrite Hs|].
  unfold same_core. simpl. by rewrite Hs.
Qed.

Lemma inv_append root g s kind parent :
  Inv root g s → parent_ok root g (length s.(slots)) (task_of kind) parent →
  (∀ pl, parent = Some pl → ∃ pslot, s.(slots) !! pl.(pl_work) = Some pslot ∧ parked pslot.(ws_state)) →
  Inv root (g ++ [(task_of kind, [])])
    (set_slots (s.(slots) ++ [mkWorkSlot parent None (Queued kind)]) s).
Proof.
  intros HI Hpar Hpk. pose proof (inv_length _ _ _ HI) as Hlen.
  assert (Hmono : ∀ i t p, parent_ok root g i t p → parent_ok root (g ++ [(task_of kind, [])]) i t p).
  { intros i t [pl|]; simpl; [|done]. intros (? & pt & pops & Hg & ?). split; [done|].
    exists pt, pops. split; [|done]. by apply lookup_app_l_Some. }
  assert (Hold : ∀ i x, (s.(slots) ++ [mkWorkSlot parent None (Queued kind)]) !! i = Some x →
    s.(slots) !! i = Some x ∨ i = length s.(slots) ∧ x = mkWorkSlot parent None (Queued kind)).
  { intros i x [?|[? Hx]]%lookup_app_Some; [by left|right].
    apply list_lookup_singleton_Some in Hx as [? <-]. split; [lia|done]. }
  split; simpl; try (by apply HI).
  - rewrite !length_app. simpl. lia.
  - intros i x [Hi|[-> ->]]%Hold.
    + destruct (inv_slot _ _ _ HI _ _ Hi) as (t & ops & Hg & ? & ? & ?). exists t, ops.
      split_and!; [by apply lookup_app_l_Some | done | done | by apply Hmono].
    + exists (task_of kind), []. split_and!; [|done|done|by apply Hmono].
      rewrite <-Hlen. by apply list_lookup_middle.
  - intros i x pl [Hi|[-> ->]]%Hold Hp.
    + destruct (inv_parked _ _ _ HI _ _ _ Hi Hp) as (pslot & ? & ?). exists pslot.
      split; [by apply lookup_app_l_Some | done].
    + destruct (Hpk pl Hp) as (pslot & ? & ?). exists pslot. split; [by apply lookup_app_l_Some|done].
  - intros task Ht. destruct (inv_reads _ _ _ HI _ Ht) as (x & ? & ?). exists x.
    split; [by apply lookup_app_l_Some | done].
Qed.

Lemma is_active_ok id s s' b : is_active id s = (s', Ok b) → s' = s.
Proof. unfold is_active. naive_solver. Qed.

(** ** Parked slots stay parked *)

Lemma set_slot_parked id slot : parked slot.(ws_state) → respects keeps_parked (set_slot id slot).
Proof.
  intros Hp. apply respects_modify. intros s i x Hi Hx. simpl.
  destruct (decide (i = id)) as [->|Hne].
  - exists slot. split; [|done]. apply list_lookup_insert_eq. by eapply lookup_lt_Some.
  - exists x. by rewrite list_lookup_insert_ne.
Qed.

Lemma core_parked {A} (m : M A) : respects same_core m → respects keeps_parked m.
Proof. intros Hm s s' r E. by eapply same_core_keeps_parked, Hm. Qed.

Lemma slot_mut_parked id : respects keeps_parked (slot_mut id).
Proof. unfold slot_mut. respect. Qed.

Lemma store_memo_parked key outcome : respects keeps_parked (store_memo key outcome).
Proof.
  unfold store_memo. respect. apply respects_modify. intros s i slot. simpl. eauto.
Qed.

Lemma root_result_parked o : respects keeps_parked (modify (set_root_result o)).
Proof. apply respects_modify. intros s i x. simpl. eauto. Qed.

Ltac park :=
  repeat first
    [ progress respect | apply slot_mut_parked | apply store_memo_parked | apply root_result_parked
    | by apply set_slot_parked ].

Lemma complete_loop_parked fuel : ∀ id outcome, respects keeps_parked (complete_loop fuel id outcome).
Proof.
  induction fuel as [|fuel IH]; intros id outcome; simpl; [apply respects_fuel, _|].
  park.
Qed.
#[local] Hint Resolve complete_loop_parked : core_db.

Lemma complete_parked id outcome : respects keeps_parked (complete id outcome).
Proof. unfold complete. park. Qed.
#[local] Hint Resolve complete_parked : core_db.

Lemma accept_operand_parked id operand outcome :
  respects keeps_parked (accept_operand id operand outcome).
Proof. unfold accept_operand. park. Qed.
#[local] Hint Resolve accept_operand_parked : core_db.

Lemma schedule_parked kind parent : respects keeps_parked (schedule env w kind parent).
Proof.
  intros s s' [id|f] Hm.
  - apply schedule_ok in Hm as (s1 & (_ & Hs1 & _) & _ & (_ & Hs & _)).
    intros i x Hi Hx. exists x. split; [|done]. rewrite Hs. simpl. by apply lookup_app_l_Some.
  - by eapply same_core_keeps_parked, schedule_err.
Qed.
#[local] Hint Resolve schedule_parked : core_db.

Lemma schedule_child_or_error_parked p operand kind :
  respects keeps_parked (schedule_child_or_error env w p operand kind).
Proof.
  unfold schedule_child_or_error. park.
Qed.

(** A scheduled child extends the ghost record; a refused one is an error
    operand of its parent. *)
Lemma schedule_child_or_error_inv root g s p pslot operand kind pt pops s' :
  Inv root g s → s.(slots) !! p = Some pslot → parked pslot.(ws_state) →
  g !! p = Some (pt, pops) → pops !! operand = Some (OTask (task_of kind)) →
  schedule_child_or_error env w p operand kind s = (s', Ok ()) →
  ∃ g', Inv root g' s' ∧ g `prefix_of` g'.
Proof.
  intros HI Hp Hpk Hg Hop Hm. unfold schedule_child_or_error in Hm. m_inv.
  apply catch_ok in Hm0. destruct a as [id|e].
  - m_inv. apply schedule_ok in Hm0 as (s1 & Hc1 & _ & Hc2).
    exists (g ++ [(task_of kind, [])]). split; [|by apply prefix_app_r].
    eapply inv_core; [exact Hc2|]. pose proof (inv_core _ _ _ _ Hc1 HI) as HI1.
    destruct Hc1 as (_ & Hs1 & _). rewrite <-Hs1. apply inv_append; [done| |].
    + simpl. split; [rewrite Hs1; by eapply lookup_lt_Some|]. by exists pt, pops.
    + intros pl [= <-]. simpl. rewrite Hs1. eauto.
  - apply schedule_err in Hm0. exists g. split; [|done].
    eapply (accept_operand_inv _ _ _ p operand (Err e)); [by eapply inv_core|by intros|done].
Qed.

Lemma prefix_lookup_ghost (g g' : Ghost) i x : g `prefix_of` g' → g !! i = Some x → g' !! i = Some x.
Proof. intros [k ->] ?. by apply lookup_app_l_Some. Qed.

Lemma schedule_children_inv root kinds : ∀ g s id slot operand t ops s',
  Inv root g s → s.(slots) !! id = Some slot → parked slot.(ws_state) →
  g !! id = Some (t, ops) →
  (∀ i k, kinds !! i = Some k → ops !! (operand + i) = Some (OTask (task_of k))) →
  schedule_children env w id operand kinds s = (s', Ok ()) →
  ∃ g', Inv root g' s'.
Proof.
  induction kinds as [|k kinds IH]; intros g s id slot operand t ops s' HI Hid Hpk Hg Hops Hm;
    simpl in Hm; [m_inv; by exists g|]. m_inv.
  apply is_active_ok in Hm0 as ->. case_match; [m_inv; by exists g|]. m_inv.
  rename select (schedule_child_or_error _ _ _ _ _ _ = _) into Hsc.
  eapply schedule_child_or_error_parked in Hsc as Hkeep.
  destruct (Hkeep _ _ Hid Hpk) as (slot' & Hid' & Hpk').
  eapply schedule_child_or_error_inv in Hsc as (g1 & HI1 & Hpre); try done.
  2: { rewrite <-(Nat.add_0_r operand). by apply (Hops 0). }
  eapply IH; [done|done|done|by eapply prefix_lookup_ghost| |done].
  intros i k' Hk. rewrite Nat.add_succ_comm. by apply (Hops (S i)).
Qed.

Lemma start_candidates_loop_inv root cs : ∀ g s id slot operand t ops s',
  Inv root g s → s.(slots) !! id = Some slot → parked slot.(ws_state) →
  g !! id = Some (t, ops) → (∀ d, CImmediate (Ok d) ∈ cs → d = allow RDirect) →
  (∀ i c, cs !! i = Some c → ops !! (operand + i) = Some (cand_op c)) →
  start_candidates_loop env w id operand cs s = (s', Ok ()) →
  ∃ g', Inv root g' s'.
Proof.
  induction cs as [|c cs IH]; intros g s id slot operand t ops s' HI Hid Hpk Hg Himm Hops Hm;
    simpl in Hm; [m_inv; by exists g|]. m_inv.
  apply is_active_ok in Hm0 as ->. case_match; [m_inv; by exists g|].
  apply bind_ok in Hm1 as ([] & s1 & Hsc & Hm).
  assert (Hop : ops !! operand = Some (cand_op c)).
  { rewrite <-(Nat.add_0_r operand). by apply (Hops 0). }
  assert (∃ g1 slot', Inv root g1 s1 ∧ g `prefix_of` g1 ∧ s1.(slots) !! id = Some slot' ∧
                      parked slot'.(ws_state)) as (g1 & slot' & HI1 & Hpre & Hid' & Hpk').
  { destruct c as [e|work].
    - eapply accept_operand_parked in Hsc as Hkeep.
      destruct (Hkeep _ _ Hid Hpk) as (slot' & Hid' & Hpk'). exists g, slot'. split_and!; try done.
      eapply accept_operand_inv; [done| |done]. intros d t' ops' -> Hg'. simplify_eq.
      exists OAllow. split; [done|]. rewrite (Himm d) by (by left). constructor.
    - eapply schedule_child_or_error_parked in Hsc as Hkeep.
      destruct (Hkeep _ _ Hid Hpk) as (slot' & Hid' & Hpk').
      eapply schedule_child_or_error_inv in Hsc as (g1 & HI1 & Hpre); try done. by exists g1, slot'. }
  eapply IH; [done|done|done|by eapply prefix_lookup_ghost| | |done].
  - intros d Hd. apply Himm. by right.
  - intros i c' Hc. rewrite Nat.add_succ_comm. by apply (Hops (S i)).
Qed.

(** ** Work in progress *)

(** Slot [id] is being processed for task [t]. *)
Definition working (root : Task) (g : Ghost) (s : Scheduler) (id : WorkId) (t : Task) : Prop :=
  Inv root g s ∧ ∃ slot ops, s.(slots) !! id = Some slot ∧ slot.(ws_state) = Processing ∧
                             g !! id = Some (t, ops).

Lemma working_core root g s s' id t : same_core s s' → working root g s id t → working root g s' id t.
Proof.
  intros Hc (HI & Hex). split; [by eapply inv_core|]. destruct Hc as (_ & Hs & _). by rewrite Hs.
Qed.

Lemma working_complete root g s id t outcome s' :
  working root g s id t → (∀ d, outcome = Ok d → decides t d) →
  complete id outcome s = (s', Ok ()) → Inv root g s'.
Proof.
  intros (HI & slot & ops & Hid & _ & Hg) Hout Hm. eapply complete_inv; [done| |done].
  intros d t' ops' -> Hg'. simplify_eq. by apply Hout.
Qed.

Lemma working_error root g s id t e s' :
  working root g s id t → complete id (Err e) s = (s', Ok ()) → Inv root g s'.
Proof. intros Hw. by apply (working_complete _ _ _ _ _ _ _ Hw). Qed.

Lemma set_state_ok id st s s' :
  set_state id st s = (s', Ok ()) → ∃ slot, s.(slots) !! id = Some slot ∧
    s' = set_slots (<[id := mkWorkSlot slot.(ws_parent) slot.(ws_memo_key) st]> s.(slots)) s.
Proof.
  unfold set_state, slot_mut, set_slot. intros Hm. m_inv.
  rename select (ok_or _ _ = Ok _) into Hok. apply ok_or_ok in Hok. eauto.
Qed.

Lemma working_set_state root g s id t st s' ops' :
  working root g s id t → state_ok t ops' st → set_state id st s = (s', Ok ()) →
  Inv root (<[id := (t, ops')]> g) s' ∧ <[id := (t, ops')]> g !! id = Some (t, ops') ∧
  ∃ slot, s'.(slots) !! id = Some slot ∧ slot.(ws_state) = st.
Proof.
  intros (HI & slot & ops & Hid & Hst & Hg) Hok (slot' & Hid' & ->)%set_state_ok. simplify_eq.
  destruct (inv_ghost _ _ _ _ _ HI Hid) as (t' & ops'' & Hg' & _ & Hmk & _). simplify_eq.
  split_and!.
  - apply (inv_update _ _ _ _ _ _ _ _ ops' HI Hid Hg); simpl; rewrite ?Hst; try done.
    + right. by intros ?.
    + right. eapply inv_no_task; [done|done|]. by rewrite Hst.
  - apply list_lookup_insert_eq. by eapply lookup_lt_Some.
  - simpl. rewrite list_lookup_insert_eq by (by eapply lookup_lt_Some). by eexists.
Qed.

Lemma reducer_new_ok kind r ops :
  match kind with RkSingle => length ops = 1 | RkDifference => length ops = 2 | _ => True end →
  reducer_ok (reducer_new kind (length ops) r) ops.
Proof.
  intros Hk. unfold reducer_ok, reducer_new. simpl. rewrite length_replicate, missing_replicate.
  split_and!; try done. intros i d Hi. by apply lookup_replicate in Hi as [? _].
Qed.

Lemma working_wait root g s id t kind r ops s' :
  working root g s id t →
  match kind with RkSingle => length ops = 1 | RkDifference => length ops = 2 | _ => True end →
  (∀ d, forced env stored kind r ops d → decides t d) →
  set_state id (Waiting (reducer_new kind (length ops) r)) s = (s', Ok ()) →
  ∃ g' slot, Inv root g' s' ∧ g' !! id = Some (t, ops) ∧ s'.(slots) !! id = Some slot ∧
             parked slot.(ws_state).
Proof.
  intros Hw Hk Hf Hm. eapply (working_set_state _ _ _ _ _ _ _ ops) in Hm as (HI & Hg & slot & Hid & Hst);
    [|done|split; [by apply reducer_new_ok | done]].
  exists (<[id := (t, ops)]> g), slot. rewrite Hst. done.
Qed.

(** ** Reads that completed *)

Lemma cands_ok_ext cs ops ops' :
  (∀ op, op ∈ ops ↔ op ∈ ops') → cands_ok cs ops → cands_ok cs ops'.
Proof. intros Hext (H1 & H2 & H3). split_and!; naive_solver. Qed.

Lemma start_candidates_inv root g s id t r ops cs s' :
  working root g s id t → expand env stored t = XNode RkUnion (Some r) ops → cands_ok cs ops →
  start_candidates env w id cs r s = (s', Ok ()) → ∃ g', Inv root g' s'.
Proof.
  intros Hw Hx Hcs Hm. unfold start_candidates in Hm.
  assert (Hf : ∀ d, forced env stored RkUnion (Some r) (cand_op <$> cs) d → decides t d).
  { intros d Hf. eapply Decides_forced; [done|]. by eapply cands_forced. }
  destruct cs as [|c cs'] eqn:Ecs.
  - exists g. eapply (working_complete _ _ _ _ _ _ _ Hw); [|done]. intros d [= <-]. apply Hf.
    apply forced_union_deny. by intros op ?%elem_of_nil.
  - rewrite <-Ecs in *. m_inv.
    rewrite <-(length_fmap cand_op cs) in Hm0.
    eapply working_wait in Hm0 as (g1 & slot & HI1 & Hg1 & Hid & Hpk); [|done|done|done].
    eapply start_candidates_loop_inv; [done|done|done|done|by apply Hcs| |done].
    intros i c' Hc. simpl. by rewrite list_lookup_fmap, Hc.
Qed.

Lemma bind_rows_ext (f : RelationshipTuple → list Operand) rows rows' :
  (∀ x, x ∈ rows ↔ x ∈ rows') → ∀ op, op ∈ (rows ≫= f) ↔ op ∈ (rows' ≫= f).
Proof. intros Hext op. rewrite !list_elem_of_bind. naive_solver. Qed.

Lemma finish_direct_inv root g s id n read rel rows s' :
  working root g s id (TRewrite read.(drd_object) n read.(drd_subject) read.(drd_path)) →
  node model n = Ok (NDirect read.(drd_relation)) → relation model read.(drd_relation) = Ok rel →
  (∀ x, x ∈ rows ↔ x ∈ rows_at env stored read.(drd_object) rel.(cr_name)) →
  finish_direct env w id read rows s = (s', Ok ()) → ∃ g', Inv root g' s'.
Proof.
  intros Hw Hn Hrel Hrows Hm. unfold finish_direct in Hm. m_inv.
  rename select (map_err _ _ = Ok _) into Hr. apply map_err_ok in Hr. rewrite Hrel in Hr. simplify_eq.
  rename select (collect_rows _ _ _ = _) into Hc.
  eapply start_candidates_inv; [| | |done].
  - eapply working_core; [|done]. eapply collect_rows_core, Hc. intros. apply direct_row_core.
  - simpl. rewrite Hn. unfold read_expansion. by rewrite Hrel.
  - eapply cands_ok_ext; [apply bind_rows_ext, Hrows|]. eapply collect_rows_ok; [|done].
    intros ? ? ? ? Hx. eapply direct_row_ok, Hx.
Qed.

Lemma finish_ttu_inv root g s id n c read rel rows s' :
  working root g s id (TRewrite read.(trd_object) n read.(trd_subject) read.(trd_path)) →
  node model n = Ok (NTupleToUserset read.(trd_tupleset) c read.(trd_targets)) →
  relation model read.(trd_tupleset) = Ok rel →
  (∀ x, x ∈ rows ↔ x ∈ rows_at env stored read.(trd_object) rel.(cr_name)) →
  finish_ttu env w id read rows s = (s', Ok ()) → ∃ g', Inv root g' s'.
Proof.
  intros Hw Hn Hrel Hrows Hm. unfold finish_ttu in Hm. m_inv.
  rename select (map_err _ _ = Ok _) into Hr. apply map_err_ok in Hr. rewrite Hrel in Hr. simplify_eq.
  rename select (collect_rows _ _ _ = _) into Hc.
  eapply start_candidates_inv; [| | |done].
  - eapply working_core; [|done]. eapply collect_rows_core, Hc. intros. apply ttu_row_core.
  - simpl. rewrite Hn. unfold read_expansion. by rewrite Hrel.
  - eapply cands_ok_ext; [apply bind_rows_ext, Hrows|]. eapply collect_rows_ok; [|done].
    intros ? ? ? ? Hx. eapply ttu_row_ok, Hx.
Qed.

Lemma charge_tuple_items_core a b : respects same_core (charge_tuple_items env w a b).
Proof. unfold charge_tuple_items. respect. Qed.
#[local] Hint Resolve charge_tuple_items_core : core_db.

Lemma finish_rows_inv root g s id t code rid object rel rows k s' :
  working root g s id t → relation model rid = Ok rel →
  (∀ x, x ∈ rows ↔ x ∈ stored object rel.(cr_name)) →
  (∀ all s1 s2, working root g s1 id t →
     (∀ x, x ∈ all ↔ x ∈ rows_at env stored object rel.(cr_name)) →
     k all s1 = (s2, Ok ()) → ∃ g', Inv root g' s2) →
  finish_rows env w id code rid object rows k s = (s', Ok ()) → ∃ g', Inv root g' s'.
Proof.
  intros Hw Hrel Hrows Hk Hm. unfold finish_rows in Hm. m_inv.
  rename select (map_err _ _ = Ok _) into Hr. apply map_err_ok in Hr. rewrite Hrel in Hr. simplify_eq.
  rename select (catch _ _ = _) into Hc. apply catch_ok in Hc.
  eapply charge_tuple_items_core in Hc as Hcore.
  pose proof (working_core _ _ _ _ _ _ Hcore Hw) as Hw'. case_match.
  - eapply Hk; [exact Hw'| |done]. intros x. unfold rows_at. rewrite !elem_of_app. naive_solver.
  - exists g. by eapply working_error.
Qed.

(** ** Taking a slot *)

Lemma set_state_processing root g s id slot t ops s' :
  Inv root g s → s.(slots) !! id = Some slot → g !! id = Some (t, ops) →
  ¬ parked slot.(ws_state) → no_task s id →
  set_state id Processing s = (s', Ok ()) → working root g s' id t.
Proof.
  intros HI Hid Hg Hnp Hnt (slot' & Hid' & ->)%set_state_ok. simplify_eq.
  destruct (inv_ghost _ _ _ _ _ HI Hid) as (t' & ops' & Hg' & _ & Hmk & _). simplify_eq.
  split.
  - eapply inv_update_state; try done. by right.
  - eexists _, ops. simpl. rewrite list_lookup_insert_eq by (by eapply lookup_lt_Some). done.
Qed.

Lemma set_state_completed root g s id s' :
  Inv root g s → set_state id Completed s = (s', Ok ()) → Inv root g s'.
Proof.
  intros HI (slot & Hid & ->)%set_state_ok.
  destruct (inv_ghost _ _ _ _ _ HI Hid) as (t & ops & Hg & _ & Hmk & _).
  eapply inv_update_state; try done. by left.
Qed.

Lemma finish_read_inv root g s id slot rows s' :
  Inv root g s → no_task s id → s.(slots) !! id = Some slot →
  (∀ c, slot.(ws_state) = Reading c → progress_ok c (ReadDone rows)) →
  finish_read env w id rows s = (s', Ok ()) → ∃ g', Inv root g' s'.
Proof.
  intros HI Hnt Hid Hrows Hm. unfold finish_read in Hm. m_inv.
  apply is_active_ok in Hm0 as ->. case_match; [exists g; by eapply set_state_completed|].
  apply bind_ok in Hm1 as (slot' & s1 & Hs & Hm). unfold slot_mut in Hs. m_inv.
  rename select (ok_or _ _ = Ok _) into Hok. apply ok_or_ok in Hok. simplify_eq.
  destruct (ws_state slot) as [| | |c|] eqn:Est; try (by m_inv).
  destruct (inv_ghost _ _ _ _ _ HI Hid) as (t & ops & Hg & Hst & _). rewrite Est in Hst. simpl in Hst.
  eapply set_state_processing in Hm0 as Hw; [|done|done|done|rewrite Est; by intros []|done].
  destruct rows as [rows|e]; [|exists g; by eapply working_error; [exact Hw|]].
  destruct (Hrows c eq_refl) as (rel & Hrel & Hels). destruct c as [read|read]; simpl in *.
  - destruct Hst as (n & Hn & ->). eapply finish_rows_inv; [exact Hw|done|done| |done].
    intros all s2 s3 Hw2 Hall Hf. eapply finish_direct_inv; [exact Hw2|done|done|done|done].
  - destruct Hst as (n & c & Hn & ->). eapply finish_rows_inv; [exact Hw|done|done| |done].
    intros all s2 s3 Hw2 Hall Hf. eapply finish_ttu_inv; [exact Hw2|done|done|done|done].
Qed.

(** ** Starting reads *)

Lemma inv_add_read root g s id slot c f :
  Inv root g s → no_task s id → s.(slots) !! id = Some slot → slot.(ws_state) = Reading c →
  progress_ok c (ReadPending f) →
  Inv root g (set_reads (s.(reads) ++ [mkReadTask id (ReadPending f)]) s).
Proof.
  intros HI Hnt Hid Hst Hp. split; simpl; try (by apply HI).
  - rewrite fmap_app. apply NoDup_app. split_and!; [by apply HI| |by apply NoDup_singleton].
    intros x Hx ->%list_elem_of_singleton. apply list_elem_of_fmap in Hx as (task & Hx & Ht).
    by destruct (Hnt _ Ht).
  - intros task [Ht| ->%list_elem_of_singleton]%elem_of_app; [by apply (inv_reads _ _ _ HI)|].
    exists slot. split; [done|]. right. eauto.
Qed.

Lemma start_read_inv root g s id t c s' :
  working root g s id t → cont_task c t →
  start_read env w id (cont_relation c) (cont_object c) c s = (s', Ok ()) → ∃ g', Inv root g' s'.
Proof.
  intros Hw Hc Hm. unfold start_read in Hm. m_inv.
  match type of Hm3 with _ ?s1 = _ => assert (Hw1 : working root g s1 id t) by (by eapply working_core; [|exact Hw]) end.
  case_match; [exists g; by eapply working_error; [exact Hw1|]|]. m_inv.
  rename select (charge_meter _ _ _ _ = _) into Hch.
  eapply charge_meter_core in Hch as Hcore. pose proof (working_core _ _ _ _ _ _ Hcore Hw1) as Hw2.
  case_match; [exists g; by eapply working_error; [exact Hw2|]|].
  destruct (relation model (cont_relation c)) as [rel|] eqn:Hrel;
    [|exists g; by eapply working_error; [exact Hw2|]].
  destruct (object_relation_filter_new _ _ _ _ _) as [f|] eqn:Ef;
    [|exists g; by eapply working_error; [exact Hw2|]].
  m_inv. destruct Hw2 as (HI2 & slot & ops & Hid & Hst & Hg).
  assert (Hnt : no_task s0 id) by (eapply inv_no_task; [done|done|by rewrite Hst]).
  rename select (set_state _ _ _ = _) into Hset. pose proof Hset as (slot' & _ & Es)%set_state_ok.
  eapply (working_set_state _ _ _ _ t _ _ ops) in Hset as (HI3 & _ & slot3 & Hid3 & Hst3);
    [|split; [exact HI2 | by eexists _, _] | done].
  eexists. eapply inv_add_read; [exact HI3| |done|done|].
  - intros task. rewrite Es. apply Hnt.
  - exists rel. split; [done|]. unfold object_relation_filter_new in Ef. case_match; by simplify_eq.
Qed.

(** ** Read tasks *)

Lemma read_task_core f : respects same_core (read_task env w f).
Proof. unfold read_task. respect. Qed.

Lemma read_task_rows f s s' rows :
  snapshot_reads → f.(orf_subjects) = [] → f.(orf_conditions) = CFAny →
  read_task env w f s = (s', Ok (Ok rows)) →
  ∀ x, x ∈ rows ↔ x ∈ stored f.(orf_object) f.(orf_relation).
Proof.
  intros Hsnap Hsub Hcond Hm. unfold read_task in Hm. m_inv.
  destruct (w_read _ _ _ _ _) as [stream|] eqn:Er; [|m_inv]. case_match; [|m_inv]. m_inv.
  case_match; [m_inv|]. rename select (_ = (s', Ok (Ok rows))) into Hc. apply ret_ok in Hc as [_ Hc].
  eapply Hsnap; [done| |done|done]. by eapply try_collect_relabel.
Qed.

Lemma inv_set_progress root g s i id p p' :
  Inv root g s → s.(reads) !! i = Some (mkReadTask id p) →
  (∀ c, progress_ok c p → progress_ok c p') →
  Inv root g (set_reads (<[i := mkReadTask id p']> s.(reads)) s).
Proof.
  intros HI Hi Hp. split; simpl; try (by apply HI).
  - rewrite list_fmap_insert. simpl. rewrite list_insert_id; [by apply HI|].
    by rewrite list_lookup_fmap, Hi.
  - intros task [j Hj]%list_elem_of_lookup. destruct (decide (j = i)) as [->|Hne].
    + rewrite list_lookup_insert_eq in Hj by (by eapply lookup_lt_Some). simplify_eq. simpl.
      apply list_elem_of_lookup_2 in Hi.
      destruct (inv_reads _ _ _ HI _ Hi) as (slot & Hs & [?|(c & ? & ?)]); exists slot; [eauto|].
      split; [done|]. right. exists c. split; [done|]. by apply Hp.
    + rewrite list_lookup_insert_ne in Hj by done. apply (inv_reads _ _ _ HI).
      by eapply list_elem_of_lookup_2.
Qed.

Lemma run_task_inv root g s i s' :
  snapshot_reads → Inv root g s → run_task env w i s = (s', Ok ()) → Inv root g s'.
Proof.
  intros Hsnap HI Hm. unfold run_task in Hm. m_inv.
  destruct (s.(reads) !! i) as [[id [f|rows]]|] eqn:Hi; [|by m_inv..]. m_inv.
  rename select (read_task _ _ _ _ = _) into Hr. rename a into rows.
  apply read_task_core in Hr as Hcore. pose proof Hcore as (_ & _ & Hreads & _).
  eapply inv_set_progress; [by eapply inv_core|by rewrite Hreads|].
  intros c (rel & Hrel & ->). exists rel. split; [done|]. destruct rows as [rows|]; [|done].
  by apply (fun E1 E2 => read_task_rows _ _ _ _ Hsnap E1 E2 Hr).
Qed.

Lemma run_tasks_inv root g l : ∀ s s',
  snapshot_reads → Inv root g s → run_tasks env w l s = (s', Ok ()) → Inv root g s'.
Proof.
  induction l as [|i l IH]; intros s s' Hsnap HI Hm; simpl in Hm; m_inv; [done|].
  rename select (run_task _ _ _ _ = _) into Hr. eapply IH; [done| |done]. by eapply run_task_inv.
Qed.

(** ** Joining a read *)

Lemma inv_delete_read root g s i task :
  Inv root g s → s.(reads) !! i = Some task →
  Inv root g (set_reads (delete i s.(reads)) s) ∧
  no_task (set_reads (delete i s.(reads)) s) task.(rk_work).
Proof.
  intros HI Hi. pose proof (inv_reads_unique _ _ _ HI) as Hnd.
  assert (Hp : s.(reads) ≡ₚ task :: delete i s.(reads)) by (by apply delete_Permutation).
  rewrite Hp, fmap_cons in Hnd. apply NoDup_cons in Hnd as [Hni Hnd]. split.
  - split; simpl; try (by apply HI); [done|]. intros x Hx. apply (inv_reads _ _ _ HI).
    rewrite Hp. by right.
  - intros x Hx E. apply Hni. simpl in Hx. rewrite <-E. by apply list_elem_of_fmap_2.
Qed.

Lemma join_read_inv root g s i s' :
  snapshot_reads → Inv root g s → join_read env w i s = (s', Ok ()) → ∃ g', Inv root g' s'.
Proof.
  intros Hsnap HI Hm. unfold join_read in Hm. m_inv.
  rename select (run_task _ _ _ _ = _) into Hr. eapply run_task_inv in Hr; [|done|done].
  case_match eqn:Ei; [|m_inv; by exists g]. destruct r as [id [f|rows]]; [m_inv; by exists g|]. m_inv.
  apply (inv_delete_read _ _ _ _ _ Hr) in Ei as Hd. destruct Hd as [HI1 Hnt].
  apply list_elem_of_lookup_2 in Ei. destruct (inv_reads _ _ _ Hr _ Ei) as (slot & Hs & Hst).
  simpl in *. eapply finish_read_inv; [exact HI1|exact Hnt|done| |done].
  intros c Ec. destruct Hst as [E|(c' & E & Hp)]; rewrite E in Ec; by simplify_eq.
Qed.

Lemma await_read_inv root g s s' :
  snapshot_reads → Inv root g s → await_read env w s = (s', Ok ()) → ∃ g', Inv root g' s'.
Proof.
  intros Hsnap HI Hm. unfold await_read in Hm. m_inv.
  rename select (run_tasks _ _ _ _ = _) into Hr.
  eapply run_tasks_inv in Hr; [|done|by eapply inv_core; [|exact HI]].
  case_match; try (by m_inv). by eapply join_read_inv.
Qed.

(** ** Processing *)

Lemma working_memo_key root g s id t k slot s' :
  working root g s id t → memo_ok t (Some k) → s.(slots) !! id = Some slot →
  set_slot id (mkWorkSlot slot.(ws_parent) (Some k) slot.(ws_state)) s = (s', Ok ()) →
  working root g s' id t.
Proof.
  intros (HI & slot' & ops & Hid & Hst & Hg) Hmk Hid' Hm. simplify_eq. unfold set_slot in Hm. m_inv.
  split.
  - eapply inv_update_state; simpl; try done; rewrite ?Hst; try done.
    right. eapply inv_no_task; [done|done|]. by rewrite Hst.
  - eexists _, ops. simpl. rewrite list_lookup_insert_eq by (by eapply lookup_lt_Some). done.
Qed.

Lemma upd_counters_working root g s id t f s' :
  working root g s id t → upd_counters f s = (s', Ok ()) → working root g s' id t.
Proof. intros Hw Hm. eapply working_core; [by eapply upd_counters_core | done]. Qed.

(** Waiting for one child whose task the expansion of [t] names. *)
Lemma working_single root g s id t r kind s1 s' :
  working root g s id t → expand env stored t = XNode RkSingle r [OTask (task_of kind)] →
  set_state id (Waiting (reducer_new RkSingle 1 r)) s = (s1, Ok ()) →
  schedule_child_or_error env w id 0 kind s1 = (s', Ok ()) → ∃ g', Inv root g' s'.
Proof.
  intros Hw Hx Hset Hm.
  eapply (working_wait _ _ _ _ _ _ _ [OTask (task_of kind)]) in Hset as (g1 & slot & HI & Hg & Hid & Hpk);
    [|done|done|by intros d; apply Decides_forced].
  eapply schedule_child_or_error_inv in Hm as (g' & HI' & _); [by exists g'|done..].
Qed.

Lemma working_children root g s id t kind r kinds s1 s' :
  working root g s id t →
  expand env stored t = XNode kind r ((OTask ∘ task_of) <$> kinds) →
  match kind with RkSingle => length kinds = 1 | RkDifference => length kinds = 2 | _ => True end →
  set_state id (Waiting (reducer_new kind (length kinds) r)) s = (s1, Ok ()) →
  schedule_children env w id 0 kinds s1 = (s', Ok ()) → ∃ g', Inv root g' s'.
Proof.
  intros Hw Hx Hk Hset Hm. rewrite <-(length_fmap (OTask ∘ task_of) kinds) in Hset, Hk.
  eapply working_wait in Hset as (g1 & slot & HI & Hg & Hid & Hpk);
    [|done|done|by intros d; apply Decides_forced].
  eapply schedule_children_inv; [exact HI|done|done|done| |done].
  intros i k Hi. simpl. by rewrite list_lookup_fmap, Hi.
Qed.

Lemma process_semantic_inv root g s id work s' :
  working root g s id (task_of (WSemantic work)) →
  process_semantic env w id work s = (s', Ok ()) → ∃ g', Inv root g' s'.
Proof.
  intros Hw Hm. unfold process_semantic in Hm.
  case_match; [exists g; by eapply working_error|]. m_inv.
  match type of Hm2 with _ ?s1 = _ =>
    assert (Hw1 : working root g s1 id (task_of (WSemantic work))) by (by eapply working_core; [|exact Hw]) end.
  case_match eqn:Hmemo.
  { exists g. eapply working_complete; [exact Hw1| |done]. intros d' [= <-].
    by apply (inv_memo _ _ _ (proj1 Hw1)) in Hmemo. }
  m_inv. rename select (slot_mut _ _ = _) into Hs. unfold slot_mut in Hs. m_inv.
  rename select (ok_or _ _ = Ok _) into Hok. apply ok_or_ok in Hok.
  rename select (set_slot _ _ _ = _) into Hset.
  eapply working_memo_key in Hset as Hw2; [|exact Hw1|done|done].
  assert (Hx : ∀ d, expand env stored (task_of (WSemantic work)) = XDone d → decides (task_of (WSemantic work)) d)
    by (intros; by constructor).
  simpl in Hx. unfold reachable in Hx. simpl in Hx.
  destruct (bs_contains (semantic_key work) (sw_path work)) eqn:Ecyc.
  { apply bind_ok in Hm2 as ([] & s3 & Hu & Hc). exists g.
    eapply working_complete; [by eapply upd_counters_working| |exact Hc].
    intros d [= <-]. by apply Hx. }
  destruct (type_id model _) as [st|] eqn:Et; [|exists g; by eapply working_error].
  destruct (negb _) eqn:Er.
  { exists g. eapply working_complete; [exact Hw2| |done]. intros d [= <-]. by apply Hx. }
  destruct (relation model _) as [rel|] eqn:Hrel; [|exists g; by eapply working_error]. m_inv.
  eapply working_single; [exact Hw2| |done|done]. simpl. unfold reachable. simpl.
  by rewrite Ecyc, Et, Er, Hrel.
Qed.

Lemma defer_inv root g s id work b s' :
  working root g s id (task_of (WRewrite work)) →
  defer_for_read_capacity env id work s = (s', Ok b) →
  if b then ∃ g', Inv root g' s' else s' = s.
Proof.
  intros Hw Hm. unfold defer_for_read_capacity in Hm. m_inv. case_match; m_inv; [done|].
  rename select (set_state _ _ _ = _) into Hset.
  eapply (working_set_state _ _ _ _ _ _ _ []) in Hset as (HI & _); [|exact Hw|done].
  eexists. by eapply inv_core; [|exact HI].
Qed.

Lemma process_rewrite_inv root g s id work s' :
  working root g s id (task_of (WRewrite work)) →
  process_rewrite env w id work s = (s', Ok ()) → ∃ g', Inv root g' s'.
Proof.
  intros Hw Hm. unfold process_rewrite in Hm.
  destruct (node model _) as [n|] eqn:En; [|exists g; by eapply working_error].
  destruct n as [r|r|tupleset c targets|children|children|base subtract].
  - unfold process_direct in Hm. m_inv. rename select (defer_for_read_capacity _ _ _ _ = _) into Hd.
    eapply defer_inv in Hd; [|exact Hw]. case_match; m_inv; [done|]. subst.
    match goal with Hr : start_read _ _ _ _ _ ?c _ = _ |- _ =>
      eapply (start_read_inv _ _ _ _ _ c); [exact Hw| |exact Hr] end.
    by exists (rw_node work).
  - unfold process_computed in Hm. m_inv. eapply working_single; [exact Hw| |done|done]. simpl. by rewrite En.
  - unfold process_ttu in Hm. m_inv. rename select (defer_for_read_capacity _ _ _ _ = _) into Hd.
    eapply defer_inv in Hd; [|exact Hw]. case_match; m_inv; [done|]. subst.
    match goal with Hr : start_read _ _ _ _ _ ?c _ = _ |- _ =>
      eapply (start_read_inv _ _ _ _ _ c); [exact Hw| |exact Hr] end.
    by exists (rw_node work), c.
  - unfold start_rewrite_children in Hm. m_inv. rewrite <-(length_fmap (child_rewrite work)) in Hm0.
    eapply (working_children _ _ _ _ _ RkUnion); [exact Hw| |done|done|done]. simpl. rewrite En.
    by rewrite <-list_fmap_compose.
  - unfold start_rewrite_children in Hm. m_inv. rewrite <-(length_fmap (child_rewrite work)) in Hm0.
    eapply (working_children _ _ _ _ _ RkIntersection); [exact Hw| |done|done|done]. simpl. rewrite En.
    by rewrite <-list_fmap_compose.
  - unfold process_difference in Hm. m_inv.
    eapply (working_children _ _ _ _ _ RkDifference _ (child_rewrite work <$> [base; subtract])); [exact Hw| |done|done|done].
    simpl. by rewrite En.
Qed.

Lemma process_inv root g s id s' :
  Inv root g s → process env w id s = (s', Ok ()) → ∃ g', Inv root g' s'.
Proof.
  intros HI Hm. unfold process in Hm. m_inv.
  apply is_active_ok in Hm0 as ->. case_match; [exists g; by eapply set_state_completed|]. m_inv.
  rename select (slot_mut _ _ = _) into Hs. unfold slot_mut in Hs. m_inv.
  rename select (ok_or _ _ = Ok _) into Hok. apply ok_or_ok in Hok as Hid.
  destruct (inv_ghost _ _ _ _ _ HI Hid) as (t & ops & Hg & Hst & _).
  destruct (ws_state a0) as [k| | | |] eqn:Est; try (by m_inv). simpl in Hst. subst t.
  rename select (set_state _ _ _ = _) into Hset.
  eapply set_state_processing in Hset as Hw; [|done|done|done|rewrite Est; by intros []|].
  2: { eapply inv_no_task; [done|done|]. by rewrite Est. }
  destruct k; [by eapply process_semantic_inv | by eapply process_rewrite_inv].
Qed.

Lemma process_ready_inv root n : ∀ g s s',
  Inv root g s → process_ready env w n s = (s', Ok ()) → ∃ g', Inv root g' s'.
Proof.
  induction n as [|n IH]; intros g s s' HI Hm; simpl in Hm; m_inv; [by exists g|].
  destruct (ready s) as [|id rest]; m_inv; [by exists g|].
  rename select (process _ _ _ _ = _) into Hp.
  eapply process_inv in Hp as (g1 & HI1); [|by eapply inv_core; [|exact HI]].
  case_match; m_inv; [by exists g1 | by eapply IH].
Qed.

Lemma drive_loop_inv root fuel : ∀ g s s',
  snapshot_reads → Inv root g s → drive_loop env w fuel s = (s', Ok ()) → ∃ g', Inv root g' s'.
Proof.
  induction fuel as [|fuel IH]; intros g s s' Hsnap HI Hm; simpl in Hm; m_inv.
  case_match; [m_inv; by exists g|]. m_inv.
  rename select (check_context _ _ _ = _) into Hc. apply check_context_core in Hc.
  rename select (process_ready _ _ _ _ = _) into Hp.
  eapply process_ready_inv in Hp as (g1 & HI1); [|by eapply inv_core].
  case_match; [m_inv; by exists g1|]. case_match.
  - case_match; [m_inv|]. by eapply IH.
  - m_inv. rename select (await_read _ _ _ = _) into Ha.
    eapply await_read_inv in Ha as (g2 & HI2); [|done|done]. by eapply IH.
Qed.

Lemma drive_decides fuel root meter s d :
  snapshot_reads → drive env w fuel root (scheduler_new meter) = (s, Ok d) →
  decides (task_of (WSemantic root)) d.
Proof.
  intros Hsnap (id & s0 & Hs & Hm)%bind_ok.
  apply schedule_ok in Hs as (s1 & Hc1 & _ & Hc2). case_match; [m_inv|]. m_inv.
  rename select (drive_loop _ _ _ _ = _) into Hd.
  eapply (drive_loop_inv (task_of (WSemantic root)) fuel [(task_of (WSemantic root), [])])
    in Hd as (g & HI); [|done|].
  - case_match eqn:Er; m_inv. by apply (inv_root _ _ _ HI).
  - eapply inv_core; [exact Hc2|].
    assert (slots (scheduler_new meter) = slots s1) as -> by (by destruct Hc1 as (_ & -> & _)).
    apply (inv_append _ [] s1 (WSemantic root) None); [|done|done].
    eapply inv_core; [exact Hc1|]. split; simpl; try done; [by constructor|].
    by intros task ?%elem_of_nil.
Qed.

End sound.
