(* ===== verification/SchedulerBounds.v ===== *)
(** * Resource bounds and termination of the scheduler

    One invariant for every budget, and a potential that every round of the
    drive loop decreases.  Together they bound the work of a root for every
    world: the slots it creates, the reads in flight, the condition cost, the
    shared meter, and the number of rounds. *)

From S2P Require Import Prelude Ordered Identifier Reference Condition Storage Model TupleValidation Budget.
From S2P Require Import Reducer Scheduler CheckSpec CheckSound.

Section bounds.
Context `{ConditionEngineLaws}.
Variable env : CheckEnv.
Variable w : World.

Abbreviation budget := env.(env_budget).
Abbreviation D := (N.to_nat budget.(maximum_dispatches)).

(** ** The invariant and the potential *)

Record bounded (s : Scheduler) : Prop := {
  b_links : ∀ i slot pl, s.(slots) !! i = Some slot → slot.(ws_parent) = Some pl → pl.(pl_work) < i;
  b_slots : length s.(slots) ≤ D;
  b_dispatches : (N.of_nat (length s.(slots)) <= s.(counters).(dispatches))%N;
  b_reads : (len s.(reads) <= budget.(maximum_concurrent_reads))%N;
  b_condition : (s.(counters).(condition_cost) <= budget.(maximum_condition_cost))%N;
  b_meter : ∀ m, s.(work_meter) = Some m → meter_ok m;
}.

Definition potential (s : Scheduler) : nat :=
  3 * (D - length s.(slots)) + 2 * length s.(ready) + length s.(reads).

(** A block that, run with at least [lo] slots, keeps the invariant, does not
    raise the potential, drops no slot and never exhausts the fuel of an inner
    loop. *)
Definition progress (s s' : Scheduler) : Prop :=
  bounded s' ∧ potential s' ≤ potential s ∧
  length s.(slots) ≤ length s'.(slots) ∧ length s'.(reads) = length s.(reads).

Definition safe (lo : nat) {A} (m : M A) : Prop :=
  ∀ s s' r, bounded s → lo ≤ length s.(slots) → m s = (s', r) →
    progress s s' ∧ r ≠ Err OutOfFuel.

Lemma progress_refl s : bounded s → progress s s.
Proof. done. Qed.

Lemma progress_trans s1 s2 s3 : progress s1 s2 → progress s2 s3 → progress s1 s3.
Proof. intros (? & ? & ? & ?) (? & ? & ? & ?). split_and!; [done|lia|lia|lia]. Qed.

Lemma safe_ret lo {A} (a : A) : safe lo (mret a).
Proof. intros s s' r Hb _ [= <- <-]. done. Qed.
Lemma safe_get lo : safe lo get_state.
Proof. intros s s' r Hb _ [= <- <-]. done. Qed.
Lemma safe_lift lo {A} (x : result CheckError A) : safe lo (lift x).
Proof. intros s s' r Hb _ [= <- <-]. split; [done|]. by destruct x. Qed.
Lemma safe_fail lo {A} e : safe lo (@fail A e).
Proof. intros s s' r Hb _ [= <- <-]. done. Qed.

Lemma safe_bind lo {A B} (m : M A) (f : A → M B) :
  safe lo m → (∀ a, safe lo (f a)) → safe lo (m ≫= f).
Proof.
  intros Hm Hf s s' r Hb Hlo. rewrite bind_run. destruct (m s) as [s1 [a|e]] eqn:E; intros E'.
  - destruct (Hm _ _ _ Hb Hlo E) as (Hp & _). pose proof Hp as (Hb1 & ? & ? & ?).
    destruct (Hf _ _ _ _ Hb1 ltac:(lia) E') as (? & ?). split; [by eapply progress_trans|done].
  - simplify_eq. destruct (Hm _ _ _ Hb Hlo E) as (? & Hne). split; [done|].
    intros [= ->]. done.
Qed.

Lemma safe_catch lo {A} (m : M A) : safe lo m → safe lo (catch m).
Proof.
  intros Hm s s' r Hb Hlo. unfold catch. destruct (m s) as [s1 [a|[e|]]] eqn:E; intros [= <- <-];
    by destruct (Hm _ _ _ Hb Hlo E) as (? & Hne).
Qed.

Lemma safe_modify lo f : (∀ s, bounded s → progress s (f s)) → safe lo (modify f).
Proof. intros Hp s s' r Hs _ [= <- <-]. split; [by apply Hp|done]. Qed.

Create HintDb safe_db.

Ltac safe_step :=
  first
    [ apply safe_ret | apply safe_get | apply safe_lift | apply safe_fail
    | solve [auto with safe_db]
    | match goal with |- safe _ (match ?x with _ => _ end) => destruct x end
    | apply safe_catch
    | apply safe_bind; [|intros ?] ].
Ltac safe := repeat safe_step.

(** ** Elementary blocks *)

Lemma safe_next_tick lo : safe lo next_tick.
Proof. intros s s' r [] _ [= <- <-]. split; [|done]. split_and!; [by constructor|done|done|done]. Qed.
#[local] Hint Resolve safe_next_tick : safe_db.

Lemma safe_check_context lo : safe lo (check_context env w).
Proof. unfold check_context. safe. Qed.
#[local] Hint Resolve safe_check_context : safe_db.

Lemma safe_charge_meter lo which amount : safe lo (charge_meter w which amount).
Proof.
  intros s s' r Hb _. unfold charge_meter, mbind, M_bind, get_state, next_tick, modify, mret, M_ret.
  destruct (work_meter s) as [m|] eqn:Em; [|by intros [= <- <-]].
  pose proof (meter_charge_ok (charge_all m (w_charges w (tick s))) which amount) as Hok.
  destruct (meter_charge _ _ _) as [m' ok]. intros [= <- <-]. destruct Hb.
  split; [|done]. split_and!; [|done|done|done]. constructor; simpl; try done.
  intros ? [= <-]. apply Hok, charge_all_ok. by apply b_meter0.
Qed.
#[local] Hint Resolve safe_charge_meter : safe_db.

Lemma safe_slot_mut lo id : safe lo (slot_mut id).
Proof. unfold slot_mut. safe. Qed.
#[local] Hint Resolve safe_slot_mut : safe_db.

(** ** Slots *)

Definition link_below (id : WorkId) (slot : WorkSlot) : Prop :=
  ∀ pl, slot.(ws_parent) = Some pl → pl.(pl_work) < id.

Lemma slot_mut_missing id s :
  s.(slots) !! id = None → slot_mut id s = (s, Err (Fail (internal "work_slot_invalid"))).
Proof. intros Hn. unfold slot_mut. rewrite bind_run. simpl. unfold lift. by rewrite Hn. Qed.

(** After reading slot [id] there are more than [id] slots. *)
Lemma safe_slot_bind lo {B} id (f : WorkSlot → M B) :
  (∀ slot, link_below id slot → safe (S id) (f slot)) → safe lo (slot_mut id ≫= f).
Proof.
  intros Hf s s' r Hb Hlo. rewrite bind_run. destruct (s.(slots) !! id) as [slot|] eqn:Hid.
  - assert (slot_mut id s = (s, Ok slot)) as ->.
    { unfold slot_mut. rewrite bind_run. simpl. unfold lift. by rewrite Hid. }
    apply Hf; [|done|by eapply lookup_lt_Some]. intros pl. by apply (b_links _ Hb).
  - rewrite slot_mut_missing by done. by intros [= <- <-].
Qed.

Lemma safe_set_slot lo id slot : link_below id slot → safe lo (set_slot id slot).
Proof.
  intros Hl. apply safe_modify. intros s []. split_and!.
  - constructor; simpl; rewrite ?length_insert; try done.
    intros i x pl Hx Hpl. destruct (decide (i = id)) as [->|Hne].
    + assert (id < length s.(slots)) by (apply lookup_lt_Some in Hx; by rewrite length_insert in Hx).
      rewrite list_lookup_insert_eq in Hx by done. simplify_eq. by apply Hl.
    + rewrite list_lookup_insert_ne in Hx by done. eauto.
  - unfold potential. simpl. by rewrite length_insert.
  - simpl. by rewrite length_insert.
  - done.
Qed.
#[local] Hint Resolve safe_set_slot : safe_db.

Lemma safe_set_state lo id st : safe lo (set_state id st).
Proof. unfold set_state. apply safe_slot_bind. intros slot Hl. by apply safe_set_slot. Qed.
#[local] Hint Resolve safe_set_state : safe_db.

Lemma safe_store_memo lo key outcome : safe lo (store_memo key outcome).
Proof. unfold store_memo. safe. apply safe_modify. intros s []. split_and!; [by constructor|done|done|done]. Qed.
#[local] Hint Resolve safe_store_memo : safe_db.

Lemma safe_set_root lo r : safe lo (modify (set_root_result r)).
Proof. apply safe_modify. intros s []. split_and!; [by constructor|done|done|done]. Qed.
#[local] Hint Resolve safe_set_root : safe_db.

Lemma safe_complete_loop lo fuel : ∀ id outcome, id < fuel → safe lo (complete_loop fuel id outcome).
Proof.
  revert lo. induction fuel as [|fuel IH]; intros lo id outcome Hlt; [lia|]. simpl.
  apply safe_slot_bind. intros slot Hl.
  apply safe_bind; [by apply safe_set_slot|intros _].
  apply safe_bind; [auto with safe_db|intros _].
  destruct (ws_parent slot) as [pl|] eqn:Ep; [|auto with safe_db].
  apply safe_slot_bind. intros pslot Hpl. destruct (ws_state pslot); safe.
  apply IH. specialize (Hl _ Ep). lia.
Qed.

Lemma safe_complete lo id outcome : safe lo (complete id outcome).
Proof.
  intros s s' r Hb Hlo Hm. change (complete_loop (S (length s.(slots))) id outcome s = (s', r)) in Hm.
  destruct (decide (id < length s.(slots))) as [Hlt|Hge].
  - eapply (safe_complete_loop lo (S (length s.(slots))) id outcome); [lia|done|done|exact Hm].
  - apply Nat.nlt_ge, lookup_ge_None in Hge. simpl in Hm.
    rewrite bind_run, slot_mut_missing in Hm by done. by simplify_eq.
Qed.
#[local] Hint Resolve safe_complete : safe_db.

Lemma is_active_loop_fuel fuel l id : ∀ current,
  (∀ i slot pl, l !! i = Some slot → slot.(ws_parent) = Some pl → pl.(pl_work) < i) →
  current < fuel → is_active_loop fuel l id current ≠ Err OutOfFuel.
Proof.
  induction fuel as [|fuel IH]; intros current Hl Hlt; [lia|]. simpl.
  destruct (l !! current) as [slot|] eqn:E; [|done]. case_match; [done|].
  destruct (ws_parent slot) as [pl|] eqn:Ep; [|done].
  apply IH; [done|]. specialize (Hl _ _ _ E Ep). lia.
Qed.

Lemma safe_is_active lo id : safe lo (is_active id).
Proof.
  intros s s' r Hb _ Hm. apply pair_eq in Hm as [<- <-]. split; [done|].
  destruct (decide (id < length s.(slots))) as [Hlt|Hge].
  - apply is_active_loop_fuel; [apply (b_links _ Hb)|lia].
  - apply Nat.nlt_ge, lookup_ge_None in Hge. simpl. by rewrite Hge.
Qed.
#[local] Hint Resolve safe_is_active : safe_db.

(** After [is_active id] there are more than [id] slots. *)
Lemma safe_active_bind lo {B} id (f : bool → M B) :
  (∀ b, safe (S id) (f b)) → safe lo (is_active id ≫= f).
Proof.
  intros Hf s s' r Hb Hlo. destruct (s.(slots) !! id) as [slot|] eqn:Hid.
  - apply lookup_lt_Some in Hid as Hlt. apply (safe_bind (S id)); [apply safe_is_active|done|done|done].
  - rewrite bind_run. unfold is_active. simpl. rewrite Hid. by intros [= <- <-].
Qed.

Lemma safe_accept_operand lo id operand outcome : safe lo (accept_operand id operand outcome).
Proof. unfold accept_operand. apply safe_slot_bind. intros slot Hl. destruct (ws_state slot); safe. Qed.
#[local] Hint Resolve safe_accept_operand : safe_db.

(** ** Scheduling *)

Definition same_counters (s s' : Scheduler) : Prop :=
  s'.(counters) = s.(counters) ∧ s'.(slots) = s.(slots).

#[local] Instance same_counters_preorder : PreOrder same_counters.
Proof. split; [done|]. intros s1 s2 s3 [] []. split; congruence. Qed.

Lemma charge_meter_counters which amount : respects same_counters (charge_meter w which amount).
Proof.
  unfold charge_meter. apply respects_bind; [apply _|apply respects_get, _|]. intros s.
  destruct (work_meter s); [|apply respects_ret, _].
  apply respects_bind; [apply _|by intros ? ? ? [= <- _]|]. intros t. destruct (meter_charge _ _ _).
  apply respects_bind; [apply _|by apply respects_modify|]. intros u. apply respects_ret, _.
Qed.

Lemma check_context_counters : respects same_counters (check_context env w).
Proof.
  unfold check_context. apply respects_bind; [apply _|by intros ? ? ? [= <- _]|]. intros t.
  apply respects_lift, _.
Qed.

Lemma charge_dispatch_bounds s s' r :
  bounded s → charge_dispatch env w s = (s', r) →
  progress s s' ∧ r ≠ Err OutOfFuel ∧
  (r = Ok () → length s'.(slots) < D ∧ (N.of_nat (S (length s'.(slots))) <= s'.(counters).(dispatches))%N).
Proof.
  intros Hb. unfold charge_dispatch. rewrite bind_run. simpl. rewrite bind_run. unfold lift.
  destruct (checked_add _ _ _) as [n|] eqn:En; simpl; [|by intros [= <- <-]].
  apply checked_add_Some in En as [-> _]. rewrite bind_run. simpl.
  match goal with |- context [set_counters ?c s] => set (s1 := set_counters c s) end.
  assert (Hp1 : progress s s1).
  { split_and!; [|done|done|done]. destruct Hb. constructor; simpl; try done. lia. }
  pose proof Hp1 as (Hb1 & _).
  destruct (N.ltb_spec (maximum_dispatches budget) (dispatches (counters s) + 1)) as [|Hle];
    [by intros [= <- <-]|].
  rewrite bind_run. destruct (charge_meter w MDispatches 1 s1) as [s2 [ok|e]] eqn:Ec;
    destruct (safe_charge_meter 0 _ _ _ _ _ Hb1 ltac:(lia) Ec) as (Hp2 & Hne).
  - pose proof (progress_trans _ _ _ Hp1 Hp2) as Hp.
    destruct (charge_meter_counters _ _ _ _ _ Ec) as [Hc2 Hs2].
    pose proof (b_dispatches _ Hb). destruct ok; simpl; intros [= <- <-]; [|done].
    split; [done|]. split; [done|]. intros _. rewrite Hs2, Hc2. simpl. lia.
  - intros [= <- <-]. split; [exact (progress_trans _ _ _ Hp1 Hp2)|]. split; [|done]. intros [= ->]. done.
Qed.

Lemma schedule_bounds kind parent s s' r :
  bounded s → (∀ pl, parent = Some pl → pl.(pl_work) < length s.(slots)) →
  schedule env w kind parent s = (s', r) → progress s s' ∧ r ≠ Err OutOfFuel.
Proof.
  intros Hb Hpar. unfold schedule. rewrite bind_run.
  destruct (charge_dispatch env w s) as [s1 [[]|e]] eqn:Ec;
    destruct (charge_dispatch_bounds _ _ _ Hb Ec) as ((Hb1 & Hp & Hlen & Hrd) & Hne & Hok).
  - destruct (Hok eq_refl) as [Hlt Hd]. intros [= <- <-]. split; [|done]. destruct Hb1.
    split_and!; [|unfold potential in *; simpl; rewrite !length_app; simpl; lia
                 |simpl; rewrite length_app; simpl; lia|done].
    constructor; simpl; rewrite ?length_app; simpl; try done; try lia.
    intros i x pl [Hi|[? Hx]]%lookup_app_Some Hpl; [eauto|].
    apply list_lookup_singleton_Some in Hx as [? <-]. simpl in Hpl. specialize (Hpar _ Hpl). lia.
  - intros [= <- <-]. split; [done|]. intros [= ->]. done.
Qed.

Lemma safe_schedule_child p operand kind : safe (S p) (schedule_child_or_error env w p operand kind).
Proof.
  unfold schedule_child_or_error. apply safe_bind; [apply safe_catch|intros [?|?]; safe].
  intros s s' r Hb Hlo Hm. apply schedule_bounds in Hm; [done|done|]. by intros pl [= <-].
Qed.
#[local] Hint Resolve safe_schedule_child : safe_db.

Lemma safe_schedule_children lo id kinds : ∀ operand, safe lo (schedule_children env w id operand kinds).
Proof.
  revert lo. induction kinds as [|k kinds IH]; intros lo operand; simpl; [safe|].
  apply safe_active_bind. intros b. safe.
Qed.
#[local] Hint Resolve safe_schedule_children : safe_db.

Lemma safe_start_candidates lo id cs r : safe lo (start_candidates env w id cs r).
Proof.
  unfold start_candidates.
  assert (Hloop : ∀ cs lo operand, safe lo (start_candidates_loop env w id operand cs)).
  { clear cs lo. induction cs as [|c cs IH]; intros lo operand; simpl; [safe|].
    apply safe_active_bind. intros b. safe. }
  safe.
Qed.
#[local] Hint Resolve safe_start_candidates : safe_db.

(** ** Conditions *)

Lemma safe_upd_counters lo f :
  (∀ c, (f c).(dispatches) = c.(dispatches) ∧ (f c).(condition_cost) = c.(condition_cost)) →
  safe lo (upd_counters f).
Proof.
  intros Hf. apply safe_modify. intros s []. split_and!; [|done|done|done].
  destruct (Hf (counters s)) as [E1 E2]. constructor; simpl; rewrite ?E1, ?E2; done.
Qed.

(** Charging a condition cost within what remains of the budget. *)
Lemma safe_charge_condition {A} lo s s' r remaining cost (k : M A) :
  bounded s → lo ≤ length s.(slots) → safe lo k →
  checked_sub budget.(maximum_condition_cost) s.(counters).(condition_cost) = Some remaining →
  (cost <= remaining)%N →
  (total ← lift (ok_or (checked_add U32_MAX s.(counters).(condition_cost) cost) condition_cost_exceeded);
   upd_counters (fun c => mkCounters c.(dispatches) c.(datastore_queries) c.(tuple_items)
                            total c.(cycles) c.(deepest));;
   (if (budget.(maximum_condition_cost) <? total)%N then fail condition_cost_exceeded else k))
    s = (s', r) → progress s s' ∧ r ≠ Err OutOfFuel.
Proof.
  intros Hb Hlo Hk [-> Hle]%checked_sub_Some Hc. rewrite bind_run. unfold lift.
  destruct (checked_add _ _ _) as [n|] eqn:En; simpl; [|by intros [= <- <-]].
  apply checked_add_Some in En as [-> _]. rewrite bind_run. simpl.
  destruct (N.ltb_spec (maximum_condition_cost budget) (condition_cost (counters s) + cost));
    [lia|].
  match goal with |- k ?s1 = _ → _ => assert (Hp : progress s s1) end.
  { split_and!; [|done|done|done]. destruct Hb. by constructor. }
  intros Ek. pose proof Hp as (Hb1 & _). destruct (Hk _ _ _ Hb1 Hlo Ek) as [Hp2 ?].
  split; [|done]. exact (progress_trans _ _ _ Hp Hp2).
Qed.

Lemma safe_evaluate_tuple_condition lo t : safe lo (evaluate_tuple_condition env w t).
Proof.
  unfold evaluate_tuple_condition. destruct (rt_condition t) as [|b]; [safe|].
  apply safe_bind; [auto with safe_db|intros _]. apply safe_bind; [apply safe_lift|intros cid].
  apply safe_bind; [apply safe_lift|intros c]. intros s s' r Hb Hlo. rewrite bind_run. simpl.
  destruct (checked_sub _ _) as [[|p]|] eqn:Esub; [by intros [= <- <-]| |by intros [= <- <-]].
  rewrite bind_run. unfold lift at 1.
  destruct (evaluation_budget_new _) as [cb|] eqn:Ecb; simpl; [|by intros [= <- <-]].
  assert (cb = N.pos p) as -> by (unfold evaluation_budget_new in Ecb; repeat case_match; congruence).
  rewrite bind_run. destruct (next_tick s) as [s1 [tk|e]] eqn:Et; [|by unfold next_tick in Et].
  destruct (safe_next_tick lo _ _ _ Hb Hlo Et) as [Hp1 _]. pose proof Hp1 as (Hb1 & _ & Hl1 & _).
  assert (Hc1 : counters s1 = counters s) by (unfold next_tick in Et; by simplify_eq).
  rewrite bind_run. destruct (check_context env w s1) as [s2 [[]|e]] eqn:Ec;
    destruct (safe_check_context lo _ _ _ Hb1 ltac:(lia) Ec) as [Hp2 Hne2];
    pose proof (progress_trans _ _ _ Hp1 Hp2) as Hp;
    [|intros [= <- <-]; split; [done|]; by intros [= ->]].
  destruct (check_context_counters _ _ _ Ec) as [Hc2 _]. pose proof Hp as (Hb2 & _ & Hl2 & _).
  assert (Hsafe : ∀ m, safe lo m → m s2 = (s', r) → progress s s' ∧ r ≠ Err OutOfFuel).
  { intros m Hm Em. destruct (Hm _ _ _ Hb2 ltac:(lia) Em) as [Hp3 ?].
    split; [exact (progress_trans _ _ _ Hp Hp3)|done]. }
  destruct (evaluate _ _ _ _ _) as [out|e] eqn:Ee; [|apply Hsafe; safe].
  pose proof (evaluate_cost _ _ _ _ _ _ Ee) as Hcost. rewrite bind_run. unfold lift at 1.
  destruct (try_u32 _) as [cost|] eqn:Eu; simpl; [|by intros [= <- <-]].
  assert (cost = outcome_cost out) as -> by (unfold try_u32 in Eu; case_match; congruence).
  rewrite bind_run. cbn [get_state]. intros E.
  rewrite <-Hc1, <-Hc2 in Esub. destruct (safe_charge_condition lo s2 s' r (N.pos p) (outcome_cost out)
    (if condition_met out then mret (Some (Ok (allow RDirect))) else mret None)) as [Hp3 ?];
    [done|lia|safe|done|done|exact E|].
  split; [exact (progress_trans _ _ _ Hp Hp3)|done].
Qed.
#[local] Hint Resolve safe_evaluate_tuple_condition : safe_db.

(** ** Reads *)

Lemma safe_collect_rows lo {A B} (f : A → M (list B)) rows :
  (∀ t, safe lo (f t)) → safe lo (collect_rows f rows).
Proof. intros Hf. induction rows as [|t rows IH]; simpl; [safe|]. apply safe_bind; [done|intros c]. safe. Qed.

Lemma safe_direct_row lo read rs t : safe lo (direct_row env w read rs t).
Proof. unfold direct_row. safe. Qed.

Lemma safe_ttu_row lo read rs t : safe lo (ttu_row env w read rs t).
Proof. unfold ttu_row. safe. apply safe_collect_rows. intros target. unfold ttu_target. safe. Qed.

Lemma safe_finish_direct lo id read rows : safe lo (finish_direct env w id read rows).
Proof.
  unfold finish_direct. safe. apply safe_collect_rows. intros t. apply safe_direct_row.
Qed.
Lemma safe_finish_ttu lo id read rows : safe lo (finish_ttu env w id read rows).
Proof. unfold finish_ttu. safe. apply safe_collect_rows. intros t. apply safe_ttu_row. Qed.

Lemma safe_charge_tuple_items lo stored contextual : safe lo (charge_tuple_items env w stored contextual).
Proof. unfold charge_tuple_items. safe. by apply safe_upd_counters. Qed.
#[local] Hint Resolve safe_charge_tuple_items safe_finish_direct safe_finish_ttu : safe_db.

Lemma safe_finish_read lo id rows : safe lo (finish_read env w id rows).
Proof. unfold finish_read, finish_rows. safe. Qed.

Lemma safe_read_task lo filter : safe lo (read_task env w filter).
Proof. unfold read_task. safe. Qed.

Lemma safe_run_task lo i : safe lo (run_task env w i).
Proof.
  unfold run_task. apply safe_bind; [safe|intros s]. destruct (reads s !! i) as [[id [filter|]]|]; [|safe|safe].
  apply safe_bind; [apply safe_read_task|intros rows]. apply safe_modify. intros s' []. split_and!; simpl; rewrite ?length_insert; try done.
  - constructor; unfold len in *; simpl; rewrite ?length_insert; done.
  - unfold potential. simpl. by rewrite length_insert.
Qed.
#[local] Hint Resolve safe_run_task : safe_db.

Lemma safe_run_tasks lo l : safe lo (run_tasks env w l).
Proof. induction l; simpl; safe. Qed.

(** Blocks that may start one read, when there is room for it. *)
Definition starts {A} (m : M A) : Prop :=
  ∀ s s' r, bounded s → (len s.(reads) < budget.(maximum_concurrent_reads))%N → m s = (s', r) →
    bounded s' ∧ potential s' ≤ S (potential s) ∧ length s.(reads) ≤ length s'.(reads) ∧
    r ≠ Err OutOfFuel.

Lemma starts_safe {A} (m : M A) : safe 0 m → starts m.
Proof.
  intros Hm s s' r Hb _ E. destruct (Hm _ _ _ Hb ltac:(lia) E) as ((? & ? & ? & ?) & ?).
  split_and!; [done|lia|lia|done].
Qed.

Lemma starts_bind {A B} (m : M A) (f : A → M B) :
  safe 0 m → (∀ a, starts (f a)) → starts (m ≫= f).
Proof.
  intros Hm Hf s s' r Hb Hlt. rewrite bind_run. destruct (m s) as [s1 [a|e]] eqn:E; intros E';
    destruct (Hm _ _ _ Hb ltac:(lia) E) as ((Hb1 & ? & ? & Hr) & Hne).
  - destruct (Hf a s1 s' r Hb1 ltac:(unfold len in *; lia) E') as (? & ? & ? & ?).
    split_and!; [done|lia|lia|done].
  - simplify_eq. split_and!; [done|lia|lia|]. by intros [= ->].
Qed.

Lemma starts_read id rid object c : starts (start_read env w id rid object c).
Proof.
  unfold start_read.
  apply starts_bind; [safe|intros s0]. apply starts_bind; [safe|intros n].
  apply starts_bind; [by apply safe_upd_counters|intros _].
  case_match; [apply starts_safe; safe|].
  apply starts_bind; [safe|intros ok]. case_match; [apply starts_safe; safe|].
  case_match; [|apply starts_safe; safe]. case_match; [|apply starts_safe; safe].
  apply starts_bind; [safe|intros _]. intros s s' r [] Hlt [= <- <-].
  unfold potential. simpl. rewrite length_app. simpl. split_and!; [|lia|lia|done].
  constructor; simpl; try done. unfold len in *. rewrite length_app. simpl. lia.
Qed.

(** One item taken from the ready queue costs two units of potential; processing
    it gives back at most one, or both when it waits for room among the reads. *)
Definition processes {A} (m : M A) : Prop :=
  ∀ s s' r, bounded s → m s = (s', r) →
    bounded s' ∧ length s.(reads) ≤ length s'.(reads) ∧ r ≠ Err OutOfFuel ∧
    (potential s' ≤ S (potential s) ∨ 0 < length s'.(reads) ∧ potential s' ≤ S (S (potential s))).

Lemma processes_safe {A} (m : M A) : safe 0 m → processes m.
Proof.
  intros Hm s s' r Hb E. destruct (Hm _ _ _ Hb ltac:(lia) E) as ((? & ? & ? & ?) & ?).
  split_and!; [done|lia|done|left; lia].
Qed.

Lemma processes_bind {A B} (m : M A) (f : A → M B) :
  safe 0 m → (∀ a, processes (f a)) → processes (m ≫= f).
Proof.
  intros Hm Hf s s' r Hb. rewrite bind_run. destruct (m s) as [s1 [a|e]] eqn:E; intros E';
    destruct (Hm _ _ _ Hb ltac:(lia) E) as ((Hb1 & ? & ? & Hr) & Hne).
  - destruct (Hf a s1 s' r Hb1 E') as (? & ? & ? & ?). split_and!; [done|lia|done|lia].
  - simplify_eq. split_and!; [done|lia| |lia]. by intros [= ->].
Qed.

(** More fuel does not change a run that ended. *)
Lemma drive_loop_more fuel : ∀ fuel' s s' r,
  fuel ≤ fuel' → drive_loop env w fuel s = (s', r) → r ≠ Err OutOfFuel →
  drive_loop env w fuel' s = (s', r).
Proof.
  induction fuel as [|fuel IH]; intros fuel' s s' r Hle; [by intros [= <- <-]|].
  destruct fuel' as [|fuel']; [lia|]. simpl. rewrite !bind_run. simpl.
  destruct (root_result s); [done|]. rewrite !bind_run.
  destruct (check_context env w s) as [s1 [[]|e]]; [|done]. rewrite !bind_run. simpl.
  rewrite !bind_run. destruct (process_ready env w (length (ready s1)) s1) as [s2 [[]|e]]; [|done].
  rewrite !bind_run. simpl. destruct (root_result s2); [done|].
  assert (Hrec : ∀ x, drive_loop env w fuel x = (s', r) → r ≠ Err OutOfFuel →
                      drive_loop env w fuel' x = (s', r)) by (intros x; apply IH; lia).
  destruct (reads s2); [destruct (ready s2); auto|]. rewrite !bind_run.
  destruct (await_read env w s2) as [s3 [[]|e]]; auto.
Qed.

Lemma drive_more fuel fuel' root s s' r :
  fuel ≤ fuel' → drive env w fuel root s = (s', r) → r ≠ Err OutOfFuel →
  drive env w fuel' root s = (s', r).
Proof.
  intros Hle. unfold drive. rewrite !bind_run. destruct (schedule _ _ _ _ _) as [s1 [id|]]; [|done].
  case_match; [done|]. rewrite !bind_run.
  destruct (drive_loop env w fuel s1) as [s2 r2] eqn:E. intros E' Hne.
  rewrite (drive_loop_more fuel fuel' s1 s2 r2 Hle E); [done|]. by intros ->; simplify_eq.
Qed.

Hypothesis Hreads : (0 < budget.(maximum_concurrent_reads))%N.

Lemma processes_defer id work (m : M ()) :
  starts m →
  processes (deferred ← defer_for_read_capacity env id work; if (deferred : bool) then mret () else m).
Proof.
  intros Hm s s' r Hb. unfold defer_for_read_capacity. rewrite bind_run, bind_run. simpl.
  destruct (N.ltb_spec (len (reads s)) (maximum_concurrent_reads budget)) as [Hlt|Hge].
  - simpl. intros E. destruct (Hm _ _ _ Hb Hlt E) as (? & ? & ? & ?). split_and!; auto.
  - rewrite bind_run. destruct (set_state id _ s) as [s1 [[]|e]] eqn:E;
      destruct (safe_set_state 0 _ _ _ _ _ Hb ltac:(lia) E) as ((Hb1 & ? & ? & Hr) & Hne); simpl.
    + intros [= <- <-]. simpl. unfold potential in *. simpl. rewrite length_app. simpl.
      unfold len in *. split_and!; [|lia|done|lia]. destruct Hb1. by constructor.
    + intros [= <- <-]. split_and!; [done|lia| |lia]. by intros [= ->].
Qed.

(** After setting the state of slot [id] there are more than [id] slots. *)
Lemma safe_state_bind lo {B} id st (f : () → M B) :
  safe (S id) (f ()) → safe lo (set_state id st ≫= f).
Proof.
  intros Hf s s' r Hb Hlo. destruct (s.(slots) !! id) as [slot|] eqn:Hid.
  - apply lookup_lt_Some in Hid. apply (safe_bind (S id)); [safe|by intros []|done|done].
  - rewrite bind_run. unfold set_state. rewrite bind_run, slot_mut_missing by done.
    by intros [= <- <-].
Qed.

Lemma safe_process_semantic lo id work : safe lo (process_semantic env w id work).
Proof.
  unfold process_semantic. case_match; [safe|].
  apply safe_bind; [by apply safe_upd_counters|intros _].
  apply safe_bind; [safe|intros s]. case_match; [safe|].
  apply safe_slot_bind. intros slot Hl.
  apply safe_bind; [by apply safe_set_slot|intros _]. case_match.
  { apply safe_bind; [by apply safe_upd_counters|intros _]. safe. }
  case_match; [|safe]. destruct (negb _); [safe|]. destruct (relation _ _); [|safe].
  apply safe_state_bind. safe.
Qed.

Lemma processes_rewrite id work : processes (process_rewrite env w id work).
Proof.
  unfold process_rewrite. destruct (node _ _) as [[]|]; try (apply processes_safe; safe; fail).
  - apply processes_defer, starts_read.
  - apply processes_safe. apply safe_state_bind. safe.
  - apply processes_defer, starts_read.
Qed.

Lemma processes_process id : processes (process env w id).
Proof.
  unfold process. apply processes_bind; [safe|intros active].
  case_match; [apply processes_safe; safe|].
  apply processes_bind; [safe|intros slot]. apply processes_bind; [safe|intros _].
  destruct (ws_state slot) as [[]| | | |]; try (apply processes_safe; safe; fail).
  - apply processes_safe, safe_process_semantic.
  - apply processes_rewrite.
Qed.

(** ** Rounds *)

(** A round of the ready queue: potential is lost unless nothing was ready or
    reads are in flight afterwards. *)
Lemma process_ready_bounds available : ∀ s s' r,
  bounded s → process_ready env w available s = (s', r) →
  bounded s' ∧ potential s' ≤ potential s ∧ r ≠ Err OutOfFuel ∧
  length s.(reads) ≤ length s'.(reads) ∧
  (potential s' < potential s ∨ 0 < length s'.(reads) ∨ available = 0 ∨ s.(ready) = []).
Proof.
  induction available as [|available IH]; intros s s' r Hb; simpl.
  { intros [= <- <-]. split_and!; auto. }
  rewrite bind_run. simpl. destruct (ready s) as [|id rest] eqn:Er.
  { intros [= <- <-]. split_and!; auto. }
  rewrite bind_run. simpl. set (s0 := set_ready rest s).
  assert (Hb0 : bounded s0) by (destruct Hb; by constructor).
  assert (Hp0 : S (S (potential s0)) = potential s) by (unfold potential; simpl; rewrite Er; simpl; lia).
  assert (Hr0 : reads s0 = reads s) by done. clearbody s0.
  rewrite bind_run. destruct (process env w id s0) as [s1 [[]|e]] eqn:Ep;
    destruct (processes_process _ _ _ _ Hb0 Ep) as (Hb1 & Hr1 & Hne & Hp1); rewrite Hr0 in Hr1.
  - rewrite bind_run. simpl. destruct (root_result s1).
    + intros [= <- <-]. split_and!; [done|lia|done|lia|lia].
    + intros E. destruct (IH _ _ _ Hb1 E) as (? & ? & ? & ? & ?).
      split_and!; [done|lia|done|lia|lia].
  - intros [= <- <-]. split_and!; [done|lia| |lia|lia]. by intros [= ->].
Qed.

(** A read chosen by the world leaves the set of reads. *)
Lemma charge_meter_total which amount s :
  ∃ s' ok, charge_meter w which amount s = (s', Ok ok) ∧ s'.(reads) = s.(reads).
Proof.
  unfold charge_meter. rewrite bind_run. simpl. destruct (work_meter s); [|by eexists _, _].
  rewrite bind_run. simpl. destruct (meter_charge _ _ _). by eexists _, _.
Qed.

Lemma read_task_total filter s :
  ∃ s' rows, read_task env w filter s = (s', Ok rows) ∧ s'.(reads) = s.(reads).
Proof.
  unfold read_task. rewrite bind_run. simpl. destruct (w_read _ _ _ _ _); [|by eexists _, _].
  destruct (try_u32 _); [|by eexists _, _]. rewrite bind_run.
  match goal with |- context [charge_meter w ?k ?n ?s0] =>
    destruct (charge_meter_total k n s0) as (s1 & ok & -> & Hr) end.
  destruct ok; by eexists _, _.
Qed.

Lemma run_task_done i s :
  i < length s.(reads) →
  ∃ s' id rows, run_task env w i s = (s', Ok ()) ∧
    s'.(reads) !! i = Some (mkReadTask id (ReadDone rows)).
Proof.
  intros Hi. unfold run_task. rewrite bind_run. simpl.
  destruct (reads s !! i) as [[id [filter|rows]]|] eqn:E.
  - rewrite bind_run. destruct (read_task_total filter s) as (s1 & rows & -> & Hr).
    eexists _, id, rows. split; [done|]. simpl. rewrite Hr. by rewrite list_lookup_insert_eq.
  - by exists s, id, rows.
  - apply lookup_ge_None in E. lia.
Qed.

Lemma join_read_bounds i s s' r :
  bounded s → 0 < length s.(reads) → join_read env w i s = (s', r) →
  bounded s' ∧ potential s' < potential s ∧ r ≠ Err OutOfFuel.
Proof.
  intros Hb Hpos. unfold join_read. rewrite bind_run. simpl. set (j := i mod length (reads s)).
  assert (Hj : j < length (reads s)) by (apply Nat.mod_upper_bound; lia). clearbody j.
  destruct (run_task_done j s Hj) as (s1 & id & rows & E & Hrow).
  destruct (safe_run_task 0 _ _ _ _ Hb ltac:(lia) E) as ((Hb1 & ? & ? & Hr) & _).
  rewrite bind_run, E, bind_run. simpl. rewrite Hrow, bind_run. simpl.
  set (s2 := set_reads (delete j (reads s1)) s1).
  assert (Hlen : S (length (reads s2)) = length (reads s1)).
  { unfold s2. simpl. rewrite length_delete by done. lia. }
  assert (Hb2 : bounded s2).
  { destruct Hb1. constructor; try done. unfold len in *. lia. }
  assert (S (potential s2) = potential s1) by (unfold potential; simpl in *; lia). clearbody s2.
  intros Ef. destruct (safe_finish_read 0 _ _ _ _ _ Hb2 ltac:(lia) Ef) as ((? & ? & ? & ?) & ?).
  split_and!; [done|lia|done].
Qed.

Lemma await_read_bounds s s' r :
  bounded s → 0 < length s.(reads) → await_read env w s = (s', r) →
  bounded s' ∧ (r = Ok () → potential s' < potential s) ∧ r ≠ Err OutOfFuel.
Proof.
  intros Hb Hpos. unfold await_read. rewrite bind_run.
  destruct (next_tick s) as [s1 [t|e]] eqn:E1; [|by unfold next_tick in E1].
  destruct (safe_next_tick 0 _ _ _ Hb ltac:(lia) E1) as ((Hb1 & ? & ? & ?) & _).
  rewrite bind_run. destruct (run_tasks env w (w_tasks w t) s1) as [s2 [[]|e]] eqn:E2;
    destruct (safe_run_tasks 0 _ _ _ _ Hb1 ltac:(lia) E2) as ((Hb2 & ? & ? & ?) & Hne).
  - destruct (w_select w t) as [| |i|i]; try by intros [= <- <-].
    intros E3. destruct (join_read_bounds i s2 s' r Hb2 ltac:(lia) E3) as (? & ? & ?).
    split_and!; [done|intros _; lia|done].
  - intros [= <- <-]. split_and!; [done|done|]. by intros [= ->].
Qed.

Lemma drive_loop_bounds fuel : ∀ s s' r,
  bounded s → drive_loop env w fuel s = (s', r) →
  bounded s' ∧ (potential s < fuel → r ≠ Err OutOfFuel).
Proof.
  induction fuel as [|fuel IH]; intros s s' r Hb; simpl.
  { intros [= <- <-]. split; [done|lia]. }
  rewrite bind_run. simpl. destruct (root_result s); [by intros [= <- <-]|].
  rewrite bind_run. destruct (check_context env w s) as [s1 [[]|e]] eqn:E1;
    destruct (safe_check_context 0 _ _ _ Hb ltac:(lia) E1) as ((Hb1 & Hp1 & _) & Hne);
    [|intros [= <- <-]; split; [done|]; by intros _ [= ->]].
  rewrite bind_run. simpl. rewrite bind_run.
  destruct (process_ready env w (length (ready s1)) s1) as [s2 [[]|e]] eqn:E2;
    destruct (process_ready_bounds _ _ _ _ Hb1 E2) as (Hb2 & Hp2 & Hne2 & Hr2 & Hd2);
    [|intros [= <- <-]; split; [done|]; by intros _ [= ->]].
  rewrite bind_run. simpl. destruct (root_result s2); [by intros [= <- <-]|].
  destruct (reads s2) as [|rd rds] eqn:Er.
  - simpl in Hd2. destruct (ready s2) as [|id rest] eqn:Eq; [by intros [= <- <-]|].
    intros E3. destruct (IH _ _ _ Hb2 E3) as [? Hfuel]. split; [done|]. intros Hlt. apply Hfuel.
    assert (ready s1 ≠ []).
    { intros Hn. rewrite Hn in E2. simpl in E2. injection E2 as ->. congruence. }
    assert (length (ready s1) ≠ 0) by (destruct (ready s1); done). naive_solver lia.
  - rewrite bind_run. destruct (await_read env w s2) as [s3 [[]|e]] eqn:E3;
      (destruct (await_read_bounds s2 s3 _ Hb2 ltac:(rewrite Er; simpl; lia) E3) as (Hb3 & Hp3 & Hne3)).
    + intros E4. destruct (IH _ _ _ Hb3 E4) as [? Hfuel]. split; [done|]. intros Hlt. apply Hfuel.
      specialize (Hp3 eq_refl). lia.
    + intros [= <- <-]. split; [done|]. by intros _ [= ->].
Qed.

(** ** A whole root *)

Lemma scheduler_new_bounded meter :
  (∀ m, meter = Some m → meter_ok m) → bounded (scheduler_new meter).
Proof. intros Hm. constructor; unfold len; simpl; try done; lia. Qed.

Lemma drive_bounds fuel root meter s r :
  (∀ m, meter = Some m → meter_ok m) →
  drive env w fuel root (scheduler_new meter) = (s, r) →
  bounded s ∧ (3 * D < fuel → r ≠ Err OutOfFuel).
Proof.
  intros Hm. pose proof (scheduler_new_bounded meter Hm) as Hb. unfold drive. rewrite bind_run.
  destruct (schedule env w (WSemantic root) None (scheduler_new meter)) as [s1 [id|e]] eqn:E1;
    destruct (schedule_bounds (WSemantic root) None _ _ _ Hb ltac:(by intros ? [=]) E1)
      as ((Hb1 & Hp & _) & Hne).
  - case_match; [by intros [= <- <-]|]. rewrite bind_run.
    destruct (drive_loop env w fuel s1) as [s2 [[]|e]] eqn:E2;
      destruct (drive_loop_bounds fuel s1 s2 _ Hb1 E2) as [Hb2 Hne2].
    + rewrite bind_run. simpl. destruct (root_result s2) as [[]|]; by intros [= <- <-].
    + intros [= <- <-]. split; [done|]. intros Hfuel [= ->]. apply Hne2; [|done].
      unfold potential in *. simpl in *. lia.
  - intros [= <- <-]. split; [done|]. by intros _ [= ->].
Qed.

End bounds.
