(* ===== verification/Membership.v ===== *)
(** * Membership as a least fixpoint

    The relations of a model without exclusion, as stages of a least fixpoint:
    no paths, no cycle detection, no reachability metadata.  The check
    semantics of [CheckSpec], which cuts cycles and prunes by metadata, decides
    exactly membership. *)

From S2P Require Import Prelude Ordered Identifier Reference Condition Storage Model ModelErrors Graph.
From S2P Require Import GraphTheory TupleValidation Budget Reducer Scheduler CheckSpec.

(** What a check needs of the reachability metadata: it covers the restrictions
    of every relation and is closed under dependencies. *)
Class GraphLaws `{ConditionEngine} (m : CompiledModel) : Prop := {
  graph_indexed : relations_indexed m.(model_relations);
  graph_type : ∀ r ty, direct_type m.(model_relations) m.(model_nodes) r ty →
    can_reach_subject_type m r ty = true;
  graph_wildcard : ∀ r ty, direct_wildcard m.(model_relations) m.(model_nodes) r ty →
    can_reach_wildcard m r ty = true;
  graph_depends_type : ∀ r r' ty, depends m.(model_relations) m.(model_nodes) r r' →
    can_reach_subject_type m r' ty = true → can_reach_subject_type m r ty = true;
  graph_depends_wildcard : ∀ r r' ty, depends m.(model_relations) m.(model_nodes) r r' →
    can_reach_wildcard m r' ty = true → can_reach_wildcard m r ty = true;
}.

(** Metadata built by the compiler satisfies the interface. *)
Lemma built_graph_laws `{ConditionEngine} {Detail} (m : CompiledModel) limits
    (errors errors' : ErrorCollector Detail) :
  relations_indexed m.(model_relations) →
  build_graph_metadata m.(model_relations) m.(model_nodes) limits errors
    = Some (Some m.(model_graph), errors') →
  GraphLaws m.
Proof.
  intros Hidx Hb. apply build_graph_metadata_spec in Hb as (_ & Ht & Hw & _ & _); [|done].
  assert (Hrt : ∀ r ty, can_reach_subject_type m r ty = true ↔ at_ (reachable_types (model_graph m)) r ty).
  { intros r ty. unfold can_reach_subject_type, at_. destruct (_ !! r); [|naive_solver].
    rewrite bs_contains_elem. naive_solver. }
  assert (Hrw : ∀ r ty, can_reach_wildcard m r ty = true ↔ at_ (reachable_wildcards (model_graph m)) r ty).
  { intros r ty. unfold can_reach_wildcard, at_. destruct (_ !! r); [|naive_solver].
    rewrite bs_contains_elem. naive_solver. }
  constructor; [done|..]; setoid_rewrite Hrt || setoid_rewrite Hrw; setoid_rewrite Ht || setoid_rewrite Hw.
  - eauto using rtc_refl.
  - eauto using rtc_refl.
  - intros r r' ty Hd (r'' & ? & ?). eauto using rtc_l.
  - intros r r' ty Hd (r'' & ? & ?). eauto using rtc_l.
Qed.

(** Models without exclusion; the compiler gives every operator operands. *)
Definition positive_node (n : RewriteNode) : bool :=
  match n with NDifference _ _ | NIntersection [] => false | _ => true end.
Definition positive_model `{ConditionEngine} (m : CompiledModel) : bool :=
  forallb positive_node m.(model_nodes).

Section membership.
Context `{ConditionEngine}.
Variable env : CheckEnv.
Variable stored : ObjectRef → RelationName → list RelationshipTuple.

Abbreviation model := env.(env_model).

Inductive Target := TgRelation (k : SemanticKey) | TgNode (o : ObjectRef) (n : NodeId) (s : SubjectRef).

(** One unfolding of the rewrite rules over an interpretation [D]. *)
Definition member_step (D : Target → Prop) (x : Target) : Prop :=
  match x with
  | TgRelation k =>
      ∃ rel, relation model k.(sk_relation) = Ok rel ∧
        D (TgNode k.(sk_object) rel.(cr_root) k.(sk_subject))
  | TgNode o n s =>
      match node model n with
      | Ok (NDirect r) =>
          ∃ rel t, relation model r = Ok rel ∧ t ∈ rows_at env stored o rel.(cr_name) ∧
            condition_holds env t = Some true ∧
            match matching_restriction env t rel.(cr_restrictions) with
            | Ok (Some DCObject) => t.(rt_key).(tk_subject) = s
            | Ok (Some DCWildcard) =>
                t.(rt_key).(tk_subject) = s ∨ wildcard_matches t.(rt_key).(tk_subject) s = true
            | Ok (Some (DCUserset r')) =>
                ∃ u, t.(rt_key).(tk_subject) = SubjUserset u ∧
                  (SubjUserset u = s ∨ D (TgRelation (mkSemanticKey u.(us_object) r' s)))
            | _ => False
            end
      | Ok (NComputed r) => D (TgRelation (mkSemanticKey o r s))
      | Ok (NTupleToUserset tupleset _ targets) =>
          ∃ rel t o' target trel, relation model tupleset = Ok rel ∧
            t ∈ rows_at env stored o rel.(cr_name) ∧ condition_holds env t = Some true ∧
            matching_restriction env t rel.(cr_restrictions) = Ok (Some DCObject) ∧
            t.(rt_key).(tk_subject) = SubjObject o' ∧ target ∈ targets ∧
            relation model target = Ok trel ∧
            type_name model trel.(cr_object_type) = Ok o'.(object_type) ∧
            D (TgRelation (mkSemanticKey o' target s))
      | Ok (NUnion cs) => ∃ c, c ∈ cs ∧ D (TgNode o c s)
      | Ok (NIntersection cs) => ∀ c, c ∈ cs → D (TgNode o c s)
      | _ => False
      end
  end.

(** Membership with a derivation of height at most [h]. *)
Fixpoint member (h : nat) : Target → Prop :=
  match h with
  | 0 => fun _ => False
  | S h => member_step (member h)
  end.

Lemma member_step_mono (D D' : Target → Prop) x :
  (∀ y, D y → D' y) → member_step D x → member_step D' x.
Proof.
  intros Hsub. destruct x as [k|o n s]; simpl.
  - intros (rel & ? & ?). eauto.
  - destruct (node model n) as [[]|]; try done.
    + intros (rel & t & ? & ? & ? & Hm). exists rel, t. split_and!; [done..|].
      destruct (matching_restriction _ _ _) as [[[]|]|]; try done.
      destruct Hm as (u & ? & [|]); eauto.
    + apply Hsub.
    + intros (rel & t & o' & target & trel & Hm). exists rel, t, o', target, trel.
      destruct_and!. split_and!; auto.
    + intros (c & ? & ?). eauto.
    + auto.
Qed.

Lemma member_S h x : member h x → member (S h) x.
Proof.
  revert x. induction h as [|h IH]; intros x; [done|]. apply member_step_mono, IH.
Qed.

Definition target_of (t : Task) : Target :=
  match t with
  | TSemantic k _ => TgRelation k
  | TRewrite o n s _ => TgNode o n s
  end.

Definition path_of (t : Task) : BTreeSet SemanticKey :=
  match t with TSemantic _ p | TRewrite _ _ _ p => p end.

(** Membership through an operand. *)
Definition op_member (h : nat) (op : Operand) : Prop :=
  match op with
  | OAllow => True
  | OError => False
  | OTask t => member h (target_of t)
  end.

(** ** Rewrite nodes expand to what membership unfolds to *)

Definition any_member (h : nat) (ops : list Operand) : Prop := ∃ op, op ∈ ops ∧ op_member h op.
Definition all_members (h : nat) (ops : list Operand) : Prop := ∀ op, op ∈ ops → op_member h op.

Lemma if_condition_elem t ops op :
  op ∈ if_condition env t ops →
  (condition_holds env t = Some true ∧ op ∈ ops) ∨ op = OError.
Proof.
  unfold if_condition. destruct (condition_holds env t) as [[]|]; [by left|by intros []%not_elem_of_nil|].
  right. by apply list_elem_of_singleton.
Qed.

Lemma if_condition_true t ops : condition_holds env t = Some true → if_condition env t ops = ops.
Proof. unfold if_condition. by intros ->. Qed.

Lemma direct_operand_member h o n s path r rel :
  node model n = Ok (NDirect r) → relation model r = Ok rel →
  member (S h) (TgNode o n s) ↔
  any_member h (rows_at env stored o rel.(cr_name) ≫= direct_operands env s path rel.(cr_restrictions)).
Proof.
  intros Hn Hr. cbn [member member_step]. rewrite Hn. unfold any_member. split.
  - intros (rel' & t & Hr' & Ht & Hc & Hm). rewrite Hr in Hr'. simplify_eq.
    assert (Hop : ∃ op, op ∈ direct_operands env s path (cr_restrictions rel') t ∧ op_member h op).
    { unfold direct_operands, if_condition. rewrite Hc.
      destruct (matching_restriction _ _ _) as [[[| |]|]|]; try done.
      - rewrite bool_decide_true by done. exists OAllow. split; [by left|done].
      - destruct Hm as (u & -> & Hm). case_bool_decide; [exists OAllow; split; [by left|done]|].
        destruct Hm as [|Hm]; [done|]. eexists. split; [by apply list_elem_of_singleton|done].
      - exists OAllow. rewrite (proj2 (orb_true_iff _ _)); [split; [by left|done]|].
        rewrite bool_decide_eq_true. tauto. }
    destruct Hop as (op & ? & ?). exists op. split; [|done]. apply list_elem_of_bind. eauto.
  - intros (op & Hop & Hm). apply list_elem_of_bind in Hop as (t & Hop & Ht). exists rel, t.
    unfold direct_operands in Hop. destruct (matching_restriction _ _ _) as [[[| |]|]|]; simpl.
    + case_bool_decide; [|by apply not_elem_of_nil in Hop].
      apply if_condition_elem in Hop as [[? _]| ->]; [|done]. done.
    + destruct (tk_subject (rt_key t)) as [|u|] eqn:Es; [by apply not_elem_of_nil in Hop| |by apply not_elem_of_nil in Hop].
      apply if_condition_elem in Hop as [[? Hop]| ->]; [|done]. split_and!; [done..|].
      exists u. split; [done|]. case_bool_decide; [by left|right].
      by apply list_elem_of_singleton in Hop as ->.
    + case_match eqn:E; [|by apply not_elem_of_nil in Hop]. apply if_condition_elem in Hop as [[? _]| ->]; [|done].
      split_and!; [done..|]. apply orb_true_iff in E. by rewrite bool_decide_eq_true in E.
    + by apply not_elem_of_nil in Hop.
    + apply list_elem_of_singleton in Hop as ->. done.
Qed.

Lemma ttu_operand_member h o n s path tupleset c targets rel :
  node model n = Ok (NTupleToUserset tupleset c targets) → relation model tupleset = Ok rel →
  member (S h) (TgNode o n s) ↔
  any_member h (rows_at env stored o rel.(cr_name) ≫= ttu_operands env s path rel.(cr_restrictions) targets).
Proof.
  intros Hn Hr. cbn [member member_step]. rewrite Hn. unfold any_member. split.
  - intros (rel' & t & o' & target & trel & Hr' & Ht & Hc & Hm & Hs & Htg & Htr & Hty & Hmem).
    rewrite Hr in Hr'. simplify_eq.
    exists (OTask (TSemantic (mkSemanticKey o' target s) path)). split; [|done].
    apply list_elem_of_bind. exists t. split; [|done]. unfold ttu_operands.
    rewrite Hm, if_condition_true, Hs by done. apply list_elem_of_bind. exists target. split; [|done].
    unfold target_operands. rewrite Htr, Hty, bool_decide_true by done. by apply list_elem_of_singleton.
  - intros (op & Hop & Hm). apply list_elem_of_bind in Hop as (t & Hop & Ht).
    unfold ttu_operands in Hop. destruct (matching_restriction _ _ _) as [[[| |]|]|] eqn:Em;
      try by apply not_elem_of_nil in Hop.
    + apply if_condition_elem in Hop as [[Hc Hop]| ->]; [|done].
      destruct (tk_subject (rt_key t)) as [o'| |] eqn:Es; [|by apply not_elem_of_nil in Hop..].
      apply list_elem_of_bind in Hop as (target & Hop & Htg). unfold target_operands in Hop.
      destruct (relation model target) as [trel|] eqn:Etr; [|by apply list_elem_of_singleton in Hop as ->].
      destruct (type_name _ _) as [ty|] eqn:Ety; [|by apply list_elem_of_singleton in Hop as ->].
      case_bool_decide; [subst ty|by apply not_elem_of_nil in Hop]. apply list_elem_of_singleton in Hop as ->.
      exists rel, t, o', target, trel. split_and!; done.
    + apply list_elem_of_singleton in Hop as ->. done.
Qed.

(** ** Pruning is sound *)

Lemma first_matching_Some ty class c rs class' :
  first_matching env ty class c rs = Ok (Some class') →
  class' = class ∧ ∃ d, d ∈ rs ∧ d.(dr_subject_type) = ty ∧
    restriction_kind_matches d.(dr_kind) class = true.
Proof.
  induction rs as [|d rs IH]; simpl; [done|]. case_match eqn:E.
  - intros Hm. destruct (IH Hm) as (? & d' & ? & ? & ?). split; [done|]. exists d'. set_solver.
  - apply orb_false_iff in E as [E1%negb_false_iff%bool_decide_eq_true E2%negb_false_iff].
    intros (b & _ & Hb)%result_bind_ok. destruct b.
    + simplify_eq. split; [done|]. exists d. set_solver.
    + destruct (IH Hb) as (? & d' & ? & ? & ?). split; [done|]. exists d'. set_solver.
Qed.

Lemma matching_restriction_Some t rs class :
  matching_restriction env t rs = Ok (Some class) →
  ∃ ty d, type_id model (subject_type t.(rt_key).(tk_subject)) = Ok ty ∧ d ∈ rs ∧
    d.(dr_subject_type) = ty ∧ restriction_kind_matches d.(dr_kind) class = true ∧
    match class with
    | DCObject => ∃ o, t.(rt_key).(tk_subject) = SubjObject o
    | DCWildcard => ∃ ty, t.(rt_key).(tk_subject) = SubjWildcard ty
    | DCUserset r => ∃ u, t.(rt_key).(tk_subject) = SubjUserset u ∧
        relation_id model u.(us_object).(object_type) u.(us_relation) = Ok r
    end.
Proof.
  unfold matching_restriction. destruct (type_id _ _) as [ty|]; [|done].
  destruct (tk_subject (rt_key t)) as [o|u|w] eqn:Es.
  - intros (-> & d & ? & ? & ?)%first_matching_Some. exists ty, d. eauto 10.
  - destruct (relation_id _ _ _) as [r|] eqn:Er; [|done].
    intros (-> & d & ? & ? & ?)%first_matching_Some. exists ty, d. eauto 10.
  - intros (-> & d & ? & ? & ?)%first_matching_Some. exists ty, d. eauto 10.
Qed.

Context `{!GraphLaws model}.

(** The metadata reaches the subject of every member. *)
Definition reaches (r : RelationId) (s : SubjectRef) : Prop :=
  ∀ st, type_id model (subject_type s) = Ok st → reachable env r s st = true.

Lemma reaches_depends r r' s :
  depends (model_relations model) (model_nodes model) r r' → reaches r' s → reaches r s.
Proof.
  intros Hd Hr st Hst. specialize (Hr st Hst). unfold reachable in *. destruct (is_typed_wildcard s).
  - by eapply graph_depends_wildcard.
  - by eapply graph_depends_type.
Qed.

Lemma direct_reaches r nd owner orel t class s :
  nd = NDirect owner → model_relations model !! owner = Some orel →
  (∀ (fact : RewriteNode → nat → Prop) x, fact nd x →
     relation_fact (model_nodes model) (model_relations model) fact r x) →
  matching_restriction env t orel.(cr_restrictions) = Ok (Some class) →
  match class with
  | DCObject => t.(rt_key).(tk_subject) = s
  | DCWildcard => t.(rt_key).(tk_subject) = s ∨ wildcard_matches t.(rt_key).(tk_subject) s = true
  | DCUserset r' => t.(rt_key).(tk_subject) = s ∨ reaches r' s
  end → reaches r s.
Proof.
  intros -> Ho Hfact (ty & d & Hty & Hd & Hdt & Hk & Hform)%matching_restriction_Some Hs st Hst.
  assert (Htype : can_reach_subject_type model r ty = true).
  { subst ty. apply graph_type, Hfact. by econstructor. }
  unfold reachable. destruct class as [|r'|].
  - destruct Hform as [o Eo]. rewrite Hs in *. subst s. simpl in *. congruence.
  - destruct Hform as (u & Eu & _). destruct Hs as [Hs|Hs].
    + rewrite Hs in *. subst s. simpl in *. congruence.
    + apply (reaches_depends r r' s); [|done|done]. apply Hfact. eapply edge_userset; [done..|].
      destruct (dr_kind d); try done. simpl in Hk. by apply bool_decide_eq_true in Hk as ->.
  - assert (Hwild : can_reach_wildcard model r ty = true).
    { subst ty. apply graph_wildcard, Hfact. econstructor; [done..|]. by destruct (dr_kind d). }
    destruct Hform as (w & Ew). rewrite Ew in *. destruct Hs as [<-|Hs]; simpl in *.
    + congruence.
    + destruct s as [o| |]; try done. apply bool_decide_eq_true in Hs as ->. simpl in *. congruence.
Qed.

Hypothesis Hpositive : positive_model model = true.

Lemma node_positive n nd : node model n = Ok nd → positive_node nd = true.
Proof.
  intros Hn%ok_or_ok. unfold positive_model in Hpositive. rewrite forallb_elem in Hpositive.
  apply Hpositive. by eapply list_elem_of_lookup_2.
Qed.

Lemma member_reaches h : ∀ x,
  member h x →
  match x with
  | TgRelation k => reaches k.(sk_relation) k.(sk_subject)
  | TgNode _ n s => ∀ r rel, relation model r = Ok rel →
      in_rewrite (model_nodes model) rel.(cr_root) n → reaches r s
  end.
Proof.
  induction h as [|h IH]; [done|]. intros [k|o n s].
  - intros (rel & Hr & Hm). specialize (IH _ Hm k.(sk_relation) rel Hr). apply IH, rtc_refl.
  - cbn [member member_step]. destruct (node model n) as [nd|] eqn:En; [|done].
    pose proof (node_positive _ _ En) as Hpos. unfold node in En. apply ok_or_ok in En.
    intros Hm r rel Hr Hin.
    assert (Hfact : ∀ (fact : RewriteNode → nat → Prop) x, fact nd x →
      relation_fact (model_nodes model) (model_relations model) fact r x).
    { intros fact x Hf. apply ok_or_ok in Hr as Hr'. exists rel.
      split; [by eapply list_elem_of_lookup_2|]. split; [by apply graph_indexed|]. by exists n, nd. }
    assert (Hchild : ∀ c, c ∈ node_children nd → member h (TgNode o c s) → reaches r s).
    { intros c Hc Hmc. apply (IH _ Hmc r rel Hr). eapply rtc_r; [exact Hin|].
      unfold successors. by rewrite En. }
    destruct nd as [owner|target|ts c targets|cs|cs|b sub].
    + destruct Hm as (orel & t & Ho & _ & _ & Hm). apply ok_or_ok in Ho.
      destruct (matching_restriction _ _ _) as [[class|]|] eqn:Em; [|done|done].
      eapply (direct_reaches r _ owner orel t class s); [done|done|done|done|].
      destruct class; [done| |done]. destruct Hm as (u & -> & [|Hm]); [by left|right]. exact (IH _ Hm).
    + apply (reaches_depends r target); [apply Hfact; constructor|]. exact (IH _ Hm).
    + destruct Hm as (? & ? & ? & target & ? & _ & _ & _ & _ & _ & Ht & _ & _ & Hm).
      apply (reaches_depends r target); [apply Hfact; by constructor|]. exact (IH _ Hm).
    + destruct Hm as (c & Hc & Hm). by eapply Hchild.
    + destruct cs as [|c cs]; [done|]. apply (Hchild c); [by left|]. apply Hm. by left.
    + done.
Qed.

(** ** The semantics decides membership *)

Lemma rewrite_operand_path o n s path kind r ops t :
  expand env stored (TRewrite o n s path) = XNode kind r ops → OTask t ∈ ops → path_of t = path.
Proof.
  simpl. destruct (node model n) as [nd|]; [|done].
  assert (Hif : ∀ x l, OTask t ∈ if_condition env x l → OTask t ∈ l).
  { intros x l [[_ ?]|[=]]%if_condition_elem. done. }
  destruct nd as [rid|rid|ts c targets|cs|cs|b sub]; unfold read_expansion.
  - destruct (relation _ _); [|done]. intros [= <- <- <-] (x & Hx & _)%list_elem_of_bind.
    unfold direct_operands in Hx.
    destruct (matching_restriction _ _ _) as [[[| |]|]|]; repeat case_match;
      try (apply Hif in Hx); set_solver.
  - intros [= <- <- <-] [= ->]%list_elem_of_singleton. done.
  - destruct (relation _ _); [|done]. intros [= <- <- <-] (x & Hx & _)%list_elem_of_bind.
    unfold ttu_operands in Hx.
    destruct (matching_restriction _ _ _) as [[[| |]|]|]; try set_solver. apply Hif in Hx.
    destruct (tk_subject _); [|set_solver..]. apply list_elem_of_bind in Hx as (target & Hx & _).
    unfold target_operands in Hx. repeat case_match; set_solver.
  - intros [= <- <- <-] (c & [= ->] & _)%list_elem_of_fmap. done.
  - intros [= <- <- <-] (c & [= ->] & _)%list_elem_of_fmap. done.
  - intros [= <- <- <-]. set_solver.
Qed.

(** A rewrite node holds when its expansion does. *)
Lemma rewrite_member h o n s path kind r ops :
  expand env stored (TRewrite o n s path) = XNode kind r ops →
  member (S h) (TgNode o n s) ↔
  match kind with
  | RkSingle | RkUnion => any_member h ops
  | RkIntersection => all_members h ops
  | RkDifference => False
  end.
Proof.
  intros Hx. simpl in Hx. destruct (node model n) as [nd|] eqn:En; [|done].
  pose proof (node_positive _ _ En) as Hpos.
  destruct nd as [rid|rid|ts c targets|cs|cs|b sub]; [..|done]; unfold read_expansion in Hx.
  - destruct (relation model rid) as [rel|] eqn:Er; [|done]. simplify_eq.
    exact (direct_operand_member h o n s path _ _ En Er).
  - simplify_eq. cbn [member member_step]. rewrite En. unfold any_member.
    split; [intros; eexists; by split; [left|]|].
    by intros (op & ->%list_elem_of_singleton & ?).
  - destruct (relation model ts) as [rel|] eqn:Er; [|done]. simplify_eq.
    exact (ttu_operand_member h o n s path _ _ _ _ En Er).
  - simplify_eq. cbn [member member_step]. rewrite En. unfold any_member. split.
    + intros (c & Hc & Hm). exists (OTask (TRewrite o c s path)). split; [|done].
      apply list_elem_of_fmap. eauto.
    + intros (op & (c & -> & Hc)%list_elem_of_fmap & Hm). eauto.
  - simplify_eq. cbn [member member_step]. rewrite En. unfold all_members. split.
    + intros Hm op (c & -> & Hc)%list_elem_of_fmap. by apply Hm.
    + intros Hm c Hc. apply (Hm (OTask (TRewrite o c s path))). apply list_elem_of_fmap. eauto.
Qed.

(** *** What a decision says of the operands *)

Lemma combine_single_ok r es d :
  combine RkSingle r es = Ok d → ∃ d' es', es = Ok d' :: es' ∧ d.(allowed) = d'.(allowed).
Proof.
  destruct es as [|[d'|] es']; simpl; try done.
  intros [= <-]. exists d', es'. split; [done|].
  destruct (allowed d') eqn:E; [|done]. by destruct r.
Qed.

Lemma op_at {A} (ops : list Operand) (es : list A) i e :
  length es = length ops → es !! i = Some e → ∃ op, ops !! i = Some op.
Proof. intros Hlen Hi. apply lookup_lt_is_Some. rewrite <-Hlen. by eapply lookup_lt_Some. Qed.

Lemma expand_single_length t r ops : expand env stored t = XNode RkSingle r ops → length ops = 1.
Proof. unfold expand, read_expansion. intros E. repeat (case_match; try done); by simplify_eq. Qed.

Lemma op_member_le h h' op : h ≤ h' → op_member h op → op_member h' op.
Proof.
  intros Hle. destruct op as [| |t]; simpl; [done..|].
  induction Hle as [|h' _ IH]; [done|]. intros Hm. by apply member_S, IH.
Qed.

Lemma all_members_common ops :
  (∀ op, op ∈ ops → ∃ h, op_member h op) → ∃ h, all_members h ops.
Proof.
  induction ops as [|op ops IH]; intros Hops.
  - exists 0. by intros ? []%not_elem_of_nil.
  - destruct IH as [h1 H1]; [intros; apply Hops; by right|].
    destruct (Hops op) as [h2 H2]; [by left|]. exists (h1 `max` h2).
    intros op' [->|Hop]%elem_of_cons; [|specialize (H1 _ Hop)];
      eapply op_member_le; [|done| |done]; lia.
Qed.

Lemma decides_sound t d : Decides env stored t d → d.(allowed) = true → ∃ h, member h (target_of t).
Proof.
  revert t d. apply (Decides_mut env stored
    (fun t d => d.(allowed) = true → ∃ h, member h (target_of t))
    (fun op d => d.(allowed) = true → ∃ h, op_member h op)).
  - intros t d Hx Ha. exfalso. unfold expand, read_expansion in Hx.
    repeat (case_match; try done); by simplify_eq.
  - intros t kind r ops es d Hx Hlen _ IH Hc Ha.
    assert (Hop : ∀ i d', es !! i = Some (Ok d') → d'.(allowed) = true →
      ∃ op h, ops !! i = Some op ∧ op_member h op).
    { intros i d' Hi Hd'. destruct (op_at ops _ _ _ Hlen Hi) as [op Hop].
      destruct (IH _ _ _ Hop Hi Hd') as [h Hh]. eauto. }
    destruct t as [k path|o n s path].
    + simpl in Hx. repeat (case_match; try done). simplify_eq.
      apply combine_single_ok in Hc as (d' & es' & -> & Hd').
      destruct (Hop 0 d') as (op & h & Hop' & Hm); [done|congruence|].
      simplify_eq/=. exists (S h). simpl. eauto.
    + assert (Hany : (∃ i d', es !! i = Some (Ok d') ∧ d'.(allowed) = true) → ∃ h, any_member h ops).
      { intros (i & d' & Hi & Hd'). destruct (Hop i d' Hi Hd') as (op & h & Hop' & Hm).
        exists h, op. split; [by eapply list_elem_of_lookup_2|done]. }
      pose proof (fun h => rewrite_member h _ _ _ _ _ _ _ Hx) as Hrw. destruct kind.
      * apply combine_single_ok in Hc as (d' & es' & -> & Hd').
        destruct Hany as [h Hh]; [exists 0, d'; split; [done|congruence]|].
        exists (S h). by apply Hrw.
      * apply combine_union_ok in Hc as [(-> & Hex)|(-> & _)]; [|done].
        destruct (Hany Hex) as [h Hh]. exists (S h). by apply Hrw.
      * apply combine_intersection_ok in Hc as [(-> & _)|(-> & Hall)]; [done|].
        destruct (all_members_common ops) as [h Hh].
        { intros op [i Hi]%list_elem_of_lookup. destruct (lookup_lt_is_Some_2 es i) as [e He].
          { rewrite Hlen. by eapply lookup_lt_Some. }
          destruct (Hall _ _ He) as (d' & -> & Hd'). by eapply IH. }
        exists (S h). by apply Hrw.
      * simpl in Hx. destruct (node model n) as [nd|] eqn:En; [|done].
        pose proof (node_positive _ _ En). destruct nd; try done. all: unfold read_expansion in Hx; by repeat case_match.
  - intros _. by exists 0.
  - intros t d _ IH Ha. by apply IH.
Qed.

(** A denied node has no member among the operands that would make it one. *)
Lemma denied_operands t kind r ops es d :
  expand env stored t = XNode kind r ops → length es = length ops →
  (∀ i op d', ops !! i = Some op → es !! i = Some (Ok d') → OpDecides env stored op d') →
  combine kind r es = Ok d → d.(allowed) = false →
  match kind with
  | RkSingle | RkUnion => ∀ op, op ∈ ops → ∃ d', OpDecides env stored op d' ∧ d'.(allowed) = false
  | RkIntersection => ∃ op d', op ∈ ops ∧ OpDecides env stored op d' ∧ d'.(allowed) = false
  | RkDifference => True
  end.
Proof.
  intros Hx Hlen Hops Hc Ha. destruct kind; [| | |done].
  - apply expand_single_length in Hx. apply combine_single_ok in Hc as (d' & es' & -> & Hd').
    destruct ops as [|op [|]]; try done. intros op' ->%list_elem_of_singleton.
    exists d'. split; [by apply (Hops 0)|congruence].
  - apply combine_union_ok in Hc as [(-> & _)|(-> & Hall)]; [done|].
    intros op [i Hi]%list_elem_of_lookup. destruct (lookup_lt_is_Some_2 es i) as [e He].
    { rewrite Hlen. by eapply lookup_lt_Some. }
    destruct (Hall _ _ He) as (d' & -> & Hd'). eauto.
  - apply combine_intersection_ok in Hc as [(-> & i & d' & Hi & Hd')|(-> & _)]; [|done].
    destruct (op_at ops _ _ _ Hlen Hi) as [op Hop]. exists op, d'.
    split_and!; [by eapply list_elem_of_lookup_2|eauto|done].
Qed.

(** Cutting at a repeated question loses nothing: a member that is decided
    below a path none of whose questions has so short a derivation is allowed. *)
Lemma decides_complete h : ∀ t d,
  Decides env stored t d → member h (target_of t) →
  (∀ k, k ∈ path_of t → ¬ member h (TgRelation k)) → d.(allowed) = true.
Proof.
  induction h as [|h IH]; intros t d Hd Hm Hpath; [done|].
  destruct (allowed d) eqn:Ha; [done|exfalso].
  assert (IHop : ∀ op d', OpDecides env stored op d' → d'.(allowed) = false →
    (∀ t', op = OTask t' → ∀ k, k ∈ path_of t' → ¬ member h (TgRelation k)) → ¬ op_member h op).
  { intros op d' Hop Hd' Hp Hmo. destruct Hop as [|t' d' Ht']; [done|].
    by rewrite (IH _ _ Ht' Hmo (Hp _ eq_refl)) in Hd'. }
  assert (Hshort : ∀ k, k ∈ path_of t → ¬ member h (TgRelation k)).
  { intros k Hk Hmk. by apply (Hpath k Hk), member_S. }
  assert (Hlow : ¬ member h (target_of t)).
  { intros Hmt. rewrite (IH _ _ Hd Hmt Hshort) in Ha. done. }
  destruct Hd as [t d Hx|t kind r ops es d Hx Hlen Hops Hc].
  - destruct t as [k path|o n s path]; simpl in *.
    + case_match eqn:Ec; [by apply bs_contains_elem in Ec; apply (Hpath k)|].
      destruct (type_id _ _) as [st|] eqn:Est; [|done]. case_match eqn:Er; [|by repeat case_match].
      by rewrite (member_reaches (S h) (TgRelation k) Hm st Est) in Er.
    + by repeat (unfold read_expansion in Hx; case_match).
  - pose proof (denied_operands _ _ _ _ _ _ Hx Hlen Hops Hc Ha) as Hden.
    destruct t as [k path|o n s path].
    + simpl in Hx. repeat (case_match; try done). simplify_eq.
      rename select (relation _ _ = Ok _) into Hrel. destruct Hm as (rel & Hr & Hm).
      rewrite Hrel in Hr. injection Hr as ->. destruct (Hden (OTask (TRewrite (sk_object k) (cr_root rel) (sk_subject k) (bs_insert k path))))
        as (d' & Hop & Hd'); [by left|].
      eapply IHop; [exact Hop|done| |exact Hm].
      intros t' [= <-] k' [->|Hk']%bs_insert_elem; [done|by apply Hshort].
    + assert (Hpaths : ∀ op, op ∈ ops → ∀ t', op = OTask t' → ∀ k, k ∈ path_of t' → ¬ member h (TgRelation k)).
      { intros op Hop t' ->. rewrite (rewrite_operand_path _ _ _ _ _ _ _ _ Hx Hop). done. }
      apply (rewrite_member h _ _ _ _ _ _ _ Hx) in Hm. destruct kind; try done.
      * destruct Hm as (op & Hop & Hm). destruct (Hden op Hop) as (d' & ? & ?). by eapply IHop; eauto.
      * destruct Hm as (op & Hop & Hm). destruct (Hden op Hop) as (d' & ? & ?). by eapply IHop; eauto.
      * destruct Hden as (op & d' & Hop & ? & ?). by eapply IHop; eauto.
Qed.

(** A root question is decided exactly as membership. *)
Lemma decides_member k d :
  Decides env stored (TSemantic k []) d → d.(allowed) = true ↔ ∃ h, member h (TgRelation k).
Proof.
  intros Hd. split.
  - exact (decides_sound _ _ Hd).
  - intros [h Hm]. apply (decides_complete h _ _ Hd Hm). by intros ? []%not_elem_of_nil.
Qed.

End membership.
