(* ===== verification/Restrictions.v ===== *)
(** * Restrictions and validation

    How the restriction a check selects for a tuple
    ([matching_restriction] of the check evaluator) relates to the validation
    of written tuples: a tuple is valid exactly when a restriction matches it
    and the condition accepts its context. *)

From S2P Require Import Prelude Ordered Identifier Reference Condition Model TupleValidation Budget Reducer.
From S2P Require Import Scheduler.

Section restrictions.
Context `{ConditionEngine}.
Variable env : CheckEnv.
Abbreviation m := env.(env_model).

(** The class of a tuple's subject. *)
Definition subject_class (t : RelationshipTuple) (class : DirectClass) : Prop :=
  match t.(rt_key).(tk_subject), class with
  | SubjObject _, DCObject | SubjWildcard _, DCWildcard => True
  | SubjUserset u, DCUserset r => relation_id m u.(us_object).(object_type) u.(us_relation) = Ok r
  | _, _ => False
  end.

Definition requirement_met (d : DirectRestriction) (c : ConditionReference) : Prop :=
  condition_requirement_matches env d.(dr_condition) c = Ok true.

Lemma first_matching_iff ty class c rs class' :
  (∀ d, d ∈ rs → ∃ b, condition_requirement_matches env d.(dr_condition) c = Ok b) →
  first_matching env ty class c rs = Ok (Some class') ↔
  class' = class ∧ ∃ d, d ∈ rs ∧ d.(dr_subject_type) = ty ∧
    restriction_kind_matches d.(dr_kind) class = true ∧ requirement_met d c.
Proof.
  induction rs as [|d rs IH]; intros Hreq; simpl; [set_solver|].
  destruct (Hreq d ltac:(by left)) as [b Hb]. assert (IH' := IH ltac:(intros; apply Hreq; by right)). clear IH Hreq.
  setoid_rewrite elem_of_cons. unfold requirement_met in *. case_match eqn:E.
  - rewrite IH'. apply orb_true_iff in E. rewrite !negb_true_iff, bool_decide_eq_false in E.
    split; [naive_solver|]. intros (-> & d' & [->|?] & ? & ? & ?); [|by eauto 7]. destruct E; congruence.
  - apply orb_false_iff in E as [E1%negb_false_iff%bool_decide_eq_true E2%negb_false_iff]. rewrite Hb. simpl.
    destruct b.
    + split; [|by intros [-> _]]. intros [= <-]. split; [done|]. exists d. eauto.
    + rewrite IH'. split; [naive_solver|]. intros (-> & d' & [->|?] & ? & ? & ?); [congruence|by eauto 7].
Qed.

(** The fold over the matching restrictions, when every required condition exists. *)
Lemma conditional_matched_iff binding rs : ∀ matched,
  (∀ d id, d ∈ rs → d.(dr_condition) = Required id → ∃ k, condition m id = Ok k) →
  conditional_matched m binding matched rs = Ok true ↔
  (∀ d id k, d ∈ rs → d.(dr_condition) = Required id → condition m id = Ok k →
     condition_name k = binding.(cb_name) → validate_context k binding.(cb_context) = Ok ()) ∧
  (matched = true ∨ ∃ d id k, d ∈ rs ∧ d.(dr_condition) = Required id ∧ condition m id = Ok k ∧
     condition_name k = binding.(cb_name)).
Proof.
  induction rs as [|d rs IH]; intros matched Hc; cbn [conditional_matched].
  - split; [intros [= ->]; set_solver|]. intros (_ & [->|(d & ? & ? & ? & _)]); [done|set_solver].
  - assert (Hc' : ∀ d id, d ∈ rs → d.(dr_condition) = Required id → ∃ k, condition m id = Ok k)
      by (intros; eapply Hc; [by right|done]).
    setoid_rewrite elem_of_cons. destruct (dr_condition d) as [|id] eqn:Ed.
    + rewrite IH by done. clear IH Hc Hc'. split; intros (Hall & Hm'); split.
      * intros d' id' k' [->|Hd'] E1; [congruence|by eauto].
      * destruct Hm' as [|(d' & id' & k' & ? & ?)]; [by left|eauto 9].
      * eauto.
      * destruct Hm' as [|(d' & id' & k' & [->|?] & E1 & ?)]; [by left|congruence|eauto 9].
    + destruct (Hc d id ltac:(by left) Ed) as (k & Hk). rewrite Hk. simpl. case_bool_decide as Hn.
      * destruct (validate_context k (cb_context binding)) as [[]|err] eqn:Ev; simpl.
        -- rewrite IH by done. clear IH Hc Hc'. split.
           ++ intros (Hall & _). split; [|eauto 9]. intros d' id' k' [->|Hd'] E1 E2 E3; [|by eauto].
              rewrite Ed in E1. simplify_eq. by rewrite Hk in E2; simplify_eq.
           ++ intros (Hall & _). split; [|by left]. eauto.
        -- split; [done|]. intros (Hall & _). specialize (Hall d id k ltac:(by left) Ed Hk Hn). congruence.
      * rewrite IH by done. clear IH Hc Hc'. split.
        -- intros (Hall & Hm'). split; [|destruct Hm' as [|(d' & id' & k' & ? & ?)]; [by left|eauto 9]].
           intros d' id' k' [->|Hd'] E1 E2 E3; [|by eauto]. rewrite Ed in E1. simplify_eq. rewrite Hk in E2. by simplify_eq.
        -- intros (Hall & Hm'). split; [eauto|]. destruct Hm' as [|(d' & id' & k' & [->|?] & E1 & E2 & E3)]; [by left| |eauto 9].
           rewrite Ed in E1. simplify_eq. rewrite Hk in E2. by simplify_eq.
Qed.

(** The condition a tuple names accepts the context stored with it. *)
Definition context_accepted (t : RelationshipTuple) : Prop :=
  match t.(rt_condition) with
  | Unconditional => True
  | Conditional binding => ∀ id c, condition_id m binding.(cb_name) = Ok id → condition m id = Ok c →
      validate_context c binding.(cb_context) = Ok ()
  end.

Section validation.
Variable rs : list DirectRestriction.
Hypothesis Hrequired : ∀ d id, d ∈ rs → d.(dr_condition) = Required id → ∃ k, condition m id = Ok k.
Hypothesis Hnames : ∀ name id, condition_id m name = Ok id ↔ ∃ c, condition m id = Ok c ∧ condition_name c = name.

Lemma requirement_defined d c : d ∈ rs → ∃ b, condition_requirement_matches env d.(dr_condition) c = Ok b.
Proof.
  intros Hd. destruct (dr_condition d) as [|id] eqn:E, c; simpl; [eauto..|].
  destruct (Hrequired d id Hd E) as [k ->]. simpl. eauto.
Qed.

Lemma requirement_met_conditional d binding :
  requirement_met d (Conditional binding) ↔
  ∃ id k, d.(dr_condition) = Required id ∧ condition m id = Ok k ∧ condition_name k = binding.(cb_name).
Proof.
  unfold requirement_met. destruct (dr_condition d) as [|id]; simpl; [naive_solver|].
  destruct (condition m id) as [k|] eqn:Ek; simpl.
  - split; [intros [= Hb%bool_decide_eq_true]; eauto|]. intros (id' & k' & E1 & E2 & Hn). simplify_eq.
    rewrite Ek in E2. simplify_eq. by rewrite bool_decide_true.
  - split; [done|]. intros (id' & k' & E1 & E2 & _). simplify_eq. congruence.
Qed.

Lemma requirement_met_unconditional d : requirement_met d Unconditional ↔ d.(dr_condition) = ReqUnconditional.
Proof. unfold requirement_met. destruct (dr_condition d); simpl; naive_solver. Qed.

(** Validation of the condition against the restrictions for a subject. *)
Lemma validate_conditional_met binding l : l ⊆ rs →
  validate_conditional m binding l = Ok () ↔
  (∃ d, d ∈ l ∧ requirement_met d (Conditional binding)) ∧
  ∀ id c, condition_id m binding.(cb_name) = Ok id → condition m id = Ok c → validate_context c binding.(cb_context) = Ok ().
Proof.
  intros Hl. assert (Hfold := conditional_matched_iff binding l false ltac:(eauto)).
  unfold validate_conditional. setoid_rewrite requirement_met_conditional. split.
  - intros (cid & _ & Hv)%result_bind_ok. apply result_bind_ok in Hv as (b & Hb & Hv).
    destruct b; [|done]. apply Hfold in Hb as [Hall [|(d & id & k & Hd & E & Hk & Hn)]]; [done|].
    split; [eauto 9|]. intros id' c Hid' Hc. assert (Hid : condition_id m (cb_name binding) = Ok id) by (apply Hnames; eauto).
    rewrite Hid in Hid'. simplify_eq. rewrite Hk in Hc. simplify_eq. by eapply Hall.
  - intros ((d & Hd & id & k & E & Hk & Hn) & Hctx).
    rewrite (proj2 (Hnames (cb_name binding) id)) by eauto. simpl.
    rewrite (proj2 Hfold); [done|]. split; [|eauto 9].
    intros d2 id2 k2 Hd2 E2 Hk2 Hn2. eapply Hctx; [|exact Hk2]. apply Hnames. eauto.
Qed.

Lemma validate_unconditional_met l :
  validate_unconditional l = Ok () ↔ ∃ d, d ∈ l ∧ requirement_met d Unconditional.
Proof.
  unfold validate_unconditional. setoid_rewrite requirement_met_unconditional. destruct (existsb _ _) eqn:Ex.
  - apply existsb_elem in Ex as (d & ? & ?%bool_decide_eq_true). split; [eauto|done].
  - split; [done|]. intros (d & Hd & Hr). rewrite existsb_elem_false in Ex.
    specialize (Ex d Hd). by apply bool_decide_eq_false in Ex.
Qed.

Lemma matching_of_class t ty class :
  type_id m (subject_type t.(rt_key).(tk_subject)) = Ok ty → subject_class t class →
  matching_restriction env t rs = first_matching env ty class t.(rt_condition) rs.
Proof.
  intros Hty Hc. unfold matching_restriction. rewrite Hty. unfold subject_class in Hc.
  destruct (tk_subject (rt_key t)), class; try done. by rewrite Hc.
Qed.

(** A tuple is valid for a relation exactly when a restriction matches it and
    its context is accepted. *)
Lemma validate_condition_matching t :
  validate_relationship_condition m t rs = Ok () ↔
  (∃ class, matching_restriction env t rs = Ok (Some class)) ∧ context_accepted t.
Proof.
  unfold validate_relationship_condition.
  destruct (type_id m (subject_type (tk_subject (rt_key t)))) as [ty|] eqn:Ety; simpl;
    [|split; [done|]; intros [[class Hm] _]; unfold matching_restriction in Hm; by rewrite Ety in Hm].
  destruct (relationship_direct_class m (tk_subject (rt_key t))) as [class|] eqn:Ec; simpl.
  - assert (Hclass : subject_class t class).
    { unfold relationship_direct_class in Ec. unfold subject_class.
      destruct (tk_subject (rt_key t)); simplify_eq; [done| |done].
      apply map_err_ok, result_fmap_ok in Ec as (r & -> & ?). done. }
    set (l := filter _ rs).
    assert (Hmet : (∃ class, matching_restriction env t rs = Ok (Some class)) ↔
      ∃ d, d ∈ l ∧ requirement_met d t.(rt_condition)).
    { rewrite (matching_of_class t ty class) by done.
      setoid_rewrite (first_matching_iff ty class _ rs); [|intros; by apply requirement_defined].
      split.
      - intros (class' & -> & d & Hd & Ht & Hk & Hr). exists d. split; [|done]. by apply list_elem_of_filter.
      - intros (d & [[Ht Hk] Hd]%list_elem_of_filter & Hr). exists class. split; [done|]. by exists d. }
    assert (Hl : l ⊆ rs) by (by intros d [_ Hd]%list_elem_of_filter).
    rewrite Hmet. clearbody l. destruct l as [|d0 l'].
    { split; [done|]. by intros [(d & []%not_elem_of_nil & _) _]. }
    unfold context_accepted. destruct (rt_condition t) as [|binding].
    + rewrite validate_unconditional_met. tauto.
    + by apply validate_conditional_met.
  - split; [done|]. intros [[class Hm] _]. exfalso. unfold relationship_direct_class in Ec. unfold matching_restriction in Hm.
    rewrite Ety in Hm. destruct (tk_subject (rt_key t)); try done. by destruct (relation_id m _ _).
Qed.

End validation.
End restrictions.
