(* ===== verification/Fixture.v ===== *)
(** * A concrete deployment

    One small compiled model with stored tuples, a reader over them, a
    schedule of the world and concrete stand-ins for the engines behind
    interfaces.  Witnesses and counterexamples evaluate the definitions of the
    development on it.

    Documents have [viewer: [user, user:*, group#member] and approved],
    [approved: [user]], [editor: [user] or owner from parent],
    [parent: [folder]]; folders have [owner: [user]]; groups have
    [member: [user, group#member]]. *)

From S2P Require Import Prelude Ordered Identifier Reference Condition Storage Model TupleValidation Budget.
From S2P Require Import Reducer Scheduler.

Module Fixture.

(** Conditions compare nothing: the engine knows one condition that holds. *)
#[export] Instance engine : ConditionEngine := {|
  CompiledCondition := ConditionName;
  condition_name := fun c => c;
  validate_context := fun _ _ => Ok ();
  evaluate := fun _ _ _ budget _ =>
    if (budget <? 2)%N then Err ECostExceeded else Ok (mkConditionOutcome true 2);
  condition_value := fun _ _ _ => Some true;
|}.

#[export] Instance engine_laws : ConditionEngineLaws.
Proof.
  split; intros c r t b poll out; cbn; destruct (N.ltb_spec b 2); try done; intros [= <-]; done.
Qed.

Definition user : TypeName := str "user".
Definition group : TypeName := str "group".
Definition folder : TypeName := str "folder".
Definition document : TypeName := str "document".
Definition member : RelationName := str "member".
Definition owner : RelationName := str "owner".
Definition viewer : RelationName := str "viewer".
Definition approved : RelationName := str "approved".
Definition editor : RelationName := str "editor".
Definition parent : RelationName := str "parent".

Definition unconditionally (t : TypeId) (k : RestrictionKind) : DirectRestriction :=
  mkDirectRestriction t k ReqUnconditional.

(** Types: user 0, group 1, folder 2, document 3.  Relations: member 0,
    owner 1, viewer 2, approved 3, editor 4, parent 5. *)
Definition model : CompiledModel := {|
  model_store_id := 1%N;
  model_id := 2%N;
  schema_version := str "1.1";
  compiler_format_version := 1%N;
  model_types := [mkCompiledType 0 user []; mkCompiledType 1 group [0]; mkCompiledType 2 folder [1];
                  mkCompiledType 3 document [2; 3; 4; 5]];
  type_lookup := [(document, 3); (folder, 2); (group, 1); (user, 0)];
  model_relations :=
    [ mkCompiledRelation 0 1 member 0 [unconditionally 0 RKObject; unconditionally 1 (RKUserset 0)];
      mkCompiledRelation 1 2 owner 1 [unconditionally 0 RKObject];
      mkCompiledRelation 2 3 viewer 4
        [unconditionally 0 RKObject; unconditionally 0 RKWildcard; unconditionally 1 (RKUserset 0)];
      mkCompiledRelation 3 3 approved 5 [unconditionally 0 RKObject];
      mkCompiledRelation 4 3 editor 8 [unconditionally 0 RKObject];
      mkCompiledRelation 5 3 parent 9 [unconditionally 2 RKObject] ];
  relation_lookup :=
    [((document, approved), 3); ((document, editor), 4); ((document, parent), 5);
     ((document, viewer), 2); ((folder, owner), 1); ((group, member), 0)];
  model_nodes :=
    [ NDirect 0; NDirect 1; NDirect 2; NComputed 3; NIntersection [2; 3]; NDirect 3;
      NDirect 4; NTupleToUserset 5 owner [1]; NUnion [6; 7]; NDirect 5 ];
  model_conditions := [];
  condition_lookup := [];
  model_graph := {|
    forward := [[0]; []; [0; 3]; []; [1]; []];
    reverse_edges := [[0; 2]; [4]; []; [2]; []; [4]];
    reachable_types := [[0; 1]; [0]; [0; 1]; [0]; [0]; [2]];
    reachable_wildcards := [[]; []; [0]; []; []; []];
    graph_recursion_groups := [Some 0%N; None; None; None; None; None];
  |};
|}.

Definition anne : ObjectRef := mkObjectRef user (str "anne").
Definition bob : ObjectRef := mkObjectRef user (str "bob").
Definition eng : ObjectRef := mkObjectRef group (str "eng").
Definition root_folder : ObjectRef := mkObjectRef folder (str "root").
Definition doc1 : ObjectRef := mkObjectRef document (str "1").

Definition tuple (o : ObjectRef) (r : RelationName) (s : SubjectRef) : RelationshipTuple :=
  mkRelationshipTuple (mkTupleKey o r s) Unconditional.

Definition database : list RelationshipTuple :=
  [ tuple eng member (SubjObject bob);
    tuple root_folder owner (SubjObject anne);
    tuple doc1 viewer (SubjUserset (mkUsersetRef eng member));
    tuple doc1 approved (SubjObject bob);
    tuple doc1 approved (SubjObject anne);
    tuple doc1 parent (SubjObject root_folder) ].

(** The tuples of [database] on one object and relation. *)
Definition stored_in (db : list RelationshipTuple) (o : ObjectRef) (r : RelationName) :
    list RelationshipTuple :=
  filter (fun t => t.(rt_key).(tk_object) = o ∧ t.(rt_key).(tk_relation) = r) db.

(** A quiet world: reads succeed and are joined in the order they were started. *)
Definition world (db : list RelationshipTuple) : World := {|
  w_cancelled := fun _ => false;
  w_now := fun _ => 0%N;
  w_poll := fun _ _ => false;
  w_select := fun _ => SelJoined 0;
  w_tasks := fun _ => [];
  w_read := fun _ _ f _ => Ok (from_tuples (stored_in db f.(orf_object) f.(orf_relation)));
  w_charges := fun _ => [];
|}.

Definition input (o : ObjectRef) (r : RelationName) (s : SubjectRef) : RootInput :=
  mkRootInput 1%N LatestModel MinimizeLatency 100%N (mkTupleKey o r s) [] empty_condition_context.

Definition check_in (db : list RelationshipTuple) (o : ObjectRef) (r : RelationName)
    (s : SubjectRef) : result Fault CheckOutcome :=
  evaluate_root_inner (input o r s) model default_check_budget None default_input_limits
    (world db) 100.

(** A budget of three work items. *)
Definition small_budget : CheckBudget := mkCheckBudget 25 3 100 100 100 16 16.

(** The question answered by a matching tuple and by the wildcard. *)
Definition twice_database : list RelationshipTuple :=
  tuple doc1 viewer (SubjObject bob) :: tuple doc1 viewer (SubjWildcard user) :: database.

End Fixture.
