(* ===== verification/CheckTheorems.v ===== *)
(** * Correctness of a check root

    The properties of [evaluate_root_inner], stated over all worlds. *)

From S2P Require Import Prelude Ordered Identifier Reference Condition Storage Model ModelErrors Graph.
From S2P Require Import GraphTheory TupleValidation Budget Reducer Scheduler CheckSpec CheckSound.
From S2P Require Import SchedulerBounds Membership Fixture.

Import Fixture.

(** The environment the scheduler of a root runs in. *)
Definition root_env `{ConditionEngine} (input : RootInput) (m : CompiledModel) (budget : CheckBudget)
    (limits : InputLimits) : CheckEnv :=
  mkCheckEnv m budget limits (mkOperationContext input.(ri_consistency) input.(ri_deadline))
    input.(ri_contextual) input.(ri_condition_context) (N.min budget.(maximum_tuple_items) 100000).

Section root.
Context `{ConditionEngineLaws}.

Lemma check_env_new_ok m budget limits op ctx cc env :
  check_env_new m budget limits op ctx cc = Ok env →
  env = mkCheckEnv m budget limits op ctx cc (N.min budget.(maximum_tuple_items) 100000).
Proof.
  unfold check_env_new. intros (n & Hn%map_err_ok & [= <-])%result_bind_ok. f_equal.
  unfold limit_new in Hn. repeat case_match; by simplify_eq.
Qed.

(** A successful root went through validation and the scheduler. *)
Lemma evaluate_root_inner_ok input m budget meter limits w fuel out :
  evaluate_root_inner input m budget meter limits w fuel = Ok out →
  ∃ r s, validate_query_tuple m input.(ri_tuple) = Ok r ∧
    drive (root_env input m budget limits) w fuel (root_work input.(ri_tuple) r) (scheduler_new meter)
      = (s, Ok (mkDecision out.(co_allowed) out.(co_resolution))) ∧
    out.(co_metadata) = s.(counters).
Proof.
  unfold evaluate_root_inner. intros ([] & _ & Hm)%result_bind_ok.
  apply result_bind_ok in Hm as (r & Hr%map_err_ok%map_err_ok & Hm).
  apply result_bind_ok in Hm as ([] & _ & Hm).
  apply result_bind_ok in Hm as (env & ->%map_err_ok%check_env_new_ok & Hm).
  exists r. fold (root_env input m budget limits) in Hm. unfold run in Hm.
  destruct (drive _ _ _ _ _) as [s [d|]]; [|done]. simpl in Hm. exists s. simplify_eq.
  split_and!; [done| |done]. by destruct d.
Qed.

(** The semantics of a root reads only the model, the contextual tuples and
    the condition context. *)
Lemma Decides_env env env' stored t d :
  env.(env_model) = env'.(env_model) → env.(env_contextual) = env'.(env_contextual) →
  env.(env_condition_context) = env'.(env_condition_context) →
  Decides env stored t d → Decides env' stored t d.
Proof.
  destruct env as [m b l o c x n], env' as [m' b' l' o' c' x' n']. simpl. intros -> -> -> Hd.
  revert t d Hd.
  apply (Decides_mut _ stored _ (fun op d => OpDecides (mkCheckEnv m' b' l' o' c' x' n') stored op d)).
  - intros t d Hx. by apply Decides_done.
  - intros t kind r ops es d Hx Hlen _ IH Hc. by eapply Decides_node.
  - constructor.
  - intros t d _ Hd. by constructor.
Qed.

(** Validation does not depend on the fuel; the scheduler does not depend on
    more fuel than it needs. *)
Lemma evaluate_root_inner_drive input m budget meter limits w :
  (∃ e, ∀ fuel, evaluate_root_inner input m budget meter limits w fuel = Err (Fail e)) ∨
  ∃ r, validate_query_tuple m input.(ri_tuple) = Ok r ∧ ∀ fuel,
    evaluate_root_inner input m budget meter limits w fuel =
    snd (run (root_env input m budget limits) w fuel (root_work input.(ri_tuple) r)
           (scheduler_new meter)).
Proof.
  unfold evaluate_root_inner. destruct (validate_model_identity _ _ _) as [[]|e]; [|by left; exists e].
  simpl. destruct (validate_query_tuple _ _) as [r|e]; simpl; [|left; by eexists].
  destruct (try_each _ _) as [[]|e]; simpl; [|left; by eexists].
  destruct (check_env_new _ _ _ _ _ _) as [env|e] eqn:E; simpl; [|left; by eexists].
  apply check_env_new_ok in E as ->. right. by exists r.
Qed.

Lemma snapshot_decides input m budget meter limits w fuel stored out :
  snapshot_reads (root_env input m budget limits) w stored →
  evaluate_root_inner input m budget meter limits w fuel = Ok out →
  ∃ r, validate_query_tuple m input.(ri_tuple) = Ok r ∧
    Decides (root_env input m budget limits) stored
      (TSemantic (mkSemanticKey input.(ri_tuple).(tk_object) r input.(ri_tuple).(tk_subject)) [])
      (mkDecision out.(co_allowed) out.(co_resolution)).
Proof.
  intros Hsnap (r & s & Hr & Hd & _)%evaluate_root_inner_ok. exists r. split; [done|].
  exact (drive_decides _ _ stored _ _ _ _ _ Hsnap Hd).
Qed.

End root.

(** C2: whatever the interleaving of reads, the budget, the shared meter, the
    cancellation signal and the clock, an answer of a check root is the answer
    the check semantics gives to the question over the snapshot its reads
    return, with the same resolution. *)
Theorem check_refines_semantics `{ConditionEngineLaws} input m budget meter limits w fuel stored out :
  snapshot_reads (root_env input m budget limits) w stored →
  evaluate_root_inner input m budget meter limits w fuel = Ok out →
  ∃ r, validate_query_tuple m input.(ri_tuple) = Ok r ∧
    Decides (root_env input m budget limits) stored
      (TSemantic (mkSemanticKey input.(ri_tuple).(tk_object) r input.(ri_tuple).(tk_subject)) [])
      (mkDecision out.(co_allowed) out.(co_resolution)).
Proof. apply snapshot_decides. Qed.

Lemma stored_in_world db input budget limits :
  snapshot_reads (root_env input model budget limits) (world db) (stored_in db).
Proof.
  intros t f stream rows [= <-] Hrows _ _ x. rewrite from_tuples_items in Hrows.
  by apply (inj (fmap Ok)) in Hrows as <-.
Qed.

Lemma check_refines_semantics_witness :
  ∃ r, validate_query_tuple model (mkTupleKey doc1 viewer (SubjObject bob)) = Ok r ∧
    Decides (root_env (input doc1 viewer (SubjObject bob)) model default_check_budget default_input_limits)
      (stored_in database) (TSemantic (mkSemanticKey doc1 r (SubjObject bob)) [])
      (mkDecision true RIntersection).
Proof.
  exact (check_refines_semantics (input doc1 viewer (SubjObject bob)) model default_check_budget None
           default_input_limits (world database) 100 (stored_in database)
           (mkCheckOutcome true RIntersection (mkCounters 8 3 4 0 0 1))
           (stored_in_world database _ _ _) ltac:(vm_compute; reflexivity)).
Defined.

(** Two roots that ask the same question of the same snapshot never
    contradict each other: deadlines, consistency, budgets, meters, timing and
    interleavings change whether there is an answer, not the answer. *)
Theorem check_answers_agree `{ConditionEngineLaws} input input' m budget budget' meter meter'
    limits limits' w w' fuel fuel' stored out out' :
  input.(ri_tuple) = input'.(ri_tuple) → input.(ri_contextual) = input'.(ri_contextual) →
  input.(ri_condition_context) = input'.(ri_condition_context) →
  snapshot_reads (root_env input m budget limits) w stored →
  snapshot_reads (root_env input' m budget' limits') w' stored →
  evaluate_root_inner input m budget meter limits w fuel = Ok out →
  evaluate_root_inner input' m budget' meter' limits' w' fuel' = Ok out' →
  out.(co_allowed) = out'.(co_allowed) ∧ out.(co_resolution) = out'.(co_resolution).
Proof.
  intros Ht Hc Hx Hs Hs' E E'.
  destruct (snapshot_decides _ _ _ _ _ _ _ _ _ Hs E) as (r & Hr & Hd).
  destruct (snapshot_decides _ _ _ _ _ _ _ _ _ Hs' E') as (r' & Hr' & Hd').
  rewrite Ht in *. rewrite Hr in Hr'. simplify_eq.
  apply (Decides_env _ (root_env input' m budget' limits')) in Hd; [|done..].
  pose proof (Decides_unique _ _ _ _ _ Hd Hd'). by simplify_eq.
Qed.

Lemma check_answers_agree_witness : true = true ∧ RUnion = RUnion.
Proof.
  exact (check_answers_agree (input doc1 editor (SubjObject anne)) (input doc1 editor (SubjObject anne))
    model default_check_budget default_check_budget None (Some (work_meter_new 100 100 100))
    default_input_limits default_input_limits (world database) (world database) 100 200
    (stored_in database)
    (mkCheckOutcome true RUnion (mkCounters 6 3 2 0 0 1))
    (mkCheckOutcome true RUnion (mkCounters 6 3 2 0 0 1))
    eq_refl eq_refl eq_refl (stored_in_world database _ _ _) (stored_in_world database _ _ _)
    ltac:(vm_compute; reflexivity) ltac:(vm_compute; reflexivity)).
Defined.

Lemma root_ends `{ConditionEngineLaws} input m budget meter limits w fuel :
  check_budget_ok budget → (∀ x, meter = Some x → meter_ok x) →
  3 * N.to_nat budget.(maximum_dispatches) + 1 ≤ fuel →
  evaluate_root_inner input m budget meter limits w fuel ≠ Err OutOfFuel ∧
  evaluate_root_inner input m budget meter limits w fuel =
  evaluate_root_inner input m budget meter limits w (3 * N.to_nat budget.(maximum_dispatches) + 1).
Proof.
  intros Hb Hm Hfuel. assert (Hrd : (0 < budget.(maximum_concurrent_reads))%N)
    by (destruct Hb as (_ & _ & _ & _ & _ & [? _] & _); lia).
  destruct (evaluate_root_inner_drive input m budget meter limits w) as [[e He]|(r & _ & Hr)].
  { by rewrite !He. }
  rewrite !Hr. set (f0 := 3 * _ + 1) in *. unfold run.
  destruct (drive _ w f0 _ _) as [s0 d0] eqn:E0.
  destruct (drive_bounds (root_env input m budget limits) w Hrd _ _ _ _ _ Hm E0) as [_ Hne].
  assert (d0 ≠ Err OutOfFuel) by (apply Hne; simpl; lia).
  rewrite (drive_more _ _ f0 fuel _ _ _ _ Hfuel E0) by done. split; [|done].
  destruct d0; [done|]. simpl. congruence.
Qed.

(** C18: a check root ends within [3 * maximum_dispatches + 1] rounds of its
    loop in every world; more fuel than that changes nothing, so the result of
    the model is the result of the unbounded loop of the source. *)
Theorem check_terminates `{ConditionEngineLaws} input m budget meter limits w fuel :
  check_budget_ok budget → (∀ x, meter = Some x → meter_ok x) →
  3 * N.to_nat budget.(maximum_dispatches) + 1 ≤ fuel →
  evaluate_root_inner input m budget meter limits w fuel ≠ Err OutOfFuel ∧
  evaluate_root_inner input m budget meter limits w fuel =
  evaluate_root_inner input m budget meter limits w (3 * N.to_nat budget.(maximum_dispatches) + 1).
Proof. apply root_ends. Qed.

Lemma check_terminates_witness :
  let run_with := evaluate_root_inner (input doc1 editor (SubjObject anne)) model small_budget None
                    default_input_limits (world database) in
  run_with 50 ≠ Err OutOfFuel ∧ run_with 50 = run_with 10.
Proof.
  exact (check_terminates (input doc1 editor (SubjObject anne)) model small_budget None
           default_input_limits (world database) 50
           ltac:(unfold check_budget_ok, limit_in; simpl; lia) ltac:(by intros ? [=])
           ltac:(simpl; lia)).
Defined.

(** C19: after any number of rounds of a root, in every world, it has created at
    most [maximum_dispatches] work items, each linked to an earlier one, has at
    most [maximum_concurrent_reads] reads in flight, has spent at most
    [maximum_condition_cost] on conditions, and no counter of the shared meter
    passes its maximum. *)
Theorem check_stays_within_budget `{ConditionEngineLaws} env w fuel root meter s r :
  check_budget_ok env.(env_budget) → (∀ x, meter = Some x → meter_ok x) →
  drive env w fuel root (scheduler_new meter) = (s, r) →
  (N.of_nat (length s.(slots)) <= env.(env_budget).(maximum_dispatches))%N ∧
  (∀ i slot pl, s.(slots) !! i = Some slot → slot.(ws_parent) = Some pl → pl.(pl_work) < i) ∧
  (len s.(reads) <= env.(env_budget).(maximum_concurrent_reads))%N ∧
  (s.(counters).(condition_cost) <= env.(env_budget).(maximum_condition_cost))%N ∧
  (∀ x, s.(work_meter) = Some x → meter_ok x).
Proof.
  intros (_ & _ & _ & _ & _ & [? _] & _) Hm E.
  destruct (drive_bounds env w ltac:(lia) _ _ _ _ _ Hm E) as [[] _]. split_and!; [lia|done..].
Qed.

Lemma check_stays_within_budget_witness :
  let s := fst (drive (root_env (input doc1 viewer (SubjObject bob)) model default_check_budget
                         default_input_limits) (world database) 3
                  (root_work (mkTupleKey doc1 viewer (SubjObject bob)) 2) (scheduler_new None)) in
  (N.of_nat (length s.(slots)) <= 10000)%N ∧ length s.(reads) = 0.
Proof.
  intros s. split; [|reflexivity].
  exact (proj1 (check_stays_within_budget
    (root_env (input doc1 viewer (SubjObject bob)) model default_check_budget default_input_limits)
    (world database) 3 (root_work (mkTupleKey doc1 viewer (SubjObject bob)) 2) None s _
    default_check_budget_ok ltac:(by intros ? [=])
    ltac:(apply surjective_pairing))).
Defined.


(** The dispatch counter of the metadata of an answered check can exceed the
    budget: the refused attempt to schedule an operand is counted, and the
    answer then comes from another operand. *)
Theorem metadata_counts_refused_dispatches :
  let db := tuple doc1 editor (SubjObject anne) :: database in
  (small_budget.(maximum_dispatches) = 3)%N ∧
  (fun out => (out.(co_allowed), out.(co_metadata).(dispatches))) <$>
    evaluate_root_inner (input doc1 editor (SubjObject anne)) model small_budget None
      default_input_limits (world db) 10 = Ok (true, 4%N).
Proof. split; vm_compute; reflexivity. Qed.

(** C3: in a model without exclusion, a check answers allowed exactly when the
    subject is a member of the relation in the least-fixpoint sense over the
    stored and contextual tuples: cutting cycles and pruning by the
    reachability metadata neither add nor lose an answer. *)
Theorem check_decides_membership `{ConditionEngineLaws} input m budget meter limits w fuel stored out
    `{!GraphLaws m} :
  positive_model m = true → snapshot_reads (root_env input m budget limits) w stored →
  evaluate_root_inner input m budget meter limits w fuel = Ok out →
  ∃ r, validate_query_tuple m input.(ri_tuple) = Ok r ∧
    (out.(co_allowed) = true ↔
     ∃ h, Membership.member (root_env input m budget limits) stored h
            (TgRelation (mkSemanticKey input.(ri_tuple).(tk_object) r input.(ri_tuple).(tk_subject)))).
Proof.
  intros Hpos Hsnap E. destruct (snapshot_decides _ _ _ _ _ _ _ _ _ Hsnap E) as (r & Hr & Hd).
  exists r. split; [done|]. exact (decides_member (root_env input m budget limits) stored Hpos _ _ Hd).
Qed.

Lemma fixture_graph_laws : GraphLaws model.
Proof.
  apply (built_graph_laws model default_model_limits (collector_new (Detail := unit) 1)
           (collector_new 1)).
  - intros i rel Hi. do 6 (destruct i as [|i]; [by simplify_eq/=|]). done.
  - vm_compute. reflexivity.
Qed.

Lemma check_decides_membership_witness :
  ∃ r, validate_query_tuple model (mkTupleKey doc1 viewer (SubjObject bob)) = Ok r ∧
    (true = true ↔
     ∃ h, Membership.member (root_env (input doc1 viewer (SubjObject bob)) model default_check_budget
                    default_input_limits) (stored_in database) h
            (TgRelation (mkSemanticKey doc1 r (SubjObject bob)))).
Proof.
  exact (@check_decides_membership _ _ (input doc1 viewer (SubjObject bob)) model default_check_budget None
           default_input_limits (world database) 100 (stored_in database)
           (mkCheckOutcome true RIntersection (mkCounters 8 3 4 0 0 1)) fixture_graph_laws
           ltac:(vm_compute; reflexivity)
           (stored_in_world database _ _ _) ltac:(vm_compute; reflexivity)).
Defined.
