(* ===== verification/ModelTyping.v ===== *)
(** * Well-typed models

    What the query engines rely on in a compiled model: identifiers index what
    they stand for, lookups by name invert lookups by identifier, and the
    rewrite of a relation speaks about relations of its own object type.  The
    compiler establishes it for every model it returns. *)

From S2P Require Import Prelude Ordered Identifier Reference Condition Model GraphTheory.

Section typed.
Context `{ConditionEngine}.

Definition restriction_in_range (m : CompiledModel) (d : DirectRestriction) : Prop :=
  d.(dr_subject_type) < length m.(model_types) ∧
  (∀ r, d.(dr_kind) = RKUserset r → r < length m.(model_relations)) ∧
  (∀ c, d.(dr_condition) = Required c → c < length m.(model_conditions)).

Definition node_relations (n : RewriteNode) : list RelationId :=
  match n with
  | NDirect r | NComputed r => [r]
  | NTupleToUserset tupleset _ targets => tupleset :: targets
  | _ => []
  end.

(** The relations a node reads on the object it is evaluated for. *)
Definition local_relations (n : RewriteNode) : list RelationId :=
  match n with
  | NDirect r | NComputed r => [r]
  | NTupleToUserset tupleset _ _ => [tupleset]
  | _ => []
  end.

(** Every identifier of a model indexes what it stands for. *)
Class TypedModel (m : CompiledModel) : Prop := {
  typed_types : ∀ i ct, m.(model_types) !! i = Some ct → ct.(ct_id) = i ∧
    ∀ r, r ∈ ct.(ct_relations) ↔ ∃ rel, m.(model_relations) !! r = Some rel ∧ rel.(cr_object_type) = i;
  typed_relations : ∀ i rel, m.(model_relations) !! i = Some rel →
    rel.(cr_id) = i ∧ rel.(cr_object_type) < length m.(model_types) ∧ rel.(cr_root) < length m.(model_nodes) ∧
    ∀ d, d ∈ rel.(cr_restrictions) → restriction_in_range m d;
  typed_nodes : ∀ i n, m.(model_nodes) !! i = Some n →
    (∀ c, c ∈ node_children n → c < i) ∧ (∀ r, r ∈ node_relations n → r < length m.(model_relations)) ∧
    n ≠ NIntersection [];
  typed_rewrites : ∀ i rel n nd r, m.(model_relations) !! i = Some rel →
    in_rewrite m.(model_nodes) rel.(cr_root) n → m.(model_nodes) !! n = Some nd → r ∈ local_relations nd →
    ∃ rel', m.(model_relations) !! r = Some rel' ∧ rel'.(cr_object_type) = rel.(cr_object_type);
  typed_tuplesets : ∀ n ts c targets, m.(model_nodes) !! n = Some (NTupleToUserset ts c targets) →
    (∀ target, target ∈ targets → ∃ ty, relation_id m ty c = Ok target) ∧
    ∃ rel, m.(model_relations) !! ts = Some rel ∧
    ∀ d, d ∈ rel.(cr_restrictions) → d.(dr_kind) = RKObject ∧
      ∃ ty target, type_name m d.(dr_subject_type) = Ok ty ∧ relation_id m ty c = Ok target ∧ target ∈ targets;
  typed_type_lookup : ∀ name i, type_id m name = Ok i ↔ type_name m i = Ok name;
  typed_relation_lookup : ∀ ty name r, relation_id m ty name = Ok r ↔
    ∃ rel, relation m r = Ok rel ∧ rel.(cr_name) = name ∧ type_name m rel.(cr_object_type) = Ok ty;
  typed_condition_lookup : ∀ name i, condition_id m name = Ok i ↔
    ∃ c, condition m i = Ok c ∧ condition_name c = name;
}.
End typed.
