(* ===== verification/SourceSemantics.v ===== *)
(** * What declarations mean, and that compilation preserves it

    Membership read off the declarations of a model by name: no identifiers, no
    shared nodes, no graph.  A compiled model has the same members, so a check
    over it answers for the declarations. *)

From S2P Require Import Prelude Ordered Identifier Reference Condition Storage Model ModelErrors Graph.
From S2P Require Import GraphTheory ModelSource Compiler DeclarationTheory SymbolTheory LoweringTheory.
From S2P Require Import EntrypointTheory CompilerTheory TupleValidation Budget Reducer Scheduler CheckSpec.
From S2P Require Import Membership Restrictions.

Section declared.
Context `{ConditionCompiler}.
Variable source : AuthorizationModelSource.
Variable climits : ConditionLimits.
Variable rows : ObjectRef → RelationName → list RelationshipTuple.
Variable request : ConditionContext.

(** ** Declarations by name *)

Definition declares (ty : TypeName) (r : RelationName) (rs : RelationSource) : Prop :=
  ∃ td, td ∈ source.(ams_type_definitions) ∧ td.(td_name) = ty ∧ rs ∈ td.(td_relations) ∧ rs.(rs_name) = r.

(** The condition of a tuple is declared, compiles and holds. *)
Definition condition_true (t : RelationshipTuple) : Prop :=
  match t.(rt_condition) with
  | Unconditional => True
  | Conditional binding =>
      ∃ c k, c ∈ source.(ams_conditions) ∧ c.(cs_key) = binding.(cb_name) ∧
        compile_condition c.(cs_definition) climits = Ok k ∧
        condition_value k request binding.(cb_context) = Some true
  end.

(** A restriction allows a tuple: same subject type, kind and condition. *)
Definition allows (d : DirectRestrictionSource) (t : RelationshipTuple) : Prop :=
  d.(drs_subject_type) = subject_type t.(rt_key).(tk_subject) ∧
  match d.(drs_kind), t.(rt_key).(tk_subject) with
  | RSObject, SubjObject _ | RSWildcard, SubjWildcard _ => True
  | RSUserset r, SubjUserset u => r = u.(us_relation)
  | _, _ => False
  end ∧
  match d.(drs_condition), t.(rt_condition) with
  | None, Unconditional => True
  | Some name, Conditional binding => name = binding.(cb_name)
  | _, _ => False
  end.

Definition permits (rs : RelationSource) (t : RelationshipTuple) : Prop :=
  ∃ d, d ∈ rs.(rs_restrictions) ∧ allows d t.

(** A tuple of a relation that its declaration allows and whose condition holds. *)
Definition grants (o : ObjectRef) (rs : RelationSource) (t : RelationshipTuple) : Prop :=
  t ∈ rows o rs.(rs_name) ∧ permits rs t ∧ condition_true t.

Inductive Statement :=
| HasRelation (o : ObjectRef) (r : RelationName) (s : SubjectRef)
| Satisfies (o : ObjectRef) (rs : RelationSource) (rewrite : RewriteSource) (s : SubjectRef).

(** Membership, by the rules of the rewrite operators without exclusion. *)
Inductive declared : Statement → Prop :=
| declared_relation o r s rs :
    declares o.(object_type) r rs → declared (Satisfies o rs rs.(rs_rewrite) s) → declared (HasRelation o r s)
| declared_subject o rs t s :
    grants o rs t → t.(rt_key).(tk_subject) = s → declared (Satisfies o rs SDirect s)
| declared_wildcard o rs t o' :
    grants o rs t → t.(rt_key).(tk_subject) = SubjWildcard o'.(object_type) →
    declared (Satisfies o rs SDirect (SubjObject o'))
| declared_userset o rs t u s :
    grants o rs t → t.(rt_key).(tk_subject) = SubjUserset u →
    declared (HasRelation u.(us_object) u.(us_relation) s) → declared (Satisfies o rs SDirect s)
| declared_computed o rs r s :
    declared (HasRelation o r s) → declared (Satisfies o rs (SComputed r) s)
| declared_ttu o rs tupleset computed trs t o' s :
    declares o.(object_type) tupleset trs → grants o trs t → t.(rt_key).(tk_subject) = SubjObject o' →
    declared (HasRelation o' computed s) → declared (Satisfies o rs (STupleToUserset tupleset computed) s)
| declared_union o rs cs x s :
    x ∈ cs → declared (Satisfies o rs x s) → declared (Satisfies o rs (SUnion cs) s)
| declared_intersection o rs cs s :
    (∀ x, x ∈ cs → declared (Satisfies o rs x s)) → declared (Satisfies o rs (SIntersection cs) s).

End declared.

(** Rewrites without exclusion. *)
Fixpoint positive_rewrite (s : RewriteSource) : bool :=
  match s with
  | SUnion cs | SIntersection cs => forallb positive_rewrite cs
  | SDifference _ _ => false
  | _ => true
  end.

Definition positive_source (source : AuthorizationModelSource) : bool :=
  forallb (fun td => forallb (fun rs => positive_rewrite rs.(rs_rewrite)) td.(td_relations))
    source.(ams_type_definitions).

(** ** Compiled names *)

Section preserved.
Context `{ConditionCompilerLaws}.
Variable limits : ModelLimits.
Variable climits : ConditionLimits.
Variable source : AuthorizationModelSource.
Variable origins : list RelationOrigin.
Variable env : CheckEnv.
Variable stored : ObjectRef → RelationName → list RelationshipTuple.
Abbreviation m := env.(env_model).
Hypothesis Hm : compiled limits climits source m origins.

Abbreviation tds := source.(ams_type_definitions).
Abbreviation sy := (symbols_of m origins).
Abbreviation ctx o := (mkLowerContext o sy (cr_restrictions <$> m.(model_relations))).

Lemma type_id_declared name i : type_id m name = Ok i ↔ ∃ td, tds !! i = Some td ∧ td.(td_name) = name.
Proof.
  destruct (symbols_origins _ _ (compiled_symbols _ _ _ _ _ Hm)) as [Ht _ _ _ _].
  unfold type_id. rewrite ok_or_ok, (Ht name i), list_lookup_fmap, fmap_Some. naive_solver.
Qed.

Lemma type_name_declared i name : type_name m i = Ok name ↔ ∃ td, tds !! i = Some td ∧ td.(td_name) = name.
Proof.
  destruct (symbols_types _ _ (compiled_symbols _ _ _ _ _ Hm)) as [Ht _]. cbn [symbols_of sy_types] in Ht.
  unfold type_name. rewrite ok_or_ok, fmap_Some. split.
  - intros (ct & Hct & ->). destruct (Forall2_lookup_r _ _ _ _ _ Ht Hct) as (td & ? & ->). eauto.
  - intros (td & Htd & <-). destruct (Forall2_lookup_l _ _ _ _ _ Ht Htd) as (ct & ? & ?). eauto.
Qed.

(** The declaration behind an origin, and the compiled relation. *)
Record origin_of (rid : RelationId) (o : RelationOrigin) (td : TypeDefinitionSource) (rel : CompiledRelation) : Prop := {
  oo_origin : origins !! rid = Some o;
  oo_id : o.(or_id) = rid;
  oo_type : tds !! o.(or_object_type) = Some td;
  oo_declared : td.(td_relations) !! o.(or_relation_index) = Some o.(or_source);
  oo_relation : relation m rid = Ok rel;
  oo_name : rel.(cr_name) = o.(or_source).(rs_name);
  oo_object_type : rel.(cr_object_type) = o.(or_object_type);
  oo_lowered : lowered (ctx o) m.(model_nodes) o.(or_source).(rs_rewrite) rel.(cr_root);
  oo_restrictions : ∀ d', d' ∈ rel.(cr_restrictions) ↔
    ∃ d, d ∈ o.(or_source).(rs_restrictions) ∧ resolves sy m.(condition_lookup) d d';
}.

Lemma origin_facts rid o : origins !! rid = Some o → ∃ td rel, origin_of rid o td rel.
Proof.
  intros Ho. destruct (symbols_origins _ _ (compiled_symbols _ _ _ _ _ Hm)) as [_ Hok _ _ _].
  destruct (Hok rid o Ho) as [Hid _ (td & Htd & Hr)].
  destruct (compiled_restrictions _ _ _ _ _ Hm rid o Ho) as (rel & Hrel & Hrestr).
  pose proof (lowered_relations _ _ _ _ _ (compiled_relations _ _ _ _ _ Hm)) as Hlow.
  destruct (Forall2_lookup_l _ _ _ _ _ Hlow Ho) as (rel' & Hrel' & [_ Hty Hname _ Hroot _]). simplify_eq.
  exists td, rel. constructor; try done. unfold relation. by rewrite Hrel.
Qed.

Lemma relation_id_declared ty r rid :
  relation_id m ty r = Ok rid ↔
  ∃ o td rel, origin_of rid o td rel ∧ td.(td_name) = ty ∧ o.(or_source).(rs_name) = r.
Proof.
  destruct (symbols_origins _ _ (compiled_symbols _ _ _ _ _ Hm)) as [_ _ _ Hl _].
  unfold relation_id. rewrite ok_or_ok. change (relation_lookup m) with (sy_relation_lookup sy).
  rewrite (Hl (ty, r) rid), list_lookup_fmap, fmap_Some. cbn [symbols_of sy_relation_origins]. split.
  - intros (o & Ho & Hk). destruct (origin_facts rid o Ho) as (td & rel & Hoo).
    exists o, td, rel. split; [done|]. unfold origin_key in Hk. rewrite (oo_type _ _ _ _ Hoo) in Hk. by simplify_eq/=.
  - intros (o & td & rel & Hoo & <- & <-). exists o. split; [by destruct Hoo|].
    unfold origin_key. by rewrite (oo_type _ _ _ _ Hoo).
Qed.

(** A declared relation has an identifier. *)
Lemma declares_origin ty r rs : declares source ty r rs →
  ∃ rid o td rel, origin_of rid o td rel ∧ td.(td_name) = ty ∧ o.(or_source) = rs ∧ rs.(rs_name) = r.
Proof.
  intros (td & [i Hi]%list_elem_of_lookup & Hty & [ri Hri]%list_elem_of_lookup & Hr).
  destruct (symbols_origins _ _ (compiled_symbols _ _ _ _ _ Hm)) as [_ _ Hc _ _].
  destruct (Hc i td ri rs Hi Hri) as (rid & o & Ho & Hot & Hoi & Hos).
  destruct (origin_facts rid o Ho) as (td' & rel & Hoo). exists rid, o, td', rel.
  pose proof (oo_type _ _ _ _ Hoo) as Htd. rewrite Hot in Htd. by simplify_eq.
Qed.

Lemma origin_declares rid o td rel : origin_of rid o td rel → declares source td.(td_name) o.(or_source).(rs_name) o.(or_source).
Proof.
  intros Hoo. exists td. split_and!; [by eapply list_elem_of_lookup_2, (oo_type _ _ _ _ Hoo)|done| |done].
  by eapply list_elem_of_lookup_2, (oo_declared _ _ _ _ Hoo).
Qed.

(** Names determine the declaration. *)
Lemma origin_unique rid o td rel rid' o' td' rel' :
  origin_of rid o td rel → origin_of rid' o' td' rel' → td.(td_name) = td'.(td_name) →
  o.(or_source).(rs_name) = o'.(or_source).(rs_name) → rid = rid'.
Proof.
  intros Ho Ho' Hty Hr. cut (Ok rid = (Ok rid' : result ModelLookupError _)); [by intros [= ->]|].
  transitivity (relation_id m td.(td_name) o.(or_source).(rs_name)).
  - symmetry. apply relation_id_declared. eauto 6.
  - apply relation_id_declared. exists o', td', rel'. done.
Qed.

(** ** Conditions *)

Lemma condition_id_declared name i :
  condition_id m name = Ok i ↔ ∃ c, source.(ams_conditions) !! i = Some c ∧ c.(cs_key) = name.
Proof.
  unfold condition_id. rewrite ok_or_ok, (compiled_condition_lookup _ _ _ _ _ Hm name i), list_lookup_fmap, fmap_Some.
  naive_solver.
Qed.

Lemma condition_declared i k :
  condition m i = Ok k ↔ ∃ c, source.(ams_conditions) !! i = Some c ∧ compile_condition c.(cs_definition) climits = Ok k.
Proof.
  pose proof (compiled_conditions _ _ _ _ _ Hm) as Hc. unfold condition. rewrite ok_or_ok, fmap_Some. split.
  - intros (e & He & ->). destruct (Forall2_lookup_r _ _ _ _ _ Hc He) as (c & ? & _ & ?). eauto.
  - intros (c & Hci & Hk). destruct (Forall2_lookup_l _ _ _ _ _ Hc Hci) as (e & He & _ & Hk').
    exists e. split; [done|]. congruence.
Qed.

Lemma condition_name_declared i c k :
  source.(ams_conditions) !! i = Some c → condition m i = Ok k → condition_name k = c.(cs_key).
Proof.
  intros Hc (c' & Hc' & Hk)%condition_declared. simplify_eq. rewrite (compile_condition_name _ _ _ Hk).
  destruct (declared_conditions_ok _ _ (compiled_declarations _ _ _ _ _ Hm) c) as [Hkey _]; [|done].
  by eapply list_elem_of_lookup_2.
Qed.

Lemma condition_key_unique i j c c' :
  source.(ams_conditions) !! i = Some c → source.(ams_conditions) !! j = Some c' → c.(cs_key) = c'.(cs_key) → i = j.
Proof.
  intros Hi Hj Heq. eapply NoDup_lookup; [exact (declared_conditions_unique _ _ (compiled_declarations _ _ _ _ _ Hm))|..].
  - by rewrite list_lookup_fmap, Hi.
  - by rewrite list_lookup_fmap, Hj; simpl; rewrite Heq.
Qed.

Lemma condition_holds_declared t :
  condition_holds env t = Some true ↔ condition_true source climits env.(env_condition_context) t.
Proof.
  unfold condition_holds, condition_true. destruct (rt_condition t) as [|binding]; [done|]. split.
  - destruct (condition_id m (cb_name binding)) as [i|] eqn:Ei; [|done].
    apply condition_id_declared in Ei as (c & Hc & Hkey).
    destruct (condition m i) as [k|] eqn:Ek; [|done]. apply condition_declared in Ek as (c' & Hc' & Hk). simplify_eq.
    intros Hv. exists c, k. split_and!; [by eapply list_elem_of_lookup_2|done..].
  - intros (c & k & [i Hi]%list_elem_of_lookup & Hkey & Hk & Hv).
    rewrite (proj2 (condition_id_declared (cb_name binding) i)) by eauto.
    by rewrite (proj2 (condition_declared i k)) by eauto.
Qed.

(** ** Restrictions *)

Lemma requirement_declared d d' c : resolves sy m.(condition_lookup) d d' →
  ∃ b, condition_requirement_matches env d'.(dr_condition) c = Ok b ∧
    (b = true ↔ match d.(drs_condition), c with
                | None, Unconditional => True
                | Some name, Conditional binding => name = binding.(cb_name)
                | _, _ => False
                end).
Proof.
  intros (_ & _ & Hc). destruct (drs_condition d) as [name|].
  - destruct Hc as (id & Hid & ->). destruct c as [|binding]; simpl; [by exists false|].
    assert (Hid' : condition_id m name = Ok id) by (unfold condition_id; by rewrite Hid).
    apply condition_id_declared in Hid' as (c & Hc & Hkey).
    pose proof (compiled_conditions _ _ _ _ _ Hm) as Hcs.
    destruct (Forall2_lookup_l _ _ _ _ _ Hcs Hc) as (e & _ & _ & Hk).
    assert (Hk' : condition m id = Ok (ce_condition e)) by (apply condition_declared; eauto).
    rewrite Hk'. simpl. rewrite (condition_name_declared id c _ Hc Hk'), Hkey. eexists. split; [done|].
    by rewrite bool_decide_eq_true.
  - rewrite Hc. destruct c; simpl; [by exists true|by exists false].
Qed.

Lemma type_id_inj name name' i : type_id m name = Ok i → type_id m name' = Ok i → name = name'.
Proof. rewrite !type_id_declared. intros (td & Hi & <-) (td' & Hi' & <-). by simplify_eq. Qed.

Lemma relation_id_inj ty r ty' r' rid : relation_id m ty r = Ok rid → relation_id m ty' r' = Ok rid → ty = ty' ∧ r = r'.
Proof.
  rewrite !relation_id_declared. intros (o & td & rel & Ho & <- & <-) (o' & td' & rel' & Ho' & <- & <-).
  pose proof (oo_origin _ _ _ _ Ho) as E. rewrite (oo_origin _ _ _ _ Ho') in E. simplify_eq.
  pose proof (oo_type _ _ _ _ Ho) as E. rewrite (oo_type _ _ _ _ Ho') in E. by simplify_eq.
Qed.

(** A resolved restriction matches a tuple exactly when its declaration allows it. *)
Lemma resolved_matches d d' t class ty :
  resolves sy m.(condition_lookup) d d' → subject_class env t class →
  type_id m (subject_type t.(rt_key).(tk_subject)) = Ok ty →
  (d'.(dr_subject_type) = ty ∧ restriction_kind_matches d'.(dr_kind) class = true ∧
   requirement_met env d' t.(rt_condition)) ↔ allows d t.
Proof.
  intros Hres Hclass Hty. destruct (requirement_declared d d' (rt_condition t) Hres) as (b & Hb & Hbt).
  destruct Hres as (Hdt & Hkind & _). unfold requirement_met, allows. rewrite Hb.
  assert (Hdt' : type_id m (drs_subject_type d) = Ok (dr_subject_type d'))
    by (unfold type_id; change (type_lookup m) with (sy_type_lookup sy); by rewrite Hdt).
  assert (Hteq : dr_subject_type d' = ty ↔ drs_subject_type d = subject_type t.(rt_key).(tk_subject)).
  { split; [intros <-; by eapply type_id_inj|]. intros Heq. rewrite Heq in Hdt'. congruence. }
  assert (Hbeq : (Ok b : result CheckError bool) = Ok true ↔ b = true) by naive_solver.
  assert (Hkeq : drs_subject_type d = subject_type t.(rt_key).(tk_subject) →
    restriction_kind_matches d'.(dr_kind) class = true ↔
    match d.(drs_kind), t.(rt_key).(tk_subject) with
    | RSObject, SubjObject _ | RSWildcard, SubjWildcard _ => True
    | RSUserset r, SubjUserset u => r = u.(us_relation)
    | _, _ => False
    end).
  { intros Heq. unfold subject_class in Hclass. destruct (drs_kind d) as [|r|].
    - rewrite Hkind. destruct (tk_subject (rt_key t)), class; simpl; tauto || done.
    - destruct Hkind as (id & Hid & ->).
      destruct (tk_subject (rt_key t)) as [|u|], class as [|r'|]; simpl in *; try tauto; try done.
      rewrite bool_decide_eq_true. rewrite Heq in Hid.
      assert (Hid' : relation_id m (object_type (us_object u)) r = Ok id)
        by (unfold relation_id; by rewrite Hid).
      split; [intros ->; by eapply relation_id_inj|]. intros ->. congruence.
    - rewrite Hkind. destruct (tk_subject (rt_key t)), class; simpl; tauto || done. }
  tauto.
Qed.

Lemma matching_declared rid o td rel t class : origin_of rid o td rel →
  matching_restriction env t rel.(cr_restrictions) = Ok (Some class) ↔
  subject_class env t class ∧ permits o.(or_source) t.
Proof.
  intros Hoo. pose proof (oo_restrictions _ _ _ _ Hoo) as Hr.
  assert (Hreq : ∀ d', d' ∈ rel.(cr_restrictions) →
    ∃ b, condition_requirement_matches env d'.(dr_condition) t.(rt_condition) = Ok b).
  { intros d' (d & _ & Hd)%Hr. destruct (requirement_declared d d' t.(rt_condition) Hd) as (b & ? & _). eauto. }
  assert (Hall : ∀ d, d ∈ o.(or_source).(rs_restrictions) → ∃ d', resolves sy m.(condition_lookup) d d').
  { apply (compiled_resolved _ _ _ _ _ Hm). eapply list_elem_of_lookup_2, (oo_origin _ _ _ _ Hoo). }
  unfold matching_restriction. destruct (type_id m (subject_type _)) as [ty|] eqn:Ety.
  - assert (Hmatch : ∀ class', subject_class env t class' →
      first_matching env ty class' t.(rt_condition) rel.(cr_restrictions) = Ok (Some class) ↔
      class = class' ∧ permits o.(or_source) t).
    { intros class' Hc. rewrite first_matching_iff by done. apply and_iff_compat_l. split.
      - intros (d' & (d & Hd & Hres)%Hr & Hmt). exists d. split; [done|]. by eapply resolved_matches.
      - intros (d & Hd & Ha). destruct (Hall d Hd) as (d' & Hres). exists d'. split; [apply Hr; eauto|].
        by eapply resolved_matches. }
    unfold subject_class in *. destruct (tk_subject (rt_key t)) as [x|u|x] eqn:Es.
    + rewrite Hmatch by done. destruct class; naive_solver.
    + destruct (relation_id m _ _) as [r|] eqn:Er.
      * rewrite Hmatch by done. destruct class; naive_solver.
      * destruct class; naive_solver.
    + rewrite Hmatch by done. destruct class; naive_solver.
  - split; [done|]. intros (_ & d & Hd & Ha & _). destruct (Hall d Hd) as (d' & Hdt & _).
    exfalso. cut (type_id m (drs_subject_type d) = Ok (dr_subject_type d')); [congruence|].
    unfold type_id. change (type_lookup m) with (sy_type_lookup sy). by rewrite Hdt.
Qed.

(** ** Leaves *)

Lemma lookup_relation_id ty r rid : bt_get (ty, r) m.(relation_lookup) = Some rid ↔ relation_id m ty r = Ok rid.
Proof. unfold relation_id. by rewrite ok_or_ok. Qed.

Lemma context_type_declared rid o td rel : origin_of rid o td rel → context_type_name (ctx o) = Some td.(td_name).
Proof.
  intros Hoo. assert (Hn : type_name m o.(or_object_type) = Ok td.(td_name)).
  { apply type_name_declared. exists td. split; [|done]. apply (oo_type _ _ _ _ Hoo). }
  unfold type_name in Hn. by apply ok_or_ok in Hn.
Qed.

Lemma computed_declared rid o td rel r n : origin_of rid o td rel →
  resolve_leaf (SComputed r) (ctx o) = Ok n →
  ∃ target, n = NComputed target ∧ relation_id m td.(td_name) r = Ok target.
Proof.
  intros Hoo. cbn [resolve_leaf]. rewrite (context_type_declared _ _ _ _ Hoo). cbn [ok_or mbind result_bind].
  intros (target & Ht%ok_or_ok & Hn)%result_bind_ok. case_match; simplify_eq.
  exists target. split; [done|]. by apply lookup_relation_id.
Qed.

Lemma ttu_targets_ok computed rs targets : ttu_targets sy computed rs = Ok targets →
  (∀ r, r ∈ targets ↔ ∃ d name, d ∈ rs ∧ type_name m d.(dr_subject_type) = Ok name ∧
     relation_id m name computed = Ok r) ∧
  (∀ d name, d ∈ rs → type_name m d.(dr_subject_type) = Ok name →
     d.(dr_kind) = RKObject ∧ ∃ r, relation_id m name computed = Ok r).
Proof.
  setoid_rewrite <-lookup_relation_id. unfold type_name. setoid_rewrite ok_or_ok. setoid_rewrite fmap_Some.
  revert targets. induction rs as [|d rs IH]; intros targets; cbn [ttu_targets].
  - intros [= <-]. split; [set_solver|set_solver].
  - case_match eqn:Ek; [done|]. apply negb_false_iff, bool_decide_eq_true in Ek.
    cbn [symbols_of sy_types sy_relation_lookup]. destruct (model_types m !! dr_subject_type d) as [ct|] eqn:Et.
    + destruct (bt_get (ct_name ct, computed) (relation_lookup m)) as [target|] eqn:Eg; [|done].
      intros (rest & [IH1 IH2]%IH & [= <-])%result_bind_ok. split.
      * intros r. rewrite elem_of_cons, IH1. setoid_rewrite elem_of_cons. naive_solver.
      * setoid_rewrite elem_of_cons. naive_solver.
    + intros [IH1 IH2]%IH. split.
      * intros r. rewrite IH1. setoid_rewrite elem_of_cons. naive_solver.
      * setoid_rewrite elem_of_cons. naive_solver.
Qed.

Lemma ttu_declared rid o td rel tupleset computed n : origin_of rid o td rel →
  resolve_leaf (STupleToUserset tupleset computed) (ctx o) = Ok n →
  ∃ tid to trel targets, n = NTupleToUserset tid computed targets ∧ origin_of tid to td trel ∧
    to.(or_source).(rs_name) = tupleset ∧
    (∀ r, r ∈ targets ↔ ∃ d name, d ∈ trel.(cr_restrictions) ∧ type_name m d.(dr_subject_type) = Ok name ∧
       relation_id m name computed = Ok r) ∧
    (∀ d name, d ∈ trel.(cr_restrictions) → type_name m d.(dr_subject_type) = Ok name →
       d.(dr_kind) = RKObject ∧ ∃ r, relation_id m name computed = Ok r).
Proof.
  intros Hoo. cbn [resolve_leaf]. intros ([tid targets] & Ht & [= <-])%result_bind_ok.
  unfold resolve_ttu in Ht. rewrite (context_type_declared _ _ _ _ Hoo) in Ht. cbn [ok_or mbind result_bind] in Ht.
  apply result_bind_ok in Ht as (tid' & Htid%ok_or_ok & Ht).
  apply result_bind_ok in Ht as (to & Hto%ok_or_ok & Ht). cbn [lc_symbols lc_restrictions] in *.
  destruct (rs_rewrite (or_source to)) eqn:Ed; try done.
  apply result_bind_ok in Ht as (restrictions & Hr%ok_or_ok & Ht).
  apply result_bind_ok in Ht as (ts & Hts%map_err_ok & Ht).
  assert (tid' = tid ∧ targets = bs_collect ts) as [-> ->] by (destruct (bs_collect ts); by simplify_eq).
  apply lookup_relation_id, relation_id_declared in Htid as (to' & td' & trel & Hto' & Htd & Hname).
  assert (Heq : to' = to).
  { pose proof (oo_origin _ _ _ _ Hto') as E. cbn [symbols_of sy_relation_origins] in Hto. congruence. }
  subst to'. assert (td' = td) as ->.
  { pose proof (oo_type _ _ _ _ Hto') as E1. pose proof (oo_type _ _ _ _ Hoo) as E2.
    assert (Hnd := declared_types_unique _ _ (compiled_declarations _ _ _ _ _ Hm)).
    assert (Hi : or_object_type to = or_object_type o).
    { eapply NoDup_lookup; [exact Hnd|..]; rewrite list_lookup_fmap; [by rewrite E1|by rewrite E2, Htd]. }
    rewrite Hi in E1. congruence. }
  assert (Hre : restrictions = cr_restrictions trel).
  { rewrite list_lookup_fmap in Hr. pose proof (oo_relation _ _ _ _ Hto') as E. apply ok_or_ok in E.
    rewrite E in Hr. by simplify_eq/=. }
  subst restrictions. apply ttu_targets_ok in Hts as [Ht1 Ht2].
  exists tid, to, trel, (bs_collect ts). split_and!; [done..| |done]. intros r. by rewrite bs_collect_elem.
Qed.

(** ** Members are preserved *)

Abbreviation says := (declared source climits (rows_at env stored) env.(env_condition_context)).
Abbreviation granted := (grants source climits (rows_at env stored) env.(env_condition_context)).
Abbreviation is_member h x := (Membership.member env stored h x).

Lemma granted_compiled rid o td rel t x class : origin_of rid o td rel →
  (t ∈ rows_at env stored x rel.(cr_name) ∧ condition_holds env t = Some true ∧
   matching_restriction env t rel.(cr_restrictions) = Ok (Some class)) ↔
  granted x o.(or_source) t ∧ subject_class env t class.
Proof.
  intros Hoo. unfold grants. rewrite (oo_name _ _ _ _ Hoo), condition_holds_declared, matching_declared by done. tauto.
Qed.

Lemma permits_class rid o td rel t : origin_of rid o td rel → permits o.(or_source) t →
  ∃ class, subject_class env t class.
Proof.
  intros Hoo (d & Hd & Ha). unfold subject_class.
  destruct (tk_subject (rt_key t)) as [y|u|y] eqn:Es; [by exists DCObject| |by exists DCWildcard].
  destruct (compiled_resolved _ _ _ _ _ Hm o) with (d := d) as (d' & _ & Hk & _);
    [by eapply list_elem_of_lookup_2, (oo_origin _ _ _ _ Hoo)|done|].
  destruct Ha as (Ht & Hkind & _). rewrite Es in Ht, Hkind. destruct (drs_kind d) as [|r|]; try done. subst r.
  destruct Hk as (id & Hid & _). exists (DCUserset id). rewrite Ht in Hid. by apply lookup_relation_id.
Qed.

Lemma member_declared h :
  (∀ x s rid o td rel, origin_of rid o td rel → td.(td_name) = x.(object_type) →
     is_member h (TgRelation (mkSemanticKey x rid s)) → says (HasRelation x o.(or_source).(rs_name) s)) ∧
  (∀ x s rid o td rel rw n, origin_of rid o td rel → td.(td_name) = x.(object_type) →
     lowered (ctx o) m.(model_nodes) rw n → is_member h (TgNode x n s) → says (Satisfies x o.(or_source) rw s)).
Proof.
  induction h as [|h [IHr IHn]]; [done|]. split.
  - intros x s rid o td rel Hoo Hty (rel' & Hrel & Hmem). cbn [sk_relation sk_object sk_subject] in *.
    rewrite (oo_relation _ _ _ _ Hoo) in Hrel. simplify_eq. eapply declared_relation.
    + rewrite <-Hty. by eapply origin_declares.
    + eapply IHn; [done..| |done]. apply (oo_lowered _ _ _ _ Hoo).
  - intros x s rid o td rel rw n Hoo Hty Hl. cbn [Membership.member member_step]. unfold node.
    inversion Hl as [? nd ? Hleaf Hres Hn|cs ids ? Hn Hcs|cs ids ? Hn Hcs|b sb bid sid ? Hn ? ?]; subst; rewrite Hn; simpl.
    + destruct rw; try done.
      * cbn [resolve_leaf] in Hres. simplify_eq/=. rewrite (oo_id _ _ _ _ Hoo).
        intros (rel' & t & Hrel & Ht & Hc & Hmt). rewrite (oo_relation _ _ _ _ Hoo) in Hrel. simplify_eq.
        destruct (matching_restriction env t (cr_restrictions rel')) as [[class|]|] eqn:Em; try done.
        assert (granted x (or_source o) t ∧ subject_class env t class) as [Hg Hclass] by (by eapply granted_compiled).
        unfold subject_class in Hclass. destruct class as [|r'|].
        -- by eapply declared_subject.
        -- destruct Hmt as (u & Hu & Hmt). rewrite Hu in Hclass. destruct Hmt as [<-|Hmt]; [by eapply declared_subject|].
           apply relation_id_declared in Hclass as (o' & td' & rel'' & Hoo' & Htd' & Hname).
           eapply declared_userset; [done..|]. rewrite <-Hname. by eapply IHr.
        -- destruct Hmt as [<-|Hw]; [by eapply declared_subject|].
           destruct (tk_subject (rt_key t)) as [| |ty] eqn:Es; try done.
           destruct s as [y| |]; try done. apply bool_decide_eq_true in Hw as ->. by eapply declared_wildcard.
      * destruct (computed_declared _ _ _ _ _ _ Hoo Hres) as (target & -> & Htarget). intros Hmem.
        rewrite Hty in Htarget. apply relation_id_declared in Htarget as (o' & td' & rel' & Hoo' & Htd' & <-).
        eapply declared_computed, IHr; done.
      * destruct (ttu_declared _ _ _ _ _ _ _ Hoo Hres) as (tid & to & trel & targets & -> & Hto & <- & Htg & _).
        intros (rel' & t & x' & target & rel'' & Hrel & Ht & Hc & Hmt & Hs & Hin & Hrel'' & Htn & Hmem).
        rewrite (oo_relation _ _ _ _ Hto) in Hrel. simplify_eq.
        assert (granted x (or_source to) t ∧ subject_class env t DCObject) as [Hg _] by (by eapply granted_compiled).
        apply Htg in Hin as (d & name & _ & _ & Hrid).
        apply relation_id_declared in Hrid as (o'' & td'' & rel3 & Hoo'' & Htd'' & <-).
        eapply declared_ttu; [rewrite <-Hty; by eapply origin_declares|done|done|].
        eapply IHr; [done| |done]. rewrite (oo_relation _ _ _ _ Hoo'') in Hrel''. simplify_eq.
        rewrite (oo_object_type _ _ _ _ Hoo'') in Htn. apply type_name_declared in Htn as (td3 & Htd3 & <-).
        rewrite (oo_type _ _ _ _ Hoo'') in Htd3. by simplify_eq.
    + intros (y & [i Hi]%list_elem_of_lookup & Hmem). destruct (Forall2_lookup_r _ _ _ _ _ Hcs Hi) as (c & Hc & Hlow).
      eapply declared_union; [by eapply list_elem_of_lookup_2|]. by eapply IHn.
    + intros Hmem. apply declared_intersection. intros c [i Hi]%list_elem_of_lookup.
      destruct (Forall2_lookup_l _ _ _ _ _ Hcs Hi) as (y & Hy & Hlow). eapply IHn; [done..|].
      apply Hmem. by eapply list_elem_of_lookup_2.
    + done.
Qed.

Lemma is_member_le h h' x : h ≤ h' → is_member h x → is_member h' x.
Proof. induction 1; [done|]. intros ?. apply member_S. auto. Qed.

Lemma lowered_leaf_inv o rw n : is_leaf rw = true → lowered (ctx o) m.(model_nodes) rw n →
  ∃ nd, resolve_leaf rw (ctx o) = Ok nd ∧ node m n = Ok nd.
Proof. intros Hleaf Hl. inversion Hl as [? nd ? _ Hr Hn| | |]; subst; try done. exists nd. split; [done|]. unfold node. by rewrite Hn. Qed.

(** A tuple of a direct relation makes its subject a member. *)
Lemma direct_member rid o td rel x n t class h s : origin_of rid o td rel →
  lowered (ctx o) m.(model_nodes) SDirect n → granted x o.(or_source) t → subject_class env t class →
  match class with
  | DCObject => t.(rt_key).(tk_subject) = s
  | DCWildcard => t.(rt_key).(tk_subject) = s ∨ wildcard_matches t.(rt_key).(tk_subject) s = true
  | DCUserset r => ∃ u, t.(rt_key).(tk_subject) = SubjUserset u ∧
      (SubjUserset u = s ∨ is_member h (TgRelation (mkSemanticKey u.(us_object) r s)))
  end → is_member (S h) (TgNode x n s).
Proof.
  intros Hoo Hl Hg Hclass Hcase. destruct (lowered_leaf_inv o SDirect n) as (nd & Hr & Hn); [done..|].
  simplify_eq/=. cbn [Membership.member member_step]. rewrite Hn, (oo_id _ _ _ _ Hoo).
  exists rel, t. destruct (proj2 (granted_compiled rid o td rel t x class Hoo) (conj Hg Hclass)) as (? & ? & Hm').
  rewrite Hm'. split_and!; [apply (oo_relation _ _ _ _ Hoo)|done..].
Qed.

(** A permitted object of a tupleset has the computed relation. *)
Lemma ttu_target tid to td trel (targets : list RelationId) computed t x' :
  origin_of tid to td trel → permits to.(or_source) t → t.(rt_key).(tk_subject) = SubjObject x' →
  (∀ r, r ∈ targets ↔ ∃ d name, d ∈ trel.(cr_restrictions) ∧ type_name m d.(dr_subject_type) = Ok name ∧
     relation_id m name computed = Ok r) →
  (∀ d name, d ∈ trel.(cr_restrictions) → type_name m d.(dr_subject_type) = Ok name →
     d.(dr_kind) = RKObject ∧ ∃ r, relation_id m name computed = Ok r) →
  ∃ target, relation_id m x'.(object_type) computed = Ok target ∧ target ∈ targets.
Proof.
  intros Hto (d & Hd & Hst & _) Hs Htg Hall.
  destruct (compiled_resolved _ _ _ _ _ Hm to) with (d := d) as (d' & Hres);
    [by eapply list_elem_of_lookup_2, (oo_origin _ _ _ _ Hto)|done|].
  assert (Hd' : d' ∈ trel.(cr_restrictions)) by (apply (oo_restrictions _ _ _ _ Hto); eauto).
  destruct Hres as (Hdt & _). rewrite Hs in Hst. simpl in Hst.
  assert (Hname : type_name m (dr_subject_type d') = Ok (object_type x')).
  { apply type_name_declared, type_id_declared. unfold type_id. rewrite <-Hst.
    change (type_lookup m) with (sy_type_lookup sy). by rewrite Hdt. }
  destruct (Hall d' _ Hd' Hname) as (_ & target & Ht). exists target. split; [done|]. apply Htg. eauto.
Qed.

Lemma ttu_member rid o td rel x n tupleset computed trs t x' s : origin_of rid o td rel →
  td.(td_name) = x.(object_type) → lowered (ctx o) m.(model_nodes) (STupleToUserset tupleset computed) n →
  declares source x.(object_type) tupleset trs → granted x trs t → t.(rt_key).(tk_subject) = SubjObject x' →
  (∀ target, relation_id m x'.(object_type) computed = Ok target →
     ∃ h, is_member h (TgRelation (mkSemanticKey x' target s))) →
  ∃ h, is_member h (TgNode x n s).
Proof.
  intros Hoo Hty Hl Hdecl Hg Hs Hmem.
  destruct (lowered_leaf_inv o (STupleToUserset tupleset computed) n) as (nd & Hr & Hn); [done..|].
  destruct (ttu_declared _ _ _ _ _ _ _ Hoo Hr) as (tid & to & trel & targets & -> & Hto & Hts & Htg & Hall).
  destruct (declares_origin _ _ _ Hdecl) as (tid' & to' & td' & trel' & Hto' & Htd' & <- & Hts').
  assert (tid' = tid) as -> by (eapply origin_unique; [exact Hto'|exact Hto|congruence|congruence]).
  assert (Heq : to' = to).
  { pose proof (oo_origin _ _ _ _ Hto') as E. rewrite (oo_origin _ _ _ _ Hto) in E. congruence. }
  subst to'. destruct (proj2 (granted_compiled tid to td trel t x DCObject Hto)) as (Ht & Hc & Hmt).
  { split; [done|]. unfold subject_class. by rewrite Hs. }
  destruct Hg as (_ & Hp & _). destruct (ttu_target _ _ _ _ _ _ _ _ Hto Hp Hs Htg Hall) as (target & Htarget & Hin).
  destruct (Hmem target Htarget) as (h & Hh). exists (S h).
  apply relation_id_declared in Htarget as (o' & td2 & rel2 & Hoo' & Htd2 & Hname).
  cbn [Membership.member member_step]. rewrite Hn. exists trel, t, x', target, rel2.
  split_and!; [apply (oo_relation _ _ _ _ Hto)|done..|apply (oo_relation _ _ _ _ Hoo')| |done].
  rewrite (oo_object_type _ _ _ _ Hoo'). apply type_name_declared. exists td2. split; [|done].
  apply (oo_type _ _ _ _ Hoo').
Qed.

(** What a statement about declarations says of the compiled model. *)
Definition realized (st : Statement) : Prop :=
  match st with
  | HasRelation x r s => ∀ rid, relation_id m x.(object_type) r = Ok rid →
      ∃ h, is_member h (TgRelation (mkSemanticKey x rid s))
  | Satisfies x rs rw s => ∀ rid o td rel n, origin_of rid o td rel → o.(or_source) = rs →
      td.(td_name) = x.(object_type) → lowered (ctx o) m.(model_nodes) rw n → ∃ h, is_member h (TgNode x n s)
  end.

Lemma declared_member st : says st → realized st.
Proof.
  induction 1 as [x r s rs Hd _ IH|x rs t s Hg Hs|x rs t y Hg Hs|x rs t u s Hg Hs _ IH|x rs r s _ IH
    |x rs ts comp trs t y s Hd Hg Hs _ IH|x rs cs c s Hc _ IH|x rs cs s _ IH].
  - intros rid Hrid. apply relation_id_declared in Hrid as (o & td & rel & Hoo & Hty & Hname).
    destruct (declares_origin _ _ _ Hd) as (rid' & o' & td' & rel' & Hoo' & Htd' & Hsrc & Hname').
    assert (rid' = rid) as -> by (eapply origin_unique; [exact Hoo'|exact Hoo|congruence|congruence]).
    destruct (IH rid o' td' rel' rel'.(cr_root)) as (h & Hh); [done..| |].
    { rewrite <-Hsrc. apply (oo_lowered _ _ _ _ Hoo'). }
    exists (S h). exists rel'. split; [apply (oo_relation _ _ _ _ Hoo')|done].
  - intros rid o td rel n Hoo <- Hty Hl. destruct (permits_class _ _ _ _ _ Hoo (proj1 (proj2 Hg))) as [class Hclass].
    exists 1. eapply direct_member; [done..|]. destruct class; [done| |by left].
    unfold subject_class in Hclass. destruct (tk_subject (rt_key t)) as [|u|] eqn:Eu; try done. exists u. auto.
  - intros rid o td rel n Hoo <- Hty Hl. exists 1. eapply (direct_member _ _ _ _ _ _ _ DCWildcard 0); [done..| |].
    + unfold subject_class. by rewrite Hs.
    + right. rewrite Hs. simpl. by apply bool_decide_eq_true.
  - intros rid o td rel n Hoo <- Hty Hl. destruct (permits_class _ _ _ _ _ Hoo (proj1 (proj2 Hg))) as [class Hclass].
    pose proof Hclass as Hc. unfold subject_class in Hclass. rewrite Hs in Hclass. destruct class as [|r|]; try done.
    destruct (IH r Hclass) as (h & Hh). exists (S h). eapply direct_member; [done..|]. simpl. exists u. auto.
  - intros rid o td rel n Hoo <- Hty Hl. destruct (lowered_leaf_inv o (SComputed r) n) as (nd & Hr & Hn); [done..|].
    destruct (computed_declared _ _ _ _ _ _ Hoo Hr) as (target & -> & Ht). rewrite Hty in Ht.
    destruct (IH target Ht) as (h & Hh). exists (S h). cbn [Membership.member member_step]. by rewrite Hn.
  - intros rid o td rel n Hoo <- Hty Hl. by eapply ttu_member.
  - intros rid o td rel n Hoo <- Hty Hl. inversion Hl as [|? ids ? Hn Hcs| |]; subst; [done|].
    apply list_elem_of_lookup in Hc as [i Hi]. destruct (Forall2_lookup_l _ _ _ _ _ Hcs Hi) as (y & Hy & Hlow).
    destruct (IH rid o td rel y) as (h & Hh); [done..|]. exists (S h). cbn [Membership.member member_step].
    unfold node. rewrite Hn. exists y. split; [by eapply list_elem_of_lookup_2|done].
  - intros rid o td rel n Hoo <- Hty Hl. inversion Hl as [| |? ids ? Hn Hcs|]; subst; [done|].
    cut (∃ h, ∀ y, y ∈ ids → is_member h (TgNode x y s)).
    { intros (h & Hh). exists (S h). cbn [Membership.member member_step]. unfold node. by rewrite Hn. }
    clear Hl Hn. induction Hcs as [|c y cs ids Hlow Hcs IHcs]; [exists 0; set_solver|].
    destruct IHcs as (h & Hh); [intros; apply IH; by right|].
    destruct (IH c ltac:(by left) rid o td rel y) as (h' & Hh'); [done..|].
    exists (h `max` h'). intros z [->|Hz]%elem_of_cons; [|by eapply is_member_le, Hh; [lia|]].
    eapply is_member_le; [|done]. lia.
Qed.

(** ** Validation of written tuples *)

Definition context_valid (t : RelationshipTuple) : Prop :=
  match t.(rt_condition) with
  | Unconditional => True
  | Conditional binding => ∀ c k, c ∈ source.(ams_conditions) → c.(cs_key) = binding.(cb_name) →
      compile_condition c.(cs_definition) climits = Ok k → validate_context k binding.(cb_context) = Ok ()
  end.

(** A required condition of a resolved restriction exists under its declared name. *)
Lemma required_declared rid o td rel d' id : origin_of rid o td rel → d' ∈ rel.(cr_restrictions) →
  d'.(dr_condition) = Required id →
  ∃ c k, source.(ams_conditions) !! id = Some c ∧ condition m id = Ok k ∧ condition_name k = c.(cs_key) ∧
    compile_condition c.(cs_definition) climits = Ok k.
Proof.
  intros Hoo (d & _ & _ & _ & Hc)%(oo_restrictions _ _ _ _ Hoo) Hreq. destruct (drs_condition d) as [name|]; [|congruence].
  destruct Hc as (id' & Hid & Hd'). rewrite Hreq in Hd'. simplify_eq.
  assert (Hid' : condition_id m name = Ok id') by (unfold condition_id; by rewrite Hid).
  apply condition_id_declared in Hid' as (c & Hc & _).
  destruct (Forall2_lookup_l _ _ _ _ _ (compiled_conditions _ _ _ _ _ Hm) Hc) as (e & _ & _ & Hk).
  assert (Hk' : condition m id' = Ok (ce_condition e)) by (apply condition_declared; eauto).
  exists c, (ce_condition e). split_and!; [done..| |done]. by eapply condition_name_declared.
Qed.

Lemma context_accepted_valid t : context_accepted env t ↔ context_valid t.
Proof.
  unfold context_accepted, context_valid. destruct (rt_condition t) as [|binding]; [done|]. split.
  - intros Hc c k [i Hi]%list_elem_of_lookup Hkey Hk. eapply Hc; [apply condition_id_declared|apply condition_declared]; eauto.
  - intros Hc id k (c & Hc' & Hkey)%condition_id_declared (c2 & Hc2 & Hk)%condition_declared. simplify_eq.
    eapply Hc; [by eapply list_elem_of_lookup_2|done..].
Qed.

Lemma condition_lookup_declared name id :
  condition_id m name = Ok id ↔ ∃ k, condition m id = Ok k ∧ condition_name k = name.
Proof.
  rewrite condition_id_declared. split.
  - intros (c & Hc & <-).
    destruct (Forall2_lookup_l _ _ _ _ _ (compiled_conditions _ _ _ _ _ Hm) Hc) as (e & _ & _ & Hk).
    assert (Hk' : condition m id = Ok (ce_condition e)) by (apply condition_declared; eauto).
    exists (ce_condition e). split; [done|]. by eapply condition_name_declared.
  - intros (k & Hk & <-). pose proof (proj1 (condition_declared id k) Hk) as (c & Hc & _).
    exists c. split; [done|]. symmetry. by eapply condition_name_declared.
Qed.

Lemma validate_condition_iff rid o td rel t : origin_of rid o td rel →
  validate_relationship_condition m t rel.(cr_restrictions) = Ok () ↔ permits o.(or_source) t ∧ context_valid t.
Proof.
  intros Hoo. rewrite <-context_accepted_valid, (validate_condition_matching env); [|..|apply condition_lookup_declared].
  - apply and_iff_compat_r. split.
    + by intros (class & [_ Hp]%(matching_declared rid o td rel t)).
    + intros Hp. destruct (permits_class _ _ _ _ _ Hoo Hp) as [class Hc]. exists class.
      by apply (matching_declared rid o td rel t).
  - intros d id Hd E. destruct (required_declared rid o td rel d id Hoo Hd E) as (c & k & _ & ? & _). eauto.
Qed.

(** Validation accepts exactly the tuples a declaration permits. *)
Lemma validate_tuple_iff t :
  validate_relationship_tuple m t = Ok () ↔
  ∃ rs, declares source t.(rt_key).(tk_object).(object_type) t.(rt_key).(tk_relation) rs ∧
    permits rs t ∧ context_valid t.
Proof.
  unfold validate_relationship_tuple. split.
  - intros (ty & _ & Hv)%result_bind_ok. apply result_bind_ok in Hv as (rid & Hrid%map_err_ok & Hv).
    apply result_bind_ok in Hv as (rel & Hrel%map_err_ok & Hv).
    apply result_bind_ok in Hv as (sty & _ & Hv). apply result_bind_ok in Hv as (_ & _ & Hv).
    apply relation_id_declared in Hrid as (o & td & rel' & Hoo & Hty & Hname).
    rewrite (oo_relation _ _ _ _ Hoo) in Hrel. simplify_eq. exists (or_source o).
    rewrite (validate_condition_iff rid o td rel t Hoo) in Hv. split; [|done].
    rewrite <-Hty, <-Hname. by eapply origin_declares.
  - intros (rs & Hd & Hv). destruct (declares_origin _ _ _ Hd) as (rid & o & td & rel & Hoo & Hty & <- & Hname).
    apply (validate_condition_iff rid o td rel t Hoo) in Hv as Hok. pose proof Hok as Hc.
    unfold validate_relationship_condition in Hc. apply result_bind_ok in Hc as (sty & Hsty%map_err_ok & Hc).
    apply result_bind_ok in Hc as (class & Hclass & _).
    assert (Hrid : relation_id m (object_type (tk_object (rt_key t))) (tk_relation (rt_key t)) = Ok rid).
    { apply relation_id_declared. exists o, td, rel. done. }
    assert (Hot : type_id m (object_type (tk_object (rt_key t))) = Ok (or_object_type o)).
    { apply type_id_declared. exists td. split; [apply (oo_type _ _ _ _ Hoo)|done]. }
    rewrite Hot. cbn [map_err mbind result_bind]. rewrite Hrid. cbn [map_err mbind result_bind].
    rewrite (oo_relation _ _ _ _ Hoo). cbn [map_err mbind result_bind]. rewrite Hsty. cbn [map_err mbind result_bind].
    unfold relationship_direct_class in Hclass.
    destruct (tk_subject (rt_key t)) as [|u|]; [done| |done].
    apply map_err_ok, result_fmap_ok in Hclass as (r & _ & ->). exact Hok.
Qed.

(** A compiled model has exactly the declared members. *)
Lemma compiled_members x r rid s : relation_id m x.(object_type) r = Ok rid →
  (∃ h, is_member h (TgRelation (mkSemanticKey x rid s))) ↔ says (HasRelation x r s).
Proof.
  intros Hrid. split.
  - intros (h & Hh). apply relation_id_declared in Hrid as (o & td & rel & Hoo & Hty & <-).
    by eapply (proj1 (member_declared h)).
  - intros Hd. by apply (declared_member _ Hd).
Qed.

(** ** Models without exclusion *)

Lemma within_well_shaped depth s s' :
  rtc (fun x y => y ∈ source_children x) s s' → well_shaped limits depth s → ∃ depth', well_shaped limits depth' s'.
Proof.
  intros Hr. revert depth. induction Hr as [x|x y z Hxy _ IH]; intros depth Hw; [eauto|].
  apply well_shaped_unfold in Hw as (_ & _ & Hw). by eapply IH, Hw.
Qed.

Lemma compiled_graph_laws : GraphLaws m.
Proof.
  destruct (compiled_graph _ _ _ _ _ Hm) as (e & e' & Hg). apply (built_graph_laws m limits e e'); [|done].
  intros i rel Hi. pose proof (lowered_relations _ _ _ _ _ (compiled_relations _ _ _ _ _ Hm)) as Hl.
  destruct (Forall2_lookup_r _ _ _ _ _ Hl Hi) as (o & Ho & [-> _ _ _ _ _]).
  destruct (origin_facts i o Ho) as (td & rel' & Hoo). apply (oo_id _ _ _ _ Hoo).
Qed.

Lemma within_positive s s' :
  rtc (fun x y => y ∈ source_children x) s s' → positive_rewrite s = true → positive_rewrite s' = true.
Proof.
  induction 1 as [x|x y z Hxy _ IH]; [done|]. intros Hx. apply IH.
  destruct x as [| | |cs|cs|b sb]; simpl in *; try set_solver; by apply (proj1 (forallb_elem _ _) Hx).
Qed.

(** Where a node comes from. *)
Lemma node_source i n : m.(model_nodes) !! i = Some n →
  ∃ o rs td, rtc (fun x y => y ∈ source_children x) o.(or_source).(rs_rewrite) rs ∧ lowered (ctx o) m.(model_nodes) rs i ∧
    td ∈ tds ∧ o.(or_source) ∈ td.(td_relations).
Proof.
  intros Hi.
  destruct (lowered_justified _ _ _ _ _ (compiled_relations _ _ _ _ _ Hm) i) as (o & s & Ho & Hin & Hl);
    [by eapply lookup_lt_Some|].
  apply list_elem_of_lookup in Ho as [rid Ho]. destruct (origin_facts rid o Ho) as (td & rel & Hoo).
  exists o, s, td. split_and!; [done..| |];
    [eapply list_elem_of_lookup_2, (oo_type _ _ _ _ Hoo)|eapply list_elem_of_lookup_2, (oo_declared _ _ _ _ Hoo)].
Qed.

Lemma compiled_nonempty i : m.(model_nodes) !! i ≠ Some (NIntersection []).
Proof.
  intros Hi. destruct (node_source i _ Hi) as (o & s & td & Hin & Hl & Htd & Hrs).
  destruct (type_relations_ok _ _ (declared_types_ok _ _ (compiled_declarations _ _ _ _ _ Hm) td Htd) _ Hrs)
    as (_ & _ & Hw & _).
  destruct (within_well_shaped _ _ _ Hin Hw) as (depth & (_ & Ha & _)%well_shaped_unfold).
  inversion Hl as [? nd ? Hleaf Hres Hn|cs ids ? Hn Hcs|cs ids ? Hn Hcs|b sb bid sid ? Hn ? ?]; subst;
    rewrite Hi in Hn; simplify_eq/=.
  - apply resolve_leaf_shape in Hres; [|done]. destruct s; naive_solver.
  - inversion Hcs; subst. unfold len in Ha. simpl in Ha. lia.
Qed.

Lemma compiled_positive :
  (∀ td rs, td ∈ tds → rs ∈ td.(td_relations) → positive_rewrite rs.(rs_rewrite) = true) →
  positive_model m = true.
Proof.
  intros Hpos. apply forallb_elem. intros n [i Hi]%list_elem_of_lookup.
  destruct (node_source i _ Hi) as (o & s & td & Hin & Hl & Htd & Hrs).
  assert (Hp := within_positive _ _ Hin (Hpos td _ Htd Hrs)).
  inversion Hl as [? nd ? Hleaf Hres Hn|cs ids ? Hn Hcs|cs ids ? Hn Hcs|b sb bid sid ? Hn ? ?]; subst;
    rewrite Hi in Hn; simplify_eq/=; try done.
  - apply resolve_leaf_shape in Hres; [|done]. destruct s; naive_solver.
  - destruct ids; [|done]. by apply compiled_nonempty in Hi.
Qed.

End preserved.
