(* ===== verification/CompilerTheorems.v ===== *)
(** * Correctness of the model compiler

    The properties of [compile], and of checks and validation over the models
    it returns. *)

From S2P Require Import Prelude Ordered Identifier Reference Condition Storage Model ModelErrors Graph.
From S2P Require Import GraphTheory SccTheory ModelSource Compiler DeclarationTheory SymbolTheory.
From S2P Require Import LoweringTheory EntrypointTheory CompilerTheory TupleValidation Budget Reducer.
From S2P Require Import Scheduler CheckSpec CheckSound Membership Fixture CheckTheorems ModelTyping.
From S2P Require Import SourceSemantics.

Import Fixture.

(** ** The fixture, declared *)

Module Declarations.

#[export] Instance compiler : ConditionCompiler := {|
  compile_condition := fun d _ => Ok d.(cd_name);
|}.
#[export] Instance compiler_laws : ConditionCompilerLaws.
Proof. split. by intros d l c [= <-]. Qed.

Definition assignable (ty : TypeName) (kind : RestrictionKindSource) : DirectRestrictionSource :=
  mkDirectRestrictionSource ty kind None.

Definition source : AuthorizationModelSource := {|
  ams_store_id := 1%N;
  ams_model_id := 2%N;
  ams_schema_version := str "1.1";
  ams_type_definitions :=
    [ mkTypeDefinitionSource user [];
      mkTypeDefinitionSource group
        [relation_source_new member SDirect [assignable user RSObject; assignable group (RSUserset member)]];
      mkTypeDefinitionSource folder [relation_source_new owner SDirect [assignable user RSObject]];
      mkTypeDefinitionSource document
        [relation_source_new viewer (SIntersection [SDirect; SComputed approved])
           [assignable user RSObject; assignable user RSWildcard; assignable group (RSUserset member)];
         relation_source_new approved SDirect [assignable user RSObject];
         relation_source_new editor (SUnion [SDirect; STupleToUserset parent owner]) [assignable user RSObject];
         relation_source_new parent SDirect [assignable folder RSObject]] ];
  ams_conditions := [];
|}.

Lemma compiles : compile source default_model_limits default_condition_limits = Some (Ok Fixture.model).
Proof. vm_compute. reflexivity. Qed.

Lemma limits_ok : model_limits_ok default_model_limits.
Proof. unfold model_limits_ok, input_limits_ok, limit_in. vm_compute. intuition discriminate. Qed.

End Declarations.

Section compiled_models.
Context `{ConditionCompilerLaws}.

Lemma compile_ok source limits climits m :
  model_limits_ok limits → compile source limits climits = Some (Ok m) →
  ∃ origins, compiled limits climits source m origins.
Proof.
  intros Hl Hc. destruct (compile_spec limits climits Hl source) as (r & Hr & Ho). rewrite Hc in Hr.
  by injection Hr as <-.
Qed.

(** An environment over a model, for lemmas that only read the model. *)
Definition any_env (m : CompiledModel) : CheckEnv :=
  mkCheckEnv m default_check_budget default_input_limits (mkOperationContext MinimizeLatency 0) []
    empty_condition_context 1.

(** ** Indices *)

Section typed.
Variable limits : ModelLimits.
Variable climits : ConditionLimits.
Variable source : AuthorizationModelSource.
Variable m : CompiledModel.
Variable origins : list RelationOrigin.
Hypothesis Hm : compiled limits climits source m origins.

Abbreviation env := (any_env m).
Let Henv : compiled limits climits source env.(env_model) origins := Hm.
Abbreviation oo := (origin_of source origins env).

Lemma relation_at rid o td rel : oo rid o td rel → m.(model_relations) !! rid = Some rel.
Proof. intros Hoo. pose proof (oo_relation _ _ _ _ _ _ _ Hoo) as E. by apply ok_or_ok in E. Qed.

Lemma relation_in_range rid o td rel : oo rid o td rel → rid < length m.(model_relations).
Proof. intros Hoo%relation_at. by eapply lookup_lt_Some. Qed.

Lemma relation_id_in_range ty r rid : relation_id m ty r = Ok rid → rid < length m.(model_relations).
Proof.
  intros Hr. destruct (proj1 (relation_id_declared limits climits source origins env Henv ty r rid) Hr)
    as (o & td & rel & Hoo & _). by eapply relation_in_range.
Qed.

Lemma relation_origin i rel : m.(model_relations) !! i = Some rel → ∃ o td, oo i o td rel.
Proof.
  intros Hi. pose proof (lowered_relations _ _ _ _ _ (compiled_relations _ _ _ _ _ Hm)) as Hl.
  destruct (Forall2_lookup_r _ _ _ _ _ Hl Hi) as (o & Ho & _).
  destruct (origin_facts limits climits source origins env Henv i o Ho) as (td & rel' & Hoo).
  pose proof (relation_at _ _ _ _ Hoo) as E. rewrite Hi in E. simplify_eq. eauto.
Qed.

Lemma restriction_ranges i rel d' : m.(model_relations) !! i = Some rel → d' ∈ rel.(cr_restrictions) →
  restriction_in_range m d'.
Proof.
  intros Hi Hd'. destruct (relation_origin i rel Hi) as (o & td & Hoo).
  apply (oo_restrictions _ _ _ _ _ _ _ Hoo) in Hd' as Hres. destruct Hres as (d & _ & Ht & Hk & _). split_and!.
  - assert (Hty : type_id m (drs_subject_type d) = Ok (dr_subject_type d')) by (apply ok_or_ok, Ht).
    apply (type_id_declared limits climits source origins env Henv) in Hty as (td' & Htd & Hn).
    assert (Hname := proj2 (type_name_declared limits climits source origins env Henv (dr_subject_type d') (td_name td'))
      (ex_intro _ td' (conj Htd eq_refl))).
    unfold type_name in Hname. apply ok_or_ok, fmap_Some in Hname as (ct & Hct & _). by eapply lookup_lt_Some.
  - intros r Hr. destruct (drs_kind d) as [|name|]; [congruence| |congruence].
    destruct Hk as (id & Hid & Hk). rewrite Hr in Hk. simplify_eq. eapply relation_id_in_range.
    apply ok_or_ok, Hid.
  - intros c Hc. destruct (required_declared limits climits source origins env Henv i o td rel d' c Hoo Hd' Hc)
      as (c' & k & _ & Hk' & _). apply ok_or_ok, fmap_Some in Hk' as (e & He & _). by eapply lookup_lt_Some.
Qed.

Lemma node_ranges i n r : m.(model_nodes) !! i = Some n → r ∈ node_relations n → r < length m.(model_relations).
Proof.
  intros Hi Hr.
  destruct (lowered_justified _ _ _ _ _ (compiled_relations _ _ _ _ _ Hm) i) as (o & s & Ho & _ & Hl);
    [by eapply lookup_lt_Some|].
  apply list_elem_of_lookup in Ho as [rid Ho].
  destruct (origin_facts limits climits source origins env Henv rid o Ho) as (td & rel & Hoo).
  inversion Hl as [? nd ? Hleaf Hres Hn|cs ids ? Hn Hcs|cs ids ? Hn Hcs|b sb bid sid ? Hn ? ?]; subst;
    rewrite Hi in Hn; simplify_eq; simpl in Hr; try by apply not_elem_of_nil in Hr.
  destruct s as [|name|tupleset computed| | |]; try done.
  - simpl in Hres. simplify_eq. apply list_elem_of_singleton in Hr as ->.
    rewrite (oo_id _ _ _ _ _ _ _ Hoo). by eapply relation_in_range.
  - destruct (computed_declared limits climits source origins env Henv _ _ _ _ _ _ Hoo Hres) as (target & -> & Ht).
    apply list_elem_of_singleton in Hr as ->. by eapply relation_id_in_range.
  - destruct (ttu_declared limits climits source origins env Henv _ _ _ _ _ _ _ Hoo Hres)
      as (tid & to & trel & targets & -> & Hto & _ & Htg & _).
    apply elem_of_cons in Hr as [->|Hr]; [by eapply relation_in_range|].
    apply Htg in Hr as (d & name & _ & _ & Hid). by eapply relation_id_in_range.
Qed.

Lemma tuplesets_direct n ts c targets : m.(model_nodes) !! n = Some (NTupleToUserset ts c targets) →
  (∀ target, target ∈ targets → ∃ ty, relation_id m ty c = Ok target) ∧
  ∃ rel, m.(model_relations) !! ts = Some rel ∧
  ∀ d, d ∈ rel.(cr_restrictions) → d.(dr_kind) = RKObject ∧
    ∃ ty target, type_name m d.(dr_subject_type) = Ok ty ∧ relation_id m ty c = Ok target ∧ target ∈ targets.
Proof.
  intros Hi.
  destruct (lowered_justified _ _ _ _ _ (compiled_relations _ _ _ _ _ Hm) n) as (o & s & Ho & _ & Hl);
    [by eapply lookup_lt_Some|].
  apply list_elem_of_lookup in Ho as [rid Ho].
  destruct (origin_facts limits climits source origins env Henv rid o Ho) as (td & rel & Hoo).
  inversion Hl as [? nd ? Hleaf Hres Hn|cs ids ? Hn Hcs|cs ids ? Hn Hcs|b sb bid sid ? Hn ? ?]; subst;
    rewrite Hi in Hn; simplify_eq.
  destruct s as [|name|tupleset computed| | |]; try done.
  - destruct (computed_declared limits climits source origins env Henv _ _ _ _ _ _ Hoo Hres) as (? & [=] & _).
  - destruct (ttu_declared limits climits source origins env Henv _ _ _ _ _ _ _ Hoo Hres)
      as (tid & to & trel & targets' & [= -> -> ->] & Hto & _ & Htg & Hd).
    split; [intros target (d & ty & _ & _ & ?)%Htg; eauto|].
    assert (Hat : m.(model_relations) !! tid = Some trel) by (by eapply relation_at). exists trel. split; [done|].
    intros d Hin. destruct (restriction_ranges tid trel d Hat Hin) as [Hlt _].
    destruct (lookup_lt_is_Some_2 _ _ Hlt) as [ct Hct].
    assert (Hty : type_name m d.(dr_subject_type) = Ok ct.(ct_name)) by (unfold type_name; by rewrite Hct).
    destruct (Hd d _ Hin Hty) as (Hk & target & Ht). split; [done|]. exists (ct_name ct), target.
    split_and!; [done..|]. apply Htg. eauto.
Qed.

Lemma same_object_type i o td rel i' o' td' rel' : oo i o td rel → oo i' o' td' rel' →
  td.(td_name) = td'.(td_name) → o.(or_object_type) = o'.(or_object_type).
Proof.
  intros Hoo Hoo' Hn. cut (Ok (or_object_type o) = (Ok (or_object_type o') : result ModelLookupError _)); [by intros [= ->]|].
  transitivity (type_id m td.(td_name)).
  - symmetry. apply (type_id_declared limits climits source origins env Henv). exists td. split; [apply (oo_type _ _ _ _ _ _ _ Hoo)|done].
  - apply (type_id_declared limits climits source origins env Henv). exists td'. split; [apply (oo_type _ _ _ _ _ _ _ Hoo')|done].
Qed.

(** A node below a lowered rewrite is the lowering of a part of it. *)
Lemma lowered_below c n n' : rtc (fun x y => y ∈ successors m.(model_nodes) x) n n' →
  ∀ s, lowered c m.(model_nodes) s n → ∃ s', lowered c m.(model_nodes) s' n'.
Proof.
  induction 1 as [|n1 n2 n3 Hs _ IH]; [eauto|]. intros s Hl. unfold successors in Hs.
  inversion Hl as [? nd ? Hleaf Hres Hn|cs ids ? Hn Hcs|cs ids ? Hn Hcs|b sb bid sid ? Hn ? ?]; subst;
    rewrite Hn in Hs; simpl in Hs.
  - enough (node_children nd = []) as E by (rewrite E in Hs; by apply not_elem_of_nil in Hs).
    destruct s; try done; simpl in Hres; [by simplify_eq| |].
    + apply result_bind_ok in Hres as (? & _ & Hres). apply result_bind_ok in Hres as (? & _ & Hres).
      case_match; by simplify_eq.
    + apply result_bind_ok in Hres as ([] & _ & Hres). by simplify_eq.
  - apply list_elem_of_lookup in Hs as [j Hj]. destruct (Forall2_lookup_r _ _ _ _ _ Hcs Hj) as (s' & _ & Hs'). eauto.
  - apply list_elem_of_lookup in Hs as [j Hj]. destruct (Forall2_lookup_r _ _ _ _ _ Hcs Hj) as (s' & _ & Hs'). eauto.
  - apply elem_of_cons in Hs as [->|Hs%list_elem_of_singleton]; subst; eauto.
Qed.

Lemma rewrites_local i rel n nd r : m.(model_relations) !! i = Some rel →
  in_rewrite m.(model_nodes) rel.(cr_root) n → m.(model_nodes) !! n = Some nd → r ∈ local_relations nd →
  ∃ rel', m.(model_relations) !! r = Some rel' ∧ rel'.(cr_object_type) = rel.(cr_object_type).
Proof.
  intros Hi Hin Hn Hr. destruct (relation_origin i rel Hi) as (o & td & Hoo).
  destruct (lowered_below _ _ _ Hin _ (oo_lowered _ _ _ _ _ _ _ Hoo)) as (s & Hl).
  inversion Hl as [? nd' ? Hleaf Hres Hn'|cs ids ? Hn' Hcs|cs ids ? Hn' Hcs|b sb bid sid ? Hn' ? ?]; subst;
    rewrite Hn in Hn'; simplify_eq; try by apply not_elem_of_nil in Hr.
  destruct s as [|name|tupleset computed| | |]; try done.
  - simpl in Hres. simplify_eq. apply list_elem_of_singleton in Hr as ->.
    rewrite (oo_id _ _ _ _ _ _ _ Hoo). eauto.
  - destruct (computed_declared limits climits source origins env Henv _ _ _ _ _ _ Hoo Hres) as (target & -> & Ht).
    apply list_elem_of_singleton in Hr as ->.
    apply (relation_id_declared limits climits source origins env Henv) in Ht as (o' & td' & rel' & Hoo' & Htd & _).
    exists rel'. split; [by eapply relation_at|].
    rewrite (oo_object_type _ _ _ _ _ _ _ Hoo), (oo_object_type _ _ _ _ _ _ _ Hoo').
    by eapply same_object_type.
  - destruct (ttu_declared limits climits source origins env Henv _ _ _ _ _ _ _ Hoo Hres)
      as (tid & to & trel & targets & -> & Hto & _).
    apply list_elem_of_singleton in Hr as ->. exists trel. split; [by eapply relation_at|].
    rewrite (oo_object_type _ _ _ _ _ _ _ Hoo), (oo_object_type _ _ _ _ _ _ _ Hto).
    by eapply same_object_type.
Qed.

Lemma compiled_typed : TypedModel m.
Proof.
  pose proof (symbols_types _ _ (compiled_symbols _ _ _ _ _ Hm)) as [_ Hty].
  assert (Horig : ∀ i rel, m.(model_relations) !! i = Some rel → ∃ o td, oo i o td rel) by apply relation_origin.
  constructor.
  - intros i ct Hi. destruct (Hty i ct Hi) as [Hid Hrel]. split; [done|]. intros r. rewrite Hrel.
    cbn [symbols_of sy_relation_origins]. split.
    + intros (o & Ho & <-). destruct (origin_facts limits climits source origins env Henv r o Ho) as (td & rel & Hoo).
      exists rel. split; [by eapply relation_at|apply (oo_object_type _ _ _ _ _ _ _ Hoo)].
    + intros (rel & Hr & <-). destruct (Horig r rel Hr) as (o & td & Hoo). exists o.
      split; [apply (oo_origin _ _ _ _ _ _ _ Hoo)|symmetry; apply (oo_object_type _ _ _ _ _ _ _ Hoo)].
  - intros i rel Hi. destruct (Horig i rel Hi) as (o & td & Hoo). split_and!.
    + pose proof (lowered_relations _ _ _ _ _ (compiled_relations _ _ _ _ _ Hm)) as Hl.
      destruct (Forall2_lookup_r _ _ _ _ _ Hl Hi) as (o' & Ho' & [-> _ _ _ _ _]).
      rewrite (oo_origin _ _ _ _ _ _ _ Hoo) in Ho'. simplify_eq. apply (oo_id _ _ _ _ _ _ _ Hoo).
    + rewrite (oo_object_type _ _ _ _ _ _ _ Hoo).
      assert (Hname := proj2 (type_name_declared limits climits source origins env Henv (or_object_type o) (td_name td))
        (ex_intro _ td (conj (oo_type _ _ _ _ _ _ _ Hoo) eq_refl))).
      apply ok_or_ok, fmap_Some in Hname as (ct & Hct & _). by eapply lookup_lt_Some.
    + eapply lowered_lt, (oo_lowered _ _ _ _ _ _ _ Hoo).
    + intros d. by eapply restriction_ranges.
  - intros i n Hi. split_and!; [intros c; by eapply (compiled_below _ _ _ _ _ Hm)|intros r; by eapply node_ranges|].
    intros ->. by apply (compiled_nonempty limits climits source origins env Henv) in Hi.
  - apply rewrites_local.
  - apply tuplesets_direct.
  - intros name i. rewrite (type_id_declared limits climits source origins env Henv).
    symmetry. apply (type_name_declared limits climits source origins env Henv).
  - intros ty name r. rewrite (relation_id_declared limits climits source origins env Henv). split.
    + intros (o & td & rel & Hoo & Htd & Hn). exists rel.
      split_and!; [apply (oo_relation _ _ _ _ _ _ _ Hoo)|by rewrite (oo_name _ _ _ _ _ _ _ Hoo)|].
      rewrite (oo_object_type _ _ _ _ _ _ _ Hoo). apply (type_name_declared limits climits source origins env Henv).
      exists td. split; [apply (oo_type _ _ _ _ _ _ _ Hoo)|done].
    + intros (rel & Hrel & Hn & Htn). apply ok_or_ok in Hrel as Hr. destruct (Horig r rel Hr) as (o & td & Hoo).
      exists o, td, rel. split_and!; [done| |by rewrite <-(oo_name _ _ _ _ _ _ _ Hoo)].
      rewrite (oo_object_type _ _ _ _ _ _ _ Hoo) in Htn.
      apply (type_name_declared limits climits source origins env Henv) in Htn as (td' & Htd' & Hty').
      rewrite (oo_type _ _ _ _ _ _ _ Hoo) in Htd'. by simplify_eq.
  - apply (condition_lookup_declared limits climits source origins env Henv).
Qed.

#[local] Existing Instance compiled_typed.

(** ** Dependencies *)

Lemma compiled_indexed : relations_indexed m.(model_relations).
Proof. intros i rel Hi. by destruct (typed_relations i rel Hi). Qed.

Lemma compiled_small : model_limits_ok limits → (N.of_nat (length m.(model_relations)) <= U32_MAX)%N.
Proof.
  intros (Hin & _). destruct Hin as (_ & _ & _ & _ & _ & _ & _ & _ & _ & _ & _ & _ & _ & _ & _ & _ & _ & _ & Hrl & _).
  unfold limit_in in Hrl. pose proof (declared_relations_count _ _ (compiled_declarations _ _ _ _ _ Hm)) as Hc.
  pose proof (symbols_count _ _ (symbols_origins _ _ (compiled_symbols _ _ _ _ _ Hm))) as Hs.
  pose proof (Forall2_length _ _ _ (lowered_relations _ _ _ _ _ (compiled_relations _ _ _ _ _ Hm))) as Hl.
  cbn [symbols_of sy_relation_origins] in Hs. unfold U32_MAX. lia.
Qed.

Lemma compiled_depends r r' : depends m.(model_relations) m.(model_nodes) r r' → r' < length m.(model_relations).
Proof.
  intros (rel & _ & _ & n & nd & _ & Hn & Hf). pose proof compiled_typed as Ht.
  destruct (typed_nodes n nd Hn) as (_ & Hr & _).
  destruct Hf as [t|ts c targets t Hin|owner orel d t Ho Hd Hk].
  - apply Hr. by left.
  - apply Hr. by right.
  - destruct (typed_relations owner orel Ho) as (_ & _ & _ & Hres). destruct (Hres d Hd) as (_ & Hu & _). by apply Hu.
Qed.

Lemma compiled_computes r r' : computes m.(model_relations) m.(model_nodes) r r' → r' < length m.(model_relations).
Proof.
  intros (rel & _ & _ & n & nd & _ & Hn & Hf). unfold node_computes in Hf. subst nd.
  apply (typed_nodes n _ Hn). by left.
Qed.

Lemma compiled_no_cycle : model_limits_ok limits →
  ∀ r, ¬ tc (computes m.(model_relations) m.(model_nodes)) r r.
Proof.
  intros Hl r Hcyc. destruct (compiled_acyclic _ _ _ _ _ Hm) as (cycles & Hc & Hout).
  apply (computed_cycles_exact _ _ compiled_indexed compiled_computes (compiled_small Hl) cycles Hc) in Hcyc as Hin.
  apply Hout in Hin. inversion Hcyc as [? ? Hr|? ? ? Hr]; subst;
    destruct Hr as (rel & [i Hi]%list_elem_of_lookup & Hid & _); rewrite (compiled_indexed i rel Hi) in Hid; subst;
    apply lookup_lt_Some in Hi; lia.
Qed.

Lemma compiled_positive_source : positive_source source = true → positive_model m = true.
Proof.
  intros Hpos. apply (compiled_positive limits climits source origins env Henv). intros td rs Htd Hrs.
  unfold positive_source in Hpos. rewrite forallb_elem in Hpos. specialize (Hpos td Htd). simpl in Hpos.
  rewrite forallb_elem in Hpos. by apply Hpos.
Qed.

End typed.
End compiled_models.

(** ** Properties *)

Import Declarations.

(** C1: a check over a compiled model answers for the declarations: in a source
    without exclusion, an answered check is allowed exactly when the rules of
    the declared rewrites, read by name over the stored and contextual tuples,
    give the subject the relation.  Symbols, shared nodes, reachability pruning,
    cycle cutting and the scheduler change nothing. *)
Theorem check_answers_declarations `{ConditionCompilerLaws, !ConditionEngineLaws}
    source limits climits m input budget meter ilimits w fuel stored out :
  model_limits_ok limits → compile source limits climits = Some (Ok m) → positive_source source = true →
  snapshot_reads (root_env input m budget ilimits) w stored →
  evaluate_root_inner input m budget meter ilimits w fuel = Ok out →
  out.(co_allowed) = true ↔
  declared source climits (rows_at (root_env input m budget ilimits) stored) input.(ri_condition_context)
    (HasRelation input.(ri_tuple).(tk_object) input.(ri_tuple).(tk_relation) input.(ri_tuple).(tk_subject)).
Proof.
  intros Hl Hc Hpos Hsnap Hout. destruct (compile_ok _ _ _ _ Hl Hc) as (origins & Hm).
  set (env := root_env input m budget ilimits) in *.
  assert (Henv : compiled limits climits source env.(env_model) origins) by exact Hm.
  pose proof (compiled_graph_laws limits climits source origins env Henv) as Hg.
  pose proof (compiled_positive_source _ _ _ _ _ Hm Hpos) as Hp.
  destruct (snapshot_decides _ _ _ _ _ _ _ _ _ Hsnap Hout) as (r & Hr & Hd).
  pose proof (decides_member env stored Hp _ _ Hd) as Hiff. simpl in Hiff. rewrite Hiff.
  apply (compiled_members limits climits source origins env stored Henv).
  unfold validate_query_tuple in Hr. apply result_bind_ok in Hr as (ty & _ & Hr).
  apply result_bind_ok in Hr as (r' & Hr'%map_err_ok & Hr). apply result_bind_ok in Hr as (_ & _ & [= <-]). done.
Qed.

Lemma check_answers_declarations_witness :
  true = true ↔
  declared source default_condition_limits
    (rows_at (root_env (input doc1 viewer (SubjObject bob)) model default_check_budget default_input_limits)
       (stored_in database))
    empty_condition_context (HasRelation doc1 viewer (SubjObject bob)).
Proof.
  exact (check_answers_declarations source default_model_limits default_condition_limits model
           (input doc1 viewer (SubjObject bob)) default_check_budget None default_input_limits (world database) 100
           (stored_in database) (mkCheckOutcome true RIntersection (mkCounters 8 3 4 0 0 1))
           limits_ok compiles ltac:(vm_compute; reflexivity) (stored_in_world database _ _ _)
           ltac:(vm_compute; reflexivity)).
Defined.

(** C14: compilation never runs into a bound of its loops.  It returns a model
    whose declarations pass every check, whose relations all have an entrypoint
    and none of which computes itself through computed relations; or it returns
    a report with at least one diagnostic. *)
Theorem compile_returns `{ConditionCompilerLaws} source limits climits :
  model_limits_ok limits →
  ∃ r, compile source limits climits = Some r ∧
    match r with
    | Ok m => declarations_ok limits source ∧
        (∀ r, r < length m.(model_relations) → entry m.(model_relations) m.(model_nodes) (PtRelation r)) ∧
        (∀ r, ¬ tc (computes m.(model_relations) m.(model_nodes)) r r)
    | Err report => model_errors report ≠ []
    end.
Proof.
  intros Hl. destruct (compile_spec limits climits Hl source) as (r & Hr & Ho). exists r. split; [done|].
  destruct r as [m|report]; [|done]. destruct Ho as (origins & Hm). split_and!.
  - apply (compiled_declarations _ _ _ _ _ Hm).
  - apply (compiled_entry _ _ _ _ _ Hm).
  - by eapply compiled_no_cycle.
Qed.

Lemma compile_returns_witness :
  ∃ r, compile source default_model_limits default_condition_limits = Some r ∧
    match r with
    | Ok m => declarations_ok default_model_limits source ∧
        (∀ r, r < length m.(model_relations) → entry m.(model_relations) m.(model_nodes) (PtRelation r)) ∧
        (∀ r, ¬ tc (computes m.(model_relations) m.(model_nodes)) r r)
    | Err report => model_errors report ≠ []
    end.
Proof. exact (compile_returns source default_model_limits default_condition_limits limits_ok). Defined.



(** A compiled model is well typed: every type, relation, node and condition
    identifier it stores indexes what it stands for, nodes only refer to earlier
    nodes, and the lookups by name are the inverses of the lookups by
    identifier. *)
Theorem compiled_model_typed `{ConditionCompilerLaws} source limits climits m :
  model_limits_ok limits → compile source limits climits = Some (Ok m) → TypedModel m.
Proof. intros Hl Hc. destruct (compile_ok _ _ _ _ Hl Hc) as (origins & Hm). by eapply compiled_typed. Qed.

Lemma compiled_model_typed_witness : TypedModel model.
Proof. exact (compiled_model_typed source default_model_limits default_condition_limits model limits_ok compiles). Defined.

(** C15: a tuple passes validation against a compiled model exactly when its
    relation is declared on its object's type, a restriction of that
    declaration allows its subject and condition, and its condition context is
    valid for the declared condition. *)
Theorem validation_matches_declarations `{ConditionCompilerLaws} source limits climits m t :
  model_limits_ok limits → compile source limits climits = Some (Ok m) →
  validate_relationship_tuple m t = Ok () ↔
  ∃ rs, declares source t.(rt_key).(tk_object).(object_type) t.(rt_key).(tk_relation) rs ∧
    permits rs t ∧ context_valid climits source t.
Proof.
  intros Hl Hc. destruct (compile_ok _ _ _ _ Hl Hc) as (origins & Hm).
  exact (validate_tuple_iff limits climits source origins (any_env m) (fun _ _ => []) Hm t).
Qed.

Lemma validation_matches_declarations_witness :
  validate_relationship_tuple model (tuple doc1 viewer (SubjWildcard user)) = Ok () ↔
  ∃ rs, declares source document viewer rs ∧ permits rs (tuple doc1 viewer (SubjWildcard user)) ∧
    context_valid default_condition_limits source (tuple doc1 viewer (SubjWildcard user)).
Proof.
  exact (validation_matches_declarations source default_model_limits default_condition_limits model
           (tuple doc1 viewer (SubjWildcard user)) limits_ok compiles).
Defined.

(** C16: recursion groups are exact: a relation of a compiled model is in a group
    exactly when it depends on itself, and two such relations share a group
    exactly when they depend on each other. *)
Theorem recursion_groups_exact `{ConditionCompilerLaws} source limits climits m r r' :
  model_limits_ok limits → compile source limits climits = Some (Ok m) →
  r < length m.(model_relations) → r' < length m.(model_relations) →
  let D := depends m.(model_relations) m.(model_nodes) in
  (recursion_group m r = None ↔ ¬ tc D r r) ∧
  (tc D r r → recursion_group m r = recursion_group m r' ↔ rtc D r r' ∧ rtc D r' r).
Proof.
  intros Hl Hc Hr Hr' D. destruct (compile_ok _ _ _ _ Hl Hc) as (origins & Hm).
  destruct (compiled_graph _ _ _ _ _ Hm) as (e & e' & Hg).
  destruct (built_groups m.(model_relations) m.(model_nodes) limits e e' m.(model_graph)) as [Hlen Hgroups]; try done.
  { by eapply compiled_indexed. }
  { by eapply compiled_depends. }
  { by eapply compiled_small. }
  destruct (Hgroups r Hr) as [Hnone Hsame]. unfold recursion_group.
  destruct (lookup_lt_is_Some_2 m.(model_graph).(graph_recursion_groups) r) as [g Eg]; [by rewrite Hlen|].
  destruct (lookup_lt_is_Some_2 m.(model_graph).(graph_recursion_groups) r') as [g' Eg']; [by rewrite Hlen|].
  fold D in Hnone, Hsame. specialize (Hsame r' Hr'). rewrite Eg in Hnone, Hsame |- *. rewrite Eg' in Hsame |- *. simpl. split.
  - rewrite <-Hnone. split; congruence.
  - intros Hcyc. rewrite <-(Hsame Hcyc). split; congruence.
Qed.

Lemma recursion_groups_exact_witness :
  (recursion_group model 0 = None ↔ ¬ tc (depends model.(model_relations) model.(model_nodes)) 0 0) ∧
  (tc (depends model.(model_relations) model.(model_nodes)) 0 0 →
   recursion_group model 0 = recursion_group model 2 ↔
   rtc (depends model.(model_relations) model.(model_nodes)) 0 2 ∧
   rtc (depends model.(model_relations) model.(model_nodes)) 2 0).
Proof.
  exact (recursion_groups_exact source default_model_limits default_condition_limits model 0 2 limits_ok compiles
           ltac:(vm_compute; lia) ltac:(vm_compute; lia)).
Defined.

(** Two relations that only mention each other. *)
Definition looped_relations : list CompiledRelation :=
  [mkCompiledRelation 0 0 (str "a") 0 []; mkCompiledRelation 1 0 (str "b") 1 []].
Definition looped_nodes : list RewriteNode := [NComputed 1; NComputed 0].


