(* ===== verification/CheckMemory.v ===== *)
(** * Checks over the in-memory backend

    The evaluator and the backend together: when the reads of a check are
    answered by the actor, the answer is the decision of the semantics over
    the tuples the actor stores. *)

From S2P Require Import Prelude Ordered Identifier Codecs Reference Grammar Condition Storage Memory.
From S2P Require Import MemoryTheory MemoryWrites MemoryActor MemoryTheorems Model ModelErrors Graph.
From S2P Require Import GraphTheory TupleValidation Budget Reducer Scheduler CheckSpec CheckSound.
From S2P Require Import SchedulerBounds Membership Fixture CheckTheorems.

Import Fixture Codecs.

(** Every read of the world goes through the handle to an actor turn that finds
    the state [s]; cancellation, deadlines and a closed channel may fail it. *)
Definition answered_by (s : MemoryState) (w : World) : Prop :=
  ∀ t store f maximum, ∃ d turn,
    w_read w t store f maximum = backend_read_object_relation d turn s store f (mkReadOptions maximum).

(** The tuples of a store on an object and relation. *)
Definition stored_tuples (s : MemoryState) (store : StoreId) (o : ObjectRef) (r : RelationName) :
    list RelationshipTuple :=
  filter (fun t => key_at o r t.(rt_key) = true) (tuple_table s store).

Section composition.
Context `{ConditionEngineLaws}.

Lemma dispatch_ok {T} d (answer : result StorageError T) x : dispatch d answer = Ok x → answer = Ok x.
Proof.
  unfold dispatch. intros ([] & _ & Hm)%result_bind_ok. repeat case_match; done.
Qed.

(** A complete read finds the stored tuples. *)
Lemma answered_rows s w t store f maximum stream rows x :
  tables_ok s → answered_by s w → w_read w t store f maximum = Ok stream → stream_items stream = Ok <$> rows →
  f.(orf_subjects) = [] → f.(orf_conditions) = CFAny →
  x ∈ rows ↔ x ∈ stored_tuples s store f.(orf_object) f.(orf_relation).
Proof.
  intros Hok Hw Hread Hrows Hsub Hcond. destruct (Hw t store f maximum) as (d & turn & E).
  rewrite Hread in E. unfold backend_read_object_relation in E. symmetry in E.
  destruct (dispatch d _) as [rows'|] eqn:Ed; [|done]. simpl in E. injection E as <-.
  rewrite from_tuples_items in Hrows. apply (inj (fmap Ok)) in Hrows as ->.
  apply dispatch_ok, result_bind_ok in Ed as ([] & _ & Ed). rewrite read_object_relation_spec in Ed by done.
  unfold bounded_rows in Ed. case_match; [|done]. injection Ed as <-. unfold stored_tuples.
  assert (Hall : object_relation_predicate f x = true)
    by (unfold object_relation_predicate, condition_matches; rewrite Hsub, Hcond; by destruct (rt_condition x)).
  by rewrite !list_elem_of_filter, Hall, andb_true_r.
Qed.

Lemma answered_snapshot s w env :
  tables_ok s → answered_by s w → snapshot_reads env w (stored_tuples s env.(env_model).(model_store_id)).
Proof. intros Hok Hw t f stream rows Hread Hrows Hsub Hcond x. by eapply answered_rows. Qed.

End composition.

(** C25: a check whose reads are answered by the in-memory actor in a reachable
    state decides the check semantics over exactly the tuples stored there,
    whatever the interleaving and whichever reads fail. *)
Theorem check_over_memory `{ConditionEngineLaws, WinnowLaws, UlidCodecLaws}
    storage_limits messages input m budget meter limits w fuel out :
  let s := fst (run_actor (memory_new storage_limits) messages) in
  answered_by s w →
  evaluate_root_inner input m budget meter limits w fuel = Ok out →
  ∃ r, validate_query_tuple m input.(ri_tuple) = Ok r ∧
    Decides (root_env input m budget limits) (stored_tuples s m.(model_store_id))
      (TSemantic (mkSemanticKey input.(ri_tuple).(tk_object) r input.(ri_tuple).(tk_subject)) [])
      (mkDecision out.(co_allowed) out.(co_resolution)).
Proof.
  intros s Hw Hout. eapply snapshot_decides; [|exact Hout].
  by apply (answered_snapshot s w (root_env input m budget limits)); [apply reachable_ok|].
Qed.

(** The deployment of the fixture, written to the actor. *)
Definition calm : MutationWorld := mkMutationWorld (fun _ => Ok ()) (fun _ => Ok ()) (Ok 1000000000%Z).
Definition writes : list ActorMessage :=
  [Operation (CmdWriteTuples 1 [] database (mkTupleWriteOptions OnConflictError OnConflictError)) (Ok ()) calm].

Definition memory_world (s : MemoryState) : World := {|
  w_cancelled := fun _ => false;
  w_now := fun _ => 0%N;
  w_poll := fun _ _ => false;
  w_select := fun _ => SelJoined 0;
  w_tasks := fun _ => [];
  w_read := fun _ store f maximum =>
    backend_read_object_relation (mkDispatchWorld (Ok ()) EvCompleted EvCompleted) (Ok ()) s store f
      (mkReadOptions maximum);
  w_charges := fun _ => [];
|}.

Lemma memory_world_answered s : answered_by s (memory_world s).
Proof. intros t store f maximum. by exists (mkDispatchWorld (Ok ()) EvCompleted EvCompleted), (Ok ()). Qed.

Definition deployed : MemoryState := fst (run_actor (memory_new default_input_limits) writes).

Lemma deployed_answer :
  evaluate_root_inner (input doc1 viewer (SubjObject bob)) model default_check_budget None default_input_limits
    (memory_world deployed) 100 = Ok (mkCheckOutcome true RIntersection (mkCounters 8 3 4 0 0 1)).
Proof. vm_compute. reflexivity. Qed.

Lemma check_over_memory_witness :
  ∃ r, validate_query_tuple model (mkTupleKey doc1 viewer (SubjObject bob)) = Ok r ∧
    Decides (root_env (input doc1 viewer (SubjObject bob)) model default_check_budget default_input_limits)
      (stored_tuples (fst (run_actor (memory_new default_input_limits) writes)) 1)
      (TSemantic (mkSemanticKey doc1 r (SubjObject bob)) []) (mkDecision true RIntersection).
Proof.
  exact (check_over_memory default_input_limits writes (input doc1 viewer (SubjObject bob)) model
           default_check_budget None default_input_limits (memory_world deployed) 100
           (mkCheckOutcome true RIntersection (mkCounters 8 3 4 0 0 1))
           (memory_world_answered deployed) deployed_answer).
Defined.
