(* ===== verification/Evaluator.v ===== *)
(** * Query commands

    [crates/openfga-domain/src/command.rs]: the validated inputs of the query
    engines.  A [Duration] and an [Instant] are numbers of nanoseconds, an
    [Instant] at most [INSTANT_MAX]; the continuation of a list control is read
    by no engine and is not part of the record. *)

From S2P Require Import Prelude Ordered Identifier Reference Condition Storage Model TupleValidation Budget.
From S2P Require Import Reducer Scheduler CheckSpec CheckSound SchedulerBounds CheckTheorems.

(** ** Callers and deadlines *)

Inductive PrincipalKind := OpenIdConnect | PresharedKey | Development | InternalActor.

Record Principal := mkPrincipal { principal_kind : PrincipalKind; principal_id : rstr }.

Definition MAXIMUM_REQUEST_TIMEOUT : N := 300000000000.

(** [RequestTimeout::new] *)
Definition request_timeout_new (duration : N) : result ValidationError N :=
  if (duration =? 0)%N || (MAXIMUM_REQUEST_TIMEOUT <? duration)%N then
    Err (mkValidationError "request_timeout" VROutOfRange)
  else Ok duration.

(** [Deadline::from_timeout] with [Instant::checked_add]. *)
Definition deadline_from_timeout (INSTANT_MAX now timeout : N) : result ValidationError N :=
  ok_or (checked_add INSTANT_MAX now timeout) (mkValidationError "request_deadline" VROutOfRange).

(** ** Queries *)

Record QueryContext := mkQueryContext {
  qc_store_id : StoreId;
  qc_model_selection : ModelSelection;
  qc_consistency : ConsistencyPreference;
  qc_contextual_tuples : list RelationshipTuple;
  qc_condition_context : ConditionContext;
  qc_deadline : N;
  qc_principal : Principal;
}.

Record CheckCommand := mkCheckCommand { cc_query : QueryContext; cc_tuple : TupleKey }.

Record BatchCheckItem := mkBatchCheckItem {
  bi_correlation_id : rstr;
  bi_tuple : TupleKey;
  bi_contextual_tuples : list RelationshipTuple;
  bi_condition_context : ConditionContext;
}.

(** [ids.insert] fails for some element: the elements are not distinct. *)
Fixpoint any_repeated `{Ord A} (seen : BTreeSet A) (l : list A) : bool :=
  match l with
  | [] => false
  | x :: l => if bs_contains x seen then true else any_repeated (bs_insert x seen) l
  end.

(** [BatchCheckItems::new] *)
Definition batch_check_items_new (items : list BatchCheckItem) (limits : InputLimits) :
    result ValidationError (list BatchCheckItem) :=
  match items with
  | [] => Err (mkValidationError "batch_checks" VRMissing)
  | _ =>
      if (limits.(batch_items) <? len items)%N then
        Err (mkValidationError "batch_checks" VRTooManyItems)
      else if any_repeated [] (bi_correlation_id <$> items) then
        Err (mkValidationError "batch_checks" VRDuplicate)
      else Ok items
  end.

Record BatchCheckCommand := mkBatchCheckCommand { bc_query : QueryContext; bc_items : list BatchCheckItem }.

(** [ListControl::new]; [maximum_results] is a [NonZeroU32]. *)
Definition list_control_new (maximum_results : N) (limits : InputLimits) : result ValidationError N :=
  if (limits.(results_limit) <? maximum_results)%N then
    Err (mkValidationError "maximum_results" VROutOfRange)
  else Ok maximum_results.

Record ListObjectsCommand := mkListObjectsCommand {
  loc_query : QueryContext;
  loc_object_type : TypeName;
  loc_relation : RelationName;
  loc_subject : SubjectRef;
  loc_maximum_results : N;
}.

Record UserTypeFilter := mkUserTypeFilter {
  uf_user_type : TypeName;
  uf_relation : option RelationName;
}.

(** [Option] orders [None] first. *)
Definition user_filter_key (f : UserTypeFilter) : rstr * (nat + rstr) :=
  (f.(uf_user_type), match f.(uf_relation) with None => inl 0 | Some r => inr r end).
#[export] Instance user_filter_key_inj : Inj (=) (=) user_filter_key.
Proof. intros [t [r|]] [t' [r'|]]; unfold user_filter_key; simpl; intros; by simplify_eq. Qed.
#[export] Instance ord_UserTypeFilter : Ord UserTypeFilter := ord_via user_filter_key.
#[export] Instance ord_laws_UserTypeFilter : OrdLaws UserTypeFilter := ord_laws_via user_filter_key.

(** [UserTypeFilters::new] *)
Definition user_type_filters_new (filters : list UserTypeFilter) (limits : InputLimits) :
    result ValidationError (list UserTypeFilter) :=
  match filters with
  | [] => Err (mkValidationError "user_filters" VRMissing)
  | _ =>
      if (limits.(user_filters) <? len filters)%N then
        Err (mkValidationError "user_filters" VRTooManyItems)
      else if negb (length (bs_collect filters) =? length filters) then
        Err (mkValidationError "user_filters" VRDuplicate)
      else Ok filters
  end.

Record ListUsersCommand := mkListUsersCommand {
  luc_query : QueryContext;
  luc_object : ObjectRef;
  luc_relation : RelationName;
  luc_filters : list UserTypeFilter;
  luc_maximum_results : N;
}.

Record ExpandCommand := mkExpandCommand {
  exc_query : QueryContext;
  exc_object : ObjectRef;
  exc_relation : RelationName;
}.

(** ** The check evaluator behind the query engines

    [CheckEvaluator] and [DirectCheckEvaluator::check] of
    [crates/openfga-check/src/evaluator.rs]: a class of evaluators with what
    they promise (an answer is the decision of the check semantics over the
    snapshot the reads return), and the direct evaluator as its instance. *)

(** ** The interface *)

Section interface.
Context `{ConditionEngine}.

(** The meaning of a query does not depend on budgets, limits or deadlines. *)
Definition query_env (q : QueryContext) (m : CompiledModel) : CheckEnv :=
  mkCheckEnv m default_check_budget default_input_limits (mkOperationContext q.(qc_consistency) q.(qc_deadline))
    (contextual_index_new q.(qc_contextual_tuples) None) q.(qc_condition_context)
    (N.min default_check_budget.(maximum_tuple_items) 100000).

(** The stored tuples of one object and relation. *)
Definition table_rows (table : list RelationshipTuple) (o : ObjectRef) (r : RelationName) : list RelationshipTuple :=
  filter (fun t => t.(rt_key).(tk_object) = o ∧ t.(rt_key).(tk_relation) = r) table.

(** Every complete read of a relation of an object returns the matching tuples
    of the table, in some order. *)
Definition forward_snapshot (read : nat → StoreId → ObjectRelationFilter → N → result StorageError TupleStream)
    (store : StoreId) (table : list RelationshipTuple) : Prop :=
  ∀ tk f maximum stream rows,
    read tk store f maximum = Ok stream → stream_items stream = Ok <$> rows →
    f.(orf_subjects) = [] → f.(orf_conditions) = CFAny →
    ∀ t, t ∈ rows ↔ t ∈ table_rows table f.(orf_object) f.(orf_relation).

Class CheckEvaluator := {
  evaluator_check : CheckCommand → CompiledModel → CheckBudget → option CheckWorkMeter → World →
    result Fault CheckOutcome;
}.

(** The decision of the semantics about the question of a command. *)
Definition command_decides (c : CheckCommand) (m : CompiledModel) (table : list RelationshipTuple) (d : Decision) : Prop :=
  ∃ r, validate_query_tuple m c.(cc_tuple) = Ok r ∧
    Decides (query_env c.(cc_query) m) (table_rows table)
      (TSemantic (mkSemanticKey c.(cc_tuple).(tk_object) r c.(cc_tuple).(tk_subject)) []) d.

Class CheckEvaluatorLaws `{!CheckEvaluator} : Prop := {
  evaluator_decides c m budget meter w table out :
    forward_snapshot (w_read w) m.(model_store_id) table →
    evaluator_check c m budget meter w = Ok out →
    command_decides c m table (mkDecision out.(co_allowed) out.(co_resolution));
  evaluator_ends c m budget meter w :
    check_budget_ok budget → (∀ x, meter = Some x → meter_ok x) →
    evaluator_check c m budget meter w ≠ Err OutOfFuel;
}.

End interface.

(** ** The contextual index *)

Section index.

Lemma insert_all_get (l : list RelationshipTuple) : ∀ (acc : BTreeMap TupleKey RelationshipTuple) k t,
  NoDup (rt_key <$> l) →
  bt_get k (foldl (fun m t => bt_insert t.(rt_key) t m) acc l) = Some t ↔
  (t ∈ l ∧ t.(rt_key) = k) ∨ ((k ∉ rt_key <$> l) ∧ bt_get k acc = Some t).
Proof.
  induction l as [|x l IH]; intros acc k t Hnd; cbn [foldl].
  - split; [intros; right; split; [apply not_elem_of_nil|done]|]. by intros [[[]%elem_of_nil _]|[_ ?]].
  - rewrite fmap_cons in *. apply NoDup_cons in Hnd as [Hx Hnd]. rewrite IH by done.
    rewrite !elem_of_cons. destruct (decide (k = rt_key x)) as [->|Hne].
    + rewrite bt_get_insert_eq. split.
      * intros [[? E]|[_ [= <-]]]; [|by auto]. exfalso. apply Hx. rewrite <-E. by apply list_elem_of_fmap_2.
      * intros [[[->|?] E]|[Hn _]]; [by auto| |tauto]. exfalso. apply Hx. rewrite <-E. by apply list_elem_of_fmap_2.
    + rewrite bt_get_insert_ne by done. split.
      * intros [[? E]|[? ?]]; [by auto|]. right. split; [|done]. intros [?|?]; auto.
      * intros [[[->|?] E]|[Hn ?]]; [done|by auto|]. right. split; [|done]. tauto.
Qed.

Lemma insert_all_sorted (l : list RelationshipTuple) : ∀ acc : BTreeMap TupleKey RelationshipTuple,
  bt_sorted acc → bt_sorted (foldl (fun m t => bt_insert t.(rt_key) t m) acc l).
Proof. induction l; intros acc Hs; simpl; [done|]. by apply IHl, bt_sorted_insert. Qed.

Lemma index_push_all l : ∀ index o r,
  index_get (foldl index_push index l) o r = index_get index o r ++ table_rows l o r.
Proof.
  induction l as [|t l IH]; intros index o r; cbn [foldl]; [by rewrite app_nil_r|].
  rewrite IH. unfold table_rows. rewrite filter_cons. unfold index_get at 1. unfold index_push.
  destruct (decide ((o, r) = (t.(rt_key).(tk_object), t.(rt_key).(tk_relation)))) as [E|Hne].
  - rewrite E, bt_get_insert_eq. simplify_eq. rewrite decide_True by done. simpl. by rewrite <-app_assoc.
  - rewrite bt_get_insert_ne by done. rewrite decide_False; [done|]. intros [<- <-]. done.
Qed.

(** The tuples of an index: those of the overlay, and those of the base with
    other keys. *)
Lemma contextual_index_rows base overlay o r t :
  NoDup (rt_key <$> base) → NoDup (rt_key <$> default [] overlay) →
  t ∈ index_get (contextual_index_new base overlay) o r ↔
  (t ∈ default [] overlay ∨ t ∈ base ∧ (t.(rt_key) ∉ rt_key <$> default [] overlay)) ∧
  t.(rt_key).(tk_object) = o ∧ t.(rt_key).(tk_relation) = r.
Proof.
  intros Hb Ho. unfold contextual_index_new.
  set (ins := foldl (fun (m : BTreeMap TupleKey RelationshipTuple) t => bt_insert t.(rt_key) t m)).
  set (m := match overlay with Some l => ins (ins [] base) l | None => ins [] base end).
  assert (Hm : m = ins (ins [] base) (default [] overlay)) by (by destruct overlay).
  assert (Hs : bt_sorted m) by (rewrite Hm; apply insert_all_sorted, insert_all_sorted, bt_sorted_nil).
  rewrite index_push_all. unfold index_get at 1. simpl. unfold table_rows. rewrite list_elem_of_filter.
  rewrite (and_comm (_ ∧ _)). apply and_iff_compat_r. unfold bt_values. split.
  - intros ([k t'] & -> & Hin)%list_elem_of_fmap. simpl. apply (bt_sorted_elem_get _ _ _ Hs) in Hin.
    rewrite Hm in Hin. apply (insert_all_get _ _ _ _ Ho) in Hin as [[? _]|[Hk Hin]]; [by left|].
    apply (insert_all_get _ _ _ _ Hb) in Hin as [[? <-]|[_ ?]]; [|done]. by right.
  - intros Ht. apply list_elem_of_fmap. exists (t.(rt_key), t). split; [done|]. apply bt_get_elem. rewrite Hm.
    apply insert_all_get; [done|]. destruct Ht as [Ht|[Ht Hk]]; [by left|right]. split; [done|].
    apply insert_all_get; [done|]. by left.
Qed.

End index.

(** ** The direct evaluator *)

Section direct.
Context `{ConditionEngine}.
Variable limits : InputLimits.

(** The root of a check command. *)
Definition command_input (c : CheckCommand) : RootInput :=
  let q := c.(cc_query) in
  mkRootInput q.(qc_store_id) q.(qc_model_selection) q.(qc_consistency) q.(qc_deadline) c.(cc_tuple)
    (contextual_index_new q.(qc_contextual_tuples) None) q.(qc_condition_context).

(** [evaluate_root]; the recorded outcome is telemetry.  The rounds are enough
    for every budget. *)
Definition evaluate_root (input : RootInput) (m : CompiledModel) (budget : CheckBudget)
    (meter : option CheckWorkMeter) (w : World) : result Fault CheckOutcome :=
  evaluate_root_inner input m budget meter limits w (3 * N.to_nat budget.(maximum_dispatches) + 1).

Definition map_fault (f : CheckError → CheckError) (e : Fault) : Fault :=
  match e with Fail e => Fail (f e) | OutOfFuel => OutOfFuel end.

(** [DirectCheckEvaluator::check] *)
Definition direct_check (c : CheckCommand) (m : CompiledModel) (budget : CheckBudget)
    (meter : option CheckWorkMeter) (w : World) : result Fault CheckOutcome :=
  map_err (map_fault canonicalize_check_control_error) (evaluate_root (command_input c) m budget meter w).

#[export] Instance direct_evaluator : CheckEvaluator := {| evaluator_check := direct_check |}.

End direct.

Section laws.
Context `{ConditionEngineLaws}.
Variable limits : InputLimits.

Lemma snapshot_root input m budget w table :
  forward_snapshot (w_read w) m.(model_store_id) table →
  snapshot_reads (root_env input m budget limits) w (table_rows table).
Proof. intros Hs t f stream rows Hread. by eapply Hs. Qed.

#[export] Instance direct_evaluator_laws : @CheckEvaluatorLaws _ (direct_evaluator limits).
Proof.
  split.
  - intros c m budget meter w table out Hs Hc%map_err_ok.
    destruct (snapshot_decides (command_input c) m budget meter limits w _ _ out (snapshot_root _ _ _ _ _ Hs) Hc)
      as (r & Hr & Hd). exists r. split; [done|]. by eapply Decides_env, Hd.
  - intros c m budget meter w Hb Hm Hc. simpl in Hc. unfold direct_check, evaluate_root in Hc.
    destruct (root_ends (command_input c) m budget meter limits w _ Hb Hm (le_n _)) as [Hne _].
    destruct (evaluate_root_inner _ _ _ _ _ _ _) as [|[e|]]; simpl in Hc; by simplify_eq.
Qed.

End laws.
