(* ===== verification/Batch.v ===== *)
(** * Batch checks

    [DirectCheckEvaluator::batch_check], [prepare_batch], [run_batch] and
    [collect_batch_result] of [crates/openfga-check/src/evaluator.rs].  The
    items of a batch run as tasks of their own; which task is joined next, when
    the caller cancels and when the deadline passes is what a [BatchWorld] says,
    and it gives the evaluation of each item a world of its own. *)

From S2P Require Import Prelude Ordered Identifier Reference Scalars Context Condition Storage Model.
From S2P Require Import TupleValidation Budget Reducer Scheduler CheckSpec CheckSound SchedulerBounds Fixture.
From S2P Require Import CheckTheorems Evaluator.

Record BatchCheckResult := mkBatchCheckResult {
  br_correlation_id : CorrelationId;
  br_outcome : result CheckError CheckOutcome;
}.

Record BatchJob := mkBatchJob {
  bj_index : nat;
  bj_correlation_id : CorrelationId;
  bj_input : RootInput;
}.

Record PreparedBatch := mkPreparedBatch {
  pb_jobs : list BatchJob;
  pb_results : list (option BatchCheckResult);
}.

(** What one round waits for: [select!] in its order, and which task joins. *)
Inductive BatchEvent := BatchCancelled | BatchDeadline | BatchJoined (which : nat) | BatchPanicked (which : nat).

Record BatchWorld := mkBatchWorld {
  bw_select : nat → BatchEvent;
  bw_item : nat → World;
}.

Section batch.
Context `{ConditionEngine}.
Variable limits : InputLimits.

(** The root of one item over its merged condition context. *)
Definition item_input (q : QueryContext) (item : BatchCheckItem) (context : ConditionContext) : RootInput :=
  mkRootInput q.(qc_store_id) q.(qc_model_selection) q.(qc_consistency) q.(qc_deadline) item.(bi_tuple)
    (contextual_index_new q.(qc_contextual_tuples) (Some item.(bi_contextual_tuples))) context.

Definition invalid_context_result (item : BatchCheckItem) : BatchCheckResult :=
  mkBatchCheckResult item.(bi_correlation_id) (Err (check_error KInvalidTuple "batch_condition_context_invalid")).

(** One item: a job, or the result that rejects its context. *)
Definition prepare_item (q : QueryContext) (index : nat) (item : BatchCheckItem) (p : PreparedBatch) :
    result CheckError PreparedBatch :=
  match context_overlay q.(qc_condition_context) item.(bi_condition_context) limits with
  | Err _ =>
      if index <? length p.(pb_results) then
        Ok (mkPreparedBatch p.(pb_jobs) (<[index := Some (invalid_context_result item)]> p.(pb_results)))
      else Err (internal "batch_result_index_invalid")
  | Ok context =>
      Ok (mkPreparedBatch
            (p.(pb_jobs) ++ [mkBatchJob index item.(bi_correlation_id) (item_input q item context)])
            p.(pb_results))
  end.

Definition prepare_batch (command : BatchCheckCommand) (m : CompiledModel) : result CheckError PreparedBatch :=
  let q := command.(bc_query) in
  _ ← validate_model_identity q.(qc_store_id) q.(qc_model_selection) m;
  try_fold (fun '(index, item) => prepare_item q index item) (imap pair command.(bc_items))
    (mkPreparedBatch [] (replicate (length command.(bc_items)) None)).

(** The spawning loop: jobs move to the task set while it has room. *)
Fixpoint spawn_jobs (concurrency : N) (jobs pending : list BatchJob) : list BatchJob * list BatchJob :=
  match jobs with
  | [] => ([], pending)
  | job :: jobs' =>
      if (len pending <? concurrency)%N then spawn_jobs concurrency jobs' (pending ++ [job])
      else (jobs, pending)
  end.

(** The task of one job; running out of rounds is a fault of the whole batch. *)
Definition run_job (m : CompiledModel) (budget : CheckBudget) (w : BatchWorld) (job : BatchJob) :
    result Fault BatchCheckResult :=
  match evaluate_root limits job.(bj_input) m budget None (w.(bw_item) job.(bj_index)) with
  | Ok out => Ok (mkBatchCheckResult job.(bj_correlation_id) (Ok out))
  | Err (Fail e) => Ok (mkBatchCheckResult job.(bj_correlation_id) (Err e))
  | Err OutOfFuel => Err OutOfFuel
  end.

(** [collect_batch_result]: one select over the pending tasks. *)
Definition collect_batch_result (m : CompiledModel) (budget : CheckBudget) (w : BatchWorld) (tick : nat)
    (pending : list BatchJob) (results : list (option BatchCheckResult)) :
    result Fault (list BatchJob * list (option BatchCheckResult)) :=
  match pending with
  | [] => Ok ([], results)
  | _ =>
      match w.(bw_select) tick with
      | BatchCancelled => Err (Fail (cancelled "batch_cancelled"))
      | BatchDeadline => Err (Fail (timed_out "batch_deadline_elapsed"))
      | BatchPanicked _ => Err (Fail (internal "batch_item_task_failed"))
      | BatchJoined which =>
          let k := which mod length pending in
          match pending !! k with
          | None => Ok (pending, results)
          | Some job =>
              r ← run_job m budget w job;
              if job.(bj_index) <? length results then
                Ok (delete k pending, <[job.(bj_index) := Some r]> results)
              else Err (Fail (internal "batch_result_index_invalid"))
          end
      end
  end.

Fixpoint batch_loop (m : CompiledModel) (budget : CheckBudget) (w : BatchWorld) (fuel tick : nat)
    (jobs pending : list BatchJob) (results : list (option BatchCheckResult)) :
    result Fault (list (option BatchCheckResult)) :=
  match jobs, pending with
  | [], [] => Ok results
  | _, _ =>
      match fuel with
      | O => Err OutOfFuel
      | S fuel =>
          let '(jobs, pending) := spawn_jobs budget.(maximum_batch_concurrency) jobs pending in
          '(pending, results) ← collect_batch_result m budget w tick pending results;
          batch_loop m budget w fuel (S tick) jobs pending results
      end
  end.

Definition run_batch (prepared : PreparedBatch) (m : CompiledModel) (budget : CheckBudget) (w : BatchWorld) :
    result Fault (list BatchCheckResult) :=
  results ← batch_loop m budget w (length prepared.(pb_jobs)) 0 prepared.(pb_jobs) [] prepared.(pb_results);
  try_collect (fun r => ok_or r (Fail (internal "batch_result_missing"))) results.

(** [DirectCheckEvaluator::batch_check] *)
Definition batch_check (command : BatchCheckCommand) (m : CompiledModel) (budget : CheckBudget) (w : BatchWorld) :
    result Fault (list BatchCheckResult) :=
  prepared ← map_err Fail (prepare_batch command m);
  run_batch prepared m budget w.

(** ** One item at a time *)

(** The result of an item evaluated alone, in the world of its task. *)
Definition item_result (q : QueryContext) (m : CompiledModel) (budget : CheckBudget) (w : BatchWorld)
    (index : nat) (item : BatchCheckItem) : result Fault BatchCheckResult :=
  match context_overlay q.(qc_condition_context) item.(bi_condition_context) limits with
  | Err _ => Ok (invalid_context_result item)
  | Ok context => run_job m budget w (mkBatchJob index item.(bi_correlation_id) (item_input q item context))
  end.

End batch.

Section theory.
Context `{ConditionEngineLaws}.
Variables (limits : InputLimits) (q : QueryContext) (items : list BatchCheckItem).
Variables (m : CompiledModel) (budget : CheckBudget) (w : BatchWorld).

Definition job_of (index : nat) (item : BatchCheckItem) (context : ConditionContext) : BatchJob :=
  mkBatchJob index item.(bi_correlation_id) (item_input q item context).

(** The state of a batch after its first [k] items are prepared: every one of
    them has its own result or exactly one job that is still to be joined. *)
Record batch_inv (k : nat) (jobs : list BatchJob) (results : list (option BatchCheckResult)) : Prop := {
  bi_length : length results = length items;
  bi_unique : NoDup (bj_index <$> jobs);
  bi_job : ∀ job, job ∈ jobs → job.(bj_index) < k ∧ results !! job.(bj_index) = Some None ∧
    ∃ item context, items !! job.(bj_index) = Some item ∧
      context_overlay q.(qc_condition_context) item.(bi_condition_context) limits = Ok context ∧
      job = job_of job.(bj_index) item context;
  bi_done : ∀ i item, i < k → items !! i = Some item → i ∉ bj_index <$> jobs →
    ∃ r, results !! i = Some (Some r) ∧ item_result limits q m budget w i item = Ok r;
  bi_rest : ∀ i, k ≤ i → i < length items → results !! i = Some None;
}.

(** The order of the jobs does not matter. *)
#[global] Instance batch_inv_perm k : Proper ((≡ₚ) ==> (=) ==> impl) (batch_inv k).
Proof.
  intros jobs jobs' Hp results ? <- [Hl Hu Hj Hd Hr].
  split; [done|by rewrite <-Hp|by setoid_rewrite <-Hp|by setoid_rewrite <-Hp|done].
Qed.

Lemma batch_inv_new : batch_inv 0 [] (replicate (length items) None).
Proof.
  split; [by rewrite length_replicate|constructor|by intros ? ?%elem_of_nil|lia|].
  intros i _ Hi. by apply lookup_replicate_2.
Qed.

(** Preparing one more item. *)
Lemma prepare_item_ok k item p :
  items !! k = Some item → batch_inv k p.(pb_jobs) p.(pb_results) →
  ∃ p', prepare_item limits q k item p = Ok p' ∧ batch_inv (S k) p'.(pb_jobs) p'.(pb_results).
Proof.
  intros Hk [Hl Hu Hj Hd Hr]. pose proof (lookup_lt_Some _ _ _ Hk) as Hlt.
  assert (Hfresh : k ∉ bj_index <$> p.(pb_jobs)).
  { intros (job & -> & Hin)%list_elem_of_fmap. destruct (Hj _ Hin). lia. }
  unfold prepare_item. destruct (context_overlay _ _ _) as [context|e] eqn:E.
  - eexists. split; [done|]. split; simpl; [done| | | |].
    + rewrite fmap_app, NoDup_app. split_and!; [done| |apply NoDup_singleton].
      simpl. by intros x Hx ->%list_elem_of_singleton.
    + intros job [Hin| ->%list_elem_of_singleton]%elem_of_app; [destruct (Hj _ Hin) as (? & ? & ?); eauto with lia|].
      simpl. split_and!; [lia|apply Hr; lia|]. by exists item, context.
    + intros i it Hi Hit Hn. rewrite fmap_app, elem_of_app in Hn. apply Hd; [|done|tauto].
      destruct (decide (i = k)) as [->|]; [|lia]. destruct Hn. right. simpl. by left.
    + intros i Hi. apply Hr. lia.
  - rewrite Hl, (proj2 (Nat.ltb_lt _ _) Hlt). eexists. split; [done|]. split; simpl; [by rewrite length_insert|done| | |].
    + intros job Hin. destruct (Hj _ Hin) as (Hlt' & Hnone & Hx). split_and!; [lia| |done].
      by rewrite list_lookup_insert_ne by lia.
    + intros i it Hi Hit Hn. destruct (decide (i = k)) as [->|]; [|rewrite list_lookup_insert_ne by lia; apply Hd; [lia|done..]].
      exists (invalid_context_result item). rewrite list_lookup_insert_eq by lia. split; [done|].
      simplify_eq. unfold item_result. by rewrite E.
    + intros i Hi Hn. rewrite list_lookup_insert_ne by lia. apply Hr; lia.
Qed.

Lemma prepare_items_ok (l : list BatchCheckItem) : ∀ k p,
  drop k items = l → batch_inv k p.(pb_jobs) p.(pb_results) →
  ∃ p', try_fold (fun '(index, item) => prepare_item limits q index item) (imap (fun i x => (k + i, x)) l) p = Ok p' ∧
    batch_inv (length items) p'.(pb_jobs) p'.(pb_results).
Proof.
  induction l as [|item l IH]; intros k p Hdrop Hp.
  - apply (f_equal length) in Hdrop as Hlen. rewrite length_drop in Hlen. simpl in Hlen.
    exists p. split; [done|]. destruct Hp as [Hl Hu Hj Hd Hr]. split; [done|done| | |lia].
    + intros job Hin. destruct (Hj _ Hin) as (Hlt & Hnone & item & context & Hit & Hx).
      split_and!; [by eapply lookup_lt_Some|done|by eauto].
    + intros i item Hi. apply Hd. lia.
  - assert (Hk : items !! k = Some item) by (rewrite <-(Nat.add_0_r k), <-lookup_drop, Hdrop; done).
    destruct (prepare_item_ok k item p Hk Hp) as (p1 & E1 & Hp1). simpl. rewrite Nat.add_0_r, E1. simpl.
    destruct (IH (S k) p1) as (p' & E' & Hp'); [by rewrite <-(Nat.add_1_r k), <-drop_drop, Hdrop|done|].
    exists p'. split; [|done]. rewrite <-E'. f_equal. apply imap_ext. intros i x _. simpl. f_equal. lia.
Qed.

Lemma spawn_jobs_perm concurrency jobs : ∀ pending jobs' pending',
  spawn_jobs concurrency jobs pending = (jobs', pending') →
  jobs' ++ pending' ≡ₚ jobs ++ pending ∧
  ((0 < concurrency)%N → jobs ++ pending ≠ [] → pending' ≠ []).
Proof.
  induction jobs as [|job jobs IH]; intros pending jobs' pending' E; simpl in E; [by simplify_eq|].
  destruct (N.ltb_spec (len pending) concurrency) as [Hlt|Hge].
  - apply IH in E as [Hp Hne]. split; [rewrite Hp; solve_Permutation|]. intros Hc _. apply Hne; [done|].
    intros [_ ?]%app_nil. by destruct pending.
  - simplify_eq. split; [done|]. intros Hc _ ->. unfold len in Hge. simpl in Hge. lia.
Qed.

(** Joining a task moves its job to its result. *)
Lemma join_job jobs pending results k job r :
  batch_inv (length items) (jobs ++ pending) results → pending !! k = Some job →
  run_job limits m budget w job = Ok r →
  job.(bj_index) < length results ∧
  batch_inv (length items) (jobs ++ delete k pending) (<[job.(bj_index) := Some r]> results).
Proof.
  intros Hinv Hk Hr. rewrite (delete_Permutation _ _ _ Hk), <-Permutation_middle in Hinv.
  destruct Hinv as [Hl Hu Hj Hd Hrest]. rewrite fmap_cons, NoDup_cons in Hu. destruct Hu as [Hn Hu].
  destruct (Hj job) as (Hlt & _ & item & context & Hit & Hc & Hjob); [by left|].
  split; [lia|]. split; [by rewrite length_insert|done| | |lia].
  - intros job' Hin. destruct (Hj job') as (Hlt' & Hnone & Hx); [by right|]. split_and!; [done| |done].
    rewrite list_lookup_insert_ne; [done|]. intros Heq. apply Hn. rewrite Heq. by apply list_elem_of_fmap_2.
  - intros i it Hi Hit' Hni. destruct (decide (i = job.(bj_index))) as [->|Hne].
    + exists r. rewrite list_lookup_insert_eq by lia. split; [done|].
      assert (it = item) as -> by congruence. unfold item_result. rewrite Hc. fold (job_of (bj_index job) item context). by rewrite <-Hjob.
    + rewrite list_lookup_insert_ne by done. apply Hd; [done..|]. rewrite fmap_cons, elem_of_cons. naive_solver.
Qed.

Lemma collect_inv tick jobs pending results pending' results' :
  batch_inv (length items) (jobs ++ pending) results →
  collect_batch_result limits m budget w tick pending results = Ok (pending', results') →
  batch_inv (length items) (jobs ++ pending') results' ∧
  (pending ≠ [] → length pending = S (length pending')).
Proof.
  intros Hinv. unfold collect_batch_result. destruct pending as [|job0 rest] eqn:Ep; [by intros [= <- <-]|].
  rewrite <-Ep in *. assert (Hne : length pending ≠ 0) by (rewrite Ep; simpl; lia). clear Ep.
  destruct (bw_select _ _); [done|done| |done].
  destruct (lookup_lt_is_Some_2 pending (which mod length pending)) as [job Hk]; [by apply Nat.mod_upper_bound|].
  rewrite Hk. intros (r & Hr & E)%result_bind_ok.
  destruct (join_job _ _ _ _ _ _ Hinv Hk Hr) as [Hlt Hinv']. rewrite (proj2 (Nat.ltb_lt _ _) Hlt) in E.
  simplify_eq. split; [done|]. intros _. rewrite length_delete by done. lia.
Qed.

Lemma batch_loop_inv fuel : ∀ tick jobs pending results results',
  batch_inv (length items) (jobs ++ pending) results →
  batch_loop limits m budget w fuel tick jobs pending results = Ok results' →
  batch_inv (length items) [] results'.
Proof.
  induction fuel as [|fuel IH]; intros tick jobs pending results results' Hinv E;
    (destruct jobs, pending; [by simplify_eq/=|..]); try done.
  all: cbn [batch_loop] in E; destruct (spawn_jobs _ _ _) as [jobs1 pending1] eqn:Es;
    apply spawn_jobs_perm in Es as [Hp _]; rewrite <-Hp in Hinv;
    apply result_bind_ok in E as ([pending2 results2] & Ec & E); eapply IH, E; by eapply collect_inv.
Qed.

(** The results of a prepared batch are those of its items, one at a time. *)
Lemma run_batch_items prepared results :
  batch_inv (length items) prepared.(pb_jobs) prepared.(pb_results) →
  run_batch limits prepared m budget w = Ok results →
  length results = length items ∧
  ∀ i item, items !! i = Some item →
    ∃ r, results !! i = Some r ∧ item_result limits q m budget w i item = Ok r.
Proof.
  intros Hinv (slots & El & E)%result_bind_ok. apply batch_loop_inv in El; [|by rewrite app_nil_r].
  rewrite try_collect_ok in E. apply Forall2_length in E as Hlen. rewrite (bi_length _ _ _ El) in Hlen.
  split; [done|]. intros i item Hi.
  destruct (bi_done _ _ _ El i item) as (r & Hr & Hitem); [by eapply lookup_lt_Some|done|apply not_elem_of_nil|].
  destruct (Forall2_lookup_l _ _ _ _ _ E Hr) as (r' & Hr' & Heq). apply ok_or_ok in Heq as [= ->]. by exists r'.
Qed.

(** A job never runs out of rounds. *)
Lemma run_job_ends job : check_budget_ok budget → run_job limits m budget w job ≠ Err OutOfFuel.
Proof.
  intros Hb. unfold run_job, evaluate_root.
  destruct (root_ends job.(bj_input) m budget None limits (bw_item w (bj_index job)) _ Hb ltac:(done) (le_n _)) as [Hne _].
  by destruct (evaluate_root_inner _ _ _ _ _ _ _) as [|[|]].
Qed.

Lemma collect_ends tick jobs pending results :
  check_budget_ok budget → batch_inv (length items) (jobs ++ pending) results →
  collect_batch_result limits m budget w tick pending results ≠ Err OutOfFuel ∧
  ((∃ which, bw_select w tick = BatchJoined which) →
   is_ok (collect_batch_result limits m budget w tick pending results) = true).
Proof.
  intros Hb Hinv. unfold collect_batch_result. destruct pending as [|job0 rest] eqn:Ep; [done|].
  rewrite <-Ep in *. assert (Hne : length pending ≠ 0) by (rewrite Ep; simpl; lia). clear Ep.
  destruct (bw_select _ _) as [| |which|]; [by split; [|intros [? ?]]..| |by split; [|intros [? ?]]].
  destruct (lookup_lt_is_Some_2 pending (which mod length pending)) as [job Hk]; [by apply Nat.mod_upper_bound|].
  rewrite Hk. pose proof (run_job_ends job Hb) as Hends.
  destruct (run_job _ _ _ _ job) as [r|e] eqn:Er; cbn [mbind result_bind].
  - destruct (join_job _ _ _ _ _ _ Hinv Hk Er) as [Hlt _]. by rewrite (proj2 (Nat.ltb_lt _ _) Hlt).
  - split; [congruence|]. exfalso. revert Er Hends. unfold run_job. repeat case_match; naive_solver.
Qed.

(** Enough rounds for every job end the batch, with results if the caller
    neither cancels nor runs out of time and no task panics. *)
Lemma batch_loop_ends fuel : check_budget_ok budget → ∀ tick jobs pending results,
  batch_inv (length items) (jobs ++ pending) results → length (jobs ++ pending) ≤ fuel →
  batch_loop limits m budget w fuel tick jobs pending results ≠ Err OutOfFuel ∧
  ((∀ t, ∃ which, bw_select w t = BatchJoined which) →
   is_ok (batch_loop limits m budget w fuel tick jobs pending results) = true).
Proof.
  intros Hb. assert (Hc : (0 < maximum_batch_concurrency budget)%N) by (unfold check_budget_ok, limit_in in Hb; lia).
  induction fuel as [|fuel IH]; intros tick jobs pending results Hinv Hlen.
  all: destruct (jobs ++ pending) as [|j l] eqn:Ejp; [by apply app_nil in Ejp as [-> ->]|].
  1: simpl in Hlen; lia.
  rewrite <-Ejp in *. assert (Hne : jobs ++ pending ≠ []) by (by rewrite Ejp).
  clear Ejp.
  destruct (spawn_jobs (maximum_batch_concurrency budget) jobs pending) as [jobs1 pending1] eqn:Es.
  assert (Hloop : batch_loop limits m budget w (S fuel) tick jobs pending results =
    '(pending, results) ← collect_batch_result limits m budget w tick pending1 results;
    batch_loop limits m budget w fuel (S tick) jobs1 pending results)
    by (destruct jobs, pending; [done|..]; cbn [batch_loop]; by rewrite Es).
  rewrite Hloop. apply spawn_jobs_perm in Es as [Hp Hpn]. specialize (Hpn Hc Hne). rewrite <-Hp in Hinv, Hlen.
  destruct (collect_ends tick _ _ _ Hb Hinv) as [Hcf Hcl].
  destruct (collect_batch_result _ _ _ _ _ _ _) as [[pending2 results2]|e] eqn:Ec; cbn [mbind result_bind].
  - apply (collect_inv _ _ _ _ _ _ Hinv) in Ec as [Hinv2 Hlt]. specialize (Hlt Hpn).
    apply IH; [done|]. rewrite length_app in *. lia.
  - split; [congruence|]. intros Hsel. by specialize (Hcl (Hsel tick)).
Qed.

End theory.

(** ** The single check of an item *)

Definition merge_contextual (base overlay : list RelationshipTuple) : BTreeMap TupleKey RelationshipTuple :=
  foldl (fun m t => bt_insert t.(rt_key) t m) (foldl (fun m t => bt_insert t.(rt_key) t m) [] base) overlay.

Lemma insert_all_keys (l : list RelationshipTuple) : ∀ acc : BTreeMap TupleKey RelationshipTuple,
  Forall (fun e => e.1 = e.2.(rt_key)) acc →
  Forall (fun e => e.1 = e.2.(rt_key)) (foldl (fun m t => bt_insert t.(rt_key) t m) acc l).
Proof.
  induction l as [|t l IH]; intros acc Ha; simpl; [done|]. apply IH. rewrite Forall_forall in *.
  by intros x [->|?]%bt_insert_elem; auto.
Qed.

Lemma merge_contextual_sorted base overlay : bt_sorted (merge_contextual base overlay).
Proof. apply insert_all_sorted, insert_all_sorted, bt_sorted_nil. Qed.

Lemma merge_contextual_key base overlay k t : (k, t) ∈ merge_contextual base overlay → t.(rt_key) = k.
Proof.
  assert (Hk : Forall (fun e => e.1 = e.2.(rt_key)) (merge_contextual base overlay))
    by (by apply insert_all_keys, insert_all_keys).
  rewrite Forall_forall in Hk. intros Hin. by apply Hk in Hin.
Qed.

Lemma merge_contextual_keys base overlay :
  rt_key <$> bt_values (merge_contextual base overlay) = (merge_contextual base overlay).*1.
Proof.
  unfold bt_values. change (map snd) with (fmap (M := list) (@snd TupleKey RelationshipTuple)).
  rewrite <-list_fmap_compose. apply list_fmap_ext. intros i [k t] Hi. simpl.
  by eapply merge_contextual_key, list_elem_of_lookup_2.
Qed.

(** Inserting the values of the merged map again gives the merged map. *)
Lemma merge_contextual_again base overlay :
  foldl (fun m t => bt_insert t.(rt_key) t m) [] (bt_values (merge_contextual base overlay)) =
  merge_contextual base overlay.
Proof.
  pose proof (merge_contextual_sorted base overlay) as Hs. pose proof (merge_contextual_keys base overlay) as Hk.
  set (merged := merge_contextual base overlay) in *.
  assert (Hn : NoDup (rt_key <$> bt_values merged)).
  { rewrite Hk. clear Hk. induction Hs as [|e l Hs IH Hlt]; [constructor|]. constructor; [|done].
    intros (x & Heq & Hx)%list_elem_of_fmap. rewrite Forall_forall in Hlt. specialize (Hlt _ Hx).
    rewrite Heq in Hlt. by rewrite cmp_refl in Hlt. }
  apply bt_ext; [apply insert_all_sorted, bt_sorted_nil|done|]. intros k.
  apply option_eq. intros t. rewrite insert_all_get, (bt_get_elem_iff _ _ _ Hs) by done. split.
  - intros [[([k' t'] & -> & Hin)%list_elem_of_fmap <-]|[_ ?]]; [|done]. simpl.
    by rewrite (merge_contextual_key _ _ _ _ Hin).
  - intros Hin. left. split; [apply list_elem_of_fmap; by exists (k, t)|]. by eapply merge_contextual_key.
Qed.

(** The check command an item stands for: the query with the contexts of the
    item laid over its own. *)
Definition item_command (q : QueryContext) (item : BatchCheckItem) (context : ConditionContext) : CheckCommand :=
  mkCheckCommand
    (mkQueryContext q.(qc_store_id) q.(qc_model_selection) q.(qc_consistency)
       (bt_values (merge_contextual q.(qc_contextual_tuples) item.(bi_contextual_tuples)))
       context q.(qc_deadline) q.(qc_principal))
    item.(bi_tuple).

Lemma item_command_input q item context :
  command_input (item_command q item context) = item_input q item context.
Proof.
  unfold command_input, item_command, item_input. simpl. f_equal. unfold contextual_index_new.
  by rewrite merge_contextual_again.
Qed.

(** ** Correctness of batch checks

    The properties of [batch_check], for every join order and concurrency. *)

Import Fixture.

Section results.
Context `{ConditionEngineLaws}.
Variable limits : InputLimits.

(** Preparation succeeds for the selected model, and leaves every item a result
    or a job. *)
Lemma prepare_batch_items c m budget w :
  ∃ p, prepare_batch limits c m =
       (_ ← validate_model_identity c.(bc_query).(qc_store_id) c.(bc_query).(qc_model_selection) m; Ok p) ∧
    batch_inv limits c.(bc_query) c.(bc_items) m budget w (length c.(bc_items)) p.(pb_jobs) p.(pb_results).
Proof.
  destruct (prepare_items_ok limits c.(bc_query) c.(bc_items) m budget w c.(bc_items) 0
    (mkPreparedBatch [] (replicate (length c.(bc_items)) None))) as (p & E & Hp); [done|apply batch_inv_new|].
  exists p. split; [|done]. rewrite <-E. reflexivity.
Qed.

Lemma prepare_batch_ok c m p :
  prepare_batch limits c m = Ok p → ∀ budget w,
  batch_inv limits c.(bc_query) c.(bc_items) m budget w (length c.(bc_items)) p.(pb_jobs) p.(pb_results).
Proof.
  intros E budget w. destruct (prepare_batch_items c m budget w) as (p' & E' & Hp').
  rewrite E' in E. apply result_bind_ok in E as (_ & _ & [= <-]). done.
Qed.

(** The result of an item is the outcome of its own check. *)
Lemma item_result_check q m budget w i item r :
  item_result limits q m budget w i item = Ok r →
  r.(br_correlation_id) = item.(bi_correlation_id) ∧
  match context_overlay q.(qc_condition_context) item.(bi_condition_context) limits with
  | Err _ => r.(br_outcome) = Err (check_error KInvalidTuple "batch_condition_context_invalid")
  | Ok context =>
      evaluate_root limits (command_input (item_command q item context)) m budget None (w.(bw_item) i) =
      map_err Fail r.(br_outcome)
  end.
Proof.
  unfold item_result. destruct (context_overlay _ _ _) as [context|e]; [|by intros [= <-]].
  rewrite item_command_input. unfold run_job. simpl.
  destruct (evaluate_root _ _ _ _ _ _) as [out|[e|]]; simpl; intros E; by simplify_eq.
Qed.

Lemma evaluate_root_decides c m budget w table out :
  forward_snapshot (w_read w) m.(model_store_id) table →
  evaluate_root limits (command_input c) m budget None w = Ok out →
  command_decides c m table (mkDecision out.(co_allowed) out.(co_resolution)).
Proof.
  intros Hs E. apply (evaluator_decides (CheckEvaluatorLaws := direct_evaluator_laws limits) c m budget None w table out Hs).
  simpl. unfold direct_check. by rewrite E.
Qed.

(** Slots that are all filled are collected. *)
Lemma try_collect_slots (slots : list (option BatchCheckResult)) :
  (∀ o, o ∈ slots → is_Some o) →
  ∃ results, try_collect (fun r => ok_or r (Fail (internal "batch_result_missing"))) slots = Ok results.
Proof.
  induction slots as [|o slots IH]; intros Hall; [by exists []|]. destruct (Hall o) as [r ->]; [by left|].
  destruct IH as [results E]; [intros x Hx; apply Hall; by right|]. exists (r :: results). simpl. by rewrite E.
Qed.

End results.

(** One result for each item, and what it is. *)
Lemma batch_check_items `{ConditionEngineLaws} limits c m budget w table results :
  (∀ i, forward_snapshot (w_read (w.(bw_item) i)) m.(model_store_id) table) →
  batch_check limits c m budget w = Ok results →
  length results = length c.(bc_items) ∧
  ∀ i item, c.(bc_items) !! i = Some item → ∃ r, results !! i = Some r ∧
    r.(br_correlation_id) = item.(bi_correlation_id) ∧
    match context_overlay c.(bc_query).(qc_condition_context) item.(bi_condition_context) limits with
    | Err _ => r.(br_outcome) = Err (check_error KInvalidTuple "batch_condition_context_invalid")
    | Ok context =>
        let command := item_command c.(bc_query) item context in
        evaluate_root limits (command_input command) m budget None (w.(bw_item) i) = map_err Fail r.(br_outcome) ∧
        ∀ out, r.(br_outcome) = Ok out →
          command_decides command m table (mkDecision out.(co_allowed) out.(co_resolution))
    end.
Proof.
  intros Hs (p & Hp%map_err_ok & Hrun)%result_bind_ok.
  destruct (run_batch_items _ _ _ _ _ _ _ _ (prepare_batch_ok _ _ _ _ Hp budget w) Hrun) as [Hlen Hitems].
  split; [done|]. intros i item Hi. destruct (Hitems i item Hi) as (r & Hr & Hres). exists r.
  apply item_result_check in Hres as [Hid Hout]. split_and!; [done..|].
  destruct (context_overlay _ _ _) as [context|e]; [|done]. simpl. split; [done|]. intros out Heq.
  rewrite Heq in Hout. by eapply evaluate_root_decides.
Qed.

(** C35: whatever the order in which items finish and however many run at once,
    a batch returns one result for each item, in request order and under the
    item's correlation id.  An item whose merged condition context is out of
    bounds gets that error; any other item gets exactly what a check of the item
    alone returns, and an answer is the decision of the semantics about the
    query with the contexts of the item laid over it. *)
Theorem batch_check_agrees `{ConditionEngineLaws} limits c m budget w table results :
  (∀ i, forward_snapshot (w_read (w.(bw_item) i)) m.(model_store_id) table) →
  batch_check limits c m budget w = Ok results →
  length results = length c.(bc_items) ∧
  ∀ i item, c.(bc_items) !! i = Some item → ∃ r, results !! i = Some r ∧
    r.(br_correlation_id) = item.(bi_correlation_id) ∧
    match context_overlay c.(bc_query).(qc_condition_context) item.(bi_condition_context) limits with
    | Err _ => r.(br_outcome) = Err (check_error KInvalidTuple "batch_condition_context_invalid")
    | Ok context =>
        let command := item_command c.(bc_query) item context in
        evaluate_root limits (command_input command) m budget None (w.(bw_item) i) = map_err Fail r.(br_outcome) ∧
        ∀ out, r.(br_outcome) = Ok out →
          command_decides command m table (mkDecision out.(co_allowed) out.(co_resolution))
    end.
Proof. apply batch_check_items. Qed.

(** A batch always ends: rounds for its jobs are enough.  It returns results
    whenever the model is the selected one and no item panics before the caller
    cancels or the deadline passes. *)
Theorem batch_check_ends `{ConditionEngineLaws} limits c m budget w :
  check_budget_ok budget →
  batch_check limits c m budget w ≠ Err OutOfFuel ∧
  (validate_model_identity c.(bc_query).(qc_store_id) c.(bc_query).(qc_model_selection) m = Ok () →
   (∀ t, ∃ which, w.(bw_select) t = BatchJoined which) →
   ∃ results, batch_check limits c m budget w = Ok results).
Proof.
  intros Hb. unfold batch_check.
  destruct (prepare_batch limits c m) as [p|e] eqn:Ep; simpl.
  - pose proof (prepare_batch_ok limits c m p Ep budget w) as Hinv.
    destruct (batch_loop_ends limits c.(bc_query) c.(bc_items) m budget w (length p.(pb_jobs)) Hb 0 p.(pb_jobs) []
      p.(pb_results)) as [Hf Hl]; [by rewrite app_nil_r|rewrite length_app; simpl; lia|].
    unfold run_batch. destruct (batch_loop _ _ _ _ _ _ _ _ _) as [slots|e] eqn:El; simpl; [|split; [congruence|]].
    2: { intros _ Hsel. by specialize (Hl Hsel). }
    apply (batch_loop_inv limits c.(bc_query) c.(bc_items)) in El; [|by rewrite app_nil_r].
    destruct (try_collect_slots slots) as [results E].
    { intros o (i & Hi)%list_elem_of_lookup. destruct (lookup_lt_is_Some_2 c.(bc_items) i) as [item Hit].
      { rewrite <-(bi_length _ _ _ _ _ _ _ _ _ El). by eapply lookup_lt_Some. }
      destruct (bi_done _ _ _ _ _ _ _ _ _ El i item) as (r & Hr & _);
        [by eapply lookup_lt_Some|done|apply not_elem_of_nil|]. exists r. congruence. }
    rewrite E. split; [done|]. by eauto.
  - split; [done|]. intros Hid _. destruct (prepare_batch_items limits c m budget w) as (p & E & _).
    rewrite Hid, Ep in E. done.
Qed.

(** Two items joined in the reverse order; the second has a contextual tuple. *)
Definition two_items : BatchCheckCommand :=
  mkBatchCheckCommand
    (mkQueryContext 1%N LatestModel MinimizeLatency [] empty_condition_context 100 (mkPrincipal Development (str "test")))
    [ mkBatchCheckItem (str "a") (mkTupleKey doc1 viewer (SubjObject bob)) [] empty_condition_context;
      mkBatchCheckItem (str "b") (mkTupleKey doc1 viewer (SubjObject anne))
        [tuple doc1 viewer (SubjObject anne)] empty_condition_context ].

Definition two_worlds : BatchWorld := mkBatchWorld (fun _ => BatchJoined 1) (fun _ => world database).

Lemma two_snapshots : ∀ i, forward_snapshot (w_read (two_worlds.(bw_item) i)) model.(model_store_id) database.
Proof.
  intros i tk f maximum stream rows [= <-] Hrows _ _ t. rewrite from_tuples_items in Hrows.
  by apply (inj (fmap Ok)) in Hrows as <-.
Qed.

Lemma batch_check_agrees_witness :
  ∃ results r, batch_check default_input_limits two_items model default_check_budget two_worlds = Ok results ∧
    results !! 1 = Some r ∧ r.(br_correlation_id) = str "b" ∧ co_allowed <$> r.(br_outcome) = Ok true.
Proof.
  destruct (batch_check default_input_limits two_items model default_check_budget two_worlds) as [results|e] eqn:E;
    [|vm_compute in E; discriminate].
  destruct (batch_check_agrees default_input_limits two_items model default_check_budget two_worlds database results
    two_snapshots E) as [_ Hall].
  destruct (Hall 1 _ eq_refl) as (r & Hr & Hid & _). exists results, r. split_and!; [done..|].
  vm_compute in E. injection E as <-. vm_compute in Hr. injection Hr as <-. reflexivity.
Defined.

Lemma batch_check_ends_witness :
  ∃ results, batch_check default_input_limits two_items model default_check_budget two_worlds = Ok results.
Proof.
  exact (proj2 (batch_check_ends default_input_limits two_items model default_check_budget two_worlds
    default_check_budget_ok) eq_refl (fun _ => ex_intro _ 1 eq_refl)).
Defined.
