(* ===== verification/Controller.v ===== *)
(** * The changelog invalidation controller

    [crates/openfga-cache/src/{invalidation,controller}.rs]: the watermark all
    mutable caches share, the registration handle, and the actor that polls the
    changelogs of tracked stores.  Tasks run concurrently and meet in atomic
    operations on shared state, so a task is a program ([prog]) of such
    operations and [perform] says what each may do; theorems are about every
    interleaving.  Instants and durations are numbers of nanoseconds.  The
    metrics, which observe the diagnostics, and the log lines are left out. *)

From S2P Require Import Prelude Ordered Identifier Reference Condition Storage Model TupleValidation Budget.
From S2P Require Import Reducer Scheduler Evaluator Batch.
From stdpp Require Import gmap.

(** ** The storage behind the caches

    What the caches see of a backend in one state: the rows and the changelog of
    a store, pages of the changelog, the effect of a mutation, and the states it
    can move to. *)
Class ChangeStore (Db : Type) := {
  db_le : Db → Db → Prop;
  db_log : Db → StoreId → list TupleChange;
  db_rows : Db → StoreId → list RelationshipTuple;
  db_read_changes : Db → StoreId → ChangeFilter → PageOptions → result StorageError (Page TupleChange);
  db_write : Db → StoreId → list TupleKey → list RelationshipTuple → TupleWriteOptions →
    result StorageError MutationOutcome → Db → Prop;
}.

(** The entries of a log after an identifier. *)
Definition log_after (after : option ChangeId) (log : list TupleChange) : list TupleChange :=
  filter (fun c => match after with Some id => (id <? c.(tc_id))%N | None => true end = true) log.

(** The page options of the controller. *)
Definition poll_options `{UlidCodec} (page_size : N) (last_seen : option ChangeId) : PageOptions :=
  match last_seen with
  | Some last_seen => page_options_after_change page_size last_seen
  | None => page_options_from_read (mkReadOptions page_size)
  end.

(** The contract of the storage traits: changelogs are append-only and ordered, a
    page starts after the last change seen, and mutations report their changes. *)
Class ChangeStoreLaws (Db : Type) `{ChangeStore Db, UlidCodec} : Prop := {
  db_le_preorder :: PreOrder db_le;
  db_log_append d d' store : db_le d d' → db_log d store `prefix_of` db_log d' store;
  db_log_sorted d store : StronglySorted (fun c c' => (c.(tc_id) < c'.(tc_id))%N) (db_log d store);
  db_page d store size last_seen page :
    (0 < size)%N → (∀ id, last_seen = Some id → id ∈ tc_id <$> db_log d store) →
    db_read_changes d store (mkChangeFilter None None) (poll_options size last_seen) = Ok page →
    page.(page_items) = take (N.to_nat size) (log_after last_seen (db_log d store));
  db_write_le d store deletes writes options r d' :
    db_write d store deletes writes options r d' → db_le d d';
  db_write_changes d store deletes writes options outcome d' :
    db_write d store deletes writes options (Ok outcome) d' →
    ∃ changes, db_log d' store = db_log d store ++ changes ∧ outcome.(change_ids) = tc_id <$> changes;
}.

(** ** Shared state *)

Inductive RegistrationState := Pending | ActiveUntil (deadline : N).

Inductive ControllerCommand := Track (store : StoreId) | Restart | Stop.

Record DecisionKey := mkDecisionKey { dk_store_id : StoreId; dk_fingerprint : list N }.

#[export] Instance DecisionKey_eq_dec : EqDecision DecisionKey.
Proof. solve_decision. Defined.
#[export] Instance DecisionKey_countable : Countable DecisionKey.
Proof.
  apply (inj_countable' (fun k => (k.(dk_store_id), k.(dk_fingerprint))) (fun '(s, f) => mkDecisionKey s f)).
  by intros [].
Defined.

Record DecisionEntry := mkDecisionEntry { de_value : bool; de_watermark : N }.

(** The counters of [DiagnosticsState]. *)
Inductive Counter := SuccessfulPolls | FailedPolls | Flushes | Overflows | Restarts.

Record Diagnostics := mkDiagnostics {
  dg_counters : Counter → N;
  dg_tracked_stores : N;
  dg_poll_freshness_age_millis : N;
}.

Definition counter_eqb (a b : Counter) : bool :=
  match a, b with
  | SuccessfulPolls, SuccessfulPolls | FailedPolls, FailedPolls | Flushes, Flushes
  | Overflows, Overflows | Restarts, Restarts => true
  | _, _ => false
  end.

(** [fetch_add(1)] wraps. *)
Definition wrapping_add_u64 (a b : N) : N := ((a + b) mod 2 ^ 64)%N.

Definition count (c : Counter) (d : Diagnostics) : Diagnostics :=
  mkDiagnostics (fun c' => if counter_eqb c c' then wrapping_add_u64 (d.(dg_counters) c') 1 else d.(dg_counters) c')
    d.(dg_tracked_stores) d.(dg_poll_freshness_age_millis).

(** The two flags of the diagnostics, and whether the command channel has a
    receiver and the task was told to abort. *)
Record Flags := mkFlags { fl_running : bool; fl_ready : bool; fl_open : bool; fl_abort : bool }.

(** The state the tasks share.  [sh_commits] records when the backend reached
    which state, [sh_reads] when the actor read which changelog, [sh_gen] the
    backend at the latest advance of the watermark: they tell the history and
    no program reads them.  [sh_advances] counts the advances; the watermark is
    an [AtomicU64] and wraps. *)
Record Shared (Db : Type) := mkShared {
  sh_now : N;
  sh_db : Db;
  sh_commits : list (N * Db);
  sh_reads : list (StoreId * N);
  sh_advances : N;
  sh_gen : Db;
  sh_flags : Flags;
  sh_registrations : gmap StoreId RegistrationState;
  sh_channel : list ControllerCommand;
  sh_entries : gmap DecisionKey DecisionEntry;
  sh_diagnostics : Diagnostics;
}.
Arguments mkShared {Db}.
Arguments sh_now {Db}.
Arguments sh_db {Db}.
Arguments sh_commits {Db}.
Arguments sh_reads {Db}.
Arguments sh_advances {Db}.
Arguments sh_gen {Db}.
Arguments sh_flags {Db}.
Arguments sh_registrations {Db}.
Arguments sh_channel {Db}.
Arguments sh_entries {Db}.
Arguments sh_diagnostics {Db}.

(** [InvalidationWatermark::current] *)
Definition watermark {Db} (s : Shared Db) : N := (s.(sh_advances) mod 2 ^ 64)%N.

Section setters.
Context {Db : Type} (s : Shared Db).

Definition set_now (now : N) : Shared Db :=
  mkShared now s.(sh_db) s.(sh_commits) s.(sh_reads) s.(sh_advances) s.(sh_gen) s.(sh_flags) s.(sh_registrations)
    s.(sh_channel) s.(sh_entries) s.(sh_diagnostics).
Definition commit (db : Db) : Shared Db :=
  mkShared s.(sh_now) db (s.(sh_commits) ++ [(s.(sh_now), db)]) s.(sh_reads) s.(sh_advances) s.(sh_gen) s.(sh_flags)
    s.(sh_registrations) s.(sh_channel) s.(sh_entries) s.(sh_diagnostics).
Definition note_read (store : StoreId) : Shared Db :=
  mkShared s.(sh_now) s.(sh_db) s.(sh_commits) (s.(sh_reads) ++ [(store, s.(sh_now))]) s.(sh_advances) s.(sh_gen)
    s.(sh_flags) s.(sh_registrations) s.(sh_channel) s.(sh_entries) s.(sh_diagnostics).
(** [InvalidationWatermark::advance] *)
Definition advance : Shared Db :=
  mkShared s.(sh_now) s.(sh_db) s.(sh_commits) s.(sh_reads) (s.(sh_advances) + 1) s.(sh_db) s.(sh_flags)
    s.(sh_registrations) s.(sh_channel) s.(sh_entries) s.(sh_diagnostics).
Definition set_flags (flags : Flags) : Shared Db :=
  mkShared s.(sh_now) s.(sh_db) s.(sh_commits) s.(sh_reads) s.(sh_advances) s.(sh_gen) flags s.(sh_registrations)
    s.(sh_channel) s.(sh_entries) s.(sh_diagnostics).
Definition set_registrations (registrations : gmap StoreId RegistrationState) : Shared Db :=
  mkShared s.(sh_now) s.(sh_db) s.(sh_commits) s.(sh_reads) s.(sh_advances) s.(sh_gen) s.(sh_flags) registrations
    s.(sh_channel) s.(sh_entries) s.(sh_diagnostics).
Definition set_channel (channel : list ControllerCommand) : Shared Db :=
  mkShared s.(sh_now) s.(sh_db) s.(sh_commits) s.(sh_reads) s.(sh_advances) s.(sh_gen) s.(sh_flags)
    s.(sh_registrations) channel s.(sh_entries) s.(sh_diagnostics).
Definition set_entries (entries : gmap DecisionKey DecisionEntry) : Shared Db :=
  mkShared s.(sh_now) s.(sh_db) s.(sh_commits) s.(sh_reads) s.(sh_advances) s.(sh_gen) s.(sh_flags)
    s.(sh_registrations) s.(sh_channel) entries s.(sh_diagnostics).
Definition set_diagnostics (diagnostics : Diagnostics) : Shared Db :=
  mkShared s.(sh_now) s.(sh_db) s.(sh_commits) s.(sh_reads) s.(sh_advances) s.(sh_gen) s.(sh_flags)
    s.(sh_registrations) s.(sh_channel) s.(sh_entries) diagnostics.

Definition set_running (b : bool) : Shared Db :=
  set_flags (mkFlags b s.(sh_flags).(fl_ready) s.(sh_flags).(fl_open) s.(sh_flags).(fl_abort)).
Definition set_ready (b : bool) : Shared Db :=
  set_flags (mkFlags s.(sh_flags).(fl_running) b s.(sh_flags).(fl_open) s.(sh_flags).(fl_abort)).
Definition set_open (b : bool) : Shared Db :=
  set_flags (mkFlags s.(sh_flags).(fl_running) s.(sh_flags).(fl_ready) b s.(sh_flags).(fl_abort)).
Definition set_abort (b : bool) : Shared Db :=
  set_flags (mkFlags s.(sh_flags).(fl_running) s.(sh_flags).(fl_ready) s.(sh_flags).(fl_open) b).

End setters.

(** ** Configuration *)

Definition MAXIMUM_INTERVAL : N := 300000000000.
Definition MAXIMUM_PAGES_PER_CYCLE : nat := 4.

Record InvalidationControllerConfig := mkControllerConfig {
  channel_capacity : N;
  page_size : N;
  poll_interval : N;
  read_timeout : N;
  maximum_lag : N;
}.

Inductive InvalidationControllerConfigError := CCPageSize | CCPollInterval | CCReadTimeout | CCMaximumLag.

(** [Duration::MAX] and [Duration::saturating_mul] *)
Definition DURATION_MAX : N := 18446744073709551615 * 1000000000 + 999999999.
Definition duration_saturating_mul (d k : N) : N := N.min DURATION_MAX (d * k).

(** [InvalidationControllerConfig::new]; capacity and page size are not zero. *)
Definition controller_config_new (channel_capacity page_size poll_interval read_timeout maximum_lag : N) :
    result InvalidationControllerConfigError InvalidationControllerConfig :=
  if (1000 <? page_size)%N then Err CCPageSize
  else if (poll_interval =? 0)%N || (MAXIMUM_INTERVAL <? poll_interval)%N then Err CCPollInterval
  else if (read_timeout =? 0)%N || (MAXIMUM_INTERVAL <? read_timeout)%N then Err CCReadTimeout
  else
    let maximum_cycle := duration_saturating_mul read_timeout (N.of_nat MAXIMUM_PAGES_PER_CYCLE) in
    if (maximum_lag <? maximum_cycle)%N || (maximum_lag <? poll_interval)%N || (MAXIMUM_INTERVAL <? maximum_lag)%N
    then Err CCMaximumLag
    else Ok (mkControllerConfig channel_capacity page_size poll_interval read_timeout maximum_lag).

(** ** Atomic operations *)

Inductive TrySendResult := Sent | SendFull | SendClosed.
Inductive SendResult := SendOk | SendTimedOut | SendDisconnected.
Inductive AwaitResult := Received | AwaitTimedOut | AwaitDropped.
Inductive Selected := CtlCommand (c : ControllerCommand) | CtlClosed | CtlTick.

(** ** The state of the actor *)

Record StoreState := mkStoreState {
  ss_last_seen : option ChangeId;
  ss_last_success : N;
  ss_next_poll : N;
  ss_backoff : N;
  ss_initialized : bool;
}.

Record PollOutcome := mkPollOutcome { po_changed : bool; po_caught_up : bool }.

Inductive PollError := PEPolicy | PETimeout | PEStorage (e : StorageError) | PEMalformed.

(** The stores an actor tracks. *)
Abbreviation Tracked := (BTreeMap StoreId StoreState).

Section programs.
Context `{ConditionEngine}.

(** One atomic operation of a task, with the type of its answer. *)
Inductive event : Type → Type :=
| Now : event N
| WatermarkCurrent : event N
| WatermarkAdvance : event N
| RunningLoad : event bool
| RunningStore (b : bool) : event ()
| ReadyLoad : event bool
| ReadyStore (b : bool) : event ()
| ReadySwap (b : bool) : event bool
| RegistrationGet (store : StoreId) : event (option RegistrationState)
| RegistrationInsert (store : StoreId) (r : RegistrationState) : event ()
| RegistrationInvalidate (store : StoreId) : event ()
| Count (c : Counter) : event ()
| SetTracked (n : N) : event ()
| SetFreshnessAge (millis : N) : event ()
| TrySend (c : ControllerCommand) : event TrySendResult
| Send (c : ControllerCommand) : event SendResult
| Select : event Selected
| Acknowledge : event ()
| Await : event AwaitResult
| Abort : event ()
| ReadChanges (store : StoreId) (o : PageOptions) : event (option (result StorageError (Page TupleChange)))
| EntriesGet (k : DecisionKey) : event (option DecisionEntry)
| EntriesInsert (k : DecisionKey) (e : DecisionEntry) : event ()
| IsCancelled : event bool
| DelegateCheck (c : CheckCommand) (m : CompiledModel) (b : CheckBudget) (meter : option CheckWorkMeter) :
    event (result CheckError CheckOutcome)
| DelegateBatch (c : BatchCheckCommand) (m : CompiledModel) (b : CheckBudget) :
    event (result CheckError (list BatchCheckResult))
| WriteTuples (store : StoreId) (deletes : list TupleKey) (writes : list RelationshipTuple) (o : TupleWriteOptions) :
    event (result StorageError MutationOutcome).

(** Programs of atomic operations. *)
Inductive prog (A : Type) : Type :=
| Done (a : A)
| Do {B} (e : event B) (k : B → prog A).
#[global] Arguments Done {A} a.
#[global] Arguments Do {A B} e k.

#[export] Instance prog_ret : MRet prog := fun A a => Done a.
#[export] Instance prog_bind : MBind prog := fun A B f =>
  fix go p := match p with Done a => f a | Do e k => Do e (fun b => go (k b)) end.

#[export] Instance prog_fmap : FMap prog := fun A B f p => p ≫= fun a => Done (f a).

Definition do {B} (e : event B) : prog B := Do e (fun b => Done b).

Fixpoint prog_each {A} (f : A → prog ()) (l : list A) : prog () :=
  match l with
  | [] => mret ()
  | x :: l => f x;; prog_each f l
  end.

(** What the operations may do.  A cache read by [moka] returns what was last
    inserted unless it was evicted, which a step of the environment does; the
    command channel holds at most its capacity; a wait may time out; a delegated
    check reads one state of the backend. *)
Section perform.
Context {Db : Type} `{!CheckEvaluator, ChangeStore Db}.
Variable config : InvalidationControllerConfig.
Variable limits : InputLimits.

Definition channel_full (s : Shared Db) : bool := (config.(channel_capacity) <=? len s.(sh_channel))%N.

Definition perform {B} (e : event B) : Shared Db → B → Shared Db → Prop :=
  match e in event B return Shared Db → B → Shared Db → Prop with
  | Now => fun s b s' => b = s.(sh_now) ∧ s' = s
  | WatermarkCurrent => fun s b s' => b = watermark s ∧ s' = s
  | WatermarkAdvance => fun s b s' => b = saturating_add U64_MAX (watermark s) 1 ∧ s' = advance s
  | RunningLoad => fun s b s' => b = s.(sh_flags).(fl_running) ∧ s' = s
  | RunningStore x => fun s _ s' => s' = set_running s x
  | ReadyLoad => fun s b s' => b = s.(sh_flags).(fl_ready) ∧ s' = s
  | ReadyStore x => fun s _ s' => s' = set_ready s x
  | ReadySwap x => fun s b s' => b = s.(sh_flags).(fl_ready) ∧ s' = set_ready s x
  | RegistrationGet store => fun s b s' => b = s.(sh_registrations) !! store ∧ s' = s
  | RegistrationInsert store r => fun s _ s' => s' = set_registrations s (<[store := r]> s.(sh_registrations))
  | RegistrationInvalidate store => fun s _ s' => s' = set_registrations s (delete store s.(sh_registrations))
  | Count c => fun s _ s' => s' = set_diagnostics s (count c s.(sh_diagnostics))
  | SetTracked n => fun s _ s' => s' = set_diagnostics s
      (mkDiagnostics s.(sh_diagnostics).(dg_counters) n s.(sh_diagnostics).(dg_poll_freshness_age_millis))
  | SetFreshnessAge n => fun s _ s' => s' = set_diagnostics s
      (mkDiagnostics s.(sh_diagnostics).(dg_counters) s.(sh_diagnostics).(dg_tracked_stores) n)
  | TrySend c => fun s b s' =>
      match b with
      | Sent => s.(sh_flags).(fl_open) = true ∧ channel_full s = false ∧ s' = set_channel s (s.(sh_channel) ++ [c])
      | SendFull => s.(sh_flags).(fl_open) = true ∧ channel_full s = true ∧ s' = s
      | SendClosed => s.(sh_flags).(fl_open) = false ∧ s' = s
      end
  | Send c => fun s b s' =>
      match b with
      | SendOk => s.(sh_flags).(fl_open) = true ∧ channel_full s = false ∧ s' = set_channel s (s.(sh_channel) ++ [c])
      | SendTimedOut => s' = s
      | SendDisconnected => s.(sh_flags).(fl_open) = false ∧ s' = s
      end
  | Select => fun s b s' =>
      match b with
      | CtlCommand c => ∃ rest, s.(sh_channel) = c :: rest ∧ s' = set_channel s rest
      | CtlClosed | CtlTick => s.(sh_channel) = [] ∧ s' = s
      end
  | Acknowledge => fun s _ s' => s' = s
  | Await => fun s _ s' => s' = s
  | Abort => fun s _ s' => s' = set_abort s true
  | ReadChanges store o => fun s b s' =>
      s' = note_read s store ∧
      ∀ page, b = Some (Ok page) → db_read_changes s.(sh_db) store (mkChangeFilter None None) o = Ok page
  | EntriesGet k => fun s b s' => b = s.(sh_entries) !! k ∧ s' = s
  | EntriesInsert k e => fun s _ s' => s' = set_entries s (<[k := e]> s.(sh_entries))
  | IsCancelled => fun s _ s' => s' = s
  | DelegateCheck c m budget meter => fun s b s' =>
      s' = s ∧ ∃ w, forward_snapshot (w_read w) m.(model_store_id) (db_rows s.(sh_db) m.(model_store_id)) ∧
        evaluator_check c m budget meter w = map_err Fail b
  | DelegateBatch c m budget => fun s b s' =>
      s' = s ∧ ∃ w, (∀ i, forward_snapshot (w_read (w.(bw_item) i)) m.(model_store_id)
                            (db_rows s.(sh_db) m.(model_store_id))) ∧
        batch_check limits c m budget w = map_err Fail b
  | WriteTuples store deletes writes o => fun s b s' =>
      ∃ db, db_write s.(sh_db) store deletes writes o b db ∧ s' = commit s db
  end.

End perform.

(** ** The registration handle *)

(** [flush] *)
Definition flush : prog () := _ ← do WatermarkAdvance; do (Count Flushes).

(** [InvalidationControllerHandle::track] *)
Definition handle_track (store_id : StoreId) : prog () :=
  registration ← do (RegistrationGet store_id);
  match registration with
  | Some _ => mret ()
  | None =>
      do (ReadyStore false);;
      do (RegistrationInsert store_id Pending);;
      sent ← do (TrySend (Track store_id));
      match sent with
      | Sent => mret ()
      | SendFull => do (RegistrationInvalidate store_id);; do (Count Overflows);; flush
      | SendClosed => do (RegistrationInvalidate store_id);; flush
      end
  end.

(** [InvalidationControllerHandle::permits_caching] *)
Definition permits_caching (store_id : StoreId) : prog bool :=
  running ← do RunningLoad;
  if negb running then mret false
  else
    let expired :=
      ready ← do (ReadySwap false);
      (if (ready : bool) then do (Count FailedPolls);; flush else mret ());;
      mret false in
    registration ← do (RegistrationGet store_id);
    match registration with
    | Some (ActiveUntil deadline) =>
        now ← do Now;
        if (now <=? deadline)%N then do ReadyLoad else expired
    | Some Pending | None => mret false
    end.

(** ** The actor *)

Section actor.
Context `{UlidCodec}.
Variable config : InvalidationControllerConfig.
(** The last instant of the monotonic clock, and the hash of a store and a
    duration by the standard library's default hasher. *)
Variable INSTANT_MAX : N.
Variable default_hash : StoreId → N → N.

(** [StoreState::new] *)
Definition store_state_new : prog StoreState :=
  now ← do Now; mret (mkStoreState None now now config.(poll_interval) false).

(** [Instant::duration_since] saturates. *)
Definition duration_since (now earlier : N) : N := (now - earlier)%N.

(** [validate_changes] *)
Fixpoint validate_changes (changes : list TupleChange) (store_id : StoreId) (previous : option ChangeId) :
    result PollError () :=
  match changes with
  | [] => Ok ()
  | change :: changes =>
      if negb (change.(tc_store_id) =? store_id)%N ||
         match previous with Some id => (change.(tc_id) <=? id)%N | None => false end
      then Err PEMalformed
      else validate_changes changes store_id (Some change.(tc_id))
  end.

Definition set_last_seen (id : option ChangeId) (state : StoreState) : StoreState :=
  mkStoreState id state.(ss_last_success) state.(ss_next_poll) state.(ss_backoff) state.(ss_initialized).

(** One changelog read: its policy checks, the read under its timeout, and the
    checks on the page. *)
Definition poll_page (store_id : StoreId) (state : StoreState) : prog (result PollError (Page TupleChange)) :=
  match limit_new 100000 config.(page_size), request_timeout_new config.(read_timeout) with
  | Ok _, Ok timeout =>
      now ← do Now;
      match deadline_from_timeout INSTANT_MAX now timeout with
      | Err _ => mret (Err PEPolicy)
      | Ok _ =>
          answer ← do (ReadChanges store_id (poll_options config.(page_size) state.(ss_last_seen)));
          mret (match answer with
                | None => Err PETimeout
                | Some page =>
                    page ← map_err PEStorage page;
                    _ ← validate_changes page.(page_items) store_id state.(ss_last_seen);
                    Ok page
                end)
      end
  | _, _ => mret (Err PEPolicy)
  end.

(** [poll_store]: at most [MAXIMUM_PAGES_PER_CYCLE] pages. *)
Fixpoint poll_pages (pages : nat) (store_id : StoreId) (state : StoreState) (changed : bool) :
    prog (StoreState * result PollError PollOutcome) :=
  match pages with
  | 0 => mret (state, Ok (mkPollOutcome changed false))
  | S pages =>
      page ← poll_page store_id state;
      match page with
      | Err e => mret (state, Err e)
      | Ok page =>
          match last page.(page_items) with
          | None =>
              match page.(page_continuation) with
              | Some _ => mret (state, Err PEMalformed)
              | None => mret (state, Ok (mkPollOutcome changed true))
              end
          | Some change =>
              let state := set_last_seen (Some change.(tc_id)) state in
              match page.(page_continuation) with
              | None => mret (state, Ok (mkPollOutcome true true))
              | Some _ => poll_pages pages store_id state true
              end
          end
      end
  end.

Definition poll_store (store_id : StoreId) (state : StoreState) : prog (StoreState * result PollError PollOutcome) :=
  poll_pages MAXIMUM_PAGES_PER_CYCLE store_id state false.

(** [jittered_backoff] *)
Definition jittered_backoff (store_id : StoreId) (base : N) : N :=
  let percent := saturating_add U32_MAX 80 (default_hash store_id base mod 41) in
  (duration_saturating_mul base percent / 100)%N.

(** [Actor::update_readiness] *)
Definition update_readiness (stores : Tracked) : prog () :=
  do (SetTracked (len stores));;
  now ← do Now;
  let millis := (fun state => duration_since now state.(ss_last_success) / 1000000)%N <$> bt_values stores in
  do (SetFreshnessAge (N.min U64_MAX (foldr N.max 0%N millis)));;
  do (ReadyStore (forallb (fun state =>
    state.(ss_initialized) && (duration_since now state.(ss_last_success) <=? config.(maximum_lag))%N)
    (bt_values stores))).

(** [state.initialized && now.duration_since(state.last_success) <= maximum_lag] *)
Definition still_fresh (state : StoreState) : prog bool :=
  if state.(ss_initialized)
  then now ← do Now; mret (duration_since now state.(ss_last_success) <=? config.(maximum_lag))%N
  else mret false.

(** [Actor::track] *)
Definition actor_track (stores : Tracked) (store_id : StoreId) : prog Tracked :=
  match bt_get store_id stores with
  | Some state =>
      fresh ← still_fresh state;
      do (RegistrationInsert store_id
            (if (fresh : bool) then ActiveUntil (state.(ss_last_success) + config.(maximum_lag)) else Pending));;
      update_readiness stores;;
      mret stores
  | None =>
      if (config.(channel_capacity) <=? len stores)%N then
        do (RegistrationInvalidate store_id);;
        do (Count Overflows);;
        flush;;
        update_readiness stores;;
        mret stores
      else
        state ← store_state_new;
        let stores := bt_insert store_id state stores in
        update_readiness stores;;
        mret stores
  end.

(** [Actor::restart_state]; every state is replaced by a new one. *)
Fixpoint renew_states (stores : Tracked) : prog Tracked :=
  match stores with
  | [] => mret []
  | (store_id, _) :: stores =>
      state ← store_state_new; stores ← renew_states stores; mret ((store_id, state) :: stores)
  end.

Definition restart_state (stores : Tracked) : prog Tracked :=
  stores ← renew_states stores;
  prog_each (fun store_id => do (RegistrationInsert store_id Pending)) (bt_keys stores);;
  do (Count Restarts);;
  flush;;
  update_readiness stores;;
  mret stores.

(** What [Actor::poll_due] does with the outcome of a poll. *)
Definition poll_succeeded (store_id : StoreId) (state : StoreState) (outcome : PollOutcome) : prog StoreState :=
  (if outcome.(po_changed) then flush else mret ());;
  now ← do Now;
  let state := mkStoreState state.(ss_last_seen) now (now + config.(poll_interval)) config.(poll_interval) true in
  do (RegistrationInsert store_id (ActiveUntil (now + config.(maximum_lag))));;
  do (Count SuccessfulPolls);;
  mret state.

Definition poll_behind (store_id : StoreId) (state : StoreState) (outcome : PollOutcome) : prog StoreState :=
  do (ReadyStore false);;
  (if outcome.(po_changed) then flush else mret ());;
  now ← do Now;
  do (RegistrationInsert store_id Pending);;
  do (Count SuccessfulPolls);;
  mret (mkStoreState state.(ss_last_seen) state.(ss_last_success) now config.(poll_interval) false).

Definition poll_failed (store_id : StoreId) (state : StoreState) : prog StoreState :=
  do (ReadyStore false);;
  flush;;
  do (RegistrationInsert store_id Pending);;
  now ← do Now;
  do (Count FailedPolls);;
  mret (mkStoreState None state.(ss_last_success) (now + jittered_backoff store_id state.(ss_backoff))
          (N.min (duration_saturating_mul state.(ss_backoff) 2) config.(maximum_lag)) false).

(** One store of [Actor::poll_due]. *)
Definition poll_one (stores : Tracked) (store_id : StoreId) : prog Tracked :=
  match bt_get store_id stores with
  | None => mret stores
  | Some state =>
      let stores := bt_remove store_id stores in
      now ← do Now;
      (if (config.(maximum_lag) <? duration_since now state.(ss_last_success))%N then
         do (ReadyStore false);;
         do (RegistrationInsert store_id Pending);;
         do (Count FailedPolls);;
         flush
       else mret ());;
      '(state, polled) ← poll_store store_id state;
      state ← match polled with
              | Ok outcome =>
                  if outcome.(po_caught_up) then poll_succeeded store_id state outcome
                  else poll_behind store_id state outcome
              | Err _ => poll_failed store_id state
              end;
      mret (bt_insert store_id state stores)
  end.

Fixpoint poll_each (stores : Tracked) (due : list StoreId) : prog Tracked :=
  match due with
  | [] => mret stores
  | store_id :: due => stores ← poll_one stores store_id; poll_each stores due
  end.

(** [Actor::poll_due] *)
Definition poll_due (stores : Tracked) : prog Tracked :=
  now ← do Now;
  let due := fst <$> filter (fun '(_, state) => (state.(ss_next_poll) <=? now)%N = true) stores in
  stores ← poll_each stores due;
  update_readiness stores;;
  mret stores.

(** [Drop for RunningGuard] *)
Definition running_guard_drop : prog () := do (ReadyStore false);; do (RunningStore false).

(** One turn of the loop of [Actor::run]; the task ends after [None]. *)
Definition actor_turn (stores : Tracked) : prog (option Tracked) :=
  let ended := do (ReadyStore false);; do (RunningStore false);; running_guard_drop;; mret None in
  selected ← do Select;
  match selected with
  | CtlCommand (Track store_id) => Some <$> actor_track stores store_id
  | CtlCommand Restart => stores ← restart_state stores; do Acknowledge;; mret (Some stores)
  | CtlCommand Stop => do Acknowledge;; ended
  | CtlClosed => ended
  | CtlTick => Some <$> poll_due stores
  end.

End actor.

(** ** The supervisor *)

Inductive InvalidationControllerError := CERuntimeUnavailable | CEChannelClosed | CECommandTimeout | CETaskFailed.

(** Waiting for an acknowledgement. *)
Definition await_reply : prog (result InvalidationControllerError ()) :=
  received ← do Await;
  mret (match received with
        | Received => Ok ()
        | AwaitTimedOut => Err CECommandTimeout
        | AwaitDropped => Err CEChannelClosed
        end).

(** [InvalidationController::restart] *)
Definition controller_restart : prog (result InvalidationControllerError ()) :=
  sent ← do (Send Restart);
  match sent with
  | SendOk => await_reply
  | SendTimedOut => mret (Err CECommandTimeout)
  | SendDisconnected => mret (Err CEChannelClosed)
  end.

(** [abort_join] *)
Definition abort_join (error : InvalidationControllerError) : prog (result InvalidationControllerError ()) :=
  do Abort;; _ ← do Await; mret (Err error).

(** [InvalidationController::stop] with the join handle it takes. *)
Definition controller_stop (join : bool) : prog (result InvalidationControllerError ()) :=
  if negb join then mret (Ok ())
  else
    sent ← do (Send Stop);
    match sent with
    | SendDisconnected => abort_join CEChannelClosed
    | SendTimedOut => abort_join CECommandTimeout
    | SendOk =>
        acknowledged ← await_reply;
        match acknowledged with
        | Err error => abort_join error
        | Ok _ =>
            joined ← do Await;
            match joined with
            | Received => mret (Ok ())
            | AwaitDropped => mret (Err CETaskFailed)
            | AwaitTimedOut => abort_join CECommandTimeout
            end
        end
    end.

(** [Drop for InvalidationController] *)
Definition controller_drop (join : bool) : prog () :=
  (if join then do Abort else mret ());; do (RunningStore false).

End programs.

(** The state in which [InvalidationController::start] spawns the actor: no
    store is registered, and one flush covers what happened before. *)
Definition controller_started {Db} (now : N) (db : Db) : Shared Db :=
  mkShared now db [(now, db)] [] 1 db (mkFlags true true true false) ∅ [] ∅
    (count Flushes (mkDiagnostics (fun _ => 0%N) 0 0)).
