(* ===== verification/DecisionCache.v ===== *)
(** * The decision cache

    [crates/openfga-cache/src/decision.rs]: the identity of a decision, and the
    cache guarded by the watermark; [CachedCheckEvaluator] of
    [crates/openfga-check/src/evaluator.rs]; and [CachedTupleStorage::write_tuples]
    of [crates/openfga-cache/src/tuple.rs], whose mutations advance the
    watermark.  HMAC is the [hmac] crate's and a parameter; the fingerprint of a
    compiled model is an argument. *)

From S2P Require Import Prelude Ordered Identifier Reference Context Fingerprint Condition Storage Model TupleValidation.
From S2P Require Import Budget Reducer Scheduler CheckSpec CheckTheorems Evaluator Batch Controller.
From stdpp Require Import gmap.

(** ** Configuration *)

Definition MAXIMUM_DECISION_TTL : N := 24 * 3600 * 1000000000.
Definition MAXIMUM_DECISION_CACHE_BYTES : N := 512 * 1024 * 1024.

Record DecisionCacheConfig := mkDecisionCacheConfig { maximum_weight : N; dc_ttl : N }.

Inductive DecisionCacheConfigError := DCMaximumWeight | DCTtl.

(** [DecisionCacheConfig::new]; the weight is not zero. *)
Definition decision_cache_config_new (maximum_weight ttl : N) : result DecisionCacheConfigError DecisionCacheConfig :=
  if (MAXIMUM_DECISION_CACHE_BYTES <? maximum_weight)%N then Err DCMaximumWeight
  else if (ttl =? 0)%N || (MAXIMUM_DECISION_TTL <? ttl)%N then Err DCTtl
  else Ok (mkDecisionCacheConfig maximum_weight ttl).

(** ** Decision keys *)

Class HmacSha256 := hmac_sha256 : list N → list N → Fingerprint.
Class HmacSha256Laws `{HmacSha256} : Prop := hmac_sha256_length key bytes : length (hmac_sha256 key bytes) = 32.

Definition EVALUATOR_SEMANTICS_VERSION : N := 1.

Section keys.
Context `{ConditionEngine, UlidCodec, Sha256, HmacSha256}.
(** The key of [DecisionKeyHasher], and [CompiledModel::fingerprint]. *)
Variable hasher : list N.
Variable model_fingerprint : CompiledModel → Fingerprint.

(** [DecisionKeyHasher::keyed_context] and what it hashes. *)
Definition context_message (query : QueryContext) : list N :=
  fingerprint_contextual_tuples query.(qc_contextual_tuples) ++ fingerprint_context query.(qc_condition_context).

Definition keyed_context (query : QueryContext) : Fingerprint := hmac_sha256 hasher (context_message query).

(** What [DecisionKey::for_check] hashes. *)
Definition decision_bytes (command : CheckCommand) (m : CompiledModel) : FingerprintBuilder :=
  let query := command.(cc_query) in
  let fingerprint := builder_new "openfga.check-decision-key.v1" in
  let fingerprint := write_str (ulid_to_string query.(qc_store_id)) fingerprint in
  let fingerprint := write_str (ulid_to_string m.(model_id)) fingerprint in
  let fingerprint := write_bytes (model_fingerprint m) fingerprint in
  let fingerprint := write_bytes (tuple_key_fingerprint command.(cc_tuple)) fingerprint in
  let fingerprint := write_bytes (keyed_context query) fingerprint in
  write_u32 EVALUATOR_SEMANTICS_VERSION fingerprint.

(** [DecisionKey::for_check] *)
Definition decision_key (command : CheckCommand) (m : CompiledModel) : DecisionKey :=
  mkDecisionKey command.(cc_query).(qc_store_id) (finish (decision_bytes command m)).

End keys.

(** ** The cache *)

Section cache.
Context `{ConditionEngine}.
(** Whether a controller is attached. *)
Variable controlled : bool.

Definition permitted (store_id : StoreId) : prog bool :=
  if controlled then permits_caching store_id else mret true.

(** [DecisionCache::get] *)
Definition decision_get (key : DecisionKey) : prog (option bool) :=
  (if controlled then handle_track key.(dk_store_id) else mret ());;
  allowed ← permitted key.(dk_store_id);
  if negb allowed then mret None
  else
    before ← do WatermarkCurrent;
    entry ← do (EntriesGet key);
    after ← do WatermarkCurrent;
    match entry with
    | Some entry =>
        if (before =? after)%N && (entry.(de_watermark) =? after)%N then
          still ← permitted key.(dk_store_id);
          mret (if (still : bool) then Some entry.(de_value) else None)
        else mret None
    | None => mret None
    end.

(** [DecisionCache::insert_if_unchanged] *)
Definition insert_if_unchanged (started_at : N) (key : DecisionKey) (value : bool) : prog bool :=
  current ← do WatermarkCurrent;
  if negb (current =? started_at)%N then mret false
  else
    allowed ← permitted key.(dk_store_id);
    if negb allowed then mret false
    else
      do (EntriesInsert key (mkDecisionEntry value started_at));;
      current ← do WatermarkCurrent;
      if (current =? started_at)%N then permitted key.(dk_store_id) else mret false.

End cache.

(** ** The caching evaluator *)

Definition cached_outcome (allowed : bool) : CheckOutcome := mkCheckOutcome allowed RCached (mkCounters 0 0 0 0 0 0).

Section evaluator.
Context `{ConditionEngine, UlidCodec, Sha256, HmacSha256}.
Variable controlled : bool.
Variable hasher : list N.
Variable model_fingerprint : CompiledModel → Fingerprint.
Variable limits : InputLimits.

(** The two checks made before and after a lookup: cancellation, then the
    deadline. *)
Definition still_wanted (deadline : N) (cancelled_code elapsed_code : string) : prog (result CheckError ()) :=
  stop ← do IsCancelled;
  if (stop : bool) then mret (Err (cancelled cancelled_code))
  else
    now ← do Now;
    mret (if is_elapsed deadline now then Err (timed_out elapsed_code) else Ok ()).

(** [CachedCheckEvaluator::check] *)
Definition cached_check (command : CheckCommand) (m : CompiledModel) (budget : CheckBudget)
    (meter : option CheckWorkMeter) : prog (result CheckError CheckOutcome) :=
  let deadline := command.(cc_query).(qc_deadline) in
  wanted ← still_wanted deadline CHECK_CANCELLED_CODE CHECK_DEADLINE_ELAPSED_CODE;
  match wanted with
  | Err e => mret (Err e)
  | Ok _ =>
      let delegate := map_err canonicalize_check_control_error <$> do (DelegateCheck command m budget meter) in
      match command.(cc_query).(qc_consistency) with
      | HigherConsistency => delegate
      | MinimizeLatency =>
          let key := decision_key hasher model_fingerprint command m in
          hit ← decision_get controlled key;
          match hit with
          | Some allowed =>
              wanted ← still_wanted deadline CHECK_CANCELLED_CODE CHECK_DEADLINE_ELAPSED_CODE;
              mret (_ ← wanted; Ok (cached_outcome allowed))
          | None =>
              started_at ← do WatermarkCurrent;
              outcome ← delegate;
              match outcome with
              | Err e => mret (Err e)
              | Ok outcome =>
                  _ ← insert_if_unchanged controlled started_at key outcome.(co_allowed);
                  mret (Ok outcome)
              end
          end
      end
  end.

(** One key of [batch_decision_keys]. *)
Definition batch_decision_key (query : QueryContext) (m : CompiledModel) (item : BatchCheckItem) : option DecisionKey :=
  match context_overlay query.(qc_condition_context) item.(bi_condition_context) limits with
  | Err _ => None
  | Ok condition_context =>
      match contextual_tuples_new
              (bt_values (merge_contextual query.(qc_contextual_tuples) item.(bi_contextual_tuples))) limits with
      | Err _ => None
      | Ok _ => Some (decision_key hasher model_fingerprint (item_command query item condition_context) m)
      end
  end.

(** Looking up the keys until one is missing. *)
Fixpoint lookup_all (keys : list (option DecisionKey)) : prog (option (list bool)) :=
  match keys with
  | [] => mret (Some [])
  | None :: _ => mret None
  | Some key :: keys =>
      hit ← decision_get controlled key;
      match hit with
      | None => mret None
      | Some allowed => rest ← lookup_all keys; mret (cons allowed <$> rest)
      end
  end.

(** Inserting the answers of a batch. *)
Fixpoint insert_all (started_at : N) (answers : list (option DecisionKey * BatchCheckResult)) : prog () :=
  match answers with
  | [] => mret ()
  | (Some key, mkBatchCheckResult _ (Ok outcome)) :: answers =>
      _ ← insert_if_unchanged controlled started_at key outcome.(co_allowed); insert_all started_at answers
  | _ :: answers => insert_all started_at answers
  end.

(** [CachedCheckEvaluator::batch_check] *)
Definition cached_batch_check (command : BatchCheckCommand) (m : CompiledModel) (budget : CheckBudget) :
    prog (result CheckError (list BatchCheckResult)) :=
  let query := command.(bc_query) in
  wanted ← still_wanted query.(qc_deadline) "batch_decision_cache_lookup_cancelled"
             "batch_decision_cache_lookup_deadline_elapsed";
  match wanted with
  | Err e => mret (Err e)
  | Ok _ =>
      match query.(qc_consistency) with
      | HigherConsistency => do (DelegateBatch command m budget)
      | MinimizeLatency =>
          let keys := batch_decision_key query m <$> command.(bc_items) in
          hits ← lookup_all keys;
          match hits with
          | Some cached =>
              wanted ← still_wanted query.(qc_deadline) "batch_decision_cache_hit_cancelled"
                         "batch_decision_cache_hit_deadline_elapsed";
              mret (_ ← wanted;
                    Ok (zip_with (fun item allowed =>
                          mkBatchCheckResult item.(bi_correlation_id) (Ok (cached_outcome allowed)))
                          command.(bc_items) cached))
          | None =>
              started_at ← do WatermarkCurrent;
              outcome ← do (DelegateBatch command m budget);
              match outcome with
              | Err e => mret (Err e)
              | Ok results => insert_all started_at (zip keys results);; mret (Ok results)
              end
          end
      end
  end.

End evaluator.

(** ** Writes through the cached storage *)

(** [CachedTupleStorage::write_tuples] *)
Definition cached_write `{ConditionEngine} (controlled : bool) (store_id : StoreId) (deletes : list TupleKey)
    (writes : list RelationshipTuple) (options : TupleWriteOptions) : prog (result StorageError MutationOutcome) :=
  (if controlled then handle_track store_id else mret ());;
  outcome ← do (WriteTuples store_id deletes writes options);
  match outcome with
  | Err e => mret (Err e)
  | Ok outcome =>
      (match outcome.(change_ids) with
       | [] => mret ()
       | _ => _ ← do WatermarkAdvance; mret ()
       end);;
      mret (Ok outcome)
  end.
