(* ===== verification/CacheTheory.v ===== *)
(** * Freshness of cached decisions

    The tasks of a process that share the decision cache: requests, the actor of
    the invalidation controller, and an environment that commits changes, lets
    time pass and evicts cache entries.  The invariant is proved with a
    rely-guarantee calculus: a task tolerates what the others may do ([rely])
    between any two of its operations. *)

From S2P Require Import Prelude Ordered Identifier Reference Context Fingerprint Condition Storage Model TupleValidation.
From S2P Require Import Budget Reducer Scheduler CheckSpec CheckTheorems Evaluator Batch Controller DecisionCache.
From stdpp Require Import gmap.

Section system.
Context `{ConditionEngineLaws, !CheckEvaluator, !CheckEvaluatorLaws, UlidCodec, Sha256, HmacSha256}.
Context {Db : Type} `{!ChangeStore Db, !ChangeStoreLaws Db}.
Variable config : InvalidationControllerConfig.
Variable limits : InputLimits.
Variable INSTANT_MAX : N.
Variable default_hash : StoreId → N → N.
Variable hasher : list N.
Variable model_fingerprint : CompiledModel → Fingerprint.
(** The questions requests may ask. *)
Variable asked : CheckCommand → CompiledModel → Prop.

Abbreviation key_of := (decision_key hasher model_fingerprint).
Abbreviation performs e := (perform (Db := Db) config limits e).

(** ** Requests *)

Inductive request :=
| RqCheck (c : CheckCommand) (m : CompiledModel) (b : CheckBudget) (meter : option CheckWorkMeter)
| RqBatch (c : BatchCheckCommand) (m : CompiledModel) (b : CheckBudget)
| RqWrite (store : StoreId) (deletes : list TupleKey) (writes : list RelationshipTuple) (o : TupleWriteOptions)
| RqRestart
| RqStop (join : bool)
| RqDrop (join : bool).

Inductive response :=
| RsCheck (r : result CheckError CheckOutcome)
| RsBatch (r : result CheckError (list BatchCheckResult))
| RsWrite (r : result StorageError MutationOutcome)
| RsController (r : result InvalidationControllerError ()).

Definition serve (r : request) : prog response :=
  match r with
  | RqCheck c m b meter => RsCheck <$> cached_check true hasher model_fingerprint c m b meter
  | RqBatch c m b => RsBatch <$> cached_batch_check true hasher model_fingerprint limits c m b
  | RqWrite store deletes writes o => RsWrite <$> cached_write true store deletes writes o
  | RqRestart => RsController <$> controller_restart
  | RqStop join => RsController <$> controller_stop join
  | RqDrop join => (fun _ => RsController (Ok ())) <$> controller_drop join
  end.

(** The command a batch asks about an item. *)
Definition item_asks (q : QueryContext) (m : CompiledModel) (item : BatchCheckItem) : Prop :=
  ∀ context, context_overlay q.(qc_condition_context) item.(bi_condition_context) limits = Ok context →
    asked (item_command q item context) m.

Definition admissible (r : request) : Prop :=
  match r with
  | RqCheck c m _ _ => asked c m
  | RqBatch c m _ => ∀ item, item ∈ c.(bc_items) → item_asks c.(bc_query) m item
  | _ => True
  end.

(** ** The process *)

(** A request, the state in which it arrived, and what is left of it. *)
Record Client := mkClient { cl_request : request; cl_started : Shared Db; cl_program : prog response }.

Record System := mkSystem {
  sys_shared : Shared Db;
  sys_actor : option (prog (option Tracked));
  sys_clients : list Client;
}.

Definition set_shared (sys : System) (s : Shared Db) : System := mkSystem s sys.(sys_actor) sys.(sys_clients).
Definition set_actor (sys : System) (p : option (prog (option Tracked))) : System :=
  mkSystem sys.(sys_shared) p sys.(sys_clients).

(** The arrival of a request. *)
Definition arrive (sys : System) (r : request) : System :=
  mkSystem sys.(sys_shared) sys.(sys_actor) (sys.(sys_clients) ++ [mkClient r sys.(sys_shared) (serve r)]).

Inductive step (sys : System) : System → Prop :=
| step_tick now :
    (sys.(sys_shared).(sh_now) <= now)%N →
    step sys (set_shared sys (set_now sys.(sys_shared) now))
| step_commit db :
    db_le sys.(sys_shared).(sh_db) db →
    step sys (set_shared sys (commit sys.(sys_shared) db))
| step_evict_registration store :
    step sys (set_shared sys
      (set_registrations sys.(sys_shared) (delete store sys.(sys_shared).(sh_registrations))))
| step_evict_entry key :
    step sys (set_shared sys (set_entries sys.(sys_shared) (delete key sys.(sys_shared).(sh_entries))))
| step_arrive r :
    admissible r →
    step sys (arrive sys r)
| step_client i r s0 B (e : event B) k b s' :
    sys.(sys_clients) !! i = Some (mkClient r s0 (Do e k)) → performs e sys.(sys_shared) b s' →
    step sys (mkSystem s' sys.(sys_actor) (<[i := mkClient r s0 (k b)]> sys.(sys_clients)))
| step_actor B (e : event B) k b s' :
    sys.(sys_actor) = Some (Do e k) → performs e sys.(sys_shared) b s' →
    step sys (mkSystem s' (Some (k b)) sys.(sys_clients))
| step_turn stores :
    sys.(sys_actor) = Some (Done (Some stores)) →
    step sys (set_actor sys (Some (actor_turn config INSTANT_MAX default_hash stores)))
| step_end :
    sys.(sys_actor) = Some (Done None) →
    step sys (mkSystem (set_open sys.(sys_shared) false) None sys.(sys_clients))
| step_aborted p :
    sys.(sys_actor) = Some p → sys.(sys_shared).(sh_flags).(fl_abort) = true →
    step sys (set_actor sys (Some (running_guard_drop;; mret None))).

(** A process right after [InvalidationController::start]. *)
Definition started (now : N) (db : Db) : System :=
  mkSystem (controller_started now db) (Some (Done (Some []))) [].

(** ** Interference *)

(** What any step may do: time and the backend move on, history grows by entries
    that are not earlier, and the generation is that of the latest advance. *)
Record rely (s s' : Shared Db) : Prop := {
  rely_now : (s.(sh_now) <= s'.(sh_now))%N;
  rely_db : db_le s.(sh_db) s'.(sh_db);
  rely_gen : db_le s.(sh_gen) s'.(sh_gen);
  rely_advances : (s.(sh_advances) <= s'.(sh_advances))%N;
  rely_same : s.(sh_advances) = s'.(sh_advances) → s.(sh_gen) = s'.(sh_gen);
  rely_commits : ∃ l, s'.(sh_commits) = s.(sh_commits) ++ l ∧ Forall (fun c => s.(sh_now) <= c.1)%N l;
  rely_reads : ∃ l, s'.(sh_reads) = s.(sh_reads) ++ l ∧ Forall (fun r => s.(sh_now) <= r.2)%N l;
}.

(** What the tasks other than the actor may do: they read no changelog. *)
Definition rely_actor (s s' : Shared Db) : Prop := rely s s' ∧ s'.(sh_reads) = s.(sh_reads).

#[global] Instance rely_preorder : PreOrder rely.
Proof.
  split.
  - intros s. split; try done; try reflexivity; (exists []; split; [by rewrite app_nil_r|constructor]).
  - intros s1 s2 s3 [] []. destruct rely_commits0 as (c1 & Ec1 & Hc1), rely_commits1 as (c2 & Ec2 & Hc2).
    destruct rely_reads0 as (r1 & Er1 & Hr1), rely_reads1 as (r2 & Er2 & Hr2).
    split; try lia; try (by etrans).
    + intros E. rewrite rely_same0 by lia. apply rely_same1. lia.
    + exists (c1 ++ c2). rewrite Ec2, Ec1, app_assoc. split; [done|]. apply Forall_app. split; [done|].
      eapply Forall_impl; [exact Hc2|]. simpl. lia.
    + exists (r1 ++ r2). rewrite Er2, Er1, app_assoc. split; [done|]. apply Forall_app. split; [done|].
      eapply Forall_impl; [exact Hr2|]. simpl. lia.
Qed.

#[global] Instance rely_actor_preorder : PreOrder rely_actor.
Proof. split; [by split; [reflexivity|]|]. intros s1 s2 s3 [Hr1 E1] [Hr2 E2]. split; [by etrans|congruence]. Qed.

(** ** The invariant *)

(** [ls] is the instant at which a poll of the store found its changelog read to
    the end: the last read before it was at [r], and every change committed
    before [r] is in the generation. *)
Definition certified (store : StoreId) (ls : N) (s : Shared Db) : Prop :=
  (ls <= s.(sh_now))%N ∧
  ∃ r, (store, r) ∈ s.(sh_reads) ∧ (r <= ls)%N ∧
    (∀ r', (store, r') ∈ s.(sh_reads) → (r' <= r)%N ∨ (ls <= r')%N) ∧
    ∀ c, c ∈ s.(sh_commits) → (c.1 < r)%N → db_log c.2 store `prefix_of` db_log s.(sh_gen) store.

(** The decision of a question over one state of the backend. *)
Definition decided (c : CheckCommand) (m : CompiledModel) (db : Db) (allowed : bool) : Prop :=
  ∃ resolution, command_decides c m (db_rows db m.(model_store_id)) (mkDecision allowed resolution).

Record shared_ok (s : Shared Db) : Prop := {
  ok_gen : db_le s.(sh_gen) s.(sh_db);
  ok_commits : Forall (fun c => (c.1 <= s.(sh_now))%N ∧ db_le c.2 s.(sh_db)) s.(sh_commits);
  ok_reads : Forall (fun r => r.2 <= s.(sh_now))%N s.(sh_reads);
  ok_registrations store deadline :
    s.(sh_registrations) !! store = Some (ActiveUntil deadline) →
    ∃ ls, deadline = (ls + config.(maximum_lag))%N ∧ certified store ls s;
  ok_marks key entry :
    s.(sh_entries) !! key = Some entry → (entry.(de_watermark) <= s.(sh_advances))%N;
  ok_entries key entry :
    s.(sh_entries) !! key = Some entry → (s.(sh_advances) < 2 ^ 64)%N → entry.(de_watermark) = watermark s →
    ∃ c m db, asked c m ∧ key_of c m = key ∧ decided c m db entry.(de_value) ∧
      db_le s.(sh_gen) db ∧ db_le db s.(sh_db);
}.

Lemma certified_stable store ls s s' : certified store ls s → rely s s' → certified store ls s'.
Proof.
  intros [Hls (r & Hr & Hle & Hlast & Hseen)] []. destruct rely_commits0 as (lc & Ec & Hc), rely_reads0 as (lr & Er & Hrd).
  rewrite Forall_forall in Hc. rewrite Forall_forall in Hrd. split; [lia|]. exists r. rewrite Er, Ec. split_and!; [apply elem_of_app; by left|done| |].
  - intros r' [Hr'|Hr']%elem_of_app; [by auto|]. right. apply Hrd in Hr'. simpl in Hr'. lia.
  - intros c [Hin|Hin]%elem_of_app Ht; [|apply Hc in Hin; lia]. etrans; [by apply Hseen|]. by apply db_log_append.
Qed.

(** ** Programs under interference *)

Fixpoint wp {A} (R G : Shared Db → Shared Db → Prop) (p : prog A) (Q : A → Shared Db → Prop) (s : Shared Db) : Prop :=
  match p with
  | Done a => Q a s
  | Do e k => ∀ s1 b s2, R s s1 → shared_ok s1 → performs e s1 b s2 → shared_ok s2 ∧ G s1 s2 ∧ wp R G (k b) Q s2
  end.

Lemma prog_wp_bind {A B} R G (p : prog A) (f : A → prog B) Q s :
  wp R G p (fun a s' => wp R G (f a) Q s') s → wp R G (p ≫= f) Q s.
Proof.
  revert s. induction p as [a|B' e k IH]; intros s Hp; [done|]. intros s1 b s2 Hr Hok Hperf.
  destruct (Hp s1 b s2 Hr Hok Hperf) as (Hok2 & Hg & Hk). split_and!; [done..|]. by apply IH.
Qed.

(** A task that guarantees less interference to others can be used by one that
    guarantees less of it. *)
Lemma wp_guarantee {A} (R G G' : Shared Db → Shared Db → Prop) (p : prog A) Q s :
  (∀ s s', G s s' → G' s s') → wp R G p Q s → wp R G' p Q s.
Proof.
  intros HG. revert s. induction p as [a|B e k IH]; intros s Hp; [done|]. intros s1 b s2 Hr Hok Hperf.
  destruct (Hp s1 b s2 Hr Hok Hperf) as (Hok2 & Hg & Hk). split_and!; [done|by apply HG|]. by apply IH.
Qed.

(** What happens meanwhile is in the closure [S] of interference and guarantee. *)
Lemma prog_wp_mono {A} (R G S : Shared Db → Shared Db → Prop) `{!PreOrder S} (p : prog A) (Q Q' : A → Shared Db → Prop) s :
  (∀ s s', R s s' → S s s') → (∀ s s', G s s' → S s s') →
  (∀ a s', S s s' → Q a s' → Q' a s') → wp R G p Q s → wp R G p Q' s.
Proof.
  intros HR HG. revert s. induction p as [a|B e k IH]; intros s HQ Hp; [apply HQ; [reflexivity|done]|].
  intros s1 b s2 Hr Hok Hperf. destruct (Hp s1 b s2 Hr Hok Hperf) as (Hok2 & Hg & Hk). split_and!; [done..|].
  eapply IH, Hk. intros a s' Hs. apply HQ. etrans; [by apply HR|]. etrans; [by apply HG|done].
Qed.

(** ** Operations *)

(** Operations that touch neither the backend nor the watermark nor an entry,
    and register no store as active. *)
Definition quiet {B} (e : event B) : Prop :=
  match e with
  | WatermarkAdvance | ReadChanges _ _ | EntriesInsert _ _ | WriteTuples _ _ _ _
  | RegistrationInsert _ (ActiveUntil _) => False
  | _ => True
  end.

Lemma quiet_step s s' :
  s'.(sh_now) = s.(sh_now) → s'.(sh_db) = s.(sh_db) → s'.(sh_commits) = s.(sh_commits) →
  s'.(sh_reads) = s.(sh_reads) → s'.(sh_advances) = s.(sh_advances) → s'.(sh_gen) = s.(sh_gen) →
  (∀ store deadline, s'.(sh_registrations) !! store = Some (ActiveUntil deadline) →
     s.(sh_registrations) !! store = Some (ActiveUntil deadline)) →
  (∀ key entry, s'.(sh_entries) !! key = Some entry → s.(sh_entries) !! key = Some entry) →
  shared_ok s → shared_ok s' ∧ rely_actor s s'.
Proof.
  intros E1 E2 E3 E4 E5 E6 Hreg Hent Hok.
  assert (Hr : rely s s').
  { split; rewrite ?E1, ?E2, ?E5, ?E6; try done; try reflexivity.
    - exists []. by rewrite E3, app_nil_r.
    - exists []. by rewrite E4, app_nil_r. }
  split; [|by split]. destruct Hok. split.
  - by rewrite E2, E6.
  - by rewrite E1, E2, E3.
  - by rewrite E1, E4.
  - intros store deadline (ls & -> & Hc)%Hreg%ok_registrations0. exists ls. split; [done|]. by eapply certified_stable.
  - intros key entry Hk%Hent. rewrite E5. by eapply ok_marks0.
  - intros key entry Hk%Hent. unfold watermark. rewrite E5, E6, E2. by apply ok_entries0.
Qed.

Lemma quiet_perform {B} (e : event B) s b s' :
  quiet e → performs e s b s' → shared_ok s → shared_ok s' ∧ rely_actor s s'.
Proof.
  intros Hq Hp. destruct e; simpl in Hq, Hp; try done;
    repeat match goal with H : _ ∧ _ |- _ => destruct H | H : ∃ _, _ |- _ => destruct H
           | H : match ?x with _ => _ end |- _ => destruct x end; subst;
    apply quiet_step; try done; simpl; intros store' deadline.
  - destruct (decide (store = store')) as [->|Hne].
    + by rewrite lookup_insert_eq.
    + by rewrite lookup_insert_ne.
  - intros Hd. by apply lookup_delete_Some in Hd as [_ ?].
Qed.

Lemma watermark_le (s : Shared Db) : (watermark s <= s.(sh_advances))%N.
Proof. apply N.Div0.mod_le. Qed.

Lemma watermark_small (s : Shared Db) : (s.(sh_advances) < 2 ^ 64)%N → watermark s = s.(sh_advances).
Proof. apply N.mod_small. Qed.

Lemma advance_ok s : shared_ok s → shared_ok (advance s) ∧ rely_actor s (advance s).
Proof.
  intros [].
  assert (Hr : rely s (advance s)).
  { split; simpl; try done; try reflexivity; [lia|intros; lia|..]; (exists []; split; [by rewrite app_nil_r|constructor]). }
  split; [|by split]. split; simpl; try done; try reflexivity.
  - intros store deadline (ls & -> & Hc)%ok_registrations0. exists ls. split; [done|]. by eapply certified_stable.
  - intros key entry Hk. specialize (ok_marks0 _ _ Hk). lia.
  - intros key entry Hk Hlt E. exfalso. specialize (ok_marks0 _ _ Hk). rewrite E, watermark_small in ok_marks0 by done.
    simpl in *. lia.
Qed.

Lemma commit_ok s db : db_le s.(sh_db) db → shared_ok s → shared_ok (commit s db) ∧ rely_actor s (commit s db).
Proof.
  intros Hle [].
  assert (Hr : rely s (commit s db)).
  { split; simpl; try done; try reflexivity.
    - exists [(sh_now s, db)]. split; [done|]. by repeat constructor.
    - exists []. split; [by rewrite app_nil_r|constructor]. }
  split; [|by split]. split; simpl; try done.
  - by etrans.
  - apply Forall_app. split; [|by repeat constructor]. eapply Forall_impl; [done|]. simpl. intros c [? ?].
    split; [done|]. by etrans.
  - intros store deadline (ls & -> & Hc)%ok_registrations0. exists ls. split; [done|]. by eapply certified_stable.
  - intros key entry Hk Hlt E. destruct (ok_entries0 key entry Hk Hlt E) as (c & m & d & Ha & Hkey & Hd & Hg & Hle').
    exists c, m, d. split_and!; try done. by etrans.
Qed.

Lemma tick_ok s now : (s.(sh_now) <= now)%N → shared_ok s → shared_ok (set_now s now) ∧ rely_actor s (set_now s now).
Proof.
  intros Hle [].
  assert (Hr : rely s (set_now s now)).
  { split; simpl; try done; try reflexivity; (exists []; split; [by rewrite app_nil_r|constructor]). }
  split; [|by split]. split; simpl; try done.
  - eapply Forall_impl; [done|]. simpl. intros c [? ?]. split; [lia|done].
  - eapply Forall_impl; [done|]. simpl. lia.
  - intros store deadline (ls & -> & Hc)%ok_registrations0. exists ls. split; [done|]. by eapply certified_stable.
Qed.

(** A read of a changelog: history records it. *)
Lemma note_read_ok s store : shared_ok s → shared_ok (note_read s store) ∧ rely s (note_read s store).
Proof.
  intros [].
  assert (Hr : rely s (note_read s store)).
  { split; simpl; try done; try reflexivity.
    - exists []. split; [by rewrite app_nil_r|constructor].
    - exists [(store, sh_now s)]. split; [done|]. by repeat constructor. }
  split; [|done]. split; simpl; try done.
  - apply Forall_app. split; [done|]. by repeat constructor.
  - intros st deadline (ls & -> & Hc)%ok_registrations0. exists ls. split; [done|]. by eapply certified_stable.
Qed.

(** ** Harmless programs *)

(** Programs of quiet operations and advances keep the invariant whatever is
    known, and read no changelog. *)
Definition harmless_event {B} (e : event B) : Prop :=
  match e with WatermarkAdvance => True | _ => quiet e end.

Fixpoint harmless {A} (p : prog A) : Prop :=
  match p with
  | Done _ => True
  | Do e k => harmless_event e ∧ ∀ b, harmless (k b)
  end.

Lemma harmless_perform {B} (e : event B) s b s' :
  harmless_event e → performs e s b s' → shared_ok s → shared_ok s' ∧ rely_actor s s'.
Proof.
  intros He. assert (Hq : quiet e ∨ ∃ E : B = N, eq_rect B event e N E = WatermarkAdvance).
  { destruct e; simpl in He; auto. right. by exists eq_refl. }
  destruct Hq as [Hq|[E He']]; [by apply quiet_perform|]. subst B. simpl in He'. subst e. intros [_ ->]. apply advance_ok.
Qed.

Lemma harmless_bind {A B} (p : prog A) (f : A → prog B) :
  harmless p → (∀ a, harmless (f a)) → harmless (p ≫= f).
Proof. induction p as [a|C e k IH]; [intros _ Hf; apply Hf|]. intros [He Hk] Hf. split; [done|]. intros b. apply IH; auto. Qed.

Lemma harmless_do {B} (e : event B) : harmless_event e → harmless (do e).
Proof. exact (fun He => conj He (fun _ => I)). Qed.

Lemma harmless_ret {A} (a : A) : harmless (mret a).
Proof. done. Qed.

Lemma wp_harmless {A} (R G : Shared Db → Shared Db → Prop) (p : prog A) s :
  (∀ s s', rely_actor s s' → G s s') → harmless p → wp R G p (fun _ _ => True) s.
Proof.
  intros HG. revert s. induction p as [a|B e k IH]; intros s Hp; [done|]. destruct Hp as [He Hk].
  intros s1 b s2 Hr Hok Hperf. destruct (harmless_perform e s1 b s2 He Hperf Hok) as [Hok2 Hg].
  split_and!; [done|by apply HG|]. apply IH, Hk.
Qed.

(** One quiet operation. *)
Lemma wp_quiet {A B} (R G : Shared Db → Shared Db → Prop) (e : event B) (f : B → prog A) Q s :
  (∀ s s', rely_actor s s' → G s s') → quiet e →
  (∀ s1 b s2, R s s1 → shared_ok s1 → shared_ok s2 → rely_actor s1 s2 → performs e s1 b s2 → wp R G (f b) Q s2) →
  wp R G (do e ≫= f) Q s.
Proof.
  intros HG He Hf s1 b s2 Hr Hok Hperf. destruct (quiet_perform e s1 b s2 He Hperf Hok) as [Hok2 Hg].
  split_and!; [done|by apply HG|]. by apply (Hf s1 b s2).
Qed.

Lemma harmless_flush : harmless flush.
Proof. by repeat split. Qed.

Lemma harmless_handle_track store : harmless (handle_track store).
Proof.
  apply harmless_bind; [by apply harmless_do|]. intros [r|]; [done|].
  split; [done|intros ?; split; [done|intros ?; split; [done|]]]. intros []; by repeat split.
Qed.

Lemma harmless_permits_caching store : harmless (permits_caching store).
Proof.
  split; [done|]. intros []; [|done]. split; [done|]. intros [[|deadline]|]; try done. split; [done|]. intros now. simpl.
  destruct (now <=? deadline)%N; [by split|]. split; [done|]. intros []; by repeat split.
Qed.

Lemma harmless_each {A} (f : A → prog ()) l : (∀ x, harmless (f x)) → harmless (prog_each f l).
Proof. intros Hf. induction l as [|x l IH]; [done|]. apply harmless_bind; [apply Hf|]. by intros _. Qed.

Lemma harmless_update_readiness stores : harmless (update_readiness config stores).
Proof. by repeat split. Qed.

(** ** Requests against the cache *)

Abbreviation client := (wp rely rely_actor).

Lemma rely_actor_rely s s' : rely_actor s s' → rely s s'.
Proof. by intros []. Qed.

Lemma client_mono {A} (p : prog A) (Q Q' : A → Shared Db → Prop) s :
  (∀ a s', rely s s' → Q a s' → Q' a s') → client p Q s → client p Q' s.
Proof. apply prog_wp_mono; [apply _|done|apply rely_actor_rely]. Qed.

Lemma client_seq {A B} (p : prog A) (f : A → prog B) P Q s :
  client p P s → (∀ a s', rely s s' → P a s' → client (f a) Q s') → client (p ≫= f) Q s.
Proof. intros Hp Hf. apply prog_wp_bind. by eapply client_mono. Qed.

Lemma client_harmless {A B} (p : prog A) (f : A → prog B) Q s :
  harmless p → (∀ a s', rely s s' → client (f a) Q s') → client (p ≫= f) Q s.
Proof. intros Hp Hf. eapply client_seq; [by apply wp_harmless|]. intros a s' Hs _. by apply Hf. Qed.

Lemma client_fmap {A B} (f : A → B) (p : prog A) Q s : client p (fun a s' => Q (f a) s') s → client (f <$> p) Q s.
Proof. intros Hp. by apply prog_wp_bind. Qed.

(** A quiet operation of a request: [s2] is the state after it. *)
Lemma client_do {A B} (e : event B) (f : B → prog A) Q s :
  quiet e →
  (∀ s1 b s2, rely s s1 → shared_ok s1 → rely s1 s2 → performs e s1 b s2 → client (f b) Q s2) →
  client (do e ≫= f) Q s.
Proof. intros He Hf. apply wp_quiet; [done..|]. intros s1 b s2 Hr Hok _ [Hr2 _] Hp. by eapply Hf. Qed.

(** [permits_caching] answers yes only while the store is certified. *)
Lemma client_permits store s :
  client (permits_caching store)
    (fun b s' => b = true → ∃ ls, (s.(sh_now) <= ls + config.(maximum_lag))%N ∧ certified store ls s') s.
Proof.
  apply client_do; [done|]. intros s1 running s2 Hr1 _ Hr2 _. destruct running; [|done].
  apply client_do; [done|]. intros s3 registration s4 Hr3 Hok3 Hr4 [Hreg _].
  destruct registration as [[|deadline]|]; [done| |done]. symmetry in Hreg.
  destruct (ok_registrations _ Hok3 _ _ Hreg) as (ls & -> & Hc).
  apply client_do; [done|]. intros s5 now s6 Hr5 _ Hr6 [-> _]. destruct (N.leb_spec (sh_now s5) (ls + maximum_lag config)).
  - apply wp_quiet; [done..|]. intros s7 ready s8 Hr7 _ _ [Hr8 _] _ _. exists ls. split.
    + assert (Hs : rely s s5) by (do 4 (etrans; [done|]); done). destruct Hs. lia.
    + eapply certified_stable; [done|]. do 4 (etrans; [done|]). done.
  - apply client_harmless; [by apply harmless_do|]. intros ready s7 _. apply client_harmless; [|done].
    destruct ready; [|done]. by repeat split.
Qed.

(** Every change of the store committed before the read [r] of a certificate is
    in the state [db]. *)
Definition recent (store : StoreId) (db : Db) (s0 s : Shared Db) : Prop :=
  ∃ ls r, (s0.(sh_now) <= ls + config.(maximum_lag))%N ∧ (ls <= s.(sh_now))%N ∧
    (store, r) ∈ s.(sh_reads) ∧ (r <= ls)%N ∧
    (∀ r', (store, r') ∈ s.(sh_reads) → (r' <= r)%N ∨ (ls <= r')%N) ∧
    ∀ c, c ∈ s.(sh_commits) → (c.1 < r)%N → db_log c.2 store `prefix_of` db_log db store.

Lemma recent_stable store db s0 s1 s s' : rely s0 s1 → recent store db s1 s → rely s s' → recent store db s0 s'.
Proof.
  intros Hr0 (ls & r & Hlag & Hls & Hr & Hle & Hlast & Hseen) [? _ _ _ _ (lc & Ec & Hc) (lr & Er & Hrd)].
  pose proof (rely_now _ _ Hr0). exists ls, r. rewrite Forall_forall in Hc. rewrite Forall_forall in Hrd. rewrite Er, Ec.
  split_and!; [lia|lia|apply elem_of_app; by left|done| |].
  - intros r' [Hr'|Hr']%elem_of_app; [by auto|]. right. apply Hrd in Hr'. simpl in Hr'. lia.
  - intros c [Hin|Hin]%elem_of_app Ht; [by apply Hseen|]. apply Hc in Hin. lia.
Qed.

Lemma certified_recent store ls s0 s db :
  (s0.(sh_now) <= ls + config.(maximum_lag))%N → certified store ls s → db_le s.(sh_gen) db → recent store db s0 s.
Proof.
  intros Hlag [Hls (r & Hr & Hle & Hlast & Hseen)] Hgen. exists ls, r. split_and!; try done.
  intros c Hin Ht. etrans; [by apply Hseen|]. by apply db_log_append.
Qed.

(** What a hit says. *)
Definition hit_ok (key : DecisionKey) (s0 : Shared Db) (value : bool) (s : Shared Db) : Prop :=
  (s.(sh_advances) < 2 ^ 64)%N →
  ∃ c m db, asked c m ∧ key_of c m = key ∧ decided c m db value ∧
    db_le s0.(sh_gen) db ∧ db_le db s.(sh_db) ∧ recent key.(dk_store_id) db s0 s.

Lemma client_get key s :
  client (decision_get true key) (fun hit s' => ∀ value, hit = Some value → hit_ok key s value s') s.
Proof.
  apply client_harmless; [apply harmless_handle_track|]. intros _ s1 Hr1.
  eapply client_seq; [apply client_permits|]. intros allowed s2 Hr2 Hperm. destruct allowed; [|done].
  destruct (Hperm eq_refl) as (ls & Hls & Hcert).
  apply client_do; [done|]. intros s3 before s4 Hr3 _ Hr4 [Hbefore ->].
  apply client_do; [done|]. intros s5 entry s6 Hr5 Hok5 Hr6 [Hentry _].
  apply client_do; [done|]. intros s7 after s8 Hr7 _ Hr8 [Hafter ->].
  destruct entry as [entry|]; [|done].
  destruct (N.eqb_spec before after) as [Hsame|]; [|done]. destruct (N.eqb_spec entry.(de_watermark) after) as [Hmark|]; [|done].
  eapply client_seq; [apply wp_harmless; [done|apply harmless_permits_caching]|].
  intros still s9 Hr9 _. destruct still; [|done]. intros value [= <-] Hlt.
  assert (Hr57 : rely s5 s7) by (by etrans). assert (Hr79 : rely s7 s9) by (by etrans).
  assert (Hr35 : rely s3 s5) by (by etrans). assert (Hr13 : rely s s3) by (do 2 (etrans; [done|]); done).
  assert (H59 : (sh_advances s5 <= sh_advances s9)%N) by (etrans; [apply Hr57|apply Hr79]).
  assert (H35 := rely_advances _ _ Hr35). assert (H57 := rely_advances _ _ Hr57).
  assert (Hw : ∀ x : Shared Db, (sh_advances x <= sh_advances s9)%N → watermark x = sh_advances x).
  { intros x Hx. apply watermark_small. lia. }
  rewrite Hw in Hbefore by lia. rewrite Hw in Hafter by (apply Hr79).
  destruct (ok_entries _ Hok5 key entry) as (c & m & db & Ha & Hkey & Hd & Hg & Hle).
  { done. } { lia. } { rewrite Hw by lia. lia. }
  exists c, m, db. split_and!; try done.
  - etrans; [|exact Hg]. etrans; [apply Hr13|apply Hr35].
  - etrans; [exact Hle|]. etrans; [apply Hr57|apply Hr79].
  - eapply (recent_stable _ _ _ s1 s2); [done|apply (certified_recent _ ls); [done..|]|].
    + etrans; [|exact Hg]. etrans; [apply Hr3|apply Hr35].
    + etrans; [exact Hr3|]. etrans; [exact Hr35|]. by etrans.
Qed.

(** A decision computed after the watermark was [started_at]: as long as the
    watermark has not moved, it includes the generation. *)
Definition computed (started_at : N) (key : DecisionKey) (value : bool) (s : Shared Db) : Prop :=
  ∃ c m db, asked c m ∧ key_of c m = key ∧ decided c m db value ∧ db_le db s.(sh_db) ∧
    (started_at <= s.(sh_advances))%N ∧
    ∀ s', rely s s' → (s'.(sh_advances) < 2 ^ 64)%N → watermark s' = started_at → db_le s'.(sh_gen) db.

Lemma computed_stable started_at key value s s' :
  computed started_at key value s → rely s s' → computed started_at key value s'.
Proof.
  intros (c & m & db & Ha & Hk & Hd & Hle & Hst & Hgen) Hr. exists c, m, db. split_and!; try done.
  - etrans; [done|apply Hr].
  - etrans; [done|apply Hr].
  - intros s'' Hr'. apply Hgen. by etrans.
Qed.

(** A decision over the backend at [s1], computed after the watermark was read at
    [s0]. *)
Lemma computed_after s0 s1 c m value :
  asked c m → rely s0 s1 → shared_ok s0 → decided c m s1.(sh_db) value →
  computed (watermark s0) (key_of c m) value s1.
Proof.
  intros Ha Hr Hok Hd. exists c, m, s1.(sh_db). split_and!; try done.
  - etrans; [apply watermark_le|apply Hr].
  - intros s' Hr' Hlt E. assert (H01 := rely_advances _ _ Hr). assert (H1' := rely_advances _ _ Hr').
    rewrite !watermark_small in E by lia.
    rewrite <-(rely_same s0 s'); [|by etrans|done]. etrans; [apply Hok|apply Hr].
Qed.

Lemma insert_entry_ok started_at key value s :
  computed started_at key value s → shared_ok s →
  let s' := set_entries s (<[key := mkDecisionEntry value started_at]> s.(sh_entries)) in
  shared_ok s' ∧ rely_actor s s'.
Proof.
  intros (c & m & db & Ha & Hk & Hd & Hle & Hst & Hgen) Hok s'.
  assert (Hr : rely s s').
  { split; simpl; try done; try reflexivity; (exists []; split; [by rewrite app_nil_r|constructor]). }
  split; [|by split]. destruct Hok. split; simpl; try done.
  - intros k entry. destruct (decide (key = k)) as [<-|Hne].
    + rewrite lookup_insert_eq. intros [= <-]. done.
    + rewrite lookup_insert_ne by done. apply ok_marks0.
  - intros k entry. destruct (decide (key = k)) as [<-|Hne].
    + rewrite lookup_insert_eq. intros [= <-] Hlt E. exists c, m, db. split_and!; try done. by apply (Hgen s').
    + rewrite lookup_insert_ne by done. apply ok_entries0.
Qed.

Lemma client_insert started_at key value s :
  computed started_at key value s → client (insert_if_unchanged true started_at key value) (fun _ _ => True) s.
Proof.
  intros Hc. apply client_do; [done|]. intros s1 current s2 Hr1 _ Hr2 _. destruct (negb _); [done|].
  apply client_harmless; [apply harmless_permits_caching|]. intros allowed s3 Hr3. destruct allowed; [|done].
  intros s4 b s5 Hr4 Hok4 ->. destruct (insert_entry_ok started_at key value s4) as [Hok5 Hr5]; [|done|].
  { eapply computed_stable; [done|]. do 3 (etrans; [done|]). done. }
  split_and!; [done..|]. apply client_do; [done|]. intros s6 current' s7 _ _ _ _.
  destruct (current' =? started_at)%N; [|done]. apply wp_harmless; [done|apply harmless_permits_caching].
Qed.

(** ** Cached checks *)

(** Questions with the same key have the same answers. *)
Hypothesis asked_same : ∀ c m c' m', asked c m → asked c' m' → key_of c m = key_of c' m' →
  m.(model_store_id) = m'.(model_store_id) ∧ ∀ table d, command_decides c m table d → command_decides c' m' table d.

(** An answer given from [s0] to [s]: it is the decision over one state of the
    backend that includes the generation of [s0]; and that state is one of the
    request's lifetime, or the answer is cached and recent. *)
Definition answer_ok (c : CheckCommand) (m : CompiledModel) (s0 : Shared Db) (out : CheckOutcome) (s : Shared Db) : Prop :=
  (s.(sh_advances) < 2 ^ 64)%N →
  ∃ db, decided c m db out.(co_allowed) ∧ db_le s0.(sh_gen) db ∧ db_le db s.(sh_db) ∧
    (db_le s0.(sh_db) db ∨
     c.(cc_query).(qc_consistency) = MinimizeLatency ∧ out = cached_outcome out.(co_allowed) ∧
     recent c.(cc_query).(qc_store_id) db s0 s).

Lemma hit_answer c m s0 s1 value s :
  asked c m → rely s0 s1 → c.(cc_query).(qc_consistency) = MinimizeLatency →
  hit_ok (key_of c m) s1 value s → ∀ s', rely s s' → answer_ok c m s0 (cached_outcome value) s'.
Proof.
  intros Ha Hr Hcons Hhit s' Hr' Hlt. destruct Hhit as (c' & m' & db & Ha' & Hk & (res & Hd) & Hg & Hle & Hrec).
  { pose proof (rely_advances _ _ Hr'). lia. }
  destruct (asked_same _ _ _ _ Ha' Ha Hk) as [Hst Hsame]. exists db. split_and!.
  - exists res. rewrite <-Hst. by apply Hsame.
  - etrans; [apply Hr|done].
  - etrans; [done|apply Hr'].
  - right. split_and!; [done..|]. by eapply recent_stable.
Qed.

Lemma harmless_still_wanted deadline c1 c2 : harmless (still_wanted deadline c1 c2).
Proof. split; [done|]. intros []; by repeat split. Qed.

(** A check delegated from [s] reads a later state of the backend. *)
Lemma client_delegate c m budget meter s :
  client (map_err canonicalize_check_control_error <$> do (DelegateCheck c m budget meter))
    (fun r s' => ∀ out, r = Ok out →
       ∃ s1, rely s s1 ∧ rely s1 s' ∧ shared_ok s1 ∧ decided c m s1.(sh_db) out.(co_allowed)) s.
Proof.
  apply client_fmap, wp_quiet; [done..|]. intros s1 r s2 Hr1 Hok _ [Hr2 _] [-> (w & Hw & E)] out Hout%map_err_ok. subst.
  exists s1. split_and!; try done. eexists. by eapply evaluator_decides.
Qed.

Lemma delegate_answer c m s0 s1 s out :
  rely s0 s1 → rely s1 s → shared_ok s1 → decided c m s1.(sh_db) out.(co_allowed) → answer_ok c m s0 out s.
Proof.
  intros Hr1 Hr2 Hok Hd _. exists s1.(sh_db). split_and!; [done| |apply Hr2|left; apply Hr1].
  etrans; [apply Hr1|apply Hok].
Qed.

Lemma client_check c m budget meter s :
  asked c m →
  client (cached_check true hasher model_fingerprint c m budget meter)
    (fun r s' => ∀ out, r = Ok out → answer_ok c m s out s') s.
Proof.
  intros Ha. apply client_harmless; [apply harmless_still_wanted|]. intros wanted s1 Hr1. destruct wanted; [|done].
  destruct (qc_consistency (cc_query c)) eqn:Econs.
  - eapply client_seq; [apply client_get|]. intros [value|] s2 Hr2 Hhit.
    + apply client_harmless; [apply harmless_still_wanted|]. intros wanted s3 Hr3 out Hout.
      destruct wanted; simplify_eq/=. eapply hit_answer; [done..|by apply Hhit|done].
    + apply client_do; [done|]. intros s3 started_at s4 Hr3 Hok3 Hr4 [-> ->].
      eapply client_seq; [apply client_delegate|]. intros [out|] s5 Hr5 Hd; [|done].
      destruct (Hd out eq_refl) as (s6 & Hr6 & Hr65 & Hok6 & Hdec).
      eapply client_seq; [apply client_insert|].
      { eapply computed_stable, Hr65. apply computed_after; done. }
      intros _ s7 Hr7 _ out' [= <-]. apply (delegate_answer _ _ _ s6); [|by etrans|done..].
      do 3 (etrans; [done|]). by etrans.
  - eapply client_mono, client_delegate. intros r s2 Hr2 Hd out Hout.
    destruct (Hd out Hout) as (s3 & Hr3 & Hr32 & Hok3 & Hdec). apply (delegate_answer _ _ _ s3); [by etrans|done..].
Qed.

(** ** Cached batches *)

Lemma hit_stable key s0 value s s' : hit_ok key s0 value s → rely s s' → hit_ok key s0 value s'.
Proof.
  intros Hhit Hr Hlt. destruct Hhit as (c & m & db & Ha & Hk & Hd & Hg & Hle & Hrec).
  { pose proof (rely_advances _ _ Hr). lia. }
  exists c, m, db. split_and!; try done; [etrans; [done|apply Hr]|]. by eapply recent_stable.
Qed.

Lemma hit_earlier key s0 s1 value s : rely s0 s1 → hit_ok key s1 value s → hit_ok key s0 value s.
Proof.
  intros Hr Hhit Hlt. destruct (Hhit Hlt) as (c & m & db & Ha & Hk & Hd & Hg & Hle & Hrec).
  exists c, m, db. split_and!; try done; [etrans; [apply Hr|done]|]. by eapply recent_stable.
Qed.

Lemma client_lookup keys s :
  client (lookup_all true keys) (fun hits s' => ∀ values, hits = Some values →
    Forall2 (fun key value => ∃ k, key = Some k ∧ hit_ok k s value s') keys values) s.
Proof.
  revert s. induction keys as [|[key|] keys IH]; intros s; [by intros values [= <-]| |done].
  eapply client_seq; [apply client_get|]. intros [value|] s1 Hr1 Hhit; [|done].
  eapply client_seq; [apply IH|]. intros rest s2 Hr2 Hrest values (vs & -> & ->)%fmap_Some.
  constructor; [|eapply Forall2_impl; [by apply Hrest|]].
  - exists key. split; [done|]. eapply hit_stable; [by apply Hhit|done].
  - intros k v (k' & -> & Hk). exists k'. split; [done|]. by eapply hit_earlier.
Qed.

Lemma client_insert_all started_at answers s :
  (∀ key res out, (Some key, res) ∈ answers → res.(br_outcome) = Ok out → computed started_at key out.(co_allowed) s) →
  client (insert_all true started_at answers) (fun _ _ => True) s.
Proof.
  revert s. induction answers as [|[key res] answers IH]; intros s Hc; [done|].
  assert (Hrest : ∀ s', rely s s' → client (insert_all true started_at answers) (fun _ _ => True) s').
  { intros s' Hr. apply IH. intros key' res' out Hin Hout. eapply computed_stable, Hr. eapply Hc; [by right|done]. }
  assert (Hdone : client (insert_all true started_at answers) (fun _ _ => True) s) by (apply Hrest; reflexivity).
  destruct key as [key|]; [|done]. destruct res as [id [out|]]; [|done].
  eapply client_seq; [apply client_insert; by eapply Hc; [by left|]|]. intros _ s' Hr _. by apply Hrest.
Qed.

Lemma batch_key_some q m item key :
  batch_decision_key hasher model_fingerprint limits q m item = Some key →
  ∃ context, context_overlay q.(qc_condition_context) item.(bi_condition_context) limits = Ok context ∧
    key = key_of (item_command q item context) m.
Proof.
  unfold batch_decision_key. destruct (context_overlay _ _ _) as [context|]; [|done].
  destruct (contextual_tuples_new _ _); [|done]. intros [= <-]. by exists context.
Qed.

(** What a batch says about an item: each answer is one of a check. *)
Definition batch_ok (c : BatchCheckCommand) (m : CompiledModel) (s0 : Shared Db) (results : list BatchCheckResult)
    (s : Shared Db) : Prop :=
  length results = length c.(bc_items) ∧
  ∀ i item context res out,
    c.(bc_items) !! i = Some item →
    context_overlay c.(bc_query).(qc_condition_context) item.(bi_condition_context) limits = Ok context →
    results !! i = Some res → res.(br_outcome) = Ok out →
    answer_ok (item_command c.(bc_query) item context) m s0 out s.

Lemma client_delegate_batch c m budget s :
  client (do (DelegateBatch c m budget))
    (fun r s' => ∀ results, r = Ok results → ∃ s1, rely s s1 ∧ rely s1 s' ∧ shared_ok s1 ∧
       length results = length c.(bc_items) ∧
       ∀ i item context res out, c.(bc_items) !! i = Some item →
         context_overlay c.(bc_query).(qc_condition_context) item.(bi_condition_context) limits = Ok context →
         results !! i = Some res → res.(br_outcome) = Ok out →
         decided (item_command c.(bc_query) item context) m s1.(sh_db) out.(co_allowed)) s.
Proof.
  apply wp_quiet; [done..|]. intros s1 r s2 Hr1 Hok _ [Hr2 _] [-> (w & Hw & E)] results ->. exists s1.
  destruct (batch_check_items _ _ _ _ _ _ _ Hw E) as [Hlen Hitems]. split_and!; try done.
  intros i item context res out Hi Hctx Hres Hout. destruct (Hitems i item Hi) as (res' & Hres' & _ & Hitem).
  rewrite Hres in Hres'. injection Hres' as <-. rewrite Hctx in Hitem. destruct Hitem as [_ Hitem]. eexists. by apply Hitem.
Qed.

Lemma hits_batch c m s0 s1 s s' values :
  (∀ item, item ∈ c.(bc_items) → item_asks c.(bc_query) m item) → c.(bc_query).(qc_consistency) = MinimizeLatency →
  rely s0 s1 → rely s s' →
  Forall2 (fun key value => ∃ k, key = Some k ∧ hit_ok k s1 value s)
    (batch_decision_key hasher model_fingerprint limits c.(bc_query) m <$> c.(bc_items)) values →
  batch_ok c m s0 (zip_with (fun item allowed =>
    mkBatchCheckResult item.(bi_correlation_id) (Ok (cached_outcome allowed))) c.(bc_items) values) s'.
Proof.
  intros Hasks Hcons Hr0 Hr Hhits. pose proof (Forall2_length _ _ _ Hhits) as Hlen. rewrite length_fmap in Hlen.
  split; [rewrite length_zip_with; lia|]. intros i item context res out Hi Hctx Hres Hout.
  apply lookup_zip_with_Some in Hres as (item' & value & -> & Hi' & Hv). simplify_eq/=.
  destruct (Forall2_lookup_r _ _ _ _ _ Hhits Hv) as (key & Hkey & k & -> & Hhit).
  rewrite list_lookup_fmap, Hi in Hkey. simpl in Hkey. injection Hkey as Hkey.
  apply batch_key_some in Hkey as (context' & Hctx' & ->). rewrite Hctx in Hctx'. injection Hctx' as <-.
  eapply hit_answer; try done. apply (Hasks item); [by eapply list_elem_of_lookup_2|done].
Qed.

Lemma delegated_batch c m s0 s1 s results :
  rely s0 s1 → rely s1 s → shared_ok s1 → length results = length c.(bc_items) →
  (∀ i item context res out, c.(bc_items) !! i = Some item →
     context_overlay c.(bc_query).(qc_condition_context) item.(bi_condition_context) limits = Ok context →
     results !! i = Some res → res.(br_outcome) = Ok out →
     decided (item_command c.(bc_query) item context) m s1.(sh_db) out.(co_allowed)) →
  batch_ok c m s0 results s.
Proof.
  intros Hr1 Hr Hok Hlen Hitems. split; [done|]. intros i item context res out Hi Hc Hres Hout.
  apply (delegate_answer _ _ _ s1); [done..|]. by eapply Hitems.
Qed.

Lemma client_batch c m budget s :
  (∀ item, item ∈ c.(bc_items) → item_asks c.(bc_query) m item) →
  client (cached_batch_check true hasher model_fingerprint limits c m budget)
    (fun r s' => ∀ results, r = Ok results → batch_ok c m s results s') s.
Proof.
  intros Hasks. apply client_harmless; [apply harmless_still_wanted|]. intros wanted s1 Hr1. destruct wanted; [|done].
  destruct (qc_consistency (bc_query c)) eqn:Econs.
  - eapply client_seq; [apply client_lookup|]. intros [values|] s2 Hr2 Hhits.
    + apply client_harmless; [apply harmless_still_wanted|]. intros wanted s3 Hr3 results Hout.
      destruct wanted; simplify_eq/=. eapply hits_batch; [done..|by apply Hhits].
    + apply client_do; [done|]. intros s3 started_at s4 Hr3 Hok3 Hr4 [-> ->].
      eapply client_seq; [apply client_delegate_batch|]. intros [results|] s5 Hr5 Hd; [|done].
      destruct (Hd results eq_refl) as (s6 & Hr6 & Hr65 & Hok6 & Hlen & Hitems).
      eapply client_seq; [apply client_insert_all|].
      { intros key res out (i & Hi)%list_elem_of_lookup Hout.
        apply lookup_zip_with_Some in Hi as (key' & res' & [= <- <-] & Hkey & Hres).
        apply list_lookup_fmap_Some in Hkey as (item & Hkey & Hi). symmetry in Hkey.
        apply batch_key_some in Hkey as (context & Hctx & ->).
        eapply computed_stable, Hr65. apply computed_after; [|done..|by eapply Hitems].
        apply (Hasks item); [by eapply list_elem_of_lookup_2|done]. }
      intros _ s7 Hr7 _ results' [= <-]. apply (delegated_batch _ _ _ s6); try done; [|by etrans].
      do 3 (etrans; [done|]). by etrans.
  - eapply client_mono, client_delegate_batch. intros r s2 Hr2 Hd results Hout.
    destruct (Hd results Hout) as (s3 & Hr3 & Hr32 & Hok3 & Hlen & Hitems). apply (delegated_batch _ _ _ s3); try done. by etrans.
Qed.

(** ** Writes and the supervisor *)

(** The changes of a write that returned are in the generation. *)
Definition written (store : StoreId) (outcome : MutationOutcome) (s : Shared Db) : Prop :=
  ∀ id, id ∈ outcome.(change_ids) → id ∈ tc_id <$> db_log s.(sh_gen) store.

Lemma written_stable store outcome s s' : written store outcome s → rely s s' → written store outcome s'.
Proof.
  intros Hw Hr id Hid%Hw. destruct (db_log_append _ _ store (rely_gen _ _ Hr)) as [l ->].
  rewrite fmap_app. apply elem_of_app. by left.
Qed.

Lemma client_write store deletes writes options s :
  client (cached_write true store deletes writes options)
    (fun r s' => ∀ outcome, r = Ok outcome → written store outcome s') s.
Proof.
  apply client_harmless; [apply harmless_handle_track|]. intros _ s1 Hr1.
  intros s2 r s3 Hr2 Hok2 (db & Hw & ->). destruct (commit_ok s2 db) as [Hok3 Hr3]; [by eapply db_write_le|done|].
  split_and!; [done..|]. destruct r as [outcome|e]; [|done].
  destruct (db_write_changes _ _ _ _ _ _ _ Hw) as (changes & Hlog & Hids).
  match goal with |- wp _ _ _ ?Q ?s' =>
    change (client ((match change_ids outcome with [] => mret () | _ => _ ← do WatermarkAdvance; mret () end);;
                    mret (Ok outcome)) Q s') end.
  destruct (change_ids outcome) as [|id ids] eqn:Eids.
  { intros outcome' [= <-] id Hid. rewrite Eids in Hid. by apply elem_of_nil in Hid. }
  intros s4 b s5 Hr4 Hok4 [_ ->]. destruct (advance_ok s4 Hok4) as [Hok5 Hr5]. split_and!; [done..|].
  intros outcome' [= <-] id' Hid'. rewrite Eids, Hids in Hid'. simpl.
  destruct (db_log_append _ _ store (rely_db _ _ Hr4)) as [l El]. simpl in El.
  rewrite El, Hlog, !fmap_app, !elem_of_app. auto.
Qed.

Lemma harmless_await_reply : harmless await_reply.
Proof. by repeat split. Qed.

Lemma harmless_abort_join error : harmless (abort_join error).
Proof. by repeat split. Qed.

Lemma harmless_restart : harmless controller_restart.
Proof. split; [done|]. by intros []; repeat split. Qed.

Lemma harmless_stop join : harmless (controller_stop join).
Proof.
  destruct join; [|done]. split; [done|]. intros []; [|apply harmless_abort_join..].
  apply harmless_bind; [apply harmless_await_reply|]. intros [[]|error]; [|apply harmless_abort_join].
  split; [done|]. intros []; [done|apply harmless_abort_join|done].
Qed.

Lemma harmless_drop join : harmless (controller_drop join).
Proof. by destruct join; repeat split. Qed.

(** What a finished request says. *)
Definition response_ok (r : request) (s0 : Shared Db) (response : response) (s : Shared Db) : Prop :=
  match r, response with
  | RqCheck c m _ _, RsCheck (Ok out) => answer_ok c m s0 out s
  | RqBatch c m _, RsBatch (Ok results) => batch_ok c m s0 results s
  | RqWrite store _ _ _, RsWrite (Ok outcome) => written store outcome s
  | _, _ => True
  end.

Lemma client_serve r s : admissible r → client (serve r) (response_ok r s) s.
Proof.
  destruct r; intros Ha; apply client_fmap.
  - eapply client_mono, client_check, Ha. intros [out|] s' _ Hout; [|done]. by apply Hout.
  - eapply client_mono, client_batch, Ha. intros [results|] s' _ Hout; [|done]. by apply Hout.
  - eapply client_mono, client_write. intros [outcome|] s' _ Hout; [|done]. by apply Hout.
  - eapply client_mono, wp_harmless; [done|done|apply harmless_restart].
  - eapply client_mono, wp_harmless; [done|done|apply harmless_stop].
  - eapply client_mono, wp_harmless; [done|done|apply harmless_drop].
Qed.

(** ** Changelogs *)

Abbreviation log_ordered := (StronglySorted (fun c c' : TupleChange => (c.(tc_id) < c'.(tc_id))%N)).

(** The log up to an identifier is part of [log]. *)
Definition seen_in (last_seen : option ChangeId) (log : list TupleChange) : Prop :=
  ∀ id, last_seen = Some id → ∃ l c, l ++ [c] `prefix_of` log ∧ c.(tc_id) = id.

Lemma seen_in_prefix last_seen log log' : seen_in last_seen log → log `prefix_of` log' → seen_in last_seen log'.
Proof. intros Hs Hp id Hid. destruct (Hs id Hid) as (l & c & Hl & Hc). exists l, c. split; [by etrans|done]. Qed.

Lemma seen_in_elem last_seen log : seen_in last_seen log → ∀ id, last_seen = Some id → id ∈ tc_id <$> log.
Proof.
  intros Hs id Hid. destruct (Hs id Hid) as (l & c & [rest ->] & <-). rewrite !fmap_app, !elem_of_app. left. right. by left.
Qed.

Lemma log_after_above after log c :
  c ∈ log_after after log ↔ c ∈ log ∧ ∀ id, after = Some id → (id < c.(tc_id))%N.
Proof.
  unfold log_after. rewrite list_elem_of_filter. destruct after as [id|]; [rewrite N.ltb_lt|]; naive_solver.
Qed.

Lemma ordered_middle l c rest c' : log_ordered (l ++ c :: rest) → c' ∈ rest → (c.(tc_id) < c'.(tc_id))%N.
Proof.
  intros Hs Hin. apply StronglySorted_app in Hs as (_ & _ & Hs). apply StronglySorted_inv in Hs as [_ Hs].
  rewrite Forall_forall in Hs. by apply Hs.
Qed.

(** Nothing after what was seen: the log has been read to its end. *)
Lemma log_read_out last_seen log seen :
  log_ordered log → seen_in last_seen seen → seen `prefix_of` log → log_after last_seen log = [] → log `prefix_of` seen.
Proof.
  intros Hs Hseen Hp He. destruct last_seen as [id|].
  - destruct (Hseen id eq_refl) as (l & c & Hl & <-). etrans; [|exact Hl].
    destruct (transitivity Hl Hp) as [rest ->]. rewrite <-app_assoc in Hs. simpl in Hs.
    destruct rest as [|c' rest]; [by rewrite app_nil_r|]. exfalso.
    assert (Hin : c' ∈ log_after (Some (tc_id c)) ((l ++ [c]) ++ c' :: rest)).
    { apply log_after_above. split; [apply elem_of_app; right; by left|]. intros id [= <-].
      eapply ordered_middle; [exact Hs|by left]. }
    rewrite He in Hin. by apply elem_of_nil in Hin.
  - assert (log = []) as ->; [|apply prefix_nil]. destruct log as [|c log]; [done|]. exfalso.
    assert (Hin : c ∈ log_after None (c :: log)) by (apply log_after_above; split; [by left|done]).
    rewrite He in Hin. by apply elem_of_nil in Hin.
Qed.

(** The last change of a page is a position of the log. *)
Lemma page_last last_seen log n c :
  last (take n (log_after last_seen log)) = Some c → ∃ l, l ++ [c] `prefix_of` log.
Proof.
  intros Hlast%last_Some_elem_of. assert (Hin : c ∈ log_after last_seen log).
  { rewrite <-(take_drop n (log_after last_seen log)). apply elem_of_app. by left. }
  apply log_after_above in Hin as [Hc _]. apply list_elem_of_split in Hc as (l & rest & ->).
  exists l, rest. by rewrite <-app_assoc.
Qed.

(** ** The actor *)

Hypothesis page_size_positive : (0 < config.(page_size))%N.

Abbreviation actor := (wp rely_actor rely).

Lemma actor_harmless {A B} (p : prog A) (f : A → prog B) Q s :
  harmless p → (∀ a s', rely_actor s s' → actor (f a) Q s') → actor (p ≫= f) Q s.
Proof.
  intros Hp Hf. apply prog_wp_bind. eapply wp_guarantee; [apply rely_actor_rely|].
  eapply (prog_wp_mono _ _ rely_actor); [done|done| |by apply wp_harmless]. intros a s' Hr _. by apply Hf.
Qed.

Lemma actor_mono {A} (p : prog A) (Q Q' : A → Shared Db → Prop) s :
  (∀ a s', rely s s' → Q a s' → Q' a s') → actor p Q s → actor p Q' s.
Proof. apply prog_wp_mono; [apply _|apply rely_actor_rely|done]. Qed.

Lemma actor_seq {A B} (p : prog A) (f : A → prog B) P Q s :
  actor p P s → (∀ a s', rely s s' → P a s' → actor (f a) Q s') → actor (p ≫= f) Q s.
Proof. intros Hp Hf. apply prog_wp_bind. by eapply actor_mono. Qed.

(** What the actor knows of a store: what it has seen is in the generation, and
    the last success of an initialized store is certified. *)
Definition state_ok (store : StoreId) (st : StoreState) (s : Shared Db) : Prop :=
  seen_in st.(ss_last_seen) (db_log s.(sh_db) store) ∧ seen_in st.(ss_last_seen) (db_log s.(sh_gen) store) ∧
  (st.(ss_initialized) = true → certified store st.(ss_last_success) s).

Definition tracked_ok (stores : Tracked) (s : Shared Db) : Prop :=
  ∀ store st, bt_get store stores = Some st → state_ok store st s.

Lemma state_stable store st s s' : state_ok store st s → rely s s' → state_ok store st s'.
Proof.
  intros (Hdb & Hseen & Hinit) Hr. split_and!.
  { eapply seen_in_prefix; [exact Hdb|]. apply db_log_append, Hr. }
  { eapply seen_in_prefix; [exact Hseen|]. apply db_log_append, Hr. }
  intros Hi. eapply certified_stable; [by apply Hinit|done].
Qed.

Lemma tracked_stable stores s s' : tracked_ok stores s → rely s s' → tracked_ok stores s'.
Proof. intros Ht Hr store st Hst. eapply state_stable; [by apply Ht|done]. Qed.

Lemma tracked_insert stores store st s : tracked_ok stores s → state_ok store st s → tracked_ok (bt_insert store st stores) s.
Proof.
  intros Ht Hst store' st'. destruct (decide (store' = store)) as [->|Hne].
  - rewrite bt_get_insert_eq. by intros [= <-].
  - rewrite bt_get_insert_ne by done. apply Ht.
Qed.

Lemma tracked_remove stores store s : tracked_ok stores s → tracked_ok (bt_remove store stores) s.
Proof.
  intros Ht store' st'. destruct (decide (store' = store)) as [->|Hne].
  - by rewrite bt_get_remove_eq.
  - rewrite bt_get_remove_ne by done. apply Ht.
Qed.

(** A store that was never read. *)
Lemma state_new_ok store st s : st.(ss_last_seen) = None → st.(ss_initialized) = false → state_ok store st s.
Proof. intros E1 E2. split_and!; [by rewrite E1..|by rewrite E2]. Qed.

(** One page: the state after it records the read. *)
Lemma actor_page store st s :
  actor (poll_page config INSTANT_MAX store st)
    (fun r s' => ∀ page, r = Ok page → ∃ s1, rely_actor s s1 ∧ shared_ok s1 ∧ s' = note_read s1 store ∧
       db_read_changes s1.(sh_db) store (mkChangeFilter None None) (poll_options config.(page_size) st.(ss_last_seen)) = Ok page) s.
Proof.
  unfold poll_page. destruct (limit_new _ _); [|done]. destruct (request_timeout_new _); [|done].
  apply actor_harmless; [by apply harmless_do|]. intros now s1 Hr1. destruct (deadline_from_timeout _ _ _); [|done].
  intros s2 answer s3 Hr2 Hok2 [-> Hread]. destruct (note_read_ok s2 store Hok2) as [Hok3 Hr3].
  split_and!; [done..|]. intros page Hpage. exists s2. split_and!; [by etrans|done..|].
  destruct answer as [[page'|e]|]; simpl in Hpage; try done. apply result_bind_ok in Hpage as ([] & _ & [= <-]).
  by apply Hread.
Qed.

(** The last read of the store, at [r], found the log [log]. *)
Definition read_at (store : StoreId) (r : N) (log : list TupleChange) (s : Shared Db) : Prop :=
  (store, r) ∈ s.(sh_reads) ∧ (r <= s.(sh_now))%N ∧ (∀ r', (store, r') ∈ s.(sh_reads) → (r' <= r)%N) ∧
  (∀ c, c ∈ s.(sh_commits) → (c.1 < r)%N → db_log c.2 store `prefix_of` log) ∧
  log `prefix_of` db_log s.(sh_db) store.

Lemma read_at_stable store r log s s' : read_at store r log s → rely_actor s s' → read_at store r log s'.
Proof.
  intros (Hr & Hnow & Hlast & Hseen & Hlog) [[? Hdb _ _ _ (lc & Ec & Hc) _] Er]. unfold read_at. rewrite Er, Ec.
  split_and!; [done|lia|done| |].
  - intros c [Hin|Hin]%elem_of_app Ht; [by apply Hseen|]. rewrite Forall_forall in Hc. apply Hc in Hin. lia.
  - etrans; [done|]. by apply db_log_append.
Qed.

Lemma note_read_at s store : shared_ok s → read_at store s.(sh_now) (db_log s.(sh_db) store) (note_read s store).
Proof.
  intros [_ Hcommits Hreads _ _ _]. rewrite Forall_forall in Hcommits. rewrite Forall_forall in Hreads.
  split_and!; simpl; try done.
  - apply elem_of_app. right. by left.
  - intros r' [Hin|Hin]%elem_of_app; [by apply Hreads in Hin|]. apply list_elem_of_singleton in Hin. by simplify_eq.
  - intros c Hin _. apply db_log_append. by apply Hcommits.
Qed.

(** What a poll that returned found: what it saw is in the log, and in the
    generation unless something was new; when it caught up, it read the log to
    its end. *)
Definition poll_ok (store : StoreId) (st : StoreState) (outcome : PollOutcome) (s : Shared Db) : Prop :=
  seen_in st.(ss_last_seen) (db_log s.(sh_db) store) ∧
  (outcome.(po_changed) = false → seen_in st.(ss_last_seen) (db_log s.(sh_gen) store)) ∧
  (outcome.(po_caught_up) = true → ∃ r log, read_at store r log s ∧
     (outcome.(po_changed) = false → log `prefix_of` db_log s.(sh_gen) store)).

Lemma actor_pages pages store st changed s :
  seen_in st.(ss_last_seen) (db_log s.(sh_db) store) →
  (changed = false → seen_in st.(ss_last_seen) (db_log s.(sh_gen) store)) →
  actor (poll_pages config INSTANT_MAX pages store st changed)
    (fun r s' => ∀ outcome, r.2 = Ok outcome → poll_ok store r.1 outcome s') s.
Proof.
  revert st changed s. induction pages as [|pages IH]; intros st changed s Hdb Hgen.
  { by intros outcome [= <-]. }
  eapply actor_seq; [apply actor_page|]. intros [page|e] s' _ Hpage; [|done].
  destruct (Hpage page eq_refl) as (s1 & [Hr1 _] & Hok1 & -> & Hread).
  assert (Hdb1 := seen_in_prefix _ _ _ Hdb (db_log_append _ _ store (rely_db _ _ Hr1))).
  assert (Hs1 := db_log_sorted s1.(sh_db) store).
  assert (Hitems := db_page _ _ _ _ _ page_size_positive (seen_in_elem _ _ Hdb1) Hread).
  destruct (last (page_items page)) as [change|] eqn:Elast.
  - rewrite Hitems in Elast. destruct (page_last _ _ _ _ Elast) as (l & Hl).
    assert (Hnew : seen_in (Some change.(tc_id)) (db_log s1.(sh_db) store)) by (intros id [= <-]; by exists l, change).
    destruct (page_continuation page); [by apply IH|]. intros outcome [= <-]. split_and!; [done|done|]. intros _.
    exists s1.(sh_now), (db_log s1.(sh_db) store). split; [by apply note_read_at|done].
  - destruct (page_continuation page); [done|]. intros outcome [= <-].
    assert (Hgen1 : changed = false → seen_in (ss_last_seen st) (db_log (sh_gen s1) store)).
    { intros Hc. eapply seen_in_prefix; [by apply Hgen|]. apply db_log_append, Hr1. }
    split_and!; [done|done|]. intros _. exists s1.(sh_now), (db_log s1.(sh_db) store). split; [by apply note_read_at|].
    intros Hc. apply (log_read_out (ss_last_seen st)); [done|by apply Hgen1|apply db_log_append, Hok1|].
    apply last_None in Elast. rewrite Hitems in Elast. apply take_nil_inv in Elast as [E|E]; [|done].
    exfalso. lia.
Qed.

(** A flush puts the current state of the backend in the generation. *)
Lemma actor_flush {B} (f : () → prog B) Q s :
  (∀ s1 s2, rely_actor s s1 → rely_actor s1 s2 → db_le s1.(sh_db) s2.(sh_gen) → actor (f ()) Q s2) →
  actor (flush ≫= f) Q s.
Proof.
  intros Hf s1 b s2 Hr1 Hok1 [_ ->]. destruct (advance_ok s1 Hok1) as [Hok2 Hr2]. split_and!; [done|apply Hr2|].
  change (actor (do (Count Flushes) ≫= f) Q (advance s1)). apply actor_harmless; [by apply harmless_do|].
  intros [] s3 Hr3. apply (Hf s1); [done|by etrans|]. apply Hr3.
Qed.

(** The flush of what is new: afterwards everything seen is in the generation. *)
Lemma actor_flush_if {B} (changed : bool) store last_seen (f : () → prog B) Q s :
  seen_in last_seen (db_log s.(sh_db) store) →
  (changed = false → seen_in last_seen (db_log s.(sh_gen) store)) →
  (∀ s', rely_actor s s' → seen_in last_seen (db_log s'.(sh_gen) store) →
     (changed = true → db_le s.(sh_db) s'.(sh_gen)) → actor (f ()) Q s') →
  actor ((if changed then flush else mret ()) ≫= f) Q s.
Proof.
  intros Hdb Hgen Hf. destruct changed; [|by apply Hf; [done|apply Hgen|]].
  apply actor_flush. intros s1 s2 Hr1 Hr2 Hg. assert (db_le s.(sh_db) s2.(sh_gen)) by (etrans; [apply Hr1|done]).
  apply Hf; [by etrans| |done]. eapply seen_in_prefix; [done|]. by apply db_log_append.
Qed.

Lemma register_ok store ls s :
  certified store ls s → shared_ok s →
  let s' := set_registrations s (<[store := ActiveUntil (ls + config.(maximum_lag))]> s.(sh_registrations)) in
  shared_ok s' ∧ rely_actor s s'.
Proof.
  intros Hc Hok s'.
  assert (Hr : rely s s').
  { split; simpl; try done; try reflexivity; (exists []; split; [by rewrite app_nil_r|constructor]). }
  split; [|by split]. destruct Hok. split; simpl; try done. intros store' deadline.
  destruct (decide (store = store')) as [<-|Hne].
  - rewrite lookup_insert_eq. intros [= <-]. by exists ls.
  - rewrite lookup_insert_ne by done. apply ok_registrations0.
Qed.

Lemma actor_register {A} store ls (f : () → prog A) Q s :
  certified store ls s → (∀ s', rely s s' → actor (f ()) Q s') →
  actor (do (RegistrationInsert store (ActiveUntil (ls + config.(maximum_lag)))) ≫= f) Q s.
Proof.
  intros Hc Hf s1 [] s2 [Hr1 _] Hok1 ->. destruct (register_ok store ls s1) as [Hok2 Hr2];
    [by eapply certified_stable|done|]. split_and!; [done|apply Hr2|]. apply Hf. etrans; [done|apply Hr2].
Qed.

Lemma actor_succeeded store st outcome s :
  poll_ok store st outcome s → outcome.(po_caught_up) = true →
  actor (poll_succeeded config store st outcome) (state_ok store) s.
Proof.
  intros (Hdb & Hgen & Hcaught) Hup. destruct (Hcaught Hup) as (r & log & Hread & Hlog).
  eapply actor_flush_if; [done..|]. intros s1 Hr1 Hseen Hflushed.
  assert (Hlog1 : log `prefix_of` db_log s1.(sh_gen) store).
  { destruct (po_changed outcome).
    - etrans; [apply Hread|]. by apply db_log_append, Hflushed.
    - etrans; [by apply Hlog|]. apply db_log_append, Hr1. }
  apply wp_quiet; [apply rely_actor_rely|done|]. intros s2 now s3 Hr2 _ _ Hr3 [-> ->].
  destruct (read_at_stable _ _ _ _ _ Hread (transitivity Hr1 Hr2)) as (Hin & Hle & Hlast & Hcommits & _).
  assert (Hcert : certified store s2.(sh_now) s2).
  { split; [done|]. exists r. split_and!; [done|done|by auto|]. intros c Hc Ht. etrans; [by apply Hcommits|].
    etrans; [exact Hlog1|]. apply db_log_append, Hr2. }
  apply actor_register; [done|]. intros s4 Hr4. apply actor_harmless; [by apply harmless_do|]. intros _ s5 Hr5.
  assert (Hr15 : rely s1 s5) by (etrans; [apply Hr2|]; etrans; [apply Hr4|apply Hr5]).
  split_and!; simpl.
  - eapply seen_in_prefix; [exact Hdb|]. apply db_log_append. etrans; [apply Hr1|apply Hr15].
  - eapply seen_in_prefix; [exact Hseen|]. apply db_log_append, Hr15.
  - intros _. eapply certified_stable; [exact Hcert|]. etrans; [exact Hr4|apply Hr5].
Qed.

Lemma actor_behind store st outcome s :
  poll_ok store st outcome s → actor (poll_behind config store st outcome) (state_ok store) s.
Proof.
  intros (Hdb & Hgen & _). apply actor_harmless; [by apply harmless_do|]. intros _ s0 Hr0.
  eapply actor_flush_if.
  { eapply seen_in_prefix; [exact Hdb|]. apply db_log_append, Hr0. }
  { intros Hc. eapply seen_in_prefix; [by apply Hgen|]. apply db_log_append, Hr0. }
  intros s1 Hr1 Hseen _. apply actor_harmless; [by apply harmless_do|]. intros now s2 Hr2.
  apply actor_harmless; [by apply harmless_do|]. intros _ s3 Hr3. apply actor_harmless; [by apply harmless_do|].
  intros _ s4 Hr4. assert (Hr14 : rely s1 s4) by (etrans; [apply Hr2|]; etrans; [apply Hr3|apply Hr4]).
  split_and!; [| |done]; simpl.
  - eapply seen_in_prefix; [exact Hdb|]. apply db_log_append. etrans; [apply Hr0|]. etrans; [apply Hr1|apply Hr14].
  - eapply seen_in_prefix; [exact Hseen|]. apply db_log_append, Hr14.
Qed.

Lemma actor_failed store st s : actor (poll_failed config default_hash store st) (state_ok store) s.
Proof.
  apply actor_harmless; [by apply harmless_do|]. intros _ s1 _. apply actor_harmless; [apply harmless_flush|].
  intros _ s2 _. apply actor_harmless; [by apply harmless_do|]. intros _ s3 _. apply actor_harmless; [by apply harmless_do|].
  intros now s4 _. apply actor_harmless; [by apply harmless_do|]. intros _ s5 _. by apply state_new_ok.
Qed.

Lemma actor_one stores store s :
  tracked_ok stores s → actor (poll_one config INSTANT_MAX default_hash stores store) tracked_ok s.
Proof.
  intros Ht. unfold poll_one. destruct (bt_get store stores) as [st|] eqn:Est; [|done].
  apply actor_harmless; [by apply harmless_do|]. intros now s1 [Hr1 _].
  apply actor_harmless; [destruct (_ <? _)%N; by repeat split|]. intros _ s2 [Hr2 _].
  assert (Ht2 : tracked_ok stores s2) by (eapply tracked_stable; [done|by etrans]).
  destruct (Ht2 store st Est) as (Hdb & Hgen & _).
  eapply actor_seq; [by apply actor_pages|]. intros [st' polled] s3 Hr3 Hpoll.
  apply (actor_seq _ _ (state_ok store)).
  - destruct polled as [outcome|e]; [|apply actor_failed]. specialize (Hpoll outcome eq_refl).
    destruct (po_caught_up outcome) eqn:Ecaught; [by apply actor_succeeded|by apply actor_behind].
  - intros st'' s4 Hr4 Hst. apply tracked_insert; [|done]. apply tracked_remove. eapply tracked_stable; [done|by etrans].
Qed.

Lemma actor_each stores due s :
  tracked_ok stores s → actor (poll_each config INSTANT_MAX default_hash stores due) tracked_ok s.
Proof.
  revert stores s. induction due as [|store due IH]; intros stores s Ht; [done|].
  eapply actor_seq; [by apply actor_one|]. intros stores' s' _ Ht'. by apply IH.
Qed.

(** Harmless programs keep what is known of the stores. *)
Lemma actor_keep {A} (p : prog A) (stores : Tracked) {B} (b : B) s Q :
  harmless p → tracked_ok stores s → (∀ s', tracked_ok stores s' → Q b s') → actor (p;; mret b) Q s.
Proof.
  intros Hp Ht HQ. apply actor_harmless; [done|]. intros _ s' [Hr _]. apply HQ. by eapply tracked_stable.
Qed.

Lemma actor_due stores s :
  tracked_ok stores s → actor (poll_due config INSTANT_MAX default_hash stores) tracked_ok s.
Proof.
  intros Ht. apply actor_harmless; [by apply harmless_do|]. intros now s1 [Hr1 _].
  eapply actor_seq; [by apply actor_each; eapply tracked_stable|]. intros stores' s2 _ Ht'.
  by eapply actor_keep; [apply harmless_update_readiness|done|].
Qed.

Definition fresh_state (st : StoreState) : Prop := st.(ss_last_seen) = None ∧ st.(ss_initialized) = false.

Lemma actor_new {A} (f : StoreState → prog A) Q s :
  (∀ st s', rely s s' → fresh_state st → actor (f st) Q s') → actor (store_state_new config ≫= f) Q s.
Proof.
  intros Hf. apply (actor_harmless (do Now) (fun now => f (mkStoreState None now now (poll_interval config) false)));
    [by apply harmless_do|]. intros now s' [Hr _]. by apply Hf.
Qed.

Lemma actor_renew stores s :
  actor (renew_states config stores) (fun stores' _ => Forall (fun e => fresh_state e.2) stores') s.
Proof.
  revert s. induction stores as [|[store st] stores IH]; intros s; [by constructor|].
  apply actor_new. intros st' s1 _ Hst. eapply actor_seq; [apply IH|]. intros stores' s2 _ Hstores. by constructor.
Qed.

Lemma fresh_tracked stores s : Forall (fun e : StoreId * StoreState => fresh_state e.2) stores → tracked_ok stores s.
Proof.
  rewrite Forall_forall. intros Hf store st Hst%bt_get_elem. destruct (Hf _ Hst). by apply state_new_ok.
Qed.

Lemma actor_restarted stores s : actor (restart_state config stores) tracked_ok s.
Proof.
  eapply actor_seq; [apply actor_renew|]. intros stores' s1 _ Hf.
  apply actor_harmless; [by apply harmless_each; intros; apply harmless_do|]. intros _ s2 _.
  apply actor_harmless; [by apply harmless_do|]. intros _ s3 _. apply actor_harmless; [apply harmless_flush|]. intros _ s4 _.
  apply actor_harmless; [apply harmless_update_readiness|]. intros _ s5 _. by apply fresh_tracked.
Qed.

Lemma actor_tracked stores store s :
  tracked_ok stores s → actor (actor_track config stores store) tracked_ok s.
Proof.
  intros Ht. unfold actor_track. destruct (bt_get store stores) as [st|] eqn:Est.
  - unfold still_fresh. destruct (ss_initialized st) eqn:Einit.
    + apply actor_harmless; [by repeat split|]. intros fresh s1 [Hr1 _].
      assert (Ht1 : tracked_ok stores s1) by (by eapply tracked_stable). destruct fresh.
      * apply actor_register; [by apply (Ht1 store st)|]. intros s2 Hr2.
        eapply actor_keep; [apply harmless_update_readiness|by eapply tracked_stable|done].
      * apply actor_harmless; [by apply harmless_do|]. intros _ s2 [Hr2 _].
        eapply actor_keep; [apply harmless_update_readiness|by eapply tracked_stable|done].
    + apply (actor_harmless (do _)); [by apply harmless_do|]. intros _ s2 [Hr2 _].
      eapply actor_keep; [apply harmless_update_readiness|by eapply tracked_stable|done].
  - destruct (_ <=? _)%N.
    + apply actor_harmless; [by apply harmless_do|]. intros _ s1 [Hr1 _]. apply actor_harmless; [by apply harmless_do|].
      intros _ s2 [Hr2 _]. apply actor_harmless; [apply harmless_flush|]. intros _ s3 [Hr3 _].
      eapply actor_keep; [apply harmless_update_readiness| |done]. eapply tracked_stable; [done|]. do 2 (etrans; [done|]). done.
    + apply actor_new. intros st s1 Hr1 [E1 E2]. eapply actor_keep; [apply harmless_update_readiness| |done].
      apply tracked_insert; [by eapply tracked_stable|]. by apply state_new_ok.
Qed.

Lemma actor_turn_ok stores s :
  tracked_ok stores s →
  actor (actor_turn config INSTANT_MAX default_hash stores)
    (fun r s' => ∀ stores', r = Some stores' → tracked_ok stores' s') s.
Proof.
  intros Ht. apply actor_harmless; [by apply harmless_do|]. intros selected s1 [Hr1 _].
  assert (Ht1 : tracked_ok stores s1) by (by eapply tracked_stable).
  assert (Hended : ∀ s2, actor (do (ReadyStore false);; do (RunningStore false);; running_guard_drop;; mret None)
    (fun r s' => ∀ stores', r = Some stores' → tracked_ok stores' s') s2).
  { intros s2. do 2 (apply actor_harmless; [by apply harmless_do|]; intros _ ? _).
    by apply actor_harmless; [by repeat split|]. }
  destruct selected as [[store| |]| |].
  - apply prog_wp_bind. eapply actor_mono, actor_tracked, Ht1. by intros stores' s2 _ Ht' ? [= <-].
  - eapply actor_seq; [apply actor_restarted|]. intros stores' s2 _ Ht'.
    eapply actor_keep; [by apply harmless_do|done|]. by intros s3 Ht3 ? [= <-].
  - apply actor_harmless; [by apply harmless_do|]. intros _ s2 _. apply Hended.
  - apply Hended.
  - apply prog_wp_bind. eapply actor_mono, actor_due, Ht1. by intros stores' s2 _ Ht' ? [= <-].
Qed.

(** ** The invariant of the process *)

Definition actor_post (r : option Tracked) (s : Shared Db) : Prop := ∀ stores, r = Some stores → tracked_ok stores s.

Record system_ok (sys : System) : Prop := {
  so_shared : shared_ok sys.(sys_shared);
  so_actor p : sys.(sys_actor) = Some p → ∃ s, rely_actor s sys.(sys_shared) ∧ actor p actor_post s;
  so_clients i r s0 p : sys.(sys_clients) !! i = Some (mkClient r s0 p) →
    ∃ s, rely s0 s ∧ rely s sys.(sys_shared) ∧ client p (response_ok r s0) s;
}.

(** A step of another task or of the environment. *)
Lemma clients_stable sys s' i r s0 p :
  system_ok sys → rely sys.(sys_shared) s' → sys.(sys_clients) !! i = Some (mkClient r s0 p) →
  ∃ s, rely s0 s ∧ rely s s' ∧ client p (response_ok r s0) s.
Proof.
  intros Hok Hr Hi. destruct (so_clients _ Hok _ _ _ _ Hi) as (s & Hs0 & Hs & Hp). exists s. split_and!; [done|by etrans|done].
Qed.

Lemma actor_stable sys s' p :
  system_ok sys → rely_actor sys.(sys_shared) s' → sys.(sys_actor) = Some p →
  ∃ s, rely_actor s s' ∧ actor p actor_post s.
Proof. intros Hok Hr Hp. destruct (so_actor _ Hok _ Hp) as (s & Hs & Ha). exists s. split; [by etrans|done]. Qed.

Lemma environment_ok sys s' :
  system_ok sys → shared_ok s' ∧ rely_actor sys.(sys_shared) s' → system_ok (set_shared sys s').
Proof.
  intros Hok [Hok' Hr]. split; simpl; [done| |].
  - intros p Hp. by eapply actor_stable.
  - intros i r s0 p Hi. eapply clients_stable; [done|apply Hr|done].
Qed.

Lemma client_step_ok sys i r s0 B (e : event B) k b s' :
  system_ok sys → sys.(sys_clients) !! i = Some (mkClient r s0 (Do e k)) → performs e sys.(sys_shared) b s' →
  system_ok (mkSystem s' sys.(sys_actor) (<[i := mkClient r s0 (k b)]> sys.(sys_clients))).
Proof.
  intros Hok Hi Hperf. destruct (so_clients _ Hok _ _ _ _ Hi) as (s & Hs0 & Hs & Hp).
  destruct (Hp _ _ _ Hs (so_shared _ Hok) Hperf) as (Hok' & Hr & Hk). split; simpl; [done| |].
  - intros p Hp'. by eapply actor_stable.
  - intros j r' s0' p. destruct (decide (i = j)) as [<-|Hne].
    + rewrite list_lookup_insert_eq by (by eapply lookup_lt_Some). intros [= <- <- <-]. exists s'. split_and!; [|reflexivity|done].
      etrans; [exact Hs0|]. etrans; [exact Hs|apply Hr].
    + rewrite list_lookup_insert_ne by done. eapply clients_stable; [done|apply Hr].
Qed.

Lemma actor_step_ok sys B (e : event B) k b s' :
  system_ok sys → sys.(sys_actor) = Some (Do e k) → performs e sys.(sys_shared) b s' →
  system_ok (mkSystem s' (Some (k b)) sys.(sys_clients)).
Proof.
  intros Hok Ha Hperf. destruct (so_actor _ Hok _ Ha) as (s & Hs & Hp).
  destruct (Hp _ _ _ Hs (so_shared _ Hok) Hperf) as (Hok' & Hr & Hk). split; simpl; [done| |].
  - intros p [= <-]. exists s'. split; [reflexivity|done].
  - intros i r s0 p Hi. by eapply clients_stable.
Qed.

(** Replacing the program of the actor. *)
Lemma set_actor_ok sys s p :
  system_ok sys → rely_actor s sys.(sys_shared) → actor p actor_post s → system_ok (set_actor sys (Some p)).
Proof.
  intros [] Hr Hp. split; simpl; [done| |done]. intros p' [= <-]. by exists s.
Qed.

Lemma step_ok sys sys' : step sys sys' → system_ok sys → system_ok sys'.
Proof.
  destruct 1 as [now Hnow|db Hdb|store|key|r Hr|i r s0 B e k b s' Hi Hp|B e k b s' Ha Hp|stores Ha|Ha|p Ha Hab]; intros Hok.
  - apply environment_ok; [done|]. apply tick_ok; [done|apply Hok].
  - apply environment_ok; [done|]. apply commit_ok; [done|apply Hok].
  - apply environment_ok; [done|]. apply quiet_step; try done; [|apply Hok]. simpl. intros st d Hd.
    by apply lookup_delete_Some in Hd as [_ ?].
  - apply environment_ok; [done|]. apply quiet_step; try done; [|apply Hok]. simpl. intros k e Hd.
    by apply lookup_delete_Some in Hd as [_ ?].
  - destruct Hok. split; simpl; [done..|]. intros i r' s0 p [Hi|[Hlen Hi]]%lookup_app_Some; [by eapply so_clients0|].
    apply list_lookup_singleton_Some in Hi as [_ [= <- <- <-]]. eexists. split_and!; [reflexivity..|]. by apply client_serve.
  - by eapply client_step_ok.
  - by eapply actor_step_ok.
  - destruct (so_actor _ Hok _ Ha) as (s & Hs & Hp). eapply set_actor_ok; [done..|]. by apply actor_turn_ok, Hp.
  - assert (Hq : shared_ok (set_open sys.(sys_shared) false) ∧ rely_actor sys.(sys_shared) (set_open sys.(sys_shared) false))
      by (apply quiet_step; try done; apply Hok).
    destruct (environment_ok sys _ Hok Hq). split; simpl; [done..|apply so_clients0].
  - eapply set_actor_ok; [done|reflexivity|]. by apply actor_harmless; [by repeat split|].
Qed.

Lemma started_ok now db : system_ok (started now db).
Proof.
  split; simpl.
  - split; simpl; try done; try reflexivity. by repeat constructor.
  - intros p [= <-]. eexists. split; [reflexivity|]. intros stores [= <-]. by intros store st ?.
  - done.
Qed.

Lemma reachable_system_ok now db sys : rtc step (started now db) sys → system_ok sys.
Proof.
  intros Hrun. assert (Hok := started_ok now db). induction Hrun as [|x y z Hstep _ IH]; [done|]. by apply IH, (step_ok x).
Qed.

(** ** Finished requests *)

Lemma answer_stable c m s0 out s s' : answer_ok c m s0 out s → rely s s' → answer_ok c m s0 out s'.
Proof.
  intros Ha Hr Hlt. destruct Ha as (db & Hd & Hg & Hle & Hor).
  { pose proof (rely_advances _ _ Hr). lia. }
  exists db. split_and!; [done..| |].
  - etrans; [done|apply Hr].
  - destruct Hor as [?|(? & ? & ?)]; [by left|right]. split_and!; [done..|]. by eapply recent_stable.
Qed.

Lemma response_stable r s0 resp s s' : response_ok r s0 resp s → rely s s' → response_ok r s0 resp s'.
Proof.
  destruct r, resp as [[]|[]|[]|]; simpl; try done; intros Hok Hr.
  - by eapply answer_stable.
  - destruct Hok as [Hlen Hok]. split; [done|]. intros. eapply answer_stable; [|done]. by eapply Hok.
  - by eapply written_stable.
Qed.

Lemma finished_ok now db sys i r s0 resp :
  rtc step (started now db) sys → sys.(sys_clients) !! i = Some (mkClient r s0 (Done resp)) →
  response_ok r s0 resp sys.(sys_shared).
Proof.
  intros Hrun Hi. destruct (so_clients _ (reachable_system_ok _ _ _ Hrun) _ _ _ _ Hi) as (s & _ & Hs & Hp).
  by eapply response_stable.
Qed.

End system.
