(* ===== verification/CacheMemory.v ===== *)
(** * The caches over the in-memory backend

    The in-memory backend keeps the contract the caches rely on ([ChangeStore]),
    and a process over it can be run: [exec] performs the operations of its
    tasks one after the other, each as [step] allows. *)

From S2P Require Import Prelude Ordered Identifier Reference Grammar Context Fingerprint Condition Storage Memory MemoryTheory.
From S2P Require Import MemoryWrites MemoryActor MemoryPages MemoryTheorems Model TupleValidation Budget Reducer Scheduler.
From S2P Require Import CheckSpec CheckTheorems CheckMemory Evaluator Batch Controller DecisionCache CacheTheory.
From stdpp Require Import gmap.

(** ** The backend *)

(** A state of the backend is told by the commands the actor has carried out. *)
Definition MemoryHistory : Type := list (Command * MutationWorld).

Section backend.
Context `{WinnowLaws, UlidCodecLaws}.
Variable storage_limits : InputLimits.

Definition memory_at (h : MemoryHistory) : MemoryState :=
  foldl (fun s '(c, w) => fst (handle_command s w c)) (memory_new storage_limits) h.

(** A write answered through the handle: the command was carried out, and the
    answer may be lost; or it was not, and the call failed. *)
Definition memory_write (h : MemoryHistory) (store : StoreId) (deletes : list TupleKey) (writes : list RelationshipTuple)
    (options : TupleWriteOptions) (r : result StorageError MutationOutcome) (h' : MemoryHistory) : Prop :=
  (∃ w d, h' = h ++ [(CmdWriteTuples store deletes writes options, w)] ∧
     r = dispatch d (write_tuples (memory_at h) w store deletes writes options).2) ∨
  h' = h ∧ ∃ e, r = Err e.

#[export] Instance memory_change_store : ChangeStore MemoryHistory := {|
  db_le := prefix;
  db_log h store := log_of (memory_at h) store;
  db_rows h store := tuple_table (memory_at h) store;
  db_read_changes h store f o := read_changes (memory_at h) store f o;
  db_write := memory_write;
|}.

Lemma memory_at_app h l : memory_at (h ++ l) = foldl (fun s '(c, w) => fst (handle_command s w c)) (memory_at h) l.
Proof. apply foldl_app. Qed.

Lemma commands_ok l : ∀ s, memory_ok s → memory_ok (foldl (fun s '(c, w) => fst (handle_command s w c)) s l).
Proof. induction l as [|[c w] l IH]; intros s Hs; [done|]. simpl. by apply IH, handle_command_ok. Qed.

Lemma memory_at_ok h : memory_ok (memory_at h).
Proof. apply commands_ok, memory_new_ok. Qed.

Lemma commands_log l store : ∀ s, memory_ok s →
  log_of s store `prefix_of` log_of (foldl (fun s '(c, w) => fst (handle_command s w c)) s l) store.
Proof.
  induction l as [|[c w] l IH]; intros s Hs; [done|]. simpl. etrans; [|by apply IH, handle_command_ok].
  by apply command_log.
Qed.

(** A page of the changelog as the controller asks for it. *)
Lemma memory_page s store size last_seen page :
  memory_ok s → (0 < size)%N → (∀ id, last_seen = Some id → id ∈ tc_id <$> log_of s store) →
  read_changes s store (mkChangeFilter None None) (poll_options size last_seen) = Ok page →
  page.(page_items) = take (N.to_nat size) (log_after last_seen (log_of s store)).
Proof.
  intros Hok Hsize Hseen.
  assert (Hrows : change_rows s store (mkChangeFilter None None) = entries_of store s.(ms_changes)).
  { apply filter_all. by intros []. }
  assert (Hkey : ∀ e, e ∈ entries_of store s.(ms_changes) → (e.1 < ULID_BOUND)%N ∧ e.2.(tc_id) = e.1).
  { intros [id c] Hin. apply (change_rows_key s store (mkChangeFilter None None)); [done|]. by rewrite Hrows. }
  assert (Hopts : ∃ cursor, poll_options size last_seen = mkPageOptions size cursor ∧
    parse_after parse_change_cursor (mkPageOptions size cursor) = Ok last_seen).
  { destruct last_seen as [id|]; [|exists None; unfold poll_options, page_options_from_read; simpl; by rewrite N.max_r by lia].
    eexists. split; [done|]. unfold parse_after, parse_change_cursor. cbn [po_after].
    specialize (Hseen id eq_refl). apply list_elem_of_fmap in Hseen as (c & -> & Hc).
    apply list_elem_of_fmap in Hc as ([k c'] & -> & Hin). destruct (Hkey _ Hin) as [Hb Hid]. cbn [fst snd] in *.
    rewrite Hid, parse_ulid_cursor_show by done. done. }
  destruct Hopts as (cursor & -> & Hparse). rewrite (read_changes_page _ _ _ _ _ last_seen), Hrows by done.
  intros [= <-]. unfold page_of. rewrite bounded_page_spec. cbn [page_items].
  unfold log_of, log_after. rewrite fmap_take. f_equal. symmetry. apply filter_image. intros e He.
  destruct (Hkey e He) as [_ ->]. destruct last_seen as [id|]; [|done]. rewrite N.ltb_lt, <-N.compare_gt_iff.
  change (is_after (Some id) e.1) with (match (e.1 ?= id)%N with Gt => true | _ => false end). by destruct (e.1 ?= id)%N.
Qed.

Lemma memory_write_changes h store deletes writes options outcome h' :
  memory_write h store deletes writes options (Ok outcome) h' →
  ∃ changes, log_of (memory_at h') store = log_of (memory_at h) store ++ changes ∧ outcome.(change_ids) = tc_id <$> changes.
Proof.
  intros [(w & d & -> & Hd)|[_ [e He]]]; [|done]. symmetry in Hd. apply dispatch_ok in Hd. rewrite memory_at_app. simpl.
  destruct (write_tuples _ _ _ _ _ _) as [s' r] eqn:E. simpl in *. subst r.
  apply write_tuples_cases in E; [|apply memory_at_ok].
  destruct E as (Hrq & [(-> & -> & _)|(p & deleted & written & Hpo & _ & -> & ->)]); [exists []; by rewrite app_nil_r|].
  destruct (commit_write_log _ _ _ _ _ _ _ _ (memory_at_ok h) Hrq Hpo) as (Hl & _). by exists p.(pr_changes).
Qed.

#[export] Instance memory_change_store_laws : ChangeStoreLaws MemoryHistory.
Proof.
  split.
  - apply _.
  - intros d d' store [l ->]. simpl. rewrite memory_at_app. apply commands_log, memory_at_ok.
  - intros d store. apply log_sorted, memory_at_ok.
  - intros d store size last_seen page. apply memory_page, memory_at_ok.
  - intros d store deletes writes options r d' [(w & x & -> & _)|[-> _]]; [by eexists|done].
  - intros d store deletes writes options outcome d'. apply memory_write_changes.
Qed.

(** Reads answered in a state are reads of its rows. *)
Lemma memory_snapshot s w store :
  memory_ok s → answered_by s w → forward_snapshot (w_read w) store (tuple_table s store).
Proof.
  intros [Hok _ _] Hw t f maximum stream rows Hread Hrows Hsub Hcond x.
  rewrite (answered_rows s w t store f maximum stream rows x) by done.
  unfold stored_tuples, table_rows. by rewrite !list_elem_of_filter, key_at_true.
Qed.

End backend.

(** ** Running a process *)

Section run.
Context `{ConditionEngineLaws, WinnowLaws, UlidCodecLaws, Sha256, HmacSha256}.
Variable storage_limits : InputLimits.
Variable config : InvalidationControllerConfig.
Variable limits : InputLimits.
Variable INSTANT_MAX : N.
Variable default_hash : StoreId → N → N.
Variable hasher : list N.
Variable model_fingerprint : CompiledModel → Fingerprint.
Variable asked : CheckCommand → CompiledModel → Prop.

#[local] Existing Instances memory_change_store direct_evaluator.
Abbreviation backend := (memory_change_store storage_limits).
Abbreviation evaluator := (direct_evaluator limits).
Abbreviation Process := (@Shared MemoryHistory).
Abbreviation performs e := (@perform _ MemoryHistory evaluator backend config limits _ e).
Abbreviation steps := (@step _ evaluator _ _ _ MemoryHistory backend config limits INSTANT_MAX default_hash hasher
  model_fingerprint asked).
Abbreviation serve_request := (serve limits hasher model_fingerprint).

(** What happens next: a request arrives and runs to its end, the actor takes a
    turn, or time passes. *)
Inductive move := MServe (r : request) | MTurn | MTick (now : N).

Definition batch_world (w : World) : BatchWorld := mkBatchWorld (fun _ => BatchJoined 0) (fun _ => w).

Definition fault_free {T} (r : result Fault T) : option (result CheckError T) :=
  match r with Ok x => Some (Ok x) | Err (Fail e) => Some (Err e) | Err OutOfFuel => None end.

Definition try_send (c : ControllerCommand) (s : Process) : TrySendResult * Process :=
  if negb s.(sh_flags).(fl_open) then (SendClosed, s)
  else if channel_full config s then (SendFull, s)
  else (Sent, set_channel s (s.(sh_channel) ++ [c])).

(** One answer of each operation: nothing is cancelled, lost or late. *)
Definition react {B} (e : event B) : Process → option (B * Process) :=
  match e in event B return Process → option (B * Process) with
  | Now => fun s => Some (s.(sh_now), s)
  | WatermarkCurrent => fun s => Some (watermark s, s)
  | WatermarkAdvance => fun s => Some (saturating_add U64_MAX (watermark s) 1, advance s)
  | RunningLoad => fun s => Some (s.(sh_flags).(fl_running), s)
  | RunningStore x => fun s => Some ((), set_running s x)
  | ReadyLoad => fun s => Some (s.(sh_flags).(fl_ready), s)
  | ReadyStore x => fun s => Some ((), set_ready s x)
  | ReadySwap x => fun s => Some (s.(sh_flags).(fl_ready), set_ready s x)
  | RegistrationGet store => fun s => Some (s.(sh_registrations) !! store, s)
  | RegistrationInsert store r => fun s => Some ((), set_registrations s (<[store := r]> s.(sh_registrations)))
  | RegistrationInvalidate store => fun s => Some ((), set_registrations s (delete store s.(sh_registrations)))
  | Count c => fun s => Some ((), set_diagnostics s (count c s.(sh_diagnostics)))
  | SetTracked n => fun s => Some ((), set_diagnostics s
      (mkDiagnostics s.(sh_diagnostics).(dg_counters) n s.(sh_diagnostics).(dg_poll_freshness_age_millis)))
  | SetFreshnessAge n => fun s => Some ((), set_diagnostics s
      (mkDiagnostics s.(sh_diagnostics).(dg_counters) s.(sh_diagnostics).(dg_tracked_stores) n))
  | TrySend c => fun s => Some (try_send c s)
  | Send c => fun s => Some (match try_send c s with
      | (Sent, s') => (SendOk, s') | (SendFull, _) => (SendTimedOut, s) | (SendClosed, _) => (SendDisconnected, s) end)
  | Select => fun s => Some (match s.(sh_channel) with
      | c :: rest => (CtlCommand c, set_channel s rest) | [] => (CtlTick, s) end)
  | Acknowledge => fun s => Some ((), s)
  | Await => fun s => Some (Received, s)
  | Abort => fun s => Some ((), set_abort s true)
  | ReadChanges store o => fun s =>
      Some (Some (@db_read_changes _ backend s.(sh_db) store (mkChangeFilter None None) o), note_read s store)
  | EntriesGet k => fun s => Some (s.(sh_entries) !! k, s)
  | EntriesInsert k e => fun s => Some ((), set_entries s (<[k := e]> s.(sh_entries)))
  | IsCancelled => fun s => Some (false, s)
  | DelegateCheck c m budget meter => fun s =>
      r ← fault_free (@evaluator_check _ evaluator c m budget meter (memory_world (memory_at storage_limits s.(sh_db))));
      Some (r, s)
  | DelegateBatch c m budget => fun s =>
      r ← fault_free (batch_check limits c m budget (batch_world (memory_world (memory_at storage_limits s.(sh_db)))));
      Some (r, s)
  | WriteTuples store deletes writes o => fun s =>
      Some ((write_tuples (memory_at storage_limits s.(sh_db)) calm store deletes writes o).2,
            commit s (s.(sh_db) ++ [(CmdWriteTuples store deletes writes o, calm)]))
  end.

Fixpoint run_prog {A} (p : prog A) (s : Process) : option (A * Process) :=
  match p with
  | Done a => Some (a, s)
  | Do e k => match react e s with Some (b, s') => run_prog (k b) s' | None => None end
  end.

Abbreviation SystemOf := (@System _ MemoryHistory).

Definition exec1 (sys : SystemOf) (m : move) : option SystemOf :=
  match m with
  | MTick now =>
      if (sys.(sys_shared).(sh_now) <=? now)%N then Some (set_shared sys (set_now sys.(sys_shared) now)) else None
  | MServe r =>
      '(response, s) ← run_prog (serve_request r) sys.(sys_shared);
      Some (mkSystem s sys.(sys_actor) (sys.(sys_clients) ++ [mkClient r sys.(sys_shared) (Done response)]))
  | MTurn =>
      match sys.(sys_actor) with
      | Some (Done (Some stores)) =>
          '(r, s) ← run_prog (actor_turn config INSTANT_MAX default_hash stores) sys.(sys_shared);
          Some (mkSystem s (Some (Done r)) sys.(sys_clients))
      | _ => None
      end
  end.

Fixpoint exec (sys : SystemOf) (moves : list move) : option SystemOf :=
  match moves with
  | [] => Some sys
  | m :: moves => match exec1 sys m with Some sys' => exec sys' moves | None => None end
  end.

(** ** Runs are runs of the process *)

Lemma fault_free_ok {T} (r : result Fault T) x : fault_free r = Some x → r = map_err Fail x.
Proof. destruct r as [|[]]; by intros [= <-]. Qed.

Lemma try_send_ok c s b s' : try_send c s = (b, s') → performs (TrySend c) s b s'.
Proof.
  unfold try_send. destruct (fl_open _) eqn:Eo; simpl; [destruct (channel_full _ _) eqn:Ef|]; by intros [= <- <-].
Qed.

Lemma react_performs {B} (e : event B) s b s' : react e s = Some (b, s') → performs e s b s'.
Proof.
  destruct e; simpl; try (intros [= <- <-]; done).
  - intros [= E]. by apply try_send_ok.
  - intros [= E]. destruct (try_send c s) as [[] s1] eqn:Et; apply try_send_ok in Et; simplify_eq/=; tauto.
  - intros [= E]. destruct (sh_channel s) as [|c rest]; simplify_eq; [done|]. by exists rest.
  - intros [= <- <-]. split; [done|]. by intros page [= ->].
  - intros (r & Hr%fault_free_ok & [= <- <-])%bind_Some. split; [done|]. eexists. split; [|exact Hr].
    apply memory_snapshot; [apply memory_at_ok|apply memory_world_answered].
  - intros (r & Hr%fault_free_ok & [= <- <-])%bind_Some. split; [done|]. eexists. split; [|exact Hr].
    intros i. apply memory_snapshot; [apply memory_at_ok|apply memory_world_answered].
  - intros [= <- <-]. eexists. split; [|done]. left. by exists calm, (mkDispatchWorld (Ok ()) EvCompleted EvCompleted).
Qed.

Lemma run_client_steps i r s0 a s' actor : ∀ (p : prog response) s clients,
  run_prog p s = Some (a, s') → clients !! i = Some (mkClient r s0 p) →
  rtc steps (mkSystem s actor clients) (mkSystem s' actor (<[i := mkClient r s0 (Done a)]> clients)).
Proof.
  induction p as [x|B e k IH]; intros s clients Hrun Hi; simpl in Hrun.
  - injection Hrun as -> ->. by rewrite list_insert_id.
  - destruct (react e s) as [[b s1]|] eqn:Er; [|done].
    eapply rtc_l; [eapply step_client; [exact Hi|by apply react_performs]|].
    assert (Hlt : i < length clients) by (by eapply lookup_lt_Some).
    rewrite <-(list_insert_insert_eq clients i (mkClient r s0 (Done a)) (mkClient r s0 (k b))).
    apply (IH b); [done|]. by apply list_lookup_insert_eq.
Qed.

Lemma run_actor_steps a s' clients : ∀ (p : prog (option Tracked)) s,
  run_prog p s = Some (a, s') → rtc steps (mkSystem s (Some p) clients) (mkSystem s' (Some (Done a)) clients).
Proof.
  induction p as [x|B e k IH]; intros s Hrun; simpl in Hrun.
  - by injection Hrun as -> ->.
  - destruct (react e s) as [[b s1]|] eqn:Er; [|done].
    eapply rtc_l; [eapply step_actor; [done|by apply react_performs]|].
    by apply (IH b).
Qed.

Definition move_ok (m : move) : Prop :=
  match m with MServe r => admissible limits asked r | _ => True end.

Lemma serve_steps sys r response s :
  run_prog (serve_request r) sys.(sys_shared) = Some (response, s) →
  rtc steps (arrive limits hasher model_fingerprint sys r)
    (mkSystem s sys.(sys_actor) (sys.(sys_clients) ++ [mkClient r sys.(sys_shared) (Done response)])).
Proof.
  intros Hrun.
  assert (E : sys_clients sys ++ [mkClient r (sys_shared sys) (Done response)] =
    <[length (sys_clients sys) := mkClient r (sys_shared sys) (Done response)]>
      (sys_clients sys ++ [mkClient r (sys_shared sys) (serve_request r)])) by (by rewrite insert_app_r_alt, Nat.sub_diag).
  rewrite E. apply (run_client_steps _ _ _ _ _ _ (serve_request r)); [done|]. by apply list_lookup_middle.
Qed.

Lemma exec1_steps sys m sys' : move_ok m → exec1 sys m = Some sys' → rtc steps sys sys'.
Proof.
  intros Hm. destruct m as [r| |now]; simpl.
  - intros ([resp s] & Hrun & [= <-])%bind_Some. eapply rtc_l; [by apply (step_arrive _ _ _ _ _ _ _ sys r)|].
    by apply serve_steps.
  - destruct (sys_actor sys) as [[[stores|]|]|] eqn:Ea; [|done..]. intros ([a s] & Hrun & [= <-])%bind_Some.
    eapply rtc_l; [by eapply step_turn|]. by apply run_actor_steps.
  - destruct (N.leb_spec (sh_now (sys_shared sys)) now); [|done]. intros [= <-]. by apply rtc_once, step_tick.
Qed.

Lemma exec_steps moves : ∀ sys sys', Forall move_ok moves → exec sys moves = Some sys' → rtc steps sys sys'.
Proof.
  induction moves as [|m moves IH]; intros sys sys' Hm; simpl; [by intros [= <-]|].
  apply Forall_cons in Hm as [Hm Hms]. destruct (exec1 sys m) as [sys1|] eqn:E; [|done]. intros Hrest.
  etrans; [by eapply exec1_steps|by apply IH].
Qed.

(** A finished request and its answer. *)
Definition finished (sys : SystemOf) (i : nat) : option (request * response) :=
  match sys.(sys_clients) !! i with
  | Some (mkClient r _ (Done response)) => Some (r, response)
  | _ => None
  end.

Lemma finished_client sys i r response :
  finished sys i = Some (r, response) → ∃ s0, sys.(sys_clients) !! i = Some (mkClient r s0 (Done response)).
Proof.
  unfold finished. destruct (sys_clients sys !! i) as [[r' s0 [response'|]]|]; [|done..]. intros [= -> ->]. by exists s0.
Qed.

(** A run whose requests are admissible reaches a state in which they have
    finished as computed. *)
Lemma exec_finished sys moves i r response :
  Forall move_ok moves → (sys' ← exec sys moves; finished sys' i) = Some (r, response) →
  ∃ sys' s0, exec sys moves = Some sys' ∧ rtc steps sys sys' ∧ sys'.(sys_clients) !! i = Some (mkClient r s0 (Done response)).
Proof.
  intros Hm (sys' & He & Hf)%bind_Some. destruct (finished_client _ _ _ _ Hf) as [s0 Hi].
  exists sys', s0. split_and!; [done|by apply (exec_steps moves)|done].
Qed.

End run.
