(* ===== verification/CacheTheorems.v ===== *)
(** * What the decision cache guarantees

    Decision keys tell questions apart, and the answers of a process whose
    requests share the decision cache are decisions over recent states of the
    backend that include the process's own writes. *)

From S2P Require Import Prelude Ordered Identifier Codecs Reference Context Fingerprint Condition Storage Memory Model.
From S2P Require Import TupleValidation Budget Reducer Scheduler CheckSpec Fixture CheckTheorems CheckMemory Evaluator Batch.
From S2P Require Import Controller DecisionCache CacheTheory CacheMemory.
From stdpp Require Import gmap.

(** ** Decision keys *)

(** The index of contextual tuples does not depend on their order. *)
Lemma contextual_index_permutation l l' :
  NoDup (rt_key <$> l) → l ≡ₚ l' → contextual_index_new l None = contextual_index_new l' None.
Proof.
  intros Hnd Hp. assert (Hnd' : NoDup (rt_key <$> l')) by (by rewrite <-Hp). unfold contextual_index_new. do 2 f_equal.
  apply bt_ext; [apply insert_all_sorted, bt_sorted_nil..|]. intros k. apply option_eq. intros t.
  rewrite !insert_all_get by done. by rewrite Hp.
Qed.

Section keys.
Context `{ConditionEngine, UlidCodecLaws, Sha256Laws, HmacSha256Laws}.
Variable hasher : list N.
Variable model_fingerprint : CompiledModel → Fingerprint.

(** What the types of the source keep: identifiers are ULIDs, strings hold
    scalar values, lengths fit their width, contextual tuples have distinct
    keys. *)
Record question_repr (c : CheckCommand) (m : CompiledModel) : Prop := {
  qr_store : (c.(cc_query).(qc_store_id) < ULID_BOUND)%N ∧ str_ok (ulid_to_string c.(cc_query).(qc_store_id));
  qr_model : (m.(model_id) < ULID_BOUND)%N ∧ str_ok (ulid_to_string m.(model_id));
  qr_fingerprint : bytes_ok (model_fingerprint m);
  qr_tuple : key_repr c.(cc_tuple);
  qr_contextual : tuples_repr c.(cc_query).(qc_contextual_tuples);
  qr_distinct : NoDup (rt_key <$> c.(cc_query).(qc_contextual_tuples));
  qr_context : context_repr c.(cc_query).(qc_condition_context);
}.

(** The strings hashed for the key of a question. *)
Definition decision_inputs (c : CheckCommand) (m : CompiledModel) : list (list N) :=
  decision_bytes hasher model_fingerprint c m :: tuple_key_bytes c.(cc_tuple) ::
  context_bytes_hashed c.(cc_query).(qc_condition_context).(cc_values) ::
  contextual_inputs c.(cc_query).(qc_contextual_tuples).

(** What a key identifies. *)
Definition same_question (c : CheckCommand) (m : CompiledModel) (c' : CheckCommand) (m' : CompiledModel) : Prop :=
  c.(cc_query).(qc_store_id) = c'.(cc_query).(qc_store_id) ∧ m.(model_id) = m'.(model_id) ∧
  model_fingerprint m = model_fingerprint m' ∧ c.(cc_tuple) = c'.(cc_tuple) ∧
  c.(cc_query).(qc_contextual_tuples) ≡ₚ c'.(cc_query).(qc_contextual_tuples) ∧
  c.(cc_query).(qc_condition_context) = c'.(cc_query).(qc_condition_context).

Lemma same_question_key c m c' m' :
  same_question c m c' m' → decision_key hasher model_fingerprint c m = decision_key hasher model_fingerprint c' m'.
Proof.
  intros (Hs & Hm & Hf & Ht & Hc & Hx). unfold decision_key, decision_bytes, keyed_context, context_message.
  by rewrite Hs, Hm, Hf, Ht, Hx, (contextual_fingerprint_permutation _ _ Hc).
Qed.

Lemma hmac_ok x : bytes_ok (hmac_sha256 hasher x).
Proof. unfold bytes_ok, len. by rewrite hmac_sha256_length. Qed.

Lemma decision_bytes_eq c m :
  decision_bytes hasher model_fingerprint c m =
  builder_new "openfga.check-decision-key.v1" ++ write_str (ulid_to_string c.(cc_query).(qc_store_id)) [] ++
  write_str (ulid_to_string m.(model_id)) [] ++ write_bytes (model_fingerprint m) [] ++
  write_bytes (tuple_key_fingerprint c.(cc_tuple)) [] ++ write_bytes (keyed_context hasher c.(cc_query)) [] ++
  write_u32 EVALUATOR_SEMANTICS_VERSION [].
Proof.
  unfold decision_bytes. cbv zeta. rewrite (write_bytes_appends (keyed_context _ _)), (write_bytes_appends (tuple_key_fingerprint _)),
    (write_bytes_appends (model_fingerprint m)), (write_str_appends (ulid_to_string (model_id m))),
    (write_str_appends (ulid_to_string (qc_store_id (cc_query c)))).
  unfold write_u32. by rewrite <-!app_assoc.
Qed.

Lemma decision_bytes_inj c m c' m' :
  question_repr c m → question_repr c' m' → decision_bytes hasher model_fingerprint c m = decision_bytes hasher model_fingerprint c' m' →
  c.(cc_query).(qc_store_id) = c'.(cc_query).(qc_store_id) ∧ m.(model_id) = m'.(model_id) ∧
  model_fingerprint m = model_fingerprint m' ∧
  tuple_key_fingerprint c.(cc_tuple) = tuple_key_fingerprint c'.(cc_tuple) ∧
  keyed_context hasher c.(cc_query) = keyed_context hasher c'.(cc_query).
Proof.
  intros [[??] [??] ? _ _ _ _] [[??] [??] ? _ _ _ _] E. rewrite !decision_bytes_eq in E. apply app_inj_1 in E as [_ E]; [|done].
  apply write_str_tells in E as [Es E]; [|done..]. apply write_str_tells in E as [Em E]; [|done..].
  apply write_bytes_tells in E as [Ef E]; [|done..]. apply write_bytes_tells in E as [Et E]; [|apply digest_ok..].
  apply write_bytes_tells in E as [Ec _]; [|apply hmac_ok..].
  split_and!; [by apply ulid_to_string_inj..|done|done|done].
Qed.

(** Neither digest collides on what two keys hash. *)
Definition keys_collision_free (c : CheckCommand) (m : CompiledModel) (c' : CheckCommand) (m' : CompiledModel) : Prop :=
  collision_free (decision_inputs c m ++ decision_inputs c' m') ∧
  (hmac_sha256 hasher (context_message c.(cc_query)) = hmac_sha256 hasher (context_message c'.(cc_query)) →
   context_message c.(cc_query) = context_message c'.(cc_query)).

Lemma key_same_question c m c' m' :
  question_repr c m → question_repr c' m' → keys_collision_free c m c' m' →
  decision_key hasher model_fingerprint c m = decision_key hasher model_fingerprint c' m' → same_question c m c' m'.
Proof.
  intros Hq Hq' [Hfree Hmac] [= _ Ek].
  assert (Hin : ∀ x, x ∈ decision_inputs c m ∨ x ∈ decision_inputs c' m' → x ∈ decision_inputs c m ++ decision_inputs c' m')
    by (intros x; by rewrite elem_of_app).
  apply Hfree in Ek; [|apply Hin; left; by left|apply Hin; right; by left].
  destruct (decision_bytes_inj _ _ _ _ Hq Hq' Ek) as (Hs & Hm & Hf & Ht & Hc).
  destruct Hq as [_ _ _ Hk Hct _ Hx], Hq' as [_ _ _ Hk' Hct' _ Hx'].
  apply Hfree in Ht; [|apply Hin; left; right; by left|apply Hin; right; right; by left].
  apply Hmac, app_inj_1 in Hc as [Hc Hcx]; [|unfold fingerprint_contextual_tuples, finish; by rewrite !sha256_length].
  apply Hfree in Hc; [|apply Hin; left; do 3 right; by left|apply Hin; right; do 3 right; by left].
  apply Hfree in Hcx; [|apply Hin; left; do 2 right; by left|apply Hin; right; do 2 right; by left].
  split_and!; try done.
  - unfold tuple_key_bytes in Ht. rewrite !(update_key_appends _ (builder_new _)) in Ht.
    apply app_inj_1 in Ht as [_ Ht]; [|done]. by eapply tells_end; [apply update_key_tells| |].
  - apply contextual_bytes_inj; [done..| |done]. eapply collision_free_mono; [exact Hfree|]. intros x Hi. apply Hin.
    apply elem_of_app in Hi as [?|?]; [left|right]; by do 3 right.
  - by apply context_bytes_inj.
Qed.

(** Questions that are the same have the same answers. *)
Lemma same_question_decides c m c' table d :
  NoDup (rt_key <$> c.(cc_query).(qc_contextual_tuples)) → same_question c m c' m →
  command_decides c m table d → command_decides c' m table d.
Proof.
  intros Hnd (_ & _ & _ & Ht & Hc & Hx) (r & Hr & Hd). exists r. rewrite <-Ht. split; [done|].
  eapply Decides_env, Hd; [done| |done]. by apply contextual_index_permutation.
Qed.

End keys.

(** C10: decision keys identify questions.  Two check commands on compiled models
    have the same key exactly when they agree on the store, the model and its
    fingerprint, the tuple, the condition context, and the contextual tuples up
    to their order, unless a digest collides. *)
Theorem decision_keys_identify_questions `{ConditionEngine, UlidCodecLaws, Sha256Laws, HmacSha256Laws}
    hasher model_fingerprint c m c' m' :
  question_repr model_fingerprint c m → question_repr model_fingerprint c' m' →
  keys_collision_free hasher model_fingerprint c m c' m' →
  decision_key hasher model_fingerprint c m = decision_key hasher model_fingerprint c' m' ↔
  same_question model_fingerprint c m c' m'.
Proof. intros Hq Hq' Hfree. split; [by apply key_same_question|apply same_question_key]. Qed.

(** ** Cached answers *)

Section freshness.
Context `{ConditionEngineLaws, !CheckEvaluator, !CheckEvaluatorLaws, UlidCodecLaws, Sha256Laws, HmacSha256Laws}.
Context {Db : Type} `{!ChangeStore Db, !ChangeStoreLaws Db}.
Variable config : InvalidationControllerConfig.
Variable limits : InputLimits.
Variable INSTANT_MAX : N.
Variable default_hash : StoreId → N → N.
Variable hasher : list N.
Variable model_fingerprint : CompiledModel → Fingerprint.
(** The models of the stores, which never change, and what is hashed for the
    keys of all requests. *)
Variable models : StoreId → AuthorizationModelId → option CompiledModel.
Variable inputs messages : list (list N).

(** A question about a model of the store. *)
Record asks (c : CheckCommand) (m : CompiledModel) : Prop := {
  as_model : models c.(cc_query).(qc_store_id) m.(model_id) = Some m;
  as_store : m.(model_store_id) = c.(cc_query).(qc_store_id);
  as_repr : question_repr model_fingerprint c m;
  as_inputs : decision_inputs hasher model_fingerprint c m ⊆ inputs;
  as_message : context_message c.(cc_query) ∈ messages;
}.

Definition digests_collision_free : Prop :=
  collision_free inputs ∧
  ∀ x y, x ∈ messages → y ∈ messages → hmac_sha256 hasher x = hmac_sha256 hasher y → x = y.

Lemma asks_same c m c' m' :
  digests_collision_free → asks c m → asks c' m' →
  decision_key hasher model_fingerprint c m = decision_key hasher model_fingerprint c' m' →
  m.(model_store_id) = m'.(model_store_id) ∧ ∀ table d, command_decides c m table d → command_decides c' m' table d.
Proof.
  intros [Hfree Hmac] [Hm _ Hq Hin Hmsg] [Hm' _ Hq' Hin' Hmsg'] Hk.
  assert (Hsame : same_question model_fingerprint c m c' m').
  { eapply key_same_question; [done..| |done]. split; [|by apply Hmac].
    eapply collision_free_mono; [exact Hfree|]. intros x [?|?]%elem_of_app; [by apply Hin|by apply Hin']. }
  assert (m = m') as ->.
  { destruct Hsame as (Es & Em & _). rewrite Es, Em in Hm. congruence. }
  split; [done|]. intros table d. eapply same_question_decides; [apply Hq|exact Hsame].
Qed.

Abbreviation steps := (step (Db := Db) config limits INSTANT_MAX default_hash hasher model_fingerprint asks).

Abbreviation arrived := (arrive (Db := Db) limits hasher model_fingerprint).

Lemma step_keeps_client sys sys' i r s0 p :
  steps sys sys' → sys.(sys_clients) !! i = Some (mkClient r s0 p) →
  ∃ p', sys'.(sys_clients) !! i = Some (mkClient r s0 p').
Proof.
  destruct 1 as [| | | | |j r' s1 B e k b s' Hj _| | | |]; simpl; intros Hi; eauto.
  - exists p. by apply lookup_app_l_Some.
  - destruct (decide (j = i)) as [->|Hne].
    + rewrite list_lookup_insert_eq by (by eapply lookup_lt_Some). simplify_eq. by eexists.
    + rewrite list_lookup_insert_ne by done. by exists p.
Qed.

Lemma steps_keep_client sys sys' i r s0 p :
  rtc steps sys sys' → sys.(sys_clients) !! i = Some (mkClient r s0 p) →
  ∃ p', sys'.(sys_clients) !! i = Some (mkClient r s0 p').
Proof.
  intros Hrun. revert p. induction Hrun as [|x y z Hstep _ IH]; intros p Hi; [by exists p|].
  destruct (step_keeps_client _ _ _ _ _ _ Hstep Hi) as [p' Hi']. by eapply IH.
Qed.

Lemma arrived_start sys sys' r s0 p :
  rtc steps (arrived sys r) sys' → sys'.(sys_clients) !! length sys.(sys_clients) = Some (mkClient r s0 p) →
  s0 = sys.(sys_shared).
Proof.
  intros Hrun Hi. destruct (steps_keep_client _ _ (length sys.(sys_clients)) _ _ _ Hrun (list_lookup_middle _ [] _ _ eq_refl))
    as [p' Hi']. congruence.
Qed.




End freshness.

(** ** A deployment *)

(** The fixture's model and tuples in the in-memory backend, behind the caches;
    a stand-in digest that is good enough for the strings at hand. *)
Module Deployment.
Import Fixture Codecs.

Definition digest (seed : N) (bytes : list N) : Fingerprint :=
  be_bytes 32 (foldl (fun h b => N.land (h * 257 + b + 1) (2 ^ 64 - 1))%N seed bytes).
#[export] Instance sha256_stub : Sha256 := digest 0.
#[export] Instance sha256_stub_laws : Sha256Laws.
Proof. intros x. apply be_bytes_length. Qed.
#[export] Instance hmac_stub : HmacSha256 := fun key bytes => digest 7 (key ++ bytes).
#[export] Instance hmac_stub_laws : HmacSha256Laws.
Proof. intros key x. apply be_bytes_length. Qed.

#[export] Instance backend : ChangeStore MemoryHistory := memory_change_store default_input_limits.
#[export] Instance evaluator : CheckEvaluator := direct_evaluator default_input_limits.

Definition config : InvalidationControllerConfig := mkControllerConfig 16 100 1000000000 1000000000 10000000000.
Definition hasher : list N := [1; 2; 3]%N.
Definition fingerprint (m : CompiledModel) : Fingerprint := digest 1 [m.(model_id)].
Definition no_hash (store : StoreId) (millis : N) : N := 0.

(** May bob view the document, given contextual tuples? *)
Definition bob_views (contextual : list RelationshipTuple) : CheckCommand :=
  mkCheckCommand (mkQueryContext 1%N LatestModel MinimizeLatency contextual empty_condition_context 1000000000000
                    (mkPrincipal Development (str "test")))
    (mkTupleKey doc1 viewer (SubjObject bob)).
Definition bobs_item : BatchCheckCommand :=
  mkBatchCheckCommand (bob_views []).(cc_query)
    [mkBatchCheckItem (str "a") (bob_views []).(cc_tuple) [] empty_condition_context].

Definition models (store : StoreId) (id : AuthorizationModelId) : option CompiledModel :=
  if (store =? 1)%N && (id =? 2)%N then Some model else None.
Definition inputs : list (list N) := decision_inputs hasher fingerprint (bob_views []) model.
Definition messages : list (list N) := [context_message (bob_views []).(cc_query)].

Definition strict : TupleWriteOptions := mkTupleWriteOptions OnConflictError OnConflictError.
Definition initial : MemoryHistory := [(CmdWriteTuples 1 [] database strict, calm)].
Definition check : request := RqCheck (bob_views []) model default_check_budget None.
Definition batch : request := RqBatch bobs_item model default_check_budget.
Definition disapprove : request := RqWrite 1 [mkTupleKey doc1 approved (SubjObject bob)] [] strict.

(** A miss, which registers the store; two turns of the actor, which tracks and
    polls it; and an answer that is cached. *)
Definition warm : list move := [MServe check; MTurn; MTurn; MServe check].

Abbreviation run moves := (exec default_input_limits config default_input_limits (2 ^ 63)%N no_hash hasher fingerprint
  (started 0 initial) moves).

Definition told_apart (l : list (list N * Fingerprint)) : bool :=
  forallb (fun '(x, dx) => forallb (fun '(y, dy) => implb (bool_decide (dx = dy)) (bool_decide (x = y))) l) l.

Lemma collision_free_eval (digest : list N → Fingerprint) (l : list (list N)) :
  told_apart ((fun x => (x, digest x)) <$> l) = true → ∀ x y, x ∈ l → y ∈ l → digest x = digest y → x = y.
Proof.
  intros Hl x y Hx Hy E. unfold told_apart in Hl. rewrite forallb_forall in Hl.
  specialize (Hl (x, digest x)). rewrite <-list_elem_of_In, forallb_forall in Hl.
  specialize (Hl (list_elem_of_fmap_2 (fun x => (x, digest x)) _ _ Hx) (y, digest y)).
  rewrite <-list_elem_of_In, bool_decide_true in Hl by done.
  apply (bool_decide_eq_true (x = y)), Hl, (list_elem_of_fmap_2 (fun x => (x, digest x)) _ _ Hy).
Qed.

Lemma digests_free : digests_collision_free hasher inputs messages.
Proof.
  split; [refine (collision_free_eval (digest 0) inputs _)|refine (collision_free_eval (hmac_stub hasher) messages _)];
    vm_compute; reflexivity.
Qed.

Lemma str_ok_eval s : forallb (fun c => c <? 1114112)%N s && (str_len s <? 2 ^ 64)%N = true → str_ok s.
Proof.
  intros [Hs Hl]%andb_true_iff. split; [|by apply N.ltb_lt]. apply Forall_forall. intros c Hc%list_elem_of_In.
  rewrite forallb_forall in Hs. by apply N.ltb_lt, Hs.
Qed.

Lemma bob_repr contextual :
  Forall tuple_repr contextual → length contextual < 10 → NoDup (rt_key <$> contextual) →
  question_repr fingerprint (bob_views contextual) model.
Proof.
  intros Hc Hl Hnd. split; try done.
  - split; [done|]. apply str_ok_eval. vm_compute. reflexivity.
  - split; [done|]. apply str_ok_eval. vm_compute. reflexivity.
  - split_and!; try split; apply str_ok_eval; reflexivity.
  - split; [done|]. simpl. unfold len. lia.
Qed.

Lemma bob_asks : asks hasher fingerprint models inputs messages (bob_views []) model.
Proof. split; [done|done|by apply bob_repr; [|simpl; lia|]; constructor|done|by left]. Qed.

End Deployment.

Import Deployment Fixture Codecs.

(** Two contextual tuples. *)
Definition anne_edits : RelationshipTuple := tuple doc1 editor (SubjObject anne).
Definition bob_edits : RelationshipTuple := tuple doc1 editor (SubjObject bob).

Lemma edits_repr : Forall tuple_repr [anne_edits; bob_edits].
Proof. repeat constructor; apply str_ok_eval; reflexivity. Qed.

Lemma edits_distinct : NoDup (rt_key <$> [anne_edits; bob_edits]).
Proof. apply (bool_decide_unpack _). vm_compute. done. Qed.

Lemma decision_keys_identify_questions_witness :
  decision_key hasher fingerprint (bob_views [anne_edits; bob_edits]) model =
  decision_key hasher fingerprint (bob_views [bob_edits; anne_edits]) model.
Proof.
  apply (decision_keys_identify_questions hasher fingerprint (bob_views [anne_edits; bob_edits]) model
           (bob_views [bob_edits; anne_edits]) model).
  - apply bob_repr; [apply edits_repr|simpl; lia|apply edits_distinct].
  - apply bob_repr; [|simpl; lia|]; rewrite (Permutation_swap anne_edits bob_edits []); [apply edits_repr|apply edits_distinct].
  - split; [|intros _; vm_compute; reflexivity]. refine (collision_free_eval (digest 0) _ _). vm_compute. reflexivity.
  - split_and!; try reflexivity. apply Permutation_swap.
Defined.

(** The moves of the deployment ask admissible questions. *)
Lemma bobs_moves_ok moves :
  Forall (fun m => m = MServe check ∨ m = MServe batch ∨ m = MServe disapprove ∨ m = MTurn) moves →
  Forall (move_ok default_input_limits (asks hasher fingerprint models inputs messages)) moves.
Proof.
  intros Hm. eapply Forall_impl; [done|]. intros m [->|[->|[->| ->]]]; try done; [apply bob_asks|].
  intros item ->%list_elem_of_singleton context [= <-]. apply bob_asks.
Qed.

Ltac known_moves := apply bobs_moves_ok; repeat (apply Forall_cons; split; [by auto|]); by apply Forall_nil.

Abbreviation witness_run moves sys :=
  (exec default_input_limits config default_input_limits (2 ^ 63)%N no_hash hasher fingerprint (started 0 initial) moves = Some sys).



Definition denied : CheckOutcome := mkCheckOutcome false RDenied (mkCounters 8 3 2 0 0 1).

