(* ===== verification/ListCommon.v ===== *)
(** * Shared parts of the enumeration engines

    [crates/openfga-list/src/{error,budget,common}.rs]: redacted failures,
    independent budgets and the model-identity check, and the effects the
    engines run in: a state, early return with a [ListError], and the answers
    of the outside (clock, cancellation, reads, condition polling) indexed by
    the number of questions asked so far. *)

From S2P Require Import Prelude Ordered Identifier Reference Condition Storage Model TupleValidation Budget.
From S2P Require Import Reducer Scheduler Evaluator.

(** ** Errors *)

Inductive ListErrorKind :=
| LInvalidModel | LInvalidTuple | LDepthExceeded | LDispatchExceeded | LDatastoreQueryExceeded
| LTupleItemExceeded | LCandidateExceeded | LSubjectExceeded | LConditionCostExceeded
| LNodeExceeded | LResponseSizeExceeded | LStorageUnavailable | LTimeout | LCancelled | LInternal.

Inductive ListErrorSource :=
| LSrcCheck (e : CheckError)
| LSrcCondition (e : EvaluationErrorKind)
| LSrcStorage (e : StorageError)
| LSrcModel (e : ModelLookupError)
| LSrcTupleValidation (e : TupleValidationError).

Record ListError := mkListError {
  le_kind : ListErrorKind;
  le_code : string;
  le_source : option ListErrorSource;
}.

Definition list_error (kind : ListErrorKind) (code : string) : ListError := mkListError kind code None.
Definition list_internal (code : string) : ListError := list_error LInternal code.
Definition list_model_error (code : string) (source : ModelLookupError) : ListError :=
  mkListError LInvalidModel code (Some (LSrcModel source)).
Definition list_condition_error (code : string) (source : EvaluationErrorKind) : ListError :=
  mkListError LInvalidTuple code (Some (LSrcCondition source)).

(** [From<StorageError>], [From<TupleValidationError>] and [From<CheckError>] *)
Definition list_storage_error (e : StorageError) : ListError :=
  mkListError
    (match e.(se_kind) with
     | SCancelled => LCancelled
     | STimeout => LTimeout
     | SUnavailable => LStorageUnavailable
     | SResourceExhausted => LTupleItemExceeded
     | SNotFound | SAlreadyExists | SConflict | SInvalidContinuation | SIntegrity | SInternal => LInternal
     end) "tuple_storage_failed" (Some (LSrcStorage e)).

Definition list_tuple_error (e : TupleValidationError) : ListError :=
  mkListError LInvalidTuple e.(tv_code) (Some (LSrcTupleValidation e)).

Definition list_check_error (e : CheckError) : ListError :=
  mkListError
    (match e.(ck_kind) with
     | KInvalidModel => LInvalidModel
     | KInvalidTuple | KCondition => LInvalidTuple
     | KDepthExceeded => LDepthExceeded
     | KDispatchExceeded => LDispatchExceeded
     | KDatastoreQueryExceeded => LDatastoreQueryExceeded
     | KTupleItemExceeded | KConditionCostExceeded => LTupleItemExceeded
     | KStorageUnavailable => LStorageUnavailable
     | KTimeout => LTimeout
     | KCancelled => LCancelled
     | KInternal => LInternal
     end) e.(ck_code) (Some (LSrcCheck e)).

(** ** Budgets *)

Record CandidateBudget := mkCandidateBudget {
  cb_depth : N;
  cb_dispatches : N;
  cb_datastore_queries : N;
  cb_tuple_items : N;
  cb_candidates : N;
}.

Definition default_candidate_budget : CandidateBudget := {|
  cb_depth := trusted_limit 1000 25;
  cb_dispatches := trusted_limit 1000000 10000;
  cb_datastore_queries := trusted_limit 100000 1000;
  cb_tuple_items := trusted_limit 1000000 10000;
  cb_candidates := trusted_limit 100000 10000;
|}.

Record ListObjectsBudget := mkListObjectsBudget {
  lob_candidate : CandidateBudget;
  lob_check : CheckBudget;
  lob_residual_dispatches : N;
  lob_residual_datastore_queries : N;
  lob_residual_tuple_items : N;
  lob_residual_concurrency : N;
  lob_stream_buffer : N;
}.

Definition default_list_objects_budget : ListObjectsBudget := {|
  lob_candidate := default_candidate_budget;
  lob_check := default_check_budget;
  lob_residual_dispatches := trusted_limit 1000000 10000;
  lob_residual_datastore_queries := trusted_limit 100000 1000;
  lob_residual_tuple_items := trusted_limit 1000000 10000;
  lob_residual_concurrency := trusted_limit 1024 16;
  lob_stream_buffer := trusted_limit 1024 16;
|}.

(** [ListObjectsBudget::residual_work_meter] *)
Definition residual_work_meter (b : ListObjectsBudget) : CheckWorkMeter :=
  work_meter_new b.(lob_residual_dispatches) b.(lob_residual_datastore_queries) b.(lob_residual_tuple_items).

Record ListUsersBudget := mkListUsersBudget {
  lub_depth : N;
  lub_dispatches : N;
  lub_datastore_queries : N;
  lub_tuple_items : N;
  lub_subjects : N;
  lub_condition_cost : N;
}.

Definition default_list_users_budget : ListUsersBudget := {|
  lub_depth := trusted_limit 1000 25;
  lub_dispatches := trusted_limit 1000000 10000;
  lub_datastore_queries := trusted_limit 100000 1000;
  lub_tuple_items := trusted_limit 1000000 10000;
  lub_subjects := trusted_limit 100000 10000;
  lub_condition_cost := trusted_limit 1000000 100000;
|}.

Record ExpandBudget := mkExpandBudget {
  exb_depth : N;
  exb_nodes : N;
  exb_datastore_queries : N;
  exb_tuple_items : N;
  exb_response_bytes : N;
}.

Definition default_expand_budget : ExpandBudget := {|
  exb_depth := trusted_limit 1000 25;
  exb_nodes := trusted_limit 100000 10000;
  exb_datastore_queries := trusted_limit 100000 1000;
  exb_tuple_items := trusted_limit 1000000 10000;
  exb_response_bytes := trusted_limit 16777216 1048576;
|}.

(** ** The outside *)

Record ListWorld := mkListWorld {
  lw_cancelled : nat → bool;
  lw_now : nat → N;
  lw_reverse : nat → StoreId → ReverseTupleFilter → N → result StorageError TupleStream;
  lw_forward : nat → StoreId → ObjectRelationFilter → N → result StorageError TupleStream;
  lw_poll : nat → nat → bool;
}.

(** ** Effects

    The engines return on the first error and drop their state, so a failed
    computation has none.  [LFuel] is the fault of a loop bound that was too
    small; it is distinct from every engine error. *)

Inductive ListFault := LFail (e : ListError) | LFuel.

Definition Eng (S A : Type) : Type := S → nat → result ListFault (A * S * nat).

#[export] Instance eng_ret {S} : MRet (Eng S) := fun A a s n => Ok (a, s, n).
#[export] Instance eng_bind {S} : MBind (Eng S) := fun A B f m s n =>
  match m s n with
  | Ok (a, s, n) => f a s n
  | Err e => Err e
  end.

Section effects.
Context {S : Type}.

Definition eng_get : Eng S S := fun s n => Ok (s, s, n).
Definition eng_modify (f : S → S) : Eng S () := fun s n => Ok ((), f s, n).
Definition eng_lift {A} (r : result ListError A) : Eng S A := fun s n =>
  match r with Ok a => Ok (a, s, n) | Err e => Err (LFail e) end.
Definition eng_fail {A} (e : ListError) : Eng S A := fun s n => Err (LFail e).
Definition eng_fuel {A} : Eng S A := fun s n => Err LFuel.
(** The index of the next answer of the world. *)
Definition eng_tick : Eng S nat := fun s n => Ok (n, s, Datatypes.S n).

(** [for x in l { f(x)?; }] *)
Fixpoint eng_each {A} (f : A → Eng S ()) (l : list A) : Eng S () :=
  match l with
  | [] => mret ()
  | x :: l => f x;; eng_each f l
  end.

(** [l.map(f).collect::<Result<Vec<_>, _>>()] *)
Fixpoint eng_map {A B} (f : A → Eng S B) (l : list A) : Eng S (list B) :=
  match l with
  | [] => mret []
  | x :: l => y ← f x; ys ← eng_map f l; mret (y :: ys)
  end.

(** [for x in l { acc = f(acc, x)?; }] *)
Fixpoint eng_fold {A B} (f : B → A → Eng S B) (acc : B) (l : list A) : Eng S B :=
  match l with
  | [] => mret acc
  | x :: l => acc ← f acc x; eng_fold f acc l
  end.

(** [operation.check().map_err(ListError::from)?] *)
Definition eng_check (w : ListWorld) (op : OperationContext) : Eng S () :=
  t ← eng_tick; eng_lift (map_err list_storage_error (operation_check op (lw_cancelled w t) (lw_now w t))).

(** ** Weakest preconditions

    [wp total m Q s n]: a result of [m] satisfies [Q]; engine errors are
    allowed, and running out of fuel is not when [total] is required. *)

Definition wp (total : Prop) {A} (m : Eng S A) (Q : A → S → Prop) (s : S) (n : nat) : Prop :=
  match m s n with
  | Ok (a, s', _) => Q a s'
  | Err LFuel => ¬ total
  | Err (LFail _) => True
  end.

Context (total : Prop).

Lemma wp_ret {A} (a : A) Q s n : Q a s → wp total (mret a) Q s n.
Proof. done. Qed.

Lemma wp_bind {A B} (m : Eng S A) (f : A → Eng S B) Q s n :
  wp total m (fun a s' => ∀ n', wp total (f a) Q s' n') s n → wp total (m ≫= f) Q s n.
Proof. unfold wp, mbind, eng_bind. destruct (m s n) as [[[a s'] n']|[]]; intros Hm; [apply Hm|done..]. Qed.

Lemma wp_mono {A} (m : Eng S A) (Q Q' : A → S → Prop) s n :
  wp total m Q s n → (∀ a s', Q a s' → Q' a s') → wp total m Q' s n.
Proof. unfold wp. destruct (m s n) as [[[a s'] n']|[]]; intros Hm HQ; auto. Qed.

Lemma wp_get Q s n : Q s s → wp total eng_get Q s n.
Proof. done. Qed.

Lemma wp_modify f Q s n : Q () (f s) → wp total (eng_modify f) Q s n.
Proof. done. Qed.

Lemma wp_lift {A} (r : result ListError A) (Q : A → S → Prop) s n :
  (∀ a, r = Ok a → Q a s) → wp total (eng_lift r) Q s n.
Proof. unfold wp, eng_lift. destruct r; auto. Qed.

Lemma wp_fail {A} e (Q : A → S → Prop) s n : wp total (eng_fail e) Q s n.
Proof. done. Qed.

Lemma wp_tick Q s n : (∀ t, Q t s) → wp total eng_tick Q s n.
Proof. intros HQ. apply HQ. Qed.

Lemma wp_check w op (Q : () → S → Prop) s n : Q () s → wp total (eng_check w op) Q s n.
Proof.
  intros HQ. unfold eng_check. apply wp_bind, wp_tick. intros t n'. apply wp_lift. by intros [].
Qed.

(** A loop keeps an invariant indexed by the elements already visited. *)
Lemma wp_each {A} (f : A → Eng S ()) (I : list A → S → Prop) l s n :
  I [] s →
  (∀ l1 x l2 s n, l = l1 ++ x :: l2 → I l1 s → wp total (f x) (fun _ s' => I (l1 ++ [x]) s') s n) →
  wp total (eng_each f l) (fun _ s' => I l s') s n.
Proof.
  intros H0 Hstep. cut (∀ l1 l2 s n, l = l1 ++ l2 → I l1 s →
    wp total (eng_each f l2) (fun _ s' => I l s') s n). { intros Hc. by apply (Hc [] l). }
  clear s n H0. intros l1 l2. revert l1. induction l2 as [|x l2 IH]; intros l1 s n Hl HI; simpl.
  - apply wp_ret. by rewrite Hl, app_nil_r.
  - apply wp_bind. eapply wp_mono; [by eapply Hstep|]. intros [] s' HI' n'.
    apply (IH (l1 ++ [x])); [by rewrite <-app_assoc|done].
Qed.

(** A loop whose state does not matter between its elements. *)
Lemma wp_each_inv {A} (f : A → Eng S ()) (I : S → Prop) l s n :
  I s → (∀ x s n, x ∈ l → I s → wp total (f x) (fun _ s' => I s') s n) →
  wp total (eng_each f l) (fun _ s' => I s') s n.
Proof.
  intros H0 Hstep. apply (wp_each f (fun _ => I)); [done|].
  intros l1 x l2 s' n' ->. apply Hstep. set_solver.
Qed.

(** A fold keeps an invariant indexed by the elements already visited. *)
Lemma wp_fold {A B} (f : B → A → Eng S B) (I : list A → B → S → Prop) l acc s n :
  I [] acc s →
  (∀ l1 x l2 acc s n, l = l1 ++ x :: l2 → I l1 acc s → wp total (f acc x) (I (l1 ++ [x])) s n) →
  wp total (eng_fold f acc l) (I l) s n.
Proof.
  intros H0 Hstep. cut (∀ l1 l2 acc s n, l = l1 ++ l2 → I l1 acc s → wp total (eng_fold f acc l2) (I l) s n).
  { intros Hc. by apply (Hc [] l). }
  clear s n acc H0. intros l1 l2. revert l1. induction l2 as [|x l2 IH]; intros l1 acc s n Hl HI; simpl.
  - apply wp_ret. by rewrite Hl, app_nil_r.
  - apply wp_bind. eapply wp_mono; [by eapply Hstep|]. intros acc' s' HI' n'.
    apply (IH (l1 ++ [x])); [by rewrite <-app_assoc|done].
Qed.

Lemma wp_ok {A} (m : Eng S A) (Q : A → S → Prop) s n a s' n' :
  wp total m Q s n → m s n = Ok (a, s', n') → Q a s'.
Proof. unfold wp. intros Hm E. by rewrite E in Hm. Qed.

(** A partial fact about the result of a total computation. *)
Lemma wp_conj {A} (m : Eng S A) (Q Q' : A → S → Prop) s n :
  wp total m Q s n → wp False m Q' s n → wp total m (fun a s' => Q a s' ∧ Q' a s') s n.
Proof. unfold wp. destruct (m s n) as [[[a s'] n']|[]]; auto. Qed.

Lemma wp_any {A} (m : Eng S A) s n : wp False m (fun _ _ => True) s n.
Proof. unfold wp. destruct (m s n) as [[[a s'] n']|[]]; tauto. Qed.

Lemma wp_fuel {A} (m : Eng S A) (Q : A → S → Prop) s n : wp True m Q s n → m s n ≠ Err LFuel.
Proof. unfold wp. intros Hm E. rewrite E in Hm. tauto. Qed.

End effects.

(** Composition does not run out of fuel when its parts do not. *)
Lemma bind_no_fuel {A B} (r : result ListFault A) (f : A → result ListFault B) :
  r ≠ Err LFuel → (∀ a, r = Ok a → f a ≠ Err LFuel) → r ≫= f ≠ Err LFuel.
Proof. destruct r as [a|e]; simpl; [auto|]. intros Hne _ [= ->]. done. Qed.

Lemma map_err_no_fuel {E A} (f : E → ListFault) (r : result E A) : (∀ e, f e ≠ LFuel) → map_err f r ≠ Err LFuel.
Proof. intros Hf. destruct r as [a|e]; simpl; [done|]. intros [= He]. by apply (Hf e). Qed.

Arguments eng_get {S} s n /.
Arguments eng_fuel {S A} s n /.

(** One step of a computation in a weakest precondition. *)
Ltac wp_step :=
  match goal with
  | |- wp _ (_ ≫= _) _ _ _ => apply wp_bind
  | |- wp _ (mret _) _ _ _ => apply wp_ret
  | |- wp _ eng_get _ _ _ => apply wp_get
  | |- wp _ (eng_modify _) _ _ _ => apply wp_modify
  | |- wp _ (eng_lift _) _ _ _ => apply wp_lift
  | |- wp _ (eng_fail _) _ _ _ => apply wp_fail
  | |- wp _ eng_tick _ _ _ => apply wp_tick
  | |- wp _ (eng_check _ _) _ _ _ => apply wp_check
  | |- ∀ _, _ => intros ?
  | u : unit |- _ => destruct u
  end.
Ltac wp_steps := repeat wp_step.

(** ** Shared checks *)

Section common.
Context `{ConditionEngine}.

(** [validate_query_model] *)
Definition validate_query_model (q : QueryContext) (m : CompiledModel) : result ListError () :=
  if negb (m.(model_store_id) =? q.(qc_store_id))%N then
    Err (list_error LInvalidModel "list_model_store_mismatch")
  else match q.(qc_model_selection) with
       | ExplicitModel id =>
           if negb (m.(model_id) =? id)%N then Err (list_error LInvalidModel "list_model_id_mismatch")
           else Ok ()
       | LatestModel => Ok ()
       end.

(** The contextual tuples of a query are validated before anything else. *)
Definition validate_contextual (q : QueryContext) (m : CompiledModel) : result ListError () :=
  try_each (fun t => map_err list_tuple_error (validate_relationship_tuple m t)) q.(qc_contextual_tuples).

(** [OperationContext::new] of a query *)
Definition query_operation (q : QueryContext) : OperationContext :=
  mkOperationContext q.(qc_consistency) q.(qc_deadline).

(** The rows of a tuple stream, the first error returned. *)
Definition collect_stream (s : TupleStream) : result ListError (list RelationshipTuple) :=
  try_collect (map_err list_storage_error) (stream_items s).

End common.
