(* ===== verification/Candidates.v ===== *)
(** * Reverse candidate traversal

    [crates/openfga-list/src/candidate.rs]: from a subject, the objects on which
    it may have a relation, found by reverse reads along the rewrite rules.
    Relations are states that collect objects and publish them to subscribers;
    an object found through an intersection, an exclusion or a conditional tuple
    is marked for a residual check. *)

From S2P Require Import Prelude Ordered Identifier Reference Condition Storage Model TupleValidation Budget.
From S2P Require Import Reducer Scheduler Evaluator ListCommon.

(** ** Keys and values *)

Record StateKey := mkStateKey { stk_relation : RelationId; stk_subject : SubjectRef }.

Definition state_key_key (k : StateKey) : nat * SubjectRef := (k.(stk_relation), k.(stk_subject)).
#[export] Instance state_key_key_inj : Inj (=) (=) state_key_key.
Proof. intros [] [] [= -> ->]. done. Qed.
#[export] Instance ord_StateKey : Ord StateKey := ord_via state_key_key.
#[export] Instance ord_laws_StateKey : OrdLaws StateKey := ord_laws_via state_key_key.

Record CandidateInfo := mkCandidateInfo { ci_requires_check : bool; ci_depth : N }.

(** [CandidateInfo::merge]: the merged value and whether it changed. *)
Definition merge_info (self other : CandidateInfo) : CandidateInfo * bool :=
  (mkCandidateInfo (self.(ci_requires_check) || other.(ci_requires_check))
     (N.min self.(ci_depth) other.(ci_depth)),
   (negb self.(ci_requires_check) && other.(ci_requires_check)) || (other.(ci_depth) <? self.(ci_depth))%N).

Inductive Transform :=
| SameObject
| ReverseObject (r : RelationId)
| ReverseUserset (owner subject_relation : RelationId).

Definition transform_key (t : Transform) : nat + (nat + nat * nat) :=
  match t with
  | SameObject => inl 0
  | ReverseObject r => inr (inl r)
  | ReverseUserset owner r => inr (inr (owner, r))
  end.
#[export] Instance transform_key_inj : Inj (=) (=) transform_key.
Proof. intros [] []; simpl; intros; by simplify_eq. Qed.
#[export] Instance ord_Transform : Ord Transform := ord_via transform_key.
#[export] Instance ord_laws_Transform : OrdLaws Transform := ord_laws_via transform_key.

Record Subscriber := mkSubscriber {
  sub_parent : StateKey;
  sub_transform : Transform;
  sub_ambiguous : bool;
}.

Definition subscriber_key (s : Subscriber) : StateKey * (Transform * nat) :=
  (s.(sub_parent), (s.(sub_transform), if s.(sub_ambiguous) then 1 else 0)).
#[export] Instance subscriber_key_inj : Inj (=) (=) subscriber_key.
Proof. intros [? ? []] [? ? []]; unfold subscriber_key; simpl; intros; by simplify_eq. Qed.
#[export] Instance ord_Subscriber : Ord Subscriber := ord_via subscriber_key.
#[export] Instance ord_laws_Subscriber : OrdLaws Subscriber := ord_laws_via subscriber_key.

Record RelationState := mkRelationState {
  rst_expanded : bool;
  rst_objects : BTreeMap ObjectRef CandidateInfo;
  rst_subscribers : BTreeSet Subscriber;
}.

Definition relation_state_default : RelationState := mkRelationState false [] [].

Inductive Event :=
| Expand (key : StateKey)
| Publish (key : StateKey) (object : ObjectRef) (info : CandidateInfo)
| Apply (subscriber : Subscriber) (object : ObjectRef) (info : CandidateInfo).

Record PendingKey := mkPendingKey { pk_parent : StateKey; pk_relation : RelationId }.

Definition pending_key_key (k : PendingKey) : StateKey * nat := (k.(pk_parent), k.(pk_relation)).
#[export] Instance pending_key_key_inj : Inj (=) (=) pending_key_key.
Proof. intros [] [] [= -> ->]. done. Qed.
#[export] Instance ord_PendingKey : Ord PendingKey := ord_via pending_key_key.
#[export] Instance ord_laws_PendingKey : OrdLaws PendingKey := ord_laws_via pending_key_key.

(** [CandidateMetadata] and the [Counters] it is copied from. *)
Record CandidateMetadata := mkCandidateMetadata {
  cm_dispatches : N;
  cm_datastore_queries : N;
  cm_tuple_items : N;
  cm_intermediate_candidates : N;
  cm_maximum_depth : N;
}.

(** The mutable fields of [Traversal]. *)
Record Traversal := mkTraversal {
  tv_states : BTreeMap StateKey RelationState;
  tv_events : list Event;
  tv_pending : BTreeMap PendingKey (BTreeMap SubjectRef CandidateInfo);
  tv_counters : CandidateMetadata;
}.

Definition traversal_default : Traversal := mkTraversal [] [] [] (mkCandidateMetadata 0 0 0 0 0).

Definition set_tv_states (f : BTreeMap StateKey RelationState → BTreeMap StateKey RelationState)
    (t : Traversal) : Traversal :=
  mkTraversal (f t.(tv_states)) t.(tv_events) t.(tv_pending) t.(tv_counters).
Definition set_tv_events (f : list Event → list Event) (t : Traversal) : Traversal :=
  mkTraversal t.(tv_states) (f t.(tv_events)) t.(tv_pending) t.(tv_counters).
Definition set_tv_pending
    (f : BTreeMap PendingKey (BTreeMap SubjectRef CandidateInfo) →
         BTreeMap PendingKey (BTreeMap SubjectRef CandidateInfo)) (t : Traversal) : Traversal :=
  mkTraversal t.(tv_states) t.(tv_events) (f t.(tv_pending)) t.(tv_counters).
Definition set_tv_counters (f : CandidateMetadata → CandidateMetadata) (t : Traversal) : Traversal :=
  mkTraversal t.(tv_states) t.(tv_events) t.(tv_pending) (f t.(tv_counters)).

Record Candidate := mkCandidate { cand_object : ObjectRef; cand_requires_check : bool }.
Record CandidateSet := mkCandidateSet { cs_candidates : list Candidate; cs_metadata : CandidateMetadata }.

(** ** Errors *)

Definition list_depth_exceeded : ListError := list_error LDepthExceeded "list_candidate_depth_exceeded".
Definition list_dispatch_exceeded : ListError :=
  list_error LDispatchExceeded "list_candidate_dispatch_exceeded".
Definition list_query_exceeded : ListError :=
  list_error LDatastoreQueryExceeded "list_candidate_datastore_query_exceeded".
Definition list_items_exceeded : ListError :=
  list_error LTupleItemExceeded "list_candidate_tuple_items_exceeded".
Definition list_candidate_exceeded : ListError :=
  list_error LCandidateExceeded "list_candidate_count_exceeded".

(** [next_depth] *)
Definition list_next_depth (depth : N) : result ListError N :=
  ok_or (checked_add U32_MAX depth 1) list_depth_exceeded.

(** [slice::chunks] for a positive size *)
Fixpoint chunks_loop {A} (fuel size : nat) (l : list A) : list (list A) :=
  match fuel, l with
  | _, [] | 0, _ => []
  | S fuel, _ => take size l :: chunks_loop fuel size (drop size l)
  end.
Definition chunks {A} (size : nat) (l : list A) : list (list A) := chunks_loop (length l) size l.

(** [iter.collect::<BTreeMap<_, _>>()] *)
Definition bt_collect {K V} `{Ord K} (l : list (K * V)) : BTreeMap K V :=
  foldl (fun m p => bt_insert p.1 p.2 m) [] l.

Section traversal.
Context `{ConditionEngine}.
Variable command : ListObjectsCommand.
Variable m : CompiledModel.
Variable budget : CandidateBudget.
Variable limits : InputLimits.
Variable w : ListWorld.

Abbreviation operation := (query_operation command.(loc_query)).
Abbreviation T := (Eng Traversal).

(** ** Counters *)

Definition candidate_check_depth (depth : N) : T () :=
  eng_modify (set_tv_counters (fun c =>
    mkCandidateMetadata c.(cm_dispatches) c.(cm_datastore_queries) c.(cm_tuple_items)
      c.(cm_intermediate_candidates) (N.max c.(cm_maximum_depth) depth)));;
  if (budget.(cb_depth) <? depth)%N then eng_fail list_depth_exceeded else mret ().

Definition push_event (e : Event) : T () :=
  t ← eng_get;
  n ← eng_lift (ok_or (checked_add U32_MAX t.(tv_counters).(cm_dispatches) 1) list_dispatch_exceeded);
  eng_modify (set_tv_counters (fun c =>
    mkCandidateMetadata n c.(cm_datastore_queries) c.(cm_tuple_items) c.(cm_intermediate_candidates)
      c.(cm_maximum_depth)));;
  if (budget.(cb_dispatches) <? n)%N then eng_fail list_dispatch_exceeded
  else eng_modify (set_tv_events (fun l => l ++ [e])).

Definition charge_query : T () :=
  t ← eng_get;
  n ← eng_lift (ok_or (checked_add U32_MAX t.(tv_counters).(cm_datastore_queries) 1) list_query_exceeded);
  eng_modify (set_tv_counters (fun c =>
    mkCandidateMetadata c.(cm_dispatches) n c.(cm_tuple_items) c.(cm_intermediate_candidates)
      c.(cm_maximum_depth)));;
  if (budget.(cb_datastore_queries) <? n)%N then eng_fail list_query_exceeded else mret ().

Definition candidate_charge_items (stored contextual : nat) : T () :=
  count ← eng_lift (ok_or (c ← checked_add USIZE_MAX (N.of_nat stored) (N.of_nat contextual); try_u32 c)
                      list_items_exceeded);
  t ← eng_get;
  n ← eng_lift (ok_or (checked_add U32_MAX t.(tv_counters).(cm_tuple_items) count) list_items_exceeded);
  eng_modify (set_tv_counters (fun c =>
    mkCandidateMetadata c.(cm_dispatches) c.(cm_datastore_queries) n c.(cm_intermediate_candidates)
      c.(cm_maximum_depth)));;
  if (budget.(cb_tuple_items) <? n)%N then eng_fail list_items_exceeded else mret ().

(** One more distinct candidate. *)
Definition count_candidate : T () :=
  t ← eng_get;
  n ← eng_lift (ok_or (checked_add U32_MAX t.(tv_counters).(cm_intermediate_candidates) 1)
                  list_candidate_exceeded);
  eng_modify (set_tv_counters (fun c =>
    mkCandidateMetadata c.(cm_dispatches) c.(cm_datastore_queries) c.(cm_tuple_items) n
      c.(cm_maximum_depth)));;
  if (budget.(cb_candidates) <? n)%N then eng_fail list_candidate_exceeded else mret ().

(** ** States and subscriptions *)

Definition ensure_state (key : StateKey) : T () :=
  t ← eng_get;
  if bt_contains_key key t.(tv_states) then mret ()
  else
    eng_modify (set_tv_states (bt_insert key relation_state_default));;
    push_event (Expand key).

Definition get_state_of (key : StateKey) (code : string) : T RelationState :=
  t ← eng_get; eng_lift (ok_or (bt_get key t.(tv_states)) (list_internal code)).

Definition put_state (key : StateKey) (state : RelationState) : T () :=
  eng_modify (set_tv_states (bt_insert key state)).

Definition subscribe (child : StateKey) (subscriber : Subscriber) : T () :=
  ensure_state child;;
  state ← get_state_of child "list_child_state_missing";
  if bs_contains subscriber state.(rst_subscribers) then mret ()
  else
    put_state child (mkRelationState state.(rst_expanded) state.(rst_objects)
                       (bs_insert subscriber state.(rst_subscribers)));;
    eng_each (fun entry => push_event (Apply subscriber entry.1 entry.2)) state.(rst_objects).

(** ** Reverse reads to come *)

Definition enqueue_reverse (parent : StateKey) (r : RelationId) (subject : SubjectRef)
    (info : CandidateInfo) : T () :=
  candidate_check_depth info.(ci_depth);;
  eng_modify (set_tv_pending (fun pending =>
    let key := mkPendingKey parent r in
    let subjects := default [] (bt_get key pending) in
    let info := match bt_get subject subjects with
                | None => info
                | Some existing => fst (merge_info existing info)
                end in
    bt_insert key (bt_insert subject info subjects) pending)).

Definition enqueue_direct_read (state : StateKey) (r : RelationId) (ambiguous : bool) (depth : N) : T () :=
  let subjects := state.(stk_subject) ::
    match state.(stk_subject) with
    | SubjObject object => [SubjWildcard object.(object_type)]
    | _ => []
    end in
  eng_each (fun subject => enqueue_reverse state r subject (mkCandidateInfo ambiguous depth)) subjects.

(** ** Expansion of one relation *)

(** The nodes still to visit, the next one first; a node of the source's stack
    is its identifier, whether it is ambiguous, and its depth. *)
Definition Visit : Type := NodeId * bool * N.

Definition visits (children : list NodeId) (ambiguous : bool) (depth : N) : list Visit :=
  (fun child => (child, ambiguous, depth)) <$> children.

(** [expand_node]: its effects and the nodes it pushes. *)
Definition candidate_expand_node (key : StateKey) (n : RewriteNode) (ambiguous : bool) (node_depth : N) :
    T (list Visit) :=
  match n with
  | NDirect owner =>
      enqueue_direct_read key owner ambiguous node_depth;;
      rel ← eng_lift (map_err (list_model_error "list_direct_relation_invalid") (relation m owner));
      eng_each (fun restriction =>
        match restriction.(dr_kind) with
        | RKUserset target =>
            subscribe (mkStateKey target key.(stk_subject))
              (mkSubscriber key (ReverseUserset owner target) ambiguous)
        | _ => mret ()
        end) rel.(cr_restrictions);;
      mret []
  | NComputed target =>
      subscribe (mkStateKey target key.(stk_subject)) (mkSubscriber key SameObject ambiguous);;
      mret []
  | NTupleToUserset tupleset _ targets =>
      eng_each (fun target =>
        subscribe (mkStateKey target key.(stk_subject))
          (mkSubscriber key (ReverseObject tupleset) ambiguous)) targets;;
      mret []
  | NUnion children =>
      depth ← eng_lift (list_next_depth node_depth); mret (visits children ambiguous depth)
  | NIntersection children =>
      depth ← eng_lift (list_next_depth node_depth); mret (visits children true depth)
  | NDifference base _ =>
      depth ← eng_lift (list_next_depth node_depth); mret (visits [base] true depth)
  end.

Fixpoint expand_walk (fuel : nat) (key : StateKey) (nodes : list Visit) (seen : BTreeSet (NodeId * nat)) :
    T () :=
  match nodes with
  | [] => mret ()
  | (node_id, ambiguous, node_depth) :: nodes =>
      match fuel with
      | 0 => eng_fuel
      | S fuel =>
          candidate_check_depth node_depth;;
          let mark := (node_id, if ambiguous then 1 else 0) in
          if bs_contains mark seen then expand_walk fuel key nodes seen
          else
            n ← eng_lift (map_err (list_model_error "list_rewrite_node_invalid") (node m node_id));
            pushed ← candidate_expand_node key n ambiguous node_depth;
            expand_walk fuel key (pushed ++ nodes) (bs_insert mark seen)
      end
  end.

(** A bound on the visits of one walk: a node is expanded at most twice, and
    every visit but the first is pushed by an expansion. *)
Definition expand_fuel : nat :=
  S (2 * sum_list_with (fun n => length (node_children n)) m.(model_nodes)).

Definition expand_state (key : StateKey) : T () :=
  state ← get_state_of key "list_relation_state_missing";
  if state.(rst_expanded) then mret ()
  else
    put_state key (mkRelationState true state.(rst_objects) state.(rst_subscribers));;
    rel ← eng_lift (map_err (list_model_error "list_relation_invalid") (relation m key.(stk_relation)));
    expand_walk expand_fuel key [(rel.(cr_root), false, 0%N)] [].

(** ** Publication *)

Definition apply_subscriber (subscriber : Subscriber) (object : ObjectRef) (info : CandidateInfo) : T () :=
  depth ← eng_lift (list_next_depth info.(ci_depth));
  let info := mkCandidateInfo (info.(ci_requires_check) || subscriber.(sub_ambiguous)) depth in
  candidate_check_depth depth;;
  match subscriber.(sub_transform) with
  | SameObject => push_event (Publish subscriber.(sub_parent) object info)
  | ReverseObject r => enqueue_reverse subscriber.(sub_parent) r (SubjObject object) info
  | ReverseUserset owner subject_relation =>
      rel ← eng_lift (map_err (list_model_error "list_userset_relation_invalid") (relation m subject_relation));
      userset ← eng_lift (map_err (fun _ => list_internal "list_userset_candidate_invalid")
                            (userset_ref_new object rel.(cr_name) limits));
      enqueue_reverse subscriber.(sub_parent) owner (SubjUserset userset) info
  end.

Definition publish (key : StateKey) (object : ObjectRef) (info : CandidateInfo) : T () :=
  candidate_check_depth info.(ci_depth);;
  state ← get_state_of key "list_publish_state_missing";
  let '(current, changed) := match bt_get object state.(rst_objects) with
                             | None => (info, true)
                             | Some existing => merge_info existing info
                             end in
  put_state key (mkRelationState state.(rst_expanded) (bt_insert object current state.(rst_objects))
                   state.(rst_subscribers));;
  match bt_get object state.(rst_objects) with None => count_candidate | Some _ => mret () end;;
  if negb changed then mret ()
  else eng_each (fun subscriber => push_event (Apply subscriber object current)) state.(rst_subscribers).

Definition process_event (e : Event) : T () :=
  match e with
  | Expand key => expand_state key
  | Publish key object info => publish key object info
  | Apply subscriber object info => apply_subscriber subscriber object info
  end.

(** ** Reverse reads *)

Variable maximum_per_read : N.

Definition is_conditional (t : RelationshipTuple) : bool :=
  match t.(rt_condition) with Conditional _ => true | Unconditional => false end.

(** One row of a reverse read. *)
Definition publish_row (parent : StateKey) (subject_info : BTreeMap SubjectRef CandidateInfo)
    (t : RelationshipTuple) : T () :=
  source ← eng_lift (ok_or (bt_get t.(rt_key).(tk_subject) subject_info)
                       (list_internal "list_reverse_subject_unexpected"));
  push_event (Publish parent t.(rt_key).(tk_object)
    (mkCandidateInfo (source.(ci_requires_check) || is_conditional t) source.(ci_depth))).

(** The read of one chunk of subjects. *)
Definition reverse_chunk (key : PendingKey) (chunk : list (SubjectRef * CandidateInfo)) : T () :=
  charge_query;;
  rel ← eng_lift (map_err (list_model_error "list_reverse_relation_invalid") (relation m key.(pk_relation)));
  object_type ← eng_lift (map_err (list_model_error "list_reverse_type_invalid")
                            (type_name m rel.(cr_object_type)));
  let subject_info := bt_collect chunk in
  filter ← eng_lift (map_err list_storage_error
                       (reverse_tuple_filter_new object_type rel.(cr_name) (bt_keys subject_info) []
                          CFAny limits));
  tk ← eng_tick;
  stream ← eng_lift (map_err list_storage_error
                       (lw_reverse w tk command.(loc_query).(qc_store_id) filter maximum_per_read));
  rows ← eng_lift (collect_stream stream);
  let contextual :=
    base.filter (fun t => t.(rt_key).(tk_object).(Reference.object_type) = filter.(rtf_object_type) ∧
                     t.(rt_key).(tk_relation) = filter.(rtf_relation) ∧
                     bt_contains_key t.(rt_key).(tk_subject) subject_info = true)
      command.(loc_query).(qc_contextual_tuples) in
  candidate_charge_items (length rows) (length contextual);;
  let rows := base.filter (fun t => is_ok (validate_relationship_tuple m t) = true) rows in
  eng_each (publish_row key.(pk_parent) subject_info) (rows ++ contextual).

Definition process_reverse_read (key : PendingKey) (subjects : BTreeMap SubjectRef CandidateInfo) : T () :=
  eng_each (reverse_chunk key) (chunks (N.to_nat (N.max limits.(user_filters) 1)) subjects).

(** ** The main loop *)

(** The inner loop: events until none is left. *)
Fixpoint drain_events (fuel : nat) : T () :=
  t ← eng_get;
  match t.(tv_events) with
  | [] => mret ()
  | e :: rest =>
      match fuel with
      | 0 => eng_fuel
      | S fuel =>
          eng_modify (set_tv_events (fun _ => rest));;
          process_event e;;
          eng_check w operation;;
          drain_events fuel
      end
  end.

Fixpoint traversal_loop (fuel : nat) : T () :=
  t ← eng_get;
  match t.(tv_events), t.(tv_pending) with
  | [], [] => mret ()
  | _, _ =>
      match fuel with
      | 0 => eng_fuel
      | S fuel =>
          eng_check w operation;;
          drain_events (N.to_nat budget.(cb_dispatches));;
          t ← eng_get;
          match t.(tv_pending) with
          | [] => mret ()
          | (key, subjects) :: rest =>
              eng_modify (set_tv_pending (fun _ => rest));;
              process_reverse_read key subjects
          end;;
          traversal_loop fuel
      end
  end.

(** One round of the outer loop for each query, and one that finds no read. *)
Definition traversal_fuel : nat := S (N.to_nat budget.(cb_datastore_queries)).

(** [Traversal::run] *)
Definition traversal_run (root : StateKey) : T CandidateSet :=
  traversal_loop traversal_fuel;;
  t ← eng_get;
  state ← eng_lift (ok_or (bt_get root t.(tv_states)) (list_internal "list_root_state_missing"));
  mret (mkCandidateSet
          ((fun '(object, info) => mkCandidate object info.(ci_requires_check)) <$> state.(rst_objects))
          t.(tv_counters)).

End traversal.

(** [ReverseCandidateTraversal::traverse] with [Traversal::new] *)
Definition traverse `{ConditionEngine} (command : ListObjectsCommand) (m : CompiledModel)
    (budget : CandidateBudget) (limits : InputLimits) (w : ListWorld) : result ListFault CandidateSet :=
  _ ← map_err LFail (validate_query_model command.(loc_query) m);
  _ ← map_err LFail (validate_contextual command.(loc_query) m);
  r ← map_err LFail (map_err (list_model_error "list_relation_not_found")
        (relation_id m command.(loc_object_type) command.(loc_relation)));
  maximum_per_read ← map_err (fun _ => LFail (list_internal "list_reverse_read_limit_invalid"))
                       (limit_new 100000 (N.min budget.(cb_tuple_items) 100000));
  let root := mkStateKey r command.(loc_subject) in
  (fun x => x.1.1) <$>
    (ensure_state budget root;;
     traversal_run command m budget limits w maximum_per_read root) traversal_default 0.
