(* ===== verification/CandidatesTheory.v ===== *)
(** * The reverse traversal finds exactly the reachable objects

    Reachability of an object from a subject, read off the rewrite rules: an
    over-approximation that ignores conditions and follows any operand of an
    intersection and the base of an exclusion, and a certain part that needs
    neither.  The traversal ends with the candidates of the first, and marks
    for a residual check those it did not find by the second. *)

From S2P Require Import Prelude Ordered Identifier Reference Condition Storage Model TupleValidation Budget.
From S2P Require Import Reducer Scheduler Evaluator ListCommon Candidates.

(** ** Generic lemmas *)

Lemma chunks_loop_concat {A} fuel size (l : list A) :
  0 < size → length l ≤ fuel → mjoin (chunks_loop fuel size l) = l.
Proof.
  intros Hsize. revert l. induction fuel as [|fuel IH]; intros [|x l] Hl; try done; [simpl in *; lia|].
  cbn [chunks_loop mjoin list_join]. change (mjoin ?x) with (mjoin x). rewrite IH.
  - apply take_drop.
  - rewrite length_drop. simpl in *. lia.
Qed.

Lemma chunks_concat {A} size (l : list A) : 0 < size → mjoin (chunks size l) = l.
Proof. intros. by apply chunks_loop_concat. Qed.

Lemma chunks_nonempty {A} size (l : list A) : l ≠ [] → chunks size l ≠ [].
Proof. by destruct l. Qed.

Section collect.
Context {K V : Type} `{OrdLaws K}.
Implicit Types (l : list (K * V)) (m : BTreeMap K V).

Lemma bt_collect_get l k v : bt_get k (bt_collect l) = Some v → (k, v) ∈ l.
Proof.
  unfold bt_collect. revert v. induction l as [|[k' v'] l IH] using rev_ind; intros v; [done|].
  rewrite foldl_app, elem_of_app, list_elem_of_singleton. cbn [foldl fst snd]. rewrite bt_get_insert.
  destruct (cmp k k') eqn:E; [|intros Hv; left; by apply IH..].
  apply cmp_eq_iff in E as ->. intros [= ->]. by right.
Qed.

Lemma bt_collect_is_Some l k : k ∈ l.*1 → is_Some (bt_get k (bt_collect l)).
Proof.
  unfold bt_collect. induction l as [|[k' v'] l IH] using rev_ind; [by intros ?%elem_of_nil|].
  rewrite foldl_app, fmap_app, elem_of_app. cbn [foldl fmap list_fmap fst snd]. rewrite bt_get_insert, list_elem_of_singleton.
  destruct (cmp k k') eqn:E; [done|..]; (intros [Hk| ->]; [by apply IH|by rewrite cmp_refl in E]).
Qed.

Lemma bt_get_keys m k : k ∈ bt_keys m ↔ is_Some (bt_get k m).
Proof.
  unfold bt_keys. induction m as [|[k' v'] m IH]; simpl.
  - rewrite elem_of_nil. split; [done|]. by intros [].
  - rewrite elem_of_cons, IH. destruct (cmp k k') eqn:E.
    + apply cmp_eq_iff in E as ->. split; [by eexists|by left].
    + split; [intros [->|]; [by rewrite cmp_refl in E|done]|by right].
    + split; [intros [->|]; [by rewrite cmp_refl in E|done]|by right].
Qed.

Lemma bt_collect_keys l k : k ∈ bt_keys (bt_collect l) ↔ k ∈ l.*1.
Proof.
  rewrite bt_get_keys. split; [|apply bt_collect_is_Some].
  intros [v Hv%bt_collect_get]. apply list_elem_of_fmap. by exists (k, v).
Qed.
End collect.

(** ** What can be reached *)

Inductive ReachPoint := RpRelation (r : RelationId) | RpNode (n : NodeId).

Section spec.
Context `{ConditionEngine}.
Variable m : CompiledModel.
Variable tuples : list RelationshipTuple.

(** A valid tuple on relation [r]. *)
Definition row (r : RelationId) (t : RelationshipTuple) : Prop :=
  ∃ rel, relation m r = Ok rel ∧ type_name m rel.(cr_object_type) = Ok t.(rt_key).(tk_object).(object_type) ∧
    t.(rt_key).(tk_relation) = rel.(cr_name) ∧ t ∈ tuples ∧ validate_relationship_tuple m t = Ok ().

(** Reachability from the subject [s]; [b] admits conditional tuples,
    intersections and exclusions. *)
Inductive reaches (b : bool) (s : SubjectRef) : ReachPoint → ObjectRef → Prop :=
| reaches_relation r rel o :
    relation m r = Ok rel → reaches b s (RpNode rel.(cr_root)) o → reaches b s (RpRelation r) o
| reaches_direct n r t :
    node m n = Ok (NDirect r) → row r t → (b = true ∨ is_conditional t = false) →
    t.(rt_key).(tk_subject) = s ∨ wildcard_matches t.(rt_key).(tk_subject) s = true →
    reaches b s (RpNode n) t.(rt_key).(tk_object)
| reaches_userset n r rel d target trel t u :
    node m n = Ok (NDirect r) → row r t → (b = true ∨ is_conditional t = false) →
    relation m r = Ok rel → d ∈ rel.(cr_restrictions) → d.(dr_kind) = RKUserset target →
    relation m target = Ok trel → t.(rt_key).(tk_subject) = SubjUserset u →
    u.(us_relation) = trel.(cr_name) → reaches b s (RpRelation target) u.(us_object) →
    reaches b s (RpNode n) t.(rt_key).(tk_object)
| reaches_computed n r o :
    node m n = Ok (NComputed r) → reaches b s (RpRelation r) o → reaches b s (RpNode n) o
| reaches_ttu n tupleset c targets target t o :
    node m n = Ok (NTupleToUserset tupleset c targets) → row tupleset t →
    (b = true ∨ is_conditional t = false) → target ∈ targets →
    t.(rt_key).(tk_subject) = SubjObject o → reaches b s (RpRelation target) o →
    reaches b s (RpNode n) t.(rt_key).(tk_object)
| reaches_union n cs c o :
    node m n = Ok (NUnion cs) → c ∈ cs → reaches b s (RpNode c) o → reaches b s (RpNode n) o
| reaches_intersection n cs c o :
    node m n = Ok (NIntersection cs) → b = true → c ∈ cs → reaches b s (RpNode c) o →
    reaches b s (RpNode n) o
| reaches_difference n base subtract o :
    node m n = Ok (NDifference base subtract) → b = true → reaches b s (RpNode base) o →
    reaches b s (RpNode n) o.

Lemma reaches_weaken b b' s p o : reaches b s p o → reaches (b || b') s p o.
Proof.
  induction 1; [eapply reaches_relation|eapply reaches_direct|eapply reaches_userset|eapply reaches_computed
    |eapply reaches_ttu|eapply reaches_union|eapply reaches_intersection|eapply reaches_difference];
    eauto; destruct_or?; subst; auto.
Qed.

(** Several grounds for a residual check are one. *)
Lemma reaches_or b b' s p o : (b = true → b' = true) → reaches b s p o → reaches b' s p o.
Proof.
  intros Hb Hr. apply (reaches_weaken _ b') in Hr.
  destruct b, b'; simpl in *; try done; by specialize (Hb eq_refl).
Qed.

End spec.

(** A snapshot of the store: every reverse read that succeeds returns exactly
    the matching tuples of the table, in some order. *)
Definition reverse_snapshot (w : ListWorld) (store : StoreId) (table : list RelationshipTuple) : Prop :=
  ∀ tk f maximum stream rows,
    lw_reverse w tk store f maximum = Ok stream → stream_items stream = Ok <$> rows →
    f.(rtf_object_ids) = [] → f.(rtf_conditions) = CFAny →
    ∀ t, t ∈ rows ↔ t ∈ table ∧ t.(rt_key).(tk_object).(object_type) = f.(rtf_object_type) ∧
      t.(rt_key).(tk_relation) = f.(rtf_relation) ∧ t.(rt_key).(tk_subject) ∈ f.(rtf_subjects).

(** ** The invariant *)

Section invariant.
Context `{ConditionEngine}.
Variable m : CompiledModel.
Variable tuples : list RelationshipTuple.
Variable s : SubjectRef.

Abbreviation row := (row m tuples).
Abbreviation reaches b p o := (reaches m tuples b s p o).

(** *** What a traversal has established *)

(** Events and reads taken from the queues and not yet processed. *)
Record InFlight := mkInFlight { if_events : list Event; if_reads : list (PendingKey * SubjectRef) }.

Section established.
Variable f : InFlight.
Variable t : Traversal.

Definition has_event (e : Event) : Prop := e ∈ f.(if_events) ∨ e ∈ t.(tv_events).

Definition has_read (k : PendingKey) (x : SubjectRef) : Prop :=
  (k, x) ∈ f.(if_reads) ∨
  ∃ subjects info, bt_get k t.(tv_pending) = Some subjects ∧ bt_get x subjects = Some info.

Definition published (key : StateKey) (o : ObjectRef) : Prop :=
  (∃ info, has_event (Publish key o info)) ∨
  ∃ st info, bt_get key t.(tv_states) = Some st ∧ bt_get o st.(rst_objects) = Some info.

(** The read of the tuples of [r] with subject [x] for [key] is to come, or its
    rows are published. *)
Definition covered (key : StateKey) (r : RelationId) (x : SubjectRef) : Prop :=
  has_read (mkPendingKey key r) x ∨
  ∀ u, row r u → u.(rt_key).(tk_subject) = x → published key u.(rt_key).(tk_object).

Definition subscribed (child : StateKey) (sub : Subscriber) : Prop :=
  ∃ st, bt_get child t.(tv_states) = Some st ∧ sub ∈ st.(rst_subscribers).

Definition applied (sub : Subscriber) (o : ObjectRef) : Prop :=
  match sub.(sub_transform) with
  | SameObject => published sub.(sub_parent) o
  | ReverseObject r => covered sub.(sub_parent) r (SubjObject o)
  | ReverseUserset owner target =>
      ∀ rel, relation m target = Ok rel →
        covered sub.(sub_parent) owner (SubjUserset (mkUsersetRef o rel.(cr_name)))
  end.

(** The subjects whose tuples a direct relation reads. *)
Definition direct_subjects : list SubjectRef :=
  s :: match s with SubjObject o => [SubjWildcard o.(object_type)] | _ => [] end.

(** A visited node has started its reads and subscriptions. *)
Definition node_done (key : StateKey) (nd : RewriteNode) (a : bool) : Prop :=
  match nd with
  | NDirect owner =>
      (∀ x, x ∈ direct_subjects → covered key owner x) ∧
      ∀ rel d target, relation m owner = Ok rel → d ∈ rel.(cr_restrictions) → d.(dr_kind) = RKUserset target →
        subscribed (mkStateKey target s) (mkSubscriber key (ReverseUserset owner target) a)
  | NComputed target => subscribed (mkStateKey target s) (mkSubscriber key SameObject a)
  | NTupleToUserset tupleset _ targets =>
      ∀ target, target ∈ targets →
        subscribed (mkStateKey target s) (mkSubscriber key (ReverseObject tupleset) a)
  | _ => True
  end.

End established.

(** The nodes a visit of a node pushes. *)
Definition next_visits (nd : RewriteNode) (a : bool) : list (NodeId * bool) :=
  match nd with
  | NUnion cs => (fun c => (c, a)) <$> cs
  | NIntersection cs => (fun c => (c, true)) <$> cs
  | NDifference base _ => [(base, true)]
  | _ => []
  end.

Definition mark (v : NodeId * bool) : NodeId * nat := (v.1, if v.2 then 1 else 0).

(** The marks of a walk: visited nodes are done, and what they push is
    visited or still on the stack. *)
Definition walk_ok f t key (seen : list (NodeId * nat)) (stack : list (NodeId * bool)) : Prop :=
  ∀ v, mark v ∈ seen → ∃ nd, node m v.1 = Ok nd ∧ node_done f t key nd v.2 ∧
    ∀ v', v' ∈ next_visits nd v.2 → mark v' ∈ seen ∨ v' ∈ stack.

Definition walked f t key : Prop :=
  ∃ rel seen, relation m key.(stk_relation) = Ok rel ∧ mark (rel.(cr_root), false) ∈ seen ∧
    walk_ok f t key seen [].

(** *** What events, reads and subscriptions promise *)

Definition link (r : RelationId) (sub : Subscriber) : Prop :=
  sub.(sub_parent).(stk_subject) = s ∧
  match sub.(sub_transform) with
  | SameObject => ∀ b o, reaches b (RpRelation r) o →
      reaches (b || sub.(sub_ambiguous)) (RpRelation sub.(sub_parent).(stk_relation)) o
  | ReverseObject ts => ∀ b o u, reaches b (RpRelation r) o → row ts u →
      u.(rt_key).(tk_subject) = SubjObject o →
      reaches (b || sub.(sub_ambiguous) || is_conditional u)
        (RpRelation sub.(sub_parent).(stk_relation)) u.(rt_key).(tk_object)
  | ReverseUserset owner target => target = r ∧ ∀ b o u rel, reaches b (RpRelation r) o →
      relation m r = Ok rel → row owner u →
      u.(rt_key).(tk_subject) = SubjUserset (mkUsersetRef o rel.(cr_name)) →
      reaches (b || sub.(sub_ambiguous) || is_conditional u)
        (RpRelation sub.(sub_parent).(stk_relation)) u.(rt_key).(tk_object)
  end.

Definition event_sound (e : Event) : Prop :=
  match e with
  | Expand key => key.(stk_subject) = s
  | Publish key o info =>
      key.(stk_subject) = s ∧ reaches info.(ci_requires_check) (RpRelation key.(stk_relation)) o
  | Apply sub o info =>
      ∃ r, link r sub ∧ reaches info.(ci_requires_check) (RpRelation r) o
  end.

Definition read_sound (k : PendingKey) (x : SubjectRef) (info : CandidateInfo) : Prop :=
  k.(pk_parent).(stk_subject) = s ∧ ∀ u, row k.(pk_relation) u → u.(rt_key).(tk_subject) = x →
    reaches (info.(ci_requires_check) || is_conditional u)
      (RpRelation k.(pk_parent).(stk_relation)) u.(rt_key).(tk_object).

Record sound (t : Traversal) : Prop := {
  sound_events : ∀ e, e ∈ t.(tv_events) → event_sound e;
  sound_reads : ∀ k subjects x info, (k, subjects) ∈ t.(tv_pending) → (x, info) ∈ subjects →
    read_sound k x info;
  sound_states : ∀ key st, bt_get key t.(tv_states) = Some st → key.(stk_subject) = s;
  sound_objects : ∀ key st o info, bt_get key t.(tv_states) = Some st →
    (o, info) ∈ st.(rst_objects) →
    reaches info.(ci_requires_check) (RpRelation key.(stk_relation)) o;
  sound_subscribers : ∀ key st sub, bt_get key t.(tv_states) = Some st →
    sub ∈ st.(rst_subscribers) → link key.(stk_relation) sub;
}.

(** [current] is the relation whose expansion is in progress. *)
Record traversing (f : InFlight) (current : option StateKey) (t : Traversal) : Prop := {
  tr_sound : sound t;
  tr_expanded : ∀ key st, bt_get key t.(tv_states) = Some st →
    if st.(rst_expanded) then current = Some key ∨ walked f t key else has_event f t (Expand key);
  tr_applied : ∀ key st sub o info, bt_get key t.(tv_states) = Some st → sub ∈ st.(rst_subscribers) →
    bt_get o st.(rst_objects) = Some info →
    (∃ info', has_event f t (Apply sub o info')) ∨ applied f t sub o;
}.

(** ** Progress keeps what is established *)

Record implies (f : InFlight) (t : Traversal) (f' : InFlight) (t' : Traversal) : Prop := {
  im_published : ∀ key o, published f t key o → published f' t' key o;
  im_reads : ∀ k x, has_read f t k x → covered f' t' k.(pk_parent) k.(pk_relation) x;
  im_subscribed : ∀ child sub, subscribed t child sub → subscribed t' child sub;
}.

Section implies.
Context {f t f' t'} (Him : implies f t f' t').

Lemma implies_covered key r x : covered f t key r x → covered f' t' key r x.
Proof.
  intros [Hr|Hp]; [exact (im_reads _ _ _ _ Him _ _ Hr)|].
  right. intros u Hu Hx. by apply (im_published _ _ _ _ Him), Hp.
Qed.

Lemma implies_applied sub o : applied f t sub o → applied f' t' sub o.
Proof.
  unfold applied. destruct (sub_transform sub); [apply (im_published _ _ _ _ Him)|apply implies_covered|].
  intros Hc rel Hrel. by apply implies_covered, Hc.
Qed.

Lemma implies_node_done key nd a : node_done f t key nd a → node_done f' t' key nd a.
Proof.
  pose proof (im_subscribed _ _ _ _ Him) as Hs. destruct nd; simpl; [|auto..].
  intros [Hc Hd]. split; [intros x Hx; by apply implies_covered, Hc|]. intros; by eapply Hs, Hd.
Qed.

Lemma implies_walk_ok key seen stack : walk_ok f t key seen stack → walk_ok f' t' key seen stack.
Proof.
  intros Hw v Hv. destruct (Hw v Hv) as (nd & Hnd & Hdone & Hnext). exists nd.
  split_and!; [done|by apply implies_node_done|done].
Qed.

Lemma implies_walked key : walked f t key → walked f' t' key.
Proof. intros (rel & seen & ? & ? & ?). exists rel, seen. split_and!; [done..|]. by apply implies_walk_ok. Qed.

End implies.

(** What the queues and states of a later moment keep of an earlier one. *)
Record grows (t t' : Traversal) : Prop := {
  gr_events : ∀ e, e ∈ t.(tv_events) → e ∈ t'.(tv_events);
  gr_reads : ∀ k subjects x info, bt_get k t.(tv_pending) = Some subjects → bt_get x subjects = Some info →
    ∃ subjects' info', bt_get k t'.(tv_pending) = Some subjects' ∧ bt_get x subjects' = Some info';
  gr_states : ∀ key st, bt_get key t.(tv_states) = Some st →
    ∃ st', bt_get key t'.(tv_states) = Some st' ∧
      (st.(rst_expanded) = true → st'.(rst_expanded) = true) ∧
      (∀ o info, bt_get o st.(rst_objects) = Some info → ∃ info', bt_get o st'.(rst_objects) = Some info') ∧
      (∀ sub, sub ∈ st.(rst_subscribers) → sub ∈ st'.(rst_subscribers));
}.

#[local] Instance grows_preorder : PreOrder grows.
Proof.
  split.
  - intros t. split; [done|eauto|]. intros key st Hst. exists st. eauto.
  - intros t1 t2 t3 [He Hr Hs] [He' Hr' Hs']. split; [auto| |].
    + intros k subjects x info Hk Hx. destruct (Hr _ _ _ _ Hk Hx) as (? & ? & ? & ?). eauto.
    + intros key st Hst. destruct (Hs _ _ Hst) as (st2 & Hst2 & Hx2 & Ho2 & Hb2).
      destruct (Hs' _ _ Hst2) as (st3 & Hst3 & Hx3 & Ho3 & Hb3). exists st3. split_and!; [done|auto| |auto].
      intros o info Ho. destruct (Ho2 _ _ Ho) as [info2 Hi2]. eauto.
Qed.

Lemma has_event_grows f t t' e : grows t t' → has_event f t e → has_event f t' e.
Proof. intros Hg [He|He]; [by left|right; by apply (gr_events _ _ Hg)]. Qed.

Lemma grows_implies f t t' : grows t t' → implies f t f t'.
Proof.
  intros Hg. split.
  - intros key o [[info He]|(st & info & Hst & Ho)].
    + left. exists info. by eapply has_event_grows.
    + right. destruct (gr_states _ _ Hg _ _ Hst) as (st' & Hst' & _ & Hobj & _).
      destruct (Hobj _ _ Ho) as [info' ?]. eauto.
  - intros [parent r] x [Hr|(subjects & info & Hk & Hx)]; left; [by left|right].
    exact (gr_reads _ _ Hg _ _ _ _ Hk Hx).
  - intros child sub (st & Hst & Hsub). destruct (gr_states _ _ Hg _ _ Hst) as (st' & Hst' & _ & _ & Hs).
    exists st'. auto.
Qed.

(** In-flight work lands: what it promised is established without it. *)
Lemma traversing_land f f' current t :
  traversing f' current t → implies f' t f t →
  (∀ key st, bt_get key t.(tv_states) = Some st → st.(rst_expanded) = false →
    has_event f' t (Expand key) → has_event f t (Expand key)) →
  (∀ key st sub o info info', bt_get key t.(tv_states) = Some st → sub ∈ st.(rst_subscribers) →
    bt_get o st.(rst_objects) = Some info → has_event f' t (Apply sub o info') →
    (∃ info'', has_event f t (Apply sub o info'')) ∨ applied f t sub o) →
  traversing f current t.
Proof.
  intros [Hs He Ha] Him Hexp Happ. split; [done| |].
  - intros key st Hst. specialize (He _ _ Hst). destruct (rst_expanded st) eqn:Ex.
    + destruct He as [|Hw]; [by left|right]. by eapply implies_walked.
    + by eapply Hexp.
  - intros key st sub o info Hst Hsub Ho. destruct (Ha _ _ _ _ _ Hst Hsub Ho) as [[info' Hi]|Hi].
    + by eapply Happ.
    + right. by eapply implies_applied.
Qed.

(** ** Steps on the state *)

Lemma traversing_counters f current t g :
  traversing f current t → traversing f current (set_tv_counters g t).
Proof. intros [[] ? ?]. by split; [split|..]. Qed.

Lemma grows_counters t g : grows t (set_tv_counters g t).
Proof. split; [done|eauto|]. intros key st Hst. exists st. eauto. Qed.

(** States that did not change keep their invariant when the rest grows. *)
Lemma traversing_grow f current t t' :
  traversing f current t → grows t t' → sound t' →
  (∀ key, bt_get key t'.(tv_states) = bt_get key t.(tv_states)) → traversing f current t'.
Proof.
  intros [_ He Ha] Hg Hs Heq. pose proof (grows_implies f _ _ Hg) as Him. split; [done| |].
  - intros key st. rewrite Heq. intros Hst. specialize (He _ _ Hst). case_match.
    + destruct He as [|]; [by left|right]. by eapply implies_walked.
    + by eapply has_event_grows.
  - intros key st sub o info. rewrite Heq. intros Hst Hsub Ho.
    destruct (Ha _ _ _ _ _ Hst Hsub Ho) as [[info' Hi]|Hi].
    + left. exists info'. by eapply has_event_grows.
    + right. by eapply implies_applied.
Qed.

Lemma traversing_push f current t e :
  traversing f current t → event_sound e →
  traversing f current (set_tv_events (fun l => l ++ [e]) t) ∧ grows t (set_tv_events (fun l => l ++ [e]) t).
Proof.
  intros Ht He. assert (Hg : grows t (set_tv_events (fun l => l ++ [e]) t)).
  { split; simpl; [set_solver|eauto|]. intros key st Hst. exists st. eauto. }
  split; [|done]. eapply traversing_grow; [done..| |done].
  destruct (tr_sound _ _ _ Ht) as [Hs ? ? ? ?]. split; [|done..]. simpl.
  intros e' [?| ->%list_elem_of_singleton]%elem_of_app; auto.
Qed.

Definition enqueue (key : PendingKey) (x : SubjectRef) (info : CandidateInfo)
    (pending : BTreeMap PendingKey (BTreeMap SubjectRef CandidateInfo)) :=
  let subjects := default [] (bt_get key pending) in
  bt_insert key (bt_insert x (match bt_get x subjects with
                              | None => info
                              | Some existing => fst (merge_info existing info)
                              end) subjects) pending.

Lemma read_sound_merge k x info info' :
  read_sound k x info → read_sound k x info' → read_sound k x (fst (merge_info info info')).
Proof.
  intros [Hp Hr] [_ _]. split; [done|]. intros u Hu Hx. eapply reaches_or; [|by apply Hr]. simpl.
  rewrite !orb_true_iff. tauto.
Qed.

Lemma traversing_enqueue f current t k x info :
  traversing f current t → read_sound k x info →
  let t' := set_tv_pending (enqueue k x info) t in
  traversing f current t' ∧ grows t t' ∧ has_read f t' k x.
Proof.
  intros Ht Hr t'. destruct (tr_sound _ _ _ Ht) as [? Hreads ? ? ?].
  set (subjects := default [] (bt_get k t.(tv_pending))) in *.
  assert (Hg : grows t t').
  { split; simpl; [done| |intros key st Hst; exists st; eauto].
    intros k' subjects' y info' Hk' Hy. unfold enqueue. fold subjects. rewrite bt_get_insert.
    destruct (cmp k' k) eqn:E; [|eauto..]. apply cmp_eq_iff in E as ->.
    assert (Hs : subjects = subjects') by (unfold subjects; by rewrite Hk').
    set (merged := match bt_get x subjects with Some _ => _ | None => _ end).
    assert (∃ info'', bt_get y (bt_insert x merged subjects) = Some info'') as [? ?]; [|eauto].
    rewrite bt_get_insert, Hs. destruct (cmp y x); eauto. }
  split_and!; [|done|].
  - eapply traversing_grow; [done..| |done]. split; [done| |done..]. simpl. unfold enqueue. fold subjects.
    intros k' subjects' y info' [[= -> ->]|Hk']%bt_insert_elem Hy; [|by eapply Hreads].
    assert (Hold : ∀ y info, (y, info) ∈ subjects → read_sound k y info).
    { unfold subjects. intros z i. destruct (bt_get k _) eqn:E'; simpl; [|by intros []%elem_of_nil].
      apply bt_get_elem in E'. by eapply Hreads. }
    apply bt_insert_elem in Hy as [[= -> ->]|Hy]; [|by eapply Hold].
    destruct (bt_get x subjects) eqn:Eg; [|done]. apply read_sound_merge; [by apply Hold, bt_get_elem|done].
  - right. simpl. unfold enqueue. fold subjects. eexists _, _.
    rewrite bt_get_insert_eq. split; [done|]. by rewrite bt_get_insert_eq.
Qed.

(** One state is replaced by a larger one. *)
Lemma grows_put t key st st' :
  bt_get key t.(tv_states) = Some st →
  (st.(rst_expanded) = true → st'.(rst_expanded) = true) →
  (∀ o info, bt_get o st.(rst_objects) = Some info → ∃ info', bt_get o st'.(rst_objects) = Some info') →
  (∀ sub, sub ∈ st.(rst_subscribers) → sub ∈ st'.(rst_subscribers)) →
  grows t (set_tv_states (bt_insert key st') t).
Proof.
  intros Hst Hx Ho Hs. split; simpl; [done|eauto|]. intros key' st0 Hst0. rewrite bt_get_insert.
  destruct (cmp key' key) eqn:E; [|exists st0; eauto..]. apply cmp_eq_iff in E as ->. simplify_eq. eauto.
Qed.

Lemma grows_new t key st : bt_get key t.(tv_states) = None → grows t (set_tv_states (bt_insert key st) t).
Proof.
  intros Hn. split; simpl; [done|eauto|]. intros key' st0 Hst0. rewrite bt_get_insert.
  destruct (cmp key' key) eqn:E; [|exists st0; eauto..]. apply cmp_eq_iff in E as ->. congruence.
Qed.

Definition add_events (es : list Event) (f : InFlight) : InFlight :=
  mkInFlight (es ++ f.(if_events)) f.(if_reads).

Lemma has_event_add es f t e : has_event (add_events es f) t e ↔ e ∈ es ∨ has_event f t e.
Proof. unfold has_event. simpl. rewrite elem_of_app. tauto. Qed.

(** Work in flight that is also queued, or other work in flight, may be
    forgotten or added. *)
Lemma traversing_flight f f' current t :
  traversing f current t → (∀ e, has_event f t e → has_event f' t e) →
  (∀ k x, has_read f t k x → has_read f' t k x) → traversing f' current t.
Proof.
  intros Ht He Hr. assert (Him : implies f t f' t).
  { split; [|by intros [] x ?; left; apply Hr|done]. intros key o [[info Hi]|Ho]; [left|by right]. eauto. }
  eapply traversing_land; [done..|auto|]. intros key st sub o info info' _ _ _ Ha. left. eauto.
Qed.

Lemma traversing_add es f current t : traversing f current t → traversing (add_events es f) current t.
Proof. intros Ht. eapply traversing_flight; [done| |done]. intros e ?. apply has_event_add. by right. Qed.

Lemma traversing_queued es f current t :
  traversing (add_events es f) current t → (∀ e, e ∈ es → e ∈ t.(tv_events)) → traversing f current t.
Proof.
  intros Ht Hes. eapply traversing_flight; [done| |done].
  intros e [?|?]%has_event_add; [right; by apply Hes|done].
Qed.

(** A state is added or replaced. *)
Lemma traversing_put f current t key st' :
  traversing f current t → grows t (set_tv_states (bt_insert key st') t) →
  key.(stk_subject) = s →
  (∀ o info, (o, info) ∈ st'.(rst_objects) →
    reaches info.(ci_requires_check) (RpRelation key.(stk_relation)) o) →
  (∀ sub, sub ∈ st'.(rst_subscribers) → link key.(stk_relation) sub) →
  (if st'.(rst_expanded) then current = Some key ∨ walked f (set_tv_states (bt_insert key st') t) key
   else has_event f t (Expand key)) →
  (∀ sub o info, sub ∈ st'.(rst_subscribers) → bt_get o st'.(rst_objects) = Some info →
    (∃ info', has_event f t (Apply sub o info')) ∨ applied f t sub o) →
  traversing f current (set_tv_states (bt_insert key st') t).
Proof.
  intros [[Hse Hsr Hss Hso Hsb] He Ha] Hg Hkey Hobj Hsub Hexp Happ.
  pose proof (grows_implies f _ _ Hg) as Him. split; [split; simpl; [done..| | |]| |]; simpl;
    intros key0 st0; rewrite bt_get_insert.
  - destruct (cmp key0 key) eqn:E; [|by apply Hss..]. by apply cmp_eq_iff in E as ->.
  - intros o info. destruct (cmp key0 key) eqn:E; [|by apply Hso..].
    apply cmp_eq_iff in E as ->. intros [= <-]. by apply Hobj.
  - intros sub. destruct (cmp key0 key) eqn:E; [|by apply Hsb..].
    apply cmp_eq_iff in E as ->. intros [= <-]. by apply Hsub.
  - intros Hst. destruct (cmp key0 key) eqn:E.
    + apply cmp_eq_iff in E as ->. injection Hst as <-. destruct (rst_expanded st'); [done|].
      by eapply has_event_grows.
    + specialize (He _ _ Hst). destruct (rst_expanded st0); [|by eapply has_event_grows].
      destruct He as [|]; [by left|right]. by eapply implies_walked.
    + specialize (He _ _ Hst). destruct (rst_expanded st0); [|by eapply has_event_grows].
      destruct He as [|]; [by left|right]. by eapply implies_walked.
  - intros sub o info Hst Hs Ho.
    assert (Hold : (∃ info', has_event f t (Apply sub o info')) ∨ applied f t sub o).
    { destruct (cmp key0 key) eqn:E; [injection Hst as <-; by eapply Happ|by eapply Ha..]. }
    destruct Hold as [[info' Hi]|Hi]; [left; exists info'; by eapply has_event_grows|right].
    by eapply implies_applied.
Qed.

(** ** A traversal that has come to rest is complete *)

Definition idle : InFlight := mkInFlight [] [].

Section rest.
Variable t : Traversal.
Hypothesis Ht : traversing idle None t.
Hypothesis Hevents : t.(tv_events) = [].
Hypothesis Hpending : t.(tv_pending) = [].

Lemma rest_no_event e : ¬ has_event idle t e.
Proof. unfold has_event. rewrite Hevents. simpl. set_solver. Qed.

Lemma rest_published key o :
  published idle t key o → ∃ st info, bt_get key t.(tv_states) = Some st ∧ bt_get o st.(rst_objects) = Some info.
Proof. intros [[info []%rest_no_event]|Ho]; done. Qed.

Lemma rest_covered key r x u :
  covered idle t key r x → row r u → u.(rt_key).(tk_subject) = x → published idle t key u.(rt_key).(tk_object).
Proof.
  intros [[Hr%elem_of_nil|(subjects & info & Hk & _)]|Hp]; [done| |by apply Hp]. by rewrite Hpending in Hk.
Qed.

Lemma rest_walked r st : bt_get (mkStateKey r s) t.(tv_states) = Some st → walked idle t (mkStateKey r s).
Proof.
  intros Hst. pose proof (tr_expanded _ _ _ Ht _ _ Hst) as He. destruct (rst_expanded st).
  - by destruct He as [[=]|].
  - by apply rest_no_event in He.
Qed.

Lemma rest_applied child sub o :
  subscribed t child sub →
  (∀ st, bt_get child t.(tv_states) = Some st → ∃ info, bt_get o st.(rst_objects) = Some info) →
  applied idle t sub o.
Proof.
  intros (st & Hst & Hsub) Ho. destruct (Ho _ Hst) as [info Hi].
  destruct (tr_applied _ _ _ Ht _ _ _ _ _ Hst Hsub Hi) as [[info' []%rest_no_event]|]; done.
Qed.

Lemma rest_complete p o :
  reaches true p o →
  match p with
  | RpRelation r => ∀ st, bt_get (mkStateKey r s) t.(tv_states) = Some st →
      ∃ info, bt_get o st.(rst_objects) = Some info
  | RpNode n => ∀ key seen a, walk_ok idle t key seen [] → mark (n, a) ∈ seen → published idle t key o
  end.
Proof.
  induction 1 as [r rel o Hrel _ IH|n r u Hn Hu _ Hs|n r rel d target trel u us Hn Hu _ Hrel Hd Hk Htrel Hs Hname _ IH
    |n r o Hn _ IH|n ts c targets target u o Hn Hu _ Htarget Hs _ IH|n cs c o Hn Hc _ IH|n cs c o Hn _ Hc _ IH
    |n base subtract o Hn _ _ IH].
  { intros st Hst. destruct (rest_walked _ _ Hst) as (rel' & seen & Hrel' & Hroot & Hw). simpl in Hrel'.
    rewrite Hrel in Hrel'. injection Hrel' as <-. destruct (rest_published _ _ (IH _ _ _ Hw Hroot)) as (st' & info & Hst' & Hi).
    rewrite Hst in Hst'. simplify_eq. eauto. }
  all: intros key seen a Hw Hv; destruct (Hw _ Hv) as (nd & Hnd & Hdone & Hnext); simpl in *;
    rewrite Hn in Hnd; injection Hnd as <-; simpl in *.
  - destruct Hdone as [Hc _]. eapply rest_covered; [apply Hc|done|done]. unfold direct_subjects.
    destruct Hs as [->|Hs]; [by left|right]. unfold wildcard_matches in Hs.
    destruct (tk_subject _), s; try done. apply bool_decide_eq_true in Hs as ->. by left.
  - destruct Hdone as [_ Hsub]. specialize (Hsub rel d target Hrel Hd Hk).
    pose proof (rest_applied _ _ _ Hsub IH trel Htrel) as Hc. simpl in Hc.
    eapply rest_covered; [exact Hc|done|]. rewrite Hs, <-Hname. by destruct us.
  - exact (rest_applied _ _ _ Hdone IH).
  - pose proof (rest_applied _ _ _ (Hdone _ Htarget) IH) as Hc. exact (rest_covered _ _ _ _ Hc Hu Hs).
  - eapply IH; [done|]. destruct (Hnext (c, a)) as [|[]%elem_of_nil]; [|done]. apply list_elem_of_fmap. eauto.
  - eapply IH; [done|]. destruct (Hnext (c, true)) as [|[]%elem_of_nil]; [|done]. apply list_elem_of_fmap. eauto.
  - eapply IH; [done|]. destruct (Hnext (base, true)) as [|[]%elem_of_nil]; [|done]. by left.
Qed.

End rest.

(** ** Operations *)

Section operations.
Variable command : ListObjectsCommand.
Variable budget : CandidateBudget.
Variable limits : InputLimits.
Variable w : ListWorld.

Abbreviation wp := (wp False).

Lemma wp_depth f current t n depth (Q : () → Traversal → Prop) :
  traversing f current t →
  (∀ t', traversing f current t' → grows t t' → Q () t') → wp (candidate_check_depth budget depth) Q t n.
Proof.
  intros Ht HQ. unfold candidate_check_depth. wp_steps. case_match; wp_steps.
  apply HQ; [by apply traversing_counters|apply grows_counters].
Qed.

Lemma wp_push f current t n e (Q : () → Traversal → Prop) :
  traversing f current t → event_sound e →
  (∀ t', traversing f current t' → grows t t' → e ∈ t'.(tv_events) → t'.(tv_states) = t.(tv_states) → Q () t') →
  wp (push_event budget e) Q t n.
Proof.
  intros Ht He HQ. unfold push_event. wp_steps. case_match; wp_steps.
  set (t1 := set_tv_counters _ t). assert (Ht1 : traversing f current t1) by by apply traversing_counters.
  destruct (traversing_push _ _ _ _ Ht1 He) as [Ht2 Hg2]. apply HQ; [done| | |done].
  - etrans; [apply grows_counters|done].
  - simpl. set_solver.
Qed.

(** A loop that queues events. *)
Lemma wp_push_each {A} (g : A → Event) f current t n l (Q : () → Traversal → Prop) :
  traversing f current t → (∀ x, x ∈ l → event_sound (g x)) →
  (∀ t', traversing f current t' → grows t t' → (∀ x, x ∈ l → g x ∈ t'.(tv_events)) →
    t'.(tv_states) = t.(tv_states) → Q () t') →
  wp (eng_each (fun x => push_event budget (g x)) l) Q t n.
Proof.
  intros Ht Hl HQ. eapply wp_mono; [|intros [] t' HI; exact HI].
  eapply wp_mono; [apply (wp_each False _ (fun done t' => traversing f current t' ∧ grows t t' ∧
    (∀ x, x ∈ done → g x ∈ t'.(tv_events)) ∧ t'.(tv_states) = t.(tv_states)))|].
  - split_and!; [done..| |done]. by intros x []%elem_of_nil.
  - intros l1 x l2 t1 n1 -> (Ht1 & Hg1 & Hd1 & Heq). eapply wp_push; [done|apply Hl; set_solver|].
    intros t2 Ht2 Hg2 Hx Heq2. split_and!; [done|by etrans| |congruence].
    intros y [Hy| ->%list_elem_of_singleton]%elem_of_app; [|done]. by apply (gr_events _ _ Hg2), Hd1.
  - intros [] t' (? & ? & ? & ?). by apply HQ.
Qed.

Lemma wp_get_state f current t n key code (Q : RelationState → Traversal → Prop) :
  traversing f current t → (∀ st, bt_get key t.(tv_states) = Some st → Q st t) →
  wp (get_state_of key code) Q t n.
Proof. intros Ht HQ. unfold get_state_of. wp_steps. by eapply HQ, ok_or_ok. Qed.

Lemma wp_ensure f current t n key (Q : () → Traversal → Prop) :
  traversing f current t → key.(stk_subject) = s →
  (∀ t', traversing f current t' → grows t t' → Q () t') → wp (ensure_state budget key) Q t n.
Proof.
  intros Ht Hkey HQ. unfold ensure_state. wp_steps. unfold bt_contains_key.
  destruct (bt_get key (tv_states t)) as [st|] eqn:Est; wp_steps.
  { by apply HQ. }
  set (t1 := set_tv_states _ t). assert (Hg1 : grows t t1) by by apply grows_new.
  assert (Ht1 : traversing (add_events [Expand key] f) current t1).
  { apply traversing_put; [by apply traversing_add|done|done|by intros o info []%elem_of_nil|by intros sub []%elem_of_nil| |].
    - simpl. apply has_event_add. left. by left.
    - by intros sub o info []%elem_of_nil. }
  eapply wp_push; [done|done|]. intros t2 Ht2 Hg2 He _. apply HQ; [|by etrans].
  eapply traversing_queued; [done|]. by intros e ->%list_elem_of_singleton.
Qed.

Lemma wp_subscribe f current t n child sub (Q : () → Traversal → Prop) :
  traversing f current t → child.(stk_subject) = s → link child.(stk_relation) sub →
  (∀ t', traversing f current t' → grows t t' → subscribed t' child sub → Q () t') →
  wp (subscribe budget child sub) Q t n.
Proof.
  intros Ht Hchild Hlink HQ. unfold subscribe. apply wp_bind. eapply wp_ensure; [done..|].
  intros t1 Ht1 Hg1 n1. apply wp_bind. eapply wp_get_state; [done|]. intros st Hst n2.
  destruct (bs_contains sub _) eqn:Ec; wp_steps.
  { apply HQ; [done..|]. exists st. split; [done|]. by apply bs_contains_elem. }
  set (st' := mkRelationState _ _ _). unfold put_state. wp_steps. set (t2 := set_tv_states _ t1).
  set (g := fun x : ObjectRef * CandidateInfo => Apply sub x.1 x.2). set (es := g <$> rst_objects st).
  assert (Hg2 : grows t1 t2).
  { eapply grows_put; [done|done|eauto|]. intros sub' ?. apply bs_insert_elem. by right. }
  assert (Ht2 : traversing (add_events es f) current t2).
  { apply traversing_put; [by apply traversing_add|done|done| | | |].
    - intros o info. apply (sound_objects _ (tr_sound _ _ _ Ht1) _ _ _ _ Hst).
    - intros sub' [->|Hs]%bs_insert_elem; [done|]. by eapply (sound_subscribers _ (tr_sound _ _ _ Ht1)).
    - pose proof (tr_expanded _ _ _ (traversing_add es _ _ _ Ht1) _ _ Hst) as He. simpl. destruct (rst_expanded st); [|done].
      destruct He as [|Hw]; [by left|right]. eapply implies_walked; [by apply grows_implies|done].
    - intros sub' o info [->|Hs]%bs_insert_elem Ho.
      + left. exists info. apply has_event_add. left. apply list_elem_of_fmap. exists (o, info).
        split; [done|]. by apply bt_get_elem.
      + exact (tr_applied _ _ _ (traversing_add es _ _ _ Ht1) _ _ _ _ _ Hst Hs Ho). }
  eapply (wp_push_each g); [exact Ht2| |].
  { intros [o info] Hx. exists child.(stk_relation). split; [done|].
    by eapply (sound_objects _ (tr_sound _ _ _ Ht1)). }
  intros t3 Ht3 Hg3 Hes Heq. apply HQ; [|etrans; [done|]; by etrans|].
  - eapply traversing_queued; [done|]. intros e (x & -> & Hx)%list_elem_of_fmap. by apply Hes.
  - exists st'. rewrite Heq. simpl. rewrite bt_get_insert_eq. split; [done|]. apply bs_insert_elem. by left.
Qed.

Lemma wp_enqueue f current t n parent r x info (Q : () → Traversal → Prop) :
  traversing f current t → read_sound (mkPendingKey parent r) x info →
  (∀ t', traversing f current t' → grows t t' → covered f t' parent r x → Q () t') →
  wp (enqueue_reverse budget parent r x info) Q t n.
Proof.
  intros Ht Hr HQ. unfold enqueue_reverse. apply wp_bind. eapply wp_depth; [done|]. intros t1 Ht1 Hg1 n1.
  wp_steps. destruct (traversing_enqueue _ _ _ _ _ _ Ht1 Hr) as (Ht2 & Hg2 & Hc).
  apply HQ; [exact Ht2|by etrans|by left].
Qed.

(** *** Visits of a walk *)

(** What a visited node reaches, the relation reaches. *)
Definition visit_sound (key : StateKey) (v : NodeId * bool) : Prop :=
  ∀ b o, reaches b (RpNode v.1) o → reaches (b || v.2) (RpRelation key.(stk_relation)) o.

Lemma visit_sound_next key n nd a v :
  visit_sound key (n, a) → node m n = Ok nd → v ∈ next_visits nd a → visit_sound key v.
Proof.
  intros Hv Hn Hnext b o Hr.
  assert (Hr' : reaches true (RpNode v.1) o) by (eapply reaches_or; [|done]; done).
  destruct nd; simpl in Hnext; try by apply elem_of_nil in Hnext.
  - apply list_elem_of_fmap in Hnext as (c & -> & Hc). apply Hv. by eapply reaches_union.
  - apply list_elem_of_fmap in Hnext as (c & -> & Hc). rewrite orb_true_r.
    apply (Hv true o). by eapply reaches_intersection.
  - apply list_elem_of_singleton in Hnext as ->. rewrite orb_true_r.
    apply (Hv true o). by eapply reaches_difference.
Qed.

Lemma wp_direct_reads f current t n key owner a depth nd (Q : () → Traversal → Prop) :
  traversing f current t → key.(stk_subject) = s → visit_sound key (nd, a) → node m nd = Ok (NDirect owner) →
  (∀ t', traversing f current t' → grows t t' → (∀ x, x ∈ direct_subjects → covered f t' key owner x) → Q () t') →
  wp (enqueue_direct_read budget key owner a depth) Q t n.
Proof.
  intros Ht Hkey Hv Hn HQ. unfold enqueue_direct_read. rewrite Hkey. fold direct_subjects.
  eapply wp_mono; [apply (wp_each False _ (fun done t' => traversing f current t' ∧ grows t t' ∧
    ∀ x, x ∈ done → covered f t' key owner x))|].
  - split_and!; [done..|]. by intros x []%elem_of_nil.
  - intros l1 x l2 t1 n1 Hl (Ht1 & Hg1 & Hc1). eapply wp_enqueue; [done| |].
    + split; [done|]. simpl. intros u Hu Hx.
      eapply reaches_or; [|apply (Hv (is_conditional u))].
      * simpl. rewrite !orb_true_iff. tauto.
      * eapply reaches_direct; [done|done|by destruct (is_conditional u); auto|].
        assert (Hin : x ∈ direct_subjects) by (rewrite Hl; set_solver). unfold direct_subjects in Hin.
        apply elem_of_cons in Hin as [->|Hin]; [by left|right]. rewrite Hx.
        destruct s as [o| |]; try by apply elem_of_nil in Hin. apply list_elem_of_singleton in Hin as ->.
        simpl. by apply bool_decide_eq_true.
    + intros t2 Ht2 Hg2 Hc2. split_and!; [done|by etrans|].
      intros y [Hy| ->%list_elem_of_singleton]%elem_of_app; [|done].
      eapply implies_covered; [by apply grows_implies|]. by apply Hc1.
  - intros [] t' (? & ? & ?). by apply HQ.
Qed.

(** Subscriptions made in a loop. *)
Lemma wp_subscribe_each {A} (g : A → Eng Traversal ()) (sel : A → option (StateKey * Subscriber)) f current t n l
    (Q : () → Traversal → Prop) :
  (∀ x, g x = match sel x with Some (child, sub) => subscribe budget child sub | None => mret () end) →
  traversing f current t →
  (∀ x child sub, x ∈ l → sel x = Some (child, sub) → child.(stk_subject) = s ∧ link child.(stk_relation) sub) →
  (∀ t', traversing f current t' → grows t t' →
    (∀ x child sub, x ∈ l → sel x = Some (child, sub) → subscribed t' child sub) → Q () t') →
  wp (eng_each g l) Q t n.
Proof.
  intros Hg Ht Hl HQ.
  eapply wp_mono; [apply (wp_each False _ (fun done t' => traversing f current t' ∧ grows t t' ∧
    ∀ x child sub, x ∈ done → sel x = Some (child, sub) → subscribed t' child sub))|].
  - split_and!; [done..|]. by intros x child sub []%elem_of_nil.
  - intros l1 x l2 t1 n1 -> (Ht1 & Hg1 & Hs1). rewrite Hg. destruct (sel x) as [[child sub]|] eqn:Ex.
    + destruct (Hl x child sub) as [? ?]; [set_solver|done|]. eapply wp_subscribe; [done..|].
      intros t2 Ht2 Hg2 Hs2. split_and!; [done|by etrans|].
      intros y child' sub' [Hy| ->%list_elem_of_singleton]%elem_of_app Ey; [|by simplify_eq].
      eapply (im_subscribed f t1 f t2); [by apply grows_implies|]. by eapply Hs1.
    + apply wp_ret. split_and!; [done..|].
      intros y child' sub' [Hy| ->%list_elem_of_singleton]%elem_of_app Ey; [by eapply Hs1|congruence].
  - intros [] t' (? & ? & ?). by apply HQ.
Qed.

(** Conditional tuples make a reached object ambiguous. *)
Lemma with_row b b' u p o :
  reaches b p o → (b' || is_conditional u = true ∨ is_conditional u = false) ∧ reaches (b || is_conditional u) p o.
Proof. intros Hr. split; [destruct b', (is_conditional u); auto|by apply reaches_weaken]. Qed.

Lemma link_computed key n target a :
  key.(stk_subject) = s → visit_sound key (n, a) → node m n = Ok (NComputed target) →
  link target (mkSubscriber key SameObject a).
Proof. intros Hkey Hv Hn. split; [done|]. simpl. intros b o Hr. apply Hv. by eapply reaches_computed. Qed.

Lemma link_ttu key n tupleset c targets target a :
  key.(stk_subject) = s → visit_sound key (n, a) → node m n = Ok (NTupleToUserset tupleset c targets) →
  target ∈ targets → link target (mkSubscriber key (ReverseObject tupleset) a).
Proof.
  intros Hkey Hv Hn Ht. split; [done|]. simpl. intros b o u Hr Hu Hs.
  destruct (with_row b b u _ _ Hr) as [Hb Hr']. eapply reaches_or; [|eapply Hv, reaches_ttu; [..|exact Hr']; done].
  simpl. rewrite !orb_true_iff. tauto.
Qed.

Lemma link_userset key n owner rel d target a :
  key.(stk_subject) = s → visit_sound key (n, a) → node m n = Ok (NDirect owner) →
  relation m owner = Ok rel → d ∈ rel.(cr_restrictions) → d.(dr_kind) = RKUserset target →
  link target (mkSubscriber key (ReverseUserset owner target) a).
Proof.
  intros Hkey Hv Hn Hrel Hd Hk. split; [done|]. simpl. split; [done|]. intros b o u trel Hr Htrel Hu Hs.
  destruct (with_row b b u _ _ Hr) as [Hb Hr'].
  eapply reaches_or; [|eapply Hv; 
    eapply (reaches_userset m tuples _ s n owner rel d target trel u (mkUsersetRef o trel.(cr_name))); done].
  simpl. rewrite !orb_true_iff. tauto.
Qed.

Lemma wp_expand_node f current t n key id nd a depth (Q : list Visit → Traversal → Prop) :
  traversing f current t → key.(stk_subject) = s → visit_sound key (id, a) → node m id = Ok nd →
  (∀ pushed t', traversing f current t' → grows t t' → node_done f t' key nd a →
    fst <$> pushed = next_visits nd a → Q pushed t') →
  wp (candidate_expand_node m budget key nd a depth) Q t n.
Proof.
  intros Ht Hkey Hv Hn HQ.
  assert (Hvisits : ∀ cs b d, fst <$> visits cs b d = (fun c => (c, b)) <$> cs).
  { intros cs b d. unfold visits. rewrite <-list_fmap_compose. done. }
  destruct nd as [owner|target|tupleset c targets|cs|cs|base subtract]; simpl; rewrite ?Hkey.
  - apply wp_bind. eapply wp_direct_reads; [done..|]. intros t1 Ht1 Hg1 Hc1 n1. apply wp_bind, wp_lift.
    intros rel Hrel%map_err_ok n2. apply wp_bind.
    eapply (wp_subscribe_each _ (fun d => match d.(dr_kind) with
      | RKUserset target => Some (mkStateKey target s, mkSubscriber key (ReverseUserset owner target) a)
      | _ => None end)); [intros d; by destruct (dr_kind d)|exact Ht1| |].
    + intros d child sub Hd Hsel. destruct (dr_kind d) eqn:Ek; simplify_eq. split; [done|].
      by eapply link_userset.
    + intros t2 Ht2 Hg2 Hs2 n3. apply wp_ret, HQ; [done|by etrans| |done]. split.
      * intros x Hx. eapply implies_covered; [by apply grows_implies|by apply Hc1].
      * intros rel' d target Hrel' Hd Hk. rewrite Hrel in Hrel'. simplify_eq. eapply (Hs2 d); [done|by rewrite Hk].
  - apply wp_bind. eapply wp_subscribe; [done|done|by eapply link_computed|].
    intros t1 Ht1 Hg1 Hs1 n1. by apply wp_ret, HQ.
  - apply wp_bind.
    eapply (wp_subscribe_each _ (fun target => Some (mkStateKey target s, mkSubscriber key (ReverseObject tupleset) a)));
      [done|exact Ht| |].
    + intros target child sub Ht' [= <- <-]. split; [done|]. by eapply link_ttu.
    + intros t1 Ht1 Hg1 Hs1 n1. apply wp_ret, HQ; [done..| |done]. intros target Htarget. by eapply Hs1.
  - wp_steps. by apply HQ.
  - wp_steps. by apply HQ.
  - wp_steps. by apply HQ.
Qed.

(** *** The walk over a relation *)

Lemma mark_inj v v' : mark v = mark v' → v = v'.
Proof. destruct v as [n []], v' as [n' []]; unfold mark; simpl; intros; by simplify_eq. Qed.

Lemma walk_ok_visit f t key seen stack v nd pushed :
  walk_ok f t key seen (v :: stack) → node m v.1 = Ok nd → node_done f t key nd v.2 →
  pushed = next_visits nd v.2 → walk_ok f t key (bs_insert (mark v) seen) (pushed ++ stack).
Proof.
  intros Hw Hn Hd -> v' [Heq|Hv']%bs_insert_elem.
  - apply mark_inj in Heq as ->. exists nd. split_and!; [done..|]. intros v'' Hv''. right. set_solver.
  - destruct (Hw v' Hv') as (nd' & Hn' & Hd' & Hnext). exists nd'. split_and!; [done..|].
    intros v'' Hv''. rewrite bs_insert_elem. destruct (Hnext v'' Hv'') as [|[->|]%elem_of_cons]; [auto..|].
    right. set_solver.
Qed.

Lemma walk_ok_seen f t key seen stack v :
  walk_ok f t key seen (v :: stack) → mark v ∈ seen → walk_ok f t key seen stack.
Proof.
  intros Hw Hv v' Hv'. destruct (Hw v' Hv') as (nd' & Hn' & Hd' & Hnext). exists nd'. split_and!; [done..|].
  intros v'' Hv''. destruct (Hnext v'' Hv'') as [|[->|]%elem_of_cons]; auto.
Qed.

Lemma wp_walk f current fuel : ∀ t n key nodes seen (Q : () → Traversal → Prop),
  traversing f current t → key.(stk_subject) = s →
  Forall (visit_sound key) (fst <$> nodes) → walk_ok f t key seen (fst <$> nodes) →
  (∀ t' seen', traversing f current t' → grows t t' → (∀ v, v ∈ seen ∨ v ∈ mark ∘ fst <$> nodes → v ∈ seen') →
    walk_ok f t' key seen' [] → Q () t') →
  wp (expand_walk m budget fuel key nodes seen) Q t n.
Proof.
  induction fuel as [|fuel IH]; intros t n key [|[[id a] depth] nodes] seen Q Ht Hkey Hvs Hw HQ; simpl.
  - apply wp_ret. eapply HQ; [done..| |done]. intros v [|Hv%elem_of_nil]; done.
  - unfold ListCommon.wp, eng_fuel. tauto.
  - apply wp_ret. eapply HQ; [done..| |done]. intros v [|Hv%elem_of_nil]; done.
  - rewrite fmap_cons in Hvs, Hw. apply Forall_cons in Hvs as [Hv Hvs].
    apply wp_bind. eapply wp_depth; [done|]. intros t1 Ht1 Hg1 n1.
    apply (implies_walk_ok (grows_implies f _ _ Hg1)) in Hw. change (id, if a then 1 else 0) with (mark (id, a)).
    destruct (bs_contains (mark (id, a)) seen) eqn:Ec.
    + apply bs_contains_elem in Ec. eapply IH; [done..|by eapply walk_ok_seen|].
      intros t' seen' Ht' Hg' Hsub Hw'. eapply HQ; [done|by etrans| |done].
      intros v [|[->|]%elem_of_cons]; apply Hsub; auto.
    + apply wp_bind, wp_lift. intros nd Hnd%map_err_ok n2. apply wp_bind.
      eapply wp_expand_node; [done..|]. intros pushed t2 Ht2 Hg2 Hd2 Hpushed n3.
      apply (implies_walk_ok (grows_implies f _ _ Hg2)) in Hw.
      eapply IH; [done..| | |].
      * rewrite fmap_app, Forall_app. split; [|done]. rewrite Hpushed. apply Forall_forall. intros v Hv'.
        by eapply visit_sound_next.
      * rewrite fmap_app. eapply (walk_ok_visit _ _ _ _ _ (id, a)); done.
      * intros t' seen' Ht' Hg' Hsub Hw'. eapply HQ; [done|etrans; [done|by etrans]| |done].
        intros v [Hv'|[->|Hv']%elem_of_cons]; apply Hsub; rewrite ?bs_insert_elem; auto.
        right. rewrite fmap_app. set_solver.
Qed.

(** *** Events that have been processed *)

Lemma add_implies f t e :
  (∀ key o info, e = Publish key o info → published f t key o) → implies (add_events [e] f) t f t.
Proof.
  intros He. split; [|intros [] x Hr; by left|done].
  intros key o [[info [Hi%list_elem_of_singleton|Hi]%has_event_add]|Ho].
  - by eapply He.
  - left. eauto.
  - by right.
Qed.

Lemma land_expand f current t key :
  traversing (add_events [Expand key] f) current t →
  (∀ st, bt_get key t.(tv_states) = Some st → st.(rst_expanded) = true) → traversing f current t.
Proof.
  intros Ht Hx. eapply traversing_land; [done|by apply add_implies| |].
  - intros key' st Hst Hf [[= ->]%list_elem_of_singleton|He]%has_event_add; [|done]. by rewrite (Hx _ Hst) in Hf.
  - intros key' st sub o info info' _ _ _ [[=]%list_elem_of_singleton|He]%has_event_add. left. eauto.
Qed.

Lemma land_apply f current t sub o info :
  traversing (add_events [Apply sub o info] f) current t → applied f t sub o → traversing f current t.
Proof.
  intros Ht Ha. eapply traversing_land; [done|by apply add_implies| |].
  - by intros key' st Hst Hf [[=]%list_elem_of_singleton|He]%has_event_add.
  - intros key' st sub' o' info' info'' _ _ _ [[= -> -> ->]%list_elem_of_singleton|He]%has_event_add; eauto.
Qed.

Lemma land_publish f current t key o info :
  traversing (add_events [Publish key o info] f) current t → published f t key o → traversing f current t.
Proof.
  intros Ht Hp. eapply traversing_land; [done|apply add_implies; by intros ? ? ? [= <- <- <-]| |].
  - by intros key' st Hst Hf [[=]%list_elem_of_singleton|He]%has_event_add.
  - intros key' st sub' o' info' info'' _ _ _ [[=]%list_elem_of_singleton|He]%has_event_add. eauto.
Qed.

Lemma land_walk f t key : traversing f (Some key) t → walked f t key → traversing f None t.
Proof.
  intros [Hs He Ha] Hw. split; [done| |done]. intros key' st Hst. specialize (He _ _ Hst).
  destruct (rst_expanded st); [|done]. right. destruct He as [[= ->]|]; done.
Qed.

Lemma traversing_current f t key : traversing f None t → traversing f (Some key) t.
Proof.
  intros [Hs He Ha]. split; [done| |done]. intros key' st Hst. specialize (He _ _ Hst).
  destruct (rst_expanded st); [|done]. by destruct He as [[=]|]; right.
Qed.

Lemma wp_expand_state f t n key :
  traversing (add_events [Expand key] f) None t → key.(stk_subject) = s →
  wp (expand_state m budget key) (fun _ t' => traversing f None t') t n.
Proof.
  intros Ht Hkey. unfold expand_state. apply wp_bind. eapply wp_get_state; [done|]. intros st Hst n1.
  destruct (rst_expanded st) eqn:Ex; wp_steps.
  { eapply land_expand; [done|]. intros st'. rewrite Hst. by intros [= <-]. }
  unfold put_state. wp_steps. set (t1 := set_tv_states _ t).
  assert (Hg1 : grows t t1) by (eapply grows_put; eauto).
  assert (Ht1 : traversing f (Some key) t1).
  { eapply land_expand; [apply traversing_put; [by apply traversing_current|done|done| | |by left|]|].
    - intros o info. exact (sound_objects _ (tr_sound _ _ _ Ht) _ _ _ _ Hst).
    - intros sub. exact (sound_subscribers _ (tr_sound _ _ _ Ht) _ _ _ Hst).
    - intros sub o info. exact (tr_applied _ _ _ Ht _ _ _ _ _ Hst).
    - intros st'. simpl. rewrite bt_get_insert_eq. by intros [= <-]. }
  rename select (map_err _ _ = Ok _) into Hrel. apply map_err_ok in Hrel.
  eapply wp_walk; [exact Ht1|done| | |].
  - apply Forall_singleton. intros b o Hr. rewrite orb_false_r. by eapply reaches_relation.
  - by intros v []%elem_of_nil.
  - intros t' seen' Ht' Hg' Hsub Hw'. eapply land_walk; [done|]. eexists _, seen'.
    split_and!; [exact Hrel| |done]. apply Hsub. right. by left.
Qed.

Lemma wp_apply f current t n sub o info :
  traversing (add_events [Apply sub o info] f) current t → event_sound (Apply sub o info) →
  wp (apply_subscriber m budget limits sub o info) (fun _ t' => traversing f current t') t n.
Proof.
  intros Ht (r & [Hparent Hlink] & Hr). unfold apply_subscriber. apply wp_bind, wp_lift. intros depth _ n1.
  apply wp_bind. eapply wp_depth; [done|]. intros t1 Ht1 Hg1 n2. unfold applied.
  destruct (sub_transform sub) as [|ts|owner target] eqn:Etr.
  - eapply wp_push; [done|split; [done|by apply Hlink]|]. intros t2 Ht2 Hg2 He _.
    eapply land_apply; [done|]. unfold applied. rewrite Etr. left. eexists. by right.
  - eapply wp_enqueue; [done| |].
    + split; [done|]. simpl. intros u Hu Hx. by eapply Hlink.
    + intros t2 Ht2 Hg2 Hc. eapply land_apply; [done|]. unfold applied. rewrite Etr.
      eapply implies_covered; [|done]. by apply add_implies.
  - destruct Hlink as [-> Hlink]. apply wp_bind, wp_lift. intros rel Hrel%map_err_ok n3.
    apply wp_bind, wp_lift. intros u Hu%map_err_ok n4.
    assert (u = mkUsersetRef o rel.(cr_name)) as -> by (unfold userset_ref_new in Hu; repeat case_match; by simplify_eq).
    eapply wp_enqueue; [done| |].
    + split; [done|]. simpl. intros u' Hu' Hx. by eapply Hlink.
    + intros t2 Ht2 Hg2 Hc. eapply land_apply; [done|]. unfold applied. rewrite Etr. intros rel' Hrel'.
      rewrite Hrel in Hrel'. simplify_eq. eapply implies_covered; [|done]. by apply add_implies.
Qed.

(** The object is entered in its state, and its subscribers hear of it. *)
Lemma put_object f current t key st o info current_info :
  traversing f current t → bt_get key t.(tv_states) = Some st → key.(stk_subject) = s →
  reaches current_info.(ci_requires_check) (RpRelation key.(stk_relation)) o →
  (∀ sub, sub ∈ st.(rst_subscribers) → bt_get o st.(rst_objects) = None → has_event f t (Apply sub o info)) →
  let st' := mkRelationState st.(rst_expanded) (bt_insert o current_info st.(rst_objects)) st.(rst_subscribers) in
  let t' := set_tv_states (bt_insert key st') t in
  traversing f current t' ∧ grows t t' ∧ published f t' key o.
Proof.
  intros Ht Hst Hkey Hr Hev st' t'.
  assert (Hg : grows t t').
  { eapply grows_put; [done|done| |done]. intros o' info' Ho'. simpl. rewrite bt_get_insert.
    destruct (cmp o' o); eauto. }
  split_and!; [|done|].
  - apply traversing_put; [done..| | | |].
    + intros o' info' [[= -> ->]|Ho']%bt_insert_elem; [done|]. by eapply (sound_objects _ (tr_sound _ _ _ Ht)).
    + intros sub. exact (sound_subscribers _ (tr_sound _ _ _ Ht) _ _ _ Hst).
    + pose proof (tr_expanded _ _ _ Ht _ _ Hst) as He. simpl. destruct (rst_expanded st); [|done].
      destruct He as [|Hw]; [by left|right]. eapply implies_walked; [by apply grows_implies|done].
    + intros sub o' info' Hs Ho'. simpl in Ho'. rewrite bt_get_insert in Ho'.
      destruct (cmp o' o) eqn:E; [|by eapply (tr_applied _ _ _ Ht)..]. apply cmp_eq_iff in E as ->.
      destruct (bt_get o (rst_objects st)) eqn:Eo; [by eapply (tr_applied _ _ _ Ht)|]. left. eauto.
  - right. exists st', current_info. simpl. by rewrite !bt_get_insert_eq.
Qed.

Lemma wp_publish f current t n key o info :
  traversing (add_events [Publish key o info] f) current t → event_sound (Publish key o info) →
  wp (publish budget key o info) (fun _ t' => traversing f current t') t n.
Proof.
  intros Ht [Hkey Hr]. unfold publish. apply wp_bind. eapply wp_depth; [done|]. intros t1 Ht1 Hg1 n1.
  apply wp_bind. eapply wp_get_state; [done|]. intros st Hst n2.
  set (pair := match bt_get o _ with Some _ => _ | None => _ end). destruct pair as [cur changed] eqn:Epair.
  assert (Hcur : reaches cur.(ci_requires_check) (RpRelation key.(stk_relation)) o ∧
                 (changed = false → bt_get o st.(rst_objects) ≠ None)).
  { unfold pair, merge_info in Epair. destruct (bt_get o (rst_objects st)) as [old|] eqn:Eo; simplify_eq; split; try done.
    eapply reaches_or; [|exact Hr]. simpl. rewrite orb_true_iff. tauto. }
  destruct Hcur as [Hcur Hchanged]. clear Epair pair.
  set (es := (fun sub => Apply sub o cur) <$> st.(rst_subscribers)).
  set (f' := if changed then add_events es f else f).
  assert (Ht1' : traversing (add_events [Publish key o info] f') current t1).
  { eapply traversing_flight; [exact Ht1| |unfold f'; by destruct changed]. intros e. rewrite !has_event_add. unfold f'.
    destruct changed; [rewrite has_event_add|]; tauto. }
  assert (Hput := put_object _ _ _ _ _ o cur cur Ht1' Hst Hkey Hcur).
  destruct Hput as (Ht2 & Hg2 & Hp2).
  { intros sub Hs Hnone. apply has_event_add. right. unfold f'. destruct changed; [|by specialize (Hchanged eq_refl)].
    apply has_event_add. left. apply list_elem_of_fmap. eauto. }
  unfold put_state. apply wp_bind, wp_modify. intros n3. set (t2 := set_tv_states _ t1) in *.
  assert (Ht2' : traversing f' current t2).
  { eapply land_publish; [done|]. right. eexists _, cur. unfold t2. simpl. rewrite bt_get_insert_eq. split; [done|].
    simpl. by rewrite bt_get_insert_eq. }
  apply wp_bind. apply (wp_mono _ _ (fun _ t3 => traversing f' current t3 ∧ t3.(tv_states) = t2.(tv_states))).
  { destruct (bt_get o (rst_objects st)); [by apply wp_ret|].
    unfold count_candidate. wp_steps. case_match; wp_steps. split; [by apply traversing_counters|done]. }
  intros [] t3 [Ht3 Heq3] n4. unfold f' in Ht3. destruct changed; simpl; [|by apply wp_ret].
  eapply (wp_push_each (fun sub => Apply sub o cur)); [exact Ht3| |].
  - intros sub Hs. exists key.(stk_relation). split; [|done].
    by eapply (sound_subscribers _ (tr_sound _ _ _ Ht1)).
  - intros t4 Ht4 Hg4 Hes _. eapply traversing_queued; [done|]. intros e (sub & -> & Hs)%list_elem_of_fmap. by apply Hes.
Qed.

Lemma wp_process_event f t n e :
  traversing (add_events [e] f) None t → event_sound e →
  wp (process_event m budget limits e) (fun _ t' => traversing f None t') t n.
Proof. destruct e; [apply wp_expand_state|apply wp_publish|apply wp_apply]. Qed.

(** *** The inner loop *)

Lemma traversing_pop t e rest :
  traversing idle None t → t.(tv_events) = e :: rest →
  traversing (add_events [e] idle) None (set_tv_events (fun _ => rest) t) ∧ event_sound e.
Proof.
  intros Ht He. split; [|apply (sound_events _ (tr_sound _ _ _ Ht)); rewrite He; by left].
  assert (Hev : ∀ e', has_event idle t e' ↔ has_event (add_events [e] idle) (set_tv_events (fun _ => rest) t) e').
  { intros e'. unfold has_event. simpl. rewrite He. set_solver. }
  assert (Him : implies idle t (add_events [e] idle) (set_tv_events (fun _ => rest) t)).
  { split; [|by intros [] x Hr; left|done]. intros key o [[info Hi%Hev]|Ho]; [left; eauto|by right]. }
  destruct Ht as [[Hs ? ? ? ?] Hx Ha]. split; [split; [|done..]| |].
  - intros e' He'. apply Hs. rewrite He. by right.
  - intros key st Hst. specialize (Hx _ _ Hst). destruct (rst_expanded st); [|by apply Hev].
    destruct Hx as [|]; [by left|right]. by eapply implies_walked.
  - intros key st sub o info Hst Hsub Ho. destruct (Ha _ _ _ _ _ Hst Hsub Ho) as [[info' Hi%Hev]|Hi]; [eauto|].
    right. by eapply implies_applied.
Qed.

Lemma wp_drain fuel : ∀ t n,
  traversing idle None t →
  wp (drain_events command m budget limits w fuel)
    (fun _ t' => traversing idle None t' ∧ t'.(tv_events) = []) t n.
Proof.
  induction fuel as [|fuel IH]; intros t n Ht; simpl.
  - apply wp_bind, wp_get. intros n1. destruct (tv_events t) eqn:Ee; [by apply wp_ret|].
    unfold ListCommon.wp, eng_fuel. tauto.
  - apply wp_bind, wp_get. intros n1. destruct (tv_events t) as [|e rest] eqn:Ee; [by apply wp_ret|].
    destruct (traversing_pop _ _ _ Ht Ee) as [Ht1 He]. wp_steps. eapply wp_mono; [by apply wp_process_event|].
    intros [] t2 Ht2 n2. wp_steps. by apply IH.
Qed.

(** *** Reverse reads *)

Section reads.
Variable table : list RelationshipTuple.
Variable maximum_per_read : N.
Hypothesis Htuples : tuples = command.(loc_query).(qc_contextual_tuples) ++ table.
Hypothesis Hsnap : reverse_snapshot w command.(loc_query).(qc_store_id) table.
Hypothesis Hctx : validate_contextual command.(loc_query) m = Ok ().

Lemma contextual_valid t :
  t ∈ command.(loc_query).(qc_contextual_tuples) → validate_relationship_tuple m t = Ok ().
Proof. intros Ht. apply (proj1 (try_each_ok _ _) Hctx) in Ht. by apply map_err_ok in Ht. Qed.

(** The rows of a read are the valid tuples of the relation with the subjects. *)
Lemma chunk_rows r rel ty subjects filter stream rows tk u :
  relation m r = Ok rel → type_name m rel.(cr_object_type) = Ok ty →
  reverse_tuple_filter_new ty rel.(cr_name) (bt_keys (V:=CandidateInfo) subjects) [] CFAny limits = Ok filter →
  lw_reverse w tk command.(loc_query).(qc_store_id) filter maximum_per_read = Ok stream →
  collect_stream stream = Ok rows →
  u ∈ base.filter (fun t => is_ok (validate_relationship_tuple m t) = true) rows ++
      base.filter (fun t => t.(rt_key).(tk_object).(object_type) = filter.(rtf_object_type) ∧
                     t.(rt_key).(tk_relation) = filter.(rtf_relation) ∧
                     bt_contains_key t.(rt_key).(tk_subject) subjects = true)
        command.(loc_query).(qc_contextual_tuples) ↔
  row r u ∧ u.(rt_key).(tk_subject) ∈ bt_keys subjects.
Proof.
  intros Hrel Hty Hf Hread Hrows. unfold reverse_tuple_filter_new in Hf.
  destruct (bt_keys subjects) as [|k0 keys] eqn:Ek; [done|]. case_match; [done|]. injection Hf as <-.
  apply try_collect_relabel in Hrows. rewrite elem_of_app, list_elem_of_filter, list_elem_of_filter. simpl.
  rewrite (Hsnap _ _ _ _ _ Hread Hrows eq_refl eq_refl). simpl. rewrite bs_collect_elem.
  assert (Hok : is_ok (validate_relationship_tuple m u) = true ↔ validate_relationship_tuple m u = Ok ())
    by (destruct (validate_relationship_tuple m u) as [[]|]; naive_solver).
  assert (Hkey : bt_contains_key u.(rt_key).(tk_subject) subjects = true ↔ u.(rt_key).(tk_subject) ∈ k0 :: keys).
  { rewrite <-Ek, bt_get_keys. unfold bt_contains_key, is_Some. destruct (bt_get _ _); naive_solver. }
  assert (Hin : u ∈ tuples ↔ u ∈ command.(loc_query).(qc_contextual_tuples) ∨ u ∈ table)
    by by rewrite Htuples, elem_of_app.
  rewrite Hok, Hkey. split.
  - intros [(Hv & Ht & Hot & Hr & Hs)|((Hot & Hr & Hs) & Hc)]; (split; [exists rel|done]).
    + split_and!; [done|by rewrite Hty, Hot|done|apply Hin; by right|done].
    + split_and!; [done|by rewrite Hty, Hot|done|apply Hin; by left|by apply contextual_valid].
  - intros [(rel' & Hrel' & Hty' & Hr & Hu & Hv) Hs]. rewrite Hrel in Hrel'. injection Hrel' as <-.
    rewrite Hty in Hty'. injection Hty' as ->. apply Hin in Hu as [|]; [right|left]; done.
Qed.

Lemma wp_publish_rows f current t n key chunk rows (Q : () → Traversal → Prop) :
  traversing f current t → (∀ x info, (x, info) ∈ chunk → read_sound key x info) →
  (∀ u, u ∈ rows → row key.(pk_relation) u) →
  (∀ t', traversing f current t' → grows t t' →
    (∀ u, u ∈ rows → published f t' key.(pk_parent) u.(rt_key).(tk_object)) → Q () t') →
  wp (eng_each (publish_row budget key.(pk_parent) (bt_collect chunk)) rows) Q t n.
Proof.
  intros Ht Hchunk Hrows HQ.
  eapply wp_mono; [apply (wp_each False _ (fun done t' => traversing f current t' ∧ grows t t' ∧
    ∀ u, u ∈ done → published f t' key.(pk_parent) u.(rt_key).(tk_object)))|].
  - split_and!; [done..|]. by intros u []%elem_of_nil.
  - intros l1 u l2 t1 n1 -> (Ht1 & Hg1 & Hp1). unfold publish_row. apply wp_bind, wp_lift.
    intros source Hs%ok_or_ok%bt_collect_get n2. destruct (Hchunk _ _ Hs) as [Hparent Hreach].
    eapply wp_push; [done| |].
    + split; [done|]. apply Hreach; [apply Hrows; set_solver|done].
    + intros t2 Ht2 Hg2 He _. split_and!; [done|by etrans|].
      intros u' [Hu'| ->%list_elem_of_singleton]%elem_of_app.
      * eapply (im_published f t1 f t2); [by apply grows_implies|by apply Hp1].
      * left. eexists. by right.
  - intros [] t' (? & ? & ?). by apply HQ.
Qed.

Lemma wp_reverse_chunk f current t n key chunk (Q : () → Traversal → Prop) :
  traversing f current t → (∀ x info, (x, info) ∈ chunk → read_sound key x info) →
  (∀ t', traversing f current t' → grows t t' →
    (∀ x u, x ∈ chunk.*1 → row key.(pk_relation) u → u.(rt_key).(tk_subject) = x →
      published f t' key.(pk_parent) u.(rt_key).(tk_object)) → Q () t') →
  wp (reverse_chunk command m budget limits w maximum_per_read key chunk) Q t n.
Proof.
  intros Ht Hchunk HQ. unfold reverse_chunk. apply wp_bind.
  apply (wp_mono _ _ (fun _ t' => traversing f current t' ∧ grows t t')).
  { unfold charge_query. wp_steps. case_match; wp_steps.
    split; [by apply traversing_counters|apply grows_counters]. }
  intros [] t1 [Ht1 Hg1] n1. apply wp_bind, wp_lift. intros rel Hrel%map_err_ok n2.
  apply wp_bind, wp_lift. intros ty Hty%map_err_ok n3. apply wp_bind, wp_lift. intros filter Hfilter%map_err_ok n4.
  apply wp_bind, wp_tick. intros tk n5. apply wp_bind, wp_lift. intros stream Hstream%map_err_ok n6.
  apply wp_bind, wp_lift. intros rows Hrows n7. apply wp_bind.
  pose proof (fun u => chunk_rows _ _ _ _ _ _ _ _ u Hrel Hty Hfilter Hstream Hrows) as Hspec.
  apply (wp_mono _ _ (fun _ t' => traversing f current t' ∧ grows t t')).
  { unfold candidate_charge_items. wp_steps. case_match; wp_steps.
    split; [by apply traversing_counters|etrans; [done|apply grows_counters]]. }
  intros [] t2 [Ht2 Hg2] n8. eapply wp_publish_rows; [done|done| |].
  - intros u Hu. by apply Hspec.
  - intros t' Ht' Hg' Hp. apply HQ; [done|by etrans|]. intros x u Hx Hu Hs. apply Hp, Hspec.
    split; [done|]. by rewrite bt_collect_keys, Hs.
Qed.

Definition reading (key : PendingKey) (subjects : BTreeMap SubjectRef CandidateInfo) : InFlight :=
  mkInFlight [] ((fun x => (key, x)) <$> subjects.*1).

Lemma traversing_pop_read t key subjects rest :
  traversing idle None t → t.(tv_pending) = (key, subjects) :: rest →
  traversing (reading key subjects) None (set_tv_pending (fun _ => rest) t) ∧
  ∀ x info, (x, info) ∈ subjects → read_sound key x info.
Proof.
  intros Ht Hp. set (t1 := set_tv_pending _ t). destruct (tr_sound _ _ _ Ht) as [? Hreads ? ? ?].
  assert (Him : implies idle t (reading key subjects) t1).
  { split; [done| |done]. intros k x [Hr%elem_of_nil|(subjects' & info & Hk & Hx)]; [done|].
    rewrite Hp in Hk. simpl in Hk. left. destruct k as [parent r]. destruct (cmp _ key) eqn:E.
    - apply cmp_eq_iff in E as <-. injection Hk as ->. left. apply list_elem_of_fmap. exists x. split; [done|].
      apply list_elem_of_fmap. exists (x, info). split; [done|]. by apply bt_get_elem.
    - right. eauto.
    - right. eauto. }
  destruct Ht as [_ Hx Ha]. split; [split; [split; [done| |done..]| |]|].
  - intros k subjects' x info Hk. apply Hreads. rewrite Hp. by right.
  - intros key' st Hst. specialize (Hx _ _ Hst). destruct (rst_expanded st); [|done].
    destruct Hx as [|]; [by left|right]. by eapply implies_walked.
  - intros key' st sub o info Hst Hsub Ho. destruct (Ha _ _ _ _ _ Hst Hsub Ho) as [Hi|Hi]; [by left|right].
    by eapply implies_applied.
  - intros x info Hi. eapply Hreads; [|done]. rewrite Hp. by left.
Qed.

Lemma land_reads t key subjects :
  traversing (reading key subjects) None t →
  (∀ x u, x ∈ subjects.*1 → row key.(pk_relation) u → u.(rt_key).(tk_subject) = x →
    published (reading key subjects) t key.(pk_parent) u.(rt_key).(tk_object)) →
  traversing idle None t.
Proof.
  intros Ht Hp. eapply traversing_land; [done| |done|by left; eauto].
  split; [done| |done]. intros k x [(y & [= -> ->] & Hy)%list_elem_of_fmap|Hr].
  - right. intros u Hu Hs. by eapply (Hp y u).
  - destruct k. left. by right.
Qed.

Lemma wp_reverse_read t n key subjects :
  traversing (reading key subjects) None t → (∀ x info, (x, info) ∈ subjects → read_sound key x info) →
  wp (process_reverse_read command m budget limits w maximum_per_read key subjects)
    (fun _ t' => traversing idle None t') t n.
Proof.
  intros Ht Hsub. unfold process_reverse_read. set (size := N.to_nat _).
  assert (Hsize : 0 < size) by (unfold size; lia).
  eapply wp_mono; [apply (wp_each False _ (fun done t' => traversing (reading key subjects) None t' ∧
    ∀ x u, x ∈ (mjoin done).*1 → row key.(pk_relation) u → u.(rt_key).(tk_subject) = x →
      published (reading key subjects) t' key.(pk_parent) u.(rt_key).(tk_object)))|].
  - split; [done|]. by intros x u []%elem_of_nil.
  - intros l1 chunk l2 t1 n1 Hl (Ht1 & Hp1). eapply wp_reverse_chunk; [done| |].
    + intros x info Hx. apply Hsub. rewrite <-(chunks_concat size subjects Hsize), Hl.
      apply list_elem_of_join. exists chunk. split; [done|]. set_solver.
    + intros t2 Ht2 Hg2 Hp2. split; [done|]. intros x u. rewrite join_app, fmap_app, elem_of_app.
      intros [Hx|Hx] Hu Hs.
      * eapply (im_published _ t1 _ t2); [by apply grows_implies|]. by eapply Hp1.
      * eapply Hp2; [|done..]. change (mjoin [chunk]) with (chunk ++ []) in Hx. by rewrite app_nil_r in Hx.
  - intros [] t' [Ht' Hp']. rewrite (chunks_concat size subjects Hsize) in Hp'. by eapply land_reads.
Qed.

(** *** The outer loop and its result *)

Lemma wp_loop fuel : ∀ t n,
  traversing idle None t →
  wp (traversal_loop command m budget limits w maximum_per_read fuel)
    (fun _ t' => traversing idle None t' ∧ t'.(tv_events) = [] ∧ t'.(tv_pending) = []) t n.
Proof.
  induction fuel as [|fuel IH]; intros t n Ht; simpl; apply wp_bind, wp_get; intros n1.
  - destruct (tv_events t) eqn:Ee, (tv_pending t) eqn:Ep; try (unfold ListCommon.wp, eng_fuel; tauto). by apply wp_ret.
  - assert (Hround : wp (eng_check w (query_operation (loc_query command));;
      drain_events command m budget limits w (N.to_nat (cb_dispatches budget));;
      t ← eng_get;
      match t.(tv_pending) with
      | [] => mret ()
      | (key, subjects) :: rest =>
          eng_modify (set_tv_pending (fun _ => rest));;
          process_reverse_read command m budget limits w maximum_per_read key subjects
      end;;
      traversal_loop command m budget limits w maximum_per_read fuel)
      (fun _ t' => traversing idle None t' ∧ t'.(tv_events) = [] ∧ t'.(tv_pending) = []) t n1).
    { wp_steps. eapply wp_mono; [by apply wp_drain|]. intros [] t1 [Ht1 He1] n2. wp_steps.
      apply (wp_mono _ _ (fun _ t' => traversing idle None t')); [|intros [] t2 Ht2 n3; by apply IH].
      destruct (tv_pending t1) as [|[key subjects] rest] eqn:Ep; wp_steps; [done|].
      destruct (traversing_pop_read _ _ _ _ Ht1 Ep) as [Ht2 Hs]. by apply wp_reverse_read. }
    destruct (tv_events t) eqn:Ee, (tv_pending t) eqn:Ep; try exact Hround. by apply wp_ret.
Qed.

End reads.
End operations.
End invariant.

(** ** Candidates *)

Section candidates.
Context `{ConditionEngine}.
Variable command : ListObjectsCommand.
Variable m : CompiledModel.
Variable budget : CandidateBudget.
Variable limits : InputLimits.
Variable w : ListWorld.
Variable table : list RelationshipTuple.
Hypothesis Hsnap : reverse_snapshot w command.(loc_query).(qc_store_id) table.

Abbreviation tuples := (command.(loc_query).(qc_contextual_tuples) ++ table).
Abbreviation s := (command.(loc_subject)).

(** The candidates are exactly the reachable objects, and those that need no
    check are reachable with certainty. *)
Lemma traverse_spec set :
  traverse command m budget limits w = Ok set →
  ∃ r, relation_id m command.(loc_object_type) command.(loc_relation) = Ok r ∧
    validate_contextual command.(loc_query) m = Ok () ∧
    (∀ c, c ∈ set.(cs_candidates) → reaches m tuples c.(cand_requires_check) s (RpRelation r) c.(cand_object)) ∧
    (∀ o, reaches m tuples true s (RpRelation r) o → o ∈ cand_object <$> set.(cs_candidates)).
Proof.
  unfold traverse. intros ([] & _ & Hm)%result_bind_ok.
  apply result_bind_ok in Hm as ([] & Hctx%map_err_ok & Hm).
  apply result_bind_ok in Hm as (r & Hr%map_err_ok%map_err_ok & Hm).
  apply result_bind_ok in Hm as (maximum & _ & Hm). exists r. split; [done|]. split; [done|].
  set (root := mkStateKey r s) in *.
  apply result_fmap_ok in Hm as ([[set' t'] n'] & -> & Hrun). simpl.
  refine (wp_ok False _ (fun set _ => (∀ c, c ∈ cs_candidates set → _) ∧ (∀ o, _ → o ∈ cand_object <$> cs_candidates set))
            _ _ _ _ _ _ Hrun).
  assert (H0 : traversing m tuples s idle None traversal_default).
  { split; [split; simpl; intros; by repeat match goal with Hx : _ ∈ [] |- _ => apply elem_of_nil in Hx end|done..]. }
  apply wp_bind. eapply wp_ensure; [exact H0|done|]. intros t1 Ht1 _ n1. unfold traversal_run. apply wp_bind.
  eapply wp_mono; [by eapply wp_loop|]. intros [] t2 (Ht2 & He2 & Hp2) n2. wp_steps.
  rename select (ok_or _ _ = Ok _) into Hst. apply ok_or_ok in Hst. simpl. split.
  - intros c ([o info] & -> & Ho)%list_elem_of_fmap. simpl.
    exact (sound_objects _ _ _ _ (tr_sound _ _ _ _ _ _ Ht2) _ _ _ _ Hst Ho).
  - intros o Ho. destruct (rest_complete _ _ _ _ Ht2 He2 Hp2 _ _ Ho _ Hst) as [info Hi]. apply list_elem_of_fmap.
    exists (mkCandidate o info.(ci_requires_check)). split; [done|]. apply list_elem_of_fmap. exists (o, info).
    split; [done|]. by apply bt_get_elem.
Qed.

End candidates.
