(* ===== verification/CandidatesBounds.v ===== *)
(** * Bounds and termination of the reverse traversal

    Every queued event is charged to the dispatch budget and every reverse read
    to the query budget, so the loops of the traversal end within the bounds
    the model gives them, whatever the store returns. *)

From S2P Require Import Prelude Ordered Identifier Reference Condition Storage Model ModelErrors Graph.
From S2P Require Import GraphTheory TupleValidation Budget Reducer Scheduler Evaluator ListCommon Candidates.
From S2P Require Import CandidatesTheory.

Section bounds.
Context `{ConditionEngine}.
Variable command : ListObjectsCommand.
Variable m : CompiledModel.
Variable budget : CandidateBudget.
Variable limits : InputLimits.
Variable w : ListWorld.

Abbreviation wp := (wp True).
Implicit Types t : Traversal.

Record bounded t : Prop := {
  bd_dispatches : (t.(tv_counters).(cm_dispatches) <= budget.(cb_dispatches))%N;
  bd_queries : (t.(tv_counters).(cm_datastore_queries) <= budget.(cb_datastore_queries))%N;
  bd_items : (t.(tv_counters).(cm_tuple_items) <= budget.(cb_tuple_items))%N;
  bd_candidates : (t.(tv_counters).(cm_intermediate_candidates) <= budget.(cb_candidates))%N;
  bd_depth : (t.(tv_counters).(cm_maximum_depth) <= budget.(cb_depth))%N;
  bd_pending : ∀ k subjects, (k, subjects) ∈ t.(tv_pending) → subjects ≠ [];
  bd_objects : ∀ key st, (key, st) ∈ t.(tv_states) → bt_sorted st.(rst_objects);
}.

(** Events are queued one dispatch each; queries are never refunded. *)
Definition spent t t' : Prop :=
  (N.of_nat (length t'.(tv_events)) + t.(tv_counters).(cm_dispatches) =
   N.of_nat (length t.(tv_events)) + t'.(tv_counters).(cm_dispatches))%N ∧
  (t.(tv_counters).(cm_datastore_queries) <= t'.(tv_counters).(cm_datastore_queries))%N.

#[local] Instance spent_preorder : PreOrder spent.
Proof. split; [done|]. intros t1 t2 t3 [? ?] [? ?]. split; lia. Qed.

Definition keeps {A} (op : Eng Traversal A) : Prop :=
  ∀ t n, bounded t → wp op (fun _ t' => bounded t' ∧ spent t t') t n.

Lemma keeps_ret {A} (a : A) : keeps (mret a).
Proof. intros t n Ht. by apply wp_ret. Qed.

Lemma keeps_get : keeps eng_get.
Proof. intros t n Ht. by apply wp_get. Qed.

Lemma keeps_lift {A} (r : result ListError A) : keeps (eng_lift r).
Proof. intros t n Ht. by apply wp_lift. Qed.

Lemma keeps_tick : keeps eng_tick.
Proof. intros t n Ht. by apply wp_tick. Qed.

Lemma keeps_bind {A B} (op : Eng Traversal A) (f : A → Eng Traversal B) :
  keeps op → (∀ a, keeps (f a)) → keeps (op ≫= f).
Proof.
  intros Hop Hf t n Ht. apply wp_bind. eapply wp_mono; [by apply Hop|]. intros a t1 [Ht1 Hs1] n1.
  eapply wp_mono; [by apply Hf|]. intros b t2 [Ht2 Hs2]. split; [done|by etrans].
Qed.

Lemma keeps_each {A} (f : A → Eng Traversal ()) l : (∀ x, x ∈ l → keeps (f x)) → keeps (eng_each f l).
Proof.
  intros Hf. induction l as [|x l IH]; simpl; [apply keeps_ret|].
  apply keeps_bind; [apply Hf; by left|]. intros []. apply IH. intros y Hy. apply Hf. by right.
Qed.

Lemma keeps_depth depth : keeps (candidate_check_depth budget depth).
Proof.
  intros t n [? ? ? ? Hd ? ?]. unfold candidate_check_depth. wp_steps. case_match eqn:E; wp_steps.
  apply N.ltb_ge in E. split; [|done]. split; simpl; try done. lia.
Qed.

(** The counters charged before a budget is compared. *)
Lemma keeps_push e : keeps (push_event budget e).
Proof.
  intros t n [? ? ? ? ? ? ?]. unfold push_event. wp_steps.
  rename select (ok_or _ _ = Ok _) into Hn. apply ok_or_ok, checked_add_Some in Hn as [-> _].
  case_match eqn:E; wp_steps. apply N.ltb_ge in E. split; [by split|].
  split; simpl; [rewrite length_app; simpl; lia|done].
Qed.

Lemma keeps_items stored contextual : keeps (candidate_charge_items budget stored contextual).
Proof.
  intros t n [? ? ? ? ? ? ?]. unfold candidate_charge_items. wp_steps. case_match eqn:E; wp_steps.
  apply N.ltb_ge in E. split; [by split|done].
Qed.

Lemma keeps_count : keeps (count_candidate budget).
Proof.
  intros t n [? ? ? ? ? ? ?]. unfold count_candidate. wp_steps. case_match eqn:E; wp_steps.
  apply N.ltb_ge in E. split; [by split|done].
Qed.

Lemma wp_charge_query t n :
  bounded t → wp (charge_query budget) (fun _ t' => bounded t' ∧ spent t t' ∧
    (t.(tv_counters).(cm_datastore_queries) < t'.(tv_counters).(cm_datastore_queries))%N) t n.
Proof.
  intros [? ? ? ? ? ? ?]. unfold charge_query. wp_steps.
  rename select (ok_or _ _ = Ok _) into Hn. apply ok_or_ok, checked_add_Some in Hn as [-> _].
  case_match eqn:E; wp_steps. apply N.ltb_ge in E. split; [by split|]. split; simpl; [split; simpl|]; lia.
Qed.

Lemma keeps_put key st : bt_sorted st.(rst_objects) → keeps (put_state key st).
Proof.
  intros Hs t n [? ? ? ? ? ? Ho]. unfold put_state. wp_steps. split; [|done]. split; try done.
  simpl. intros key' st' [[= -> ->]|Hst]%bt_insert_elem; [done|by eapply Ho].
Qed.

(** A state that is read satisfies its part of the invariant. *)
Lemma keeps_state {A} key code (f : RelationState → Eng Traversal A) :
  (∀ st, bt_sorted st.(rst_objects) → keeps (f st)) → keeps (get_state_of key code ≫= f).
Proof.
  intros Hf t n Ht. apply wp_bind. unfold get_state_of. wp_steps.
  rename select (ok_or _ _ = Ok _) into Hst. apply ok_or_ok, bt_get_elem in Hst.
  apply Hf; [by eapply (bd_objects _ Ht)|done].
Qed.

#[local] Hint Resolve keeps_ret keeps_get keeps_lift keeps_tick keeps_depth keeps_push keeps_items
  keeps_count keeps_put : openfga.

Ltac keep_one := solve
  [ auto with openfga | apply keeps_each; intros ? ?; repeat case_match; auto with openfga ].
Ltac keep := repeat first [ keep_one | apply keeps_bind; [keep_one|intros ?] | case_match ].

Lemma keeps_ensure key : keeps (ensure_state budget key).
Proof.
  unfold ensure_state. keep. apply keeps_bind; [|by keep]. intros t n [? ? ? ? ? ? Ho]. wp_steps.
  split; [|done]. split; try done. simpl. intros key' st' [[= -> ->]|Hst]%bt_insert_elem; [constructor|by eapply Ho].
Qed.
#[local] Hint Resolve keeps_ensure : openfga.

Lemma keeps_subscribe child sub : keeps (subscribe budget child sub).
Proof.
  unfold subscribe. keep. apply keeps_state. intros st Hst. keep.
Qed.
#[local] Hint Resolve keeps_subscribe : openfga.

Lemma keeps_enqueue parent r x info : keeps (enqueue_reverse budget parent r x info).
Proof.
  unfold enqueue_reverse. keep. intros t n [? ? ? ? ? Hp ?]. wp_steps. split; [|done]. split; try done.
  simpl. intros k subjects [[= -> ->]|Hk]%bt_insert_elem; [|by eapply Hp].
  destruct (default [] _) as [|[y v] rest]; simpl; [done|]. by destruct (cmp x y).
Qed.
#[local] Hint Resolve keeps_enqueue : openfga.

Lemma keeps_expand_node key nd a depth : keeps (candidate_expand_node m budget key nd a depth).
Proof.
  unfold candidate_expand_node, enqueue_direct_read. destruct nd; keep.
Qed.

Lemma keeps_apply sub o info : keeps (apply_subscriber m budget limits sub o info).
Proof. unfold apply_subscriber. keep. Qed.

Lemma keeps_publish key o info : keeps (publish budget key o info).
Proof.
  unfold publish. keep. apply keeps_state. intros st Hst. case_match.
  apply keeps_bind; [apply keeps_put; by apply bt_sorted_insert|]. intros _. keep.
Qed.

(** ** The walk over a relation *)

(** The pushes still to come from the visits of one kind not yet made. *)
Definition unseen (a : nat) (seen : list (NodeId * nat)) : nat :=
  weight (fun n => length (successors m.(model_nodes) n)) (fun n => negb (bs_contains (n, a) seen))
    (length m.(model_nodes)).

Lemma unseen_insert n a seen nd :
  node m n = Ok nd → (n, a) ∉ seen →
  unseen a seen = length (node_children nd) + unseen a (bs_insert (n, a) seen) ∧
  ∀ a', a' ≠ a → unseen a' (bs_insert (n, a) seen) = unseen a' seen.
Proof.
  intros Hn%ok_or_ok Hseen.
  assert (Hc : ∀ x, bs_contains x (bs_insert (n, a) seen) = true ↔ x = (n, a) ∨ bs_contains x seen = true)
    by (intros x; by rewrite !bs_contains_elem, bs_insert_elem).
  split.
  - replace (node_children nd) with (successors m.(model_nodes) n) by (unfold successors; by rewrite Hn).
    apply (weight_kill (fun n => length (successors (model_nodes m) n))).
    + by eapply lookup_lt_Some.
    + apply bs_contains_false in Hseen. by rewrite Hseen.
    + apply negb_false_iff, Hc. by left.
    + intros j Hj. f_equal. apply eq_true_iff_eq. rewrite Hc. naive_solver.
  - intros a' Ha. apply weight_same. intros j Hj. f_equal. apply eq_true_iff_eq. rewrite Hc. naive_solver.
Qed.

Lemma pushed_length key nd a depth t n :
  ListCommon.wp False (candidate_expand_node m budget key nd a depth)
    (fun pushed _ => length pushed ≤ length (node_children nd)) t n.
Proof.
  destruct nd; simpl; repeat (apply wp_bind; eapply wp_mono; [apply wp_any|]; intros ? ? _ ?); apply wp_ret; simpl;
    unfold visits; rewrite ?length_fmap; simpl; lia.
Qed.

Lemma wp_walk_bounds fuel : ∀ key nodes seen t n,
  bounded t → length nodes + unseen 0 seen + unseen 1 seen ≤ fuel →
  wp (expand_walk m budget fuel key nodes seen) (fun _ t' => bounded t' ∧ spent t t') t n.
Proof.
  induction fuel as [|fuel IH]; intros key [|[[id a] depth] nodes] seen t n Ht Hle; simpl in *; try by apply wp_ret.
  { lia. }
  apply wp_bind. eapply wp_mono; [by apply keeps_depth|]. intros [] t1 [Ht1 Hs1] n1.
  set (mk := (id, if a then 1 else 0)). destruct (bs_contains mk seen) eqn:Ec.
  - eapply wp_mono; [apply IH; [done|lia]|]. intros [] t2 [Ht2 Hs2]. split; [done|by etrans].
  - apply bs_contains_false in Ec. apply wp_bind, wp_lift. intros nd Hnd%map_err_ok n2. apply wp_bind.
    eapply wp_mono; [apply wp_conj; [by apply keeps_expand_node|apply pushed_length]|].
    intros pushed t2 [[Ht2 Hs2] Hlen] n3. destruct (unseen_insert id (if a then 1 else 0) seen nd Hnd Ec) as [Heq Hne].
    eapply wp_mono; [apply IH; [done|]|intros [] t3 [Ht3 Hs3]; split; [done|etrans; [done|by etrans]]].
    rewrite length_app. unfold mk. destruct a; [rewrite (Hne 0) by lia|rewrite (Hne 1) by lia]; lia.
Qed.

Lemma keeps_expand_state key : keeps (expand_state m budget key).
Proof.
  unfold expand_state. apply keeps_state. intros st Hst. destruct (rst_expanded st); [apply keeps_ret|].
  apply keeps_bind; [by apply keeps_put|intros _]. apply keeps_bind; [apply keeps_lift|intros rel t n Ht].
  apply wp_walk_bounds; [done|]. unfold expand_fuel, unseen. simpl.
  rewrite <-weight_successors. lia.
Qed.

Lemma keeps_process_event e : keeps (process_event m budget limits e).
Proof. destruct e; [apply keeps_expand_state|apply keeps_publish|apply keeps_apply]. Qed.

(** ** The loops *)

(** The events queued and those the dispatch budget still admits. *)
Definition potential t : nat :=
  N.to_nat (budget.(cb_dispatches) - t.(tv_counters).(cm_dispatches)) + length t.(tv_events).

Lemma wp_drain_bounds fuel : ∀ t n,
  bounded t → potential t ≤ fuel →
  wp (drain_events command m budget limits w fuel)
    (fun _ t' => bounded t' ∧ t'.(tv_events) = [] ∧
      (t.(tv_counters).(cm_datastore_queries) <= t'.(tv_counters).(cm_datastore_queries))%N) t n.
Proof.
  induction fuel as [|fuel IH]; intros t n Ht Hle; simpl; apply wp_bind, wp_get; intros n1;
    destruct (tv_events t) as [|e rest] eqn:Ee; try by apply wp_ret.
  - unfold potential in Hle. rewrite Ee in Hle. simpl in Hle. lia.
  - apply wp_bind, wp_modify. intros n2. set (t1 := set_tv_events _ t).
    assert (Ht1 : bounded t1) by (by destruct Ht; split).
    apply wp_bind. eapply wp_mono; [by apply keeps_process_event|]. intros [] t2 [Ht2 [Hs2 Hq2]] n3.
    apply wp_bind, wp_check. intros n4. eapply wp_mono; [apply IH; [done|]|].
    + unfold potential in *. rewrite Ee in Hle. simpl in *.
      pose proof (bd_dispatches _ Ht). pose proof (bd_dispatches _ Ht2). lia.
    + intros [] t3 (Ht3 & He3 & Hq3). split_and!; [done..|]. simpl in Hq2. lia.
Qed.

Section reads.
Variable maximum_per_read : N.

Lemma wp_chunk_bounds key chunk t n :
  bounded t → wp (reverse_chunk command m budget limits w maximum_per_read key chunk)
    (fun _ t' => bounded t' ∧ spent t t' ∧
      (t.(tv_counters).(cm_datastore_queries) < t'.(tv_counters).(cm_datastore_queries))%N) t n.
Proof.
  intros Ht. unfold reverse_chunk. apply wp_bind. eapply wp_mono; [by apply wp_charge_query|].
  intros [] t1 (Ht1 & Hs1 & Hlt) n1. eapply (wp_mono _ _ (fun _ t' => bounded t' ∧ spent t1 t')).
  - revert t1 n1 Ht1 Hs1 Hlt. cut (∀ op : Eng Traversal (), keeps op → ∀ t1 n1, bounded t1 →
      wp op (fun _ t' => bounded t' ∧ spent t1 t') t1 n1); [|by intros op Hop t1 n1; apply Hop].
    intros Hcut t1 n1 Ht1 _ _. apply Hcut; [|done].
    repeat (apply keeps_bind; [first [apply keeps_lift|apply keeps_tick|apply keeps_items]|intros ?]).
    apply keeps_each. intros u _. unfold publish_row. keep.
  - intros [] t2 [Ht2 [Hd2 Hq2]]. split; [done|]. split; [by etrans|lia].
Qed.

Lemma wp_read_bounds key subjects t n :
  bounded t → subjects ≠ [] → wp (process_reverse_read command m budget limits w maximum_per_read key subjects)
    (fun _ t' => bounded t' ∧ spent t t' ∧
      (t.(tv_counters).(cm_datastore_queries) < t'.(tv_counters).(cm_datastore_queries))%N) t n.
Proof.
  intros Ht Hne. unfold process_reverse_read. pose proof (chunks_nonempty (N.to_nat (N.max limits.(user_filters) 1)) _ Hne).
  destruct (chunks _ subjects) as [|chunk rest]; [done|]. simpl. apply wp_bind.
  eapply wp_mono; [by apply wp_chunk_bounds|]. intros [] t1 (Ht1 & Hs1 & Hlt) n1.
  eapply wp_mono; [apply keeps_each; [|done]|].
  - intros c _ t2 n2 Ht2. eapply wp_mono; [by apply wp_chunk_bounds|]. by intros [] t3 (? & ? & _).
  - intros [] t2 [Ht2 [Hd2 Hq2]]. split; [done|]. split; [by etrans|lia].
Qed.

(** Queued events are paid for, and every round but the last reads. *)
Definition loop_ready (fuel : nat) t : Prop :=
  bounded t ∧ (N.of_nat (length t.(tv_events)) <= t.(tv_counters).(cm_dispatches))%N ∧
  ((t.(tv_events) = [] ∧ t.(tv_pending) = []) ∨
   S (N.to_nat (budget.(cb_datastore_queries) - t.(tv_counters).(cm_datastore_queries))) ≤ fuel).

Lemma wp_loop_bounds fuel : ∀ t n,
  loop_ready fuel t →
  wp (traversal_loop command m budget limits w maximum_per_read fuel) (fun _ t' => bounded t') t n.
Proof.
  induction fuel as [|fuel IH]; intros t n (Ht & Hev & Hfuel); simpl; apply wp_bind, wp_get; intros n1.
  { destruct Hfuel as [[-> ->]|]; [by apply wp_ret|lia]. }
  set (round := eng_check _ _ ≫= _).
  assert (Hround : (tv_events t = [] → tv_pending t ≠ []) → wp round (fun _ t' => bounded t') t n1).
  2: { destruct (tv_events t), (tv_pending t); [by apply wp_ret|by apply Hround..]. }
  intros Hmore. destruct Hfuel as [[He Hp]|Hfuel]; [by apply Hmore in He|].
  unfold round. apply wp_bind, wp_check. intros n2. apply wp_bind. eapply wp_mono; [apply wp_drain_bounds; [done|]|].
  { unfold potential. pose proof (bd_dispatches _ Ht). lia. }
  intros [] t1 (Ht1 & He1 & Hq1) n3. apply wp_bind, wp_get. intros n4. apply wp_bind.
  destruct (tv_pending t1) as [|[key subjects] rest] eqn:Ep.
  - apply wp_ret. intros n5. apply IH. split_and!; [done|rewrite He1; simpl; lia|by left].
  - apply wp_bind, wp_modify. intros n5. set (t2 := set_tv_pending _ t1).
    assert (Ht2 : bounded t2) by (destruct Ht1 as [? ? ? ? ? Hp ?]; split; try done; intros k sub Hk;
      eapply Hp; rewrite Ep; by right).
    eapply wp_mono; [apply wp_read_bounds; [done|]|].
    { eapply (bd_pending _ Ht1). rewrite Ep. by left. }
    intros [] t3 (Ht3 & [Hd3 _] & Hlt) n6. apply IH. simpl in Hd3, Hlt. split_and!; [done| |right].
    + rewrite He1 in Hd3. simpl in Hd3. lia.
    + pose proof (bd_queries _ Ht3). lia.
Qed.

End reads.
End bounds.

(** A traversal ends within its loop bounds, with counters within the budget and
    distinct candidates in order. *)
Lemma traverse_bounds `{ConditionEngine} command m budget limits w :
  traverse command m budget limits w ≠ Err LFuel ∧
  ∀ set, traverse command m budget limits w = Ok set →
    (set.(cs_metadata).(cm_dispatches) <= budget.(cb_dispatches))%N ∧
    (set.(cs_metadata).(cm_datastore_queries) <= budget.(cb_datastore_queries))%N ∧
    (set.(cs_metadata).(cm_tuple_items) <= budget.(cb_tuple_items))%N ∧
    (set.(cs_metadata).(cm_intermediate_candidates) <= budget.(cb_candidates))%N ∧
    (set.(cs_metadata).(cm_maximum_depth) <= budget.(cb_depth))%N ∧
    bs_sorted (cand_object <$> set.(cs_candidates)).
Proof.
  unfold traverse. destruct (validate_query_model _ _) as [[]|]; [|done]. simpl.
  destruct (validate_contextual _ _) as [[]|]; [|done]. simpl. destruct (relation_id _ _ _) as [r|]; [|done]. simpl.
  destruct (limit_new _ _) as [maximum|]; [|done]. simpl. set (root := mkStateKey _ _).
  set (prog := ensure_state budget root ≫= _).
  assert (Hwp : wp True prog (fun set t => bounded budget t ∧ set.(cs_metadata) = t.(tv_counters) ∧
    bs_sorted (cand_object <$> set.(cs_candidates))) traversal_default 0).
  { assert (H0 : bounded budget traversal_default)
      by (split; simpl; try lia; intros ? ? []%elem_of_nil).
    unfold prog. apply wp_bind. eapply wp_mono; [by apply keeps_ensure|]. intros [] t1 [Ht1 [Hd1 Hq1]] n1.
    unfold traversal_run. apply wp_bind. eapply wp_mono; [apply wp_loop_bounds|].
    - simpl in Hd1, Hq1. split_and!; [done|lia|right]. unfold traversal_fuel. lia.
    - intros [] t2 Ht2 n2. wp_steps. rename select (ok_or _ _ = Ok _) into Hst. apply ok_or_ok, bt_get_elem in Hst.
      split_and!; [done..|]. simpl. pose proof (bd_objects _ _ Ht2 _ _ Hst) as Hs. clear -Hs.
      induction Hs as [|[o info] l _ IH Hlt]; simpl; constructor; [done|]. apply Forall_forall.
      intros o' (x & -> & (y & -> & Hy)%list_elem_of_fmap)%list_elem_of_fmap. rewrite Forall_forall in Hlt.
      specialize (Hlt _ Hy). by destruct y. }
  unfold wp in Hwp. destruct (prog _ _) as [[[set t] n']|[e|]]; [|done|by exfalso; apply Hwp]. split; [done|].
  intros set' [= <-]. destruct Hwp as ([] & -> & Hs). split_and!; done.
Qed.
