(* ===== verification/ListSpec.v ===== *)
(** * What an enumeration means

    Reachability over the tuples of a snapshot against the semantics of a
    check: a subject that a check allows is reached when conditions and
    operators are admitted, and what is reached without them a check allows. *)

From S2P Require Import Prelude Ordered Identifier Reference Condition Storage Model Graph GraphTheory.
From S2P Require Import TupleValidation Budget Reducer Scheduler CheckSpec Membership Restrictions.
From S2P Require Import ModelTyping Evaluator ListCommon Candidates CandidatesTheory.

Section enumeration.
Context `{ConditionEngine}.
Variable env : CheckEnv.
Variable stored : ObjectRef → RelationName → list RelationshipTuple.
Variable tuples : list RelationshipTuple.

Abbreviation model := env.(env_model).
Context `{!TypedModel model}.

(** The rows a check sees are the tuples of the enumeration. *)
Hypothesis Hrows : ∀ o r t, t ∈ rows_at env stored o r ↔
  t ∈ tuples ∧ t.(rt_key).(tk_object) = o ∧ t.(rt_key).(tk_relation) = r.

(** ** Types *)

Definition relation_of_type (r : RelationId) (o : ObjectRef) : Prop :=
  ∃ rel, relation model r = Ok rel ∧ type_name model rel.(cr_object_type) = Ok o.(object_type).

Definition node_of_type (n : NodeId) (o : ObjectRef) : Prop :=
  ∃ r rel, relation model r = Ok rel ∧ type_name model rel.(cr_object_type) = Ok o.(object_type) ∧
    in_rewrite (model_nodes model) rel.(cr_root) n.

Lemma root_of_type r rel o : relation model r = Ok rel → relation_of_type r o → node_of_type rel.(cr_root) o.
Proof. intros Hr (rel' & Hr' & Ht). rewrite Hr in Hr'. simplify_eq. exists r, rel'. split_and!; [done..|apply rtc_refl]. Qed.

Lemma child_of_type n nd c o : node model n = Ok nd → node_of_type n o → c ∈ node_children nd → node_of_type c o.
Proof.
  intros Hn%ok_or_ok (r & rel & Hr & Ht & Hin) Hc. exists r, rel. split_and!; [done..|].
  eapply rtc_r; [done|]. unfold successors. by rewrite Hn.
Qed.

Lemma local_of_type n nd r o : node model n = Ok nd → node_of_type n o → r ∈ local_relations nd → relation_of_type r o.
Proof.
  intros Hn%ok_or_ok (i & rel & Hi%ok_or_ok & Ht & Hin) Hr.
  destruct (typed_rewrites i rel n nd r Hi Hin Hn Hr) as (rel' & Hr' & Ho).
  exists rel'. split; [unfold relation; by rewrite Hr'|by rewrite Ho].
Qed.

Lemma relation_id_of_type ty name r o : relation_id model ty name = Ok r → o.(object_type) = ty → relation_of_type r o.
Proof. intros (rel & Hr & _ & Ht)%typed_relation_lookup <-. by exists rel. Qed.

(** ** Rows *)

Lemma required_exists r rel d id : relation model r = Ok rel → d ∈ rel.(cr_restrictions) →
  d.(dr_condition) = Required id → ∃ k, condition model id = Ok k.
Proof.
  intros Hr%ok_or_ok Hd E. destruct (typed_relations r rel Hr) as (_ & _ & _ & Hres).
  destruct (Hres d Hd) as (_ & _ & Hlt). destruct (lookup_lt_is_Some_2 _ _ (Hlt id E)) as [e He].
  exists (ce_condition e). unfold condition. by rewrite He.
Qed.

Lemma validates_matching t r rel :
  relation_id model t.(rt_key).(tk_object).(object_type) t.(rt_key).(tk_relation) = Ok r → relation model r = Ok rel →
  validate_relationship_tuple model t = Ok () ↔
  (∃ class, matching_restriction env t rel.(cr_restrictions) = Ok (Some class)) ∧ context_accepted env t.
Proof.
  intros Hid Hr. rewrite <-(validate_condition_matching env); [|intros; by eapply required_exists|apply typed_condition_lookup].
  unfold validate_relationship_tuple. rewrite Hid.
  pose proof Hid as (rel' & Hr' & _ & Hty%typed_type_lookup)%typed_relation_lookup. rewrite Hty.
  cbn [map_err mbind result_bind]. rewrite Hr. cbn [map_err mbind result_bind]. split.
  - intros (? & _ & Hv)%result_bind_ok. by apply result_bind_ok in Hv as (? & _ & Hv).
  - intros Hv. pose proof Hv as Hc. unfold validate_relationship_condition in Hc.
    apply result_bind_ok in Hc as (st & Hst%map_err_ok & Hc). rewrite Hst. cbn [map_err mbind result_bind].
    apply result_bind_ok in Hc as (class & Hclass & _). unfold relationship_direct_class in Hclass.
    destruct (tk_subject (rt_key t)); [done| |done].
    apply map_err_ok, result_fmap_ok in Hclass as (r' & _ & ->). exact Hv.
Qed.

(** The valid tuples of a relation on an object are the rows that match. *)
Lemma row_matching r rel o t : relation model r = Ok rel → type_name model rel.(cr_object_type) = Ok o.(object_type) →
  (row model tuples r t ∧ t.(rt_key).(tk_object) = o) ↔
  t ∈ rows_at env stored o rel.(cr_name) ∧
  (∃ class, matching_restriction env t rel.(cr_restrictions) = Ok (Some class)) ∧ context_accepted env t.
Proof.
  intros Hr Ht. rewrite Hrows.
  assert (Hid : t.(rt_key).(tk_object) = o → t.(rt_key).(tk_relation) = rel.(cr_name) →
    relation_id model t.(rt_key).(tk_object).(object_type) t.(rt_key).(tk_relation) = Ok r).
  { intros -> ->. apply typed_relation_lookup. by exists rel. }
  split.
  - intros [(rel' & Hr' & Ht' & Hn & Hin & Hv) Ho]. rewrite Hr in Hr'. simplify_eq.
    split; [done|]. by apply (validates_matching t r rel'); [apply Hid|..].
  - intros ((Hin & Ho & Hn) & Hm). split; [|done]. exists rel. split_and!; [done|by rewrite Ho|done..|].
    apply (validates_matching t r rel); auto.
Qed.

(** ** Operands *)

Lemma direct_operand_inv op s path rs t : op ∈ direct_operands env s path rs t → op ≠ OError →
  ∃ class, matching_restriction env t rs = Ok (Some class) ∧
    ((t.(rt_key).(tk_subject) = s ∨ wildcard_matches t.(rt_key).(tk_subject) s = true) ∨
     ∃ r u, class = DCUserset r ∧ t.(rt_key).(tk_subject) = SubjUserset u ∧
       op = OTask (TSemantic (mkSemanticKey u.(us_object) r s) path)).
Proof.
  unfold direct_operands. intros Hop Hne.
  destruct (matching_restriction _ _ _) as [[class|]|]; [|by apply not_elem_of_nil in Hop|by apply list_elem_of_singleton in Hop].
  exists class. split; [done|]. destruct class as [|r|].
  - case_bool_decide; [by auto|by apply not_elem_of_nil in Hop].
  - destruct (tk_subject (rt_key t)) as [|u|]; [by apply not_elem_of_nil in Hop| |by apply not_elem_of_nil in Hop].
    apply if_condition_elem in Hop as [[_ Hop]|]; [|done]. case_bool_decide; [by auto|].
    apply list_elem_of_singleton in Hop. right. by exists r, u.
  - case_match eqn:E; [|by apply not_elem_of_nil in Hop]. apply orb_true_iff in E. rewrite bool_decide_eq_true in E. auto.
Qed.

Lemma ttu_operand_inv op s path rs targets t : op ∈ ttu_operands env s path rs targets t → op ≠ OError →
  matching_restriction env t rs = Ok (Some DCObject) ∧
  ∃ o target, t.(rt_key).(tk_subject) = SubjObject o ∧ target ∈ targets ∧ relation_of_type target o ∧
    op = OTask (TSemantic (mkSemanticKey o target s) path).
Proof.
  unfold ttu_operands. intros Hop Hne.
  destruct (matching_restriction _ _ _) as [[[| |]|]|];
    [|by apply not_elem_of_nil in Hop..|by apply list_elem_of_singleton in Hop].
  split; [done|]. apply if_condition_elem in Hop as [[_ Hop]|]; [|done].
  destruct (tk_subject (rt_key t)) as [o| |]; [|by apply not_elem_of_nil in Hop..].
  apply list_elem_of_bind in Hop as (target & Hop & Htg). unfold target_operands in Hop.
  destruct (relation model target) as [rel|] eqn:Er; [|by apply list_elem_of_singleton in Hop].
  destruct (type_name model _) as [ty|] eqn:Et; [|by apply list_elem_of_singleton in Hop].
  case_bool_decide; [subst ty|by apply not_elem_of_nil in Hop]. apply list_elem_of_singleton in Hop.
  exists o, target. split_and!; [done..| |done]. by exists rel.
Qed.

(** ** Completeness: what a check allows is reached *)

Section complete.
Hypothesis Hcontexts : ∀ t, t ∈ tuples → context_accepted env t.
Variable s : SubjectRef.

Definition reached (t : Task) : Prop :=
  match t with
  | TSemantic k _ => k.(sk_subject) = s → relation_of_type k.(sk_relation) k.(sk_object) →
      reaches model tuples true s (RpRelation k.(sk_relation)) k.(sk_object)
  | TRewrite o n s' _ => s' = s → node_of_type n o → reaches model tuples true s (RpNode n) o
  end.
Definition op_reached (op : Operand) : Prop := match op with OTask t => reached t | _ => True end.

Lemma matched_row r rel o t class : relation model r = Ok rel → relation_of_type r o →
  t ∈ rows_at env stored o rel.(cr_name) → matching_restriction env t rel.(cr_restrictions) = Ok (Some class) →
  row model tuples r t ∧ t.(rt_key).(tk_object) = o.
Proof.
  intros Hr (rel' & Hr' & Ht) Hin Hm. rewrite Hr in Hr'. simplify_eq.
  apply (row_matching r rel' o t Hr Ht). split_and!; [done|eauto|]. apply Hcontexts. by apply Hrows in Hin as (? & _).
Qed.

Lemma direct_reached n r rel o path op t :
  node model n = Ok (NDirect r) → node_of_type n o → relation model r = Ok rel →
  t ∈ rows_at env stored o rel.(cr_name) → op ∈ direct_operands env s path rel.(cr_restrictions) t → op ≠ OError →
  op_reached op → reaches model tuples true s (RpNode n) o.
Proof.
  intros Hn Ht Hr Hin Hop Hne Hreach. apply (local_of_type n _ r o Hn) in Ht; [|by left].
  destruct (direct_operand_inv _ _ _ _ _ Hop Hne) as (class & Hm & Hs).
  destruct (matched_row r rel o t class) as [Hrow <-]; [done..|].
  destruct Hs as [Hs|(r' & u & -> & Hu & ->)]; [by eapply reaches_direct; [done..|by left|]|].
  apply matching_restriction_Some in Hm as (ty & d & _ & Hd & _ & Hk & u' & Hu' & Hid).
  rewrite Hu in Hu'. simplify_eq. destruct (dr_kind d) as [|r2|] eqn:Ek; try done.
  apply bool_decide_eq_true in Hk as ->. pose proof Hid as (trel & Htr & Hname & Htt)%typed_relation_lookup.
  eapply reaches_userset; [done..|by left|done|done|done|exact Htr|done|done|]. apply Hreach; [done|]. by exists trel.
Qed.

Lemma ttu_reached n ts c targets rel o path op t :
  node model n = Ok (NTupleToUserset ts c targets) → node_of_type n o → relation model ts = Ok rel →
  t ∈ rows_at env stored o rel.(cr_name) → op ∈ ttu_operands env s path rel.(cr_restrictions) targets t → op ≠ OError →
  op_reached op → reaches model tuples true s (RpNode n) o.
Proof.
  intros Hn Ht Hr Hin Hop Hne Hreach. apply (local_of_type n _ ts o Hn) in Ht; [|by left].
  destruct (ttu_operand_inv _ _ _ _ _ _ Hop Hne) as (Hm & x & target & Hs & Htg & Hty & ->).
  destruct (matched_row ts rel o t DCObject) as [Hrow <-]; [done..|].
  eapply reaches_ttu; [done..|by left|done|done|]. by apply Hreach.
Qed.

(** An allowed node has an allowed operand, the base of an exclusion. *)
Lemma combine_allowed kind r es d : combine kind r es = Ok d → d.(allowed) = true → es ≠ [] →
  (kind = RkDifference → length es = 2) →
  ∃ i d', es !! i = Some (Ok d') ∧ d'.(allowed) = true ∧ (kind = RkDifference → i = 0).
Proof.
  intros Hc Ha Hne Hl. destruct kind.
  - apply combine_single_ok in Hc as (d' & es' & -> & Hd'). exists 0, d'. split_and!; [done|congruence|done].
  - apply combine_union_ok in Hc as [(-> & i & d' & Hi & Hd')|(-> & _)]; [|done]. by exists i, d'.
  - apply combine_intersection_ok in Hc as [(-> & _)|(-> & Hall)]; [done|].
    destruct es as [|e es]; [done|]. destruct (Hall 0 e) as (d' & -> & Hd'); [done|]. by exists 0, d'.
  - destruct es as [|b [|sb [|]]]; try by specialize (Hl eq_refl).
    apply combine_difference_ok in Hc as [(-> & _)|(-> & Hb & _)]; [done|].
    destruct b as [d'|]; [|done]. by exists 0, d'.
Qed.

Lemma expand_reached t kind r ops i op : expand env stored t = XNode kind r ops → ops !! i = Some op →
  (kind = RkDifference → i = 0) → op ≠ OError → op_reached op → reached t.
Proof.
  intros Hx Hi Hdiff Hne Hop. pose proof (list_elem_of_lookup_2 _ _ _ Hi) as Hin. destruct t as [k path|o n s' path]; simpl in Hx.
  - repeat (case_match; try done). simplify_eq. apply list_elem_of_singleton in Hin as ->. simpl in *.
    intros Hs Hty. eapply reaches_relation; [done|]. apply Hop; [done|]. by eapply root_of_type.
  - destruct (node model n) as [nd|] eqn:En; [|done]. intros -> Hty.
    destruct nd as [rid|rid|ts c targets|cs|cs|b sub]; unfold read_expansion in Hx.
    + destruct (relation model rid) as [rel|] eqn:Er; [|done]. simplify_eq.
      apply list_elem_of_bind in Hin as (t & Hin & Ht). by eapply direct_reached.
    + simplify_eq. apply list_elem_of_singleton in Hin as ->. eapply reaches_computed; [done|].
      apply Hop; [done|]. eapply local_of_type; [done..|by left].
    + destruct (relation model ts) as [rel|] eqn:Er; [|done]. simplify_eq.
      apply list_elem_of_bind in Hin as (t & Hin & Ht). by eapply ttu_reached.
    + simplify_eq. apply list_elem_of_fmap in Hin as (c & -> & Hc). eapply reaches_union; [done..|].
      apply Hop; [done|]. by eapply child_of_type.
    + simplify_eq. apply list_elem_of_fmap in Hin as (c & -> & Hc). eapply reaches_intersection; [done..|].
      apply Hop; [done|]. by eapply child_of_type.
    + simplify_eq. rewrite Hdiff in Hi by done. simplify_eq/=. eapply reaches_difference; [done..|].
      apply Hop; [done|]. eapply child_of_type; [done..|by left].
Qed.

Lemma expand_intersection_nonempty t r : expand env stored t ≠ XNode RkIntersection r [].
Proof.
  destruct t as [k path|o n s' path]; simpl.
  - repeat case_match; done.
  - destruct (node model n) as [nd|] eqn:En; [|done]. unfold read_expansion.
    destruct nd as [rid|rid|ts c targets|cs|[|]|b sub]; try (repeat case_match; done).
    apply ok_or_ok, typed_nodes in En as (_ & _ & Hne). done.
Qed.

(** Some operand of an allowed task is allowed: the base of an exclusion. *)
Lemma allowed_operand t kind r ops es d : expand env stored t = XNode kind r ops → length es = length ops →
  combine kind r es = Ok d → d.(allowed) = true →
  ∃ i op d', es !! i = Some (Ok d') ∧ ops !! i = Some op ∧ d'.(allowed) = true ∧ (kind = RkDifference → i = 0).
Proof.
  intros Hx Hlen Hc Ha. destruct (combine_allowed kind r es d) as (i & d' & Hi & Hd' & Hdiff); [done..| | |].
  - intros ->. destruct ops; [|done]. destruct kind; [done| | |by apply expand_difference in Hx].
    + apply combine_union_ok in Hc as [(_ & [] & ? & [=] & _)|[-> _]]; done.
    + by apply expand_intersection_nonempty in Hx.
  - intros ->. rewrite Hlen. by apply expand_difference in Hx.
  - destruct (op_at ops es i _ Hlen Hi) as [op Hop]. by exists i, op, d'.
Qed.

Lemma decides_reached t d : Decides env stored t d → d.(allowed) = true → reached t.
Proof.
  revert t d. apply (Decides_mut env stored
    (fun t d => d.(allowed) = true → reached t) (fun op d => d.(allowed) = true → op ≠ OError ∧ op_reached op)).
  - intros t d Hx Ha. exfalso. unfold expand, read_expansion in Hx. repeat (case_match; try done); by simplify_eq.
  - intros t kind r ops es d Hx Hlen _ IH Hc Ha.
    destruct (allowed_operand t kind r ops es d) as (i & op & d' & Hi & Hop & Hd' & Hdiff); [done..|].
    destruct (IH i op d' Hop Hi Hd') as [Hne Hreach]. by eapply expand_reached.
  - done.
  - intros t d _ IH Ha. split; [done|]. by apply IH.
Qed.

Lemma allowed_reaches r o d : relation_of_type r o →
  Decides env stored (TSemantic (mkSemanticKey o r s) []) d → d.(allowed) = true →
  reaches model tuples true s (RpRelation r) o.
Proof. intros Hty Hd Ha. by apply (decides_reached _ _ Hd Ha). Qed.

(** Members are reached. *)
Lemma member_reached h : ∀ t, Membership.member env stored h (target_of t) → reached t.
Proof.
  induction h as [|h IH]; [done|].
  assert (Hop : ∀ op, op_member env stored h op → op ≠ OError ∧ op_reached op) by (intros [| |t] Hm; [done..|split; [done|by apply IH]]).
  intros [k path|o n s' path].
  - intros (rel & Hr & Hm) Hs Hty. eapply reaches_relation; [done|].
    apply (IH (TRewrite k.(sk_object) rel.(cr_root) k.(sk_subject) path) Hm Hs). by eapply root_of_type.
  - intros Hm -> Hty. cbn [target_of] in Hm. destruct (node model n) as [nd|] eqn:En; [|simpl in Hm; by rewrite En in Hm].
    destruct nd as [rid|rid|ts c targets|cs|cs|b sub].
    + pose proof Hm as Hrel. simpl in Hrel. rewrite En in Hrel. destruct Hrel as (rel & _ & Hr & _).
      apply (direct_operand_member env stored h o n s path rid rel En Hr) in Hm as (op & (t & Hin & Ht)%list_elem_of_bind & Hmem).
      destruct (Hop op Hmem). by eapply direct_reached.
    + simpl in Hm. rewrite En in Hm. eapply reaches_computed; [done|].
      apply (IH (TSemantic (mkSemanticKey o rid s) path) Hm); [done|]. eapply local_of_type; [done..|by left].
    + pose proof Hm as Hrel. simpl in Hrel. rewrite En in Hrel. destruct Hrel as (rel & _ & _ & _ & _ & Hr & _).
      apply (ttu_operand_member env stored h o n s path ts c targets rel En Hr) in Hm as (op & (t & Hin & Ht)%list_elem_of_bind & Hmem).
      destruct (Hop op Hmem). by eapply ttu_reached.
    + simpl in Hm. rewrite En in Hm. destruct Hm as (x & Hx & Hm). eapply reaches_union; [done..|].
      apply (IH (TRewrite o x s path) Hm); [done|]. by eapply child_of_type.
    + simpl in Hm. rewrite En in Hm. pose proof En as (_ & _ & Hne)%ok_or_ok%typed_nodes.
      destruct cs as [|x cs]; [done|]. eapply (reaches_intersection _ _ _ _ _ _ x); [done..|by left|].
      apply (IH (TRewrite o x s path)); [apply Hm; by left|done|]. eapply child_of_type; [done..|by left].
    + simpl in Hm. by rewrite En in Hm.
Qed.

Lemma member_reaches_subject h r o : relation_of_type r o →
  Membership.member env stored h (TgRelation (mkSemanticKey o r s)) → reaches model tuples true s (RpRelation r) o.
Proof. intros Hty Hm. by apply (member_reached h (TSemantic (mkSemanticKey o r s) [])). Qed.

End complete.

(** ** Objects have the type of their relation *)

Lemma reaches_typed b s p o : reaches model tuples b s p o →
  match p with
  | RpRelation r => relation_of_type r o
  | RpNode n => ∀ r rel, relation model r = Ok rel → in_rewrite (model_nodes model) rel.(cr_root) n →
      type_name model rel.(cr_object_type) = Ok o.(object_type)
  end.
Proof.
  assert (Hlocal : ∀ n nd r o i rel, node model n = Ok nd → r ∈ local_relations nd → relation_of_type r o →
    relation model i = Ok rel → in_rewrite (model_nodes model) rel.(cr_root) n →
    type_name model rel.(cr_object_type) = Ok o.(object_type)).
  { intros n nd r o' i rel Hn%ok_or_ok Hr (rel' & Hr'%ok_or_ok & Ht) Hi%ok_or_ok Hin.
    destruct (typed_rewrites i rel n nd r Hi Hin Hn Hr) as (rel2 & Hr2 & <-). by simplify_eq. }
  assert (Hchild : ∀ n nd c rel, node model n = Ok nd → c ∈ node_children nd →
    in_rewrite (model_nodes model) rel.(cr_root) n → in_rewrite (model_nodes model) rel.(cr_root) c).
  { intros n nd c rel Hn%ok_or_ok Hc Hin. eapply rtc_r; [done|]. unfold successors. by rewrite Hn. }
  assert (Hrow : ∀ r t, row model tuples r t → relation_of_type r t.(rt_key).(tk_object)).
  { intros r t (rel & Hr & Ht & _). by exists rel. }
  induction 1 as [r rel o Hr _ IH|n r t Hn Ht _ _|n r rel d target trel t u Hn Ht _ _ _ _ _ _ _ _ _|n r o Hn _ IH
    |n ts c targets target t o Hn Ht _ _ _ _ _|n cs c o Hn Hc _ IH|n cs c o Hn _ Hc _ IH|n bs sub o Hn _ _ IH].
  - exists rel. split; [done|]. eapply IH; [done|apply rtc_refl].
  - intros i rel. eapply Hlocal; [done|by left|by apply Hrow].
  - intros i rel'. eapply Hlocal; [done|by left|by apply Hrow].
  - intros i rel. eapply Hlocal; [done|by left|done].
  - intros i rel. eapply Hlocal; [done|by left|by apply Hrow].
  - intros i rel Hi Hin. eapply IH; [done|]. by eapply Hchild.
  - intros i rel Hi Hin. eapply IH; [done|]. by eapply Hchild.
  - intros i rel Hi Hin. eapply IH; [done|]. eapply Hchild; [done|by left|done].
Qed.

(** ** Soundness: what is reached without a condition or operator, a check allows *)

Section sound.
Context `{!GraphLaws model}.
Variable s : SubjectRef.

(** A certain derivation with the relations it passes. *)
Inductive certain : list SemanticKey → ReachPoint → ObjectRef → Prop :=
| certain_relation l r rel o :
    relation model r = Ok rel → certain l (RpNode rel.(cr_root)) o → certain (mkSemanticKey o r s :: l) (RpRelation r) o
| certain_direct n r t :
    node model n = Ok (NDirect r) → row model tuples r t → is_conditional t = false →
    t.(rt_key).(tk_subject) = s ∨ wildcard_matches t.(rt_key).(tk_subject) s = true →
    certain [] (RpNode n) t.(rt_key).(tk_object)
| certain_userset l n r t u target :
    node model n = Ok (NDirect r) → row model tuples r t → is_conditional t = false →
    t.(rt_key).(tk_subject) = SubjUserset u →
    relation_id model u.(us_object).(object_type) u.(us_relation) = Ok target →
    certain l (RpRelation target) u.(us_object) → certain l (RpNode n) t.(rt_key).(tk_object)
| certain_computed l n r o :
    node model n = Ok (NComputed r) → certain l (RpRelation r) o → certain l (RpNode n) o
| certain_ttu l n ts c targets target t o :
    node model n = Ok (NTupleToUserset ts c targets) → row model tuples ts t → is_conditional t = false →
    target ∈ targets → t.(rt_key).(tk_subject) = SubjObject o → relation_of_type target o →
    certain l (RpRelation target) o → certain l (RpNode n) t.(rt_key).(tk_object)
| certain_union l n cs c o :
    node model n = Ok (NUnion cs) → c ∈ cs → certain l (RpNode c) o → certain l (RpNode n) o.

Lemma reaches_certain p o : reaches model tuples false s p o → ∃ l, certain l p o.
Proof.
  induction 1 as [r rel o Hr _ [l IH]|n r t Hn Ht Hc Hs|n r rel d target trel t u Hn Ht Hc Hr Hd Hk Htr Hu Hnm Hreach [l IH]
    |n r o Hn _ [l IH]|n ts c targets target t o Hn Ht Hc Htg Hs Hreach [l IH]|n cs c o Hn Hc _ [l IH]|n cs c o Hn Hb _ _ _
    |n bs sub o Hn Hb _ _]; try done.
  - eexists. by econstructor.
  - exists []. eapply certain_direct; [done..| |done]. by destruct Hc.
  - exists l. eapply certain_userset; [done..| | | |done]; [by destruct Hc|done|].
    apply reaches_typed in Hreach as (trel' & Htr' & Hty). rewrite Htr in Htr'. simplify_eq.
    apply typed_relation_lookup. by exists trel'.
  - exists l. by econstructor.
  - exists l. eapply certain_ttu; [done..| |done|done| |done]; [by destruct Hc|]. by apply reaches_typed in Hreach.
  - exists l. by eapply certain_union.
Qed.

(** *** No relation twice *)

Lemma certain_suffix l p o k : certain l p o → k ∈ l →
  ∃ l', certain l' (RpRelation k.(sk_relation)) k.(sk_object) ∧ l' `suffix_of` l.
Proof.
  induction 1 as [l r rel o Hr Hl IH|n r t|l n r t u target Hn Ht Hc Hs Hid Hl IH|l n r o Hn Hl IH
    |l n ts c targets target t o Hn Ht Hc Htg Hs Hty Hl IH|l n cs c o Hn Hc Hl IH]; auto.
  - intros [->|Hk]%elem_of_cons; [exists (mkSemanticKey o r s :: l); split; [by econstructor|done]|].
    destruct (IH Hk) as (l' & ? & ?). exists l'. split; [done|]. by apply suffix_cons_r.
  - by intros []%not_elem_of_nil.
Qed.

Lemma certain_shorten l p o : certain l p o → ∃ l', NoDup l' ∧ certain l' p o.
Proof.
  induction 1 as [l r rel o Hr Hl (l' & Hnd & IH)|n r t|l n r t u target Hn Ht Hc Hs Hid Hl (l' & Hnd & IH)
    |l n r o Hn Hl (l' & Hnd & IH)|l n ts c targets target t o Hn Ht Hc Htg Hs Hty Hl (l' & Hnd & IH)
    |l n cs c o Hn Hc Hl (l' & Hnd & IH)].
  - destruct (decide (mkSemanticKey o r s ∈ l')) as [Hin|Hni].
    + destruct (certain_suffix _ _ _ _ IH Hin) as (l2 & Hl2 & l1 & ->). exists l2. split; [|done].
      by apply NoDup_app in Hnd as (_ & _ & ?).
    + exists (mkSemanticKey o r s :: l'). split; [by constructor|by econstructor].
  - exists []. split; [constructor|by econstructor].
  - exists l'. split; [done|by econstructor].
  - exists l'. split; [done|by econstructor].
  - exists l'. split; [done|by econstructor].
  - exists l'. split; [done|by econstructor].
Qed.

(** *** The metadata reaches the subject *)

Lemma row_class r rel t : relation model r = Ok rel → row model tuples r t →
  t ∈ rows_at env stored t.(rt_key).(tk_object) rel.(cr_name) ∧
  ∃ class, matching_restriction env t rel.(cr_restrictions) = Ok (Some class).
Proof.
  intros Hr Ht. pose proof Ht as (rel' & Hr' & Hty & _). rewrite Hr in Hr'. simplify_eq.
  destruct (proj1 (row_matching r rel' _ t Hr Hty)) as (? & ? & _); done.
Qed.

Lemma row_relation r t : row model tuples r t → ∃ rel, relation model r = Ok rel.
Proof. intros (rel & Hr & _). eauto. Qed.

Lemma certain_subject l p o : certain l p o → ∃ st, type_id model (subject_type s) = Ok st.
Proof.
  induction 1 as [| n r t Hn Ht Hc Hs| | | |]; try done.
  destruct (row_relation _ _ Ht) as [rel Hr]. destruct (row_class r rel t Hr Ht) as (_ & class & Hm).
  apply matching_restriction_Some in Hm as (ty & d & Hty & _). destruct Hs as [<-|Hs]; [eauto|].
  destruct (tk_subject (rt_key t)), s; try done. apply bool_decide_eq_true in Hs as ->. eauto.
Qed.

Lemma matching_userset t u rs class target : matching_restriction env t rs = Ok (Some class) →
  t.(rt_key).(tk_subject) = SubjUserset u →
  relation_id model u.(us_object).(object_type) u.(us_relation) = Ok target → class = DCUserset target.
Proof.
  intros Hm Hu Hid. apply matching_restriction_Some in Hm as (ty & d & _ & _ & _ & _ & Hc).
  destruct class; destruct Hc as (? & Hc); rewrite Hu in Hc; try done.
  destruct Hc as [[= <-] Hc]. rewrite Hid in Hc. by simplify_eq.
Qed.

Lemma certain_reachable l p o : certain l p o →
  match p with
  | RpRelation r => Membership.reaches env r s
  | RpNode n => ∀ r rel, relation model r = Ok rel → in_rewrite (model_nodes model) rel.(cr_root) n →
      Membership.reaches env r s
  end.
Proof.
  assert (Hfact : ∀ n nd r rel, node model n = Ok nd → relation model r = Ok rel →
    in_rewrite (model_nodes model) rel.(cr_root) n → ∀ (fact : RewriteNode → nat → Prop) x, fact nd x →
      relation_fact (model_nodes model) (model_relations model) fact r x).
  { intros n nd r rel Hn%ok_or_ok Hr%ok_or_ok Hin fact x Hf. exists rel.
    split; [by eapply list_elem_of_lookup_2|]. split; [by apply graph_indexed|]. by exists n, nd. }
  induction 1 as [l r rel o Hr Hl IH|n r t Hn Ht Hc Hs|l n r t u target Hn Ht Hc Hu Hid Hl IH|l n r o Hn Hl IH
    |l n ts c targets target t o Hn Ht Hc Htg Hs Hty Hl IH|l n cs c o Hn Hc Hl IH].
  - eapply IH; [done|apply rtc_refl].
  - intros i rel Hi Hin. destruct (row_relation _ _ Ht) as [orel Hr]. destruct (row_class r orel t Hr Ht) as (_ & class & Hm).
    eapply (direct_reaches env i _ r orel t class s); [done|by apply ok_or_ok in Hr|by eapply Hfact|done|].
    apply matching_restriction_Some in Hm as (ty & d & _ & _ & _ & _ & Hf).
    destruct class; [|destruct Hf as (u & Hu & _)|done]; (destruct Hs as [Hs|Hs]; [auto|]); [|by rewrite Hu in Hs].
    destruct Hf as [x Hx]. by rewrite Hx in Hs.
  - intros i rel Hi Hin. destruct (row_relation _ _ Ht) as [orel Hr]. destruct (row_class r orel t Hr Ht) as (_ & class & Hm).
    assert (class = DCUserset target) as -> by (by eapply matching_userset).
    eapply (direct_reaches env i _ r orel t _ s); [done|by apply ok_or_ok in Hr|by eapply Hfact|done|by right].
  - intros i rel Hi Hin. eapply (reaches_depends env i r); [|done]. eapply (Hfact n _ i rel); [done..|constructor].
  - intros i rel Hi Hin. eapply (reaches_depends env i target); [|done]. eapply (Hfact n _ i rel); [done..|by constructor].
  - intros i rel Hi Hin. eapply IH; [done|]. eapply rtc_r; [done|]. unfold successors.
    apply ok_or_ok in Hn. by rewrite Hn.
Qed.

(** *** A derivation is a decision *)

Definition point_task (p : ReachPoint) (o : ObjectRef) (path : BTreeSet SemanticKey) : Task :=
  match p with
  | RpRelation r => TSemantic (mkSemanticKey o r s) path
  | RpNode n => TRewrite o n s path
  end.

Lemma decides_operand t kind r ops op d : expand env stored t = XNode kind r ops → kind = RkUnion ∨ ops = [op] ∧ kind = RkSingle →
  op ∈ ops → OpDecides env stored op d → d.(allowed) = true → ∃ d', Decides env stored t d' ∧ d'.(allowed) = true.
Proof.
  intros Hx Hk Hin Hd Ha. destruct Hk as [->|[-> ->]].
  - eexists. split; [eapply Decides_forced; [done|by eapply forced_union_allow]|done].
  - exists (match r with Some res => allow res | None => d end). split; [|by destruct r].
    eapply Decides_forced; [done|]. exists [Ok d]. split_and!; [done| |simpl; rewrite Ha; by destruct r].
    intros [|i] op' d'; simpl; [by intros [= <-] [= <-]|done].
Qed.

Lemma certain_condition t ops : is_conditional t = false → if_condition env t ops = ops.
Proof.
  intros Hc. apply if_condition_true. unfold is_conditional in Hc. unfold condition_holds. by destruct (rt_condition t).
Qed.

Lemma certain_decides l p o : certain l p o → NoDup l → ∀ path, (∀ k, k ∈ l → k ∉ path) →
  ∃ d, Decides env stored (point_task p o path) d ∧ d.(allowed) = true.
Proof.
  induction 1 as [l r rel o Hr Hl IH|n r t Hn Ht Hc Hs|l n r t u target Hn Ht Hc Hu Hid Hl IH|l n r o Hn Hl IH
    |l n ts c targets target t o Hn Ht Hc Htg Hs Hty Hl IH|l n cs c o Hn Hc Hl IH]; intros Hnd path Hpath; simpl.
  - apply NoDup_cons in Hnd as [Hni Hnd].
    destruct (IH Hnd (bs_insert (mkSemanticKey o r s) path)) as (d & Hd & Ha).
    { intros k Hk [->|Hin]%bs_insert_elem; [done|]. apply (Hpath k); [by right|done]. }
    destruct (certain_subject _ _ _ Hl) as [st Hst].
    assert (Hreach : reachable env r s st = true).
    { apply (certain_reachable (mkSemanticKey o r s :: l) (RpRelation r) o); [by econstructor|done]. }
    eapply (decides_operand _ RkSingle None
      [OTask (TRewrite o rel.(cr_root) s (bs_insert (mkSemanticKey o r s) path))]); [|by right|by left|by constructor|done].
    simpl. rewrite (proj2 (bs_contains_false _ _)) by (apply Hpath; by left). by rewrite Hst, Hreach, Hr.
  - destruct (row_relation _ _ Ht) as [rel Hr]. destruct (row_class r rel t Hr Ht) as (Hin & class & Hm).
    eapply (decides_operand _ _ _ _ OAllow);
      [simpl; rewrite Hn; unfold read_expansion; by rewrite Hr|by left| |constructor|done].
    apply list_elem_of_bind. exists t. split; [|done]. unfold direct_operands. rewrite Hm.
    pose proof Hm as (ty & d' & _ & _ & _ & _ & Hf)%matching_restriction_Some. destruct class as [|r'|].
    + destruct Hf as [x Hx]. destruct Hs as [Hs|Hs]; [|by rewrite Hx in Hs].
      rewrite bool_decide_true, certain_condition by done. by left.
    + destruct Hf as (u & Hu & _). destruct Hs as [Hs|Hs]; [|by rewrite Hu in Hs].
      rewrite Hu in Hs |- *. rewrite certain_condition, bool_decide_true by done. by left.
    + rewrite (proj2 (orb_true_iff _ _)), certain_condition by (by rewrite ?bool_decide_eq_true). by left.
  - destruct (row_relation _ _ Ht) as [rel Hr]. destruct (row_class r rel t Hr Ht) as (Hin & class & Hm).
    assert (class = DCUserset target) as -> by (by eapply matching_userset).
    destruct (IH Hnd path Hpath) as (d & Hd & Ha). simpl in Hd.
    eassert (Hx : expand env stored (TRewrite _ n s path) = _)
      by (simpl; rewrite Hn; unfold read_expansion; by rewrite Hr).
    destruct (decide (t.(rt_key).(tk_subject) = s)) as [Hs|Hs].
    + eapply (decides_operand _ _ _ _ OAllow); [exact Hx|by left| |constructor|done].
      apply list_elem_of_bind. exists t. split; [|done]. unfold direct_operands. rewrite Hm.
      rewrite Hu in Hs |- *. rewrite certain_condition, bool_decide_true by done. by left.
    + eapply (decides_operand _ _ _ _ (OTask (TSemantic (mkSemanticKey (us_object u) target s) path)));
        [exact Hx|by left| |by constructor|done].
      apply list_elem_of_bind. exists t. split; [|done]. unfold direct_operands. rewrite Hm.
      rewrite Hu in Hs |- *. rewrite certain_condition, bool_decide_false by done. by left.
  - destruct (IH Hnd path Hpath) as (d & Hd & Ha).
    eapply (decides_operand _ _ _ _ (OTask (TSemantic (mkSemanticKey o r s) path))); [simpl; by rewrite Hn|by right|by left|by constructor|done].
  - destruct (IH Hnd path Hpath) as (d & Hd & Ha). destruct (row_relation _ _ Ht) as [rel Hr].
    destruct (row_class ts rel t Hr Ht) as (Hin & class & Hm).
    eapply (decides_operand _ _ _ _ (OTask (TSemantic (mkSemanticKey o target s) path)));
      [simpl; rewrite Hn; unfold read_expansion; by rewrite Hr|by left| |by constructor|done].
    apply list_elem_of_bind. exists t. split; [|done]. unfold ttu_operands.
    pose proof Hm as (ty & d' & _ & _ & _ & _ & Hf)%matching_restriction_Some.
    destruct class; [|destruct Hf as (? & Hf & _); by rewrite Hs in Hf|destruct Hf as (? & Hf); by rewrite Hs in Hf].
    rewrite Hm, certain_condition, Hs by done. apply list_elem_of_bind. exists target. split; [|done].
    destruct Hty as (trel & Htr & Htt). unfold target_operands. rewrite Htr, Htt, bool_decide_true by done. by left.
  - destruct (IH Hnd path Hpath) as (d & Hd & Ha).
    eapply (decides_operand _ _ _ _ (OTask (TRewrite o c s path))); [simpl; by rewrite Hn|by left| |by constructor|done].
    apply list_elem_of_fmap. by exists c.
Qed.

Lemma certain_allowed r o : reaches model tuples false s (RpRelation r) o →
  ∃ d, Decides env stored (TSemantic (mkSemanticKey o r s) []) d ∧ d.(allowed) = true.
Proof.
  intros (l & Hl)%reaches_certain. destruct (certain_shorten _ _ _ Hl) as (l' & Hnd & Hl').
  apply (certain_decides _ _ _ Hl' Hnd []). by intros k _ []%not_elem_of_nil.
Qed.

End sound.

End enumeration.

(** ** The tuples of a query

    What every enumeration engine relies on about its query: the rows a check
    with the same query would see, and the contexts of its tuples. *)

Section query.
Context `{ConditionEngine}.
Variable q : QueryContext.
Variable m : CompiledModel.
Variable table : list RelationshipTuple.

Abbreviation env := (query_env q m).
Abbreviation tuples := (q.(qc_contextual_tuples) ++ table).

(** The stored contexts are accepted by the conditions they are for. *)
Definition contexts_current : Prop := ∀ t, t ∈ table → context_accepted env t.

(** The rows a check sees are the contextual and the stored tuples. *)
Lemma query_rows o r t : NoDup (rt_key <$> q.(qc_contextual_tuples)) →
  t ∈ rows_at env (table_rows table) o r ↔
  t ∈ tuples ∧ t.(rt_key).(tk_object) = o ∧ t.(rt_key).(tk_relation) = r.
Proof.
  intros Hnd. unfold rows_at. simpl. rewrite elem_of_app, contextual_index_rows by (done || constructor).
  unfold table_rows. rewrite list_elem_of_filter, elem_of_app. simpl. pose proof (elem_of_nil t).
  pose proof (not_elem_of_nil t.(rt_key)). naive_solver.
Qed.

Context `{!TypedModel m}.

Lemma object_relation ty name r o :
  relation_id m ty name = Ok r → relation_of_type env r o ↔ o.(object_type) = ty.
Proof.
  intros Hr. split.
  - intros (rel & Hrel & Ht). apply typed_relation_lookup in Hr as (rel' & Hrel' & _ & Ht'). simpl in *.
    rewrite Hrel in Hrel'. simplify_eq. rewrite Ht in Ht'. by simplify_eq.
  - intros <-. by eapply relation_id_of_type.
Qed.

Lemma contextual_validated t : validate_contextual q m = Ok () → t ∈ q.(qc_contextual_tuples) →
  validate_relationship_tuple m t = Ok ().
Proof. intros Hctx Ht. by pose proof (proj1 (try_each_ok _ _) Hctx t Ht) as Hv%map_err_ok. Qed.

(** Validated contextual tuples have accepted contexts. *)
Lemma query_contexts : contexts_current → validate_contextual q m = Ok () → ∀ t, t ∈ tuples → context_accepted env t.
Proof.
  intros Hcurrent Hctx t [Ht|Ht]%elem_of_app; [|by apply Hcurrent].
  pose proof (contextual_validated t Hctx Ht) as Hv.
  pose proof Hv as Hv'. unfold validate_relationship_tuple in Hv'. apply result_bind_ok in Hv' as (? & _ & Hv').
  apply result_bind_ok in Hv' as (r & Hr%map_err_ok & Hv'). apply result_bind_ok in Hv' as (rel & Hrel%map_err_ok & _).
  by apply (validates_matching env t r rel Hr Hrel) in Hv as [_ ?].
Qed.

(** ** Forward reads *)

(** The rows of a relation on an object that the model accepts. *)
Definition valid_rows (o : ObjectRef) (r : RelationId) (rows : list RelationshipTuple) : Prop :=
  ∃ rel, relation m r = Ok rel ∧
    ∀ t, t ∈ rows ↔ t ∈ rows_at env (table_rows table) o rel.(cr_name) ∧ validate_relationship_tuple m t = Ok ().

Hypothesis Hkeys : NoDup (rt_key <$> q.(qc_contextual_tuples)).
Hypothesis Hctx : validate_contextual q m = Ok ().

Lemma read_rows w limits maximum_per_read o r rel filter tk stream rows :
  forward_snapshot (lw_forward w) q.(qc_store_id) table →
  relation m r = Ok rel → object_relation_filter_new o rel.(cr_name) [] CFAny limits = Ok filter →
  lw_forward w tk q.(qc_store_id) filter maximum_per_read = Ok stream → stream_items stream = Ok <$> rows →
  valid_rows o r
    (base.filter (fun t => is_ok (validate_relationship_tuple m t) = true) rows ++
     base.filter (fun t => t.(rt_key).(tk_object) = o ∧ t.(rt_key).(tk_relation) = rel.(cr_name)) q.(qc_contextual_tuples)).
Proof.
  intros Hsnap Hr Hf Hread Hrows. exists rel. split; [done|]. intros t.
  unfold object_relation_filter_new in Hf. case_match; [done|]. injection Hf as <-.
  assert (Hok : is_ok (validate_relationship_tuple m t) = true ↔ validate_relationship_tuple m t = Ok ())
    by (destruct (validate_relationship_tuple m t) as [[]|]; naive_solver).
  rewrite elem_of_app, !list_elem_of_filter, Hok, (Hsnap _ _ _ _ _ Hread Hrows eq_refl eq_refl), query_rows by done.
  simpl. unfold table_rows. rewrite list_elem_of_filter, elem_of_app.
  pose proof (contextual_validated t Hctx). naive_solver.
Qed.

(** With current contexts, a valid row is one that matches a restriction. *)
Lemma valid_row_class o r rel t : contexts_current → relation m r = Ok rel → relation_of_type env r o →
  t ∈ rows_at env (table_rows table) o rel.(cr_name) →
  validate_relationship_tuple m t = Ok () ↔ ∃ class, matching_restriction env t rel.(cr_restrictions) = Ok (Some class).
Proof.
  intros Hcurrent Hr (rel' & Hr' & Ht) Hin. simpl in Hr'. rewrite Hr in Hr'. simplify_eq.
  pose proof Hin as (Hin' & Ho & Hn)%query_rows; [|done].
  rewrite (validates_matching env t r rel'); [|apply typed_relation_lookup; exists rel'; by rewrite Ho|done].
  pose proof (query_contexts Hcurrent Hctx t Hin'). naive_solver.
Qed.

End query.
