(* ===== verification/ListObjects.v ===== *)
(** * Listing the objects a subject has a relation to

    [crates/openfga-list/src/list_objects.rs]: the candidates of the reverse
    traversal, those that need it decided by residual checks that run
    concurrently, emitted to a sink as they are decided; the unary and the
    streamed engine. *)

From S2P Require Import Prelude Ordered Identifier Reference Condition Storage Model TupleValidation Budget.
From S2P Require Import Reducer Scheduler Evaluator ListCommon Candidates.

(** ** Outcomes *)

Record ListObjectsMetadata := mkListObjectsMetadata {
  lom_candidate : CandidateMetadata;
  lom_residual_checks : N;
  lom_results : N;
}.
Record ListObjectsOutcome := mkListObjectsOutcome {
  loo_objects : list ObjectRef;
  loo_metadata : ListObjectsMetadata;
}.

(** ** The outside

    What the [select!] over the running checks observes, whether the consumer
    of a stream takes an item, and the world each residual check runs in. *)

Record ResidualWorld := mkResidualWorld {
  rw_select : nat → SelectEvent;
  rw_send : nat → bool;
  rw_check : nat → World;
}.

(** ** Sinks *)

Class ObjectSink (S : Type) := {
  sink_send : ResidualWorld → nat → ObjectRef → S → bool * S;
}.

(** [VecSink] *)
Definition VecSink : Type := list ObjectRef.
#[export] Instance vec_sink : ObjectSink VecSink := {|
  sink_send := fun _ _ object objects => (true, objects ++ [object]);
|}.

(** [ChannelSink]: the items sent so far; a cancelled or closed channel takes none. *)
Record ChannelSink := mkChannelSink { ch_items : list (result ListError ObjectRef) }.
#[export] Instance channel_sink : ObjectSink ChannelSink := {|
  sink_send := fun w t object sink =>
    if rw_send w t then (true, mkChannelSink (sink.(ch_items) ++ [Ok object])) else (false, sink);
|}.

(** ** Residual checks *)

(** The variables of [process_candidates]: a running check is the object and
    the number it was started with. *)
Record Residual (S : Type) := mkResidual {
  rs_candidates : list Candidate;
  rs_checks : list (ObjectRef * N);
  rs_residual_checks : N;
  rs_results : N;
  rs_sink : S;
}.
Arguments mkResidual {S}.
Arguments rs_candidates {S}.
Arguments rs_checks {S}.
Arguments rs_residual_checks {S}.
Arguments rs_results {S}.
Arguments rs_sink {S}.

Section residual.
Context `{ConditionEngine, !CheckEvaluator} {S : Type} `{!ObjectSink S}.
Variable command : ListObjectsCommand.
Variable m : CompiledModel.
Variable budget : ListObjectsBudget.
Variable w : ResidualWorld.
Variable candidate_metadata : CandidateMetadata.

Definition set_candidates (l : list Candidate) (s : Residual S) : Residual S :=
  mkResidual l s.(rs_checks) s.(rs_residual_checks) s.(rs_results) s.(rs_sink).

Definition residual_metadata (s : Residual S) : ListObjectsMetadata :=
  mkListObjectsMetadata candidate_metadata s.(rs_residual_checks) s.(rs_results).

(** [emit] *)
Definition emit (t : nat) (object : ObjectRef) (s : Residual S) : bool * Residual S :=
  let '(sent, sink) := sink_send w t object s.(rs_sink) in
  (sent, mkResidual s.(rs_candidates) s.(rs_checks) s.(rs_residual_checks)
           (if sent then saturating_add U32_MAX s.(rs_results) 1 else s.(rs_results)) sink).

(** An emission ends the query when the sink is closed or full. *)
Definition emit_ends (t : nat) (object : ObjectRef) (s : Residual S) : bool * Residual S :=
  let '(sent, s) := emit t object s in
  (negb sent || (command.(loc_maximum_results) <=? s.(rs_results))%N, s).

(** [spawn_check]: the check starts with the number of checks before it. *)
Definition spawn_check (object : ObjectRef) (number : N) (s : Residual S) : Residual S :=
  mkResidual s.(rs_candidates) (s.(rs_checks) ++ [(object, s.(rs_residual_checks))]) number s.(rs_results)
    s.(rs_sink).

(** The command of a residual check and its outcome. *)
Definition residual_command (object : ObjectRef) : CheckCommand :=
  mkCheckCommand command.(loc_query) (mkTupleKey object command.(loc_relation) command.(loc_subject)).
Definition residual_outcome (check : ObjectRef * N) : result Fault CheckOutcome :=
  evaluator_check (residual_command check.1) m budget.(lob_check) (Some (residual_work_meter budget))
    (rw_check w (N.to_nat check.2)).

(** The inner loop: certain candidates are emitted, the others started, until
    the concurrency is used up.  [Some] is a return of [process_candidates]. *)
Fixpoint fill (candidates : list Candidate) (t : nat) (s : Residual S) :
    nat * Residual S * option (result ListError ListObjectsMetadata) :=
  if negb (len s.(rs_checks) <? budget.(lob_residual_concurrency))%N then (t, set_candidates candidates s, None)
  else
    match candidates with
    | [] => (t, set_candidates [] s, None)
    | c :: rest =>
        if negb c.(cand_requires_check) then
          let '(ends, s) := emit_ends t c.(cand_object) s in
          if ends then (Datatypes.S t, set_candidates rest s, Some (Ok (residual_metadata s)))
          else fill rest (Datatypes.S t) s
        else
          match checked_add U32_MAX s.(rs_residual_checks) 1 with
          | None => (t, set_candidates rest s, Some (Err (list_internal "list_residual_check_count_overflow")))
          | Some number => fill rest t (spawn_check c.(cand_object) number s)
          end
    end.

(** [JoinSet::join_next] removes one of the running tasks. *)
Definition join_next {A} (i : nat) (tasks : list A) : option (A * list A) :=
  let i := i mod length tasks in
  (fun x => (x, delete i tasks)) <$> tasks !! i.

Fixpoint process_loop (fuel : nat) (t : nat) (s : Residual S) : Residual S * result ListFault ListObjectsMetadata :=
  match fuel with
  | 0 => (s, Err LFuel)
  | Datatypes.S fuel =>
      if bool_decide (s.(rs_candidates) = []) && bool_decide (s.(rs_checks) = [])
      then (s, Ok (residual_metadata s))
      else
        match fill s.(rs_candidates) t s with
        | (_, s, Some returned) => (s, map_err LFail returned)
        | (t, s, None) =>
            match s.(rs_checks) with
            | [] => process_loop fuel t s
            | _ =>
                match rw_select w t with
                | SelCancelled => (s, Err (LFail (list_error LCancelled "list_objects_cancelled")))
                | SelDeadline => (s, Err (LFail (list_error LTimeout "list_objects_deadline_elapsed")))
                | SelPanicked _ => (s, Err (LFail (list_internal "list_residual_check_task_failed")))
                | SelJoined i =>
                    match join_next i s.(rs_checks) with
                    | None => process_loop fuel (Datatypes.S t) s
                    | Some (check, checks) =>
                        let s := mkResidual s.(rs_candidates) checks s.(rs_residual_checks) s.(rs_results)
                                   s.(rs_sink) in
                        match residual_outcome check with
                        | Err (Fail e) => (s, Err (LFail (list_check_error e)))
                        | Err OutOfFuel => (s, Err LFuel)
                        | Ok outcome =>
                            if outcome.(co_allowed) then
                              let '(ends, s) := emit_ends (Datatypes.S t) check.1 s in
                              if ends then (s, Ok (residual_metadata s))
                              else process_loop fuel (Datatypes.S (Datatypes.S t)) s
                            else process_loop fuel (Datatypes.S t) s
                        end
                    end
                end
            end
        end
  end.

(** [process_candidates]: every round starts, joins or ends. *)
Definition process_candidates (candidates : list Candidate) (sink : S) :
    Residual S * result ListFault ListObjectsMetadata :=
  process_loop (2 * length candidates + 2) 0 (mkResidual candidates [] 0 0 sink).

End residual.

(** ** Engines *)

Section engines.
Context `{ConditionEngine, !CheckEvaluator}.
Variable limits : InputLimits.

(** [DirectListObjectsEngine::list_objects] *)
Definition list_objects (command : ListObjectsCommand) (m : CompiledModel) (budget : ListObjectsBudget)
    (lw : ListWorld) (w : ResidualWorld) : result ListFault ListObjectsOutcome :=
  set ← traverse command m budget.(lob_candidate) limits lw;
  let '(s, returned) :=
    process_candidates command m budget w set.(cs_metadata) set.(cs_candidates) ([] : VecSink) in
  mkListObjectsOutcome s.(rs_sink) <$> returned.

(** [DirectListObjectsEngine::streamed_list_objects]: the items its producer
    sends; a failure of the residual checks is the last item. *)
Definition streamed_list_objects (command : ListObjectsCommand) (m : CompiledModel) (budget : ListObjectsBudget)
    (lw : ListWorld) (w : ResidualWorld) : result ListFault (list (result ListError ObjectRef)) :=
  set ← traverse command m budget.(lob_candidate) limits lw;
  let '(s, returned) :=
    process_candidates command m budget w set.(cs_metadata) set.(cs_candidates) (mkChannelSink []) in
  match returned with
  | Ok _ => Ok s.(rs_sink).(ch_items)
  | Err (LFail e) => Ok (s.(rs_sink).(ch_items) ++ [Err e])
  | Err LFuel => Err LFuel
  end.

End engines.

(** ** The stream *)

Inductive Poll (A : Type) := PollReady (a : A) | PollPending.
Arguments PollReady {A}.
Arguments PollPending {A}.

(** The state of the producer task, when it is still held. *)
Inductive TaskPoll := TaskRunning | TaskFinished | TaskPanicked.

Record ListObjectsStream := mkListObjectsStream {
  los_buffer : list (result ListError ObjectRef);
  los_closed : bool;
  los_task : option TaskPoll;
}.

(** [ListObjectsStream::poll_next] with [Receiver::poll_recv] *)
Definition poll_next (s : ListObjectsStream) : ListObjectsStream * Poll (option (result ListError ObjectRef)) :=
  match s.(los_buffer) with
  | item :: buffer => (mkListObjectsStream buffer s.(los_closed) s.(los_task), PollReady (Some item))
  | [] =>
      if negb s.(los_closed) then (s, PollPending)
      else match s.(los_task) with
           | None => (s, PollReady None)
           | Some TaskRunning => (s, PollPending)
           | Some TaskPanicked =>
               (mkListObjectsStream [] true None, PollReady (Some (Err (list_internal "list_stream_task_failed"))))
           | Some TaskFinished => (mkListObjectsStream [] true None, PollReady None)
           end
  end.
