(* ===== verification/ListObjectsTheory.v ===== *)
(** * Residual checks decide the candidates

    The loop of [process_candidates] against the outcomes of its residual
    checks: what it emits, once each and within the requested maximum, is what
    is certain or allowed; when it is neither full nor refused by its sink it
    emits all of it. *)

From S2P Require Import Prelude Ordered Identifier Reference Condition Storage Model TupleValidation Budget.
From S2P Require Import Reducer Scheduler Evaluator ListCommon Candidates ListObjects.

(** ** Sinks *)

(** The objects a sink took and whether it may refuse one. *)
Class ObjectSinkLaws (S : Type) `{!ObjectSink S} := {
  sink_sent : S → list ObjectRef;
  sink_refusing : Prop;
  sink_send_spec w t object s :
    let '(taken, s') := sink_send w t object s in
    if taken then sink_sent s' = sink_sent s ++ [object] else sink_sent s' = sink_sent s ∧ sink_refusing;
}.

#[export, refine] Instance vec_sink_laws : ObjectSinkLaws VecSink :=
  {| sink_sent := fun l => l; sink_refusing := False; sink_send_spec := _ |}.
Proof. done. Defined.

(** The objects among the items of a channel. *)
Definition item_objects (l : list (result ListError ObjectRef)) : list ObjectRef :=
  l ≫= fun x => match x with Ok o => [o] | Err _ => [] end.

#[export, refine] Instance channel_sink_laws : ObjectSinkLaws ChannelSink :=
  {| sink_sent := fun s => item_objects s.(ch_items); sink_refusing := True; sink_send_spec := _ |}.
Proof.
  intros w t object s. simpl. destruct (rw_send w t); [|done]. simpl. unfold item_objects. by rewrite bind_app.
Defined.

Section residual.
Context `{ConditionEngine, !CheckEvaluator, !CheckEvaluatorLaws} {S : Type} `{!ObjectSink S, !ObjectSinkLaws S}.
Variable command : ListObjectsCommand.
Variable m : CompiledModel.
Variable budget : ListObjectsBudget.
Variable w : ResidualWorld.
Variable cmeta : CandidateMetadata.

Hypothesis Hmaximum : (0 < command.(loc_maximum_results) <= U32_MAX)%N.
Hypothesis Hconcurrency : (0 < budget.(lob_residual_concurrency))%N.
Hypothesis Hbudget : check_budget_ok budget.(lob_check).

Abbreviation outcome := (residual_outcome command m budget w).
Abbreviation maximum := command.(loc_maximum_results).

(** A candidate that is certain, or that its residual check allowed or denied. *)
Definition confirmed (c : Candidate) : Prop :=
  c.(cand_requires_check) = false ∨ ∃ k out, outcome (c.(cand_object), k) = Ok out ∧ out.(co_allowed) = true.
Definition rejected (c : Candidate) : Prop :=
  c.(cand_requires_check) = true ∧ ∃ k out, outcome (c.(cand_object), k) = Ok out ∧ out.(co_allowed) = false.

(** ** The invariant *)

(** The candidates [done] were taken from the queue; [out] was emitted. *)
Record emitted (done : list Candidate) (out : list ObjectRef) (checks : list (ObjectRef * N)) (results : N) : Prop := {
  em_sound : ∀ o, o ∈ out → ∃ c, c ∈ done ∧ c.(cand_object) = o ∧ confirmed c;
  em_once : out ++ checks.*1 ⊆+ cand_object <$> done;
  em_checks : ∀ o k, (o, k) ∈ checks → ∃ c, c ∈ done ∧ c.(cand_object) = o;
  em_results : results = len out;
}.

Definition covered (done : list Candidate) (out : list ObjectRef) (checks : list (ObjectRef * N)) : Prop :=
  ∀ c, c ∈ done → c.(cand_object) ∈ out ∨ rejected c ∨ c.(cand_requires_check) = true ∧ c.(cand_object) ∈ checks.*1.

Abbreviation sent s := (sink_sent s.(rs_sink)).
Abbreviation emitted_in done s := (emitted done (sent s) s.(rs_checks) s.(rs_results)).
Abbreviation covered_in done s := (covered done (sent s) s.(rs_checks)).

Lemma emitted_more done more out checks results :
  emitted done out checks results → emitted (done ++ more) out checks results.
Proof.
  intros [Hs Ho Hc Hr]. split; [..|done].
  - intros o (c & Hc' & ?)%Hs. exists c. set_solver.
  - rewrite fmap_app. by apply submseteq_inserts_r.
  - intros o k (c & Hc' & ?)%Hc. exists c. set_solver.
Qed.

Lemma covered_more done out out' checks checks' :
  covered done out checks → out ⊆ out' → checks.*1 ⊆ checks'.*1 → covered done out' checks'.
Proof. intros Hc Ho Hk c Hd. destruct (Hc c Hd) as [|[|[]]]; auto. Qed.

Lemma emitted_certain done c out checks results :
  emitted done out checks results → c.(cand_requires_check) = false →
  emitted (done ++ [c]) (out ++ [c.(cand_object)]) checks (results + 1).
Proof.
  intros Hem Hr. destruct (emitted_more done [c] out checks results Hem) as [Hs _ Hc _].
  split; [| |done|by rewrite (em_results _ _ _ _ Hem), len_snoc].
  - intros o [Ho| ->%list_elem_of_singleton]%elem_of_app; [by apply Hs|]. exists c. split_and!; [set_solver|done|by left].
  - rewrite fmap_app, <-app_assoc, (Permutation_app_comm [_]), app_assoc. simpl.
    apply submseteq_app; [apply (em_once _ _ _ _ Hem)|done].
Qed.

Lemma emitted_spawned done c k out checks results :
  emitted done out checks results → emitted (done ++ [c]) out (checks ++ [(c.(cand_object), k)]) results.
Proof.
  intros Hem. destruct (emitted_more done [c] out checks results Hem) as [Hs _ Hc Hr]. split; [done|..|done].
  - rewrite !fmap_app, app_assoc. apply submseteq_app; [apply (em_once _ _ _ _ Hem)|done].
  - intros o k' [Ho|[= -> ->]%list_elem_of_singleton]%elem_of_app; [by eapply Hc|]. exists c. set_solver.
Qed.

(** A check leaves the set of running checks, its object emitted if allowed. *)
Lemma emitted_left done out checks checks' x results :
  emitted done out checks results → checks ≡ₚ x :: checks' → emitted done out checks' results.
Proof.
  intros [Hs Honce Hc Hr] Hp. split; [done| | |done].
  - transitivity (out ++ checks.*1); [|done]. rewrite Hp. apply submseteq_app; [done|]. by apply submseteq_cons.
  - intros o k Hin. apply (Hc o k). rewrite Hp. by right.
Qed.

Lemma emitted_allowed done out checks checks' o k out' results :
  emitted done out checks results → checks ≡ₚ (o, k) :: checks' → outcome (o, k) = Ok out' →
  out'.(co_allowed) = true → emitted done (out ++ [o]) checks' (results + 1).
Proof.
  intros Hem Hp Ho Ha. pose proof (emitted_left _ _ _ _ _ _ Hem Hp) as [_ _ Hc' _].
  destruct Hem as [Hs Honce Hc Hr]. split; [| |done|by rewrite Hr, len_snoc].
  - intros o2 [Ho2| ->%list_elem_of_singleton]%elem_of_app; [by apply Hs|].
    destruct (Hc o k) as (c & Hc2 & <-); [rewrite Hp; by left|]. exists c. split_and!; [done..|]. right. eauto.
  - by rewrite Hp, fmap_cons, (cons_middle o), app_assoc in Honce.
Qed.

Lemma covered_joined done out out2 checks checks' o k out' :
  covered done out checks → checks ≡ₚ (o, k) :: checks' → outcome (o, k) = Ok out' →
  out ⊆ out2 → (out'.(co_allowed) = true → o ∈ out2) → covered done out2 checks'.
Proof.
  intros Hc Hp Ho Hsub Ha c Hd. destruct (Hc c Hd) as [|[|[Hr Hk]]]; [auto..|].
  rewrite Hp in Hk. apply elem_of_cons in Hk as [Hk|Hk]; [|auto]. simpl in Hk. subst o.
  destruct (co_allowed out') eqn:E; [left; by apply Ha|]. right. left. split; [done|]. eauto.
Qed.

(** ** Steps *)

Lemma emit_ends_spec t o s :
  let '(ends, s') := emit_ends command w t o s in
  s'.(rs_checks) = s.(rs_checks) ∧ s'.(rs_candidates) = s.(rs_candidates) ∧
  ((s.(rs_results) < maximum)%N →
   (sent s' = sent s ++ [o] ∧ s'.(rs_results) = (s.(rs_results) + 1)%N ∧ ends = (maximum <=? s'.(rs_results))%N) ∨
   (ends = true ∧ sent s' = sent s ∧ s'.(rs_results) = s.(rs_results) ∧ sink_refusing)).
Proof.
  unfold emit_ends, emit. pose proof (sink_send_spec w t o s.(rs_sink)) as Hsend.
  destruct (sink_send w t o s.(rs_sink)) as [[] sink']; simpl; (split_and!; [done..|]); intros Hlt.
  - left. split_and!; [done| |done]. unfold saturating_add. lia.
  - right. tauto.
Qed.

(** What holds whenever the loop returns, and when it returns successfully. *)
Definition returned (all : list Candidate) (s : Residual S) : Prop :=
  ∃ done rest, all = done ++ rest ∧ emitted_in done s ∧ (s.(rs_results) <= maximum)%N.
Definition succeeded (all : list Candidate) (s : Residual S) : Prop :=
  returned all s ∧ (sink_refusing ∨ (maximum <= s.(rs_results))%N ∨ ∀ c, c ∈ all → c.(cand_object) ∈ sent s ∨ rejected c).

Definition step_ok (all : list Candidate) (s : Residual S) (r : result ListFault ListObjectsMetadata) : Prop :=
  match r with
  | Ok metadata => metadata = residual_metadata cmeta s ∧ succeeded all s
  | Err (LFail _) => returned all s
  | Err LFuel => False
  end.

Lemma emitted_returned done rest s : emitted_in done s → (s.(rs_results) <= maximum)%N → returned (done ++ rest) s.
Proof. intros. by exists done, rest. Qed.

(** An emission of an object ends the query or keeps the invariant. *)
Lemma emission_ok all done rest t o s ends s' :
  all = done ++ rest → emit_ends command w t o s = (ends, s') → (s.(rs_results) < maximum)%N →
  emitted done (sent s) s.(rs_checks) s.(rs_results) →
  emitted done (sent s ++ [o]) s.(rs_checks) (s.(rs_results) + 1) → covered done (sent s ++ [o]) s.(rs_checks) →
  s'.(rs_candidates) = s.(rs_candidates) ∧ s'.(rs_checks) = s.(rs_checks) ∧
  if ends then succeeded all s' else emitted_in done s' ∧ covered_in done s' ∧ (s'.(rs_results) < maximum)%N.
Proof.
  intros -> He Hlt Hold Hem Hcov. pose proof (emit_ends_spec t o s) as Hspec. rewrite He in Hspec.
  destruct Hspec as (Hk & Hc & Hspec). split; [done|]. split; [done|].
  destruct (Hspec Hlt) as [(Hs & Hr & ->)|(-> & Hs & Hr & Href)].
  - rewrite Hk, Hs, Hr. destruct (maximum <=? s.(rs_results) + 1)%N eqn:E.
    + apply N.leb_le in E. split; [|right; left; lia]. exists done, rest. rewrite Hk, Hs, Hr. split_and!; [done..|lia].
    + apply N.leb_gt in E. split_and!; [done..|lia].
  - split; [|by left]. exists done, rest. rewrite Hk, Hs, Hr. split_and!; [done..|lia].
Qed.

Lemma fill_spec candidates : ∀ t s done,
  emitted_in done s → covered_in done s → (s.(rs_results) < maximum)%N →
  match fill command budget w cmeta candidates t s with
  | (_, s', Some r) => step_ok (done ++ candidates) s' (map_err LFail r)
  | (_, s', None) => ∃ done', done ++ candidates = done' ++ s'.(rs_candidates) ∧
      emitted_in done' s' ∧ covered_in done' s' ∧ (s'.(rs_results) < maximum)%N ∧
      2 * length s'.(rs_candidates) + length s'.(rs_checks) ≤ 2 * length candidates + length s.(rs_checks) ∧
      (s'.(rs_checks) = [] → s'.(rs_candidates) = [])
  end.
Proof.
  induction candidates as [|c rest IH]; intros t s done Hem Hcov Hlt; cbn [fill].
  - destruct (_ <? _)%N; simpl; exists done; simpl; split_and!; auto.
  - destruct (_ <? _)%N eqn:Ec; simpl.
    2: { exists done. split_and!; [done..|]. intros Hk. rewrite Hk in Ec. unfold len in Ec. simpl in Ec.
         apply N.ltb_ge in Ec. lia. }
    replace (done ++ c :: rest) with ((done ++ [c]) ++ rest) by (by rewrite <-app_assoc).
    destruct (cand_requires_check c) eqn:Er; simpl.
    + destruct (checked_add _ _ _) as [number|]; simpl.
      * specialize (IH t (spawn_check c.(cand_object) number s) (done ++ [c])).
        destruct (fill _ _ _ _ rest t _) as [[t' s'] [r|]].
        -- apply IH; [by apply emitted_spawned| |done].
           intros c' [Hc'| ->%list_elem_of_singleton]%elem_of_app; simpl; rewrite fmap_app.
           ++ destruct (Hcov c' Hc') as [|[|[]]]; [by auto..|]. right. right. set_solver.
           ++ right. right. set_solver.
        -- destruct IH as (done' & ? & ? & ? & ? & Hm & ?); [by apply emitted_spawned| |done|].
           { intros c' [Hc'| ->%list_elem_of_singleton]%elem_of_app; simpl; rewrite fmap_app.
             - destruct (Hcov c' Hc') as [|[|[]]]; [by auto..|]. right. right. set_solver.
             - right. right. set_solver. }
           exists done'. split_and!; [done..| |done]. simpl in Hm. rewrite length_app in Hm. simpl in *. lia.
      * apply emitted_returned; [by apply emitted_more|simpl; lia].
    + destruct (emit_ends _ _ _ _ _) as [ends s1] eqn:Ee.
      destruct (emission_ok ((done ++ [c]) ++ rest) (done ++ [c]) rest t _ s ends s1 eq_refl Ee Hlt) as (Hcs & Hk & Hs).
      { by apply emitted_more. } { by apply emitted_certain. }
      { intros c' [Hc'| ->%list_elem_of_singleton]%elem_of_app; [|left; set_solver].
        destruct (Hcov c' Hc') as [|[|[]]]; [left; set_solver|by auto..]. }
      destruct ends; [done|]. destruct Hs as (? & ? & ?).
      specialize (IH (Datatypes.S t) s1 (done ++ [c])).
      destruct (fill _ _ _ _ rest _ _) as [[t' s'] [r|]]; [by apply IH|].
      destruct IH as (done' & ? & ? & ? & ? & Hm & ?); [done..|]. rewrite Hk in Hm. exists done'. split_and!; [done..|lia|done].
Qed.

Lemma join_next_spec {A} i (tasks : list A) : tasks ≠ [] →
  ∃ x rest, join_next i tasks = Some (x, rest) ∧ tasks ≡ₚ x :: rest.
Proof.
  intros Hne. unfold join_next. set (j := i mod length tasks).
  assert (Hj : j < length tasks) by (apply Nat.mod_upper_bound; by destruct tasks).
  destruct (lookup_lt_is_Some_2 _ _ Hj) as [x Hx]. exists x, (delete j tasks). rewrite Hx. split; [done|].
  by apply delete_Permutation.
Qed.

Lemma residual_meter_ok x : Some (residual_work_meter budget) = Some x → meter_ok x.
Proof. intros [= <-]. split_and!; unfold counter_ok; simpl; lia. Qed.

Lemma process_loop_spec fuel : ∀ t s done,
  emitted_in done s → covered_in done s → (s.(rs_results) < maximum)%N →
  2 * length s.(rs_candidates) + length s.(rs_checks) < fuel →
  let '(s', r) := process_loop command m budget w cmeta fuel t s in step_ok (done ++ s.(rs_candidates)) s' r.
Proof.
  induction fuel as [|fuel IH]; intros t s done Hem Hcov Hlt Hf; [lia|]. cbn [process_loop].
  destruct (_ && _) eqn:Eend.
  { apply andb_true_iff in Eend as [Ec%bool_decide_eq_true Ek%bool_decide_eq_true]. split; [done|].
    split; [by apply emitted_returned; [|lia]|]. right. right. intros c Hc. rewrite Ec, app_nil_r in Hc.
    destruct (Hcov c Hc) as [|[|[_ Hk]]]; [by auto..|]. rewrite Ek in Hk. by apply elem_of_nil in Hk. }
  pose proof (fill_spec s.(rs_candidates) t s done Hem Hcov Hlt) as Hfill.
  destruct (fill _ _ _ _ _ _ _) as [[t1 s1] [r|]]; [done|].
  destruct Hfill as (done' & Hall & Hem1 & Hcov1 & Hlt1 & Hm & Hempty).
  rewrite Hall. destruct (rs_checks s1) as [|k0 ks] eqn:Ek.
  { apply IH; [by rewrite Ek..|done|]. rewrite Ek, (Hempty eq_refl). simpl. 
    destruct (rs_candidates s), (rs_checks s); simpl in *; try done; lia. }
  rewrite <-Ek in *. assert (Hret : returned (done' ++ s1.(rs_candidates)) s1)
    by (apply emitted_returned; [done|lia]).
  destruct (rw_select w t1) as [| |i|i]; [done..| |done].
  destruct (join_next_spec i s1.(rs_checks)) as ([o k] & checks & Hj & Hp); [by rewrite Ek|]. rewrite Hj.
  assert (Hlen := Permutation_length Hp). simpl in Hlen.
  pose proof (emitted_left _ _ _ _ _ _ Hem1 Hp) as Hem2.
  destruct (outcome (o, k)) as [out|[e|]] eqn:Eo.
  - destruct (co_allowed out) eqn:Ea.
    + destruct (emit_ends _ _ _ _ _) as [ends s2] eqn:Ee.
      destruct (emission_ok (done' ++ s1.(rs_candidates)) done' s1.(rs_candidates) _ _ _ ends s2 eq_refl Ee) as (Hcs & Hk & Hs);
        [done|done|exact (emitted_allowed _ _ _ _ _ _ _ _ Hem1 Hp Eo Ea)| |].
      { eapply covered_joined; [exact Hcov1|done..| |]; simpl; [set_solver|]. intros _. set_solver. }
      destruct ends; [done|]. destruct Hs as (? & ? & ?). simpl in Hcs, Hk.
      rewrite <-Hcs. apply IH; [done..|]. rewrite Hcs, Hk. lia.
    + apply (IH _ (mkResidual _ _ _ _ _)); simpl; [done| |done|lia].
      eapply covered_joined; [exact Hcov1|done..|]. congruence.
  - apply emitted_returned; [done|simpl; lia].
  - exfalso. unfold residual_outcome in Eo. eapply evaluator_ends in Eo; [done|done|]. apply residual_meter_ok.
Qed.

(** ** The whole loop *)

Lemma process_candidates_spec candidates sink : sink_sent sink = [] →
  let '(s, r) := process_candidates command m budget w cmeta candidates sink in step_ok candidates s r.
Proof.
  intros Hsink. pose proof (process_loop_spec (2 * length candidates + 2) 0 (mkResidual candidates [] 0 0 sink) []) as Hl.
  apply Hl; simpl; [|by intros c []%elem_of_nil|lia|lia]. rewrite Hsink.
  split; [by intros o []%elem_of_nil|done|by intros o k []%elem_of_nil|done].
Qed.

Lemma returned_NoDup all s : NoDup (cand_object <$> all) → returned all s →
  NoDup (sent s) ∧ s.(rs_results) = len (sent s) ∧ (s.(rs_results) <= maximum)%N ∧
  ∀ o, o ∈ sent s → ∃ c, c ∈ all ∧ c.(cand_object) = o ∧ confirmed c.
Proof.
  clear Hmaximum Hconcurrency Hbudget.
  intros Hnd (done & rest & -> & [Hs Ho _ Hr] & Hle). split_and!; [|done..|].
  - rewrite fmap_app in Hnd. apply NoDup_app in Hnd as [Hnd _].
    apply submseteq_Permutation in Ho as [more Ho]. rewrite Ho, <-app_assoc in Hnd. apply NoDup_app in Hnd as [Hout _].
    exact Hout.
  - intros o (c & Hc & ?)%Hs. exists c. set_solver.
Qed.

End residual.

(** ** Streams *)

Section streams.
Context `{ConditionEngine, !CheckEvaluator}.
Variable command : ListObjectsCommand.
Variable m : CompiledModel.
Variable budget : ListObjectsBudget.
Variable w : ResidualWorld.
Variable cmeta : CandidateMetadata.

(** A fact about the sink that every emission keeps holds when the loop ends. *)
Section invariant.
Context {S : Type} `{!ObjectSink S}.
Variable P : S → Prop.
Hypothesis Hsend : ∀ t o s, P s → P (snd (sink_send w t o s)).

Lemma emit_ends_inv t o (s : Residual S) : P s.(rs_sink) → P (snd (emit_ends command w t o s)).(rs_sink).
Proof. intros HP. unfold emit_ends, emit. specialize (Hsend t o _ HP). by destruct (sink_send _ _ _ _). Qed.

Lemma fill_inv candidates : ∀ t (s : Residual S),
  P s.(rs_sink) → P (snd (fst (fill command budget w cmeta candidates t s))).(rs_sink).
Proof.
  induction candidates as [|c rest IH]; intros t s HP; cbn [fill]; [by destruct (negb _)|].
  destruct (negb (_ <? _)%N); [done|]. destruct (negb _).
  - pose proof (emit_ends_inv t c.(cand_object) s HP). destruct (emit_ends _ _ _ _ _) as [[] s']; [done|by apply IH].
  - destruct (checked_add _ _ _); [by apply IH|done].
Qed.

Lemma process_loop_inv fuel : ∀ t (s : Residual S),
  P s.(rs_sink) → P (fst (process_loop command m budget w cmeta fuel t s)).(rs_sink).
Proof.
  induction fuel as [|fuel IH]; intros t s HP; cbn [process_loop]; [done|]. destruct (_ && _); [done|].
  pose proof (fill_inv s.(rs_candidates) t s HP) as Hf. destruct (fill _ _ _ _ _ _ _) as [[t1 s1] [r|]]; [done|].
  simpl in Hf. destruct (rs_checks s1) as [|k ks] eqn:Ek; [by apply IH|]. rewrite <-Ek.
  destruct (rw_select w t1) as [| |i|i]; [done..| |done].
  destruct (join_next i _) as [[x checks]|]; [|by apply IH].
  destruct (residual_outcome _ _ _ _ x) as [out|[e|]]; [|done..]. destruct (co_allowed out); [|by apply IH].
  match goal with |- context [emit_ends command w ?t ?o ?s] => pose proof (emit_ends_inv t o s Hf) as He end.
  destruct (emit_ends _ _ _ _ _) as [[] s2]; [done|by apply IH].
Qed.
End invariant.

(** The items of a channel are objects; the failure is sent when the loop has ended. *)
Definition object_items (s : ChannelSink) : Prop := s.(ch_items) = Ok <$> item_objects s.(ch_items).

Lemma object_items_send t o s : object_items s → object_items (snd (sink_send w t o s)).
Proof.
  intros Hs. simpl. destruct (rw_send w t); [|done]. unfold object_items in *. simpl. unfold item_objects in *.
  by rewrite bind_app, fmap_app, <-Hs.
Qed.

(** *** A consumer that takes every item sees the unary result *)

Hypothesis Htaken : ∀ t, rw_send w t = true.

Definition as_channel (s : Residual VecSink) : Residual ChannelSink :=
  mkResidual s.(rs_candidates) s.(rs_checks) s.(rs_residual_checks) s.(rs_results) (mkChannelSink (Ok <$> s.(rs_sink))).

Lemma emit_ends_channel t o s :
  emit_ends command w t o (as_channel s) = prod_map id as_channel (emit_ends command w t o s).
Proof. unfold emit_ends, emit. simpl. rewrite Htaken. unfold as_channel. simpl. by rewrite fmap_app. Qed.

Lemma fill_channel candidates : ∀ t s,
  fill command budget w cmeta candidates t (as_channel s) =
  prod_map (prod_map id as_channel) id (fill command budget w cmeta candidates t s).
Proof.
  induction candidates as [|c rest IH]; intros t s; cbn [fill]; simpl rs_checks; [by destruct (negb _)|].
  destruct (negb (_ <? _)%N); [done|]. destruct (negb _).
  - rewrite emit_ends_channel. destruct (emit_ends _ _ _ _ s) as [[] s']; [done|]. apply IH.
  - simpl rs_residual_checks. destruct (checked_add _ _ _); [|done]. exact (IH t (spawn_check _ _ s)).
Qed.

Lemma process_loop_channel fuel : ∀ t s,
  process_loop command m budget w cmeta fuel t (as_channel s) =
  prod_map as_channel id (process_loop command m budget w cmeta fuel t s).
Proof.
  induction fuel as [|fuel IH]; intros t s; cbn [process_loop]; [done|]. simpl rs_candidates. simpl rs_checks.
  destruct (_ && _); [done|]. rewrite fill_channel. destruct (fill _ _ _ _ _ _ s) as [[t1 s1] [r|]]; [done|].
  cbn [prod_map fst snd id]. change (rs_checks (as_channel s1)) with (rs_checks s1).
  destruct (rs_checks s1) as [|k ks] eqn:Ek; [by apply IH|]. rewrite <-Ek.
  destruct (rw_select w t1) as [| |i|i]; [done..| |done].
  destruct (join_next i _) as [[x checks]|]; [|apply IH].
  destruct (residual_outcome _ _ _ _ x) as [out|[e|]]; [|done..].
  destruct (co_allowed out); [|exact (IH (Datatypes.S t1) (mkResidual _ _ _ _ _))].
  set (s2 := mkResidual s1.(rs_candidates) checks s1.(rs_residual_checks) s1.(rs_results) s1.(rs_sink)).
  change (mkResidual (rs_candidates (as_channel s1)) _ _ _ _) with (as_channel s2). rewrite emit_ends_channel.
  destruct (emit_ends _ _ _ _ s2) as [[] s3]; [done|]. apply IH.
Qed.

Lemma process_candidates_channel candidates :
  process_candidates command m budget w cmeta candidates (mkChannelSink []) =
  prod_map as_channel id (process_candidates command m budget w cmeta candidates ([] : VecSink)).
Proof. exact (process_loop_channel _ 0 (mkResidual candidates [] 0 0 [])). Qed.

End streams.
