(* ===== verification/ListTheorems.v ===== *)
(** * Correctness of the enumeration engines

    The properties of the list engines over models the compiler returns. *)

From S2P Require Import Prelude Ordered Identifier Reference Condition Storage Model ModelErrors Graph.
From S2P Require Import GraphTheory ModelSource Compiler CompilerTheory TupleValidation Budget Reducer.
From S2P Require Import Scheduler CheckSpec CheckSound Membership Restrictions Fixture CheckTheorems.
From S2P Require Import ModelTyping SourceSemantics CompilerTheorems Evaluator ListCommon Candidates.
From S2P Require Import CandidatesTheory CandidatesBounds ListSpec ListObjects ListObjectsTheory.

Import Fixture.

(** ** Listing objects *)

Section objects.
Context `{ConditionEngine, !CheckEvaluator, !CheckEvaluatorLaws}.
Variable limits : InputLimits.
Variable command : ListObjectsCommand.
Variable m : CompiledModel.
Variable budget : ListObjectsBudget.
Variable lw : ListWorld.
Variable w : ResidualWorld.
Variable table : list RelationshipTuple.

Abbreviation q := command.(loc_query).
Abbreviation s := command.(loc_subject).
Abbreviation env := (query_env q m).
Abbreviation tuples := (q.(qc_contextual_tuples) ++ table).

(** What the constructors of the command and of the budget guarantee. *)
Record objects_request_ok : Prop := {
  or_contextual : NoDup (rt_key <$> q.(qc_contextual_tuples));
  or_maximum : (0 < command.(loc_maximum_results) <= U32_MAX)%N;
  or_concurrency : (0 < budget.(lob_residual_concurrency))%N;
  or_check : check_budget_ok budget.(lob_check);
}.

(** Every read of the query sees the same stored tuples. *)
Definition objects_snapshot : Prop :=
  reverse_snapshot lw q.(qc_store_id) table ∧
  ∀ k, forward_snapshot (w_read (rw_check w k)) m.(model_store_id) table.

Hypothesis Hrequest : objects_request_ok.
Hypothesis Hsnapshot : objects_snapshot.

(** The check semantics gives the subject the relation on [o]. *)
Definition holds (r : RelationId) (o : ObjectRef) : Prop :=
  ∃ d, Decides env (table_rows table) (TSemantic (mkSemanticKey o r s) []) d ∧ d.(allowed) = true.

Lemma residual_decides o k out r : relation_id m o.(object_type) command.(loc_relation) = Ok r →
  residual_outcome command m budget w (o, k) = Ok out →
  Decides env (table_rows table) (TSemantic (mkSemanticKey o r s) []) (mkDecision out.(co_allowed) out.(co_resolution)).
Proof.
  intros Hr Hout. destruct Hsnapshot as [_ Hf].
  destruct (evaluator_decides _ _ _ _ _ _ _ (Hf _) Hout) as (r' & Hr' & Hd).
  unfold validate_query_tuple in Hr'. apply result_bind_ok in Hr' as (? & _ & Hr').
  apply result_bind_ok in Hr' as (r2 & Hr2%map_err_ok & Hr'). apply result_bind_ok in Hr' as (_ & _ & [= <-]).
  simpl in Hr2. rewrite Hr in Hr2. by simplify_eq.
Qed.

(** What a completed query says about each object. *)
Lemma list_objects_spec out : list_objects limits command m budget lw w = Ok out →
  ∃ r, relation_id m command.(loc_object_type) command.(loc_relation) = Ok r ∧
    validate_contextual q m = Ok () ∧
    NoDup out.(loo_objects) ∧ len out.(loo_objects) = out.(loo_metadata).(lom_results) ∧
    (out.(loo_metadata).(lom_results) <= command.(loc_maximum_results))%N ∧
    (∀ o, o ∈ out.(loo_objects) → reaches m tuples true s (RpRelation r) o ∧
       (reaches m tuples false s (RpRelation r) o ∨
        ∃ k x, residual_outcome command m budget w (o, k) = Ok x ∧ x.(co_allowed) = true)) ∧
    ((out.(loo_metadata).(lom_results) < command.(loc_maximum_results))%N →
     ∀ o, reaches m tuples true s (RpRelation r) o → o ∈ out.(loo_objects) ∨
       ∃ k x, residual_outcome command m budget w (o, k) = Ok x ∧ x.(co_allowed) = false).
Proof.
  unfold list_objects. intros (set & Hset & Hout)%result_bind_ok.
  destruct (traverse_spec command m _ limits lw table (proj1 Hsnapshot) set Hset) as (r & Hr & Hctx & Hsound & Hcomplete).
  destruct (traverse_bounds command m (lob_candidate budget) limits lw) as [_ Hb].
  destruct (Hb set Hset) as (_ & _ & _ & _ & _ & Hsorted). apply bs_sorted_NoDup in Hsorted.
  pose proof (process_candidates_spec command m budget w (cs_metadata set) (or_maximum Hrequest) (or_concurrency Hrequest)
    (or_check Hrequest) (cs_candidates set) ([] : VecSink) eq_refl) as Hp.
  destruct (process_candidates _ _ _ _ _ _ _) as [st [md|]]; simplify_eq/=.
  destruct Hp as (-> & Hret & Hall). simpl.
  destruct (returned_NoDup command m budget w _ st Hsorted Hret) as (Hnd & Hlen & Hle & Hconf). simpl in *.
  exists r. split_and!; [done..|by rewrite Hlen|done| |].
  - intros o (c & Hc & <- & Hcf)%Hconf. split.
    + eapply reaches_or; [|by apply Hsound]. done.
    + destruct Hcf as [Hc0|]; [left|by right]. specialize (Hsound c Hc). by rewrite Hc0 in Hsound.
  - intros Hlt o (c & -> & Hc)%Hcomplete%list_elem_of_fmap.
    destruct Hall as [[]|[?|Hall]]; [lia|]. destruct (Hall c Hc) as [|[_ ?]]; auto.
Qed.

Context `{!TypedModel m}.

(** A reached object that is certain or that its residual check allowed. *)
Lemma confirmed_holds `{!GraphLaws m} b r o :
  relation_id m command.(loc_object_type) command.(loc_relation) = Ok r → reaches m tuples b s (RpRelation r) o →
  reaches m tuples false s (RpRelation r) o ∨
  (∃ k x, residual_outcome command m budget w (o, k) = Ok x ∧ x.(co_allowed) = true) →
  o.(object_type) = command.(loc_object_type) ∧ holds r o.
Proof.
  intros Hr Hreach Hwhy. assert (Hty : o.(object_type) = command.(loc_object_type)).
  { apply (object_relation q m _ _ _ o Hr). exact (reaches_typed env _ _ _ _ _ Hreach). }
  split; [done|]. destruct Hwhy as [Hc|(k & x & Hx & Ha)].
  - exact (certain_allowed env _ _ (fun o r t => query_rows q m table o r t (or_contextual Hrequest)) _ _ _ Hc).
  - eexists. split; [eapply residual_decides; [|exact Hx]; by rewrite Hty|done].
Qed.

End objects.



(** C21: a streamed query sends objects on which the check semantics gives the
    subject the relation, each once and at most as many as requested, then at
    most one failure as the last item, whatever its consumer does; a consumer
    that takes every item sees the result of the unary query. *)
Theorem streamed_list_objects_exact `{CheckEvaluatorLaws} limits command m budget lw w table items
    `{!TypedModel m, !GraphLaws m} :
  objects_request_ok command budget → objects_snapshot command m lw w table →
  streamed_list_objects limits command m budget lw w = Ok items →
  (∃ r objects failure, relation_id m command.(loc_object_type) command.(loc_relation) = Ok r ∧
     items = (Ok <$> objects) ++ failure ∧ (failure = [] ∨ ∃ e, failure = [Err e]) ∧
     NoDup objects ∧ (len objects <= command.(loc_maximum_results))%N ∧
     ∀ o, o ∈ objects → o.(object_type) = command.(loc_object_type) ∧ holds command m table r o) ∧
  ((∀ t, rw_send w t = true) → ∀ out, list_objects limits command m budget lw w = Ok out →
     items = Ok <$> out.(loo_objects)).
Proof.
  intros Hreq Hsnap Hitems. unfold streamed_list_objects in Hitems. apply result_bind_ok in Hitems as (set & Hset & Hitems).
  split.
  - destruct (traverse_spec command m _ limits lw table (proj1 Hsnap) set Hset) as (r & Hr & Hctx & Hsound & _).
    destruct (traverse_bounds command m (lob_candidate budget) limits lw) as [_ Hb].
    destruct (Hb set Hset) as (_ & _ & _ & _ & _ & Hsorted%bs_sorted_NoDup).
    pose proof (fun o r t => query_rows command.(loc_query) m table o r t (or_contextual _ _ Hreq)) as Hrows.
    pose proof (process_candidates_spec command m budget w (cs_metadata set) (or_maximum _ _ Hreq) (or_concurrency _ _ Hreq)
      (or_check _ _ Hreq) (cs_candidates set) (mkChannelSink []) eq_refl) as Hp.
    pose proof (process_loop_inv command m budget w (cs_metadata set) object_items (object_items_send w)
      (2 * length (cs_candidates set) + 2) 0 (mkResidual (cs_candidates set) [] 0 0 (mkChannelSink [])) eq_refl) as Hobj.
    unfold process_candidates in Hp, Hitems. destruct (process_loop _ _ _ _ _ _ _ _) as [st returned].
    assert (Hret : ListObjectsTheory.returned command m budget w (cs_candidates set) st).
    { destruct returned as [md|[e|]]; [apply Hp|exact Hp|done]. }
    destruct (returned_NoDup command m budget w _ st Hsorted Hret) as (Hnd & Hlen & Hle & Hconf). simpl in Hobj.
    exists r, (item_objects (ch_items (rs_sink st))), (match returned with Err (LFail e) => [Err e] | _ => [] end).
    split_and!; [done| | |done|by rewrite Hlen in Hle|].
    + rewrite <-Hobj. destruct returned as [md|[e|]]; simplify_eq; [by rewrite app_nil_r|done].
    + destruct returned as [md|[e|]]; eauto.
    + intros o (c & Hc & <- & Hcf)%Hconf. specialize (Hsound c Hc). eapply confirmed_holds; [done..|].
      destruct Hcf as [Hc0|]; [left|by right]. by rewrite Hc0 in Hsound.
  - intros Htaken out Hout. unfold list_objects in Hout. rewrite Hset in Hout. simpl in Hout.
    rewrite process_candidates_channel in Hitems by done.
    destruct (process_candidates _ _ _ _ _ _ _) as [st [md|]]; simplify_eq/=. done.
Qed.

(** C22: the engines end: neither the traversal nor the residual checks run out
    of the rounds the model gives them, in any world, and the traversal and the
    results stay within their budgets. *)
Theorem list_objects_ends `{CheckEvaluatorLaws} limits command m budget lw w :
  objects_request_ok command budget →
  list_objects limits command m budget lw w ≠ Err LFuel ∧ streamed_list_objects limits command m budget lw w ≠ Err LFuel ∧
  ∀ out, list_objects limits command m budget lw w = Ok out →
    let c := out.(loo_metadata).(lom_candidate) in let b := budget.(lob_candidate) in
    (c.(cm_dispatches) <= b.(cb_dispatches))%N ∧ (c.(cm_datastore_queries) <= b.(cb_datastore_queries))%N ∧
    (c.(cm_tuple_items) <= b.(cb_tuple_items))%N ∧ (c.(cm_intermediate_candidates) <= b.(cb_candidates))%N ∧
    (c.(cm_maximum_depth) <= b.(cb_depth))%N ∧
    (out.(loo_metadata).(lom_results) <= command.(loc_maximum_results))%N.
Proof.
  intros [_ Hmax Hconc Hcheck]. destruct (traverse_bounds command m (lob_candidate budget) limits lw) as [Hne Hb].
  unfold list_objects, streamed_list_objects.
  destruct (traverse _ _ _ _ _) as [set|[e|]]; [|done..]. destruct (Hb set eq_refl) as (? & ? & ? & ? & ? & _).
  simpl. pose proof (process_candidates_spec command m budget w (cs_metadata set) Hmax Hconc Hcheck
    (cs_candidates set) ([] : VecSink) eq_refl) as Hv.
  pose proof (process_candidates_spec command m budget w (cs_metadata set) Hmax Hconc Hcheck
    (cs_candidates set) (mkChannelSink []) eq_refl) as Hc.
  destruct (process_candidates _ _ _ _ _ _ ([] : VecSink)) as [st [md|[e|]]];
    destruct (process_candidates _ _ _ _ _ _ (mkChannelSink [])) as [st' [md'|[e'|]]]; simpl in Hv, Hc; try done;
    (split_and!; [done..|]); intros out Hout; simplify_eq/=.
  all: destruct Hv as (-> & (d & rest & _ & _ & ?) & _); split_and!; done.
Qed.

(** ** Witnesses *)

Import Declarations.

(** A quiet outside over a table: reads succeed and checks are joined in order. *)
Definition list_world (db : list RelationshipTuple) : ListWorld := {|
  lw_cancelled := fun _ => false;
  lw_now := fun _ => 0%N;
  lw_reverse := fun _ _ f _ => Ok (from_tuples (filter (fun t => t.(rt_key).(tk_object).(object_type) = f.(rtf_object_type) ∧
    t.(rt_key).(tk_relation) = f.(rtf_relation) ∧ t.(rt_key).(tk_subject) ∈ f.(rtf_subjects)) db));
  lw_forward := fun _ _ f _ => Ok (from_tuples (stored_in db f.(orf_object) f.(orf_relation)));
  lw_poll := fun _ _ => false;
|}.
Definition residual_world (db : list RelationshipTuple) : ResidualWorld := {|
  rw_select := fun _ => SelJoined 0;
  rw_send := fun _ => true;
  rw_check := fun _ => world db;
|}.
Definition query : QueryContext :=
  mkQueryContext 1%N LatestModel MinimizeLatency [] empty_condition_context 100 (mkPrincipal Development (str "test")).
Definition viewable (maximum : N) : ListObjectsCommand :=
  mkListObjectsCommand query document viewer (SubjObject bob) maximum.
Definition small_list_budget : ListObjectsBudget :=
  mkListObjectsBudget default_candidate_budget (mkCheckBudget 25 40 100 100 100 16 16) 100 100 100 2 4.

#[local] Instance fixture_evaluator : CheckEvaluator := direct_evaluator default_input_limits.
#[local] Instance fixture_evaluator_laws : CheckEvaluatorLaws := direct_evaluator_laws default_input_limits.

Lemma viewable_ok maximum : (0 < maximum <= U32_MAX)%N → objects_request_ok (viewable maximum) small_list_budget.
Proof. intros Hm. split; [constructor|done|done|]. unfold check_budget_ok, limit_in. simpl. lia. Qed.

Lemma viewable_snapshot maximum db : objects_snapshot (viewable maximum) model (list_world db) (residual_world db) db.
Proof.
  split.
  - intros tk f mx stream rows [= <-] Hrows _ _ t. rewrite from_tuples_items in Hrows.
    apply (inj (fmap Ok)) in Hrows as <-. rewrite list_elem_of_filter. tauto.
  - intros k tk f mx stream rows [= <-] Hrows _ _ t. rewrite from_tuples_items in Hrows.
    by apply (inj (fmap Ok)) in Hrows as <-.
Qed.

(** A second document bob can view but that is not approved. *)
Definition doc2 : ObjectRef := mkObjectRef document (str "2").
Definition documents : list RelationshipTuple := tuple doc2 viewer (SubjObject bob) :: database.

Lemma viewable_current maximum : contexts_current (viewable maximum).(loc_query) model documents.
Proof. intros t Ht. repeat (apply elem_of_cons in Ht as [->|Ht]; [done|]). by apply elem_of_nil in Ht. Qed.

Lemma fixture_typed : TypedModel model.
Proof.
  destruct (compile_ok _ _ _ _ limits_ok compiles) as (origins & Hm). by eapply compiled_typed.
Qed.

(** The answer: the first document, after one check for each. *)
Definition viewed : ListObjectsOutcome :=
  mkListObjectsOutcome [doc1] (mkListObjectsMetadata (mkCandidateMetadata 11 4 4 4 1) 2 1).



Definition viewed_items : list (result ListError ObjectRef) := [Ok doc1].

Lemma streamed_list_objects_exact_witness :
  (∃ r objects failure, relation_id model document viewer = Ok r ∧
     viewed_items = (Ok <$> objects) ++ failure ∧ (failure = [] ∨ ∃ e, failure = [Err e]) ∧
     NoDup objects ∧ (len objects <= 10)%N ∧
     ∀ o, o ∈ objects → o.(object_type) = document ∧ holds (viewable 10) model documents r o) ∧
  ((∀ t, rw_send (residual_world documents) t = true) → ∀ out,
     list_objects default_input_limits (viewable 10) model small_list_budget (list_world documents) (residual_world documents)
       = Ok out → viewed_items = Ok <$> out.(loo_objects)).
Proof.
  exact (@streamed_list_objects_exact _ _ _ default_input_limits (viewable 10) model small_list_budget (list_world documents)
    (residual_world documents) documents viewed_items fixture_typed fixture_graph_laws
    (viewable_ok 10 ltac:(done)) (viewable_snapshot 10 documents) ltac:(vm_compute; reflexivity)).
Defined.

Lemma list_objects_ends_witness :
  list_objects default_input_limits (viewable 1) model small_list_budget (list_world documents) (residual_world documents)
    ≠ Err LFuel.
Proof.
  exact (proj1 (list_objects_ends default_input_limits (viewable 1) model small_list_budget (list_world documents)
    (residual_world documents) (viewable_ok 1 ltac:(done)))).
Defined.

(** ** Stale contexts *)

Module Stale.

(** A condition without parameters that always holds: it accepts no stored
    parameter and does not read any. *)
#[export] Instance strict_engine : ConditionEngine := {|
  CompiledCondition := ConditionName;
  condition_name := fun c => c;
  validate_context := fun _ ctx =>
    match ctx.(cc_values) with [] => Ok () | (name, _) :: _ => Err (mkConditionContextError UnknownParameter name) end;
  evaluate := fun _ _ _ budget _ =>
    if (budget <? 2)%N then Err ECostExceeded else Ok (mkConditionOutcome true 2);
  condition_value := fun _ _ _ => Some true;
|}.

Definition always : ConditionName := str "always".
Definition model : CompiledModel := {|
  model_store_id := 1%N;
  model_id := 2%N;
  schema_version := str "1.1";
  compiler_format_version := 1%N;
  model_types := [mkCompiledType 0 user []; mkCompiledType 1 document [0]];
  type_lookup := [(document, 1); (user, 0)];
  model_relations := [mkCompiledRelation 0 1 viewer 0 [mkDirectRestriction 0 RKObject (Required 0)]];
  relation_lookup := [((document, viewer), 0)];
  model_nodes := [NDirect 0];
  model_conditions := [mkCompiledConditionEntry 0 always always];
  condition_lookup := [(always, 0)];
  model_graph := {|
    forward := [[]]; reverse_edges := [[]]; reachable_types := [[0]]; reachable_wildcards := [[]];
    graph_recursion_groups := [None];
  |};
|}.

(** Written under an earlier model, whose condition had a parameter. *)
Definition table : list RelationshipTuple :=
  [mkRelationshipTuple (mkTupleKey doc1 viewer (SubjObject bob))
     (Conditional (mkConditionBinding always (mkConditionContext [(str "level", CVBool true)])))].

#[export] Instance strict_evaluator : CheckEvaluator := direct_evaluator default_input_limits.

End Stale.

