(* ===== verification/ListUsers.v ===== *)
(** * Symbolic subject sets

    [SymbolicSet] of [crates/openfga-list/src/list_users.rs]: finite sets, and
    the complements that a typed wildcard stands for, together with the
    subjects seen explicitly under a wildcard. *)

From S2P Require Import Prelude Ordered Identifier Reference Condition Storage Model TupleValidation Budget.
From S2P Require Import Reducer Scheduler Evaluator ListCommon.

Inductive SymbolicSet (T : Type) :=
| Finite (values : BTreeSet T)
| Cofinite (excluded included : BTreeSet T).
Arguments Finite {T}.
Arguments Cofinite {T}.

Section algebra.
Context `{OrdLaws T, !EqDecision T}.

Definition retain (keep : T → bool) (l : BTreeSet T) : BTreeSet T := base.filter (fun x => keep x = true) l.

Definition set_empty : SymbolicSet T := Finite [].
Definition set_singleton (x : T) : SymbolicSet T := Finite [x].

Definition set_union (a b : SymbolicSet T) : SymbolicSet T :=
  match a, b with
  | Finite l, Finite r => Finite (bs_extend l r)
  | Cofinite excluded included, Finite values
  | Finite values, Cofinite excluded included =>
      Cofinite (retain (fun x => negb (bs_contains x values)) excluded) (bs_extend included values)
  | Cofinite excluded included, Cofinite right_excluded right_included =>
      Cofinite (retain (fun x => bs_contains x right_excluded) excluded) (bs_extend included right_included)
  end.

Definition set_intersection (a b : SymbolicSet T) : SymbolicSet T :=
  match a, b with
  | Finite l, Finite r => Finite (retain (fun x => bs_contains x r) l)
  | Cofinite excluded _, Finite included
  | Finite included, Cofinite excluded _ => Finite (retain (fun x => negb (bs_contains x excluded)) included)
  | Cofinite excluded included, Cofinite right_excluded right_included =>
      let excluded := bs_extend excluded right_excluded in
      Cofinite excluded (retain (fun x => negb (bs_contains x excluded)) (bs_extend included right_included))
  end.

Definition set_difference (a b : SymbolicSet T) : SymbolicSet T :=
  match a, b with
  | Finite l, Finite r => Finite (retain (fun x => negb (bs_contains x r)) l)
  | Finite included, Cofinite excluded _ => Finite (retain (fun x => bs_contains x excluded) included)
  | Cofinite excluded included, Finite removed =>
      Cofinite (bs_extend excluded removed) (retain (fun x => negb (bs_contains x removed)) included)
  | Cofinite left_excluded _, Cofinite right_excluded _ =>
      Finite (retain (fun x => negb (bs_contains x left_excluded)) right_excluded)
  end.

Definition tracked_len (s : SymbolicSet T) : N :=
  match s with
  | Finite values => len values
  | Cofinite excluded included => saturating_add USIZE_MAX (len excluded) (len included)
  end.

(** ** What a set stands for *)

Definition has (s : SymbolicSet T) (x : T) : Prop :=
  match s with Finite values => x ∈ values | Cofinite excluded _ => x ∉ excluded end.
Definition is_cofinite (s : SymbolicSet T) : bool :=
  match s with Finite _ => false | Cofinite _ _ => true end.
(** The values a set names. *)
Definition names (s : SymbolicSet T) : list T :=
  match s with Finite values => values | Cofinite excluded included => excluded ++ included end.

Lemma retain_elem keep l x : x ∈ retain keep l ↔ keep x = true ∧ x ∈ l.
Proof. unfold retain. by rewrite list_elem_of_filter. Qed.

Lemma contains_dec x (l : BTreeSet T) : bs_contains x l = bool_decide (x ∈ l).
Proof.
  destruct (bs_contains x l) eqn:E; symmetry; [apply bool_decide_eq_true|apply bool_decide_eq_false].
  - by apply bs_contains_elem.
  - by apply bs_contains_false.
Qed.

Ltac solve_sets :=
  repeat match goal with s : SymbolicSet T |- _ => destruct s end; simpl;
  rewrite ?bs_extend_elem, ?retain_elem, ?contains_dec, ?negb_true_iff, ?bool_decide_eq_true, ?bool_decide_eq_false.

Lemma has_union a b x : has (set_union a b) x ↔ has a x ∨ has b x.
Proof.
  solve_sets; try tauto; destruct (decide (x ∈ excluded)) as [?|?];
    try destruct (decide (x ∈ values)) as [?|?]; try destruct (decide (x ∈ excluded0)) as [?|?]; tauto.
Qed.

Lemma has_intersection a b x : has (set_intersection a b) x ↔ has a x ∧ has b x.
Proof. solve_sets; tauto. Qed.

Lemma has_difference a b x : has (set_difference a b) x ↔ has a x ∧ ¬ has b x.
Proof. solve_sets; try tauto; destruct (decide (x ∈ excluded)) as [?|?]; try destruct (decide (x ∈ excluded0)) as [?|?]; tauto. Qed.

Lemma cofinite_union a b : is_cofinite (set_union a b) = is_cofinite a || is_cofinite b.
Proof. by destruct a, b. Qed.
Lemma cofinite_intersection a b : is_cofinite (set_intersection a b) = is_cofinite a && is_cofinite b.
Proof. by destruct a, b. Qed.
Lemma cofinite_difference a b : is_cofinite (set_difference a b) = is_cofinite a && negb (is_cofinite b).
Proof. by destruct a, b. Qed.

Lemma names_union a b x : x ∈ names (set_union a b) → x ∈ names a ∨ x ∈ names b.
Proof. destruct a, b; simpl; rewrite ?elem_of_app, ?bs_extend_elem, ?retain_elem, ?elem_of_app; tauto. Qed.
Lemma names_intersection a b x : x ∈ names (set_intersection a b) → x ∈ names a ∨ x ∈ names b.
Proof. destruct a, b; simpl; rewrite ?elem_of_app, ?retain_elem, ?bs_extend_elem, ?elem_of_app; tauto. Qed.
Lemma names_difference a b x : x ∈ names (set_difference a b) → x ∈ names a ∨ x ∈ names b.
Proof. destruct a, b; simpl; rewrite ?elem_of_app, ?bs_extend_elem, ?retain_elem, ?elem_of_app; tauto. Qed.

End algebra.

(** ** Subjects *)

(** [filter_matches] *)
Definition filter_matches (filter : UserTypeFilter) (s : SubjectRef) : bool :=
  if negb (bool_decide (filter.(uf_user_type) = subject_type s)) then false
  else match filter.(uf_relation), s with
       | None, SubjObject _ | None, SubjWildcard _ => true
       | Some expected, SubjUserset u => bool_decide (expected = u.(us_relation))
       | _, _ => false
       end.

(** [SymbolicSet::into_subjects] *)
Definition into_subjects (s : SymbolicSet SubjectRef) (filter : UserTypeFilter) : BTreeSet SubjectRef :=
  match s with
  | Finite subjects => subjects
  | Cofinite excluded included =>
      bs_insert (SubjWildcard filter.(uf_user_type)) (retain (fun x => negb (bs_contains x excluded)) included)
  end.

(** The subject belongs to the set: an object explicitly or through the
    wildcard, the wildcard itself when the set is a complement. *)
Definition contains (s : SymbolicSet SubjectRef) (x : SubjectRef) : Prop :=
  match x with SubjWildcard _ => is_cofinite s = true | _ => has s x end.

Lemma contains_union a b x : contains (set_union a b) x ↔ contains a x ∨ contains b x.
Proof. destruct x; simpl; [apply has_union|apply has_union|]. by rewrite cofinite_union, orb_true_iff. Qed.
Lemma contains_intersection a b x : contains (set_intersection a b) x ↔ contains a x ∧ contains b x.
Proof. destruct x; simpl; [apply has_intersection|apply has_intersection|]. by rewrite cofinite_intersection, andb_true_iff. Qed.
Lemma contains_difference a b x : contains (set_difference a b) x ↔ contains a x ∧ ¬ contains b x.
Proof.
  destruct x; simpl; [apply has_difference|apply has_difference|].
  rewrite cofinite_difference, andb_true_iff, negb_true_iff, not_true_iff_false. done.
Qed.

(** What the public result shows of a set. *)
Lemma into_subjects_elem s filter x : x ∈ into_subjects s filter ↔
  match s with
  | Finite values => x ∈ values
  | Cofinite excluded included => x = SubjWildcard filter.(uf_user_type) ∨ (x ∈ included ∧ (x ∉ excluded))
  end.
Proof.
  destruct s; simpl; [done|]. rewrite bs_insert_elem, retain_elem, contains_dec, negb_true_iff, bool_decide_eq_false. tauto.
Qed.

(** ** Listing the users of a relation

    [crates/openfga-list/src/list_users.rs]: the forward expansion of one
    relation into a symbolic set of subjects, with cycles cut along the path,
    a cache of the rows read and independent budgets. *)

(** ** State *)

Record RelationKey := mkRelationKey { uk_object : ObjectRef; uk_relation : RelationId }.
#[export] Instance RelationKey_eq_dec : EqDecision RelationKey.
Proof. solve_decision. Defined.
Definition relation_key_key (k : RelationKey) : ObjectRef * RelationId := (k.(uk_object), k.(uk_relation)).
#[export] Instance relation_key_key_inj : Inj (=) (=) relation_key_key.
Proof. intros [] []; unfold relation_key_key; simpl; intros; by simplify_eq. Qed.
#[export] Instance ord_RelationKey : Ord RelationKey := ord_via relation_key_key.
#[export] Instance ord_laws_RelationKey : OrdLaws RelationKey := ord_laws_via relation_key_key.

Record UserCounters := mkUserCounters {
  uc_dispatches : N;
  uc_datastore_queries : N;
  uc_tuple_items : N;
  uc_condition_cost : N;
  uc_maximum_depth : N;
}.

(** The mutable fields of [Evaluator]. *)
Record UserEvaluator := mkUserEvaluator {
  ue_cache : BTreeMap RelationKey (list RelationshipTuple);
  ue_counters : UserCounters;
}.
Definition user_evaluator_default : UserEvaluator := mkUserEvaluator [] (mkUserCounters 0 0 0 0 0).

Record UserExpansion := mkUserExpansion { ux_set : SymbolicSet SubjectRef; ux_has_cycle : bool }.
Definition expansion_set (s : SymbolicSet SubjectRef) : UserExpansion := mkUserExpansion s false.
Definition expansion_cycle : UserExpansion := mkUserExpansion set_empty true.

(** ** Errors *)

Definition users_depth_exceeded : ListError := list_error LDepthExceeded "list_users_depth_exceeded".
Definition users_dispatch_exceeded : ListError := list_error LDispatchExceeded "list_users_dispatch_exceeded".
Definition users_query_exceeded : ListError := list_error LDatastoreQueryExceeded "list_users_datastore_query_exceeded".
Definition users_items_exceeded : ListError := list_error LTupleItemExceeded "list_users_tuple_items_exceeded".
Definition subject_exceeded : ListError := list_error LSubjectExceeded "list_users_subjects_exceeded".
Definition users_cost_exceeded : ListError := list_error LConditionCostExceeded "list_users_condition_cost_exceeded".

(** ** Expansion *)

Inductive UserTarget := UTRelation (object : ObjectRef) (r : RelationId) | UTNode (object : ObjectRef) (n : NodeId).

Section users.
Context `{ConditionEngine}.
Variable command : ListUsersCommand.
Variable m : CompiledModel.
Variable budget : ListUsersBudget.
Variable limits : InputLimits.
Variable w : ListWorld.
Variable maximum_per_read : N.

Abbreviation U := (Eng UserEvaluator).
Abbreviation operation := (query_operation command.(luc_query)).

Definition upd_user_counters (f : UserCounters → UserCounters) : U () :=
  eng_modify (fun e => mkUserEvaluator e.(ue_cache) (f e.(ue_counters))).

(** [consume_dispatch] *)
Definition consume_dispatch : U () :=
  e ← eng_get;
  n ← eng_lift (ok_or (checked_add U32_MAX e.(ue_counters).(uc_dispatches) 1) users_dispatch_exceeded);
  upd_user_counters (fun c => mkUserCounters n c.(uc_datastore_queries) c.(uc_tuple_items) c.(uc_condition_cost)
                                c.(uc_maximum_depth));;
  if (budget.(lub_dispatches) <? n)%N then eng_fail users_dispatch_exceeded else mret ().

(** [check_depth] *)
Definition users_check_depth (depth : N) : U () :=
  if (budget.(lub_depth) <? depth)%N then eng_fail users_depth_exceeded
  else upd_user_counters (fun c => mkUserCounters c.(uc_dispatches) c.(uc_datastore_queries) c.(uc_tuple_items)
                                     c.(uc_condition_cost) (N.max c.(uc_maximum_depth) depth)).

(** [charge_tuple_items] *)
Definition users_charge_items (stored contextual : nat) : U () :=
  count ← eng_lift (ok_or (c ← checked_add USIZE_MAX (N.of_nat stored) (N.of_nat contextual); try_u32 c)
                      users_items_exceeded);
  e ← eng_get;
  n ← eng_lift (ok_or (checked_add U32_MAX e.(ue_counters).(uc_tuple_items) count) users_items_exceeded);
  upd_user_counters (fun c => mkUserCounters c.(uc_dispatches) c.(uc_datastore_queries) n c.(uc_condition_cost)
                                c.(uc_maximum_depth));;
  if (budget.(lub_tuple_items) <? n)%N then eng_fail users_items_exceeded else mret ().

(** [check_subject_count] and [check_set] *)
Definition check_subject_count (count : N) : U () :=
  n ← eng_lift (ok_or (try_u32 count) subject_exceeded);
  if (budget.(lub_subjects) <? n)%N then eng_fail subject_exceeded else mret ().
Definition check_set (s : SymbolicSet SubjectRef) : U () := check_subject_count (tracked_len s).

(** [read_relation] *)
Definition read_relation (object : ObjectRef) (r : RelationId) : U (list RelationshipTuple) :=
  let key := mkRelationKey object r in
  e ← eng_get;
  match bt_get key e.(ue_cache) with
  | Some rows => mret rows
  | None =>
      eng_check w operation;;
      e ← eng_get;
      n ← eng_lift (ok_or (checked_add U32_MAX e.(ue_counters).(uc_datastore_queries) 1) users_query_exceeded);
      upd_user_counters (fun c => mkUserCounters c.(uc_dispatches) n c.(uc_tuple_items) c.(uc_condition_cost)
                                    c.(uc_maximum_depth));;
      (if (budget.(lub_datastore_queries) <? n)%N then eng_fail users_query_exceeded else mret ());;
      rel ← eng_lift (map_err (list_model_error "list_users_read_relation_invalid") (relation m r));
      filter ← eng_lift (map_err list_storage_error
                           (object_relation_filter_new object rel.(cr_name) [] CFAny limits));
      tk ← eng_tick;
      stream ← eng_lift (map_err list_storage_error
                           (lw_forward w tk command.(luc_query).(qc_store_id) filter maximum_per_read));
      rows ← eng_lift (collect_stream stream);
      let contextual :=
        base.filter (fun t => t.(rt_key).(tk_object) = object ∧ t.(rt_key).(tk_relation) = rel.(cr_name))
          command.(luc_query).(qc_contextual_tuples) in
      users_charge_items (length rows) (length contextual);;
      let rows := base.filter (fun t => is_ok (validate_relationship_tuple m t) = true) rows ++ contextual in
      eng_modify (fun e => mkUserEvaluator (bt_insert key rows e.(ue_cache)) e.(ue_counters));;
      mret rows
  end.

(** [condition_met] *)
Definition users_condition_met (t : RelationshipTuple) : U bool :=
  match t.(rt_condition) with
  | Unconditional => mret true
  | Conditional binding =>
      eng_check w operation;;
      cid ← eng_lift (map_err (list_model_error "list_users_condition_missing") (condition_id m binding.(cb_name)));
      c ← eng_lift (map_err (list_model_error "list_users_condition_invalid") (condition m cid));
      e ← eng_get;
      remaining ← eng_lift (ok_or (r ← checked_sub budget.(lub_condition_cost) e.(ue_counters).(uc_condition_cost);
                                   if (r =? 0)%N then None else Some r) users_cost_exceeded);
      cb ← eng_lift (ok_or (evaluation_budget_new remaining) users_cost_exceeded);
      tk ← eng_tick;
      let evaluated := evaluate c command.(luc_query).(qc_condition_context) binding.(cb_context) cb (lw_poll w tk) in
      eng_check w operation;;
      match evaluated with
      | Ok outcome =>
          cost ← eng_lift (ok_or (try_u32 outcome.(outcome_cost)) users_cost_exceeded);
          e ← eng_get;
          total ← eng_lift (ok_or (checked_add U32_MAX e.(ue_counters).(uc_condition_cost) cost) users_cost_exceeded);
          upd_user_counters (fun c => mkUserCounters c.(uc_dispatches) c.(uc_datastore_queries) c.(uc_tuple_items)
                                        total c.(uc_maximum_depth));;
          if (budget.(lub_condition_cost) <? total)%N then eng_fail users_cost_exceeded
          else mret outcome.(condition_met)
      | Err ECostExceeded => eng_fail users_cost_exceeded
      | Err ECancelled =>
          eng_check w operation;; eng_fail (list_condition_error "list_users_condition_cancelled" ECancelled)
      | Err e => eng_fail (list_condition_error "list_users_condition_evaluation_failed" e)
      end
  end.

Section step.
Variable filter : UserTypeFilter.
Variable expand : UserTarget → BTreeSet RelationKey → N → U UserExpansion.

(** [expand_relation] *)
Definition expand_relation (object : ObjectRef) (r : RelationId) (visited : BTreeSet RelationKey) (depth : N) :
    U UserExpansion :=
  eng_check w operation;;
  consume_dispatch;;
  depth ← eng_lift (ok_or (checked_add U32_MAX depth 1) users_depth_exceeded);
  users_check_depth depth;;
  let key := mkRelationKey object r in
  if bs_contains key visited then mret expansion_cycle
  else
    compiled ← eng_lift (map_err (list_model_error "list_users_relation_invalid") (relation m r));
    set ← (if bool_decide (filter.(uf_user_type) = object.(object_type)) &&
              bool_decide (filter.(uf_relation) = Some compiled.(cr_name))
           then u ← eng_lift (map_err (fun _ => list_internal "list_users_userset_render_invalid")
                                (userset_ref_new object compiled.(cr_name) limits));
                mret (set_singleton (SubjUserset u))
           else mret set_empty);
    rewrite ← expand (UTNode object compiled.(cr_root)) (bs_insert key visited) depth;
    let set := set_union set rewrite.(ux_set) in
    check_set set;;
    mret (mkUserExpansion set rewrite.(ux_has_cycle)).

(** One row of [expand_direct]. *)
Definition direct_subject (visited : BTreeSet RelationKey) (depth : N) (acc : UserExpansion) (t : RelationshipTuple) :
    U UserExpansion :=
  met ← users_condition_met t;
  if negb met then mret acc
  else
    acc ← match t.(rt_key).(tk_subject) with
          | SubjUserset u =>
              r ← eng_lift (map_err (list_model_error "list_users_direct_userset_invalid")
                              (relation_id m u.(us_object).(object_type) u.(us_relation)));
              expanded ← expand (UTRelation u.(us_object) r) visited depth;
              mret (mkUserExpansion (set_union acc.(ux_set) expanded.(ux_set))
                      (acc.(ux_has_cycle) || expanded.(ux_has_cycle)))
          | SubjWildcard _ =>
              mret (if filter_matches filter t.(rt_key).(tk_subject)
                    then mkUserExpansion (set_union acc.(ux_set) (Cofinite [] [])) acc.(ux_has_cycle) else acc)
          | SubjObject _ =>
              mret (if filter_matches filter t.(rt_key).(tk_subject)
                    then mkUserExpansion (set_union acc.(ux_set) (set_singleton t.(rt_key).(tk_subject)))
                           acc.(ux_has_cycle)
                    else acc)
          end;
    check_set acc.(ux_set);;
    mret acc.

(** [expand_direct] *)
Definition expand_direct (object : ObjectRef) (r : RelationId) (visited : BTreeSet RelationKey) (depth : N) :
    U UserExpansion :=
  rows ← read_relation object r;
  eng_fold (direct_subject visited depth) (expansion_set set_empty) rows.

(** One target of one row of [expand_ttu]. *)
Definition ttu_subject (target_object : ObjectRef) (visited : BTreeSet RelationKey) (depth : N)
    (set : SymbolicSet SubjectRef) (target : RelationId) : U (SymbolicSet SubjectRef) :=
  rel ← eng_lift (map_err (list_model_error "list_users_ttu_target_invalid") (relation m target));
  target_type ← eng_lift (map_err (list_model_error "list_users_ttu_target_type_invalid")
                            (type_name m rel.(cr_object_type)));
  if negb (bool_decide (target_type = target_object.(object_type))) then mret set
  else
    expanded ← expand (UTRelation target_object target) visited depth;
    let set := set_union set expanded.(ux_set) in
    check_set set;;
    mret set.

(** [expand_ttu] *)
Definition expand_ttu (object : ObjectRef) (tupleset : RelationId) (targets : list RelationId)
    (visited : BTreeSet RelationKey) (depth : N) : U UserExpansion :=
  rows ← read_relation object tupleset;
  set ← eng_fold (fun set t =>
          met ← users_condition_met t;
          if negb met then mret set
          else match t.(rt_key).(tk_subject) with
               | SubjObject target_object => eng_fold (ttu_subject target_object visited depth) set targets
               | _ => mret set
               end) set_empty rows;
  mret (expansion_set set).

(** A node below the current one. *)
Definition expand_child (object : ObjectRef) (visited : BTreeSet RelationKey) (depth : N)
    (op : SymbolicSet SubjectRef → SymbolicSet SubjectRef → SymbolicSet SubjectRef)
    (set : SymbolicSet SubjectRef) (child : NodeId) : U (SymbolicSet SubjectRef) :=
  e ← expand (UTNode object child) visited depth;
  let set := op set e.(ux_set) in
  check_set set;;
  mret set.

(** [expand_intersection] *)
Definition expand_intersection (object : ObjectRef) (children : list NodeId) (visited : BTreeSet RelationKey)
    (depth : N) : U UserExpansion :=
  match children with
  | [] => eng_fail (list_internal "list_users_intersection_empty")
  | first :: children =>
      e ← expand (UTNode object first) visited depth;
      set ← eng_fold (expand_child object visited depth set_intersection) e.(ux_set) children;
      mret (expansion_set set)
  end.

(** [expand_node] *)
Definition users_expand_node (object : ObjectRef) (n : NodeId) (visited : BTreeSet RelationKey) (depth : N) :
    U UserExpansion :=
  eng_check w operation;;
  consume_dispatch;;
  rewrite ← eng_lift (map_err (list_model_error "list_users_node_invalid") (node m n));
  match rewrite with
  | NDirect r => expand_direct object r visited depth
  | NComputed r => expand (UTRelation object r) visited depth
  | NTupleToUserset tupleset _ targets => expand_ttu object tupleset targets visited depth
  | NUnion children =>
      set ← eng_fold (expand_child object visited depth set_union) set_empty children;
      mret (expansion_set set)
  | NIntersection children => expand_intersection object children visited depth
  | NDifference base subtract =>
      base ← expand (UTNode object base) visited depth;
      subtract ← expand (UTNode object subtract) visited depth;
      if subtract.(ux_has_cycle) then mret (expansion_set set_empty)
      else
        let set := set_difference base.(ux_set) subtract.(ux_set) in
        check_set set;;
        mret (expansion_set set)
  end.

End step.

(** The recursion; every level consumes a dispatch. *)
Fixpoint users_expand (filter : UserTypeFilter) (fuel : nat) (t : UserTarget) (visited : BTreeSet RelationKey) (depth : N) :
    U UserExpansion :=
  match fuel with
  | 0 => eng_fuel
  | S fuel =>
      match t with
      | UTRelation object r => expand_relation filter (users_expand filter fuel) object r visited depth
      | UTNode object n => users_expand_node filter (users_expand filter fuel) object n visited depth
      end
  end.

Definition users_fuel : nat := S (N.to_nat budget.(lub_dispatches)).

(** One filter of the command. *)
Definition list_filter (root : RelationId) (users : BTreeSet SubjectRef) (filter : UserTypeFilter) : U (BTreeSet SubjectRef) :=
  expansion ← users_expand filter users_fuel (UTRelation command.(luc_object) root) [] 0;
  let users := bs_extend users (into_subjects expansion.(ux_set) filter) in
  check_subject_count (len users);;
  mret users.

End users.

(** ** The engine *)

Record ListUsersMetadata := mkListUsersMetadata {
  lum_counters : UserCounters;
  lum_results : N;
  lum_truncated : bool;
}.
Record ListUsersOutcome := mkListUsersOutcome {
  luo_users : list SubjectRef;
  luo_metadata : ListUsersMetadata;
}.

(** [validate_filters] *)
Definition validate_filters `{ConditionEngine} (command : ListUsersCommand) (m : CompiledModel) : result ListError () :=
  try_each (fun filter =>
    _ ← map_err (list_model_error "list_users_filter_type_not_found") (type_id m filter.(uf_user_type));
    match filter.(uf_relation) with
    | Some r => _ ← map_err (list_model_error "list_users_filter_relation_not_found")
                       (relation_id m filter.(uf_user_type) r);
                Ok ()
    | None => Ok ()
    end) command.(luc_filters).

(** [DirectListUsersEngine::list_users] with [Evaluator::new] *)
Definition list_users `{ConditionEngine} (command : ListUsersCommand) (m : CompiledModel) (budget : ListUsersBudget)
    (limits : InputLimits) (w : ListWorld) : result ListFault ListUsersOutcome :=
  _ ← map_err LFail (validate_query_model command.(luc_query) m);
  _ ← map_err LFail (validate_contextual command.(luc_query) m);
  root ← map_err LFail (map_err (list_model_error "list_users_relation_not_found")
           (relation_id m command.(luc_object).(object_type) command.(luc_relation)));
  _ ← map_err LFail (validate_filters command m);
  maximum_per_read ← map_err (fun _ => LFail (list_internal "list_users_forward_read_limit_invalid"))
                       (limit_new 100000 (N.min budget.(lub_tuple_items) 100000));
  '(users, e, _) ← eng_fold (list_filter command m budget limits w maximum_per_read root) [] command.(luc_filters)
                     user_evaluator_default 0;
  let maximum := N.to_nat command.(luc_maximum_results) in
  let shown := take maximum users in
  results ← map_err LFail (ok_or (try_u32 (len shown)) subject_exceeded);
  Ok (mkListUsersOutcome shown
        (mkListUsersMetadata e.(ue_counters) results (bool_decide (maximum < length users)))).
