(* ===== verification/ListUsersSpec.v ===== *)
(** * Decisions about every operand

    An expansion evaluates every operand of a node, so a decision follows from
    the decisions of all of them; and what a check allows, the reachability
    metadata admits. *)

From S2P Require Import Prelude Ordered Identifier Reference Condition Storage Model Graph GraphTheory.
From S2P Require Import TupleValidation Budget Reducer Scheduler CheckSpec Membership Restrictions.
From S2P Require Import ModelTyping Evaluator ListCommon Candidates CandidatesTheory ListSpec.

Section decided.
Context `{ConditionEngine}.
Variable env : CheckEnv.
Variable stored : ObjectRef → RelationName → list RelationshipTuple.

Abbreviation model := env.(env_model).

(** ** Operands that are all decided *)

Definition decided (op : Operand) (b : bool) : Prop := ∃ d, OpDecides env stored op d ∧ d.(allowed) = b.

(** Every operand is decided, and one of them is allowed exactly when [P]. *)
Definition ops_say (ops : list Operand) (P : Prop) : Prop :=
  (∀ op, op ∈ ops → ∃ b, decided op b) ∧ (P ↔ ∃ op, op ∈ ops ∧ decided op true).

#[export] Instance ops_say_proper ops : Proper (iff ==> iff) (ops_say ops).
Proof. intros P Q HPQ. unfold ops_say. by rewrite HPQ. Qed.

Lemma decided_unique op b b' : decided op b → decided op b' → b = b'.
Proof. intros (d & Hd & <-) (d' & Hd' & <-). by rewrite (OpDecides_unique _ _ _ _ _ Hd Hd'). Qed.

Lemma ops_say_nil P : ¬ P → ops_say [] P.
Proof. intros HP. split; [by intros ? []%not_elem_of_nil|]. split; [done|]. by intros (? & []%not_elem_of_nil & _). Qed.

Lemma ops_say_allow P : P → ops_say [OAllow] P.
Proof.
  intros HP. assert (Hd : decided OAllow true) by (exists (allow RDirect); split; [constructor|done]).
  split; [intros ? ->%list_elem_of_singleton; eauto|]. split; [|done]. intros _. exists OAllow. by split; [left|].
Qed.

Lemma ops_say_task t d P : Decides env stored t d → (d.(allowed) = true ↔ P) → ops_say [OTask t] P.
Proof.
  intros Hd HP. assert (Hop : decided (OTask t) d.(allowed)) by (exists d; split; [by constructor|done]).
  split; [intros ? ->%list_elem_of_singleton; eauto|]. rewrite <-HP. split.
  - intros Ha. exists (OTask t). rewrite <-Ha. by split; [left|].
  - intros (? & ->%list_elem_of_singleton & Ht). exact (decided_unique _ _ _ Hop Ht).
Qed.

Lemma ops_say_app ops ops' P P' Q : ops_say ops P → ops_say ops' P' → (Q ↔ P ∨ P') → ops_say (ops ++ ops') Q.
Proof.
  intros [H1 E1] [H2 E2] ->. split.
  - intros op [?|?]%elem_of_app; auto.
  - rewrite E1, E2. setoid_rewrite elem_of_app. naive_solver.
Qed.

Lemma ops_say_ext ops ops' P : (∀ op, op ∈ ops ↔ op ∈ ops') → ops_say ops P → ops_say ops' P.
Proof. intros Hs [H1 E1]. split; [intros op ?%Hs; auto|]. rewrite E1. by setoid_rewrite Hs. Qed.

Lemma all_decided ops : (∀ op, op ∈ ops → ∃ b, decided op b) →
  ∃ ds, length ds = length ops ∧ ∀ i op d, ops !! i = Some op → ds !! i = Some d → OpDecides env stored op d.
Proof.
  intros Hops. destruct (outcomes_exist env stored (fun _ => True) ops) as (ds & Hl & Hds).
  { intros op (b & d & Hd & _)%Hops. eauto. }
  exists ds. split; [done|]. intros i op d Ho Hd. by apply (Hds i op d).
Qed.

(** A node whose operands are all decided is decided by what they say. *)
Lemma decides_all t kind r ops ds d : expand env stored t = XNode kind r ops → length ds = length ops →
  (∀ i op d, ops !! i = Some op → ds !! i = Some d → OpDecides env stored op d) →
  combine kind r (Ok <$> ds) = Ok d → Decides env stored t d.
Proof.
  intros Hx Hl Hds Hc. eapply Decides_node; [done| | |done]; [by rewrite length_fmap|].
  intros i op d' Hop Hi. rewrite list_lookup_fmap in Hi. destruct (ds !! i) eqn:E; simplify_eq/=. eauto.
Qed.

Lemma union_decides t r ops P : expand env stored t = XNode RkUnion r ops → ops_say ops P →
  ∃ d, Decides env stored t d ∧ (d.(allowed) = true ↔ P).
Proof.
  intros Hx [Hops HP]. setoid_rewrite HP. clear P HP.
  assert (Hdec : (∃ op, op ∈ ops ∧ decided op true) ∨ ∀ op, op ∈ ops → decided op false).
  { clear Hx. induction ops as [|op ops IH]; [right; by intros ? []%not_elem_of_nil|].
    destruct (Hops op) as [[] Hb]; [by left|left; exists op; by split; [left|]|].
    destruct IH as [(op' & ? & ?)|Hall]; [intros; apply Hops; by right|left; exists op'; by split; [right|]|].
    right. intros op' [->|?]%elem_of_cons; auto. }
  destruct Hdec as [(op & Hop & d' & Hd' & Ha)|Hall].
  - eexists. split; [eapply Decides_forced; [done|by eapply forced_union_allow]|]. simpl. split; [|done].
    intros _. exists op. split; [done|by exists d'].
  - eexists. split; [eapply Decides_forced; [done|by apply forced_union_deny]|]. simpl. split; [done|].
    intros (op & Hop & Ht). by pose proof (decided_unique _ _ _ Ht (Hall op Hop)).
Qed.

Lemma intersection_decides t r ops P : expand env stored t = XNode RkIntersection r ops →
  (∀ op, op ∈ ops → ∃ b, decided op b) → (P ↔ ∀ op, op ∈ ops → decided op true) →
  ∃ d, Decides env stored t d ∧ (d.(allowed) = true ↔ P).
Proof.
  intros Hx Hops HP. setoid_rewrite HP. clear P HP. destruct (all_decided ops Hops) as (ds & Hl & Hds).
  assert (Hat : ∀ i op, ops !! i = Some op → ∃ d, ds !! i = Some d ∧ OpDecides env stored op d).
  { intros i op Hi. destruct (lookup_lt_is_Some_2 ds i) as [d Hd]; [rewrite Hl; by eapply lookup_lt_Some|]. eauto. }
  destruct (combine RkIntersection r (Ok <$> ds)) as [d|e] eqn:Ec.
  - exists d. split; [by eapply decides_all|].
    apply combine_intersection_ok in Ec as [(-> & i & d' & Hi & Ha)|(-> & Hall)]; simpl.
    + split; [done|]. intros Ht. rewrite list_lookup_fmap in Hi. destruct (ds !! i) as [d2|] eqn:E; simplify_eq/=.
      destruct (lookup_lt_is_Some_2 ops i) as [op Hop]; [rewrite <-Hl; by eapply lookup_lt_Some|].
      destruct (Ht op) as (d2 & Hd2 & Ha2); [by eapply list_elem_of_lookup_2|].
      rewrite (OpDecides_unique _ _ _ _ _ Hd2 (Hds _ _ _ Hop E)) in Ha2. congruence.
    + split; [|done]. intros _ op [i Hi]%list_elem_of_lookup. destruct (Hat _ _ Hi) as (d' & Hd' & Ho).
      exists d'. split; [done|]. destruct (Hall i (Ok d')) as (? & [= <-] & ?); [|done]. by rewrite list_lookup_fmap, Hd'.
  - exfalso. unfold combine in Ec. case_match; [done|]. unfold or_first_error in Ec.
    destruct (first_error (Ok <$> ds)) eqn:E; [|done].
    assert (Hn : first_error (Ok <$> ds) = None); [|congruence].
    apply first_error_None. intros i e' Hi. rewrite list_lookup_fmap in Hi. destruct (ds !! i); simplify_eq/=. eauto.
Qed.

Lemma difference_decides t r a b da db P : expand env stored t = XNode RkDifference r [OTask a; OTask b] →
  Decides env stored a da → Decides env stored b db → (P ↔ da.(allowed) = true ∧ db.(allowed) ≠ true) →
  ∃ d, Decides env stored t d ∧ (d.(allowed) = true ↔ P).
Proof.
  intros Hx Ha Hb HP. setoid_rewrite HP. clear P HP. assert (Hds : ∀ i op d, [OTask a; OTask b] !! i = Some op → [da; db] !! i = Some d → OpDecides env stored op d).
  { intros [|[|i]] op d; simpl; [intros [= <-] [= <-]; by constructor..|done]. }
  exists (if da.(allowed) && negb db.(allowed) then allow (default RDifference r) else deny RDenied). split.
  - eapply (decides_all t RkDifference r _ [da; db]); [done..|]. apply combine_difference_ok. simpl.
    destruct da as [[] ?], db as [[] ?]; simpl; auto.
  - destruct da as [[] ?], db as [[] ?]; simpl; naive_solver.
Qed.

Lemma single_decides t r t' d P : expand env stored t = XNode RkSingle r [OTask t'] →
  Decides env stored t' d → (d.(allowed) = true ↔ P) → ∃ d', Decides env stored t d' ∧ (d'.(allowed) = true ↔ P).
Proof.
  intros Hx Hd HP. destruct (combine RkSingle r (Ok <$> [d])) as [d'|] eqn:Ec; [|done].
  exists d'. split.
  - eapply (decides_all t RkSingle r _ [d]); [done..| |done].
    intros [|i] op x; simpl; [intros [= <-] [= <-]; by constructor|done].
  - apply combine_single_ok in Ec as (? & ? & [= <- _] & ->). done.
Qed.

(** ** What is allowed is reachable *)

Context `{!TypedModel model, !GraphLaws model}.

(** Some operand of an allowed node is allowed: the base of an exclusion. *)
Definition task_reaches (t : Task) : Prop :=
  match t with
  | TSemantic k _ => Membership.reaches env k.(sk_relation) k.(sk_subject)
  | TRewrite _ n s _ => ∀ r rel, relation model r = Ok rel → in_rewrite (model_nodes model) rel.(cr_root) n →
      Membership.reaches env r s
  end.
Definition op_reaches (op : Operand) : Prop := match op with OTask t => task_reaches t | _ => True end.

Lemma node_fact n nd r rel : node model n = Ok nd → relation model r = Ok rel →
  in_rewrite (model_nodes model) rel.(cr_root) n → ∀ (fact : RewriteNode → nat → Prop) x, fact nd x →
  relation_fact (model_nodes model) (model_relations model) fact r x.
Proof.
  intros Hn%ok_or_ok Hr%ok_or_ok Hin fact x Hf. exists rel.
  split; [by eapply list_elem_of_lookup_2|]. split; [by apply graph_indexed|]. by exists n, nd.
Qed.

Lemma direct_operand_reaches r nd owner orel t s path op :
  nd = NDirect owner → relation model owner = Ok orel →
  (∀ (fact : RewriteNode → nat → Prop) x, fact nd x →
     relation_fact (model_nodes model) (model_relations model) fact r x) →
  op ∈ direct_operands env s path orel.(cr_restrictions) t → op ≠ OError → op_reaches op → Membership.reaches env r s.
Proof.
  intros Hnd Ho%ok_or_ok Hfact Hop Hne Hreach. destruct (direct_operand_inv _ _ _ _ _ _ Hop Hne) as (class & Hm & Hs).
  eapply (direct_reaches env r nd owner orel t class s Hnd Ho Hfact Hm).
  pose proof Hm as (ty & d & _ & _ & _ & _ & Hf)%matching_restriction_Some.
  destruct Hs as [Hs|(r' & u & -> & Hu & ->)]; [|by right].
  destruct class; [|destruct Hf as (u & Hu & _)|done]; (destruct Hs as [Hs|Hs]; [auto|]); [|by rewrite Hu in Hs].
  destruct Hf as [x Hx]. by rewrite Hx in Hs.
Qed.

Lemma expand_reaches t kind r ops i op : expand env stored t = XNode kind r ops → ops !! i = Some op →
  op ≠ OError → op_reaches op → (kind = RkDifference → i = 0) → task_reaches t.
Proof.
  intros Hx Hi Hne Hop Hdiff. pose proof (list_elem_of_lookup_2 _ _ _ Hi) as Hin.
  destruct t as [k path|o n s path]; simpl in Hx.
  - repeat (case_match; try done). simplify_eq. apply list_elem_of_singleton in Hin as ->. simpl in *.
    eapply Hop; [done|apply rtc_refl].
  - destruct (node model n) as [nd|] eqn:En; [|done]. intros j rel Hj Hjn.
    assert (Hchild : ∀ c, c ∈ node_children nd → task_reaches (TRewrite o c s path) → Membership.reaches env j s).
    { intros c Hc Ht. eapply Ht; [done|]. eapply rtc_r; [done|]. unfold successors.
      apply ok_or_ok in En. by rewrite En. }
    pose proof (node_fact n nd j rel En Hj Hjn) as Hfact.
    destruct nd as [rid|rid|ts c targets|cs|cs|b sub]; unfold read_expansion in Hx.
    + destruct (relation model rid) as [orel|] eqn:Er; [|done]. simplify_eq.
      apply list_elem_of_bind in Hin as (t & Hin & Ht). by eapply (direct_operand_reaches j _ rid orel t s path op).
    + simplify_eq. apply list_elem_of_singleton in Hin as ->.
      apply (reaches_depends env j rid); [apply Hfact; constructor|done].
    + destruct (relation model ts) as [orel|] eqn:Er; [|done]. simplify_eq.
      apply list_elem_of_bind in Hin as (t & Hin & Ht).
      destruct (ttu_operand_inv _ _ _ _ _ _ _ Hin Hne) as (_ & x & target & _ & Htg & _ & ->).
      apply (reaches_depends env j target); [apply Hfact; by constructor|done].
    + simplify_eq. apply list_elem_of_fmap in Hin as (c & -> & Hc). by eapply Hchild.
    + simplify_eq. apply list_elem_of_fmap in Hin as (c & -> & Hc). by eapply Hchild.
    + simplify_eq. rewrite Hdiff in Hi by done. simplify_eq/=. eapply Hchild; [by left|done].
Qed.

Lemma decides_reaches t d : Decides env stored t d → d.(allowed) = true → task_reaches t.
Proof.
  revert t d. apply (Decides_mut env stored
    (fun t d => d.(allowed) = true → task_reaches t) (fun op d => d.(allowed) = true → op ≠ OError ∧ op_reaches op)).
  - intros t d Hx Ha. exfalso. unfold expand, read_expansion in Hx. repeat (case_match; try done); by simplify_eq.
  - intros t kind r ops es d Hx Hlen _ IH Hc Ha.
    destruct (allowed_operand env stored t kind r ops es d) as (i & op & d' & Hi & Hop & Hd' & Hdiff); [done..|].
    destruct (IH i op d' Hop Hi Hd'). by eapply expand_reaches.
  - done.
  - intros t d _ IH Ha. split; [done|]. by apply IH.
Qed.

(** ** Rows *)

(** Restrictions of a relation of a typed model select without error. *)
Lemma matching_ok r rel t : relation model r = Ok rel → ∃ c, matching_restriction env t rel.(cr_restrictions) = Ok c.
Proof.
  intros Hr. assert (Hfirst : ∀ ty class c rs, (∀ d, d ∈ rs → d ∈ rel.(cr_restrictions)) →
    ∃ x, first_matching env ty class c rs = Ok x).
  { intros ty class c rs. induction rs as [|d rs IH]; intros Hsub; simpl; [eauto|].
    destruct IH as [x Hx]; [intros; apply Hsub; by right|]. case_match; [eauto|].
    assert (Hq : ∃ b, condition_requirement_matches env d.(dr_condition) c = Ok b).
    { destruct (dr_condition d) as [|id] eqn:Ed.
      - destruct c; simpl; eauto.
      - destruct (required_exists env r rel d id Hr (Hsub d ltac:(by left)) Ed) as [k Hk].
        destruct c; simpl; [eauto|]. rewrite Hk. simpl. eauto. }
    destruct Hq as [[] ->]; simpl; eauto. }
  unfold matching_restriction. destruct (type_id _ _); [|eauto].
  destruct (tk_subject (rt_key t)); [by apply Hfirst| |by apply Hfirst]. destruct (relation_id _ _ _); [by apply Hfirst|eauto].
Qed.

End decided.
