(* ===== verification/ListUsersTheory.v ===== *)
(** * Listing users against the check semantics

    The set an expansion returns holds exactly the objects and wildcards of the
    filter that a check of the same relation would allow. *)

From S2P Require Import Prelude Ordered Identifier Reference Condition Storage Model Graph GraphTheory.
From S2P Require Import TupleValidation Budget Reducer Scheduler CheckSpec Membership Restrictions.
From S2P Require Import ModelTyping Evaluator ListCommon Candidates CandidatesTheory ListSpec ListUsers.
From S2P Require Import ListUsersSpec.

(** The node subtracted by an exclusion reads no relation that leads to a cycle
    of relations. *)
Definition subtract_acyclic `{ConditionEngine} (m : CompiledModel) : Prop :=
  ∀ n base sub nd r r', node m n = Ok (NDifference base sub) → node m sub = Ok nd →
    node_edge m.(model_relations) nd r → rtc (depends m.(model_relations) m.(model_nodes)) r r' →
    ¬ tc (depends m.(model_relations) m.(model_nodes)) r' r'.

(** Lookups that a computation performed. *)
Ltac lookup_oks := repeat match goal with Hm : map_err _ _ = Ok _ |- _ => apply map_err_ok in Hm end.

Section users.
Context `{ConditionEngineLaws}.
Variable command : ListUsersCommand.
Variable m : CompiledModel.
Variable budget : ListUsersBudget.
Variable limits : InputLimits.
Variable w : ListWorld.
Variable maximum_per_read : N.
Variable table : list RelationshipTuple.

Abbreviation q := command.(luc_query).
Abbreviation env := (query_env q m).
Abbreviation stored := (table_rows table).
Abbreviation depends := (depends m.(model_relations) m.(model_nodes)).

Context `{!TypedModel m, !GraphLaws m}.
Hypothesis Hkeys : NoDup (rt_key <$> q.(qc_contextual_tuples)).
Hypothesis Hsnap : forward_snapshot (lw_forward w) q.(qc_store_id) table.
Hypothesis Hctx : validate_contextual q m = Ok ().
Hypothesis Hcurrent : contexts_current q m table.
Hypothesis Hacyclic : subtract_acyclic m.

(** ** Rows *)

Abbreviation valid_rows := (valid_rows q m table).

Definition cache_ok (e : UserEvaluator) : Prop :=
  ∀ k rows, bt_get k e.(ue_cache) = Some rows → valid_rows k.(uk_object) k.(uk_relation) rows.

Lemma read_relation_ok o r e n : cache_ok e →
  wp False (read_relation command m budget limits w maximum_per_read o r) (fun rows e' => cache_ok e' ∧ valid_rows o r rows) e n.
Proof.
  intros He. unfold read_relation. apply wp_bind, wp_get. intros n1. destruct (bt_get _ _) as [rows|] eqn:Ek.
  { apply wp_ret. split; [done|]. exact (He _ _ Ek). }
  unfold users_charge_items, upd_user_counters. wp_steps. case_match; wp_steps.
  case_match; wp_steps. lookup_oks.
  rename select (collect_stream _ = Ok _) into Hrows. apply try_collect_relabel in Hrows. split; [|by eapply read_rows].
  intros k rows. simpl. destruct (decide (k = mkRelationKey o r)) as [->|Hne].
  - rewrite bt_get_insert_eq. intros [= <-]. by eapply read_rows.
  - rewrite bt_get_insert_ne by done. apply He.
Qed.

(** The operands of a node that reads a relation come from the valid rows. *)
Lemma rows_operands o r rel rows (f : RelationshipTuple → list Operand) :
  relation m r = Ok rel → relation_of_type env r o → valid_rows o r rows →
  (∀ t, matching_restriction env t rel.(cr_restrictions) = Ok None → f t = []) →
  ∀ op, op ∈ rows ≫= f ↔ op ∈ rows_at env stored o rel.(cr_name) ≫= f.
Proof.
  intros Hr Hty (rel' & Hr' & Hrows) Hf op. rewrite Hr in Hr'. simplify_eq. rewrite !list_elem_of_bind. split.
  - intros (t & Hop & Ht%Hrows). exists t. tauto.
  - intros (t & Hop & Ht). exists t. split; [done|]. apply Hrows. split; [done|].
    apply (valid_row_class q m table Hkeys Hctx o r rel' t Hcurrent Hr Hty Ht). destruct (matching_ok env r rel' t Hr) as [[class|] Hm]; [eauto|].
    rewrite (Hf t Hm) in Hop. by apply not_elem_of_nil in Hop.
Qed.

Lemma condition_met_ok t e n : cache_ok e →
  wp False (users_condition_met command m budget w t)
    (fun met e' => cache_ok e' ∧ condition_holds env t = Some met) e n.
Proof.
  intros He. unfold users_condition_met, condition_holds. destruct (rt_condition t) as [|b]; [by apply wp_ret|].
  unfold upd_user_counters. wp_steps. lookup_oks. simpl.
  rename select (condition_id m _ = Ok _) into Hid. rename select (condition m _ = Ok _) into Hc. rewrite Hid, Hc.
  destruct (evaluate _ _ _ _ _) as [out|err] eqn:Ee; [|destruct err; wp_steps].
  wp_steps. case_match; wp_steps. split; [done|]. by eapply evaluate_value.
Qed.

(** ** What an expansion returns *)

Section filtered.
Variable filter : UserTypeFilter.
Hypothesis Htype : ∃ st, type_id m filter.(uf_user_type) = Ok st.

(** The objects and wildcards the filter asks for. *)
Definition subject_of (s : SubjectRef) : Prop :=
  filter_matches filter s = true ∧ match s with SubjUserset _ => False | _ => True end.

(** The questions on a path are the visited relations, asked for one subject. *)
Definition same_path (visited : BTreeSet RelationKey) (s : SubjectRef) (path : BTreeSet SemanticKey) : Prop :=
  ∀ o r, mkSemanticKey o r s ∈ path ↔ mkRelationKey o r ∈ visited.

Definition user_task (t : UserTarget) (s : SubjectRef) (path : BTreeSet SemanticKey) : Task :=
  match t with
  | UTRelation o r => TSemantic (mkSemanticKey o r s) path
  | UTNode o n => TRewrite o n s path
  end.

(** The visited relations lead to the target. *)
Definition placed (visited : BTreeSet RelationKey) (t : UserTarget) : Prop :=
  match t with
  | UTRelation o r => relation_of_type env r o ∧ ∀ k, k ∈ visited → tc depends k.(uk_relation) r
  | UTNode o n => ∃ r rel, relation m r = Ok rel ∧ type_name m rel.(cr_object_type) = Ok o.(object_type) ∧
      in_rewrite m.(model_nodes) rel.(cr_root) n ∧ ∀ k, k ∈ visited → rtc depends k.(uk_relation) r
  end.

Definition set_says (visited : BTreeSet RelationKey) (t : UserTarget) (set : SymbolicSet SubjectRef) : Prop :=
  ∀ s path, subject_of s → same_path visited s path →
    ∃ d, Decides env stored (user_task t s path) d ∧ (d.(allowed) = true ↔ contains set s).

Definition well_named (set : SymbolicSet SubjectRef) : Prop :=
  (∀ x, x ∈ names set → filter_matches filter x = true ∧ is_typed_wildcard x = false) ∧ (is_cofinite set = true → filter.(uf_relation) = None).

Definition leads_to_cycle (r : RelationId) : Prop := ∃ r', rtc depends r r' ∧ tc depends r' r'.
Definition cyclic (t : UserTarget) : Prop :=
  match t with
  | UTRelation _ r => leads_to_cycle r
  | UTNode _ n => ∃ nd r, node m n = Ok nd ∧ node_edge m.(model_relations) nd r ∧ leads_to_cycle r
  end.

Definition expansion_ok (visited : BTreeSet RelationKey) (t : UserTarget) (x : UserExpansion) : Prop :=
  set_says visited t x.(ux_set) ∧ well_named x.(ux_set) ∧ (x.(ux_has_cycle) = true → cyclic t).

(** *** Names *)

Lemma well_named_empty : well_named set_empty.
Proof. split; [by intros x []%not_elem_of_nil|done]. Qed.
Lemma well_named_union a b : well_named a → well_named b → well_named (set_union a b).
Proof.
  intros [Ha Ca] [Hb Cb]. split; [intros x [?|?]%names_union; auto|].
  rewrite cofinite_union, orb_true_iff. tauto.
Qed.
Lemma well_named_intersection a b : well_named a → well_named b → well_named (set_intersection a b).
Proof.
  intros [Ha Ca] [Hb Cb]. split; [intros x [?|?]%names_intersection; auto|].
  rewrite cofinite_intersection, andb_true_iff. tauto.
Qed.
Lemma well_named_difference a b : well_named a → well_named b → well_named (set_difference a b).
Proof.
  intros [Ha Ca] [Hb Cb]. split; [intros x [?|?]%names_difference; auto|].
  rewrite cofinite_difference, andb_true_iff. tauto.
Qed.
Lemma well_named_singleton x : filter_matches filter x = true → is_typed_wildcard x = false → well_named (set_singleton x).
Proof. intros Hx Hw. split; [by intros y ->%list_elem_of_singleton|done]. Qed.

Lemma contains_empty s : ¬ contains set_empty s.
Proof. destruct s; simpl; [apply not_elem_of_nil|apply not_elem_of_nil|done]. Qed.

(** *** Counters *)

Lemma consume_ok e n (Q : () → UserEvaluator → Prop) :
  (∀ e', e'.(ue_cache) = e.(ue_cache) → Q () e') → wp False (consume_dispatch budget) Q e n.
Proof. intros HQ. unfold consume_dispatch, upd_user_counters. wp_steps. case_match; wp_steps. by apply HQ. Qed.

Lemma depth_ok depth e n (Q : () → UserEvaluator → Prop) :
  (∀ e', e'.(ue_cache) = e.(ue_cache) → Q () e') → wp False (users_check_depth budget depth) Q e n.
Proof. intros HQ. unfold users_check_depth, upd_user_counters. case_match; wp_steps. by apply HQ. Qed.

Lemma check_set_ok set e n (Q : () → UserEvaluator → Prop) :
  Q () e → wp False (check_set budget set) Q e n.
Proof. intros HQ. unfold check_set, check_subject_count. wp_steps. by case_match; wp_steps. Qed.

Lemma cache_ok_same e e' : e'.(ue_cache) = e.(ue_cache) → cache_ok e → cache_ok e'.
Proof. unfold cache_ok. by intros ->. Qed.

(** ** One level *)

Section level.
Variable expand : UserTarget → BTreeSet RelationKey → N → Eng UserEvaluator UserExpansion.
Hypothesis Hexpand : ∀ t visited depth e n, cache_ok e → placed visited t →
  wp False (expand t visited depth) (fun x e' => cache_ok e' ∧ expansion_ok visited t x) e n.

Lemma subject_known s : subject_of s → ∃ st, type_id m (subject_type s) = Ok st.
Proof.
  intros [Hm _]. unfold filter_matches in Hm. case_bool_decide as Hs; [|done]. rewrite <-Hs. exact Htype.
Qed.

Lemma subject_object_filter s : subject_of s → filter.(uf_relation) = None.
Proof.
  intros [Hm Hs]. unfold filter_matches in Hm. destruct (negb _); [done|]. by destruct (uf_relation filter), s.
Qed.

(** A relation agrees with its root node. *)
Lemma relation_says o r rel visited set :
  relation m r = Ok rel → mkRelationKey o r ∉ visited →
  set_says (bs_insert (mkRelationKey o r) visited) (UTNode o rel.(cr_root)) set → set_says visited (UTRelation o r) set.
Proof.
  intros Hr Hv Hset s path Hs Hpath.
  destruct (Hset s (bs_insert (mkSemanticKey o r s) path) Hs) as (d & Hd & Ha).
  { unfold same_path in *. intros o' r'. rewrite !bs_insert_elem, Hpath. split; (intros [[= -> ->]|?]; [by left|by right]). }
  destruct (subject_known s Hs) as [st Hst].
  assert (Hx : CheckSpec.expand env stored (TSemantic (mkSemanticKey o r s) path) =
    if negb (reachable env r s st) then XDone (deny RUnreachable)
    else XNode RkSingle None [OTask (TRewrite o rel.(cr_root) s (bs_insert (mkSemanticKey o r s) path))]).
  { simpl. rewrite (proj2 (bs_contains_false _ _)) by (unfold same_path in Hpath; by rewrite Hpath). rewrite Hst. simpl. by rewrite Hr. }
  destruct (reachable env r s st) eqn:Er; simpl in Hx.
  - by eapply single_decides.
  - exists (deny RUnreachable). split; [by apply Decides_done|]. rewrite <-Ha. split; [done|]. intros Had.
    pose proof (decides_reaches env stored _ _ Hd Had r rel Hr (rtc_refl _ _) st Hst). congruence.
Qed.

Lemma expand_relation_ok o r visited depth e n : cache_ok e → placed visited (UTRelation o r) →
  wp False (expand_relation command m budget limits w filter expand o r visited depth)
    (fun x e' => cache_ok e' ∧ expansion_ok visited (UTRelation o r) x) e n.
Proof.
  intros He [Hty Hv]. unfold expand_relation. wp_steps. apply consume_ok. intros e1 E1 n1. wp_steps.
  apply depth_ok. intros e2 E2 n2. assert (He2 : cache_ok e2) by (eapply cache_ok_same; [|done]; congruence).
  destruct (bs_contains _ _) eqn:Ec.
  - apply bs_contains_elem in Ec. wp_steps. split; [done|]. split_and!; [|apply well_named_empty|].
    + intros s path Hs Hpath. exists (deny RCycle). split.
      * apply Decides_done. simpl. by rewrite (proj2 (bs_contains_elem _ _)) by (by apply Hpath).
      * split; [done|]. by intros []%contains_empty.
    + intros _. exists r. split; [apply rtc_refl|]. exact (Hv _ Ec).
  - apply bs_contains_false in Ec. wp_steps. lookup_oks. rename select (relation m r = Ok _) into Hr. rename a0 into rel.
    eapply (wp_mono _ _ (fun set e' => e' = e2 ∧ well_named set ∧ ∀ s, subject_of s → ¬ contains set s)).
    { case_match eqn:Ef; wp_steps.
      - apply andb_true_iff in Ef as [Et%bool_decide_eq_true En%bool_decide_eq_true]. lookup_oks.
        rename select (userset_ref_new _ _ _ = Ok _) into Hu. unfold userset_ref_new in Hu; repeat case_match; simplify_eq.
        split_and!; [done| |].
        + apply well_named_singleton; [|done]. unfold filter_matches. simpl. rewrite En, Et.
          by rewrite !bool_decide_true.
        + intros s Hs. by rewrite (subject_object_filter s Hs) in En.
      - split_and!; [done|apply well_named_empty|]. intros s _. apply contains_empty. }
    intros set e3 (-> & Hn & Hno) n3. apply wp_bind. eapply wp_mono; [apply Hexpand; [done|]|].
    { destruct Hty as (rel' & Hr' & Ht). simpl in Hr'. rewrite Hr in Hr'. simplify_eq.
      exists r, rel'. split_and!; [done..|apply rtc_refl|]. intros k [->|Hk]%bs_insert_elem; [apply rtc_refl|].
      by apply tc_rtc, Hv. }
    intros x e4 [He4 (Hsay & Hnx & Hcyc)] n4. wp_steps. apply check_set_ok. wp_steps. split; [done|].
    split_and!; [|by apply well_named_union|].
    + apply (relation_says o r rel); [done..|]. intros s path Hs Hpath. destruct (Hsay s path Hs Hpath) as (d & Hd & Ha).
      exists d. split; [done|]. simpl. rewrite contains_union, Ha. specialize (Hno s Hs). tauto.
    + intros (nd & r0 & Hnd & Hedge & r' & Hr' & Hc)%Hcyc. exists r'. split; [|done]. eapply rtc_l; [|done].
      exact (node_fact env _ nd r rel Hnd Hr (rtc_refl _ _) _ _ Hedge).
Qed.

(** ** Below a node *)

Lemma placed_node visited o n : placed visited (UTNode o n) → node_of_type env n o.
Proof. intros (r & rel & ? & ? & ? & _). by exists r, rel. Qed.

Lemma placed_child visited o n nd c :
  placed visited (UTNode o n) → node m n = Ok nd → c ∈ node_children nd → placed visited (UTNode o c).
Proof.
  intros (r & rel & Hr & Ht & Hin & Hv) Hn%ok_or_ok Hc. exists r, rel. split_and!; [done..| |done].
  eapply rtc_r; [done|]. unfold successors. by rewrite Hn.
Qed.

Lemma placed_edge visited o n nd o' r' :
  placed visited (UTNode o n) → node m n = Ok nd → node_edge m.(model_relations) nd r' → relation_of_type env r' o' →
  placed visited (UTRelation o' r').
Proof.
  intros (r & rel & Hr & Ht & Hin & Hv) Hn He Hty. split; [done|]. intros k Hk.
  eapply tc_rtc_l; [by apply Hv|]. apply tc_once. exact (node_fact env n nd r rel Hn Hr Hin _ _ He).
Qed.

(** The operands are decided by membership in the set. *)
Definition ops_agree (visited : BTreeSet RelationKey) (ops : SubjectRef → BTreeSet SemanticKey → list Operand)
    (set : SymbolicSet SubjectRef) : Prop :=
  ∀ s path, subject_of s → same_path visited s path → ops_say env stored (ops s path) (contains set s).

Lemma ops_agree_empty visited : ops_agree visited (fun _ _ => []) set_empty.
Proof. intros s path _ _. apply ops_say_nil, contains_empty. Qed.

Lemma ops_agree_union visited ops ops' set set' :
  ops_agree visited ops set → ops_agree visited ops' set' →
  ops_agree visited (fun s path => ops s path ++ ops' s path) (set_union set set').
Proof. intros H1 H2 s path Hs Hp. eapply ops_say_app; [by apply H1|by apply H2|apply contains_union]. Qed.

Lemma ops_agree_none visited ops ops' set :
  ops_agree visited ops set → ops_agree visited ops' set_empty →
  ops_agree visited (fun s path => ops s path ++ ops' s path) set.
Proof.
  intros H1 H2 s path Hs Hp. eapply ops_say_app; [by apply H1|by apply H2|]. pose proof (contains_empty s). tauto.
Qed.

Lemma ops_agree_task visited t x : expansion_ok visited t x →
  ops_agree visited (fun s path => [OTask (user_task t s path)]) x.(ux_set).
Proof. intros (Hsay & _) s path Hs Hp. destruct (Hsay s path Hs Hp) as (d & Hd & Ha). by eapply ops_say_task. Qed.

Lemma bind_snoc {A B} (f : A → list B) l x : (l ++ [x]) ≫= f = (l ≫= f) ++ f x.
Proof. rewrite bind_app. simpl. by rewrite app_nil_r. Qed.

(** ** Direct relations *)

Section direct.
Variable visited : BTreeSet RelationKey.
Variable o : ObjectRef.
Variable n : NodeId.
Variable r : RelationId.
Variable rel : CompiledRelation.
Hypothesis Hplaced : placed visited (UTNode o n).
Hypothesis Hnode : node m n = Ok (NDirect r).
Hypothesis Hrel : relation m r = Ok rel.

Abbreviation operands t := (fun s path => direct_operands env s path rel.(cr_restrictions) t).

Lemma unmet_says t class :
  matching_restriction env t rel.(cr_restrictions) = Ok (Some class) → condition_holds env t = Some false →
  ops_agree visited (operands t) set_empty.
Proof.
  intros Hm Hc s path _ _. assert (direct_operands env s path (cr_restrictions rel) t = []) as ->.
  { unfold direct_operands, if_condition. rewrite Hm, Hc. by destruct class; repeat case_match. }
  apply ops_say_nil, contains_empty.
Qed.

Lemma object_says t x :
  matching_restriction env t rel.(cr_restrictions) = Ok (Some DCObject) → condition_holds env t = Some true →
  t.(rt_key).(tk_subject) = SubjObject x →
  ops_agree visited (operands t) (if filter_matches filter (SubjObject x) then set_singleton (SubjObject x) else set_empty).
Proof.
  intros Hm Hc Hx s path Hs _. unfold direct_operands. rewrite Hm, if_condition_true, Hx by done. case_bool_decide as E.
  - subst s. apply ops_say_allow. rewrite (proj1 Hs). simpl. by left.
  - apply ops_say_nil. case_match; [|apply contains_empty]. destruct s; simpl; [|by destruct Hs|done].
    intros ?%list_elem_of_singleton. congruence.
Qed.

Lemma wildcard_says t ty :
  matching_restriction env t rel.(cr_restrictions) = Ok (Some DCWildcard) → condition_holds env t = Some true →
  t.(rt_key).(tk_subject) = SubjWildcard ty →
  ops_agree visited (operands t) (if filter_matches filter (SubjWildcard ty) then Cofinite [] [] else set_empty).
Proof.
  intros Hm Hc Hx s path [Hf Hs] _. unfold direct_operands. rewrite Hm, if_condition_true, Hx by done.
  unfold filter_matches in *. destruct (bool_decide (uf_user_type filter = subject_type s)) eqn:Et; [|done].
  apply bool_decide_eq_true in Et. rewrite Et in *. destruct (uf_relation filter); [by destruct s|]. simpl.
  destruct s as [x| |ty']; [|done|]; simpl in *.
  - destruct (decide (ty = x.(object_type))) as [->|Hne].
    + rewrite !bool_decide_true by done. apply ops_say_allow. simpl. apply not_elem_of_nil.
    + rewrite !bool_decide_false by congruence. apply ops_say_nil. simpl. apply not_elem_of_nil.
  - rewrite orb_false_r. destruct (decide (ty = ty')) as [->|Hne].
    + rewrite !bool_decide_true by done. by apply ops_say_allow.
    + rewrite !bool_decide_false by congruence. apply ops_say_nil. simpl. done.
Qed.

Lemma userset_says t u r' x :
  matching_restriction env t rel.(cr_restrictions) = Ok (Some (DCUserset r')) → condition_holds env t = Some true →
  t.(rt_key).(tk_subject) = SubjUserset u → expansion_ok visited (UTRelation u.(us_object) r') x →
  ops_agree visited (operands t) x.(ux_set).
Proof.
  intros Hm Hc Hu Hx s path Hs Hp.
  assert (direct_operands env s path (cr_restrictions rel) t = [OTask (user_task (UTRelation u.(us_object) r') s path)]) as ->.
  { unfold direct_operands. rewrite Hm, Hu, if_condition_true by done.
    rewrite bool_decide_false; [done|]. intros <-. by destruct Hs. }
  by apply (ops_agree_task visited).
Qed.

(** The edge of a userset row. *)
Lemma userset_edge t u r' :
  matching_restriction env t rel.(cr_restrictions) = Ok (Some (DCUserset r')) → t.(rt_key).(tk_subject) = SubjUserset u →
  node_edge m.(model_relations) (NDirect r) r' ∧ relation_of_type env r' u.(us_object).
Proof.
  intros (ty & d & _ & Hd & _ & Hk & u' & Hu' & Hid)%matching_restriction_Some Hu. rewrite Hu in Hu'. simplify_eq. split.
  - eapply edge_userset; [by apply ok_or_ok in Hrel|done|]. destruct (dr_kind d); try done.
    by apply bool_decide_eq_true in Hk as ->.
  - by eapply relation_id_of_type.
Qed.

Definition direct_inv (rows : list RelationshipTuple) (acc : UserExpansion) (e : UserEvaluator) : Prop :=
  cache_ok e ∧ ops_agree visited (fun s path => rows ≫= direct_operands env s path rel.(cr_restrictions)) acc.(ux_set) ∧
  well_named acc.(ux_set) ∧ (acc.(ux_has_cycle) = true → cyclic (UTNode o n)).

Lemma direct_inv_snoc rows t acc set b e :
  direct_inv rows acc e → ops_agree visited (operands t) set → well_named set → (b = true → cyclic (UTNode o n)) →
  direct_inv (rows ++ [t]) (mkUserExpansion (set_union acc.(ux_set) set) (acc.(ux_has_cycle) || b)) e.
Proof.
  intros (He & Hops & Hn & Hc) Ht Hns Hb. split_and!; [done| |by apply well_named_union|].
  - intros s path Hs Hp. rewrite bind_snoc. by apply (ops_agree_union visited _ _ _ _ Hops Ht).
  - simpl. rewrite orb_true_iff. tauto.
Qed.

Lemma direct_inv_skip rows t acc e : direct_inv rows acc e → ops_agree visited (operands t) set_empty →
  direct_inv (rows ++ [t]) acc e.
Proof.
  intros (He & Hops & Hn & Hc) Ht. split_and!; [done| |done..].
  intros s path Hs Hp. rewrite bind_snoc. by apply (ops_agree_none visited _ _ _ Hops Ht).
Qed.

Lemma direct_subject_ok rows t depth class acc e k :
  direct_inv rows acc e → matching_restriction env t rel.(cr_restrictions) = Ok (Some class) →
  wp False (direct_subject command m budget w filter expand visited depth acc t) (direct_inv (rows ++ [t])) e k.
Proof.
  intros Hinv Hm. unfold direct_subject. wp_steps.
  eapply wp_mono; [apply condition_met_ok, Hinv|]. intros met e1 [He1 Hc] n1.
  assert (Hinv1 : direct_inv rows acc e1) by (destruct Hinv as (_ & ?); by split).
  destruct met; simpl; wp_steps; [|by eapply direct_inv_skip, unmet_says].
  eapply (wp_mono _ _ (direct_inv (rows ++ [t]))).
  2:{ intros acc' e2 Hinv2 n2. wp_steps. by apply check_set_ok; wp_steps. }
  pose proof Hm as (ty & d & _ & _ & _ & _ & Hf)%matching_restriction_Some.
  destruct (tk_subject (rt_key t)) as [x|u|x] eqn:Es; wp_steps.
  - destruct class; [|by destruct Hf as (? & ? & _)|by destruct Hf].
    pose proof (object_says t x Hm Hc Es) as Hsay. destruct (filter_matches filter _) eqn:Ef; [|by apply direct_inv_skip].
    rewrite <-(orb_false_r (ux_has_cycle acc)). by apply direct_inv_snoc; [..|apply well_named_singleton|].
  - lookup_oks. destruct class as [|r'|]; [by destruct Hf| |by destruct Hf].
    destruct Hf as (u' & [= <-] & Hid). rename select (relation_id m _ _ = Ok _) into Hid'. simpl in Hid. rewrite Hid in Hid'.
    simplify_eq. destruct (userset_edge t u a Hm Es) as [Hedge Hty].
    eapply wp_mono; [apply Hexpand; [done|by eapply placed_edge]|]. intros x e2 [He2 Hx] n2. wp_steps.
    apply direct_inv_snoc; [destruct Hinv1 as (_ & ?); by split|by eapply userset_says|apply Hx|].
    intros Hcyc. exists (NDirect r), a. split_and!; [done..|]. by apply Hx.
  - destruct class; [by destruct Hf|by destruct Hf as (? & ? & _)|].
    pose proof (wildcard_says t x Hm Hc Es) as Hsay. destruct (filter_matches filter _) eqn:Ef; [|by apply direct_inv_skip].
    rewrite <-(orb_false_r (ux_has_cycle acc)). apply direct_inv_snoc; [done..| |done].
    split; [by intros ? []%not_elem_of_nil|]. intros _. unfold filter_matches in Ef.
    destruct (negb _); [done|]. by destruct (uf_relation filter).
Qed.

Lemma expand_direct_ok depth e k : cache_ok e →
  wp False (expand_direct command m budget limits w maximum_per_read filter expand o r visited depth)
    (fun x e' => cache_ok e' ∧ expansion_ok visited (UTNode o n) x) e k.
Proof.
  intros He. unfold expand_direct. wp_steps. eapply wp_mono; [by apply read_relation_ok|].
  intros rows e1 [He1 Hrows] n1.
  assert (Hty : relation_of_type env r o) 
    by (apply (local_of_type env n _ r o Hnode); [by apply (placed_node visited)|by left]).
  eapply wp_mono; [apply (wp_fold _ _ direct_inv)|].
  - split_and!; [done|apply ops_agree_empty|apply well_named_empty|done].
  - intros l1 t l2 acc e2 n2 -> Hinv. destruct Hrows as (rel' & Hr' & Hrows). assert (rel' = rel) as -> by congruence.
    assert (Ht : t ∈ l1 ++ t :: l2) by (apply elem_of_app; right; by left). apply Hrows in Ht as [Ht Hv].
    apply (valid_row_class q m table Hkeys Hctx o r rel t Hcurrent Hrel Hty Ht) in Hv as [class Hm]. by eapply direct_subject_ok.
  - intros x e2 (He2 & Hops & Hn & Hc). split; [done|]. split_and!; [|done..].
    intros s path Hs Hp. eapply (union_decides env stored _ (Some RDirect)).
    + simpl. rewrite Hnode. unfold read_expansion. simpl. by rewrite Hrel.
    + eapply ops_say_ext; [|by apply (Hops s path)]. apply (rows_operands o r rel); [done..|].
      intros t Hm. unfold direct_operands. by rewrite Hm.
Qed.

End direct.

(** ** Tuple to userset *)

Section ttu.
Variable visited : BTreeSet RelationKey.
Variable o : ObjectRef.
Variable n : NodeId.
Variable tupleset : RelationId.
Variable computed : RelationName.
Variable targets : list RelationId.
Variable rel : CompiledRelation.
Hypothesis Hplaced : placed visited (UTNode o n).
Hypothesis Hnode : node m n = Ok (NTupleToUserset tupleset computed targets).
Hypothesis Hrel : relation m tupleset = Ok rel.

Abbreviation operands t := (fun s path => ttu_operands env s path rel.(cr_restrictions) targets t).

Definition set_inv (ops : SubjectRef → BTreeSet SemanticKey → list Operand) (set : SymbolicSet SubjectRef)
    (e : UserEvaluator) : Prop :=
  cache_ok e ∧ ops_agree visited ops set ∧ well_named set.

Lemma ttu_subject_ok ops x target depth set e k : target ∈ targets → set_inv ops set e →
  wp False (ttu_subject m budget expand x visited depth set target)
    (set_inv (fun s path => ops s path ++ target_operands env s path x target)) e k.
Proof.
  intros Hin (He & Hops & Hn). unfold ttu_subject. wp_steps. lookup_oks.
  rename select (relation m target = Ok _) into Htr. rename select (type_name m _ = Ok _) into Htt.
  unfold target_operands. case_bool_decide as Et; simpl; wp_steps.
  - subst. eapply wp_mono; [apply Hexpand; [done|]|].
    { eapply (placed_edge visited o n _ x target Hplaced Hnode); [by constructor|]. by eexists. }
    intros y e1 [He1 Hy] n1. wp_steps. apply check_set_ok. wp_steps. split_and!; [done| |by apply well_named_union, Hy].
    intros s path Hs Hp. simpl. rewrite Htr, Htt, bool_decide_true by done.
    apply (ops_agree_union visited ops (fun s path => [OTask (user_task (UTRelation x target) s path)])); [done| |done..].
    by apply ops_agree_task.
  - split_and!; [done| |done]. intros s path Hs Hp. simpl. rewrite Htr, Htt, bool_decide_false, app_nil_r by done.
    by apply Hops.
Qed.

Lemma ttu_row_expands ops t class depth set e k : set_inv ops set e →
  matching_restriction env t rel.(cr_restrictions) = Ok (Some class) →
  wp False (met ← users_condition_met command m budget w t;
            if negb met then mret set
            else match t.(rt_key).(tk_subject) with
                 | SubjObject x => eng_fold (ttu_subject m budget expand x visited depth) set targets
                 | _ => mret set
                 end)
    (set_inv (fun s path => ops s path ++ operands t s path)) e k.
Proof.
  intros (He & Hops & Hn) Hm. wp_steps. eapply wp_mono; [by apply condition_met_ok|]. intros met e1 [He1 Hc] n1.
  assert (Hskip : (∀ s path, operands t s path = []) → set_inv (fun s path => ops s path ++ operands t s path) set e1).
  { intros Hnil. split_and!; [done| |done]. intros s path Hs Hp. rewrite Hnil, app_nil_r. by apply Hops. }
  unfold ttu_operands in *. rewrite Hm in *. unfold if_condition in *. rewrite Hc in *.
  destruct met; simpl; wp_steps; [|apply Hskip; by destruct class].
  pose proof Hm as (ty & d & _ & _ & _ & _ & Hf)%matching_restriction_Some.
  destruct class as [|r'|]; [|destruct Hf as (u & -> & _); wp_steps; by apply Hskip|destruct Hf as [u ->]; wp_steps; by apply Hskip].
  destruct Hf as [x ->].
  apply (wp_fold _ _ (fun ts => set_inv (fun s path => ops s path ++ (ts ≫= target_operands env s path x)))).
  - split_and!; [done| |done]. intros s path Hs Hp. simpl. rewrite app_nil_r. by apply Hops.
  - intros l1 target l2 acc e2 n2 Hl Hinv.
    eapply wp_mono; [apply ttu_subject_ok; [|done]; rewrite Hl; apply elem_of_app; right; by left|].
    intros set' e3 (He3 & Hops3 & Hn3). split_and!; [done| |done]. intros s path Hs Hp. rewrite bind_snoc, app_assoc.
    by apply Hops3.
Qed.

Lemma expand_ttu_ok depth e k : cache_ok e →
  wp False (expand_ttu command m budget limits w maximum_per_read expand o tupleset targets visited depth)
    (fun x e' => cache_ok e' ∧ expansion_ok visited (UTNode o n) x) e k.
Proof.
  intros He. unfold expand_ttu. wp_steps. eapply wp_mono; [by apply read_relation_ok|].
  intros rows e1 [He1 Hrows] n1.
  assert (Hty : relation_of_type env tupleset o)
    by (apply (local_of_type env n _ tupleset o Hnode); [by apply (placed_node visited)|by left]).
  wp_steps. eapply wp_mono;
    [apply (wp_fold _ _ (fun rows => set_inv (fun s path => rows ≫= ttu_operands env s path rel.(cr_restrictions) targets)))|].
  - split_and!; [done|apply ops_agree_empty|apply well_named_empty].
  - intros l1 t l2 acc e2 n2 -> Hinv. destruct Hrows as (rel' & Hr' & Hrows). assert (rel' = rel) as -> by congruence.
    assert (Ht : t ∈ l1 ++ t :: l2) by (apply elem_of_app; right; by left). apply Hrows in Ht as [Ht Hv].
    apply (valid_row_class q m table Hkeys Hctx o tupleset rel t Hcurrent Hrel Hty Ht) in Hv as [class Hm].
    eapply wp_mono; [by eapply ttu_row_expands|]. intros set' e3 (He3 & Hops3 & Hn3). split_and!; [done| |done].
    intros s path Hs Hp. rewrite bind_snoc. by apply Hops3.
  - intros set e2 (He2 & Hops & Hn) n2. wp_steps. split; [done|]. split_and!; [|done..].
    intros s path Hs Hp. eapply (union_decides env stored _ (Some RTupleToUserset)).
    + simpl. rewrite Hnode. unfold read_expansion. simpl. by rewrite Hrel.
    + eapply ops_say_ext; [|by apply (Hops s path)].
      apply (rows_operands o tupleset rel rows (ttu_operands env s path rel.(cr_restrictions) targets)); [done..|].
      intros t Hm. unfold ttu_operands. by rewrite Hm.
Qed.

End ttu.

(** ** Operators *)

Section operators.
Variable visited : BTreeSet RelationKey.
Variable o : ObjectRef.
Variable n : NodeId.
Hypothesis Hplaced : placed visited (UTNode o n).

Abbreviation child c := (fun s path => OTask (TRewrite o c s path)).

Lemma expand_child_ok op c nd depth set e k : node m n = Ok nd → c ∈ node_children nd → cache_ok e →
  wp False (expand_child budget expand o visited depth op set c)
    (fun set' e' => cache_ok e' ∧ ∃ x, set' = op set x ∧ set_says visited (UTNode o c) x ∧ well_named x) e k.
Proof.
  intros Hn Hc He. unfold expand_child. wp_steps. eapply wp_mono; [apply Hexpand; [done|by eapply placed_child]|].
  intros x e1 [He1 (Hx & Hw & _)] n1. wp_steps. apply check_set_ok. wp_steps. split; [done|]. by exists x.(ux_set).
Qed.

Lemma expand_union_ok children depth e k : node m n = Ok (NUnion children) → cache_ok e →
  wp False (set ← eng_fold (expand_child budget expand o visited depth set_union) set_empty children;
            mret (expansion_set set))
    (fun x e' => cache_ok e' ∧ expansion_ok visited (UTNode o n) x) e k.
Proof.
  intros Hn He. wp_steps.
  eapply wp_mono; [apply (wp_fold _ _ (fun cs => set_inv visited (fun s path => (fun c => child c s path) <$> cs)))|].
  - split_and!; [done|apply ops_agree_empty|apply well_named_empty].
  - intros l1 c l2 set e1 n1 -> (He1 & Hops & Hw).
    eapply wp_mono; [eapply (expand_child_ok _ c); [done| |done]; apply elem_of_app; right; by left|].
    intros set' e2 (He2 & x & -> & Hx & Hwx). split_and!; [done| |by apply well_named_union].
    intros s path Hs Hp. rewrite fmap_app. eapply ops_say_app; [by apply Hops| |apply contains_union].
    destruct (Hx s path Hs Hp) as (d & Hd & Ha). by eapply ops_say_task.
  - intros set e1 (He1 & Hops & Hw) n1. wp_steps. split; [done|]. split_and!; [|done..].
    intros s path Hs Hp. eapply (union_decides env stored _ (Some RUnion)); [simpl; by rewrite Hn|by apply (Hops s path)].
Qed.

(** Every child says what its set does, and the set is their intersection. *)
Definition children_say (cs : list NodeId) (set : SymbolicSet SubjectRef) : Prop :=
  ∀ s path, subject_of s → same_path visited s path →
    (∀ c, c ∈ cs → ∃ b, decided env stored (child c s path) b) ∧
    (contains set s ↔ ∀ c, c ∈ cs → decided env stored (child c s path) true).

Lemma children_say_snoc cs c set x : children_say cs set → set_says visited (UTNode o c) x →
  children_say (cs ++ [c]) (set_intersection set x).
Proof.
  intros Hcs Hx s path Hs Hp. destruct (Hcs s path Hs Hp) as [Hall Hset]. destruct (Hx s path Hs Hp) as (d & Hd & Ha).
  assert (Hop : decided env stored (child c s path) d.(allowed)) by (exists d; split; [by constructor|done]).
  setoid_rewrite elem_of_app. setoid_rewrite list_elem_of_singleton. split; [intros c' [?| ->]; eauto|].
  rewrite contains_intersection, Hset, <-Ha. split.
  - intros [Hcs' Hd'] c' [?| ->]; [auto|]. by rewrite Hd' in Hop.
  - intros Hc'. split; [auto|]. exact (decided_unique env stored _ _ _ Hop (Hc' c (or_intror eq_refl))).
Qed.

Lemma expand_intersection_ok children depth e k : node m n = Ok (NIntersection children) → cache_ok e →
  wp False (expand_intersection budget expand o children visited depth)
    (fun x e' => cache_ok e' ∧ expansion_ok visited (UTNode o n) x) e k.
Proof.
  intros Hn He. unfold expand_intersection. destruct children as [|c0 children]; [wp_steps|]. wp_steps.
  eapply wp_mono; [apply Hexpand; [done|]|]. { eapply placed_child; [done..|by left]. }
  intros x0 e0 [He0 (Hx0 & Hw0 & _)] n0. wp_steps.
  eapply wp_mono; [apply (wp_fold _ _ (fun cs set e => cache_ok e ∧ children_say (c0 :: cs) set ∧ well_named set))|].
  - split_and!; [done| |done]. intros s path Hs Hp. destruct (Hx0 s path Hs Hp) as (d & Hd & Ha).
    assert (Hop : decided env stored (child c0 s path) d.(allowed)) by (exists d; split; [by constructor|done]).
    setoid_rewrite list_elem_of_singleton. split; [intros c ->; eauto|]. rewrite <-Ha. split.
    + intros Hd' c ->. by rewrite Hd' in Hop.
    + intros Hc. exact (decided_unique env stored _ _ _ Hop (Hc c0 eq_refl)).
  - intros l1 c l2 set e1 n1 -> (He1 & Hcs & Hw).
    eapply wp_mono; [eapply (expand_child_ok _ c); [done| |done]; right; apply elem_of_app; right; by left|].
    intros set' e2 (He2 & x & -> & Hx & Hwx). split_and!; [done| |by apply well_named_intersection].
    by apply (children_say_snoc (c0 :: l1)).
  - intros set e1 (He1 & Hcs & Hw) n1. wp_steps. split; [done|]. split_and!; [|done..].
    intros s path Hs Hp. destruct (Hcs s path Hs Hp) as [Hall Hset].
    eapply (intersection_decides env stored _ (Some RIntersection)); [simpl; by rewrite Hn|..].
    + intros op (c & -> & Hc)%list_elem_of_fmap. by apply Hall.
    + rewrite Hset. split; [intros Hc op (c & -> & ?)%list_elem_of_fmap; auto|]. intros Hop c Hc. apply Hop, list_elem_of_fmap. eauto.
Qed.

Lemma expand_difference_ok base sub depth e k : node m n = Ok (NDifference base sub) → cache_ok e →
  wp False (x ← expand (UTNode o base) visited depth;
            y ← expand (UTNode o sub) visited depth;
            if y.(ux_has_cycle) then mret (expansion_set set_empty)
            else check_set budget (set_difference x.(ux_set) y.(ux_set));;
                 mret (expansion_set (set_difference x.(ux_set) y.(ux_set))))
    (fun x e' => cache_ok e' ∧ expansion_ok visited (UTNode o n) x) e k.
Proof.
  intros Hn He. wp_steps. eapply wp_mono; [apply Hexpand; [done|]|]. { eapply placed_child; [done..|by left]. }
  intros x e1 [He1 (Hx & Hwx & _)] n1. wp_steps.
  eapply wp_mono; [apply Hexpand; [done|]|]. { eapply placed_child; [done..|by right; left]. }
  intros y e2 [He2 (Hy & Hwy & Hcyc)] n2. destruct (ux_has_cycle y).
  { destruct Hcyc as (nd & r & Hnd & Hedge & r' & Hr' & Hc); [done|]. by destruct (Hacyclic n base sub nd r r'). }
  wp_steps. apply check_set_ok. wp_steps. split; [done|]. split_and!; [|by apply well_named_difference|done].
  intros s path Hs Hp. destruct (Hx s path Hs Hp) as (dx & Hdx & Hax). destruct (Hy s path Hs Hp) as (dy & Hdy & Hay).
  eapply (difference_decides env stored _ (Some RDifference)); [simpl; by rewrite Hn|done..|].
  simpl. by rewrite contains_difference, Hax, Hay.
Qed.

End operators.

Lemma expand_node_ok o n visited depth e k : cache_ok e → placed visited (UTNode o n) →
  wp False (users_expand_node command m budget limits w maximum_per_read filter expand o n visited depth)
    (fun x e' => cache_ok e' ∧ expansion_ok visited (UTNode o n) x) e k.
Proof.
  intros He Hp. unfold users_expand_node. wp_steps. apply consume_ok. intros e1 E1 n1. wp_steps. lookup_oks.
  rename select (node m n = Ok _) into Hn. assert (He1 : cache_ok e1) by by eapply cache_ok_same.
  destruct a as [r|r|ts c targets|cs|cs|b sub].
  - destruct (local_of_type env n _ r o Hn (placed_node _ _ _ Hp)) as (rel & Hr & _); [by left|]. by eapply expand_direct_ok.
  - eapply wp_mono; [apply Hexpand; [done|]|].
    { eapply placed_edge; [done..|constructor|]. apply (local_of_type env n _ r o Hn (placed_node _ _ _ Hp)). by left. }
    intros x e2 [He2 (Hx & Hw & Hc)]. split; [done|]. split_and!; [|done|].
    + intros s path Hs Hpath. destruct (Hx s path Hs Hpath) as (d & Hd & Ha).
      eapply (single_decides env stored _ (Some RComputed)); [simpl; by rewrite Hn|done..].
    + intros Hcyc%Hc. exists (NComputed r), r. split_and!; [done|constructor|done].
  - destruct (local_of_type env n _ ts o Hn (placed_node _ _ _ Hp)) as (rel & Hr & _); [by left|]. by eapply expand_ttu_ok.
  - by eapply expand_union_ok.
  - by apply expand_intersection_ok.
  - by apply expand_difference_ok.
Qed.

End level.

Lemma users_expand_ok fuel : ∀ t visited depth e n, cache_ok e → placed visited t →
  wp False (users_expand command m budget limits w maximum_per_read filter fuel t visited depth)
    (fun x e' => cache_ok e' ∧ expansion_ok visited t x) e n.
Proof.
  induction fuel as [|fuel IH]; intros t visited depth e n He Hp; [by intros []|].
  destruct t; [by apply expand_relation_ok|by apply expand_node_ok].
Qed.

(** ** The subjects a filter shows *)

Lemma shown_subject set x : well_named set → x ∈ into_subjects set filter →
  filter_matches filter x = true ∧ (match x with SubjUserset _ => False | _ => True end → contains set x).
Proof.
  intros [Hn Hc] Hx. apply into_subjects_elem in Hx. destruct set as [values|excluded included]; simpl in *.
  - destruct (Hn x Hx). split; [done|]. by destruct x.
  - destruct Hx as [->|[Hi Hx]].
    + split; [|done]. unfold filter_matches. rewrite bool_decide_true, Hc by done. done.
    + destruct (Hn x) as [? ?]; [apply elem_of_app; by right|]. split; [done|]. by destruct x.
Qed.

(** A contained subject is shown, itself or through the wildcard of its type. *)
Lemma subject_shown set x : subject_of x → contains set x →
  x ∈ into_subjects set filter ∨ SubjWildcard filter.(uf_user_type) ∈ into_subjects set filter.
Proof.
  intros [_ Hx] Hc. rewrite !into_subjects_elem. destruct set as [values|excluded included]; [left; by destruct x|].
  right. by left.
Qed.

End filtered.

(** ** All filters *)

Definition filter_known (f : UserTypeFilter) : Prop := ∃ st, type_id m f.(uf_user_type) = Ok st.

(** The users collected from some filters. *)
Definition users_say (root : RelationId) (filters : list UserTypeFilter) (users : BTreeSet SubjectRef) : Prop :=
  bs_sorted users ∧
  (∀ s, s ∈ users → ∃ f, f ∈ filters ∧ filter_matches f s = true ∧
     (match s with SubjUserset _ => False | _ => True end →
      ∃ d, Decides env stored (TSemantic (mkSemanticKey command.(luc_object) root s) []) d ∧ d.(allowed) = true)) ∧
  (∀ f s, f ∈ filters → subject_of f s →
     ∃ d, Decides env stored (TSemantic (mkSemanticKey command.(luc_object) root s) []) d ∧
       (d.(allowed) = true → s ∈ users ∨ SubjWildcard f.(uf_user_type) ∈ users)).

Lemma list_filter_ok root f filters users e n :
  relation_of_type env root command.(luc_object) → filter_known f → cache_ok e → users_say root filters users →
  wp False (list_filter command m budget limits w maximum_per_read root users f)
    (fun users' e' => cache_ok e' ∧ users_say root (filters ++ [f]) users') e n.
Proof.
  intros Hty Hf He (Hsort & Hsound & Hcomplete). unfold list_filter. wp_steps.
  eapply wp_mono; [eapply (users_expand_ok f Hf); [done|]|]. { split; [done|]. by intros k []%not_elem_of_nil. }
  intros x e1 [He1 (Hx & Hn & _)] n1. wp_steps. unfold check_subject_count. wp_steps. case_match; wp_steps. split; [done|].
  assert (Hpath : ∀ s, same_path [] s []) by (intros s o r; split; by intros []%not_elem_of_nil).
  split_and!; [by apply bs_sorted_extend| |].
  - intros s [Hs|Hs]%bs_extend_elem.
    + destruct (Hsound s Hs) as (f' & ? & ?). exists f'. split; [apply elem_of_app; by left|done].
    + destruct (shown_subject f _ s Hn Hs) as [Hm Hc]. exists f. split; [apply elem_of_app; right; by left|].
      split; [done|]. intros Hu. destruct (Hx s [] (conj Hm Hu) (Hpath s)) as (d & Hd & Ha). exists d. split; [done|].
      by apply Ha, Hc.
  - intros f' s Hf' Hs. setoid_rewrite bs_extend_elem. apply elem_of_app in Hf' as [Hf'| ->%list_elem_of_singleton].
    + destruct (Hcomplete f' s Hf' Hs) as (d & Hd & Ha). exists d. split; [done|]. intros [?|?]%Ha; auto.
    + destruct (Hx s [] Hs (Hpath s)) as (d & Hd & Ha). exists d. split; [done|]. intros Had%Ha.
      destruct (subject_shown f _ s Hs Had); auto.
Qed.

Lemma list_filters_ok root filters n :
  relation_of_type env root command.(luc_object) → (∀ f, f ∈ filters → filter_known f) →
  wp False (eng_fold (list_filter command m budget limits w maximum_per_read root) [] filters)
    (fun users _ => users_say root filters users) user_evaluator_default n.
Proof.
  intros Hty Hf. eapply wp_mono; [apply (wp_fold _ _ (fun fs users e => cache_ok e ∧ users_say root fs users))|].
  - split; [done|]. split_and!; [apply bs_sorted_nil|by intros ? []%not_elem_of_nil|by intros ? ? []%not_elem_of_nil].
  - intros l1 f l2 users e n1 -> [He Husers]. apply list_filter_ok; [done| |done..]. apply Hf, elem_of_app. right. by left.
  - by intros users e [_ ?].
Qed.

End users.

(** ** Listing users ends within its budget

    Every level of the expansion consumes a dispatch, so the rounds allowed by
    the dispatch budget are enough, in any world; and no counter passes its
    budget. *)

Section bounds.
Context `{ConditionEngine}.
Variable command : ListUsersCommand.
Variable m : CompiledModel.
Variable budget : ListUsersBudget.
Variable limits : InputLimits.
Variable w : ListWorld.
Variable maximum_per_read : N.

Record users_within (c : UserCounters) : Prop := {
  uw_dispatches : (c.(uc_dispatches) <= budget.(lub_dispatches))%N;
  uw_queries : (c.(uc_datastore_queries) <= budget.(lub_datastore_queries))%N;
  uw_items : (c.(uc_tuple_items) <= budget.(lub_tuple_items))%N;
  uw_cost : (c.(uc_condition_cost) <= budget.(lub_condition_cost))%N;
  uw_depth : (c.(uc_maximum_depth) <= budget.(lub_depth))%N;
}.

(** The counters are within the budget and [floor] dispatches were consumed. *)
Definition spent (floor : N) (e : UserEvaluator) : Prop :=
  users_within e.(ue_counters) ∧ (floor <= e.(ue_counters).(uc_dispatches))%N.

Ltac spend := match goal with Hs : spent _ _ |- _ => destruct Hs as [[] ?] end; split; [constructor|]; simpl in *; lia.

Lemma consume_spent floor e n : spent floor e →
  wp True (consume_dispatch budget) (fun _ e' => spent (N.succ e.(ue_counters).(uc_dispatches)) e') e n.
Proof.
  intros Hs. unfold consume_dispatch, upd_user_counters. wp_steps. case_match eqn:E; wp_steps. apply N.ltb_ge in E.
  match goal with Ha : ok_or (checked_add _ _ _) _ = Ok _ |- _ => apply ok_or_ok, checked_add_Some in Ha as [-> _] end. spend.
Qed.

Lemma depth_spent floor depth e n : spent floor e →
  wp True (users_check_depth budget depth) (fun _ e' => spent floor e') e n.
Proof.
  intros Hs. unfold users_check_depth, upd_user_counters. case_match eqn:E; wp_steps. apply N.ltb_ge in E. spend.
Qed.

Lemma check_set_spent floor set e n : spent floor e → wp True (check_set budget set) (fun _ e' => spent floor e') e n.
Proof. intros Hs. unfold check_set, check_subject_count. wp_steps. by case_match; wp_steps. Qed.

Lemma read_spent floor o r e n : spent floor e →
  wp True (read_relation command m budget limits w maximum_per_read o r) (fun _ e' => spent floor e') e n.
Proof.
  intros Hs. unfold read_relation, users_charge_items, upd_user_counters. wp_steps. case_match; [by wp_steps|].
  wp_steps. case_match eqn:Eq; wp_steps. case_match eqn:Ei; wp_steps. apply N.ltb_ge in Eq, Ei. spend.
Qed.

Lemma condition_spent floor t e n : spent floor e →
  wp True (users_condition_met command m budget w t) (fun _ e' => spent floor e') e n.
Proof.
  intros Hs. unfold users_condition_met, upd_user_counters. case_match; [by wp_steps|]. wp_steps.
  destruct (evaluate _ _ _ _ _) as [out|[]]; wp_steps. case_match eqn:E; wp_steps. apply N.ltb_ge in E. spend.
Qed.

Section level.
Variable filter : UserTypeFilter.
Variable expand : UserTarget → BTreeSet RelationKey → N → Eng UserEvaluator UserExpansion.
Variable floor : N.
Hypothesis Hexpand : ∀ t visited depth e n, spent floor e →
  wp True (expand t visited depth) (fun _ e' => spent floor e') e n.

Lemma fold_spent {A B} (f : B → A → Eng UserEvaluator B) l acc e n :
  (∀ acc x e n, spent floor e → wp True (f acc x) (fun _ e' => spent floor e') e n) → spent floor e →
  wp True (eng_fold f acc l) (fun _ e' => spent floor e') e n.
Proof. intros Hf He. apply (wp_fold _ _ (fun _ _ => spent floor)); [done|]. auto. Qed.

Lemma child_spent o visited depth op set c e n : spent floor e →
  wp True (expand_child budget expand o visited depth op set c) (fun _ e' => spent floor e') e n.
Proof.
  intros He. unfold expand_child. wp_steps. eapply wp_mono; [by apply Hexpand|]. intros x e1 He1 n1. wp_steps.
  eapply wp_mono; [by apply (check_set_spent floor)|]. intros [] e2 He2 n2. by wp_steps.
Qed.

Lemma direct_spent visited depth acc t e n : spent floor e →
  wp True (direct_subject command m budget w filter expand visited depth acc t) (fun _ e' => spent floor e') e n.
Proof.
  intros He. unfold direct_subject. wp_steps. eapply wp_mono; [by apply (condition_spent floor)|]. intros met e1 He1 n1.
  destruct met; simpl; wp_steps; [|done]. eapply (wp_mono _ _ (fun _ e' => spent floor e')).
  - case_match; wp_steps; [done| |done]. eapply wp_mono; [by apply Hexpand|]. intros x e2 He2 n2. by wp_steps.
  - intros acc' e2 He2 n2. wp_steps. eapply wp_mono; [by apply (check_set_spent floor)|]. intros [] e3 He3 n3. by wp_steps.
Qed.

Lemma ttu_spent x visited depth set target e n : spent floor e →
  wp True (ttu_subject m budget expand x visited depth set target) (fun _ e' => spent floor e') e n.
Proof.
  intros He. unfold ttu_subject. wp_steps. case_match; wp_steps; [done|].
  eapply wp_mono; [by apply Hexpand|]. intros y e1 He1 n1. wp_steps.
  eapply wp_mono; [by apply (check_set_spent floor)|]. intros [] e2 He2 n2. by wp_steps.
Qed.

Lemma node_spent o n0 visited depth e n : (floor <= N.succ e.(ue_counters).(uc_dispatches))%N →
  users_within e.(ue_counters) →
  wp True (users_expand_node command m budget limits w maximum_per_read filter expand o n0 visited depth)
    (fun _ e' => spent floor e') e n.
Proof.
  intros Hf Hw. unfold users_expand_node. wp_steps. eapply wp_mono; [by apply (consume_spent 0); split; [|lia]|].
  intros [] e1 [Hw1 Hd1] n1. assert (He1 : spent floor e1) by (split; [done|lia]). wp_steps.
  destruct a as [r|r|ts c targets|cs|cs|b sub].
  - unfold expand_direct. wp_steps. eapply wp_mono; [by apply (read_spent floor)|]. intros rows e2 He2 n2.
    apply fold_spent; [|done]. intros. by apply direct_spent.
  - by apply Hexpand.
  - unfold expand_ttu. wp_steps. eapply wp_mono; [by apply (read_spent floor)|]. intros rows e2 He2 n2. wp_steps.
    eapply wp_mono; [apply fold_spent; [|done]|].
    + intros acc t e3 n3 He3. wp_steps. eapply wp_mono; [by apply (condition_spent floor)|]. intros met e4 He4 n4.
      destruct met; simpl; wp_steps; [|done]. case_match; wp_steps; [|done..].
      apply fold_spent; [|done]. intros. by apply ttu_spent.
    + intros set e3 He3 n3. by wp_steps.
  - wp_steps. eapply wp_mono; [apply fold_spent; [|done]; intros; by apply child_spent|]. intros set e2 He2 n2. by wp_steps.
  - unfold expand_intersection. destruct cs as [|c0 cs]; wp_steps. eapply wp_mono; [by apply Hexpand|]. intros x e2 He2 n2. wp_steps.
    eapply wp_mono; [apply fold_spent; [|done]; intros; by apply child_spent|]. intros set e3 He3 n3. by wp_steps.
  - wp_steps. eapply wp_mono; [by apply Hexpand|]. intros x e2 He2 n2. wp_steps.
    eapply wp_mono; [by apply Hexpand|]. intros y e3 He3 n3. case_match; wp_steps; [done|].
    eapply wp_mono; [by apply (check_set_spent floor)|]. intros [] e4 He4 n4. by wp_steps.
Qed.

Lemma relation_spent o r visited depth e n : (floor <= N.succ e.(ue_counters).(uc_dispatches))%N →
  users_within e.(ue_counters) →
  wp True (expand_relation command m budget limits w filter expand o r visited depth)
    (fun _ e' => spent floor e') e n.
Proof.
  intros Hf Hw. unfold expand_relation. wp_steps. eapply wp_mono; [by apply (consume_spent 0); split; [|lia]|].
  intros [] e1 [Hw1 Hd1] n1. assert (He1 : spent floor e1) by (split; [done|lia]). wp_steps.
  eapply wp_mono; [by apply (depth_spent floor)|]. intros [] e2 He2 n2. case_match; wp_steps; [done|].
  eapply (wp_mono _ _ (fun _ e' => spent floor e')); [case_match; by wp_steps|]. intros set e3 He3 n3. wp_steps.
  eapply wp_mono; [by apply Hexpand|]. intros x e4 He4 n4. wp_steps.
  eapply wp_mono; [by apply (check_set_spent floor)|]. intros [] e5 He5 n5. by wp_steps.
Qed.

End level.

Lemma users_expand_spent filter fuel : ∀ t visited depth e n, users_within e.(ue_counters) →
  (N.succ budget.(lub_dispatches) <= e.(ue_counters).(uc_dispatches) + N.of_nat fuel)%N →
  wp True (users_expand command m budget limits w maximum_per_read filter fuel t visited depth)
    (fun _ e' => spent e.(ue_counters).(uc_dispatches) e') e n.
Proof.
  induction fuel as [|fuel IH]; intros t visited depth e n Hw Hfuel.
  { exfalso. destruct Hw. lia. }
  set (floor := N.succ e.(ue_counters).(uc_dispatches)).
  assert (Hrec : ∀ t visited depth e' n, spent floor e' →
    wp True (users_expand command m budget limits w maximum_per_read filter fuel t visited depth) (fun _ => spent floor) e' n).
  { intros t' v' d' e' n' [Hw' Hd']. eapply wp_mono; [apply IH; [done|lia]|]. intros x e2 [Hw2 Hd2]. split; [done|lia]. }
  destruct t; simpl; (eapply (wp_mono _ _ (fun _ => spent floor)); [|intros x e' [Hw' Hd']; split; [exact Hw'|lia]]).
  - by apply (relation_spent _ _ floor).
  - by apply (node_spent _ _ floor).
Qed.

Lemma list_filters_spent root filters n :
  wp True (eng_fold (list_filter command m budget limits w maximum_per_read root) [] filters)
    (fun _ e => users_within e.(ue_counters)) user_evaluator_default n.
Proof.
  apply (wp_fold _ _ (fun _ _ e => users_within e.(ue_counters))); [constructor; simpl; lia|].
  intros _ f _ users e n1 _ Hw. unfold list_filter. wp_steps.
  eapply wp_mono; [apply users_expand_spent; [done|unfold users_fuel; lia]|]. intros x e1 [Hw1 _] n1'. wp_steps.
  unfold check_subject_count. wp_steps. by case_match; wp_steps.
Qed.

End bounds.
