(* ===== verification/ListUsersTheorems.v ===== *)
(** * Correctness of listing users

    The properties of [ListUsers] over models the compiler returns. *)

From S2P Require Import Prelude Ordered Identifier Reference Condition Storage Model ModelErrors Graph.
From S2P Require Import GraphTheory ModelSource Compiler CompilerTheory TupleValidation Budget Reducer.
From S2P Require Import Scheduler CheckSpec CheckSound Membership Restrictions Fixture CheckTheorems.
From S2P Require Import ModelTyping SourceSemantics CompilerTheorems Evaluator ListCommon Candidates.
From S2P Require Import CandidatesTheory ListSpec ListTheorems ListUsers ListUsersSpec ListUsersTheory.

Import Fixture.

Section users.
Context `{ConditionEngine}.
Variable command : ListUsersCommand.
Variable m : CompiledModel.

Abbreviation q := command.(luc_query).

(** What the constructors of the command guarantee, and the reads of one query
    see the same stored tuples. *)
Definition users_snapshot (w : ListWorld) (table : list RelationshipTuple) : Prop :=
  NoDup (rt_key <$> q.(qc_contextual_tuples)) ∧ forward_snapshot (lw_forward w) q.(qc_store_id) table.

(** The check semantics decides the relation for [s], and gives it to [s]. *)
Definition user_decides (table : list RelationshipTuple) (r : RelationId) (s : SubjectRef) (d : Decision) : Prop :=
  Decides (query_env q m) (table_rows table) (TSemantic (mkSemanticKey command.(luc_object) r s) []) d.
Definition user_holds (table : list RelationshipTuple) (r : RelationId) (s : SubjectRef) : Prop :=
  ∃ d, user_decides table r s d ∧ d.(allowed) = true.

(** Objects and wildcards. *)
Definition concrete (s : SubjectRef) : Prop := match s with SubjUserset _ => False | _ => True end.

(** The engine validates the query, then folds over the filters. *)
Lemma list_users_inv budget limits w out : list_users command m budget limits w = Ok out →
  ∃ r maximum_per_read users e n, relation_id m command.(luc_object).(object_type) command.(luc_relation) = Ok r ∧
    validate_contextual q m = Ok () ∧
    (∀ f, f ∈ command.(luc_filters) → filter_known m f) ∧
    eng_fold (list_filter command m budget limits w maximum_per_read r) [] command.(luc_filters)
      user_evaluator_default 0 = Ok (users, e, n) ∧
    out.(luo_users) = take (N.to_nat command.(luc_maximum_results)) users ∧
    out.(luo_metadata).(lum_counters) = e.(ue_counters) ∧
    out.(luo_metadata).(lum_results) = len out.(luo_users) ∧
    out.(luo_metadata).(lum_truncated) = bool_decide (N.to_nat command.(luc_maximum_results) < length users).
Proof.
  unfold list_users. intros (? & _ & E)%result_bind_ok. apply result_bind_ok in E as ([] & Hctx%map_err_ok & E).
  apply result_bind_ok in E as (r & Hr%map_err_ok%map_err_ok & E). apply result_bind_ok in E as ([] & Hf%map_err_ok & E).
  apply result_bind_ok in E as (maximum & _ & E). apply result_bind_ok in E as ([[users e] n] & Hfold & E).
  apply result_bind_ok in E as (results & Hres & [= <-]). apply map_err_ok, ok_or_ok in Hres.
  exists r, maximum, users, e, n. split_and!; [done..| |done|done|done| |done].
  - intros f Hin. pose proof (proj1 (try_each_ok _ _) Hf f Hin) as Hk. apply result_bind_ok in Hk as (st & Hst%map_err_ok & _).
    by exists st.
  - unfold try_u32 in Hres. simpl in *. case_match; by simplify_eq.
Qed.

Lemma list_users_spec `{!ConditionEngineLaws, !TypedModel m, !GraphLaws m} budget limits w table out :
  users_snapshot w table → contexts_current q m table → subtract_acyclic m →
  list_users command m budget limits w = Ok out →
  ∃ r, relation_id m command.(luc_object).(object_type) command.(luc_relation) = Ok r ∧ NoDup out.(luo_users) ∧
    (∀ s, s ∈ out.(luo_users) → ∃ f, f ∈ command.(luc_filters) ∧ filter_matches f s = true ∧
       (concrete s → user_holds table r s)) ∧
    (∀ f s, f ∈ command.(luc_filters) → filter_matches f s = true → concrete s →
       ∃ d, user_decides table r s d ∧ (out.(luo_metadata).(lum_truncated) = false → d.(allowed) = true →
         s ∈ out.(luo_users) ∨ SubjWildcard (subject_type s) ∈ out.(luo_users))).
Proof.
  intros [Hkeys Hsnap] Hcur Hacyclic (r & mx & users & e & n & Hr & Hctx & Hknown & Hfold & Hu & _ & _ & Htr)%list_users_inv.
  assert (Hty : relation_of_type (query_env q m) r command.(luc_object)) by (by apply (object_relation q m _ _ _ _ Hr)).
  pose proof (list_filters_ok command m budget limits w mx table Hkeys Hsnap Hctx Hcur Hacyclic r
    command.(luc_filters) 0 Hty Hknown) as Hwp.
  apply (wp_ok _ _ _ _ _ _ _ _ Hwp) in Hfold as (Hsort & Hsound & Hcomplete).
  exists r. rewrite Hu, Htr. split_and!; [done| | |].
  - eapply sublist_NoDup; [by apply bs_sorted_NoDup|apply sublist_take].
  - intros s Hin. apply Hsound. eapply elem_of_sublist; [done|apply sublist_take].
  - intros f s Hf Hm Hs. destruct (Hcomplete f s Hf (conj Hm Hs)) as (d & Hd & Ha). exists d. split; [done|].
    intros Hle Had. apply bool_decide_eq_false in Hle. rewrite take_ge by lia.
    assert (Hst : f.(uf_user_type) = subject_type s).
    { unfold filter_matches in Hm. by destruct (decide (uf_user_type f = subject_type s)); [|rewrite bool_decide_false in Hm]. }
    rewrite <-Hst. by apply Ha.
Qed.

End users.

(** A model without exclusion subtracts nothing. *)
Lemma positive_acyclic `{ConditionEngine} m : positive_model m = true → subtract_acyclic m.
Proof.
  intros Hp n base sub nd r r' Hn%ok_or_ok. unfold positive_model in Hp. rewrite forallb_elem in Hp.
  apply list_elem_of_lookup_2, Hp in Hn. done.
Qed.


(** A [ListUsers] query answers for the declarations.  In a source without
    exclusion, the declared rewrites, read by name over the stored and
    contextual tuples, give the relation to every object and wildcard a query
    over the compiled model lists; and a query that is not truncated lists every
    object and wildcard it was asked for to which they give it, or a wildcard
    that covers it. *)
Theorem list_users_answers_declarations `{ConditionCompilerLaws, !ConditionEngineLaws}
    source mlimits climits m command budget limits w table out :
  model_limits_ok mlimits → compile source mlimits climits = Some (Ok m) → positive_source source = true →
  users_snapshot command w table → contexts_current command.(luc_query) m table →
  list_users command m budget limits w = Ok out →
  let says s := declared source climits (rows_at (query_env command.(luc_query) m) (table_rows table))
    command.(luc_query).(qc_condition_context) (HasRelation command.(luc_object) command.(luc_relation) s) in
  (∀ s, s ∈ out.(luo_users) → concrete s → says s) ∧
  (out.(luo_metadata).(lum_truncated) = false → ∀ f s, f ∈ command.(luc_filters) → filter_matches f s = true →
     concrete s → says s → s ∈ out.(luo_users) ∨ SubjWildcard (subject_type s) ∈ out.(luo_users)).
Proof.
  intros Hl Hc Hpos Hsnap Hcur Hout. destruct (compile_ok _ _ _ _ Hl Hc) as (origins & Hm).
  set (e := query_env command.(luc_query) m).
  assert (He : compiled mlimits climits source e.(env_model) origins) by exact Hm.
  pose proof (compiled_typed _ _ _ _ _ Hm) as Htyped.
  pose proof (compiled_graph_laws mlimits climits source origins e He) as Hg.
  pose proof (compiled_positive_source _ _ _ _ _ Hm Hpos) as Hp.
  destruct (list_users_spec command m budget limits w table out Hsnap Hcur (positive_acyclic m Hp) Hout)
    as (r & Hr & _ & Hsound & Hcomplete).
  pose proof (fun s => compiled_members mlimits climits source origins e (table_rows table) He _ _ _ s Hr) as Hmem.
  split.
  - intros s Hs Hu. destruct (Hsound s Hs) as (f & _ & _ & Hd). destruct (Hd Hu) as (d & Hd' & Ha).
    apply Hmem. by apply (decides_member e (table_rows table) Hp _ _ Hd').
  - intros Htr f s Hf Hm' Hu Hsays. destruct (Hcomplete f s Hf Hm' Hu) as (d & Hd & Ha). apply Ha; [done|].
    apply (decides_member e (table_rows table) Hp _ _ Hd). by apply Hmem.
Qed.

(** C23: listing users ends: the expansion never runs out of the rounds its
    dispatch budget allows, in any world; and a completed query stays within
    every budget and returns at most the requested number of subjects. *)
Theorem list_users_ends `{ConditionEngine} command m budget limits w :
  list_users command m budget limits w ≠ Err LFuel ∧
  ∀ out, list_users command m budget limits w = Ok out →
    users_within budget out.(luo_metadata).(lum_counters) ∧
    (out.(luo_metadata).(lum_results) <= command.(luc_maximum_results))%N ∧
    len out.(luo_users) = out.(luo_metadata).(lum_results).
Proof.
  split.
  - unfold list_users. repeat (apply bind_no_fuel; [by apply map_err_no_fuel|intros ? _]).
    apply bind_no_fuel; [eapply wp_fuel, list_filters_spent|].
    intros [[users e] n] _. apply bind_no_fuel; [by apply map_err_no_fuel|done].
  - intros out (r & mx & users & e & n & _ & _ & _ & Hfold & Hu & -> & -> & _)%list_users_inv.
    pose proof (list_filters_spent command m budget limits w mx r command.(luc_filters) 0) as Hwp.
    apply (wp_ok _ _ _ _ _ _ _ _ Hwp) in Hfold. split_and!; [done| |done].
    rewrite Hu. unfold len. rewrite length_take. lia.
Qed.

(** ** Witnesses *)

Import Declarations.

(** Documents whose viewers are not blocked; [extra] is what may be assigned to
    [blocked] besides users. *)
Module Exclusion.

Definition blocked : RelationName := str "blocked".
Definition source (extra : list DirectRestrictionSource) : AuthorizationModelSource := {|
  ams_store_id := 1%N;
  ams_model_id := 2%N;
  ams_schema_version := str "1.1";
  ams_type_definitions :=
    [ mkTypeDefinitionSource user [];
      mkTypeDefinitionSource document
        [relation_source_new viewer (SDifference SDirect (SComputed blocked)) [assignable user RSObject; assignable user RSWildcard];
         relation_source_new blocked SDirect (assignable user RSObject :: extra)] ];
  ams_conditions := [];
|}.
Definition model_of (extra : list DirectRestrictionSource) : CompiledModel :=
  match compile (source extra) default_model_limits default_condition_limits with
  | Some (Ok m) => m
  | _ => Fixture.model
  end.
Definition model : CompiledModel := Eval vm_compute in model_of [].
Definition cyclic_model : CompiledModel := Eval vm_compute in model_of [assignable document (RSUserset blocked)].

(** Everyone may view the document, bob explicitly, and anne is blocked. *)
Definition table : list RelationshipTuple :=
  [ tuple doc1 viewer (SubjWildcard user); tuple doc1 viewer (SubjObject bob); tuple doc1 blocked (SubjObject anne) ].
(** Bob may view the document, whose blocked users are blocked. *)
Definition cyclic_table : list RelationshipTuple :=
  [ tuple doc1 viewer (SubjObject bob); tuple doc1 blocked (SubjUserset (mkUsersetRef doc1 blocked)) ].

Definition viewers : ListUsersCommand := mkListUsersCommand query doc1 viewer [mkUserTypeFilter user None] 10.
Definition small : ListUsersBudget := mkListUsersBudget 25 40 100 100 100 100.

End Exclusion.

(** Nothing can be assigned to [blocked] that leads to another relation. *)
Lemma blocked_depends r : ¬ depends Exclusion.model.(model_relations) Exclusion.model.(model_nodes) 1 r.
Proof.
  intros (rel & Hrel & Hid & n & nd & Hin & Hn & Hedge).
  repeat (apply elem_of_cons in Hrel as [->|Hrel]; [try done|]); [|by apply elem_of_nil in Hrel].
  apply rtc_inv in Hin as [<-|(c & Hc & _)]; [|by apply elem_of_nil in Hc].
  simpl in Hn. injection Hn as <-. inversion Hedge as [| |owner rel d t Ho Hd Hk]; subst. simpl in Ho. injection Ho as <-.
  apply list_elem_of_singleton in Hd as ->. done.
Qed.

Lemma exclusion_acyclic : subtract_acyclic Exclusion.model.
Proof.
  intros n base sub nd r r' Hn Hs Hedge Hrtc Htc.
  assert (n = 2) as -> by (destruct n as [|[|[|[|]]]]; by simplify_eq/=).
  injection Hn as <- <-. injection Hs as <-. inversion Hedge; subst.
  apply rtc_inv in Hrtc as [<-|(x & []%blocked_depends & _)].
  inversion Htc as [? ? Hd|? ? ? Hd _]; subst; by apply blocked_depends in Hd.
Qed.

Lemma exclusion_compiled : ∃ origins, compiled default_model_limits default_condition_limits (Exclusion.source []) Exclusion.model origins.
Proof. apply (compile_ok _ _ _ _ limits_ok). vm_compute. reflexivity. Qed.

Lemma exclusion_typed : TypedModel Exclusion.model.
Proof. destruct exclusion_compiled as [origins Hm]. by eapply compiled_typed. Qed.

Lemma exclusion_graph : GraphLaws Exclusion.model.
Proof.
  destruct exclusion_compiled as [origins Hm].
  exact (compiled_graph_laws default_model_limits default_condition_limits (Exclusion.source []) origins
    (query_env query Exclusion.model) Hm).
Qed.

Lemma quiet_snapshot command db : command.(luc_query) = query → users_snapshot command (list_world db) db.
Proof.
  intros Hq. split; [rewrite Hq; constructor|]. intros tk f mx stream rows [= <-] Hrows _ _ t.
  rewrite from_tuples_items in Hrows. by apply (inj (fmap Ok)) in Hrows as <-.
Qed.

Lemma exclusion_current : contexts_current query Exclusion.model Exclusion.table.
Proof. intros t Ht. repeat (apply elem_of_cons in Ht as [->|Ht]; [done|]). by apply elem_of_nil in Ht. Qed.

(** The answer: bob and everyone, with anne left out by the wildcard rule. *)
Definition listed_users : ListUsersOutcome :=
  mkListUsersOutcome [SubjObject bob; SubjWildcard user] (mkListUsersMetadata (mkUserCounters 6 2 3 0 2) 2 false).


(** The viewers of the document of the fixture. *)
Definition viewers : ListUsersCommand := mkListUsersCommand query doc1 viewer [mkUserTypeFilter user None] 10.

Lemma list_users_answers_declarations_witness :
  (∀ s, s ∈ [SubjObject bob] → concrete s →
     declared source default_condition_limits (rows_at (query_env query model) (table_rows documents))
       empty_condition_context (HasRelation doc1 viewer s)) ∧
  (false = false → ∀ f s, f ∈ [mkUserTypeFilter user None] → filter_matches f s = true → concrete s →
     declared source default_condition_limits (rows_at (query_env query model) (table_rows documents))
       empty_condition_context (HasRelation doc1 viewer s) →
     s ∈ [SubjObject bob] ∨ SubjWildcard (subject_type s) ∈ [SubjObject bob]).
Proof.
  exact (list_users_answers_declarations source default_model_limits default_condition_limits model viewers Exclusion.small
    default_input_limits (list_world documents) documents
    (mkListUsersOutcome [SubjObject bob] (mkListUsersMetadata (mkUserCounters 8 3 4 0 2) 1 false))
    limits_ok compiles ltac:(vm_compute; reflexivity) (quiet_snapshot viewers _ eq_refl) (viewable_current 10)
    ltac:(vm_compute; reflexivity)).
Defined.

Lemma list_users_ends_witness :
  users_within Exclusion.small (mkUserCounters 6 2 3 0 2) ∧ (2 <= 10)%N ∧ len [SubjObject bob; SubjWildcard user] = 2%N.
Proof.
  exact (proj2 (list_users_ends Exclusion.viewers Exclusion.model Exclusion.small default_input_limits
    (list_world Exclusion.table)) listed_users ltac:(vm_compute; reflexivity)).
Defined.

(** ** Exclusion of a cyclic relation *)

