(* ===== verification/Expand.v ===== *)
(** * Expanding a relation

    [crates/openfga-list/src/expand.rs]: the diagnostic tree of one relation,
    with independent ceilings on nodes, depth, reads, rows and response size. *)

From S2P Require Import Prelude Ordered Identifier Reference Condition Storage Model TupleValidation Budget.
From S2P Require Import Reducer Scheduler Evaluator ListCommon ListUsers.

#[export] Instance userset_key_inj : Inj (=) (=) userset_key.
Proof. intros [] []; unfold userset_key; simpl; intros; by simplify_eq. Qed.
#[export] Instance ord_UsersetRef : Ord UsersetRef := ord_via userset_key.
#[export] Instance ord_laws_UsersetRef : OrdLaws UsersetRef := ord_laws_via userset_key.

(** ** Trees *)

Inductive ExpandNode := mkExpandNode (name : UsersetRef) (value : ExpandNodeValue)
with ExpandNodeValue :=
| EUsers (users : list SubjectRef)
| EComputed (u : UsersetRef)
| ETupleToUserset (tupleset : UsersetRef) (computed : list UsersetRef)
| EUnion (children : list ExpandNode)
| EIntersection (children : list ExpandNode)
| EDifference (base subtract : ExpandNode).

Record ExpandCounters := mkExpandCounters {
  ec_nodes : N;
  ec_datastore_queries : N;
  ec_tuple_items : N;
  ec_maximum_depth : N;
  ec_response_bytes : N;
}.

Record ExpandState := mkExpandState {
  es_cache : BTreeMap RelationKey (list RelationshipTuple);
  es_counters : ExpandCounters;
}.
Definition expand_state_default : ExpandState := mkExpandState [] (mkExpandCounters 0 0 0 0 0).

Record ExpandOutcome := mkExpandOutcome { eo_root : ExpandNode; eo_metadata : ExpandCounters }.

(** ** Errors *)

Definition expand_depth_exceeded : ListError := list_error LDepthExceeded "expand_depth_exceeded".
Definition expand_node_exceeded : ListError := list_error LNodeExceeded "expand_nodes_exceeded".
Definition expand_query_exceeded : ListError := list_error LDatastoreQueryExceeded "expand_datastore_query_exceeded".
Definition expand_items_exceeded : ListError := list_error LTupleItemExceeded "expand_tuple_items_exceeded".
Definition response_size_exceeded : ListError := list_error LResponseSizeExceeded "expand_response_size_exceeded".

(** ** Rendered sizes *)

Definition object_rendered_bytes (o : ObjectRef) : result ListError N :=
  ok_or (bytes ← checked_add USIZE_MAX (str_len o.(object_type)) 1; checked_add USIZE_MAX bytes (str_len o.(object_id)))
    response_size_exceeded.

Definition userset_rendered_bytes (u : UsersetRef) : result ListError N :=
  object ← object_rendered_bytes u.(us_object);
  ok_or (bytes ← checked_add USIZE_MAX object 1; checked_add USIZE_MAX bytes (str_len u.(us_relation))) response_size_exceeded.

Definition subject_rendered_bytes (s : SubjectRef) : result ListError N :=
  match s with
  | SubjObject o => object_rendered_bytes o
  | SubjUserset u => userset_rendered_bytes u
  | SubjWildcard ty => ok_or (checked_add USIZE_MAX (str_len ty) 2) response_size_exceeded
  end.

(** ** Canonical order *)

(** [SubjectRef::object_id] and [SubjectRef::relation] *)
Definition subject_object_id (s : SubjectRef) : rstr :=
  match s with SubjObject o => o.(object_id) | SubjUserset u => u.(us_object).(object_id) | SubjWildcard _ => str "*" end.
Definition subject_relation (s : SubjectRef) : nat + rstr :=
  match s with SubjUserset u => inr u.(us_relation) | _ => inl 0 end.

(** [subject_canonical_cmp] *)
Definition subject_canonical_cmp (l r : SubjectRef) : comparison :=
  cmp (subject_type l, (subject_object_id l, subject_relation l)) (subject_type r, (subject_object_id r, subject_relation r)).

(** ** The evaluator *)

Section expand.
Context `{ConditionEngine}.
Variable command : ExpandCommand.
Variable m : CompiledModel.
Variable budget : ExpandBudget.
Variable limits : InputLimits.
Variable w : ListWorld.
Variable maximum_per_read : N.

Abbreviation X := (Eng ExpandState).
Abbreviation operation := (query_operation command.(exc_query)).

Definition upd_expand (f : ExpandCounters → ExpandCounters) : X () :=
  eng_modify (fun e => mkExpandState e.(es_cache) (f e.(es_counters))).

(** [charge_response_bytes] and [charge_rendered_bytes] *)
Definition charge_response_bytes (bytes : N) : X () :=
  e ← eng_get;
  n ← eng_lift (ok_or (checked_add U32_MAX e.(es_counters).(ec_response_bytes) bytes) response_size_exceeded);
  upd_expand (fun c => mkExpandCounters c.(ec_nodes) c.(ec_datastore_queries) c.(ec_tuple_items) c.(ec_maximum_depth) n);;
  if (budget.(exb_response_bytes) <? n)%N then eng_fail response_size_exceeded else mret ().

Definition charge_rendered_bytes (envelope : N) (rendered : N) : X () :=
  rendered ← eng_lift (ok_or (try_u32 rendered) response_size_exceeded);
  bytes ← eng_lift (ok_or (checked_add U32_MAX envelope rendered) response_size_exceeded);
  charge_response_bytes bytes.

(** [charge_node], [charge_subject] and [charge_reference] *)
Definition charge_node (name : UsersetRef) : X () :=
  rendered ← eng_lift (userset_rendered_bytes name); charge_rendered_bytes 16 rendered.
Definition charge_subject (s : SubjectRef) : X () :=
  rendered ← eng_lift (subject_rendered_bytes s); charge_rendered_bytes 8 rendered.
Definition charge_reference (u : UsersetRef) : X () :=
  rendered ← eng_lift (userset_rendered_bytes u); charge_rendered_bytes 8 rendered.

(** [charge_tuple_items] *)
Definition expand_charge_items (stored contextual : nat) : X () :=
  count ← eng_lift (ok_or (c ← checked_add USIZE_MAX (N.of_nat stored) (N.of_nat contextual); try_u32 c)
                      expand_items_exceeded);
  e ← eng_get;
  n ← eng_lift (ok_or (checked_add U32_MAX e.(es_counters).(ec_tuple_items) count) expand_items_exceeded);
  upd_expand (fun c => mkExpandCounters c.(ec_nodes) c.(ec_datastore_queries) n c.(ec_maximum_depth) c.(ec_response_bytes));;
  if (budget.(exb_tuple_items) <? n)%N then eng_fail expand_items_exceeded else mret ().

(** [consume_node] *)
Definition consume_node (depth : N) : X () :=
  if (budget.(exb_depth) <? depth)%N then eng_fail expand_depth_exceeded
  else
    upd_expand (fun c => mkExpandCounters c.(ec_nodes) c.(ec_datastore_queries) c.(ec_tuple_items)
                           (N.max c.(ec_maximum_depth) depth) c.(ec_response_bytes));;
    e ← eng_get;
    n ← eng_lift (ok_or (checked_add U32_MAX e.(es_counters).(ec_nodes) 1) expand_node_exceeded);
    upd_expand (fun c => mkExpandCounters n c.(ec_datastore_queries) c.(ec_tuple_items) c.(ec_maximum_depth)
                           c.(ec_response_bytes));;
    if (budget.(exb_nodes) <? n)%N then eng_fail expand_node_exceeded else mret ().

(** [Evaluator::userset_ref] *)
Definition expand_userset_ref (object : ObjectRef) (r : RelationId) : result ListError UsersetRef :=
  rel ← map_err (list_model_error "expand_userset_relation_invalid") (relation m r);
  map_err (fun _ => list_internal "expand_userset_render_invalid") (userset_ref_new object rel.(cr_name) limits).

(** [read_relation] *)
Definition expand_read_relation (object : ObjectRef) (r : RelationId) : X (list RelationshipTuple) :=
  let key := mkRelationKey object r in
  e ← eng_get;
  match bt_get key e.(es_cache) with
  | Some rows => mret rows
  | None =>
      eng_check w operation;;
      e ← eng_get;
      n ← eng_lift (ok_or (checked_add U32_MAX e.(es_counters).(ec_datastore_queries) 1) expand_query_exceeded);
      upd_expand (fun c => mkExpandCounters c.(ec_nodes) n c.(ec_tuple_items) c.(ec_maximum_depth) c.(ec_response_bytes));;
      (if (budget.(exb_datastore_queries) <? n)%N then eng_fail expand_query_exceeded else mret ());;
      rel ← eng_lift (map_err (list_model_error "expand_read_relation_invalid") (relation m r));
      filter ← eng_lift (map_err list_storage_error (object_relation_filter_new object rel.(cr_name) [] CFAny limits));
      tk ← eng_tick;
      stream ← eng_lift (map_err list_storage_error
                           (lw_forward w tk command.(exc_query).(qc_store_id) filter maximum_per_read));
      rows ← eng_map (fun row => eng_check w operation;; eng_lift (map_err list_storage_error row)) (stream_items stream);
      let contextual :=
        base.filter (fun t => t.(rt_key).(tk_object) = object ∧ t.(rt_key).(tk_relation) = rel.(cr_name))
          command.(exc_query).(qc_contextual_tuples) in
      expand_charge_items (length rows) (length contextual);;
      let rows := base.filter (fun t => is_ok (validate_relationship_tuple m t) = true) rows ++ contextual in
      eng_modify (fun e => mkExpandState (bt_insert key rows e.(es_cache)) e.(es_counters));;
      mret rows
  end.

(** [target_reference] *)
Fixpoint target_reference (object : ObjectRef) (targets : list RelationId) : result ListError (option UsersetRef) :=
  match targets with
  | [] => Ok None
  | target :: targets =>
      rel ← map_err (list_model_error "expand_ttu_target_invalid") (relation m target);
      ty ← map_err (list_model_error "expand_ttu_target_type_invalid") (type_name m rel.(cr_object_type));
      if bool_decide (ty = object.(object_type)) then Some <$> expand_userset_ref object target
      else target_reference object targets
  end.

(** The reference of one tupleset row. *)
Definition row_reference (targets : list RelationId) (t : RelationshipTuple) : result ListError UsersetRef :=
  match t.(rt_key).(tk_subject) with
  | SubjObject target =>
      u ← target_reference target targets; ok_or u (list_internal "expand_ttu_target_relation_missing")
  | SubjUserset u => Ok u
  | SubjWildcard _ => Err (list_internal "expand_ttu_wildcard_subject")
  end.

(** [expand_ttu] *)
Definition expand_ttu_node (object : ObjectRef) (tupleset : RelationId) (targets : list RelationId) : X ExpandNodeValue :=
  tupleset_ref ← eng_lift (expand_userset_ref object tupleset);
  charge_reference tupleset_ref;;
  rows ← expand_read_relation object tupleset;
  computed ← eng_fold (fun acc t => u ← eng_lift (row_reference targets t); mret (bs_insert u acc)) [] rows;
  eng_each charge_reference computed;;
  mret (ETupleToUserset tupleset_ref computed).

(** [expand_node] and [expand_children]; every level is one deeper. *)
Fixpoint expand_node (fuel : nat) (object : ObjectRef) (owning : RelationId) (n : NodeId) (visited : BTreeSet NodeId)
    (depth : N) : X ExpandNode :=
  match fuel with
  | 0 => eng_fuel
  | S fuel =>
      eng_check w operation;;
      depth ← eng_lift (ok_or (checked_add U32_MAX depth 1) expand_depth_exceeded);
      consume_node depth;;
      name ← eng_lift (expand_userset_ref object owning);
      charge_node name;;
      if bs_contains n visited then charge_reference name;; mret (mkExpandNode name (EComputed name))
      else
        let visited := bs_insert n visited in
        let child c := expand_node fuel object owning c visited depth in
        rewrite ← eng_lift (map_err (list_model_error "expand_node_invalid") (node m n));
        value ← match rewrite with
                | NDirect r =>
                    rows ← expand_read_relation object r;
                    let users := bs_collect ((fun t => t.(rt_key).(tk_subject)) <$> rows) in
                    eng_each charge_subject users;;
                    mret (EUsers (sort_by subject_canonical_cmp users))
                | NComputed r =>
                    computed ← eng_lift (expand_userset_ref object r);
                    charge_reference computed;;
                    mret (EComputed computed)
                | NTupleToUserset tupleset _ targets => expand_ttu_node object tupleset targets
                | NUnion children => l ← eng_map child children; mret (EUnion l)
                | NIntersection children => l ← eng_map child children; mret (EIntersection l)
                | NDifference base subtract =>
                    base ← child base;
                    subtract ← child subtract;
                    mret (EDifference base subtract)
                end;
        mret (mkExpandNode name value)
  end.

Definition expand_fuel : nat := S (N.to_nat budget.(exb_depth)).

End expand.

(** [DirectExpandEngine::expand] with [Evaluator::new] *)
Definition expand_relation_tree `{ConditionEngine} (command : ExpandCommand) (m : CompiledModel) (budget : ExpandBudget)
    (limits : InputLimits) (w : ListWorld) : result ListFault ExpandOutcome :=
  _ ← map_err LFail (validate_query_model command.(exc_query) m);
  _ ← map_err LFail (validate_contextual command.(exc_query) m);
  r ← map_err LFail (map_err (list_model_error "expand_relation_not_found")
        (relation_id m command.(exc_object).(object_type) command.(exc_relation)));
  rel ← map_err LFail (map_err (list_model_error "expand_relation_invalid") (relation m r));
  maximum_per_read ← map_err (fun _ => LFail (list_internal "expand_forward_read_limit_invalid"))
                       (limit_new 100000 (N.min budget.(exb_tuple_items) 100000));
  '(root, e, _) ← (charge_response_bytes budget 8;;
                   expand_node command m budget limits w maximum_per_read (expand_fuel budget) command.(exc_object) r
                     rel.(cr_root) [] 0) expand_state_default 0;
  Ok (mkExpandOutcome root e.(es_counters)).
