(* ===== verification/ExpandTheory.v ===== *)
(** * What an expansion returns

    The tree of a completed expansion mirrors the rewrite of the relation over
    the valid rows, and its accounting is exact. *)

From S2P Require Import Prelude Ordered Identifier Reference Condition Storage Model ModelErrors Graph.
From S2P Require Import GraphTheory ModelSource Compiler CompilerTheory TupleValidation Budget Reducer.
From S2P Require Import Scheduler CheckSpec CheckSound Membership Restrictions Fixture CheckTheorems.
From S2P Require Import ModelTyping SourceSemantics CompilerTheorems Evaluator ListCommon Candidates.
From S2P Require Import CandidatesTheory ListSpec ListTheorems ListUsers Expand.

(** ** Sizes of a tree *)

Definition object_bytes (o : ObjectRef) : N := str_len o.(object_type) + 1 + str_len o.(object_id).
Definition userset_bytes (u : UsersetRef) : N := object_bytes u.(us_object) + 1 + str_len u.(us_relation).
Definition subject_bytes (s : SubjectRef) : N :=
  match s with
  | SubjObject o => object_bytes o
  | SubjUserset u => userset_bytes u
  | SubjWildcard ty => str_len ty + 2
  end.

Definition total {A} (f : A → N) (l : list A) : N := foldr (fun x n => f x + n)%N 0%N l.

Fixpoint tree_nodes (t : ExpandNode) : N :=
  match t with mkExpandNode _ v => 1 + value_nodes v end
with value_nodes (v : ExpandNodeValue) : N :=
  match v with
  | EUsers _ | EComputed _ | ETupleToUserset _ _ => 0
  | EUnion l | EIntersection l => total tree_nodes l
  | EDifference a b => tree_nodes a + tree_nodes b
  end.

Fixpoint tree_height (t : ExpandNode) : N :=
  match t with mkExpandNode _ v => 1 + value_height v end
with value_height (v : ExpandNodeValue) : N :=
  match v with
  | EUsers _ | EComputed _ | ETupleToUserset _ _ => 0
  | EUnion l | EIntersection l => foldr (fun x n => N.max (tree_height x) n) 0%N l
  | EDifference a b => N.max (tree_height a) (tree_height b)
  end.

(** Bytes of the rendered names and subjects with their envelopes. *)
Fixpoint tree_bytes (t : ExpandNode) : N :=
  match t with mkExpandNode name v => 16 + userset_bytes name + value_bytes v end
with value_bytes (v : ExpandNodeValue) : N :=
  match v with
  | EUsers l => total (fun s => 8 + subject_bytes s)%N l
  | EComputed u => 8 + userset_bytes u
  | ETupleToUserset ts l => 8 + userset_bytes ts + total (fun u => 8 + userset_bytes u)%N l
  | EUnion l | EIntersection l => total tree_bytes l
  | EDifference a b => tree_bytes a + tree_bytes b
  end.

Lemma total_app {A} (f : A → N) l l' : total f (l ++ l') = (total f l + total f l')%N.
Proof. unfold total. induction l as [|x l IH]; simpl; [done|]. rewrite IH. lia. Qed.

Lemma total_permutation {A} (f : A → N) l l' : l ≡ₚ l' → total f l = total f l'.
Proof. unfold total. induction 1; simpl; lia. Qed.

(** ** Charges *)

Section charges.
Context `{ConditionEngine}.
Variable budget : ExpandBudget.

Definition charged (b : N) (e : ExpandState) : ExpandState :=
  let c := e.(es_counters) in
  mkExpandState e.(es_cache)
    (mkExpandCounters c.(ec_nodes) c.(ec_datastore_queries) c.(ec_tuple_items) c.(ec_maximum_depth) (c.(ec_response_bytes) + b)).

Lemma charged_charged a b e : charged b (charged a e) = charged (a + b) e.
Proof. unfold charged. simpl. by rewrite N.add_assoc. Qed.
Lemma charged_0 e : charged 0 e = e.
Proof. destruct e as [? []]. unfold charged. simpl. by rewrite N.add_0_r. Qed.

Lemma charge_response_ok b e n : wp False (charge_response_bytes budget b) (fun _ e' => e' = charged b e) e n.
Proof.
  unfold charge_response_bytes, upd_expand. wp_steps. case_match; wp_steps.
  rename select (ok_or _ _ = Ok _) into Ha. by apply ok_or_ok, checked_add_Some in Ha as [-> _].
Qed.

Lemma charge_rendered_ok envelope b e n :
  wp False (charge_rendered_bytes budget envelope b) (fun _ e' => e' = charged (envelope + b) e) e n.
Proof.
  unfold charge_rendered_bytes. wp_steps. rename select (ok_or (try_u32 b) _ = Ok _) into Hb.
  apply ok_or_ok in Hb. unfold try_u32 in Hb. case_match; simplify_eq.
  rename select (ok_or _ _ = Ok _) into Ha. apply ok_or_ok, checked_add_Some in Ha as [-> _]. apply charge_response_ok.
Qed.

Lemma object_rendered_ok o b : object_rendered_bytes o = Ok b → b = object_bytes o.
Proof.
  unfold object_rendered_bytes. intros (x & [-> _]%checked_add_Some & [-> _]%checked_add_Some)%ok_or_ok%bind_Some. done.
Qed.
Lemma userset_rendered_ok u b : userset_rendered_bytes u = Ok b → b = userset_bytes u.
Proof.
  unfold userset_rendered_bytes. intros (x & ->%object_rendered_ok & Hb)%result_bind_ok.
  by apply ok_or_ok, bind_Some in Hb as (y & [-> _]%checked_add_Some & [-> _]%checked_add_Some).
Qed.
Lemma subject_rendered_ok s b : subject_rendered_bytes s = Ok b → b = subject_bytes s.
Proof.
  destruct s; simpl; [apply object_rendered_ok|apply userset_rendered_ok|]. by intros [-> _]%ok_or_ok%checked_add_Some.
Qed.

Lemma charge_node_ok u e n : wp False (charge_node budget u) (fun _ e' => e' = charged (16 + userset_bytes u) e) e n.
Proof. unfold charge_node. wp_steps. rename select (_ = Ok _) into Hb. apply userset_rendered_ok in Hb as ->. apply charge_rendered_ok. Qed.
Lemma charge_reference_ok u e n : wp False (charge_reference budget u) (fun _ e' => e' = charged (8 + userset_bytes u) e) e n.
Proof. unfold charge_reference. wp_steps. rename select (_ = Ok _) into Hb. apply userset_rendered_ok in Hb as ->. apply charge_rendered_ok. Qed.
Lemma charge_subject_ok s e n : wp False (charge_subject budget s) (fun _ e' => e' = charged (8 + subject_bytes s) e) e n.
Proof. unfold charge_subject. wp_steps. rename select (_ = Ok _) into Hb. apply subject_rendered_ok in Hb as ->. apply charge_rendered_ok. Qed.

Lemma charge_each_ok {A} (f : A → Eng ExpandState ()) (size : A → N) l e n :
  (∀ x e n, wp False (f x) (fun _ e' => e' = charged (size x) e) e n) →
  wp False (eng_each f l) (fun _ e' => e' = charged (total size l) e) e n.
Proof.
  intros Hf. apply (wp_each False f (fun l1 e' => e' = charged (total size l1) e)); [by rewrite charged_0|].
  intros l1 x l2 e1 n1 _ ->. eapply wp_mono; [apply Hf|]. intros _ e2 ->.
  rewrite charged_charged, total_app. simpl. by rewrite N.add_0_r.
Qed.

End charges.

(** ** The tree *)

Section tree.
Context `{ConditionEngine}.
Variable command : ExpandCommand.
Variable m : CompiledModel.
Variable budget : ExpandBudget.
Variable limits : InputLimits.
Variable w : ListWorld.
Variable maximum_per_read : N.
Variable table : list RelationshipTuple.

Abbreviation q := command.(exc_query).
Abbreviation env := (query_env q m).
Abbreviation valid_rows := (valid_rows q m table).

(** The tree of a node of a rewrite on [o]: the subjects of the valid rows of a
    direct node, in canonical order; the reference of a computed node; the
    references of the objects of the valid tupleset rows, in order; the trees of
    the operands, in order. *)
Inductive mirrors (o : ObjectRef) (name : UsersetRef) : NodeId → ExpandNode → Prop :=
| mirrors_direct n r rows users :
    node m n = Ok (NDirect r) → valid_rows o r rows → NoDup users →
    (∀ s, s ∈ users ↔ ∃ t, t ∈ rows ∧ t.(rt_key).(tk_subject) = s) →
    StronglySorted (fun a b => subject_canonical_cmp a b ≠ Gt) users →
    mirrors o name n (mkExpandNode name (EUsers users))
| mirrors_computed n r rel :
    node m n = Ok (NComputed r) → relation m r = Ok rel →
    mirrors o name n (mkExpandNode name (EComputed (mkUsersetRef o rel.(cr_name))))
| mirrors_ttu n ts c targets rel rows computed :
    node m n = Ok (NTupleToUserset ts c targets) → relation m ts = Ok rel → valid_rows o ts rows →
    bs_sorted computed →
    (∀ u, u ∈ computed ↔ ∃ t x, t ∈ rows ∧ t.(rt_key).(tk_subject) = SubjObject x ∧ u = mkUsersetRef x c) →
    mirrors o name n (mkExpandNode name (ETupleToUserset (mkUsersetRef o rel.(cr_name)) computed))
| mirrors_union n cs l :
    node m n = Ok (NUnion cs) → Forall2 (mirrors o name) cs l → mirrors o name n (mkExpandNode name (EUnion l))
| mirrors_intersection n cs l :
    node m n = Ok (NIntersection cs) → Forall2 (mirrors o name) cs l →
    mirrors o name n (mkExpandNode name (EIntersection l))
| mirrors_difference n b s tb ts :
    node m n = Ok (NDifference b s) → mirrors o name b tb → mirrors o name s ts →
    mirrors o name n (mkExpandNode name (EDifference tb ts)).

Context `{!TypedModel m}.
Hypothesis Hkeys : NoDup (rt_key <$> q.(qc_contextual_tuples)).
Hypothesis Hsnap : forward_snapshot (lw_forward w) q.(qc_store_id) table.
Hypothesis Hctx : validate_contextual q m = Ok ().

Definition expand_cache_ok (e : ExpandState) : Prop :=
  ∀ k rows, bt_get k e.(es_cache) = Some rows → valid_rows k.(uk_object) k.(uk_relation) rows.

(** The state after [x] was added at [depth]. *)
Definition accounts (nodes height bytes depth : N) (e e' : ExpandState) : Prop :=
  expand_cache_ok e' ∧
  e'.(es_counters).(ec_nodes) = (e.(es_counters).(ec_nodes) + nodes)%N ∧
  e'.(es_counters).(ec_response_bytes) = (e.(es_counters).(ec_response_bytes) + bytes)%N ∧
  e'.(es_counters).(ec_maximum_depth) =
    (if (height =? 0)%N then e.(es_counters).(ec_maximum_depth) else N.max e.(es_counters).(ec_maximum_depth) (depth + height))%N.

(** *** Rows *)

Lemma checked_rows_ok op (items : list (result StorageError RelationshipTuple)) (e : ExpandState) n :
  wp False (eng_map (fun row => eng_check w op;; eng_lift (map_err list_storage_error row)) items)
    (fun rows e' => e' = e ∧ items = Ok <$> rows) e n.
Proof.
  revert n. induction items as [|row items IH]; intros n; cbn [eng_map]; wp_steps; [done|].
  eapply wp_mono; [apply IH|]. intros rows e' [-> ->] k. wp_steps. split; [done|].
  rename select (map_err _ _ = Ok _) into Hrow. apply map_err_ok in Hrow as ->. done.
Qed.

Lemma expand_read_ok o r e n : expand_cache_ok e →
  wp False (expand_read_relation command m budget limits w maximum_per_read o r)
    (fun rows e' => (∀ depth, accounts 0 0 0 depth e e') ∧ valid_rows o r rows) e n.
Proof.
  intros He. unfold expand_read_relation. apply wp_bind, wp_get. intros n1. destruct (bt_get _ _) as [rows|] eqn:Ek.
  { apply wp_ret. split; [|exact (He _ _ Ek)]. intros depth. split_and!; [done|lia..|done]. }
  unfold expand_charge_items, upd_expand. wp_steps. case_match; wp_steps.
  repeat match goal with Hm : map_err _ _ = Ok _ |- _ => apply map_err_ok in Hm end.
  eapply wp_mono; [apply checked_rows_ok|]. intros rows e2 [-> Hrows] n2. wp_steps. case_match; wp_steps.
  split; [|by eapply read_rows]. intros depth. split_and!; [|simpl; lia..|done].
  intros k rows'. simpl. destruct (decide (k = mkRelationKey o r)) as [->|Hne].
  - rewrite bt_get_insert_eq. intros [= <-]. by eapply read_rows.
  - rewrite bt_get_insert_ne by done. apply He.
Qed.

(** *** References *)

Lemma userset_ref_ok o r u : expand_userset_ref m limits o r = Ok u →
  ∃ rel, relation m r = Ok rel ∧ u = mkUsersetRef o rel.(cr_name).
Proof.
  unfold expand_userset_ref. intros (rel & Hr%map_err_ok & Hu%map_err_ok)%result_bind_ok. exists rel. split; [done|].
  unfold userset_ref_new in Hu. repeat case_match; by simplify_eq.
Qed.

Lemma target_reference_ok c x targets u : (∀ r, r ∈ targets → ∃ ty, relation_id m ty c = Ok r) →
  target_reference m limits x targets = Ok (Some u) → u = mkUsersetRef x c.
Proof.
  intros Hc. induction targets as [|r targets IH]; cbn [target_reference]; [done|].
  intros (rel & Hr%map_err_ok & E)%result_bind_ok. apply result_bind_ok in E as (ty & _ & E). case_bool_decide.
  - apply result_fmap_ok in E as (u' & [= ->] & Hu'). destruct (userset_ref_ok x r u' Hu') as (rel' & Hr' & ->).
    destruct (Hc r) as [ty' (rel2 & Hr2 & <- & _)%typed_relation_lookup]; [by left|]. congruence.
  - apply IH; [|done]. intros r' Hr'. apply Hc. by right.
Qed.

(** A valid row of a tupleset has an object. *)
Lemma tupleset_row o n ts c targets rows t :
  node m n = Ok (NTupleToUserset ts c targets) → node_of_type env n o → valid_rows o ts rows → t ∈ rows →
  ∃ x, t.(rt_key).(tk_subject) = SubjObject x.
Proof.
  intros Hn Hty (rel & Hr & Hrows) [Hin Hv]%Hrows. pose proof Hn as Hnd%ok_or_ok.
  destruct (local_of_type env n _ ts o Hn Hty) as (rel' & Hr' & Ht); [by left|]. simpl in Hr'. rewrite Hr in Hr'. simplify_eq.
  pose proof Hin as (_ & Ho & Hname)%query_rows; [|done].
  apply (validates_matching env t ts rel') in Hv as [(class & Hm) _];
    [|apply typed_relation_lookup; exists rel'; by rewrite Ho|done].
  destruct (typed_tuplesets n ts c targets Hnd) as (_ & rel2 & Hr2 & Hd). apply ok_or_ok in Hr. rewrite Hr in Hr2. simplify_eq.
  apply matching_restriction_Some in Hm as (ty & d & _ & Hdin & _ & Hk & Hf). destruct (Hd d Hdin) as [Ek _]. rewrite Ek in Hk.
  destruct class; [done|done|done].
Qed.

(** *** Accounting *)

Lemma accounts_refl depth e : expand_cache_ok e → accounts 0 0 0 depth e e.
Proof. intros He. split_and!; [done|lia..|done]. Qed.

Lemma accounts_charge nodes height bytes depth b e e' :
  accounts nodes height bytes depth e e' → accounts nodes height (bytes + b) depth e (charged b e').
Proof. intros (Hc & Hn & Hb & Hd). split_and!; [done|done| |done]. simpl. lia. Qed.

Lemma accounts_seq n1 h1 b1 n2 h2 b2 depth e e1 e2 :
  accounts n1 h1 b1 depth e e1 → accounts n2 h2 b2 depth e1 e2 →
  accounts (n1 + n2) (N.max h1 h2) (b1 + b2) depth e e2.
Proof.
  intros (Hc1 & Hn1 & Hb1 & Hd1) (Hc2 & Hn2 & Hb2 & Hd2). split_and!; [done|lia|lia|]. rewrite Hd2, Hd1.
  destruct (N.eqb_spec h1 0), (N.eqb_spec h2 0), (N.eqb_spec (N.max h1 h2) 0); lia.
Qed.

Lemma accounts_parent b0 n h b depth e e1 e2 :
  accounts 1 1 b0 depth e e1 → accounts n h b (depth + 1) e1 e2 → accounts (1 + n) (1 + h) (b0 + b) depth e e2.
Proof.
  intros (Hc1 & Hn1 & Hb1 & Hd1) (Hc2 & Hn2 & Hb2 & Hd2). split_and!; [done|lia|lia|]. rewrite Hd2, Hd1. simpl.
  destruct (N.eqb_spec h 0), (N.eqb_spec (1 + h) 0); lia.
Qed.

Lemma accounts_cache n h b d e e' : accounts n h b d e e' → expand_cache_ok e'.
Proof. by intros [? _]. Qed.

Lemma consume_node_ok depth e n : expand_cache_ok e →
  wp False (consume_node budget (depth + 1)) (fun _ e' => accounts 1 1 0 depth e e') e n.
Proof.
  intros He. unfold consume_node, upd_expand. case_match; wp_steps. case_match; wp_steps.
  rename select (ok_or _ _ = Ok _) into Ha. apply ok_or_ok, checked_add_Some in Ha as [-> _].
  split_and!; [done|simpl; lia..].
Qed.

(** *** Nodes *)

Definition value_ok (o : ObjectRef) (name : UsersetRef) (n : NodeId) (depth : N) (e : ExpandState)
    (v : ExpandNodeValue) (e' : ExpandState) : Prop :=
  accounts (value_nodes v) (value_height v) (value_bytes v) depth e e' ∧ mirrors o name n (mkExpandNode name v).

Definition tree_ok (o : ObjectRef) (name : UsersetRef) (n : NodeId) (depth : N) (e : ExpandState)
    (t : ExpandNode) (e' : ExpandState) : Prop :=
  accounts (tree_nodes t) (tree_height t) (tree_bytes t) depth e e' ∧ mirrors o name n t.

Lemma direct_value_ok o name n r depth e k : node m n = Ok (NDirect r) → expand_cache_ok e →
  wp False (rows ← expand_read_relation command m budget limits w maximum_per_read o r;
            let users := bs_collect ((fun t => t.(rt_key).(tk_subject)) <$> rows) in
            eng_each (charge_subject budget) users;;
            mret (EUsers (sort_by subject_canonical_cmp users))) (value_ok o name n depth e) e k.
Proof.
  intros Hn He. wp_steps. eapply wp_mono; [by apply expand_read_ok|]. intros rows e1 [Hacc Hrows] k1. wp_steps.
  set (users := bs_collect _). cbv zeta. wp_steps.
  eapply wp_mono; [apply (charge_each_ok _ (fun s => 8 + subject_bytes s)%N), charge_subject_ok|].
  intros _ e2 -> k2. wp_steps.
  destruct (sort_by_ok (fun s => (subject_type s, (subject_object_id s, subject_relation s))) users) as [Hp Hs]. split.
  - cbn [value_nodes value_height value_bytes]. rewrite (total_permutation _ _ users Hp).
    by apply (accounts_charge 0 0 0).
  - eapply mirrors_direct; [done..| | |done].
    + rewrite Hp. by apply bs_sorted_NoDup, bs_sorted_collect.
    + intros s. rewrite Hp. unfold users. rewrite bs_collect_elem, list_elem_of_fmap. naive_solver.
Qed.

Lemma references_ok o n ts c targets rows (e : ExpandState) k :
  node m n = Ok (NTupleToUserset ts c targets) → node_of_type env n o → valid_rows o ts rows →
  wp False (eng_fold (fun acc t => u ← eng_lift (row_reference m limits targets t); mret (bs_insert u acc)) [] rows)
    (fun computed e' => e' = e ∧ bs_sorted computed ∧
       ∀ u, u ∈ computed ↔ ∃ t x, t ∈ rows ∧ t.(rt_key).(tk_subject) = SubjObject x ∧ u = mkUsersetRef x c) e k.
Proof.
  intros Hn Hty Hrows. pose proof Hn as Hnd%ok_or_ok. destruct (typed_tuplesets n ts c targets Hnd) as [Hc _].
  eapply wp_mono; [apply (wp_fold _ _ (fun l computed e' => e' = e ∧ bs_sorted computed ∧
    ∀ u, u ∈ computed ↔ ∃ t x, t ∈ l ∧ t.(rt_key).(tk_subject) = SubjObject x ∧ u = mkUsersetRef x c))|done].
  - split_and!; [done|apply bs_sorted_nil|]. intros u. split; [by intros []%not_elem_of_nil|].
    by intros (t & x & []%not_elem_of_nil & _).
  - intros l1 t l2 acc e1 k1 -> (-> & Hs & Hacc). wp_steps.
    destruct (tupleset_row o n ts c targets _ t Hn Hty Hrows) as [x Hx]; [apply elem_of_app; right; by left|].
    rename select (row_reference _ _ _ _ = Ok _) into Hu. unfold row_reference in Hu. rewrite Hx in Hu.
    apply result_bind_ok in Hu as ([u|] & Hu & [= <-]). apply (target_reference_ok c) in Hu as ->; [|done].
    split_and!; [done|by apply bs_sorted_insert|]. intros v. rewrite bs_insert_elem, Hacc.
    setoid_rewrite elem_of_app. setoid_rewrite list_elem_of_singleton. split.
    + intros [->|(t' & x' & ? & ? & ?)]; eauto 9.
    + intros (t' & x' & [?|?] & ? & ->); [right; eauto 9|left; congruence].
Qed.

Lemma ttu_value_ok o name n ts c targets depth e k :
  node m n = Ok (NTupleToUserset ts c targets) → node_of_type env n o → expand_cache_ok e →
  wp False (expand_ttu_node command m budget limits w maximum_per_read o ts targets) (value_ok o name n depth e) e k.
Proof.
  intros Hn Hty He. unfold expand_ttu_node. wp_steps. rename select (expand_userset_ref _ _ _ _ = Ok _) into Hu.
  apply userset_ref_ok in Hu as (rel & Hr & ->).
  eapply wp_mono; [apply charge_reference_ok|]. intros _ e1 -> k1. wp_steps.
  eapply wp_mono; [by apply expand_read_ok|]. intros rows e2 [Hacc Hrows] k2. wp_steps.
  eapply wp_mono; [by apply (references_ok o n ts c)|]. intros computed e3 (-> & Hs & Hc) k3. wp_steps.
  eapply wp_mono; [apply (charge_each_ok _ (fun u => 8 + userset_bytes u)%N), charge_reference_ok|].
  intros _ e4 -> k4. wp_steps. split; [|by eapply mirrors_ttu].
  cbn [value_nodes value_height value_bytes]. apply accounts_charge.
  pose proof (accounts_charge _ _ _ _ (8 + userset_bytes (mkUsersetRef o (cr_name rel))) _ _ (accounts_refl depth e He)) as H1.
  pose proof (accounts_seq _ _ _ _ _ _ _ _ _ _ H1 (Hacc depth)) as H2. by rewrite N.add_0_l, N.add_0_r in H2.
Qed.

Lemma children_ok (child : NodeId → Eng ExpandState ExpandNode) o name depth cs : ∀ e k,
  (∀ c e k, c ∈ cs → expand_cache_ok e → wp False (child c) (tree_ok o name c depth e) e k) → expand_cache_ok e →
  wp False (eng_map child cs) (fun l e' =>
    accounts (total tree_nodes l) (foldr (fun x n => N.max (tree_height x) n) 0%N l) (total tree_bytes l) depth e e' ∧
    Forall2 (mirrors o name) cs l) e k.
Proof.
  induction cs as [|c cs IH]; intros e k Hchild He; cbn [eng_map].
  - wp_steps. split; [by apply accounts_refl|constructor].
  - wp_steps. eapply wp_mono; [apply Hchild; [by left|done]|]. intros x e1 [Hacc Hm] k1. wp_steps.
    eapply wp_mono; [apply IH; [|by eapply accounts_cache]|]. { intros c' e' k' Hc'. apply Hchild. by right. }
    intros l e2 [Hacc2 Hm2] k2. wp_steps. split; [|by constructor]. by eapply accounts_seq.
Qed.

Lemma expand_node_tree fuel : ∀ o owning rel n visited depth e k,
  relation m owning = Ok rel → node_of_type env n o → (∀ v, v ∈ visited → n < v) → expand_cache_ok e →
  wp False (expand_node command m budget limits w maximum_per_read fuel o owning n visited depth)
    (tree_ok o (mkUsersetRef o rel.(cr_name)) n depth e) e k.
Proof.
  induction fuel as [|fuel IH]; intros o owning rel n visited depth e k Hrel Hty Hv He; [by intros []|].
  cbn [expand_node]. wp_steps. rename select (ok_or _ _ = Ok _) into Hd. apply ok_or_ok, checked_add_Some in Hd as [-> _].
  eapply wp_mono; [by apply consume_node_ok|]. intros [] e1 Hacc1 k1. wp_steps.
  rename select (expand_userset_ref _ _ _ _ = Ok _) into Hu. apply userset_ref_ok in Hu as (rel' & Hr' & ->).
  assert (rel' = rel) as -> by congruence. set (name := mkUsersetRef o (cr_name rel)).
  eapply wp_mono; [apply charge_node_ok|]. intros _ e2 -> k2. apply accounts_charge with (b := (16 + userset_bytes name)%N) in Hacc1.
  set (e2 := charged _ e1) in *. assert (He2 : expand_cache_ok e2) by (by eapply accounts_cache).
  assert (bs_contains n visited = false) as ->.
  { apply bs_contains_false. intros Hin. specialize (Hv n Hin). lia. }
  wp_steps. rename select (map_err _ _ = Ok _) into Hn. apply map_err_ok in Hn.
  assert (Hchild : ∀ c e k, c ∈ node_children a → expand_cache_ok e →
    wp False (expand_node command m budget limits w maximum_per_read fuel o owning c (bs_insert n visited) (depth + 1))
      (tree_ok o name c (depth + 1) e) e k).
  { intros c e' k' Hc. apply IH; [done|by eapply child_of_type|]. pose proof Hn as (Hlt & _)%ok_or_ok%typed_nodes.
    specialize (Hlt c Hc). intros v [->|Hin%Hv]%bs_insert_elem; lia. }
  eapply (wp_mono _ _ (value_ok o name n (depth + 1) e2)).
  2:{ intros v e3 [Hacc Hm] k3. wp_steps. split; [|done]. exact (accounts_parent _ _ _ _ _ _ _ _ Hacc1 Hacc). }
  destruct a as [r|r|ts c targets|cs|cs|b sub].
  - by apply direct_value_ok.
  - wp_steps. rename select (expand_userset_ref _ _ _ _ = Ok _) into Hu. apply userset_ref_ok in Hu as (rel2 & Hr2 & ->).
    eapply wp_mono; [apply charge_reference_ok|]. intros _ e3 -> k3. wp_steps. split; [|by eapply mirrors_computed].
    by apply (accounts_charge 0 0 0), accounts_refl.
  - by eapply ttu_value_ok.
  - wp_steps. eapply wp_mono; [by apply children_ok|]. intros l e3 [Hacc Hm] k3. wp_steps.
    split; [done|by eapply mirrors_union].
  - wp_steps. eapply wp_mono; [by apply children_ok|]. intros l e3 [Hacc Hm] k3. wp_steps.
    split; [done|by eapply mirrors_intersection].
  - wp_steps. eapply wp_mono; [apply Hchild; [by left|done]|]. intros x e3 [Hacc3 Hm3] k3. wp_steps.
    eapply wp_mono; [apply Hchild; [by right; left|by eapply accounts_cache]|]. intros y e4 [Hacc4 Hm4] k4. wp_steps.
    split; [|by eapply mirrors_difference]. by eapply accounts_seq.
Qed.

End tree.

(** ** Bounds *)

Section bounds.
Context `{ConditionEngine}.
Variable command : ExpandCommand.
Variable m : CompiledModel.
Variable budget : ExpandBudget.
Variable limits : InputLimits.
Variable w : ListWorld.
Variable maximum_per_read : N.

Record expand_within (e : ExpandState) : Prop := {
  ew_nodes : (e.(es_counters).(ec_nodes) <= budget.(exb_nodes))%N;
  ew_queries : (e.(es_counters).(ec_datastore_queries) <= budget.(exb_datastore_queries))%N;
  ew_items : (e.(es_counters).(ec_tuple_items) <= budget.(exb_tuple_items))%N;
  ew_depth : (e.(es_counters).(ec_maximum_depth) <= budget.(exb_depth))%N;
  ew_bytes : (e.(es_counters).(ec_response_bytes) <= budget.(exb_response_bytes))%N;
}.

Ltac stay := match goal with He : expand_within _ |- _ => destruct He end; constructor; simpl in *; lia.

Lemma charge_within b e n : expand_within e → wp True (charge_response_bytes budget b) (fun _ e' => expand_within e') e n.
Proof. intros He. unfold charge_response_bytes, upd_expand. wp_steps. case_match eqn:E; wp_steps. apply N.ltb_ge in E. stay. Qed.

Lemma rendered_within {A} (size : A → result ListError N) envelope x e n : expand_within e →
  wp True (rendered ← eng_lift (size x); charge_rendered_bytes budget envelope rendered) (fun _ e' => expand_within e') e n.
Proof. intros He. unfold charge_rendered_bytes. wp_steps. by apply charge_within. Qed.

Lemma consume_within depth e n : expand_within e → wp True (consume_node budget depth) (fun _ e' => expand_within e') e n.
Proof.
  intros He. unfold consume_node, upd_expand. case_match eqn:Ed; wp_steps. case_match eqn:En; wp_steps.
  apply N.ltb_ge in Ed, En. stay.
Qed.

Lemma consume_depth depth e n (Q : () → ExpandState → Prop) :
  ((depth <= budget.(exb_depth))%N → wp True (consume_node budget depth) Q e n) → wp True (consume_node budget depth) Q e n.
Proof.
  intros Hd. unfold consume_node in *. destruct (_ <? depth)%N eqn:E; [wp_steps|]. apply N.ltb_ge in E. by apply Hd.
Qed.

Lemma each_within {A} (f : A → Eng ExpandState ()) l e n :
  (∀ x e n, expand_within e → wp True (f x) (fun _ e' => expand_within e') e n) → expand_within e →
  wp True (eng_each f l) (fun _ e' => expand_within e') e n.
Proof. intros Hf He. apply wp_each_inv; [done|]. intros x e' n' _. apply Hf. Qed.

Lemma map_within {A B} (f : A → Eng ExpandState B) l : ∀ e n,
  (∀ x e n, expand_within e → wp True (f x) (fun _ e' => expand_within e') e n) → expand_within e →
  wp True (eng_map f l) (fun _ e' => expand_within e') e n.
Proof.
  induction l as [|x l IH]; intros e n Hf He; cbn [eng_map]; wp_steps; [done|].
  eapply wp_mono; [by apply Hf|]. intros y e1 He1 n1. wp_steps. eapply wp_mono; [by apply IH|].
  intros ys e2 He2 n2. by wp_steps.
Qed.

Lemma read_within o r e n : expand_within e →
  wp True (expand_read_relation command m budget limits w maximum_per_read o r) (fun _ e' => expand_within e') e n.
Proof.
  intros He. unfold expand_read_relation, expand_charge_items, upd_expand. wp_steps. case_match; [by wp_steps|].
  wp_steps. case_match eqn:Eq; wp_steps. apply N.ltb_ge in Eq.
  eapply (wp_mono _ _ (fun _ e' => expand_within e')); [apply map_within; [by intros; wp_steps|stay]|].
  intros rows e1 He1 n1. wp_steps. case_match eqn:Ei; wp_steps. apply N.ltb_ge in Ei. stay.
Qed.

Lemma ttu_within o ts targets e n : expand_within e →
  wp True (expand_ttu_node command m budget limits w maximum_per_read o ts targets) (fun _ e' => expand_within e') e n.
Proof.
  intros He. unfold expand_ttu_node. wp_steps. eapply wp_mono; [by apply rendered_within|]. intros [] e1 He1 n1. wp_steps.
  eapply wp_mono; [by apply read_within|]. intros rows e2 He2 n2. wp_steps.
  eapply (wp_mono _ _ (fun _ e' => expand_within e')).
  { apply (wp_fold _ _ (fun _ _ => expand_within)); [done|]. intros. by wp_steps. }
  intros computed e3 He3 n3. wp_steps. eapply wp_mono; [apply each_within; [|done]|].
  { intros. by apply rendered_within. }
  intros [] e4 He4 n4. by wp_steps.
Qed.

Lemma expand_node_within fuel : ∀ o owning n visited depth e k, expand_within e →
  (depth <= budget.(exb_depth))%N → (budget.(exb_depth) < depth + N.of_nat fuel)%N →
  wp True (expand_node command m budget limits w maximum_per_read fuel o owning n visited depth)
    (fun _ e' => expand_within e') e k.
Proof.
  induction fuel as [|fuel IH]; intros o owning n visited depth e k He Hd Hfuel; [lia|].
  cbn [expand_node]. wp_steps. rename select (ok_or _ _ = Ok _) into Ha. apply ok_or_ok, checked_add_Some in Ha as [-> _].
  apply consume_depth. intros Hle. eapply wp_mono; [by apply consume_within|]. intros [] e1 He1 k1. wp_steps.
  eapply wp_mono; [by apply rendered_within|]. intros [] e2 He2 k2. case_match.
  { wp_steps. eapply wp_mono; [by apply rendered_within|]. intros [] e3 He3 k3. by wp_steps. }
  assert (Hchild : ∀ c e k, expand_within e →
    wp True (expand_node command m budget limits w maximum_per_read fuel o owning c (bs_insert n visited) (depth + 1))
      (fun _ e' => expand_within e') e k) by (intros; apply IH; [done|lia..]).
  wp_steps. eapply (wp_mono _ _ (fun _ e' => expand_within e')); [|intros v e3 He3 k3; by wp_steps].
  destruct a0 as [r|r|ts c targets|cs|cs|b sub]; wp_steps.
  - eapply wp_mono; [by apply read_within|]. intros rows e3 He3 k3. cbv zeta. wp_steps.
    eapply wp_mono; [apply each_within; [|done]; intros; by apply rendered_within|]. intros [] e4 He4 k4. by wp_steps.
  - eapply wp_mono; [by apply rendered_within|]. intros [] e3 He3 k3. by wp_steps.
  - by apply ttu_within.
  - eapply wp_mono; [by apply map_within|]. intros l e3 He3 k3. by wp_steps.
  - eapply wp_mono; [by apply map_within|]. intros l e3 He3 k3. by wp_steps.
  - eapply wp_mono; [by apply Hchild|]. intros x e3 He3 k3. wp_steps. eapply wp_mono; [by apply Hchild|].
    intros y e4 He4 k4. by wp_steps.
Qed.

End bounds.

(** ** Correctness of expansion *)

Import Fixture.

(** The engine validates the query, then expands the root of the relation. *)
Lemma expand_inv `{ConditionEngine} command m budget limits w out :
  expand_relation_tree command m budget limits w = Ok out →
  ∃ r rel maximum_per_read e n,
    relation_id m command.(exc_object).(object_type) command.(exc_relation) = Ok r ∧ relation m r = Ok rel ∧
    validate_contextual command.(exc_query) m = Ok () ∧ out.(eo_metadata) = e.(es_counters) ∧
    (charge_response_bytes budget 8;;
     expand_node command m budget limits w maximum_per_read (expand_fuel budget) command.(exc_object) r rel.(cr_root) [] 0)
      expand_state_default 0 = Ok (out.(eo_root), e, n).
Proof.
  unfold expand_relation_tree. intros (? & _ & E)%result_bind_ok. apply result_bind_ok in E as ([] & Hctx%map_err_ok & E).
  apply result_bind_ok in E as (r & Hr%map_err_ok%map_err_ok & E).
  apply result_bind_ok in E as (rel & Hrel%map_err_ok%map_err_ok & E).
  apply result_bind_ok in E as (maximum & _ & E). apply result_bind_ok in E as ([[root e] n] & Hrun & [= <-]).
  by exists r, rel, maximum, e, n.
Qed.

(** The contextual tuples of the command have distinct keys and every read sees
    the same stored tuples. *)
Definition expand_snapshot (command : ExpandCommand) (w : ListWorld) (table : list RelationshipTuple) : Prop :=
  NoDup (rt_key <$> command.(exc_query).(qc_contextual_tuples)) ∧
  forward_snapshot (lw_forward w) command.(exc_query).(qc_store_id) table.

(** C24: a completed [Expand] mirrors the rewrite of its relation: one tree node
    for each rewrite node, in order, with the subjects of the valid rows in
    canonical order and the computed relations of the tupleset objects; no node
    is cut as a cycle.  Its metadata counts the nodes and the height of the tree
    exactly, and the size estimate is the sum of the rendered names and their
    envelopes. *)
Theorem expand_mirrors_rewrite `{ConditionEngine} command m budget limits w table out `{!TypedModel m} :
  expand_snapshot command w table → expand_relation_tree command m budget limits w = Ok out →
  ∃ r rel, relation_id m command.(exc_object).(object_type) command.(exc_relation) = Ok r ∧ relation m r = Ok rel ∧
    mirrors command m table command.(exc_object) (mkUsersetRef command.(exc_object) command.(exc_relation)) rel.(cr_root)
      out.(eo_root) ∧
    out.(eo_metadata).(ec_nodes) = tree_nodes out.(eo_root) ∧
    out.(eo_metadata).(ec_maximum_depth) = tree_height out.(eo_root) ∧
    out.(eo_metadata).(ec_response_bytes) = (8 + tree_bytes out.(eo_root))%N.
Proof.
  intros [Hkeys Hsnap] (r & rel & mx & e & n & Hr & Hrel & Hctx & -> & Hrun)%expand_inv.
  exists r, rel. split; [done|]. split; [done|].
  pose proof Hr as (rel' & Hrel' & <- & Hty)%typed_relation_lookup. assert (rel' = rel) as -> by congruence.
  eassert (Hwp : wp False _ (tree_ok command m table command.(exc_object) (mkUsersetRef command.(exc_object) rel.(cr_name))
    rel.(cr_root) 0 (charged 8 expand_state_default)) expand_state_default 0); [|apply (wp_ok _ _ _ _ _ _ _ _ Hwp) in Hrun].
  { apply wp_bind. eapply wp_mono; [apply charge_response_ok|]. intros [] e1 -> n1.
    eapply (expand_node_tree command m budget limits w mx table Hkeys Hsnap Hctx); [done| | |].
    - apply (root_of_type (query_env (exc_query command) m) r); [done|]. by exists rel.
    - by intros v []%not_elem_of_nil.
    - done. }
  destruct Hrun as [(_ & Hn & Hb & Hd) Hm]. split_and!; [done|simpl in *; lia| |simpl in *; lia].
  rewrite Hd. destruct (eo_root out); simpl. destruct (N.eqb_spec (1 + value_height value) 0); lia.
Qed.

(** An expansion ends: it never runs out of the levels its depth budget
    allows, in any world; and a completed one stays within every budget. *)
Theorem expand_ends `{ConditionEngine} command m budget limits w :
  expand_relation_tree command m budget limits w ≠ Err LFuel ∧
  ∀ out, expand_relation_tree command m budget limits w = Ok out →
    expand_within budget (mkExpandState [] out.(eo_metadata)).
Proof.
  assert (Hwp : ∀ mx r n0, wp True (charge_response_bytes budget 8;;
    expand_node command m budget limits w mx (expand_fuel budget) command.(exc_object) r n0 [] 0)
    (fun _ e => expand_within budget e) expand_state_default 0).
  { intros mx r n0. apply wp_bind. eapply wp_mono; [apply charge_within; constructor; simpl; lia|]. intros [] e1 He1 n1.
    apply expand_node_within; [done|lia|]. unfold expand_fuel. lia. }
  split.
  - unfold expand_relation_tree. repeat (apply bind_no_fuel; [by apply map_err_no_fuel|intros ? _]).
    apply bind_no_fuel; [eapply wp_fuel, Hwp|]. by intros [[root e] n] _.
  - intros out (r & rel & mx & e & n & _ & _ & _ & -> & Hrun)%expand_inv.
    apply (wp_ok _ _ _ _ _ _ _ _ (Hwp mx r (cr_root rel))) in Hrun. by destruct Hrun.
Qed.

(** ** Witnesses *)

(** The editors of the document of the fixture: bob directly, and the owners of
    its parent. *)
Definition edited : list RelationshipTuple := tuple doc1 editor (SubjObject bob) :: database.
Definition expand_editors : ExpandCommand := mkExpandCommand query doc1 editor.
Definition editors_name : UsersetRef := mkUsersetRef doc1 editor.
Definition editors_tree : ExpandNode :=
  mkExpandNode editors_name
    (EUnion [mkExpandNode editors_name (EUsers [SubjObject bob]);
             mkExpandNode editors_name (ETupleToUserset (mkUsersetRef doc1 parent) [mkUsersetRef root_folder owner])]).
Definition editors_outcome : ExpandOutcome := mkExpandOutcome editors_tree (mkExpandCounters 3 2 2 2 173).

Lemma edited_snapshot : expand_snapshot expand_editors (list_world edited) edited.
Proof.
  split; [constructor|]. intros tk f mx stream rows [= <-] Hrows _ _ t.
  rewrite from_tuples_items in Hrows. by apply (inj (fmap Ok)) in Hrows as <-.
Qed.

Lemma expand_mirrors_rewrite_witness :
  ∃ r rel, relation_id model document editor = Ok r ∧ relation model r = Ok rel ∧
    mirrors expand_editors model edited doc1 editors_name rel.(cr_root) editors_tree ∧
    3%N = tree_nodes editors_tree ∧ 2%N = tree_height editors_tree ∧ 173%N = (8 + tree_bytes editors_tree)%N.
Proof.
  exact (expand_mirrors_rewrite expand_editors model default_expand_budget default_input_limits (list_world edited) edited
    editors_outcome (TypedModel0 := fixture_typed) edited_snapshot ltac:(vm_compute; reflexivity)).
Defined.

Lemma expand_ends_witness : expand_within default_expand_budget (mkExpandState [] (mkExpandCounters 3 2 2 2 173)).
Proof.
  exact (proj2 (expand_ends expand_editors model default_expand_budget default_input_limits (list_world edited))
    editors_outcome ltac:(vm_compute; reflexivity)).
Defined.
