(* ===== verification/ModelFingerprint.v ===== *)
(** * Fingerprints of conditions and models

    [fingerprint_definition] and the compilation cache of
    [crates/openfga-condition/src/compiler.rs], [source_fingerprint] of
    [crates/openfga-model/src/source.rs], [model_fingerprint] of
    [crates/openfga-model/src/compiler.rs], and [StoredAuthorizationModel::new] of
    [crates/openfga-storage/src/types.rs], which compares them: what the
    fingerprints identify. *)

From S2P Require Import Prelude Ordered Identifier Codecs Reference Scalars Fingerprint Condition Storage Model ModelErrors.
From S2P Require Import CelValue CelCompiler CelTheorems ModelSource Compiler DeclarationTheory CompilerTheory Fixture CompilerTheorems CacheTheorems.
From stdpp Require Import gmap.

(** ** Conditions *)

Fixpoint fingerprint_type (parameter_type : ParameterType) (builder : FingerprintBuilder) : FingerprintBuilder :=
  match pt_kind parameter_type with
  | PTAny => write_tag 0 builder
  | PTBool => write_tag 1 builder
  | PTString => write_tag 2 builder
  | PTInt => write_tag 3 builder
  | PTUint => write_tag 4 builder
  | PTDouble => write_tag 5 builder
  | PTBytes => write_tag 6 builder
  | PTDuration => write_tag 7 builder
  | PTTimestamp => write_tag 8 builder
  | PTIpAddress => write_tag 9 builder
  | PTList value => fingerprint_type value (write_tag 10 builder)
  | PTMap value => fingerprint_type value (write_tag 11 builder)
  end.

(** What [fingerprint_definition] hashes. *)
Definition definition_bytes (definition : ConditionDefinition) : FingerprintBuilder :=
  let builder := builder_new "openfga.condition.compiled.v1" in
  let builder := write_str definition.(cd_name) builder in
  let builder := write_str definition.(cd_expression) builder in
  let builder := write_u64 (count_u64 definition.(cd_parameters)) builder in
  foldl (fun builder '(name, parameter_type) => fingerprint_type parameter_type (write_str name builder))
    builder definition.(cd_parameters).

Definition fingerprint_definition `{Sha256} (definition : ConditionDefinition) : Fingerprint :=
  finish (definition_bytes definition).

(** What [compilation_cache_key] hashes. *)
Definition compilation_bytes `{Sha256} (definition : ConditionDefinition) (limits : ConditionLimits) : FingerprintBuilder :=
  let definition_fingerprint := fingerprint_definition definition in
  let builder := builder_new "openfga.condition.compilation-cache.v1" in
  let builder := write_bytes definition_fingerprint builder in
  let builder := write_u64 limits.(cl_expression_bytes) builder in
  let builder := write_u64 limits.(cl_ast_nodes) builder in
  let builder := write_u64 limits.(cl_ast_depth) builder in
  let builder := write_u64 limits.(cl_identifiers) builder in
  let builder := write_u64 limits.(cl_literals) builder in
  let builder := write_u64 limits.(cl_comprehensions) builder in
  let builder := write_u64 limits.(cl_parameters) builder in
  let builder := write_u64 limits.(cl_literal_collection_items) builder in
  let builder := write_u64 limits.(cl_runtime_value_bytes) builder in
  write_u64 limits.(cl_runtime_collection_items) builder.

Definition compilation_cache_key `{Sha256} (definition : ConditionDefinition) (limits : ConditionLimits) : Fingerprint :=
  finish (compilation_bytes definition limits).

(** The cache of compiled conditions. *)
Abbreviation CompilationCache := (gmap Fingerprint CelCondition).

(** [ConditionCompiler::compile]: [try_get_with] computes a missing entry once and
    keeps it when it is not an error. *)
Definition compile_cached `{CelParser, Sha256} (definition : ConditionDefinition) (limits : ConditionLimits)
    (cache : CompilationCache) : CompilationCache * result CompileError CelCondition :=
  let key := compilation_cache_key definition limits in
  match cache !! key with
  | Some condition => (cache, Ok condition)
  | None =>
      match compile_uncached definition limits with
      | Ok condition => (<[key := condition]> cache, Ok condition)
      | Err error => (cache, Err error)
      end
  end.

(** What happens to the cache: a condition is compiled, or an entry evicted. *)
Inductive cache_event := CompileCondition (d : ConditionDefinition) (l : ConditionLimits) | EvictCondition (key : Fingerprint).

Fixpoint run_cache `{CelParser, Sha256} (events : list cache_event) (cache : CompilationCache) :
    list (result CompileError CelCondition) :=
  match events with
  | [] => []
  | CompileCondition d l :: events => let '(cache, r) := compile_cached d l cache in r :: run_cache events cache
  | EvictCondition key :: events => run_cache events (delete key cache)
  end.

(** ** Model sources *)

(** [write_rewrite_fingerprint]: the rewrites still to write, the next one first. *)
Fixpoint write_rewrite_loop (fuel : nat) (pending : list RewriteSource) (builder : FingerprintBuilder) : FingerprintBuilder :=
  match fuel, pending with
  | S fuel, rewrite :: pending =>
      match rewrite with
      | SDirect => write_rewrite_loop fuel pending (write_tag 0 builder)
      | SComputed relation => write_rewrite_loop fuel pending (write_str relation (write_tag 1 builder))
      | STupleToUserset tupleset computed =>
          write_rewrite_loop fuel pending (write_str computed (write_str tupleset (write_tag 2 builder)))
      | SUnion children =>
          write_rewrite_loop fuel (children ++ pending) (write_u64 (count_u64 children) (write_tag 3 builder))
      | SIntersection children =>
          write_rewrite_loop fuel (children ++ pending) (write_u64 (count_u64 children) (write_tag 4 builder))
      | SDifference base subtract => write_rewrite_loop fuel (base :: subtract :: pending) (write_tag 5 builder)
      end
  | _, _ => builder
  end.

(** Every rewrite is visited once. *)
Definition write_rewrite_fingerprint (root : RewriteSource) (builder : FingerprintBuilder) : FingerprintBuilder :=
  write_rewrite_loop (rewrite_size root) [root] builder.

Definition write_restriction (restriction : DirectRestrictionSource) (builder : FingerprintBuilder) : FingerprintBuilder :=
  let builder := write_str restriction.(drs_subject_type) builder in
  let builder :=
    match restriction.(drs_kind) with
    | RSObject => write_tag 0 builder
    | RSUserset relation => write_str relation (write_tag 1 builder)
    | RSWildcard => write_tag 2 builder
    end in
  match restriction.(drs_condition) with
  | Some condition => write_str condition (write_tag 1 builder)
  | None => write_tag 0 builder
  end.

Definition write_relation (relation : RelationSource) (builder : FingerprintBuilder) : FingerprintBuilder :=
  let builder := write_str relation.(rs_name) builder in
  let builder := write_tag (if relation.(rs_rewrite_valid) then 1 else 0) builder in
  let builder := write_rewrite_fingerprint relation.(rs_rewrite) builder in
  foldl (fun builder restriction => write_restriction restriction builder)
    (write_u64 (count_u64 relation.(rs_restrictions)) builder) relation.(rs_restrictions).

Definition write_type (type_definition : TypeDefinitionSource) (builder : FingerprintBuilder) : FingerprintBuilder :=
  let builder := write_str type_definition.(td_name) builder in
  foldl (fun builder relation => write_relation relation builder)
    (write_u64 (count_u64 type_definition.(td_relations)) builder) type_definition.(td_relations).

Section digest.
Context `{UlidCodec, Sha256}.

Definition write_condition (condition : ConditionSource) (builder : FingerprintBuilder) : FingerprintBuilder :=
  write_bytes (fingerprint_definition condition.(cs_definition)) (write_str condition.(cs_key) builder).

(** What [source_fingerprint] hashes. *)
Definition source_bytes (source : AuthorizationModelSource) : FingerprintBuilder :=
  let builder := builder_new "openfga.authorization-model-source.v1" in
  let builder := write_str (ulid_to_string source.(ams_store_id)) builder in
  let builder := write_str (ulid_to_string source.(ams_model_id)) builder in
  let builder := write_str source.(ams_schema_version) builder in
  let builder := foldl (fun builder type_definition => write_type type_definition builder)
    (write_u64 (count_u64 source.(ams_type_definitions)) builder) source.(ams_type_definitions) in
  foldl (fun builder condition => write_condition condition builder)
    (write_u64 (count_u64 source.(ams_conditions)) builder) source.(ams_conditions).

Definition source_fingerprint (source : AuthorizationModelSource) : Fingerprint := finish (source_bytes source).

End digest.

(** ** Compiled models *)

Definition write_id (id : nat) (builder : FingerprintBuilder) : FingerprintBuilder := write_u32 (N.of_nat id) builder.

Definition write_ids (ids : list nat) (builder : FingerprintBuilder) : FingerprintBuilder :=
  foldl (fun builder id => write_id id builder) (write_u64 (count_u64 ids) builder) ids.

Definition write_node_fingerprint (node : RewriteNode) (builder : FingerprintBuilder) : FingerprintBuilder :=
  match node with
  | NDirect owner => write_id owner (write_tag 0 builder)
  | NComputed target => write_id target (write_tag 1 builder)
  | NTupleToUserset tupleset computed targets =>
      write_ids targets (write_str computed (write_id tupleset (write_tag 2 builder)))
  | NUnion children => write_ids children (write_tag 3 builder)
  | NIntersection children => write_ids children (write_tag 4 builder)
  | NDifference base subtract => write_id subtract (write_id base (write_tag 5 builder))
  end.

Definition write_compiled_type (compiled_type : CompiledType) (builder : FingerprintBuilder) : FingerprintBuilder :=
  write_ids compiled_type.(ct_relations) (write_str compiled_type.(ct_name) (write_id compiled_type.(ct_id) builder)).

Definition write_compiled_restriction (restriction : DirectRestriction) (builder : FingerprintBuilder) : FingerprintBuilder :=
  let builder := write_id restriction.(dr_subject_type) builder in
  let builder :=
    match restriction.(dr_kind) with
    | RKObject => write_tag 0 builder
    | RKUserset target => write_id target (write_tag 1 builder)
    | RKWildcard => write_tag 2 builder
    end in
  match restriction.(dr_condition) with
  | ReqUnconditional => write_tag 0 builder
  | Required condition => write_id condition (write_tag 1 builder)
  end.

Definition write_compiled_relation (relation : CompiledRelation) (builder : FingerprintBuilder) : FingerprintBuilder :=
  let builder := write_id relation.(cr_id) builder in
  let builder := write_id relation.(cr_object_type) builder in
  let builder := write_str relation.(cr_name) builder in
  let builder := write_id relation.(cr_root) builder in
  foldl (fun builder restriction => write_compiled_restriction restriction builder)
    (write_u64 (count_u64 relation.(cr_restrictions)) builder) relation.(cr_restrictions).

Section model.
Context `{ConditionEngine, UlidCodec, Sha256}.
(** [CompiledCondition::fingerprint] *)
Variable condition_fingerprint : CompiledCondition → Fingerprint.

Definition write_compiled_condition (condition : CompiledConditionEntry) (builder : FingerprintBuilder) : FingerprintBuilder :=
  let builder := write_id condition.(ce_id) builder in
  let builder := write_str condition.(ce_name) builder in
  write_bytes (condition_fingerprint condition.(ce_condition)) builder.

(** What [model_fingerprint] hashes: its arguments are the parts of the compiled
    model. *)
Definition model_bytes (m : CompiledModel) : FingerprintBuilder :=
  let builder := builder_new "openfga.compiled-model.v1" in
  let builder := write_bytes (utf8_encode (ulid_to_string m.(model_store_id))) builder in
  let builder := write_bytes (utf8_encode (ulid_to_string m.(model_id))) builder in
  let builder := write_str m.(schema_version) builder in
  let builder := write_u32 m.(compiler_format_version) builder in
  let builder := foldl (fun builder compiled_type => write_compiled_type compiled_type builder)
    (write_u64 (count_u64 m.(model_types)) builder) m.(model_types) in
  let builder := foldl (fun builder relation => write_compiled_relation relation builder)
    (write_u64 (count_u64 m.(model_relations)) builder) m.(model_relations) in
  let builder := foldl (fun builder node => write_node_fingerprint node builder)
    (write_u64 (count_u64 m.(model_nodes)) builder) m.(model_nodes) in
  foldl (fun builder condition => write_compiled_condition condition builder)
    (write_u64 (count_u64 m.(model_conditions)) builder) m.(model_conditions).

Definition model_fingerprint (m : CompiledModel) : Fingerprint := finish (model_bytes m).

End model.

(** ** Stored models *)

(** [StoredAuthorizationModel::new]; [compiled_source] is the fingerprint of its
    source that the compiler left in the compiled model, [fingerprint] the one of
    the compiled model itself. *)
Definition stored_model_new `{ConditionEngine, UlidCodec, Sha256} (source : AuthorizationModelSource)
    (compiled : CompiledModel) (compiled_source fingerprint : Fingerprint) (written_at : SystemTime) :
    result StorageError StoredAuthorizationModel :=
  if negb (source.(ams_store_id) =? compiled.(model_store_id))%N || negb (source.(ams_model_id) =? compiled.(model_id))%N then
    Err (storage_error SIntegrity "model_source_compiled_identity_mismatch")
  else if negb (bool_decide (source_fingerprint source = compiled_source)) then
    Err (storage_error SIntegrity "model_source_compiled_semantics_mismatch")
  else Ok (mkStoredAuthorizationModel compiled.(model_store_id) compiled.(model_id) fingerprint written_at).

(** ** What the fingerprints tell *)

#[local] Opaque write_str write_bytes.

Lemma write_u32_appends n : appends write_u32 n.
Proof. done. Qed.

(** A parameter type knows its depth. *)
Fixpoint parameter_type_ok (t : ParameterType) : Prop :=
  match pt_kind t with
  | PTList e | PTMap e => parameter_type_ok e ∧ pt_depth t = (pt_depth e + 1)%N
  | _ => pt_depth t = 1%N
  end.

Lemma parameter_type_ind (P : ParameterType → Prop) :
  (∀ k d, match k with PTList e | PTMap e => P e | _ => True end → P (mkParameterType k d)) → ∀ t, P t.
Proof. intros HP. fix go 1. intros [k d]. apply HP. destruct k; try exact I; apply go. Qed.

Lemma fingerprint_type_appends t : appends fingerprint_type t.
Proof.
  induction t as [k d IH] using parameter_type_ind. intros b. destruct k; try done; simpl in *;
    rewrite IH, (IH (write_tag _ [])); unfold write_tag; by rewrite app_assoc.
Qed.

Definition type_tag (k : ParameterTypeKind) : N :=
  match k with
  | PTAny => 0 | PTBool => 1 | PTString => 2 | PTInt => 3 | PTUint => 4 | PTDouble => 5 | PTBytes => 6
  | PTDuration => 7 | PTTimestamp => 8 | PTIpAddress => 9 | PTList _ => 10 | PTMap _ => 11
  end.

Lemma fingerprint_type_eq k d :
  fingerprint_type (mkParameterType k d) [] =
  type_tag k :: match k with PTList e | PTMap e => fingerprint_type e [] | _ => [] end.
Proof. destruct k; try done; simpl; by rewrite fingerprint_type_appends. Qed.

Lemma fingerprint_type_tells t : parameter_type_ok t → tells parameter_type_ok fingerprint_type t.
Proof.
  induction t as [k d IH] using parameter_type_ind. intros Ht [k' d'] r r' Ht' E. rewrite !fingerprint_type_eq in E.
  simpl in E. apply (inj2 cons) in E as [Etag E].
  destruct k, k'; try discriminate Etag; simpl in Ht, Ht'; try (by subst);
    destruct Ht as [Ht ->], Ht' as [Ht' ->]; apply IH in E as [-> ->]; done.
Qed.

(** ** Conditions *)

Definition write_parameter (e : ParameterName * ParameterType) (b : FingerprintBuilder) : FingerprintBuilder :=
  let '(name, parameter_type) := e in fingerprint_type parameter_type (write_str name b).

Definition parameter_repr (e : ParameterName * ParameterType) : Prop := str_ok e.1 ∧ parameter_type_ok e.2.

Record definition_repr (d : ConditionDefinition) : Prop := {
  dr_name : str_ok d.(cd_name);
  dr_expression : str_ok d.(cd_expression);
  dr_parameters : Forall parameter_repr d.(cd_parameters) ∧ (len d.(cd_parameters) < 2 ^ 64)%N;
}.

Lemma write_parameter_appends e : appends write_parameter e.
Proof. destruct e as [n t]. apply (appends_seq write_str fingerprint_type fst snd (n, t)); [apply write_str_appends|apply fingerprint_type_appends]. Qed.

Lemma write_parameter_tells e : parameter_repr e → tells parameter_repr write_parameter e.
Proof.
  destruct e as [n t]. intros [Hn Ht].
  intros [n' t'] r r' Hy E.
  by apply (tells_seq str_ok parameter_type_ok write_str fingerprint_type fst snd (n, t) fingerprint_type_appends
    (write_str_tells _ Hn) (fingerprint_type_tells _ Ht) (injective_projections (n, t)) (n', t') r r' Hy E).
Qed.

Lemma definition_bytes_eq d :
  definition_bytes d = builder_new "openfga.condition.compiled.v1" ++ write_str d.(cd_name) [] ++
    write_str d.(cd_expression) [] ++ write_list write_parameter d.(cd_parameters) [].
Proof.
  change (definition_bytes d) with (write_list write_parameter d.(cd_parameters)
    (write_str d.(cd_expression) (write_str d.(cd_name) (builder_new "openfga.condition.compiled.v1")))).
  rewrite (write_list_appends write_parameter) by apply write_parameter_appends.
  rewrite write_str_appends, (write_str_appends (cd_name d)). by rewrite <-!app_assoc.
Qed.

Lemma definition_bytes_inj d d' :
  definition_repr d → definition_repr d' → definition_bytes d = definition_bytes d' → d = d'.
Proof.
  intros [Hn He Hp] [Hn' He' Hp'] E. rewrite !definition_bytes_eq in E. apply app_inj_1 in E as [_ E]; [|done].
  apply write_str_tells in E as [En E]; [|done..]. apply write_str_tells in E as [Ee E]; [|done..].
  eapply tells_end in E; [|apply (write_list_tells parameter_repr)|exact Hp'].
  - destruct d, d'. simpl in *. congruence.
  - apply write_parameter_appends.
  - eapply Forall_impl; [apply Hp|]. apply write_parameter_tells.
  - apply Hp.
Qed.

(** *** The compilation cache *)

(** The limits that are hashed: all but the default budget of evaluations, which
    compilation does not read. *)
Definition hashed_limits (l : ConditionLimits) : list N :=
  [ l.(cl_expression_bytes); l.(cl_ast_nodes); l.(cl_ast_depth); l.(cl_identifiers); l.(cl_literals);
    l.(cl_comprehensions); l.(cl_parameters); l.(cl_literal_collection_items); l.(cl_runtime_value_bytes);
    l.(cl_runtime_collection_items) ].

Definition limits_repr (l : ConditionLimits) : Prop := Forall (fun n => n < 2 ^ 64)%N (hashed_limits l).

Lemma validate_ast_loop_limits l l' fuel : ∀ stack stats,
  hashed_limits l = hashed_limits l' → validate_ast_loop l fuel stack stats = validate_ast_loop l' fuel stack stats.
Proof.
  destruct l as [a1 a2 a3 a4 a5 a6 a7 a8 a9 a10 a11], l' as [b1 b2 b3 b4 b5 b6 b7 b8 b9 b10 b11]. intros stack stats.
  unfold hashed_limits. simpl. intros [= -> -> -> -> -> -> -> -> -> ->]. revert stack stats.
  induction fuel as [|fuel IH]; intros stack stats; [done|]. destruct stack as [|[e d] stack]; [done|]. simpl.
  match goal with |- match ?x with _ => _ end = match ?y with _ => _ end => change y with x; destruct x as [[st sts]|]; [|done] end.
  apply IH.
Qed.

Lemma compile_uncached_limits `{CelParser} d l l' : hashed_limits l = hashed_limits l' → compile_uncached d l = compile_uncached d l'.
Proof.
  intros E. pose proof E as E'. unfold hashed_limits in E'. injection E' as E1 _ _ _ _ _ E7 _ E9 E10.
  unfold compile_uncached, validate_definition, validate_ast_shape.
  rewrite E1, E7, E9, E10. destruct (if _ : bool then _ else _) as [[]|e]; [|done]. simpl.
  destruct (ok_or _ _) as [[expression|errors]|e]; [|done..]. simpl.
  by rewrite (validate_ast_loop_limits l l' _ _ _ E).
Qed.

Section compilation.
Context `{Sha256Laws}.

Lemma compilation_bytes_eq d l :
  compilation_bytes d l = builder_new "openfga.condition.compilation-cache.v1" ++ write_bytes (fingerprint_definition d) [] ++
    foldl (fun b n => write_u64 n b) [] (hashed_limits l).
Proof.
  change (compilation_bytes d l) with (foldl (fun b n => write_u64 n b)
    (write_bytes (fingerprint_definition d) (builder_new "openfga.condition.compilation-cache.v1")) (hashed_limits l)).
  rewrite (appends_fold write_u64 (hashed_limits l)) by (apply Forall_true; intros x b; reflexivity).
  rewrite write_bytes_appends. by rewrite <-app_assoc.
Qed.

(** The strings hashed for a key. *)
Definition compilation_inputs (d : ConditionDefinition) (l : ConditionLimits) : list (list N) :=
  [compilation_bytes d l; definition_bytes d].

Lemma compilation_key_inj d l d' l' :
  definition_repr d → definition_repr d' → limits_repr l → limits_repr l' →
  collision_free (compilation_inputs d l ++ compilation_inputs d' l') →
  compilation_cache_key d l = compilation_cache_key d' l' → d = d' ∧ hashed_limits l = hashed_limits l'.
Proof.
  intros Hd Hd' Hl Hl' Hfree E. apply Hfree in E; [|by left|do 2 right; by left].
  rewrite !compilation_bytes_eq in E. apply app_inj_1 in E as [_ E]; [|done].
  apply write_bytes_tells in E as [Ed E]; [|apply digest_ok..].
  apply Hfree in Ed; [|right; by left|do 3 right; by left]. split; [by apply definition_bytes_inj|].
  assert (E2 : foldl (fun b n => write_u64 n b) [] (hashed_limits l) ++ [] =
               foldl (fun b n => write_u64 n b) [] (hashed_limits l') ++ []) by (by rewrite E).
  apply (fold_tells (fun n => n < 2 ^ 64)%N) in E2 as [E2 _]; [done|done| |done|done].
  eapply Forall_impl; [exact Hl|]. intros n Hn. by apply write_u64_tells.
Qed.

Context `{CelParser}.
Variable inputs : list (list N).

(** The requests made of the cache. *)
Record requested (d : ConditionDefinition) (l : ConditionLimits) : Prop := {
  rq_definition : definition_repr d;
  rq_limits : limits_repr l;
  rq_inputs : compilation_inputs d l ⊆ inputs;
}.

Definition cache_ok (cache : CompilationCache) : Prop :=
  ∀ key c, cache !! key = Some c → ∃ d l, requested d l ∧ key = compilation_cache_key d l ∧ compile_uncached d l = Ok c.

Lemma compile_cached_ok d l cache :
  collision_free inputs → requested d l → cache_ok cache →
  cache_ok (compile_cached d l cache).1 ∧ (compile_cached d l cache).2 = compile_uncached d l.
Proof.
  intros Hfree Hr Hok. unfold compile_cached. destruct (cache !! _) as [c|] eqn:Ec.
  - split; [done|]. destruct (Hok _ _ Ec) as (d' & l' & Hr' & Ek & <-).
    destruct (compilation_key_inj d l d' l') as [<- El]; try apply Hr; try apply Hr'; [|done|].
    + eapply collision_free_mono; [exact Hfree|]. intros x [?|?]%elem_of_app; [by apply (rq_inputs _ _ Hr)|by apply (rq_inputs _ _ Hr')].
    + simpl. by apply compile_uncached_limits.
  - destruct (compile_uncached d l) as [c|e] eqn:E; [|done]. split; [|done]. intros key c' Hc'. simpl in Hc'.
    apply lookup_insert_Some in Hc' as [[<- <-]|[_ Hc']]; [by exists d, l|by apply Hok].
Qed.

Lemma run_cache_ok events : ∀ cache,
  collision_free inputs → cache_ok cache → (∀ d l, CompileCondition d l ∈ events → requested d l) →
  run_cache events cache =
  events ≫= fun e => match e with CompileCondition d l => [compile_uncached d l] | EvictCondition _ => [] end.
Proof.
  induction events as [|[d l|key] events IH]; intros cache Hfree Hok Hr; [done| |]; simpl.
  - destruct (compile_cached_ok d l cache Hfree (Hr d l ltac:(by left)) Hok) as [Hok' E].
    destruct (compile_cached d l cache) as [cache' r]. simpl in *. subst r. f_equal.
    apply IH; [done..|]. intros d' l' Hin. apply Hr. by right.
  - apply IH; [done| |intros d l Hin; apply Hr; by right]. intros k c [_ Hc]%lookup_delete_Some. by apply Hok.
Qed.

End compilation.

(** ** Rewrites *)

(** The order in which rewrites are written. *)
Fixpoint write_rewrite (s : RewriteSource) (b : FingerprintBuilder) : FingerprintBuilder :=
  match s with
  | SDirect => write_tag 0 b
  | SComputed relation => write_str relation (write_tag 1 b)
  | STupleToUserset tupleset computed => write_str computed (write_str tupleset (write_tag 2 b))
  | SUnion children => foldl (fun b s => write_rewrite s b) (write_u64 (count_u64 children) (write_tag 3 b)) children
  | SIntersection children =>
      foldl (fun b s => write_rewrite s b) (write_u64 (count_u64 children) (write_tag 4 b)) children
  | SDifference base subtract => write_rewrite subtract (write_rewrite base (write_tag 5 b))
  end.

Lemma write_rewrite_loop_eq fuel : ∀ pending b,
  sum_list_with rewrite_size pending <= fuel →
  write_rewrite_loop fuel pending b = foldl (fun b s => write_rewrite s b) b pending.
Proof.
  induction fuel as [|fuel IH]; intros [|s pending] b Hf; try done.
  { destruct s; simpl in Hf; lia. }
  destruct s; simpl in *; rewrite IH; rewrite ?sum_list_with_app, ?foldl_app; simpl; try done; lia.
Qed.

Lemma write_rewrite_fingerprint_eq s b : write_rewrite_fingerprint s b = write_rewrite s b.
Proof. unfold write_rewrite_fingerprint. rewrite write_rewrite_loop_eq; [done|simpl; lia]. Qed.

Fixpoint rewrite_repr (s : RewriteSource) : Prop :=
  match s with
  | SDirect => True
  | SComputed relation => str_ok relation
  | STupleToUserset tupleset computed => str_ok tupleset ∧ str_ok computed
  | SUnion children | SIntersection children =>
      foldr (fun s => and (rewrite_repr s)) True children ∧ (len children < 2 ^ 64)%N
  | SDifference base subtract => rewrite_repr base ∧ rewrite_repr subtract
  end.

Definition rewrite_tag (s : RewriteSource) : N :=
  match s with
  | SDirect => 0 | SComputed _ => 1 | STupleToUserset _ _ => 2 | SUnion _ => 3 | SIntersection _ => 4 | SDifference _ _ => 5
  end.

Definition rewrite_content (s : RewriteSource) : FingerprintBuilder :=
  match s with
  | SDirect => []
  | SComputed relation => write_str relation []
  | STupleToUserset tupleset computed => write_str tupleset [] ++ write_str computed []
  | SUnion children | SIntersection children => write_list write_rewrite children []
  | SDifference base subtract => write_rewrite base [] ++ write_rewrite subtract []
  end.

Lemma write_rewrite_list_eq tag l b :
  Forall (appends write_rewrite) l →
  foldl (fun b s => write_rewrite s b) (write_u64 (count_u64 l) (write_tag tag b)) l =
  b ++ tag :: write_list write_rewrite l [].
Proof.
  intros Hl. unfold write_list. rewrite !(appends_fold write_rewrite l Hl (write_u64 _ _)).
  unfold write_u64, write_tag. by rewrite <-!app_assoc.
Qed.

Lemma write_rewrite_eq s : ∀ b, write_rewrite s b = b ++ rewrite_tag s :: rewrite_content s.
Proof.
  induction s as [|n|t c|cs IH|cs IH|x y IHx IHy] using rewrite_source_ind; intros b; simpl.
  - done.
  - rewrite write_str_appends. unfold write_tag. by rewrite <-app_assoc.
  - rewrite write_str_appends, (write_str_appends t). unfold write_tag. by rewrite <-!app_assoc.
  - apply write_rewrite_list_eq. eapply Forall_impl; [exact IH|]. intros s Hs b'. by rewrite Hs, (Hs []).
  - apply write_rewrite_list_eq. eapply Forall_impl; [exact IH|]. intros s Hs b'. by rewrite Hs, (Hs []).
  - rewrite IHy, IHx, (IHx []), (IHy []). unfold write_tag. by rewrite <-!app_assoc.
Qed.

Lemma write_rewrite_appends s : appends write_rewrite s.
Proof. intros b. by rewrite write_rewrite_eq, (write_rewrite_eq s []). Qed.

Lemma write_rewrite_tells s : rewrite_repr s → tells rewrite_repr write_rewrite s.
Proof.
  assert (Hlist : ∀ cs cs' r r', Forall (fun s => rewrite_repr s → tells rewrite_repr write_rewrite s) cs →
    foldr (fun s => and (rewrite_repr s)) True cs ∧ (len cs < 2 ^ 64)%N →
    foldr (fun s => and (rewrite_repr s)) True cs' ∧ (len cs' < 2 ^ 64)%N →
    write_list write_rewrite cs [] ++ r = write_list write_rewrite cs' [] ++ r' → cs = cs' ∧ r = r').
  { intros cs cs' r r' IH [Hc Hl] [Hc' Hl'] E. rewrite foldr_and in Hc. rewrite foldr_and in Hc'.
    eapply (write_list_tells rewrite_repr) in E; [done|apply write_rewrite_appends| |done|done].
    apply Forall_forall. intros x Hx. rewrite Forall_forall in IH. rewrite Forall_forall in Hc. auto. }
  induction s as [|n|t c|cs IH|cs IH|x y IHx IHy] using rewrite_source_ind; intros Hs s' r r' Hs' E;
    rewrite !write_rewrite_eq in E; simpl in E; apply (inj2 cons) in E as [Et E]; destruct s'; try discriminate Et;
    simpl in Hs, Hs', E.
  - done.
  - by apply write_str_tells in E as [-> ->].
  - destruct Hs, Hs'. rewrite <-!app_assoc in E. apply write_str_tells in E as [-> E]; [|done..].
    by apply write_str_tells in E as [-> ->].
  - by apply Hlist in E as [-> ->].
  - by apply Hlist in E as [-> ->].
  - destruct Hs, Hs'. rewrite <-!app_assoc in E. apply IHx in E as [-> E]; [|done..]. by apply IHy in E as [-> ->].
Qed.

(** ** Declarations *)

Definition kind_content (k : RestrictionKindSource) : FingerprintBuilder :=
  match k with
  | RSObject => [0%N]
  | RSUserset relation => 1%N :: write_str relation []
  | RSWildcard => [2%N]
  end.

Definition condition_content (c : option ConditionName) : FingerprintBuilder :=
  match c with Some name => 1%N :: write_str name [] | None => [0%N] end.

Definition kind_repr (k : RestrictionKindSource) : Prop := match k with RSUserset relation => str_ok relation | _ => True end.

Definition restriction_repr (r : DirectRestrictionSource) : Prop :=
  str_ok r.(drs_subject_type) ∧ kind_repr r.(drs_kind) ∧ match r.(drs_condition) with Some name => str_ok name | None => True end.

Lemma write_restriction_eq r b :
  write_restriction r b = b ++ write_str r.(drs_subject_type) [] ++ kind_content r.(drs_kind) ++ condition_content r.(drs_condition).
Proof.
  destruct r as [ty k c]. unfold write_restriction, write_tag. cbn [drs_subject_type drs_kind drs_condition].
  rewrite (write_str_appends ty b). set (b' := b ++ write_str ty []).
  assert (Hk : match k with RSObject => b' ++ [0%N] | RSUserset relation => write_str relation (b' ++ [1%N])
               | RSWildcard => b' ++ [2%N] end = b' ++ kind_content k).
  { destruct k as [|n|]; [done| |done]. rewrite (write_str_appends n (b' ++ [1%N])). by rewrite <-app_assoc. }
  rewrite Hk. unfold b'. destruct c as [name|]; simpl; [|by rewrite <-!app_assoc].
  rewrite (write_str_appends name (_ ++ [1%N])). by rewrite <-!app_assoc.
Qed.

Lemma kind_content_tells k k' r r' :
  kind_repr k → kind_repr k' → kind_content k ++ r = kind_content k' ++ r' → k = k' ∧ r = r'.
Proof.
  destruct k, k'; simpl; intros Hk Hk' E; try discriminate E; try (by injection E as ->).
  apply (inj2 cons) in E as [_ E]. by apply write_str_tells in E as [-> ->].
Qed.

Lemma write_restriction_appends r : appends write_restriction r.
Proof. intros b. by rewrite write_restriction_eq, (write_restriction_eq r []). Qed.

Lemma write_restriction_tells r : restriction_repr r → tells restriction_repr write_restriction r.
Proof.
  destruct r as [ty k c]. intros (Hty & Hk & Hc) [ty' k' c'] r r' (Hty' & Hk' & Hc') E.
  rewrite !write_restriction_eq in E. simpl in *. rewrite <-!app_assoc in E.
  apply write_str_tells in E as [-> E]; [|done..]. apply kind_content_tells in E as [-> E]; [|done..].
  destruct c, c'; simpl in E; try discriminate E; [|by injection E as ->].
  apply (inj2 cons) in E as [_ E]. by apply write_str_tells in E as [-> ->].
Qed.

Record relation_repr (r : RelationSource) : Prop := {
  rr_name : str_ok r.(rs_name);
  rr_rewrite : rewrite_repr r.(rs_rewrite);
  rr_restrictions : Forall restriction_repr r.(rs_restrictions) ∧ (len r.(rs_restrictions) < 2 ^ 64)%N;
}.

Lemma write_relation_eq r b :
  write_relation r b = b ++ write_str r.(rs_name) [] ++ (if r.(rs_rewrite_valid) then 1 else 0)%N ::
    write_rewrite r.(rs_rewrite) [] ++ write_list write_restriction r.(rs_restrictions) [].
Proof.
  change (write_relation r b) with (write_list write_restriction r.(rs_restrictions)
    (write_rewrite_fingerprint r.(rs_rewrite) (write_tag (if r.(rs_rewrite_valid) then 1 else 0) (write_str r.(rs_name) b)))).
  rewrite write_rewrite_fingerprint_eq, (write_list_appends write_restriction) by apply write_restriction_appends.
  rewrite write_rewrite_appends, (write_str_appends (rs_name r)). unfold write_tag. by rewrite <-!app_assoc.
Qed.

Lemma write_relation_appends r : appends write_relation r.
Proof. intros b. by rewrite write_relation_eq, (write_relation_eq r []). Qed.

Lemma write_relation_tells r : relation_repr r → tells relation_repr write_relation r.
Proof.
  destruct r as [n w v rs]. intros [Hn Hw [Hr Hl]] [n' w' v' rs'] r r' [Hn' Hw' Hr'] E. rewrite !write_relation_eq in E.
  simpl in *. rewrite <-!app_assoc in E. apply write_str_tells in E as [-> E]; [|done..].
  simpl in E. apply (inj2 cons) in E as [Ev E]. rewrite <-!app_assoc in E. apply write_rewrite_tells in E as [-> E]; [|done..].
  apply (write_list_tells restriction_repr) in E as [-> ->]; [by destruct v, v'|apply write_restriction_appends| |done|done].
  eapply Forall_impl; [exact Hr|]. apply write_restriction_tells.
Qed.

Definition type_repr (t : TypeDefinitionSource) : Prop :=
  str_ok t.(td_name) ∧ Forall relation_repr t.(td_relations) ∧ (len t.(td_relations) < 2 ^ 64)%N.

Lemma write_type_eq t b :
  write_type t b = b ++ write_str t.(td_name) [] ++ write_list write_relation t.(td_relations) [].
Proof.
  change (write_type t b) with (write_list write_relation t.(td_relations) (write_str t.(td_name) b)).
  rewrite (write_list_appends write_relation) by apply write_relation_appends.
  rewrite (write_str_appends (td_name t)). by rewrite <-!app_assoc.
Qed.

Lemma write_type_appends t : appends write_type t.
Proof. intros b. by rewrite write_type_eq, (write_type_eq t []). Qed.

Lemma write_type_tells t : type_repr t → tells type_repr write_type t.
Proof.
  destruct t as [n rs]. intros (Hn & Hr & Hl) [n' rs'] r r' (Hn' & Hr') E. rewrite !write_type_eq in E. simpl in *.
  rewrite <-!app_assoc in E. apply write_str_tells in E as [-> E]; [|done..].
  apply (write_list_tells relation_repr) in E as [-> ->]; [done|apply write_relation_appends| |done|done].
  eapply Forall_impl; [exact Hr|]. apply write_relation_tells.
Qed.

(** ** Sources *)

Section sources.
Context `{UlidCodecLaws, Sha256Laws}.

(** A condition is hashed through the digest of its definition. *)
Definition condition_repr (c : ConditionSource) : Prop := str_ok c.(cs_key) ∧ definition_repr c.(cs_definition).

Record source_repr (s : AuthorizationModelSource) : Prop := {
  sr_store : (s.(ams_store_id) < ULID_BOUND)%N ∧ str_ok (ulid_to_string s.(ams_store_id));
  sr_model : (s.(ams_model_id) < ULID_BOUND)%N ∧ str_ok (ulid_to_string s.(ams_model_id));
  sr_schema : str_ok s.(ams_schema_version);
  sr_types : Forall type_repr s.(ams_type_definitions) ∧ (len s.(ams_type_definitions) < 2 ^ 64)%N;
  sr_conditions : Forall condition_repr s.(ams_conditions) ∧ (len s.(ams_conditions) < 2 ^ 64)%N;
}.

(** The strings hashed for a source. *)
Definition source_inputs (s : AuthorizationModelSource) : list (list N) :=
  source_bytes s :: ((fun c => definition_bytes c.(cs_definition)) <$> s.(ams_conditions)).

(** What a source declares: the errors its parameter types had are not part of
    it. *)
Definition declared_condition (c : ConditionSource) : ConditionName * ConditionDefinition := (c.(cs_key), c.(cs_definition)).

Definition same_declarations (s s' : AuthorizationModelSource) : Prop :=
  s.(ams_store_id) = s'.(ams_store_id) ∧ s.(ams_model_id) = s'.(ams_model_id) ∧
  s.(ams_schema_version) = s'.(ams_schema_version) ∧ s.(ams_type_definitions) = s'.(ams_type_definitions) ∧
  declared_condition <$> s.(ams_conditions) = declared_condition <$> s'.(ams_conditions).

(** A condition as it is hashed. *)
Definition hashed_condition (c : ConditionSource) : ConditionName * Fingerprint :=
  (c.(cs_key), fingerprint_definition c.(cs_definition)).

Definition write_hashed (c : ConditionName * Fingerprint) (b : FingerprintBuilder) : FingerprintBuilder :=
  write_bytes c.2 (write_str c.1 b).

Lemma write_hashed_appends c : appends write_hashed c.
Proof. apply (appends_seq write_str write_bytes fst snd); [apply write_str_appends|apply write_bytes_appends]. Qed.

Lemma write_hashed_tells c :
  str_ok c.1 ∧ bytes_ok c.2 → tells (fun c => str_ok c.1 ∧ bytes_ok c.2) write_hashed c.
Proof.
  intros [Hn Hb]. apply (tells_seq str_ok bytes_ok write_str write_bytes fst snd);
    [apply write_bytes_appends|by apply write_str_tells|by apply write_bytes_tells|apply injective_projections].
Qed.

Lemma source_bytes_eq s :
  source_bytes s = builder_new "openfga.authorization-model-source.v1" ++ write_str (ulid_to_string s.(ams_store_id)) [] ++
    write_str (ulid_to_string s.(ams_model_id)) [] ++ write_str s.(ams_schema_version) [] ++
    write_list write_type s.(ams_type_definitions) [] ++ write_list write_hashed (hashed_condition <$> s.(ams_conditions)) [].
Proof.
  assert (Hc : ∀ l b, foldl (fun b c => write_condition c b) b l =
    foldl (fun b c => write_hashed c b) b (hashed_condition <$> l)) by (induction l; intros b; simpl; auto).
  unfold source_bytes. cbv zeta. rewrite Hc.
  replace (count_u64 s.(ams_conditions)) with (count_u64 (hashed_condition <$> s.(ams_conditions)))
    by (unfold count_u64, len; by rewrite length_fmap).
  change (foldl (fun b c => write_hashed c b) (write_u64 (count_u64 ?l) ?b) ?l) with (write_list write_hashed l b).
  change (foldl (fun b c => write_type c b) (write_u64 (count_u64 ?l) ?b) ?l) with (write_list write_type l b).
  rewrite (write_list_appends write_hashed _ write_hashed_appends (write_list _ _ _)).
  rewrite (write_list_appends write_type _ write_type_appends (write_str _ _)).
  rewrite (write_str_appends (ams_schema_version s) (write_str _ _)).
  rewrite (write_str_appends (ulid_to_string (ams_model_id s)) (write_str _ _)).
  rewrite (write_str_appends (ulid_to_string (ams_store_id s)) (builder_new _)).
  by rewrite <-!app_assoc.
Qed.

Lemma hashed_conditions_repr (l : list ConditionSource) :
  Forall condition_repr l ∧ (len l < 2 ^ 64)%N →
  Forall (fun c => str_ok c.1 ∧ bytes_ok c.2) (hashed_condition <$> l) ∧ (len (hashed_condition <$> l) < 2 ^ 64)%N.
Proof.
  intros [Hl Hlen]. split; [|unfold len in *; by rewrite length_fmap].
  apply Forall_fmap. eapply Forall_impl; [exact Hl|]. intros c [Hn _]. split; [done|apply digest_ok].
Qed.

(** The conditions behind equal digests are the same. *)
Lemma hashed_conditions_inj l l' :
  Forall condition_repr l → Forall condition_repr l' →
  collision_free (((fun c => definition_bytes c.(cs_definition)) <$> l) ++
                  ((fun c => definition_bytes c.(cs_definition)) <$> l')) →
  hashed_condition <$> l = hashed_condition <$> l' → declared_condition <$> l = declared_condition <$> l'.
Proof.
  revert l'. induction l as [|c l IH]; intros [|c' l'] Hl Hl' Hfree E; try discriminate E; [done|].
  rewrite !fmap_cons in E. rewrite !fmap_cons in Hfree. rewrite !fmap_cons.
  apply Forall_cons in Hl as [[_ Hc] Hl]. apply Forall_cons in Hl' as [[_ Hc'] Hl']. injection E as Ek Ed E.
  f_equal.
  - unfold declared_condition. f_equal; [done|]. apply definition_bytes_inj; [done..|]. apply Hfree; [by left|apply elem_of_app; right; by left|exact Ed].
  - apply IH; [done..| |done]. eapply collision_free_mono; [exact Hfree|].
    intros x [?|?]%elem_of_app; apply elem_of_app; [left|right]; by right.
Qed.

Lemma source_fingerprint_inj s s' :
  source_repr s → source_repr s' → collision_free (source_inputs s ++ source_inputs s') →
  source_fingerprint s = source_fingerprint s' → same_declarations s s'.
Proof.
  intros [[Hs Hs1] [Hm Hm1] Hv [Ht Htl] Hc] [[Hs' Hs1'] [Hm' Hm1'] Hv' Ht' Hc'] Hfree E.
  apply Hfree in E; [|apply elem_of_app; left; by left|apply elem_of_app; right; by left].
  rewrite !source_bytes_eq in E. apply app_inj_1 in E as [_ E]; [|done].
  apply write_str_tells in E as [Es E]; [|done..]. apply write_str_tells in E as [Em E]; [|done..].
  apply write_str_tells in E as [Ev E]; [|done..].
  apply (write_list_tells type_repr) in E as [Et E];
    [|apply write_type_appends|eapply Forall_impl; [exact Ht|apply write_type_tells]|done|done].
  destruct (hashed_conditions_repr _ Hc) as [Hh Hhl].
  eapply tells_end in E; [|apply (write_list_tells (fun c => str_ok c.1 ∧ bytes_ok c.2));
    [apply write_hashed_appends|eapply Forall_impl; [exact Hh|apply write_hashed_tells]|done]|by apply hashed_conditions_repr].
  split_and!; [by apply ulid_to_string_inj..|done|done|].
  apply hashed_conditions_inj; [apply Hc|apply Hc'| |done]. eapply collision_free_mono; [exact Hfree|].
  intros x [?|?]%elem_of_app; apply elem_of_app; [left|right]; by right.
Qed.

Lemma same_declarations_fingerprint s s' : same_declarations s s' → source_fingerprint s = source_fingerprint s'.
Proof.
  intros (Es & Em & Ev & Et & Ec). unfold source_fingerprint. f_equal. rewrite !source_bytes_eq, Es, Em, Ev, Et.
  do 6 f_equal. apply (f_equal (fmap (fun '(k, d) => (k, fingerprint_definition d)))) in Ec.
  by rewrite <-!list_fmap_compose in Ec.
Qed.

End sources.

(** ** Compiled models *)

(** [u32] identifiers. *)
Definition id_ok (id : nat) : Prop := (N.of_nat id < 2 ^ 32)%N.
Definition ids_ok (ids : list nat) : Prop := Forall id_ok ids ∧ (len ids < 2 ^ 64)%N.

Lemma write_id_appends id : appends write_id id.
Proof. done. Qed.

Lemma write_id_tells id : id_ok id → tells id_ok write_id id.
Proof.
  intros Hid id' r r' Hid' E. apply write_u32_tells in E as [E ->]; [|done..]. split; [lia|done].
Qed.

Lemma write_ids_appends ids : appends write_ids ids.
Proof. apply (write_list_appends write_id), write_id_appends. Qed.

Lemma write_ids_tells ids : ids_ok ids → tells ids_ok write_ids ids.
Proof.
  intros [Hi Hl]. apply (write_list_tells id_ok); [apply write_id_appends| |done].
  eapply Forall_impl; [exact Hi|apply write_id_tells].
Qed.

Ltac tell_id E := rewrite <-?app_assoc in E; apply write_id_tells in E as [-> E]; [|done..].
Ltac tell_name E := rewrite <-?app_assoc in E; apply write_str_tells in E as [-> E]; [|done..].

(** Nodes. *)
Definition node_repr (n : RewriteNode) : Prop :=
  match n with
  | NDirect r | NComputed r => id_ok r
  | NTupleToUserset tupleset computed targets => id_ok tupleset ∧ str_ok computed ∧ ids_ok targets
  | NUnion children | NIntersection children => ids_ok children
  | NDifference base subtract => id_ok base ∧ id_ok subtract
  end.

Definition node_content (n : RewriteNode) : FingerprintBuilder :=
  match n with
  | NDirect r => 0%N :: write_id r []
  | NComputed r => 1%N :: write_id r []
  | NTupleToUserset tupleset computed targets => 2%N :: write_id tupleset [] ++ write_str computed [] ++ write_ids targets []
  | NUnion children => 3%N :: write_ids children []
  | NIntersection children => 4%N :: write_ids children []
  | NDifference base subtract => 5%N :: write_id base [] ++ write_id subtract []
  end.

#[local] Opaque write_id write_ids.

Lemma write_node_eq n b : write_node_fingerprint n b = b ++ node_content n.
Proof.
  destruct n as [r|r|t c ts|cs|cs|x y]; unfold write_node_fingerprint, write_tag; simpl;
    try (rewrite write_id_appends; by rewrite <-app_assoc); try (rewrite write_ids_appends; by rewrite <-app_assoc).
  - rewrite write_ids_appends, (write_str_appends c (write_id _ _)), (write_id_appends t (b ++ [2%N])). by rewrite <-!app_assoc.
  - rewrite (write_id_appends y (write_id _ _)), (write_id_appends x (b ++ [5%N])). by rewrite <-!app_assoc.
Qed.

Lemma write_node_appends n : appends write_node_fingerprint n.
Proof. intros b. by rewrite write_node_eq, (write_node_eq n []). Qed.

Lemma write_node_tells n : node_repr n → tells node_repr write_node_fingerprint n.
Proof.
  intros Hn n' r r' Hn' E. rewrite !write_node_eq in E. simpl in E.
  destruct n, n'; simpl in Hn, Hn', E; apply (inj2 cons) in E as [Et E]; try discriminate Et; destruct_and?.
  - by tell_id E.
  - by tell_id E.
  - tell_id E. tell_name E. by apply write_ids_tells in E as [-> ->].
  - by apply write_ids_tells in E as [-> ->].
  - by apply write_ids_tells in E as [-> ->].
  - tell_id E. by tell_id E.
Qed.

(** Types. *)
Definition compiled_type_repr (t : CompiledType) : Prop := id_ok t.(ct_id) ∧ str_ok t.(ct_name) ∧ ids_ok t.(ct_relations).

Lemma write_compiled_type_eq t b :
  write_compiled_type t b = b ++ write_id t.(ct_id) [] ++ write_str t.(ct_name) [] ++ write_ids t.(ct_relations) [].
Proof.
  unfold write_compiled_type.
  rewrite write_ids_appends, (write_str_appends (ct_name t) (write_id _ _)), (write_id_appends (ct_id t) b). by rewrite <-!app_assoc.
Qed.

Lemma write_compiled_type_appends t : appends write_compiled_type t.
Proof. intros b. by rewrite write_compiled_type_eq, (write_compiled_type_eq t []). Qed.

Lemma write_compiled_type_tells t : compiled_type_repr t → tells compiled_type_repr write_compiled_type t.
Proof.
  destruct t. intros (Hi & Hn & Hr) [i' n' rs'] r r' (Hi' & Hn' & Hr') E. rewrite !write_compiled_type_eq in E. simpl in *.
  tell_id E. tell_name E. by apply write_ids_tells in E as [-> ->].
Qed.

(** Restrictions and relations. *)
Definition compiled_restriction_repr (d : DirectRestriction) : Prop :=
  id_ok d.(dr_subject_type) ∧ match d.(dr_kind) with RKUserset target => id_ok target | _ => True end ∧
  match d.(dr_condition) with Required condition => id_ok condition | ReqUnconditional => True end.

Definition compiled_kind_content (k : RestrictionKind) : FingerprintBuilder :=
  match k with RKObject => [0%N] | RKUserset target => 1%N :: write_id target [] | RKWildcard => [2%N] end.
Definition requirement_content (c : ConditionRequirement) : FingerprintBuilder :=
  match c with ReqUnconditional => [0%N] | Required condition => 1%N :: write_id condition [] end.

Lemma write_compiled_restriction_eq d b :
  write_compiled_restriction d b =
  b ++ write_id d.(dr_subject_type) [] ++ compiled_kind_content d.(dr_kind) ++ requirement_content d.(dr_condition).
Proof.
  destruct d as [ty k c]. unfold write_compiled_restriction, write_tag. cbn [dr_subject_type dr_kind dr_condition].
  rewrite (write_id_appends ty b). set (b' := b ++ write_id ty []).
  assert (Hk : match k with RKObject => b' ++ [0%N] | RKUserset target => write_id target (b' ++ [1%N])
               | RKWildcard => b' ++ [2%N] end = b' ++ compiled_kind_content k).
  { destruct k as [|n|]; [done| |done]. rewrite (write_id_appends n (b' ++ [1%N])). by rewrite <-app_assoc. }
  rewrite Hk. unfold b'. destruct c as [|id]; simpl; [by rewrite <-!app_assoc|].
  rewrite (write_id_appends id (_ ++ [1%N])). by rewrite <-!app_assoc.
Qed.

Lemma write_compiled_restriction_appends d : appends write_compiled_restriction d.
Proof. intros b. by rewrite write_compiled_restriction_eq, (write_compiled_restriction_eq d []). Qed.

Lemma write_compiled_restriction_tells d :
  compiled_restriction_repr d → tells compiled_restriction_repr write_compiled_restriction d.
Proof.
  destruct d as [ty k c]. intros (Hty & Hk & Hc) [ty' k' c'] r r' (Hty' & Hk' & Hc') E.
  rewrite !write_compiled_restriction_eq in E. simpl in *. tell_id E. rewrite <-?app_assoc in E.
  assert (Hk2 : k = k' ∧ requirement_content c ++ r = requirement_content c' ++ r').
  { destruct k, k'; simpl in E; apply (inj2 cons) in E as [Et E]; try discriminate Et; try done. by tell_id E. }
  destruct Hk2 as [-> E2]. destruct c, c'; simpl in E2; apply (inj2 cons) in E2 as [Et E2]; try discriminate Et; [by subst|].
  by tell_id E2.
Qed.

Record compiled_relation_repr (x : CompiledRelation) : Prop := {
  crr_ids : id_ok x.(cr_id) ∧ id_ok x.(cr_object_type) ∧ id_ok x.(cr_root);
  crr_name : str_ok x.(cr_name);
  crr_restrictions : Forall compiled_restriction_repr x.(cr_restrictions) ∧ (len x.(cr_restrictions) < 2 ^ 64)%N;
}.

Lemma write_compiled_relation_eq x b :
  write_compiled_relation x b =
  b ++ write_id x.(cr_id) [] ++ write_id x.(cr_object_type) [] ++ write_str x.(cr_name) [] ++ write_id x.(cr_root) [] ++
  write_list write_compiled_restriction x.(cr_restrictions) [].
Proof.
  change (write_compiled_relation x b) with (write_list write_compiled_restriction x.(cr_restrictions)
    (write_id x.(cr_root) (write_str x.(cr_name) (write_id x.(cr_object_type) (write_id x.(cr_id) b))))).
  rewrite (write_list_appends _ _ write_compiled_restriction_appends), (write_id_appends (cr_root x) (write_str _ _)),
    (write_str_appends (cr_name x) (write_id _ _)), (write_id_appends (cr_object_type x) (write_id _ _)),
    (write_id_appends (cr_id x) b). by rewrite <-!app_assoc.
Qed.

Lemma write_compiled_relation_appends x : appends write_compiled_relation x.
Proof. intros b. by rewrite write_compiled_relation_eq, (write_compiled_relation_eq x []). Qed.

Lemma write_compiled_relation_tells x : compiled_relation_repr x → tells compiled_relation_repr write_compiled_relation x.
Proof.
  destruct x as [i o n w rs]. intros [(Hi & Ho & Hw) Hn [Hr Hl]] [i' o' n' w' rs'] r r' [(Hi' & Ho' & Hw') Hn' Hr'] E.
  rewrite !write_compiled_relation_eq in E. simpl in *. tell_id E. tell_id E. tell_name E. tell_id E.
  apply (write_list_tells compiled_restriction_repr) in E as [-> ->]; [done|apply write_compiled_restriction_appends| |done|done].
  eapply Forall_impl; [exact Hr|apply write_compiled_restriction_tells].
Qed.

(** ** Properties *)

Section models.
Context `{ConditionEngine, UlidCodecLaws, Sha256Laws}.
Variable condition_fingerprint : CompiledCondition → Fingerprint.

Definition compiled_condition_repr (c : CompiledConditionEntry) : Prop :=
  id_ok c.(ce_id) ∧ str_ok c.(ce_name) ∧ bytes_ok (condition_fingerprint c.(ce_condition)).

Record model_repr (m : CompiledModel) : Prop := {
  mr_store : (m.(model_store_id) < ULID_BOUND)%N ∧ str_ok (ulid_to_string m.(model_store_id));
  mr_model : (m.(model_id) < ULID_BOUND)%N ∧ str_ok (ulid_to_string m.(model_id));
  mr_schema : str_ok m.(schema_version);
  mr_version : (m.(compiler_format_version) < 2 ^ 32)%N;
  mr_types : Forall compiled_type_repr m.(model_types) ∧ (len m.(model_types) < 2 ^ 64)%N;
  mr_relations : Forall compiled_relation_repr m.(model_relations) ∧ (len m.(model_relations) < 2 ^ 64)%N;
  mr_nodes : Forall node_repr m.(model_nodes) ∧ (len m.(model_nodes) < 2 ^ 64)%N;
  mr_conditions : Forall compiled_condition_repr m.(model_conditions) ∧ (len m.(model_conditions) < 2 ^ 64)%N;
}.

(** A compiled condition as it is hashed. *)
Definition hashed_entry (c : CompiledConditionEntry) : ConditionId * (ConditionName * Fingerprint) :=
  (c.(ce_id), (c.(ce_name), condition_fingerprint c.(ce_condition))).

(** The same model up to what conditions are compiled to; lookups and graph
    metadata are computed from these parts. *)
Definition same_model (m m' : CompiledModel) : Prop :=
  m.(model_store_id) = m'.(model_store_id) ∧ m.(model_id) = m'.(model_id) ∧ m.(schema_version) = m'.(schema_version) ∧
  m.(compiler_format_version) = m'.(compiler_format_version) ∧ m.(model_types) = m'.(model_types) ∧
  m.(model_relations) = m'.(model_relations) ∧ m.(model_nodes) = m'.(model_nodes) ∧
  hashed_entry <$> m.(model_conditions) = hashed_entry <$> m'.(model_conditions).

Definition write_entry_hashed (c : ConditionId * (ConditionName * Fingerprint)) (b : FingerprintBuilder) : FingerprintBuilder :=
  write_hashed c.2 (write_id c.1 b).

Definition entry_repr (c : ConditionId * (ConditionName * Fingerprint)) : Prop :=
  id_ok c.1 ∧ str_ok c.2.1 ∧ bytes_ok c.2.2.

Lemma write_entry_hashed_appends c : appends write_entry_hashed c.
Proof. apply (appends_seq write_id write_hashed fst snd); [apply write_id_appends|apply write_hashed_appends]. Qed.

Lemma write_entry_hashed_tells c : entry_repr c → tells entry_repr write_entry_hashed c.
Proof.
  intros (Hi & Hn & Hb). apply (tells_seq id_ok (fun c => str_ok c.1 ∧ bytes_ok c.2) write_id write_hashed fst snd);
    [apply write_hashed_appends|by apply write_id_tells|by apply write_hashed_tells|apply injective_projections].
Qed.

Lemma hashed_entries_repr l :
  Forall compiled_condition_repr l ∧ (len l < 2 ^ 64)%N →
  Forall entry_repr (hashed_entry <$> l) ∧ (len (hashed_entry <$> l) < 2 ^ 64)%N.
Proof. intros [Hl Hlen]. split; [by apply Forall_fmap|unfold len in *; by rewrite length_fmap]. Qed.

Lemma model_bytes_eq m :
  model_bytes condition_fingerprint m = builder_new "openfga.compiled-model.v1" ++ write_str (ulid_to_string m.(model_store_id)) [] ++
    write_str (ulid_to_string m.(model_id)) [] ++ write_str m.(schema_version) [] ++ write_u32 m.(compiler_format_version) [] ++
    write_list write_compiled_type m.(model_types) [] ++ write_list write_compiled_relation m.(model_relations) [] ++
    write_list write_node_fingerprint m.(model_nodes) [] ++
    write_list write_entry_hashed (hashed_entry <$> m.(model_conditions)) [].
Proof.
  assert (Hc : ∀ l b, foldl (fun b c => write_compiled_condition condition_fingerprint c b) b l =
    foldl (fun b c => write_entry_hashed c b) b (hashed_entry <$> l)) by (induction l; intros b; simpl; auto).
  unfold model_bytes. cbv zeta. rewrite Hc.
  replace (count_u64 m.(model_conditions)) with (count_u64 (hashed_entry <$> m.(model_conditions)))
    by (unfold count_u64, len; by rewrite length_fmap).
  change (write_bytes (utf8_encode (ulid_to_string m.(model_store_id)))) with (write_str (ulid_to_string m.(model_store_id))).
  change (write_bytes (utf8_encode (ulid_to_string m.(model_id)))) with (write_str (ulid_to_string m.(model_id))).
  change (foldl (fun b c => write_entry_hashed c b) (write_u64 (count_u64 ?l) ?b) ?l) with (write_list write_entry_hashed l b).
  change (foldl (fun b c => write_node_fingerprint c b) (write_u64 (count_u64 ?l) ?b) ?l) with (write_list write_node_fingerprint l b).
  change (foldl (fun b c => write_compiled_relation c b) (write_u64 (count_u64 ?l) ?b) ?l) with (write_list write_compiled_relation l b).
  change (foldl (fun b c => write_compiled_type c b) (write_u64 (count_u64 ?l) ?b) ?l) with (write_list write_compiled_type l b).
  rewrite (write_list_appends _ _ write_entry_hashed_appends (write_list _ _ _)).
  rewrite (write_list_appends _ _ write_node_appends (write_list _ _ _)).
  rewrite (write_list_appends _ _ write_compiled_relation_appends (write_list _ _ _)).
  rewrite (write_list_appends _ _ write_compiled_type_appends (write_u32 _ _)).
  rewrite (write_u32_appends (compiler_format_version m) (write_str _ _)).
  rewrite (write_str_appends (schema_version m) (write_str _ _)).
  rewrite (write_str_appends (ulid_to_string (model_id m)) (write_str _ _)).
  rewrite (write_str_appends (ulid_to_string (model_store_id m)) (builder_new _)).
  by rewrite <-!app_assoc.
Qed.

(** A list after which more follows, and the tail. *)
Ltac tell_list H E lem app := apply (write_list_tells H) in E as [? E];
  [|apply app|eapply Forall_impl; [eassumption|apply lem]|done|done].

Lemma model_bytes_inj m m' :
  model_repr m → model_repr m' → model_bytes condition_fingerprint m = model_bytes condition_fingerprint m' → same_model m m'.
Proof.
  intros [[Hs Hs1] [Hm Hm1] Hv Hf [Ht Htl] [Hr Hrl] [Hn Hnl] Hc] [[Hs' Hs1'] [Hm' Hm1'] Hv' Hf' Ht' Hr' Hn' Hc'] E.
  rewrite !model_bytes_eq in E. apply app_inj_1 in E as [_ E]; [|done].
  apply write_str_tells in E as [Es E]; [|done..]. apply write_str_tells in E as [Em E]; [|done..].
  apply write_str_tells in E as [Ev E]; [|done..]. apply write_u32_tells in E as [Ef E]; [|done..].
  tell_list compiled_type_repr E write_compiled_type_tells write_compiled_type_appends.
  tell_list compiled_relation_repr E write_compiled_relation_tells write_compiled_relation_appends.
  tell_list node_repr E write_node_tells write_node_appends.
  destruct (hashed_entries_repr _ Hc) as [Hh Hhl].
  eapply tells_end in E; [|apply (write_list_tells entry_repr);
    [apply write_entry_hashed_appends|eapply Forall_impl; [exact Hh|apply write_entry_hashed_tells]|done]
    |by apply hashed_entries_repr].
  split_and!; [by apply ulid_to_string_inj..|done|done|done|done|done|done].
Qed.

End models.

(** C11: the compilation cache is transparent.  Whatever conditions are compiled
    in whatever order and whatever is evicted in between, each compilation gives
    exactly what compiling without a cache gives, errors included, unless a
    digest collides. *)
Theorem compilation_cache_transparent `{Sha256Laws, CelParser} inputs events :
  collision_free inputs → (∀ d l, CompileCondition d l ∈ events → requested inputs d l) →
  run_cache events ∅ =
  events ≫= fun e => match e with CompileCondition d l => [compile_uncached d l] | EvictCondition _ => [] end.
Proof. intros Hfree Hr. apply (run_cache_ok inputs); [done|by intros key c Hc|done]. Qed.

(** C12: model fingerprints identify compiled models.  Two compiled models have the
    same fingerprint exactly when they have the same identity, schema, types,
    relations with their restrictions, rewrite nodes and conditions, unless the
    digest collides. *)
Theorem model_fingerprints_identify_models `{ConditionEngine, UlidCodecLaws, Sha256Laws} condition_fingerprint m m' :
  model_repr condition_fingerprint m → model_repr condition_fingerprint m' →
  collision_free [model_bytes condition_fingerprint m; model_bytes condition_fingerprint m'] →
  model_fingerprint condition_fingerprint m = model_fingerprint condition_fingerprint m' ↔
  same_model condition_fingerprint m m'.
Proof.
  intros Hm Hm' Hfree. split.
  - intros E. apply model_bytes_inj; [done..|]. apply Hfree; [by left|right; by left|exact E].
  - intros (E1 & E2 & E3 & E4 & E5 & E6 & E7 & E8). unfold model_fingerprint. f_equal.
    by rewrite !model_bytes_eq, E1, E2, E3, E4, E5, E6, E7, E8.
Qed.

(** Sources that declare the same and whose parameter types had no errors are
    the same. *)
Lemma same_declarations_eq s s' :
  (∀ c, c ∈ s.(ams_conditions) → c.(cs_parameter_type_errors) = []) →
  (∀ c, c ∈ s'.(ams_conditions) → c.(cs_parameter_type_errors) = []) → same_declarations s s' → s = s'.
Proof.
  destruct s as [a b c d l], s' as [a' b' c' d' l']. unfold same_declarations. simpl. intros Hl Hl' (-> & -> & -> & -> & E). f_equal.
  revert l' Hl' E. induction l as [|x l IH]; intros [|x' l'] Hl' E; try discriminate E; [done|].
  rewrite !fmap_cons in E. injection E as Ek Ed E. f_equal.
  - pose proof (Hl x ltac:(by left)) as Hx. pose proof (Hl' x' ltac:(by left)) as Hx'. destruct x, x'. simpl in *. congruence.
  - apply IH; [intros y Hy; apply Hl; by right|intros y Hy; apply Hl'; by right|done].
Qed.

(** A stored model belongs to its source.  When a source and a compiled model
    are accepted as a pair, the model was compiled from what the source
    declares, and compiling the source again gives the model, unless a digest
    collides. *)
Theorem stored_models_match_sources `{ConditionCompilerLaws, UlidCodecLaws, Sha256Laws}
    source compiled_from limits climits m fingerprint written_at stored :
  model_limits_ok limits → source_repr source → source_repr compiled_from →
  collision_free (source_inputs source ++ source_inputs compiled_from) →
  compile compiled_from limits climits = Some (Ok m) →
  stored_model_new source m (source_fingerprint compiled_from) fingerprint written_at = Ok stored →
  same_declarations source compiled_from ∧
  stored = mkStoredAuthorizationModel source.(ams_store_id) source.(ams_model_id) fingerprint written_at ∧
  ((∀ c, c ∈ source.(ams_conditions) → c.(cs_parameter_type_errors) = []) → compile source limits climits = Some (Ok m)).
Proof.
  intros Hlim Hs Hs' Hfree Hm. unfold stored_model_new.
  destruct (N.eqb_spec source.(ams_store_id) m.(model_store_id)) as [Est|]; [|done].
  destruct (N.eqb_spec source.(ams_model_id) m.(model_id)) as [Eid|]; [|done]. simpl.
  case_bool_decide as Ef; [|done]. intros [= <-].
  assert (Hsame : same_declarations source compiled_from) by (by apply source_fingerprint_inj).
  split_and!; [done|congruence|]. intros Herr. rewrite (same_declarations_eq source compiled_from); [done|done| |done].
  destruct (compile_ok _ _ _ _ Hlim Hm) as [origins Hc]. intros c Hin.
  by destruct (declared_conditions_ok _ _ (compiled_declarations _ _ _ _ _ Hc) c Hin).
Qed.

(** ** The fixture *)

Import Fixture Codecs Declarations Deployment.

Ltac repr_field :=
  match goal with
  | |- str_ok _ => apply str_ok_eval; vm_compute; reflexivity
  | |- Forall _ _ => constructor
  | |- _ ∧ _ => split
  | |- True => exact I
  | |- (_ < _)%N => vm_compute; reflexivity
  | |- id_ok _ => vm_compute; reflexivity
  | |- _ => constructor
  end.

Lemma source_fixture_repr : source_repr source.
Proof. repeat repr_field. Qed.

(** The same model with the union of editors read as an intersection. *)
Definition other_model : CompiledModel :=
  mkCompiledModel 1%N 2%N model.(schema_version) model.(compiler_format_version) model.(model_types) model.(type_lookup)
    model.(model_relations) model.(relation_lookup)
    [ NDirect 0; NDirect 1; NDirect 2; NComputed 3; NIntersection [2; 3]; NDirect 3;
      NDirect 4; NTupleToUserset 5 owner [1]; NIntersection [6; 7]; NDirect 5 ]
    [] [] model.(model_graph).

Definition no_conditions (c : CompiledCondition) : Fingerprint := [].

Lemma model_fixture_repr : model_repr no_conditions model ∧ model_repr no_conditions other_model.
Proof. repeat repr_field. Qed.

Lemma model_fingerprints_identify_models_witness :
  model_fingerprint no_conditions model ≠ model_fingerprint no_conditions other_model.
Proof.
  intros E. apply (model_fingerprints_identify_models no_conditions model other_model) in E.
  - by destruct E as (_ & _ & _ & _ & _ & _ & En & _).
  - apply model_fixture_repr.
  - apply model_fixture_repr.
  - refine (collision_free_eval (digest 0) _ _). vm_compute. reflexivity.
Defined.

Lemma stored_models_match_sources_witness :
  stored_model_new source model (source_fingerprint source) (model_fingerprint no_conditions model) 0 =
    Ok (mkStoredAuthorizationModel 1%N 2%N (model_fingerprint no_conditions model) 0) ∧
  compile source default_model_limits default_condition_limits = Some (Ok model).
Proof.
  split; [vm_compute; reflexivity|].
  refine (proj2 (proj2 (stored_models_match_sources source source default_model_limits default_condition_limits model
    (model_fingerprint no_conditions model) 0
    (mkStoredAuthorizationModel 1%N 2%N (model_fingerprint no_conditions model) 0)
    Declarations.limits_ok source_fixture_repr source_fixture_repr _ Declarations.compiles _)) _).
  - refine (collision_free_eval (digest 0) _ _). vm_compute. reflexivity.
  - vm_compute. reflexivity.
  - intros c Hc. by apply elem_of_nil in Hc.
Defined.

#[local] Existing Instance Conditions.parser.

(** Limits that the expression of the office does not meet. *)
Definition tight_limits : ConditionLimits := mkConditionLimits 4096 3 64 256 1024 32 100 100 1048576 10000 100.

Definition compilations : list cache_event :=
  [ CompileCondition Conditions.office_definition default_condition_limits;
    CompileCondition Conditions.office_definition tight_limits;
    CompileCondition Conditions.office_definition default_condition_limits;
    EvictCondition (compilation_cache_key Conditions.office_definition default_condition_limits);
    CompileCondition Conditions.office_definition default_condition_limits ].

Lemma office_repr : definition_repr Conditions.office_definition ∧ limits_repr default_condition_limits ∧ limits_repr tight_limits.
Proof. repeat repr_field. Qed.

Lemma compilation_cache_transparent_witness :
  (is_ok <$> run_cache compilations ∅) = [true; false; true; true] ∧
  run_cache compilations ∅ =
  compilations ≫= fun e =>
    match e with CompileCondition d l => [compile_uncached d l] | EvictCondition _ => [] end.
Proof.
  split; [vm_compute; reflexivity|].
  apply (compilation_cache_transparent (compilation_inputs Conditions.office_definition default_condition_limits ++
    compilation_inputs Conditions.office_definition tight_limits)).
  - refine (collision_free_eval (digest 0) _ _). vm_compute. reflexivity.
  - intros d l Hin. unfold compilations in Hin. repeat (apply elem_of_cons in Hin as [[= -> ->]|Hin] || apply elem_of_cons in Hin as [?|Hin]);
      try done; try (by apply elem_of_nil in Hin); split; try apply office_repr; intros x Hx; apply elem_of_app; auto.
Defined.
